(* ===== verification/_CoqProject ===== *)
-Q . S2P
Prelude.v
Text.v
StringView.v
Timestamp.v
FilterTypes.v
FilterMerge.v
FilterBigint.v
FilterBigintMerge.v
FilterBytes.v
FilterBytesMerge.v
FilterCounterexamples.v
Calendar.v
Civil.v
TimestampFormat.v
TimestampParse.v
BitUtil.v
BitWords.v
BitBatches.v
BitSearch.v
BitCopy.v
BitHash.v
SelectivityVector.v
OrderedMap.v
MmapArena.v
ManagedMmapArenas.v
TreeOfLosers.v
TreeOfLosersEquals.v
MergeStreams.v
Base64.v
Base64Mime.v
HugeInt.v
DecimalBase.v
DecimalPrint.v
Decimal.v
DecimalText.v
StringIds.v
Coding.v
BigintIdMap.v
DenseHll.v
DenseHllSerial.v
SparseHll.v
HllAccumulator.v
