(* ===== verification/Prelude.v ===== *)
(** Verification of the core of Bolt, a C++ library for columnar execution.

    * The program

    Bolt evaluates queries over column vectors.  A scan pushes filters down
    into the file readers; values are machine integers, strings held as
    16-byte views, and timestamps; the timestamps are parsed from and printed
    to text, and decimals are 64 or 128-bit integers with a scale.  Which rows
    of a vector take part is kept in a bitmap with cached bounds, on top of
    functions over the bits of machine words.  Memory comes from arenas of
    mapped pages.  Sorted runs are merged by a tree of losers.  Strings and
    integers are numbered by id maps, approx_distinct keeps HyperLogLog
    sketches, and data is exchanged as Base64 and variable-length integers.
    This library models these parts as functions of Rocq and proves what they
    compute.

    * The files and what they model

    - Prelude.v: results of C++ code (a value, a thrown error, or undefined
      behaviour), machine integers with wrap-around, loops over vectors, the
      tactics of the development.  Text.v: characters, digits, and writes into
      preallocated memory; countDigits of bolt/common/base/CountBits.h.
    - StringView.v: the 16-byte string views of bolt/type/StringView.h and
      StringView.cpp: layout, comparison by prefix words, linear search.
    - Timestamp.v: bolt/type/Timestamp.h: seconds and nanoseconds, conversion
      of units, precision, order, fixed-offset zones.
    - FilterTypes.v: the filter classes of bolt/type/filter/FilterBase.h and
      Filter.cpp: one record and constructor function per class, the virtual
      tests by dispatch on the class.  FilterMerge.v: mergeWith of every class
      and the helpers of FilterUtil.cpp.
    - FilterBigint.v, FilterBigintMerge.v: theorems on the filters on 64-bit
      integers.  FilterBytes.v, FilterBytesMerge.v: theorems on the filters on
      strings.  FilterCounterexamples.v: inputs on which the code fails.
    - Calendar.v: the calendar conversions of bolt/type/Timestamp.cpp.
      Civil.v: the dates of bolt/type/TimestampConversion.cpp.
    - TimestampFormat.v: printing (Timestamp.cpp).  TimestampParse.v: parsing
      (TimestampConversion.cpp).
    - BitUtil.v, BitWords.v, BitBatches.v, BitSearch.v, BitCopy.v, BitHash.v:
      bolt/common/base/BitUtil.h and BitUtil.cpp.  BitUtil.v has memory as a
      buffer with bounds-checked loads and stores, single bits and the loops
      over the words of a range; BitWords.v fills, combines, compares and
      visits ranges; BitBatches.v visits groups of bits; BitSearch.v searches
      for bits; BitCopy.v copies and scatters; BitHash.v hashes and permutes.
    - SelectivityVector.v: the sets of rows of bolt/vector/SelectivityVector.h
      and SelectivityVector.cpp, which call the functions on bits.
    - OrderedMap.v: std::map as a sorted association list.  MmapArena.v and
      ManagedMmapArenas.v: the arenas of bolt/common/memory/MmapArena.cpp.
    - TreeOfLosers.v, TreeOfLosersEquals.v: the tree of losers of
      bolt/exec/TreeOfLosers.h over an interface of streams, without and with
      the flag for equal values.  MergeStreams.v: MergeArray of the same file
      and the merge of sorted streams by either of them.
    - Base64.v, Base64Mime.v: bolt/common/encode/Base64.h and Base64.cpp.
      Coding.v: the varints, zig-zag numbers and two-word integers of
      bolt/common/encode/Coding.h and UInt128.h.
    - HugeInt.v: bolt/type/HugeInt.h and HugeInt.cpp.  DecimalBase.v,
      DecimalPrint.v, Decimal.v, DecimalText.v: powers of ten and ranges,
      printing, arithmetic and parsing of bolt/type/DecimalUtil.h and
      DecimalUtil.cpp.
    - StringIds.v: the map and the leases of bolt/common/caching/StringIdMap.h
      and StringIdMap.cpp.  BigintIdMap.v: the hash table of
      bolt/common/base/BigintIdMap.h and BigintIdMap.cpp.
    - DenseHll.v, DenseHllSerial.v, SparseHll.v: the two layouts of
      bolt/common/hyperloglog.  HllAccumulator.v: the accumulators of
      bolt/functions/prestosql/aggregates/ApproxDistinctAggregate.cpp, which
      start sparse and become dense.

    * How the code is modelled

    A C++ function is a function of the same name; a method takes its object
    first; a member function that changes its object returns the new object.
    A function that can throw or run into undefined behaviour returns
    [result].  Signed overflow, an access out of bounds and a read of an empty
    optional are errors of this type, so that a theorem which says that a
    result is [Ok] rules them out.  Integers are [Z]; a conversion that can
    lose bits is written with [wrap_signed] or [wrap_unsigned], and a loop
    with a counter of type int is [int_loop], which fails when the counter
    overflows.  Strings and buffers are lists of character codes.  A decoder
    that writes to the buffer of its caller and may throw has the buffer it
    leaves behind as part of its outcome ([writing] in Base64.v).  Objects that
    calls share (leases, groups) are kept in a store and named by their place.
    The debug assertions of the code are not checks of the model.  Code
    outside the repository is a parameter: the hash sets of folly (class
    [F14Ops], with their documented behaviour as [F14Laws]), the sort of boost,
    the 256-bit integers of boost and the conversions of folly, the byte
    sources of the varint decoders, the hash function XXH64, the addresses that
    mmap returns, the time zone database, and the build flag kSparkCompatible.

    * Bounds and fuel

    The dispatch of [mergeWith] swaps its arguments at most a few times: fuel
    3 is enough for the integer filters and 6 for the string filters, which
    is proved.  The loop that finds the year of a day needs at most 7 rounds
    for every 64-bit number of seconds (Calendar.v).  Loops over a string
    have its length as fuel; digits of 64-bit integers need 20 rounds.  A loop
    over the words of a range has one round more than words, a loop over the
    one bits of a word 65 rounds ([kWordFuel]), a loop over bytes or bits one
    round more than there are.  The recursions of the tree of losers have one
    round more than twice the streams, draining it one call more than there
    are values.  Varints need 10 rounds for 64 bits and 19 for 128 bits, digits
    of 128-bit integers 40 ([kDigitFuel]), the search for an unused string id
    one more than the ids in use, probing of a hash table its capacity, the
    adjustment of a HyperLogLog baseline 64, a binary search one more than the
    entries, and the lines of MIME one more than the bytes.  The theorems show
    that these bounds are never reached.

    * What the theorems show

    Filters: the tests equal a reference semantics; range tests never reject
    a chunk with a passing value; [mergeWith] is the conjunction; the
    factories accept the listed values.  String views compare like the
    strings.  Timestamps: conversions of units, calendar fields, civil dates
    and ISO weeks are inverse to each other and agree across the different
    algorithms; printing has one reference for both printers and fits its
    buffer; parsing ends on every input within the string and reads back what
    was printed.  Bits: the functions that work word by word, with masks at
    the ends of a range or with vector instructions, do what a loop over
    single bits does, inside the memory they are given.  Selectivity vectors
    refine sets of rows, for every sequence of calls.  Arenas refine an
    allocator that knows only the live blocks.  Merging: every call returns a
    least stream, and draining sorted streams sorts their values.  Encodings
    and decimals: what is written has the announced size and is read back;
    decoders stay inside their buffers on every input; rescaling, sums and
    parsing equal the exact numbers, rounded half away from zero.  Id maps
    refine finite maps for every sequence of calls.  HyperLogLog: both layouts
    and every tree of partial aggregations keep the largest value of each
    bucket, and the serialized result depends on the set of hashes alone.
    FilterCounterexamples.v and lemmas of Decimal.v and Coding.v show where
    the hypotheses of these theorems are needed.

    * What is not modelled

    Floating point filters, the cast and subscript filters, serialization of
    filters, named time zones (external/date), the branches of the searches on
    bits for SVE and RISC-V, the estimates of cardinalities in floating point,
    the Base64 overloads for chains of folly buffers, the mutex of the string
    ids, and the layers above: other vectors, expressions, operators, file
    formats, connectors. *)

From stdpp Require Export base list numbers sorting option sets gmap.
From Stdlib Require Export ZArith Lia.

#[global] Open Scope Z_scope.

(** * Results: C++ code that returns, throws or hits undefined behaviour *)

(** How an execution can stop without a value.  [CheckFailed] is a
    BOLT_CHECK / BOLT_USER_CHECK exception, [Unsupported] BOLT_UNSUPPORTED,
    [Unreachable] BOLT_UNREACHABLE, [UserFail] BOLT_USER_FAIL,
    [ArithmeticError] BOLT_ARITHMETIC_ERROR (checked arithmetic overflowed),
    [SignedOverflow] and [BadAccess] are undefined behaviour of C++ (signed
    integer overflow; dereferencing a past-the-end iterator, an empty optional
    or an out-of-range index), [BadShift] is a shift by a negative amount or by
    the width of the word or more and [DivisionByZero] a division of integers by zero,
    which are undefined too, and [OutOfFuel] says
    that the recursion bound of the model was reached. *)
Inductive error : Type :=
  | CheckFailed
  | Unsupported
  | Unreachable
  | UserFail
  | ArithmeticError
  | SignedOverflow
  | BadAccess
  | BadShift
  | DivisionByZero
  | OutOfFuel.

Inductive result (A : Type) : Type :=
  | Ok (a : A)
  | Err (e : error).
Arguments Ok {A} a.
Arguments Err {A} e.

#[export] Instance error_eq_dec : EqDecision error.
Proof. solve_decision. Defined.

#[export] Instance result_eq_dec {A} `{EqDecision A} : EqDecision (result A).
Proof. solve_decision. Defined.

Definition rbind {A B} (m : result A) (k : A -> result B) : result B :=
  match m with
  | Ok a => k a
  | Err e => Err e
  end.

Definition rmap {A B} (f : A -> B) (m : result A) : result B :=
  rbind m (fun a => Ok (f a)).

(** BOLT_CHECK(b): continue when [b] holds, throw otherwise. *)
Definition check (b : bool) : result unit :=
  if b then Ok tt else Err CheckFailed.

Declare Scope bolt_scope.
Delimit Scope bolt_scope with bolt.
Notation "'let!' x ':=' m 'in' k" := (rbind m (fun x => k))
  (at level 10, x name, m at level 100, k at level 200,
   format "'[v' 'let!'  x  ':='  m  'in' '/' k ']'") : bolt_scope.
Notation "'check!' b 'in' k" := (rbind (check b) (fun _ => k))
  (at level 10, b at level 100, k at level 200,
   format "'[v' 'check!'  b  'in' '/' k ']'") : bolt_scope.
#[global] Open Scope bolt_scope.

Definition is_ok {A} (m : result A) : bool :=
  match m with Ok _ => true | Err _ => false end.

Lemma rbind_Ok {A B} (m : result A) (k : A -> result B) b :
  rbind m k = Ok b <-> exists a, m = Ok a /\ k a = Ok b.
Proof.
  destruct m; simpl; split.
  - eauto.
  - intros (a' & [= <-] & ?); done.
  - done.
  - by intros (? & ? & _).
Qed.

Lemma check_Ok b (u : unit) : check b = Ok u <-> b = true.
Proof. destruct b, u; simpl; split; done. Qed.

(** Loops over a vector that call a fallible operation on each element. *)
Section res_loops.
Context {A B : Type}.

Section with_test.
Variable p : A -> result bool.

(** [for (x : l) if (p(x)) out.push_back(x);] *)
Fixpoint filter_res (l : list A) : result (list A) :=
  match l with
  | [] => Ok []
  | x :: l' =>
      let! b := p x in
      let! r := filter_res l' in
      Ok (if b : bool then x :: r else r)
  end.

(** [for (x : l) if (p(x)) return true; return false;] *)
Fixpoint exists_res (l : list A) : result bool :=
  match l with
  | [] => Ok false
  | x :: l' =>
      let! b := p x in
      if b : bool then Ok true else exists_res l'
  end.
End with_test.

Section with_map.
Variable f : A -> result B.

(** [for (x : l) out.push_back(f(x));] *)
Fixpoint map_res (l : list A) : result (list B) :=
  match l with
  | [] => Ok []
  | x :: l' =>
      let! y := f x in
      let! ys := map_res l' in
      Ok (y :: ys)
  end.
End with_map.

Section with_step.
Variable step : B -> A -> result B.

(** [for (x : l) acc = step(acc, x);] *)
Fixpoint fold_res (acc : B) (l : list A) : result B :=
  match l with
  | [] => Ok acc
  | x :: l' =>
      let! acc' := step acc x in
      fold_res acc' l'
  end.
End with_step.

Section with_test_step.
Variable step : B -> A -> result (B * bool).

(** [for (x : l) if (!step(acc, x)) return false; return true;] *)
Fixpoint test_res (acc : B) (l : list A) : result (B * bool) :=
  match l with
  | [] => Ok (acc, true)
  | x :: l' =>
      let! r := step acc x in
      if snd r : bool then test_res (fst r) l' else Ok (fst r, false)
  end.
End with_test_step.

Section with_body.
Variables (cond : Z -> result bool) (stride : Z) (body : B -> Z -> result B).

(** [for (; cond(i); i += stride) st = body(st, i);], and the last [i]. *)
Fixpoint for_res (fuel : nat) (i : Z) (st : B) : result (Z * B) :=
  match fuel with
  | O => Err OutOfFuel
  | S fuel =>
      let! again := cond i in
      if again : bool then
        let! st := body st i in
        for_res fuel (i + stride) st
      else Ok (i, st)
  end.
End with_body.
End res_loops.

Lemma filter_res_pure {A} (p : A -> result bool) (q : A -> bool) l :
  (forall x, x ∈ l -> p x = Ok (q x)) ->
  filter_res p l = Ok (List.filter q l).
Proof.
  induction l as [|x l IH]; intros H; simpl; [done|].
  rewrite H by set_solver. simpl. rewrite IH by set_solver. simpl.
  by destruct (q x).
Qed.

Lemma exists_res_pure {A} (p : A -> result bool) (q : A -> bool) l :
  (forall x, x ∈ l -> p x = Ok (q x)) ->
  exists_res p l = Ok (existsb q l).
Proof.
  induction l as [|x l IH]; intros H; simpl; [done|].
  rewrite H by set_solver. simpl. destruct (q x); simpl; [done|].
  apply IH. set_solver.
Qed.

Lemma map_res_pure {A B} (f : A -> result B) (g : A -> B) l :
  (forall x, x ∈ l -> f x = Ok (g x)) -> map_res f l = Ok (map g l).
Proof.
  induction l as [|x l IH]; intros H; simpl; [done|].
  rewrite H by set_solver. simpl. by rewrite IH by set_solver.
Qed.

Lemma rbind_assoc {A B C} (m : result A) (k : A -> result B) (h : B -> result C) :
  rbind (rbind m k) h = rbind m (fun x => rbind (k x) h).
Proof. by destruct m. Qed.

Lemma rbind_ext {A B} (m : result A) (k k' : A -> result B) :
  (forall x, m = Ok x -> k x = k' x) -> rbind m k = rbind m k'.
Proof. destruct m; simpl; auto. Qed.

Lemma fold_res_app {A B} (step : B -> A -> result B) acc l l' :
  fold_res step acc (l ++ l') = (let! acc' := fold_res step acc l in fold_res step acc' l').
Proof.
  revert acc. induction l as [|x l IH]; intros acc; simpl; [done|].
  rewrite rbind_assoc. apply rbind_ext. auto.
Qed.

Lemma fold_res_ext {A B} (step step' : B -> A -> result B) acc l :
  (forall acc x, x ∈ l -> step acc x = step' acc x) ->
  fold_res step acc l = fold_res step' acc l.
Proof.
  revert acc. induction l as [|x l IH]; intros acc H; simpl; [done|].
  rewrite H by set_solver. apply rbind_ext. intros y _. apply IH. set_solver.
Qed.

(** A nested loop is a loop over the concatenation. *)
Lemma fold_res_flat_map {A B C} (step : B -> C -> result B) (f : A -> list C) acc l :
  fold_res (fun acc x => fold_res step acc (f x)) acc l = fold_res step acc (flat_map f l).
Proof.
  revert acc. induction l as [|x l IH]; intros acc; simpl; [done|].
  rewrite fold_res_app. apply rbind_ext. auto.
Qed.

Lemma fold_res_map {A B C} (step : B -> C -> result B) (f : A -> C) acc l :
  fold_res step acc (map f l) = fold_res (fun acc x => step acc (f x)) acc l.
Proof.
  revert acc. induction l as [|x l IH]; intros acc; simpl; [done|].
  apply rbind_ext. auto.
Qed.

Lemma test_res_app {A B} (step : B -> A -> result (B * bool)) acc l l' :
  test_res step acc (l ++ l')
  = (let! r := test_res step acc l in
     if snd r : bool then test_res step (fst r) l' else Ok (fst r, false)).
Proof.
  revert acc. induction l as [|x l IH]; intros acc; simpl; [done|].
  rewrite rbind_assoc. apply rbind_ext. intros [acc' []] _; simpl; auto.
Qed.

Lemma test_res_ext {A B} (step step' : B -> A -> result (B * bool)) acc l :
  (forall acc x, x ∈ l -> step acc x = step' acc x) ->
  test_res step acc l = test_res step' acc l.
Proof.
  revert acc. induction l as [|x l IH]; intros acc H; simpl; [done|].
  rewrite H by set_solver. apply rbind_ext. intros [acc' []] _; simpl; [|done].
  apply IH. set_solver.
Qed.

Lemma test_res_flat_map {A B C} (step : B -> C -> result (B * bool)) (f : A -> list C) acc l :
  test_res (fun acc x => test_res step acc (f x)) acc l = test_res step acc (flat_map f l).
Proof.
  revert acc. induction l as [|x l IH]; intros acc; simpl; [done|].
  rewrite test_res_app. apply rbind_ext. intros [acc' []] _; simpl; auto.
Qed.

Lemma test_res_map {A B C} (step : B -> C -> result (B * bool)) (f : A -> C) acc l :
  test_res step acc (map f l) = test_res (fun acc x => step acc (f x)) acc l.
Proof.
  revert acc. induction l as [|x l IH]; intros acc; simpl; [done|].
  apply rbind_ext. intros [acc' []] _; simpl; auto.
Qed.

(** A test without effects. *)
Lemma test_res_pure {A B} (step : B -> A -> result (B * bool)) (q : A -> bool) acc l :
  (forall acc x, x ∈ l -> step acc x = Ok (acc, q x)) ->
  test_res step acc l = Ok (acc, forallb q l).
Proof.
  induction l as [|x l IH]; intros H; simpl; [done|].
  rewrite H by set_solver. simpl. destruct (q x); simpl; [|done].
  apply IH. set_solver.
Qed.

(** A loop that runs [n] times is a loop over its indices. *)
Lemma for_res_seq {B} (cond : Z -> result bool) stride (body : B -> Z -> result B) fuel n i st :
  (n < fuel)%nat ->
  (forall k, 0 <= k < Z.of_nat n -> cond (i + stride * k) = Ok true) ->
  cond (i + stride * Z.of_nat n) = Ok false ->
  for_res cond stride body fuel i st
  = (let! st := fold_res body st (map (fun k => i + stride * k) (seqZ 0 (Z.of_nat n))) in
     Ok (i + stride * Z.of_nat n, st)).
Proof.
  revert fuel i st. induction n as [|n IH]; intros [|fuel] i st Hfuel Hyes Hno; try lia; simpl.
  - replace (i + stride * Z.of_nat 0) with i in Hno by lia. rewrite Hno. simpl.
    repeat f_equal. lia.
  - pose proof (Hyes 0 ltac:(lia)) as H0. replace (i + stride * 0) with i in H0 by lia.
    rewrite H0. cbn [rbind]. rewrite (seqZ_cons 0 (Z.of_nat (S n))) by lia.
    replace (Z.pred (Z.of_nat (S n))) with (Z.of_nat n) by lia.
    cbn [map fold_res]. replace (i + stride * 0) with i by lia. rewrite rbind_assoc.
    apply rbind_ext. intros st' _.
    replace (seqZ (Z.succ 0) (Z.of_nat n)) with (map (Z.add 1) (seqZ 0 (Z.of_nat n)))
      by apply (fmap_add_seqZ 1 0 (Z.of_nat n)).
    rewrite map_map, IH; [|lia| |].
    + replace (i + stride + stride * Z.of_nat n) with (i + stride * Z.of_nat (S n)) by lia.
      f_equal. f_equal. apply map_ext. intros k. lia.
    + intros k Hk. replace (i + stride + stride * k) with (i + stride * (k + 1)) by lia.
      apply Hyes. lia.
    + by replace (i + stride + stride * Z.of_nat n) with (i + stride * Z.of_nat (S n)) by lia.
Qed.

(** A loop with an invariant, which ends when the index has passed [n]. *)
Lemma for_res_inv {B} (cond : Z -> result bool) stride (body : B -> Z -> result B)
    (I : Z -> B -> Prop) n fuel i st :
  0 < stride -> (Z.to_nat (n - i) < fuel)%nat -> I i st ->
  (forall i st, I i st -> exists c, cond i = Ok c
     /\ (c = true -> i < n /\ exists st', body st i = Ok st' /\ I (i + stride) st')) ->
  exists i' st', for_res cond stride body fuel i st = Ok (i', st')
    /\ I i' st' /\ cond i' = Ok false.
Proof.
  intros Hs. revert i st. induction fuel as [|fuel IH]; intros i st Hf HI Hstep; [lia|].
  cbn [for_res]. destruct (Hstep i st HI) as (c & Hcond & Hc). rewrite Hcond. cbn [rbind].
  destruct c.
  - destruct (Hc eq_refl) as (Hlt & st' & -> & HI'). cbn [rbind]. apply IH; [lia|done|done].
  - by exists i, st.
Qed.

(** * Machine integers *)

Abbreviation INT16_MIN := (-32768).
Abbreviation INT16_MAX := 32767.
Abbreviation INT32_MIN := (-2147483648).
Abbreviation INT32_MAX := 2147483647.
Abbreviation INT64_MIN := (-9223372036854775808).
Abbreviation INT64_MAX := 9223372036854775807.
Abbreviation UINT64_MAX := 18446744073709551615.
Abbreviation INT128_MIN := (-170141183460469231731687303715884105728).
Abbreviation INT128_MAX := 170141183460469231731687303715884105727.

Definition in_int32 (z : Z) : bool := (INT32_MIN <=? z) && (z <=? INT32_MAX).
Definition in_int64 (z : Z) : bool := (INT64_MIN <=? z) && (z <=? INT64_MAX).
Definition in_int128 (z : Z) : bool :=
  (INT128_MIN <=? z) && (z <=? INT128_MAX).

(** Conversion to an unsigned or signed type of [w] bits, modulo 2^w. *)
Definition wrap_unsigned (w z : Z) : Z := z mod 2 ^ w.
Definition wrap_signed (w z : Z) : Z :=
  (z + 2 ^ (w - 1)) mod 2 ^ w - 2 ^ (w - 1).

(** Signed 32, 64 and 128-bit arithmetic: overflow is undefined behaviour. *)
Definition ck32 (z : Z) : result Z :=
  if in_int32 z then Ok z else Err SignedOverflow.
Definition ck64 (z : Z) : result Z :=
  if in_int64 z then Ok z else Err SignedOverflow.
Definition sadd64 (a b : Z) : result Z := ck64 (a + b).
Definition ssub64 (a b : Z) : result Z := ck64 (a - b).
Definition smul64 (a b : Z) : result Z := ck64 (a * b).
Definition ck128 (z : Z) : result Z :=
  if in_int128 z then Ok z else Err SignedOverflow.
Definition sadd128 (a b : Z) : result Z := ck128 (a + b).
Definition ssub128 (a b : Z) : result Z := ck128 (a - b).

Lemma in_int64_spec z : in_int64 z = true <-> INT64_MIN <= z <= INT64_MAX.
Proof. unfold in_int64. rewrite andb_true_iff, !Z.leb_le. done. Qed.

Lemma in_int128_spec z : in_int128 z = true <-> INT128_MIN <= z <= INT128_MAX.
Proof. unfold in_int128. rewrite andb_true_iff, !Z.leb_le. done. Qed.

Lemma ck32_in z : INT32_MIN <= z <= INT32_MAX -> ck32 z = Ok z.
Proof.
  intros H. unfold ck32, in_int32.
  by rewrite (proj2 (andb_true_iff _ _) (conj (proj2 (Z.leb_le _ _) (proj1 H))
    (proj2 (Z.leb_le _ _) (proj2 H)))).
Qed.

(** [for (int i = ...; i < v.size(); ++i)]: the counter has 32 bits and is
    compared with a 64-bit size, so that a loop over more than [INT32_MAX]
    elements runs [2 ^ 31] times and then overflows.  [body] is the loop over
    the given elements. *)
Definition int_loop {A B} (v : list A) (body : list A -> result B) : result B :=
  if Z.of_nat (length v) <=? INT32_MAX then body v
  else let! _ := body (take (Z.to_nat (2 ^ 31)) v) in Err SignedOverflow.

Lemma int_loop_ok {A B} (v : list A) (body : list A -> result B) :
  Z.of_nat (length v) <= INT32_MAX -> int_loop v body = body v.
Proof. intros H. unfold int_loop. by rewrite (proj2 (Z.leb_le _ _) H). Qed.

Lemma int_loop_overflow {A B} (v : list A) (body : list A -> result B) b :
  INT32_MAX < Z.of_nat (length v) -> body (take (Z.to_nat (2 ^ 31)) v) = Ok b ->
  int_loop v body = Err SignedOverflow.
Proof. intros H Hb. unfold int_loop. by rewrite (proj2 (Z.leb_gt _ _) H), Hb. Qed.

Lemma ck64_in z : INT64_MIN <= z <= INT64_MAX -> ck64 z = Ok z.
Proof. intros H. unfold ck64. by rewrite (proj2 (in_int64_spec z) H). Qed.

Lemma ck128_in z : INT128_MIN <= z <= INT128_MAX -> ck128 z = Ok z.
Proof. intros H. unfold ck128. by rewrite (proj2 (in_int128_spec z) H). Qed.

Lemma sadd64_in a b :
  INT64_MIN <= a + b <= INT64_MAX -> sadd64 a b = Ok (a + b).
Proof. apply ck64_in. Qed.

Lemma ssub64_in a b :
  INT64_MIN <= a - b <= INT64_MAX -> ssub64 a b = Ok (a - b).
Proof. apply ck64_in. Qed.

Lemma wrap_signed_id w z :
  0 < w -> - 2 ^ (w - 1) <= z < 2 ^ (w - 1) -> wrap_signed w z = z.
Proof.
  intros Hw Hz. unfold wrap_signed.
  assert (2 ^ w = 2 * 2 ^ (w - 1)) as Hp.
  { rewrite <- Z.pow_succ_r by lia. f_equal; lia. }
  rewrite Z.mod_small by lia. lia.
Qed.

Lemma wrap_signed_range w z :
  0 < w -> - 2 ^ (w - 1) <= wrap_signed w z < 2 ^ (w - 1).
Proof.
  intros Hw. unfold wrap_signed.
  assert (2 ^ w = 2 * 2 ^ (w - 1)) as Hp.
  { rewrite <- Z.pow_succ_r by lia. f_equal; lia. }
  assert (0 < 2 ^ (w - 1)) by (apply Z.pow_pos_nonneg; lia).
  pose proof (Z.mod_pos_bound (z + 2 ^ (w - 1)) (2 ^ w)). lia.
Qed.

Lemma wrap_unsigned_id w z : 0 <= z < 2 ^ w -> wrap_unsigned w z = z.
Proof. intros. unfold wrap_unsigned. by apply Z.mod_small. Qed.

Lemma wrap_unsigned_signed w z :
  0 < w -> wrap_unsigned w (wrap_signed w z) = wrap_unsigned w z.
Proof.
  intros Hw. unfold wrap_unsigned, wrap_signed.
  rewrite Zminus_mod_idemp_l. f_equal. lia.
Qed.

Lemma wrap_signed_unsigned w w' z :
  0 <= w <= w' -> wrap_signed w (wrap_unsigned w' z) = wrap_signed w z.
Proof.
  intros Hw. unfold wrap_signed, wrap_unsigned. f_equal.
  rewrite <- Zplus_mod_idemp_l, <- (Zplus_mod_idemp_l z). f_equal. f_equal.
  symmetry. apply Znumtheory.Zmod_div_mod; [lia|lia|].
  exists (2 ^ (w' - w)). rewrite <- Z.pow_add_r by lia. f_equal. lia.
Qed.

Lemma wrap_signed_inj w x y :
  0 < w -> 0 <= x < 2 ^ w -> 0 <= y < 2 ^ w ->
  wrap_signed w x = wrap_signed w y -> x = y.
Proof.
  intros Hw Hx Hy He. rewrite <- (wrap_unsigned_id w x), <- (wrap_unsigned_id w y) by done.
  rewrite <- (wrap_unsigned_signed w x), <- (wrap_unsigned_signed w y) by done.
  by rewrite He.
Qed.

(** * Bits of words *)

Lemma wrap_unsigned_bits w z i :
  0 <= w -> Z.testbit (wrap_unsigned w z) i = (i <? w) && Z.testbit z i.
Proof.
  intros Hw. unfold wrap_unsigned. destruct (i <? w) eqn:E; simpl.
  - destruct (decide (0 <= i)) as [Hi|Hi].
    + apply Z.mod_pow2_bits_low. lia.
    + by rewrite !Z.testbit_neg_r by lia.
  - apply Z.mod_pow2_bits_high. lia.
Qed.

(** A number below 2^w has no bits from w on. *)
Lemma testbit_above w z i : 0 <= z < 2 ^ w -> w <= i -> Z.testbit z i = false.
Proof.
  intros Hz Hi. destruct (decide (z = 0)) as [->|Hnz]; [apply Z.bits_0|].
  apply Z.bits_above_log2; [lia|].
  assert (0 <= w) by (destruct (decide (0 <= w)); [done|]; rewrite Z.pow_neg_r in Hz; lia).
  assert (Z.log2 z < w) by (apply Z.log2_lt_pow2; lia). lia.
Qed.

Lemma words_eq w x y :
  0 <= x < 2 ^ w -> 0 <= y < 2 ^ w ->
  (forall i, 0 <= i < w -> Z.testbit x i = Z.testbit y i) -> x = y.
Proof.
  intros Hx Hy H. apply Z.bits_inj'. intros i Hi.
  destruct (decide (i < w)); [auto|].
  rewrite (testbit_above w x), (testbit_above w y); [done|done|lia|done|lia].
Qed.

(** The bits of the operators of C++ on words. *)
Create HintDb bits.
#[export] Hint Rewrite Z.land_spec Z.lor_spec Z.lxor_spec Z.ldiff_spec : bits.
#[export] Hint Rewrite Z.shiftl_spec Z.shiftr_spec Z.lnot_spec Z.testbit_ones
  wrap_unsigned_bits using lia : bits.
#[export] Hint Rewrite Z.bits_0 Z.bits_m1 using lia : bits.

(** Arithmetic that stays inside its type. *)
Create HintDb machine.
#[export] Hint Rewrite ck32_in ck64_in ck128_in sadd64_in ssub64_in wrap_unsigned_id
  using lia : machine.

(** * Tactics *)

(** [lia] after turning a goal or hypothesis about a boolean comparison into the
    proposition it decides. *)
Ltac zbool :=
  try match goal with
  | |- true = _ => symmetry
  | |- false = _ => symmetry
  end;
  rewrite ?andb_true_iff, ?andb_false_iff, ?orb_true_iff, ?orb_false_iff,
    ?negb_true_iff, ?negb_false_iff,
    ?Z.eqb_eq, ?Z.eqb_neq, ?Z.ltb_lt, ?Z.ltb_ge, ?Z.leb_le, ?Z.leb_gt,
    ?Z.gtb_ltb, ?Z.geb_leb, ?Z.ltb_lt, ?Z.ltb_ge, ?Z.leb_le, ?Z.leb_gt in *;
  lia.

(** Linear arithmetic with division and remainder by constants. *)
Ltac euclidean := Z.to_euclidean_division_equations; lia.

(** Replace the comparisons of the goal that arithmetic decides. *)
Ltac zdecide :=
  repeat match goal with
  | |- context [?a =? ?b] =>
      first [replace (a =? b) with true by zbool
            |replace (a =? b) with false by zbool]
  | |- context [?a <? ?b] =>
      first [replace (a <? b) with true by zbool
            |replace (a <? b) with false by zbool]
  | |- context [?a <=? ?b] =>
      first [replace (a <=? b) with true by zbool
            |replace (a <=? b) with false by zbool]
  | |- context [?a >? ?b] =>
      first [replace (a >? b) with true by zbool
            |replace (a >? b) with false by zbool]
  | |- context [?a >=? ?b] =>
      first [replace (a >=? b) with true by zbool
            |replace (a >=? b) with false by zbool]
  end.

(** * Vectors *)

(** [v[i]] and [v[i] = x] of a std::vector. *)
Definition at_index {B} (v : list B) (i : Z) : result B :=
  if i <? 0 then Err BadAccess
  else match v !! Z.to_nat i with Some x => Ok x | None => Err BadAccess end.

Definition set_index {B} (v : list B) (i : Z) (x : B) : result (list B) :=
  if (0 <=? i) && (i <? Z.of_nat (length v)) then Ok (<[Z.to_nat i := x]> v) else Err BadAccess.

Lemma at_index_ok {B} (v : list B) i x : 0 <= i -> v !! Z.to_nat i = Some x -> at_index v i = Ok x.
Proof. intros Hi Hx. unfold at_index. replace (i <? 0) with false by lia. by rewrite Hx. Qed.

Lemma set_index_ok {B} (v : list B) i x :
  0 <= i < Z.of_nat (length v) -> set_index v i x = Ok (<[Z.to_nat i := x]> v).
Proof. intros Hi. unfold set_index. by replace ((0 <=? i) && (i <? Z.of_nat (length v))) with true by zbool. Qed.

(** * Bytes *)

Definition bytes_ok (l : list Z) : Prop := Forall (fun b => 0 <= b < 256) l.

(** * Masks and packing *)

Lemma lor_shiftl a k x : 0 <= k -> 0 <= x < 2 ^ k -> Z.lor (Z.shiftl a k) x = a * 2 ^ k + x.
Proof.
  intros Hk Hx. assert (Z.land (Z.shiftl a k) x = 0) as Hl.
  { apply Z.bits_inj'. intros i Hi. rewrite Z.land_spec, Z.shiftl_spec, Z.bits_0 by lia.
    destruct (decide (i < k)); [by rewrite Z.testbit_neg_r by lia|].
    by rewrite (testbit_above k x), andb_false_r by lia. }
  rewrite <- Z.lxor_lor, <- Z.add_nocarry_lxor, Z.shiftl_mul_pow2 by done. lia.
Qed.

Lemma below_bits n x : 0 <= n -> 0 <= x -> (forall i, n <= i -> Z.testbit x i = false) -> x < 2 ^ n.
Proof.
  intros Hn Hx H. destruct (decide (x = 0)) as [->|]; [apply Z.pow_pos_nonneg; lia|].
  apply Z.log2_lt_pow2; [lia|]. destruct (decide (Z.log2 x < n)); [done|].
  pose proof (Z.bit_log2 x ltac:(lia)) as Hl. by rewrite H in Hl by lia.
Qed.

Lemma lor_range n x y : 0 <= n -> 0 <= x < 2 ^ n -> 0 <= y < 2 ^ n -> 0 <= Z.lor x y < 2 ^ n.
Proof.
  intros Hn Hx Hy. assert (0 <= Z.lor x y) by (apply Z.lor_nonneg; lia). split; [done|].
  apply below_bits; [done..|]. intros i Hi.
  by rewrite Z.lor_spec, (testbit_above n x), (testbit_above n y) by done.
Qed.

Lemma land_mod z k : 0 <= k -> Z.land z (2 ^ k - 1) = z mod 2 ^ k.
Proof. intros Hk. rewrite <- Z.land_ones by done. f_equal. rewrite Z.ones_equiv. lia. Qed.

Lemma land_63 z : Z.land z 63 = z mod 64.
Proof. apply (land_mod z 6). lia. Qed.

Lemma land_255 z : Z.land z 255 = z mod 256.
Proof. apply (land_mod z 8). lia. Qed.

Lemma land_3 z : Z.land z 3 = z mod 4.
Proof. apply (land_mod z 2). lia. Qed.

Lemma land_15 z : Z.land z 15 = z mod 16.
Proof. apply (land_mod z 4). lia. Qed.

(** Lists that are sorted by a strict order are determined by their elements. *)
Lemma sorted_unique {A} (R : A -> A -> Prop) (l l' : list A) :
  (forall x y, R x y -> R y x -> False) -> StronglySorted R l -> StronglySorted R l' -> (forall x, x ∈ l <-> x ∈ l') -> l = l'.
Proof.
  intros HR Hl. revert l'. induction Hl as [|a l Hl IH Ha]; intros l' Hl' Hin.
  - destruct l' as [|b l']; [done|]. destruct (proj1 (elem_of_nil b)). apply Hin. by left.
  - destruct Hl' as [|b l' Hl' Hb]; [by destruct (proj1 (elem_of_nil a)); apply Hin; left|].
    rewrite Forall_forall in Ha, Hb.
    assert (a = b) as ->.
    { pose proof (proj1 (Hin a) ltac:(by left)) as H1. pose proof (proj2 (Hin b) ltac:(by left)) as H2.
      apply elem_of_cons in H1 as [->|H1]; [done|]. apply elem_of_cons in H2 as [->|H2]; [done|].
      destruct (HR a b (Ha _ H2) (Hb _ H1)). }
    f_equal. apply IH; [done|]. intros x. split; intros Hx.
    + pose proof (proj1 (Hin x) ltac:(by right)) as H1. apply elem_of_cons in H1 as [->|H1]; [|done]. by destruct (HR b b (Ha _ Hx) (Ha _ Hx)).
    + pose proof (proj2 (Hin x) ltac:(by right)) as H1. apply elem_of_cons in H1 as [->|H1]; [|done]. by destruct (HR b b (Hb _ Hx) (Hb _ Hx)).
Qed.
