(* ===== verification/Text.v ===== *)
(** Characters, decimal digits and text written into preallocated memory, as the
    formatters and parsers of timestamps and decimals use them; [countDigits] of
    bolt/common/base/CountBits.h. *)

From S2P Require Import Prelude.

(** Character codes. *)
Abbreviation ch_0 := 48.
Abbreviation ch_plus := 43.
Abbreviation ch_minus := 45.
Abbreviation ch_dot := 46.
Abbreviation ch_colon := 58.

(** Iterations of the loops over the digits of a number of up to 128 bits. *)
Definition kDigitFuel : nat := 40.

Fixpoint countDigits_loop (fuel : nat) (n count : Z) : result Z :=
  if n <? 10 then Ok count
  else if n <? 100 then Ok (count + 1)
  else if n <? 1000 then Ok (count + 2)
  else if n <? 10000 then Ok (count + 3)
  else match fuel with
       | O => Err OutOfFuel
       | S fuel' => countDigits_loop fuel' (n / 10000) (count + 4)
       end.

(** The argument is an unsigned 128-bit integer. *)
Definition countDigits (n : Z) : result Z :=
  countDigits_loop 10 (wrap_unsigned 128 n) 1.

(** Memory: the bytes from [startPosition] on, and a write position. *)
Definition memory : Type := list Z * Z.

(** Writes at an address; out of the allocated bytes is undefined. *)
Definition write_at (buf : list Z) (position : Z) (bytes : list Z)
    : result (list Z) :=
  if (0 <=? position)
     && (position + Z.of_nat (length bytes) <=? Z.of_nat (length buf))
  then Ok (take (Z.to_nat position) buf ++ bytes
           ++ drop (Z.to_nat position + length bytes) buf)
  else Err BadAccess.

(** [*writePosition++ = c], [memset] and [to_chars] followed by an advance. *)
Definition put (bytes : list Z) (m : memory) : result memory :=
  let '(buf, writePosition) := m in
  let! buf := write_at buf writePosition bytes in
  Ok (buf, writePosition + Z.of_nat (length bytes)).

(** [std::memset(writePosition, '0', n)], the count as a [size_t]: a negative
    one is past any memory. *)
Definition put_zeros (n : Z) (m : memory) : result memory :=
  if n <? 0 then Err BadAccess else put (repeat ch_0 (Z.to_nat n)) m.

(** The decimal representation that [std::to_chars] writes. *)
Fixpoint low_digits (fuel : nat) (n : Z) : list Z :=
  match fuel with
  | O => []
  | S fuel' =>
      if n >? 0 then (ch_0 + n mod 10) :: low_digits fuel' (n / 10) else []
  end.

Definition decimal (n : Z) : list Z :=
  if n =? 0 then [ch_0]
  else if n <? 0 then ch_minus :: rev (low_digits kDigitFuel (- n))
  else rev (low_digits kDigitFuel n).

(** [std::to_chars] into exactly [size] bytes; a number that does not fit
    fails the check that follows it. *)
Definition to_chars (size n : Z) (m : memory) : result memory :=
  check! Z.of_nat (length (decimal n)) <=? size in
  put (decimal n) m.

(** A number in exactly [k] digits. *)
Fixpoint padded (k : nat) (n : Z) : list Z :=
  match k with
  | O => []
  | S k' => padded k' (n / 10) ++ [ch_0 + n mod 10]
  end.

(** Without the zeros at the start, and at the end. *)
Fixpoint drop_zeros (l : list Z) : list Z :=
  match l with
  | [] => []
  | c :: l' => if c =? ch_0 then drop_zeros l' else l
  end.

Definition trim_zeros (l : list Z) : list Z := rev (drop_zeros (rev l)).

(** * Digits *)

Lemma low_digits_step fuel n :
  0 < n -> low_digits (S fuel) n = (ch_0 + n mod 10) :: low_digits fuel (n / 10).
Proof. intros. simpl. by replace (n >? 0) with true by lia. Qed.

Lemma low_digits_0 fuel n : n <= 0 -> low_digits fuel n = [].
Proof. intros. destruct fuel; simpl; [done|]. by replace (n >? 0) with false by lia. Qed.

Lemma pow10_S k : 10 ^ Z.of_nat (S k) = 10 * 10 ^ Z.of_nat k.
Proof. rewrite Nat2Z.inj_succ, Z.pow_succ_r by lia. done. Qed.

Lemma pow10_pos k : 0 < 10 ^ Z.of_nat k.
Proof. apply Z.pow_pos_nonneg; lia. Qed.

Lemma div10_lt n k : 0 <= n < 10 ^ Z.of_nat (S k) -> 0 <= n / 10 < 10 ^ Z.of_nat k.
Proof. rewrite pow10_S. pose proof (pow10_pos k). euclidean. Qed.

Lemma zeros_app a b c : repeat c a ++ repeat c b = repeat c (a + b) :> list Z.
Proof. by rewrite repeat_app. Qed.

Lemma padded_0 k : padded k 0 = repeat ch_0 k.
Proof.
  induction k as [|k IH]; [done|]. cbn [padded]. change (0 / 10) with 0. rewrite IH.
  change [ch_0 + 0 mod 10] with (repeat ch_0 1). rewrite zeros_app.
  by rewrite Nat.add_1_r.
Qed.

Lemma padded_length k n : length (padded k n) = k.
Proof. revert n. induction k; intros; simpl; [done|]. rewrite length_app, IHk. simpl. lia. Qed.

(** A number padded with zeros is its digits after zeros. *)
Lemma padded_low_digits k fuel n :
  0 <= n < 10 ^ Z.of_nat k -> (k <= fuel)%nat ->
  padded k n = repeat ch_0 (k - length (low_digits fuel n)) ++ rev (low_digits fuel n)
  /\ (length (low_digits fuel n) <= k)%nat.
Proof.
  revert n fuel. induction k as [|k IH]; intros n fuel Hn Hf.
  - simpl in Hn. rewrite low_digits_0 by lia. simpl. split; [done|lia].
  - destruct (decide (n = 0)) as [->|Hn0].
    { rewrite low_digits_0 by lia. rewrite padded_0. simpl. rewrite app_nil_r. split; [done|lia]. }
    destruct fuel as [|fuel]; [lia|].
    destruct (IH (n / 10) fuel) as [He Hl]; [by apply div10_lt|lia|].
    rewrite low_digits_step by lia. cbn [padded rev length]. rewrite He, <- app_assoc.
    split; [by rewrite Nat.sub_succ|lia].
Qed.

(** The number of digits. *)
Lemma low_digits_bounds fuel n :
  0 < n < 10 ^ Z.of_nat fuel ->
  exists k, length (low_digits fuel n) = S k
    /\ 10 ^ Z.of_nat k <= n < 10 ^ Z.of_nat (S k).
Proof.
  revert n. induction fuel as [|fuel IH]; intros n Hn; [simpl in Hn; lia|].
  rewrite low_digits_step by lia. simpl length.
  destruct (decide (n < 10)).
  - exists 0%nat. rewrite low_digits_0 by (rewrite Z.div_small; lia).
    split; [done|]. simpl. lia.
  - destruct (IH (n / 10)) as (k & Hk & Hb).
    { split; [euclidean|]. apply div10_lt. lia. }
    exists (S k). rewrite Hk. split; [done|]. rewrite (pow10_S (S k)).
    rewrite pow10_S in *. euclidean.
Qed.

(** [k] is the number of decimal digits of [n]. *)
Definition digit_count (k n : Z) : Prop :=
  (n = 0 /\ k = 1) \/ (1 <= k /\ 10 ^ (k - 1) <= n < 10 ^ k).

Lemma digit_count_unique k j n :
  digit_count k n -> digit_count j n -> k = j.
Proof.
  assert (forall a b, 1 <= a -> 1 <= b -> 10 ^ (a - 1) <= n < 10 ^ b -> a <= b) as Hle.
  { intros a b Ha Hb Hn. enough (a - 1 < b) by lia.
    apply (Z.pow_lt_mono_r_iff 10); lia. }
  intros [[-> ->]|[Hk Hkn]] [[Hn ->]|[Hj Hjn]]; try lia.
  apply Z.le_antisymm; apply Hle; lia.
Qed.

Lemma countDigits_loop_spec fuel n count k :
  n < 10 ^ (4 * Z.of_nat (S fuel)) -> digit_count k n ->
  countDigits_loop fuel n count = Ok (count + k - 1).
Proof.
  revert n count k. induction fuel as [|fuel IH]; intros n count k Hn Hk.
  all: assert (0 <= n) as H0
    by (destruct Hk as [[-> _]|[? Hk]]; [done|]; pose proof (Z.pow_pos_nonneg 10 (k - 1)); lia).
  all: simpl countDigits_loop.
  all: destruct (n <? 10) eqn:E1; [f_equal;
    assert (k = 1) by (apply (digit_count_unique _ _ n Hk); unfold digit_count;
      destruct (decide (n = 0)); [by left|right; lia]); lia|].
  all: destruct (n <? 100) eqn:E2; [f_equal;
    assert (k = 2) by (apply (digit_count_unique _ _ n Hk); right; lia); lia|].
  all: destruct (n <? 1000) eqn:E3; [f_equal;
    assert (k = 3) by (apply (digit_count_unique _ _ n Hk); right; lia); lia|].
  all: destruct (n <? 10000) eqn:E4; [f_equal;
    assert (k = 4) by (apply (digit_count_unique _ _ n Hk); right; lia); lia|].
  { simpl in Hn. lia. }
  destruct Hk as [[-> ->]|[Hk1 Hkn]]; [done|].
  assert (5 <= k) as Hk5.
  { enough (4 < k) by lia. apply (Z.pow_lt_mono_r_iff 10); lia. }
  assert (10 ^ (k - 1) = 10000 * 10 ^ (k - 5)) as Hp1
    by (change 10000 with (10 ^ 4); rewrite <- Z.pow_add_r by lia; f_equal; lia).
  assert (10 ^ k = 10000 * 10 ^ (k - 4)) as Hp
    by (change 10000 with (10 ^ 4); rewrite <- Z.pow_add_r by lia; f_equal; lia).
  rewrite (IH (n / 10000) _ (k - 4)).
  - f_equal. lia.
  - replace (4 * Z.of_nat (S (S fuel))) with (4 + 4 * Z.of_nat (S fuel)) in Hn by lia.
    rewrite Z.pow_add_r in Hn by lia. change (10 ^ 4) with 10000 in Hn. euclidean.
  - right. replace (k - 4 - 1) with (k - 5) by lia. split; [lia|]. euclidean.
Qed.

(** [countDigits] is the length of the decimal representation. *)
Lemma countDigits_spec n :
  0 <= n < 2 ^ 128 ->
  countDigits n = Ok (Z.of_nat (length (decimal n))).
Proof.
  intros Hn. unfold countDigits. rewrite wrap_unsigned_id by lia.
  rewrite (countDigits_loop_spec _ _ _ (Z.of_nat (length (decimal n)))).
  - f_equal. lia.
  - simpl. lia.
  - unfold decimal. destruct (n =? 0) eqn:E0; [left; simpl; lia|].
    replace (n <? 0) with false by lia. right. rewrite length_rev.
    destruct (low_digits_bounds kDigitFuel n) as (k & -> & Hk).
    { unfold kDigitFuel. simpl. lia. }
    split; [lia|]. replace (Z.of_nat (S k) - 1) with (Z.of_nat k) by lia. lia.
Qed.

Lemma rev_zeros k : rev (repeat ch_0 k) = repeat ch_0 k.
Proof.
  induction k as [|k IH]; [done|]. simpl. rewrite IH.
  change [ch_0] with (repeat ch_0 1). rewrite zeros_app. by rewrite Nat.add_1_r.
Qed.

Lemma decimal_pos n : 0 < n -> decimal n = rev (low_digits kDigitFuel n).
Proof.
  intros. unfold decimal. replace (n =? 0) with false by lia.
  by replace (n <? 0) with false by lia.
Qed.

Lemma low_digits_length fuel k n :
  10 ^ Z.of_nat k <= n -> (k < fuel)%nat -> (k < length (low_digits fuel n))%nat.
Proof.
  revert k n. induction fuel as [|fuel IH]; intros k n Hn Hk; [lia|].
  pose proof (pow10_pos k). rewrite low_digits_step by lia. simpl.
  destruct k as [|k]; [lia|]. apply (proj1 (Nat.succ_lt_mono _ _)), IH; [|lia].
  rewrite pow10_S in Hn. apply Z.div_le_lower_bound; lia.
Qed.

Lemma decimal_long k n :
  10 ^ Z.of_nat k <= n -> (k < 40)%nat -> (k < length (decimal n))%nat.
Proof.
  intros Hn Hk. pose proof (pow10_pos k). rewrite decimal_pos, length_rev by lia.
  apply low_digits_length; [done|unfold kDigitFuel; lia].
Qed.

Lemma decimal_nonempty n : 0 <= n -> decimal n <> [].
Proof.
  intros Hn. destruct (decide (n = 0)) as [->|]; [done|].
  pose proof (decimal_long 0 n ltac:(simpl; lia) ltac:(lia)) as Hl.
  intros E. rewrite E in Hl. simpl in Hl. lia.
Qed.

(** * Values of digits *)

Definition all_digits (l : list Z) : Prop := Forall (fun c => 48 <= c <= 57) l.

Lemma padded_all_digits k n : all_digits (padded k n).
Proof.
  revert n. induction k as [|k IH]; intros n; [constructor|]. simpl.
  apply Forall_app. split; [apply IH|]. constructor; [|constructor].
  pose proof (Z.mod_pos_bound n 10). lia.
Qed.

Lemma low_digits_all_digits fuel n : all_digits (low_digits fuel n).
Proof.
  revert n. induction fuel as [|fuel IH]; intros n; simpl; [constructor|].
  case_match; [|constructor]. constructor; [|apply IH].
  pose proof (Z.mod_pos_bound n 10). lia.
Qed.

Lemma decimal_all_digits n : 0 <= n -> all_digits (decimal n).
Proof.
  intros Hn. unfold decimal. destruct (n =? 0); [repeat constructor; lia|].
  replace (n <? 0) with false by lia. apply Forall_rev, low_digits_all_digits.
Qed.

(** The value of a list of digits, most significant first. *)
Definition digits_value (acc : Z) (l : list Z) : Z :=
  fold_left (fun a c => a * 10 + (c - 48)) l acc.

Lemma digits_value_app acc a b :
  digits_value acc (a ++ b) = digits_value (digits_value acc a) b.
Proof. unfold digits_value. apply fold_left_app. Qed.

Lemma digits_value_zeros k : digits_value 0 (repeat ch_0 k) = 0.
Proof. induction k as [|k IH]; [done|]. simpl. exact IH. Qed.

Lemma digits_value_low fuel n :
  0 <= n < 10 ^ Z.of_nat fuel -> digits_value 0 (rev (low_digits fuel n)) = n.
Proof.
  revert n. induction fuel as [|fuel IH]; intros n Hn; [simpl in *; lia|].
  destruct (decide (n = 0)) as [->|]; [done|].
  rewrite low_digits_step by lia. simpl rev. rewrite digits_value_app.
  rewrite IH by (by apply div10_lt). simpl. euclidean.
Qed.

Lemma digits_value_decimal n : 0 <= n < 10 ^ 40 -> digits_value 0 (decimal n) = n.
Proof.
  intros Hn. destruct (decide (n = 0)) as [->|]; [done|].
  rewrite decimal_pos by lia. apply digits_value_low. unfold kDigitFuel. simpl. lia.
Qed.

Lemma digits_value_padded k n :
  0 <= n < 10 ^ Z.of_nat k -> digits_value 0 (padded k n) = n.
Proof.
  intros Hn. destruct (padded_low_digits k k n Hn) as [-> _]; [done|].
  rewrite digits_value_app, digits_value_zeros. by apply digits_value_low.
Qed.

Lemma digits_value_ge acc l : all_digits l -> 0 <= acc -> acc <= digits_value acc l.
Proof.
  intros Hl. revert acc. induction Hl as [|c l Hc _ IH]; intros acc Ha; [done|].
  change (digits_value acc (c :: l)) with (digits_value (acc * 10 + (c - 48)) l).
  specialize (IH (acc * 10 + (c - 48)) ltac:(lia)). lia.
Qed.

(** * Memory *)

(** The text [s] has been written and the write position is after it. *)
Definition written (cap : Z) (s : list Z) (m : memory) : Prop :=
  exists rest, m = (s ++ rest, Z.of_nat (length s))
    /\ Z.of_nat (length (s ++ rest)) = cap.

(** [f] appends [bytes] to the text. *)
Definition writes (cap : Z) (f : memory -> result memory) (s bytes : list Z) : Prop :=
  forall m, written cap s m -> exists m', f m = Ok m' /\ written cap (s ++ bytes) m'.

Lemma write_at_middle a b c d :
  length b = length c ->
  write_at (a ++ b ++ d) (Z.of_nat (length a)) c = Ok (a ++ c ++ d).
Proof.
  intros Hl. unfold write_at. rewrite !length_app, Hl.
  replace (_ && _) with true by zbool. rewrite Nat2Z.id, take_app_length.
  by rewrite (app_assoc a b d), drop_app_length' by (rewrite length_app; lia).
Qed.

Lemma put_writes cap s bytes :
  Z.of_nat (length (s ++ bytes)) <= cap -> writes cap (put bytes) s bytes.
Proof.
  intros Hc m (rest & -> & Hcap). rewrite length_app in Hc, Hcap.
  rewrite <- (take_drop (length bytes) rest). unfold put.
  rewrite write_at_middle by (rewrite length_take; lia). cbn [rbind].
  eexists. split; [done|]. exists (drop (length bytes) rest).
  rewrite <- app_assoc. split; [f_equal; rewrite length_app; lia|].
  rewrite !length_app, length_drop. lia.
Qed.

Lemma ok_writes cap s : writes cap Ok s [].
Proof. intros m Hm. exists m. by rewrite app_nil_r. Qed.

Lemma writes_bind cap f g s a b :
  writes cap f s a -> writes cap g (s ++ a) b ->
  writes cap (fun m => let! m := f m in g m) s (a ++ b).
Proof.
  intros Hf Hg m Hm. destruct (Hf m Hm) as (m' & -> & Hm'). cbn [rbind].
  destruct (Hg m' Hm') as (m'' & -> & Hm''). rewrite app_assoc. by eexists.
Qed.

Lemma writes_ext cap f g s b :
  writes cap f s b -> (forall m, g m = f m) -> writes cap g s b.
Proof. intros Hf He m Hm. rewrite He. by apply Hf. Qed.

Lemma put_zeros_writes cap s n :
  0 <= n -> Z.of_nat (length s) + n <= cap ->
  writes cap (put_zeros n) s (repeat ch_0 (Z.to_nat n)).
Proof.
  intros Hn Hc. eapply writes_ext; [apply put_writes|].
  - rewrite length_app, repeat_length. lia.
  - intros m. unfold put_zeros. by replace (n <? 0) with false by lia.
Qed.

Lemma to_chars_writes cap s n :
  Z.of_nat (length (s ++ decimal n)) <= cap ->
  writes cap (to_chars (Z.of_nat (length (decimal n))) n) s (decimal n).
Proof.
  intros Hc. eapply writes_ext; [by apply put_writes|].
  intros m. unfold to_chars. by replace (_ <=? _) with true by zbool.
Qed.

(** [f] writes [bs] over as many bytes and changes nothing else. *)
Definition overwrites (f : memory -> result memory) (bs : list Z) : Prop :=
  forall before hole after, length hole = length bs ->
    f (before ++ hole ++ after, Z.of_nat (length before)) = Ok (before ++ bs ++ after, Z.of_nat (length (before ++ bs))).

Lemma put_overwrites bs : overwrites (put bs) bs.
Proof.
  intros before hole after Hl. unfold put. rewrite write_at_middle by done. cbn [rbind].
  by rewrite length_app, Nat2Z.inj_add.
Qed.

Lemma overwrites_bind f g a b :
  overwrites f a -> overwrites g b -> overwrites (fun m => let! m := f m in g m) (a ++ b).
Proof.
  intros Hf Hg before hole after Hl. rewrite length_app in Hl. rewrite <- (take_drop (length a) hole), <- app_assoc.
  rewrite Hf by (rewrite length_take; lia). cbn [rbind]. rewrite app_assoc, Hg by (rewrite length_drop; lia).
  by rewrite <- !app_assoc.
Qed.
