(* ===== verification/StringView.v ===== *)
(** Byte strings: the C and C++ comparisons the program uses, and the 16-byte
    [StringView] of bolt/type/StringView.h, which keeps up to 12 bytes inline
    and otherwise the first 4 bytes and a pointer.  The theorems show that its
    comparisons on machine words are equality and lexicographic order of the
    strings. *)

From S2P Require Import Prelude.

(** * memcmp and std::string::compare *)

(** [memcmp] of the first [n] bytes, as -1, 0 or 1 (only the sign of the
    result of [memcmp] is specified). *)
Fixpoint memcmp (a b : list Z) (n : nat) : Z :=
  match n, a, b with
  | S n', x :: a', y :: b' =>
      if x <? y then -1 else if y <? x then 1 else memcmp a' b' n'
  | _, _, _ => 0
  end.

(** [std::string::compare], by its sign. *)
Fixpoint string_compare (a b : list Z) : Z :=
  match a, b with
  | [], [] => 0
  | [], _ :: _ => -1
  | _ :: _, [] => 1
  | x :: a', y :: b' =>
      if x <? y then -1 else if y <? x then 1 else string_compare a' b'
  end.

(** The little-endian number in a sequence of bytes, and its bytes. *)
Fixpoint le_combine (l : list Z) : Z :=
  match l with
  | [] => 0
  | b :: l' => b + 256 * le_combine l'
  end.
Fixpoint le_split (n : nat) (x : Z) : list Z :=
  match n with
  | O => []
  | S n' => x mod 256 :: le_split n' (x / 256)
  end.

(** [__builtin_bswap32] ([n = 4]) and [__builtin_bswap64] ([n = 8]). *)
Definition bswap (n : nat) (x : Z) : Z := le_combine (rev (le_split n x)).

(** * The view *)

(** The second word of a view: the bytes after the prefix of an inlined
    string, or a pointer, given by its address and the bytes it points at. *)
Inductive sv_value_ : Type :=
  | Inlined (bytes : list Z)
  | Data (address : Z) (bytes : list Z).

Record StringView : Type := mkStringView {
  sv_size : Z;
  sv_prefix : list Z;
  sv_value : sv_value_
}.

Abbreviation kPrefixSize := 4.
Abbreviation kInlineSize := 12.

Definition zero_bytes (n : nat) : list Z := repeat 0 n.

Definition isInline_size (size : Z) : bool := size <=? kInlineSize.
Definition isInline (v : StringView) : bool := isInline_size (sv_size v).

(** [set]: the inline part is zeroed, then [len] bytes are copied over the
    prefix and the word that follows it. *)
Definition set_StringView (address : Z) (data : list Z) (len : Z)
    : result StringView :=
  check! len >=? 0 in
  let n := Z.to_nat len in
  if isInline_size len then
    let room := take n data ++ zero_bytes (Z.to_nat kInlineSize - n) in
    Ok {| sv_size := len;
          sv_prefix := take (Z.to_nat kPrefixSize) room;
          sv_value := Inlined (drop (Z.to_nat kPrefixSize) room) |}
  else
    Ok {| sv_size := len;
          sv_prefix := take (Z.to_nat kPrefixSize) data;
          sv_value := Data address data |}.

(** The constructors from a string narrow the length to 32 bits. *)
Definition make_StringView (address : Z) (value : list Z) : result StringView :=
  set_StringView address value (wrap_signed 32 (Z.of_nat (length value))).

(** The bytes from [data()] on. *)
Definition sv_data (v : StringView) : list Z :=
  match sv_value v with
  | Inlined l => sv_prefix v ++ l
  | Data _ l => l
  end.

(** The characters of the view: [std::string(data(), size())]. *)
Definition sv_str (v : StringView) : list Z :=
  take (Z.to_nat (sv_size v)) (sv_data v).

(** ** Words *)

Definition sizeAndPrefixAsInt64 (v : StringView) : Z :=
  wrap_signed 64 (sv_size v + 2 ^ 32 * le_combine (sv_prefix v)).

Definition inlinedAsInt64 (v : StringView) : Z :=
  match sv_value v with
  | Inlined l => wrap_signed 64 (le_combine l)
  | Data address _ => wrap_signed 64 address
  end.

Definition prefixAsInt (v : StringView) : Z :=
  wrap_signed 32 (le_combine (sv_prefix v)).

(** ** Comparison *)

Definition StringView_eq (this other : StringView) : bool :=
  if negb (sizeAndPrefixAsInt64 this =? sizeAndPrefixAsInt64 other) then false
  else if isInline this then
    (sv_size this <=? kPrefixSize)
    || (inlinedAsInt64 this =? inlinedAsInt64 other)
  else
    memcmp (drop (Z.to_nat kPrefixSize) (sv_data this)) (drop (Z.to_nat kPrefixSize) (sv_data other))
      (Z.to_nat (sv_size this - kPrefixSize)) =? 0.

Definition StringView_compare (this other : StringView) : Z :=
  let prefix := wrap_unsigned 32 (prefixAsInt this) in
  let otherPrefix := wrap_unsigned 32 (prefixAsInt other) in
  if negb (prefix =? otherPrefix) then
    let prefix := bswap 4 prefix in
    let otherPrefix := bswap 4 otherPrefix in
    if prefix <? otherPrefix then -1 else 1
  else
    let size :=
      wrap_signed 32
        (wrap_unsigned 64
           (Z.min (sv_size this) (sv_size other) - kPrefixSize)) in
    let sizeDiff :=
      wrap_signed 32 (wrap_unsigned 32 (sv_size this - sv_size other)) in
    if size <=? 0 then sizeDiff
    else if (wrap_unsigned 64 size <=? kInlineSize)
            && isInline this && isInline other then
      let inlined := bswap 8 (wrap_unsigned 64 (inlinedAsInt64 this)) in
      let otherInlined := bswap 8 (wrap_unsigned 64 (inlinedAsInt64 other)) in
      if inlined =? otherInlined then sizeDiff
      else if inlined <? otherInlined then -1 else 1
    else
      let result :=
        memcmp (drop (Z.to_nat kPrefixSize) (sv_data this))
          (drop (Z.to_nat kPrefixSize) (sv_data other)) (Z.to_nat size) in
      if negb (result =? 0) then result else sizeDiff.

Definition StringView_lt (this other : StringView) : bool :=
  StringView_compare this other <? 0.
Definition StringView_le (this other : StringView) : bool :=
  StringView_compare this other <=? 0.
Definition StringView_gt (this other : StringView) : bool :=
  StringView_compare this other >? 0.
Definition StringView_ge (this other : StringView) : bool :=
  StringView_compare this other >=? 0.

(** * Lexicographic order *)

Lemma string_compare_refl a : string_compare a a = 0.
Proof. induction a as [|x a IH]; simpl; [done|]. by rewrite Z.ltb_irrefl. Qed.

Lemma string_compare_cases a b :
  string_compare a b = -1 \/ string_compare a b = 0 \/ string_compare a b = 1.
Proof.
  revert b. induction a as [|x a IH]; intros [|y b]; simpl; auto.
  destruct (x <? y); [auto|]. destruct (y <? x); auto.
Qed.

Lemma string_compare_eq a b : string_compare a b = 0 <-> a = b.
Proof.
  split; [|intros ->; apply string_compare_refl].
  revert b. induction a as [|x a IH]; intros [|y b]; simpl; try done.
  destruct (x <? y) eqn:E1; [done|]. destruct (y <? x) eqn:E2; [done|].
  intros H%IH. f_equal; [lia|done].
Qed.

Lemma string_compare_antisym a b : string_compare b a = - string_compare a b.
Proof.
  revert b. induction a as [|x a IH]; intros [|y b]; simpl; try done.
  destruct (x <? y) eqn:E1, (y <? x) eqn:E2; try done; lia.
Qed.

Lemma string_compare_trans a b c :
  string_compare a b <= 0 -> string_compare b c <= 0 -> string_compare a c <= 0.
Proof.
  revert b c. induction a as [|x a IH]; intros [|y b] [|z c]; simpl; try lia.
  destruct (x <? y) eqn:E1, (y <? x) eqn:E2, (y <? z) eqn:E3, (z <? y) eqn:E4,
    (x <? z) eqn:E5, (z <? x) eqn:E6; try lia.
  apply IH.
Qed.

Lemma string_compare_lt_trans a b c :
  string_compare a b < 0 -> string_compare b c <= 0 -> string_compare a c < 0.
Proof.
  intros H1 H2. pose proof (string_compare_trans a b c) as H3.
  destruct (string_compare_cases a c) as [?|[He|?]]; [lia| |lia].
  apply string_compare_eq in He as ->. rewrite string_compare_antisym in H1. lia.
Qed.

Lemma string_compare_le_trans a b c :
  string_compare a b <= 0 -> string_compare b c < 0 -> string_compare a c < 0.
Proof.
  intros H1 H2. pose proof (string_compare_trans a b c) as H3.
  destruct (string_compare_cases a c) as [?|[He|?]]; [lia| |lia].
  apply string_compare_eq in He as ->. rewrite string_compare_antisym in H1. lia.
Qed.

Lemma string_compare_nil a : string_compare [] a <= 0.
Proof. by destruct a. Qed.

(** Comparing a common number of bytes first. *)
Lemma memcmp_take a b n : memcmp a b n = memcmp (take n a) (take n b) n.
Proof.
  revert a b. induction n as [|n IH]; intros [|x a] [|y b]; simpl; try done.
  by rewrite <- IH.
Qed.

Lemma memcmp_sgn a b n : Z.sgn (memcmp a b n) = memcmp a b n.
Proof.
  revert a b. induction n as [|n IH]; intros [|x a] [|y b]; simpl; try done.
  destruct (x <? y); [done|]. destruct (y <? x); [done|]. apply IH.
Qed.

Lemma string_compare_memcmp a b :
  string_compare a b
  = let c := memcmp a b (Nat.min (length a) (length b)) in
    if c =? 0 then Z.sgn (Z.of_nat (length a) - Z.of_nat (length b)) else c.
Proof.
  revert b. induction a as [|x a IH]; intros [|y b]; simpl; try done.
  destruct (x <? y); [done|]. destruct (y <? x); [done|]. rewrite IH. simpl.
  destruct (memcmp a b _ =? 0); [f_equal; lia|done].
Qed.

Lemma memcmp_eq a b :
  length a = length b -> memcmp a b (length a) = 0 <-> a = b.
Proof.
  revert b. induction a as [|x a IH]; intros [|y b] Hl; simpl in *; try done.
  destruct (x <? y) eqn:E1; [split; [done|intros [=]; lia]|].
  destruct (y <? x) eqn:E2; [split; [done|intros [=]; lia]|].
  rewrite IH by lia. assert (x = y) as -> by lia. naive_solver.
Qed.

Lemma string_compare_app p q a b :
  length p = length q ->
  string_compare (p ++ a) (q ++ b)
  = if string_compare p q =? 0 then string_compare a b else string_compare p q.
Proof.
  revert q. induction p as [|x p IH]; intros [|y q] Hl; simpl in *; try done.
  destruct (x <? y); [done|]. destruct (y <? x); [done|]. apply IH. lia.
Qed.

(** ** Zero-padded prefixes *)

(** The first [n] bytes, padded with zeros. *)
Definition pad (n : nat) (l : list Z) : list Z := take n (l ++ zero_bytes n).

Lemma pad_length n l : length (pad n l) = n.
Proof. unfold pad, zero_bytes. rewrite length_take, length_app, repeat_length. lia. Qed.

Lemma pad_nil n : pad n [] = zero_bytes n.
Proof. unfold pad, zero_bytes. simpl. apply firstn_all2. rewrite repeat_length. done. Qed.

Lemma pad_cons n x l : pad (S n) (x :: l) = x :: pad n l.
Proof.
  unfold pad, zero_bytes. simpl. f_equal. change (0 :: repeat 0 n) with (repeat 0 (S n)).
  rewrite <- Nat.add_1_r, repeat_app, app_assoc, take_app_le; [done|].
  rewrite length_app, repeat_length. lia.
Qed.

Lemma pad_ok n l : bytes_ok l -> bytes_ok (pad n l).
Proof.
  intros H. apply Forall_take, Forall_app. split; [done|].
  apply Forall_forall. intros x Hx%list_elem_of_In%repeat_spec. lia.
Qed.

Lemma pad_decides n a b :
  bytes_ok a -> bytes_ok b ->
  string_compare (pad n a) (pad n b) <> 0 ->
  string_compare a b = string_compare (pad n a) (pad n b).
Proof.
  revert a b. induction n as [|n IH]; intros a b Ha Hb; [done|].
  assert (forall b, bytes_ok b ->
    string_compare (pad (S n) []) (pad (S n) b) <> 0 ->
    string_compare [] b = string_compare (pad (S n) []) (pad (S n) b)) as Hnil.
  { intros [|y b'] Hb'; [by rewrite string_compare_refl|].
    rewrite pad_nil, pad_cons. simpl. inversion Hb' as [|? ? Hy Hb'']; subst.
    destruct (0 <? y) eqn:E1; [done|]. replace (y <? 0) with false by lia.
    rewrite <- pad_nil. intros Hc.
    pose proof (IH [] b' ltac:(constructor) Hb'' Hc) as He.
    rewrite <- He in Hc |- *. by destruct b'. }
  destruct a as [|x a]; [by apply Hnil|]. destruct b as [|y b].
  { intros Hc. rewrite string_compare_antisym, (string_compare_antisym (pad _ [])).
    rewrite string_compare_antisym in Hc. rewrite <- Hnil; [done|done|lia]. }
  rewrite !pad_cons. simpl. inversion Ha; inversion Hb; subst.
  destruct (x <? y); [done|]. destruct (y <? x); [done|]. by apply IH.
Qed.

Lemma pad_equal_short n a b :
  pad n a = pad n b -> (Nat.min (length a) (length b) <= n)%nat ->
  string_compare a b = Z.sgn (Z.of_nat (length a) - Z.of_nat (length b)).
Proof.
  revert a b. induction n as [|n IH]; intros [|x a] [|y b]; simpl; intros Hp Hl;
    try lia; try done.
  rewrite !pad_cons in Hp. injection Hp as -> Hp. rewrite Z.ltb_irrefl.
  rewrite (IH a b Hp) by lia. f_equal. lia.
Qed.

Lemma pad_long n l : (n <= length l)%nat -> pad n l = take n l.
Proof. intros. unfold pad. by rewrite take_app_le. Qed.

(** * Words of bytes *)

Lemma le_combine_bound l :
  bytes_ok l -> 0 <= le_combine l < 256 ^ Z.of_nat (length l).
Proof.
  induction 1 as [|b l Hb Hl IH]; simpl le_combine; [lia|].
  simpl length. rewrite Nat2Z.inj_succ, Z.pow_succ_r by lia. lia.
Qed.

Lemma le_split_combine l : bytes_ok l -> le_split (length l) (le_combine l) = l.
Proof.
  induction 1 as [|b l Hb Hl IH]; simpl; [done|].
  rewrite (Z.mul_comm 256), Z.mod_add, Z.mod_small by lia.
  rewrite Z.div_add, Z.div_small by lia. by rewrite Z.add_0_l, IH.
Qed.

Lemma le_combine_inj l k :
  bytes_ok l -> bytes_ok k -> length l = length k ->
  le_combine l = le_combine k -> l = k.
Proof.
  intros Hl Hk Hlen He. rewrite <- (le_split_combine l), <- (le_split_combine k) by done.
  by rewrite He, Hlen.
Qed.

Lemma le_combine_app l k :
  le_combine (l ++ k) = le_combine l + 256 ^ Z.of_nat (length l) * le_combine k.
Proof.
  induction l as [|b l IH]; [simpl; lia|]. rewrite <- app_comm_cons. cbn [le_combine].
  rewrite IH. simpl length. rewrite Nat2Z.inj_succ, Z.pow_succ_r by lia. lia.
Qed.

Lemma bswap_combine l :
  bytes_ok l -> bswap (length l) (le_combine l) = le_combine (rev l).
Proof. intros. unfold bswap. by rewrite le_split_combine. Qed.

(** Big-endian numbers are ordered as the byte strings. *)
Lemma big_endian_order l k :
  bytes_ok l -> bytes_ok k -> length l = length k ->
  string_compare l k = Z.sgn (le_combine (rev l) - le_combine (rev k)).
Proof.
  intros Hl. revert k. induction Hl as [|x l Hx Hl IH]; intros k Hk Hlen.
  { by destruct k. }
  destruct Hk as [|y k Hy Hk]; [done|]. simpl in Hlen. simpl string_compare.
  cbn [rev]. rewrite !le_combine_app. cbn [le_combine].
  rewrite !length_rev. replace (length k) with (length l) by lia.
  assert (Hbl := le_combine_bound (rev l)). assert (Hbk := le_combine_bound (rev k)).
  rewrite length_rev in Hbl, Hbk. replace (length k) with (length l) in Hbk by lia.
  specialize (Hbl ltac:(by apply Forall_rev)).
  specialize (Hbk ltac:(by apply Forall_rev)).
  set (p := 256 ^ Z.of_nat (length l)) in *.
  destruct (x <? y) eqn:E1; [rewrite Z.sgn_neg; [done|nia]|].
  destruct (y <? x) eqn:E2; [rewrite Z.sgn_pos; [done|nia]|].
  rewrite IH by (done || lia). f_equal. assert (x = y) by lia. subst. lia.
Qed.

Lemma bswap_order l k :
  bytes_ok l -> bytes_ok k -> length l = length k ->
  string_compare l k
  = Z.sgn (bswap (length l) (le_combine l) - bswap (length l) (le_combine k)).
Proof.
  intros Hl Hk Hlen. rewrite bswap_combine by done. rewrite Hlen, bswap_combine by done.
  by apply big_endian_order.
Qed.

(** * Views of byte strings *)

Lemma pad_take n m l : take n (pad (n + m) l) = pad n l.
Proof.
  revert l. induction n as [|n IH]; intros [|x l]; try done.
  - rewrite !pad_nil. unfold zero_bytes. simpl. f_equal.
    rewrite repeat_app, take_app_le by (rewrite repeat_length; lia).
    apply firstn_all2. rewrite repeat_length. lia.
  - rewrite Nat.add_succ_l, !pad_cons. simpl. by rewrite IH.
Qed.

Lemma pad_drop n m l : drop n (pad (n + m) l) = pad m (drop n l).
Proof.
  revert l. induction n as [|n IH]; intros [|x l]; try done.
  - rewrite drop_nil, !pad_nil. unfold zero_bytes.
    rewrite repeat_app, drop_app_length'; [done|]. by rewrite repeat_length.
  - rewrite Nat.add_succ_l, pad_cons. simpl. apply IH.
Qed.

Lemma pad_short n l :
  (length l <= n)%nat -> pad n l = l ++ zero_bytes (n - length l).
Proof.
  revert l. induction n as [|n IH]; intros [|x l] Hl; simpl in Hl; try lia; try done.
  - by rewrite pad_nil.
  - rewrite pad_cons, IH by lia. done.
Qed.

(** [v] is the view of the bytes [s]. *)
Definition views (v : StringView) (s : list Z) : Prop :=
  bytes_ok s /\ Z.of_nat (length s) <= INT32_MAX
  /\ exists address, make_StringView address s = Ok v.

(** The second word of the view of [s]. *)
Definition view_tail (v : StringView) (s : list Z) : Prop :=
  if isInline v then sv_value v = Inlined (pad 8 (drop 4 s))
  else exists address, sv_value v = Data address s.

Lemma views_parts v s :
  views v s ->
  sv_size v = Z.of_nat (length s) /\ sv_prefix v = pad 4 s /\ view_tail v s.
Proof.
  intros (_ & Hl & address & Hm). unfold make_StringView in Hm.
  rewrite wrap_signed_id in Hm by lia. unfold set_StringView in Hm.
  replace (_ >=? 0) with true in Hm by lia. cbn [check rbind] in Hm.
  rewrite Nat2Z.id in Hm. unfold view_tail, isInline, isInline_size in *.
  change (Z.to_nat 4) with 4%nat in *. change (Z.to_nat 12) with 12%nat in *.
  destruct (_ <=? _) eqn:E.
  - rewrite firstn_all, <- (pad_short 12 s) in Hm by lia.
    injection Hm as <-. simpl. rewrite E.
    change 12%nat with (4 + 8)%nat. by rewrite pad_take, pad_drop.
  - injection Hm as <-. simpl. rewrite E. split_and!; [done| |by eexists].
    rewrite pad_long by lia. done.
Qed.

Lemma views_str v s : views v s -> sv_str v = s.
Proof.
  intros Hv. destruct (views_parts v s Hv) as (Hs & Hp & Ht).
  unfold sv_str, sv_data, view_tail, isInline, isInline_size in *.
  rewrite Hs, Nat2Z.id in *. destruct (_ <=? _) eqn:E.
  - rewrite Ht, Hp, <- (pad_take 4 8), <- (pad_drop 4 8), take_drop.
    rewrite pad_short by lia.
    rewrite take_app_le by lia. apply firstn_all.
  - destruct Ht as [? ->]. apply firstn_all.
Qed.

(** The bytes after the prefix, as far as both strings go. *)
Lemma views_rest v s n :
  views v s -> (n <= length (drop 4 s))%nat ->
  take n (drop (Z.to_nat kPrefixSize) (sv_data v)) = take n (drop 4 s).
Proof.
  intros Hv Hn. destruct (views_parts v s Hv) as (Hs & Hp & Ht).
  change (Z.to_nat 4) with 4%nat. unfold sv_data, view_tail, isInline, isInline_size in *.
  destruct (_ <=? _) eqn:E.
  - rewrite length_drop in Hn. rewrite Ht, Hp, drop_app_length' by by rewrite pad_length.
    unfold pad. rewrite take_take, Nat.min_l by lia.
    rewrite take_app_le by (rewrite length_drop; lia). done.
  - by destruct Ht as [? ->].
Qed.

Lemma views_prefix v s :
  views v s -> wrap_unsigned 32 (prefixAsInt v) = le_combine (pad 4 s).
Proof.
  intros Hv. destruct (views_parts v s Hv) as (_ & Hp & _). destruct Hv as (Hok & _).
  unfold prefixAsInt. rewrite wrap_unsigned_signed, Hp by lia.
  apply wrap_unsigned_id. pose proof (le_combine_bound (pad 4 s) (pad_ok 4 s Hok)) as Hb.
  rewrite pad_length in Hb. lia.
Qed.

Lemma views_inlined v s :
  views v s -> isInline v = true ->
  wrap_unsigned 64 (inlinedAsInt64 v) = le_combine (pad 8 (drop 4 s)).
Proof.
  intros Hv Hi. destruct (views_parts v s Hv) as (_ & _ & Ht). destruct Hv as (Hok & _).
  unfold view_tail, inlinedAsInt64 in *. rewrite Hi in Ht. rewrite Ht.
  rewrite wrap_unsigned_signed by lia. apply wrap_unsigned_id.
  pose proof (le_combine_bound (pad 8 (drop 4 s))) as Hb.
  rewrite pad_length in Hb. apply Hb, pad_ok. by apply Forall_drop.
Qed.

(** Numbers of equal byte length decide on their padded strings. *)
Lemma words_order n s t :
  bytes_ok s -> bytes_ok t ->
  le_combine (pad n s) <> le_combine (pad n t) ->
  bswap n (le_combine (pad n s)) <> bswap n (le_combine (pad n t))
  /\ string_compare s t
     = if bswap n (le_combine (pad n s)) <? bswap n (le_combine (pad n t))
       then -1 else 1.
Proof.
  intros Hs Ht Hne. assert (string_compare (pad n s) (pad n t) <> 0) as Hc.
  { intros He%string_compare_eq. by rewrite He in Hne. }
  rewrite (pad_decides n s t) by done.
  pose proof (bswap_order (pad n s) (pad n t) (pad_ok n s Hs) (pad_ok n t Ht)) as Hb.
  rewrite !pad_length in Hb. specialize (Hb eq_refl). rewrite Hb in Hc |- *.
  split; [intros He; by rewrite He, Z.sub_diag in Hc|].
  destruct (_ <? _) eqn:E; [apply Z.sgn_neg|apply Z.sgn_pos]; lia.
Qed.

Lemma words_equal n s t :
  bytes_ok s -> bytes_ok t ->
  le_combine (pad n s) = le_combine (pad n t) -> pad n s = pad n t.
Proof.
  intros Hs Ht. apply le_combine_inj; [by apply pad_ok..|]. by rewrite !pad_length.
Qed.

(** Strings with the same first four bytes compare as what follows. *)
Lemma string_compare_rest s t :
  pad 4 s = pad 4 t -> (4 < length s)%nat -> (4 < length t)%nat ->
  string_compare s t = string_compare (drop 4 s) (drop 4 t).
Proof.
  intros Hp Hs Ht. rewrite !pad_long in Hp by lia.
  rewrite <- (take_drop 4 s), <- (take_drop 4 t) at 1.
  rewrite string_compare_app by by rewrite Hp.
  by rewrite Hp, string_compare_refl.
Qed.

Lemma compare_order v w s t :
  views v s -> views w t ->
  Z.sgn (StringView_compare v w) = string_compare s t.
Proof.
  intros Hv Hw. destruct (views_parts v s Hv) as (Hsv & _).
  destruct (views_parts w t Hw) as (Hsw & _).
  pose proof Hv as (Hs & Hls & _). pose proof Hw as (Ht & Hlt & _).
  unfold StringView_compare. rewrite !(views_prefix _ s), !(views_prefix _ t) by done.
  destruct (_ =? _) eqn:E; cbn [negb].
  2: { destruct (words_order 4 s t) as [_ ->]; [done|done|lia|]. by destruct (_ <? _). }
  assert (pad 4 s = pad 4 t) as Hp by (apply words_equal; [done|done|lia]).
  rewrite Hsv, Hsw.
  rewrite !wrap_signed_unsigned, !wrap_signed_id by lia.
  destruct (_ <=? 0) eqn:E0.
  { rewrite (pad_equal_short 4 s t) by (done || lia). done. }
  rewrite (string_compare_rest s t) by (done || lia).
  assert (bytes_ok (drop 4 s) /\ bytes_ok (drop 4 t)) as [Hs' Ht']
    by (split; by apply Forall_drop).
  destruct (_ && _ && _) eqn:Ei.
  - apply andb_true_iff in Ei as [[_ Hiv]%andb_true_iff Hiw].
    rewrite (views_inlined v s), (views_inlined w t) by done.
    unfold isInline, isInline_size in *.
    destruct (decide (le_combine (pad 8 (drop 4 s)) = le_combine (pad 8 (drop 4 t))))
      as [He|Hne].
    + rewrite He, Z.eqb_refl. symmetry.
      rewrite (pad_equal_short 8), !length_drop; [f_equal; lia|by apply words_equal|].
      rewrite !length_drop. lia.
    + destruct (words_order 8 _ _ Hs' Ht' Hne) as [Hb ->].
      apply Z.eqb_neq in Hb as ->. by destruct (_ <? _).
  - rewrite string_compare_memcmp, memcmp_take.
    rewrite (views_rest v s), (views_rest w t) by (done || (rewrite length_drop; lia)).
    rewrite <- memcmp_take, !length_drop. cbv zeta.
    replace (Z.to_nat _) with (Nat.min (length s - 4) (length t - 4)) by lia.
    destruct (memcmp _ _ _ =? 0) eqn:Em; cbn [negb].
    + f_equal. lia.
    + apply memcmp_sgn.
Qed.

Lemma views_head v w s t :
  views v s -> views w t ->
  sizeAndPrefixAsInt64 v = sizeAndPrefixAsInt64 w
  <-> length s = length t /\ pad 4 s = pad 4 t.
Proof.
  intros Hv Hw. destruct (views_parts v s Hv) as (Hsv & Hpv & _).
  destruct (views_parts w t Hw) as (Hsw & Hpw & _).
  destruct Hv as (Hs & Hls & _), Hw as (Ht & Hlt & _).
  unfold sizeAndPrefixAsInt64. rewrite Hsv, Hsw, Hpv, Hpw.
  pose proof (le_combine_bound _ (pad_ok 4 s Hs)) as Hbs.
  pose proof (le_combine_bound _ (pad_ok 4 t Ht)) as Hbt.
  rewrite pad_length in Hbs, Hbt. change (256 ^ Z.of_nat 4) with (2 ^ 32) in *.
  split.
  - intros He%wrap_signed_inj; [|lia..].
    assert (length s = length t) by lia. split; [done|].
    apply words_equal; [done|done|lia].
  - intros [-> ->]. done.
Qed.

Lemma eq_spec v w s t :
  views v s -> views w t -> StringView_eq v w = true <-> s = t.
Proof.
  intros Hv Hw. unfold StringView_eq.
  destruct (_ =? sizeAndPrefixAsInt64 w) eqn:E; cbn [negb].
  2: { split; [done|]. intros ->. apply Z.eqb_neq in E. exfalso. apply E.
       by apply (views_head v w t t). }
  apply Z.eqb_eq, (views_head v w s t Hv Hw) in E as [Hl Hp].
  destruct (views_parts v s Hv) as (Hsv & _), (views_parts w t Hw) as (Hsw & _).
  pose proof Hv as (Hs & Hls & _). pose proof Hw as (Ht & Hlt & _).
  destruct (isInline v) eqn:Ei.
  - assert (isInline w = true) as Ei'.
    { unfold isInline in *. by rewrite Hsw, <- Hl, <- Hsv. }
    pose proof (views_inlined v s Hv Ei) as Hiv.
    pose proof (views_inlined w t Hw Ei') as Hiw. rewrite orb_true_iff, Hsv. split.
    + intros Hor. apply string_compare_eq.
      assert (pad 4 s = pad 4 t /\ (length s <= 4)%nat
              \/ (4 < length s)%nat /\ pad 8 (drop 4 s) = pad 8 (drop 4 t)) as [[? ?]|[? He]].
      { destruct (decide (length s <= 4)%nat); [auto|right]. split; [lia|].
        destruct Hor as [?|He]; [lia|]. apply Z.eqb_eq in He.
        apply words_equal; [by apply Forall_drop..|]. congruence. }
      * rewrite (pad_equal_short 4) by (done || lia). rewrite Hl. by rewrite Z.sub_diag.
      * rewrite string_compare_rest by (done || lia).
        unfold isInline, isInline_size in Ei.
        rewrite (pad_equal_short 8) by (done || (rewrite !length_drop; lia)).
        rewrite !length_drop, Hl. by rewrite Z.sub_diag.
    + intros ->. right. apply Z.eqb_eq.
      unfold inlinedAsInt64 in *.
      destruct (views_parts v t Hv) as (_ & _ & Htv), (views_parts w t Hw) as (_ & _ & Htw).
      unfold view_tail in *. rewrite Ei in Htv. rewrite Ei' in Htw. by rewrite Htv, Htw.
  - unfold isInline, isInline_size in Ei. rewrite Hsv in Ei.
    rewrite memcmp_take. rewrite (views_rest v s), (views_rest w t)
      by (done || (rewrite length_drop; lia)).
    rewrite <- memcmp_take, Z.eqb_eq, Hsv.
    replace (Z.to_nat _) with (length (drop 4 s)) by (rewrite length_drop; lia).
    rewrite memcmp_eq by (rewrite !length_drop; lia).
    rewrite !pad_long in Hp by lia. split; [|by intros ->].
    intros Hd. by rewrite <- (take_drop 4 s), <- (take_drop 4 t), Hp, Hd.
Qed.

(** * Properties of the comparisons *)

(** C18. The comparison of two views, on the prefixes as 32-bit numbers, on
    the inlined bytes as 64-bit numbers or on memory, orders the strings
    lexicographically by bytes. *)
Theorem StringView_compare_lexicographic v w s t :
  views v s -> views w t ->
  Z.sgn (StringView_compare v w) = string_compare s t.
Proof. apply compare_order. Qed.

(** "bolt" and "bolt-exec-engine" as bytes. *)
Definition sample_short : list Z := [98; 111; 108; 116].
Definition sample_long : list Z :=
  [98; 111; 108; 116; 45; 101; 120; 101; 99; 45; 101; 110; 103; 105; 110; 101].
Definition sample_short_view : StringView := {|
  sv_size := 4;
  sv_prefix := sample_short;
  sv_value := Inlined (zero_bytes 8)
|}.
Definition sample_long_view (address : Z) : StringView := {|
  sv_size := 16;
  sv_prefix := sample_short;
  sv_value := Data address sample_long
|}.

Lemma sample_views address :
  views sample_short_view sample_short
  /\ views (sample_long_view address) sample_long.
Proof.
  split; (split_and!; [repeat constructor; lia|simpl; lia|]).
  - by exists 0.
  - by exists address.
Qed.

Lemma StringView_compare_lexicographic_witness :
  Z.sgn (StringView_compare sample_short_view (sample_long_view 4096))
  = string_compare sample_short sample_long.
Proof.
  apply StringView_compare_lexicographic.
  - exact (proj1 (sample_views 0)).
  - exact (proj2 (sample_views 4096)).
Defined.

(** Two views are equal, compared by size, prefix and the rest, exactly
    when the strings are, wherever the strings are stored; and a view gives
    back the string it was built from. *)
Theorem StringView_eq_strings v w s t :
  views v s -> views w t ->
  (StringView_eq v w = true <-> s = t) /\ sv_str v = s.
Proof. intros Hv Hw. split; [by apply eq_spec|by apply views_str]. Qed.

Lemma StringView_eq_strings_witness :
  (StringView_eq (sample_long_view 4096) (sample_long_view 8192) = true
   <-> sample_long = sample_long)
  /\ sv_str (sample_long_view 4096) = sample_long.
Proof.
  apply StringView_eq_strings.
  - exact (proj2 (sample_views 4096)).
  - exact (proj2 (sample_views 8192)).
Defined.

(** * Search in an array of views (StringView.cpp) *)

(** [for (i : l) if (p(i)) return i; return -1;] *)
Fixpoint first_match (p : Z -> result bool) (l : list Z) : result Z :=
  match l with
  | [] => Ok (-1)
  | i :: l' =>
      let! b := p i in
      if b : bool then Ok i else first_match p l'
  end.

Definition linearSearchSimple (key : StringView) (strings : list StringView)
    (indices : option (list Z)) (numStrings : Z) : result Z :=
  match indices with
  | Some indices =>
      first_match
        (fun i =>
           let! j := at_index indices i in
           let! s := at_index strings j in
           Ok (StringView_eq s key))
        (seqZ 0 numStrings)
  | None =>
      first_match
        (fun i => let! s := at_index strings i in Ok (StringView_eq s key))
        (seqZ 0 numStrings)
  end.

(** [kBatch] with AVX2: four 64-bit lanes. *)
Abbreviation kBatch := 4.

Definition round_down (numStrings : Z) : Z :=
  Z.land numStrings (Z.lnot (kBatch - 1)).

(** The test of the words after the first one, when the first ones agree:
    [simd::memEqualUnsafe] of the bodies unless the key is inlined. *)
Definition bodies_equal (key s : StringView) : bool :=
  if isInline key then inlinedAsInt64 key =? inlinedAsInt64 s
  else
    let bodySize := sv_size key - 4 in
    memcmp (drop 4 (sv_data key)) (drop 4 (sv_data s)) (Z.to_nat bodySize) =? 0.

(** The SIMD loop with indices, over the starts [i] of the full batches:
    the lanes whose first word agrees, in order of the lanes. *)
Fixpoint search_batches_indexed (key : StringView) (strings : list StringView)
    (indices : list Z) (starts : list Z) : result Z :=
  match starts with
  | [] => Ok (-1)
  | i :: starts' =>
      let head k :=
        let! j := at_index indices (i + k) in
        let! s := at_index strings j in
        Ok (sizeAndPrefixAsInt64 s =? sizeAndPrefixAsInt64 key) in
      let body k :=
        let! j := at_index indices (i + k) in
        let! s := at_index strings j in
        Ok (bodies_equal key s) in
      let! hits := filter_res head [0; 1; 2; 3] in
      match hits with
      | [] => search_batches_indexed key strings indices starts'
      | offset :: _ =>
          if sv_size key <=? 4 then Ok (i + offset)
          else
            let! found := first_match body hits in
            if negb (found =? -1) then Ok (i + found)
            else search_batches_indexed key strings indices starts'
      end
  end.

(** The SIMD loop without indices.  [strings] is the pointer at the start of
    batch [i], which the loop advances; the body of a long string is read at
    [strings[offset]] with [offset] counted from the start of the array. *)
Fixpoint search_lanes (key : StringView) (strings : list StringView)
    (offset : Z) (lanes : list StringView) : result Z :=
  match lanes with
  | [] => Ok (-1)
  | s :: lanes' =>
      let first := sizeAndPrefixAsInt64 s =? sizeAndPrefixAsInt64 key in
      let second := inlinedAsInt64 s =? inlinedAsInt64 key in
      if first then
        if second || (sv_size key <=? 4) then Ok offset
        else if negb (isInline key) then
          let! s' := at_index strings offset in
          if memcmp (drop 4 (sv_data key)) (drop 4 (sv_data s'))
               (Z.to_nat (sv_size key - 4)) =? 0
          then Ok offset
          else search_lanes key strings (offset + 1) lanes'
        else search_lanes key strings (offset + 1) lanes'
      else search_lanes key strings (offset + 1) lanes'
  end.

Fixpoint search_batches (key : StringView) (strings : list StringView)
    (starts : list Z) : result (Z * list StringView) :=
  match starts with
  | [] => Ok (-1, strings)
  | i :: starts' =>
      let! lanes := map_res (at_index strings) [0; 1; 2; 3] in
      let! found := search_lanes key strings i lanes in
      if negb (found =? -1) then Ok (found, strings)
      else search_batches key (drop 4 strings) starts'
  end.

Definition batch_starts (limit : Z) : list Z :=
  map (Z.mul kBatch) (seqZ 0 (limit / kBatch)).

(** [linearSearch], the AVX2 branch. *)
Definition linearSearch (key : StringView) (strings : list StringView)
    (indices : option (list Z)) (numStrings : Z) : result Z :=
  let limit := round_down numStrings in
  match indices with
  | Some indices =>
      let! found :=
        search_batches_indexed key strings indices (batch_starts limit) in
      if negb (found =? -1) then Ok found
      else
        linearSearchSimple key strings (Some (drop (Z.to_nat limit) indices))
          (numStrings - limit)
  | None =>
      let! loop := search_batches key strings (batch_starts limit) in
      let '(found, strings') := loop in
      if negb (found =? -1) then Ok found
      else linearSearchSimple key strings' None (numStrings - limit)
  end.

(** ** Correctness of the search *)

Definition find_first (q : Z -> bool) (l : list Z) : Z := default (-1) (List.find q l).

Lemma first_match_pure p q l :
  (forall i, i ∈ l -> p i = Ok (q i)) -> first_match p l = Ok (find_first q l).
Proof.
  unfold find_first. induction l as [|i l IH]; intros Hp; simpl; [done|].
  rewrite Hp by set_solver. simpl. destruct (q i); [done|]. apply IH. set_solver.
Qed.

Lemma find_first_spec q l :
  (forall i, i ∈ l -> 0 <= i) ->
  (find_first q l = -1 <-> forall i, i ∈ l -> q i = false).
Proof.
  unfold find_first. induction l as [|i l IH]; intros Hl; simpl; [set_solver|].
  destruct (q i) eqn:E; simpl.
  - specialize (Hl i ltac:(left)). split; [lia|].
    intros H. rewrite H in E by left. done.
  - rewrite IH by set_solver. set_solver.
Qed.

Lemma find_first_app q l k :
  (forall i, i ∈ l -> 0 <= i) ->
  find_first q (l ++ k)
  = if find_first q l =? -1 then find_first q k else find_first q l.
Proof.
  unfold find_first. induction l as [|i l IH]; intros Hl; simpl; [done|].
  destruct (q i); simpl; [|apply IH; set_solver].
  specialize (Hl i ltac:(left)). by replace (i =? -1) with false by lia.
Qed.

Lemma find_first_map q (g : Z -> Z) l :
  find_first q (map g l)
  = match List.find (fun i => q (g i)) l with Some i => g i | None => -1 end.
Proof.
  unfold find_first. induction l as [|i l IH]; simpl; [done|].
  by destruct (q (g i)).
Qed.

Lemma find_filter {A} (p q : A -> bool) l :
  List.find q (List.filter p l) = List.find (fun x => p x && q x) l.
Proof.
  induction l as [|x l IH]; simpl; [done|].
  destruct (p x); simpl; [by rewrite IH|done].
Qed.

Lemma find_ext {A} (p q : A -> bool) l :
  (forall x, x ∈ l -> p x = q x) -> List.find p l = List.find q l.
Proof.
  induction l as [|x l IH]; intros H; simpl; [done|].
  rewrite <- (H x) by left. destruct (p x); [done|]. apply IH. set_solver.
Qed.

Lemma memcmp_zero_sym a b n : memcmp a b n = 0 <-> memcmp b a n = 0.
Proof.
  revert a b. induction n as [|n IH]; intros [|x a] [|y b]; simpl; try done.
  destruct (x <? y) eqn:E1, (y <? x) eqn:E2; done || lia || apply IH.
Qed.

(** The lane test: heads agree and, unless the key is all head, bodies agree. *)
Lemma lane_eq s key a b :
  views s a -> views key b ->
  StringView_eq s key
  = (sizeAndPrefixAsInt64 s =? sizeAndPrefixAsInt64 key)
    && ((sv_size key <=? 4) || bodies_equal key s).
Proof.
  intros Hs Hk. unfold StringView_eq, bodies_equal.
  destruct (_ =? _) eqn:E; cbn [negb andb]; [|done].
  apply Z.eqb_eq, (views_head s key a b Hs Hk) in E as [Hl _].
  destruct (views_parts s a Hs) as (-> & _), (views_parts key b Hk) as (Hsk & _).
  assert (isInline s = isInline key) as ->.
  { unfold isInline. destruct (views_parts s a Hs) as (-> & _). by rewrite Hsk, Hl. }
  rewrite Hsk, Hl. destruct (isInline key) eqn:Ei.
  - f_equal. apply Z.eqb_sym.
  - unfold isInline, isInline_size in Ei. rewrite Hsk in Ei.
    replace (Z.of_nat (length b) <=? 4) with false by zbool. simpl.
    apply eq_iff_eq_true. rewrite !Z.eqb_eq. apply memcmp_zero_sym.
Qed.

Section search.
Context (key : StringView) (k : list Z) (Hkey : views key k).
Context (strings : list StringView) (indices : list Z) (numStrings : Z).
(** Every index of the search selects a view. *)
Context (sel : Z -> StringView) (str : Z -> list Z).
Context (Hsel : forall i, 0 <= i < numStrings ->
  (exists j, at_index indices i = Ok j /\ at_index strings j = Ok (sel i))
  /\ views (sel i) (str i)).

Lemma search_simple_pure n :
  n <= numStrings ->
  linearSearchSimple key strings (Some indices) n
  = Ok (find_first (fun i => StringView_eq (sel i) key) (seqZ 0 n)).
Proof.
  intros Hn. apply first_match_pure. intros i Hi%elem_of_seqZ.
  destruct (Hsel i ltac:(lia)) as [(j & -> & Hs) _]. simpl. by rewrite Hs.
Qed.

Lemma search_batch_pure i starts :
  0 <= i -> i + 4 <= numStrings ->
  search_batches_indexed key strings indices (i :: starts)
  = let found := find_first (fun i => StringView_eq (sel i) key)
                   (map (Z.add i) [0; 1; 2; 3]) in
    if found =? -1 then search_batches_indexed key strings indices starts
    else Ok found.
Proof.
  intros Hi Hn. cbn [search_batches_indexed]. cbv zeta.
  rewrite find_first_map.
  assert (forall k, k ∈ [0; 1; 2; 3] -> 0 <= i + k < numStrings) as Hr
    by (intros x; rewrite !elem_of_cons, elem_of_nil; lia).
  rewrite (filter_res_pure _
    (fun k => sizeAndPrefixAsInt64 (sel (i + k)) =? sizeAndPrefixAsInt64 key)).
  2: { intros x Hx. destruct (Hsel (i + x) (Hr x Hx)) as [(j & -> & Hs) _].
       simpl. by rewrite Hs. }
  cbn [rbind].
  rewrite (find_ext _ (fun x =>
    (sizeAndPrefixAsInt64 (sel (i + x)) =? sizeAndPrefixAsInt64 key)
    && ((sv_size key <=? 4) || bodies_equal key (sel (i + x))))).
  2: { intros x Hx. destruct (Hsel (i + x) (Hr x Hx)) as [_ Hv].
       by rewrite (lane_eq _ _ _ _ Hv Hkey). }
  rewrite <- find_filter. set (hits := List.filter _ _).
  assert (forall x, x ∈ hits -> x ∈ [0; 1; 2; 3]) as Hh.
  { intros x Hx. apply list_elem_of_In, filter_In in Hx as [? _].
    by apply list_elem_of_In. }
  destruct (sv_size key <=? 4).
  { destruct hits as [|offset rest]; [done|]. simpl.
    pose proof (Hr offset (Hh offset ltac:(left))).
    by replace (i + offset =? -1) with false by lia. }
  destruct hits as [|offset rest]; [done|].
  rewrite (first_match_pure _ (fun x => bodies_equal key (sel (i + x)))).
  2: { intros x Hx. destruct (Hsel (i + x) (Hr x (Hh x Hx))) as [(j & -> & Hs) _].
       simpl. by rewrite Hs. }
  cbn [rbind orb]. unfold find_first.
  destruct (List.find _ (offset :: rest)) as [x|] eqn:Ef; simpl; [|done].
  apply find_some in Ef as [Hx%list_elem_of_In _]. apply Hh in Hx as Hx'.
  pose proof (Hr x Hx'). rewrite !elem_of_cons, elem_of_nil in Hx'.
  by replace (x =? -1) with false by lia; replace (i + x =? -1) with false by lia.
Qed.

Lemma batch_starts_S m :
  0 <= m -> batch_starts (4 * (m + 1)) = batch_starts (4 * m) ++ [4 * m].
Proof.
  intros. unfold batch_starts. rewrite !(Z.mul_comm 4), !Z.div_mul by lia.
  rewrite seqZ_app, map_app by lia. f_equal. simpl. f_equal. lia.
Qed.

Lemma search_batches_pure starts :
  (forall i, i ∈ starts -> 0 <= i /\ i + 4 <= numStrings) ->
  search_batches_indexed key strings indices starts
  = Ok (find_first (fun i => StringView_eq (sel i) key)
          (concat (map (fun i => map (Z.add i) [0; 1; 2; 3]) starts))).
Proof.
  induction starts as [|i starts IH]; intros Hs; [done|].
  destruct (Hs i ltac:(left)) as [? ?]. rewrite search_batch_pure by done. cbv zeta.
  cbn [map concat]. rewrite find_first_app.
  - rewrite IH by set_solver. by destruct (_ =? -1).
  - intros x. rewrite !elem_of_cons, elem_of_nil. lia.
Qed.

Lemma concat_batches m :
  concat (map (fun i => map (Z.add i) [0; 1; 2; 3]) (batch_starts (4 * Z.of_nat m)))
  = seqZ 0 (4 * Z.of_nat m).
Proof.
  induction m as [|m IH]; [done|].
  rewrite Nat2Z.inj_succ, <- Z.add_1_r, batch_starts_S by lia.
  rewrite map_app, concat_app, IH. rewrite Z.mul_add_distr_l.
  rewrite seqZ_app by lia. f_equal. rewrite Z.add_0_l.
  simpl. rewrite !seqZ_cons by lia. do 5 f_equal; lia.
Qed.
End search.

Lemma round_down_spec n : round_down n = 4 * (n / 4).
Proof.
  unfold round_down. change (4 - 1) with (Z.ones 2).
  rewrite <- Z.ldiff_land, Z.ldiff_ones_r by lia.
  rewrite Z.shiftl_mul_pow2, Z.shiftr_div_pow2 by lia. change (2 ^ 2) with 4. lia.
Qed.

(** The first position of the key, or -1. *)
Definition is_first_match (str : Z -> list Z) (k : list Z) (n r : Z) : Prop :=
  (r = -1 /\ forall i, 0 <= i < n -> str i <> k)
  \/ (0 <= r < n /\ str r = k /\ forall i, 0 <= i < r -> str i <> k).

Lemma find_first_is_first q str k n :
  (forall i, 0 <= i < n -> q i = true <-> str i = k) ->
  is_first_match str k n (find_first q (seqZ 0 n)).
Proof.
  intros Hq. destruct (decide (0 <= n)) as [Hn|].
  2: { left. rewrite seqZ_nil by lia. split; [done|lia]. }
  revert Hq. rewrite <- (Z2Nat.id n) by done. generalize (Z.to_nat n). clear n Hn.
  induction n as [|n IH]; intros Hq; [left; split; [done|lia]|].
  rewrite Nat2Z.inj_succ, <- Z.add_1_r in *. rewrite seqZ_app by lia.
  rewrite find_first_app by (intros i; rewrite elem_of_seqZ; lia).
  destruct IH as [(-> & Hno)|(? & ? & ?)]; [intros; apply Hq; lia| |].
  - rewrite Z.eqb_refl, Z.add_0_l. unfold find_first. simpl.
    change (Z.of_nat 0) with 0. rewrite Z.add_0_l. destruct (q (Z.of_nat n)) eqn:E; simpl.
    + right. split_and!; [lia|lia|apply Hq; [lia|done]|].
      intros i Hi. apply Hno. lia.
    + left. split; [done|]. intros i Hi He.
      destruct (decide (i = Z.of_nat n)) as [->|]; [|apply (Hno i); [lia|done]].
      apply Hq in He; [congruence|lia].
  - right. replace (_ =? -1) with false by lia. split_and!; try done; lia.
Qed.

(** Searching an array of views: the scalar loop, and the SIMD loop over
    whole batches of four, find the first position that holds the key. *)
Theorem linearSearch_finds_first key k strings indices sel str n :
  views key k ->
  (forall i, 0 <= i < n ->
     (exists j, at_index indices i = Ok j /\ at_index strings j = Ok (sel i))
     /\ views (sel i) (str i)) ->
  exists r, linearSearchSimple key strings (Some indices) n = Ok r
    /\ is_first_match str k n r
    /\ (0 <= n -> n mod 4 = 0 -> linearSearch key strings (Some indices) n = Ok r).
Proof.
  intros Hk Hsel. eexists. split_and!.
  - by apply (search_simple_pure _ _ _ _ sel str Hsel).
  - apply find_first_is_first. intros i Hi. destruct (Hsel i Hi) as [_ Hv].
    by apply eq_spec.
  - intros Hn Hm. unfold linearSearch. rewrite round_down_spec.
    replace (4 * (n / 4)) with n by (pose proof (Z.div_mod n 4); lia).
    assert (n = 4 * Z.of_nat (Z.to_nat (n / 4))) as Hn4
      by (pose proof (Z.div_mod n 4); rewrite Z2Nat.id; lia).
    rewrite (search_batches_pure key k Hk _ _ n sel str Hsel).
    + rewrite Hn4 at 1. rewrite concat_batches, <- Hn4. cbn [rbind].
      destruct (_ =? -1) eqn:E; cbn [negb]; [|done].
      rewrite Z.sub_diag. simpl. f_equal. lia.
    + intros i Hi. unfold batch_starts in Hi.
      apply list_elem_of_fmap in Hi as (j & -> & Hj%elem_of_seqZ).
      pose proof (Z.div_mod n 4). lia.
Qed.

Lemma linearSearch_finds_first_witness :
  let key := sample_long_view 64 in
  let strings := [sample_short_view; sample_long_view 4096] in
  let sel i := if i <? 2 then sample_short_view else sample_long_view 4096 in
  let str i := if i <? 2 then sample_short else sample_long in
  exists r, linearSearchSimple key strings (Some [0; 0; 1; 1]) 4 = Ok r
    /\ is_first_match str sample_long 4 r
    /\ (0 <= 4 -> 4 mod 4 = 0 ->
        linearSearch key strings (Some [0; 0; 1; 1]) 4 = Ok r).
Proof.
  intros key strings sel str.
  apply (linearSearch_finds_first key sample_long strings _ sel str).
  - exact (proj2 (sample_views 64)).
  - intros i Hi. unfold sel, str.
    assert (i = 0 \/ i = 1 \/ i = 2 \/ i = 3) as [->|[->|[->| ->]]] by lia.
    + split; [by exists 0|exact (proj1 (sample_views 0))].
    + split; [by exists 0|exact (proj1 (sample_views 0))].
    + split; [by exists 1|exact (proj2 (sample_views 4096))].
    + split; [by exists 1|exact (proj2 (sample_views 4096))].
Defined.

(** A view of one character. *)
Definition char_view (c : Z) : StringView := {|
  sv_size := 1;
  sv_prefix := [c; 0; 0; 0];
  sv_value := Inlined (zero_bytes 8)
|}.

(** The SIMD search reports a match after the last whole batch by its
    position in that tail, not in the array: the key at position 4 of 5 is
    reported at 0, with and without indices.  Without indices it also compares
    the bodies of long strings with those of other positions from the second
    batch on: it reads past an array of 8 that holds the key at position 4. *)
Theorem linearSearch_wrong_position :
  let strings := map char_view [97; 98; 99; 100; 101] in
  let long := repeat sample_short_view 4 ++ repeat (sample_long_view 4096) 4 in
  linearSearchSimple (char_view 101) strings None 5 = Ok 4
  /\ linearSearch (char_view 101) strings None 5 = Ok 0
  /\ linearSearch (char_view 101) strings (Some [0; 1; 2; 3; 4]) 5 = Ok 0
  /\ linearSearchSimple (sample_long_view 64) long None 8 = Ok 4
  /\ linearSearch (sample_long_view 64) long None 8 = Err BadAccess.
Proof. vm_compute. done. Qed.
