(* ===== verification/Timestamp.v ===== *)
(** Timestamps: the seconds/nanoseconds pair of bolt/type/Timestamp.h, its
    conversions to and from milliseconds, microseconds and nanoseconds, its
    order, and its increment and decrement. *)

From S2P Require Import Prelude.

Record Timestamp : Type := mkTimestamp { seconds_ : Z; nanos_ : Z }.

#[export] Instance Timestamp_eq_dec : EqDecision Timestamp.
Proof. solve_decision. Defined.

Definition kNanosInSecond : Z := 1000000000.
Definition kSecondsInDay : Z := 86400.
Definition kJulianToUnixEpochDays : Z := 2440588.
Definition kMaxSeconds : Z := Z.quot INT64_MAX 1000.
Definition kMinSeconds : Z := Z.quot INT64_MIN 1000 - 1.
Definition kMaxNanos : Z := 999999999.

Definition Timestamp_min : Timestamp := mkTimestamp kMinSeconds 0.
Definition Timestamp_max : Timestamp := mkTimestamp kMaxSeconds kMaxNanos.

(** What the constructor checks in a debug build. *)
Definition Timestamp_wf (t : Timestamp) : Prop :=
  kMinSeconds <= seconds_ t <= kMaxSeconds /\ 0 <= nanos_ t <= kMaxNanos.

(** ** Comparison operators *)

Definition Timestamp_eq (a b : Timestamp) : bool :=
  (seconds_ a =? seconds_ b) && (nanos_ a =? nanos_ b).
Definition Timestamp_lt (a b : Timestamp) : bool :=
  (seconds_ a <? seconds_ b)
  || ((seconds_ a =? seconds_ b) && (nanos_ a <? nanos_ b)).
Definition Timestamp_le (a b : Timestamp) : bool :=
  (seconds_ a <? seconds_ b)
  || ((seconds_ a =? seconds_ b) && (nanos_ a <=? nanos_ b)).
Definition Timestamp_gt (a b : Timestamp) : bool :=
  (seconds_ a >? seconds_ b)
  || ((seconds_ a =? seconds_ b) && (nanos_ a >? nanos_ b)).
Definition Timestamp_ge (a b : Timestamp) : bool :=
  (seconds_ a >? seconds_ b)
  || ((seconds_ a =? seconds_ b) && (nanos_ a >=? nanos_ b)).

(** [std::max] and [std::min], which use [operator<]. *)
Definition Timestamp_std_max (a b : Timestamp) : Timestamp :=
  if Timestamp_lt a b then b else a.
Definition Timestamp_std_min (a b : Timestamp) : Timestamp :=
  if Timestamp_lt b a then b else a.

(** ** Conversions *)

(** A release build stores the arguments unchecked, the nanoseconds as an
    unsigned 64-bit integer. *)
Definition make_Timestamp (seconds nanos : Z) : Timestamp :=
  mkTimestamp seconds (wrap_unsigned 64 nanos).

(** Division of signed integers truncates towards zero: [Z.quot], [Z.rem]. *)
Definition fromMillis (millis : Z) : Timestamp :=
  if (millis >=? 0) || (Z.rem millis 1000 =? 0) then
    make_Timestamp (Z.quot millis 1000) (Z.rem millis 1000 * 1000000)
  else
    let second := Z.quot millis 1000 - 1 in
    let nano := (Z.rem millis 1000 + 1000) * 1000000 in
    make_Timestamp second nano.

Definition fromMicros (micros : Z) : Timestamp :=
  if (micros >=? 0) || (Z.rem micros 1000000 =? 0) then
    make_Timestamp (Z.quot micros 1000000) (Z.rem micros 1000000 * 1000)
  else
    let second := Z.quot micros 1000000 - 1 in
    let nano := (Z.rem micros 1000000 + 1000000) * 1000 in
    make_Timestamp second nano.

Definition fromNanos (nanos : Z) : Timestamp :=
  if (nanos >=? 0) || (Z.rem nanos 1000000000 =? 0) then
    make_Timestamp (Z.quot nanos 1000000000) (Z.rem nanos 1000000000)
  else
    let second := Z.quot nanos 1000000000 - 1 in
    let nano := Z.rem nanos 1000000000 + 1000000000 in
    make_Timestamp second nano.

Definition fromDaysAndNanos (days nanos : Z) : Timestamp :=
  let seconds :=
    (days - kJulianToUnixEpochDays) * kSecondsInDay
    + Z.quot nanos kNanosInSecond in
  let remainingNanos := Z.rem nanos kNanosInSecond in
  if remainingNanos <? 0 then
    make_Timestamp (seconds - 1) (remainingNanos + kNanosInSecond)
  else make_Timestamp seconds remainingNanos.

(** The results that do not fit in 64 bits are user errors; they are computed
    in 128 bits. *)
Definition fit64 (value : Z) : result Z :=
  if (value <? INT64_MIN) || (value >? INT64_MAX) then Err UserFail
  else Ok value.

Definition toNanos (t : Timestamp) : result Z :=
  fit64 (seconds_ t * kNanosInSecond + nanos_ t).
Definition toMillis (t : Timestamp) : result Z :=
  fit64 (seconds_ t * 1000 + nanos_ t / 1000000).
Definition toMicros (t : Timestamp) : result Z :=
  fit64 (seconds_ t * 1000000 + nanos_ t / 1000).

(** [toMillisAllowOverflow] computes in 64 bits. *)
Definition toMillisAllowOverflow (t : Timestamp) : result Z :=
  let! millis := ck64 (seconds_ t * 1000) in
  sadd64 millis (nanos_ t / 1000000).

Definition getDays (t : Timestamp) : Z :=
  let days := Z.quot (seconds_ t) kSecondsInDay in
  if Z.rem (seconds_ t) kSecondsInDay <? 0 then days - 1 else days.

Definition getNanosInDay (t : Timestamp) : Z :=
  let secondsInDay := Z.rem (seconds_ t) kSecondsInDay in
  let secondsInDay :=
    if secondsInDay <? 0 then secondsInDay + kSecondsInDay else secondsInDay in
  wrap_unsigned 64 (nanos_ t + kNanosInSecond * secondsInDay).

(** The divisor of the template: [value *= 10] for [i] from [precision] to 8. *)
Fixpoint precision_divisor (n : nat) : Z :=
  match n with O => 1 | S n' => precision_divisor n' * 10 end.

Definition toPrecision (t : Timestamp) (precision : Z) : result Timestamp :=
  if (precision <? 0) || (precision >? 9) then Err UserFail
  else
    let divisor := precision_divisor (Z.to_nat (9 - precision)) in
    Ok (make_Timestamp (seconds_ t) (nanos_ t / divisor * divisor)).

Inductive TimestampPrecision : Type :=
  | kMilliseconds | kMicroseconds | kNanoseconds.

Definition truncate (t : Timestamp) (precision : TimestampPrecision)
    : result Timestamp :=
  match precision with
  | kMilliseconds => rmap fromMillis (toMillis t)
  | kMicroseconds => rmap fromMicros (toMicros t)
  | kNanoseconds => Ok t
  end.

Definition minMillis : Timestamp :=
  make_Timestamp kMinSeconds ((Z.rem INT64_MIN 1000 + 1000) * 1000000).
Definition maxMillis : Timestamp :=
  make_Timestamp kMaxSeconds (Z.rem INT64_MAX 1000 * 1000000).

(** ** Increment and decrement *)

Definition Timestamp_incr (t : Timestamp) : result Timestamp :=
  if nanos_ t <? kMaxNanos then Ok (mkTimestamp (seconds_ t) (nanos_ t + 1))
  else if seconds_ t <? kMaxSeconds then Ok (mkTimestamp (seconds_ t + 1) 0)
  else Err UserFail.

Definition Timestamp_decr (t : Timestamp) : result Timestamp :=
  if nanos_ t >? 0 then Ok (mkTimestamp (seconds_ t) (nanos_ t - 1))
  else if seconds_ t >? kMinSeconds then
    Ok (mkTimestamp (seconds_ t - 1) kMaxNanos)
  else Err UserFail.

(** ** PrestoDB time zone ids *)

Abbreviation kMaxFixedOffsetTimeZoneId := 1680.

Definition getPrestoTZOffsetInSeconds (tzID : Z) : Z :=
  (if tzID <=? 840 then tzID - 841 else tzID - 840) * 60.

Section time_zones.
(** The time zone database: the conversions of the zone with an id. *)
Variable zone_to_sys : Z -> Z -> result Z.
Variable zone_to_local : Z -> Z -> result Z.

Definition toGMT (t : Timestamp) (tzID : Z) : result Timestamp :=
  if tzID =? 0 then Ok t
  else if tzID <=? kMaxFixedOffsetTimeZoneId then
    let! s := ssub64 (seconds_ t) (getPrestoTZOffsetInSeconds tzID) in
    Ok (mkTimestamp s (nanos_ t))
  else
    let! s := zone_to_sys tzID (seconds_ t) in
    Ok (mkTimestamp s (nanos_ t)).

Definition toTimezone (t : Timestamp) (tzID : Z) : result Timestamp :=
  if tzID =? 0 then Ok t
  else if tzID <=? kMaxFixedOffsetTimeZoneId then
    let! s := sadd64 (seconds_ t) (getPrestoTZOffsetInSeconds tzID) in
    Ok (mkTimestamp s (nanos_ t))
  else
    let! s := zone_to_local tzID (seconds_ t) in
    Ok (mkTimestamp s (nanos_ t)).
End time_zones.

(** * Lemmas *)

(** The instant of a timestamp, in nanoseconds since the epoch. *)
Definition instant (t : Timestamp) : Z := seconds_ t * kNanosInSecond + nanos_ t.

Definition nanos_ok (t : Timestamp) : Prop := 0 <= nanos_ t <= kMaxNanos.

(** Linear arithmetic with truncating and flooring division by constants. *)
Ltac euclid :=
  unfold kNanosInSecond, kSecondsInDay, kMaxNanos, kMinSeconds, kMaxSeconds,
    kJulianToUnixEpochDays in *;
  Z.to_euclidean_division_equations; lia.

Lemma make_Timestamp_eq s n :
  0 <= n <= kMaxNanos -> make_Timestamp s n = mkTimestamp s n.
Proof.
  intros. unfold make_Timestamp. by rewrite wrap_unsigned_id by (unfold kMaxNanos in *; lia).
Qed.

Lemma fit64_Ok x r : fit64 x = Ok r <-> r = x /\ INT64_MIN <= x <= INT64_MAX.
Proof.
  unfold fit64. destruct (_ || _) eqn:E; split; try done; try naive_solver lia.
Qed.

Lemma fromMillis_eq m :
  fromMillis m = mkTimestamp (m / 1000) (m mod 1000 * 1000000).
Proof.
  unfold fromMillis. destruct (_ || _) eqn:E.
  - rewrite make_Timestamp_eq by euclid. f_equal; euclid.
  - rewrite make_Timestamp_eq by euclid. f_equal; euclid.
Qed.

Lemma fromMicros_eq m :
  fromMicros m = mkTimestamp (m / 1000000) (m mod 1000000 * 1000).
Proof.
  unfold fromMicros. destruct (_ || _) eqn:E.
  - rewrite make_Timestamp_eq by euclid. f_equal; euclid.
  - rewrite make_Timestamp_eq by euclid. f_equal; euclid.
Qed.

Lemma fromNanos_eq m :
  fromNanos m = mkTimestamp (m / 1000000000) (m mod 1000000000).
Proof.
  unfold fromNanos. destruct (_ || _) eqn:E.
  - rewrite make_Timestamp_eq by euclid. f_equal; euclid.
  - rewrite make_Timestamp_eq by euclid. f_equal; euclid.
Qed.

Lemma precision_divisor_pow n : precision_divisor n = 10 ^ Z.of_nat n.
Proof.
  induction n as [|n IH]; [done|].
  rewrite Nat2Z.inj_succ, Z.pow_succ_r by lia. simpl. lia.
Qed.

(** * Properties *)

(** Converting a count of milliseconds, microseconds or nanoseconds to a
    timestamp and back gives the count, for every 64-bit integer, and the
    nanosecond part is always in range.  Milliseconds always give a timestamp
    within the limits of the type. *)
Theorem Timestamp_units_roundtrip n :
  INT64_MIN <= n <= INT64_MAX ->
  toMillis (fromMillis n) = Ok n /\ Timestamp_wf (fromMillis n)
  /\ toMicros (fromMicros n) = Ok n /\ Timestamp_wf (fromMicros n)
  /\ toNanos (fromNanos n) = Ok n /\ Timestamp_wf (fromNanos n).
Proof.
  intros Hn. rewrite fromMillis_eq, fromMicros_eq, fromNanos_eq.
  unfold toMillis, toMicros, toNanos, Timestamp_wf. simpl.
  rewrite !fit64_Ok. split_and!; euclid.
Qed.

Lemma Timestamp_units_roundtrip_witness :
  let n := -1500000001 in
  toMillis (fromMillis n) = Ok n /\ Timestamp_wf (fromMillis n)
  /\ toMicros (fromMicros n) = Ok n /\ Timestamp_wf (fromMicros n)
  /\ toNanos (fromNanos n) = Ok n /\ Timestamp_wf (fromNanos n).
Proof. apply Timestamp_units_roundtrip. lia. Defined.

(** Converting a timestamp to milliseconds or microseconds and back drops
    the finer digits of its fraction, as [toPrecision] does, when the count
    fits in 64 bits; [truncate] computes it.  The conversion to milliseconds
    succeeds exactly between [minMillis] and the last millisecond of
    [maxMillis]. *)
Theorem Timestamp_truncation t :
  Timestamp_wf t ->
  (forall m, toMillis t = Ok m ->
     toPrecision t 3 = Ok (fromMillis m) /\ truncate t kMilliseconds = toPrecision t 3)
  /\ (forall m, toMicros t = Ok m ->
     toPrecision t 6 = Ok (fromMicros m) /\ truncate t kMicroseconds = toPrecision t 6)
  /\ (forall m, toNanos t = Ok m -> fromNanos m = t)
  /\ (is_ok (toMillis t) = true
      <-> instant minMillis <= instant t < instant maxMillis + 1000000).
Proof.
  intros [Hs Hn]. split_and!.
  - intros m Hm. unfold truncate. rewrite Hm. apply fit64_Ok in Hm as [-> _]. simpl.
    unfold toPrecision. simpl. rewrite make_Timestamp_eq by euclid.
    rewrite fromMillis_eq. split; do 2 f_equal; euclid.
  - intros m Hm. unfold truncate. rewrite Hm. apply fit64_Ok in Hm as [-> _]. simpl.
    unfold toPrecision. simpl. rewrite make_Timestamp_eq by euclid.
    rewrite fromMicros_eq. split; do 2 f_equal; euclid.
  - intros m [-> _]%fit64_Ok. rewrite fromNanos_eq. destruct t as [s n]. simpl in *.
    f_equal; euclid.
  - unfold minMillis, maxMillis. rewrite !make_Timestamp_eq by euclid.
    unfold is_ok, toMillis, instant. simpl. destruct (fit64 _) as [m|e] eqn:E.
    + apply fit64_Ok in E as [-> Hm]. split; [|done]. intros _. euclid.
    + split; [done|]. intros Hi. exfalso.
      assert (fit64 (seconds_ t * 1000 + nanos_ t / 1000000)
        = Ok (seconds_ t * 1000 + nanos_ t / 1000000)) as E'
        by (apply fit64_Ok; euclid).
      congruence.
Qed.

Lemma Timestamp_truncation_witness :
  let t := mkTimestamp (-1) 999999999 in
  (forall m, toMillis t = Ok m ->
     toPrecision t 3 = Ok (fromMillis m) /\ truncate t kMilliseconds = toPrecision t 3)
  /\ (forall m, toMicros t = Ok m ->
     toPrecision t 6 = Ok (fromMicros m) /\ truncate t kMicroseconds = toPrecision t 6)
  /\ (forall m, toNanos t = Ok m -> fromNanos m = t)
  /\ (is_ok (toMillis t) = true
      <-> instant minMillis <= instant t < instant maxMillis + 1000000).
Proof.
  apply Timestamp_truncation. unfold Timestamp_wf. vm_compute.
  split; split; discriminate.
Defined.

(** The comparison operators order timestamps by the instant they denote,
    and increment and decrement are the next and the previous nanosecond: they
    stay within the limits of the type, fail only at its ends, and undo each
    other. *)
Theorem Timestamp_order a b :
  Timestamp_wf a -> Timestamp_wf b ->
  (Timestamp_lt a b = true <-> instant a < instant b)
  /\ (Timestamp_le a b = true <-> instant a <= instant b)
  /\ (Timestamp_gt a b = true <-> instant a > instant b)
  /\ (Timestamp_ge a b = true <-> instant a >= instant b)
  /\ (Timestamp_eq a b = true <-> a = b)
  /\ (Timestamp_incr a = Ok b <-> instant b = instant a + 1)
  /\ (Timestamp_decr b = Ok a <-> Timestamp_incr a = Ok b)
  /\ (Timestamp_incr a = Err UserFail <-> a = Timestamp_max)
  /\ (Timestamp_decr a = Err UserFail <-> a = Timestamp_min).
Proof.
  destruct a as [s n], b as [s' n']. intros [Hs Hn] [Hs' Hn'].
  unfold Timestamp_lt, Timestamp_le, Timestamp_gt, Timestamp_ge, Timestamp_eq,
    Timestamp_incr, Timestamp_decr, Timestamp_max, Timestamp_min, instant. simpl in *.
  unfold kNanosInSecond, kMaxNanos in *. split_and!; try lia.
  - rewrite andb_true_iff, !Z.eqb_eq. naive_solver.
  - repeat case_match; split; intros; simplify_eq; try lia; try (f_equal; lia);
      do 2 f_equal; lia.
  - repeat case_match; split; intros; simplify_eq; try lia; do 2 f_equal; lia.
  - repeat case_match; split; intros; simplify_eq; try lia; f_equal; lia.
  - repeat case_match; split; intros; simplify_eq; try lia; f_equal; lia.
Qed.

Lemma Timestamp_order_witness :
  let a := mkTimestamp (-1) 999999999 in
  let b := mkTimestamp 0 0 in
  (Timestamp_lt a b = true <-> instant a < instant b)
  /\ (Timestamp_le a b = true <-> instant a <= instant b)
  /\ (Timestamp_gt a b = true <-> instant a > instant b)
  /\ (Timestamp_ge a b = true <-> instant a >= instant b)
  /\ (Timestamp_eq a b = true <-> a = b)
  /\ (Timestamp_incr a = Ok b <-> instant b = instant a + 1)
  /\ (Timestamp_decr b = Ok a <-> Timestamp_incr a = Ok b)
  /\ (Timestamp_incr a = Err UserFail <-> a = Timestamp_max)
  /\ (Timestamp_decr a = Err UserFail <-> a = Timestamp_min).
Proof.
  apply Timestamp_order; unfold Timestamp_wf; vm_compute;
    (split; split; discriminate).
Defined.

(** A timestamp splits into the day it falls on, counted with flooring
    division, and the nanosecond of that day; [fromDaysAndNanos] puts a Julian
    day number and the nanosecond of the day together again, for every day
    number of its 32-bit type, and accepts a nanosecond count of any size and
    sign. *)
Theorem Timestamp_days_and_nanos t :
  Timestamp_wf t ->
  instant t = getDays t * (kSecondsInDay * kNanosInSecond) + getNanosInDay t
  /\ 0 <= getNanosInDay t < kSecondsInDay * kNanosInSecond
  /\ (INT32_MIN <= getDays t + kJulianToUnixEpochDays <= INT32_MAX ->
      fromDaysAndNanos (getDays t + kJulianToUnixEpochDays) (getNanosInDay t) = t)
  /\ forall days nanos,
       INT32_MIN <= days <= INT32_MAX -> INT64_MIN <= nanos <= INT64_MAX ->
       instant (fromDaysAndNanos days nanos)
       = (days - kJulianToUnixEpochDays) * (kSecondsInDay * kNanosInSecond) + nanos.
Proof.
  intros [Hs Hn].
  assert (getDays t = seconds_ t / kSecondsInDay) as Hd
    by (unfold getDays; case_match; euclid).
  assert (getNanosInDay t = nanos_ t + kNanosInSecond * (seconds_ t mod kSecondsInDay)) as Hnd.
  { unfold getNanosInDay. rewrite wrap_unsigned_id by (case_match; euclid).
    case_match; euclid. }
  assert (forall days nanos, fromDaysAndNanos days nanos
    = mkTimestamp ((days - kJulianToUnixEpochDays) * kSecondsInDay + nanos / kNanosInSecond)
        (nanos mod kNanosInSecond)) as Hf.
  { intros. unfold fromDaysAndNanos. case_match; rewrite make_Timestamp_eq by euclid;
      f_equal; euclid. }
  rewrite Hd, Hnd. split_and!; try (unfold instant; euclid).
  - intros _. rewrite Hf. destruct t as [s n]. simpl in *. f_equal; euclid.
  - intros. rewrite Hf. unfold instant. simpl. euclid.
Qed.

Lemma Timestamp_days_and_nanos_witness :
  let t := mkTimestamp (-86401) 5 in
  instant t = getDays t * (kSecondsInDay * kNanosInSecond) + getNanosInDay t
  /\ 0 <= getNanosInDay t < kSecondsInDay * kNanosInSecond
  /\ (INT32_MIN <= getDays t + kJulianToUnixEpochDays <= INT32_MAX ->
      fromDaysAndNanos (getDays t + kJulianToUnixEpochDays) (getNanosInDay t) = t)
  /\ forall days nanos,
       INT32_MIN <= days <= INT32_MAX -> INT64_MIN <= nanos <= INT64_MAX ->
       instant (fromDaysAndNanos days nanos)
       = (days - kJulianToUnixEpochDays) * (kSecondsInDay * kNanosInSecond) + nanos.
Proof.
  apply Timestamp_days_and_nanos. unfold Timestamp_wf. vm_compute.
  split; split; discriminate.
Defined.
