(* ===== verification/FilterTypes.v ===== *)
(** Filters: the data of the pushed-down filters of bolt/type/filter
    (FilterBase.h, Filter.cpp, FilterUtil.cpp).

    One record per filter class with the class's fields, one constructor
    function per C++ constructor (with its BOLT_CHECKs), the [Filter] type that
    stands for a pointer to the base class, the value tests ([testInt64],
    [testBytes], ...), the range tests ([testInt64Range], ...) and [clone].

    The hash sets of folly (F14FastSet) are third-party code: the order in
    which a set enumerates its elements is the parameter [F14Ops], and what the
    code relies on about it is [F14Laws].  Floating-point, cast and
    map-subscript filters are not part of the type. *)

From S2P Require Import Prelude StringView Timestamp.

(** * folly::F14FastSet *)

(** Enumeration of the set obtained by inserting the elements of a list. *)
Class F14Ops : Type := {
  f14_ints : list Z -> list Z;
  f14_strings : list (list Z) -> list (list Z)
}.

(** A set enumerates each of its elements once, in an order of its own. *)
Class F14Laws {ops : F14Ops} : Prop := {
  f14_ints_nodup l : NoDup (f14_ints l);
  f14_ints_elem l x : x ∈ f14_ints l <-> x ∈ l;
  f14_strings_nodup l : NoDup (f14_strings l);
  f14_strings_elem l x : x ∈ f14_strings l <-> x ∈ l
}.
Arguments F14Laws : clear implicits.

(** A set that enumerates in insertion order satisfies the laws. *)
Definition F14_insertion_order : F14Ops := {|
  f14_ints := remove_dups;
  f14_strings := remove_dups
|}.

Lemma F14_insertion_order_laws : F14Laws F14_insertion_order.
Proof.
  split; simpl; intros.
  - apply NoDup_remove_dups.
  - apply elem_of_remove_dups.
  - apply NoDup_remove_dups.
  - apply elem_of_remove_dups.
Qed.

Definition contains {A} `{EqDecision A} (x : A) (l : list A) : bool :=
  bool_decide (x ∈ l).

(** * Standard library algorithms used by the filters *)

(** [std::lower_bound] on a sorted vector: the iterator to the first element
    that is not less than [v], as the suffix of the vector it points at. *)
Fixpoint lower_bound (l : list Z) (v : Z) : list Z :=
  match l with
  | [] => []
  | x :: l' => if x <? v then lower_bound l' v else l
  end.

(** [std::distance(begin, it)] for an iterator given as a suffix. *)
Definition iter_index (l it : list Z) : Z :=
  Z.of_nat (length l) - Z.of_nat (length it).

(** [boost::sort::pdqsort] on integers. *)
Definition sort_ints (l : list Z) : list Z := merge_sort Z.le l.

(** Filter.cpp [binarySearch]: the index of [value], or [-index - 1] with the
    index where it would be inserted, narrowed to 32 bits. *)
Definition binarySearch (values : list Z) (value : Z) : Z :=
  let it := lower_bound values value in
  match it with
  | [] => wrap_signed 32 (- iter_index values it - 1)
  | x :: _ =>
      if negb (x =? value) then wrap_signed 32 (- iter_index values it - 1)
      else wrap_signed 32 (iter_index values it)
  end.

(** * Byte strings *)

(** Filter.cpp [compareRanges] on two string views. *)
Definition compareRanges_sv (lhs rhs : list Z) : Z :=
  let size := Nat.min (length lhs) (length rhs) in
  let compare := memcmp lhs rhs size in
  if negb (compare =? 0) then compare
  else if Z.of_nat (length lhs) <? Z.of_nat (length rhs) then -1
  else if Z.of_nat (length lhs) >? Z.of_nat (length rhs) then 1
  else 0.

(** Filter.cpp [compareRanges] on a pointer with a length and a string: the
    minimum of the lengths is narrowed to [int] and so is the difference of
    the lengths that it returns. *)
Definition compareRanges (lhs rhs : list Z) : Z :=
  let length_ := Z.of_nat (length lhs) in
  let size := wrap_signed 32 (Z.min length_ (Z.of_nat (length rhs))) in
  let compare := memcmp lhs rhs (Z.to_nat size) in
  if negb (compare =? 0) then compare
  else wrap_signed 32 (length_ - Z.of_nat (length rhs)).

(** * Data of the filter classes *)

(** ** BigintRange *)

Record BigintRange : Type := mkBigintRange {
  br_lower : Z;
  br_upper : Z;
  br_lower32 : Z;
  br_upper32 : Z;
  br_lower16 : Z;
  br_upper16 : Z;
  br_isSingleValue : bool;
  br_inInt32Range : bool;
  br_inInt16Range : bool;
  br_nullAllowed : bool
}.

Definition make_BigintRange (lower upper : Z) (nullAllowed : bool)
    : BigintRange := {|
  br_lower := lower;
  br_upper := upper;
  br_lower32 := wrap_signed 32 (Z.max lower INT32_MIN);
  br_upper32 := wrap_signed 32 (Z.min upper INT32_MAX);
  br_lower16 := wrap_signed 16 (Z.max lower INT16_MIN);
  br_upper16 := wrap_signed 16 (Z.min upper INT16_MAX);
  br_isSingleValue := upper =? lower;
  br_inInt32Range := (lower <=? INT32_MAX) && (upper >=? INT32_MIN);
  br_inInt16Range := (lower <=? INT16_MAX) && (upper >=? INT16_MIN);
  br_nullAllowed := nullAllowed
|}.

Definition BigintRange_testInt64 (f : BigintRange) (value : Z) : bool :=
  (value >=? br_lower f) && (value <=? br_upper f).

(** One lane of [testValues] on a batch of 64-bit integers. *)
Definition BigintRange_testValues64 (f : BigintRange) (value : Z) : bool :=
  if br_isSingleValue f then value =? br_lower f
  else (br_lower f <=? value) && (value <=? br_upper f).

(** One lane of [testValues] on a batch of 32-bit integers. *)
Definition BigintRange_testValues32 (f : BigintRange) (value : Z) : bool :=
  if negb (br_inInt32Range f) then false
  else if br_isSingleValue f then
    if negb (br_lower32 f =? br_lower f) then false
    else value =? wrap_signed 32 (br_lower f)
  else (br_lower32 f <=? value) && (value <=? br_upper32 f).

(** One lane of [testValues] on a batch of 16-bit integers. *)
Definition BigintRange_testValues16 (f : BigintRange) (value : Z) : bool :=
  if negb (br_inInt16Range f) then false
  else if br_isSingleValue f then
    if negb (br_lower16 f =? br_lower f) then false
    else value =? wrap_signed 16 (br_lower f)
  else (br_lower16 f <=? value) && (value <=? br_upper16 f).

Definition BigintRange_testInt64Range (f : BigintRange) (min max : Z)
    (hasNull : bool) : bool :=
  if hasNull && br_nullAllowed f then true
  else negb ((min >? br_upper f) || (max <? br_lower f)).

Definition BigintRange_clone (f : BigintRange) (nullAllowed : option bool)
    : BigintRange :=
  match nullAllowed with
  | Some na => make_BigintRange (br_lower f) (br_upper f) na
  | None => f
  end.

(** ** NegatedBigintRange *)

Record NegatedBigintRange : Type := mkNegatedBigintRange {
  nbr_nonNegated : BigintRange;
  nbr_nullAllowed : bool
}.

Definition make_NegatedBigintRange (lower upper : Z) (nullAllowed : bool)
    : NegatedBigintRange := {|
  nbr_nonNegated := make_BigintRange lower upper (negb nullAllowed);
  nbr_nullAllowed := nullAllowed
|}.

Definition nbr_lower (f : NegatedBigintRange) : Z := br_lower (nbr_nonNegated f).
Definition nbr_upper (f : NegatedBigintRange) : Z := br_upper (nbr_nonNegated f).

Definition NegatedBigintRange_testInt64 (f : NegatedBigintRange) (value : Z)
    : bool :=
  negb (BigintRange_testInt64 (nbr_nonNegated f) value).

Definition NegatedBigintRange_testInt64Range (f : NegatedBigintRange)
    (min max : Z) (hasNull : bool) : bool :=
  if hasNull && nbr_nullAllowed f then true
  else negb ((nbr_lower f <=? min) && (max <=? nbr_upper f)).

Definition NegatedBigintRange_clone (f : NegatedBigintRange)
    (nullAllowed : option bool) : NegatedBigintRange :=
  make_NegatedBigintRange (nbr_lower f) (nbr_upper f)
    (default (nbr_nullAllowed f) nullAllowed).

(** ** BigintValuesUsingHashTable *)

Record BigintValuesUsingHashTable : Type := mkBigintValuesUsingHashTable {
  ht_min : Z;
  ht_max : Z;
  ht_hashTable : list Z;
  ht_values : list Z;
  ht_nullAllowed : bool
}.

Definition make_BigintValuesUsingHashTable (min max : Z) (values : list Z)
    (nullAllowed : bool) : result BigintValuesUsingHashTable :=
  check! min <? max in
  check! Z.of_nat (length values) >? 1 in
  Ok {|
    ht_min := min;
    ht_max := max;
    ht_hashTable := values;
    ht_values := sort_ints values;
    ht_nullAllowed := nullAllowed
  |}.

(** The copy constructor that replaces the null flag. *)
Definition copy_BigintValuesUsingHashTable (other : BigintValuesUsingHashTable)
    (nullAllowed : bool) : BigintValuesUsingHashTable := {|
  ht_min := ht_min other;
  ht_max := ht_max other;
  ht_hashTable := ht_hashTable other;
  ht_values := ht_values other;
  ht_nullAllowed := nullAllowed
|}.

Definition BigintValuesUsingHashTable_testInt64
    (f : BigintValuesUsingHashTable) (value : Z) : bool :=
  if (value <? ht_min f) || (value >? ht_max f) then false
  else contains value (ht_hashTable f).

(** [testValues] on a batch of 64-bit integers: all lanes false when every
    lane is out of range, the per-lane test otherwise. *)
Definition BigintValuesUsingHashTable_testValues64
    (f : BigintValuesUsingHashTable) (x : list Z) : list bool :=
  let outOfRange := map (fun v => (v <? ht_min f) || (v >? ht_max f)) x in
  if forallb id outOfRange then map (fun _ => false) x
  else map (fun v => (v >=? ht_min f) && (v <=? ht_max f)
                     && contains v (ht_hashTable f)) x.

Definition BigintValuesUsingHashTable_testInt64Range
    (f : BigintValuesUsingHashTable) (min max : Z) (hasNull : bool)
    : result bool :=
  if hasNull && ht_nullAllowed f then Ok true
  else if min =? max then Ok (BigintValuesUsingHashTable_testInt64 f min)
  else if (min >? ht_max f) || (max <? ht_min f) then Ok false
  else
    match lower_bound (ht_values f) min with
    | [] => Err BadAccess
    | x :: _ => if min =? x then Ok true else Ok (max >=? x)
    end.

Definition BigintValuesUsingHashTable_clone (f : BigintValuesUsingHashTable)
    (nullAllowed : option bool) : BigintValuesUsingHashTable :=
  match nullAllowed with
  | Some na => copy_BigintValuesUsingHashTable f na
  | None => copy_BigintValuesUsingHashTable f (ht_nullAllowed f)
  end.

(** ** BigintValuesUsingBitmask *)

Record BigintValuesUsingBitmask : Type := mkBigintValuesUsingBitmask {
  bm_bitmask : list bool;
  bm_values : list Z;
  bm_min : Z;
  bm_max : Z;
  bm_nullAllowed : bool
}.

(** The constructor's first loop: check each value and set its bit. *)
Fixpoint bitmask_fill (min max : Z) (values : list Z) (bitmask : list bool)
    : result (list bool) :=
  match values with
  | [] => Ok bitmask
  | value :: values' =>
      check! value >=? min in
      check! value <=? max in
      bitmask_fill min max values' (<[Z.to_nat (value - min) := true]> bitmask)
  end.

(** Its second loop: the values of the set bits in increasing order. *)
Fixpoint bitmask_values (min : Z) (bitmask : list bool) : list Z :=
  match bitmask with
  | [] => []
  | b :: bitmask' =>
      (if b : bool then [min] else []) ++ bitmask_values (min + 1) bitmask'
  end.

Definition make_BigintValuesUsingBitmask (min max : Z) (values : list Z)
    (nullAllowed : bool) : result BigintValuesUsingBitmask :=
  check! min <? max in
  check! Z.of_nat (length values) >? 1 in
  let! diff := ssub64 max min in
  let! range := sadd64 diff 1 in
  let! bitmask :=
    bitmask_fill min max values (replicate (Z.to_nat range) false) in
  let! values_ := int_loop bitmask (fun bits => Ok (bitmask_values min bits)) in
  Ok {|
    bm_bitmask := bitmask;
    bm_values := values_;
    bm_min := min;
    bm_max := max;
    bm_nullAllowed := nullAllowed
  |}.

Definition copy_BigintValuesUsingBitmask (other : BigintValuesUsingBitmask)
    (nullAllowed : bool) : BigintValuesUsingBitmask := {|
  bm_bitmask := bm_bitmask other;
  bm_values := bm_values other;
  bm_min := bm_min other;
  bm_max := bm_max other;
  bm_nullAllowed := nullAllowed
|}.

(** [bitmask_[i]] *)
Definition bitmask_at (bitmask : list bool) (i : Z) : result bool :=
  if i <? 0 then Err BadAccess
  else match bitmask !! Z.to_nat i with
       | Some b => Ok b
       | None => Err BadAccess
       end.

Definition BigintValuesUsingBitmask_testInt64 (f : BigintValuesUsingBitmask)
    (value : Z) : result bool :=
  if (value <? bm_min f) || (value >? bm_max f) then Ok false
  else bitmask_at (bm_bitmask f) (value - bm_min f).

Definition BigintValuesUsingBitmask_testInt64Range
    (f : BigintValuesUsingBitmask) (min max : Z) (hasNull : bool)
    : result bool :=
  if hasNull && bm_nullAllowed f then Ok true
  else if min =? max then BigintValuesUsingBitmask_testInt64 f min
  else Ok (negb ((min >? bm_max f) || (max <? bm_min f))).

Definition BigintValuesUsingBitmask_clone (f : BigintValuesUsingBitmask)
    (nullAllowed : option bool) : BigintValuesUsingBitmask :=
  match nullAllowed with
  | Some na => copy_BigintValuesUsingBitmask f na
  | None => copy_BigintValuesUsingBitmask f (bm_nullAllowed f)
  end.

(** ** NegatedBigintValuesUsingHashTable *)

Record NegatedBigintValuesUsingHashTable : Type :=
  mkNegatedBigintValuesUsingHashTable {
  nht_nonNegated : BigintValuesUsingHashTable;
  nht_nullAllowed : bool
}.

Definition make_NegatedBigintValuesUsingHashTable (min max : Z)
    (values : list Z) (nullAllowed : bool)
    : result NegatedBigintValuesUsingHashTable :=
  let! nonNegated :=
    make_BigintValuesUsingHashTable min max values (negb nullAllowed) in
  Ok {| nht_nonNegated := nonNegated; nht_nullAllowed := nullAllowed |}.

Definition copy_NegatedBigintValuesUsingHashTable
    (other : NegatedBigintValuesUsingHashTable) (nullAllowed : bool)
    : NegatedBigintValuesUsingHashTable := {|
  nht_nonNegated :=
    copy_BigintValuesUsingHashTable (nht_nonNegated other)
      (ht_nullAllowed (nht_nonNegated other));
  nht_nullAllowed := nullAllowed
|}.

Definition nht_values (f : NegatedBigintValuesUsingHashTable) : list Z :=
  ht_values (nht_nonNegated f).

Definition NegatedBigintValuesUsingHashTable_testInt64
    (f : NegatedBigintValuesUsingHashTable) (value : Z) : bool :=
  negb (BigintValuesUsingHashTable_testInt64 (nht_nonNegated f) value).

Definition NegatedBigintValuesUsingHashTable_testInt64Range
    (f : NegatedBigintValuesUsingHashTable) (min max : Z) (hasNull : bool)
    : result bool :=
  if hasNull && nht_nullAllowed f then Ok true
  else if min =? max then
    Ok (NegatedBigintValuesUsingHashTable_testInt64 f min)
  else if (max >? ht_max (nht_nonNegated f))
          || (min <? ht_min (nht_nonNegated f)) then Ok true
  else
    let lo := lower_bound (nht_values f) min in
    let hi := lower_bound (nht_values f) max in
    match lo with
    | [] => Err BadAccess
    | x :: _ =>
        if negb (min =? x) then Ok true
        else match hi with
             | [] => Err BadAccess
             | y :: _ =>
                 if negb (max =? y) then Ok true
                 else
                   let! width := ssub64 max min in
                   Ok (negb (iter_index lo hi =? width))
             end
    end.

Definition NegatedBigintValuesUsingHashTable_clone
    (f : NegatedBigintValuesUsingHashTable) (nullAllowed : option bool)
    : NegatedBigintValuesUsingHashTable :=
  copy_NegatedBigintValuesUsingHashTable f
    (default (nht_nullAllowed f) nullAllowed).

(** ** NegatedBigintValuesUsingBitmask *)

(** [min_] and [max_] are declared [int], so the bounds are narrowed. *)
Record NegatedBigintValuesUsingBitmask : Type :=
  mkNegatedBigintValuesUsingBitmask {
  nbm_min : Z;
  nbm_max : Z;
  nbm_nonNegated : BigintValuesUsingBitmask;
  nbm_nullAllowed : bool
}.

Definition make_NegatedBigintValuesUsingBitmask (min max : Z)
    (values : list Z) (nullAllowed : bool)
    : result NegatedBigintValuesUsingBitmask :=
  check! min <=? max in
  let! nonNegated :=
    make_BigintValuesUsingBitmask min max values (negb nullAllowed) in
  Ok {|
    nbm_min := wrap_signed 32 min;
    nbm_max := wrap_signed 32 max;
    nbm_nonNegated := nonNegated;
    nbm_nullAllowed := nullAllowed
  |}.

Definition copy_NegatedBigintValuesUsingBitmask
    (other : NegatedBigintValuesUsingBitmask) (nullAllowed : bool)
    : NegatedBigintValuesUsingBitmask := {|
  nbm_min := nbm_min other;
  nbm_max := nbm_max other;
  nbm_nonNegated :=
    copy_BigintValuesUsingBitmask (nbm_nonNegated other)
      (bm_nullAllowed (nbm_nonNegated other));
  nbm_nullAllowed := nullAllowed
|}.

Definition nbm_values (f : NegatedBigintValuesUsingBitmask) : list Z :=
  bm_values (nbm_nonNegated f).

Definition NegatedBigintValuesUsingBitmask_testInt64
    (f : NegatedBigintValuesUsingBitmask) (value : Z) : result bool :=
  rmap negb (BigintValuesUsingBitmask_testInt64 (nbm_nonNegated f) value).

Definition NegatedBigintValuesUsingBitmask_testInt64Range
    (f : NegatedBigintValuesUsingBitmask) (min max : Z) (hasNull : bool)
    : result bool :=
  if hasNull && nbm_nullAllowed f then Ok true
  else if min =? max then NegatedBigintValuesUsingBitmask_testInt64 f min
  else Ok true.

Definition NegatedBigintValuesUsingBitmask_clone
    (f : NegatedBigintValuesUsingBitmask) (nullAllowed : option bool)
    : NegatedBigintValuesUsingBitmask :=
  copy_NegatedBigintValuesUsingBitmask f
    (default (nbm_nullAllowed f) nullAllowed).

(** ** BigintMultiRange *)

Record BigintMultiRange : Type := mkBigintMultiRange {
  mr_ranges : list BigintRange;
  mr_lowerBounds : list Z;
  mr_nullAllowed : bool
}.

(** The constructor's check of neighbouring ranges: each range starts at or
    after the end of the one before it. *)
Fixpoint ranges_do_not_overlap (ranges : list BigintRange) : bool :=
  match ranges with
  | r1 :: ((r2 :: _) as rest) =>
      (br_lower r2 >=? br_upper r1) && ranges_do_not_overlap rest
  | _ => true
  end.

Definition make_BigintMultiRange (ranges : list BigintRange)
    (nullAllowed : bool) : result BigintMultiRange :=
  check! negb (Nat.eqb (length ranges) 0) in
  check! Z.of_nat (length ranges) >? 1 in
  let! _ := int_loop ranges (fun ranges => check (ranges_do_not_overlap ranges)) in
  Ok {|
    mr_ranges := ranges;
    mr_lowerBounds := map br_lower ranges;
    mr_nullAllowed := nullAllowed
  |}.

Definition BigintMultiRange_testInt64 (f : BigintMultiRange) (value : Z)
    : result bool :=
  let i := binarySearch (mr_lowerBounds f) value in
  if i >=? 0 then Ok true
  else
    let! negated := ck32 (- i) in
    let! place := ck32 (negated - 1) in
    if place =? 0 then Ok false
    else
      let! range := at_index (mr_ranges f) (place - 1) in
      Ok (BigintRange_testInt64 range value).

Definition BigintMultiRange_testInt64Range (f : BigintMultiRange)
    (min max : Z) (hasNull : bool) : bool :=
  if hasNull && mr_nullAllowed f then true
  else existsb (fun range => BigintRange_testInt64Range range min max hasNull)
         (mr_ranges f).

Definition BigintMultiRange_clone (f : BigintMultiRange)
    (nullAllowed : option bool) : result BigintMultiRange :=
  match nullAllowed with
  | Some na => make_BigintMultiRange (mr_ranges f) na
  | None => make_BigintMultiRange (mr_ranges f) (mr_nullAllowed f)
  end.

(** ** HugeintRange, NegatedHugeintRange, HugeintValuesUsingHashTable *)

Record HugeintRange : Type := make_HugeintRange {
  hr_lower : Z;
  hr_upper : Z;
  hr_nullAllowed : bool
}.

Definition HugeintRange_testInt128 (f : HugeintRange) (value : Z) : bool :=
  (value >=? hr_lower f) && (value <=? hr_upper f).

Definition HugeintRange_testInt128Range (f : HugeintRange) (min max : Z)
    (hasNull : bool) : bool :=
  if hasNull && hr_nullAllowed f then true
  else negb ((min >? hr_upper f) || (max <? hr_lower f)).

Definition HugeintRange_clone (f : HugeintRange) (nullAllowed : option bool)
    : HugeintRange :=
  match nullAllowed with
  | Some na => make_HugeintRange (hr_lower f) (hr_upper f) na
  | None => f
  end.

Record NegatedHugeintRange : Type := mkNegatedHugeintRange {
  nhr_nonNegated : HugeintRange;
  nhr_nullAllowed : bool
}.

Definition make_NegatedHugeintRange (lower upper : Z) (nullAllowed : bool)
    : NegatedHugeintRange := {|
  nhr_nonNegated := make_HugeintRange lower upper (negb nullAllowed);
  nhr_nullAllowed := nullAllowed
|}.

Definition nhr_lower (f : NegatedHugeintRange) : Z := hr_lower (nhr_nonNegated f).
Definition nhr_upper (f : NegatedHugeintRange) : Z := hr_upper (nhr_nonNegated f).

Definition NegatedHugeintRange_testInt128 (f : NegatedHugeintRange)
    (value : Z) : bool :=
  negb (HugeintRange_testInt128 (nhr_nonNegated f) value).

Definition NegatedHugeintRange_testInt128Range (f : NegatedHugeintRange)
    (min max : Z) (hasNull : bool) : bool :=
  if hasNull && nhr_nullAllowed f then true
  else negb ((nhr_lower f <=? min) && (max <=? nhr_upper f)).

Definition NegatedHugeintRange_clone (f : NegatedHugeintRange)
    (nullAllowed : option bool) : NegatedHugeintRange :=
  make_NegatedHugeintRange (nhr_lower f) (nhr_upper f)
    (default (nhr_nullAllowed f) nullAllowed).

Record HugeintValuesUsingHashTable : Type := mkHugeintValuesUsingHashTable {
  hv_min : Z;
  hv_max : Z;
  hv_set : list Z;
  hv_values : list Z;
  hv_nullAllowed : bool
}.

Definition make_HugeintValuesUsingHashTable (min max : Z) (values : list Z)
    (nullAllowed : bool) : result HugeintValuesUsingHashTable :=
  check! negb (Nat.eqb (length values) 0) in
  check! min <=? max in
  Ok {|
    hv_min := min;
    hv_max := max;
    hv_set := values;
    hv_values := values;
    hv_nullAllowed := nullAllowed
  |}.

(** The copy constructor initialises every field but [set_], which is left
    empty. *)
Definition copy_HugeintValuesUsingHashTable
    (other : HugeintValuesUsingHashTable) (nullAllowed : bool)
    : HugeintValuesUsingHashTable := {|
  hv_min := hv_min other;
  hv_max := hv_max other;
  hv_set := [];
  hv_values := hv_values other;
  hv_nullAllowed := nullAllowed
|}.

Definition HugeintValuesUsingHashTable_testInt128
    (f : HugeintValuesUsingHashTable) (value : Z) : bool :=
  contains value (hv_set f).

Definition HugeintValuesUsingHashTable_clone (f : HugeintValuesUsingHashTable)
    (nullAllowed : option bool) : HugeintValuesUsingHashTable :=
  match nullAllowed with
  | Some na => copy_HugeintValuesUsingHashTable f na
  | None => copy_HugeintValuesUsingHashTable f (hv_nullAllowed f)
  end.

(** ** TimestampRange, NegatedTimestampRange *)

Record TimestampRange : Type := mkTimestampRange {
  tr_lower : Timestamp;
  tr_upper : Timestamp;
  tr_singleValue : bool;
  tr_nullAllowed : bool
}.

Definition make_TimestampRange (lower upper : Timestamp) (nullAllowed : bool)
    : TimestampRange := {|
  tr_lower := lower;
  tr_upper := upper;
  tr_singleValue := Timestamp_eq lower upper;
  tr_nullAllowed := nullAllowed
|}.

Definition TimestampRange_testTimestamp (f : TimestampRange)
    (value : Timestamp) : bool :=
  Timestamp_ge value (tr_lower f) && Timestamp_le value (tr_upper f).

Definition TimestampRange_testTimestampRange (f : TimestampRange)
    (min max : Timestamp) (hasNull : bool) : bool :=
  if hasNull && tr_nullAllowed f then true
  else negb (Timestamp_gt min (tr_upper f) || Timestamp_lt max (tr_lower f)).

Definition TimestampRange_clone (f : TimestampRange)
    (nullAllowed : option bool) : TimestampRange :=
  match nullAllowed with
  | Some na => make_TimestampRange (tr_lower f) (tr_upper f) na
  | None => f
  end.

Record NegatedTimestampRange : Type := mkNegatedTimestampRange {
  ntr_nonNegated : TimestampRange;
  ntr_nullAllowed : bool
}.

Definition make_NegatedTimestampRange (lower upper : Timestamp)
    (nullAllowed : bool) : NegatedTimestampRange := {|
  ntr_nonNegated := make_TimestampRange lower upper (negb nullAllowed);
  ntr_nullAllowed := nullAllowed
|}.

Definition ntr_lower (f : NegatedTimestampRange) : Timestamp :=
  tr_lower (ntr_nonNegated f).
Definition ntr_upper (f : NegatedTimestampRange) : Timestamp :=
  tr_upper (ntr_nonNegated f).

Definition NegatedTimestampRange_testTimestamp (f : NegatedTimestampRange)
    (value : Timestamp) : bool :=
  negb (TimestampRange_testTimestamp (ntr_nonNegated f) value).

Definition NegatedTimestampRange_testTimestampRange
    (f : NegatedTimestampRange) (min max : Timestamp) (hasNull : bool)
    : bool :=
  if hasNull && ntr_nullAllowed f then true
  else negb (Timestamp_le (ntr_lower f) min && Timestamp_le max (ntr_upper f)).

Definition NegatedTimestampRange_clone (f : NegatedTimestampRange)
    (nullAllowed : option bool) : NegatedTimestampRange :=
  make_NegatedTimestampRange (ntr_lower f) (ntr_upper f)
    (default (ntr_nullAllowed f) nullAllowed).

(** ** BytesRange *)

Record BytesRange : Type := mkBytesRange {
  bsr_lower : list Z;
  bsr_upper : list Z;
  bsr_lowerUnbounded : bool;
  bsr_lowerExclusive : bool;
  bsr_upperUnbounded : bool;
  bsr_upperExclusive : bool;
  bsr_singleValue : bool;
  bsr_nullAllowed : bool
}.

(** The constructor, with the BOLT_CHECK of its base class [AbstractRange] and
    those of the [StringView]s of the bounds, whose length is narrowed to a
    32-bit integer that must not be negative. *)
Definition make_BytesRange (lower : list Z)
    (lowerUnbounded lowerExclusive : bool) (upper : list Z)
    (upperUnbounded upperExclusive nullAllowed : bool) : result BytesRange :=
  check! negb lowerUnbounded || negb upperUnbounded in
  check! wrap_signed 32 (Z.of_nat (length lower)) >=? 0 in
  check! wrap_signed 32 (Z.of_nat (length upper)) >=? 0 in
  Ok {|
    bsr_lower := lower;
    bsr_upper := upper;
    bsr_lowerUnbounded := lowerUnbounded;
    bsr_lowerExclusive := lowerExclusive;
    bsr_upperUnbounded := upperUnbounded;
    bsr_upperExclusive := upperExclusive;
    bsr_singleValue :=
      negb lowerExclusive && negb upperExclusive && negb lowerUnbounded
      && negb upperUnbounded && (string_compare lower upper =? 0);
    bsr_nullAllowed := nullAllowed
  |}.

Definition copy_BytesRange (other : BytesRange) (nullAllowed : bool)
    : BytesRange := {|
  bsr_lower := bsr_lower other;
  bsr_upper := bsr_upper other;
  bsr_lowerUnbounded := bsr_lowerUnbounded other;
  bsr_lowerExclusive := bsr_lowerExclusive other;
  bsr_upperUnbounded := bsr_upperUnbounded other;
  bsr_upperExclusive := bsr_upperExclusive other;
  bsr_singleValue := bsr_singleValue other;
  bsr_nullAllowed := nullAllowed
|}.

Definition is_empty (s : list Z) : bool := Nat.eqb (length s) 0.

Definition BytesRange_testBytes (f : BytesRange) (value : list Z) : bool :=
  if is_empty value then
    if bsr_lowerUnbounded f then
      negb (is_empty (bsr_upper f)) || negb (bsr_upperExclusive f)
    else is_empty (bsr_lower f) && negb (bsr_lowerExclusive f)
  else if bsr_singleValue f then
    if negb (Nat.eqb (length value) (length (bsr_lower f))) then false
    else memcmp value (bsr_lower f) (length value) =? 0
  else if
    negb (bsr_lowerUnbounded f)
    && (let compare := compareRanges value (bsr_lower f) in
        (compare <? 0) || (bsr_lowerExclusive f && (compare =? 0)))
  then false
  else if negb (bsr_upperUnbounded f) then
    let compare := compareRanges value (bsr_upper f) in
    (compare <? 0) || (negb (bsr_upperExclusive f) && (compare =? 0))
  else true.

(** [testStringView], which compares the view with the views [lowerView] and
    [upperView] of the bounds. *)
Definition BytesRange_testStringView (f : BytesRange)
    (lowerView upperView view : StringView) : bool :=
  if bsr_singleValue f then StringView_eq view lowerView
  else if
    negb (bsr_lowerUnbounded f)
    && (if bsr_lowerExclusive f then StringView_le view lowerView
        else StringView_lt view lowerView)
  then false
  else if
    negb (bsr_upperUnbounded f)
    && (if bsr_upperExclusive f then StringView_ge view upperView
        else StringView_gt view upperView)
  then false
  else true.

Definition BytesRange_testBytesRange (f : BytesRange)
    (min max : option (list Z)) (hasNull : bool) : bool :=
  if hasNull && bsr_nullAllowed f then true
  else
    (bsr_lowerUnbounded f
     || match max with
        | None => true
        | Some m =>
            compareRanges m (bsr_lower f)
            >=? (if bsr_lowerExclusive f then 1 else 0)
        end)
    && (bsr_upperUnbounded f
        || match min with
           | None => true
           | Some m =>
               compareRanges m (bsr_upper f)
               <=? - (if bsr_upperExclusive f then 1 else 0)
           end).

Definition BytesRange_testLength (f : BytesRange) (length_ : Z) : bool :=
  negb (bsr_singleValue f)
  || (Z.of_nat (length (bsr_lower f)) =? length_).

(** One lane of [testLengths], which the callers use for single values. *)
Definition BytesRange_testLengths (f : BytesRange) (length_ : Z) : bool :=
  length_ =? wrap_signed 32 (Z.of_nat (length (bsr_lower f))).

Definition BytesRange_clone (f : BytesRange) (nullAllowed : option bool)
    : BytesRange :=
  match nullAllowed with
  | Some na => copy_BytesRange f na
  | None => f
  end.

(** ** NegatedBytesRange *)

Record NegatedBytesRange : Type := mkNegatedBytesRange {
  nbsr_nonNegated : BytesRange;
  nbsr_nullAllowed : bool
}.

Definition make_NegatedBytesRange (lower : list Z)
    (lowerUnbounded lowerExclusive : bool) (upper : list Z)
    (upperUnbounded upperExclusive nullAllowed : bool)
    : result NegatedBytesRange :=
  let! nonNegated :=
    make_BytesRange lower lowerUnbounded lowerExclusive upper upperUnbounded
      upperExclusive nullAllowed in
  Ok {| nbsr_nonNegated := nonNegated; nbsr_nullAllowed := nullAllowed |}.

Definition copy_NegatedBytesRange (other : NegatedBytesRange)
    (nullAllowed : bool) : NegatedBytesRange := {|
  nbsr_nonNegated := nbsr_nonNegated other;
  nbsr_nullAllowed := nullAllowed
|}.

Definition NegatedBytesRange_testBytes (f : NegatedBytesRange)
    (value : list Z) : bool :=
  negb (BytesRange_testBytes (nbsr_nonNegated f) value).

Definition NegatedBytesRange_testStringView (f : NegatedBytesRange)
    (lowerView upperView view : StringView) : bool :=
  negb (BytesRange_testStringView (nbsr_nonNegated f) lowerView upperView view).

Definition NegatedBytesRange_testBytesRange (f : NegatedBytesRange)
    (min max : option (list Z)) (hasNull : bool) : result bool :=
  if hasNull && nbsr_nullAllowed f then Ok true
  else if
    (match min with None => true | Some _ => false end
     && negb (bsr_lowerUnbounded (nbsr_nonNegated f)))
    || (match max with None => true | Some _ => false end
        && negb (bsr_upperUnbounded (nbsr_nonNegated f)))
  then Ok true
  else if
    match min, max with
    | Some a, Some b => string_compare a b =? 0
    | _, _ => false
    end
  then
    match min with
    | Some a => Ok (NegatedBytesRange_testBytes f a)
    | None => Err BadAccess
    end
  else
    match min with
    | None => Err BadAccess
    | Some a =>
        if negb (NegatedBytesRange_testBytes f a) then
          match max with
          | None => Err BadAccess
          | Some b => Ok (negb (negb (NegatedBytesRange_testBytes f b)))
          end
        else Ok true
    end.

Definition NegatedBytesRange_testLength (f : NegatedBytesRange) (length_ : Z)
    : bool :=
  BytesRange_testLength (nbsr_nonNegated f) length_.

Definition NegatedBytesRange_clone (f : NegatedBytesRange)
    (nullAllowed : option bool) : NegatedBytesRange :=
  copy_NegatedBytesRange f (default (nbsr_nullAllowed f) nullAllowed).

(** ** BytesValues, NegatedBytesValues *)

Record BytesValues : Type := mkBytesValues {
  bv_lower : list Z;
  bv_upper : list Z;
  bv_set : list (list Z);
  bv_lengths : list Z;
  bv_value : list (list Z);
  bv_isSingleValue : bool;
  bv_nullAllowed : bool
}.

(** [*std::min_element] and [*std::max_element] of a non-empty vector. *)
Definition min_element (l : list (list Z)) : result (list Z) :=
  match l with
  | [] => Err BadAccess
  | x :: l' =>
      Ok (fold_left (fun m y => if string_compare y m <? 0 then y else m) l' x)
  end.
Definition max_element (l : list (list Z)) : result (list Z) :=
  match l with
  | [] => Err BadAccess
  | x :: l' =>
      Ok (fold_left (fun m y => if string_compare m y <? 0 then y else m) l' x)
  end.

Record NegatedBytesValues : Type := mkNegatedBytesValues {
  nbv_nonNegated : BytesValues;
  nbv_nullAllowed : bool
}.

Definition BytesValues_testLength (f : BytesValues) (length_ : Z) : bool :=
  contains (wrap_unsigned 32 length_) (bv_lengths f).

Definition BytesValues_testBytes (f : BytesValues) (value : list Z) : bool :=
  contains (wrap_unsigned 32 (Z.of_nat (length value))) (bv_lengths f)
  && contains value (bv_value f).

Definition BytesValues_testBytesRange (f : BytesValues)
    (min max : option (list Z)) (hasNull : bool) : bool :=
  if hasNull && bv_nullAllowed f then true
  else
    match min, max with
    | Some a, Some b =>
        if string_compare a b =? 0 then BytesValues_testBytes f a
        else if compareRanges_sv a (bv_upper f) >? 0 then false
        else if compareRanges_sv b (bv_lower f) <? 0 then false
        else true
    | Some a, None => negb (compareRanges_sv a (bv_upper f) >? 0)
    | None, Some b => negb (compareRanges_sv b (bv_lower f) <? 0)
    | None, None => true
    end.

Definition NegatedBytesValues_testBytes (f : NegatedBytesValues)
    (value : list Z) : bool :=
  negb (BytesValues_testBytes (nbv_nonNegated f) value).

Definition NegatedBytesValues_testBytesRange (f : NegatedBytesValues)
    (min max : option (list Z)) (hasNull : bool) : bool :=
  if hasNull && nbv_nullAllowed f then true
  else
    match min, max with
    | Some a, Some b =>
        if string_compare a b =? 0 then NegatedBytesValues_testBytes f a
        else true
    | _, _ => true
    end.

Section bytes_values.
Context `{!F14Ops}.

(** The constructor from a vector of strings. *)
Definition make_BytesValues (values : list (list Z)) (nullAllowed : bool)
    : result BytesValues :=
  check! negb (Nat.eqb (length values) 0) in
  let value := f14_strings values in
  let! lower := min_element value in
  let! upper := max_element value in
  Ok {|
    bv_lower := lower;
    bv_upper := upper;
    bv_set := values;
    bv_lengths :=
      map (fun v => wrap_unsigned 32 (Z.of_nat (length v))) values;
    bv_value := value;
    bv_isSingleValue := Nat.eqb (length values) 1;
    bv_nullAllowed := nullAllowed
  |}.

(** The constructor from a vector of string views, which takes the bounds of
    the given vector instead of the set's enumeration. *)
Definition make_BytesValues_views (values : list (list Z)) (nullAllowed : bool)
    : result BytesValues :=
  check! negb (Nat.eqb (length values) 0) in
  let! lower := min_element values in
  let! upper := max_element values in
  Ok {|
    bv_lower := lower;
    bv_upper := upper;
    bv_set := values;
    bv_lengths :=
      map (fun v => wrap_unsigned 32 (Z.of_nat (length v))) values;
    bv_value := f14_strings values;
    bv_isSingleValue := Nat.eqb (length values) 1;
    bv_nullAllowed := nullAllowed
  |}.

Definition copy_BytesValues (other : BytesValues) (nullAllowed : bool)
    : BytesValues := {|
  bv_lower := bv_lower other;
  bv_upper := bv_upper other;
  bv_set := bv_set other;
  bv_lengths := bv_lengths other;
  bv_value := f14_strings (bv_set other);
  bv_isSingleValue := bv_isSingleValue other;
  bv_nullAllowed := nullAllowed
|}.

Definition BytesValues_clone (f : BytesValues) (nullAllowed : option bool)
    : BytesValues :=
  match nullAllowed with
  | Some na => copy_BytesValues f na
  | None => copy_BytesValues f (bv_nullAllowed f)
  end.

Definition make_NegatedBytesValues (values : list (list Z))
    (nullAllowed : bool) : result NegatedBytesValues :=
  check! negb (Nat.eqb (length values) 0) in
  let! nonNegated := make_BytesValues values (negb nullAllowed) in
  Ok {| nbv_nonNegated := nonNegated; nbv_nullAllowed := nullAllowed |}.

(** The copy constructor builds a new [BytesValues] from the old values. *)
Definition copy_NegatedBytesValues (other : NegatedBytesValues)
    (nullAllowed : bool) : result NegatedBytesValues :=
  let! nonNegated :=
    make_BytesValues_views (bv_value (nbv_nonNegated other))
      (bv_nullAllowed (nbv_nonNegated other)) in
  Ok {| nbv_nonNegated := nonNegated; nbv_nullAllowed := nullAllowed |}.

Definition NegatedBytesValues_clone (f : NegatedBytesValues)
    (nullAllowed : option bool) : result NegatedBytesValues :=
  copy_NegatedBytesValues f (default (nbv_nullAllowed f) nullAllowed).
End bytes_values.

(** * Filters *)

Inductive Filter : Type :=
  | FAlwaysFalse
  | FAlwaysTrue
  | FIsNull
  | FIsNotNull
  | FIsTrue
  | FBoolValue (value nullAllowed : bool)
  | FBigintRange (f : BigintRange)
  | FNegatedBigintRange (f : NegatedBigintRange)
  | FBigintValuesUsingHashTable (f : BigintValuesUsingHashTable)
  | FBigintValuesUsingBitmask (f : BigintValuesUsingBitmask)
  | FNegatedBigintValuesUsingHashTable (f : NegatedBigintValuesUsingHashTable)
  | FNegatedBigintValuesUsingBitmask (f : NegatedBigintValuesUsingBitmask)
  | FBigintMultiRange (f : BigintMultiRange)
  | FHugeintRange (f : HugeintRange)
  | FNegatedHugeintRange (f : NegatedHugeintRange)
  | FHugeintValuesUsingHashTable (f : HugeintValuesUsingHashTable)
  | FTimestampRange (f : TimestampRange)
  | FNegatedTimestampRange (f : NegatedTimestampRange)
  | FBytesRange (f : BytesRange)
  | FNegatedBytesRange (f : NegatedBytesRange)
  | FBytesValues (f : BytesValues)
  | FNegatedBytesValues (f : NegatedBytesValues)
  | FMultiRange (filters : list Filter) (nullAllowed : bool).

(** ** The virtual tests of the classes without data *)

(** The test functions of the class [Filter].  A [double] or a [float] is its
    bit pattern: the classes modelled here do not look at it. *)
Record FilterTests : Type := mkFilterTests {
  vt_testNull : bool;
  vt_hasTestLength : bool;
  vt_testNonNull : result bool;
  vt_testInt64 : Z -> result bool;
  vt_testInt128 : Z -> result bool;
  vt_testDouble : Z -> result bool;
  vt_testFloat : Z -> result bool;
  vt_testBool : bool -> result bool;
  vt_testBytes : list Z -> result bool;
  vt_testTimestamp : Timestamp -> result bool;
  vt_testLength : Z -> result bool;
  vt_testInt64Range : Z -> Z -> bool -> result bool;
  vt_testInt128Range : Z -> Z -> bool -> result bool;
  vt_testDoubleRange : Z -> Z -> bool -> result bool;
  vt_testBytesRange : option (list Z) -> option (list Z) -> bool -> result bool;
  vt_testTimestampRange : Timestamp -> Timestamp -> bool -> result bool
}.

(** The defaults of the base class. *)
Definition Filter_tests (nullAllowed : bool) : FilterTests := {|
  vt_testNull := nullAllowed;
  vt_hasTestLength := false;
  vt_testNonNull := Err Unsupported;
  vt_testInt64 := fun _ => Err Unsupported;
  vt_testInt128 := fun _ => Err Unsupported;
  vt_testDouble := fun _ => Err Unsupported;
  vt_testFloat := fun _ => Err Unsupported;
  vt_testBool := fun _ => Err Unsupported;
  vt_testBytes := fun _ => Err Unsupported;
  vt_testTimestamp := fun _ => Err Unsupported;
  vt_testLength := fun _ => Err Unsupported;
  vt_testInt64Range := fun _ _ _ => Err Unsupported;
  vt_testInt128Range := fun _ _ _ => Err Unsupported;
  vt_testDoubleRange := fun _ _ _ => Err Unsupported;
  vt_testBytesRange := fun _ _ _ => Err Unsupported;
  vt_testTimestampRange := fun _ _ _ => Err Unsupported
|}.

(** [testTimestamp] is not overridden. *)
Definition AlwaysFalse_tests : FilterTests := {|
  vt_testNull := false;
  vt_hasTestLength := true;
  vt_testNonNull := Ok false;
  vt_testInt64 := fun _ => Ok false;
  vt_testInt128 := fun _ => Ok false;
  vt_testDouble := fun _ => Ok false;
  vt_testFloat := fun _ => Ok false;
  vt_testBool := fun _ => Ok false;
  vt_testBytes := fun _ => Ok false;
  vt_testTimestamp := fun _ => Err Unsupported;
  vt_testLength := fun _ => Ok false;
  vt_testInt64Range := fun _ _ _ => Ok false;
  vt_testInt128Range := fun _ _ _ => Ok false;
  vt_testDoubleRange := fun _ _ _ => Ok false;
  vt_testBytesRange := fun _ _ _ => Ok false;
  vt_testTimestampRange := fun _ _ _ => Ok false
|}.

(** [testTimestamp] is not overridden. *)
Definition AlwaysTrue_tests : FilterTests := {|
  vt_testNull := true;
  vt_hasTestLength := true;
  vt_testNonNull := Ok true;
  vt_testInt64 := fun _ => Ok true;
  vt_testInt128 := fun _ => Ok true;
  vt_testDouble := fun _ => Ok true;
  vt_testFloat := fun _ => Ok true;
  vt_testBool := fun _ => Ok true;
  vt_testBytes := fun _ => Ok true;
  vt_testTimestamp := fun _ => Err Unsupported;
  vt_testLength := fun _ => Ok true;
  vt_testInt64Range := fun _ _ _ => Ok true;
  vt_testInt128Range := fun _ _ _ => Ok true;
  vt_testDoubleRange := fun _ _ _ => Ok true;
  vt_testBytesRange := fun _ _ _ => Ok true;
  vt_testTimestampRange := fun _ _ _ => Ok true
|}.

Definition IsTrue_tests : FilterTests := {|
  vt_testNull := true;
  vt_hasTestLength := false;
  vt_testNonNull := Err Unsupported;
  vt_testInt64 := fun _ => Err Unsupported;
  vt_testInt128 := fun _ => Err Unsupported;
  vt_testDouble := fun _ => Err Unsupported;
  vt_testFloat := fun _ => Err Unsupported;
  vt_testBool := fun value => Ok value;
  vt_testBytes := fun _ => Err Unsupported;
  vt_testTimestamp := fun _ => Err Unsupported;
  vt_testLength := fun _ => Err Unsupported;
  vt_testInt64Range := fun _ _ _ => Err Unsupported;
  vt_testInt128Range := fun _ _ _ => Err Unsupported;
  vt_testDoubleRange := fun _ _ _ => Err Unsupported;
  vt_testBytesRange := fun _ _ _ => Err Unsupported;
  vt_testTimestampRange := fun _ _ _ => Err Unsupported
|}.

Definition IsNull_tests : FilterTests := {|
  vt_testNull := true;
  vt_hasTestLength := true;
  vt_testNonNull := Ok false;
  vt_testInt64 := fun _ => Ok false;
  vt_testInt128 := fun _ => Ok false;
  vt_testDouble := fun _ => Ok false;
  vt_testFloat := fun _ => Ok false;
  vt_testBool := fun _ => Ok false;
  vt_testBytes := fun _ => Ok false;
  vt_testTimestamp := fun _ => Ok false;
  vt_testLength := fun _ => Ok false;
  vt_testInt64Range := fun _ _ hasNull => Ok hasNull;
  vt_testInt128Range := fun _ _ hasNull => Ok hasNull;
  vt_testDoubleRange := fun _ _ hasNull => Ok hasNull;
  vt_testBytesRange := fun _ _ hasNull => Ok hasNull;
  vt_testTimestampRange := fun _ _ hasNull => Ok hasNull
|}.

Definition IsNotNull_tests : FilterTests := {|
  vt_testNull := false;
  vt_hasTestLength := true;
  vt_testNonNull := Ok true;
  vt_testInt64 := fun _ => Ok true;
  vt_testInt128 := fun _ => Ok true;
  vt_testDouble := fun _ => Ok true;
  vt_testFloat := fun _ => Ok true;
  vt_testBool := fun _ => Ok true;
  vt_testBytes := fun _ => Ok true;
  vt_testTimestamp := fun _ => Ok true;
  vt_testLength := fun _ => Ok true;
  vt_testInt64Range := fun _ _ _ => Ok true;
  vt_testInt128Range := fun _ _ _ => Ok true;
  vt_testDoubleRange := fun _ _ _ => Ok true;
  vt_testBytesRange := fun _ _ _ => Ok true;
  vt_testTimestampRange := fun _ _ _ => Ok true
|}.

(** [BoolValue::testInt64Range] *)
Definition BoolValue_testInt64Range (value nullAllowed : bool) (min max : Z)
    (hasNull : bool) : bool :=
  if hasNull && nullAllowed then true
  else if value then negb (min =? 0) || negb (max =? 0)
  else (min <=? 0) && (max >=? 0).

Definition BoolValue_tests (value nullAllowed : bool) : FilterTests := {|
  vt_testNull := nullAllowed;
  vt_hasTestLength := false;
  vt_testNonNull := Err Unsupported;
  vt_testInt64 := fun v => Ok (Bool.eqb value (negb (v =? 0)));
  vt_testInt128 := fun _ => Err Unsupported;
  vt_testDouble := fun _ => Err Unsupported;
  vt_testFloat := fun _ => Err Unsupported;
  vt_testBool := fun v => Ok (Bool.eqb value v);
  vt_testBytes := fun _ => Err Unsupported;
  vt_testTimestamp := fun _ => Err Unsupported;
  vt_testLength := fun _ => Err Unsupported;
  vt_testInt64Range := fun min max hasNull =>
    Ok (BoolValue_testInt64Range value nullAllowed min max hasNull);
  vt_testInt128Range := fun _ _ _ => Err Unsupported;
  vt_testDoubleRange := fun _ _ _ => Err Unsupported;
  vt_testBytesRange := fun _ _ _ => Err Unsupported;
  vt_testTimestampRange := fun _ _ _ => Err Unsupported
|}.

(** ** Value tests: the virtual functions of [Filter] *)

(** [testNull], which is the null flag in every class. *)
Definition testNull (f : Filter) : bool :=
  match f with
  | FAlwaysFalse => vt_testNull AlwaysFalse_tests
  | FAlwaysTrue => vt_testNull AlwaysTrue_tests
  | FIsNull => vt_testNull IsNull_tests
  | FIsNotNull => vt_testNull IsNotNull_tests
  | FIsTrue => vt_testNull IsTrue_tests
  | FBoolValue v na => vt_testNull (BoolValue_tests v na)
  | FBigintRange f => br_nullAllowed f
  | FNegatedBigintRange f => nbr_nullAllowed f
  | FBigintValuesUsingHashTable f => ht_nullAllowed f
  | FBigintValuesUsingBitmask f => bm_nullAllowed f
  | FNegatedBigintValuesUsingHashTable f => nht_nullAllowed f
  | FNegatedBigintValuesUsingBitmask f => nbm_nullAllowed f
  | FBigintMultiRange f => mr_nullAllowed f
  | FHugeintRange f => hr_nullAllowed f
  | FNegatedHugeintRange f => nhr_nullAllowed f
  | FHugeintValuesUsingHashTable f => hv_nullAllowed f
  | FTimestampRange f => tr_nullAllowed f
  | FNegatedTimestampRange f => ntr_nullAllowed f
  | FBytesRange f => bsr_nullAllowed f
  | FNegatedBytesRange f => nbsr_nullAllowed f
  | FBytesValues f => bv_nullAllowed f
  | FNegatedBytesValues f => nbv_nullAllowed f
  | FMultiRange _ na => na
  end.

Definition testBool (f : Filter) (value : bool) : result bool :=
  match f with
  | FAlwaysFalse => vt_testBool AlwaysFalse_tests value
  | FAlwaysTrue => vt_testBool AlwaysTrue_tests value
  | FIsNull => vt_testBool IsNull_tests value
  | FIsNotNull => vt_testBool IsNotNull_tests value
  | FIsTrue => vt_testBool IsTrue_tests value
  | FBoolValue v na => vt_testBool (BoolValue_tests v na) value
  | _ => Err Unsupported
  end.

Definition testInt64 (f : Filter) (value : Z) : result bool :=
  match f with
  | FAlwaysFalse => vt_testInt64 AlwaysFalse_tests value
  | FAlwaysTrue => vt_testInt64 AlwaysTrue_tests value
  | FIsNull => vt_testInt64 IsNull_tests value
  | FIsNotNull => vt_testInt64 IsNotNull_tests value
  | FIsTrue => vt_testInt64 IsTrue_tests value
  | FBoolValue v na => vt_testInt64 (BoolValue_tests v na) value
  | FBigintRange f => Ok (BigintRange_testInt64 f value)
  | FNegatedBigintRange f => Ok (NegatedBigintRange_testInt64 f value)
  | FBigintValuesUsingHashTable f =>
      Ok (BigintValuesUsingHashTable_testInt64 f value)
  | FBigintValuesUsingBitmask f => BigintValuesUsingBitmask_testInt64 f value
  | FNegatedBigintValuesUsingHashTable f =>
      Ok (NegatedBigintValuesUsingHashTable_testInt64 f value)
  | FNegatedBigintValuesUsingBitmask f =>
      NegatedBigintValuesUsingBitmask_testInt64 f value
  | FBigintMultiRange f => BigintMultiRange_testInt64 f value
  | _ => Err Unsupported
  end.

Fixpoint testInt128 (f : Filter) (value : Z) : result bool :=
  match f with
  | FAlwaysFalse => vt_testInt128 AlwaysFalse_tests value
  | FAlwaysTrue => vt_testInt128 AlwaysTrue_tests value
  | FIsNull => vt_testInt128 IsNull_tests value
  | FIsNotNull => vt_testInt128 IsNotNull_tests value
  | FIsTrue => vt_testInt128 IsTrue_tests value
  | FBoolValue v na => vt_testInt128 (BoolValue_tests v na) value
  | FHugeintRange f => Ok (HugeintRange_testInt128 f value)
  | FNegatedHugeintRange f => Ok (NegatedHugeintRange_testInt128 f value)
  | FHugeintValuesUsingHashTable f =>
      Ok (HugeintValuesUsingHashTable_testInt128 f value)
  | FMultiRange filters _ => exists_res (fun f => testInt128 f value) filters
  | _ => Err Unsupported
  end.

Fixpoint testTimestamp (f : Filter) (value : Timestamp) : result bool :=
  match f with
  | FAlwaysFalse => vt_testTimestamp AlwaysFalse_tests value
  | FAlwaysTrue => vt_testTimestamp AlwaysTrue_tests value
  | FIsNull => vt_testTimestamp IsNull_tests value
  | FIsNotNull => vt_testTimestamp IsNotNull_tests value
  | FIsTrue => vt_testTimestamp IsTrue_tests value
  | FBoolValue v na => vt_testTimestamp (BoolValue_tests v na) value
  | FTimestampRange f => Ok (TimestampRange_testTimestamp f value)
  | FNegatedTimestampRange f => Ok (NegatedTimestampRange_testTimestamp f value)
  | FMultiRange filters _ => exists_res (fun f => testTimestamp f value) filters
  | _ => Err Unsupported
  end.

Fixpoint testBytes (f : Filter) (value : list Z) : result bool :=
  match f with
  | FAlwaysFalse => vt_testBytes AlwaysFalse_tests value
  | FAlwaysTrue => vt_testBytes AlwaysTrue_tests value
  | FIsNull => vt_testBytes IsNull_tests value
  | FIsNotNull => vt_testBytes IsNotNull_tests value
  | FIsTrue => vt_testBytes IsTrue_tests value
  | FBoolValue v na => vt_testBytes (BoolValue_tests v na) value
  | FBytesRange f => Ok (BytesRange_testBytes f value)
  | FNegatedBytesRange f => Ok (NegatedBytesRange_testBytes f value)
  | FBytesValues f => Ok (BytesValues_testBytes f value)
  | FNegatedBytesValues f => Ok (NegatedBytesValues_testBytes f value)
  | FMultiRange filters _ => exists_res (fun f => testBytes f value) filters
  | _ => Err Unsupported
  end.

Fixpoint testLength (f : Filter) (length_ : Z) : result bool :=
  match f with
  | FAlwaysFalse => vt_testLength AlwaysFalse_tests length_
  | FAlwaysTrue => vt_testLength AlwaysTrue_tests length_
  | FIsNull => vt_testLength IsNull_tests length_
  | FIsNotNull => vt_testLength IsNotNull_tests length_
  | FIsTrue => vt_testLength IsTrue_tests length_
  | FBoolValue v na => vt_testLength (BoolValue_tests v na) length_
  | FBytesRange f => Ok (BytesRange_testLength f length_)
  | FNegatedBytesRange f => Ok (NegatedBytesRange_testLength f length_)
  | FBytesValues f => Ok (BytesValues_testLength f length_)
  | FNegatedBytesValues _ => Ok true
  | FMultiRange filters _ => exists_res (fun f => testLength f length_) filters
  | _ => Err Unsupported
  end.

(** ** Range tests *)

Definition testInt64Range (f : Filter) (min max : Z) (hasNull : bool)
    : result bool :=
  match f with
  | FAlwaysFalse => vt_testInt64Range AlwaysFalse_tests min max hasNull
  | FAlwaysTrue => vt_testInt64Range AlwaysTrue_tests min max hasNull
  | FIsNull => vt_testInt64Range IsNull_tests min max hasNull
  | FIsNotNull => vt_testInt64Range IsNotNull_tests min max hasNull
  | FIsTrue => vt_testInt64Range IsTrue_tests min max hasNull
  | FBoolValue v na => vt_testInt64Range (BoolValue_tests v na) min max hasNull
  | FBigintRange f => Ok (BigintRange_testInt64Range f min max hasNull)
  | FNegatedBigintRange f =>
      Ok (NegatedBigintRange_testInt64Range f min max hasNull)
  | FBigintValuesUsingHashTable f =>
      BigintValuesUsingHashTable_testInt64Range f min max hasNull
  | FBigintValuesUsingBitmask f =>
      BigintValuesUsingBitmask_testInt64Range f min max hasNull
  | FNegatedBigintValuesUsingHashTable f =>
      NegatedBigintValuesUsingHashTable_testInt64Range f min max hasNull
  | FNegatedBigintValuesUsingBitmask f =>
      NegatedBigintValuesUsingBitmask_testInt64Range f min max hasNull
  | FBigintMultiRange f => Ok (BigintMultiRange_testInt64Range f min max hasNull)
  | _ => Err Unsupported
  end.

Definition testInt128Range (f : Filter) (min max : Z) (hasNull : bool)
    : result bool :=
  match f with
  | FAlwaysFalse => vt_testInt128Range AlwaysFalse_tests min max hasNull
  | FAlwaysTrue => vt_testInt128Range AlwaysTrue_tests min max hasNull
  | FIsNull => vt_testInt128Range IsNull_tests min max hasNull
  | FIsNotNull => vt_testInt128Range IsNotNull_tests min max hasNull
  | FIsTrue => vt_testInt128Range IsTrue_tests min max hasNull
  | FBoolValue v na => vt_testInt128Range (BoolValue_tests v na) min max hasNull
  | FHugeintRange f => Ok (HugeintRange_testInt128Range f min max hasNull)
  | FNegatedHugeintRange f =>
      Ok (NegatedHugeintRange_testInt128Range f min max hasNull)
  | _ => Err Unsupported
  end.

Definition testTimestampRange (f : Filter) (min max : Timestamp)
    (hasNull : bool) : result bool :=
  match f with
  | FAlwaysFalse => vt_testTimestampRange AlwaysFalse_tests min max hasNull
  | FAlwaysTrue => vt_testTimestampRange AlwaysTrue_tests min max hasNull
  | FIsNull => vt_testTimestampRange IsNull_tests min max hasNull
  | FIsNotNull => vt_testTimestampRange IsNotNull_tests min max hasNull
  | FIsTrue => vt_testTimestampRange IsTrue_tests min max hasNull
  | FBoolValue v na => vt_testTimestampRange (BoolValue_tests v na) min max hasNull
  | FTimestampRange f => Ok (TimestampRange_testTimestampRange f min max hasNull)
  | FNegatedTimestampRange f =>
      Ok (NegatedTimestampRange_testTimestampRange f min max hasNull)
  | _ => Err Unsupported
  end.

Fixpoint testBytesRange (f : Filter) (min max : option (list Z))
    (hasNull : bool) : result bool :=
  match f with
  | FAlwaysFalse => vt_testBytesRange AlwaysFalse_tests min max hasNull
  | FAlwaysTrue => vt_testBytesRange AlwaysTrue_tests min max hasNull
  | FIsNull => vt_testBytesRange IsNull_tests min max hasNull
  | FIsNotNull => vt_testBytesRange IsNotNull_tests min max hasNull
  | FIsTrue => vt_testBytesRange IsTrue_tests min max hasNull
  | FBoolValue v na => vt_testBytesRange (BoolValue_tests v na) min max hasNull
  | FBytesRange f => Ok (BytesRange_testBytesRange f min max hasNull)
  | FNegatedBytesRange f => NegatedBytesRange_testBytesRange f min max hasNull
  | FBytesValues f => Ok (BytesValues_testBytesRange f min max hasNull)
  | FNegatedBytesValues f =>
      Ok (NegatedBytesValues_testBytesRange f min max hasNull)
  | FMultiRange filters na =>
      if hasNull && na then Ok true
      else exists_res (fun f => testBytesRange f min max hasNull) filters
  | _ => Err Unsupported
  end.

(** ** clone *)

Section clone.
Context `{!F14Ops}.

Fixpoint clone (f : Filter) (nullAllowed : option bool) : result Filter :=
  match f with
  | FAlwaysFalse => Ok FAlwaysFalse
  | FAlwaysTrue => Ok FAlwaysTrue
  | FIsNull => Ok FIsNull
  | FIsNotNull => Ok FIsNotNull
  | FIsTrue => Ok FIsTrue
  | FBoolValue v na => Ok (FBoolValue v (default na nullAllowed))
  | FBigintRange f => Ok (FBigintRange (BigintRange_clone f nullAllowed))
  | FNegatedBigintRange f =>
      Ok (FNegatedBigintRange (NegatedBigintRange_clone f nullAllowed))
  | FBigintValuesUsingHashTable f =>
      Ok (FBigintValuesUsingHashTable
            (BigintValuesUsingHashTable_clone f nullAllowed))
  | FBigintValuesUsingBitmask f =>
      Ok (FBigintValuesUsingBitmask
            (BigintValuesUsingBitmask_clone f nullAllowed))
  | FNegatedBigintValuesUsingHashTable f =>
      Ok (FNegatedBigintValuesUsingHashTable
            (NegatedBigintValuesUsingHashTable_clone f nullAllowed))
  | FNegatedBigintValuesUsingBitmask f =>
      Ok (FNegatedBigintValuesUsingBitmask
            (NegatedBigintValuesUsingBitmask_clone f nullAllowed))
  | FBigintMultiRange f =>
      rmap FBigintMultiRange (BigintMultiRange_clone f nullAllowed)
  | FHugeintRange f => Ok (FHugeintRange (HugeintRange_clone f nullAllowed))
  | FNegatedHugeintRange f =>
      Ok (FNegatedHugeintRange (NegatedHugeintRange_clone f nullAllowed))
  | FHugeintValuesUsingHashTable f =>
      Ok (FHugeintValuesUsingHashTable
            (HugeintValuesUsingHashTable_clone f nullAllowed))
  | FTimestampRange f =>
      Ok (FTimestampRange (TimestampRange_clone f nullAllowed))
  | FNegatedTimestampRange f =>
      Ok (FNegatedTimestampRange (NegatedTimestampRange_clone f nullAllowed))
  | FBytesRange f => Ok (FBytesRange (BytesRange_clone f nullAllowed))
  | FNegatedBytesRange f =>
      Ok (FNegatedBytesRange (NegatedBytesRange_clone f nullAllowed))
  | FBytesValues f => Ok (FBytesValues (BytesValues_clone f nullAllowed))
  | FNegatedBytesValues f =>
      rmap FNegatedBytesValues (NegatedBytesValues_clone f nullAllowed)
  | FMultiRange filters na =>
      let! filters' := map_res (fun f => clone f None) filters in
      Ok (FMultiRange filters' (default na nullAllowed))
  end.
End clone.
