(* ===== verification/FilterMerge.v ===== *)
(** Merging of filters: [Filter::mergeWith] (the AND of two filters) and the
    helpers that build the merged filter (Filter.cpp, FilterUtil.cpp).

    The virtual function is one definition per class, abstracted over the
    dispatch [rec] used for the calls [other->mergeWith(this)]; [mergeWith]
    ties the knot with a bound on the depth of the dispatch. *)

From S2P Require Import Prelude StringView Timestamp FilterTypes.

(** * Building filters (FilterUtil.cpp) *)

Definition nullOrFalse (nullAllowed : bool) : Filter :=
  if nullAllowed then FIsNull else FAlwaysFalse.

Definition notNullOrTrue (nullAllowed : bool) : Filter :=
  if nullAllowed then FAlwaysTrue else FIsNotNull.

(** The loop over [values[1..]] that finds the minimum and the maximum. *)
Fixpoint min_max_loop (min max : Z) (values : list Z) : Z * Z :=
  match values with
  | [] => (min, max)
  | v :: values' =>
      if v >? max then min_max_loop min v values'
      else if v <? min then min_max_loop v max values'
      else min_max_loop min max values'
  end.

Definition createBigintValuesFilter (values : list Z)
    (nullAllowed negated : bool) : result Filter :=
  match values with
  | [] =>
      if negb negated then Ok (nullOrFalse nullAllowed)
      else Ok (notNullOrTrue nullAllowed)
  | [v] =>
      if negated then
        Ok (FNegatedBigintRange (make_NegatedBigintRange v v nullAllowed))
      else Ok (FBigintRange (make_BigintRange v v nullAllowed))
  | v0 :: rest =>
      let! extremes := int_loop values (fun values => Ok (min_max_loop v0 v0 (tail values))) in
      let '(min, max) := extremes in
      let size := Z.of_nat (length values) in
      let range := max - min in
      let overflow := negb (in_int64 range) in
      if negb overflow && (range + 1 =? size) then
        if negated then
          Ok (FNegatedBigintRange (make_NegatedBigintRange min max nullAllowed))
        else Ok (FBigintRange (make_BigintRange min max nullAllowed))
      else if negb overflow
              && ((range <? 32 * 64) || (range <? size * 4 * 64)) then
        if negated then
          rmap FNegatedBigintValuesUsingBitmask
            (make_NegatedBigintValuesUsingBitmask min max values nullAllowed)
        else
          rmap FBigintValuesUsingBitmask
            (make_BigintValuesUsingBitmask min max values nullAllowed)
      else if negated then
        rmap FNegatedBigintValuesUsingHashTable
          (make_NegatedBigintValuesUsingHashTable min max values nullAllowed)
      else
        rmap FBigintValuesUsingHashTable
          (make_BigintValuesUsingHashTable min max values nullAllowed)
  end.

Definition createBigintValues (values : list Z) (nullAllowed : bool)
    : result Filter :=
  createBigintValuesFilter values nullAllowed false.

Definition createNegatedBigintValues (values : list Z) (nullAllowed : bool)
    : result Filter :=
  createBigintValuesFilter values nullAllowed true.

(** * Integer range helpers (Filter.cpp) *)

Definition combineBigintRanges (ranges : list BigintRange)
    (nullAllowed : bool) : result Filter :=
  match ranges with
  | [] => Ok (nullOrFalse nullAllowed)
  | [r] => Ok (FBigintRange
                 (make_BigintRange (br_lower r) (br_upper r) nullAllowed))
  | _ => rmap FBigintMultiRange (make_BigintMultiRange ranges nullAllowed)
  end.

(** The [while] loop of [combineRangesAndNegatedValues] for one range: the
    pieces between the rejected values from [it] on, and the start of the piece
    that remains. *)
Fixpoint carve_rejects (lower upper start : Z) (it : list Z)
    : result (list BigintRange * Z) :=
  match it with
  | [] => Ok ([], start)
  | reject :: it' =>
      let! end_ := ssub64 reject 1 in
      if (start >=? lower) && (end_ <? upper) then
        let piece :=
          if start <=? end_ then [make_BigintRange start end_ false] else [] in
        let! start' := sadd64 reject 1 in
        let! rest := carve_rejects lower upper start' it' in
        Ok (piece ++ fst rest, snd rest)
      else Ok ([], start)
  end.

Definition carve_range (rejects : list Z) (range : BigintRange)
    : result (list BigintRange) :=
  let lower := br_lower range in
  let upper := br_upper range in
  let it := lower_bound rejects lower in
  let! loop := carve_rejects lower upper lower it in
  let start := snd loop in
  let end_ := upper in
  Ok (fst loop
      ++ if (start <=? end_) && (start >=? lower) && (end_ <=? upper)
         then [make_BigintRange start end_ false] else []).

Definition combineRangesAndNegatedValues (ranges : list BigintRange)
    (rejects : list Z) (nullAllowed : bool) : result Filter :=
  let! outRanges := int_loop ranges (map_res (carve_range rejects)) in
  combineBigintRanges (concat outRanges) nullAllowed.

(** Merge of two sorted lists that keeps one copy of common elements. *)
Fixpoint merge_rejected (first : list Z) : list Z -> list Z :=
  fix go (second : list Z) : list Z :=
    match first, second with
    | [], _ => second
    | _, [] => first
    | x :: first', y :: second' =>
        let lo := Z.min x y in
        lo :: (if lo =? x then
                 if lo =? y then merge_rejected first' second'
                 else merge_rejected first' second
               else go second')
    end.

Definition combineNegatedBigintLists (first second : list Z)
    (nullAllowed : bool) : result Filter :=
  createNegatedBigintValues (merge_rejected first second) nullAllowed.

(** One iteration of [combineNegatedRangeOnIntRanges]. *)
Definition subtract_negated (negatedLower negatedUpper : Z)
    (range : BigintRange) : result (list BigintRange) :=
  if (negatedUpper <? br_lower range) || (br_upper range <? negatedLower) then
    Ok [make_BigintRange (br_lower range) (br_upper range) false]
  else
    let! below :=
      if br_lower range <? negatedLower then
        let! e := ssub64 negatedLower 1 in
        Ok [make_BigintRange (br_lower range) e false]
      else Ok [] in
    let! above :=
      if negatedUpper <? br_upper range then
        let! s := sadd64 negatedUpper 1 in
        Ok [make_BigintRange s (br_upper range) false]
      else Ok [] in
    Ok (below ++ above).

Definition combineNegatedRangeOnIntRanges (negatedLower negatedUpper : Z)
    (ranges : list BigintRange) (nullAllowed : bool) : result Filter :=
  let! outRanges :=
    int_loop ranges (map_res (subtract_negated negatedLower negatedUpper)) in
  combineBigintRanges (concat outRanges) nullAllowed.

(** The [while] loop of [negatedValuesToRanges]: the gaps between neighbours,
    then the range above the last value. *)
Fixpoint gaps_loop (back : Z) (rest : list Z) : result (list BigintRange) :=
  match rest with
  | [] =>
      if back <? INT64_MAX then
        let! s := sadd64 back 1 in
        Ok [make_BigintRange s INT64_MAX false]
      else Ok []
  | front :: rest' =>
      let! s := sadd64 back 1 in
      let! e := ssub64 front 1 in
      let! tail := gaps_loop front rest' in
      Ok ((if s <=? e then [make_BigintRange s e false] else []) ++ tail)
  end.

Definition negatedValuesToRanges (values : list Z)
    : result (list BigintRange) :=
  match values with
  | [] => Err BadAccess
  | back :: rest =>
      let! below :=
        if back >? INT64_MIN then
          let! e := ssub64 back 1 in
          Ok [make_BigintRange INT64_MIN e false]
        else Ok [] in
      let! tail := gaps_loop back rest in
      Ok (below ++ tail)
  end.

(** [for (auto i = min; i <= max; ++i)]: the values [i] takes.  The increment
    past [max] overflows when [max] is the largest 64-bit integer. *)
Definition loop_upto (min max : Z) : result (list Z) :=
  if (min <=? max) && (max =? INT64_MAX) then Err SignedOverflow
  else Ok (seqZ min (max - min + 1)).

(** * mergeWith of the integer classes *)

Section merge.
Context `{!F14Ops}.

Definition AlwaysFalse_mergeWith (_ : Filter) : result Filter := Ok FAlwaysFalse.
Definition AlwaysTrue_mergeWith (other : Filter) : result Filter :=
  clone other None.

Definition IsNull_mergeWith (other : Filter) : result Filter :=
  if testNull other then Ok FIsNull else Ok FAlwaysFalse.

Section dispatch.
Variable rec : Filter -> Filter -> result Filter.

Definition IsNotNull_mergeWith (other : Filter) : result Filter :=
  match other with
  | FAlwaysTrue | FIsNotNull => Ok FIsNotNull
  | FAlwaysFalse | FIsNull => Ok FAlwaysFalse
  | _ => rec other FIsNotNull
  end.

Definition BoolValue_mergeWith (value nullAllowed : bool) (other : Filter)
    : result Filter :=
  match other with
  | FAlwaysTrue | FAlwaysFalse | FIsNull =>
      rec other (FBoolValue value nullAllowed)
  | FIsNotNull => Ok (FBoolValue value false)
  | FBoolValue _ _ =>
      let bothNullAllowed := nullAllowed && testNull other in
      let! b := testBool other value in
      if b : bool then Ok (FBoolValue value bothNullAllowed)
      else Ok (nullOrFalse bothNullAllowed)
  | _ => Err Unreachable
  end.

(** The loop of [BigintRange::mergeWith] over the ranges of a multi-range. *)
Fixpoint merge_range_with_each (this : BigintRange) (ranges : list BigintRange)
    : result (list BigintRange) :=
  match ranges with
  | [] => Ok []
  | range :: ranges' =>
      let! merged := rec (FBigintRange this) (FBigintRange range) in
      match merged with
      | FBigintRange r =>
          let! rest := merge_range_with_each this ranges' in
          Ok (r :: rest)
      | FAlwaysFalse => merge_range_with_each this ranges'
      | _ => Err CheckFailed
      end
  end.

Definition BigintRange_mergeWith (this : BigintRange) (other : Filter)
    : result Filter :=
  let bothNullAllowed := br_nullAllowed this && testNull other in
  match other with
  | FAlwaysTrue | FAlwaysFalse | FIsNull => rec other (FBigintRange this)
  | FIsNotNull =>
      Ok (FBigintRange
            (make_BigintRange (br_lower this) (br_upper this) false))
  | FBigintRange otherRange =>
      let lower := Z.max (br_lower this) (br_lower otherRange) in
      let upper := Z.min (br_upper this) (br_upper otherRange) in
      if lower <=? upper then
        Ok (FBigintRange (make_BigintRange lower upper bothNullAllowed))
      else Ok (nullOrFalse bothNullAllowed)
  | FNegatedBigintRange _ | FBigintValuesUsingBitmask _
  | FBigintValuesUsingHashTable _ => rec other (FBigintRange this)
  | FBigintMultiRange otherMultiRange =>
      let! newRanges :=
        merge_range_with_each this (mr_ranges otherMultiRange) in
      combineBigintRanges newRanges bothNullAllowed
  | FNegatedBigintValuesUsingBitmask _
  | FNegatedBigintValuesUsingHashTable _ =>
      let! mayPass :=
        testInt64Range other (br_lower this) (br_upper this) false in
      if negb mayPass then Ok (nullOrFalse bothNullAllowed)
      else
        let vals :=
          match other with
          | FNegatedBigintValuesUsingBitmask f => nbm_values f
          | FNegatedBigintValuesUsingHashTable f => nht_values f
          | _ => []
          end in
        combineRangesAndNegatedValues
          [make_BigintRange (br_lower this) (br_upper this) false]
          vals bothNullAllowed
  | _ => Err Unreachable
  end.

Definition NegatedBigintRange_mergeWith (this : NegatedBigintRange)
    (other : Filter) : result Filter :=
  let bothNullAllowed := nbr_nullAllowed this && testNull other in
  match other with
  | FAlwaysTrue | FAlwaysFalse | FIsNull => rec other (FNegatedBigintRange this)
  | FIsNotNull =>
      Ok (FNegatedBigintRange (NegatedBigintRange_clone this (Some false)))
  | FBigintRange otherRange =>
      combineNegatedRangeOnIntRanges (nbr_lower this) (nbr_upper this)
        [make_BigintRange (br_lower otherRange) (br_upper otherRange) false]
        bothNullAllowed
  | FNegatedBigintRange otherNegatedRange =>
      if nbr_lower this >? nbr_lower otherNegatedRange then
        rec other (FNegatedBigintRange this)
      else
        let! next := sadd64 (nbr_upper this) 1 in
        if next <? nbr_lower otherNegatedRange then
          let smallLower := nbr_lower this in
          let smallUpper := nbr_upper this in
          let bigLower := nbr_lower otherNegatedRange in
          let bigUpper := nbr_upper otherNegatedRange in
          let! r1 :=
            if smallLower >? INT64_MIN then
              let! e := ssub64 smallLower 1 in
              Ok [make_BigintRange INT64_MIN e false]
            else Ok [] in
          let! r2 :=
            if (smallUpper <? INT64_MAX) && (bigLower >? INT64_MIN) then
              let! s := sadd64 smallUpper 1 in
              let! e := ssub64 bigLower 1 in
              Ok [make_BigintRange s e false]
            else Ok [] in
          let! r3 :=
            if bigUpper <? INT64_MAX then
              let! s := sadd64 bigUpper 1 in
              Ok [make_BigintRange s INT64_MAX false]
            else Ok [] in
          combineBigintRanges (r1 ++ r2 ++ r3) bothNullAllowed
        else
          Ok (FNegatedBigintRange
                (make_NegatedBigintRange (nbr_lower this)
                   (Z.max (nbr_upper this) (nbr_upper otherNegatedRange))
                   bothNullAllowed))
  | FBigintMultiRange otherMultiRanges =>
      combineNegatedRangeOnIntRanges (nbr_lower this) (nbr_upper this)
        (mr_ranges otherMultiRanges) bothNullAllowed
  | FBigintValuesUsingHashTable _ | FBigintValuesUsingBitmask _ =>
      rec other (FNegatedBigintRange this)
  | FNegatedBigintValuesUsingHashTable _
  | FNegatedBigintValuesUsingBitmask _ =>
      let rejectedValues :=
        match other with
        | FNegatedBigintValuesUsingHashTable f => nht_values f
        | FNegatedBigintValuesUsingBitmask f => nbm_values f
        | _ => []
        end in
      if br_isSingleValue (nbr_nonNegated this) then
        let! passes := testInt64 other (nbr_lower this) in
        createNegatedBigintValues
          (if passes : bool then rejectedValues ++ [nbr_lower this]
           else rejectedValues)
          bothNullAllowed
      else
        let! ranges := negatedValuesToRanges rejectedValues in
        combineNegatedRangeOnIntRanges (nbr_lower this) (nbr_upper this)
          ranges bothNullAllowed
  | _ => Err Unreachable
  end.

(** The private overload [mergeWith(min, max, other)]. *)
Definition BigintValuesUsingHashTable_mergeWithin
    (this : BigintValuesUsingHashTable) (min max : Z) (other : Filter)
    : result Filter :=
  let bothNullAllowed := ht_nullAllowed this && testNull other in
  if max <? min then Ok (nullOrFalse bothNullAllowed)
  else if max =? min then
    if BigintValuesUsingHashTable_testInt64 this min then
      let! b := testInt64 other min in
      if b : bool then
        Ok (FBigintRange (make_BigintRange min min bothNullAllowed))
      else Ok (nullOrFalse bothNullAllowed)
    else Ok (nullOrFalse bothNullAllowed)
  else
    let! valuesToKeep :=
      filter_res (testInt64 other) (f14_ints (ht_hashTable this)) in
    createBigintValues valuesToKeep bothNullAllowed.

Definition BigintValuesUsingHashTable_mergeWith
    (this : BigintValuesUsingHashTable) (other : Filter) : result Filter :=
  match other with
  | FAlwaysTrue | FAlwaysFalse | FIsNull =>
      rec other (FBigintValuesUsingHashTable this)
  | FIsNotNull =>
      Ok (FBigintValuesUsingHashTable (copy_BigintValuesUsingHashTable this false))
  | FBigintRange otherRange =>
      BigintValuesUsingHashTable_mergeWithin this
        (Z.max (ht_min this) (br_lower otherRange))
        (Z.min (ht_max this) (br_upper otherRange)) other
  | FBigintValuesUsingHashTable otherValues =>
      BigintValuesUsingHashTable_mergeWithin this
        (Z.max (ht_min this) (ht_min otherValues))
        (Z.min (ht_max this) (ht_max otherValues)) other
  | FBigintValuesUsingBitmask _ => rec other (FBigintValuesUsingHashTable this)
  | FBigintMultiRange otherMultiRange =>
      let keep range :=
        let min := Z.max (ht_min this) (br_lower range) in
        let max := Z.min (ht_max this) (br_upper range) in
        if min <=? max then
          List.filter (BigintRange_testInt64 range) (ht_values this)
        else [] in
      let valuesToKeep := concat (map keep (mr_ranges otherMultiRange)) in
      createBigintValues valuesToKeep (ht_nullAllowed this && testNull other)
  | FNegatedBigintRange _ | FNegatedBigintValuesUsingBitmask _
  | FNegatedBigintValuesUsingHashTable _ =>
      BigintValuesUsingHashTable_mergeWithin this (ht_min this) (ht_max this)
        other
  | _ => Err Unreachable
  end.

(** [bitmask_[i - min_] && test(i)] *)
Definition bitmask_and (this : BigintValuesUsingBitmask)
    (test : Z -> result bool) (i : Z) : result bool :=
  let! bit := bitmask_at (bm_bitmask this) (i - bm_min this) in
  if bit : bool then test i else Ok false.

(** The private overload [mergeWith(min, max, other)]. *)
Definition BigintValuesUsingBitmask_mergeWithin
    (this : BigintValuesUsingBitmask) (min max : Z) (other : Filter)
    : result Filter :=
  let bothNullAllowed := bm_nullAllowed this && testNull other in
  let! indices := loop_upto min max in
  let! valuesToKeep :=
    filter_res (bitmask_and this (testInt64 other)) indices in
  createBigintValues valuesToKeep bothNullAllowed.

Definition BigintValuesUsingBitmask_mergeWith
    (this : BigintValuesUsingBitmask) (other : Filter) : result Filter :=
  match other with
  | FAlwaysTrue | FAlwaysFalse | FIsNull =>
      rec other (FBigintValuesUsingBitmask this)
  | FIsNotNull =>
      Ok (FBigintValuesUsingBitmask (copy_BigintValuesUsingBitmask this false))
  | FBigintRange otherRange =>
      BigintValuesUsingBitmask_mergeWithin this
        (Z.max (bm_min this) (br_lower otherRange))
        (Z.min (bm_max this) (br_upper otherRange)) other
  | FBigintValuesUsingHashTable otherValues =>
      BigintValuesUsingBitmask_mergeWithin this
        (Z.max (bm_min this) (ht_min otherValues))
        (Z.min (bm_max this) (ht_max otherValues)) other
  | FBigintValuesUsingBitmask otherValues =>
      BigintValuesUsingBitmask_mergeWithin this
        (Z.max (bm_min this) (bm_min otherValues))
        (Z.min (bm_max this) (bm_max otherValues)) other
  | FBigintMultiRange otherMultiRange =>
      let keep range :=
        let! indices :=
          loop_upto (Z.max (bm_min this) (br_lower range))
            (Z.min (bm_max this) (br_upper range)) in
        filter_res
          (bitmask_and this (fun i => Ok (BigintRange_testInt64 range i)))
          indices in
      let! valuesToKeep := map_res keep (mr_ranges otherMultiRange) in
      createBigintValues (concat valuesToKeep)
        (bm_nullAllowed this && testNull other)
  | FNegatedBigintRange _ | FNegatedBigintValuesUsingBitmask _
  | FNegatedBigintValuesUsingHashTable _ =>
      BigintValuesUsingBitmask_mergeWithin this (bm_min this) (bm_max this)
        other
  | _ => Err Unreachable
  end.

Definition NegatedBigintValuesUsingHashTable_mergeWith
    (this : NegatedBigintValuesUsingHashTable) (other : Filter)
    : result Filter :=
  match other with
  | FAlwaysTrue | FAlwaysFalse | FIsNull =>
      rec other (FNegatedBigintValuesUsingHashTable this)
  | FIsNotNull =>
      Ok (FNegatedBigintValuesUsingHashTable
            (copy_NegatedBigintValuesUsingHashTable this false))
  | FBigintValuesUsingHashTable _ | FBigintValuesUsingBitmask _
  | FBigintRange _ | FBigintMultiRange _ =>
      rec other (FNegatedBigintValuesUsingHashTable this)
  | FNegatedBigintValuesUsingHashTable otherNegated =>
      combineNegatedBigintLists (nht_values this) (nht_values otherNegated)
        (nht_nullAllowed this && testNull other)
  | FNegatedBigintRange _ | FNegatedBigintValuesUsingBitmask _ =>
      rec other (FNegatedBigintValuesUsingHashTable this)
  | _ => Err Unreachable
  end.

Definition NegatedBigintValuesUsingBitmask_mergeWith
    (this : NegatedBigintValuesUsingBitmask) (other : Filter)
    : result Filter :=
  let bothNullAllowed := nbm_nullAllowed this && testNull other in
  match other with
  | FAlwaysTrue | FAlwaysFalse | FIsNull =>
      rec other (FNegatedBigintValuesUsingBitmask this)
  | FIsNotNull =>
      Ok (FNegatedBigintValuesUsingBitmask
            (copy_NegatedBigintValuesUsingBitmask this false))
  | FBigintValuesUsingHashTable _ | FBigintValuesUsingBitmask _
  | FBigintRange _ | FNegatedBigintRange _ | FBigintMultiRange _ =>
      rec other (FNegatedBigintValuesUsingBitmask this)
  | FNegatedBigintValuesUsingHashTable otherHashTable =>
      combineNegatedBigintLists (nbm_values this) (nht_values otherHashTable)
        bothNullAllowed
  | FNegatedBigintValuesUsingBitmask otherBitmask =>
      combineNegatedBigintLists (nbm_values this) (nbm_values otherBitmask)
        bothNullAllowed
  | _ => Err Unreachable
  end.

(** The loop of [BigintMultiRange::mergeWith] with another multi-range. *)
Fixpoint merge_each_range_with (other : Filter) (ranges : list BigintRange)
    : result (list BigintRange) :=
  match ranges with
  | [] => Ok []
  | range :: ranges' =>
      let! merged := rec (FBigintRange range) other in
      match merged with
      | FBigintRange r =>
          let! rest := merge_each_range_with other ranges' in
          Ok (r :: rest)
      | FBigintMultiRange mergedMultiRange =>
          let! rest := merge_each_range_with other ranges' in
          Ok (mr_ranges mergedMultiRange ++ rest)
      | FAlwaysFalse => merge_each_range_with other ranges'
      | _ => Err CheckFailed
      end
  end.

Definition BigintMultiRange_mergeWith (this : BigintMultiRange)
    (other : Filter) : result Filter :=
  let bothNullAllowed := mr_nullAllowed this && testNull other in
  match other with
  | FAlwaysTrue | FAlwaysFalse | FIsNull => rec other (FBigintMultiRange this)
  | FIsNotNull =>
      rmap FBigintMultiRange (make_BigintMultiRange (mr_ranges this) false)
  | FBigintRange _ | FNegatedBigintRange _ | FBigintValuesUsingBitmask _
  | FBigintValuesUsingHashTable _ => rec other (FBigintMultiRange this)
  | FBigintMultiRange _ =>
      let! newRanges := merge_each_range_with other (mr_ranges this) in
      match newRanges with
      | [] => Ok (nullOrFalse bothNullAllowed)
      | [r] =>
          Ok (FBigintRange
                (make_BigintRange (br_lower r) (br_upper r) bothNullAllowed))
      | _ =>
          rmap FBigintMultiRange
            (make_BigintMultiRange newRanges bothNullAllowed)
      end
  | FNegatedBigintValuesUsingHashTable f =>
      combineRangesAndNegatedValues (mr_ranges this) (nht_values f)
        bothNullAllowed
  | FNegatedBigintValuesUsingBitmask f =>
      combineRangesAndNegatedValues (mr_ranges this) (nbm_values f)
        bothNullAllowed
  | _ => Err Unreachable
  end.

(** * mergeWith of the 128-bit integer and timestamp classes *)

(** The loop of [combineHugeintRanges] over the sorted ranges. *)
Fixpoint coalesce_hugeint (current : HugeintRange) (ranges : list HugeintRange)
    : result (list HugeintRange) :=
  match ranges with
  | [] => Ok [current]
  | r :: ranges' =>
      let! next := sadd128 (hr_upper current) 1 in
      if hr_lower r <=? next then
        coalesce_hugeint
          (make_HugeintRange (hr_lower current)
             (Z.max (hr_upper current) (hr_upper r)) false)
          ranges'
      else
        let! rest := coalesce_hugeint r ranges' in
        Ok (current :: rest)
  end.

(** [std::sort] by the lower bound. *)
Definition hugeint_before (a b : HugeintRange) : Prop := hr_lower a <= hr_lower b.
#[local] Instance hugeint_before_dec : RelDecision hugeint_before.
Proof. intros a b. unfold hugeint_before. apply _. Defined.
Definition sort_hugeint (l : list HugeintRange) : list HugeintRange :=
  merge_sort hugeint_before l.

Definition combineHugeintRanges (ranges : list HugeintRange)
    (nullAllowed : bool) : result Filter :=
  match sort_hugeint ranges with
  | [] => Ok (nullOrFalse nullAllowed)
  | current :: rest =>
      let! mergedRanges := coalesce_hugeint current rest in
      match mergedRanges with
      | [] => Err BadAccess
      | first :: _ =>
          let last_ := List.last mergedRanges first in
          Ok (FHugeintRange
                (make_HugeintRange (hr_lower first) (hr_upper last_)
                   nullAllowed))
      end
  end.

(** One iteration of [combineNegatedRangeOnHugeintRanges]. *)
Definition subtract_negated_hugeint (lower upper : Z) (range : HugeintRange)
    : result (list HugeintRange) :=
  if (hr_upper range <? lower) || (hr_lower range >? upper) then
    Ok [make_HugeintRange (hr_lower range) (hr_upper range) false]
  else
    let! below :=
      if hr_lower range <? lower then
        let! e := ssub128 lower 1 in
        Ok [make_HugeintRange (hr_lower range) e false]
      else Ok [] in
    let! above :=
      if hr_upper range >? upper then
        let! s := sadd128 upper 1 in
        Ok [make_HugeintRange s (hr_upper range) false]
      else Ok [] in
    Ok (below ++ above).

Definition combineNegatedRangeOnHugeintRanges (lower upper : Z)
    (ranges : list HugeintRange) (nullAllowed : bool) : result Filter :=
  let! outRanges := map_res (subtract_negated_hugeint lower upper) ranges in
  combineHugeintRanges (concat outRanges) nullAllowed.

Definition NegatedHugeintRange_mergeWith (this : NegatedHugeintRange)
    (other : Filter) : result Filter :=
  let bothNullAllowed := nhr_nullAllowed this && testNull other in
  match other with
  | FAlwaysTrue | FAlwaysFalse | FIsNull =>
      rec other (FNegatedHugeintRange this)
  | FIsNotNull =>
      Ok (FNegatedHugeintRange (NegatedHugeintRange_clone this (Some false)))
  | FHugeintRange otherRange =>
      combineNegatedRangeOnHugeintRanges (nhr_lower this) (nhr_upper this)
        [make_HugeintRange (hr_lower otherRange) (hr_upper otherRange) false]
        bothNullAllowed
  | FNegatedHugeintRange otherNegatedRange =>
      if nhr_lower this >? nhr_lower otherNegatedRange then
        rec other (FNegatedHugeintRange this)
      else if nhr_upper this <? nhr_lower otherNegatedRange then
        let smallLower := nhr_lower this in
        let smallUpper := nhr_upper this in
        let bigLower := nhr_lower otherNegatedRange in
        let bigUpper := nhr_upper otherNegatedRange in
        let! r1 :=
          if smallLower >? INT128_MIN then
            let! e := ssub128 smallLower 1 in
            Ok [make_HugeintRange INT128_MIN e false]
          else Ok [] in
        let! r2 :=
          if (smallUpper <? INT128_MAX) && (bigLower >? INT128_MIN) then
            let! s := sadd128 smallUpper 1 in
            let! e := ssub128 bigLower 1 in
            Ok [make_HugeintRange s e false]
          else Ok [] in
        let! r3 :=
          if bigUpper <? INT128_MAX then
            let! s := sadd128 bigUpper 1 in
            Ok [make_HugeintRange s INT128_MAX false]
          else Ok [] in
        combineHugeintRanges (r1 ++ r2 ++ r3) bothNullAllowed
      else
        Ok (FNegatedHugeintRange
              (make_NegatedHugeintRange (nhr_lower this)
                 (Z.max (nhr_upper this) (nhr_upper otherNegatedRange))
                 bothNullAllowed))
  | _ => Err Unreachable
  end.

Definition TimestampRange_mergeWith (this : TimestampRange) (other : Filter)
    : result Filter :=
  match other with
  | FAlwaysTrue | FAlwaysFalse | FIsNull => rec other (FTimestampRange this)
  | FIsNotNull => Ok (FTimestampRange (TimestampRange_clone this (Some false)))
  | FTimestampRange otherRange =>
      let bothNullAllowed := tr_nullAllowed this && testNull other in
      let lower := Timestamp_std_max (tr_lower this) (tr_lower otherRange) in
      let upper := Timestamp_std_min (tr_upper this) (tr_upper otherRange) in
      if Timestamp_le lower upper then
        Ok (FTimestampRange (make_TimestampRange lower upper bothNullAllowed))
      else Ok (nullOrFalse bothNullAllowed)
  | _ => Err Unreachable
  end.

(** The loop of [combineTimestampRanges] over the sorted ranges. *)
Fixpoint coalesce_timestamp (current : TimestampRange)
    (ranges : list TimestampRange) : list TimestampRange :=
  match ranges with
  | [] => [current]
  | r :: ranges' =>
      if Timestamp_le (tr_lower r) (tr_upper current) then
        coalesce_timestamp
          (make_TimestampRange (tr_lower current)
             (Timestamp_std_max (tr_upper current) (tr_upper r)) false)
          ranges'
      else current :: coalesce_timestamp r ranges'
  end.

Definition timestamp_before (a b : TimestampRange) : Prop :=
  Is_true (Timestamp_le (tr_lower a) (tr_lower b)).
#[local] Instance timestamp_before_dec : RelDecision timestamp_before.
Proof. intros a b. unfold timestamp_before. apply _. Defined.
Definition sort_timestamp (l : list TimestampRange) : list TimestampRange :=
  merge_sort timestamp_before l.

Definition combineTimestampRanges (ranges : list TimestampRange)
    (nullAllowed : bool) : result Filter :=
  match sort_timestamp ranges with
  | [] => Ok (nullOrFalse nullAllowed)
  | current :: rest =>
      match coalesce_timestamp current rest with
      | [] => Err BadAccess
      | (first :: _) as mergedRanges =>
          let last_ := List.last mergedRanges first in
          Ok (FTimestampRange
                (make_TimestampRange (tr_lower first) (tr_upper last_)
                   nullAllowed))
      end
  end.

Definition NegatedTimestampRange_mergeWith (this : NegatedTimestampRange)
    (other : Filter) : result Filter :=
  let bothNullAllowed := ntr_nullAllowed this && testNull other in
  let lower := ntr_lower this in
  let upper := ntr_upper this in
  match other with
  | FAlwaysTrue | FAlwaysFalse | FIsNull =>
      rec other (FNegatedTimestampRange this)
  | FIsNotNull =>
      Ok (FNegatedTimestampRange (NegatedTimestampRange_clone this (Some false)))
  | FTimestampRange otherRange =>
      if Timestamp_lt (tr_upper otherRange) lower
         || Timestamp_gt (tr_lower otherRange) upper then
        Ok (FTimestampRange
              (make_TimestampRange
                 (Timestamp_std_min lower (tr_lower otherRange))
                 (Timestamp_std_max upper (tr_upper otherRange))
                 bothNullAllowed))
      else if Timestamp_ge (tr_lower otherRange) lower
              && Timestamp_le (tr_upper otherRange) upper then
        Ok (FNegatedTimestampRange
              (NegatedTimestampRange_clone this (Some bothNullAllowed)))
      else
        let below :=
          if Timestamp_lt (tr_lower otherRange) lower then
            [make_TimestampRange (tr_lower otherRange) lower false]
          else [] in
        let above :=
          if Timestamp_gt (tr_upper otherRange) upper then
            [make_TimestampRange upper (tr_upper otherRange) false]
          else [] in
        combineTimestampRanges (below ++ above) bothNullAllowed
  | FNegatedTimestampRange otherNegatedRange =>
      if Timestamp_gt lower (ntr_lower otherNegatedRange) then
        rec other (FNegatedTimestampRange this)
      else if Timestamp_lt upper (ntr_lower otherNegatedRange) then
        let r1 :=
          if Timestamp_gt lower Timestamp_min then
            [make_TimestampRange Timestamp_min lower false]
          else [] in
        let r2 :=
          [make_TimestampRange upper (ntr_lower otherNegatedRange) false] in
        let r3 :=
          if Timestamp_lt (ntr_upper otherNegatedRange) Timestamp_max then
            [make_TimestampRange (ntr_upper otherNegatedRange) Timestamp_max
               false]
          else [] in
        combineTimestampRanges (r1 ++ r2 ++ r3) bothNullAllowed
      else
        Ok (FNegatedTimestampRange
              (make_NegatedTimestampRange lower
                 (Timestamp_std_max upper (ntr_upper otherNegatedRange))
                 bothNullAllowed))
  | _ => Err Unreachable
  end.

(** * mergeWith of the string classes *)

Definition mergeExclusive (compareResult : Z) (left right : bool) : bool :=
  if compareResult =? 0 then left || right
  else if compareResult <? 0 then left else right.

(** The lower bound of the intersection of two ranges: unbounded flag,
    exclusive flag and value. *)
Definition merge_lower (this other : BytesRange) : bool * bool * list Z :=
  if bsr_lowerUnbounded this then
    (bsr_lowerUnbounded other, bsr_lowerExclusive other, bsr_lower other)
  else if bsr_lowerUnbounded other then
    (bsr_lowerUnbounded this, bsr_lowerExclusive this, bsr_lower this)
  else
    let compare := string_compare (bsr_lower this) (bsr_lower other) in
    (false,
     mergeExclusive (- compare) (bsr_lowerExclusive this)
       (bsr_lowerExclusive other),
     if compare <? 0 then bsr_lower other else bsr_lower this).

Definition merge_upper (this other : BytesRange) : bool * bool * list Z :=
  if bsr_upperUnbounded this then
    (bsr_upperUnbounded other, bsr_upperExclusive other, bsr_upper other)
  else if bsr_upperUnbounded other then
    (bsr_upperUnbounded this, bsr_upperExclusive this, bsr_upper this)
  else
    let compare := string_compare (bsr_upper this) (bsr_upper other) in
    (false,
     mergeExclusive compare (bsr_upperExclusive this)
       (bsr_upperExclusive other),
     if compare <? 0 then bsr_upper this else bsr_upper other).

Definition BytesRange_mergeWith (this : BytesRange) (other : Filter)
    : result Filter :=
  match other with
  | FAlwaysTrue | FAlwaysFalse | FIsNull => rec other (FBytesRange this)
  | FIsNotNull => Ok (FBytesRange (BytesRange_clone this (Some false)))
  | FBytesValues _ | FNegatedBytesValues _ | FNegatedBytesRange _
  | FMultiRange _ _ => rec other (FBytesRange this)
  | FBytesRange otherRange =>
      let bothNullAllowed := bsr_nullAllowed this && testNull other in
      let '(lowerUnbounded, lowerExclusive, lower) :=
        merge_lower this otherRange in
      let '(upperUnbounded, upperExclusive, upper) :=
        merge_upper this otherRange in
      if negb lowerUnbounded && negb upperUnbounded
         && ((string_compare lower upper >? 0)
             || ((string_compare lower upper =? 0)
                 && (lowerExclusive || upperExclusive))) then
        Ok (nullOrFalse bothNullAllowed)
      else
        rmap FBytesRange
          (make_BytesRange lower lowerUnbounded lowerExclusive upper
             upperUnbounded upperExclusive bothNullAllowed)
  | _ => Err Unreachable
  end.

Definition NegatedBytesRange_toMultiRange (this : NegatedBytesRange)
    : result Filter :=
  let inner := nbsr_nonNegated this in
  let! below :=
    if negb (bsr_lowerUnbounded inner) then
      let! r :=
        make_BytesRange [] true false (bsr_lower inner) false
          (negb (NegatedBytesRange_testBytes this (bsr_lower inner))) false in
      Ok [FBytesRange r]
    else Ok [] in
  let! above :=
    if negb (bsr_upperUnbounded inner) then
      let! r :=
        make_BytesRange (bsr_upper inner) false
          (negb (NegatedBytesRange_testBytes this (bsr_upper inner)))
          [] true false false in
      Ok [FBytesRange r]
    else Ok [] in
  match below ++ above with
  | [] => Ok (nullOrFalse (nbsr_nullAllowed this))
  | [f] => clone f (Some (nbsr_nullAllowed this))
  | accepted => Ok (FMultiRange accepted (nbsr_nullAllowed this))
  end.

Definition NegatedBytesRange_mergeWith (this : NegatedBytesRange)
    (other : Filter) : result Filter :=
  match other with
  | FAlwaysTrue | FAlwaysFalse | FIsNull => rec other (FNegatedBytesRange this)
  | FIsNotNull =>
      Ok (FNegatedBytesRange (NegatedBytesRange_clone this (Some false)))
  | FBytesValues _ => rec other (FNegatedBytesRange this)
  | FNegatedBytesValues _ | FBytesRange _ | FNegatedBytesRange _
  | FMultiRange _ _ =>
      let! multi := NegatedBytesRange_toMultiRange this in
      rec other multi
  | _ => Err Unreachable
  end.

(** [std::make_unique<BytesValues>(newValues, na)] unless it is empty. *)
Definition keep_BytesValues (newValues : list (list Z)) (nullAllowed : bool)
    : result Filter :=
  match newValues with
  | [] => Ok (nullOrFalse nullAllowed)
  | _ => rmap FBytesValues (make_BytesValues newValues nullAllowed)
  end.

Definition BytesValues_mergeWith (this : BytesValues) (other : Filter)
    : result Filter :=
  let bothNullAllowed := bv_nullAllowed this && testNull other in
  match other with
  | FAlwaysTrue | FAlwaysFalse | FIsNull | FMultiRange _ _ =>
      rec other (FBytesValues this)
  | FIsNotNull => Ok (FBytesValues (BytesValues_clone this (Some false)))
  | FBytesValues otherBytesValues =>
      if (string_compare (bv_upper this) (bv_lower otherBytesValues) <? 0)
         || (string_compare (bv_upper otherBytesValues) (bv_lower this) <? 0)
      then Ok (nullOrFalse bothNullAllowed)
      else
        let '(smallerFilter, largerFilter) :=
          if Nat.ltb (length (bv_value otherBytesValues))
               (length (bv_value this))
          then (otherBytesValues, this) else (this, otherBytesValues) in
        keep_BytesValues
          (List.filter (fun value => contains value (bv_set largerFilter))
             (bv_value smallerFilter))
          bothNullAllowed
  | FNegatedBytesValues _ =>
      let! newValues := filter_res (testBytes other) (bv_value this) in
      keep_BytesValues newValues bothNullAllowed
  | FBytesRange otherBytesRange =>
      if negb (BytesValues_testBytesRange this
                 (if bsr_lowerUnbounded otherBytesRange then None
                  else Some (bsr_lower otherBytesRange))
                 (if bsr_upperUnbounded otherBytesRange then None
                  else Some (bsr_upper otherBytesRange))
                 bothNullAllowed)
      then Ok (nullOrFalse bothNullAllowed)
      else
        keep_BytesValues
          (List.filter (BytesRange_testBytes otherBytesRange) (bv_value this))
          bothNullAllowed
  | FNegatedBytesRange otherBytesRange =>
      keep_BytesValues
        (List.filter (NegatedBytesRange_testBytes otherBytesRange)
           (bv_value this))
        bothNullAllowed
  | _ => Err Unreachable
  end.

(** [std::set<std::string>] as a strictly increasing list. *)
Fixpoint set_insert (s : list Z) (l : list (list Z)) : list (list Z) :=
  match l with
  | [] => [s]
  | x :: l' =>
      if string_compare s x <? 0 then s :: l
      else if string_compare s x =? 0 then l
      else x :: set_insert s l'
  end.
Definition set_of_list (l : list (list Z)) : list (list Z) :=
  fold_left (fun s v => set_insert v s) l [].
Definition set_erase (s : list Z) (l : list (list Z)) : list (list Z) :=
  List.filter (fun x => negb (string_compare s x =? 0)) l.

(** The loop that turns neighbouring rejected values into open ranges, then
    the range above the last one. *)
Fixpoint between_rejects (other : BytesRange) (hiExclusive : bool)
    (back : list Z) (rest : list (list Z)) : result (list Filter) :=
  match rest with
  | [] =>
      let! r :=
        make_BytesRange back false true (bsr_upper other)
          (bsr_upperUnbounded other) hiExclusive false in
      Ok [FBytesRange r]
  | front :: rest' =>
      let! r := make_BytesRange back false true front false true false in
      let! tail := between_rejects other hiExclusive front rest' in
      Ok (FBytesRange r :: tail)
  end.

Definition NegatedBytesValues_mergeWith (this : NegatedBytesValues)
    (other : Filter) : result Filter :=
  let bothNullAllowed := nbv_nullAllowed this && testNull other in
  let values := bv_value (nbv_nonNegated this) in
  match other with
  | FAlwaysTrue | FAlwaysFalse | FIsNull | FBytesValues _
  | FNegatedBytesRange _ | FMultiRange _ _ =>
      rec other (FNegatedBytesValues this)
  | FIsNotNull =>
      rmap FNegatedBytesValues (NegatedBytesValues_clone this (Some false))
  | FNegatedBytesValues negatedBytesOther =>
      let otherValues := bv_value (nbv_nonNegated negatedBytesOther) in
      if Nat.ltb (length values) (length otherValues) then
        rec other (FNegatedBytesValues this)
      else
        rmap FNegatedBytesValues
          (make_NegatedBytesValues
             (values
              ++ List.filter (NegatedBytesValues_testBytes this) otherValues)
             bothNullAllowed)
  | FBytesRange bytesRangeOther =>
      let rejected0 :=
        set_of_list
          (List.filter (BytesRange_testBytes bytesRangeOther) values) in
      let loExclusive :=
        negb (bsr_lowerUnbounded bytesRangeOther)
        && (bsr_lowerExclusive bytesRangeOther
            || contains (bsr_lower bytesRangeOther) rejected0) in
      let rejected1 :=
        if negb (bsr_lowerUnbounded bytesRangeOther) then
          set_erase (bsr_lower bytesRangeOther) rejected0
        else rejected0 in
      let hiExclusive :=
        negb (bsr_upperUnbounded bytesRangeOther)
        && (bsr_upperExclusive bytesRangeOther
            || contains (bsr_upper bytesRangeOther) rejected1) in
      let rejectedValues :=
        if negb (bsr_upperUnbounded bytesRangeOther) then
          set_erase (bsr_upper bytesRangeOther) rejected1
        else rejected1 in
      match rejectedValues with
      | [] =>
          rmap FBytesRange
            (make_BytesRange (bsr_lower bytesRangeOther)
               (bsr_lowerUnbounded bytesRangeOther) loExclusive
               (bsr_upper bytesRangeOther)
               (bsr_upperUnbounded bytesRangeOther) hiExclusive
               bothNullAllowed)
      | back :: rest =>
          let! first :=
            make_BytesRange (bsr_lower bytesRangeOther)
              (bsr_lowerUnbounded bytesRangeOther) loExclusive
              back false true false in
          let! ranges := between_rejects bytesRangeOther hiExclusive back rest in
          Ok (FMultiRange (FBytesRange first :: ranges) bothNullAllowed)
      end
  | _ => Err Unreachable
  end.

(** What the inner loop of [MultiRange::mergeWith] accumulates: the merged
    filters and the values of the merged IN-lists.  The code counts the filters
    of a merged MultiRange with an [int]; here it is taken to have fewer than
    [2 ^ 31] of them. *)
Definition collect_merged (acc : list Filter * list (list Z))
    (innerMerged : Filter) : result (list Filter * list (list Z)) :=
  let '(merged, byteValues) := acc in
  match innerMerged with
  | FAlwaysFalse | FIsNull => Ok acc
  | FBytesValues mergedBytesValues =>
      Ok (merged, byteValues ++ bv_value mergedBytesValues)
  | FMultiRange inner _ =>
      let! cloned := map_res (fun f => clone f None) inner in
      Ok (merged ++ cloned, byteValues)
  | _ => Ok (merged ++ [innerMerged], byteValues)
  end.

Fixpoint merge_with_each (filter : Filter) (otherFilters : list Filter)
    (acc : list Filter * list (list Z))
    : result (list Filter * list (list Z)) :=
  match otherFilters with
  | [] => Ok acc
  | filterOther :: otherFilters' =>
      let! innerMerged := rec filter filterOther in
      let! acc' := collect_merged acc innerMerged in
      merge_with_each filter otherFilters' acc'
  end.

Fixpoint merge_all_pairs (filters otherFilters : list Filter)
    (acc : list Filter * list (list Z))
    : result (list Filter * list (list Z)) :=
  match filters with
  | [] => Ok acc
  | filter :: filters' =>
      let! acc' := merge_with_each filter otherFilters acc in
      merge_all_pairs filters' otherFilters acc'
  end.

Definition MultiRange_mergeWith (filters : list Filter) (nullAllowed : bool)
    (other : Filter) : result Filter :=
  match other with
  | FAlwaysTrue | FAlwaysFalse | FIsNull | FNegatedBytesRange _ =>
      rec other (FMultiRange filters nullAllowed)
  | FIsNotNull => clone (FMultiRange filters nullAllowed) (Some false)
  | FBytesValues _ | FNegatedBytesValues _ | FBytesRange _
  | FMultiRange _ _ =>
      let bothNullAllowed := nullAllowed && testNull other in
      let otherFilters :=
        match other with
        | FMultiRange filtersOther _ => filtersOther
        | _ => [other]
        end in
      let! acc := merge_all_pairs filters otherFilters ([], []) in
      let '(merged0, byteValues) := acc in
      let! merged :=
        match byteValues with
        | [] => Ok merged0
        | _ =>
            let! bv := make_BytesValues byteValues bothNullAllowed in
            Ok (merged0 ++ [FBytesValues bv])
        end in
      match merged with
      | [] => Ok (nullOrFalse bothNullAllowed)
      | [f] => clone f (Some bothNullAllowed)
      | _ => Ok (FMultiRange merged bothNullAllowed)
      end
  | _ => Err Unreachable
  end.
End dispatch.

(** * The virtual function *)

Fixpoint mergeWith (fuel : nat) (this other : Filter) : result Filter :=
  match fuel with
  | O => Err OutOfFuel
  | S fuel' =>
      let rec := mergeWith fuel' in
      match this with
      | FAlwaysFalse => AlwaysFalse_mergeWith other
      | FAlwaysTrue => AlwaysTrue_mergeWith other
      | FIsNull => IsNull_mergeWith other
      | FIsNotNull => IsNotNull_mergeWith rec other
      | FBoolValue v na => BoolValue_mergeWith rec v na other
      | FBigintRange f => BigintRange_mergeWith rec f other
      | FNegatedBigintRange f => NegatedBigintRange_mergeWith rec f other
      | FBigintValuesUsingHashTable f =>
          BigintValuesUsingHashTable_mergeWith rec f other
      | FBigintValuesUsingBitmask f =>
          BigintValuesUsingBitmask_mergeWith rec f other
      | FNegatedBigintValuesUsingHashTable f =>
          NegatedBigintValuesUsingHashTable_mergeWith rec f other
      | FNegatedBigintValuesUsingBitmask f =>
          NegatedBigintValuesUsingBitmask_mergeWith rec f other
      | FBigintMultiRange f => BigintMultiRange_mergeWith rec f other
      | FNegatedHugeintRange f => NegatedHugeintRange_mergeWith rec f other
      | FTimestampRange f => TimestampRange_mergeWith rec f other
      | FNegatedTimestampRange f => NegatedTimestampRange_mergeWith rec f other
      | FBytesRange f => BytesRange_mergeWith rec f other
      | FNegatedBytesRange f => NegatedBytesRange_mergeWith rec f other
      | FBytesValues f => BytesValues_mergeWith rec f other
      | FNegatedBytesValues f => NegatedBytesValues_mergeWith rec f other
      | FMultiRange filters na => MultiRange_mergeWith rec filters na other
      | FIsTrue | FHugeintRange _ | FHugeintValuesUsingHashTable _ =>
          Err Unsupported
      end
  end.
End merge.
