(* ===== verification/FilterBigint.v ===== *)
(** Correctness of the filters on 64-bit integers.

    [bigint_accepts] is the reference semantics: the set of integers a filter
    lets through, written with list membership instead of the bitmask, the hash
    table and the binary search of the implementation.  The theorems show that
    the value tests compute it, that the range tests never rule out a range
    that holds an accepted value, and that [mergeWith] is total on these
    filters and computes the conjunction. *)

From S2P Require Import Prelude StringView Timestamp FilterTypes FilterMerge.

(** * Well-formed integer filters *)

Definition range_ok (r : BigintRange) : Prop :=
  r = make_BigintRange (br_lower r) (br_upper r) (br_nullAllowed r)
  /\ INT64_MIN <= br_lower r <= br_upper r /\ br_upper r <= INT64_MAX.

(** Ranges in increasing order, without a shared point, inside [lo, hi]. *)
Fixpoint separated (lo hi : Z) (l : list BigintRange) : Prop :=
  match l with
  | [] => True
  | r :: l' =>
      range_ok r /\ br_nullAllowed r = false
      /\ lo <= br_lower r /\ br_upper r <= hi
      /\ separated (br_upper r + 1) hi l'
  end.

Definition ht_ok (f : BigintValuesUsingHashTable) : Prop :=
  StronglySorted Z.lt (ht_values f)
  /\ (forall x, x ∈ ht_hashTable f <-> x ∈ ht_values f)
  /\ (forall x, x ∈ ht_values f -> ht_min f <= x <= ht_max f)
  /\ ht_max f ∈ ht_values f
  /\ INT64_MIN <= ht_min f /\ ht_max f < INT64_MAX.

Definition bm_ok (f : BigintValuesUsingBitmask) : Prop :=
  INT64_MIN <= bm_min f < bm_max f /\ bm_max f < INT64_MAX
  /\ bm_max f - bm_min f + 1 <= INT64_MAX
  /\ Z.of_nat (length (bm_bitmask f)) = bm_max f - bm_min f + 1
  /\ bm_values f = bitmask_values (bm_min f) (bm_bitmask f)
  /\ bm_values f <> [].

(** The binary search negates a 32-bit index, so that there may be at most
    [INT32_MAX - 1] ranges. *)
Definition mr_ok (f : BigintMultiRange) : Prop :=
  separated INT64_MIN INT64_MAX (mr_ranges f)
  /\ 2 <= Z.of_nat (length (mr_ranges f)) < INT32_MAX
  /\ mr_lowerBounds f = map br_lower (mr_ranges f).

(** A window of integers that excludes the two extreme ones and whose width
    is a 64-bit integer. *)
Definition window_ok (wlo whi : Z) : Prop :=
  INT64_MIN < wlo /\ whi < INT64_MAX /\ whi - wlo < INT64_MAX.

(** The filters on 64-bit integers that the theorems cover.  The values of a
    NOT IN-list (and the value of [<> v]) lie in a window, the bounds of a
    rejected range are not the two extreme integers, and the values of an
    IN-list are below the largest one: outside of these conditions the code
    overflows (see FilterCounterexamples.v). *)
Definition bigint_wf (wlo whi : Z) (f : Filter) : Prop :=
  match f with
  | FAlwaysFalse | FAlwaysTrue | FIsNull | FIsNotNull => True
  | FBigintRange r => range_ok r
  | FNegatedBigintRange n =>
      n = make_NegatedBigintRange (nbr_lower n) (nbr_upper n) (nbr_nullAllowed n)
      /\ INT64_MIN < nbr_lower n <= nbr_upper n /\ nbr_upper n < INT64_MAX
      /\ (nbr_lower n = nbr_upper n -> wlo <= nbr_lower n <= whi)
  | FBigintValuesUsingHashTable f => ht_ok f
  | FBigintValuesUsingBitmask f => bm_ok f
  | FNegatedBigintValuesUsingHashTable f =>
      ht_ok (nht_nonNegated f)
      /\ forall x, x ∈ nht_values f -> wlo <= x <= whi
  | FNegatedBigintValuesUsingBitmask f =>
      bm_ok (nbm_nonNegated f)
      /\ forall x, x ∈ nbm_values f -> wlo <= x <= whi
  | FBigintMultiRange f => mr_ok f
  | _ => False
  end.

(** Where the pieces of the accepted set start: the listed values, the lower
    ends of the ranges, and the integers after the rejected ones. *)
Definition starts (f : Filter) : list Z :=
  match f with
  | FAlwaysTrue | FIsNotNull => [INT64_MIN]
  | FBigintRange r => [br_lower r]
  | FNegatedBigintRange n => [INT64_MIN; nbr_upper n + 1]
  | FBigintValuesUsingHashTable f => ht_values f
  | FBigintValuesUsingBitmask f => bm_values f
  | FNegatedBigintValuesUsingHashTable f => INT64_MIN :: map Z.succ (nht_values f)
  | FNegatedBigintValuesUsingBitmask f => INT64_MIN :: map Z.succ (nbm_values f)
  | FBigintMultiRange f => map br_lower (mr_ranges f)
  | _ => []
  end.

(** The number of values or ranges a filter has. *)
Definition pieces (f : Filter) : Z := Z.of_nat (length (starts f)).

(** So few that a bitmask of 256 bits for each has a size of 32 bits: the
    loops over values, ranges and bitmasks count with an [int].  The bound
    is [2 ^ 23 - 1]. *)
Definition few (l : list Z) : Prop := 256 * Z.of_nat (length l) <= INT32_MAX.

Lemma few_length {A} (f : A -> Z) (l : list A) S :
  few S -> NoDup (map f l) -> (forall x, x ∈ l -> f x ∈ S) -> 256 * Z.of_nat (length l) <= INT32_MAX.
Proof.
  unfold few. intros HS Hnd Hin. rewrite <- (length_map f l).
  assert (length (map f l) <= length S)%nat; [|lia].
  apply submseteq_length, NoDup_submseteq; [done|].
  intros y (x & -> & Hx)%list_elem_of_fmap. by apply Hin.
Qed.

(** * Reference semantics *)

Definition in_range (r : BigintRange) (x : Z) : bool :=
  (br_lower r <=? x) && (x <=? br_upper r).

Definition bigint_accepts (f : Filter) (x : Z) : bool :=
  match f with
  | FAlwaysTrue | FIsNotNull => true
  | FBigintRange r => in_range r x
  | FNegatedBigintRange n => negb (in_range (nbr_nonNegated n) x)
  | FBigintValuesUsingHashTable f => contains x (ht_values f)
  | FBigintValuesUsingBitmask f => contains x (bm_values f)
  | FNegatedBigintValuesUsingHashTable f => negb (contains x (nht_values f))
  | FNegatedBigintValuesUsingBitmask f => negb (contains x (nbm_values f))
  | FBigintMultiRange f => existsb (fun r => in_range r x) (mr_ranges f)
  | _ => false
  end.

(** * Lists of integers *)

Lemma contains_iff `{EqDecision A} (x : A) l : contains x l = true <-> x ∈ l.
Proof. unfold contains. apply bool_decide_eq_true. Qed.

Lemma contains_iff_false `{EqDecision A} (x : A) l :
  contains x l = false <-> ~ x ∈ l.
Proof. unfold contains. apply bool_decide_eq_false. Qed.

Lemma contains_ext `{EqDecision A} (x : A) l k :
  (x ∈ l <-> x ∈ k) -> contains x l = contains x k.
Proof. intros H. unfold contains. by apply bool_decide_ext. Qed.

Lemma in_range_iff r x : in_range r x = true <-> br_lower r <= x <= br_upper r.
Proof. unfold in_range. rewrite andb_true_iff, !Z.leb_le. done. Qed.

Lemma elem_of_lower_bound l v x :
  StronglySorted Z.lt l -> x ∈ lower_bound l v <-> x ∈ l /\ v <= x.
Proof.
  induction 1 as [|y l Hs IH Hy]; simpl; [set_solver|].
  rewrite Forall_forall in Hy.
  destruct (y <? v) eqn:E; [apply Z.ltb_lt in E|apply Z.ltb_ge in E].
  - rewrite IH, elem_of_cons. split; [naive_solver|].
    intros [[->|?] ?]; [lia|done].
  - rewrite elem_of_cons. split; [|naive_solver].
    intros [->|Hx]; [auto|]. split; [auto|]. specialize (Hy x Hx). lia.
Qed.

Lemma lower_bound_suffix l v : exists k, l = k ++ lower_bound l v.
Proof.
  induction l as [|y l [k IH]]; simpl; [by exists []|].
  destruct (y <? v); [|by exists []]. exists (y :: k). simpl. by f_equal.
Qed.

Lemma sorted_lower_bound l v :
  StronglySorted Z.lt l -> StronglySorted Z.lt (lower_bound l v).
Proof.
  induction 1 as [|y l Hs IH Hy]; simpl; [constructor|].
  destruct (y <? v); [done|]. by constructor.
Qed.

Lemma sorted_lt_nodup l : StronglySorted Z.lt l -> NoDup l.
Proof.
  induction 1 as [|y l Hs IH Hy]; constructor; [|done].
  rewrite Forall_forall in Hy. intros Hin. specialize (Hy _ Hin). lia.
Qed.

Lemma sorted_le_nodup_lt l :
  StronglySorted Z.le l -> NoDup l -> StronglySorted Z.lt l.
Proof.
  induction 1 as [|y l Hs IH Hy]; intros Hnd; [constructor|].
  apply NoDup_cons in Hnd as [Hnin Hnd]. constructor; [by apply IH|].
  rewrite Forall_forall in Hy |- *. intros z Hz.
  specialize (Hy z Hz). destruct (decide (y = z)); [set_solver|lia].
Qed.

Lemma sort_ints_spec l :
  NoDup l -> StronglySorted Z.lt (sort_ints l) /\ sort_ints l ≡ₚ l.
Proof.
  intros Hnd. unfold sort_ints.
  assert (merge_sort Z.le l ≡ₚ l) as Hp by apply merge_sort_Permutation.
  split; [|done]. apply sorted_le_nodup_lt.
  - apply StronglySorted_merge_sort; [apply _|]. intros x y. lia.
  - by rewrite Hp.
Qed.

(** A duplicate-free list of [max - min + 1] integers of an interval holds
    every integer of it. *)
Lemma nodup_full_interval l min max :
  NoDup l -> (forall x, x ∈ l -> min <= x <= max) ->
  Z.of_nat (length l) = max - min + 1 ->
  forall x, min <= x <= max -> x ∈ l.
Proof.
  intros Hnd Hin Hlen x Hx.
  assert (l ⊆+ seqZ min (max - min + 1)) as Hsub.
  { apply NoDup_submseteq; [done|]. intros y Hy.
    apply elem_of_seqZ. specialize (Hin y Hy). lia. }
  assert (l ≡ₚ seqZ min (max - min + 1)) as ->.
  { apply submseteq_length_Permutation; [done|]. rewrite length_seqZ. lia. }
  apply elem_of_seqZ. lia.
Qed.

Lemma min_max_loop_spec l m M m' M' :
  m <= M -> min_max_loop m M l = (m', M') ->
  m' <= m /\ M <= M' /\ (m' = m \/ m' ∈ l) /\ (M' = M \/ M' ∈ l)
  /\ forall x, x ∈ l -> m' <= x <= M'.
Proof.
  revert m M. induction l as [|v l IH]; simpl; intros m M Hle H.
  - simplify_eq. repeat split; auto; try lia; set_solver.
  - assert (exists a b, min_max_loop a b l = (m', M') /\ a <= b
              /\ a <= m /\ M <= b /\ a <= v <= b
              /\ (a = m \/ a = v) /\ (b = M \/ b = v))
      as (a & b & H1 & Hab & ? & ? & ? & Ha & Hb).
    { destruct (v >? M) eqn:E1; [exists m, v|destruct (v <? m) eqn:E2;
        [exists v, M|exists m, M]]; repeat split; auto; lia. }
    apply IH in H1 as (? & ? & Hm & HM & Hall); [|done].
    split_and!; try lia.
    + set_solver.
    + set_solver.
    + intros x [->|Hx]%elem_of_cons; [lia|by apply Hall].
Qed.

(** * Bitmasks *)

Lemma bitmask_fill_spec min max values bitmask :
  (forall v, v ∈ values -> min <= v <= max) ->
  Z.of_nat (length bitmask) = max - min + 1 ->
  exists bitmask', bitmask_fill min max values bitmask = Ok bitmask'
    /\ length bitmask' = length bitmask
    /\ forall i : nat, bitmask' !! i = Some true <->
         bitmask !! i = Some true \/ (min + Z.of_nat i) ∈ values.
Proof.
  revert bitmask. induction values as [|v values IH]; intros bitmask Hin Hlen.
  { exists bitmask. simpl. set_solver. }
  simpl. assert (min <= v <= max) as Hv by (apply Hin; set_solver).
  replace (v >=? min) with true by lia. replace (v <=? max) with true by lia.
  simpl.
  destruct (IH (<[Z.to_nat (v - min):=true]> bitmask)) as (b & E & Hl & Hb).
  { set_solver. }
  { by rewrite length_insert. }
  exists b. split; [done|]. split; [by rewrite Hl, length_insert|].
  intros i. rewrite Hb, list_lookup_insert, elem_of_cons.
  case_decide as Hd.
  - destruct Hd as [<- _]. split; [|auto]. intros _. right. left. lia.
  - split; [naive_solver|]. intros [?|[He|?]]; [auto| |auto].
    destruct Hd. lia.
Qed.

Lemma elem_of_bitmask_values min bitmask x :
  x ∈ bitmask_values min bitmask <->
  min <= x /\ bitmask !! Z.to_nat (x - min) = Some true.
Proof.
  revert min. induction bitmask as [|b bitmask IH]; intros min; simpl.
  { rewrite lookup_nil. set_solver. }
  rewrite elem_of_app, IH. destruct (decide (x = min)) as [->|Hne].
  - replace (Z.to_nat (min - min)) with 0%nat by lia. simpl.
    destruct b; [set_solver|]. split; [|naive_solver]. intros [?|?]; [set_solver|lia].
  - destruct (decide (min < x)).
    + replace (Z.to_nat (x - min)) with (S (Z.to_nat (x - (min + 1)))) by lia.
      simpl. assert (min + 1 <= x <-> min <= x) as -> by lia.
      destruct b; set_solver.
    + split; [|lia]. intros [?|?]; [|lia]. destruct b; set_solver.
Qed.

Lemma bitmask_values_sorted min bitmask :
  StronglySorted Z.lt (bitmask_values min bitmask).
Proof.
  revert min. induction bitmask as [|b bitmask IH]; intros min; simpl;
    [constructor|].
  destruct b; simpl; [|apply IH]. constructor; [apply IH|].
  apply Forall_forall. intros x Hx. apply elem_of_bitmask_values in Hx. lia.
Qed.

Lemma make_BigintValuesUsingBitmask_spec min max values na :
  INT64_MIN <= min < max -> max < INT64_MAX -> max - min + 1 <= INT32_MAX ->
  (2 <= length values)%nat ->
  (forall v, v ∈ values -> min <= v <= max) ->
  exists f, make_BigintValuesUsingBitmask min max values na = Ok f
    /\ bm_ok f /\ bm_nullAllowed f = na /\ bm_min f = min
    /\ forall x, x ∈ bm_values f <-> x ∈ values.
Proof.
  intros Hmin Hmax Hrange Hlen Hin. unfold make_BigintValuesUsingBitmask.
  replace (min <? max) with true by lia.
  replace (Z.of_nat (length values) >? 1) with true by lia. simpl.
  rewrite ssub64_in by lia. simpl. rewrite sadd64_in by lia. simpl.
  destruct (bitmask_fill_spec min max values
              (replicate (Z.to_nat (max - min + 1)) false))
    as (b & E & Hl & Hb); [done|rewrite length_replicate; lia|].
  rewrite E. cbn [rbind]. rewrite length_replicate in Hl.
  rewrite int_loop_ok by lia. cbn [rbind].
  eexists. split; [reflexivity|].
  assert (forall x, x ∈ bitmask_values min b <-> x ∈ values) as Hv.
  { intros x. rewrite elem_of_bitmask_values, Hb, lookup_replicate.
    split.
    - intros [? [[? _]|Hx]]; [done|].
      by replace (min + Z.of_nat (Z.to_nat (x - min))) with x in Hx by lia.
    - intros Hx. pose proof (Hin x Hx). split; [lia|]. right.
      by replace (min + Z.of_nat (Z.to_nat (x - min))) with x by lia. }
  unfold bm_ok. simpl. split_and!; try done; try lia.
  intros Hnil. destruct values as [|v values]; simpl in Hlen; [lia|].
  assert (v ∈ bitmask_values min b) as Hx by (apply Hv; left).
  rewrite Hnil in Hx. by apply elem_of_nil in Hx.
Qed.

(** The bit at [x - min] says whether [x] is one of the values. *)
Lemma bitmask_at_ok f x :
  bm_ok f -> bm_min f <= x <= bm_max f ->
  bitmask_at (bm_bitmask f) (x - bm_min f) = Ok (contains x (bm_values f)).
Proof.
  intros (_ & _ & _ & Hlen & Hvals & _) Hx. unfold bitmask_at.
  replace (x - bm_min f <? 0) with false by lia.
  destruct (lookup_lt_is_Some_2 (bm_bitmask f) (Z.to_nat (x - bm_min f)))
    as [b Hb]; [lia|]. rewrite Hb. f_equal. symmetry.
  destruct b.
  - apply contains_iff. rewrite Hvals. apply elem_of_bitmask_values.
    split; [lia|done].
  - apply contains_iff_false. rewrite Hvals, elem_of_bitmask_values.
    intros [_ H]. congruence.
Qed.

Lemma bm_values_bounds f x :
  bm_ok f -> x ∈ bm_values f -> bm_min f <= x <= bm_max f.
Proof.
  intros (_ & _ & _ & Hlen & Hvals & _). rewrite Hvals, elem_of_bitmask_values.
  intros [? H]. apply lookup_lt_Some in H. lia.
Qed.

Lemma bm_values_sorted f : bm_ok f -> StronglySorted Z.lt (bm_values f).
Proof. intros (_ & _ & _ & _ & -> & _). apply bitmask_values_sorted. Qed.

Lemma bm_testInt64_ok f x :
  bm_ok f ->
  BigintValuesUsingBitmask_testInt64 f x = Ok (contains x (bm_values f)).
Proof.
  intros Hok. unfold BigintValuesUsingBitmask_testInt64.
  destruct ((x <? bm_min f) || (x >? bm_max f)) eqn:E.
  - f_equal. symmetry. apply contains_iff_false. intros Hx.
    apply bm_values_bounds in Hx; [lia|done].
  - apply bitmask_at_ok; [done|lia].
Qed.

(** * Hash tables *)

Lemma ht_testInt64_ok f x :
  ht_ok f ->
  BigintValuesUsingHashTable_testInt64 f x = contains x (ht_values f).
Proof.
  intros (_ & Htab & Hb & _). unfold BigintValuesUsingHashTable_testInt64.
  rewrite <- (contains_ext x _ _ (Htab x)).
  destruct ((x <? ht_min f) || (x >? ht_max f)) eqn:E; [|done].
  symmetry. apply contains_iff_false. rewrite Htab. intros Hx%Hb. lia.
Qed.

Lemma make_BigintValuesUsingHashTable_spec min max values na :
  INT64_MIN <= min < max -> max < INT64_MAX ->
  (2 <= length values)%nat -> NoDup values ->
  (forall v, v ∈ values -> min <= v <= max) -> max ∈ values ->
  exists f, make_BigintValuesUsingHashTable min max values na = Ok f
    /\ ht_ok f /\ ht_nullAllowed f = na /\ ht_min f = min
    /\ forall x, x ∈ ht_values f <-> x ∈ values.
Proof.
  intros Hmin Hmax Hlen Hnd Hin Hmaxin.
  unfold make_BigintValuesUsingHashTable.
  replace (min <? max) with true by lia.
  replace (Z.of_nat (length values) >? 1) with true by lia. simpl.
  destruct (sort_ints_spec values Hnd) as [Hs Hp].
  eexists. split; [reflexivity|]. unfold ht_ok. simpl.
  assert (forall x, x ∈ sort_ints values <-> x ∈ values) as He
    by (intros; by rewrite Hp).
  split_and!; try done; try lia.
  - intros x Hx. apply Hin. by apply He.
  - by apply He.
Qed.

(** * Ordered lists of ranges *)

Lemma separated_weaken lo hi lo' hi' l :
  lo' <= lo -> hi <= hi' -> separated lo hi l -> separated lo' hi' l.
Proof.
  revert lo lo'. induction l as [|r l IH]; simpl; intros lo lo' Hlo Hhi; [done|].
  intros (? & ? & ? & ? & Hs). split_and!; try done; try lia.
  by apply (IH (br_upper r + 1)).
Qed.

Lemma separated_app lo mid hi l k :
  lo <= mid + 1 -> mid <= hi ->
  separated lo mid l -> separated (mid + 1) hi k -> separated lo hi (l ++ k).
Proof.
  revert lo. induction l as [|r l IH]; simpl; intros lo Hlo Hhi.
  { intros _. by apply separated_weaken. }
  intros (? & ? & ? & ? & Hs) Hk. split_and!; try done; try lia.
  apply IH; try done. lia.
Qed.

Lemma separated_app_inv lo hi l k :
  separated lo hi (l ++ k) -> separated lo hi l /\ separated lo hi k.
Proof.
  revert lo. induction l as [|r l IH]; simpl; intros lo; [done|].
  intros (Hr & ? & ? & ? & (? & ?)%IH). split_and!; try done.
  destruct Hr as (_ & ? & _). apply (separated_weaken (br_upper r + 1) hi); [lia|lia|done].
Qed.

Lemma separated_bounds lo hi l r :
  separated lo hi l -> r ∈ l ->
  range_ok r /\ br_nullAllowed r = false /\ lo <= br_lower r <= br_upper r
  /\ br_upper r <= hi.
Proof.
  revert lo. induction l as [|r' l IH]; simpl; intros lo Hs Hr; [set_solver|].
  destruct Hs as (Hok & ? & ? & ? & Hs).
  apply elem_of_cons in Hr as [->|Hr].
  - destruct Hok as (He & ? & ?). split_and!; try done; lia.
  - destruct (IH _ Hs Hr) as (? & ? & ? & ?). destruct Hok as (_ & ? & _).
    split_and!; try done; lia.
Qed.

Lemma existsb_in_range_iff l x :
  existsb (fun r => in_range r x) l = true
  <-> exists r, r ∈ l /\ br_lower r <= x <= br_upper r.
Proof.
  rewrite existsb_exists. setoid_rewrite in_range_iff.
  setoid_rewrite list_elem_of_In. done.
Qed.

Lemma existsb_in_range_app l k x :
  existsb (fun r => in_range r x) (l ++ k)
  = existsb (fun r => in_range r x) l || existsb (fun r => in_range r x) k.
Proof. apply existsb_app. Qed.

(** A point outside of [lo, hi] is in none of the ranges. *)
Lemma separated_outside lo hi l x :
  separated lo hi l -> x < lo \/ hi < x ->
  existsb (fun r => in_range r x) l = false.
Proof.
  intros Hs Hx. apply not_true_iff_false. rewrite existsb_in_range_iff.
  intros (r & Hr & ?). destruct (separated_bounds _ _ _ _ Hs Hr) as (_ & _ & ? & ?).
  lia.
Qed.

Lemma separated_do_not_overlap lo hi l :
  separated lo hi l -> ranges_do_not_overlap l = true.
Proof.
  revert lo. induction l as [|r [|r' l] IH]; intros lo; [done|done|].
  intros (_ & _ & _ & _ & Hs). change (ranges_do_not_overlap (r :: r' :: l))
    with ((br_lower r' >=? br_upper r) && ranges_do_not_overlap (r' :: l)).
  rewrite (IH _ Hs), andb_true_r. destruct Hs as (_ & _ & ? & _). lia.
Qed.

(** [lower_bound] on the lower bounds splits the ranges at the point. *)
Lemma lower_bound_ranges l v :
  exists l1 l2, l = l1 ++ l2
    /\ lower_bound (map br_lower l) v = map br_lower l2
    /\ (forall r, r ∈ l1 -> br_lower r < v)
    /\ (forall r l2', l2 = r :: l2' -> v <= br_lower r).
Proof.
  induction l as [|r l (l1 & l2 & -> & E & H1 & H2)]; simpl.
  { exists [], []. split_and!; [done|done|set_solver|done]. }
  destruct (br_lower r <? v) eqn:Ev.
  - exists (r :: l1), l2. split_and!; [done|done| |done].
    intros r' [->|?]%elem_of_cons; [lia|auto].
  - exists [], (r :: l1 ++ l2). split_and!; [done|done|set_solver|].
    intros r' l' [= <- _]. lia.
Qed.

Lemma separated_after lo hi r l x :
  separated lo hi (r :: l) -> x <= br_upper r ->
  existsb (fun r => in_range r x) l = false.
Proof.
  intros (_ & _ & _ & _ & Hs) Hx. eapply separated_outside; [done|]. lia.
Qed.

Lemma separated_before lo hi l r x :
  separated lo hi (l ++ [r]) -> br_lower r <= x ->
  existsb (fun r => in_range r x) l = false.
Proof.
  revert lo. induction l as [|r' l IH]; intros lo; [done|].
  simpl. intros (_ & _ & _ & _ & Hs) Hx. rewrite (IH _ Hs Hx), orb_false_r.
  destruct (separated_bounds _ _ _ r Hs) as (_ & _ & ? & _); [set_solver|].
  apply not_true_iff_false. rewrite in_range_iff. lia.
Qed.

Lemma in_range_testInt64 r x : BigintRange_testInt64 r x = in_range r x.
Proof. unfold BigintRange_testInt64, in_range. lia. Qed.

(** The range before the insertion point decides. *)
Lemma mr_place lo hi l1 l2 x :
  separated lo hi (l1 ++ l2) -> (forall r, r ∈ l1 -> br_lower r < x) ->
  existsb (fun r => in_range r x) l2 = false ->
  (if Z.of_nat (length l1) =? 0 then Ok false
   else let! range := at_index (l1 ++ l2) (Z.of_nat (length l1) - 1) in
        Ok (BigintRange_testInt64 range x))
  = Ok (existsb (fun r => in_range r x) (l1 ++ l2)).
Proof.
  intros Hs H1 H2. rewrite existsb_in_range_app, H2, orb_false_r.
  destruct l1 as [|r l1 _] using rev_ind; [done|].
  rewrite length_app. simpl length.
  zdecide.
  rewrite (at_index_ok _ _ r)
    by (lia || (replace (Z.to_nat _) with (length l1) by lia;
                rewrite <- app_assoc; by apply list_lookup_middle)).
  cbn [rbind]. apply separated_app_inv in Hs as [Hs _].
  rewrite in_range_testInt64, existsb_in_range_app. simpl. rewrite orb_false_r.
  rewrite (separated_before _ _ _ _ _ Hs); [done|].
  specialize (H1 r ltac:(set_solver)). lia.
Qed.

Lemma mr_place_of_index n :
  0 <= n < INT32_MAX ->
  (wrap_signed 32 (- n - 1) >=? 0) = false
  /\ (let! negated := ck32 (- wrap_signed 32 (- n - 1)) in ck32 (negated - 1)) = Ok n.
Proof.
  intros Hn. rewrite wrap_signed_id by lia. split; [zbool|].
  rewrite ck32_in by lia. cbn [rbind]. rewrite ck32_in by lia. f_equal. lia.
Qed.

Lemma mr_testInt64_ok f x :
  mr_ok f ->
  BigintMultiRange_testInt64 f x
  = Ok (existsb (fun r => in_range r x) (mr_ranges f)).
Proof.
  intros (Hs & Hlen & Hlb). unfold BigintMultiRange_testInt64, binarySearch.
  rewrite Hlb.
  destruct (lower_bound_ranges (mr_ranges f) x) as (l1 & l2 & E & -> & H1 & H2).
  unfold iter_index. rewrite E in Hs, Hlen |- *. rewrite !length_map, length_app in *.
  replace (Z.of_nat (length l1 + length l2) - Z.of_nat (length l2))
    with (Z.of_nat (length l1)) by lia.
  destruct (mr_place_of_index (Z.of_nat (length l1)) ltac:(lia)) as [Hneg Hplace].
  destruct l2 as [|r l2]; cbn [map].
  - rewrite Hneg. cbv zeta. rewrite <- rbind_assoc, Hplace. cbn [rbind]. by eapply mr_place.
  - specialize (H2 r l2 eq_refl). destruct (br_lower r =? x) eqn:Ex; cbn [negb].
    + cbn [length] in Hlen. rewrite wrap_signed_id by lia. replace (_ >=? 0) with true by zbool.
      rewrite existsb_in_range_app. simpl.
      destruct (separated_bounds _ _ _ r Hs) as (_ & _ & ? & ?); [set_solver|].
      replace (in_range r x) with true by (unfold in_range; lia).
      by rewrite orb_true_r.
    + rewrite Hneg. cbv zeta. rewrite <- rbind_assoc, Hplace. cbn [rbind].
      eapply mr_place; [done|done|]. simpl.
      destruct (separated_bounds _ _ _ r Hs) as (_ & _ & ? & ?); [set_solver|].
      apply separated_app_inv in Hs as [_ Hs].
      rewrite (separated_after _ _ _ _ x Hs) by lia.
      unfold in_range. lia.
Qed.

(** * Value and range tests *)

(** The value test of a well-formed filter computes the reference semantics. *)
Lemma testInt64_ok wlo whi f x :
  bigint_wf wlo whi f -> testInt64 f x = Ok (bigint_accepts f x).
Proof.
  destruct f; simpl; try done; intros Hwf.
  - by rewrite in_range_testInt64.
  - unfold NegatedBigintRange_testInt64. by rewrite in_range_testInt64.
  - by rewrite ht_testInt64_ok.
  - by apply bm_testInt64_ok.
  - unfold NegatedBigintValuesUsingHashTable_testInt64.
    rewrite ht_testInt64_ok; [done|]. apply Hwf.
  - unfold NegatedBigintValuesUsingBitmask_testInt64.
    rewrite bm_testInt64_ok; [done|]. apply Hwf.
  - by apply mr_testInt64_ok.
Qed.

(** The first element of [lower_bound] is the smallest one not below. *)
Lemma lower_bound_cons l v y k :
  StronglySorted Z.lt l -> lower_bound l v = y :: k ->
  y ∈ l /\ v <= y /\ forall x, x ∈ l -> v <= x -> y <= x.
Proof.
  intros Hs E. pose proof (sorted_lower_bound l v Hs) as Hs'.
  rewrite E in Hs'. apply StronglySorted_inv in Hs' as [_ Hy].
  rewrite Forall_forall in Hy.
  assert (y ∈ lower_bound l v) as Hin by (rewrite E; left).
  apply elem_of_lower_bound in Hin as [? ?]; [|done].
  split_and!; [done|done|]. intros x Hx Hv.
  assert (x ∈ lower_bound l v) as Hx' by by apply elem_of_lower_bound.
  rewrite E in Hx'. apply elem_of_cons in Hx' as [->|Hx']; [lia|].
  specialize (Hy x Hx'). lia.
Qed.

Lemma lower_bound_nonempty l v x :
  StronglySorted Z.lt l -> x ∈ l -> v <= x -> lower_bound l v <> [].
Proof.
  intros Hs Hx Hv E.
  assert (x ∈ lower_bound l v) as Hin by by apply elem_of_lower_bound.
  rewrite E in Hin. by apply elem_of_nil in Hin.
Qed.

Lemma ht_testInt64Range_sound f min max x hasNull :
  ht_ok f -> min <= x <= max -> x ∈ ht_values f ->
  BigintValuesUsingHashTable_testInt64Range f min max hasNull = Ok true.
Proof.
  intros Hok Hx Hin. unfold BigintValuesUsingHashTable_testInt64Range.
  destruct (hasNull && ht_nullAllowed f); [done|].
  destruct (min =? max) eqn:E.
  { rewrite ht_testInt64_ok by done. f_equal. apply contains_iff.
    by replace min with x by lia. }
  destruct Hok as (Hs & _ & Hb & _). pose proof (Hb _ Hin).
  replace ((min >? ht_max f) || (max <? ht_min f)) with false by zbool.
  destruct (lower_bound (ht_values f) min) as [|y k] eqn:El.
  { exfalso. eapply lower_bound_nonempty; [done|exact Hin| |exact El]. lia. }
  apply lower_bound_cons in El as (_ & _ & Hy); [|done].
  specialize (Hy x Hin). destruct (min =? y) eqn:E'; [done|].
  f_equal. zbool.
Qed.

(** The number of rejected values in [min, max) is its width only when every
    integer of it is rejected. *)
Lemma lower_bound_distance l min max :
  StronglySorted Z.lt l -> min <= max ->
  iter_index (lower_bound l min) (lower_bound l max) = max - min ->
  forall x, min <= x < max -> x ∈ l.
Proof.
  intros Hs Hle Hd x Hx.
  destruct (lower_bound_suffix (lower_bound l min) max) as [mid E].
  assert (lower_bound (lower_bound l min) max = lower_bound l max) as E2.
  { clear -Hle. induction l as [|y l IH]; simpl; [done|].
    destruct (y <? min) eqn:E1; destruct (y <? max) eqn:E2; simpl;
      rewrite ?E2; try done; lia. }
  rewrite E2 in E. unfold iter_index in Hd. rewrite E in Hd at 1.
  rewrite length_app in Hd.
  pose proof (sorted_lower_bound l min Hs) as Hs1.
  pose proof (sorted_lt_nodup _ Hs1) as Hnd. rewrite E in Hnd.
  apply NoDup_app in Hnd as (Hnd & Hdisj & _).
  assert (forall y, y ∈ mid -> y ∈ l /\ min <= y < max) as Hmid.
  { intros y Hy.
    assert (y ∈ lower_bound l min) as Hy1 by (rewrite E; set_solver).
    apply elem_of_lower_bound in Hy1 as [? ?]; [|done].
    split; [done|]. split; [done|]. apply Z.nle_gt. intros Hge.
    apply (Hdisj y Hy). by apply elem_of_lower_bound. }
  apply Hmid. apply (nodup_full_interval mid min (max - 1)); try lia; [done|].
  intros y Hy. apply Hmid in Hy. lia.
Qed.

Lemma nht_testInt64Range_sound wlo whi f min max x hasNull :
  window_ok wlo whi ->
  bigint_wf wlo whi (FNegatedBigintValuesUsingHashTable f) ->
  min <= x <= max -> ~ x ∈ nht_values f ->
  NegatedBigintValuesUsingHashTable_testInt64Range f min max hasNull = Ok true.
Proof.
  intros Hw [Hok Hwin] Hx Hnin.
  unfold NegatedBigintValuesUsingHashTable_testInt64Range.
  destruct (hasNull && nht_nullAllowed f); [done|].
  destruct (min =? max) eqn:E.
  { unfold NegatedBigintValuesUsingHashTable_testInt64.
    rewrite ht_testInt64_ok by done. f_equal. apply negb_true_iff.
    apply contains_iff_false. by replace min with x by lia. }
  destruct Hok as (Hs & _ & Hb & Hm & _). unfold nht_values in *.
  destruct (_ || _) eqn:Eb; [done|]. pose proof (Hb _ Hm).
  set (values := ht_values (nht_nonNegated f)) in *.
  destruct (lower_bound values min) as [|y k] eqn:El.
  { exfalso. eapply lower_bound_nonempty; [done|exact Hm| |exact El]. zbool. }
  destruct (min =? y) eqn:Ey; cbn [negb]; [|done].
  destruct (lower_bound values max) as [|z k'] eqn:Eh.
  { exfalso. eapply lower_bound_nonempty; [done|exact Hm| |exact Eh]. zbool. }
  destruct (max =? z) eqn:Ez; cbn [negb]; [|done].
  pose proof (lower_bound_cons _ _ _ _ Hs El) as (Hy & _).
  pose proof (lower_bound_cons _ _ _ _ Hs Eh) as (Hz & _).
  pose proof (Hwin _ Hy). pose proof (Hwin _ Hz). destruct Hw as (? & ? & ?).
  rewrite ssub64_in by lia. simpl. f_equal. apply negb_true_iff.
  apply Z.eqb_neq. rewrite <- El, <- Eh. intros Hd.
  destruct (decide (x = max)) as [->|]; [by replace max with z in Hnin by lia|].
  apply Hnin. eapply lower_bound_distance; [done| |done|]; lia.
Qed.

Lemma mr_testInt64Range_sound f min max x hasNull :
  mr_ok f -> min <= x <= max ->
  existsb (fun r => in_range r x) (mr_ranges f) = true ->
  BigintMultiRange_testInt64Range f min max hasNull = true.
Proof.
  intros (Hs & _) Hx Hin. unfold BigintMultiRange_testInt64Range.
  destruct (hasNull && mr_nullAllowed f); [done|].
  apply existsb_in_range_iff in Hin as (r & Hr & ?).
  apply existsb_exists. exists r. split; [by apply list_elem_of_In|].
  unfold BigintRange_testInt64Range.
  destruct (hasNull && br_nullAllowed r); [done|]. zbool.
Qed.

(** The range test of a well-formed filter never rules out a range that holds
    an accepted value. *)
Lemma testInt64Range_value_sound wlo whi f min max x hasNull :
  window_ok wlo whi -> bigint_wf wlo whi f -> min <= x <= max ->
  bigint_accepts f x = true -> testInt64Range f min max hasNull = Ok true.
Proof.
  intros Hw Hwf Hx Hacc. destruct f; simpl in *; try done.
  - apply in_range_iff in Hacc. unfold BigintRange_testInt64Range.
    destruct (hasNull && _); [done|]. f_equal. zbool.
  - apply negb_true_iff, not_true_iff_false in Hacc. rewrite in_range_iff in Hacc.
    unfold NegatedBigintRange_testInt64Range, nbr_lower, nbr_upper in *.
    destruct (hasNull && _); [done|]. f_equal. apply negb_true_iff. zbool.
  - apply contains_iff in Hacc. by eapply ht_testInt64Range_sound.
  - apply contains_iff in Hacc. unfold BigintValuesUsingBitmask_testInt64Range.
    destruct (hasNull && _); [done|]. destruct (min =? max) eqn:E.
    + rewrite bm_testInt64_ok by done. f_equal. apply contains_iff.
      by replace min with x by lia.
    + apply bm_values_bounds in Hacc; [|done]. f_equal. zbool.
  - apply negb_true_iff, contains_iff_false in Hacc.
    by eapply nht_testInt64Range_sound.
  - apply negb_true_iff, contains_iff_false in Hacc.
    unfold NegatedBigintValuesUsingBitmask_testInt64Range.
    destruct (hasNull && _); [done|]. destruct (min =? max) eqn:E; [|done].
    unfold NegatedBigintValuesUsingBitmask_testInt64.
    destruct Hwf as [Hok _]. rewrite bm_testInt64_ok by done. simpl. f_equal.
    apply negb_true_iff, contains_iff_false. by replace min with x by lia.
  - f_equal. by eapply mr_testInt64Range_sound.
Qed.

Lemma testInt64Range_null_sound wlo whi f min max :
  bigint_wf wlo whi f -> testNull f = true ->
  testInt64Range f min max true = Ok true.
Proof.
  destruct f; simpl; try done; intros _ Hn.
  - unfold BigintRange_testInt64Range. by rewrite Hn.
  - unfold NegatedBigintRange_testInt64Range. by rewrite Hn.
  - unfold BigintValuesUsingHashTable_testInt64Range. by rewrite Hn.
  - unfold BigintValuesUsingBitmask_testInt64Range. by rewrite Hn.
  - unfold NegatedBigintValuesUsingHashTable_testInt64Range. by rewrite Hn.
  - unfold NegatedBigintValuesUsingBitmask_testInt64Range. by rewrite Hn.
  - unfold BigintMultiRange_testInt64Range. by rewrite Hn.
Qed.

(** The range test of a well-formed filter fails on no ordered range. *)
Lemma testInt64Range_total wlo whi f min max hasNull :
  window_ok wlo whi -> bigint_wf wlo whi f -> min <= max ->
  exists b, testInt64Range f min max hasNull = Ok b.
Proof.
  intros Hw Hwf Hle. destruct f; simpl in *; try done; try (by eexists).
  - unfold BigintValuesUsingHashTable_testInt64Range.
    destruct (hasNull && _); [by eexists|]. destruct (min =? max); [by eexists|].
    destruct (_ || _) eqn:E; [by eexists|].
    destruct (lower_bound (ht_values f) min) eqn:El.
    + destruct Hwf as (Hs & _ & _ & Hm & _). exfalso.
      eapply lower_bound_nonempty; [done|exact Hm| |exact El]. zbool.
    + destruct (min =? z); by eexists.
  - unfold BigintValuesUsingBitmask_testInt64Range.
    rewrite bm_testInt64_ok by done. repeat case_match; by eexists.
  - destruct Hwf as [Hok Hwin].
    unfold NegatedBigintValuesUsingHashTable_testInt64Range, nht_values in *.
    destruct (hasNull && _); [by eexists|]. destruct (min =? max); [by eexists|].
    destruct (_ || _) eqn:Eb; [by eexists|].
    destruct Hok as (Hs & _ & _ & Hm & _).
    destruct (lower_bound _ min) as [|y k] eqn:El;
      [exfalso; eapply lower_bound_nonempty; [done|exact Hm| |exact El]; zbool|].
    destruct (min =? y) eqn:Ey; cbn [negb]; [|by eexists].
    destruct (lower_bound _ max) as [|z k'] eqn:Eh;
      [exfalso; eapply lower_bound_nonempty; [done|exact Hm| |exact Eh]; zbool|].
    destruct (max =? z) eqn:Ez; cbn [negb]; [|by eexists].
    apply lower_bound_cons in El as (Hy & _), Eh as (Hz & _); try done.
    apply Hwin in Hy, Hz. destruct Hw as (? & ? & ?).
    rewrite ssub64_in by lia. by eexists.
  - unfold NegatedBigintValuesUsingBitmask_testInt64Range,
      NegatedBigintValuesUsingBitmask_testInt64.
    destruct Hwf as [Hok _]. rewrite bm_testInt64_ok by done.
    repeat case_match; by eexists.
Qed.

(** * Filters built from value lists *)

(** What a filter built by a helper must satisfy: it is well formed, has the
    given null flag, accepts exactly the 64-bit integers [p] holds of, and its
    pieces start in [S]. *)
Definition builds (wlo whi : Z) (S : list Z) (r : result Filter) (na : bool)
    (p : Z -> bool) : Prop :=
  exists h, r = Ok h /\ bigint_wf wlo whi h /\ testNull h = na
    /\ (forall x, x ∈ starts h -> x ∈ S)
    /\ forall x, INT64_MIN <= x <= INT64_MAX -> bigint_accepts h x = p x.

Lemma builds_ext wlo whi S r na p q :
  (forall x, INT64_MIN <= x <= INT64_MAX -> p x = q x) ->
  builds wlo whi S r na p -> builds wlo whi S r na q.
Proof.
  intros He (h & ? & ? & ? & ? & Hp). exists h. split_and!; try done.
  intros x Hx. rewrite Hp by done. by apply He.
Qed.

Lemma range_ok_make lower upper na :
  INT64_MIN <= lower <= upper -> upper <= INT64_MAX ->
  range_ok (make_BigintRange lower upper na).
Proof. intros ? ?. unfold range_ok. simpl. done. Qed.

Lemma builds_nullOrFalse wlo whi S na (p : Z -> bool) :
  (forall x, INT64_MIN <= x <= INT64_MAX -> p x = false) ->
  builds wlo whi S (Ok (nullOrFalse na)) na p.
Proof.
  intros Hp. exists (nullOrFalse na).
  split_and!; [done|by destruct na|by destruct na|by destruct na; intros x ?%elem_of_nil|].
  intros x Hx. rewrite Hp by done. by destruct na.
Qed.

Lemma builds_range wlo whi S lower upper na (p : Z -> bool) :
  INT64_MIN <= lower <= upper -> upper <= INT64_MAX -> lower ∈ S ->
  (forall x, INT64_MIN <= x <= INT64_MAX ->
     p x = ((lower <=? x) && (x <=? upper))) ->
  builds wlo whi S (Ok (FBigintRange (make_BigintRange lower upper na))) na p.
Proof.
  intros ? ? HS Hp. eexists. split; [done|].
  split_and!; [by apply range_ok_make|done|by intros x ->%list_elem_of_singleton|].
  intros x Hx. by rewrite Hp.
Qed.

Lemma builds_negated_range wlo whi S lower upper na (p : Z -> bool) :
  INT64_MIN < lower <= upper -> upper < INT64_MAX ->
  (lower = upper -> wlo <= lower <= whi) -> INT64_MIN ∈ S -> upper + 1 ∈ S ->
  (forall x, INT64_MIN <= x <= INT64_MAX ->
     p x = negb ((lower <=? x) && (x <=? upper))) ->
  builds wlo whi S
    (Ok (FNegatedBigintRange (make_NegatedBigintRange lower upper na))) na p.
Proof.
  intros ? ? ? HS HS' Hp. eexists. split; [done|]. split_and!; [done|done| |].
  { by intros x [->| ->%list_elem_of_singleton]%elem_of_cons. }
  intros x Hx. by rewrite Hp.
Qed.

(** Facts about a list of at least two values and its extremes. *)
Lemma min_max_of_values v0 v1 rest min max :
  NoDup (v0 :: v1 :: rest) ->
  min_max_loop v0 v0 (v1 :: rest) = (min, max) ->
  min < max /\ min ∈ (v0 :: v1 :: rest) /\ max ∈ (v0 :: v1 :: rest)
  /\ forall x, x ∈ (v0 :: v1 :: rest) -> min <= x <= max.
Proof.
  intros Hnd E. apply min_max_loop_spec in E as (? & ? & Hm & HM & Hall); [|lia].
  assert (v0 <> v1) by (apply NoDup_cons in Hnd; set_solver).
  pose proof (Hall v1 ltac:(set_solver)).
  split_and!; [lia|set_solver|set_solver|].
  intros x [->|?]%elem_of_cons; [lia|by apply Hall].
Qed.

Lemma createBigintValues_spec wlo whi S values na :
  few S -> NoDup values -> (forall v, v ∈ values -> v ∈ S) ->
  (forall v, v ∈ values -> INT64_MIN <= v < INT64_MAX) ->
  builds wlo whi S (createBigintValues values na) na (fun x => contains x values).
Proof.
  intros HS Hnd Hsub Hin. unfold createBigintValues, createBigintValuesFilter.
  assert (256 * Z.of_nat (length values) <= INT32_MAX) as Hfew
    by (apply (few_length id values S); [done|by rewrite map_id|done]).
  destruct values as [|v0 [|v1 rest]].
  { apply builds_nullOrFalse. done. }
  { pose proof (Hin v0 ltac:(set_solver)). apply builds_range; [lia|lia|apply Hsub; set_solver|].
    intros x _. unfold contains. destruct (decide (x = v0)).
    - rewrite bool_decide_true by set_solver. zbool.
    - rewrite bool_decide_false by set_solver. zbool. }
  rewrite int_loop_ok by lia. cbn [tail rbind].
  destruct (min_max_loop v0 v0 (v1 :: rest)) as [min max] eqn:E.
  apply min_max_of_values in E as (Hlt & Hm & HM & Hall); [|done].
  pose proof (Hin _ Hm). pose proof (Hin _ HM).
  set (values := v0 :: v1 :: rest) in *.
  assert (2 <= length values)%nat as Hlen by (simpl; lia).
  clearbody values. cbv zeta. cbn [negb].
  destruct (negb (negb (in_int64 (max - min)))
            && (max - min + 1 =? Z.of_nat (length values))) eqn:Ec.
  { apply builds_range; [lia|lia|by apply Hsub|]. intros x _. apply eq_iff_eq_true.
    rewrite contains_iff, andb_true_iff, !Z.leb_le. split; [by intros ?%Hall|].
    intros Hx. apply (nodup_full_interval values min max); try done. zbool. }
  destruct (_ && ((max - min <? 32 * 64) || _)) eqn:Eb.
  - apply andb_true_iff in Eb as [_ Er].
    assert (max - min + 1 <= INT32_MAX) as Hw by zbool.
    destruct (make_BigintValuesUsingBitmask_spec min max values na)
      as (f & -> & Hok & Hna & _ & Hv); try done; try lia.
    exists (FBigintValuesUsingBitmask f). split_and!; try done.
    + intros x Hx%Hv. by apply Hsub.
    + intros x _. by apply contains_ext.
  - destruct (make_BigintValuesUsingHashTable_spec min max values na)
      as (f & -> & Hok & Hna & _ & Hv); try done; try lia.
    exists (FBigintValuesUsingHashTable f). split_and!; try done.
    + intros x Hx%Hv. by apply Hsub.
    + intros x _. by apply contains_ext.
Qed.

Lemma createNegatedBigintValues_spec wlo whi S values na :
  window_ok wlo whi -> few S -> NoDup values ->
  INT64_MIN ∈ S -> (forall v, v ∈ values -> Z.succ v ∈ S) ->
  (forall v, v ∈ values -> wlo <= v <= whi) ->
  builds wlo whi S (createNegatedBigintValues values na) na
    (fun x => negb (contains x values)).
Proof.
  intros (Hw1 & Hw2 & Hw3) HS Hnd HSmin Hsub Hin.
  unfold createNegatedBigintValues, createBigintValuesFilter.
  assert (256 * Z.of_nat (length values) <= INT32_MAX) as Hfew.
  { apply (few_length Z.succ values S); [done| |done]. apply NoDup_fmap; [intros ???; lia|done]. }
  destruct values as [|v0 [|v1 rest]].
  { exists (notNullOrTrue na). split_and!; try by destruct na.
    by destruct na; intros x ->%list_elem_of_singleton. }
  { pose proof (Hin v0 ltac:(set_solver)).
    apply builds_negated_range; [lia..|done|apply Hsub; set_solver|].
    intros x _. f_equal. unfold contains. destruct (decide (x = v0)).
    - rewrite bool_decide_true by set_solver. zbool.
    - rewrite bool_decide_false by set_solver. zbool. }
  rewrite int_loop_ok by lia. cbn [tail rbind].
  destruct (min_max_loop v0 v0 (v1 :: rest)) as [min max] eqn:E.
  apply min_max_of_values in E as (Hlt & Hm & HM & Hall); [|done].
  pose proof (Hin _ Hm). pose proof (Hin _ HM).
  set (values := v0 :: v1 :: rest) in *.
  assert (2 <= length values)%nat as Hlen by (simpl; lia).
  clearbody values. cbv zeta. cbn [negb].
  destruct (negb (negb (in_int64 (max - min)))
            && (max - min + 1 =? Z.of_nat (length values))) eqn:Ec.
  { apply builds_negated_range; [lia..|done|by apply Hsub|]. intros x _. f_equal.
    apply eq_iff_eq_true.
    rewrite contains_iff, andb_true_iff, !Z.leb_le. split; [by intros ?%Hall|].
    intros Hx. apply (nodup_full_interval values min max); try done. zbool. }
  destruct (_ && ((max - min <? 32 * 64) || _)) eqn:Eb.
  - assert (max - min + 1 <= INT32_MAX) by zbool.
    unfold make_NegatedBigintValuesUsingBitmask.
    replace (min <=? max) with true by zbool. simpl.
    destruct (make_BigintValuesUsingBitmask_spec min max values (negb na))
      as (f & -> & Hok & Hna & Hmn & Hv); try done; try lia. simpl.
    eexists. split; [reflexivity|]. simpl. unfold nbm_values. simpl.
    split_and!; try done.
    + intros x Hx. apply Hin. by apply Hv.
    + intros x [->|(v & -> & Hx%Hv)%list_elem_of_fmap]%elem_of_cons; [done|by apply Hsub].
    + intros x _. f_equal. by apply contains_ext.
  - unfold make_NegatedBigintValuesUsingHashTable.
    destruct (make_BigintValuesUsingHashTable_spec min max values (negb na))
      as (f & -> & Hok & Hna & Hmn & Hv); try done; try lia.
    eexists. split; [reflexivity|]. simpl. unfold nht_values. simpl.
    split_and!; try done.
    + intros x Hx. apply Hin. by apply Hv.
    + intros x [->|(v & -> & Hx%Hv)%list_elem_of_fmap]%elem_of_cons; [done|by apply Hsub].
    + intros x _. f_equal. by apply contains_ext.
Qed.

(** * Filters built from ranges *)

Lemma make_BigintMultiRange_ok ranges na :
  separated INT64_MIN INT64_MAX ranges -> 2 <= Z.of_nat (length ranges) < INT32_MAX ->
  make_BigintMultiRange ranges na = Ok (mkBigintMultiRange ranges (map br_lower ranges) na).
Proof.
  intros Hs Hl. unfold make_BigintMultiRange. rewrite int_loop_ok by lia.
  rewrite (separated_do_not_overlap _ _ _ Hs).
  replace (Z.of_nat (length ranges) >? 1) with true by zbool.
  destruct ranges; [cbn [length] in Hl; lia|done].
Qed.

Lemma builds_multi_range wlo whi S ranges na :
  separated INT64_MIN INT64_MAX ranges -> 2 <= Z.of_nat (length ranges) < INT32_MAX ->
  (forall r, r ∈ ranges -> br_lower r ∈ S) ->
  builds wlo whi S (rmap FBigintMultiRange (make_BigintMultiRange ranges na)) na
    (fun x => existsb (fun r => in_range r x) ranges).
Proof.
  intros Hs Hl HS. rewrite make_BigintMultiRange_ok by done.
  eexists. split; [reflexivity|]. split_and!; [done|done| |done].
  intros x (r & -> & Hr)%list_elem_of_fmap. by apply HS.
Qed.

Lemma separated_nodup lo hi ranges : separated lo hi ranges -> NoDup (map br_lower ranges).
Proof.
  revert lo. induction ranges as [|r ranges IH]; intros lo; [constructor|].
  intros (Hr & _ & _ & _ & Hs). simpl. constructor; [|by eapply IH].
  intros (r' & Heq & Hr')%list_elem_of_fmap.
  destruct (separated_bounds _ _ _ r' Hs Hr') as (_ & _ & ? & _).
  destruct Hr as (_ & ? & _). lia.
Qed.

Lemma separated_few lo hi ranges S :
  few S -> separated lo hi ranges -> (forall r, r ∈ ranges -> br_lower r ∈ S) ->
  256 * Z.of_nat (length ranges) <= INT32_MAX.
Proof. intros HS Hs. apply (few_length br_lower); [done|by eapply separated_nodup]. Qed.

Lemma combineBigintRanges_spec wlo whi S ranges na :
  few S -> separated INT64_MIN INT64_MAX ranges ->
  (forall r, r ∈ ranges -> br_lower r ∈ S) ->
  builds wlo whi S (combineBigintRanges ranges na) na
    (fun x => existsb (fun r => in_range r x) ranges).
Proof.
  intros HS Hs Hin. pose proof (separated_few _ _ _ _ HS Hs Hin) as Hl.
  destruct ranges as [|r [|r' ranges]].
  - by apply builds_nullOrFalse.
  - destruct Hs as ((? & ? & ?) & _ & ? & ? & _). apply builds_range; [lia|lia|apply Hin; left|].
    intros x _. simpl. by rewrite orb_false_r.
  - apply builds_multi_range; [done| |done]. cbn [length] in *. lia.
Qed.

(** The pieces between rejected values cover what is not rejected. *)
Lemma carve_rejects_spec lower upper start it :
  INT64_MIN <= lower <= start -> upper <= INT64_MAX -> start <= upper + 1 ->
  StronglySorted Z.lt it ->
  (forall x, x ∈ it -> start <= x /\ INT64_MIN < x < INT64_MAX) ->
  exists out start', carve_rejects lower upper start it = Ok (out, start')
    /\ start <= start' <= upper + 1
    /\ separated start (start' - 1) out
    /\ (forall x, start' <= x <= upper -> ~ x ∈ it)
    /\ (forall x, start <= x < start' ->
          existsb (fun r => in_range r x) out = negb (contains x it)).
Proof.
  revert start. induction it as [|reject it IH]; intros start Hlo Hup Hst Hs Hin.
  { exists [], start. simpl. split_and!; try done; try lia.
    intros x _. set_solver. }
  apply StronglySorted_inv in Hs as [Hs Hgt]. rewrite Forall_forall in Hgt.
  destruct (Hin reject) as [Hr1 Hr2]; [left|]. simpl.
  rewrite ssub64_in by lia. simpl.
  replace (start >=? lower) with true by zbool. simpl.
  destruct (reject - 1 <? upper) eqn:E.
  - rewrite sadd64_in by lia. simpl.
    destruct (IH (reject + 1)) as (out & start' & -> & Hb & Hsep & Hno & Hcov);
      [lia|lia|zbool|done| |].
    { intros x Hx. specialize (Hgt x Hx). destruct (Hin x); [by right|]. lia. }
    simpl. eexists _, start'. split; [reflexivity|].
    assert (range_ok (make_BigintRange start (reject - 1) false)
            \/ reject - 1 < start) as Hok.
    { destruct (decide (start <= reject - 1)); [left|right; lia].
      apply range_ok_make; lia. }
    split_and!; try lia.
    + destruct (start <=? reject - 1) eqn:E'; simpl.
      * split_and!; [destruct Hok; [done|zbool]|done|lia|lia|].
        eapply separated_weaken; [| |exact Hsep]; lia.
      * eapply separated_weaken; [| |exact Hsep]; lia.
    + intros x Hx [->|Hx']%elem_of_cons; [lia|]. by apply (Hno x).
    + intros x Hx. rewrite existsb_in_range_app.
      destruct (decide (x <= reject)) as [Hle|Hle].
      * rewrite (separated_outside _ _ _ x Hsep) by lia. rewrite orb_false_r.
        destruct (decide (x = reject)) as [->|Hne].
        -- replace (contains reject (reject :: it)) with true
             by (symmetry; apply contains_iff; left).
           destruct (start <=? reject - 1) eqn:E'; simpl; [|done].
           unfold in_range. simpl. zbool.
        -- replace (contains x (reject :: it)) with false.
           2:{ symmetry. apply contains_iff_false.
               intros [->|Hx']%elem_of_cons; [done|]. specialize (Hgt x Hx'). lia. }
           replace (start <=? reject - 1) with true by zbool. simpl.
           unfold in_range. simpl. zbool.
      * rewrite Hcov by lia.
        replace (contains x (reject :: it)) with (contains x it)
          by (apply contains_ext; rewrite elem_of_cons; naive_solver lia).
        destruct (start <=? reject - 1); simpl; [|done].
        replace (in_range _ x) with false; [done|].
        unfold in_range. simpl. zbool.
  - exists [], start. split; [done|]. split_and!; try done; try lia.
    intros x Hx [->|Hx']%elem_of_cons; [zbool|]. specialize (Hgt x Hx'). zbool.
Qed.

Lemma carve_range_spec rejects range :
  range_ok range -> StronglySorted Z.lt rejects ->
  (forall x, x ∈ rejects -> INT64_MIN < x < INT64_MAX) ->
  exists out, carve_range rejects range = Ok out
    /\ separated (br_lower range) (br_upper range) out
    /\ forall x, existsb (fun r => in_range r x) out
                 = in_range range x && negb (contains x rejects).
Proof.
  intros (_ & Hlo & Hup) Hs Hin. unfold carve_range.
  destruct (carve_rejects_spec (br_lower range) (br_upper range) (br_lower range)
              (lower_bound rejects (br_lower range)))
    as (out & start & -> & Hst & Hsep & Hno & Hcov); [lia|lia|lia| | |].
  { by apply sorted_lower_bound. }
  { intros x Hx%elem_of_lower_bound; [|done]. destruct Hx as [Hx ?].
    specialize (Hin x Hx). lia. }
  simpl. eexists. split; [reflexivity|].
  assert (forall x, br_lower range <= x ->
            contains x (lower_bound rejects (br_lower range))
            = contains x rejects) as Hlb.
  { intros x Hx. apply contains_ext. rewrite elem_of_lower_bound by done. tauto. }
  split.
  - destruct (start <=? br_upper range) eqn:E.
    + replace (start >=? br_lower range) with true by zbool.
      replace (br_upper range <=? br_upper range) with true by zbool. simpl.
      apply (separated_app _ (start - 1)); [lia|lia|done|]. simpl.
      split_and!; try done; try lia. apply range_ok_make; lia.
    + simpl. rewrite app_nil_r. eapply separated_weaken; [| |exact Hsep]; lia.
  - intros x. rewrite existsb_in_range_app.
    destruct (in_range range x) eqn:Er; simpl.
    + apply in_range_iff in Er. rewrite <- Hlb by lia.
      destruct (decide (x < start)).
      * rewrite Hcov by lia.
        destruct ((start <=? br_upper range) && _ && _); simpl; [|by rewrite orb_false_r].
        replace (in_range _ x) with false by (unfold in_range; simpl; zbool).
        by rewrite !orb_false_r.
      * rewrite (separated_outside _ _ _ x Hsep) by lia.
        replace ((start <=? br_upper range) && _ && _) with true by zbool.
        simpl. rewrite orb_false_r.
        replace (in_range _ x) with true by (unfold in_range; simpl; zbool).
        symmetry. apply negb_true_iff, contains_iff_false. apply Hno. lia.
    + apply not_true_iff_false in Er. rewrite in_range_iff in Er.
      rewrite (separated_outside _ _ _ x Hsep) by lia. simpl.
      destruct ((start <=? br_upper range) && _ && _) eqn:E; simpl; [|done].
      unfold in_range. simpl. zbool.
Qed.

(** The pieces start at the start or after a rejected value. *)
Lemma carve_rejects_starts lower upper start it out start' :
  carve_rejects lower upper start it = Ok (out, start') ->
  (forall r, r ∈ out -> br_lower r ∈ start :: map Z.succ it)
  /\ start' ∈ start :: map Z.succ it.
Proof.
  revert start out start'. induction it as [|reject it IH]; intros start out start'; simpl.
  { intros [= <- <-]. set_solver. }
  unfold ssub64, sadd64, ck64. destruct (in_int64 (reject - 1)); simpl; [|done].
  destruct (_ && _); [|intros [= <- <-]; set_solver].
  destruct (in_int64 (reject + 1)); simpl; [|done].
  destruct (carve_rejects lower upper (reject + 1) it) as [[rest start1]|] eqn:E; simpl; [|done].
  intros [= <- <-]. destruct (IH _ _ _ E) as [Hr Hs].
  split; [|by right]. intros r [Hin|Hin]%elem_of_app; [|by right; apply Hr].
  destruct (start <=? reject - 1); set_solver.
Qed.

Lemma carve_range_starts rejects range out :
  carve_range rejects range = Ok out ->
  forall r, r ∈ out -> br_lower r ∈ br_lower range :: map Z.succ rejects.
Proof.
  unfold carve_range.
  destruct (carve_rejects _ _ _ _) as [[pieces start]|] eqn:E; simpl; [|done].
  intros [= <-]. apply carve_rejects_starts in E as [Hp Hs].
  destruct (lower_bound_suffix rejects (br_lower range)) as [pre Hpre].
  assert (forall x, x ∈ br_lower range :: map Z.succ (lower_bound rejects (br_lower range)) ->
            x ∈ br_lower range :: map Z.succ rejects) as Hsub.
  { intros x. rewrite Hpre at 2. rewrite map_app. set_solver. }
  intros r [Hr|Hr]%elem_of_app; [by apply Hsub, Hp|].
  destruct (_ && _ && _); [|by apply elem_of_nil in Hr].
  apply list_elem_of_singleton in Hr as ->. by apply Hsub.
Qed.

Lemma subtract_negated_starts nlo nhi range out :
  subtract_negated nlo nhi range = Ok out ->
  forall r, r ∈ out -> br_lower r ∈ [br_lower range; nhi + 1].
Proof.
  unfold subtract_negated, ssub64, sadd64, ck64.
  destruct (_ || _); [intros [= <-]; set_solver|].
  destruct (br_lower range <? nlo), (nhi <? br_upper range);
    destruct (in_int64 (nlo - 1)), (in_int64 (nhi + 1)); simpl; try done;
    intros [= <-]; set_solver.
Qed.

Lemma map_res_starts (f : BigintRange -> result (list BigintRange)) ranges outs extra :
  (forall r out, f r = Ok out -> forall s, s ∈ out -> br_lower s ∈ br_lower r :: extra) ->
  map_res f ranges = Ok outs ->
  forall s, s ∈ concat outs -> br_lower s ∈ map br_lower ranges ++ extra.
Proof.
  intros Hf. revert outs. induction ranges as [|r ranges IH]; intros outs; simpl.
  { intros [= <-]. intros s ?%elem_of_nil. done. }
  destruct (f r) as [out|] eqn:E; simpl; [|done].
  destruct (map_res f ranges) as [outs'|]; simpl; [|done].
  intros [= <-] s [Hs|Hs]%elem_of_app.
  - specialize (Hf _ _ E _ Hs). set_solver.
  - specialize (IH _ eq_refl _ Hs). set_solver.
Qed.

(** Applying a function that splits each range of an ordered list into ordered
    pieces keeps the order; [keep] says which points survive. *)
Lemma map_res_pieces (f : BigintRange -> result (list BigintRange))
    (keep : Z -> bool) lo hi ranges :
  separated lo hi ranges ->
  (forall r, range_ok r -> r ∈ ranges ->
     exists out, f r = Ok out /\ separated (br_lower r) (br_upper r) out
       /\ forall x, existsb (fun r => in_range r x) out = in_range r x && keep x) ->
  exists outs, map_res f ranges = Ok outs /\ separated lo hi (concat outs)
    /\ forall x, existsb (fun r => in_range r x) (concat outs)
                 = existsb (fun r => in_range r x) ranges && keep x.
Proof.
  revert lo. induction ranges as [|r ranges IH]; intros lo Hs Hf.
  { by exists []. }
  destruct Hs as (Hok & Hna & ? & ? & Hs). simpl.
  destruct (Hf r Hok) as (out & -> & Hsep & Hmem); [left|]. simpl.
  destruct (IH _ Hs) as (outs & -> & Hsep' & Hmem').
  { intros r' ? ?. apply Hf; [done|by right]. }
  simpl. exists (out :: outs). split; [done|]. simpl.
  destruct Hok as (_ & ? & ?). split.
  - apply (separated_app _ (br_upper r)); [lia|lia| |done].
    eapply separated_weaken; [| |exact Hsep]; lia.
  - intros x. rewrite existsb_in_range_app, Hmem, Hmem'. by destruct (in_range r x), (keep x), (existsb _ ranges).
Qed.

Lemma combineRangesAndNegatedValues_spec wlo whi S ranges rejects na :
  few S -> (forall r, r ∈ ranges -> br_lower r ∈ S) ->
  (forall x, x ∈ rejects -> Z.succ x ∈ S) ->
  separated INT64_MIN INT64_MAX ranges -> StronglySorted Z.lt rejects ->
  (forall x, x ∈ rejects -> INT64_MIN < x < INT64_MAX) ->
  builds wlo whi S (combineRangesAndNegatedValues ranges rejects na) na
    (fun x => existsb (fun r => in_range r x) ranges
              && negb (contains x rejects)).
Proof.
  intros HS Hsr Hsv Hsep Hs Hin. unfold combineRangesAndNegatedValues.
  pose proof (separated_few _ _ _ _ HS Hsep Hsr). rewrite int_loop_ok by lia.
  destruct (map_res_pieces (carve_range rejects)
              (fun x => negb (contains x rejects)) _ _ _ Hsep)
    as (outs & E & Hsep' & Hmem).
  { intros r Hr _. by apply carve_range_spec. }
  rewrite E. simpl. eapply builds_ext; [intros x _; apply Hmem|].
  apply combineBigintRanges_spec; [done|done|]. intros r Hr.
  pose proof (map_res_starts _ _ _ _ (carve_range_starts rejects) E r Hr) as Hst.
  apply elem_of_app in Hst as [(r' & -> & ?)%list_elem_of_fmap|(v & -> & ?)%list_elem_of_fmap]; auto.
Qed.

Lemma subtract_negated_spec nlo nhi range :
  INT64_MIN < nlo <= nhi -> nhi < INT64_MAX -> range_ok range ->
  exists out, subtract_negated nlo nhi range = Ok out
    /\ separated (br_lower range) (br_upper range) out
    /\ forall x, existsb (fun r => in_range r x) out
                 = in_range range x && negb ((nlo <=? x) && (x <=? nhi)).
Proof.
  intros Hn Hn' (He & Hlo & Hup). unfold subtract_negated.
  destruct ((nhi <? br_lower range) || (br_upper range <? nlo)) eqn:Eo.
  { eexists. split; [reflexivity|]. split.
    - simpl. split_and!; try done; try lia.
    - intros x. simpl. unfold in_range. simpl. lia. }
  destruct (br_lower range <? nlo) eqn:E1, (nhi <? br_upper range) eqn:E2;
    rewrite ?ssub64_in, ?sadd64_in by zbool; simpl;
    (eexists; split; [reflexivity|]; split;
      [simpl; split_and?; try done; try zbool; apply range_ok_make; zbool
      |intros x; simpl; unfold in_range; simpl; lia]).
Qed.

Lemma combineNegatedRangeOnIntRanges_spec wlo whi S nlo nhi ranges na :
  few S -> (forall r, r ∈ ranges -> br_lower r ∈ S) -> nhi + 1 ∈ S ->
  INT64_MIN < nlo <= nhi -> nhi < INT64_MAX ->
  separated INT64_MIN INT64_MAX ranges ->
  builds wlo whi S (combineNegatedRangeOnIntRanges nlo nhi ranges na) na
    (fun x => existsb (fun r => in_range r x) ranges
              && negb ((nlo <=? x) && (x <=? nhi))).
Proof.
  intros HS Hsr Hsn Hn Hn' Hsep. unfold combineNegatedRangeOnIntRanges.
  pose proof (separated_few _ _ _ _ HS Hsep Hsr). rewrite int_loop_ok by lia.
  destruct (map_res_pieces (subtract_negated nlo nhi)
              (fun x => negb ((nlo <=? x) && (x <=? nhi))) _ _ _ Hsep)
    as (outs & E & Hsep' & Hmem).
  { intros r Hr _. by apply subtract_negated_spec. }
  rewrite E. simpl. eapply builds_ext; [intros x _; apply Hmem|].
  apply combineBigintRanges_spec; [done|done|]. intros r Hr.
  pose proof (map_res_starts _ _ _ [nhi + 1] (subtract_negated_starts nlo nhi) E r Hr) as Hst.
  apply elem_of_app in Hst as [(r' & -> & ?)%list_elem_of_fmap| ->%list_elem_of_singleton]; auto.
Qed.

Lemma gaps_loop_spec back rest :
  INT64_MIN < back < INT64_MAX -> StronglySorted Z.lt (back :: rest) ->
  (forall x, x ∈ rest -> x < INT64_MAX) ->
  exists out, gaps_loop back rest = Ok out
    /\ separated (back + 1) INT64_MAX out
    /\ forall x, back < x <= INT64_MAX ->
         existsb (fun r => in_range r x) out = negb (contains x rest).
Proof.
  revert back. induction rest as [|front rest IH]; intros back Hb Hs Hin; simpl.
  { replace (back <? INT64_MAX) with true by zbool. rewrite sadd64_in by lia.
    simpl. eexists. split; [reflexivity|]. split.
    - simpl. split_and!; try done; try lia. apply range_ok_make; lia.
    - intros x Hx. simpl. unfold in_range. simpl. zbool. }
  apply StronglySorted_inv in Hs as [Hs Hgt]. rewrite Forall_forall in Hgt.
  pose proof (Hgt front ltac:(left)). pose proof (Hin front ltac:(left)).
  rewrite sadd64_in, ssub64_in by lia. simpl.
  destruct (IH front) as (out & -> & Hsep & Hmem); [lia|done| |].
  { intros x Hx. apply Hin. by right. }
  simpl. eexists. split; [reflexivity|]. apply StronglySorted_inv in Hs as [_ Hgt'].
  rewrite Forall_forall in Hgt'. split.
  - destruct (back + 1 <=? front - 1) eqn:E; simpl.
    + split_and!; [apply range_ok_make; zbool|done|lia|lia|].
      eapply separated_weaken; [| |exact Hsep]; lia.
    + eapply separated_weaken; [| |exact Hsep]; lia.
  - intros x Hx. rewrite existsb_in_range_app.
    destruct (decide (x <= front)) as [Hle|Hle].
    + rewrite (separated_outside _ _ _ x Hsep), orb_false_r by lia.
      destruct (decide (x = front)) as [->|Hne].
      * replace (contains front (front :: rest)) with true
          by (symmetry; apply contains_iff; left).
        destruct (back + 1 <=? front - 1); simpl; [|done].
        unfold in_range. simpl. zbool.
      * replace (contains x (front :: rest)) with false.
        2:{ symmetry. apply contains_iff_false.
            intros [->|Hx']%elem_of_cons; [done|]. specialize (Hgt' x Hx'). lia. }
        replace (back + 1 <=? front - 1) with true by zbool. simpl.
        unfold in_range. simpl. zbool.
    + rewrite Hmem by lia.
      replace (contains x (front :: rest)) with (contains x rest)
        by (apply contains_ext; rewrite elem_of_cons; naive_solver lia).
      destruct (back + 1 <=? front - 1); simpl; [|done].
      replace (in_range _ x) with false; [done|].
      unfold in_range. simpl. zbool.
Qed.

Lemma negatedValuesToRanges_spec values :
  values <> [] -> StronglySorted Z.lt values ->
  (forall x, x ∈ values -> INT64_MIN < x < INT64_MAX) ->
  exists out, negatedValuesToRanges values = Ok out
    /\ separated INT64_MIN INT64_MAX out
    /\ forall x, INT64_MIN <= x <= INT64_MAX ->
         existsb (fun r => in_range r x) out = negb (contains x values).
Proof.
  intros Hne Hs Hin. destruct values as [|back rest]; [done|]. simpl.
  pose proof (Hin back ltac:(left)).
  replace (back >? INT64_MIN) with true by zbool. rewrite ssub64_in by lia. simpl.
  destruct (gaps_loop_spec back rest) as (out & -> & Hsep & Hmem); [done|done| |].
  { intros x Hx. apply Hin. by right. }
  simpl. eexists. split; [reflexivity|]. split.
  - simpl. split_and!; [apply range_ok_make; lia|done|lia|lia|].
    eapply separated_weaken; [| |exact Hsep]; lia.
  - apply StronglySorted_inv in Hs as [_ Hgt]. rewrite Forall_forall in Hgt.
    intros x Hx. simpl. destruct (decide (back < x)).
    + rewrite Hmem by lia.
      replace (contains x (back :: rest)) with (contains x rest)
        by (apply contains_ext; rewrite elem_of_cons; naive_solver lia).
      replace (in_range _ x) with false; [done|]. unfold in_range. simpl. zbool.
    + rewrite (separated_outside _ _ _ x Hsep), orb_false_r by lia.
      destruct (decide (x = back)) as [->|Hne'].
      * replace (contains back (back :: rest)) with true
          by (symmetry; apply contains_iff; left).
        unfold in_range. simpl. zbool.
      * replace (contains x (back :: rest)) with false.
        2:{ symmetry. apply contains_iff_false.
            intros [->|Hx']%elem_of_cons; [done|]. specialize (Hgt x Hx'). lia. }
        unfold in_range. simpl. zbool.
Qed.

Lemma gaps_loop_starts back rest out :
  gaps_loop back rest = Ok out -> forall r, r ∈ out -> br_lower r ∈ map Z.succ (back :: rest).
Proof.
  revert back out. induction rest as [|front rest IH]; intros back out; simpl;
    unfold sadd64, ssub64, ck64.
  { destruct (back <? INT64_MAX); [|intros [= <-]; set_solver].
    destruct (in_int64 (back + 1)); simpl; [|done]. intros [= <-]. set_solver. }
  destruct (in_int64 (back + 1)); simpl; [|done].
  destruct (in_int64 (front - 1)); simpl; [|done].
  destruct (gaps_loop front rest) as [tail|] eqn:E; simpl; [|done].
  intros [= <-] r [Hr|Hr]%elem_of_app.
  - destruct (_ <=? _); set_solver.
  - right. by apply (IH _ _ E).
Qed.

Lemma negatedValuesToRanges_starts values out :
  negatedValuesToRanges values = Ok out ->
  forall r, r ∈ out -> br_lower r ∈ INT64_MIN :: map Z.succ values.
Proof.
  destruct values as [|back rest]; simpl; [done|]. unfold ssub64, ck64.
  destruct (gaps_loop back rest) as [tail|] eqn:E;
    (destruct (back >? INT64_MIN); [destruct (in_int64 (back - 1))|]; simpl; try done).
  - intros [= <-] r [->|Hr]%elem_of_cons; [left|right; by apply (gaps_loop_starts _ _ _ E)].
  - intros [= <-] r Hr. right. by apply (gaps_loop_starts _ _ _ E).
Qed.

(** * Merging lists of rejected values *)

Lemma merge_rejected_elem l k x :
  x ∈ merge_rejected l k <-> x ∈ l \/ x ∈ k.
Proof.
  revert k. induction l as [|a l IHl]; intros k; [destruct k; set_solver|].
  induction k as [|b k IHk]; simpl; [set_solver|].
  destruct (Z.min a b =? a) eqn:E1; [destruct (Z.min a b =? b) eqn:E2|].
  - replace (Z.min a b) with a by lia. assert (a = b) as -> by lia.
    rewrite elem_of_cons, IHl. set_solver.
  - replace (Z.min a b) with a by lia. rewrite elem_of_cons, IHl. set_solver.
  - replace (Z.min a b) with b by lia. simpl in IHk.
    rewrite elem_of_cons, IHk. set_solver.
Qed.

Lemma merge_rejected_sorted l k :
  StronglySorted Z.lt l -> StronglySorted Z.lt k ->
  StronglySorted Z.lt (merge_rejected l k).
Proof.
  intros Hl. revert k. induction Hl as [|a l Hl IHl Ha]; intros k Hk.
  { by destruct k. }
  rewrite Forall_forall in Ha.
  induction Hk as [|b k Hk IHk Hb]; simpl.
  { constructor; [done|by apply Forall_forall]. }
  rewrite Forall_forall in Hb.
  destruct (Z.min a b =? a) eqn:E1; [destruct (Z.min a b =? b) eqn:E2|].
  - constructor; [by apply IHl|]. apply Forall_forall. intros x Hx.
    apply merge_rejected_elem in Hx as [Hx|Hx];
      [specialize (Ha x Hx)|specialize (Hb x Hx)]; lia.
  - constructor; [apply IHl; constructor; [done|by apply Forall_forall]|].
    apply Forall_forall. intros x Hx.
    apply merge_rejected_elem in Hx as [Hx|[->|Hx]%elem_of_cons];
      [specialize (Ha x Hx)| |specialize (Hb x Hx)]; lia.
  - constructor; [exact IHk|]. apply Forall_forall. intros x Hx.
    change (x ∈ merge_rejected (a :: l) k) in Hx.
    apply merge_rejected_elem in Hx as [[->|Hx]%elem_of_cons|Hx];
      [|specialize (Ha x Hx)|specialize (Hb x Hx)]; lia.
Qed.

Lemma combineNegatedBigintLists_spec wlo whi S first second na :
  window_ok wlo whi -> few S -> INT64_MIN ∈ S ->
  (forall x, x ∈ first -> Z.succ x ∈ S) -> (forall x, x ∈ second -> Z.succ x ∈ S) ->
  StronglySorted Z.lt first -> StronglySorted Z.lt second ->
  (forall x, x ∈ first -> wlo <= x <= whi) ->
  (forall x, x ∈ second -> wlo <= x <= whi) ->
  builds wlo whi S (combineNegatedBigintLists first second na) na
    (fun x => negb (contains x first) && negb (contains x second)).
Proof.
  intros Hw HS HSmin Hsub1 Hsub2 Hs1 Hs2 Hin1 Hin2. unfold combineNegatedBigintLists.
  eapply builds_ext; [|apply createNegatedBigintValues_spec; [done|done| |done| |]].
  - intros x _. cbv beta. rewrite <- negb_orb. f_equal. apply eq_iff_eq_true.
    rewrite orb_true_iff, !contains_iff. apply merge_rejected_elem.
  - apply sorted_lt_nodup. by apply merge_rejected_sorted.
  - intros x [?|?]%merge_rejected_elem; auto.
  - intros x [?|?]%merge_rejected_elem; auto.
Qed.

(** * IN-lists restricted by another filter *)

Lemma elem_of_List_filter {A} (p : A -> bool) l x :
  x ∈ List.filter p l <-> x ∈ l /\ p x = true.
Proof. rewrite !list_elem_of_In, filter_In. done. Qed.

Lemma NoDup_List_filter {A} (p : A -> bool) l :
  NoDup l -> NoDup (List.filter p l).
Proof. rewrite !NoDup_ListNoDup. apply List.NoDup_filter. Qed.

Lemma keep_values_spec wlo whi S l p na :
  few S -> NoDup l -> (forall x, x ∈ l -> x ∈ S) ->
  (forall v, v ∈ l -> INT64_MIN <= v < INT64_MAX) ->
  builds wlo whi S (createBigintValues (List.filter p l) na) na
    (fun x => contains x l && p x).
Proof.
  intros HS Hnd Hsub Hin.
  assert (NoDup (List.filter p l)) by by apply NoDup_List_filter.
  eapply builds_ext; [|apply createBigintValues_spec; [done|done| |]].
  - intros x _. cbv beta. apply eq_iff_eq_true.
    rewrite andb_true_iff, !contains_iff. apply elem_of_List_filter.
  - intros x [? _]%elem_of_List_filter. auto.
  - intros v [? _]%elem_of_List_filter. auto.
Qed.

Lemma loop_upto_ok min max :
  max < INT64_MAX -> loop_upto min max = Ok (seqZ min (max - min + 1)).
Proof.
  intros. unfold loop_upto.
  by replace ((min <=? max) && (max =? INT64_MAX)) with false by zbool.
Qed.

Lemma elem_of_loop min max x : x ∈ seqZ min (max - min + 1) <-> min <= x <= max.
Proof. rewrite elem_of_seqZ. lia. Qed.

(** The loop over the bits of [min, max] that keeps what [q] accepts. *)
Lemma bitmask_loop f test q min max :
  bm_ok f -> bm_min f <= min -> max <= bm_max f ->
  (forall x, test x = Ok (q x)) ->
  filter_res (bitmask_and f test) (seqZ min (max - min + 1))
  = Ok (List.filter (fun x => contains x (bm_values f) && q x)
          (seqZ min (max - min + 1))).
Proof.
  intros Hok Hmin Hmax Ht. apply filter_res_pure.
  intros x Hx%elem_of_loop. unfold bitmask_and.
  rewrite bitmask_at_ok by (done || lia). simpl.
  destruct (contains x (bm_values f)); simpl; [apply Ht|done].
Qed.

Lemma bm_values_int64 f x :
  bm_ok f -> x ∈ bm_values f -> INT64_MIN <= x < INT64_MAX.
Proof.
  intros Hok Hx. apply bm_values_bounds in Hx; [|done].
  destruct Hok as (? & ? & _). lia.
Qed.

Lemma ht_values_int64 f x :
  ht_ok f -> x ∈ ht_values f -> INT64_MIN <= x < INT64_MAX.
Proof. intros (_ & _ & Hb & _ & ? & ?) Hx%Hb. lia. Qed.

(** The values of the bits of a range in which the filter accepts. *)
Lemma bitmask_keep_spec wlo whi S f q min max na (p : Z -> bool) :
  few S -> (forall x, x ∈ bm_values f -> x ∈ S) -> bm_ok f -> bm_min f <= min -> max <= bm_max f ->
  (forall x, x ∈ bm_values f -> q x = true -> min <= x <= max) ->
  (forall x, INT64_MIN <= x <= INT64_MAX ->
     p x = contains x (bm_values f) && q x) ->
  builds wlo whi S
    (createBigintValues
       (List.filter (fun x => contains x (bm_values f) && q x)
          (seqZ min (max - min + 1))) na) na p.
Proof.
  intros HS Hsub Hok Hmin Hmax Hin Hp.
  set (kept := List.filter _ _).
  assert (forall x, x ∈ kept <-> x ∈ bm_values f /\ q x = true) as Hk.
  { intros x. unfold kept.
    rewrite elem_of_List_filter, elem_of_loop, andb_true_iff, contains_iff.
    naive_solver. }
  assert (NoDup kept) by (apply NoDup_List_filter, NoDup_seqZ).
  eapply builds_ext; [|apply createBigintValues_spec; [done|done| |]].
  - intros x Hx. cbv beta. rewrite Hp by done. apply eq_iff_eq_true.
    rewrite andb_true_iff, !contains_iff. apply Hk.
  - intros x [? _]%Hk. by apply Hsub.
  - intros v [? _]%Hk. by eapply bm_values_int64.
Qed.

(** * Properties of the value and range tests *)

(** The lanes of the vectorised tests of a range agree with [testInt64]:
    on a batch of 64-bit integers always, and on batches of 32-bit and 16-bit
    integers for every value of the narrow type, although the bounds kept for
    these batches are clamped and narrowed. *)
Theorem BigintRange_testValues_lanes r x :
  range_ok r ->
  BigintRange_testValues64 r x = BigintRange_testInt64 r x
  /\ (INT32_MIN <= x <= INT32_MAX ->
      BigintRange_testValues32 r x = BigintRange_testInt64 r x)
  /\ (INT16_MIN <= x <= INT16_MAX ->
      BigintRange_testValues16 r x = BigintRange_testInt64 r x).
Proof.
  intros (-> & ? & ?). revert H H0.
  generalize (br_lower r), (br_upper r), (br_nullAllowed r).
  intros lower upper na Hl Hu.
  unfold BigintRange_testValues64, BigintRange_testValues32,
    BigintRange_testValues16, BigintRange_testInt64. simpl. split_and!.
  - destruct (upper =? lower) eqn:E; zbool.
  - intros Hx. destruct (_ && _) eqn:E; simpl; [|zbool].
    rewrite (wrap_signed_id 32 (Z.max _ _)), (wrap_signed_id 32 (Z.min _ _)) by lia.
    destruct (upper =? lower) eqn:E'; [|zbool].
    destruct (Z.max lower INT32_MIN =? lower) eqn:E''; simpl; [|zbool].
    rewrite wrap_signed_id by lia. zbool.
  - intros Hx. destruct (_ && _) eqn:E; simpl; [|zbool].
    rewrite (wrap_signed_id 16 (Z.max _ _)), (wrap_signed_id 16 (Z.min _ _)) by lia.
    destruct (upper =? lower) eqn:E'; [|zbool].
    destruct (Z.max lower INT16_MIN =? lower) eqn:E''; simpl; [|zbool].
    rewrite wrap_signed_id by lia. zbool.
Qed.

Lemma BigintRange_testValues_lanes_witness :
  let r := make_BigintRange (-5) 4294967296 false in
  BigintRange_testValues64 r 7 = BigintRange_testInt64 r 7
  /\ (INT32_MIN <= 7 <= INT32_MAX ->
      BigintRange_testValues32 r 7 = BigintRange_testInt64 r 7)
  /\ (INT16_MIN <= 7 <= INT16_MAX ->
      BigintRange_testValues16 r 7 = BigintRange_testInt64 r 7).
Proof.
  apply BigintRange_testValues_lanes. unfold range_ok. simpl.
  split; [reflexivity|lia].
Defined.

(** C15. The value test of a well-formed filter on 64-bit integers is total
    and computes the reference semantics: the bitmask, the hash table and the
    binary search over the ranges agree with membership.  Well formed are
    AlwaysTrue, AlwaysFalse, IsNull, IsNotNull, ranges, IN-lists with values
    below [INT64_MAX] (hash table or bitmask), fewer than [INT32_MAX] ordered
    ranges without a common point, and their negations inside of a window that
    excludes the two extreme integers ([bigint_wf]); BoolValue, which tests
    integers too, is left out. *)
Theorem testInt64_reference wlo whi f x :
  bigint_wf wlo whi f -> testInt64 f x = Ok (bigint_accepts f x).
Proof. apply testInt64_ok. Qed.

(** Sample filters, used to evaluate the theorems. *)
Definition sample_multi_range : BigintMultiRange := {|
  mr_ranges := [make_BigintRange 0 10 false; make_BigintRange 20 30 false;
                make_BigintRange 31 50 false];
  mr_lowerBounds := [0; 20; 31];
  mr_nullAllowed := true
|}.

Definition sample_hash_table : BigintValuesUsingHashTable := {|
  ht_min := 5;
  ht_max := 100000;
  ht_hashTable := [100000; 25; 5];
  ht_values := [5; 25; 100000];
  ht_nullAllowed := true
|}.

Lemma sample_multi_range_ok : mr_ok sample_multi_range.
Proof.
  unfold mr_ok. simpl. unfold range_ok. simpl.
  split_and!; first [reflexivity|lia|exact I].
Qed.

Lemma sample_hash_table_ok : ht_ok sample_hash_table.
Proof.
  unfold ht_ok. simpl. split_and!; try lia; try set_solver.
  - repeat constructor; simpl; lia.
  - intros x. rewrite !elem_of_cons, elem_of_nil. lia.
Qed.

Lemma testInt64_reference_witness :
  testInt64 (FBigintMultiRange sample_multi_range) 25
  = Ok (bigint_accepts (FBigintMultiRange sample_multi_range) 25).
Proof.
  apply (testInt64_reference 0 100). exact sample_multi_range_ok.
Defined.

(** C13. The range test used to skip data is total on ranges [min <= max] and
    sound: when it answers false, no integer of the range passes the filter
    and, if the range has nulls, null does not pass either.  This holds of the
    well-formed filters ([bigint_wf]): those of C15, where the rejected values
    of a NOT IN-list lie in a window [wlo, whi] strictly between the two
    extreme integers whose width is a 64-bit integer; the subtraction of the
    test overflows without the window. *)
Theorem testInt64Range_sound wlo whi f min max hasNull :
  window_ok wlo whi -> bigint_wf wlo whi f -> min <= max ->
  exists b, testInt64Range f min max hasNull = Ok b
    /\ (b = false ->
        (forall x, min <= x <= max -> testInt64 f x = Ok false)
        /\ (hasNull = true -> testNull f = false)).
Proof.
  intros Hw Hwf Hle.
  destruct (testInt64Range_total _ _ f min max hasNull Hw Hwf Hle) as [b Hb].
  exists b. split; [done|]. intros ->. split.
  - intros x Hx. rewrite (testInt64_ok _ _ _ _ Hwf). f_equal.
    apply not_true_iff_false. intros Ha.
    rewrite (testInt64Range_value_sound _ _ f _ _ x hasNull Hw Hwf Hx Ha) in Hb. done.
  - intros ->. apply not_true_iff_false. intros Hn.
    rewrite (testInt64Range_null_sound _ _ f _ _ Hwf Hn) in Hb. done.
Qed.

Lemma testInt64Range_sound_witness :
  exists b, testInt64Range (FBigintMultiRange sample_multi_range) 11 19 false = Ok b
    /\ (b = false ->
        (forall x, 11 <= x <= 19 ->
           testInt64 (FBigintMultiRange sample_multi_range) x = Ok false)
        /\ (false = true -> testNull (FBigintMultiRange sample_multi_range) = false)).
Proof.
  apply (testInt64Range_sound 0 100).
  - unfold window_ok. lia.
  - exact sample_multi_range_ok.
  - lia.
Defined.

(** The filter that [createBigintValues] picks for an IN-list of less than
    [2 ^ 23] values (a single value, a range, a bitmask or a hash table, by the
    number of values and their span) accepts exactly the listed values. *)
Theorem createBigintValues_accepts values na :
  few values -> NoDup values ->
  (forall v, v ∈ values -> INT64_MIN <= v < INT64_MAX) ->
  exists h, createBigintValues values na = Ok h /\ testNull h = na
    /\ forall x, INT64_MIN <= x <= INT64_MAX ->
         testInt64 h x = Ok (contains x values).
Proof.
  intros Hfew Hnd Hin.
  destruct (createBigintValues_spec 0 0 values values na Hfew Hnd ltac:(done) Hin)
    as (h & ? & Hwf & ? & _ & Hacc).
  exists h. split_and!; try done. intros x Hx.
  by rewrite (testInt64_ok _ _ _ _ Hwf), Hacc.
Qed.

Lemma createBigintValues_accepts_witness :
  exists h, createBigintValues [7; -3; 1000000; 9] true = Ok h /\ testNull h = true
    /\ forall x, INT64_MIN <= x <= INT64_MAX ->
         testInt64 h x = Ok (contains x [7; -3; 1000000; 9]).
Proof.
  apply createBigintValues_accepts.
  - unfold few. simpl. lia.
  - apply (bool_decide_unpack _). vm_compute. exact I.
  - intros v. rewrite !elem_of_cons, elem_of_nil. lia.
Defined.

(** The filter that [createNegatedBigintValues] picks for a NOT IN-list of
    less than [2 ^ 23 - 1] values accepts exactly the other 64-bit integers. *)
Theorem createNegatedBigintValues_accepts wlo whi values na :
  window_ok wlo whi -> few (INT64_MIN :: values) -> NoDup values ->
  (forall v, v ∈ values -> wlo <= v <= whi) ->
  exists h, createNegatedBigintValues values na = Ok h /\ testNull h = na
    /\ forall x, INT64_MIN <= x <= INT64_MAX ->
         testInt64 h x = Ok (negb (contains x values)).
Proof.
  intros Hw Hfew Hnd Hin.
  destruct (createNegatedBigintValues_spec wlo whi (INT64_MIN :: map Z.succ values) values na Hw)
    as (h & ? & Hwf & ? & _ & Hacc); [|done|left| |done|].
  { unfold few in *. simpl in *. by rewrite length_map. }
  { intros v Hv. right. by apply list_elem_of_fmap_2. }
  exists h. split_and!; try done. intros x Hx.
  by rewrite (testInt64_ok _ _ _ _ Hwf), Hacc.
Qed.

Lemma createNegatedBigintValues_accepts_witness :
  exists h, createNegatedBigintValues [7; -3; 1000000; 9] true = Ok h
    /\ testNull h = true
    /\ forall x, INT64_MIN <= x <= INT64_MAX ->
         testInt64 h x = Ok (negb (contains x [7; -3; 1000000; 9])).
Proof.
  apply (createNegatedBigintValues_accepts (-10) 2000000).
  - unfold window_ok. lia.
  - unfold few. simpl. lia.
  - apply (bool_decide_unpack _). vm_compute. exact I.
  - intros v. rewrite !elem_of_cons, elem_of_nil. lia.
Defined.
