(* ===== verification/FilterBigintMerge.v ===== *)
(** [mergeWith] of the filters on 64-bit integers: it is total on the
    well-formed filters and the filter it builds accepts exactly the
    conjunction, for null and for every 64-bit integer. *)

From S2P Require Import Prelude StringView Timestamp FilterTypes FilterMerge FilterBigint.

Section bigint_merge.
Context `{ops : !F14Ops, laws : !F14Laws ops}.
Context (wlo whi : Z) (Hw : window_ok wlo whi).

(** [r] is a filter for [f AND g], when they have few values and ranges; its
    pieces start where pieces of [f] or [g] start. *)
Definition merges (f g : Filter) (r : result Filter) : Prop :=
  few (starts f ++ starts g) ->
  builds wlo whi (starts f ++ starts g) r (testNull f && testNull g)
    (fun x => bigint_accepts f x && bigint_accepts g x).

Lemma merges_sym f g r : merges f g r -> merges g f r.
Proof.
  intros H Hfew. destruct H as (h & ? & ? & Hn & Hs & Hp).
  { unfold few in *. rewrite length_app in *. lia. }
  exists h. split_and!; try done.
  - by rewrite Hn, andb_comm.
  - intros x Hx%Hs. apply elem_of_app in Hx. apply elem_of_app. tauto.
  - intros x Hx. by rewrite Hp, andb_comm.
Qed.

Lemma window_values (l : list Z) :
  (forall x, x ∈ l -> wlo <= x <= whi) ->
  forall x, x ∈ l -> INT64_MIN < x < INT64_MAX.
Proof. intros Hin x Hx. specialize (Hin x Hx). destruct Hw as (? & ? & _). lia. Qed.

Lemma ht_values_sorted f : ht_ok f -> StronglySorted Z.lt (ht_values f).
Proof. by intros (? & _). Qed.

Lemma ht_values_nonempty f : ht_ok f -> ht_values f <> [].
Proof. intros (_ & _ & _ & Hm & _) He. rewrite He in Hm. set_solver. Qed.

Lemma bm_values_nonempty f : bm_ok f -> bm_values f <> [].
Proof. by intros (_ & _ & _ & _ & _ & ?). Qed.

(** The rejected values of the two NOT IN-lists. *)
Definition rejected (f : Filter) : list Z :=
  match f with
  | FNegatedBigintValuesUsingHashTable f => nht_values f
  | FNegatedBigintValuesUsingBitmask f => nbm_values f
  | _ => []
  end.

Definition is_not_in (f : Filter) : bool :=
  match f with
  | FNegatedBigintValuesUsingHashTable _
  | FNegatedBigintValuesUsingBitmask _ => true
  | _ => false
  end.

Lemma not_in_facts f :
  bigint_wf wlo whi f -> is_not_in f = true ->
  StronglySorted Z.lt (rejected f) /\ rejected f <> []
  /\ (forall x, x ∈ rejected f -> wlo <= x <= whi)
  /\ (forall x, bigint_accepts f x = negb (contains x (rejected f)))
  /\ starts f = INT64_MIN :: map Z.succ (rejected f).
Proof.
  destruct f as [| | | | | | | | | |v|v| | | | | | | | | | |]; simpl; try done;
    intros [Hok Hin] _; unfold nht_values, nbm_values in *; split_and!; try done.
  - by apply ht_values_sorted.
  - by apply ht_values_nonempty.
  - by apply bm_values_sorted.
  - by apply bm_values_nonempty.
Qed.

(** ** Receivers that need no other class *)

Lemma builds_self f S :
  bigint_wf wlo whi f -> (forall x, x ∈ starts f -> x ∈ S) ->
  builds wlo whi S (Ok f) (testNull f) (bigint_accepts f).
Proof. intros Hf HS. exists f. by split_and!. Qed.

Lemma clone_spec f S :
  bigint_wf wlo whi f -> (forall x, x ∈ starts f -> x ∈ S) ->
  builds wlo whi S (clone f None) (testNull f) (bigint_accepts f).
Proof.
  destruct f; simpl; try done; intros Hwf HS; try (by eexists).
  - destruct Hwf as (He & ? & ? & ?). eexists. by split_and!.
  - destruct Hwf as (? & ? & ?). apply builds_multi_range; [done|done|].
    intros r Hr. by apply HS, list_elem_of_fmap_2.
Qed.

Lemma trivial_receiver_spec f :
  bigint_wf wlo whi f ->
  merges FAlwaysFalse f (AlwaysFalse_mergeWith f)
  /\ merges FAlwaysTrue f (AlwaysTrue_mergeWith f)
  /\ merges FIsNull f (IsNull_mergeWith f).
Proof.
  intros Hf. split_and!; intros _; simpl.
  - by apply (builds_nullOrFalse _ _ _ false).
  - apply clone_spec; [done|]. intros x Hx. by right.
  - unfold IsNull_mergeWith. destruct (testNull f);
      [by apply (builds_nullOrFalse _ _ _ true)|by apply (builds_nullOrFalse _ _ _ false)].
Qed.

(** ** BigintRange *)

Lemma range_separated r :
  range_ok r ->
  separated INT64_MIN INT64_MAX [make_BigintRange (br_lower r) (br_upper r) false].
Proof.
  intros (_ & ? & ?). simpl. split_and!; done || lia.
Qed.

Lemma range_range_spec rec r s :
  range_ok r -> range_ok s ->
  merges (FBigintRange r) (FBigintRange s)
    (BigintRange_mergeWith rec r (FBigintRange s)).
Proof.
  intros (_ & ? & ?) (_ & ? & ?) _. simpl.
  destruct (_ <=? _) eqn:E.
  - apply builds_range; [lia|lia| |intros x _; unfold in_range; zbool].
    destruct (Z.max_spec (br_lower r) (br_lower s)) as [[_ ->]|[_ ->]]; set_solver.
  - apply builds_nullOrFalse. intros x _. unfold in_range. zbool.
Qed.

Lemma range_not_in_spec rec r g :
  range_ok r -> bigint_wf wlo whi g -> is_not_in g = true ->
  merges (FBigintRange r) g (BigintRange_mergeWith rec r g).
Proof.
  intros Hr Hg Hn Hfew. destruct (not_in_facts g Hg Hn) as (Hs & _ & Hin & Hacc & Hst).
  assert (BigintRange_mergeWith rec r g
    = let! mayPass := testInt64Range g (br_lower r) (br_upper r) false in
      if negb mayPass then Ok (nullOrFalse (br_nullAllowed r && testNull g))
      else combineRangesAndNegatedValues
             [make_BigintRange (br_lower r) (br_upper r) false]
             (rejected g) (br_nullAllowed r && testNull g)) as ->
    by by destruct g.
  destruct (testInt64Range_total _ _ g (br_lower r) (br_upper r) false Hw Hg)
    as [[|] Ht]; [destruct Hr as (_ & ? & ?); lia|rewrite Ht; simpl..].
  - eapply builds_ext; [|apply combineRangesAndNegatedValues_spec;
      [done| | |by apply range_separated|done|by apply window_values]].
    + intros x _. simpl. rewrite orb_false_r, Hacc. done.
    + intros s ->%list_elem_of_singleton. left.
    + intros x Hx. rewrite Hst. right. right. by apply list_elem_of_fmap_2.
  - apply builds_nullOrFalse. intros x _. apply not_true_iff_false. simpl.
    rewrite andb_true_iff, in_range_iff. intros [Hx Ha].
    rewrite (testInt64Range_value_sound _ _ g _ _ x false Hw Hg Hx Ha) in Ht. done.
Qed.

(** ** NegatedBigintRange *)

Definition nbr_ok (n : NegatedBigintRange) : Prop :=
  bigint_wf wlo whi (FNegatedBigintRange n).

Lemma nbr_isSingleValue n :
  nbr_ok n ->
  br_isSingleValue (nbr_nonNegated n) = (nbr_lower n =? nbr_upper n).
Proof. intros (He & _). rewrite He at 1. simpl. apply Z.eqb_sym. Qed.

Lemma negated_ranges_spec n ranges na g :
  nbr_ok n -> separated INT64_MIN INT64_MAX ranges ->
  (forall r, r ∈ ranges -> br_lower r ∈ starts g) ->
  na = nbr_nullAllowed n && testNull g ->
  (forall x, INT64_MIN <= x <= INT64_MAX ->
     bigint_accepts g x = existsb (fun r => in_range r x) ranges) ->
  merges (FNegatedBigintRange n) g
    (combineNegatedRangeOnIntRanges (nbr_lower n) (nbr_upper n) ranges na).
Proof.
  intros (_ & ? & ? & _) Hs Hst -> Hg Hfew.
  eapply builds_ext; [|apply combineNegatedRangeOnIntRanges_spec; [done| | |done|done|done]].
  - intros x Hx. cbv beta. by rewrite Hg, andb_comm.
  - intros r Hr%Hst. apply elem_of_app. by right.
  - right. left.
Qed.

Lemma negated_range_spec rec n r :
  nbr_ok n -> range_ok r ->
  merges (FNegatedBigintRange n) (FBigintRange r)
    (NegatedBigintRange_mergeWith rec n (FBigintRange r)).
Proof.
  intros Hn Hr. apply negated_ranges_spec; [done|by apply range_separated| |done|].
  - intros s ->%list_elem_of_singleton. left.
  - intros x _. simpl. by rewrite orb_false_r.
Qed.

Lemma negated_multi_spec rec n m :
  nbr_ok n -> mr_ok m ->
  merges (FNegatedBigintRange n) (FBigintMultiRange m)
    (NegatedBigintRange_mergeWith rec n (FBigintMultiRange m)).
Proof.
  intros Hn [Hs _]. apply negated_ranges_spec; [done|done| |done|done].
  intros r Hr. by apply list_elem_of_fmap_2.
Qed.

Lemma negated_negated_spec rec n k :
  nbr_ok n -> nbr_ok k -> nbr_lower n <= nbr_lower k ->
  merges (FNegatedBigintRange n) (FNegatedBigintRange k)
    (NegatedBigintRange_mergeWith rec n (FNegatedBigintRange k)).
Proof.
  intros (_ & ? & ? & Hwn) (_ & ? & ? & Hwk) Hle Hfew. simpl.
  replace (nbr_lower n >? nbr_lower k) with false by zbool.
  rewrite sadd64_in by lia. cbn [rbind]. destruct (_ <? _) eqn:E.
  - replace (nbr_lower n >? INT64_MIN) with true by zbool.
    replace ((nbr_upper n <? INT64_MAX) && (nbr_lower k >? INT64_MIN))
      with true by zbool.
    replace (nbr_upper k <? INT64_MAX) with true by zbool.
    rewrite !ssub64_in by lia. cbn [rbind]. rewrite sadd64_in by lia.
    cbn [rbind app].
    eapply builds_ext; [|apply combineBigintRanges_spec; [exact Hfew| |]].
    + intros x Hx. simpl. unfold in_range, nbr_lower, nbr_upper in *. simpl. zbool.
    + simpl. unfold range_ok. simpl. split_and!; done || lia.
    + intros r. rewrite !elem_of_cons, elem_of_nil.
      intros [->|[->|[->|[]]]]; simpl; set_solver.
  - apply builds_negated_range; [lia|lia|lia|left| |].
    { destruct (Z.max_spec (nbr_upper n) (nbr_upper k)) as [[_ ->]|[_ ->]]; set_solver. }
    intros x _. unfold in_range, nbr_lower, nbr_upper in *. zbool.
Qed.

Lemma negated_not_in_spec rec n g :
  nbr_ok n -> bigint_wf wlo whi g -> is_not_in g = true ->
  merges (FNegatedBigintRange n) g (NegatedBigintRange_mergeWith rec n g).
Proof.
  intros Hn Hg Hi Hfew. destruct (not_in_facts g Hg Hi) as (Hs & Hne & Hin & Hacc & Hst).
  assert (NegatedBigintRange_mergeWith rec n g
    = if br_isSingleValue (nbr_nonNegated n) then
        let! passes := testInt64 g (nbr_lower n) in
        createNegatedBigintValues
          (if passes : bool then rejected g ++ [nbr_lower n] else rejected g)
          (nbr_nullAllowed n && testNull g)
      else
        let! ranges := negatedValuesToRanges (rejected g) in
        combineNegatedRangeOnIntRanges (nbr_lower n) (nbr_upper n)
          ranges (nbr_nullAllowed n && testNull g)) as -> by by destruct g.
  rewrite nbr_isSingleValue by done. destruct (_ =? _) eqn:E.
  - rewrite (testInt64_ok wlo whi) by done. cbn [rbind]. rewrite Hacc.
    pose proof Hn as (_ & ? & ? & Hwn).
    eapply builds_ext; [|apply createNegatedBigintValues_spec; [done|done| |left| |]].
    + intros x _. cbv beta. rewrite Hacc. simpl. rewrite <- negb_orb. f_equal.
      apply eq_iff_eq_true. rewrite orb_true_iff, in_range_iff, !contains_iff.
      unfold nbr_lower, nbr_upper in *. destruct (contains _ _) eqn:Ec; simpl.
      * apply contains_iff in Ec. split; [auto|]. intros [?|?]; [|done].
        by replace x with (br_lower (nbr_nonNegated n)) by lia.
      * rewrite elem_of_app, list_elem_of_singleton. split; [|intros [|]]; lia || auto.
        intros [?| ->]; [auto|left; lia].
    + destruct (contains _ _) eqn:Ec; simpl; [by apply sorted_lt_nodup|].
      apply contains_iff_false in Ec. apply NoDup_app. split_and!.
      * by apply sorted_lt_nodup.
      * set_solver.
      * apply NoDup_singleton.
    + intros x Hx. assert (x ∈ rejected g \/ x = nbr_lower n) as [Hr| ->]
        by (destruct (contains _ _); set_solver).
      * rewrite Hst. apply elem_of_app. right. right. by apply list_elem_of_fmap_2.
      * replace (Z.succ (nbr_lower n)) with (nbr_upper n + 1) by lia. right. left.
    + intros x. destruct (contains _ _); simpl; [apply Hin|].
      rewrite elem_of_app, list_elem_of_singleton.
      intros [?| ->]; [by apply Hin|]. apply Hwn. lia.
  - destruct (negatedValuesToRanges_spec (rejected g)) as (out & Eout & Ho & Hout);
      [done|done|by apply window_values|].
    rewrite Eout. apply negated_ranges_spec; [done|done| |done| |done].
    + rewrite Hst. by apply negatedValuesToRanges_starts.
    + intros x Hx. by rewrite Hacc, Hout.
Qed.

(** ** BigintValuesUsingHashTable *)

Lemma ht_within_spec t min max g :
  ht_ok t -> bigint_wf wlo whi g ->
  (forall x, x ∈ ht_values t -> bigint_accepts g x = true -> min <= x <= max) ->
  merges (FBigintValuesUsingHashTable t) g
    (BigintValuesUsingHashTable_mergeWithin t min max g).
Proof.
  intros Ht Hg Hin Hfew. unfold BigintValuesUsingHashTable_mergeWithin. simpl.
  destruct (max <? min) eqn:E1; [|destruct (max =? min) eqn:E2].
  - apply builds_nullOrFalse. intros x _. apply not_true_iff_false.
    rewrite andb_true_iff, contains_iff. intros [Hx Ha].
    specialize (Hin x Hx Ha). lia.
  - rewrite ht_testInt64_ok, (testInt64_ok wlo whi) by done. cbn [rbind].
    destruct (contains min (ht_values t)) eqn:Ec;
      [destruct (bigint_accepts g min) eqn:Ea|].
    + apply contains_iff in Ec. pose proof (ht_values_int64 t min Ht Ec).
      apply builds_range; [lia|lia|apply elem_of_app; by left|]. intros x _. apply eq_iff_eq_true.
      rewrite !andb_true_iff, contains_iff, !Z.leb_le. split.
      * intros [Hx Hax]. specialize (Hin x Hx Hax). lia.
      * intros ?. by replace x with min by lia.
    + apply builds_nullOrFalse. intros x _. apply not_true_iff_false.
      rewrite andb_true_iff, contains_iff. intros [Hx Ha].
      specialize (Hin x Hx Ha). replace x with min in Ha by lia. congruence.
    + apply builds_nullOrFalse. intros x _. apply not_true_iff_false.
      rewrite andb_true_iff. intros [Hx Ha]. apply contains_iff in Hx as Hx'.
      specialize (Hin x Hx' Ha). replace x with min in Hx by lia. congruence.
  - rewrite (filter_res_pure _ (bigint_accepts g))
      by (intros; by apply (testInt64_ok wlo whi)).
    cbn [rbind]. pose proof Ht as (_ & Htab & _).
    assert (forall x, x ∈ f14_ints (ht_hashTable t) <-> x ∈ ht_values t) as Hel
      by (intros; by rewrite f14_ints_elem).
    eapply builds_ext; [|apply keep_values_spec; [done| | |]].
    + intros x _. cbv beta. f_equal. by apply contains_ext.
    + apply f14_ints_nodup.
    + intros x Hx%Hel. apply elem_of_app. by left.
    + intros x Hx%Hel. by eapply ht_values_int64.
Qed.

(** The values that lie in some of the ranges, range by range. *)
Lemma pieces_values (values : list Z) (keep : BigintRange -> list Z) lo hi ranges :
  separated lo hi ranges ->
  (forall r, r ∈ ranges -> NoDup (keep r)
     /\ forall x, x ∈ keep r <-> x ∈ values /\ in_range r x = true) ->
  NoDup (concat (map keep ranges))
  /\ forall x, x ∈ concat (map keep ranges)
     <-> x ∈ values /\ existsb (fun r => in_range r x) ranges = true.
Proof.
  revert lo. induction ranges as [|r ranges IH]; intros lo Hs Hk; simpl.
  { split; [constructor|set_solver]. }
  destruct (Hk r ltac:(left)) as [Hnd Hr].
  destruct Hs as (? & ? & ? & ? & Hs).
  destruct (IH _ Hs) as [Hnd' Hel]; [intros; apply Hk; by right|]. split.
  - apply NoDup_app. split_and!; [done| |done].
    intros x [_ Hx%in_range_iff]%Hr [_ Hx']%Hel.
    rewrite (separated_outside _ _ _ _ Hs) in Hx' by lia. done.
  - intros x. rewrite elem_of_app, Hr, Hel, orb_true_iff. naive_solver.
Qed.

Lemma kept_values_spec S values kept na (p : Z -> bool) :
  few S -> NoDup kept -> (forall v, v ∈ values -> v ∈ S) ->
  (forall v, v ∈ values -> INT64_MIN <= v < INT64_MAX) ->
  (forall x, x ∈ kept <-> x ∈ values /\ p x = true) ->
  builds wlo whi S (createBigintValues kept na) na
    (fun x => contains x values && p x).
Proof.
  intros HS Hnd Hsub Hin Hk.
  eapply builds_ext; [|apply createBigintValues_spec; [done|done| |]].
  - intros x _. cbv beta. apply eq_iff_eq_true.
    rewrite andb_true_iff, !contains_iff. apply Hk.
  - intros x [? _]%Hk. auto.
  - intros v [? _]%Hk. auto.
Qed.

Lemma ht_multi_spec rec t m :
  ht_ok t -> mr_ok m ->
  merges (FBigintValuesUsingHashTable t) (FBigintMultiRange m)
    (BigintValuesUsingHashTable_mergeWith rec t (FBigintMultiRange m)).
Proof.
  intros Ht [Hs _] Hfew. simpl. pose proof Ht as (Hsort & _ & Hb & _).
  destruct (pieces_values (ht_values t) (fun range =>
    if Z.max (ht_min t) (br_lower range) <=? Z.min (ht_max t) (br_upper range)
    then List.filter (BigintRange_testInt64 range) (ht_values t) else [])
    _ _ _ Hs) as [Hnd Hel].
  - intros r Hr. destruct (_ <=? _) eqn:E.
    + split; [by apply NoDup_List_filter, sorted_lt_nodup|].
      intros x. by rewrite elem_of_List_filter, in_range_testInt64.
    + split; [constructor|]. intros x. rewrite elem_of_nil, in_range_iff.
      split; [done|]. intros [Hx%Hb ?]. lia.
  - apply kept_values_spec; [done|done| | |exact Hel].
    + intros v Hv. apply elem_of_app. by left.
    + intros v Hv. by eapply ht_values_int64.
Qed.

(** ** BigintValuesUsingBitmask *)

Lemma bm_within_spec t min max g :
  bm_ok t -> bigint_wf wlo whi g -> bm_min t <= min -> max <= bm_max t ->
  (forall x, x ∈ bm_values t -> bigint_accepts g x = true -> min <= x <= max) ->
  merges (FBigintValuesUsingBitmask t) g
    (BigintValuesUsingBitmask_mergeWithin t min max g).
Proof.
  intros Ht Hg Hmin Hmax Hin Hfew.
  unfold BigintValuesUsingBitmask_mergeWithin. simpl.
  assert (max < INT64_MAX) by (destruct Ht as (_ & ? & _); lia).
  rewrite loop_upto_ok by done. cbn [rbind].
  rewrite (bitmask_loop _ _ (bigint_accepts g))
    by (done || (intros; by apply (testInt64_ok wlo whi))).
  apply bitmask_keep_spec; try done. intros x Hx. apply elem_of_app. by left.
Qed.

Lemma bm_multi_spec rec t m :
  bm_ok t -> mr_ok m ->
  merges (FBigintValuesUsingBitmask t) (FBigintMultiRange m)
    (BigintValuesUsingBitmask_mergeWith rec t (FBigintMultiRange m)).
Proof.
  intros Ht [Hs _] Hfew. simpl.
  set (keep := fun range => List.filter
    (fun x => contains x (bm_values t) && in_range range x)
    (seqZ (Z.max (bm_min t) (br_lower range))
       (Z.min (bm_max t) (br_upper range) - Z.max (bm_min t) (br_lower range) + 1))).
  rewrite (map_res_pure _ keep).
  2: { intros r Hr. pose proof Ht as (_ & ? & _). rewrite loop_upto_ok by lia.
       cbn [rbind]. apply bitmask_loop; [done|lia|lia|].
       intros x. by rewrite in_range_testInt64. }
  cbn [rbind]. destruct (pieces_values (bm_values t) keep _ _ _ Hs) as [Hnd Hel].
  - intros r Hr. split; [apply NoDup_List_filter, NoDup_seqZ|]. intros x.
    unfold keep. rewrite elem_of_List_filter, elem_of_loop, andb_true_iff, contains_iff.
    split; [naive_solver|]. intros [Hx Hx']. split_and!; [| |done..].
    all: apply in_range_iff in Hx'; apply bm_values_bounds in Hx; [lia|done].
  - apply kept_values_spec; [done|done| | |exact Hel].
    + intros v Hv. apply elem_of_app. by left.
    + intros v Hv. by eapply bm_values_int64.
Qed.

(** ** NOT IN-lists *)

Lemma not_in_not_in_spec f g na :
  bigint_wf wlo whi f -> is_not_in f = true ->
  bigint_wf wlo whi g -> is_not_in g = true ->
  na = testNull f && testNull g ->
  merges f g (combineNegatedBigintLists (rejected f) (rejected g) na).
Proof.
  intros Hf Hif Hg Hig -> Hfew.
  destruct (not_in_facts f Hf Hif) as (Hsf & _ & Hinf & Hf' & Hstf).
  destruct (not_in_facts g Hg Hig) as (Hsg & _ & Hing & Hg' & Hstg).
  eapply builds_ext; [|apply combineNegatedBigintLists_spec; try done; rewrite Hstf, ?Hstg].
  - intros x _. cbv beta. by rewrite Hf', Hg'.
  - left.
  - intros x Hx. apply elem_of_app. left. right. by apply list_elem_of_fmap_2.
  - intros x Hx. apply elem_of_app. right. right. by apply list_elem_of_fmap_2.
Qed.

Lemma multi_not_in_spec m g na :
  mr_ok m -> bigint_wf wlo whi g -> is_not_in g = true ->
  na = mr_nullAllowed m && testNull g ->
  merges (FBigintMultiRange m) g
    (combineRangesAndNegatedValues (mr_ranges m) (rejected g) na).
Proof.
  intros [Hs _] Hg Hig -> Hfew.
  destruct (not_in_facts g Hg Hig) as (Hsg & _ & Hin & Hacc & Hst).
  eapply builds_ext; [|apply combineRangesAndNegatedValues_spec;
    [done| | |done|done|by apply window_values]].
  - intros x _. cbv beta. by rewrite Hacc.
  - intros r Hr. apply elem_of_app. left. by apply list_elem_of_fmap_2.
  - intros x Hx. rewrite Hst. apply elem_of_app. right. right. by apply list_elem_of_fmap_2.
Qed.

(** ** BigintMultiRange *)

Lemma range_make r :
  range_ok r -> br_nullAllowed r = false ->
  make_BigintRange (br_lower r) (br_upper r) false = r.
Proof. intros (He & _) Hn. rewrite Hn in He. done. Qed.

(** The pieces of a multi-range inside of one range. *)
Lemma merge_range_with_each_spec rec rec' this ranges lo hi :
  range_ok this -> separated lo hi ranges ->
  (forall r, rec (FBigintRange this) (FBigintRange r)
             = BigintRange_mergeWith rec' this (FBigintRange r)) ->
  exists out, merge_range_with_each rec this ranges = Ok out
    /\ separated (Z.max lo (br_lower this)) (Z.min hi (br_upper this)) out
    /\ (forall s, s ∈ out -> br_lower s ∈ br_lower this :: map br_lower ranges)
    /\ forall x, existsb (fun r => in_range r x) out
         = in_range this x && existsb (fun r => in_range r x) ranges.
Proof.
  intros Hthis Hs Hrec. revert lo Hs.
  induction ranges as [|r ranges IH]; intros lo Hs; simpl.
  { exists []. split_and!; [done|done|by intros s ?%elem_of_nil|]. intros. by rewrite andb_false_r. }
  destruct Hs as (Hr & Hna & ? & ? & Hs). destruct Hr as (_ & ? & ?).
  destruct (IH _ Hs) as (out & Hout & Hsep & Hst & Hacc).
  destruct Hthis as (_ & ? & ?). rewrite Hrec. simpl. rewrite Hna, andb_false_r.
  destruct (_ <=? _) eqn:E; simpl; rewrite Hout.
  - eexists. split; [done|]. split_and!.
    + simpl. split_and!; try done; try lia; [apply range_ok_make; lia|].
      eapply separated_weaken; [| |exact Hsep]; lia.
    + intros s [->|Hs'%Hst]%elem_of_cons; [|set_solver]. simpl.
      destruct (Z.max_spec (br_lower this) (br_lower r)) as [[_ ->]|[_ ->]]; set_solver.
    + intros x. simpl. rewrite Hacc, andb_orb_distrib_r. f_equal.
      unfold in_range. simpl. zbool.
  - exists out. split_and!; [done| | |].
    + eapply separated_weaken; [| |exact Hsep]; lia.
    + intros s Hs'%Hst. set_solver.
    + intros x. rewrite Hacc, andb_orb_distrib_r.
      replace (in_range this x && in_range r x) with false; [done|].
      unfold in_range. zbool.
Qed.

(** A range merged with a multi-range, as a list of pieces. *)
Lemma range_multi_pieces rec rec' r m :
  range_ok r -> mr_ok m ->
  (forall s, rec (FBigintRange r) (FBigintRange s)
             = BigintRange_mergeWith rec' r (FBigintRange s)) ->
  exists out, BigintRange_mergeWith rec r (FBigintMultiRange m)
      = combineBigintRanges out (br_nullAllowed r && mr_nullAllowed m)
    /\ separated (br_lower r) (br_upper r) out
    /\ (forall s, s ∈ out -> br_lower s ∈ br_lower r :: map br_lower (mr_ranges m))
    /\ forall x, existsb (fun r => in_range r x) out
         = in_range r x && existsb (fun r => in_range r x) (mr_ranges m).
Proof.
  intros Hr [Hs _] Hrec.
  destruct (merge_range_with_each_spec rec rec' r _ _ _ Hr Hs Hrec)
    as (out & Hout & Hsep & Hst & Hacc).
  exists out. simpl. rewrite Hout. split_and!; [done| |done|done].
  destruct Hr as (_ & ? & ?). eapply separated_weaken; [| |exact Hsep]; lia.
Qed.

Lemma range_multi_spec rec rec' r m :
  range_ok r -> mr_ok m ->
  (forall s, rec (FBigintRange r) (FBigintRange s)
             = BigintRange_mergeWith rec' r (FBigintRange s)) ->
  merges (FBigintRange r) (FBigintMultiRange m)
    (BigintRange_mergeWith rec r (FBigintMultiRange m)).
Proof.
  intros Hr Hm Hrec Hfew.
  destruct (range_multi_pieces rec rec' r m Hr Hm Hrec) as (out & -> & Hs & Hst & Hacc).
  eapply builds_ext; [|apply combineBigintRanges_spec; [exact Hfew| |exact Hst]].
  - intros x _. cbv beta. apply Hacc.
  - destruct Hr as (_ & ? & ?). eapply separated_weaken; [| |exact Hs]; lia.
Qed.

Lemma merge_each_range_with_spec rec rec' rec'' m ranges S lo hi :
  few S -> (forall r, r ∈ ranges -> br_lower r ∈ S) ->
  (forall r, r ∈ mr_ranges m -> br_lower r ∈ S) ->
  mr_ok m -> separated lo hi ranges ->
  (forall r, rec (FBigintRange r) (FBigintMultiRange m)
             = BigintRange_mergeWith rec' r (FBigintMultiRange m)) ->
  (forall r s, rec' (FBigintRange r) (FBigintRange s)
             = BigintRange_mergeWith rec'' r (FBigintRange s)) ->
  exists out, merge_each_range_with rec (FBigintMultiRange m) ranges = Ok out
    /\ separated lo hi out /\ (forall r, r ∈ out -> br_lower r ∈ S)
    /\ forall x, existsb (fun r => in_range r x) out
         = existsb (fun r => in_range r x) ranges
           && existsb (fun r => in_range r x) (mr_ranges m).
Proof.
  intros HS Hsr Hsm Hm Hs Hrec Hrec'. revert lo Hs.
  induction ranges as [|r ranges IH]; intros lo Hs.
  { exists []. split_and!; [done|done|by intros r ?%elem_of_nil|done]. }
  destruct Hs as (Hr & Hna & ? & ? & Hs).
  destruct (IH ltac:(intros; apply Hsr; by right) _ Hs)
    as (rest & Hrest & Hsrest & Hstrest & Harest).
  destruct (range_multi_pieces rec' rec'' r m Hr Hm (Hrec' r))
    as (out & Hout & Hsout & Hstout & Haout).
  assert (forall s, s ∈ out -> br_lower s ∈ S) as Hout_S.
  { intros s [->|(r' & -> & Hr')%list_elem_of_fmap]%Hstout%elem_of_cons; [apply Hsr; left|auto]. }
  pose proof (separated_few _ _ _ _ HS Hsout Hout_S) as Hlen.
  rewrite Hna in Hout. cbn [andb] in Hout.
  exists (out ++ rest). split_and!.
  - simpl. rewrite Hrec, Hout, Hrest. clear Haout.
    destruct out as [|r1 [|r2 out]]; simpl; [done| |].
    + destruct Hsout as (? & ? & _). by rewrite range_make.
    + rewrite make_BigintMultiRange_ok; [done| |cbn [length] in *; lia].
      destruct Hr as (_ & ? & ?). eapply separated_weaken; [| |exact Hsout]; lia.
  - destruct Hr as (_ & ? & ?). eapply separated_app; [| | |exact Hsrest]; [lia|lia|].
    eapply separated_weaken; [| |exact Hsout]; lia.
  - intros s [?|?]%elem_of_app; auto.
  - intros x. rewrite existsb_app, Haout, Harest. simpl.
    by rewrite andb_orb_distrib_l.
Qed.

Lemma multi_multi_spec rec rec' rec'' m k :
  mr_ok m -> mr_ok k ->
  (forall r, rec (FBigintRange r) (FBigintMultiRange k)
             = BigintRange_mergeWith rec' r (FBigintMultiRange k)) ->
  (forall r s, rec' (FBigintRange r) (FBigintRange s)
             = BigintRange_mergeWith rec'' r (FBigintRange s)) ->
  merges (FBigintMultiRange m) (FBigintMultiRange k)
    (BigintMultiRange_mergeWith rec m (FBigintMultiRange k)).
Proof.
  intros [Hs _] Hk Hrec Hrec' Hfew.
  destruct (merge_each_range_with_spec rec rec' rec'' k (mr_ranges m)
    (starts (FBigintMultiRange m) ++ starts (FBigintMultiRange k)) INT64_MIN INT64_MAX)
    as (out & Hout & Hsep & Hst & Hacc); try done.
  - intros r Hr. apply elem_of_app. left. by apply list_elem_of_fmap_2.
  - intros r Hr. apply elem_of_app. right. by apply list_elem_of_fmap_2.
  - eapply builds_ext; [intros x _; apply Hacc|].
    simpl. rewrite Hout. by apply combineBigintRanges_spec.
Qed.

(** ** The virtual function *)

(** The pairs that the receiver merges itself, without a call to the merge of
    the argument or of other filters. *)
Definition direct (f g : Filter) : bool :=
  match f, g with
  | (FAlwaysFalse | FAlwaysTrue | FIsNull), _ => true
  | FIsNotNull, (FAlwaysFalse | FAlwaysTrue | FIsNull | FIsNotNull) => true
  | FIsNotNull, _ => false
  | _, FIsNotNull => true
  | FBigintRange _, FBigintRange _ => true
  | FBigintRange _, _ => is_not_in g
  | FNegatedBigintRange n, FNegatedBigintRange k => nbr_lower n <=? nbr_lower k
  | FNegatedBigintRange _, (FBigintRange _ | FBigintMultiRange _) => true
  | FNegatedBigintRange _, _ => is_not_in g
  | FBigintValuesUsingHashTable _,
      (FBigintRange _ | FBigintValuesUsingHashTable _ | FBigintMultiRange _
      | FNegatedBigintRange _) => true
  | FBigintValuesUsingHashTable _, _ => is_not_in g
  | FBigintValuesUsingBitmask _,
      (FBigintRange _ | FBigintValuesUsingHashTable _
      | FBigintValuesUsingBitmask _ | FBigintMultiRange _
      | FNegatedBigintRange _) => true
  | FBigintValuesUsingBitmask _, _ => is_not_in g
  | FNegatedBigintValuesUsingHashTable _,
      FNegatedBigintValuesUsingHashTable _ => true
  | FNegatedBigintValuesUsingBitmask _, _ => is_not_in g
  | FBigintMultiRange _, _ => is_not_in g
  | _, _ => false
  end.

Lemma merge_not_null_spec n f :
  bigint_wf wlo whi f -> direct f FIsNotNull = true ->
  merges f FIsNotNull (mergeWith (S n) f FIsNotNull).
Proof.
  intros Hf Hd Hfew. apply (builds_ext _ _ _ _ _ (bigint_accepts f)).
  { intros x _. simpl. by rewrite andb_true_r. }
  rewrite andb_false_r.
  assert (forall x, x ∈ starts f -> x ∈ starts f ++ starts FIsNotNull) as HS
    by (intros; apply elem_of_app; by left).
  revert HS. clear Hfew. generalize (starts f ++ starts FIsNotNull). intros S HS.
  destruct f; simpl in Hf, Hd, HS |- *; try done;
    try (eexists; split; [reflexivity|]; split_and!; done).
  - destruct Hf as (_ & ? & ?). apply builds_range; [done|done|set_solver|done].
  - destruct Hf as (_ & ? & ? & ?).
    apply builds_negated_range; [done|done|done|set_solver|set_solver|done].
  - destruct Hf as (? & ? & _). apply builds_multi_range; [done|done|].
    intros r Hr. by apply HS, list_elem_of_fmap_2.
Qed.

Lemma ht_direct_spec n t g :
  ht_ok t -> bigint_wf wlo whi g ->
  direct (FBigintValuesUsingHashTable t) g = true ->
  merges (FBigintValuesUsingHashTable t) g
    (mergeWith (S n) (FBigintValuesUsingHashTable t) g).
Proof.
  intros Ht Hg Hd. pose proof Ht as (_ & _ & Hb & _).
  destruct g as [| | | | | |r| |k| | | |m| | | | | | | | | |]; try done.
  - by apply merge_not_null_spec.
  - apply ht_within_spec; [done|done|]. intros x Hx%Hb Ha%in_range_iff. lia.
  - apply ht_within_spec; [done|done|]. auto.
  - pose proof Hg as (_ & _ & Hb' & _). apply ht_within_spec; [done|done|].
    intros x Hx%Hb Ha%contains_iff%Hb'. lia.
  - apply ht_within_spec; [done|done|]. auto.
  - apply ht_within_spec; [done|done|]. auto.
  - by apply ht_multi_spec.
Qed.

Lemma bm_direct_spec n t g :
  bm_ok t -> bigint_wf wlo whi g ->
  direct (FBigintValuesUsingBitmask t) g = true ->
  merges (FBigintValuesUsingBitmask t) g
    (mergeWith (S n) (FBigintValuesUsingBitmask t) g).
Proof.
  intros Ht Hg Hd.
  assert (forall x, x ∈ bm_values t -> bm_min t <= x <= bm_max t) as Hb
    by (intros; by apply bm_values_bounds).
  destruct g as [| | | | | |r| |k|k| | |m| | | | | | | | | |]; try done.
  - by apply merge_not_null_spec.
  - apply bm_within_spec; [done|done|lia|lia|]. intros x Hx%Hb Ha%in_range_iff. lia.
  - apply bm_within_spec; [done|done|lia|lia|]. auto.
  - pose proof Hg as (_ & _ & Hb' & _). apply bm_within_spec; [done|done|lia|lia|].
    intros x Hx%Hb Ha%contains_iff%Hb'. lia.
  - apply bm_within_spec; [done|done|lia|lia|].
    intros x Hx%Hb Ha%contains_iff%bm_values_bounds; [lia|done].
  - apply bm_within_spec; [done|done|lia|lia|]. auto.
  - apply bm_within_spec; [done|done|lia|lia|]. auto.
  - by apply bm_multi_spec.
Qed.

Lemma merge_direct_spec n f g :
  bigint_wf wlo whi f -> bigint_wf wlo whi g -> direct f g = true ->
  merges f g (mergeWith (S n) f g).
Proof.
  intros Hf Hg Hd. destruct (trivial_receiver_spec g Hg) as (? & ? & ?).
  destruct f as [| | | | | | |k| | | | | | | | | | | | | | |]; try done.
  - destruct g; try done; intros _; simpl;
      first [by apply (builds_nullOrFalse _ _ _ false)
            |apply (builds_self FIsNotNull); [done|set_solver]].
  - destruct g; try done; [by apply merge_not_null_spec|by apply range_range_spec|
      by apply range_not_in_spec..].
  - destruct g; try done; [by apply merge_not_null_spec|by apply negated_range_spec|
      |by apply negated_not_in_spec..|by apply negated_multi_spec].
    apply negated_negated_spec; [done|done|]. simpl in Hd. lia.
  - by apply ht_direct_spec.
  - by apply bm_direct_spec.
  - destruct g as [| | | | | | | | | |v| | | | | | | | | | | |]; try done;
      [by apply merge_not_null_spec|by apply not_in_not_in_spec].
  - destruct g as [| | | | | | | | | |v|v| | | | | | | | | | |]; try done;
      [by apply merge_not_null_spec|by apply not_in_not_in_spec..].
  - destruct g as [| | | | | | | | | |v|v| | | | | | | | | | |]; try done;
      [by apply merge_not_null_spec|by apply multi_not_in_spec..].
Qed.

Definition is_range_or_multi (f : Filter) : bool :=
  match f with FBigintRange _ | FBigintMultiRange _ => true | _ => false end.

(** All other pairs but those of a range and a multi-range are merged by the
    argument. *)
Lemma merge_swapped n f g :
  bigint_wf wlo whi f -> bigint_wf wlo whi g -> direct f g = false ->
  is_range_or_multi f && is_range_or_multi g = false ->
  mergeWith (S (S n)) f g = mergeWith (S n) g f /\ direct g f = true.
Proof.
  destruct f as [| | | | | | |k| | | | | | | | | | | | | | |],
    g as [| | | | | | |k'| | | | | | | | | | | | | | |]; try done.
  intros _ _ Hd _. cbn [direct] in Hd |- *. split; [|lia].
  change (mergeWith (S (S n)) (FNegatedBigintRange k) (FNegatedBigintRange k'))
    with (NegatedBigintRange_mergeWith (mergeWith (S n)) k (FNegatedBigintRange k')).
  unfold NegatedBigintRange_mergeWith.
  by replace (nbr_lower k >? nbr_lower k') with true by zbool.
Qed.

Lemma mergeWith_merges n f g :
  bigint_wf wlo whi f -> bigint_wf wlo whi g ->
  merges f g (mergeWith (3 + n) f g).
Proof.
  intros Hf Hg. destruct (direct f g) eqn:Hd; [by apply merge_direct_spec|].
  destruct (is_range_or_multi f && is_range_or_multi g) eqn:Hr.
  - destruct f, g; try done.
    + by apply (range_multi_spec _ (mergeWith (1 + n))).
    + apply merges_sym. by apply (range_multi_spec _ (mergeWith n)).
    + by apply (multi_multi_spec _ (mergeWith (1 + n)) (mergeWith n)).
  - destruct (merge_swapped (1 + n) f g Hf Hg Hd Hr) as [He Hd'].
    change (3 + n)%nat with (S (S (1 + n))). rewrite He.
    apply merges_sym. by apply merge_direct_spec.
Qed.
End bigint_merge.

(** The pieces of a well-formed filter start at different integers. *)
Lemma starts_nodup wlo whi f : window_ok wlo whi -> bigint_wf wlo whi f -> NoDup (starts f).
Proof.
  intros (Hw & Hw' & _). destruct f; simpl; try done; try (intros; apply NoDup_nil_2).
  - intros _. apply NoDup_singleton.
  - intros _. apply NoDup_singleton.
  - intros _. apply NoDup_singleton.
  - intros (_ & ? & ? & _). apply NoDup_cons. split; [|apply NoDup_singleton].
    rewrite list_elem_of_singleton. lia.
  - intros (Hs & _). by apply sorted_lt_nodup.
  - intros Hok. by apply sorted_lt_nodup, bm_values_sorted.
  - intros [(Hs & _) Hin]. apply NoDup_cons. split.
    + intros (v & Hv & ?%Hin)%list_elem_of_fmap. lia.
    + apply NoDup_fmap; [intros ???; lia|]. by apply sorted_lt_nodup.
  - intros [Hok Hin]. apply NoDup_cons. split.
    + intros (v & Hv & ?%Hin)%list_elem_of_fmap. lia.
    + apply NoDup_fmap; [intros ???; lia|]. by apply sorted_lt_nodup, bm_values_sorted.
  - intros [Hs _]. by eapply separated_nodup.
Qed.

(** C1. [mergeWith] on the well-formed filters on 64-bit integers, of
    whatever pair of classes, is total and builds the conjunction: a
    well-formed filter that lets null through when both do and a 64-bit integer
    through when both do.  It has no more values or ranges than the two
    together, so that merges can be repeated.  Three levels of dispatch are
    enough.  The conditions are those outside of which the code overflows or
    has no case: together the filters have less than [2 ^ 23] values and
    ranges, since the loops count with an [int] and a bitmask has up to 256
    bits for each; the values of IN-lists are below [INT64_MAX]; the ends of a
    NOT range are not the two extreme integers; the values of NOT IN-lists
    (and of [<> v]) lie in a window strictly between them, whose width is a
    64-bit integer; BoolValue is not among these filters. *)
Theorem bigint_mergeWith_conjunction (ops : F14Ops) wlo whi n f g :
  F14Laws ops -> window_ok wlo whi ->
  bigint_wf wlo whi f -> bigint_wf wlo whi g -> 256 * (pieces f + pieces g) <= INT32_MAX ->
  exists h, mergeWith (3 + n) f g = Ok h /\ bigint_wf wlo whi h
    /\ pieces h <= pieces f + pieces g
    /\ testNull h = testNull f && testNull g
    /\ forall x, INT64_MIN <= x <= INT64_MAX ->
         exists a b, testInt64 f x = Ok a /\ testInt64 g x = Ok b
           /\ testInt64 h x = Ok (a && b).
Proof.
  intros Hl Hw Hf Hg Hfew.
  destruct (mergeWith_merges wlo whi Hw n f g Hf Hg) as (h & ? & Hh & ? & Hs & Hacc).
  { unfold few, pieces in *. rewrite length_app. lia. }
  exists h. split_and!; try done.
  - unfold pieces. rewrite <- Nat2Z.inj_add, <- length_app. apply inj_le, submseteq_length, NoDup_submseteq; [|done].
    by apply (starts_nodup wlo whi).
  - intros x Hx. exists (bigint_accepts f x), (bigint_accepts g x).
    rewrite !(testInt64_ok wlo whi) by done. by rewrite Hacc.
Qed.

Lemma bigint_mergeWith_conjunction_witness :
  let f := FBigintMultiRange sample_multi_range in
  let g := FBigintValuesUsingHashTable sample_hash_table in
  exists h, @mergeWith F14_insertion_order 3 f g = Ok h /\ bigint_wf 0 100 h
    /\ pieces h <= pieces f + pieces g
    /\ testNull h = testNull f && testNull g
    /\ forall x, INT64_MIN <= x <= INT64_MAX ->
         exists a b, testInt64 f x = Ok a /\ testInt64 g x = Ok b
           /\ testInt64 h x = Ok (a && b).
Proof.
  apply (bigint_mergeWith_conjunction F14_insertion_order 0 100 0).
  - exact F14_insertion_order_laws.
  - unfold window_ok. lia.
  - exact sample_multi_range_ok.
  - exact sample_hash_table_ok.
  - by vm_compute.
Defined.
