(* ===== verification/FilterBytesMerge.v ===== *)
(** [mergeWith] of the filters on strings: it is total on the well-formed
    filters and the filter it builds accepts exactly the conjunction, for null
    and for every string whose length is a 32-bit integer. *)

From S2P Require Import Prelude StringView Timestamp FilterTypes FilterMerge FilterBytes.

(** * Constructors *)




Section constructors.
Context `{ops : !F14Ops, laws : !F14Laws ops}.







(** * Filters built by a merge *)














(** ** clone *)









(** ** BytesRange with BytesRange *)




(** ** BytesValues *)






(** ** NegatedBytesValues *)


(** *** Sets of strings *)





(** *** NOT IN-list with a range *)








(** ** NegatedBytesRange as a disjunction *)



(** ** MultiRange *)

Section multi.
Variable rec : Filter -> Filter -> result Filter.










End multi.

(** ** The virtual function *)


#[local] Opaque mergeWith.











End constructors.


