(* ===== verification/FilterCounterexamples.v ===== *)
(** Concrete filters on which the code of bolt/type/filter does not do what it
    means to: overflows at the limits of the integer types, merged filters
    that accept too much, and tests that disagree.  Each lemma evaluates the
    operations of FilterTypes.v and FilterMerge.v; together they show why the
    well-formedness conditions of FilterBigint.v and FilterBytes.v are there. *)

From S2P Require Import Prelude StringView Timestamp FilterTypes FilterMerge.

#[local] Existing Instance F14_insertion_order.

(** The merge of two filters, applied to a test. *)
Definition merged_test {A} (test : Filter -> A -> result bool) (this other : Filter)
    (value : A) : result bool :=
  let! m := mergeWith 3 this other in test m value.

(** What both filters accept. *)
Definition both_accept {A} (test : Filter -> A -> result bool) (this other : Filter)
    (value : A) : result bool :=
  let! a := test this value in
  let! b := test other value in
  Ok (a && b).

(** ** Overflow at the limits *)

(** The filter [NOT BETWEEN 5 AND INT64_MAX] merged with [NOT BETWEEN 7 AND 9]
    computes [upper() + 1]. *)
Lemma negated_range_merge_overflow :
  mergeWith 3 (FNegatedBigintRange (make_NegatedBigintRange 5 INT64_MAX false))
    (FNegatedBigintRange (make_NegatedBigintRange 7 9 false))
  = Err SignedOverflow.
Proof. reflexivity. Qed.

(** The range test of [NOT IN (INT64_MIN, INT64_MAX)] subtracts the two
    extreme integers. *)
Lemma negated_values_range_overflow :
  exists values,
    make_NegatedBigintValuesUsingHashTable INT64_MIN INT64_MAX [INT64_MIN; INT64_MAX] false
      = Ok values
    /\ testInt64Range (FNegatedBigintValuesUsingHashTable values) INT64_MIN INT64_MAX false
       = Err SignedOverflow.
Proof. eexists. split; reflexivity. Qed.

(** An IN-list as a bitmask whose largest value is INT64_MAX, merged with a
    range: the loop counter goes past the largest integer. *)
Lemma bitmask_merge_overflow :
  exists values,
    make_BigintValuesUsingBitmask (INT64_MAX - 2) INT64_MAX [INT64_MAX - 2; INT64_MAX] false
      = Ok values
    /\ mergeWith 3 (FBigintValuesUsingBitmask values)
         (FNegatedBigintRange (make_NegatedBigintRange 0 10 false))
       = Err SignedOverflow.
Proof. eexists. split; reflexivity. Qed.

(** ** Counters of type int *)

(** A bitmask over more than [INT32_MAX] integers cannot be built: the loop
    that lists its values overflows. *)
Lemma bitmask_counter_overflow min max nullAllowed :
  INT64_MIN <= min -> max < INT64_MAX -> INT32_MAX <= max - min < INT64_MAX ->
  make_BigintValuesUsingBitmask min max [min; max] nullAllowed = Err SignedOverflow.
Proof.
  intros Hmin Hmax Hw. unfold make_BigintValuesUsingBitmask.
  replace (min <? max) with true by zbool. cbn [check rbind length].
  change (Z.of_nat 2 >? 1) with true. cbn [check rbind].
  rewrite ssub64_in by lia. cbn [rbind]. rewrite sadd64_in by lia. cbn [rbind bitmask_fill].
  replace (min >=? min) with true by zbool. replace (min <=? max) with true by zbool.
  replace (max >=? min) with true by zbool. replace (max <=? max) with true by zbool.
  cbn [check rbind].
  rewrite (int_loop_overflow _ _ _) by (first [rewrite !length_insert, length_replicate; lia|reflexivity]).
  done.
Qed.

(** The index of the binary search over ranges has 32 bits, and so has its
    negation: with [INT32_MAX] ranges a value above the last lower end is not
    tested. *)
Lemma multi_range_place_overflow f value :
  Z.of_nat (length (mr_lowerBounds f)) = INT32_MAX -> (forall x, x ∈ mr_lowerBounds f -> x < value) ->
  BigintMultiRange_testInt64 f value = Err SignedOverflow.
Proof.
  intros Hl Hin. unfold BigintMultiRange_testInt64, binarySearch, iter_index.
  assert (lower_bound (mr_lowerBounds f) value = []) as ->.
  { clear Hl. induction (mr_lowerBounds f) as [|x l IH]; [done|]. simpl.
    rewrite (proj2 (Z.ltb_lt x value)) by (apply Hin; left). apply IH. intros y Hy. apply Hin. by right. }
  rewrite Hl. done.
Qed.

(** ** Merged filters that accept too much *)

(** [NOT BETWEEN 0 AND 10] and [NOT BETWEEN 20 AND 30] on 128-bit integers:
    the remaining ranges are replaced by one range that spans the gaps. *)
Lemma hugeint_merge_collapses :
  let f := FNegatedHugeintRange (make_NegatedHugeintRange 0 10 false) in
  let g := FNegatedHugeintRange (make_NegatedHugeintRange 20 30 false) in
  both_accept testInt128 f g 5 = Ok false /\ merged_test testInt128 f g 5 = Ok true.
Proof. split; reflexivity. Qed.

(** The same for a rejected range inside an accepted one. *)
Lemma hugeint_merge_ignores_hole :
  let f := FNegatedHugeintRange (make_NegatedHugeintRange 3 6 false) in
  let g := FHugeintRange (make_HugeintRange 0 10 false) in
  both_accept testInt128 f g 5 = Ok false /\ merged_test testInt128 f g 5 = Ok true.
Proof. split; reflexivity. Qed.

(** And for timestamps: a range inside the rejected one yields the rejected
    range's filter, which accepts values outside of it. *)
Lemma timestamp_merge_loses_range :
  let t s := mkTimestamp s 0 in
  let f := FNegatedTimestampRange (make_NegatedTimestampRange (t 0) (t 100) false) in
  let g := FTimestampRange (make_TimestampRange (t 10) (t 20) false) in
  both_accept testTimestamp f g (t 500) = Ok false
  /\ merged_test testTimestamp f g (t 500) = Ok true.
Proof. split; reflexivity. Qed.

(** A range outside the rejected one is widened to cover the rejected one. *)
Lemma timestamp_merge_widens :
  let t s := mkTimestamp s 0 in
  let f := FNegatedTimestampRange (make_NegatedTimestampRange (t 0) (t 100) false) in
  let g := FTimestampRange (make_TimestampRange (t 200) (t 300) false) in
  both_accept testTimestamp f g (t 50) = Ok false
  /\ merged_test testTimestamp f g (t 50) = Ok true.
Proof. split; reflexivity. Qed.

(** ** Tests that do not agree *)

(** A copy of an IN-list on 128-bit integers rejects every value. *)
Lemma hugeint_clone_empty :
  exists f,
    make_HugeintValuesUsingHashTable 1 3 [1; 3] false = Ok f
    /\ HugeintValuesUsingHashTable_testInt128 f 3 = true
    /\ HugeintValuesUsingHashTable_testInt128
         (HugeintValuesUsingHashTable_clone f None) 3 = false.
Proof. eexists. split_and!; reflexivity. Qed.

(** [AlwaysTrue] has no test of timestamps. *)
Lemma always_true_rejects_timestamps :
  testTimestamp FAlwaysTrue (mkTimestamp 0 0) = Err Unsupported
  /\ testTimestamp FAlwaysFalse (mkTimestamp 0 0) = Err Unsupported.
Proof. split; reflexivity. Qed.

(** [<> 'abc'] rejects every length other than that of the excluded string. *)
Lemma negated_bytes_length :
  exists f,
    make_NegatedBytesRange [97; 98; 99] false false [97; 98; 99] false false false = Ok f
    /\ testBytes (FNegatedBytesRange f) [97] = Ok true
    /\ testLength (FNegatedBytesRange f) 1 = Ok false.
Proof. eexists. split_and!; reflexivity. Qed.

(** [NOT (x <= 'b')] against a chunk without a minimum reads an empty
    optional. *)
Lemma negated_bytes_range_no_minimum :
  exists f,
    make_NegatedBytesRange [] true false [98] false false false = Ok f
    /\ testBytesRange (FNegatedBytesRange f) None (Some [97]) false = Err BadAccess.
Proof. eexists. split; reflexivity. Qed.

(** The empty range from the empty string, inclusive, to the empty string,
    exclusive, accepts the empty string. *)
Lemma empty_bytes_range_accepts :
  exists f,
    make_BytesRange [] false false [] false true false = Ok f
    /\ BytesRange_testBytes f [] = true
    /\ string_compare [] [] <? 0 = false.
Proof. eexists. split_and!; reflexivity. Qed.

(** Ranges that share a value pass the check that ranges do not overlap. *)
Lemma touching_ranges_accepted :
  exists f,
    make_BigintMultiRange [make_BigintRange 1 5 false; make_BigintRange 5 9 false] false = Ok f.
Proof. eexists. reflexivity. Qed.
