(* ===== verification/Calendar.v ===== *)
(** Calendar conversions of bolt/type/Timestamp.cpp: epoch seconds to calendar
    fields ([epochToCalendarUtc], [epochToUtc]) and back
    ([calendarUtcToEpoch]), and the rebasing of Julian days.  The theorems show
    that the year search terminates, that it succeeds on every timestamp, and
    that the conversions are inverse to each other. *)

From S2P Require Import Prelude Timestamp.

(** [std::tm] *)
Record tm : Type := mk_tm {
  tm_sec : Z;
  tm_min : Z;
  tm_hour : Z;
  tm_mday : Z;
  tm_mon : Z;
  tm_year : Z;
  tm_wday : Z;
  tm_yday : Z
}.

Abbreviation kTmYearBase := 1900.
Abbreviation kLeapYearOffset := 4000000000.
Abbreviation kSecondsPerHour := 3600.
Abbreviation kSecondsPerDay := 86400.
Abbreviation kDaysPerYear := 365.

Definition isLeap (y : Z) : bool :=
  (Z.rem y 4 =? 0) && (negb (Z.rem y 100 =? 0) || (Z.rem y 400 =? 0)).

Definition leapThroughEndOf (y : Z) : Z :=
  let y := y + kLeapYearOffset in
  Z.quot y 4 - Z.quot y 100 + Z.quot y 400.

Definition monthLengths (leapYear : bool) : list Z :=
  if leapYear then [31; 29; 31; 30; 31; 30; 31; 31; 30; 31; 30; 31]
  else [31; 28; 31; 30; 31; 30; 31; 31; 30; 31; 30; 31].

Definition daysBeforeFirstDayOfMonth (leapYear : bool) : list Z :=
  if leapYear then [0; 31; 60; 91; 121; 152; 182; 213; 244; 274; 305; 335]
  else [0; 31; 59; 90; 120; 151; 181; 212; 243; 273; 304; 334].

Definition daysBetweenYears (y1 y2 : Z) : Z :=
  365 * (y2 - y1) + leapThroughEndOf (y2 - 1) - leapThroughEndOf (y1 - 1).

(** [while (rem < 0) { rem += kSecondsPerDay; --days; }] *)
Fixpoint normalize_rem (fuel : nat) (days rem : Z) : result (Z * Z) :=
  if rem <? 0 then
    match fuel with
    | O => Err OutOfFuel
    | S fuel' => normalize_rem fuel' (days - 1) (rem + kSecondsPerDay)
    end
  else Ok (days, rem).

(** The loop that moves [days] into the year [y] they fall in.  [span y newy]
    is what the body subtracts from [days]. *)
Fixpoint year_loop (span : Z -> Z -> Z) (fuel : nat) (y days : Z)
    : result (Z * Z) :=
  if (days <? 0) || (days >=? kDaysPerYear + Z.b2z (isLeap y)) then
    match fuel with
    | O => Err OutOfFuel
    | S fuel' =>
        let newy :=
          y + Z.quot days kDaysPerYear - (if days <? 0 then 1 else 0) in
        year_loop span fuel' newy (days - span y newy)
    end
  else Ok (y, days).

(** Iterations that are enough for every 64-bit number of seconds. *)
Definition kYearLoopFuel : nat := 7.

(** [std::upper_bound] on a sorted array: the index of the first element
    greater than [v]. *)
Fixpoint upper_bound_index (l : list Z) (v : Z) : Z :=
  match l with
  | [] => 0
  | x :: l' => if v <? x then 0 else 1 + upper_bound_index l' v
  end.

Definition in_int32_range (y : Z) : bool :=
  negb ((y >? INT32_MAX) || (y <? INT32_MIN)).

(** [None] when the year does not fit: the function returns false. *)
Definition epochToCalendarUtc (epoch : Z) : result (option tm) :=
  let days := Z.quot epoch kSecondsPerDay in
  let rem := Z.rem epoch kSecondsPerDay in
  let! norm := normalize_rem 1 days rem in
  let '(days, rem) := norm in
  let hour := Z.quot rem kSecondsPerHour in
  let rem := Z.rem rem kSecondsPerHour in
  let min := Z.quot rem 60 in
  let sec := Z.rem rem 60 in
  let wday := Z.rem (4 + days) 7 in
  let wday := if wday <? 0 then wday + 7 else wday in
  let y := 1970 in
  if y + Z.quot days kDaysPerYear <=? - kLeapYearOffset + 10 then Ok None
  else
    let! loop := year_loop daysBetweenYears kYearLoopFuel y days in
    let '(y, days) := loop in
    let leapYear := isLeap y in
    let y := y - kTmYearBase in
    if negb (in_int32_range y) then Ok None
    else
      let months := daysBeforeFirstDayOfMonth leapYear in
      let mon := upper_bound_index months days - 1 in
      match months !! Z.to_nat mon with
      | None => Err BadAccess
      | Some before =>
          Ok (Some {|
            tm_sec := sec; tm_min := min; tm_hour := hour;
            tm_mday := days - before + 1; tm_mon := mon; tm_year := y;
            tm_wday := wday; tm_yday := days |})
      end.

(** [for (mon = 0; days >= ip[mon]; ++mon) days = days - ip[mon];] *)
Fixpoint month_loop (ip : list Z) (mon days : Z) : result (Z * Z) :=
  match ip with
  | [] => Err BadAccess
  | len :: ip' =>
      if days >=? len then month_loop ip' (mon + 1) (days - len)
      else Ok (mon, days)
  end.

Definition epochToUtc (epoch : Z) : result (option tm) :=
  let days := Z.quot epoch kSecondsPerDay in
  let rem := Z.rem epoch kSecondsPerDay in
  let! norm := normalize_rem 1 days rem in
  let '(days, rem) := norm in
  let hour := Z.quot rem kSecondsPerHour in
  let rem := Z.rem rem kSecondsPerHour in
  let min := Z.quot rem 60 in
  let sec := Z.rem rem 60 in
  let wday := Z.rem (4 + days) 7 in
  let wday := if wday <? 0 then wday + 7 else wday in
  let y := 1970 in
  if y + Z.quot days kDaysPerYear <=? - kLeapYearOffset + 10 then Ok None
  else
    let span y newy :=
      (newy - y) * kDaysPerYear + leapThroughEndOf (newy - 1)
      - leapThroughEndOf (y - 1) in
    let! loop := year_loop span kYearLoopFuel y days in
    let '(y, days) := loop in
    let leapYear := isLeap y in
    let y := y - kTmYearBase in
    if negb (in_int32_range y) then Ok None
    else
      let! loop := month_loop (monthLengths leapYear) 0 days in
      let '(mon, rest) := loop in
      Ok (Some {|
        tm_sec := sec; tm_min := min; tm_hour := hour;
        tm_mday := rest + 1; tm_mon := mon; tm_year := y;
        tm_wday := wday; tm_yday := days |}).

Definition calendarUtcToEpoch (t : tm) : result Z :=
  let year := tm_year t + 1900 in
  let month := tm_mon t in
  let '(year, month) :=
    if month >? 11 then (year + Z.quot month 12, Z.rem month 12)
    else if month <? 0 then
      let yearsDiff := Z.quot (- month + 11) 12 in
      (year - yearsDiff, month + 12 * yearsDiff)
    else (year, month) in
  match daysBeforeFirstDayOfMonth (isLeap year) !! Z.to_nat month with
  | None => Err BadAccess
  | Some before =>
      let dayOfYear := -1 + before + tm_mday t in
      let daysSinceEpoch := daysBetweenYears 1970 year + dayOfYear in
      Ok (kSecondsPerDay * daysSinceEpoch + kSecondsPerHour * tm_hour t
          + 60 * tm_min t + tm_sec t)
  end.

(** ** Rebasing of Julian days *)

Definition julianGregDiffSwitchDay : list Z :=
  [-1048195; -975145; -938620; -902095; -829045; -792520; -755995;
   -682945; -646420; -609895; -536845; -500320; -463795; -390745;
   -354220; -317695; -244645; -208120; -171595; -141427].

Definition julianGregDiffs : list Z :=
  [8; 7; 6; 5; 4; 3; 2; 1; 0; -1; -2; -3; -4; -5; -6; -7; -8; -9; -10; 0].

(** The binary search over the switch days. *)
Fixpoint rebase_loop (fuel : nat) (days first last out : Z) : result Z :=
  if first <=? last then
    match fuel with
    | O => Err OutOfFuel
    | S fuel' =>
        let mid := Z.shiftr (first + last) 1 in
        match julianGregDiffSwitchDay !! Z.to_nat mid with
        | None => Err BadAccess
        | Some switch =>
            if days >=? switch then rebase_loop fuel' days (mid + 1) last mid
            else rebase_loop fuel' days first (mid - 1) out
        end
    end
  else Ok out.

Definition grebaseJulianToGregorianDays (days : Z) : result Z :=
  let! out := rebase_loop 6 days 0 19 0 in
  match julianGregDiffs !! Z.to_nat out with
  | None => Err BadAccess
  | Some diff => Ok (days + diff)
  end.

(** * Leap years *)

(** A year from which on the count of leap years is right. *)
Definition first_year : Z := - kLeapYearOffset + 5.

Lemma leap_step y :
  first_year <= y -> leapThroughEndOf y - leapThroughEndOf (y - 1) = Z.b2z (isLeap y).
Proof.
  unfold first_year. intros Hy. unfold leapThroughEndOf, isLeap. cbv zeta.
  set (x := y + kLeapYearOffset). replace (y - 1 + kLeapYearOffset) with (x - 1) by lia.
  assert (Z.rem y 4 = 0 <-> Z.rem x 4 = 0) as H4 by (unfold x; euclid).
  assert (Z.rem y 100 = 0 <-> Z.rem x 100 = 0) as H100 by (unfold x; euclid).
  assert (Z.rem y 400 = 0 <-> Z.rem x 400 = 0) as H400 by (unfold x; euclid).
  assert (0 < x) as Hx by (unfold x; lia). clearbody x. clear Hy.
  replace (Z.rem y 4 =? 0) with (Z.rem x 4 =? 0) by (apply eq_iff_eq_true; rewrite !Z.eqb_eq; naive_solver).
  replace (Z.rem y 100 =? 0) with (Z.rem x 100 =? 0) by (apply eq_iff_eq_true; rewrite !Z.eqb_eq; naive_solver).
  replace (Z.rem y 400 =? 0) with (Z.rem x 400 =? 0) by (apply eq_iff_eq_true; rewrite !Z.eqb_eq; naive_solver).
  clear y H4 H100 H400.
  destruct (Z.rem x 4 =? 0) eqn:E4, (Z.rem x 100 =? 0) eqn:E100, (Z.rem x 400 =? 0) eqn:E400;
    simpl; euclid.
Qed.

Lemma leaps_bound y k :
  first_year <= y -> 0 <= k ->
  0 <= leapThroughEndOf (y + k) - leapThroughEndOf y <= (k + 3) / 4.
Proof.
  unfold first_year, leapThroughEndOf. intros Hy Hk. cbv zeta.
  set (x := y + kLeapYearOffset).
  replace (y + k + kLeapYearOffset) with (x + k) by lia.
  assert (0 < x) by (unfold x; lia). clearbody x. euclid.
Qed.

(** The day number of the first day of a year. *)
Definition year_start (y : Z) : Z := daysBetweenYears 1970 y.

Definition year_length (y : Z) : Z := kDaysPerYear + Z.b2z (isLeap y).

Lemma year_start_next y :
  first_year <= y -> year_start (y + 1) = year_start y + year_length y.
Proof.
  intros Hy. unfold year_start, year_length, daysBetweenYears.
  pose proof (leap_step y Hy) as Hl. replace (y + 1 - 1) with y by lia. lia.
Qed.

Lemma year_start_span y1 y2 :
  year_start y2 = year_start y1 + daysBetweenYears y1 y2.
Proof. unfold year_start, daysBetweenYears. lia. Qed.

Lemma year_length_bounds y : 365 <= year_length y <= 366.
Proof. unfold year_length. destruct (isLeap y); simpl; lia. Qed.

Lemma year_start_mono y k :
  first_year <= y - 1 -> 0 <= k ->
  year_start y + 365 * k <= year_start (y + k) <= year_start y + 365 * k + (k + 3) / 4.
Proof.
  intros Hy Hk. unfold year_start, daysBetweenYears.
  pose proof (leaps_bound (y - 1) k Hy Hk) as Hb.
  replace (y + k - 1) with (y - 1 + k) by lia. lia.
Qed.

(** * The year search *)

(** What the loop maintains: the years it visits are above [first_year]. *)
Definition loop_inv (y days : Z) : Prop :=
  first_year + 1 <= y
  /\ (days < 0 -> first_year + 1 <= y + Z.quot days kDaysPerYear - 1).

Definition next_year (y days : Z) : Z :=
  y + Z.quot days kDaysPerYear - (if days <? 0 then 1 else 0).

(** Days before the start of the year: the new year starts before them. *)
Lemma step_back y days :
  loop_inv y days -> days < 0 ->
  let newy := next_year y days in
  let days' := days - daysBetweenYears y newy in
  first_year + 1 <= newy
  /\ 1 <= days' <= 365 + ((- days) / 365 + 4) / 4
  /\ days' = days + (year_start y - year_start newy).
Proof.
  intros [Hy Hb] Hd. unfold next_year. replace (days <? 0) with true by lia. cbv zeta.
  set (newy := y + Z.quot days 365 - 1) in *. specialize (Hb Hd).
  set (k := - days / 365 + 1).
  assert (y = newy + k) as Hk by (unfold newy, k; euclid).
  pose proof (year_start_span y newy) as Hs.
  pose proof (year_start_mono newy k ltac:(unfold first_year in *; lia)
                ltac:(unfold k; euclid)) as Hm.
  rewrite <- Hk in Hm. clearbody newy.
  generalize dependent (daysBetweenYears y newy). intros span Hs.
  generalize dependent (year_start y). generalize dependent (year_start newy).
  intros sn sy Hs Hm. unfold k in *. split_and!; euclid.
Qed.

(** At least a year of days: the new year is later. *)
Lemma step_forward y days :
  loop_inv y days -> 365 <= days ->
  let newy := next_year y days in
  let days' := days - daysBetweenYears y newy in
  loop_inv newy days'
  /\ - ((days / 365 + 3) / 4) <= days' <= 364
  /\ days' = days + (year_start y - year_start newy).
Proof.
  intros [Hy _] Hd. unfold next_year. replace (days <? 0) with false by lia. cbv zeta.
  set (newy := y + Z.quot days 365 - 0) in *. set (k := days / 365).
  assert (newy = y + k) as Hk by (unfold newy, k; euclid).
  pose proof (year_start_span y newy) as Hs.
  pose proof (year_start_mono y k ltac:(unfold first_year in *; lia)
                ltac:(unfold k; euclid)) as Hm.
  rewrite <- Hk in Hm. clearbody newy. unfold loop_inv.
  generalize dependent (daysBetweenYears y newy). intros span Hs.
  generalize dependent (year_start y). generalize dependent (year_start newy).
  intros sn sy Hs Hm. unfold k in *. split_and!; euclid.
Qed.

(** The result of the search: the year the day falls in. *)
Definition found (N y days : Z) : Prop :=
  first_year + 1 <= y /\ 0 <= days < year_length y /\ year_start y + days = N.

Lemma year_loop_stop fuel y days :
  loop_inv y days -> 0 <= days < year_length y ->
  year_loop daysBetweenYears fuel y days = Ok (y, days)
  /\ found (year_start y + days) y days.
Proof.
  intros [Hy _] Hd. split; [|by split_and?]. unfold year_length in *.
  destruct fuel; simpl;
    replace (days <? 0) with false by lia;
    by replace (days >=? 365 + Z.b2z (isLeap y)) with false by lia.
Qed.

Lemma year_loop_step fuel y days :
  days < 0 \/ year_length y <= days ->
  year_loop daysBetweenYears (S fuel) y days
  = year_loop daysBetweenYears fuel (next_year y days)
      (days - daysBetweenYears y (next_year y days)).
Proof.
  unfold year_length. intros Hd. simpl. unfold next_year.
  destruct (days <? 0) eqn:E; [done|].
  by replace (days >=? 365 + Z.b2z (isLeap y)) with true by lia.
Qed.

Definition terminates (fuel : nat) (M : Z) : Prop :=
  forall y days, loop_inv y days -> - M <= days <= M ->
    exists y' days', year_loop daysBetweenYears fuel y days = Ok (y', days')
      /\ found (year_start y + days) y' days'.

Lemma step_inv y days :
  loop_inv y days -> days < 0 \/ year_length y <= days ->
  let newy := next_year y days in
  let days' := days - daysBetweenYears y newy in
  loop_inv newy days' /\ year_start newy + days' = year_start y + days
  /\ (days < 0 -> 1 <= days' <= 365 + ((- days) / 365 + 4) / 4)
  /\ (0 <= days -> - ((days / 365 + 3) / 4) <= days' <= 364).
Proof.
  intros Hinv Hd. pose proof (year_length_bounds y).
  destruct (decide (days < 0)) as [Hneg|Hpos].
  - destruct (step_back y days Hinv Hneg) as (Hy & Hb & He). cbv zeta in *.
    split_and!; [split; [done|lia]|lia|done|lia].
  - destruct (step_forward y days Hinv ltac:(lia)) as (Hi & Hb & He). cbv zeta in *.
    split_and!; [done|lia|lia|done].
Qed.

(** One more iteration covers 1460 times as many days. *)
Lemma terminates_step fuel M :
  366 <= M -> terminates fuel (367 + M / 1460) -> terminates (S fuel) M.
Proof.
  intros HM Hf y days Hinv Hd. pose proof (year_length_bounds y).
  destruct (decide (0 <= days < year_length y)) as [Hin|Hout].
  { exists y, days. by apply year_loop_stop. }
  assert (days < 0 \/ year_length y <= days) as Hc by lia.
  rewrite year_loop_step by done.
  destruct (step_inv y days Hinv Hc) as (Hi & <- & Hback & Hfwd). cbv zeta in *.
  apply Hf; [done|]. clear Hf. revert Hback Hfwd.
  generalize (days - daysBetweenYears y (next_year y days)). intros d Hback Hfwd.
  euclid.
Qed.

Lemma span_next y :
  first_year + 1 <= y -> daysBetweenYears y (y + 1) = year_length y.
Proof.
  intros Hy. pose proof (year_start_span y (y + 1)).
  rewrite year_start_next in * by lia. lia.
Qed.

Lemma span_previous y :
  first_year + 2 <= y -> daysBetweenYears y (y - 1) = - year_length (y - 1).
Proof.
  intros Hy. pose proof (span_next (y - 1) ltac:(lia)) as Hs.
  unfold daysBetweenYears in *. replace (y - 1 + 1) with y in Hs by lia. lia.
Qed.

(** A search within about a year of the right one. *)
Lemma terminates_small : terminates 2 400.
Proof.
  intros y days Hinv Hd. pose proof (year_length_bounds y).
  destruct (decide (0 <= days < year_length y)) as [Hin|Hout].
  { exists y, days. by apply year_loop_stop. }
  assert (days < 0 \/ year_length y <= days) as Hc by lia.
  pose proof (step_inv y days Hinv Hc) as (Hi & He & Hback & Hfwd). cbv zeta in *.
  rewrite year_loop_step by done. rewrite <- He.
  pose proof Hinv as [Hy Hb].
  destruct (decide (days < 0)) as [Hneg|Hpos].
  2: { replace (next_year y days) with (y + 1) in *
         by (unfold next_year; replace (days <? 0) with false by lia; euclid).
       rewrite span_next in * by done. eexists _, _. apply year_loop_stop; [done|].
       pose proof (year_length_bounds (y + 1)). lia. }
  specialize (Hb Hneg). unfold first_year in *.
  destruct (decide (-365 < days)) as [Hone|Htwo].
  { replace (next_year y days) with (y - 1) in *
      by (unfold next_year; replace (days <? 0) with true by lia; euclid).
    rewrite span_previous in * by (unfold first_year; euclid).
    eexists _, _. apply year_loop_stop; [done|]. lia. }
  replace (next_year y days) with (y - 2) in *
    by (unfold next_year; replace (days <? 0) with true by lia; euclid).
  set (d := days - daysBetweenYears y (y - 2)) in *.
  assert (d = days + year_length (y - 2) + year_length (y - 1)) as Hd2.
  { unfold d. pose proof (span_previous y ltac:(unfold first_year; euclid)) as H1.
    pose proof (span_next (y - 2) ltac:(unfold first_year; euclid)) as H2.
    replace (y - 2 + 1) with (y - 1) in H2 by lia. unfold daysBetweenYears in *. lia. }
  pose proof (year_length_bounds (y - 1)). pose proof (year_length_bounds (y - 2)).
  destruct (decide (d < year_length (y - 2))) as [Hlt|Hge].
  { eexists _, _. apply year_loop_stop; [done|lia]. }
  assert (d < 0 \/ year_length (y - 2) <= d) as Hc' by lia.
  pose proof (step_inv (y - 2) d Hi Hc') as (Hi' & He' & _). cbv zeta in *.
  rewrite year_loop_step by done. rewrite <- He'.
  replace (next_year (y - 2) d) with (y - 1) in *
    by (unfold next_year; replace (d <? 0) with false by lia; euclid).
  eexists _, _. apply year_loop_stop; [done|].
  pose proof (span_next (y - 2) ltac:(unfold first_year; euclid)) as H2.
  replace (y - 2 + 1) with (y - 1) in H2 by lia. lia.
Qed.

Lemma year_loop_terminates : terminates kYearLoopFuel 140000000000000.
Proof.
  apply terminates_step; [lia|]. apply terminates_step; [vm_compute; done|].
  apply terminates_step; [vm_compute; done|]. apply terminates_step; [vm_compute; done|].
  apply terminates_step; [vm_compute; done|].
  intros y days Hinv Hd. apply terminates_small; [done|].
  revert Hd. vm_compute (367 + _). lia.
Qed.

(** * Months *)

(** The day [d] of a year is in the month [mon], which has [before] days before
    it, and both ways of finding it agree. *)
Definition month_of_day (leap : bool) (d mon before len : Z) : Prop :=
  0 <= mon < 12 /\ before <= d < before + len
  /\ daysBeforeFirstDayOfMonth leap !! Z.to_nat mon = Some before
  /\ monthLengths leap !! Z.to_nat mon = Some len
  /\ upper_bound_index (daysBeforeFirstDayOfMonth leap) d - 1 = mon
  /\ month_loop (monthLengths leap) 0 d = Ok (mon, d - before).

Definition check_day (leap : bool) (d : Z) : bool :=
  let mon := upper_bound_index (daysBeforeFirstDayOfMonth leap) d - 1 in
  match daysBeforeFirstDayOfMonth leap !! Z.to_nat mon,
        monthLengths leap !! Z.to_nat mon,
        month_loop (monthLengths leap) 0 d with
  | Some before, Some len, Ok (mon', rest) =>
      (0 <=? mon) && (mon <? 12) && (before <=? d) && (d <? before + len)
      && (mon' =? mon) && (rest =? d - before)
  | _, _, _ => false
  end.

Lemma check_day_sound leap d :
  check_day leap d = true -> exists mon before len, month_of_day leap d mon before len.
Proof.
  unfold check_day. set (mon := upper_bound_index _ _ - 1).
  destruct (_ !! _) as [before|] eqn:E1; [|done].
  destruct (monthLengths leap !! _) as [len|] eqn:E2; [|done].
  destruct (month_loop _ _ _) as [[mon' rest]|] eqn:E3; [|done].
  intros H. exists mon, before, len. unfold month_of_day.
  split_and!; try done; try zbool. rewrite E3. do 2 f_equal; zbool.
Qed.

Lemma months_checked :
  forallb (check_day true) (seqZ 0 366) && forallb (check_day false) (seqZ 0 365) = true.
Proof. vm_compute. done. Qed.

Lemma month_of_day_exists y d :
  0 <= d < year_length y ->
  exists mon before len, month_of_day (isLeap y) d mon before len.
Proof.
  intros Hd. apply check_day_sound. pose proof months_checked as [Hl Hn]%andb_true_iff.
  rewrite forallb_forall in Hl, Hn. unfold year_length in Hd.
  destruct (isLeap y); simpl in Hd; [apply Hl|apply Hn];
    apply list_elem_of_In, elem_of_seqZ; lia.
Qed.

(** A month of the calendar determines the day of the year. *)
Definition check_month (leap : bool) (mon mday : Z) : bool :=
  match daysBeforeFirstDayOfMonth leap !! Z.to_nat mon,
        monthLengths leap !! Z.to_nat mon with
  | Some before, Some len =>
      (len <? mday)
      || ((upper_bound_index (daysBeforeFirstDayOfMonth leap) (before + mday - 1) - 1
           =? mon)
          && (before + mday - 1 <? 365 + Z.b2z leap) && (0 <=? before))
  | _, _ => false
  end.

Lemma check_months_checked :
  forallb (fun leap => forallb (fun mon => forallb (check_month leap mon) (seqZ 1 31))
                         (seqZ 0 12)) [true; false] = true.
Proof. vm_compute. done. Qed.

Lemma month_determines leap mon mday before len :
  0 <= mon < 12 -> 1 <= mday <= len -> len <= 31 ->
  daysBeforeFirstDayOfMonth leap !! Z.to_nat mon = Some before ->
  monthLengths leap !! Z.to_nat mon = Some len ->
  upper_bound_index (daysBeforeFirstDayOfMonth leap) (before + mday - 1) - 1 = mon
  /\ 0 <= before /\ before + mday - 1 < 365 + Z.b2z leap.
Proof.
  intros Hmon Hmday Hlen Hb Hl. pose proof check_months_checked as Hc.
  rewrite forallb_forall in Hc. specialize (Hc leap). rewrite forallb_forall in Hc.
  specialize (Hc ltac:(destruct leap; simpl; auto) mon). rewrite forallb_forall in Hc.
  specialize (Hc ltac:(apply list_elem_of_In, elem_of_seqZ; lia) mday).
  specialize (Hc ltac:(apply list_elem_of_In, elem_of_seqZ; lia)).
  unfold check_month in Hc. rewrite Hb, Hl in Hc. split_and!; zbool.
Qed.

(** * The conversions *)

Lemma normalize_rem_spec epoch :
  normalize_rem 1 (Z.quot epoch kSecondsPerDay) (Z.rem epoch kSecondsPerDay)
  = Ok (epoch / kSecondsPerDay, epoch mod kSecondsPerDay).
Proof.
  simpl. destruct (Z.rem epoch 86400 <? 0) eqn:E.
  - replace (Z.rem epoch 86400 + 86400 <? 0) with false by euclid.
    do 2 f_equal; euclid.
  - do 2 f_equal; euclid.
Qed.

Lemma year_loop_ext span span' fuel y days :
  (forall a b, span a b = span' a b) ->
  year_loop span fuel y days = year_loop span' fuel y days.
Proof.
  intros He. revert y days. induction fuel as [|fuel IH]; intros y days; simpl; [done|].
  by rewrite He, IH.
Qed.

(** The calendar fields of second [epoch] when its day is day [d] of year [y]
    and of a month with [before] days before it. *)
Definition fields (epoch y d mon before : Z) : tm := {|
  tm_sec := epoch mod 60;
  tm_min := epoch mod 3600 / 60;
  tm_hour := epoch mod kSecondsPerDay / 3600;
  tm_mday := d - before + 1;
  tm_mon := mon;
  tm_year := y - kTmYearBase;
  tm_wday := (4 + epoch / kSecondsPerDay) mod 7;
  tm_yday := d
|}.

Lemma year_search epoch :
  INT64_MIN <= epoch <= INT64_MAX ->
  - kLeapYearOffset + 10 < 1970 + Z.quot (epoch / kSecondsPerDay) 365 ->
  exists y d, year_loop daysBetweenYears kYearLoopFuel 1970 (epoch / kSecondsPerDay)
      = Ok (y, d)
    /\ found (epoch / kSecondsPerDay) y d.
Proof.
  intros He Hg.
  destruct (year_loop_terminates 1970 (epoch / kSecondsPerDay)) as (y & d & Hl & Hf).
  - unfold loop_inv, first_year in *. split; [lia|]. lia.
  - euclid.
  - exists y, d. split; [done|]. by replace (year_start 1970 + _)
      with (epoch / kSecondsPerDay) in Hf.
Qed.

Lemma conversions_spec epoch :
  INT64_MIN <= epoch <= INT64_MAX ->
  - kLeapYearOffset + 10 < 1970 + Z.quot (epoch / kSecondsPerDay) 365 ->
  exists y d mon before len,
    found (epoch / kSecondsPerDay) y d
    /\ month_of_day (isLeap y) d mon before len
    /\ let r := if in_int32_range (y - kTmYearBase)
                then Some (fields epoch y d mon before) else None in
       epochToCalendarUtc epoch = Ok r /\ epochToUtc epoch = Ok r.
Proof.
  intros He Hg. destruct (year_search epoch He Hg) as (y & d & Hl & Hf).
  pose proof Hf as (_ & Hd & _).
  destruct (month_of_day_exists y d Hd) as (mon & before & len & Hm).
  exists y, d, mon, before, len. split; [done|]. split; [done|]. cbv zeta.
  pose proof Hm as (Hmon & Hb & Hbefore & _ & Hub & Hml).
  assert ((if Z.rem (4 + epoch / kSecondsPerDay) 7 <? 0
           then Z.rem (4 + epoch / kSecondsPerDay) 7 + 7
           else Z.rem (4 + epoch / kSecondsPerDay) 7)
          = (4 + epoch / kSecondsPerDay) mod 7) as Hw by (case_match; euclid).
  assert (Z.rem (Z.rem (epoch mod kSecondsPerDay) 3600) 60 = epoch mod 60) as Hs by euclid.
  assert (Z.quot (Z.rem (epoch mod kSecondsPerDay) 3600) 60 = epoch mod 3600 / 60)
    as Hmin by euclid.
  assert (Z.quot (epoch mod kSecondsPerDay) 3600 = epoch mod kSecondsPerDay / 3600)
    as Hh by euclid.
  unfold epochToCalendarUtc, epochToUtc. rewrite !normalize_rem_spec. cbn [rbind].
  cbv zeta. rewrite Hw, Hs, Hmin, Hh.
  replace (1970 + Z.quot (epoch / kSecondsPerDay) kDaysPerYear <=? - kLeapYearOffset + 10)
    with false by (unfold first_year in *; zbool).
  rewrite (year_loop_ext (fun y newy => (newy - y) * 365 + leapThroughEndOf (newy - 1)
      - leapThroughEndOf (y - 1)) daysBetweenYears)
    by (intros; unfold daysBetweenYears; lia).
  rewrite Hl. cbn [rbind]. split.
  - destruct (in_int32_range _); [|done]. cbn [negb]. rewrite Hub, Hbefore. done.
  - destruct (in_int32_range _); [|done]. cbn [negb]. rewrite Hml. done.
Qed.

Definition valid_tm (t : tm) : Prop :=
  0 <= tm_sec t < 60 /\ 0 <= tm_min t < 60 /\ 0 <= tm_hour t < 24
  /\ 0 <= tm_mon t < 12
  /\ (exists len, monthLengths (isLeap (tm_year t + 1900)) !! Z.to_nat (tm_mon t) = Some len
       /\ 1 <= tm_mday t <= len)
  /\ INT32_MIN <= tm_year t <= INT32_MAX.

Lemma found_unique N y d y' d' : found N y d -> found N y' d' -> y = y' /\ d = d'.
Proof.
  assert (forall a da b db, found N a da -> found N b db -> ~ a < b) as Hle.
  { intros a da b db (Ha & Hda & HN) (Hb & Hdb & HN') Hlt.
    pose proof (year_start_next a ltac:(unfold first_year in *; lia)) as Hn.
    pose proof (year_start_mono (a + 1) (b - (a + 1)) ltac:(unfold first_year in *; lia)
                  ltac:(lia)) as [Hm _].
    replace (a + 1 + (b - (a + 1))) with b in Hm by lia. lia. }
  intros Hf Hf'. pose proof (Hle _ _ _ _ Hf Hf'). pose proof (Hle _ _ _ _ Hf' Hf).
  assert (y = y') as -> by lia. split; [done|].
  destruct Hf as (_ & _ & ?), Hf' as (_ & _ & ?). lia.
Qed.

Lemma months_lookup leap mon :
  0 <= mon < 12 ->
  exists before len, daysBeforeFirstDayOfMonth leap !! Z.to_nat mon = Some before
    /\ monthLengths leap !! Z.to_nat mon = Some len /\ len <= 31.
Proof.
  intros Hm. assert (Z.to_nat mon < 12)%nat as Hn by lia. revert Hn.
  generalize (Z.to_nat mon). intros n Hn.
  do 12 (destruct n as [|n]; [destruct leap; eexists _, _; split_and!; (done || simpl; lia)|]).
  lia.
Qed.

Lemma calendarUtcToEpoch_spec t :
  0 <= tm_mon t < 12 ->
  exists before, daysBeforeFirstDayOfMonth (isLeap (tm_year t + 1900)) !! Z.to_nat (tm_mon t)
      = Some before
    /\ calendarUtcToEpoch t
       = Ok (kSecondsPerDay * (year_start (tm_year t + 1900) + (before + tm_mday t - 1))
             + 3600 * tm_hour t + 60 * tm_min t + tm_sec t).
Proof.
  intros Hm. destruct (months_lookup (isLeap (tm_year t + 1900)) (tm_mon t) Hm)
    as (before & len & Hb & _).
  exists before. split; [done|]. unfold calendarUtcToEpoch.
  replace (tm_mon t >? 11) with false by lia.
  replace (tm_mon t <? 0) with false by lia. rewrite Hb. unfold year_start.
  f_equal. lia.
Qed.

(** Years stay within about one 365th of the days. *)
Lemma found_year_bounds N y d :
  found N y d -> -110000000000 <= N <= 110000000000 ->
  -1000000000 <= y <= 1000000000.
Proof.
  intros (Hy & Hd & HN) Hb. pose proof (year_length_bounds y).
  change (year_start 1970) with 0.
  assert (year_start 1970 = 0) as H0 by done.
  destruct (decide (1970 <= y)).
  - pose proof (year_start_mono 1970 (y - 1970) ltac:(unfold first_year; lia)
                  ltac:(lia)) as [Hm _].
    replace (1970 + (y - 1970)) with y in Hm by lia. lia.
  - pose proof (year_start_mono y (1970 - y) ltac:(unfold first_year in *; lia)
                  ltac:(lia)) as [Hm _].
    replace (y + (1970 - y)) with 1970 in Hm by lia. lia.
Qed.

(** The conversions on the seconds of a timestamp. *)
Lemma epoch_fields epoch :
  kMinSeconds <= epoch <= kMaxSeconds ->
  exists t, epochToCalendarUtc epoch = Ok (Some t) /\ epochToUtc epoch = Ok (Some t)
    /\ valid_tm t /\ -1000000000 <= tm_year t + 1900 <= 1000000000
    /\ tm_wday t = (4 + epoch / kSecondsPerDay) mod 7
    /\ calendarUtcToEpoch t = Ok epoch.
Proof.
  intros Hs.
  destruct (conversions_spec epoch) as (y & d & mon & before & len & Hf & Hm & Hc & Hu);
    [euclid|euclid|]. cbv zeta in *.
  pose proof (found_year_bounds _ y d Hf ltac:(euclid)) as Hy.
  assert (in_int32_range (y - kTmYearBase) = true) as Hi
    by (unfold in_int32_range; zbool).
  rewrite Hi in Hc, Hu. eexists. split; [exact Hc|]. split; [exact Hu|].
  destruct Hm as (Hmon & Hb & Hbefore & Hlen & _).
  set (t := fields epoch y d mon before) in *.
  assert (tm_year t + 1900 = y) as Hyear by (unfold t, fields; simpl; lia).
  split_and!; [|lia|lia|done|].
  - unfold valid_tm. rewrite Hyear. unfold t, fields. simpl.
    split_and!; try euclid. exists len. split; [done|]. lia.
  - destruct (calendarUtcToEpoch_spec t Hmon) as (before' & Hb' & ->).
    rewrite Hyear in *. unfold t, fields in *. simpl in *. simplify_eq.
    destruct Hf as (_ & _ & HN). f_equal.
    match goal with |- context [year_start y + ?k] => replace k with d by lia end.
    rewrite HN. clear. euclid.
Qed.

(** * Properties *)

(** C17. For every 64-bit number of seconds the year search ends within its
    iterations and the two conversions to calendar fields agree. For the
    seconds of every timestamp they succeed, the fields are those of a valid
    date and time with the right weekday, and converting them back gives the
    seconds. *)
Theorem calendar_of_epoch epoch :
  INT64_MIN <= epoch <= INT64_MAX ->
  (exists r, epochToCalendarUtc epoch = Ok r /\ epochToUtc epoch = Ok r)
  /\ (kMinSeconds <= epoch <= kMaxSeconds ->
      exists t, epochToCalendarUtc epoch = Ok (Some t) /\ valid_tm t
        /\ tm_wday t = (4 + epoch / kSecondsPerDay) mod 7
        /\ calendarUtcToEpoch t = Ok epoch).
Proof.
  intros He. split.
  2: { intros (t & ? & _ & ? & _ & ? & ?)%epoch_fields. by exists t. }
  destruct (decide (- kLeapYearOffset + 10
    < 1970 + Z.quot (epoch / kSecondsPerDay) 365)) as [Hg|Hg].
  - destruct (conversions_spec epoch He Hg) as (y & d & mon & before & len & _ & _ & ? & ?).
    by eexists.
  - exists None. unfold epochToCalendarUtc, epochToUtc.
    rewrite !normalize_rem_spec. cbn [rbind].
    by replace (_ <=? - kLeapYearOffset + 10) with true by zbool.
Qed.

Lemma calendar_of_epoch_witness :
  let epoch := -1 in
  (exists r, epochToCalendarUtc epoch = Ok r /\ epochToUtc epoch = Ok r)
  /\ (kMinSeconds <= epoch <= kMaxSeconds ->
      exists t, epochToCalendarUtc epoch = Ok (Some t) /\ valid_tm t
        /\ tm_wday t = (4 + epoch / kSecondsPerDay) mod 7
        /\ calendarUtcToEpoch t = Ok epoch).
Proof. apply calendar_of_epoch. lia. Defined.

(** Converting the fields of a valid date and time to seconds and back
    gives the same fields, for every year the type can hold. *)
Theorem epoch_of_calendar t :
  valid_tm t ->
  exists epoch t', calendarUtcToEpoch t = Ok epoch
    /\ epochToCalendarUtc epoch = Ok (Some t')
    /\ tm_sec t' = tm_sec t /\ tm_min t' = tm_min t /\ tm_hour t' = tm_hour t
    /\ tm_mday t' = tm_mday t /\ tm_mon t' = tm_mon t /\ tm_year t' = tm_year t.
Proof.
  intros (Hs & Hmi & Hh & Hmon & (len & Hlen & Hmd) & Hyear).
  destruct (calendarUtcToEpoch_spec t Hmon) as (before & Hbefore & Hepoch).
  rewrite Hepoch. set (Y := tm_year t + 1900) in *.
  destruct (months_lookup (isLeap Y) (tm_mon t) Hmon) as (b' & l' & Hb' & Hl' & H31).
  simplify_eq.
  destruct (month_determines _ _ _ _ _ Hmon Hmd H31 Hbefore Hlen) as (Hub & Hb0 & Hbl).
  set (d := before + tm_mday t - 1) in *.
  set (epoch := kSecondsPerDay * _ + _ + _ + _).
  assert (epoch / kSecondsPerDay = year_start Y + d) as HN.
  { unfold epoch. clear Hepoch Hub. generalize (year_start Y + d). intros n. euclid. }
  assert (found (epoch / kSecondsPerDay) Y d) as Hf.
  { rewrite HN. unfold found, first_year, year_length, d, Y in *. split_and!; lia. }
  assert (-2147483648 * 366 - 800000 <= year_start Y + d <= 2147483647 * 366 + 800000) as Hbig.
  { assert (year_start 1970 = 0) as H0 by done.
    pose proof (year_length_bounds Y).
    destruct (decide (1970 <= Y)).
    - pose proof (year_start_mono 1970 (Y - 1970) ltac:(unfold first_year; lia)
                    ltac:(lia)) as Hm.
      replace (1970 + (Y - 1970)) with Y in Hm by lia. unfold Y, year_length in *. euclid.
    - pose proof (year_start_mono Y (1970 - Y) ltac:(unfold first_year, Y in *; lia)
                    ltac:(lia)) as Hm.
      replace (Y + (1970 - Y)) with 1970 in Hm by lia. unfold Y, year_length in *. euclid. }
  exists epoch.
  destruct (conversions_spec epoch) as (y & d' & mon & b & l & Hf' & Hm & Hc & _).
  { unfold epoch. lia. }
  { rewrite HN. euclid. }
  destruct (found_unique _ _ _ _ _ Hf Hf') as [<- <-].
  assert (in_int32_range (Y - kTmYearBase) = true) as Hi
    by (unfold in_int32_range, Y; zbool).
  rewrite Hi in Hc. destruct Hm as (_ & _ & Hb'' & _ & Hub' & _).
  rewrite Hub in Hub'. subst mon. simplify_eq.
  eexists. split; [done|]. split; [exact Hc|]. unfold fields. simpl.
  split_and!; try (unfold d, Y; lia); unfold epoch; clear Hepoch;
    generalize (year_start Y + d); intros n; euclid.
Qed.

Lemma epoch_of_calendar_witness :
  let t := mk_tm 59 59 23 29 1 100 0 0 in
  exists epoch t', calendarUtcToEpoch t = Ok epoch
    /\ epochToCalendarUtc epoch = Ok (Some t')
    /\ tm_sec t' = tm_sec t /\ tm_min t' = tm_min t /\ tm_hour t' = tm_hour t
    /\ tm_mday t' = tm_mday t /\ tm_mon t' = tm_mon t /\ tm_year t' = tm_year t.
Proof.
  apply epoch_of_calendar. unfold valid_tm. simpl.
  split_and!; try lia. exists 29. split; [reflexivity|lia].
Defined.
