(* ===== verification/Civil.v ===== *)
(** Civil dates (bolt/type/TimestampConversion.cpp): validity of dates, days
    since the epoch from a date, a week date or a day of the year, the civil
    date of a day, and the fields of a timestamp.  The theorems show that the
    table-driven conversion, the conversion by eras and the conversions of
    Calendar.v agree and are inverse to each other, and that the week number is
    that of ISO 8601. *)

From S2P Require Import Prelude StringView Timestamp Calendar.

(** * Tables and constants *)

Definition kLeapDays : list Z :=
  [0; 31; 29; 31; 30; 31; 30; 31; 31; 30; 31; 30; 31].
Definition kNormalDays : list Z :=
  [0; 31; 28; 31; 30; 31; 30; 31; 31; 30; 31; 30; 31].
Definition kCumulativeDays : list Z :=
  [0; 31; 59; 90; 120; 151; 181; 212; 243; 273; 304; 334; 365].
Definition kCumulativeLeapDays : list Z :=
  [0; 31; 60; 91; 121; 152; 182; 213; 244; 274; 305; 335; 366].

(** Days before each of the 400 years from 1970 on. *)
Definition kCumulativeYearDays : list Z :=
  [0; 365; 730; 1096; 1461; 1826; 2191; 2557; 2922;
   3287; 3652; 4018; 4383; 4748; 5113; 5479; 5844; 6209;
   6574; 6940; 7305; 7670; 8035; 8401; 8766; 9131; 9496;
   9862; 10227; 10592; 10957; 11323; 11688; 12053; 12418; 12784;
   13149; 13514; 13879; 14245; 14610; 14975; 15340; 15706; 16071;
   16436; 16801; 17167; 17532; 17897; 18262; 18628; 18993; 19358;
   19723; 20089; 20454; 20819; 21184; 21550; 21915; 22280; 22645;
   23011; 23376; 23741; 24106; 24472; 24837; 25202; 25567; 25933;
   26298; 26663; 27028; 27394; 27759; 28124; 28489; 28855; 29220;
   29585; 29950; 30316; 30681; 31046; 31411; 31777; 32142; 32507;
   32872; 33238; 33603; 33968; 34333; 34699; 35064; 35429; 35794;
   36160; 36525; 36890; 37255; 37621; 37986; 38351; 38716; 39082;
   39447; 39812; 40177; 40543; 40908; 41273; 41638; 42004; 42369;
   42734; 43099; 43465; 43830; 44195; 44560; 44926; 45291; 45656;
   46021; 46387; 46752; 47117; 47482; 47847; 48212; 48577; 48942;
   49308; 49673; 50038; 50403; 50769; 51134; 51499; 51864; 52230;
   52595; 52960; 53325; 53691; 54056; 54421; 54786; 55152; 55517;
   55882; 56247; 56613; 56978; 57343; 57708; 58074; 58439; 58804;
   59169; 59535; 59900; 60265; 60630; 60996; 61361; 61726; 62091;
   62457; 62822; 63187; 63552; 63918; 64283; 64648; 65013; 65379;
   65744; 66109; 66474; 66840; 67205; 67570; 67935; 68301; 68666;
   69031; 69396; 69762; 70127; 70492; 70857; 71223; 71588; 71953;
   72318; 72684; 73049; 73414; 73779; 74145; 74510; 74875; 75240;
   75606; 75971; 76336; 76701; 77067; 77432; 77797; 78162; 78528;
   78893; 79258; 79623; 79989; 80354; 80719; 81084; 81450; 81815;
   82180; 82545; 82911; 83276; 83641; 84006; 84371; 84736; 85101;
   85466; 85832; 86197; 86562; 86927; 87293; 87658; 88023; 88388;
   88754; 89119; 89484; 89849; 90215; 90580; 90945; 91310; 91676;
   92041; 92406; 92771; 93137; 93502; 93867; 94232; 94598; 94963;
   95328; 95693; 96059; 96424; 96789; 97154; 97520; 97885; 98250;
   98615; 98981; 99346; 99711; 100076; 100442; 100807; 101172; 101537;
   101903; 102268; 102633; 102998; 103364; 103729; 104094; 104459; 104825;
   105190; 105555; 105920; 106286; 106651; 107016; 107381; 107747; 108112;
   108477; 108842; 109208; 109573; 109938; 110303; 110669; 111034; 111399;
   111764; 112130; 112495; 112860; 113225; 113591; 113956; 114321; 114686;
   115052; 115417; 115782; 116147; 116513; 116878; 117243; 117608; 117974;
   118339; 118704; 119069; 119435; 119800; 120165; 120530; 120895; 121260;
   121625; 121990; 122356; 122721; 123086; 123451; 123817; 124182; 124547;
   124912; 125278; 125643; 126008; 126373; 126739; 127104; 127469; 127834;
   128200; 128565; 128930; 129295; 129661; 130026; 130391; 130756; 131122;
   131487; 131852; 132217; 132583; 132948; 133313; 133678; 134044; 134409;
   134774; 135139; 135505; 135870; 136235; 136600; 136966; 137331; 137696;
   138061; 138427; 138792; 139157; 139522; 139888; 140253; 140618; 140983;
   141349; 141714; 142079; 142444; 142810; 143175; 143540; 143905; 144271;
   144636; 145001; 145366; 145732; 146097].

Abbreviation kMinYear := (-292275055).
Abbreviation kMaxYear := 292278994.
Abbreviation kYearInterval := 400.
Abbreviation kDaysPerYearInterval := 146097.

(** * Dates *)

Definition isLeapYear (year : Z) : bool :=
  (Z.rem year 4 =? 0) && (negb (Z.rem year 100 =? 0) || (Z.rem year 400 =? 0)).

Definition getMaxDayOfMonth (year month : Z) : result Z :=
  if isLeapYear year then at_index kLeapDays month else at_index kNormalDays month.

Definition isValidDate (year month day : Z) : result bool :=
  if (month <? 1) || (month >? 12) then Ok false
  else if (year <? kMinYear) || (year >? kMaxYear) then Ok false
  else if day <? 1 then Ok false
  else
    if isLeapYear year then
      let! days := at_index kLeapDays month in Ok (day <=? days)
    else
      let! days := at_index kNormalDays month in Ok (day <=? days).

Definition isValidDayOfYear (year dayOfYear : Z) : bool :=
  if (year <? kMinYear) || (year >? kMaxYear) then false
  else if (dayOfYear <? 1) || (dayOfYear >? 365 + Z.b2z (isLeapYear year)) then false
  else true.

Definition daysBeforeMonthFirstDay (year month : Z) : result Z :=
  if isLeapYear year then at_index kCumulativeLeapDays (month - 1)
  else at_index kCumulativeDays (month - 1).

(** [while (year < 1970) { year += 400; days -= 146097; }] *)
Fixpoint years_up (fuel : nat) (year daysSinceEpoch : Z) : result (Z * Z) :=
  if year <? 1970 then
    match fuel with
    | O => Err OutOfFuel
    | S fuel' =>
        years_up fuel' (year + kYearInterval) (daysSinceEpoch - kDaysPerYearInterval)
    end
  else Ok (year, daysSinceEpoch).

(** [while (year >= 2370) { year -= 400; days += 146097; }] *)
Fixpoint years_down (fuel : nat) (year daysSinceEpoch : Z) : result (Z * Z) :=
  if year >=? 2370 then
    match fuel with
    | O => Err OutOfFuel
    | S fuel' =>
        years_down fuel' (year - kYearInterval) (daysSinceEpoch + kDaysPerYearInterval)
    end
  else Ok (year, daysSinceEpoch).

(** Iterations that are enough for a year: one for each interval between it and
    the years of the table. *)
Definition interval_fuel (year : Z) : nat :=
  Z.to_nat (Z.abs (year - 1970) / kYearInterval + 1).

(** The call with [isValid] given: [None] when it is set to false. *)
Definition tryDaysSinceEpochFromDate (year month day : Z) : result (option Z) :=
  let! valid := isValidDate year month day in
  if negb valid then Ok None
  else
    let fuel := interval_fuel year in
    let! loop := years_up fuel year 0 in
    let '(year, daysSinceEpoch) := loop in
    let! loop := years_down fuel year daysSinceEpoch in
    let '(year, daysSinceEpoch) := loop in
    let! yearDays := at_index kCumulativeYearDays (year - 1970) in
    let! monthDays :=
      if isLeapYear year then at_index kCumulativeLeapDays (month - 1)
      else at_index kCumulativeDays (month - 1) in
    Ok (Some (daysSinceEpoch + yearDays + monthDays + (day - 1))).

(** The call without it: an invalid date fails. *)
Definition daysSinceEpochFromDate (year month day : Z) : result Z :=
  let! days := tryDaysSinceEpochFromDate year month day in
  match days with Some days => Ok days | None => Err UserFail end.

Definition lastDayOfMonthSinceEpochFromDate (dateTime : tm) : result Z :=
  let year := tm_year dateTime + 1900 in
  let month := tm_mon dateTime + 1 in
  let! day := getMaxDayOfMonth year month in
  daysSinceEpochFromDate year month day.

Definition isValidWeekDate (weekYear weekOfYear dayOfWeek : Z) : bool :=
  if (dayOfWeek <? 1) || (dayOfWeek >? 7) then false
  else if (weekOfYear <? 1) || (weekOfYear >? 52) then false
  else if (weekYear <? kMinYear) || (weekYear >? kMaxYear) then false
  else true.

(** The argument is narrowed to 32 bits at the call. *)
Definition extractISODayOfTheWeek (daysSinceEpoch : Z) : Z :=
  let daysSinceEpoch := wrap_signed 32 daysSinceEpoch in
  if daysSinceEpoch <? 0 then 7 - Z.rem (- daysSinceEpoch + 3) 7
  else Z.rem (daysSinceEpoch + 3) 7 + 1.

Definition daysSinceEpochFromWeekDate (weekYear weekOfYear dayOfWeek : Z)
    : result Z :=
  if negb (isValidWeekDate weekYear weekOfYear dayOfWeek) then Err UserFail
  else
    let! daysSinceEpochOfJanFourth := daysSinceEpochFromDate weekYear 1 4 in
    let firstDayOfWeekYear := extractISODayOfTheWeek daysSinceEpochOfJanFourth in
    Ok (daysSinceEpochOfJanFourth - (firstDayOfWeekYear - 1)
        + 7 * (weekOfYear - 1) + dayOfWeek - 1).

Definition daysSinceEpochFromDayOfYear (year dayOfYear : Z) : result Z :=
  if negb (isValidDayOfYear year dayOfYear) then Err UserFail
  else
    let! startOfYear := daysSinceEpochFromDate year 1 1 in
    Ok (startOfYear + (dayOfYear - 1)).

(** * Fields of a day and of a timestamp *)

Record CivilDate : Type := mkCivilDate {
  cd_year : Z; cd_month : Z; cd_day : Z
}.

Record CivilTime : Type := mkCivilTime {
  ct_hour : Z; ct_minute : Z; ct_second : Z; ct_nanosecond : Z
}.

Record CivilDateTime : Type := mkCivilDateTime {
  cdt_date : CivilDate;
  cdt_time : CivilTime;
  cdt_daysSinceEpoch : Z;
  cdt_weekday : Z;
  cdt_dayOfYear : Z
}.

Definition civilFromDaysSinceEpoch (daysSinceEpoch : Z) : CivilDate :=
  let z := daysSinceEpoch + 719468 in
  let era := Z.quot (if z >=? 0 then z else z - 146096) 146097 in
  let doe := wrap_unsigned 32 (z - era * 146097) in
  let yoe := (doe - doe / 1460 + doe / 36524 - doe / 146096) / 365 in
  let y := yoe + era * 400 in
  let doy := doe - (365 * yoe + yoe / 4 - yoe / 100) in
  let mp := (5 * doy + 2) / 153 in
  let day := doy - (153 * mp + 2) / 5 + 1 in
  let month := if mp <? 10 then mp + 3 else mp - 9 in
  let y := y + (if month <=? 2 then 1 else 0) in
  {| cd_year := wrap_signed 32 y; cd_month := month; cd_day := day |}.

Definition weekdayFromDaysSinceEpoch (daysSinceEpoch : Z) : Z :=
  let weekday := Z.rem (daysSinceEpoch + 4) 7 in
  if weekday <? 0 then weekday + 7 else weekday.

Definition nanosToCivilTime (nanosInDay : Z) : CivilTime :=
  let kNanosPerHour := kNanosInSecond * 3600 in
  let kNanosPerMinute := kNanosInSecond * 60 in
  let hour := nanosInDay / kNanosPerHour in
  let nanosInDay := nanosInDay mod kNanosPerHour in
  let minute := nanosInDay / kNanosPerMinute in
  let nanosInDay := nanosInDay mod kNanosPerMinute in
  let second := nanosInDay / kNanosInSecond in
  let nanosecond := nanosInDay mod kNanosInSecond in
  {| ct_hour := hour; ct_minute := minute; ct_second := second;
     ct_nanosecond := nanosecond |}.

Definition validateCivilDateTimeRange (timestamp : Timestamp) (isPrecision : bool)
    : result unit :=
  if isPrecision then rmap (fun _ => tt) (toMillis timestamp)
  else rmap (fun _ => tt) (toMicros timestamp).

(** The day and the nanosecond of the day of a count of milliseconds. *)
Definition split_millis (millis : Z) : Z * Z :=
  let seconds := Z.quot millis 1000 in
  let millisRemainder := Z.rem millis 1000 in
  let '(millisRemainder, seconds) :=
    if millisRemainder <? 0 then (millisRemainder + 1000, seconds - 1)
    else (millisRemainder, seconds) in
  let daysSinceEpoch := Z.quot seconds kSecondsInDay in
  let secondsInDay := Z.rem seconds kSecondsInDay in
  let '(secondsInDay, daysSinceEpoch) :=
    if secondsInDay <? 0 then (secondsInDay + kSecondsInDay, daysSinceEpoch - 1)
    else (secondsInDay, daysSinceEpoch) in
  (daysSinceEpoch, secondsInDay * kNanosInSecond + millisRemainder * 1000000).

Definition toCivilDateTime (timestamp : Timestamp) (allowOverflow isPrecision : bool)
    : result CivilDateTime :=
  let! _ :=
    if negb allowOverflow then validateCivilDateTimeRange timestamp isPrecision
    else Ok tt in
  let! split :=
    if isPrecision then Ok (getDays timestamp, getNanosInDay timestamp)
    else
      let! millis :=
        if allowOverflow then toMillisAllowOverflow timestamp
        else toMillis timestamp in
      Ok (split_millis millis) in
  let '(daysSinceEpoch, nanosInDay) := split in
  let civilDate := civilFromDaysSinceEpoch daysSinceEpoch in
  let! before := daysBeforeMonthFirstDay (cd_year civilDate) (cd_month civilDate) in
  Ok {|
    cdt_date := civilDate;
    cdt_time := nanosToCivilTime nanosInDay;
    cdt_daysSinceEpoch := daysSinceEpoch;
    cdt_weekday := weekdayFromDaysSinceEpoch daysSinceEpoch;
    cdt_dayOfYear := before + cd_day civilDate
  |}.

Definition weeksInIsoYear (year : Z) : result Z :=
  let! jan1 := daysSinceEpochFromDate year 1 1 in
  let wdayJan1 := extractISODayOfTheWeek jan1 in
  Ok (if (wdayJan1 =? 4) || ((wdayJan1 =? 3) && isLeapYear year) then 53 else 52).

Definition isoWeek (d : CivilDateTime) : result Z :=
  let isoWeekday := extractISODayOfTheWeek (cdt_daysSinceEpoch d) in
  let isoWeek := Z.quot (10 + cdt_dayOfYear d - isoWeekday) 7 in
  let isoYear := cd_year (cdt_date d) in
  if isoWeek <? 1 then weeksInIsoYear (isoYear - 1)
  else
    let! weeksThisYear := weeksInIsoYear isoYear in
    Ok (if isoWeek >? weeksThisYear then 1 else isoWeek).

(** * Day numbers of dates *)

Lemma isLeapYear_isLeap y : isLeapYear y = isLeap y.
Proof. done. Qed.

(** The day number of a date, from the tables of Calendar.v. *)
Definition date_of_day (N y m d : Z) : Prop :=
  1 <= m <= 12
  /\ exists before len,
       daysBeforeFirstDayOfMonth (isLeap y) !! Z.to_nat (m - 1) = Some before
       /\ monthLengths (isLeap y) !! Z.to_nat (m - 1) = Some len
       /\ 1 <= d <= len /\ N = year_start y + before + d - 1.

Lemma leap_period y k : isLeap (y + 400 * k) = isLeap y.
Proof.
  unfold isLeap.
  assert (forall c, 0 < c -> 400 mod c = 0 ->
    (Z.rem (y + 400 * k) c =? 0) = (Z.rem y c =? 0)) as Hr.
  { intros c Hc Hd. apply eq_iff_eq_true. rewrite !Z.eqb_eq, !Z.rem_divide by lia.
    assert ((c | 400 * k)) as Hm.
    { apply Z.divide_mul_l. apply Z.mod_divide; lia. }
    split; intros Hx.
    - replace y with (y + 400 * k - 400 * k) by lia. by apply Z.divide_sub_r.
    - by apply Z.divide_add_r. }
  by rewrite !Hr.
Qed.

Lemma year_start_period y k :
  first_year <= y - 1 -> first_year <= y + 400 * k - 1 ->
  year_start (y + 400 * k) = year_start y + 146097 * k.
Proof.
  unfold first_year, year_start, daysBetweenYears, leapThroughEndOf. intros H1 H2. cbv zeta.
  replace (y + 400 * k - 1 + kLeapYearOffset) with (y - 1 + kLeapYearOffset + 400 * k) by lia.
  assert (0 <= y - 1 + kLeapYearOffset) as H3 by lia.
  assert (0 <= y - 1 + kLeapYearOffset + 400 * k) as H4 by lia. revert H3 H4.
  generalize (y - 1 + kLeapYearOffset). intros x H3 H4.
  enough (Z.quot (x + 400 * k) 4 - Z.quot (x + 400 * k) 100 + Z.quot (x + 400 * k) 400
    = Z.quot x 4 - Z.quot x 100 + Z.quot x 400 + 97 * k) by lia.
  euclid.
Qed.

(** The table of years holds the day numbers of their first days. *)
Lemma year_table i :
  0 <= i <= 400 -> at_index kCumulativeYearDays i = Ok (year_start (1970 + i)).
Proof.
  intros Hi.
  assert (forallb (fun i => match at_index kCumulativeYearDays i with
    | Ok d => d =? year_start (1970 + i) | Err _ => false end) (seqZ 0 401) = true) as Hc
    by (vm_compute; reflexivity).
  rewrite forallb_forall in Hc. specialize (Hc i).
  rewrite <- list_elem_of_In, elem_of_seqZ in Hc. specialize (Hc ltac:(lia)).
  destruct (at_index _ _); [|done]. f_equal. by apply Z.eqb_eq.
Qed.

(** The tables of months are those of Calendar.v, shifted by one. *)
Lemma month_tables (leap : bool) m :
  1 <= m <= 12 ->
  exists before len,
    daysBeforeFirstDayOfMonth leap !! Z.to_nat (m - 1) = Some before
    /\ monthLengths leap !! Z.to_nat (m - 1) = Some len /\ 28 <= len <= 31
    /\ at_index (if leap then kLeapDays else kNormalDays) m = Ok len
    /\ at_index (if leap then kCumulativeLeapDays else kCumulativeDays) (m - 1) = Ok before.
Proof.
  intros Hm. assert (m ∈ seqZ 1 12) as Hin by (apply elem_of_seqZ; lia). revert Hin.
  change (seqZ 1 12) with [1; 2; 3; 4; 5; 6; 7; 8; 9; 10; 11; 12].
  rewrite !elem_of_cons, elem_of_nil. intros Hin.
  repeat destruct Hin as [->|Hin]; try done;
    destruct leap; do 2 eexists; split_and!; try reflexivity; lia.
Qed.

Lemma isValidDate_spec y m d :
  isValidDate y m d = Ok true <-> kMinYear <= y <= kMaxYear /\ exists N, date_of_day N y m d.
Proof.
  unfold isValidDate. rewrite isLeapYear_isLeap.
  destruct ((m <? 1) || (m >? 12)) eqn:Em.
  { split; [done|]. intros (_ & N & Hm & _). lia. }
  destruct ((y <? _) || _) eqn:Ey; [split; [done|intros []; lia]|].
  destruct (month_tables (isLeap y) m ltac:(lia)) as (b & l & Hb & Hl & Hlen & Ht & _).
  destruct (d <? 1) eqn:Ed.
  { split; [done|]. intros (_ & N & _ & b' & l' & _ & _ & Hd & _). lia. }
  assert (isValidDate y m d = Ok (d <=? l)) as Hv.
  { unfold isValidDate. rewrite isLeapYear_isLeap, Em, Ey, Ed.
    destruct (isLeap y); by rewrite Ht. }
  unfold isValidDate in Hv. rewrite isLeapYear_isLeap, Em, Ey, Ed in Hv. rewrite Hv.
  split.
  - intros [= Hd]. split; [lia|]. exists (year_start y + b + d - 1). split; [lia|].
    exists b, l. split_and!; try done; lia.
  - intros (_ & N & _ & b' & l' & _ & Hl' & Hd & _). simplify_eq. f_equal. lia.
Qed.

Lemma isValidDate_total y m d : is_ok (isValidDate y m d) = true.
Proof.
  unfold isValidDate. rewrite isLeapYear_isLeap.
  destruct ((m <? 1) || (m >? 12)) eqn:Em; [done|].
  destruct ((y <? _) || _); [done|]. destruct (d <? 1); [done|].
  destruct (month_tables (isLeap y) m ltac:(lia)) as (b & l & _ & _ & _ & Ht & _).
  destruct (isLeap y); by rewrite Ht.
Qed.

Lemma years_up_spec fuel y days :
  1970 - y <= 400 * Z.of_nat fuel ->
  exists k, years_up fuel y days = Ok (y + 400 * k, days - 146097 * k)
    /\ 0 <= k /\ 1970 <= y + 400 * k /\ (k = 0 \/ y + 400 * k < 2370).
Proof.
  revert y days. induction fuel as [|fuel IH]; intros y days Hf; simpl.
  - replace (y <? 1970) with false by lia. exists 0. split_and!; [do 2 f_equal; lia|lia..].
  - destruct (y <? 1970) eqn:E.
    + destruct (IH (y + 400) (days - 146097)) as (k & -> & Hk0 & Hk & Hk'); [lia|].
      exists (k + 1). split_and!; [do 2 f_equal; lia|lia..].
    + exists 0. split_and!; [do 2 f_equal; lia|lia..].
Qed.

Lemma years_down_spec fuel y days :
  y - 2369 <= 400 * Z.of_nat fuel -> 1970 <= y ->
  exists k, years_down fuel y days = Ok (y - 400 * k, days + 146097 * k)
    /\ 0 <= k /\ 1970 <= y - 400 * k < 2370.
Proof.
  revert y days. induction fuel as [|fuel IH]; intros y days Hf Hy; simpl.
  - replace (y >=? 2370) with false by lia. exists 0. split_and!; [do 2 f_equal; lia|lia..].
  - destruct (y >=? 2370) eqn:E.
    + destruct (IH (y - 400) (days + 146097)) as (k & -> & Hk0 & Hk); [lia..|].
      exists (k + 1). split_and!; [do 2 f_equal; lia|lia..].
    + exists 0. split_and!; [do 2 f_equal; lia|lia..].
Qed.

(** Days since the epoch of a valid date. *)
Lemma tryDays_spec N y m d :
  kMinYear <= y <= kMaxYear -> date_of_day N y m d ->
  tryDaysSinceEpochFromDate y m d = Ok (Some N).
Proof.
  intros Hy HN. unfold tryDaysSinceEpochFromDate.
  rewrite (proj2 (isValidDate_spec y m d)) by eauto. cbn [rbind negb].
  destruct HN as (Hm & before & len & Hb & _ & _ & ->).
  assert (Z.of_nat (interval_fuel y) = Z.abs (y - 1970) / 400 + 1) as Hfuel
    by (unfold interval_fuel; euclid).
  destruct (years_up_spec (interval_fuel y) y 0) as (k & -> & Hk0 & Hk & Hk'); [euclid|].
  cbn [rbind].
  destruct (years_down_spec (interval_fuel y) (y + 400 * k) (0 - 146097 * k))
    as (j & -> & Hj0 & Hj); [euclid|lia|].
  cbn [rbind]. rewrite year_table by lia. cbn [rbind].
  replace (1970 + (y + 400 * k - 400 * j - 1970)) with (y + 400 * (k - j)) by lia.
  replace (y + 400 * k - 400 * j) with (y + 400 * (k - j)) by lia.
  rewrite isLeapYear_isLeap, leap_period.
  rewrite year_start_period by (unfold first_year; lia).
  destruct (month_tables (isLeap y) m Hm) as (b & l & Hb' & _ & _ & _ & Ht). simplify_eq.
  replace (if isLeap y then _ else _) with (Ok before : result Z)
    by (destruct (isLeap y); by rewrite Ht).
  cbn [rbind]. do 2 f_equal. lia.
Qed.

Lemma tryDays_invalid y m d :
  isValidDate y m d = Ok false -> tryDaysSinceEpochFromDate y m d = Ok None.
Proof. intros H. unfold tryDaysSinceEpochFromDate. by rewrite H. Qed.

(** * The conversion by eras *)

(** Days of an era of 400 years from 1 March, without the days that the leap
    years of the era add, which increase with the day. *)
Definition era_days (doe : Z) : Z := doe - doe / 1460 + doe / 36524 - doe / 146096.

Lemma era_days_mono a b : 0 <= a <= b -> era_days a <= era_days b.
Proof.
  intros [Ha Hb]. replace b with (a + (b - a)) by lia.
  assert (0 <= b - a) as Hn by lia. revert Hn. generalize (b - a). clear Hb b.
  intros n Hn. revert n Hn. apply natlike_ind; [by rewrite Z.add_0_r|].
  intros n Hn IH. etransitivity; [exact IH|]. clear IH.
  replace (a + Z.succ n) with (a + n + 1) by lia.
  assert (0 <= a + n) by lia. generalize dependent (a + n). clear a Ha n Hn.
  intros x Hx. unfold era_days. euclid.
Qed.

(** The first day of a year of the era. *)
Definition era_year_start (yoe : Z) : Z := 365 * yoe + yoe / 4 - yoe / 100.

(** The last day of a year of the era. *)
Definition era_year_last (yoe : Z) : Z :=
  if yoe =? 399 then 146096 else era_year_start (yoe + 1) - 1.

(** Both ends of each year of an era give the year. *)
Lemma era_years_checked :
  forallb (fun yoe =>
    (era_days (era_year_start yoe) / 365 =? yoe)
    && (era_days (era_year_last yoe) / 365 =? yoe))
    (seqZ 0 400) = true.
Proof. vm_compute. reflexivity. Qed.

Lemma era_year_search doe k n :
  doe < 146097 -> (n + k = 399)%nat -> era_year_start (Z.of_nat n) <= doe ->
  exists yoe, 0 <= yoe < 400 /\ era_year_start yoe <= doe <= era_year_last yoe.
Proof.
  intros Hd. unfold era_year_last. revert n. induction k as [|k IH]; intros n Hn Hs.
  - exists 399. split; [lia|]. replace (Z.of_nat n) with 399 in Hs by lia.
    simpl. lia.
  - destruct (decide (doe < era_year_start (Z.of_nat n + 1))) as [Hlt|Hge].
    + exists (Z.of_nat n). replace (_ =? 399) with false by zbool. lia.
    + apply (IH (S n)); [lia|]. rewrite Nat2Z.inj_succ. unfold Z.succ. lia.
Qed.

Lemma era_year doe :
  0 <= doe < 146097 ->
  exists yoe, era_days doe / 365 = yoe /\ 0 <= yoe < 400
    /\ era_year_start yoe <= doe <= era_year_last yoe.
Proof.
  intros Hd.
  destruct (era_year_search doe 399 0) as (yoe & Hy & Hlo & Hhi);
    [lia|lia|change (era_year_start (Z.of_nat 0)) with 0; lia|].
  exists yoe. split_and!; try done; try lia.
  pose proof era_years_checked as Hc. rewrite forallb_forall in Hc.
  specialize (Hc yoe). rewrite <- list_elem_of_In, elem_of_seqZ in Hc.
  specialize (Hc ltac:(lia)).
  apply andb_true_iff in Hc as [H1%Z.eqb_eq H2%Z.eqb_eq].
  assert (0 <= era_year_start yoe) by (unfold era_year_start; euclid).
  pose proof (era_days_mono (era_year_start yoe) doe ltac:(lia)) as Hm1.
  pose proof (era_days_mono doe (era_year_last yoe) ltac:(lia)) as Hm2.
  apply (Z.div_le_mono _ _ 365) in Hm1, Hm2; lia.
Qed.

(** The month and the day from the day of a year that starts on 1 March. *)
Definition month_of_doy (doy : Z) : Z * Z :=
  let mp := (5 * doy + 2) / 153 in
  (if mp <? 10 then mp + 3 else mp - 9, doy - (153 * mp + 2) / 5 + 1).

Definition check_doy (leap leap' : bool) (doy : Z) : bool :=
  let '(m, d) := month_of_doy doy in
  let l := if m <=? 2 then leap' else leap in
  match daysBeforeFirstDayOfMonth l !! Z.to_nat (m - 1),
        monthLengths l !! Z.to_nat (m - 1) with
  | Some before, Some len =>
      (1 <=? m) && (m <=? 12) && (1 <=? d) && (d <=? len)
      && (if m <=? 2 then doy =? 306 + before + d - 1
          else doy =? before + d - 1 - 59 - Z.b2z leap)
  | _, _ => false
  end.

Lemma doys_checked :
  forallb (fun leap => forallb (fun leap' => forallb (check_doy leap leap')
    (seqZ 0 (365 + Z.b2z leap'))) [true; false]) [true; false] = true.
Proof. vm_compute. reflexivity. Qed.

Lemma check_doy_true leap leap' doy :
  0 <= doy < 365 + Z.b2z leap' -> check_doy leap leap' doy = true.
Proof.
  intros Hd. pose proof doys_checked as Hc. rewrite forallb_forall in Hc.
  specialize (Hc leap ltac:(destruct leap; simpl; auto)). rewrite forallb_forall in Hc.
  specialize (Hc leap' ltac:(destruct leap'; simpl; auto)). rewrite forallb_forall in Hc.
  apply Hc, list_elem_of_In, elem_of_seqZ. lia.
Qed.

(** Day numbers that the conversions accept: the years fit in 32 bits. *)
Abbreviation day_limit := 780000000000.

(** The first of March of year [yoe] of an era. *)
Lemma march_first era yoe :
  first_year <= yoe + 400 * era -> 0 <= yoe < 400 ->
  year_start (yoe + 400 * era) + 59 + Z.b2z (isLeap (yoe + 400 * era))
  = era * 146097 + era_year_start yoe - 719468.
Proof.
  intros Hf Hy. rewrite <- (leap_step (yoe + 400 * era)) by done.
  unfold year_start, daysBetweenYears, era_year_start, leapThroughEndOf, first_year in *.
  cbv zeta. replace (yoe + 400 * era + kLeapYearOffset)
    with (yoe + 400 * (era + 10000000)) by lia.
  assert (0 <= yoe + 400 * (era + 10000000)) by lia.
  assert (-10000000 <= era) as He by lia. set (e := era + 10000000) in *.
  replace era with (e - 10000000) by (unfold e; lia).
  assert (0 <= e) as He' by (unfold e; lia). clearbody e. clear era Hf He.
  assert (Z.quot (yoe + 400 * e) 4 = 100 * e + yoe / 4) as -> by euclid.
  assert (Z.quot (yoe + 400 * e) 100 = 4 * e + yoe / 100) as -> by euclid.
  assert (Z.quot (yoe + 400 * e) 400 = e) as -> by euclid.
  change (Z.quot (1970 - 1 + kLeapYearOffset) 4) with 1000000492.
  change (Z.quot (1970 - 1 + kLeapYearOffset) 100) with 40000019.
  change (Z.quot (1970 - 1 + kLeapYearOffset) 400) with 10000004.
  lia.
Qed.

Lemma civil_spec N :
  - day_limit <= N <= day_limit ->
  let c := civilFromDaysSinceEpoch N in
  date_of_day N (cd_year c) (cd_month c) (cd_day c)
  /\ - 2140000000 <= cd_year c <= 2140000000.
Proof.
  intros HN. unfold civilFromDaysSinceEpoch.
  set (z := N + 719468). cbv zeta.
  assert (Z.quot (if z >=? 0 then z else z - 146096) 146097 = z / 146097) as ->
    by (case_match; euclid).
  set (era := z / 146097).
  assert (wrap_unsigned 32 (z - era * 146097) = z mod 146097) as ->.
  { rewrite wrap_unsigned_id; unfold era; euclid. }
  set (doe := z mod 146097).
  assert (z = era * 146097 + doe /\ 0 <= doe < 146097) as [Hz Hdoe]
    by (unfold era, doe; euclid).
  clearbody era doe. unfold z in Hz. clear z.
  assert (-5400000 <= era <= 5400000) as Hera by lia.
  destruct (era_year doe Hdoe) as (yoe & Hyoe & Hy & Hlo & Hhi).
  unfold era_days in Hyoe. rewrite Hyoe. fold (era_year_start yoe).
  set (doy := doe - era_year_start yoe).
  replace (yoe + era * 400) with (yoe + 400 * era) by lia.
  set (Y := yoe + 400 * era).
  assert (0 <= doy < 365 + Z.b2z (isLeap (Y + 1))) as Hdoy.
  { split; [unfold doy; lia|]. unfold Y.
    replace (yoe + 400 * era + 1) with (yoe + 1 + 400 * era) by lia.
    rewrite leap_period. unfold doy, era_year_last, era_year_start in *.
    destruct (yoe =? 399) eqn:E.
    - replace yoe with 399 by lia. vm_compute (isLeap (399 + 1)). simpl. euclid.
    - unfold isLeap. destruct (_ && _) eqn:El; simpl; euclid. }
  pose proof (check_doy_true (isLeap Y) (isLeap (Y + 1)) doy Hdoy) as Hc.
  unfold check_doy in Hc. unfold month_of_doy in Hc.
  set (mp := (5 * doy + 2) / 153) in *.
  set (m := if mp <? 10 then mp + 3 else mp - 9) in *.
  set (d := doy - (153 * mp + 2) / 5 + 1) in *.
  pose proof (march_first era yoe ltac:(unfold first_year; lia) Hy) as Hmarch. fold Y in Hmarch.
  assert (doy = doe - era_year_start yoe) as Hdoe' by done. clearbody m d doy. clear mp.
  cbn [cd_year cd_month cd_day].
  rewrite wrap_signed_id by (try lia; unfold Y; destruct (m <=? 2); lia).
  set (y := Y + (if m <=? 2 then 1 else 0)).
  assert (isLeap y = if m <=? 2 then isLeap (Y + 1) else isLeap Y) as Hl
    by (unfold y; destruct (m <=? 2); f_equal; lia).
  split; [|unfold y, Y; destruct (m <=? 2); lia].
  unfold date_of_day. rewrite Hl.
  destruct (_ !! _) as [before|] eqn:Hb; [|done].
  destruct (monthLengths _ !! _) as [len|] eqn:Hlen; [|done].
  rewrite !andb_true_iff, !Z.leb_le in Hc. destruct Hc as [[[[? ?] ?] ?] Hc].
  split; [lia|]. exists before, len. split_and!; try done.
  unfold y. destruct (m <=? 2); apply Z.eqb_eq in Hc.
  - rewrite year_start_next by (unfold first_year, Y; lia). unfold year_length. lia.
  - rewrite Z.add_0_r. lia.
Qed.

(** ** Dates and day numbers determine each other *)

Lemma date_found N y m d :
  first_year + 1 <= y -> date_of_day N y m d ->
  exists before, daysBeforeFirstDayOfMonth (isLeap y) !! Z.to_nat (m - 1) = Some before
    /\ found N y (before + d - 1)
    /\ upper_bound_index (daysBeforeFirstDayOfMonth (isLeap y)) (before + d - 1) = m.
Proof.
  intros Hy (Hm & before & len & Hb & Hl & Hd & ->). exists before. split; [done|].
  destruct (month_tables (isLeap y) m Hm) as (b & l & Hb' & Hl' & Hlen & _). simplify_eq.
  destruct (month_determines (isLeap y) (m - 1) d before len) as (Hu & H0 & Hlt);
    [lia|done|lia|done|done|].
  split; [|lia]. unfold found, year_length. split_and!; lia.
Qed.

Lemma date_unique N y m d y' m' d' :
  first_year + 1 <= y -> first_year + 1 <= y' ->
  date_of_day N y m d -> date_of_day N y' m' d' -> y = y' /\ m = m' /\ d = d'.
Proof.
  intros Hy Hy' Hd Hd'.
  destruct (date_found N y m d Hy Hd) as (b & Hb & Hf & Hu).
  destruct (date_found N y' m' d' Hy' Hd') as (b' & Hb' & Hf' & Hu').
  destruct (found_unique _ _ _ _ _ Hf Hf') as [-> He]. rewrite He, Hu' in Hu. subst m'.
  split; [done|]. split; [done|]. simplify_eq. lia.
Qed.

Lemma year_start_bounds y :
  kMinYear - 1 <= y <= kMaxYear + 2 -> - day_limit <= year_start y - 1000
    /\ year_start y + 1000 <= day_limit.
Proof.
  intros Hy. assert (year_start 1970 = 0) as H0 by done.
  destruct (decide (1970 <= y)).
  - pose proof (year_start_mono 1970 (y - 1970) ltac:(unfold first_year; lia)
                  ltac:(lia)) as Hm.
    replace (1970 + (y - 1970)) with y in Hm by lia. euclid.
  - pose proof (year_start_mono y (1970 - y) ltac:(unfold first_year in *; lia)
                  ltac:(lia)) as Hm.
    replace (y + (1970 - y)) with 1970 in Hm by lia. euclid.
Qed.

Lemma date_limits N y m d :
  kMinYear <= y <= kMaxYear -> date_of_day N y m d ->
  year_start y <= N < year_start (y + 1) /\ - day_limit <= N <= day_limit.
Proof.
  intros Hy HN. destruct (date_found N y m d ltac:(unfold first_year; lia) HN)
    as (b & _ & (_ & Hd & <-) & _).
  pose proof (year_start_bounds y ltac:(lia)).
  rewrite (year_start_next y) by (unfold first_year; lia).
  pose proof (year_length_bounds y). lia.
Qed.

Lemma civil_of_date N y m d :
  first_year + 1 <= y -> - day_limit <= N <= day_limit -> date_of_day N y m d ->
  civilFromDaysSinceEpoch N = mkCivilDate y m d.
Proof.
  intros Hy Hl HN. destruct (civil_spec N Hl) as [Hc Hcy]. cbv zeta in *.
  destruct (civilFromDaysSinceEpoch N) as [y' m' d']. simpl in *.
  destruct (date_unique N y' m' d' y m d) as (-> & -> & ->);
    unfold first_year in *; try done; lia.
Qed.

(** ** Weekdays and weeks *)

Lemma extractISODayOfTheWeek_spec N :
  INT32_MIN <= N <= INT32_MAX -> extractISODayOfTheWeek N = (N + 3) mod 7 + 1.
Proof.
  intros HN. unfold extractISODayOfTheWeek. rewrite wrap_signed_id by lia.
  case_match; euclid.
Qed.

Lemma weekday_spec N : weekdayFromDaysSinceEpoch N = (4 + N) mod 7.
Proof. unfold weekdayFromDaysSinceEpoch. case_match; euclid. Qed.

(** Years whose days are 32-bit integers. *)
Lemma year_start_int32 y :
  -5800000 <= y <= 5800000 -> INT32_MIN <= year_start y - 1000
    /\ year_start y + 1000 <= INT32_MAX.
Proof.
  intros Hy. assert (year_start 1970 = 0) as H0 by done.
  destruct (decide (1970 <= y)).
  - pose proof (year_start_mono 1970 (y - 1970) ltac:(unfold first_year; lia)
                  ltac:(lia)) as Hm.
    replace (1970 + (y - 1970)) with y in Hm by lia. euclid.
  - pose proof (year_start_mono y (1970 - y) ltac:(unfold first_year in *; lia)
                  ltac:(lia)) as Hm.
    replace (y + (1970 - y)) with 1970 in Hm by lia. euclid.
Qed.

Lemma first_of_january y : date_of_day (year_start y) y 1 1.
Proof.
  split; [lia|]. destruct (month_tables (isLeap y) 1 ltac:(lia))
    as (b & l & Hb & Hl & Hlen & _).
  assert (b = 0) as -> by (destruct (isLeap y); simpl in Hb; by simplify_eq).
  exists 0, l. split_and!; try done; lia.
Qed.

Lemma weeksInIsoYear_spec y :
  -5800000 <= y <= 5800000 ->
  weeksInIsoYear y
  = Ok (if (year_start y mod 7 =? 0) || ((year_start y mod 7 =? 6) && isLeap y)
        then 53 else 52).
Proof.
  intros Hy. unfold weeksInIsoYear, daysSinceEpochFromDate.
  rewrite (tryDays_spec (year_start y)) by (try apply first_of_january; lia).
  cbn [rbind]. pose proof (year_start_int32 y Hy).
  rewrite extractISODayOfTheWeek_spec by lia. rewrite isLeapYear_isLeap. f_equal.
  replace ((year_start y + 3) mod 7 + 1 =? 4) with (year_start y mod 7 =? 0)
    by (apply eq_iff_eq_true; rewrite !Z.eqb_eq; euclid).
  replace ((year_start y + 3) mod 7 + 1 =? 3) with (year_start y mod 7 =? 6)
    by (apply eq_iff_eq_true; rewrite !Z.eqb_eq; euclid).
  done.
Qed.

(** ** The fields of a timestamp *)

Lemma split_millis_spec millis :
  split_millis millis
  = (millis / 86400000, millis mod 86400000 * 1000000).
Proof.
  unfold split_millis.
  assert (forall a b, 0 < b -> (if Z.rem a b <? 0 then (Z.rem a b + b, Z.quot a b - 1)
    else (Z.rem a b, Z.quot a b)) = (a mod b, a / b)) as Hfloor.
  { intros a b Hb. pose proof (Z.quot_rem' a b) as Hqr.
    pose proof (Z.rem_bound_abs a b ltac:(lia)). rewrite (Z.abs_eq b) in * by lia.
    destruct (_ <? 0) eqn:E.
    - assert (a / b = Z.quot a b - 1) as Hq by (symmetry; apply (Z.div_unique _ _ _ (Z.rem a b + b)); lia).
      rewrite Hq, Z.mod_eq, Hq by lia. f_equal. lia.
    - assert (a / b = Z.quot a b) as Hq by (symmetry; apply (Z.div_unique _ _ _ (Z.rem a b)); lia).
      rewrite Hq, Z.mod_eq, Hq by lia. f_equal. lia. }
  rewrite (Hfloor millis 1000) by lia.
  rewrite (Hfloor _ kSecondsInDay) by (unfold kSecondsInDay; lia).
  rewrite Z.div_div by (unfold kSecondsInDay; lia). f_equal. euclid.
Qed.

Lemma getDays_spec ts : getDays ts = seconds_ ts / kSecondsInDay.
Proof. unfold getDays. case_match; euclid. Qed.

Lemma getNanosInDay_spec ts :
  0 <= nanos_ ts <= kMaxNanos ->
  getNanosInDay ts = nanos_ ts + kNanosInSecond * (seconds_ ts mod kSecondsInDay).
Proof.
  intros Hn. unfold getNanosInDay. rewrite wrap_unsigned_id by (case_match; euclid).
  case_match; euclid.
Qed.

Lemma nanosToCivilTime_spec s n :
  0 <= n <= kMaxNanos ->
  nanosToCivilTime (n + kNanosInSecond * (s mod kSecondsInDay))
  = mkCivilTime (s mod kSecondsInDay / 3600) (s mod 3600 / 60) (s mod 60) n.
Proof. intros Hn. unfold nanosToCivilTime. cbv zeta. f_equal; euclid. Qed.

(** The day and the nanosecond that [toCivilDateTime] breaks up. *)
Lemma toCivilDateTime_split ts allowOverflow isPrecision :
  0 <= nanos_ ts <= kMaxNanos ->
  validateCivilDateTimeRange ts isPrecision = Ok tt ->
  let n := if isPrecision : bool then nanos_ ts else nanos_ ts / 1000000 * 1000000 in
  (if isPrecision then Ok (getDays ts, getNanosInDay ts)
   else
     let! millis := if allowOverflow : bool then toMillisAllowOverflow ts else toMillis ts in
     Ok (split_millis millis))
  = Ok (seconds_ ts / kSecondsInDay,
        n + kNanosInSecond * (seconds_ ts mod kSecondsInDay)).
Proof.
  intros Hn Hv. destruct isPrecision; simpl.
  - by rewrite getDays_spec, getNanosInDay_spec.
  - unfold validateCivilDateTimeRange in Hv. unfold toMicros in Hv.
    destruct (fit64 _) as [m|] eqn:Em; [|done]. apply fit64_Ok in Em as [-> Hm].
    assert (forall m, m = seconds_ ts * 1000 + nanos_ ts / 1000000 ->
      Ok (split_millis m) = Ok (seconds_ ts / kSecondsInDay,
        nanos_ ts / 1000000 * 1000000 + kNanosInSecond * (seconds_ ts mod kSecondsInDay)))
      as Hs by (intros ? ->; rewrite split_millis_spec; f_equal; f_equal; euclid).
    destruct allowOverflow.
    + unfold toMillisAllowOverflow. rewrite ck64_in by euclid. cbn [rbind].
      rewrite sadd64_in by euclid. by apply (Hs _ eq_refl).
    + unfold toMillis.
      assert (INT64_MIN <= seconds_ ts * 1000 + nanos_ ts / 1000000 <= INT64_MAX) as Hr
        by euclid.
      rewrite (proj2 (fit64_Ok _ _) (conj eq_refl Hr)).
      by apply (Hs _ eq_refl).
Qed.

(** The days of the supported years are the dates with these years. *)
Lemma year_supported N y m d :
  first_year + 1 <= y -> date_of_day N y m d ->
  year_start kMinYear <= N < year_start (kMaxYear + 1) -> kMinYear <= y <= kMaxYear.
Proof.
  intros Hfy Hc HN.
  destruct (date_found N y m d Hfy Hc) as (b & _ & (_ & Hd & HN') & _).
  assert (forall a b, first_year + 1 <= a -> first_year + 1 <= b ->
    a < b -> year_start a + 365 <= year_start b) as Hmono.
  { intros a b' Ha Hb' Hab. pose proof (year_start_mono a (b' - a)
      ltac:(unfold first_year in *; lia) ltac:(lia)) as [Hm _].
    replace (a + (b' - a)) with b' in Hm by lia. lia. }
  split; apply Z.nlt_ge; intros Hlt.
  - pose proof (year_start_next y ltac:(lia)).
    destruct (decide (y + 1 = kMinYear)) as [He|He]; [rewrite He in *; lia|].
    pose proof (Hmono (y + 1) kMinYear ltac:(lia) ltac:(unfold first_year; lia) ltac:(lia)). lia.
  - destruct (decide (y = kMaxYear + 1)) as [He|He]; [rewrite He in *; lia|].
    pose proof (Hmono (kMaxYear + 1) y ltac:(unfold first_year; lia) ltac:(lia) ltac:(lia)). lia.
Qed.

(** * Properties *)

(** C20. The days since the epoch of a date, by steps of 400 years and a table,
    are those of [calendarUtcToEpoch] at midnight, and the conversion by eras
    gives the date back. The function accepts exactly the valid dates and
    fails on the others. *)
Theorem days_of_date y m d :
  exists valid, isValidDate y m d = Ok valid
    /\ if valid : bool then
         exists N, daysSinceEpochFromDate y m d = Ok N
           /\ civilFromDaysSinceEpoch N = mkCivilDate y m d
           /\ calendarUtcToEpoch (mk_tm 0 0 0 d (m - 1) (y - 1900) 0 0)
              = Ok (kSecondsPerDay * N)
       else daysSinceEpochFromDate y m d = Err UserFail.
Proof.
  pose proof (isValidDate_total y m d) as Ht. destruct (isValidDate y m d) as [[]|] eqn:Ev;
    [| |done]; eexists; (split; [done|]).
  - apply isValidDate_spec in Ev as (Hy & N & HN). exists N.
    unfold daysSinceEpochFromDate. rewrite (tryDays_spec N) by done.
    split; [done|]. split.
    { apply civil_of_date; [unfold first_year; lia|by eapply date_limits|done]. }
    destruct HN as (Hm & before & len & Hb & Hl & Hd & ->).
    destruct (calendarUtcToEpoch_spec (mk_tm 0 0 0 d (m - 1) (y - 1900) 0 0))
      as (b & Hb' & ->); [simpl; lia|].
    simpl in *. replace (y - 1900 + 1900) with y in * by lia. simplify_eq. f_equal. lia.
  - unfold daysSinceEpochFromDate. by rewrite tryDays_invalid.
Qed.

(** The conversion by eras is right on every day of the supported years:
    the date it gives is valid and its days since the epoch are that day. *)
Theorem date_of_days N :
  year_start kMinYear <= N < year_start (kMaxYear + 1) ->
  let c := civilFromDaysSinceEpoch N in
  isValidDate (cd_year c) (cd_month c) (cd_day c) = Ok true
  /\ daysSinceEpochFromDate (cd_year c) (cd_month c) (cd_day c) = Ok N.
Proof.
  intros HN c. pose proof (year_start_bounds kMinYear ltac:(lia)).
  pose proof (year_start_bounds (kMaxYear + 1) ltac:(lia)).
  destruct (civil_spec N ltac:(lia)) as [Hc Hcy]. fold c in Hc, Hcy. clearbody c.
  destruct c as [y m d]. simpl in *.
  assert (kMinYear <= y <= kMaxYear) as Hy
    by (eapply year_supported; [unfold first_year; lia|done|done]).
  split; [apply isValidDate_spec; eauto|].
  unfold daysSinceEpochFromDate. by rewrite (tryDays_spec N).
Qed.

Lemma date_of_days_witness :
  let c := civilFromDaysSinceEpoch (-719529) in
  isValidDate (cd_year c) (cd_month c) (cd_day c) = Ok true
  /\ daysSinceEpochFromDate (cd_year c) (cd_month c) (cd_day c) = Ok (-719529).
Proof. apply date_of_days. vm_compute. split; [discriminate|reflexivity]. Defined.

(** The fields of a timestamp computed by eras and tables agree with those
    of [epochToCalendarUtc]: date, time, weekday and day of the year, with the
    nanoseconds cut to milliseconds when the precision is not asked for. *)
Theorem toCivilDateTime_fields ts allowOverflow isPrecision :
  Timestamp_wf ts -> validateCivilDateTimeRange ts isPrecision = Ok tt ->
  exists t, epochToCalendarUtc (seconds_ ts) = Ok (Some t)
    /\ toCivilDateTime ts allowOverflow isPrecision = Ok {|
         cdt_date := mkCivilDate (tm_year t + 1900) (tm_mon t + 1) (tm_mday t);
         cdt_time := mkCivilTime (tm_hour t) (tm_min t) (tm_sec t)
           (if isPrecision : bool then nanos_ ts else nanos_ ts / 1000000 * 1000000);
         cdt_daysSinceEpoch := seconds_ ts / kSecondsPerDay;
         cdt_weekday := tm_wday t;
         cdt_dayOfYear := tm_yday t + 1 |}.
Proof.
  intros [Hs Hn] Hv.
  destruct (conversions_spec (seconds_ ts)) as (y & d & mon & before & len & Hf & Hm & Hc & _);
    [euclid|euclid|]. cbv zeta in Hc.
  pose proof (found_year_bounds _ y d Hf ltac:(euclid)) as Hy.
  replace (in_int32_range (y - kTmYearBase)) with true in Hc
    by (symmetry; unfold in_int32_range; zbool).
  eexists. split; [exact Hc|]. unfold toCivilDateTime.
  replace (if negb allowOverflow then _ else _) with (Ok tt : result unit)
    by (by destruct allowOverflow).
  cbn [rbind]. rewrite (toCivilDateTime_split ts allowOverflow isPrecision Hn Hv). cbn [rbind].
  destruct Hm as (Hmon & Hb & Hbefore & Hlen & _).
  assert (date_of_day (seconds_ ts / kSecondsInDay) y (mon + 1) (d - before + 1)) as Hdate.
  { destruct Hf as (_ & _ & HN). change kSecondsInDay with kSecondsPerDay. rewrite <- HN.
    split; [lia|]. exists before, len.
    replace (mon + 1 - 1) with mon by lia. split_and!; try done; lia. }
  assert (civilFromDaysSinceEpoch (seconds_ ts / kSecondsInDay)
    = mkCivilDate y (mon + 1) (d - before + 1)) as ->.
  { apply civil_of_date; [unfold first_year; lia|euclid|done]. }
  cbn [cd_year cd_month cd_day]. unfold daysBeforeMonthFirstDay. rewrite isLeapYear_isLeap.
  destruct (month_tables (isLeap y) (mon + 1)) as (b & l & Hb' & _ & _ & _ & Ht); [lia|].
  replace (mon + 1 - 1) with mon in * by lia. simplify_eq.
  replace (if isLeap y then _ else _) with (Ok before : result Z)
    by (destruct (isLeap y); by rewrite Ht).
  cbn [rbind]. unfold fields. simpl. f_equal.
  change kSecondsInDay with kSecondsPerDay.
  rewrite weekday_spec. f_equal; [f_equal; lia| |lia].
  rewrite (nanosToCivilTime_spec (seconds_ ts)); [done|destruct isPrecision; euclid].
Qed.

Lemma toCivilDateTime_fields_witness :
  let ts := mkTimestamp (-1) 7000001 in
  exists t, epochToCalendarUtc (seconds_ ts) = Ok (Some t)
    /\ toCivilDateTime ts false false = Ok {|
         cdt_date := mkCivilDate (tm_year t + 1900) (tm_mon t + 1) (tm_mday t);
         cdt_time := mkCivilTime (tm_hour t) (tm_min t) (tm_sec t)
           (nanos_ ts / 1000000 * 1000000);
         cdt_daysSinceEpoch := seconds_ ts / kSecondsPerDay;
         cdt_weekday := tm_wday t;
         cdt_dayOfYear := tm_yday t + 1 |}.
Proof.
  apply (toCivilDateTime_fields (mkTimestamp (-1) 7000001) false false);
    [vm_compute; split; split; discriminate|reflexivity].
Defined.

(** The week number is that of ISO 8601, the number of the week of the
    Thursday of the same week in the year of that Thursday, for the days that
    are 32-bit integers. *)
Theorem isoWeek_iso8601 N y doy thursday yT doyT time weekday m d :
  -5799998 <= y <= 5799998 -> found N y doy ->
  thursday = N - (N + 3) mod 7 + 3 -> found thursday yT doyT ->
  isoWeek (mkCivilDateTime (mkCivilDate y m d) time N weekday (doy + 1))
  = Ok (doyT / 7 + 1).
Proof.
  intros Hy (Hfy & Hd & HN) -> (HfT & HdT & HT).
  pose proof (year_start_int32 y ltac:(lia)). pose proof (year_length_bounds y).
  pose proof (year_start_next y ltac:(unfold first_year; lia)) as Hnext.
  pose proof (year_start_next (y - 1) ltac:(unfold first_year; lia)) as Hprev.
  replace (y - 1 + 1) with y in Hprev by lia. pose proof (year_length_bounds (y - 1)).
  unfold isoWeek. simpl. rewrite extractISODayOfTheWeek_spec by lia.
  set (w := (N + 3) mod 7) in *. assert (0 <= w < 7) as Hw by (unfold w; euclid).
  assert ((N - w + 3) mod 7 = 0) as Hthu by (unfold w; euclid).
  clearbody w.
  assert (Z.quot (10 + (doy + 1) - (w + 1)) 7 = (doy - w + 3) / 7 + 1) as -> by euclid.
  rewrite !weeksInIsoYear_spec by lia. cbn [rbind].
  unfold year_length in *.
  assert (forall a da, found (N - w + 3) a da -> yT = a /\ doyT = da) as Huniq.
  { intros a da Hf. apply (found_unique (N - w + 3)); [|done].
    unfold found, year_length. split_and!; lia. }
  destruct (_ <? 1) eqn:E.
  - assert (doy - w + 3 < 0) by euclid.
    destruct (Huniq (y - 1) (year_length (y - 1) + (doy - w + 3))) as [_ ->].
    { unfold found, year_length in *. split_and!; unfold first_year; lia. }
    f_equal. unfold year_length. destruct (isLeap (y - 1)); simpl Z.b2z in *;
      rewrite ?andb_true_r, ?andb_false_r; case_match; euclid.
  - assert (0 <= doy - w + 3) by euclid. f_equal.
    destruct (decide (doy - w + 3 < year_length y)) as [Hin|Hout].
    + destruct (Huniq y (doy - w + 3)) as [_ ->].
      { unfold found. split_and!; unfold first_year; lia. }
      unfold year_length in *. destruct (isLeap y); simpl Z.b2z in *;
        rewrite ?andb_true_r, ?andb_false_r; repeat case_match; euclid.
    + destruct (Huniq (y + 1) (doy - w + 3 - year_length y)) as [_ ->].
      { unfold found. pose proof (year_length_bounds (y + 1)).
        unfold year_length in *. split_and!; unfold first_year; lia. }
      unfold year_length in *. destruct (isLeap y); simpl Z.b2z in *;
        rewrite ?andb_true_r, ?andb_false_r; repeat case_match; euclid.
Qed.

Lemma isoWeek_iso8601_witness :
  isoWeek (mkCivilDateTime (mkCivilDate 2021 1 1) (mkCivilTime 0 0 0 0) 18628 5 (0 + 1))
  = Ok (365 / 7 + 1).
Proof.
  apply (isoWeek_iso8601 18628 2021 0 18627 2020 365).
  - lia.
  - unfold found, first_year. vm_compute. done.
  - reflexivity.
  - unfold found, first_year. vm_compute. done.
Defined.

(** A week date is the day with that weekday in that ISO week of the week
    year; a day of the year is counted from the first of January, and the last
    day of a month is the last one the month has.  Arguments out of range
    fail. *)
Theorem week_and_ordinal_dates y week dow k :
  -5799998 <= y <= 5799998 ->
  (if isValidWeekDate y week dow then
     exists N, daysSinceEpochFromWeekDate y week dow = Ok N
       /\ (N + 3) mod 7 + 1 = dow
       /\ exists doyT, found (N - dow + 4) y doyT /\ doyT / 7 + 1 = week
   else daysSinceEpochFromWeekDate y week dow = Err UserFail)
  /\ (if isValidDayOfYear y k then
        daysSinceEpochFromDayOfYear y k = Ok (year_start y + k - 1)
      else daysSinceEpochFromDayOfYear y k = Err UserFail)
  /\ forall t, tm_year t + 1900 = y -> 0 <= tm_mon t < 12 ->
       exists N len, lastDayOfMonthSinceEpochFromDate t = Ok N
         /\ monthLengths (isLeap y) !! Z.to_nat (tm_mon t) = Some len
         /\ date_of_day N y (tm_mon t + 1) len.
Proof.
  intros Hy. split_and!.
  - destruct (isValidWeekDate y week dow) eqn:E;
      unfold daysSinceEpochFromWeekDate; rewrite E; [|done].
    assert (1 <= dow <= 7 /\ 1 <= week <= 52) as [Hdow Hweek].
    { unfold isValidWeekDate in E. repeat case_match; simplify_eq; lia. }
    assert (date_of_day (year_start y + 3) y 1 4) as Hj.
    { split; [lia|]. destruct (month_tables (isLeap y) 1 ltac:(lia))
        as (b & l & Hb & Hl & Hlen & _).
      assert (b = 0) as -> by (destruct (isLeap y); simpl in Hb; by simplify_eq).
      exists 0, l. split_and!; try done; lia. }
    unfold daysSinceEpochFromDate. cbn [negb].
    rewrite (tryDays_spec (year_start y + 3)) by (try done; lia). cbn [rbind].
    pose proof (year_start_int32 y ltac:(lia)).
    rewrite extractISODayOfTheWeek_spec by lia. eexists. split; [done|]. split; [euclid|].
    exists (7 - ((year_start y + 3 + 3) mod 7 + 1) + 7 * (week - 1)).
    unfold found. pose proof (year_length_bounds y).
    split; [split_and!; [unfold first_year; lia|euclid|euclid|lia]|euclid].
  - destruct (isValidDayOfYear y k) eqn:E;
      unfold daysSinceEpochFromDayOfYear; rewrite E; [|done].
    unfold daysSinceEpochFromDate. cbn [negb].
    rewrite (tryDays_spec (year_start y)) by (try apply first_of_january; lia).
    cbn [rbind]. f_equal. lia.
  - intros t Ht Hm. unfold lastDayOfMonthSinceEpochFromDate. rewrite Ht.
    destruct (month_tables (isLeap y) (tm_mon t + 1)) as (b & l & Hb & Hl & Hlen & Hk & _); [lia|].
    unfold getMaxDayOfMonth. rewrite isLeapYear_isLeap.
    replace (if isLeap y then _ else _) with (Ok l : result Z)
      by (destruct (isLeap y); by rewrite Hk).
    cbn [rbind].
    assert (date_of_day (year_start y + b + l - 1) y (tm_mon t + 1) l) as Hd.
    { split; [lia|]. exists b, l. split_and!; try done; lia. }
    unfold daysSinceEpochFromDate. rewrite (tryDays_spec _ y _ _ ltac:(lia) Hd).
    do 2 eexists. split; [done|]. replace (tm_mon t + 1 - 1) with (tm_mon t) in Hl by lia. done.
Qed.

Lemma week_and_ordinal_dates_witness :
  (if isValidWeekDate 2020 53 5 then
     exists N, daysSinceEpochFromWeekDate 2020 53 5 = Ok N
       /\ (N + 3) mod 7 + 1 = 5
       /\ exists doyT, found (N - 5 + 4) 2020 doyT /\ doyT / 7 + 1 = 53
   else daysSinceEpochFromWeekDate 2020 53 5 = Err UserFail)
  /\ (if isValidDayOfYear 2020 366 then
        daysSinceEpochFromDayOfYear 2020 366 = Ok (year_start 2020 + 366 - 1)
      else daysSinceEpochFromDayOfYear 2020 366 = Err UserFail)
  /\ forall t, tm_year t + 1900 = 2020 -> 0 <= tm_mon t < 12 ->
       exists N len, lastDayOfMonthSinceEpochFromDate t = Ok N
         /\ monthLengths (isLeap 2020) !! Z.to_nat (tm_mon t) = Some len
         /\ date_of_day N 2020 (tm_mon t + 1) len.
Proof. apply week_and_ordinal_dates. lia. Defined.

(** Week 53 exists: 1 January 2021 is in it, but it is rejected as a week
    date. *)
Lemma week_53_rejected :
  isoWeek (mkCivilDateTime (mkCivilDate 2021 1 1) (mkCivilTime 0 0 0 0) 18628 5 1) = Ok 53
  /\ daysSinceEpochFromWeekDate 2020 53 5 = Err UserFail
  /\ extractISODayOfTheWeek 18628 = 5.
Proof. vm_compute. done. Qed.

(** The weekday of a day beyond 32 bits is that of the narrowed number: day
    2147483648 is a Saturday, the function says Tuesday. *)
Lemma weekday_narrowed :
  weekdayFromDaysSinceEpoch 2147483648 = 6 /\ extractISODayOfTheWeek 2147483648 = 2.
Proof. vm_compute. done. Qed.
