(* ===== verification/TimestampFormat.v ===== *)
(** Formatting of timestamps (bolt/type/Timestamp.cpp): [tmToString], which
    builds a string with appends and reversals, [tmToStringView], which writes
    into preallocated memory, [getMaxStringLength], which says how much memory
    to allocate, and [countDigits] of bolt/common/base/CountBits.h.  The
    theorems show that both functions render the same text and that the second
    one stays within the memory. *)

From S2P Require Import Prelude Text StringView Timestamp Calendar.

(** * Options *)

Inductive Mode : Type :=
  | kFull | kDateOnly | kTimeOnly.

#[export] Instance Mode_eq_dec : EqDecision Mode.
Proof. solve_decision. Defined.

Record TimestampToStringOptions : Type := mkOptions {
  precision : TimestampPrecision;
  leadingPositiveSign : bool;
  skipTrailingZeros : bool;
  zeroPaddingYear : bool;
  dateTimeSeparator : Z;
  mode : Mode
}.

(** [static_cast<int8_t>(options.precision)] *)
Definition precisionWidth (options : TimestampToStringOptions) : Z :=
  match precision options with
  | kMilliseconds => 3
  | kMicroseconds => 6
  | kNanoseconds => 9
  end.

Definition getMaxStringLength (options : TimestampToStringOptions) : Z :=
  match mode options with
  | kDateOnly => 17
  | kTimeOnly => 9 + precisionWidth options
  | kFull => 27 + precisionWidth options
  end.

(** The fraction to print: nanoseconds divided down to the precision. *)
Definition scale_nanos (options : TimestampToStringOptions) (nanos : Z) : Z :=
  match precision options with
  | kMilliseconds => nanos / 1000000
  | kMicroseconds => nanos / 1000
  | kNanoseconds => nanos
  end.

(** * tmToString *)

(** The table [intToStr] of two-digit numbers. *)
Definition intToStr : list (list Z) :=
  map (fun n => [ch_0 + n / 10; ch_0 + n mod 10]) (seqZ 0 62).

Definition appendSmallInt (n : Z) (out : list Z) : result (list Z) :=
  let! s := at_index intToStr n in
  Ok (out ++ s).

(** [while (n > 0) { out += '0' + n % 10; n /= 10; }] *)
Fixpoint append_low_digits (fuel : nat) (n : Z) (out : list Z)
    : result (list Z) :=
  if n >? 0 then
    match fuel with
    | O => Err OutOfFuel
    | S fuel' => append_low_digits fuel' (n / 10) (out ++ [ch_0 + n mod 10])
    end
  else Ok out.

(** [while (out.size() < size) out += '0';] *)
Definition pad_zeros (size : Z) (out : list Z) : list Z :=
  out ++ repeat ch_0 (Z.to_nat (size - Z.of_nat (length out))).

(** [std::reverse(out.begin() + from, out.end())] *)
Definition reverse_from (from : Z) (out : list Z) : list Z :=
  take (Z.to_nat from) out ++ rev (drop (Z.to_nat from) out).

(** The loop of the fraction when trailing zeros are skipped. *)
Fixpoint append_nonzero_digits (fuel : nat) (nanos : Z) (offset : nat)
    (trailingZeros : Z) (out : list Z) : result (list Z * Z) :=
  if nanos >? 0 then
    match fuel with
    | O => Err OutOfFuel
    | S fuel' =>
        if Nat.eqb (length out) offset && (nanos mod 10 =? 0) then
          append_nonzero_digits fuel' (nanos / 10) offset (trailingZeros + 1) out
        else
          append_nonzero_digits fuel' (nanos / 10) offset trailingZeros
            (out ++ [ch_0 + nanos mod 10])
    end
  else Ok (out, trailingZeros).

Definition append_date (options : TimestampToStringOptions) (tmValue : tm)
    : result (list Z) :=
  let! n := ck32 (kTmYearBase + tm_year tmValue) in
  let sign := leadingPositiveSign options && (n >? 9999) in
  let negative := n <? 0 in
  let out := if negative then [ch_minus] else [] in
  let! n := if negative then ck32 (- n) else Ok n in
  let! out := append_low_digits kDigitFuel n out in
  let zeroPaddingYearSize := Z.b2z negative + 4 in
  let out :=
    if zeroPaddingYear options && (Z.of_nat (length out) <? zeroPaddingYearSize)
    then pad_zeros zeroPaddingYearSize out else out in
  let out := if sign then out ++ [ch_plus] else out in
  let out := reverse_from (Z.b2z negative) out in
  let! out := appendSmallInt (1 + tm_mon tmValue) (out ++ [ch_minus]) in
  appendSmallInt (tm_mday tmValue) (out ++ [ch_minus]).

Definition append_fraction (options : TimestampToStringOptions) (nanos : Z)
    (out : list Z) : result (list Z) :=
  let nanos := scale_nanos options nanos in
  if skipTrailingZeros options && (nanos =? 0) then Ok out
  else
    let out := out ++ [ch_dot] in
    let offset := length out in
    let! loop :=
      if skipTrailingZeros options then
        append_nonzero_digits kDigitFuel nanos offset 0 out
      else
        let! out := append_low_digits kDigitFuel nanos out in Ok (out, 0) in
    let '(out, trailingZeros) := loop in
    let out :=
      pad_zeros (Z.of_nat offset + precisionWidth options - trailingZeros) out in
    Ok (reverse_from (Z.of_nat offset) out).

Definition append_time (tmValue : tm) (out : list Z) : result (list Z) :=
  let! out := appendSmallInt (tm_hour tmValue) out in
  let! out := appendSmallInt (tm_min tmValue) (out ++ [ch_colon]) in
  appendSmallInt (tm_sec tmValue) (out ++ [ch_colon]).

Definition tmToString (tmValue : tm) (nanos : Z)
    (options : TimestampToStringOptions) : result (list Z) :=
  if bool_decide (mode options = kTimeOnly) then
    let! out := append_time tmValue [] in
    append_fraction options nanos out
  else
    let! out := append_date options tmValue in
    if bool_decide (mode options = kDateOnly) then Ok out
    else
      let! out := append_time tmValue (out ++ [dateTimeSeparator options]) in
      append_fraction options nanos out.

(** * tmToStringView *)

Definition appendDigits (value : Z) (minWidth : option Z) (m : memory)
    : result memory :=
  let! numDigits := countDigits value in
  let! m :=
    match minWidth with
    | Some minWidth =>
        if numDigits <? minWidth then put_zeros (minWidth - numDigits) m
        else Ok m
    | None => Ok m
    end in
  to_chars numDigits value m.

Definition view_date (options : TimestampToStringOptions) (tmValue : tm)
    (m : memory) : result memory :=
  let! year := ck32 (kTmYearBase + tm_year tmValue) in
  let sign := leadingPositiveSign options && (year >? 9999) in
  let negative := year <? 0 in
  let! m :=
    if negative then put [ch_minus] m
    else if sign then put [ch_plus] m else Ok m in
  let! year := if negative then ck32 (- year) else Ok year in
  let! m :=
    appendDigits year (if zeroPaddingYear options then Some 4 else None) m in
  let! m := put [ch_minus] m in
  let! m := appendDigits (1 + tm_mon tmValue) (Some 2) m in
  let! m := put [ch_minus] m in
  appendDigits (tm_mday tmValue) (Some 2) m.

Definition view_time (tmValue : tm) (m : memory) : result memory :=
  let! m := appendDigits (tm_hour tmValue) (Some 2) m in
  let! m := put [ch_colon] m in
  let! m := appendDigits (tm_min tmValue) (Some 2) m in
  let! m := put [ch_colon] m in
  appendDigits (tm_sec tmValue) (Some 2) m.

(** The loop that writes the digits of the fraction from the last nonzero one
    down to the first. *)
Fixpoint write_nonzero (fuel : nat) (buf : list Z) (writePosition nanos offset : Z)
    (nonZeroOffset : option Z) : result (list Z * option Z) :=
  if nanos >? 0 then
    match fuel with
    | O => Err OutOfFuel
    | S fuel' =>
        if bool_decide (is_Some nonZeroOffset) || negb (nanos mod 10 =? 0) then
          let! buf :=
            write_at buf (writePosition + offset) [ch_0 + nanos mod 10] in
          write_nonzero fuel' buf writePosition (nanos / 10) (offset - 1)
            (Some (default offset nonZeroOffset))
        else
          write_nonzero fuel' buf writePosition (nanos / 10) (offset - 1)
            nonZeroOffset
    end
  else Ok (buf, nonZeroOffset).

Definition view_fraction (options : TimestampToStringOptions) (nanos : Z)
    (m : memory) : result memory :=
  let nanos := scale_nanos options nanos in
  if skipTrailingZeros options && (nanos =? 0) then Ok m
  else
    let! m := put [ch_dot] m in
    let! numDigits := countDigits nanos in
    let! m := put_zeros (precisionWidth options - numDigits) m in
    if skipTrailingZeros options then
      let '(buf, writePosition) := m in
      let! loop :=
        write_nonzero kDigitFuel buf writePosition nanos (numDigits - 1) None in
      let '(buf, nonZeroOffset) := loop in
      match nonZeroOffset with
      | None => Err BadAccess
      | Some offset => Ok (buf, writePosition + (offset + 1))
      end
    else to_chars numDigits nanos m.

(** The memory after the call and the size of the view that is returned. *)
Definition tmToStringView (tmValue : tm) (nanos : Z)
    (options : TimestampToStringOptions) (start : list Z) : result memory :=
  let m := (start, 0) in
  if bool_decide (mode options = kTimeOnly) then
    let! m := view_time tmValue m in
    view_fraction options nanos m
  else
    let! m := view_date options tmValue m in
    if bool_decide (mode options = kDateOnly) then Ok m
    else
      let! m := put [dateTimeSeparator options] m in
      let! m := view_time tmValue m in
      view_fraction options nanos m.

(** ** Timestamps *)

Definition toString (t : Timestamp) (options : TimestampToStringOptions)
    : result (list Z) :=
  let! fields := epochToUtc (seconds_ t) in
  match fields with
  | None => Err UserFail
  | Some tmValue => tmToString tmValue (nanos_ t) options
  end.

Definition tsToStringView (t : Timestamp) (options : TimestampToStringOptions)
    (start : list Z) : result memory :=
  let! fields := epochToCalendarUtc (seconds_ t) in
  match fields with
  | None => Err UserFail
  | Some tmValue => tmToStringView tmValue (nanos_ t) options start
  end.

(** * The text that is rendered *)

Definition render_year (options : TimestampToStringOptions) (year : Z) : list Z :=
  (if year <? 0 then [ch_minus]
   else if leadingPositiveSign options && (year >? 9999) then [ch_plus] else [])
  ++ (if zeroPaddingYear options && (Z.abs year <? 1000)
      then padded 4 (Z.abs year) else decimal (Z.abs year)).

Definition render_date (options : TimestampToStringOptions) (t : tm) : list Z :=
  render_year options (kTmYearBase + tm_year t)
  ++ [ch_minus] ++ padded 2 (1 + tm_mon t) ++ [ch_minus] ++ padded 2 (tm_mday t).

Definition render_time (t : tm) : list Z :=
  padded 2 (tm_hour t) ++ [ch_colon] ++ padded 2 (tm_min t) ++ [ch_colon]
  ++ padded 2 (tm_sec t).

(** A dot and the fraction in as many digits as the precision has, the zeros
    at its end dropped when they are skipped. *)
Definition render_fraction (options : TimestampToStringOptions) (nanos : Z)
    : list Z :=
  let digits :=
    padded (Z.to_nat (precisionWidth options)) (scale_nanos options nanos) in
  if skipTrailingZeros options then
    match trim_zeros digits with [] => [] | l => ch_dot :: l end
  else ch_dot :: digits.

Definition render (t : tm) (nanos : Z) (options : TimestampToStringOptions)
    : list Z :=
  match mode options with
  | kDateOnly => render_date options t
  | kTimeOnly => render_time t ++ render_fraction options nanos
  | kFull =>
      render_date options t ++ [dateTimeSeparator options] ++ render_time t
      ++ render_fraction options nanos
  end.

(** ** Digits *)

(** ** The loops over the digits *)

Lemma append_low_digits_spec fuel n out :
  0 <= n < 10 ^ Z.of_nat fuel ->
  append_low_digits fuel n out = Ok (out ++ low_digits fuel n).
Proof.
  revert n out. induction fuel as [|fuel IH]; intros n out Hn.
  - simpl in Hn. simpl. replace (n >? 0) with false by lia. by rewrite app_nil_r.
  - destruct (decide (n = 0)) as [->|].
    { simpl. by rewrite app_nil_r. }
    rewrite low_digits_step by lia. simpl. replace (n >? 0) with true by lia.
    rewrite IH by (by apply div10_lt). by rewrite <- app_assoc.
Qed.

Lemma append_nonzero_rest fuel n offset zeros out :
  0 <= n < 10 ^ Z.of_nat fuel -> (offset < length out)%nat ->
  append_nonzero_digits fuel n offset zeros out
  = Ok (out ++ low_digits fuel n, zeros).
Proof.
  revert n out. induction fuel as [|fuel IH]; intros n out Hn Ho.
  - simpl in Hn. simpl. replace (n >? 0) with false by lia. by rewrite app_nil_r.
  - destruct (decide (n = 0)) as [->|].
    { simpl. by rewrite app_nil_r. }
    rewrite low_digits_step by lia. cbn [append_nonzero_digits].
    replace (n >? 0) with true by lia.
    replace (Nat.eqb (length out) offset) with false by (symmetry; apply Nat.eqb_neq; lia).
    cbn [andb]. rewrite IH; [by rewrite <- app_assoc|by apply div10_lt|].
    rewrite length_app. lia.
Qed.

Lemma append_nonzero_spec fuel n zeros out :
  0 <= n < 10 ^ Z.of_nat fuel ->
  append_nonzero_digits fuel n (length out) zeros out
  = Ok (out ++ drop_zeros (low_digits fuel n),
        zeros + Z.of_nat (length (low_digits fuel n))
        - Z.of_nat (length (drop_zeros (low_digits fuel n)))).
Proof.
  revert n zeros. induction fuel as [|fuel IH]; intros n zeros Hn.
  - simpl in Hn. simpl. replace (n >? 0) with false by lia. rewrite app_nil_r.
    f_equal. f_equal. lia.
  - destruct (decide (n = 0)) as [->|].
    { simpl. rewrite app_nil_r. f_equal. f_equal. lia. }
    rewrite low_digits_step by lia. cbn [append_nonzero_digits drop_zeros length].
    replace (n >? 0) with true by lia. rewrite Nat.eqb_refl. cbn [andb].
    destruct (n mod 10 =? 0) eqn:Em.
    + replace (ch_0 + n mod 10 =? ch_0) with true by lia.
      rewrite IH by (by apply div10_lt). f_equal. f_equal. lia.
    + replace (ch_0 + n mod 10 =? ch_0) with false by lia.
      rewrite append_nonzero_rest; [|by apply div10_lt|rewrite length_app; simpl; lia].
      rewrite <- app_assoc. f_equal. f_equal. cbn [length]. lia.
Qed.

Lemma drop_zeros_app a b :
  drop_zeros a <> [] -> drop_zeros (a ++ b) = drop_zeros a ++ b.
Proof.
  induction a as [|c a IH]; simpl; [done|]. destruct (c =? ch_0); [done|done].
Qed.

Lemma drop_zeros_repeat k : drop_zeros (repeat ch_0 k) = [].
Proof. by induction k. Qed.

Lemma drop_zeros_low_digits fuel n :
  0 < n < 10 ^ Z.of_nat fuel -> drop_zeros (low_digits fuel n) <> [].
Proof.
  revert n. induction fuel as [|fuel IH]; intros n Hn; [simpl in Hn; lia|].
  rewrite low_digits_step by lia. cbn [drop_zeros].
  destruct (_ =? _) eqn:E; [|done]. apply IH. split; [euclid|]. apply div10_lt. lia.
Qed.

(** The fraction with its last zeros dropped. *)
Lemma trim_zeros_padded k fuel n :
  0 < n < 10 ^ Z.of_nat k -> (k <= fuel)%nat ->
  trim_zeros (padded k n)
  = repeat ch_0 (k - length (low_digits fuel n)) ++ rev (drop_zeros (low_digits fuel n)).
Proof.
  intros Hn Hf. destruct (padded_low_digits k fuel n) as [-> Hl]; [lia|done|].
  unfold trim_zeros. rewrite rev_app_distr, rev_involutive, rev_zeros.
  rewrite drop_zeros_app.
  2: { apply drop_zeros_low_digits. split; [lia|].
       pose proof (Z.pow_le_mono_r 10 (Z.of_nat k) (Z.of_nat fuel)). lia. }
  by rewrite rev_app_distr, rev_zeros.
Qed.

(** ** Memory *)

Definition min_width (minWidth : option Z) (l : list Z) : list Z :=
  match minWidth with
  | Some w => repeat ch_0 (Z.to_nat (w - Z.of_nat (length l))) ++ l
  | None => l
  end.

Lemma appendDigits_writes cap s v w :
  0 <= v < 10 ^ 19 ->
  Z.of_nat (length (s ++ min_width w (decimal v))) <= cap ->
  writes cap (appendDigits v w) s (min_width w (decimal v)).
Proof.
  intros Hv Hc. destruct w as [w|]; simpl in *.
  - eapply writes_ext; [eapply writes_bind; [|apply to_chars_writes]|].
    2: by rewrite <- app_assoc.
    2: { intros m. unfold appendDigits. rewrite countDigits_spec by lia. reflexivity. }
    rewrite !length_app, repeat_length in Hc.
    destruct (_ <? _) eqn:E.
    + apply put_zeros_writes; lia.
    + replace (Z.to_nat _) with 0%nat by lia. apply ok_writes.
  - eapply writes_ext; [by apply to_chars_writes|].
    intros m. unfold appendDigits. by rewrite countDigits_spec by lia.
Qed.

Lemma min_width_padded k n :
  (1 <= k <= 20)%nat -> 0 <= n < 10 ^ Z.of_nat k ->
  min_width (Some (Z.of_nat k)) (decimal n) = padded k n.
Proof.
  intros Hk Hn. unfold min_width. destruct (decide (n = 0)) as [->|].
  - rewrite padded_0. unfold decimal. simpl.
    change [ch_0] with (repeat ch_0 1). rewrite zeros_app. f_equal. lia.
  - rewrite decimal_pos by lia. rewrite length_rev.
    destruct (padded_low_digits k kDigitFuel n) as [-> Hl]; [lia|unfold kDigitFuel; lia|].
    f_equal. f_equal. lia.
Qed.

Lemma write_nonzero_rest fuel s old post n z :
  0 <= n < 10 ^ Z.of_nat fuel -> length old = length (low_digits fuel n) ->
  write_nonzero fuel (s ++ old ++ post) (Z.of_nat (length s)) n
    (Z.of_nat (length old) - 1) (Some z)
  = Ok (s ++ rev (low_digits fuel n) ++ post, Some z).
Proof.
  revert n old post. induction fuel as [|fuel IH]; intros n old post Hn Ho.
  - simpl in Hn. simpl in *. replace (n >? 0) with false by lia.
    by apply nil_length_inv in Ho as ->.
  - destruct (decide (n = 0)) as [->|].
    { simpl in *. by apply nil_length_inv in Ho as ->. }
    rewrite low_digits_step in * by lia. cbn [write_nonzero length rev] in *.
    replace (n >? 0) with true by lia. cbn [bool_decide].
    destruct old as [|x old _] using rev_ind; [done|]. rewrite length_app in Ho |- *.
    simpl in Ho. rewrite bool_decide_true by done. cbn [orb].
    replace (s ++ (old ++ [x]) ++ post) with ((s ++ old) ++ [x] ++ post)
      by (by rewrite <- !app_assoc).
    replace (Z.of_nat (length s) + (Z.of_nat (length old + length [x]) - 1))
      with (Z.of_nat (length (s ++ old))) by (rewrite length_app; simpl; lia).
    rewrite write_at_middle by done. cbn [rbind default].
    rewrite <- app_assoc.
    replace (Z.of_nat (length old + length [x]) - 1 - 1)
      with (Z.of_nat (length old) - 1) by (simpl; lia).
    cbn [id from_option]. rewrite IH; [by rewrite <- app_assoc|by apply div10_lt|lia].
Qed.

Lemma write_nonzero_spec fuel s old post n :
  0 < n < 10 ^ Z.of_nat fuel -> length old = length (low_digits fuel n) ->
  exists post',
    write_nonzero fuel (s ++ old ++ post) (Z.of_nat (length s)) n
      (Z.of_nat (length old) - 1) None
    = Ok (s ++ rev (drop_zeros (low_digits fuel n)) ++ post',
          Some (Z.of_nat (length (drop_zeros (low_digits fuel n))) - 1))
    /\ length (rev (drop_zeros (low_digits fuel n)) ++ post') = length (old ++ post).
Proof.
  revert n old post. induction fuel as [|fuel IH]; intros n old post Hn Ho.
  { simpl in Hn. lia. }
  rewrite low_digits_step in * by lia. cbn [write_nonzero length] in *.
  replace (n >? 0) with true by lia.
  destruct old as [|x old _] using rev_ind; [done|]. rewrite length_app in Ho.
  simpl in Ho. rewrite bool_decide_false by (by intros [? ?]). cbn [orb].
  rewrite (length_app old).
  replace (Z.of_nat (length old + length [x]) - 1 - 1)
    with (Z.of_nat (length old) - 1) by (simpl; lia).
  cbn [drop_zeros]. destruct (n mod 10 =? 0) eqn:Em; cbn [negb].
  - replace (ch_0 + n mod 10 =? ch_0) with true by lia.
    destruct (IH (n / 10) old ([x] ++ post)) as (post' & He & Hl).
    { split; [euclid|]. apply div10_lt. lia. }
    { lia. }
    exists post'. replace ((old ++ [x]) ++ post) with (old ++ [x] ++ post)
      by (by rewrite <- app_assoc).
    done.
  - replace (ch_0 + n mod 10 =? ch_0) with false by lia.
    replace (s ++ (old ++ [x]) ++ post) with ((s ++ old) ++ [x] ++ post)
      by (by rewrite <- !app_assoc).
    replace (Z.of_nat (length s) + (Z.of_nat (length old + length [x]) - 1))
      with (Z.of_nat (length (s ++ old))) by (rewrite length_app; simpl; lia).
    rewrite write_at_middle by done. cbn [rbind default from_option].
    rewrite <- app_assoc. rewrite write_nonzero_rest; [|by apply div10_lt; lia|lia].
    exists post. cbn [rev length]. rewrite <- !app_assoc. split.
    + by rewrite Ho.
    + rewrite !length_app, length_rev. simpl. lia.
Qed.

Lemma precisionWidth_bounds options :
  3 <= precisionWidth options <= 9.
Proof. unfold precisionWidth. destruct (precision options); lia. Qed.

Lemma scale_nanos_bounds options nanos :
  0 <= nanos <= kMaxNanos ->
  0 <= scale_nanos options nanos < 10 ^ Z.of_nat (Z.to_nat (precisionWidth options)).
Proof.
  unfold scale_nanos, precisionWidth. intros Hn. destruct (precision options).
  - change (10 ^ _) with 1000. euclid.
  - change (10 ^ _) with 1000000. euclid.
  - change (10 ^ _) with 1000000000. euclid.
Qed.

(** The fraction of a nonzero value when zeros are skipped. *)
Lemma render_fraction_trim options nanos :
  0 <= nanos <= kMaxNanos ->
  let f := scale_nanos options nanos in
  let w := Z.to_nat (precisionWidth options) in
  render_fraction options nanos =
    if skipTrailingZeros options then
      if f =? 0 then []
      else ch_dot :: repeat ch_0 (w - length (low_digits kDigitFuel f))
             ++ rev (drop_zeros (low_digits kDigitFuel f))
    else ch_dot :: padded w f.
Proof.
  intros Hn f w. pose proof (scale_nanos_bounds options nanos Hn) as Hf.
  pose proof (precisionWidth_bounds options) as Hw.
  unfold render_fraction. destruct (skipTrailingZeros options); [|done].
  fold f w in Hf |- *. assert (3 <= w <= 9)%nat as Hw' by (unfold w; lia).
  clearbody f w. destruct (f =? 0) eqn:E.
  - apply Z.eqb_eq in E as ->. rewrite padded_0.
    unfold trim_zeros. by rewrite rev_zeros, drop_zeros_repeat.
  - rewrite (trim_zeros_padded w kDigitFuel) by (unfold kDigitFuel; lia).
    destruct (_ ++ _) eqn:El; [|done]. exfalso. apply app_eq_nil in El as [_ El].
    apply (drop_zeros_low_digits kDigitFuel f).
    { split; [lia|]. unfold kDigitFuel.
      pose proof (Z.pow_le_mono_r 10 (Z.of_nat w) (Z.of_nat 20)). lia. }
    by rewrite <- (rev_involutive (drop_zeros _)), El.
Qed.

(** ** The parts of the text *)

Lemma low_digits_width options nanos :
  0 <= nanos <= kMaxNanos ->
  let f := scale_nanos options nanos in
  let w := Z.to_nat (precisionWidth options) in
  padded w f = repeat ch_0 (w - length (low_digits kDigitFuel f))
               ++ rev (low_digits kDigitFuel f)
  /\ (length (low_digits kDigitFuel f) <= w)%nat
  /\ 0 <= f < 10 ^ Z.of_nat kDigitFuel.
Proof.
  intros Hn f w. pose proof (scale_nanos_bounds options nanos Hn) as Hf.
  pose proof (precisionWidth_bounds options) as Hw. fold f w in Hf.
  assert (w <= kDigitFuel)%nat as Hw' by (unfold kDigitFuel, w; lia).
  destruct (padded_low_digits w kDigitFuel f Hf Hw') as [Hp Hl].
  split_and!; [done|done|lia|].
  pose proof (Z.pow_le_mono_r 10 (Z.of_nat w) (Z.of_nat kDigitFuel)). lia.
Qed.

(** The fraction with all its digits. *)
Lemma fraction_writes cap s f w :
  (1 <= w <= 9)%nat -> 0 <= f < 10 ^ Z.of_nat w -> Z.of_nat (length s + w) <= cap ->
  writes cap
    (fun m => let! m := put_zeros (Z.of_nat w - Z.of_nat (length (decimal f))) m in
              to_chars (Z.of_nat (length (decimal f))) f m) s (padded w f).
Proof.
  intros Hw Hf Hc. pose proof (min_width_padded w f ltac:(lia) Hf) as Hm.
  pose proof (padded_length w f) as Hl. rewrite <- Hm in *. unfold min_width in *.
  rewrite length_app, repeat_length in Hl.
  apply writes_bind.
  - apply put_zeros_writes; lia.
  - apply to_chars_writes. rewrite !length_app, repeat_length. lia.
Qed.

(** The fraction without its last zeros. *)
Lemma nonzero_fraction_writes cap s f w :
  (1 <= w <= 9)%nat -> 0 < f < 10 ^ Z.of_nat w -> Z.of_nat (length s + w) <= cap ->
  writes cap
    (fun m =>
       let! m := put_zeros (Z.of_nat w - Z.of_nat (length (decimal f))) m in
       let '(buf, writePosition) := m in
       let! loop := write_nonzero kDigitFuel buf writePosition f
                      (Z.of_nat (length (decimal f)) - 1) None in
       let '(buf, nonZeroOffset) := loop in
       match nonZeroOffset with
       | None => Err BadAccess
       | Some offset => Ok (buf, writePosition + (offset + 1))
       end) s (trim_zeros (padded w f)).
Proof.
  intros Hw Hf Hc.
  destruct (padded_low_digits w kDigitFuel f) as [_ Hl]; [lia|unfold kDigitFuel; lia|].
  rewrite (trim_zeros_padded w kDigitFuel) by (unfold kDigitFuel; lia).
  rewrite decimal_pos, length_rev by lia.
  assert (0 < f < 10 ^ Z.of_nat kDigitFuel) as Hf'.
  { split; [lia|]. pose proof (Z.pow_le_mono_r 10 (Z.of_nat w) (Z.of_nat kDigitFuel)).
    unfold kDigitFuel in *. lia. }
  set (nd := length (low_digits kDigitFuel f)) in *.
  apply writes_bind.
  { replace (w - nd)%nat with (Z.to_nat (Z.of_nat w - Z.of_nat nd)) by lia.
    apply put_zeros_writes; lia. }
  intros m (rest & -> & Hcap). cbv iota beta.
  rewrite !length_app, repeat_length in Hcap.
  rewrite <- (take_drop nd rest).
  destruct (write_nonzero_spec kDigitFuel (s ++ repeat ch_0 (w - nd))
    (take nd rest) (drop nd rest) f Hf') as (post & He & Hpl).
  { rewrite length_take. fold nd. lia. }
  rewrite length_take in He. replace (nd `min` length rest)%nat with nd in He by lia.
  rewrite He. cbn [rbind]. eexists. split; [done|]. exists post.
  rewrite take_drop in Hpl. rewrite <- Hcap. rewrite !length_app, length_rev in *.
  rewrite <- !app_assoc, repeat_length. split; [f_equal; lia|lia].
Qed.

Lemma view_fraction_writes cap options nanos s :
  0 <= nanos <= kMaxNanos ->
  Z.of_nat (length s) + 1 + precisionWidth options <= cap ->
  writes cap (view_fraction options nanos) s (render_fraction options nanos).
Proof.
  intros Hn Hc. pose proof (precisionWidth_bounds options) as Hw.
  pose proof (scale_nanos_bounds options nanos Hn) as Hf.
  pose proof (render_fraction_trim options nanos Hn) as Hr. cbv zeta in Hr.
  unfold view_fraction, render_fraction in *.
  set (f := scale_nanos options nanos) in *.
  remember (Z.to_nat (precisionWidth options)) as w eqn:Ew.
  replace (precisionWidth options) with (Z.of_nat w) in * by lia. clear Ew. clearbody f.
  assert (0 <= f < 10 ^ 19) as Hf19.
  { pose proof (Z.pow_le_mono_r 10 (Z.of_nat w) 19). lia. }
  destruct (skipTrailingZeros options); cbn [andb].
  - destruct (f =? 0) eqn:E0; [rewrite Hr; apply ok_writes|].
    destruct (trim_zeros (padded w f)) as [|c l] eqn:Et; [done|]. rewrite <- Et.
    change (ch_dot :: ?l) with ([ch_dot] ++ l).
    apply (writes_bind cap _ _ s [ch_dot]); [apply put_writes; rewrite length_app; simpl; lia|].
    eapply writes_ext; [apply (nonzero_fraction_writes cap (s ++ [ch_dot]) f w)|].
    + lia.
    + lia.
    + rewrite length_app. simpl. lia.
    + intros m. by rewrite countDigits_spec by lia.
  - change (ch_dot :: ?l) with ([ch_dot] ++ l).
    apply (writes_bind cap _ _ s [ch_dot]); [apply put_writes; rewrite length_app; simpl; lia|].
    eapply writes_ext; [apply (fraction_writes cap (s ++ [ch_dot]) f w)|].
    + lia.
    + lia.
    + rewrite length_app. simpl. lia.
    + intros m. by rewrite countDigits_spec by lia.
Qed.

Lemma pad_reverse out l k :
  (length l <= k)%nat ->
  reverse_from (Z.of_nat (length out))
    (pad_zeros (Z.of_nat (length out) + Z.of_nat k) (out ++ l))
  = out ++ repeat ch_0 (k - length l) ++ rev l.
Proof.
  intros Hl. unfold reverse_from, pad_zeros. rewrite Nat2Z.id, <- app_assoc.
  rewrite take_app_length, drop_app_length, rev_app_distr, rev_zeros, length_app.
  do 3 f_equal. lia.
Qed.

Lemma append_fraction_spec options nanos out :
  0 <= nanos <= kMaxNanos ->
  append_fraction options nanos out = Ok (out ++ render_fraction options nanos).
Proof.
  intros Hn. pose proof (precisionWidth_bounds options) as Hw.
  pose proof (low_digits_width options nanos Hn) as (Hp & Hl & Hf).
  rewrite render_fraction_trim by done. unfold append_fraction. cbv zeta in *.
  set (f := scale_nanos options nanos) in *.
  remember (Z.to_nat (precisionWidth options)) as w eqn:Ew.
  replace (precisionWidth options) with (Z.of_nat w) in * by lia. clearbody f.
  destruct (skipTrailingZeros options) eqn:Es; cbn [andb].
  - destruct (f =? 0) eqn:E0; [by rewrite app_nil_r|].
    rewrite append_nonzero_spec by done. cbn [rbind].
    set (ld := low_digits kDigitFuel f) in *.
    assert (length (drop_zeros ld) <= length ld)%nat.
    { clear. induction ld as [|c l IH]; simpl; [done|]. case_match; simpl; lia. }
    match goal with |- context [pad_zeros ?k _] =>
      replace k with (Z.of_nat (length (out ++ [ch_dot]))
        + Z.of_nat (w - (length ld - length (drop_zeros ld)))) by lia end.
    rewrite pad_reverse by lia. rewrite <- app_assoc. simpl.
    replace (_ - _ - _)%nat with (w - length ld)%nat by lia. done.
  - rewrite append_low_digits_spec by done. cbn [rbind].
    rewrite Z.sub_0_r, pad_reverse by done. by rewrite Hp, <- app_assoc.
Qed.

Lemma padded_2 n : 0 <= n < 100 -> padded 2 n = [ch_0 + n / 10; ch_0 + n mod 10].
Proof. intros. simpl. repeat f_equal. euclid. Qed.

Lemma appendSmallInt_spec n out :
  0 <= n <= 61 -> appendSmallInt n out = Ok (out ++ padded 2 n).
Proof.
  intros Hn. unfold appendSmallInt, at_index. replace (n <? 0) with false by lia.
  unfold intToStr. rewrite list_lookup_fmap, lookup_seqZ_lt by lia. cbn [fmap option_fmap option_map].
  cbn [rbind]. rewrite padded_2 by lia. repeat f_equal; lia.
Qed.

Lemma two_digits_writes cap s v :
  0 <= v < 100 -> Z.of_nat (length s) + 2 <= cap ->
  writes cap (appendDigits v (Some 2)) s (padded 2 v).
Proof.
  intros Hv Hc. rewrite <- (min_width_padded 2) by (simpl; lia).
  apply appendDigits_writes; [lia|]. rewrite (min_width_padded 2) by (simpl; lia).
  rewrite length_app, padded_length. lia.
Qed.

(** Fields that the functions can print: those of a valid date and time, with
    a year that the addition of the base keeps within [int]. *)
Definition printable (t : tm) : Prop :=
  valid_tm t /\ tm_year t <= INT32_MAX - kTmYearBase.

Lemma printable_fields t :
  printable t ->
  0 <= tm_sec t <= 59 /\ 0 <= tm_min t <= 59 /\ 0 <= tm_hour t <= 23
  /\ 0 <= tm_mon t <= 11 /\ 1 <= tm_mday t <= 31
  /\ INT32_MIN < kTmYearBase + tm_year t <= INT32_MAX.
Proof.
  intros [(Hs & Hm & Hh & Hmon & (len & Hlen & Hd) & Hy) Hy'].
  destruct (months_lookup (isLeap (tm_year t + 1900)) (tm_mon t) Hmon)
    as (? & l & _ & Hl & H31). simplify_eq. split_and!; lia.
Qed.

Lemma decimal_length n k :
  0 <= n < 10 ^ Z.of_nat k -> (1 <= k <= 20)%nat -> (length (decimal n) <= k)%nat.
Proof.
  intros Hn Hk. destruct (decide (n = 0)) as [->|]; [simpl; lia|].
  rewrite decimal_pos, length_rev by lia.
  apply (padded_low_digits k kDigitFuel n); [lia|unfold kDigitFuel; lia].
Qed.

(** The digits of the year, as both functions lay them out. *)
Lemma min_width_year options year :
  0 <= year < 10 ^ 10 ->
  min_width (if zeroPaddingYear options then Some 4 else None) (decimal year)
  = if zeroPaddingYear options && (year <? 1000) then padded 4 year else decimal year.
Proof.
  intros Hy. destruct (zeroPaddingYear options); [|done]. cbn [andb].
  destruct (year <? 1000) eqn:E.
  - apply (min_width_padded 4); simpl; lia.
  - unfold min_width. rewrite decimal_pos, length_rev by lia.
    destruct (low_digits_bounds kDigitFuel year) as (k & -> & Hk).
    { unfold kDigitFuel. simpl. lia. }
    enough (3 <= k)%nat by (by replace (Z.to_nat _) with 0%nat by lia).
    enough (3 < Z.of_nat (S k)) by lia. apply (Z.pow_lt_mono_r_iff 10); lia.
Qed.

Lemma render_year_length options year :
  INT32_MIN < year <= INT32_MAX -> (length (render_year options year) <= 11)%nat.
Proof.
  intros Hy. unfold render_year. rewrite length_app.
  assert (length (decimal (Z.abs year)) <= 10)%nat
    by (apply decimal_length; [simpl; lia|lia]).
  pose proof (padded_length 4 (Z.abs year)).
  repeat case_match; simpl in *; lia.
Qed.

Lemma render_date_length options t :
  printable t -> (length (render_date options t) <= 17)%nat.
Proof.
  intros Ht. pose proof (printable_fields t Ht) as (_ & _ & _ & _ & _ & Hy).
  pose proof (render_year_length options _ Hy). unfold render_date.
  rewrite !length_app, !padded_length. simpl. lia.
Qed.

Lemma render_time_length t : length (render_time t) = 8%nat.
Proof. unfold render_time. rewrite !length_app, !padded_length. done. Qed.

Lemma render_fraction_length options nanos :
  (length (render_fraction options nanos) <= 1 + Z.to_nat (precisionWidth options))%nat.
Proof.
  unfold render_fraction.
  assert (forall l, length (trim_zeros l) <= length l)%nat as Ht.
  { intros l. unfold trim_zeros. rewrite length_rev, <- (length_rev l).
    induction (rev l) as [|c l' IH]; simpl; [done|]. case_match; simpl; lia. }
  pose proof (padded_length (Z.to_nat (precisionWidth options)) (scale_nanos options nanos)).
  specialize (Ht (padded (Z.to_nat (precisionWidth options)) (scale_nanos options nanos))).
  repeat case_match; simpl in *; lia.
Qed.

Lemma render_length t nanos options :
  printable t -> Z.of_nat (length (render t nanos options)) <= getMaxStringLength options.
Proof.
  intros Ht. unfold render, getMaxStringLength.
  pose proof (render_date_length options t Ht). pose proof (render_time_length t).
  pose proof (render_fraction_length options nanos).
  pose proof (precisionWidth_bounds options).
  destruct (mode options); rewrite ?length_app; simpl; lia.
Qed.

Lemma year_digits options year :
  0 <= year < 10 ^ 10 -> year <> 0 \/ zeroPaddingYear options = true ->
  rev (let ld := low_digits kDigitFuel year in
       if zeroPaddingYear options && (Z.of_nat (length ld) <? 4)
       then ld ++ repeat ch_0 (Z.to_nat (4 - Z.of_nat (length ld))) else ld)
  = if zeroPaddingYear options && (year <? 1000) then padded 4 year else decimal year.
Proof.
  intros Hy H0. rewrite <- min_width_year by done. cbv zeta.
  destruct (decide (year = 0)) as [->|].
  { destruct H0 as [?|Hz]; [done|]. rewrite Hz. reflexivity. }
  rewrite decimal_pos by lia. destruct (zeroPaddingYear options); [|done]. cbn [andb].
  unfold min_width. rewrite length_rev. destruct (_ <? 4) eqn:E.
  - by rewrite rev_app_distr, rev_zeros.
  - by replace (Z.to_nat _) with 0%nat by lia.
Qed.

Lemma append_date_spec options t :
  printable t ->
  kTmYearBase + tm_year t <> 0 \/ zeroPaddingYear options = true ->
  append_date options t = Ok (render_date options t).
Proof.
  intros Ht H0. pose proof (printable_fields t Ht) as (_ & _ & _ & Hmon & Hd & Hy).
  unfold append_date, render_date, render_year.
  set (year := kTmYearBase + tm_year t) in *. clearbody year.
  rewrite ck32_in by lia. cbn [rbind].
  pose proof (year_digits options (Z.abs year) ltac:(lia)
    ltac:(destruct H0; [left; lia|by right])) as Hyd. cbv zeta in Hyd.
  destruct (year <? 0) eqn:En.
  - replace (year >? 9999) with false by lia. rewrite andb_false_r.
    rewrite ck32_in by lia. replace (- year) with (Z.abs year) by lia.
    cbn [rbind Z.b2z]. rewrite append_low_digits_spec by (unfold kDigitFuel; simpl; lia).
    cbn [rbind]. rewrite <- Hyd.
    set (ld := low_digits kDigitFuel (Z.abs year)) in *.
    rewrite length_app. cbn [length].
    replace (Z.of_nat (1 + length ld) <? 1 + 4) with (Z.of_nat (length ld) <? 4)
      by (apply eq_iff_eq_true; rewrite !Z.ltb_lt; lia).
    unfold pad_zeros. rewrite length_app. cbn [length].
    replace (1 + 4 - Z.of_nat (1 + length ld)) with (4 - Z.of_nat (length ld)) by lia.
    rewrite <- (app_assoc [ch_minus] ld). unfold reverse_from.
    destruct (zeroPaddingYear options && (Z.of_nat (length ld) <? 4)); cbn -[rev appendSmallInt];
    rewrite appendSmallInt_spec by lia; cbn [rbind]; rewrite appendSmallInt_spec by lia;
      f_equal; cbn [app]; rewrite <- !app_assoc; done.
  - replace (Z.abs year) with year in * by lia. cbn [rbind Z.b2z].
    rewrite append_low_digits_spec by (unfold kDigitFuel; simpl; lia).
    cbn [rbind app]. rewrite <- Hyd. rewrite Z.add_0_l.
    set (ld := low_digits kDigitFuel year) in *.
    unfold pad_zeros, reverse_from. change (Z.to_nat 0) with 0%nat.
    rewrite take_0, drop_0. cbn [app].
    rewrite appendSmallInt_spec by lia. cbn [rbind]. rewrite appendSmallInt_spec by lia.
    f_equal. destruct (_ && (year >? 9999)); cbn [app].
    + rewrite rev_app_distr. cbn [rev app]. rewrite <- !app_assoc. done.
    + rewrite <- !app_assoc. done.
Qed.

Lemma append_time_spec t out :
  printable t -> append_time t out = Ok (out ++ render_time t).
Proof.
  intros Ht. pose proof (printable_fields t Ht) as (Hs & Hm & Hh & _).
  unfold append_time, render_time. rewrite appendSmallInt_spec by lia. cbn [rbind].
  rewrite appendSmallInt_spec by lia. cbn [rbind]. rewrite appendSmallInt_spec by lia.
  by rewrite <- !app_assoc.
Qed.

Lemma tmToString_render t nanos options :
  printable t -> 0 <= nanos <= kMaxNanos ->
  kTmYearBase + tm_year t <> 0 \/ zeroPaddingYear options = true
    \/ mode options = kTimeOnly ->
  tmToString t nanos options = Ok (render t nanos options).
Proof.
  intros Ht Hn H0. unfold tmToString, render.
  destruct (mode options) eqn:Em; rewrite ?bool_decide_true by done;
    rewrite ?(bool_decide_false (_ = kTimeOnly)) by done;
    rewrite ?append_date_spec by naive_solver; cbn [rbind].
  - rewrite (bool_decide_false (_ = kDateOnly)) by done.
    rewrite append_time_spec by done. cbn [rbind]. rewrite append_fraction_spec by done.
    by rewrite <- !app_assoc.
  - by rewrite (bool_decide_true (_ = kDateOnly)) by done.
  - rewrite append_time_spec by done. cbn [rbind]. by rewrite append_fraction_spec by done.
Qed.

(** ** Writing into memory *)

Lemma view_time_writes cap s t :
  printable t -> Z.of_nat (length s) + 8 <= cap ->
  writes cap (view_time t) s (render_time t).
Proof.
  intros Ht Hc. pose proof (printable_fields t Ht) as (Hs & Hm & Hh & _).
  unfold view_time, render_time.
  repeat apply writes_bind; try apply two_digits_writes; try apply put_writes;
    rewrite ?length_app, ?padded_length; simpl; lia.
Qed.

Lemma view_year_writes cap s options year :
  INT32_MIN < year <= INT32_MAX -> Z.of_nat (length s) + 11 <= cap ->
  writes cap
    (fun m =>
       let! m := if year <? 0 then put [ch_minus] m
                 else if leadingPositiveSign options && (year >? 9999)
                      then put [ch_plus] m else Ok m in
       appendDigits (Z.abs year) (if zeroPaddingYear options then Some 4 else None) m)
    s (render_year options year).
Proof.
  intros Hy Hc. pose proof (render_year_length options year Hy) as Hl.
  unfold render_year in *. rewrite <- min_width_year in * by lia.
  rewrite length_app in Hl. apply writes_bind.
  - destruct (year <? 0); [apply put_writes; rewrite length_app; simpl in *; lia|].
    destruct (_ && _); [apply put_writes; rewrite length_app; simpl in *; lia|].
    apply ok_writes.
  - apply appendDigits_writes; [lia|]. rewrite !length_app. lia.
Qed.

Lemma view_date_writes cap s options t :
  printable t -> Z.of_nat (length s) + 17 <= cap ->
  writes cap (view_date options t) s (render_date options t).
Proof.
  intros Ht Hc. pose proof (printable_fields t Ht) as (_ & _ & _ & Hmon & Hd & Hy).
  pose proof (render_year_length options _ Hy) as Hl. unfold render_date.
  set (year := kTmYearBase + tm_year t) in *.
  apply (writes_ext cap (fun m =>
    let! m :=
      let! m := if year <? 0 then put [ch_minus] m
                else if leadingPositiveSign options && (year >? 9999)
                     then put [ch_plus] m else Ok m in
      appendDigits (Z.abs year) (if zeroPaddingYear options then Some 4 else None) m in
    let! m := put [ch_minus] m in
    let! m := appendDigits (1 + tm_mon t) (Some 2) m in
    let! m := put [ch_minus] m in
    appendDigits (tm_mday t) (Some 2) m)).
  - apply writes_bind; [apply (view_year_writes cap s options year Hy); lia|].
    repeat apply writes_bind; try apply two_digits_writes; try apply put_writes;
      rewrite ?length_app, ?padded_length; simpl; lia.
  - intros m. unfold view_date. fold year. rewrite ck32_in by lia.
    cbn [rbind]. destruct (year <? 0) eqn:E.
    + rewrite ck32_in by lia. replace (- year) with (Z.abs year) by lia.
      by destruct (put _ _).
    + replace (Z.abs year) with year by lia. destruct (_ && _); [|done].
      by destruct (put _ _).
Qed.

Lemma tmToStringView_render t nanos options start :
  printable t -> 0 <= nanos <= kMaxNanos ->
  getMaxStringLength options <= Z.of_nat (length start) ->
  exists m, tmToStringView t nanos options start = Ok m
    /\ written (Z.of_nat (length start)) (render t nanos options) m.
Proof.
  intros Ht Hn Hs. unfold tmToStringView, render, getMaxStringLength in *.
  pose proof (precisionWidth_bounds options).
  pose proof (render_date_length options t Ht). pose proof (render_time_length t).
  set (cap := Z.of_nat (length start)) in *.
  assert (written cap [] (start, 0)) as Hw by (exists start; done).
  enough (forall f bytes, writes cap f [] bytes ->
    exists m, f (start, 0) = Ok m /\ written cap bytes m) as Hgo.
  2: { intros f bytes Hf. destruct (Hf _ Hw) as (m & ? & ?). by exists m. }
  destruct (mode options) eqn:Em; rewrite ?bool_decide_true by done;
    rewrite ?(bool_decide_false (_ = kTimeOnly)) by done.
  - rewrite (bool_decide_false (_ = kDateOnly)) by done.
    apply (Hgo (fun m => let! m := view_date options t m in
                         let! m := put [dateTimeSeparator options] m in
                         let! m := view_time t m in view_fraction options nanos m)).
    apply writes_bind; [apply view_date_writes; simpl; [done|lia]|].
    apply writes_bind; [apply put_writes; rewrite ?length_app; simpl; lia|].
    apply writes_bind; [apply view_time_writes|apply view_fraction_writes];
      try done; rewrite ?length_app; simpl; lia.
  - rewrite (bool_decide_true (_ = kDateOnly)) by done.
    destruct (Hgo (view_date options t) (render_date options t)) as (m & -> & Hm).
    { apply view_date_writes; [done|simpl; lia]. }
    by exists m.
  - apply (Hgo (fun m => let! m := view_time t m in view_fraction options nanos m)).
    apply writes_bind; [apply view_time_writes|apply view_fraction_writes];
      try done; rewrite ?length_app; simpl; lia.
Qed.

(** * Properties *)

(** Both formatting functions print the same text, a sign, the year, the
    month and the day in two digits, the time, and the fraction in the digits
    of the precision: [tmToStringView] always, writing only within
    [getMaxStringLength] bytes of memory, and [tmToString] unless it prints the
    year 0 without padding. *)
Theorem tmToString_and_view t nanos options start :
  printable t -> 0 <= nanos <= kMaxNanos ->
  getMaxStringLength options <= Z.of_nat (length start) ->
  (exists buf, tmToStringView t nanos options start
       = Ok (buf, Z.of_nat (length (render t nanos options)))
     /\ take (length (render t nanos options)) buf = render t nanos options
     /\ length buf = length start)
  /\ Z.of_nat (length (render t nanos options)) <= getMaxStringLength options
  /\ (kTmYearBase + tm_year t <> 0 \/ zeroPaddingYear options = true
        \/ mode options = kTimeOnly ->
      tmToString t nanos options = Ok (render t nanos options)).
Proof.
  intros Ht Hn Hs. split_and!; [|by apply render_length|by apply tmToString_render].
  destruct (tmToStringView_render t nanos options start Ht Hn Hs)
    as (m & -> & rest & -> & Hl).
  eexists. split; [done|]. rewrite take_app_length. split; [done|lia].
Qed.

(** Options and fields to evaluate the functions on. *)
Definition sample_options : TimestampToStringOptions := {|
  precision := kMicroseconds; leadingPositiveSign := true;
  skipTrailingZeros := true; zeroPaddingYear := false;
  dateTimeSeparator := 84; mode := kFull
|}.

Definition sample_tm (year : Z) : tm := mk_tm 5 4 3 29 1 (year - kTmYearBase) 0 0.

Lemma tmToString_and_view_witness :
  let t := sample_tm 12000 in
  let start := repeat 0 33 in
  (exists buf, tmToStringView t 120000000 sample_options start
       = Ok (buf, Z.of_nat (length (render t 120000000 sample_options)))
     /\ take (length (render t 120000000 sample_options)) buf
        = render t 120000000 sample_options
     /\ length buf = length start)
  /\ Z.of_nat (length (render t 120000000 sample_options))
     <= getMaxStringLength sample_options
  /\ (kTmYearBase + tm_year t <> 0 \/ zeroPaddingYear sample_options = true
        \/ mode sample_options = kTimeOnly ->
      tmToString t 120000000 sample_options = Ok (render t 120000000 sample_options)).
Proof.
  apply tmToString_and_view.
  - split; [|vm_compute; discriminate]. unfold valid_tm. simpl.
    split_and!; try lia. exists 29. split; [reflexivity|lia].
  - unfold kMaxNanos. lia.
  - vm_compute. discriminate.
Defined.

(** Every timestamp can be printed: [toString] and [tsToStringView]
    succeed and give the text of the fields of its second, which convert back
    to that second. *)
Theorem Timestamp_toString_total ts options start :
  Timestamp_wf ts -> getMaxStringLength options <= Z.of_nat (length start) ->
  exists t, valid_tm t /\ calendarUtcToEpoch t = Ok (seconds_ ts)
    /\ (exists buf, tsToStringView ts options start
          = Ok (buf, Z.of_nat (length (render t (nanos_ ts) options)))
        /\ take (length (render t (nanos_ ts) options)) buf
           = render t (nanos_ ts) options)
    /\ (kTmYearBase + tm_year t <> 0 \/ zeroPaddingYear options = true
          \/ mode options = kTimeOnly ->
        toString ts options = Ok (render t (nanos_ ts) options)).
Proof.
  intros [Hs Hn] Hl. destruct (epoch_fields _ Hs) as (t & Hc & Hu & Hv & Hy & _ & He).
  assert (printable t) as Hp by (split; [done|lia]).
  exists t. split; [done|]. split; [done|]. split.
  - unfold tsToStringView. rewrite Hc. cbn [rbind].
    destruct (tmToStringView_render t (nanos_ ts) options start Hp Hn Hl)
      as (m & -> & rest & -> & _).
    eexists. split; [done|]. apply take_app_length.
  - intros H0. unfold toString. rewrite Hu. cbn [rbind]. by apply tmToString_render.
Qed.

Lemma Timestamp_toString_total_witness :
  let ts := mkTimestamp (-1) 5 in
  let start := repeat 0 33 in
  exists t, valid_tm t /\ calendarUtcToEpoch t = Ok (seconds_ ts)
    /\ (exists buf, tsToStringView ts sample_options start
          = Ok (buf, Z.of_nat (length (render t (nanos_ ts) sample_options)))
        /\ take (length (render t (nanos_ ts) sample_options)) buf
           = render t (nanos_ ts) sample_options)
    /\ (kTmYearBase + tm_year t <> 0 \/ zeroPaddingYear sample_options = true
          \/ mode sample_options = kTimeOnly ->
        toString ts sample_options = Ok (render t (nanos_ ts) sample_options)).
Proof.
  apply Timestamp_toString_total; vm_compute; [split; split; discriminate|discriminate].
Defined.

(** The year 0 without padding: the string has no digit for the year, the view
    has one. *)
Lemma year_zero_differs :
  let options := mkOptions kMilliseconds false false false 32 kDateOnly in
  tmToString (sample_tm 0) 0 options = Ok [45; 48; 50; 45; 50; 57]
  /\ rmap (fun m => take 7 (fst m)) (tmToStringView (sample_tm 0) 0 options (repeat 0 17))
     = Ok [48; 45; 48; 50; 45; 50; 57].
Proof. vm_compute. done. Qed.
