(* ===== verification/TimestampParse.v ===== *)
(** Parsing of dates, times and timestamps (bolt/type/TimestampConversion.cpp).
    The theorems show that the parsers stay within the string and end on every
    input, and that they read back every timestamp that Timestamp.cpp prints. *)

From S2P Require Import Prelude Text StringView Timestamp Calendar Civil TimestampFormat.

(** * Modes and results *)

Abbreviation kStrict := 1.
Abbreviation kNonStrict := 2.
Abbreviation kStandardCast := 4.
Abbreviation kNonStandardCast := 8.

(** [mode & flag] *)
Definition has_mode (mode flag : Z) : bool := negb (Z.land mode flag =? 0).

Inductive DateParseResult : Type :=
  | kSuccess | kYearTooShort | kEmptyInput | kEmptyYear | kInvalidYear
  | kInvalidDate | kInvalidSeperator | kInvalidMonth | kInvalidDay
  | kUnexpectedEnd.

(** * Characters *)

Definition characterIsSpace (c : Z) : bool :=
  (c =? 32) || (c =? 9) || (c =? 10) || (c =? 11) || (c =? 12) || (c =? 13).

Definition characterIsDigit (c : Z) : bool := (c >=? 48) && (c <=? 57).

Definition len (buf : list Z) : Z := Z.of_nat (length buf).

(** [while (pos < len && p(buf[pos])) pos++;] *)
Fixpoint skip_while (p : Z -> bool) (fuel : nat) (buf : list Z) (pos : Z)
    : result Z :=
  if pos <? len buf then
    let! c := at_index buf pos in
    if p c then
      match fuel with
      | O => Err OutOfFuel
      | S fuel' => skip_while p fuel' buf (pos + 1)
      end
    else Ok pos
  else Ok pos.

Definition skipSpaces (buf : list Z) (pos : Z) : result Z :=
  skip_while characterIsSpace (length buf) buf pos.

(** One or two digits: the number and the position after them. *)
Definition parseDoubleDigit (buf : list Z) (pos : Z) : result (option (Z * Z)) :=
  if pos <? len buf then
    let! c := at_index buf pos in
    if characterIsDigit c then
      let value := c - 48 in
      let pos := pos + 1 in
      if pos <? len buf then
        let! c := at_index buf pos in
        if characterIsDigit c then Ok (Some ((c - 48) + value * 10, pos + 1))
        else Ok (Some (value, pos))
      else Ok (Some (value, pos))
    else Ok None
  else Ok None.

(** Checked 32-bit arithmetic. *)
Definition checked32 (z : Z) : result Z :=
  if in_int32 z then Ok z else Err ArithmeticError.

(** The digits of the year; a year that is too large stops the loop at the
    digit that made it so. *)
Fixpoint parse_year (fuel : nat) (buf : list Z) (pos year yearDigitNum : Z)
    : result (Z * Z * Z) :=
  if pos <? len buf then
    let! c := at_index buf pos in
    if characterIsDigit c then
      match fuel with
      | O => Err OutOfFuel
      | S fuel' =>
          let! tens := checked32 (year * 10) in
          let! year := checked32 ((c - 48) + tens) in
          if year >? kMaxYear then Ok (pos, year, yearDigitNum)
          else parse_year fuel' buf (pos + 1) year (yearDigitNum + 1)
      end
    else Ok (pos, year, yearDigitNum)
  else Ok (pos, year, yearDigitNum).

Definition validDate (daysSinceEpoch : Z) : bool :=
  (daysSinceEpoch >=? INT32_MIN) && (daysSinceEpoch <=? INT32_MAX).

(** [daysSinceEpochFromDate(year, month, day, &isValid)]: the days, 0 when
    invalid, and whether it is valid. *)
Definition days_and_validity (year month day : Z) : result (Z * bool) :=
  let! days := tryDaysSinceEpochFromDate year month day in
  Ok (match days with Some days => (days, true) | None => (0, false) end).

(** A date without a month or a day, and the end of the cast modes. *)
Definition cast_date (pos year month day : Z)
    : result (DateParseResult * Z * Z) :=
  let! days := days_and_validity year month day in
  let '(daysSinceEpoch, isValid) := days in
  Ok (if isValid && validDate daysSinceEpoch then kSuccess else kInvalidDate,
      pos, daysSinceEpoch).

Section spark.
(** The compile-time flag of the generated header SparkCompatibility.h. *)
Variable kSparkCompatible : bool.

(** * Dates *)

(** The end of a date outside the cast modes: an optional " (BC)", and what
    may follow. *)
Definition date_suffix (buf : list Z) (pos year : Z) (yearneg : bool) (mode : Z)
    : result (DateParseResult + Z * Z) :=
  let! bc :=
    if len buf - pos >=? 5 then
      let! c0 := at_index buf pos in
      let! c1 := at_index buf (pos + 1) in
      let! c2 := at_index buf (pos + 2) in
      let! c3 := at_index buf (pos + 3) in
      let! c4 := at_index buf (pos + 4) in
      Ok (characterIsSpace c0 && (c1 =? 40) && (c2 =? 66) && (c3 =? 67) && (c4 =? 41))
    else Ok false in
  if bc && (yearneg || (year =? 0)) then Ok (inl kInvalidYear)
  else
    let year := if bc then - year + 1 else year in
    let pos := if bc then pos + 5 else pos in
    if bc && (year <? kMinYear) then Ok (inl kInvalidYear)
    else if has_mode mode kStrict then
      let! pos := skipSpaces buf pos in
      if pos <? len buf then Ok (inl kUnexpectedEnd) else Ok (inr (pos, year))
    else if pos <? len buf then
      let! c := at_index buf pos in
      if characterIsDigit c then Ok (inl kUnexpectedEnd) else Ok (inr (pos, year))
    else Ok (inr (pos, year)).

(** From the position after the day on. *)
Definition date_end (buf : list Z) (pos year : Z) (yearneg : bool) (month day mode : Z)
    (sparkCompatible : bool) : result (DateParseResult * Z * Z) :=
  if has_mode mode kStandardCast then
    let! days := days_and_validity year month day in
    let '(daysSinceEpoch, isValid) := days in
    if pos =? len buf then
      Ok (if isValid && validDate daysSinceEpoch then kSuccess
          else kInvalidDate, pos, daysSinceEpoch)
    else Ok (kUnexpectedEnd, pos, daysSinceEpoch)
  else if has_mode mode kNonStandardCast then
    let! days := days_and_validity year month day in
    let '(daysSinceEpoch, isValid) := days in
    if negb isValid || negb (validDate daysSinceEpoch) then
      Ok (kInvalidDate, pos, daysSinceEpoch)
    else if pos =? len buf then Ok (kSuccess, pos, daysSinceEpoch)
    else
      let! c := at_index buf pos in
      if (c =? 84) || (c =? 32) then Ok (kSuccess, pos, daysSinceEpoch)
      else Ok (kUnexpectedEnd, pos, daysSinceEpoch)
  else
    let! suffix :=
      if negb kSparkCompatible && negb sparkCompatible then
        date_suffix buf pos year yearneg mode
      else Ok (inr (pos, year)) in
    match suffix with
    | inl r => Ok (r, pos, 0)
    | inr (pos, year) =>
        let! days := days_and_validity year month day in
        let '(daysSinceEpoch, isValid) := days in
        Ok (if isValid : bool then kSuccess else kInvalidDate,
            pos, daysSinceEpoch)
    end.

(** From the separator after the year on. *)
Definition parse_month_day (buf : list Z) (pos year : Z) (yearneg : bool)
    (mode : Z) (sparkCompatible : bool) : result (DateParseResult * Z * Z) :=
  let! sep := at_index buf pos in
  let pos := pos + 1 in
  if (if has_mode mode kStandardCast || has_mode mode kNonStandardCast
      then negb (sep =? 45)
      else negb (sep =? 32) && negb (sep =? 45) && negb (sep =? 47) && negb (sep =? 92))
  then Ok (kInvalidSeperator, pos, 0)
  else
    let! month := parseDoubleDigit buf pos in
    match month with
    | None => Ok (kInvalidMonth, pos, 0)
    | Some (month, pos) =>
        if has_mode mode kNonStandardCast && (pos =? len buf) then
          cast_date pos year month 1
        else if pos >=? len buf then Ok (kInvalidDate, pos, 0)
        else
          let! c := at_index buf pos in
          let pos := pos + 1 in
          if negb (c =? sep) then Ok (kInvalidSeperator, pos, 0)
          else if pos >=? len buf then Ok (kUnexpectedEnd, pos, 0)
          else
            let! day := parseDoubleDigit buf pos in
            match day with
            | None => Ok (kInvalidDay, pos, 0)
            | Some (day, pos) =>
                date_end buf pos year yearneg month day mode sparkCompatible
            end
    end.

(** The result, the position and the days since the epoch; the last two are
    used only on success. *)
Definition tryParseDateString (buf : list Z) (mode : Z) (sparkCompatible : bool)
    : result (DateParseResult * Z * Z) :=
  if len buf =? 0 then Ok (kEmptyInput, 0, 0)
  else
    let! pos := skipSpaces buf 0 in
    if pos >=? len buf then Ok (kEmptyInput, pos, 0)
    else
      let! c := at_index buf pos in
      let yearneg := c =? 45 in
      let pos := if (c =? 45) || (c =? 43) then pos + 1 else pos in
      if ((c =? 45) || (c =? 43)) && (pos >=? len buf) then Ok (kEmptyYear, pos, 0)
      else
        let! c := at_index buf pos in
        if negb (characterIsDigit c) then Ok (kInvalidYear, pos, 0)
        else
          let! loop := parse_year (length buf) buf pos 0 0 in
          let '(pos, year, yearDigitNum) := loop in
          if has_mode mode kNonStandardCast && (yearDigitNum <? 4) then
            Ok (kYearTooShort, pos, 0)
          else
            let! year := if yearneg then checked32 (- year) else Ok year in
            if yearneg && (year <? kMinYear) then Ok (kInvalidYear, pos, 0)
            else if has_mode mode kNonStandardCast && (pos =? len buf) then
              cast_date pos year 1 1
            else if pos >=? len buf then Ok (kUnexpectedEnd, pos, 0)
            else parse_month_day buf pos year yearneg mode sparkCompatible.

(** [None] stands for a null result. *)
Definition fromDateString (str : list Z) (nullOutput sparkCompatible : bool)
    : result (option Z) :=
  let! parsed := tryParseDateString str kStrict sparkCompatible in
  match parsed with
  | (kSuccess, _, daysSinceEpoch) => Ok (Some daysSinceEpoch)
  | _ => if nullOutput then Ok None else Err UserFail
  end.

Definition castFromDateString (str : list Z) (isIso8601 : bool)
    : result (option Z) :=
  let! parsed :=
    tryParseDateString str (if isIso8601 then kStandardCast else kNonStandardCast)
      false in
  match parsed with
  | (kSuccess, _, daysSinceEpoch) => Ok (Some daysSinceEpoch)
  | _ => Ok None
  end.

(** * Times *)

Definition fromTime (hour minute second microseconds : Z) : Z :=
  let r := hour in
  let r := r * 60 + minute in
  let r := r * 60 + second in
  r * 1000000 + microseconds.

(** The digits of the fraction. *)
Fixpoint parse_fraction (fuel : nat) (buf : list Z) (pos mult fraction : Z)
    : result (Z * Z) :=
  if pos <? len buf then
    let! c := at_index buf pos in
    if characterIsDigit c then
      match fuel with
      | O => Err OutOfFuel
      | S fuel' =>
          let fraction := if mult >? 0 then fraction + (c - 48) * mult else fraction in
          parse_fraction fuel' buf (pos + 1) (Z.quot mult 10) fraction
      end
    else Ok (pos, fraction)
  else Ok (pos, fraction).

(** A number below a limit, for the fields of the time. *)
Definition parse_field (buf : list Z) (pos limit : Z) : result (option (Z * Z)) :=
  let! field := parseDoubleDigit buf pos in
  match field with
  | Some (value, pos) =>
      if (value <? 0) || (value >=? limit) then Ok None else Ok (Some (value, pos))
  | None => Ok None
  end.

(** From the separator after the minutes on. *)
Definition parse_seconds (nanos : bool) (buf : list Z) (pos hour min mode : Z)
    : result (option (Z * Z)) :=
  let! c := at_index buf pos in
  let pos := pos + 1 in
  if negb (c =? 58) then Ok None
  else
    let! sec := parse_field buf pos 61 in
    match sec with
    | None => Ok None
    | Some (sec, pos) =>
        let! point :=
          if pos <? len buf then
            let! c := at_index buf pos in Ok (c =? 46)
          else Ok false in
        let! loop :=
          if point : bool then
            parse_fraction (length buf) buf (pos + 1)
              (if nanos then 100000000 else 100000) 0
          else Ok (pos, 0) in
        let '(pos, fraction) := loop in
        let! pos := if has_mode mode kStrict then skipSpaces buf pos else Ok pos in
        if has_mode mode kStrict && (pos <? len buf) then Ok None
        else
          Ok (Some (if nanos then fromTime hour min sec 0 * 1000 + fraction
                    else fromTime hour min sec fraction, pos))
    end.

(** Microseconds or nanoseconds since midnight, and the position after. *)
Definition tryParseTimeString (nanos : bool) (buf : list Z) (mode : Z)
    : result (option (Z * Z)) :=
  if len buf =? 0 then Ok None
  else
    let! pos := skipSpaces buf 0 in
    if pos >=? len buf then Ok None
    else
      let! c := at_index buf pos in
      if negb (characterIsDigit c) then Ok None
      else
        let unit := if nanos then 1000 else 1 in
        let! hour := parse_field buf pos 24 in
        match hour with
        | None => Ok None
        | Some (hour, pos) =>
            if has_mode mode kNonStandardCast && (pos =? len buf) then
              Ok (Some (fromTime hour 0 0 0 * unit, pos))
            else if pos >=? len buf then Ok None
            else
              let! sep := at_index buf pos in
              let pos := pos + 1 in
              if negb (sep =? 58) then Ok None
              else
                let! min := parse_field buf pos 60 in
                match min with
                | None => Ok None
                | Some (min, pos) =>
                    if has_mode mode kNonStandardCast && (pos =? len buf) then
                      Ok (Some (fromTime hour min 0 0 * unit, pos))
                    else if pos >=? len buf then Ok None
                    else parse_seconds nanos buf pos hour min mode
                end
        end.

Definition fromTimeString (str : list Z) (nullOutput : bool) : result (option Z) :=
  if len str <=? 0 then (if nullOutput then Ok None else Err UserFail)
  else
    let! c := at_index str 0 in
    let pos := if (c =? 43) || (c =? 45) then 1%nat else 0%nat in
    let sign := if c =? 45 then -1 else 1 in
    let mode := if kSparkCompatible then Z.lor kNonStrict kNonStandardCast else kStrict in
    let! parsed := tryParseTimeString false (drop pos str) mode in
    match parsed with
    | Some (micros, _) => Ok (Some (sign * micros))
    | None => if nullOutput then Ok None else Err UserFail
    end.

(** * Timestamps *)

Definition fromDatetimeImpl (nanos : bool) (daysSinceEpoch timeSinceMidnight : Z)
    : Timestamp :=
  let kUnitsPerSecond := if nanos then kNanosInSecond else 1000000 in
  let kNanosPerUnit := if nanos then 1 else 1000 in
  make_Timestamp
    (daysSinceEpoch * kSecondsInDay + Z.quot timeSinceMidnight kUnitsPerSecond)
    (Z.rem timeSinceMidnight kUnitsPerSecond * kNanosPerUnit).

Definition fromDatetime (daysSinceEpoch microsSinceMidnight : Z) : Timestamp :=
  fromDatetimeImpl false daysSinceEpoch microsSinceMidnight.

(** The position after the offset, its hours and its minutes. *)
Definition tryParseUTCOffsetString (buf : list Z) (pos : Z)
    : result (option (Z * Z * Z)) :=
  let curpos := pos in
  if curpos + 3 >? len buf then Ok None
  else
    let! sign_char := at_index buf curpos in
    if negb (sign_char =? 43) && negb (sign_char =? 45) then Ok None
    else
      let curpos := curpos + 1 in
      let! h1 := at_index buf curpos in
      let! h2 := at_index buf (curpos + 1) in
      if negb (characterIsDigit h1) || negb (characterIsDigit h2) then Ok None
      else
        let hourOffset := (h1 - 48) * 10 + (h2 - 48) in
        let hourOffset := if sign_char =? 45 then - hourOffset else hourOffset in
        let curpos := curpos + 2 in
        if curpos >=? len buf then Ok (Some (curpos, hourOffset, 0))
        else
          let! c := at_index buf curpos in
          let curpos := if c =? 58 then curpos + 1 else curpos in
          if curpos + 2 >? len buf then Ok (Some (curpos, hourOffset, 0))
          else
            let! m1 := at_index buf curpos in
            let! m2 := at_index buf (curpos + 1) in
            if negb (characterIsDigit m1) || negb (characterIsDigit m2) then
              Ok (Some (curpos, hourOffset, 0))
            else
              let minuteOffset := (m1 - 48) * 10 + (m2 - 48) in
              let minuteOffset :=
                if sign_char =? 45 then - minuteOffset else minuteOffset in
              Ok (Some (curpos + 2, hourOffset, minuteOffset)).

(** What may follow the time: a "Z", an offset and spaces. *)
Definition parse_zone_suffix (str : list Z) (pos : Z) (timestamp : Timestamp)
    : result (option Timestamp) :=
  if pos <? len str then
    let! c := at_index str pos in
    let pos := if c =? 90 then pos + 1 else pos in
    let! offset := tryParseUTCOffsetString str pos in
    let '(pos, timestamp) :=
      match offset with
      | Some (pos, hourOffset, minuteOffset) =>
          (pos, make_Timestamp
                  (seconds_ timestamp - (hourOffset * 3600 + minuteOffset * 60))
                  (nanos_ timestamp))
      | None => (pos, timestamp)
      end in
    let! pos := skipSpaces str pos in
    if pos <? len str then Ok None else Ok (Some timestamp)
  else Ok (Some timestamp).

Definition fromTimestampStringImpl (nanos : bool) (str : list Z) (nullOutput : bool)
    : result (option Timestamp) :=
  let fail := if nullOutput then Ok None else Err UserFail in
  let mode :=
    if kSparkCompatible then Z.lor kNonStrict kNonStandardCast else kNonStrict in
  let! parsed := tryParseDateString str mode false in
  match parsed with
  | (kSuccess, pos, daysSinceEpoch) =>
      if pos =? len str then Ok (Some (fromDatetimeImpl nanos daysSinceEpoch 0))
      else
        let! c := at_index str pos in
        let pos := if (c =? 32) || (c =? 84) then pos + 1 else pos in
        let! time := tryParseTimeString nanos (drop (Z.to_nat pos) str) mode in
        match time with
        | None => fail
        | Some (timeSinceMidnight, timePos) =>
            let! r :=
              parse_zone_suffix str (pos + timePos)
                (fromDatetimeImpl nanos daysSinceEpoch timeSinceMidnight) in
            match r with Some t => Ok (Some t) | None => fail end
        end
  | _ => fail
  end.

Definition fromTimestampString (str : list Z) (nullOutput : bool)
    : result (option Timestamp) :=
  fromTimestampStringImpl false str nullOutput.

Definition fromTimestampStringNanos (str : list Z) (nullOutput : bool)
    : result (option Timestamp) :=
  fromTimestampStringImpl true str nullOutput.

(** ** Timestamps with a time zone *)

(** The timestamp and the position after it; a rest that is no time is left to
    the caller. *)
Definition tryParseTimestampString (nanos : bool) (buf : list Z)
    : result (option (Z * Timestamp)) :=
  let mode := Z.lor kNonStrict kNonStandardCast in
  let! parsed := tryParseDateString buf mode false in
  match parsed with
  | (kSuccess, pos, daysSinceEpoch) =>
      if pos =? len buf then Ok (Some (pos, fromDatetimeImpl nanos daysSinceEpoch 0))
      else
        let! c := at_index buf pos in
        let pos := if (c =? 32) || (c =? 84) then pos + 1 else pos in
        let! time := tryParseTimeString nanos (drop (Z.to_nat pos) buf) mode in
        match time with
        | None => Ok (Some (pos, fromDatetimeImpl nanos daysSinceEpoch 0))
        | Some (timeSinceMidnight, timePos) =>
            Ok (Some (pos + timePos,
                      fromDatetimeImpl nanos daysSinceEpoch timeSinceMidnight))
        end
  | _ => Ok None
  end.
End spark.

(** [std::string_view::find] of a character; [None] is [npos]. *)
Fixpoint find_char (c : Z) (l : list Z) : option nat :=
  match l with
  | [] => None
  | x :: l' => if x =? c then Some 0%nat else S <$> find_char c l'
  end.

Definition findFirstPlusOrMinus (timezone : list Z) : option nat :=
  match find_char 43 timezone, find_char 45 timezone with
  | None, minusPos => minusPos
  | plusPos, None => plusPos
  | Some plusPos, Some minusPos => Some (Nat.min plusPos minusPos)
  end.

Definition matchSubstring (str : list Z) (pos1 pos2 : nat) (targets : list (list Z))
    : bool :=
  if (pos2 <? pos1)%nat || (length str <=? pos2)%nat then false
  else bool_decide (take (pos2 - pos1) (drop pos1 str) ∈ targets).

(** The input without the prefix, and whether it had it. *)
Definition removePrefix (input prefix : list Z) : bool * list Z :=
  if bool_decide (take (length prefix) input = prefix)
  then (true, drop (length prefix) input) else (false, input).

(** "UTC", "UCT", "GMT0", "GMT" and "UT". *)
Definition zone_prefixes : list (list Z) :=
  [[85; 84; 67]; [85; 67; 84]; [71; 77; 84; 48]; [71; 77; 84]; [85; 84]].

Section zones.
Variable kSparkCompatible : bool.
(** [tz::getTimeZoneID(name, false)], which is -1 for an unknown name. *)
Variable getTimeZoneID : list Z -> Z.

Definition fromTimestampWithTimezoneStringImpl (nanos : bool) (str : list Z)
    : result (option (Timestamp * Z)) :=
  let! parsed := tryParseTimestampString kSparkCompatible nanos str in
  match parsed with
  | None => Ok None
  | Some (pos, resultTimestamp) =>
      let! space :=
        if pos <? len str then
          let! c := at_index str pos in Ok (characterIsSpace c)
        else Ok false in
      let pos := if space : bool then pos + 1 else pos in
      if pos <? len str then
        let! timezonePos :=
          skip_while (fun c => negb (characterIsSpace c)) (length str) str pos in
        let timezone := take (Z.to_nat (timezonePos - pos)) (drop (Z.to_nat pos) str) in
        let stripped :=
          if (3 <? length timezone)%nat then
            match findFirstPlusOrMinus timezone with
            | Some opPos =>
                if (0 <? opPos)%nat then
                  if matchSubstring timezone 0 opPos zone_prefixes
                  then Some (drop opPos timezone) else None
                else Some timezone
            | None => Some timezone
            end
          else Some timezone in
        match stripped with
        | None => Ok None
        | Some timezone =>
            let timezoneID := getTimeZoneID timezone in
            if timezoneID =? -1 then Ok None
            else
              let! pos := skipSpaces str timezonePos in
              if pos <? len str then Ok None
              else Ok (Some (resultTimestamp, timezoneID))
        end
      else Ok (Some (resultTimestamp, -1))
  end.

Definition fromTimestampWithTimezoneString (str : list Z)
    : result (option (Timestamp * Z)) :=
  fromTimestampWithTimezoneStringImpl false str.

Definition fromTimestampWithTimezoneStringNanos (str : list Z)
    : result (option (Timestamp * Z)) :=
  fromTimestampWithTimezoneStringImpl true str.
End zones.

(** * Spark dates *)

Definition MONTH_OF_31_DAYS : list bool :=
  [false; true; false; true; false; true; false; true; true; false; true; false; true].

Definition isInvalidDate (year month day : Z) : result bool :=
  if (year <? 0) || (year >? 9999) || (month <? 1) || (month >? 12) || (day <? 1)
     || (day >? 31) then Ok true
  else if month =? 2 then
    if isLeapYear year && (day >? 29) then Ok true
    else if negb (isLeapYear year) && (day >? 28) then Ok true
    else Ok false
  else
    let! of31 := at_index MONTH_OF_31_DAYS month in
    Ok (negb of31 && (day >? 30)).

(** The loop: the segments, the index of the current one, the position and the
    value of the current segment; [None] when the string is rejected.  The
    value is an [int]. *)
Fixpoint spark_segments (bytes : list Z) (segments : list Z) (i j current : Z)
    : result (option (list Z * Z * Z * Z)) :=
  match bytes with
  | [] => Ok (Some (segments, i, j, current))
  | b :: bytes' =>
      if (i <? 3) && negb ((b =? 32) || (b =? 84)) then
        if (i <? 2) && (b =? 45) then
          if (i =? 0) && negb (j =? 4) then Ok None
          else spark_segments bytes' (<[Z.to_nat i := current]> segments) (i + 1) (j + 1) 0
        else
          let parsedValue := b - 48 in
          if (parsedValue <? 0) || (parsedValue >? 9) then Ok None
          else
            let! tens := ck32 (current * 10) in
            let! current := ck32 (tens + parsedValue) in
            spark_segments bytes' segments i (j + 1) current
      else Ok (Some (segments, i, j, current))
  end.

Definition sparkStringToDate (bytes : list Z) : result (option Z) :=
  let! loop := spark_segments bytes [1; 1; 1] 0 0 0 in
  match loop with
  | None => Ok None
  | Some (segments, i, j, current) =>
      if (i =? 0) && negb (j =? 4) then Ok None
      else
        let segments := <[Z.to_nat i := current]> segments in
        let! year := at_index segments 0 in
        let! month := at_index segments 1 in
        let! day := at_index segments 2 in
        let! invalid := isInvalidDate year month day in
        if invalid : bool then Ok None
        else
          let! days := daysSinceEpochFromDate year month day in
          Ok (Some (wrap_signed 32 days))
  end.

(** * The parsers end and stay within the string *)

(** [m] returns a value that satisfies [post], or throws one of [es]: it does
    not run into undefined behaviour and does not run out of fuel. *)
Definition completes {A} (es : list error) (post : A -> Prop) (m : result A) : Prop :=
  match m with Ok a => post a | Err e => e ∈ es end.

Lemma completes_bind {A B} es (post : A -> Prop) (post' : B -> Prop) m k :
  completes es post m -> (forall a, post a -> completes es post' (k a)) ->
  completes es post' (let! a := m in k a).
Proof. destruct m; simpl; auto. Qed.

Lemma completes_weaken {A} es es' (post post' : A -> Prop) m :
  completes es post m -> es ⊆ es' -> (forall a, post a -> post' a) ->
  completes es' post' m.
Proof. destruct m; simpl; auto. Qed.

Lemma completes_at {A B} es (post : B -> Prop) (l : list A) i k :
  0 <= i < Z.of_nat (length l) -> (forall a, completes es post (k a)) ->
  completes es post (let! a := at_index l i in k a).
Proof.
  intros Hi Hk. unfold at_index. replace (i <? 0) with false by lia.
  destruct (lookup_lt_is_Some_2 l (Z.to_nat i)) as [x ->]; [lia|]. apply Hk.
Qed.

(** Case analysis on the condition at the head of a program. *)
Ltac split_if :=
  match goal with
  | |- completes _ _ (if ?b then _ else _) => destruct b eqn:?
  end.

Lemma skip_while_completes es p fuel buf pos :
  0 <= pos <= len buf -> len buf - pos <= Z.of_nat fuel ->
  completes es (fun pos' => pos <= pos' <= len buf) (skip_while p fuel buf pos).
Proof.
  unfold len. revert pos. induction fuel as [|fuel IH]; intros pos Hp Hf; simpl; unfold len.
  - replace (pos <? _) with false by zbool. simpl. lia.
  - split_if; [|simpl; lia]. apply completes_at; [lia|]. intros c. split_if; [|simpl; lia].
    eapply completes_weaken; [apply IH; lia|done|]. simpl. lia.
Qed.

Lemma skipSpaces_completes es buf pos :
  0 <= pos <= len buf ->
  completes es (fun pos' => pos <= pos' <= len buf) (skipSpaces buf pos).
Proof. intros. apply skip_while_completes; unfold len in *; lia. Qed.

Definition field_post (buf : list Z) (pos : Z) (r : option (Z * Z)) : Prop :=
  match r with Some (v, pos') => pos < pos' <= len buf /\ 0 <= v <= 99 | None => True end.

Lemma parseDoubleDigit_completes es buf pos :
  0 <= pos -> completes es (field_post buf pos) (parseDoubleDigit buf pos).
Proof.
  unfold parseDoubleDigit, len. intros Hp. split_if; [|done].
  apply completes_at; [lia|]. intros c. unfold characterIsDigit. split_if; [|done].
  split_if; [|simpl; unfold len; zbool]. apply completes_at; [lia|]. intros c'.
  split_if; simpl; unfold len; zbool.
Qed.

Lemma parse_field_completes es buf pos limit :
  0 <= pos -> completes es (field_post buf pos) (parse_field buf pos limit).
Proof.
  intros Hp. eapply completes_bind; [by apply parseDoubleDigit_completes|].
  intros [[v p]|] Hpost; simpl; [|done]. split_if; done.
Qed.

Lemma parse_year_completes fuel buf pos year n :
  0 <= pos <= len buf -> len buf - pos <= Z.of_nat fuel -> 0 <= year <= INT32_MAX ->
  completes [ArithmeticError]
    (fun '(pos', year', _) => pos <= pos' <= len buf /\ 0 <= year' <= INT32_MAX)
    (parse_year fuel buf pos year n).
Proof.
  revert pos year n. induction fuel as [|fuel IH]; intros pos year n Hp Hf Hy; simpl.
  - replace (pos <? _) with false by zbool. simpl. lia.
  - split_if; [|simpl; lia]. apply completes_at; [unfold len in *; lia|]. intros c.
    unfold characterIsDigit. split_if; [|simpl; lia].
    unfold checked32, in_int32. destruct (_ && (year * 10 <=? _)) eqn:?; [|simpl; set_solver].
    cbn [rbind]. destruct (_ && (c - 48 + year * 10 <=? _)) eqn:?; [|simpl; set_solver].
    cbn [rbind]. split_if; [simpl; zbool|].
    eapply completes_weaken; [apply IH; zbool|done|]. intros [[? ?] ?]. simpl. lia.
Qed.

Lemma days_and_validity_total year month day :
  exists r, days_and_validity year month day = Ok r.
Proof.
  unfold days_and_validity. pose proof (isValidDate_total year month day) as Ht.
  destruct (isValidDate year month day) as [[]|] eqn:E; [| |done].
  - apply isValidDate_spec in E as (Hy & N & HN). rewrite (tryDays_spec N) by done. by eexists.
  - rewrite tryDays_invalid by done. by eexists.
Qed.

Lemma completes_days {B} es (post : B -> Prop) year month day k :
  (forall r, completes es post (k r)) ->
  completes es post (let! r := days_and_validity year month day in k r).
Proof. intros Hk. destruct (days_and_validity_total year month day) as [r ->]. apply Hk. Qed.

(** A position within the string when the parser succeeds. *)
Definition date_post (buf : list Z) (r : DateParseResult * Z * Z) : Prop :=
  let '(code, pos, _) := r in code = kSuccess -> 0 <= pos <= len buf.

Lemma date_suffix_completes es buf pos year yearneg mode :
  0 <= pos <= len buf ->
  completes es (fun r => match r with inr (pos', _) => 0 <= pos' <= len buf | inl r => r <> kSuccess end)
    (date_suffix buf pos year yearneg mode).
Proof.
  intros Hp. unfold date_suffix.
  apply (completes_bind es (fun b => b = true -> pos + 5 <= len buf)).
  { split_if; [|done]. repeat (apply completes_at; [unfold len in *; lia|]; intros ?).
    simpl. intros _. lia. }
  intros bc Hbc. split_if; [done|].
  assert (0 <= (if bc then pos + 5 else pos) <= len buf) as Hp'
    by (destruct bc; [specialize (Hbc eq_refl)|]; lia).
  set (pos' := if bc then _ else _) in *. clearbody pos'.
  split_if; [done|]. split_if.
  - eapply completes_bind; [by apply skipSpaces_completes|]. intros p Hp2. simpl in Hp2.
    split_if; simpl; [done|lia].
  - split_if; [|simpl; lia]. apply completes_at; [unfold len in *; lia|]. intros c.
    split_if; simpl; [done|lia].
Qed.

Lemma date_end_completes es spark buf pos year yearneg month day mode sparkCompatible :
  0 <= pos <= len buf ->
  completes es (date_post buf)
    (date_end spark buf pos year yearneg month day mode sparkCompatible).
Proof.
  intros Hp. unfold date_end.
  split_if; [apply completes_days; intros [? ?]; split_if; simpl; [lia|done]|].
  split_if.
  - apply completes_days. intros [? ?]. split_if; [done|]. split_if; [simpl; lia|].
    apply completes_at; [unfold len in *; lia|]. intros c'. split_if; simpl; [lia|done].
  - eapply (completes_bind es (fun r => match r with
      | inr (pos', _) => 0 <= pos' <= len buf | inl r => r <> kSuccess end)).
    { split_if; [apply date_suffix_completes; lia|simpl; lia]. }
    intros [r|[p' y']] Hr; simpl; [done|]. apply completes_days. intros [? ?]. simpl. done.
Qed.

Lemma parse_month_day_completes es spark buf pos year yearneg mode sparkCompatible :
  0 <= pos < len buf ->
  completes es (date_post buf)
    (parse_month_day spark buf pos year yearneg mode sparkCompatible).
Proof.
  intros Hp. unfold parse_month_day. apply completes_at; [unfold len in *; lia|]. intros sep.
  split_if; [done|].
  eapply completes_bind; [apply parseDoubleDigit_completes; lia|].
  intros [[month p]|] Hpost; [|done]. simpl in Hpost.
  split_if; [unfold cast_date; apply completes_days; intros [? ?]; simpl; lia|].
  split_if; [done|]. apply completes_at; [unfold len in *; lia|]. intros c.
  split_if; [done|]. split_if; [done|].
  eapply completes_bind; [apply parseDoubleDigit_completes; lia|].
  intros [[day q]|] Hpost'; [|done]. simpl in Hpost'.
  apply date_end_completes. lia.
Qed.

Lemma tryParseDateString_completes spark buf mode sparkCompatible :
  completes [ArithmeticError] (date_post buf)
    (tryParseDateString spark buf mode sparkCompatible).
Proof.
  unfold tryParseDateString. split_if; [done|].
  eapply completes_bind; [apply skipSpaces_completes; unfold len in *; lia|].
  intros pos Hp. simpl in Hp. split_if; [done|].
  apply completes_at; [unfold len in *; lia|]. intros c.
  set (pos' := if (c =? 45) || (c =? 43) then pos + 1 else pos).
  destruct (((c =? 45) || (c =? 43)) && (pos' >=? len buf)) eqn:E; [done|].
  assert (0 <= pos' < len buf) as Hp'.
  { unfold pos' in *. destruct ((c =? 45) || (c =? 43)); simpl in E; lia. }
  clearbody pos'. apply completes_at; [unfold len in *; lia|]. intros c'.
  split_if; [done|].
  eapply completes_bind; [apply parse_year_completes; unfold len in *; lia|].
  intros [[p year] n] [Hpos Hyear]. split_if; [done|].
  eapply (completes_bind _ (fun _ => True)).
  { split_if; [|done]. unfold checked32, in_int32.
    replace (_ && _) with true by zbool. done. }
  intros year' _. split_if; [done|].
  split_if; [unfold cast_date; apply completes_days; intros [? ?]; simpl; lia|].
  split_if; [done|]. apply parse_month_day_completes. lia.
Qed.

Lemma parse_fraction_completes es fuel buf pos mult fraction :
  0 <= pos <= len buf -> len buf - pos <= Z.of_nat fuel ->
  completes es (fun '(pos', _) => pos <= pos' <= len buf)
    (parse_fraction fuel buf pos mult fraction).
Proof.
  revert pos mult fraction. induction fuel as [|fuel IH]; intros pos mult fraction Hp Hf; simpl.
  - replace (pos <? _) with false by zbool. simpl. lia.
  - split_if; [|simpl; lia]. apply completes_at; [unfold len in *; lia|]. intros c.
    split_if; [|simpl; lia].
    eapply completes_weaken; [apply IH; lia|done|]. intros [? ?]. simpl. lia.
Qed.

(** A position within the string after a time. *)
Definition time_post (buf : list Z) (r : option (Z * Z)) : Prop :=
  match r with Some (_, pos) => 0 <= pos <= len buf | None => True end.

Lemma parse_seconds_completes es nanos buf pos hour min mode :
  0 <= pos < len buf ->
  completes es (time_post buf) (parse_seconds nanos buf pos hour min mode).
Proof.
  intros Hp. unfold parse_seconds. apply completes_at; [unfold len in *; lia|]. intros c.
  split_if; [done|].
  eapply completes_bind; [apply parse_field_completes; lia|].
  intros [[sec p]|] Hpost; [|done]. simpl in Hpost.
  apply (completes_bind es (fun b => b = true -> p < len buf)).
  { split_if; [|done]. apply completes_at; [unfold len in *; lia|]. simpl. intros _ _. lia. }
  intros point Hpoint.
  apply (completes_bind es (fun '(pos', _) => p <= pos' <= len buf)).
  { split_if; [|simpl; lia].
    eapply completes_weaken; [apply parse_fraction_completes; unfold len in *; lia|done|].
    intros [? ?]. simpl. lia. }
  intros [p' f] Hp'.
  apply (completes_bind es (fun pos' => p' <= pos' <= len buf)).
  { split_if; [apply skipSpaces_completes; lia|simpl; lia]. }
  intros p2 Hp2. split_if; simpl; [done|lia].
Qed.

Lemma tryParseTimeString_completes es nanos buf mode :
  completes es (time_post buf) (tryParseTimeString nanos buf mode).
Proof.
  unfold tryParseTimeString. split_if; [done|].
  eapply completes_bind; [apply skipSpaces_completes; unfold len in *; lia|].
  intros pos Hp. simpl in Hp. split_if; [done|].
  apply completes_at; [unfold len in *; lia|]. intros c. split_if; [done|].
  eapply completes_bind; [apply parse_field_completes; lia|].
  intros [[hour p]|] Hh; [|done]. simpl in Hh.
  split_if; [simpl; lia|]. split_if; [done|].
  apply completes_at; [unfold len in *; lia|]. intros sep. split_if; [done|].
  eapply completes_bind; [apply parse_field_completes; lia|].
  intros [[min q]|] Hm; [|done]. simpl in Hm.
  split_if; [simpl; lia|]. split_if; [done|]. apply parse_seconds_completes. lia.
Qed.

Lemma tryParseUTCOffsetString_completes es buf pos :
  0 <= pos ->
  completes es
    (fun r => match r with Some (pos', _, _) => pos <= pos' <= len buf | None => True end)
    (tryParseUTCOffsetString buf pos).
Proof.
  intros Hp. unfold tryParseUTCOffsetString. split_if; [done|].
  apply completes_at; [unfold len in *; lia|]. intros sign. split_if; [done|].
  apply completes_at; [unfold len in *; lia|]. intros h1.
  apply completes_at; [unfold len in *; lia|]. intros h2. split_if; [done|].
  split_if; [simpl; lia|]. apply completes_at; [unfold len in *; lia|]. intros c.
  set (q := if c =? 58 then _ else _).
  assert (pos + 3 <= q <= len buf) as Hq by (unfold q; case_match; unfold len in *; lia).
  clearbody q. split_if; [simpl; lia|].
  apply completes_at; [unfold len in *; lia|]. intros m1.
  apply completes_at; [unfold len in *; lia|]. intros m2.
  split_if; simpl; lia.
Qed.

Lemma parse_zone_suffix_completes es str pos ts :
  0 <= pos <= len str -> completes es (fun _ => True) (parse_zone_suffix str pos ts).
Proof.
  intros Hp. unfold parse_zone_suffix. split_if; [|done].
  apply completes_at; [unfold len in *; lia|]. intros c.
  set (q := if c =? 90 then _ else _).
  assert (0 <= q <= len str) as Hq by (unfold q; case_match; lia). clearbody q.
  eapply completes_bind; [apply tryParseUTCOffsetString_completes; lia|].
  intros [[[p h] m]|] Hpost; simpl in Hpost; cbv beta iota;
    (eapply completes_bind; [apply skipSpaces_completes; lia|]; intros p' _; by split_if).
Qed.

(** What can be thrown when the caller asks for null or not. *)
Definition thrown (nullOutput : bool) : list error :=
  if nullOutput then [ArithmeticError] else [ArithmeticError; UserFail].

Lemma thrown_arith nullOutput : [ArithmeticError] ⊆ thrown nullOutput.
Proof. unfold thrown. destruct nullOutput; set_solver. Qed.

Lemma fail_completes {A} (nullOutput : bool) :
  completes (thrown nullOutput) (fun _ : option A => True)
    (if nullOutput then Ok None else Err UserFail).
Proof. unfold thrown. destruct nullOutput; simpl; [done|set_solver]. Qed.

Lemma fromTimestampStringImpl_completes spark nanos str nullOutput :
  completes (thrown nullOutput) (fun _ => True)
    (fromTimestampStringImpl spark nanos str nullOutput).
Proof.
  unfold fromTimestampStringImpl. cbv zeta.
  eapply completes_bind.
  { eapply completes_weaken; [apply tryParseDateString_completes|apply thrown_arith|].
    intros a Ha. exact Ha. }
  intros [[code pos] days] Hpost.
  destruct code; try apply fail_completes. specialize (Hpost eq_refl).
  split_if; [done|]. apply completes_at; [unfold len in *; lia|]. intros c.
  set (q := if (c =? 32) || (c =? 84) then _ else _).
  assert (0 <= q <= len str) as Hq by (unfold q; case_match; lia). clearbody q.
  eapply completes_bind; [apply tryParseTimeString_completes|].
  intros [[time p]|] Hp; [|apply fail_completes]. simpl in Hp.
  unfold len in Hp. rewrite length_drop in Hp.
  eapply completes_bind; [apply parse_zone_suffix_completes; unfold len in *; lia|].
  intros [t|] _; [done|apply fail_completes].
Qed.

Lemma tryParseTimestampString_completes spark nanos buf :
  completes [ArithmeticError]
    (fun r => match r with Some (pos, _) => 0 <= pos <= len buf | None => True end)
    (tryParseTimestampString spark nanos buf).
Proof.
  unfold tryParseTimestampString. cbv zeta.
  eapply completes_bind; [apply tryParseDateString_completes|].
  intros [[code pos] days] Hpost. destruct code; try done. specialize (Hpost eq_refl).
  split_if; [done|]. apply completes_at; [unfold len in *; lia|]. intros c.
  set (q := if (c =? 32) || (c =? 84) then _ else _).
  assert (0 <= q <= len buf) as Hq by (unfold q; case_match; lia). clearbody q.
  eapply completes_bind; [apply tryParseTimeString_completes|].
  intros [[time p]|] Hp; simpl; [|lia]. simpl in Hp.
  unfold len in Hp |- *. rewrite length_drop in Hp. unfold len in *. lia.
Qed.

Lemma fromTimestampWithTimezone_completes spark zone nanos str :
  completes [ArithmeticError] (fun _ => True)
    (fromTimestampWithTimezoneStringImpl spark zone nanos str).
Proof.
  unfold fromTimestampWithTimezoneStringImpl.
  eapply completes_bind; [apply tryParseTimestampString_completes|].
  intros [[pos ts]|] Hp; [|done].
  apply (completes_bind _ (fun b => b = true -> pos < len str)).
  { split_if; [|done]. apply completes_at; [unfold len in *; lia|]. simpl. intros _ _. lia. }
  intros space Hspace. set (q := if space then _ else _).
  assert (0 <= q <= len str) as Hq by (unfold q; destruct space; naive_solver lia).
  clearbody q. split_if; [|done].
  eapply completes_bind; [apply skip_while_completes; unfold len in *; lia|].
  intros zpos Hz. simpl in Hz. cbv zeta. destruct (if (3 <? _)%nat then _ else _); [|done].
  split_if; [done|].
  eapply completes_bind; [apply skipSpaces_completes; lia|]. intros p _. by split_if.
Qed.

(** * Reading back what was printed *)

(** [at_index] in a string of known parts. *)
Lemma at_index_app (pre post : list Z) c :
  at_index (pre ++ c :: post) (len pre) = Ok c.
Proof.
  unfold at_index, len. replace (_ <? 0) with false by zbool.
  by rewrite Nat2Z.id, list_lookup_middle.
Qed.

Lemma len_app a b : len (a ++ b) = len a + len b.
Proof. unfold len. rewrite length_app. lia. Qed.

Lemma len_cons c b : len (c :: b) = 1 + len b.
Proof. unfold len. simpl. lia. Qed.

Lemma len_nonneg a : 0 <= len a.
Proof. unfold len. lia. Qed.

Lemma cons_app pre c (post : list Z) : pre ++ c :: post = (pre ++ [c]) ++ post.
Proof. by rewrite <- app_assoc. Qed.

Lemma len_snoc pre c : len pre + 1 = len (pre ++ [c]).
Proof. by rewrite len_app. Qed.

(** The string ends or goes on with a character that does not satisfy [p]. *)
Definition stops (p : Z -> bool) (post : list Z) : Prop :=
  match post with [] => True | c :: _ => p c = false end.

Lemma digit_true c : 48 <= c <= 57 -> characterIsDigit c = true.
Proof. intros. unfold characterIsDigit. zbool. Qed.

Lemma parse_year_digits fuel pre ds post year n :
  all_digits ds -> stops characterIsDigit post -> 0 <= year ->
  digits_value year ds <= kMaxYear -> (length ds <= fuel)%nat ->
  parse_year fuel (pre ++ ds ++ post) (len pre) year n
  = Ok (len pre + len ds, digits_value year ds, n + len ds).
Proof.
  intros Hds Hpost. revert pre year n fuel.
  induction Hds as [|c ds Hc Hds IH]; intros pre year n fuel Hy Hv Hf.
  - rewrite app_nil_l. replace (len pre + len []) with (len pre) by (unfold len; simpl; lia).
    replace (n + len []) with n by (unfold len; simpl; lia).
    destruct fuel; simpl; rewrite len_app; destruct post as [|c post].
    1, 3: by replace (len pre <? _) with false by (unfold len; simpl; zbool).
    all: rewrite len_cons; pose proof (len_nonneg post);
      replace (len pre <? _) with true by zbool;
      rewrite at_index_app; cbn [rbind]; simpl in Hpost; by rewrite Hpost.
  - destruct fuel as [|fuel]; [simpl in Hf; lia|].
    cbn [parse_year app]. rewrite len_app, len_cons, len_app.
    pose proof (len_nonneg ds). pose proof (len_nonneg post).
    replace (len pre <? _) with true by zbool. rewrite at_index_app. cbn [rbind].
    rewrite digit_true by done.
    assert (digits_value year (c :: ds) = digits_value (year * 10 + (c - 48)) ds) as Hstep by done.
    rewrite Hstep in *.
    pose proof (digits_value_ge (year * 10 + (c - 48)) ds Hds ltac:(lia)) as Hge.
    unfold checked32, in_int32. replace (_ && _) with true by zbool. cbn [rbind].
    replace (_ && _) with true by zbool. cbn [rbind].
    replace (c - 48 + year * 10) with (year * 10 + (c - 48)) by lia.
    replace (_ >? kMaxYear) with false by lia.
    replace (pre ++ c :: ds ++ post) with ((pre ++ [c]) ++ ds ++ post)
      by (by rewrite <- app_assoc).
    replace (len pre + 1) with (len (pre ++ [c])) by (rewrite len_app, len_cons; unfold len; simpl; lia).
    rewrite IH by (simpl in Hf; lia). rewrite len_app, !len_cons.
    change (len []) with 0. f_equal. f_equal; [f_equal|]; lia.
Qed.

Lemma parseDoubleDigit_padded pre v post :
  0 <= v < 100 ->
  parseDoubleDigit (pre ++ padded 2 v ++ post) (len pre) = Ok (Some (v, len pre + 2)).
Proof.
  intros Hv. rewrite padded_2 by done. unfold parseDoubleDigit. cbn [app].
  rewrite len_app, !len_cons. pose proof (len_nonneg post).
  replace (len pre <? _) with true by zbool. rewrite at_index_app. cbn [rbind].
  rewrite digit_true by euclid. replace (len pre + 1 <? _) with true by zbool.
  replace (pre ++ ch_0 + v / 10 :: ch_0 + v mod 10 :: post)
    with ((pre ++ [ch_0 + v / 10]) ++ ch_0 + v mod 10 :: post) by (by rewrite <- app_assoc).
  replace (len pre + 1) with (len (pre ++ [ch_0 + v / 10]))
    by (rewrite len_app, len_cons; unfold len; simpl; lia).
  rewrite at_index_app. cbn [rbind]. rewrite digit_true by euclid.
  rewrite len_app, len_cons. change (len []) with 0. do 3 f_equal; [euclid|lia].
Qed.

Lemma parse_field_padded pre v post limit :
  0 <= v < 100 -> v < limit ->
  parse_field (pre ++ padded 2 v ++ post) (len pre) limit = Ok (Some (v, len pre + 2)).
Proof.
  intros Hv Hl. unfold parse_field. rewrite parseDoubleDigit_padded by done. cbn [rbind].
  by replace (_ || _) with false by zbool.
Qed.

Lemma skipSpaces_stay pre post :
  stops characterIsSpace post -> skipSpaces (pre ++ post) (len pre) = Ok (len pre).
Proof.
  intros Hpost. unfold skipSpaces. rewrite length_app.
  destruct post as [|c post].
  - destruct (length pre + _)%nat; simpl;
      by replace (len pre <? _) with false by (rewrite len_app; unfold len; simpl; zbool).
  - destruct (length pre + _)%nat; simpl; rewrite len_app, len_cons; pose proof (len_nonneg post);
      replace (len pre <? _) with true by zbool; rewrite at_index_app; cbn [rbind];
      simpl in Hpost; by rewrite Hpost.
Qed.

(** ** The fraction *)

(** The value of the digits of a fraction, the first one worth [mult]. *)
Fixpoint frac_value (mult : Z) (l : list Z) : Z :=
  match l with
  | [] => 0
  | c :: l' => (c - 48) * mult + frac_value (mult / 10) l'
  end.

Lemma parse_fraction_digits fuel pre ds post mult f :
  all_digits ds -> stops characterIsDigit post -> 0 <= mult -> (length ds <= fuel)%nat ->
  parse_fraction fuel (pre ++ ds ++ post) (len pre) mult f
  = Ok (len pre + len ds, f + frac_value mult ds).
Proof.
  intros Hds Hpost. revert pre mult f fuel.
  induction Hds as [|c ds Hc Hds IH]; intros pre mult f fuel Hm Hf.
  - rewrite app_nil_l. replace (len pre + len []) with (len pre) by (unfold len; simpl; lia).
    simpl frac_value. rewrite Z.add_0_r.
    destruct fuel; simpl; rewrite len_app; destruct post as [|c post].
    1, 3: by replace (len pre <? _) with false by (unfold len; simpl; zbool).
    all: rewrite len_cons; pose proof (len_nonneg post);
      replace (len pre <? _) with true by zbool;
      rewrite at_index_app; cbn [rbind]; simpl in Hpost; by rewrite Hpost.
  - destruct fuel as [|fuel]; [simpl in Hf; lia|].
    cbn [parse_fraction app frac_value]. rewrite len_app, len_cons, len_app.
    pose proof (len_nonneg ds). pose proof (len_nonneg post).
    replace (len pre <? _) with true by zbool. rewrite at_index_app. cbn [rbind].
    rewrite digit_true by done.
    replace (pre ++ c :: ds ++ post) with ((pre ++ [c]) ++ ds ++ post)
      by (by rewrite <- app_assoc).
    replace (len pre + 1) with (len (pre ++ [c])) by (rewrite len_app, len_cons; unfold len; simpl; lia).
    rewrite Z.quot_div_nonneg by lia.
    rewrite IH by (simpl in Hf; first [lia|euclid]). rewrite len_app, !len_cons.
    change (len []) with 0. f_equal. f_equal; [lia|]. destruct (mult >? 0) eqn:E; [lia|].
    replace mult with 0 by lia. lia.
Qed.

Lemma frac_value_app mult a b :
  0 <= mult ->
  frac_value mult (a ++ b) = frac_value mult a + frac_value (mult / 10 ^ len a) b.
Proof.
  revert mult. induction a as [|c a IH]; intros mult Hm; simpl.
  - change (len []) with 0. by rewrite Z.pow_0_r, Z.div_1_r.
  - rewrite IH by euclid. rewrite len_cons, Z.pow_add_r by (unfold len; lia).
    rewrite Z.pow_1_r, Z.div_div by (try lia; apply Z.pow_pos_nonneg; unfold len; lia). lia.
Qed.

Lemma frac_value_zeros mult k : frac_value mult (repeat ch_0 k) = 0.
Proof. revert mult. induction k as [|k IH]; intros; simpl; [done|]. rewrite IH. lia. Qed.

Lemma frac_value_padded k j n :
  0 <= n < 10 ^ Z.of_nat k ->
  frac_value (10 ^ (Z.of_nat k - 1 + Z.of_nat j)) (padded k n) = n * 10 ^ Z.of_nat j.
Proof.
  revert j n. induction k as [|k IH]; intros j n Hn; [simpl in *; lia|].
  cbn [padded]. rewrite frac_value_app by (apply Z.pow_nonneg; lia).
  pose proof (IH (S j) (n / 10) ltac:(by apply div10_lt)) as Hk.
  replace (Z.of_nat k - 1 + Z.of_nat (S j)) with (Z.of_nat (S k) - 1 + Z.of_nat j) in Hk by lia.
  rewrite Hk. unfold len. rewrite padded_length.
  replace (10 ^ (Z.of_nat (S k) - 1 + Z.of_nat j) / 10 ^ Z.of_nat k) with (10 ^ Z.of_nat j).
  2: { replace (Z.of_nat (S k) - 1 + Z.of_nat j) with (Z.of_nat j + Z.of_nat k) by lia.
       rewrite Z.pow_add_r by lia. rewrite Z.div_mul; [done|]. apply Z.pow_nonzero; lia. }
  simpl frac_value. rewrite pow10_S. pose proof (pow10_pos j). clear Hk IH. 
  replace (ch_0 + n mod 10 - 48) with (n mod 10) by lia.
  rewrite (Z.div_mod n 10) at 3 by lia. ring.
Qed.

Lemma drop_zeros_split l : exists k, l = repeat ch_0 k ++ drop_zeros l.
Proof.
  induction l as [|c l [k IH]]; [by exists 0%nat|]. simpl.
  destruct (c =? ch_0) eqn:E; [|by exists 0%nat].
  apply Z.eqb_eq in E as ->. exists (S k). simpl. by rewrite <- IH.
Qed.

Lemma trim_zeros_split l : exists k, l = trim_zeros l ++ repeat ch_0 k.
Proof.
  destruct (drop_zeros_split (rev l)) as [k Hk]. exists k. unfold trim_zeros.
  rewrite <- (rev_zeros k), <- rev_app_distr, <- Hk. by rewrite rev_involutive.
Qed.

(** The digits that were printed have the value of the fraction, for a parser
    that reads [w] digits. *)
Lemma render_fraction_value options nanos w :
  0 <= nanos <= kMaxNanos -> precisionWidth options <= w ->
  exists ds, all_digits ds
    /\ (render_fraction options nanos = [] /\ ds = []
        \/ render_fraction options nanos = 46 :: ds)
    /\ frac_value (10 ^ (w - 1)) ds
       = scale_nanos options nanos * 10 ^ (w - precisionWidth options).
Proof.
  intros Hn Hw. pose proof (scale_nanos_bounds options nanos Hn) as Hf.
  pose proof (precisionWidth_bounds options) as Hp.
  unfold render_fraction. set (f := scale_nanos options nanos) in *. clearbody f.
  remember (Z.to_nat (precisionWidth options)) as k eqn:Hk.
  replace (precisionWidth options) with (Z.of_nat k) in * by lia. clear Hk.
  pose proof (frac_value_padded k (Z.to_nat (w - Z.of_nat k)) f Hf) as Hv.
  rewrite Z2Nat.id in Hv by lia.
  replace (Z.of_nat k - 1 + (w - Z.of_nat k)) with (w - 1) in Hv by lia.
  pose proof (padded_all_digits k f) as Had.
  destruct (skipTrailingZeros options); [|by exists (padded k f); eauto].
  destruct (trim_zeros_split (padded k f)) as [j Hj].
  exists (trim_zeros (padded k f)).
  assert (all_digits (trim_zeros (padded k f))) as Ht
    by (rewrite Hj in Had; by apply Forall_app in Had as [? _]).
  split; [done|]. split; [destruct (trim_zeros (padded k f)); eauto|].
  rewrite <- Hv. rewrite Hj at 2. rewrite frac_value_app by (apply Z.pow_nonneg; lia).
  rewrite frac_value_zeros. lia.
Qed.

(** ** The time *)

Lemma not_space c : 33 <= c -> characterIsSpace c = false.
Proof. intros. unfold characterIsSpace. zbool. Qed.

Lemma len_padded k n : len (padded k n) = Z.of_nat k.
Proof. unfold len. by rewrite padded_length. Qed.

Lemma len_nil : len [] = 0.
Proof. done. Qed.

Ltac lens := rewrite ?len_app, ?len_cons, ?len_padded, ?len_nil, ?len_app, ?len_cons, ?len_padded, ?len_nil.

Lemma parse_seconds_text nanos options pre hour min sec ns mode :
  0 <= sec < 60 -> 0 <= ns <= kMaxNanos -> has_mode mode kStrict = false ->
  precisionWidth options <= (if nanos : bool then 9 else 6) ->
  let text := pre ++ 58 :: padded 2 sec ++ render_fraction options ns in
  let w := if nanos then 9 else 6 in
  let f := scale_nanos options ns * 10 ^ (w - precisionWidth options) in
  parse_seconds nanos text (len pre) hour min mode
  = Ok (Some (if nanos then fromTime hour min sec 0 * 1000 + f
              else fromTime hour min sec f, len text)).
Proof.
  intros Hs Hn Hmode Hp text w f.
  destruct (render_fraction_value options ns w Hn Hp) as (ds & Hds & Hrf & Hv). fold f in Hv.
  assert ((if nanos then 100000000 else 100000) = 10 ^ (w - 1)) as Hmult
    by (subst w; by destruct nanos).
  unfold parse_seconds, text. rewrite at_index_app. cbn [rbind Z.eqb Pos.eqb negb].
  rewrite (cons_app pre 58), (len_snoc pre 58).
  rewrite parse_field_padded by lia. cbn [rbind].
  replace (len (pre ++ [58]) + 2) with (len ((pre ++ [58]) ++ padded 2 sec))
    by (rewrite (len_app (pre ++ [58])), len_padded; lia).
  rewrite (app_assoc (pre ++ [58])). set (head := (pre ++ [58]) ++ padded 2 sec).
  rewrite Hmult, Hmode. destruct Hrf as [[-> ->]| ->].
  - rewrite app_nil_r, Z.ltb_irrefl. cbn [rbind andb]. simpl in Hv. by rewrite <- Hv.
  - replace (len head <? _) with true
      by (rewrite len_app, len_cons; pose proof (len_nonneg ds); zbool).
    rewrite at_index_app. cbn [rbind Z.eqb Pos.eqb].
    rewrite (cons_app head 46), (len_snoc head 46).
    rewrite <- (app_nil_r ds) at 1 2.
    rewrite parse_fraction_digits; [|done|done|apply Z.pow_nonneg; lia|
      rewrite !length_app; lia].
    cbn [rbind andb]. by rewrite Hv, <- len_app, Z.add_0_l.
Qed.

Lemma parse_time_text nanos options hour min sec ns mode :
  0 <= hour < 24 -> 0 <= min < 60 -> 0 <= sec < 60 -> 0 <= ns <= kMaxNanos ->
  has_mode mode kStrict = false ->
  precisionWidth options <= (if nanos : bool then 9 else 6) ->
  let text := padded 2 hour ++ 58 :: padded 2 min ++ 58 :: padded 2 sec
              ++ render_fraction options ns in
  let w := if nanos then 9 else 6 in
  let f := scale_nanos options ns * 10 ^ (w - precisionWidth options) in
  tryParseTimeString nanos text mode
  = Ok (Some (if nanos then fromTime hour min sec 0 * 1000 + f
              else fromTime hour min sec f, len text)).
Proof.
  intros Hh Hm Hs Hn Hmode Hp text w f.
  assert (len text = 8 + len (render_fraction options ns)) as Hlen
    by (unfold text; rewrite !len_app, !len_cons, !len_app, !len_cons, !len_app, !len_padded; lia).
  pose proof (len_nonneg (render_fraction options ns)) as Hl0.
  assert (exists c rest, text = c :: rest /\ 48 <= c <= 57) as (c & rest & Ht & Hc)
    by (unfold text; rewrite padded_2 by lia; eexists _, _; split; [done|euclid]).
  unfold tryParseTimeString.
  replace (skipSpaces text 0) with (Ok 0)
    by (symmetry; rewrite Ht; apply (skipSpaces_stay []), not_space; lia).
  replace (len text =? 0) with false by lia. cbn [rbind].
  replace (0 >=? len text) with false by lia.
  replace (at_index text 0) with (Ok c) by (rewrite Ht; symmetry; apply (at_index_app [])).
  cbn [rbind]. rewrite (digit_true c) by done. cbn [negb].
  rewrite (parse_field_padded [] hour _ 24 ltac:(lia) ltac:(lia) : parse_field text 0 24 = _).
  cbn [rbind]. rewrite len_nil, Z.add_0_l.
  replace (2 =? len text) with false by lia. rewrite andb_false_r.
  replace (2 >=? len text) with false by lia.
  replace 2 with (len (padded 2 hour)) by apply len_padded.
  rewrite (at_index_app _ _ _ : at_index text _ = _). cbn [rbind Z.eqb Pos.eqb negb].
  rewrite (len_snoc _ 58), (cons_app _ _ _ : text = _) at 1.
  rewrite parse_field_padded by lia. cbn [rbind].
  replace (len (padded 2 hour ++ [58]) + 2) with (len ((padded 2 hour ++ [58]) ++ padded 2 min))
    by (rewrite (len_app (_ ++ [58])), len_padded; lia).
  set (head := (padded 2 hour ++ [58]) ++ padded 2 min).
  assert (text = head ++ 58 :: padded 2 sec ++ render_fraction options ns) as Hth
    by (unfold head, text; rewrite <- !app_assoc; done).
  assert (len head = 5) as Hhead by (unfold head; rewrite !len_app, !len_padded; done).
  replace (len head =? len text) with false by lia. rewrite andb_false_r.
  replace (len head >=? len text) with false by lia.
  rewrite Hth. by apply parse_seconds_text.
Qed.

(** ** The date *)

(** What follows the date in the text of a timestamp. *)
Definition separated (rest : list Z) : Prop :=
  exists sep h rest', rest = sep :: h :: rest' /\ (sep = 32 \/ sep = 84) /\ 48 <= h <= 57.

Lemma at_index_some buf i : 0 <= i < len buf -> exists c, at_index buf i = Ok c.
Proof.
  unfold at_index, len. intros Hi. replace (i <? 0) with false by lia.
  destruct (lookup_lt_is_Some_2 buf (Z.to_nat i)) as [c ->]; [lia|]. by exists c.
Qed.

Lemma date_suffix_none pre rest year yearneg mode :
  separated rest -> has_mode mode kStrict = false ->
  date_suffix (pre ++ rest) (len pre) year yearneg mode = Ok (inr (len pre, year)).
Proof.
  intros (sep & h & rest' & -> & Hsep & Hh) Hm. unfold date_suffix.
  set (buf := pre ++ sep :: h :: rest'). set (bc := if _ >=? 5 then _ else _).
  assert (at_index buf (len pre) = Ok sep) as H0 by apply at_index_app.
  assert (bc = Ok false) as ->.
  { unfold bc. destruct (len buf - len pre >=? 5) eqn:E; [|done].
    assert (at_index buf (len pre + 1) = Ok h) as H1
      by (unfold buf; rewrite (cons_app pre sep), (len_snoc pre sep); apply at_index_app).
    pose proof (len_nonneg pre). apply Z.geb_le in E.
    destruct (at_index_some buf (len pre + 2)) as [c2 H2]; [lia|].
    destruct (at_index_some buf (len pre + 3)) as [c3 H3]; [lia|].
    destruct (at_index_some buf (len pre + 4)) as [c4 H4]; [lia|].
    rewrite H0, H1, H2, H3, H4. cbn [rbind]. replace (h =? 40) with false by lia.
    by rewrite andb_false_r. }
  cbn [rbind andb]. rewrite Hm.
  replace (len pre <? len buf) with true
    by (unfold buf; rewrite len_app, !len_cons; pose proof (len_nonneg rest'); zbool).
  rewrite H0. cbn [rbind].
  by replace (characterIsDigit sep) with false
    by (unfold characterIsDigit; destruct Hsep as [-> | ->]; done).
Qed.

(** The mode [fromTimestampString] passes. *)
Abbreviation timestamp_mode spark :=
  (if spark : bool then Z.lor kNonStrict kNonStandardCast else kNonStrict).

Lemma date_end_text spark pre year yearneg month day rest N :
  separated rest -> days_and_validity year month day = Ok (N, true) ->
  (spark = true -> validDate N = true) ->
  date_end spark (pre ++ rest) (len pre) year yearneg month day (timestamp_mode spark) false
  = Ok (kSuccess, len pre, N).
Proof.
  intros Hrest Hdays Hv. unfold date_end.
  destruct spark; (destruct (has_mode _ kStandardCast) eqn:E1; [done|]);
    (destruct (has_mode _ kNonStandardCast) eqn:E2; try done).

  - rewrite Hdays. cbn [rbind]. rewrite Hv by done.
    destruct Hrest as (sep & h & rest' & -> & Hsep & _).
    pose proof (len_nonneg rest'). replace (len pre =? _) with false
      by (rewrite len_app, !len_cons; lia). cbn [negb orb].
    rewrite at_index_app. cbn [rbind]. by destruct Hsep as [-> | ->].
  - cbn [negb andb]. rewrite date_suffix_none by done.
    cbn [rbind]. by rewrite Hdays.
Qed.

Lemma parse_month_day_text spark pre year yearneg month day rest N :
  separated rest -> kMinYear <= year <= kMaxYear -> date_of_day N year month day ->
  (spark = true -> validDate N = true) ->
  parse_month_day spark (pre ++ 45 :: padded 2 month ++ 45 :: padded 2 day ++ rest)
    (len pre) year yearneg (timestamp_mode spark) false
  = Ok (kSuccess, len pre + 6, N).
Proof.
  intros Hrest Hy HN Hv.
  assert (days_and_validity year month day = Ok (N, true)) as Hdays
    by (unfold days_and_validity; by rewrite (tryDays_spec N)).
  assert (1 <= month <= 12 /\ 1 <= day <= 31) as [Hmo Hda].
  { destruct HN as (Hmo & before & l & Hb & Hl & Hd & _). split; [done|].
    destruct (month_tables (isLeap year) month Hmo) as (? & ? & ? & ? & ? & _).
    simplify_eq. lia. }
  pose proof (len_nonneg rest) as Hlr. unfold parse_month_day.
  rewrite at_index_app. cbn [rbind].
  replace (if has_mode _ _ || _ then _ else _) with false by (by destruct spark).
  rewrite (cons_app pre 45), (len_snoc pre 45), parseDoubleDigit_padded by lia. cbn [rbind].
  replace (len (pre ++ [45]) + 2) with (len ((pre ++ [45]) ++ padded 2 month))
    by (rewrite (len_app (pre ++ [45])), len_padded; lia).
  rewrite (app_assoc (pre ++ [45])). set (p2 := (pre ++ [45]) ++ padded 2 month).
  assert (len p2 = len pre + 3) as Hp2
    by (unfold p2; rewrite !len_app, len_padded, len_cons, len_nil; lia).
  set (buf := p2 ++ 45 :: padded 2 day ++ rest).
  assert (len buf = len p2 + 3 + len rest) as Hlen
    by (unfold buf; rewrite len_app, len_cons, len_app, len_padded; lia).
  replace (len p2 =? len buf) with false by lia. rewrite andb_false_r.
  replace (len p2 >=? len buf) with false by lia.
  rewrite (at_index_app _ _ _ : at_index buf _ = _). cbn [rbind Z.eqb Pos.eqb negb].
  replace (len p2 + 1 >=? len buf) with false by lia.
  unfold buf at 1. rewrite (cons_app p2 45), (len_snoc p2 45).
  rewrite parseDoubleDigit_padded by lia. cbn [rbind].
  replace (len (p2 ++ [45]) + 2) with (len ((p2 ++ [45]) ++ padded 2 day))
    by (rewrite (len_app (p2 ++ [45])), len_padded; lia).
  replace buf with (((p2 ++ [45]) ++ padded 2 day) ++ rest)
    by (unfold buf; rewrite <- !app_assoc; done).
  set (p3 := (p2 ++ [45]) ++ padded 2 day).
  replace (len pre + 6) with (len p3)
    by (unfold p3; rewrite !len_app, len_padded, len_cons, len_nil; lia).
  by apply date_end_text.
Qed.

(** The sign and the digits of the year. *)
Lemma render_year_split options y :
  kMinYear <= y <= kMaxYear ->
  exists sign ds, render_year options y = sign ++ ds /\ all_digits ds /\ ds <> []
    /\ digits_value 0 ds = Z.abs y
    /\ (zeroPaddingYear options = true -> 4 <= len ds)
    /\ (y < 0 /\ sign = [45] \/ 0 <= y /\ (sign = [43] \/ sign = [])).
Proof.
  intros Hy. unfold render_year. eexists _, _. split; [done|].
  destruct (zeroPaddingYear options && (Z.abs y <? 1000)) eqn:E.
  - apply andb_prop in E as [_ E%Z.ltb_lt].
    split; [apply padded_all_digits|].
    split; [by intros H%(f_equal length); rewrite padded_length in H|].
    split; [apply digits_value_padded; simpl; lia|]. split; [by rewrite len_padded|].
    destruct (y <? 0) eqn:E'; [left; split; [lia|done]|right].
    split; [lia|]. case_match; eauto.
  - split; [apply decimal_all_digits; lia|].
    split; [apply decimal_nonempty; lia|].
    split; [apply digits_value_decimal; lia|]. split.
    + intros Hz. rewrite Hz in E. simpl in E. unfold len.
      pose proof (decimal_long 3 (Z.abs y) ltac:(simpl; lia) ltac:(lia)). lia.
    + destruct (y <? 0) eqn:E'; [left; split; [lia|done]|right].
      split; [lia|]. case_match; eauto.
Qed.

(** From the first digit of the year on. *)
Lemma parse_from_year spark sign ds yearneg y month day rest N :
  let body := 45 :: padded 2 month ++ 45 :: padded 2 day ++ rest in
  let buf := sign ++ ds ++ body in
  all_digits ds -> digits_value 0 ds = Z.abs y -> yearneg = (y <? 0) ->
  (spark = true -> 4 <= len ds) -> separated rest ->
  kMinYear <= y <= kMaxYear -> date_of_day N y month day ->
  (spark = true -> validDate N = true) ->
  (let! loop := parse_year (length buf) buf (len sign) 0 0 in
   let '(pos, year, yearDigitNum) := loop in
   if has_mode (timestamp_mode spark) kNonStandardCast && (yearDigitNum <? 4) then
     Ok (kYearTooShort, pos, 0)
   else
     let! year := if yearneg then checked32 (- year) else Ok year in
     if yearneg && (year <? kMinYear) then Ok (kInvalidYear, pos, 0)
     else if has_mode (timestamp_mode spark) kNonStandardCast && (pos =? len buf) then
       cast_date pos year 1 1
     else if pos >=? len buf then Ok (kUnexpectedEnd, pos, 0)
     else parse_month_day spark buf pos year yearneg (timestamp_mode spark) false)
  = Ok (kSuccess, len sign + len ds + 6, N).
Proof.
  intros body buf Hds Hv -> H4 Hrest Hy HN Hvalid.
  assert (len buf = len sign + len ds + len body) as Hlen
    by (unfold buf; rewrite !len_app; lia).
  assert (0 < len body) as Hb
    by (unfold body; rewrite len_cons; pose proof (len_nonneg (padded 2 month ++ 45 :: padded 2 day ++ rest)); lia).
  assert (parse_year (length buf) buf (len sign) 0 0
          = Ok (len sign + len ds, Z.abs y, 0 + len ds)) as ->.
  { unfold buf. rewrite parse_year_digits; [by rewrite Hv|done|done|lia|rewrite Hv; lia|].
    rewrite !length_app. lia. }
  cbn [rbind].
  replace (has_mode _ _ && (0 + len ds <? 4)) with false
    by (destruct spark; [specialize (H4 eq_refl); rewrite (proj2 (Z.ltb_ge _ _)) by lia|];
        by rewrite ?andb_false_r).
  replace (if y <? 0 then _ else _) with (Ok y).
  2: { destruct (y <? 0) eqn:E; [|f_equal; lia]. unfold checked32, in_int32.
       replace (_ && _) with true by zbool. f_equal. lia. }
  cbn [rbind]. replace ((y <? 0) && (y <? kMinYear)) with false by zbool.
  replace (len sign + len ds =? len buf) with false by lia. rewrite andb_false_r.
  replace (len sign + len ds >=? len buf) with false by lia.
  rewrite <- len_app. unfold buf. rewrite app_assoc. by apply parse_month_day_text.
Qed.

Lemma parse_date_text spark options y month day rest N :
  separated rest -> kMinYear <= y <= kMaxYear -> date_of_day N y month day ->
  (spark = true -> zeroPaddingYear options = true /\ validDate N = true) ->
  tryParseDateString spark
    (render_year options y ++ 45 :: padded 2 month ++ 45 :: padded 2 day ++ rest)
    (timestamp_mode spark) false
  = Ok (kSuccess, len (render_year options y) + 6, N).
Proof.
  intros Hrest Hy HN Hspark.
  destruct (render_year_split options y Hy) as (sign & ds & -> & Hds & Hne & Hv & H4 & Hsign).
  set (body := 45 :: padded 2 month ++ 45 :: padded 2 day ++ rest).
  rewrite <- app_assoc, len_app. set (buf := sign ++ ds ++ body).
  destruct ds as [|c ds']; [done|]. pose proof (Forall_inv Hds) as Hc. simpl in Hc.
  assert (1 <= len buf - len sign) as Hlen
    by (unfold buf; rewrite !len_app, len_cons; pose proof (len_nonneg ds');
        pose proof (len_nonneg body); lia).
  assert (at_index buf (len sign) = Ok c) as Hat
    by (unfold buf; rewrite <- app_comm_cons; apply at_index_app).
  assert (skipSpaces buf 0 = Ok 0) as Hskip.
  { apply (skipSpaces_stay []). destruct Hsign as [[_ ->]|[_ [->| ->]]]; try done.
    apply not_space. lia. }
  pose proof (len_nonneg sign) as Hs0.
  unfold tryParseDateString. replace (len buf =? 0) with false by lia.
  rewrite Hskip. cbn [rbind]. replace (0 >=? len buf) with false by lia.
  pose proof (parse_from_year spark sign (c :: ds') (y <? 0) y month day rest N Hds Hv
    eq_refl ltac:(intros Hs; apply H4, Hspark, Hs) Hrest Hy HN
    ltac:(intros Hs; by apply Hspark)) as Hyear. cbv zeta in Hyear.
  fold body in Hyear. fold buf in Hyear.
  destruct Hsign as [[Hneg ->]|[Hpos [->| ->]]]; change (len [_]) with 1 in *;
    change (len []) with 0 in *.
  - rewrite (at_index_app [] _ 45 : at_index buf 0 = Ok 45). cbn [rbind Z.eqb Pos.eqb orb andb].
    rewrite Z.add_0_l. replace (1 >=? len buf) with false by lia.
    rewrite Hat. cbn [rbind]. rewrite digit_true by done. cbn [negb].
    replace (y <? 0) with true in Hyear by lia. exact Hyear.
  - rewrite (at_index_app [] _ 43 : at_index buf 0 = Ok 43). cbn [rbind Z.eqb Pos.eqb orb andb].
    rewrite Z.add_0_l. replace (1 >=? len buf) with false by lia.
    rewrite Hat. cbn [rbind]. rewrite digit_true by done. cbn [negb].
    replace (y <? 0) with false in Hyear by lia. exact Hyear.
  - rewrite Hat. cbn [rbind]. replace (c =? 45) with false by lia.
    replace (c =? 43) with false by lia. cbn [orb andb].
    rewrite Hat. cbn [rbind]. rewrite digit_true by done. cbn [negb].
    replace (y <? 0) with false in Hyear by lia. exact Hyear.
Qed.

(** ** The timestamp *)

Lemma fromDatetime_parts (nanos : bool) options N hour min sec ns :
  0 <= hour < 24 -> 0 <= min < 60 -> 0 <= sec < 60 -> 0 <= ns <= kMaxNanos ->
  precisionWidth options <= (if nanos then 9 else 6) ->
  let w := if nanos then 9 else 6 in
  let f := scale_nanos options ns * 10 ^ (w - precisionWidth options) in
  let ts := mkTimestamp (N * kSecondsInDay + 3600 * hour + 60 * min + sec) ns in
  toPrecision ts (precisionWidth options)
  = Ok (fromDatetimeImpl nanos N
          (if nanos then fromTime hour min sec 0 * 1000 + f else fromTime hour min sec f)).
Proof.
  intros Hh Hm Hs Hn. unfold precisionWidth, scale_nanos, toPrecision, fromDatetimeImpl, fromTime.
  destruct (precision options), nanos; intros Hp; try lia; simpl;
    repeat match goal with
      | |- context [10 ^ ?e] => let v := eval vm_compute in (10 ^ e) in change (10 ^ e) with v
      | |- context [ns / ?d * ?d] => let v := eval vm_compute in d in progress change d with v
      end;
    do 2 f_equal; euclid.
Qed.

Lemma text_fields options ts t :
  mode options = kFull ->
  render t (nanos_ ts) options
  = render_year options (kTmYearBase + tm_year t) ++ 45 :: padded 2 (1 + tm_mon t)
    ++ 45 :: padded 2 (tm_mday t) ++ dateTimeSeparator options
    :: padded 2 (tm_hour t) ++ 58 :: padded 2 (tm_min t) ++ 58 :: padded 2 (tm_sec t)
    ++ render_fraction options (nanos_ ts).
Proof.
  intros Hm. unfold render, render_date, render_time. rewrite Hm.
  by rewrite <- ?app_assoc, <- ?app_comm_cons, <- ?app_assoc.
Qed.

(** The date of the fields of a second is a date of the supported years. *)
Lemma fields_date t epoch :
  valid_tm t -> calendarUtcToEpoch t = Ok epoch -> kMinSeconds <= epoch <= kMaxSeconds ->
  -1000000000 <= tm_year t + 1900 ->
  let N := epoch / kSecondsInDay in
  let y := kTmYearBase + tm_year t in
  date_of_day N y (1 + tm_mon t) (tm_mday t) /\ kMinYear <= y <= kMaxYear
  /\ epoch = N * kSecondsInDay + 3600 * tm_hour t + 60 * tm_min t + tm_sec t.
Proof.
  intros (Hs & Hm & Hh & Hmon & (l & Hl & Hd) & _) He Hr Hy N y.
  destruct (calendarUtcToEpoch_spec t Hmon) as (before & Hb & He').
  rewrite He in He'. injection He' as He'.
  replace (tm_year t + 1900) with y in * by (unfold y; lia). clearbody y.
  assert (N = year_start y + (before + tm_mday t - 1)) as HN.
  { unfold N, kSecondsInDay. symmetry. apply (Z.div_unique _ _ _ (3600 * tm_hour t + 60 * tm_min t + tm_sec t)); lia. }
  assert (date_of_day N y (1 + tm_mon t) (tm_mday t)) as Hdate.
  { split; [lia|]. exists before, l. replace (1 + tm_mon t - 1) with (tm_mon t) by lia.
    split_and!; [done|done|lia|lia|lia]. }
  split; [done|]. split.
  - eapply year_supported; [unfold first_year; lia|exact Hdate|].
    split.
    + unfold N. assert (year_start kMinYear <= kMinSeconds / kSecondsInDay) as H0 by (by vm_compute).
      etrans; [exact H0|]. apply Z.div_le_mono; [by vm_compute|lia].
    + unfold N. assert (kMaxSeconds / kSecondsInDay < year_start (kMaxYear + 1)) as H0 by (by vm_compute).
      eapply Z.le_lt_trans; [|exact H0]. apply Z.div_le_mono; [by vm_compute|lia].
  - rewrite HN. unfold kSecondsInDay. lia.
Qed.

Lemma parse_timestamp_text spark nanos options t N ns nullOutput :
  let ts := mkTimestamp (N * kSecondsInDay + 3600 * tm_hour t + 60 * tm_min t + tm_sec t) ns in
  let y := kTmYearBase + tm_year t in
  valid_tm t -> 0 <= ns <= kMaxNanos -> kMinYear <= y <= kMaxYear ->
  date_of_day N y (1 + tm_mon t) (tm_mday t) ->
  mode options = kFull -> dateTimeSeparator options = 32 \/ dateTimeSeparator options = 84 ->
  precisionWidth options <= (if nanos : bool then 9 else 6) ->
  (spark = true -> zeroPaddingYear options = true /\ validDate N = true) ->
  exists ts', toPrecision ts (precisionWidth options) = Ok ts'
    /\ fromTimestampStringImpl spark nanos (render t ns options) nullOutput = Ok (Some ts').
Proof.
  intros ts y (Hs & Hm & Hh & _) Hn Hy HN Hmode Hsep Hp Hspark.
  unfold ts. rewrite (fromDatetime_parts nanos) by done. eexists. split; [done|].
  rewrite (text_fields options ts t Hmode : render t ns options = _). fold y. simpl nanos_.
  set (time := padded 2 (tm_hour t) ++ 58 :: padded 2 (tm_min t) ++ 58 :: padded 2 (tm_sec t)
    ++ render_fraction options ns).
  assert (separated (dateTimeSeparator options :: time)) as Hrest.
  { unfold time. rewrite (padded_2 (tm_hour t)) by lia.
    eexists _, _, _. split; [done|]. split; [done|euclid]. }
  unfold fromTimestampStringImpl.
  rewrite (parse_date_text spark options y _ _ _ N Hrest Hy HN Hspark). cbn [rbind].
  set (pre := render_year options y ++ 45 :: padded 2 (1 + tm_mon t) ++ 45 :: padded 2 (tm_mday t)).
  replace (len (render_year options y) + 6) with (len pre)
    by (unfold pre; rewrite len_app, len_cons, len_app, len_cons, !len_padded; lia).
  replace (render_year options y ++ _) with (pre ++ dateTimeSeparator options :: time)
    by (unfold pre; by rewrite <- app_assoc, <- app_comm_cons, <- app_assoc).
  set (text := pre ++ _). assert (len text = len pre + 1 + len time) as Hlen
    by (unfold text; rewrite len_app, len_cons; lia).
  pose proof (len_nonneg time) as Ht0. replace (len pre =? len text) with false by lia.
  rewrite (at_index_app _ _ _ : at_index text _ = _). cbn [rbind].
  replace (_ || _) with true by zbool.
  replace (drop _ text) with time.
  2: { unfold text. rewrite cons_app, (len_snoc pre (dateTimeSeparator options)). unfold len.
       by rewrite Nat2Z.id, drop_app_length. }
  unfold time at 1. rewrite parse_time_text; [|lia|lia|lia|lia|by destruct spark|done].
  cbn [rbind]. fold time. unfold parse_zone_suffix.
  by replace (len pre + 1 + len time <? len text) with false by lia.
Qed.

(** ** Spark dates *)

Lemma spark_digits ds rest segments i j current :
  all_digits ds -> 0 <= i < 3 -> 0 <= current -> digits_value current ds <= INT32_MAX ->
  spark_segments (ds ++ rest) segments i j current
  = spark_segments rest segments i (j + len ds) (digits_value current ds).
Proof.
  intros Hds. revert j current. induction Hds as [|c ds Hc Hds IH]; intros j current Hi Hcur Hv.
  - simpl. by rewrite len_nil, Z.add_0_r.
  - pose proof (digits_value_ge (current * 10 + (c - 48)) ds Hds ltac:(lia)) as Hge.
    change (digits_value current (c :: ds)) with (digits_value (current * 10 + (c - 48)) ds) in *.
    cbn [app spark_segments].
    replace ((i <? 3) && negb ((c =? 32) || (c =? 84))) with true by zbool.
    replace ((i <? 2) && (c =? 45)) with false by zbool.
    replace ((c - 48 <? 0) || (c - 48 >? 9)) with false by zbool.
    rewrite !ck32_in by lia. cbn [rbind]. rewrite ck32_in by lia. cbn [rbind].
    rewrite IH by lia. rewrite len_cons. by replace (j + 1 + len ds) with (j + (1 + len ds)) by lia.
Qed.

(** The date ends, or a blank or a "T" follows. *)
Definition spark_end (rest : list Z) : Prop :=
  match rest with [] => True | c :: _ => c = 32 \/ c = 84 end.

Lemma spark_text y m d rest :
  0 <= y <= 9999 -> 0 <= m <= 99 -> 0 <= d <= 99 -> spark_end rest ->
  spark_segments (padded 4 y ++ 45 :: padded 2 m ++ 45 :: padded 2 d ++ rest) [1; 1; 1] 0 0 0
  = Ok (Some ([y; m; 1], 2, 10, d)).
Proof.
  intros Hy Hm Hd Hrest.
  assert (forall k n, 0 <= n < 10 ^ Z.of_nat k -> n <= INT32_MAX ->
    digits_value 0 (padded k n) <= INT32_MAX) as Hv
    by (intros; by rewrite digits_value_padded).
  rewrite spark_digits; [|apply padded_all_digits|lia|lia|apply Hv; simpl; lia].
  rewrite digits_value_padded by (simpl; lia). cbn [spark_segments].
  rewrite len_padded. cbn [Z.eqb Pos.eqb Z.ltb Z.compare andb orb negb Z.of_nat Z.add].
  simpl (_ && _).
  rewrite spark_digits; [|apply padded_all_digits|lia|lia|apply Hv; simpl; lia].
  rewrite digits_value_padded by (simpl; lia). cbn [spark_segments].
  simpl (_ && _).
  rewrite spark_digits; [|apply padded_all_digits|lia|lia|apply Hv; simpl; lia].
  rewrite digits_value_padded by (simpl; lia). simpl.
  destruct rest as [|c rest]; simpl; [done|].
  by destruct Hrest as [-> | ->].
Qed.

(** The conditions of [isInvalidDate] are the month lengths. *)
Lemma month_condition (leap : bool) m d l :
  1 <= m <= 12 -> d <= 31 -> monthLengths leap !! Z.to_nat (m - 1) = Some l ->
  (if m =? 2 then
     if leap && (d >? 29) then Ok true
     else if negb leap && (d >? 28) then Ok true
     else Ok false
   else
     let! of31 := at_index MONTH_OF_31_DAYS m in
     Ok (negb of31 && (d >? 30)))
  = Ok (d >? l).
Proof.
  intros Hm Hd Hl.
  assert (m = 1 \/ m = 2 \/ m = 3 \/ m = 4 \/ m = 5 \/ m = 6 \/ m = 7 \/ m = 8 \/ m = 9
          \/ m = 10 \/ m = 11 \/ m = 12) as Hcase by lia.
  destruct leap; repeat (destruct Hcase as [->|Hcase]); subst;
    vm_compute in Hl; injection Hl as <-; cbn -[Z.gtb];
    try (by destruct (d >? _)); (transitivity (Ok false); [done|f_equal; lia]).
Qed.

Lemma isInvalidDate_spec y m d :
  isInvalidDate y m d = Ok false <-> 0 <= y <= 9999 /\ isValidDate y m d = Ok true.
Proof.
  rewrite isValidDate_spec. unfold isInvalidDate. rewrite isLeapYear_isLeap.
  destruct (_ || _) eqn:E.
  { split; [done|]. intros (Hy & _ & N & Hm & before & l & _ & Hl & Hd & _).
    destruct (month_tables (isLeap y) m Hm) as (? & ? & _ & Hl' & ? & _). simplify_eq. zbool. }
  assert (0 <= y <= 9999 /\ 1 <= m <= 12 /\ 1 <= d <= 31) as (Hy & Hm & Hd) by zbool. clear E.
  destruct (month_tables (isLeap y) m Hm) as (before & l & Hb & Hl & Hlen & _).
  rewrite (month_condition _ _ _ l) by (done || lia). split.
  - intros [= Hdl]. split; [done|]. split; [lia|]. eexists. split; [done|].
    exists before, l. split_and!; try done; lia.
  - intros (_ & _ & N & _ & ? & ? & _ & ? & ? & _). simplify_eq. f_equal. lia.
Qed.

Lemma date_day_bounds N y m d : date_of_day N y m d -> 1 <= m <= 12 /\ 1 <= d <= 31.
Proof.
  intros (Hm & before & l & _ & Hl & Hd & _). split; [done|].
  destruct (month_tables (isLeap y) m Hm) as (? & ? & _ & ? & ? & _). simplify_eq. lia.
Qed.

(** The days of a date of the years 0 to 9999 fit 32 bits. *)
Lemma spark_days N y m d :
  0 <= y <= 9999 -> date_of_day N y m d ->
  daysSinceEpochFromDate y m d = Ok N /\ INT32_MIN <= N <= INT32_MAX.
Proof.
  intros Hy HN. unfold daysSinceEpochFromDate. rewrite (tryDays_spec N) by (done || lia).
  split; [done|]. destruct (date_limits N y m d ltac:(lia) HN) as [Hb _].
  pose proof (year_start_mono 0 y ltac:(unfold first_year; lia) ltac:(lia)) as H1.
  pose proof (year_start_mono 0 (y + 1) ltac:(unfold first_year; lia) ltac:(lia)) as H2.
  rewrite !Z.add_0_l in H1, H2. assert (year_start 0 = -719528) as H0 by done. euclid.
Qed.

(** * Properties *)

(** C19. On every string the parsers of dates, times and timestamps end within
    the string: they read no character outside it and return a value, or null
    or a user error as the caller asked, or report that the digits of the year
    overflow. *)
Theorem parsers_complete spark getTimeZoneID str :
  (forall nullOutput sparkCompatible,
     completes (thrown nullOutput) (fun _ => True)
       (fromDateString spark str nullOutput sparkCompatible))
  /\ (forall isIso8601,
        completes [ArithmeticError] (fun _ => True) (castFromDateString spark str isIso8601))
  /\ (forall nullOutput,
        completes (if nullOutput : bool then [] else [UserFail]) (fun _ => True)
          (fromTimeString spark str nullOutput))
  /\ (forall nullOutput,
        completes (thrown nullOutput) (fun _ => True) (fromTimestampString spark str nullOutput)
        /\ completes (thrown nullOutput) (fun _ => True)
             (fromTimestampStringNanos spark str nullOutput))
  /\ completes [ArithmeticError] (fun _ => True)
       (fromTimestampWithTimezoneString spark getTimeZoneID str)
  /\ completes [ArithmeticError] (fun _ => True)
       (fromTimestampWithTimezoneStringNanos spark getTimeZoneID str).
Proof.
  split_and!.
  - intros. unfold fromDateString. eapply completes_bind.
    { eapply completes_weaken; [apply tryParseDateString_completes|apply thrown_arith|by intros ? H; exact H]. }
    intros [[[] ?] ?] _; (done || apply fail_completes).
  - intros. unfold castFromDateString. eapply completes_bind; [apply tryParseDateString_completes|].
    by intros [[[] ?] ?] _.
  - intros. unfold fromTimeString. split_if; [by destruct nullOutput; set_solver|].
    apply completes_at; [unfold len in *; lia|]. intros c. cbv zeta.
    eapply completes_bind; [apply tryParseTimeString_completes|].
    intros [[? ?]|] _; simpl; [done|]. destruct nullOutput; set_solver.
  - intros. split; apply fromTimestampStringImpl_completes.
  - apply fromTimestampWithTimezone_completes.
  - apply fromTimestampWithTimezone_completes.
Qed.

(** C12. Printing a timestamp with date and time (mode [kFull]), separated by a
    blank or a T, and parsing the text gives the timestamp back, at the
    precision it was printed with.  The parser in microseconds needs a
    text without nanoseconds.  The Spark mode needs a year of four digits and
    days that fit 32 bits. *)
Theorem Timestamp_print_parse spark nanos ts options start nullOutput :
  Timestamp_wf ts -> mode options = kFull ->
  dateTimeSeparator options = 32 \/ dateTimeSeparator options = 84 ->
  precisionWidth options <= (if nanos : bool then 9 else 6) ->
  (spark = true -> zeroPaddingYear options = true
                   /\ validDate (seconds_ ts / kSecondsInDay) = true) ->
  getMaxStringLength options <= Z.of_nat (length start) ->
  exists buf n ts',
    tsToStringView ts options start = Ok (buf, n)
    /\ toPrecision ts (precisionWidth options) = Ok ts'
    /\ fromTimestampStringImpl spark nanos (take (Z.to_nat n) buf) nullOutput = Ok (Some ts').
Proof.
  intros [Hs Hn] Hmode Hsep Hp Hspark Hl.
  destruct (epoch_fields _ Hs) as (t & Hc & _ & Hv & Hy & _ & He).
  destruct (fields_date t _ Hv He Hs ltac:(lia)) as (Hd & Hyear & Hsec). cbv zeta in *.
  destruct (parse_timestamp_text spark nanos options t (seconds_ ts / kSecondsInDay) (nanos_ ts)
    nullOutput Hv Hn Hyear Hd Hmode Hsep Hp Hspark) as (ts' & Hts & Hparse). cbv zeta in Hts.
  rewrite <- Hsec in Hts.
  destruct (tmToStringView_render t (nanos_ ts) options start ltac:(split; [done|lia]) Hn Hl)
    as (m & Hm & rest & -> & _).
  eexists _, _, ts'. unfold tsToStringView. rewrite Hc. cbn [rbind]. split; [exact Hm|].
  split; [by destruct ts|]. by rewrite Nat2Z.id, take_app_length.
Qed.

Lemma Timestamp_print_parse_witness :
  let ts := mkTimestamp 1700000000 123456789 in
  exists buf n ts',
    tsToStringView ts sample_options (repeat 0 40) = Ok (buf, n)
    /\ toPrecision ts (precisionWidth sample_options) = Ok ts'
    /\ fromTimestampStringImpl false true (take (Z.to_nat n) buf) true = Ok (Some ts').
Proof.
  apply Timestamp_print_parse;
    [vm_compute; split; split; discriminate|done|vm_compute; by right|vm_compute; discriminate
    |discriminate|vm_compute; discriminate].
Defined.

(** The Spark parser of dates reads the text of a date of the years 0 to
    9999, alone or followed by a blank or a "T", and every date it returns is
    a valid one of these years. *)
Theorem sparkStringToDate_dates bytes :
  (forall y m d rest,
     0 <= y <= 9999 -> isValidDate y m d = Ok true -> spark_end rest ->
     bytes = padded 4 y ++ 45 :: padded 2 m ++ 45 :: padded 2 d ++ rest ->
     exists N, sparkStringToDate bytes = Ok (Some N) /\ daysSinceEpochFromDate y m d = Ok N)
  /\ (forall N, sparkStringToDate bytes = Ok (Some N) ->
        exists y m d, 0 <= y <= 9999 /\ isValidDate y m d = Ok true
          /\ daysSinceEpochFromDate y m d = Ok N).
Proof.
  split.
  - intros y m d rest Hy Hv Hrest ->.
    pose proof (proj1 (isValidDate_spec _ _ _) Hv) as (_ & N & HN).
    destruct (date_day_bounds N y m d HN) as [Hm Hd].
    unfold sparkStringToDate. rewrite spark_text by (done || lia). cbn [rbind].
    change (<[_ := d]> [y; m; 1]) with [y; m; d].
    change (at_index _ 0) with (Ok y). change (at_index _ 1) with (Ok m).
    change (at_index _ 2) with (Ok d). cbn [rbind Z.eqb andb].
    rewrite (proj2 (isInvalidDate_spec y m d)) by done. cbn [rbind].
    destruct (spark_days N y m d Hy HN) as [-> HN32]. cbn [rbind].
    exists N. by rewrite wrap_signed_id by (simpl; lia).
  - intros N. unfold sparkStringToDate.
    destruct (spark_segments bytes [1; 1; 1] 0 0 0) as [[[[[segments i] j] current]|]|];
      cbn [rbind]; try done. case_match; [done|].
    destruct (at_index _ 0) as [y|]; [|done]. cbn [rbind].
    destruct (at_index _ 1) as [m|]; [|done]. cbn [rbind].
    destruct (at_index _ 2) as [d|]; [|done]. cbn [rbind].
    destruct (isInvalidDate y m d) as [[]|] eqn:Hi; cbn [rbind]; try done.
    apply isInvalidDate_spec in Hi as [Hy Hv].
    pose proof (proj1 (isValidDate_spec _ _ _) Hv) as (_ & N' & HN).
    destruct (spark_days N' y m d Hy HN) as [Hdays HN32]. rewrite Hdays. cbn [rbind].
    rewrite wrap_signed_id by (simpl; lia). intros [= <-]. by exists y, m, d.
Qed.

Lemma sparkStringToDate_dates_witness :
  let bytes := [50; 48; 50; 52; 45; 48; 50; 45; 50; 57; 84; 49] in
  (exists N, sparkStringToDate bytes = Ok (Some N) /\ daysSinceEpochFromDate 2024 2 29 = Ok N)
  /\ (forall N, sparkStringToDate bytes = Ok (Some N) ->
        exists y m d, 0 <= y <= 9999 /\ isValidDate y m d = Ok true
          /\ daysSinceEpochFromDate y m d = Ok N).
Proof.
  intros bytes. destruct (sparkStringToDate_dates bytes) as [H1 H2]. split; [|exact H2].
  apply (H1 2024 2 29 [84; 49]); [lia|done|by right|done].
Defined.

(** ** Where the parsers do not do what they mean to *)

(** A year whose digits overflow 32 bits is thrown, although null was asked
    for: the text is "2922789945-01-01". *)
Lemma long_year_throws :
  let str := [50; 57; 50; 50; 55; 56; 57; 57; 52; 53; 45; 48; 49; 45; 48; 49] in
  fromDateString false str true false = Err ArithmeticError.
Proof. reflexivity. Qed.

(** The Spark parser accumulates the digits of a segment in an [int] and checks
    their number only at the end of the segment: the text is "9999999999". *)
Lemma spark_segment_overflow :
  sparkStringToDate (repeat 57 10) = Err SignedOverflow.
Proof. reflexivity. Qed.
