(* ===== verification/BitUtil.v ===== *)
(** Bit operations of bolt/common/base/BitUtil.h and BitUtil.cpp: the memory
    they work on, single words and bits, and loops over the words of a range.
    BitWords.v, BitSearch.v and BitCopy.v hold the theorems. *)

From S2P Require Import Prelude.

(** * Memory *)

(** Memory behind a pointer to bits: its length in bytes, and its contents as
    the integer whose binary digits are the bits, the first byte lowest.  A
    load of [n] bytes at a byte address is the bit field there, as on the
    little-endian machines the code is written for. *)
Record buffer : Type := mkBuffer {
  buf_bytes : Z;
  buf_value : Z
}.

Definition bit (b : buffer) (i : Z) : bool := Z.testbit (buf_value b) i.

Definition in_buffer (b : buffer) (a n : Z) : bool :=
  (0 <=? a) && (a + n <=? buf_bytes b).

Definition load (n : Z) (b : buffer) (a : Z) : result Z :=
  if in_buffer b a n
  then Ok (Z.land (Z.shiftr (buf_value b) (8 * a)) (Z.ones (8 * n)))
  else Err BadAccess.

Definition store (n : Z) (b : buffer) (a v : Z) : result buffer :=
  if in_buffer b a n
  then Ok (mkBuffer (buf_bytes b)
             (Z.lor (Z.ldiff (buf_value b) (Z.shiftl (Z.ones (8 * n)) (8 * a)))
                    (Z.shiftl (Z.land v (Z.ones (8 * n))) (8 * a))))
  else Err BadAccess.

(** [bits[idx]] of an array of 64-bit words. *)
Definition load_word (b : buffer) (idx : Z) : result Z := load 8 b (8 * idx).
Definition store_word (b : buffer) (idx v : Z) : result buffer := store 8 b (8 * idx) v.

(** An array of words. *)
Fixpoint words_value (ws : list Z) : Z :=
  match ws with
  | [] => 0
  | w :: ws => w + Z.shiftl (words_value ws) 64
  end.

Definition buffer_of (ws : list Z) : buffer :=
  mkBuffer (8 * Z.of_nat (length ws)) (words_value ws).

(** * Words *)

(** [~word] and [word << n] on 64 bits. *)
Definition not64 (word : Z) : Z := Z.lxor word UINT64_MAX.

Definition shl64 (word n : Z) : result Z :=
  if (0 <=? n) && (n <? 64) then Ok (wrap_unsigned 64 (Z.shiftl word n))
  else Err BadShift.

(** [__builtin_ctzll] of a nonzero word. *)
Fixpoint ctz_pos (p : positive) : Z :=
  match p with
  | xO p => 1 + ctz_pos p
  | _ => 0
  end.

Definition ctz (word : Z) : Z :=
  match word with
  | Zpos p => ctz_pos p
  | _ => 0
  end.

(** The positions of the one bits of a word, and their number
    ([__builtin_popcountll]). *)
Definition bits_of (word : Z) : list Z := List.filter (Z.testbit word) (seqZ 0 64).

Definition popcount (word : Z) : Z := Z.of_nat (length (bits_of word)).

(** [__builtin_clzll] of a nonzero word, and 64 for zero. *)
Definition countLeadingZeros (word : Z) : Z :=
  if word =? 0 then 64 else 63 - Z.log2 word.

Definition nextPowerOfTwo (size : Z) : Z :=
  if size =? 0 then 0
  else
    let bits := 63 - countLeadingZeros size in
    let lower := Z.shiftl 1 bits in
    if lower =? size then size else wrap_unsigned 64 (2 * lower).

(** [roundUp] and [divRoundUp] at type [int32_t]. *)
Definition roundUp (value factor : Z) : result Z :=
  let! sum := ck32 (value + (factor - 1)) in
  Ok (Z.quot sum factor * factor).

Definition divRoundUp (value factor : Z) : result Z :=
  let! sum := ck32 (value + (factor - 1)) in
  Ok (Z.quot sum factor).

Definition lowMask (bits : Z) : result Z :=
  if (0 <=? bits) && (bits <? 64) then Ok (Z.shiftl 1 bits - 1) else Err BadShift.

Definition highMask (bits : Z) : result Z :=
  let! low := lowMask bits in
  shl64 low (64 - bits).

Definition nbytes (bits : Z) : result Z :=
  let! r := roundUp bits 8 in
  Ok (Z.quot r 8).

(** The overloads of [nwords]: for [int32_t], for the unsigned types, and for
    [int64_t]. *)
Definition nwords (bits : Z) : result Z :=
  let! r := roundUp bits 64 in
  Ok (Z.quot r 64).

Definition nwords_unsigned (bits : Z) : Z :=
  bits / 64 + (if bits mod 64 =? 0 then 0 else 1).

Definition nwords_int64 (bits : Z) : Z :=
  if bits <=? 0 then 0
  else wrap_unsigned 64 (bits + (64 - 1)) / 64 * 64 / 64.

(** Returns the position, and the word without its lowest bit. *)
Definition getAndClearLastSetBit (bits : Z) : Z * Z :=
  (ctz bits, Z.land bits (bits - 1)).

(** * Single bits *)

(** [isBitSet] over elements of [n] bytes. *)
Definition isBitSet (n : Z) (b : buffer) (idx : Z) : result bool :=
  let width := Z.shiftl n 3 in
  let idx := wrap_unsigned 32 idx in
  let! word := load n b (n * (idx / width)) in
  Ok (negb (Z.land word (Z.shiftl 1 (Z.land idx (width - 1))) =? 0)).

Definition kZeroBitmasks : list Z :=
  map (fun k => wrap_unsigned 8 (Z.lnot (Z.shiftl 1 k))) [0; 1; 2; 3; 4; 5; 6; 7].

Definition setBit (b : buffer) (idx : Z) : result buffer :=
  let! byte := load 1 b (Z.shiftr idx 3) in
  store 1 b (Z.shiftr idx 3) (Z.lor byte (Z.shiftl 1 (Z.land idx 7))).

Definition clearBit (b : buffer) (idx : Z) : result buffer :=
  let! byte := load 1 b (Z.shiftr idx 3) in
  store 1 b (Z.shiftr idx 3)
    (Z.land byte (nth (Z.to_nat (Z.land idx 7)) kZeroBitmasks 0)).

Definition setBitTo (b : buffer) (idx : Z) (value : bool) : result buffer :=
  if value then setBit b idx else clearBit b idx.

(** * Loops over the words of a range *)

Section word_loops.
Context {T : Type}.

(** [for (i = firstWord; i + 64 <= lastWord; i += 64)]: fuel for the whole words
    of the range, and one to leave the loop. *)
Definition word_fuel (firstWord lastWord : Z) : nat :=
  S (Z.to_nat ((lastWord - firstWord) / 64)).

Definition whole_word (lastWord i : Z) : result bool :=
  let! next := ck32 (i + 64) in
  Ok (next <=? lastWord).

Section test.
Variables (begin end_ : Z).
Variable partialWordFunc : T -> Z -> Z -> result (T * bool).
Variable fullWordFunc : T -> Z -> result (T * bool).

(** The state of the loops of [testWords] carries whether to go on. *)
Fixpoint test_words_up (fuel : nat) (i lastWord : Z) (st : T) : result (T * bool) :=
  match fuel with
  | O => Err OutOfFuel
  | S fuel =>
      let! again := whole_word lastWord i in
      if again : bool then
        let! r := fullWordFunc st (Z.quot i 64) in
        if snd r : bool then test_words_up fuel (i + 64) lastWord (fst r)
        else Ok (fst r, false)
      else Ok (st, true)
  end.

Definition testWords (st : T) : result (T * bool) :=
  if begin >=? end_ then Ok (st, true)
  else
    let! firstWord := roundUp begin 64 in
    let lastWord := Z.land end_ (Z.lnot 63) in
    if lastWord <? firstWord then
      let! low := lowMask (end_ - lastWord) in
      let! high := highMask (firstWord - begin) in
      partialWordFunc st (Z.quot lastWord 64) (Z.land low high)
    else
      let! r :=
        if negb (begin =? firstWord) then
          let! high := highMask (firstWord - begin) in
          partialWordFunc st (Z.quot begin 64) high
        else Ok (st, true) in
      if negb (snd r) then Ok (fst r, false)
      else
        let! r := test_words_up (word_fuel firstWord lastWord) firstWord lastWord (fst r) in
        if negb (snd r) then Ok (fst r, false)
        else if negb (end_ =? lastWord) then
          let! low := lowMask (end_ - lastWord) in
          partialWordFunc (fst r) (Z.quot lastWord 64) low
        else Ok (fst r, true).

Fixpoint test_words_down (fuel : nat) (i firstWord : Z) (st : T) : result (T * bool) :=
  match fuel with
  | O => Err OutOfFuel
  | S fuel =>
      if i >=? firstWord then
        let! r := fullWordFunc st (Z.quot i 64) in
        if snd r : bool then test_words_down fuel (i - 64) firstWord (fst r)
        else Ok (fst r, false)
      else Ok (st, true)
  end.

Definition testWordsReverse (st : T) : result (T * bool) :=
  if begin >=? end_ then Ok (st, true)
  else
    let! firstWord := roundUp begin 64 in
    let lastWord := Z.land end_ (Z.lnot 63) in
    if lastWord <? firstWord then
      let! low := lowMask (end_ - lastWord) in
      let! high := highMask (firstWord - begin) in
      partialWordFunc st (Z.quot lastWord 64) (Z.land low high)
    else
      let! r :=
        if negb (end_ =? lastWord) then
          let! low := lowMask (end_ - lastWord) in
          partialWordFunc st (Z.quot lastWord 64) low
        else Ok (st, true) in
      if negb (snd r) then Ok (fst r, false)
      else
        let! r := test_words_down (word_fuel firstWord lastWord) (lastWord - 64) firstWord
                    (fst r) in
        if negb (snd r) then Ok (fst r, false)
        else if negb (begin =? firstWord) then
          let! high := highMask (firstWord - begin) in
          partialWordFunc (fst r) (Z.quot begin 64) high
        else Ok (fst r, true).
End test.

Section each.
Variables (begin end_ : Z).
Variable partialWordFunc : T -> Z -> Z -> result T.
Variable fullWordFunc : T -> Z -> result T.

Definition forEachWord (st : T) : result T :=
  if begin >=? end_ then Ok st
  else
    let! firstWord := roundUp begin 64 in
    let lastWord := Z.land end_ (Z.lnot 63) in
    if lastWord <? firstWord then
      let! low := lowMask (end_ - lastWord) in
      let! high := highMask (firstWord - begin) in
      partialWordFunc st (Z.shiftr lastWord 6) (Z.land low high)
    else
      let! st :=
        if negb (begin =? firstWord) then
          let! high := highMask (firstWord - begin) in
          partialWordFunc st (Z.shiftr begin 6) high
        else Ok st in
      let! r := for_res (whole_word lastWord) 64 (fun st i => fullWordFunc st (Z.shiftr i 6))
                  (word_fuel firstWord lastWord) firstWord st in
      if negb (end_ =? lastWord) then
        let! low := lowMask (end_ - lastWord) in
        partialWordFunc (snd r) (Z.shiftr lastWord 6) low
      else Ok (snd r).

(** The variant with a single callable. *)
Definition single_mask (firstIndex lastIndex index : Z) : result Z :=
  let! mask :=
    if (index =? firstIndex) && negb (begin =? Z.shiftl firstIndex 6)
    then highMask (Z.shiftl (firstIndex + 1) 6 - begin)
    else Ok UINT64_MAX in
  if (index =? lastIndex) && negb (Z.shiftl lastIndex 6 + 64 =? end_)
  then
    let! low := lowMask (end_ - Z.shiftl lastIndex 6) in
    Ok (Z.land mask low)
  else Ok mask.

Definition forEachWordSingle (st : T) : result T :=
  if begin >=? end_ then Ok st
  else
    let firstIndex := Z.shiftr begin 6 in
    let! rounded := roundUp end_ 64 in
    let lastIndex := Z.shiftr (rounded - 64) 6 in
    let! r := for_res (fun index => Ok (index <=? lastIndex)) 1
      (fun st index =>
         let! mask := single_mask firstIndex lastIndex index in
         partialWordFunc st index mask)
      (S (Z.to_nat (lastIndex - firstIndex + 1))) firstIndex st in
    Ok (snd r).
End each.
End word_loops.

(** * Rounding to a power of two *)

Lemma nextPowerOfTwo_spec n :
  0 < n <= 2 ^ 63 ->
  exists k, 0 <= k <= 63 /\ nextPowerOfTwo n = 2 ^ k /\ n <= 2 ^ k < 2 * n.
Proof.
  intros Hn. unfold nextPowerOfTwo, countLeadingZeros.
  replace (n =? 0) with false by lia.
  replace (63 - (63 - Z.log2 n)) with (Z.log2 n) by lia.
  rewrite Z.shiftl_1_l. pose proof (Z.log2_spec n ltac:(lia)) as Hl.
  pose proof (Z.log2_nonneg n). rewrite Z.pow_succ_r in Hl by lia.
  destruct (2 ^ Z.log2 n =? n) eqn:E.
  - apply Z.eqb_eq in E. exists (Z.log2 n). split; [|by rewrite E; lia].
    split; [done|]. apply Z.lt_succ_r. apply (Z.pow_lt_mono_r_iff 2); lia.
  - apply Z.eqb_neq in E. exists (Z.log2 n + 1).
    assert (Z.log2 n < 63) by (apply (Z.pow_lt_mono_r_iff 2); lia).
    rewrite Z.pow_add_r by lia. change (2 ^ 1) with 2. split; [lia|].
    rewrite wrap_unsigned_id by lia. lia.
Qed.

(** * Words of a buffer *)

(** Every word with a bit below [end_] lies in the buffer. *)
Definition has_words (b : buffer) (end_ : Z) : Prop := 8 * ((end_ + 63) / 64) <= buf_bytes b.

(** The bit field of [n] bits from position [pos] on. *)
Definition field (b : buffer) (pos n : Z) : Z :=
  Z.land (Z.shiftr (buf_value b) pos) (Z.ones n).

Definition set_field (b : buffer) (pos n v : Z) : buffer :=
  mkBuffer (buf_bytes b)
    (Z.lor (Z.ldiff (buf_value b) (Z.shiftl (Z.ones n) pos))
           (Z.shiftl (Z.land v (Z.ones n)) pos)).

Definition word (b : buffer) (idx : Z) : Z := field b (64 * idx) 64.

Definition set_word (b : buffer) (idx v : Z) : buffer := set_field b (64 * idx) 64 v.

Lemma load_ok n b a : 0 <= a -> a + n <= buf_bytes b -> load n b a = Ok (field b (8 * a) (8 * n)).
Proof.
  intros Ha Hb. unfold load, in_buffer.
  by replace ((0 <=? a) && (a + n <=? buf_bytes b)) with true by zbool.
Qed.

Lemma store_ok n b a v :
  0 <= a -> a + n <= buf_bytes b -> store n b a v = Ok (set_field b (8 * a) (8 * n) v).
Proof.
  intros Ha Hb. unfold store, in_buffer.
  by replace ((0 <=? a) && (a + n <=? buf_bytes b)) with true by zbool.
Qed.

Lemma field_bits b pos n j :
  0 <= pos -> 0 <= n ->
  Z.testbit (field b pos n) j = (0 <=? j) && (j <? n) && bit b (pos + j).
Proof.
  intros Hp Hn. unfold field, bit. destruct (decide (0 <= j)).
  - autorewrite with bits. replace (j + pos) with (pos + j) by lia.
    by destruct (0 <=? j), (j <? n), (Z.testbit _ _).
  - rewrite Z.testbit_neg_r by lia. by replace (0 <=? j) with false by lia.
Qed.

Lemma field_range b pos n : 0 <= n -> 0 <= field b pos n < 2 ^ n.
Proof.
  intros Hn. unfold field. rewrite Z.land_ones by lia. apply Z.mod_pos_bound.
  apply Z.pow_pos_nonneg; lia.
Qed.

Lemma set_field_bits b pos n v i :
  0 <= pos -> 0 <= n ->
  bit (set_field b pos n v) i
  = if (pos <=? i) && (i <? pos + n) then Z.testbit v (i - pos) else bit b i.
Proof.
  intros Hp Hn. unfold bit, set_field. cbn [buf_value]. destruct (decide (0 <= i)).
  - autorewrite with bits. destruct (pos <=? i) eqn:E; simpl.
    + replace (0 <=? i - pos) with true by lia. destruct (i <? pos + n) eqn:E'.
      * replace (i - pos <? n) with true by lia.
        by destruct (Z.testbit (buf_value b) i), (Z.testbit v _).
      * replace (i - pos <? n) with false by lia. simpl.
        by rewrite !andb_true_r, andb_false_r, orb_false_r.
    + replace (0 <=? i - pos) with false by lia. simpl.
      by rewrite !andb_true_r, andb_false_r, orb_false_r.
  - replace (pos <=? i) with false by lia. by rewrite !Z.testbit_neg_r by lia.
Qed.

Lemma has_words_lt b end_ idx :
  has_words b end_ -> 0 <= idx -> 64 * idx < end_ -> 8 * idx + 8 <= buf_bytes b.
Proof.
  unfold has_words. intros H Hi Hlt.
  assert (idx + 1 <= (end_ + 63) / 64) by (apply Z.div_le_lower_bound; lia). lia.
Qed.

Lemma has_words_mono b e e' : has_words b e -> e' <= e -> has_words b e'.
Proof.
  unfold has_words. intros H He.
  assert ((e' + 63) / 64 <= (e + 63) / 64) by (apply Z.div_le_mono; lia). lia.
Qed.

Lemma load_word_ok b idx :
  0 <= idx -> 8 * idx + 8 <= buf_bytes b -> load_word b idx = Ok (word b idx).
Proof.
  intros Hi Hb. unfold load_word. rewrite load_ok by lia.
  by replace (8 * (8 * idx)) with (64 * idx) by lia.
Qed.

Lemma store_word_ok b idx v :
  0 <= idx -> 8 * idx + 8 <= buf_bytes b -> store_word b idx v = Ok (set_word b idx v).
Proof.
  intros Hi Hb. unfold store_word. rewrite store_ok by lia.
  by replace (8 * (8 * idx)) with (64 * idx) by lia.
Qed.

Lemma word_bits b idx j :
  0 <= idx -> Z.testbit (word b idx) j = (0 <=? j) && (j <? 64) && bit b (64 * idx + j).
Proof. intros Hi. apply field_bits; lia. Qed.

Lemma word_range b idx : 0 <= word b idx < 2 ^ 64.
Proof. apply field_range. lia. Qed.

Lemma set_word_bits b idx v i :
  0 <= idx ->
  bit (set_word b idx v) i
  = if (64 * idx <=? i) && (i <? 64 * idx + 64) then Z.testbit v (i - 64 * idx) else bit b i.
Proof. intros Hi. apply set_field_bits; lia. Qed.

(** * Single bits *)

Lemma testbit_one k j : 0 <= k -> Z.testbit (Z.shiftl 1 k) j = (j =? k).
Proof.
  intros Hk. destruct (decide (0 <= j)).
  - rewrite Z.shiftl_1_l. destruct (j =? k) eqn:E.
    + replace j with k by lia. by apply Z.pow2_bits_true.
    + apply Z.pow2_bits_false. lia.
  - rewrite Z.testbit_neg_r by lia. symmetry. apply Z.eqb_neq. lia.
Qed.

Lemma land_one w k : 0 <= k -> negb (Z.land w (Z.shiftl 1 k) =? 0) = Z.testbit w k.
Proof.
  intros Hk. destruct (Z.testbit w k) eqn:E.
  - apply negb_true_iff, Z.eqb_neq. intros H0.
    assert (Z.testbit (Z.land w (Z.shiftl 1 k)) k = false) as Hb by (rewrite H0; apply Z.bits_0).
    by rewrite Z.land_spec, E, testbit_one, Z.eqb_refl in Hb.
  - apply negb_false_iff, Z.eqb_eq, Z.bits_inj'. intros j Hj.
    rewrite Z.land_spec, testbit_one, Z.bits_0 by done. destruct (j =? k) eqn:Ej.
    + replace j with k by lia. by rewrite E.
    + apply andb_false_r.
Qed.

Lemma land_low k z : 0 <= k -> Z.land z (2 ^ k - 1) = z mod 2 ^ k.
Proof.
  intros Hk. replace (2 ^ k - 1) with (Z.ones k) by (rewrite Z.ones_equiv; lia).
  by apply Z.land_ones.
Qed.

(** [isBitSet] over bytes and over words. *)
Lemma isBitSet_word b idx :
  0 <= idx <= INT32_MAX -> has_words b (idx + 1) -> isBitSet 8 b idx = Ok (bit b idx).
Proof.
  intros Hi Hb. unfold isBitSet. change (Z.shiftl 8 3) with 64. rewrite wrap_unsigned_id by lia.
  pose proof (Z.div_mod idx 64). pose proof (Z.mod_pos_bound idx 64).
  fold (load_word b (idx / 64)).
  rewrite load_word_ok by (lia || (eapply has_words_lt; [done|lia|lia])). cbn [rbind].
  change (64 - 1) with (2 ^ 6 - 1). rewrite land_low by lia. change (2 ^ 6) with 64.
  rewrite land_one, word_bits by lia. f_equal.
  replace ((0 <=? idx mod 64) && (idx mod 64 <? 64)) with true by zbool.
  simpl. f_equal. lia.
Qed.

Lemma isBitSet_byte b idx :
  0 <= idx <= INT32_MAX -> idx / 8 < buf_bytes b -> isBitSet 1 b idx = Ok (bit b idx).
Proof.
  intros Hi Hb. unfold isBitSet. change (Z.shiftl 1 3) with 8. rewrite wrap_unsigned_id by lia.
  pose proof (Z.div_mod idx 8). pose proof (Z.mod_pos_bound idx 8).
  rewrite load_ok by lia. cbn [rbind].
  change (8 - 1) with (2 ^ 3 - 1). rewrite land_low by lia. change (2 ^ 3) with 8.
  rewrite land_one, field_bits by lia. f_equal.
  replace ((0 <=? idx mod 8) && (idx mod 8 <? 8 * 1)) with true by zbool.
  simpl. f_equal. lia.
Qed.

Lemma zero_bitmask k :
  0 <= k < 8 -> nth (Z.to_nat k) kZeroBitmasks 0 = wrap_unsigned 8 (Z.lnot (Z.shiftl 1 k)).
Proof.
  intros Hk. assert (k = 0 \/ k = 1 \/ k = 2 \/ k = 3 \/ k = 4 \/ k = 5 \/ k = 6 \/ k = 7) as Hc by lia.
  destruct Hc as [->|[->|[->|[->|[->|[->|[->| ->]]]]]]]; reflexivity.
Qed.

Lemma setBitTo_ok b idx value :
  0 <= idx -> idx / 8 < buf_bytes b ->
  exists b', setBitTo b idx value = Ok b' /\ buf_bytes b' = buf_bytes b
    /\ forall i, bit b' i = if i =? idx then value else bit b i.
Proof.
  intros Hi Hb. pose proof (Z.div_mod idx 8). pose proof (Z.mod_pos_bound idx 8).
  assert (0 <= idx / 8) by (apply Z.div_pos; lia).
  assert (Z.shiftr idx 3 = idx / 8) as Hs by (by rewrite Z.shiftr_div_pow2 by lia).
  assert (Z.land idx 7 = idx mod 8) as Hl by (apply (land_low 3); lia).
  assert (forall v, (forall j, 0 <= j < 8 -> Z.testbit v j
      = if j =? idx mod 8 then value else bit b (8 * (idx / 8) + j)) ->
    exists b', store 1 b (idx / 8) v = Ok b' /\ buf_bytes b' = buf_bytes b
      /\ forall i, bit b' i = if i =? idx then value else bit b i) as Hstore.
  { intros v Hv. rewrite store_ok by lia. eexists. split; [done|]. split; [done|].
    intros i. rewrite set_field_bits by lia.
    destruct ((8 * (idx / 8) <=? i) && (i <? 8 * (idx / 8) + 8 * 1)) eqn:E.
    - rewrite Hv by zbool. replace (8 * (idx / 8) + (i - 8 * (idx / 8))) with i by lia.
      by replace (i - 8 * (idx / 8) =? idx mod 8) with (i =? idx) by (apply eq_true_iff_eq; zbool).
    - by replace (i =? idx) with false by zbool. }
  unfold setBitTo. destruct value; [unfold setBit|unfold clearBit];
    rewrite Hs, Hl, load_ok by lia; cbn [rbind]; apply Hstore; intros j Hj.
  - rewrite Z.lor_spec, testbit_one, field_bits by lia.
    replace ((0 <=? j) && (j <? 8 * 1)) with true by zbool. simpl.
    destruct (j =? idx mod 8); [apply orb_true_r|apply orb_false_r].
  - rewrite Z.land_spec, zero_bitmask, wrap_unsigned_bits, Z.lnot_spec, testbit_one, field_bits by lia.
    replace ((0 <=? j) && (j <? 8 * 1)) with true by zbool.
    replace (j <? 8) with true by zbool. simpl.
    destruct (j =? idx mod 8); [apply andb_false_r|apply andb_true_r].
Qed.

(** * The words of a range *)

(** The bits of word [idx] that lie in the range. *)
Definition range_mask (begin end_ idx : Z) : Z :=
  let lo := Z.max 0 (begin - 64 * idx) in
  let hi := Z.min 64 (end_ - 64 * idx) in
  Z.shiftl (Z.ones (hi - lo)) lo.

(** The indices of the words that a range touches. *)
Definition word_span (begin end_ : Z) : list Z :=
  if begin <? end_ then seqZ (begin / 64) ((end_ - 1) / 64 - begin / 64 + 1) else [].

Lemma word_span_elem begin end_ idx :
  0 <= begin ->
  idx ∈ word_span begin end_ <-> 0 <= idx /\ begin < end_ /\ 64 * idx < end_ /\ begin < 64 * idx + 64.
Proof.
  intros Hb. unfold word_span. destruct (begin <? end_) eqn:E.
  - rewrite elem_of_seqZ. split.
    + intros [H1 H2]. pose proof (Z.div_mod begin 64). pose proof (Z.mod_pos_bound begin 64).
      pose proof (Z.div_mod (end_ - 1) 64). pose proof (Z.mod_pos_bound (end_ - 1) 64).
      pose proof (Z.div_pos begin 64). lia.
    + intros (H1 & H2 & H3 & H4).
      assert (begin / 64 < idx + 1) by (apply Z.div_lt_upper_bound; lia).
      assert (idx <= (end_ - 1) / 64) by (apply Z.div_le_lower_bound; lia). lia.
  - split; [set_solver|lia].
Qed.

Lemma range_mask_bits begin end_ idx j :
  64 * idx < end_ -> begin < 64 * idx + 64 -> begin < end_ ->
  Z.testbit (range_mask begin end_ idx) j
  = (0 <=? j) && (j <? 64) && (begin <=? 64 * idx + j) && (64 * idx + j <? end_).
Proof.
  intros H1 H2 H3. unfold range_mask. cbv zeta. destruct (decide (0 <= j)).
  - rewrite Z.shiftl_spec, Z.testbit_ones by lia.
    apply eq_true_iff_eq. rewrite !andb_true_iff, !Z.leb_le, !Z.ltb_lt. lia.
  - rewrite Z.testbit_neg_r by lia. by replace (0 <=? j) with false by lia.
Qed.

Lemma masked_bits begin end_ idx w j :
  64 * idx < end_ -> begin < 64 * idx + 64 -> begin < end_ ->
  Z.testbit (Z.land w (range_mask begin end_ idx)) j
  = Z.testbit w j
    && ((0 <=? j) && (j <? 64) && (begin <=? 64 * idx + j) && (64 * idx + j <? end_)).
Proof. intros. by rewrite Z.land_spec, range_mask_bits by done. Qed.

(** ** The loops visit the words of the range *)

Lemma rbind_Ok_r {A} (m : result A) : rbind m Ok = m.
Proof. by destruct m. Qed.

Lemma rbind_cong {A B} (m m' : result A) (k k' : A -> result B) :
  m = m' -> (forall x, k x = k' x) -> rbind m k = rbind m' k'.
Proof. intros -> H. apply rbind_ext. auto. Qed.

Lemma lowMask_ok k : 0 <= k < 64 -> lowMask k = Ok (Z.ones k).
Proof.
  intros Hk. unfold lowMask. replace ((0 <=? k) && (k <? 64)) with true by zbool.
  done.
Qed.

Lemma highMask_ok k : 0 < k < 64 -> highMask k = Ok (Z.shiftl (Z.ones k) (64 - k)).
Proof.
  intros Hk. unfold highMask, shl64. rewrite lowMask_ok by lia. cbn [rbind].
  replace ((0 <=? 64 - k) && (64 - k <? 64)) with true by zbool. f_equal.
  apply wrap_unsigned_id. rewrite Z.shiftl_mul_pow2, Z.ones_equiv by lia.
  assert (2 ^ 64 = 2 ^ k * 2 ^ (64 - k)) as -> by (rewrite <- Z.pow_add_r by lia; f_equal; lia).
  assert (0 < 2 ^ (64 - k)) by (apply Z.pow_pos_nonneg; lia).
  assert (0 < 2 ^ k) by (apply Z.pow_pos_nonneg; lia). nia.
Qed.

Lemma roundUp_64 begin :
  0 <= begin <= INT32_MAX - 63 -> roundUp begin 64 = Ok (64 * ((begin + 63) / 64)).
Proof.
  intros Hb. unfold roundUp. rewrite ck32_in by lia. cbn [rbind].
  rewrite Z.quot_div_nonneg by lia. f_equal. change (64 - 1) with 63. lia.
Qed.

Lemma land_lnot_63 z : Z.land z (Z.lnot 63) = 64 * (z / 64).
Proof.
  change (Z.lnot 63) with (Z.lnot (Z.ones 6)). rewrite <- Z.ldiff_land.
  rewrite Z.ldiff_ones_r, Z.shiftr_div_pow2, Z.shiftl_mul_pow2 by lia. change (2 ^ 6) with 64. lia.
Qed.

Lemma shiftr_6 z : Z.shiftr z 6 = z / 64.
Proof. by rewrite Z.shiftr_div_pow2 by lia. Qed.

(** The borders of a range: [q] is the first word that starts in it, [p] the
    word of its end. *)
Record borders (begin end_ q p : Z) : Prop := {
  bd_nonneg : 0 <= begin;
  bd_nonempty : begin < end_;
  bd_first : 64 * q - 64 < begin <= 64 * q;
  bd_last : 64 * p <= end_ < 64 * p + 64
}.

Lemma borders_exist begin end_ :
  0 <= begin < end_ -> borders begin end_ ((begin + 63) / 64) (end_ / 64).
Proof.
  intros H. pose proof (Z.div_mod (begin + 63) 64). pose proof (Z.div_mod end_ 64).
  pose proof (Z.mod_pos_bound (begin + 63) 64). pose proof (Z.mod_pos_bound end_ 64).
  split; lia.
Qed.

Lemma div_64 z k : 64 * k <= z < 64 * k + 64 -> z / 64 = k.
Proof. intros. symmetry. apply (Z.div_unique z 64 k (z - 64 * k)); lia. Qed.

Ltac range_mask_tac :=
  apply Z.bits_inj'; intros j Hj; rewrite range_mask_bits by lia; autorewrite with bits;
  apply eq_true_iff_eq; rewrite ?andb_true_iff, ?Z.leb_le, ?Z.ltb_lt; lia.

Section borders.
Context {begin end_ q p : Z} (Hbd : borders begin end_ q p).

Lemma span_single : p < q -> word_span begin end_ = [p].
Proof.
  destruct Hbd. intros Hp. unfold word_span. replace (begin <? end_) with true by lia.
  rewrite (div_64 begin p), (div_64 (end_ - 1) p) by lia.
  by replace (p - p + 1) with 1 by lia.
Qed.

Lemma mask_single :
  p < q -> Z.land (Z.ones (end_ - 64 * p)) (Z.shiftl (Z.ones (64 * q - begin)) (64 - (64 * q - begin)))
           = range_mask begin end_ p.
Proof. destruct Hbd. intros Hp. symmetry. range_mask_tac. Qed.

Lemma mask_first :
  q <= p -> begin <> 64 * q ->
  Z.shiftl (Z.ones (64 * q - begin)) (64 - (64 * q - begin)) = range_mask begin end_ (q - 1).
Proof. destruct Hbd. intros Hp Hne. symmetry. range_mask_tac. Qed.

Lemma mask_last :
  q <= p -> end_ <> 64 * p -> Z.ones (end_ - 64 * p) = range_mask begin end_ p.
Proof. destruct Hbd. intros Hp Hne. symmetry. range_mask_tac. Qed.

Lemma mask_full idx : q <= idx < p -> range_mask begin end_ idx = UINT64_MAX.
Proof. destruct Hbd. intros Hp. change UINT64_MAX with (Z.ones 64). range_mask_tac. Qed.

Lemma span_parts :
  q <= p ->
  word_span begin end_
  = (if begin =? 64 * q then [] else [q - 1]) ++ seqZ q (p - q)
    ++ (if end_ =? 64 * p then [] else [p]).
Proof.
  destruct Hbd. intros Hp. unfold word_span. replace (begin <? end_) with true by lia.
  assert (begin / 64 = if begin =? 64 * q then q else q - 1) as ->
    by (destruct (begin =? 64 * q) eqn:E; apply div_64; lia).
  assert ((end_ - 1) / 64 = if end_ =? 64 * p then p - 1 else p) as ->
    by (destruct (end_ =? 64 * p) eqn:E; apply div_64; lia).
  assert (seqZ q (p - q) ++ (if end_ =? 64 * p then [] else [p])
          = seqZ q ((if end_ =? 64 * p then p - 1 else p) - q + 1)) as ->.
  { destruct (end_ =? 64 * p).
    - rewrite app_nil_r. f_equal. lia.
    - replace (p - q + 1) with (p - q + 1) by lia. rewrite (seqZ_app q (p - q) 1) by lia.
      f_equal. by replace (q + (p - q)) with p by lia. }
  destruct (begin =? 64 * q) eqn:E; simpl; [done|].
  rewrite (seqZ_cons (q - 1)) by (destruct (end_ =? 64 * p) eqn:E'; lia).
  f_equal. f_equal; lia.
Qed.
End borders.

Lemma whole_word_ok p i :
  0 <= i -> 64 * p <= INT32_MAX - 64 -> i <= p ->
  whole_word (64 * p) (64 * i) = Ok (i <? p).
Proof.
  intros Hi Hp Hip. unfold whole_word. rewrite ck32_in by lia. cbn [rbind].
  f_equal. apply eq_true_iff_eq. rewrite Z.leb_le, Z.ltb_lt. lia.
Qed.

Lemma word_fuel_64 q p : word_fuel (64 * q) (64 * p) = S (Z.to_nat (p - q)).
Proof.
  unfold word_fuel. replace (64 * p - 64 * q) with ((p - q) * 64) by lia.
  by rewrite Z.div_mul by lia.
Qed.

Lemma quot_64 k : Z.quot (64 * k) 64 = k.
Proof. rewrite Z.mul_comm. by apply Z.quot_mul. Qed.

Section span.
Context {T : Type} (begin end_ : Z).
Hypothesis Hrange : 0 <= begin /\ end_ <= INT32_MAX - 64.

Lemma full_loop (full : T -> Z -> result T) q p st :
  0 <= q <= p -> 64 * p <= INT32_MAX - 64 ->
  for_res (whole_word (64 * p)) 64 (fun st i => full st (Z.shiftr i 6))
    (word_fuel (64 * q) (64 * p)) (64 * q) st
  = (let! st := fold_res full st (seqZ q (p - q)) in Ok (64 * p, st)).
Proof.
  intros Hq Hp. rewrite word_fuel_64, (for_res_seq _ _ _ _ (Z.to_nat (p - q))).
  - rewrite fold_res_map.
    replace (64 * q + 64 * Z.of_nat (Z.to_nat (p - q))) with (64 * p) by lia.
    f_equal. rewrite Z2Nat.id by lia.
    replace (seqZ q (p - q)) with (map (Z.add q) (seqZ 0 (p - q))).
    + rewrite fold_res_map. apply fold_res_ext. intros acc k _. f_equal.
      rewrite shiftr_6. apply div_64. lia.
    + pose proof (fmap_add_seqZ q 0 (p - q)) as Hs. by rewrite Z.add_0_r in Hs.
  - lia.
  - intros k Hk. replace (64 * q + 64 * k) with (64 * (q + k)) by lia.
    rewrite whole_word_ok by lia. f_equal. lia.
  - replace (64 * q + 64 * Z.of_nat (Z.to_nat (p - q))) with (64 * p) by lia.
    rewrite whole_word_ok by lia. f_equal. lia.
Qed.

(** [forEachWord] applies its function to the words of the range in order, with
    the bits of the range as mask. *)
Lemma forEachWord_span (partial : T -> Z -> Z -> result T) full st :
  (forall st idx, 0 <= idx -> full st idx = partial st idx UINT64_MAX) ->
  forEachWord begin end_ partial full st
  = fold_res (fun st idx => partial st idx (range_mask begin end_ idx)) st
      (word_span begin end_).
Proof.
  intros Hfull. unfold forEachWord.
  destruct (begin >=? end_) eqn:E.
  { unfold word_span. by replace (begin <? end_) with false by lia. }
  pose proof (borders_exist begin end_ ltac:(lia)) as Hbd.
  rewrite roundUp_64, land_lnot_63 by lia. cbn [rbind].
  set (q := (begin + 63) / 64) in *. set (p := end_ / 64) in *. clearbody q p.
  rewrite !shiftr_6, (div_64 (64 * p) p) by lia. pose proof Hbd as [].
  destruct (64 * p <? 64 * q) eqn:Hpq.
  { rewrite lowMask_ok, highMask_ok, (span_single Hbd) by lia. cbn [rbind fold_res].
    by rewrite rbind_Ok_r, (mask_single Hbd) by lia. }
  rewrite (span_parts Hbd), fold_res_app by lia.
  apply rbind_cong.
  { destruct (begin =? 64 * q) eqn:Eb; [done|]. cbn [negb fold_res].
    rewrite highMask_ok by lia. cbn [rbind].
    by rewrite rbind_Ok_r, (mask_first Hbd), (div_64 begin (q - 1)) by lia. }
  clear st. intros st. rewrite full_loop, rbind_assoc, fold_res_app by lia.
  apply rbind_cong; [|clear st; intros st; cbn [rbind snd]].
  - apply fold_res_ext. intros acc idx [? ?]%elem_of_seqZ.
    rewrite (mask_full Hbd) by lia. apply Hfull. lia.
  - destruct (end_ =? 64 * p) eqn:Ee; [done|]. cbn [negb fold_res].
    rewrite lowMask_ok by lia. cbn [rbind]. by rewrite rbind_Ok_r, (mask_last Hbd) by lia.
Qed.

Lemma single_mask_ok idx :
  begin < end_ -> begin / 64 <= idx <= (end_ - 1) / 64 ->
  single_mask begin end_ (begin / 64) ((end_ - 1) / 64) idx = Ok (range_mask begin end_ idx).
Proof.
  intros Hne Hidx. unfold single_mask. rewrite !Z.shiftl_mul_pow2 by lia.
  pose proof (Z.div_mod begin 64). pose proof (Z.mod_pos_bound begin 64).
  pose proof (Z.div_mod (end_ - 1) 64). pose proof (Z.mod_pos_bound (end_ - 1) 64).
  set (f := begin / 64) in *. set (l := (end_ - 1) / 64) in *. change (2 ^ 6) with 64.
  assert ((if (idx =? f) && negb (begin =? f * 64) then highMask ((f + 1) * 64 - begin)
           else Ok UINT64_MAX) = Ok (range_mask begin (64 * idx + 64) idx)) as ->.
  { destruct ((idx =? f) && negb (begin =? f * 64)) eqn:E.
    - assert (idx = f /\ begin <> f * 64) as [-> ?] by zbool.
      rewrite highMask_ok by lia. f_equal. symmetry. range_mask_tac.
    - assert (begin <= 64 * idx) by zbool. f_equal. change UINT64_MAX with (Z.ones 64).
      symmetry. range_mask_tac. }
  cbn [rbind]. destruct ((idx =? l) && negb (l * 64 + 64 =? end_)) eqn:E.
  - assert (idx = l /\ end_ <> l * 64 + 64) as [-> ?] by zbool.
    rewrite lowMask_ok by lia. cbn [rbind]. f_equal. symmetry.
    apply Z.bits_inj'; intros j Hj; rewrite range_mask_bits by lia.
    rewrite Z.land_spec, range_mask_bits, Z.testbit_ones by lia.
    apply eq_true_iff_eq; rewrite ?andb_true_iff, ?Z.leb_le, ?Z.ltb_lt; lia.
  - assert (64 * idx + 64 <= end_) by zbool. f_equal.
    apply Z.bits_inj'; intros j Hj; rewrite !range_mask_bits by lia.
    apply eq_true_iff_eq; rewrite ?andb_true_iff, ?Z.leb_le, ?Z.ltb_lt; lia.
Qed.

(** The variant with a single callable visits the same words with the same
    masks. *)
Lemma forEachWordSingle_span (partial : T -> Z -> Z -> result T) st :
  forEachWordSingle begin end_ partial st
  = fold_res (fun st idx => partial st idx (range_mask begin end_ idx)) st
      (word_span begin end_).
Proof.
  unfold forEachWordSingle, word_span. destruct (begin >=? end_) eqn:E.
  { by replace (begin <? end_) with false by lia. }
  replace (begin <? end_) with true by lia.
  rewrite roundUp_64 by lia. cbn [rbind]. rewrite !shiftr_6.
  assert ((64 * ((end_ + 63) / 64) - 64) / 64 = (end_ - 1) / 64) as ->.
  { pose proof (Z.div_mod (end_ + 63) 64). pose proof (Z.mod_pos_bound (end_ + 63) 64).
    rewrite (div_64 (end_ - 1) ((end_ + 63) / 64 - 1)) by lia. apply div_64. lia. }
  set (f := begin / 64) in *. set (l := (end_ - 1) / 64) in *.
  assert (f <= l) by (apply Z.div_le_mono; lia).
  rewrite (for_res_seq _ _ _ _ (Z.to_nat (l - f + 1))).
  - rewrite rbind_assoc. cbn [rbind snd]. rewrite rbind_Ok_r, fold_res_map, Z2Nat.id by lia.
    replace (seqZ f (l - f + 1)) with (map (Z.add f) (seqZ 0 (l - f + 1)))
      by (pose proof (fmap_add_seqZ f 0 (l - f + 1)) as Hs; by rewrite Z.add_0_r in Hs).
    rewrite fold_res_map. apply fold_res_ext. intros acc k [? ?]%elem_of_seqZ.
    replace (f + 1 * k) with (f + k) by lia.
    by rewrite single_mask_ok by (unfold f, l in *; lia).
  - lia.
  - intros k Hk. f_equal. lia.
  - rewrite Z2Nat.id by lia. f_equal. apply Z.leb_gt. lia.
Qed.

Section test.
Variable partial : T -> Z -> Z -> result (T * bool).
Variable full : T -> Z -> result (T * bool).
Hypothesis Hfull : forall st idx, 0 <= idx -> full st idx = partial st idx UINT64_MAX.

Lemma test_up_loop n q p st :
  0 <= q -> p - q = Z.of_nat n -> 64 * p <= INT32_MAX - 64 ->
  test_words_up full (S n) (64 * q) (64 * p) st = test_res full st (seqZ q (p - q)).
Proof.
  revert q st. induction n as [|n IH]; intros q st Hq Hn Hp.
  - cbn [test_words_up]. rewrite whole_word_ok by lia. replace (q <? p) with false by lia.
    by rewrite seqZ_nil by lia.
  - cbn [test_words_up]. rewrite whole_word_ok by lia. replace (q <? p) with true by lia.
    cbn [rbind]. rewrite seqZ_cons, quot_64 by lia. cbn [test_res].
    apply rbind_ext. intros [st' []] _; cbn [fst snd]; [|done].
    replace (64 * q + 64) with (64 * (q + 1)) by lia.
    replace (Z.pred (p - q)) with (p - (q + 1)) by lia. apply (IH (q + 1)); lia.
Qed.

Lemma test_down_loop n q p st :
  0 <= q -> p - q = Z.of_nat n ->
  test_words_down full (S n) (64 * (p - 1)) (64 * q) st = test_res full st (rev (seqZ q (p - q))).
Proof.
  revert p st. induction n as [|n IH]; intros p st Hq Hn.
  - cbn [test_words_down]. replace (64 * (p - 1) >=? 64 * q) with false by lia.
    by rewrite seqZ_nil by lia.
  - cbn [test_words_down]. replace (64 * (p - 1) >=? 64 * q) with true by lia.
    replace (p - q) with (p - 1 - q + 1) by lia. rewrite (seqZ_app q (p - 1 - q) 1) by lia.
    rewrite rev_app_distr. replace (q + (p - 1 - q)) with (p - 1) by lia.
    rewrite quot_64. cbn [rev app test_res]. apply rbind_ext.
    intros [st' []] _; cbn [fst snd]; [|done].
    replace (64 * (p - 1) - 64) with (64 * (p - 1 - 1)) by lia. apply IH; lia.
Qed.

Let step st idx := partial st idx (range_mask begin end_ idx).

Lemma test_full_words q p st l :
  borders begin end_ q p -> q <= p -> (forall idx, idx ∈ l -> idx ∈ seqZ q (p - q)) ->
  test_res full st l = test_res step st l.
Proof.
  intros Hbd Hp Hl. apply test_res_ext. intros acc idx Hin. pose proof Hbd as [].
  apply Hl, elem_of_seqZ in Hin. unfold step. rewrite (mask_full Hbd) by lia.
  apply Hfull. lia.
Qed.

Lemma test_res_single (f : T -> Z -> result (T * bool)) st x :
  test_res f st [x] = f st x.
Proof. simpl. destruct (f st x) as [[st' []]|]; done. Qed.

(** The part of the range in the first and in the last word. *)
Lemma test_first_word q p st :
  borders begin end_ q p -> q <= p ->
  (if negb (begin =? 64 * q)
   then let! high := highMask (64 * q - begin) in partial st (Z.quot begin 64) high
   else Ok (st, true))
  = test_res step st (if begin =? 64 * q then [] else [q - 1]).
Proof.
  intros Hbd Hp. pose proof Hbd as []. destruct (begin =? 64 * q) eqn:Eb; [done|].
  cbn [negb]. rewrite test_res_single, highMask_ok by lia. cbn [rbind].
  by rewrite (mask_first Hbd), Z.quot_div_nonneg, (div_64 begin (q - 1)) by lia.
Qed.

Lemma test_last_word q p st :
  borders begin end_ q p -> q <= p ->
  (if negb (end_ =? 64 * p)
   then let! low := lowMask (end_ - 64 * p) in partial st (Z.quot (64 * p) 64) low
   else Ok (st, true))
  = test_res step st (if end_ =? 64 * p then [] else [p]).
Proof.
  intros Hbd Hp. pose proof Hbd as []. destruct (end_ =? 64 * p) eqn:Eb; [done|].
  cbn [negb]. rewrite test_res_single, lowMask_ok by lia. cbn [rbind].
  by rewrite (mask_last Hbd), quot_64 by lia.
Qed.

Lemma test_single_word q p st :
  borders begin end_ q p -> p < q ->
  (let! low := lowMask (end_ - 64 * p) in
   let! high := highMask (64 * q - begin) in
   partial st (Z.quot (64 * p) 64) (Z.land low high))
  = test_res step st (word_span begin end_).
Proof.
  intros Hbd Hp. pose proof Hbd as [].
  rewrite lowMask_ok, highMask_ok, (span_single Hbd), test_res_single by lia. cbn [rbind].
  by rewrite quot_64, (mask_single Hbd) by lia.
Qed.

(** [testWords] and [testWordsReverse] visit the words of the range upwards and
    downwards until the function returns false. *)
Lemma testWords_span st :
  testWords begin end_ partial full st = test_res step st (word_span begin end_).
Proof.
  unfold testWords. destruct (begin >=? end_) eqn:E.
  { unfold word_span. by replace (begin <? end_) with false by lia. }
  pose proof (borders_exist begin end_ ltac:(lia)) as Hbd.
  rewrite roundUp_64, land_lnot_63 by lia. cbn [rbind].
  set (q := (begin + 63) / 64) in *. set (p := end_ / 64) in *. clearbody q p.
  pose proof Hbd as []. destruct (64 * p <? 64 * q) eqn:Hpq.
  { apply (test_single_word q p); [done|lia]. }
  rewrite (test_first_word q p), (span_parts Hbd), test_res_app by (done || lia).
  apply rbind_ext. intros [st' []] _; cbn [fst snd negb]; [|done].
  rewrite word_fuel_64, test_up_loop, test_res_app, (test_full_words q p) by (done || lia).
  apply rbind_ext. intros [st'' []] _; cbn [fst snd negb]; [|done].
  by apply (test_last_word q p); [|lia].
Qed.

Lemma testWordsReverse_span st :
  testWordsReverse begin end_ partial full st
  = test_res step st (rev (word_span begin end_)).
Proof.
  unfold testWordsReverse. destruct (begin >=? end_) eqn:E.
  { unfold word_span. by replace (begin <? end_) with false by lia. }
  pose proof (borders_exist begin end_ ltac:(lia)) as Hbd.
  rewrite roundUp_64, land_lnot_63 by lia. cbn [rbind].
  set (q := (begin + 63) / 64) in *. set (p := end_ / 64) in *. clearbody q p.
  pose proof Hbd as []. destruct (64 * p <? 64 * q) eqn:Hpq.
  { rewrite (test_single_word q p) by (done || lia). by rewrite (span_single Hbd) by lia. }
  rewrite (test_last_word q p), (span_parts Hbd), !rev_app_distr, <- app_assoc, test_res_app
    by (done || lia).
  replace (rev (if end_ =? 64 * p then [] else [p])) with (if end_ =? 64 * p then [] else [p])
    by (by destruct (end_ =? 64 * p)).
  apply rbind_ext. intros [st' []] _; cbn [fst snd negb]; [|done].
  replace (64 * p - 64) with (64 * (p - 1)) by lia.
  rewrite word_fuel_64, test_down_loop, test_res_app by lia.
  rewrite (test_full_words q p)
    by (done || lia || (intros ?; rewrite !list_elem_of_In, <- in_rev; done)).
  apply rbind_ext. intros [st'' []] _; cbn [fst snd negb]; [|done].
  rewrite (test_first_word q p) by (done || lia).
  by destruct (begin =? 64 * q).
Qed.
End test.
End span.
