(* ===== verification/BitWords.v ===== *)
(** Operations on ranges of bits (bolt/common/base/BitUtil.h): filling, counting,
    visiting, combining and comparing the bits of a range, word by word, and
    the theorems that each does per bit what its name says. *)

From S2P Require Import Prelude BitUtil.

(** * Operations *)

(** [fillBits] *)
Definition fillBits (bits : buffer) (begin end_ : Z) (value : bool) : result buffer :=
  forEachWord begin end_
    (fun bits idx mask =>
       let! word := load_word bits idx in
       if value then store_word bits idx (Z.lor word (Z.land UINT64_MAX mask))
       else store_word bits idx (Z.land word (not64 mask)))
    (fun bits idx => store_word bits idx (if value then UINT64_MAX else 0))
    bits.

Definition countBits (bits : buffer) (begin end_ : Z) : result Z :=
  forEachWord begin end_
    (fun count idx mask =>
       let! word := load_word bits idx in
       ck32 (count + popcount (Z.land word mask)))
    (fun count idx =>
       let! word := load_word bits idx in
       ck32 (count + popcount word))
    0.

Definition isPowerOfTwo (size : Z) : result bool :=
  let! count := countBits (buffer_of [size]) 0 64 in
  Ok (count <=? 1).

(** [isSet ? word : ~word] *)
Definition select_word (isSet : bool) (word : Z) : Z := if isSet then word else not64 word.

(** A word has at most 64 bits; one more round sees that none is left. *)
Definition kWordFuel : nat := 65.

Section visit.
Context {T : Type}.

(** [while (word) { func(base + __builtin_ctzll(word)); word &= word - 1; }] *)
Fixpoint each_one (func : T -> Z -> result T) (base : Z) (fuel : nat) (word : Z) (st : T)
  : result T :=
  match fuel with
  | O => Err OutOfFuel
  | S fuel =>
      if word =? 0 then Ok st
      else
        let! st := func st (base + ctz word) in
        each_one func base fuel (Z.land word (word - 1)) st
  end.

(** The same loop with a function that can stop it. *)
Fixpoint test_ones (func : T -> Z -> result (T * bool)) (base : Z) (fuel : nat) (word : Z)
    (st : T) : result (T * bool) :=
  match fuel with
  | O => Err OutOfFuel
  | S fuel =>
      if word =? 0 then Ok (st, true)
      else
        let! r := func st (base + ctz word) in
        if snd r : bool then test_ones func base fuel (Z.land word (word - 1)) (fst r)
        else Ok (fst r, false)
  end.

(** The callable for a whole word: all rows at once when every bit is set. *)
Definition visit_full (func : T -> Z -> result T) (idx word : Z) (st : T) : result T :=
  if UINT64_MAX =? word then
    let start := Z.shiftl idx 6 in
    let end_ := start + 64 in
    let! r := for_res (fun row => Ok (row <? end_)) 1 func kWordFuel start st in
    Ok (snd r)
  else each_one func (Z.shiftl idx 6) kWordFuel word st.

Definition visit_partial (func : T -> Z -> result T) (idx word : Z) (st : T) : result T :=
  if word =? 0 then Ok st else each_one func (Z.shiftl idx 6) kWordFuel word st.

(** [forEachBit]; [bits] and [nulls] are not changed by [func]. *)
Definition forEachBit (bits : buffer) (begin end_ : Z) (isSet : bool)
    (func : T -> Z -> result T) (nulls : option buffer) (st : T) : result T :=
  match nulls with
  | None =>
      forEachWord begin end_
        (fun st idx mask =>
           let! word := load_word bits idx in
           visit_partial func idx (Z.land (select_word isSet word) mask) st)
        (fun st idx =>
           let! word := load_word bits idx in
           visit_full func idx (select_word isSet word) st)
        st
  | Some nulls =>
      forEachWord begin end_
        (fun st idx mask =>
           let! word := load_word bits idx in
           let! valid := load_word nulls idx in
           visit_partial func idx (Z.land (Z.land (select_word isSet word) mask) valid) st)
        (fun st idx =>
           let! word := load_word bits idx in
           let! valid := load_word nulls idx in
           visit_full func idx (Z.land (select_word isSet word) valid) st)
        st
  end.

Definition forEachSetBit (bits : buffer) (begin end_ : Z) (func : T -> Z -> result T)
    (nulls : option buffer) (st : T) : result T :=
  forEachBit bits begin end_ true func nulls st.

Definition forEachUnsetBit (bits : buffer) (begin end_ : Z) (func : T -> Z -> result T)
    (st : T) : result T :=
  forEachBit bits begin end_ false func None st.

Definition testBits (bits : buffer) (begin end_ : Z) (isSet : bool)
    (func : T -> Z -> result (T * bool)) (st : T) : result (T * bool) :=
  testWords begin end_
    (fun st idx mask =>
       let! word := load_word bits idx in
       let word := Z.land (select_word isSet word) mask in
       if word =? 0 then Ok (st, true) else test_ones func (idx * 64) kWordFuel word st)
    (fun st idx =>
       let! word := load_word bits idx in
       let word := select_word isSet word in
       if word =? 0 then Ok (st, true) else test_ones func (idx * 64) kWordFuel word st)
    st.

Definition testSetBits (bits : buffer) (begin end_ : Z) (func : T -> Z -> result (T * bool))
    (st : T) : result (T * bool) :=
  testBits bits begin end_ true func st.

Definition testUnsetBits (bits : buffer) (begin end_ : Z) (func : T -> Z -> result (T * bool))
    (st : T) : result (T * bool) :=
  testBits bits begin end_ false func st.
End visit.

(** A source operand: the target itself, or other memory that does not
    overlap it. *)
Inductive operand : Type :=
  | Target
  | Other (b : buffer).

Definition operand_buffer (target : buffer) (o : operand) : buffer :=
  match o with Target => target | Other b => b end.

Section combine.
Variable combine : Z -> Z -> Z.

(** [andRange] and [orRange] for a function of a word of each side. *)
Definition combineRange (target : buffer) (left right : operand) (begin end_ : Z)
  : result buffer :=
  forEachWord begin end_
    (fun target idx mask =>
       let! word := load_word target idx in
       let! l := load_word (operand_buffer target left) idx in
       let! r := load_word (operand_buffer target right) idx in
       store_word target idx (Z.lor (Z.land word (not64 mask)) (Z.land mask (combine l r))))
    (fun target idx =>
       let! l := load_word (operand_buffer target left) idx in
       let! r := load_word (operand_buffer target right) idx in
       store_word target idx (combine l r))
    target.
End combine.

Definition andRange (negate : bool) :=
  combineRange (fun l r => Z.land l (if negate then not64 r else r)).

Definition orRange (negate : bool) :=
  combineRange (fun l r => Z.lor l (if negate then not64 r else r)).

(** The overloads with three and with two buffers. *)
Definition andBits (target left right : buffer) := andRange false target (Other left) (Other right).
Definition andBits2 (target right : buffer) := andRange false target Target (Other right).
Definition andWithNegatedBits (target left right : buffer) :=
  andRange true target (Other left) (Other right).
Definition andWithNegatedBits2 (target right : buffer) := andRange true target Target (Other right).
Definition orBits (target left right : buffer) := orRange false target (Other left) (Other right).
Definition orBits2 (target right : buffer) := orRange false target Target (Other right).
Definition orWithNegatedBits (target left right : buffer) :=
  orRange true target (Other left) (Other right).
Definition orWithNegatedBits2 (target right : buffer) := orRange true target Target (Other right).

(** A test of words without state. *)
Definition test_pure (begin end_ : Z) (partial : Z -> Z -> result bool) (full : Z -> result bool)
  : result bool :=
  let! r := testWords begin end_
    (fun _ idx mask => let! b := partial idx mask in Ok (tt, b))
    (fun _ idx => let! b := full idx in Ok (tt, b)) tt in
  Ok (snd r).

Definition isSubset (sub super : buffer) (begin end_ : Z) : result bool :=
  test_pure begin end_
    (fun idx mask =>
       let! word := load_word sub idx in
       let subWord := Z.land word mask in
       let! superWord := load_word super idx in
       Ok (Z.land superWord subWord =? subWord))
    (fun idx =>
       let! subWord := load_word sub idx in
       let! superWord := load_word super idx in
       Ok (Z.land superWord subWord =? subWord)).

Definition hasIntersection (left right : buffer) (begin end_ : Z) : result bool :=
  if begin >=? end_ then Ok false
  else
    let! disjoint := test_pure begin end_
      (fun idx mask =>
         let! word := load_word left idx in
         let leftWord := Z.land word mask in
         let! rightWord := load_word right idx in
         Ok (Z.land rightWord leftWord =? 0))
      (fun idx =>
         let! leftWord := load_word left idx in
         let! rightWord := load_word right idx in
         Ok (Z.land rightWord leftWord =? 0)) in
    Ok (negb disjoint).

(** * The one bits of a word *)

Lemma ctz_double w : 0 < w -> ctz (2 * w) = 1 + ctz w.
Proof. destruct w; [lia|done|lia]. Qed.

Lemma ctz_odd w : 0 <= w -> ctz (2 * w + 1) = 0.
Proof. destruct w; [done|done|lia]. Qed.

Lemma positive_ind' (P : Z -> Prop) :
  (forall w, 0 <= w -> P (2 * w + 1)) -> (forall w, 0 < w -> P w -> P (2 * w)) ->
  forall w, 0 < w -> P w.
Proof.
  intros Hodd Heven [|p|p] Hw; [lia| |lia]. clear Hw. induction p as [p _|p IH|].
  - change (Z.pos p~1) with (2 * Z.pos p + 1). apply Hodd. lia.
  - change (Z.pos p~0) with (2 * Z.pos p). apply Heven; [lia|done].
  - apply (Hodd 0). lia.
Qed.

Lemma ctz_spec w :
  0 < w -> 0 <= ctz w /\ Z.testbit w (ctz w) = true
           /\ forall j, 0 <= j < ctz w -> Z.testbit w j = false.
Proof.
  revert w. apply positive_ind'.
  - intros w Hw. rewrite ctz_odd by done. split; [lia|]. split; [|lia].
    apply Z.testbit_odd_0.
  - intros w Hw (H0 & H1 & H2). rewrite ctz_double by done. split; [lia|].
    replace (1 + ctz w) with (Z.succ (ctz w)) by lia. split.
    + by rewrite Z.testbit_even_succ by lia.
    + intros j Hj. destruct (decide (j = 0)) as [->|]; [apply Z.testbit_even_0|].
      replace j with (Z.succ (j - 1)) by lia. rewrite Z.testbit_even_succ by lia.
      apply H2. lia.
Qed.

(** [word & (word - 1)] clears the lowest one bit. *)
Lemma clear_lowest w j :
  0 < w -> 0 <= j -> Z.testbit (Z.land w (w - 1)) j = Z.testbit w j && negb (j =? ctz w).
Proof.
  intros Hw. revert w Hw j. apply (positive_ind' (fun w => forall j, 0 <= j -> _)).
  - intros w Hw j Hj. rewrite ctz_odd by done. replace (2 * w + 1 - 1) with (2 * w) by lia.
    rewrite Z.land_spec. destruct (decide (j = 0)) as [->|].
    + by rewrite Z.testbit_even_0, andb_false_r, andb_false_r.
    + replace j with (Z.succ (j - 1)) by lia.
      rewrite Z.testbit_odd_succ, Z.testbit_even_succ by lia.
      replace (Z.succ (j - 1) =? 0) with false by zbool. by rewrite andb_diag, andb_true_r.
  - intros w Hw IH j Hj. rewrite ctz_double by done. rewrite Z.land_spec.
    destruct (decide (j = 0)) as [->|]; [by rewrite Z.testbit_even_0|].
    replace (2 * w - 1) with (2 * (w - 1) + 1) by lia.
    replace j with (Z.succ (j - 1)) by lia.
    rewrite Z.testbit_even_succ, Z.testbit_odd_succ by lia.
    rewrite <- Z.land_spec, IH by lia. f_equal. f_equal. apply eq_true_iff_eq. zbool.
Qed.

Lemma ctz_below w : 0 < w < 2 ^ 64 -> ctz w < 64.
Proof.
  intros Hw. destruct (ctz_spec w ltac:(lia)) as (H0 & H1 & _).
  destruct (decide (ctz w < 64)); [done|].
  rewrite (testbit_above 64) in H1 by lia. done.
Qed.

Lemma land_range_l n w v : 0 <= n -> 0 <= w < 2 ^ n -> 0 <= Z.land w v < 2 ^ n.
Proof.
  intros Hn Hw. rewrite <- (Z.mod_small w (2 ^ n)), <- Z.land_ones by lia.
  rewrite <- Z.land_assoc, (Z.land_comm (Z.ones n)), Z.land_assoc, Z.land_ones by lia.
  apply Z.mod_pos_bound. lia.
Qed.

Lemma filter_none {A} (f : A -> bool) l : (forall x, x ∈ l -> f x = false) -> List.filter f l = [].
Proof.
  induction l as [|x l IH]; intros H; simpl; [done|].
  rewrite H by set_solver. apply IH. set_solver.
Qed.

Lemma filter_all {A} (f : A -> bool) l : (forall x, x ∈ l -> f x = true) -> List.filter f l = l.
Proof.
  induction l as [|x l IH]; intros H; simpl; [done|].
  rewrite H by set_solver. f_equal. apply IH. set_solver.
Qed.

Lemma filter_ext {A} (f g : A -> bool) l :
  (forall x, x ∈ l -> f x = g x) -> List.filter f l = List.filter g l.
Proof. intros H. apply List.filter_ext_in. intros x Hx. apply H. by apply list_elem_of_In. Qed.

(** The one bits of a word are the lowest and those of the rest. *)
Lemma bits_of_step w :
  0 < w < 2 ^ 64 -> bits_of w = ctz w :: bits_of (Z.land w (w - 1)).
Proof.
  intros Hw. destruct (ctz_spec w ltac:(lia)) as (H0 & H1 & H2).
  pose proof (ctz_below w Hw). unfold bits_of.
  replace (seqZ 0 64) with (seqZ 0 (ctz w) ++ ctz w :: seqZ (ctz w + 1) (63 - ctz w)).
  - rewrite !List.filter_app. cbn [List.filter]. rewrite H1.
    rewrite clear_lowest, Z.eqb_refl, andb_false_r by lia.
    rewrite !(filter_none _ (seqZ 0 (ctz w))).
    + cbn [app]. f_equal. apply filter_ext. intros j [? ?]%elem_of_seqZ.
      rewrite clear_lowest by lia. replace (j =? ctz w) with false by lia.
      by rewrite andb_true_r.
    + intros j [? ?]%elem_of_seqZ. rewrite clear_lowest by lia. by rewrite H2 by lia.
    + intros j [? ?]%elem_of_seqZ. apply H2. lia.
  - replace 64 with (ctz w + (64 - ctz w)) by lia. rewrite (seqZ_app 0 (ctz w)) by lia.
    f_equal. rewrite Z.add_0_l, (seqZ_cons (ctz w) (64 - ctz w)) by lia.
    f_equal. f_equal; lia.
Qed.

Lemma bits_of_zero : bits_of 0 = [].
Proof. apply filter_none. intros. apply Z.bits_0. Qed.

Lemma bits_of_all : bits_of UINT64_MAX = seqZ 0 64.
Proof. reflexivity. Qed.

Lemma bits_of_length w : (length (bits_of w) <= 64)%nat.
Proof. unfold bits_of. etrans; [apply List.filter_length_le|]. done. Qed.

Lemma bits_of_filter w : bits_of w = List.filter (Z.testbit w) (seqZ 0 64).
Proof. reflexivity. Qed.

#[local] Opaque bits_of.

Lemma word_fuel_enough w : (length (bits_of w) < kWordFuel)%nat.
Proof. pose proof (bits_of_length w). unfold kWordFuel. lia. Qed.

(** The loops over the one bits, with enough fuel. *)
Lemma each_one_fuel {T} (func : T -> Z -> result T) base fuel word st :
  (length (bits_of word) < fuel)%nat -> 0 <= word < 2 ^ 64 ->
  each_one func base fuel word st
  = fold_res (fun st j => func st (base + j)) st (bits_of word).
Proof.
  revert word st. induction fuel as [|n IH]; intros word st Hl Hw; [lia|].
  cbn [each_one]. destruct (word =? 0) eqn:E.
  - replace word with 0 by lia. by rewrite bits_of_zero.
  - rewrite bits_of_step in Hl |- * by lia. cbn [fold_res]. apply rbind_ext. intros st' _.
    apply IH; [rewrite length_cons in Hl; lia|]. apply land_range_l; lia.
Qed.

Lemma test_ones_fuel {T} (func : T -> Z -> result (T * bool)) base fuel word st :
  (length (bits_of word) < fuel)%nat -> 0 <= word < 2 ^ 64 ->
  test_ones func base fuel word st
  = test_res (fun st j => func st (base + j)) st (bits_of word).
Proof.
  revert word st. induction fuel as [|n IH]; intros word st Hl Hw; [lia|].
  cbn [test_ones]. destruct (word =? 0) eqn:E.
  - replace word with 0 by lia. by rewrite bits_of_zero.
  - rewrite bits_of_step in Hl |- * by lia. cbn [test_res]. apply rbind_ext.
    intros [st' []] _; cbn [fst snd]; [|done].
    apply IH; [rewrite length_cons in Hl; lia|]. apply land_range_l; lia.
Qed.

(** * Ranges as lists of bits *)

(** The bits of one word. *)
Lemma block_bits (P : Z -> bool) a :
  map (Z.add (64 * a)) (List.filter (fun j => P (64 * a + j)) (seqZ 0 64))
  = List.filter P (seqZ (64 * a) 64).
Proof.
  pose proof (fmap_add_seqZ (64 * a) 0 64) as Hs. rewrite Z.add_0_r in Hs.
  rewrite <- Hs. clear Hs. generalize (seqZ 0 64) as l.
  induction l as [|x l IH]; simpl; [done|]. destruct (P (64 * a + x)); simpl; by rewrite IH.
Qed.

(** The bits of a range, word by word. *)
Lemma span_blocks (P : Z -> bool) a n :
  0 <= n ->
  flat_map (fun idx => map (Z.add (64 * idx)) (List.filter (fun j => P (64 * idx + j)) (seqZ 0 64)))
    (seqZ a n)
  = List.filter P (seqZ (64 * a) (64 * n)).
Proof.
  intros Hn. rewrite <- (Z2Nat.id n) by done. generalize (Z.to_nat n) as m. clear n Hn.
  intros m. revert a. induction m as [|m IH]; intros a.
  - by rewrite (seqZ_nil a), (seqZ_nil (64 * a)) by lia.
  - rewrite (seqZ_cons a) by lia. replace (Z.pred (Z.of_nat (S m))) with (Z.of_nat m) by lia.
    cbn [flat_map]. rewrite IH.
    replace (64 * Z.of_nat (S m)) with (64 + 64 * Z.of_nat m) by lia.
    rewrite (seqZ_app (64 * a) 64) by lia. rewrite List.filter_app.
    replace (64 * Z.succ a) with (64 * a + 64) by lia. f_equal. apply block_bits.
Qed.

Lemma span_filter (P : Z -> bool) begin end_ :
  0 <= begin ->
  flat_map (fun idx => map (Z.add (64 * idx))
      (List.filter (fun j => (begin <=? 64 * idx + j) && (64 * idx + j <? end_) && P (64 * idx + j))
         (seqZ 0 64))) (word_span begin end_)
  = List.filter P (seqZ begin (end_ - begin)).
Proof.
  intros Hb. unfold word_span. destruct (begin <? end_) eqn:E; [|by rewrite (seqZ_nil begin) by lia].
  pose proof (Z.div_mod begin 64). pose proof (Z.mod_pos_bound begin 64).
  pose proof (Z.div_mod (end_ - 1) 64). pose proof (Z.mod_pos_bound (end_ - 1) 64).
  set (f := begin / 64) in *. set (l := (end_ - 1) / 64) in *.
  rewrite (span_blocks (fun i => (begin <=? i) && (i <? end_) && P i)) by lia.
  replace (64 * (l - f + 1))
    with ((begin - 64 * f) + ((end_ - begin) + (64 * l + 64 - end_))) by lia.
  rewrite (seqZ_app (64 * f) (begin - 64 * f)), seqZ_app, !List.filter_app by lia.
  rewrite filter_none, (filter_none _ (seqZ (64 * f + _ + _) _)), app_nil_r.
  - cbn [app]. replace (64 * f + (begin - 64 * f)) with begin by lia.
    apply filter_ext. intros i [? ?]%elem_of_seqZ.
    by replace ((begin <=? i) && (i <? end_)) with true by zbool.
  - intros i [? ?]%elem_of_seqZ. by replace ((begin <=? i) && (i <? end_)) with false by zbool.
  - intros i [? ?]%elem_of_seqZ. by replace ((begin <=? i) && (i <? end_)) with false by zbool.
Qed.

(** The same for words [w idx] whose bits are those of [P]. *)
Lemma span_bits (w : Z -> Z) (P : Z -> bool) begin end_ :
  0 <= begin ->
  (forall idx j, idx ∈ word_span begin end_ -> 0 <= j < 64 ->
     Z.testbit (w idx) j = P (64 * idx + j)) ->
  flat_map (fun idx => map (Z.add (64 * idx)) (bits_of (Z.land (w idx) (range_mask begin end_ idx))))
    (word_span begin end_)
  = List.filter P (seqZ begin (end_ - begin)).
Proof.
  intros Hb Hw. rewrite <- span_filter by done. rewrite !flat_map_concat_map.
  f_equal. apply map_ext_in. intros idx Hin%list_elem_of_In. f_equal. rewrite bits_of_filter.
  apply filter_ext. intros j [? ?]%elem_of_seqZ.
  pose proof (proj1 (word_span_elem begin end_ idx Hb) Hin).
  rewrite masked_bits, (Hw idx j) by (done || lia).
  replace ((0 <=? j) && (j <? 64)) with true by zbool. cbn [andb]. apply andb_comm.
Qed.

(** * Words under the operators *)

Lemma not64_range x : 0 <= x < 2 ^ 64 -> 0 <= not64 x < 2 ^ 64.
Proof.
  intros Hx. assert (0 <= not64 x) by (apply Z.lxor_nonneg; lia). split; [done|].
  apply below_bits; [lia|done|]. intros i Hi. unfold not64.
  by rewrite Z.lxor_spec, (testbit_above 64 x), (testbit_above 64 UINT64_MAX) by (done || lia).
Qed.

Lemma not64_bits x j : 0 <= j < 64 -> Z.testbit (not64 x) j = negb (Z.testbit x j).
Proof.
  intros Hj. unfold not64. change UINT64_MAX with (Z.ones 64).
  rewrite Z.lxor_spec, Z.testbit_ones by lia.
  replace ((0 <=? j) && (j <? 64)) with true by zbool. apply xorb_true_r.
Qed.

Lemma not64_high x j : 64 <= j -> Z.testbit (not64 x) j = Z.testbit x j.
Proof.
  intros Hj. unfold not64. rewrite Z.lxor_spec, (testbit_above 64 UINT64_MAX) by lia.
  apply xorb_false_r.
Qed.

Lemma select_word_range isSet x : 0 <= x < 2 ^ 64 -> 0 <= select_word isSet x < 2 ^ 64.
Proof. destruct isSet; [done|]. apply not64_range. Qed.

Lemma select_word_bits isSet x j :
  0 <= j < 64 -> Z.testbit (select_word isSet x) j = Bool.eqb (Z.testbit x j) isSet.
Proof.
  intros Hj. destruct isSet; simpl; [by destruct (Z.testbit x j)|].
  rewrite not64_bits by done. by destruct (Z.testbit x j).
Qed.

Lemma land_all w : 0 <= w < 2 ^ 64 -> Z.land w UINT64_MAX = w.
Proof.
  intros Hw. change UINT64_MAX with (Z.ones 64). rewrite Z.land_ones by lia.
  by apply Z.mod_small.
Qed.

Lemma load_word_range b idx w : load_word b idx = Ok w -> 0 <= w < 2 ^ 64.
Proof.
  unfold load_word, load. destruct (in_buffer _ _ _); [|done]. intros [= <-].
  change (8 * 8) with 64. rewrite Z.land_ones by lia. apply Z.mod_pos_bound. lia.
Qed.

Lemma word_bit b idx j :
  0 <= idx -> 0 <= j < 64 -> Z.testbit (word b idx) j = bit b (64 * idx + j).
Proof.
  intros Hi Hj. rewrite word_bits by done.
  by replace ((0 <=? j) && (j <? 64)) with true by zbool.
Qed.

Lemma span_load b begin end_ idx :
  0 <= begin -> has_words b end_ -> idx ∈ word_span begin end_ ->
  load_word b idx = Ok (word b idx).
Proof.
  intros Hb Hw Hin. apply word_span_elem in Hin; [|done].
  apply load_word_ok; [lia|]. eapply has_words_lt; [done|lia|lia].
Qed.

(** * Visiting bits *)

Section visit_words.
Context {T : Type}.

Lemma visit_partial_ok (func : T -> Z -> result T) idx w st :
  0 <= w < 2 ^ 64 ->
  visit_partial func idx w st = fold_res func st (map (Z.add (64 * idx)) (bits_of w)).
Proof.
  intros Hw. unfold visit_partial. rewrite fold_res_map.
  destruct (w =? 0) eqn:E.
  - replace w with 0 by lia. by rewrite bits_of_zero.
  - rewrite each_one_fuel by (done || apply word_fuel_enough).
    apply fold_res_ext. intros acc j _. f_equal. rewrite Z.shiftl_mul_pow2 by lia. lia.
Qed.

Lemma visit_full_ok (func : T -> Z -> result T) idx w st :
  0 <= w < 2 ^ 64 ->
  visit_full func idx w st = fold_res func st (map (Z.add (64 * idx)) (bits_of w)).
Proof.
  intros Hw. unfold visit_full. destruct (UINT64_MAX =? w) eqn:E.
  - replace w with UINT64_MAX by lia. rewrite bits_of_all, Z.shiftl_mul_pow2 by lia.
    change (2 ^ 6) with 64. cbv zeta. rewrite (for_res_seq _ _ _ _ 64).
    + rewrite rbind_assoc. cbn [rbind snd]. rewrite rbind_Ok_r, !fold_res_map.
      apply fold_res_ext. intros acc j _. f_equal. lia.
    + unfold kWordFuel. lia.
    + intros k Hk. f_equal. lia.
    + f_equal. apply Z.ltb_ge. lia.
  - rewrite <- visit_partial_ok by done. unfold visit_partial.
    destruct (w =? 0) eqn:E0; [|done]. by replace w with 0 by lia.
Qed.

(** Whether a null mask, if there is one, has the bit. *)
Definition valid (nulls : option buffer) (i : Z) : bool :=
  match nulls with None => true | Some nulls => bit nulls i end.

Definition has_nulls (nulls : option buffer) (end_ : Z) : Prop :=
  match nulls with None => True | Some nulls => has_words nulls end_ end.

(** [forEachBit] is a loop over the bits of the range that have the value. *)
Lemma forEachBit_fold bits begin end_ isSet (func : T -> Z -> result T) nulls st :
  0 <= begin -> end_ <= INT32_MAX - 64 -> has_words bits end_ -> has_nulls nulls end_ ->
  forEachBit bits begin end_ isSet func nulls st
  = fold_res func st
      (List.filter (fun i => Bool.eqb (bit bits i) isSet && valid nulls i)
         (seqZ begin (end_ - begin))).
Proof.
  intros Hb He Hw Hn. unfold forEachBit. destruct nulls as [nulls|]; simpl in Hn.
  - rewrite forEachWord_span; [|done|].
    + rewrite <- (span_bits (fun idx => Z.land (select_word isSet (word bits idx)) (word nulls idx))).
      * rewrite <- fold_res_flat_map. apply fold_res_ext. intros acc idx Hin.
        rewrite !(span_load _ begin end_) by done. cbn [rbind].
        rewrite <- Z.land_assoc, (Z.land_comm (range_mask _ _ _)), Z.land_assoc.
        apply visit_partial_ok. do 2 (apply land_range_l; [lia|]).
        apply select_word_range, word_range.
      * done.
      * intros idx j Hin Hj. apply word_span_elem in Hin; [|done].
        by rewrite Z.land_spec, select_word_bits, !word_bit by lia.
    + intros st' idx _. destruct (load_word bits idx) as [w|] eqn:Ew; [|done].
      cbn [rbind]. destruct (load_word nulls idx) as [v|] eqn:Ev; [|done]. cbn [rbind].
      apply load_word_range in Ew. pose proof (select_word_range isSet w Ew).
      rewrite (land_all (select_word isSet w)) by done.
      rewrite visit_full_ok, visit_partial_ok; [done|by apply land_range_l..].
  - rewrite forEachWord_span; [|done|].
    + rewrite <- (span_bits (fun idx => select_word isSet (word bits idx))).
      * rewrite <- fold_res_flat_map. apply fold_res_ext. intros acc idx Hin.
        rewrite !(span_load _ begin end_) by done. cbn [rbind].
        apply visit_partial_ok. apply land_range_l; [lia|].
        apply select_word_range, word_range.
      * done.
      * intros idx j Hin Hj. apply word_span_elem in Hin; [|done].
        by rewrite select_word_bits, !word_bit, andb_true_r by lia.
    + intros st' idx _. destruct (load_word bits idx) as [w|] eqn:Ew; [|done].
      cbn [rbind]. apply load_word_range in Ew. pose proof (select_word_range isSet w Ew).
      by rewrite land_all, visit_full_ok, visit_partial_ok by done.
Qed.

Lemma testBits_fold bits begin end_ isSet (func : T -> Z -> result (T * bool)) st :
  0 <= begin -> end_ <= INT32_MAX - 64 -> has_words bits end_ ->
  testBits bits begin end_ isSet func st
  = test_res func st
      (List.filter (fun i => Bool.eqb (bit bits i) isSet) (seqZ begin (end_ - begin))).
Proof.
  intros Hb He Hw. unfold testBits. rewrite testWords_span; [|done|].
  - rewrite <- (span_bits (fun idx => select_word isSet (word bits idx))).
    + rewrite <- test_res_flat_map. apply test_res_ext. intros acc idx Hin.
      rewrite (span_load _ begin end_) by done. cbn [rbind]. rewrite test_res_map.
      assert (0 <= Z.land (select_word isSet (word bits idx)) (range_mask begin end_ idx) < 2 ^ 64)
        by (apply land_range_l; [lia|]; apply select_word_range, word_range).
      destruct (Z.land _ _ =? 0) eqn:E.
      * replace (Z.land _ _) with 0 by lia. by rewrite bits_of_zero.
      * rewrite test_ones_fuel by (done || apply word_fuel_enough).
        by replace (idx * 64) with (64 * idx) by lia.
    + done.
    + intros idx j Hin Hj. apply word_span_elem in Hin; [|done].
      by rewrite select_word_bits, word_bit by lia.
  - intros st' idx _. destruct (load_word bits idx) as [w|] eqn:Ew; [|done].
    cbn [rbind]. apply load_word_range in Ew. pose proof (select_word_range isSet w Ew).
    by rewrite land_all.
Qed.
End visit_words.

(** * Counting *)

Lemma count_loop (g : Z -> list Z) l c :
  0 <= c -> c + Z.of_nat (length (flat_map g l)) <= INT32_MAX ->
  fold_res (fun c idx => ck32 (c + Z.of_nat (length (g idx)))) c l
  = Ok (c + Z.of_nat (length (flat_map g l))).
Proof.
  revert c. induction l as [|x l IH]; intros c Hc Hl; cbn [fold_res flat_map].
  - f_equal. simpl. lia.
  - cbn [flat_map] in Hl. rewrite length_app, Nat2Z.inj_add in *.
    rewrite ck32_in by lia. cbn [rbind]. rewrite IH by lia. f_equal. lia.
Qed.

Lemma filter_length_seqZ (P : Z -> bool) a n :
  0 <= n -> Z.of_nat (length (List.filter P (seqZ a n))) <= n.
Proof.
  intros Hn. pose proof (List.filter_length_le P (seqZ a n)). rewrite length_seqZ in *. lia.
Qed.

Lemma countBits_count bits begin end_ :
  0 <= begin -> end_ <= INT32_MAX - 64 -> has_words bits end_ ->
  countBits bits begin end_
  = Ok (Z.of_nat (length (List.filter (bit bits) (seqZ begin (end_ - begin))))).
Proof.
  intros Hb He Hw. unfold countBits. rewrite forEachWord_span; [|done|].
  - rewrite <- (span_bits (word bits)).
    + set (g := fun idx => map (Z.add (64 * idx))
                 (bits_of (Z.land (word bits idx) (range_mask begin end_ idx)))).
      rewrite <- (Z.add_0_l (Z.of_nat _)), <- count_loop; [|done|].
      * apply fold_res_ext. intros c idx Hin. rewrite (span_load _ begin end_) by done.
        cbn [rbind]. unfold g, popcount. by rewrite length_map.
      * unfold g. rewrite (span_bits _ (bit bits)); [|done|].
        -- destruct (decide (begin <= end_)).
           ++ pose proof (filter_length_seqZ (bit bits) begin (end_ - begin)). lia.
           ++ rewrite seqZ_nil by lia. simpl. lia.
        -- intros idx j Hin Hj. apply word_span_elem in Hin; [|done]. apply word_bit; lia.
    + done.
    + intros idx j Hin Hj. apply word_span_elem in Hin; [|done]. apply word_bit; lia.
  - intros c idx _. destruct (load_word bits idx) as [w|] eqn:Ew; [|done].
    cbn [rbind]. apply load_word_range in Ew. by rewrite land_all.
Qed.

(** * Writing a range *)

Section update.
Variables (begin end_ : Z) (P : Z -> bool) (b0 : buffer).
Hypothesis Hbegin : 0 <= begin.
Variable f : buffer -> Z -> result buffer.

Definition new_bit (i : Z) : bool :=
  if (begin <=? i) && (i <? end_) then P i else bit b0 i.

Hypothesis Hstep : forall b idx,
  buf_bytes b = buf_bytes b0 -> idx ∈ word_span begin end_ ->
  (forall j, 0 <= j < 64 -> bit b (64 * idx + j) = bit b0 (64 * idx + j)) ->
  exists v, f b idx = Ok (set_word b idx v)
    /\ forall j, 0 <= j < 64 -> Z.testbit v j = new_bit (64 * idx + j).

Lemma update_words n a b :
  0 <= a -> 0 <= n -> (forall idx, a <= idx < a + n -> idx ∈ word_span begin end_) ->
  buf_bytes b = buf_bytes b0 ->
  (forall i, bit b i = if i <? 64 * a then new_bit i else bit b0 i) ->
  exists b', fold_res f b (seqZ a n) = Ok b' /\ buf_bytes b' = buf_bytes b0
    /\ forall i, bit b' i = if i <? 64 * (a + n) then new_bit i else bit b0 i.
Proof.
  intros Ha Hn. rewrite <- (Z2Nat.id n) by done. generalize (Z.to_nat n) as m. clear n Hn.
  intros m. revert a b Ha. induction m as [|m IH]; intros a b Ha Hin Hb Hbits.
  - rewrite seqZ_nil by lia. exists b. split; [done|]. split; [done|].
    by replace (a + Z.of_nat 0) with a by lia.
  - rewrite seqZ_cons by lia. replace (Z.pred (Z.of_nat (S m))) with (Z.of_nat m) by lia.
    cbn [fold_res].
    destruct (Hstep b a) as (v & -> & Hv); [done|apply Hin; lia| |].
    { intros j Hj. rewrite Hbits. by replace (64 * a + j <? 64 * a) with false by zbool. }
    cbn [rbind]. destruct (IH (Z.succ a) (set_word b a v)) as (b' & -> & Hb' & Hbits');
      [lia|intros; apply Hin; lia|done| |].
    + intros i. rewrite set_word_bits by done.
      destruct ((64 * a <=? i) && (i <? 64 * a + 64)) eqn:E.
      * replace (i <? 64 * Z.succ a) with true by zbool.
        rewrite Hv by zbool. f_equal. lia.
      * rewrite Hbits. destruct (i <? 64 * a) eqn:E'.
        -- by replace (i <? 64 * Z.succ a) with true by zbool.
        -- by replace (i <? 64 * Z.succ a) with false by zbool.
    + exists b'. split; [done|]. split; [done|]. intros i. rewrite Hbits'.
      by replace (Z.succ a + Z.of_nat m) with (a + Z.of_nat (S m)) by lia.
Qed.

Lemma update_range :
  exists b', fold_res f b0 (word_span begin end_) = Ok b' /\ buf_bytes b' = buf_bytes b0
    /\ forall i, bit b' i = new_bit i.
Proof.
  destruct (decide (begin < end_)) as [Hlt|Hge].
  - unfold word_span. replace (begin <? end_) with true by lia.
    pose proof (Z.div_mod begin 64). pose proof (Z.mod_pos_bound begin 64).
    pose proof (Z.div_mod (end_ - 1) 64). pose proof (Z.mod_pos_bound (end_ - 1) 64).
    destruct (update_words ((end_ - 1) / 64 - begin / 64 + 1) (begin / 64) b0)
      as (b' & Hb' & Hbytes & Hbits).
    + lia.
    + lia.
    + intros idx Hidx. apply word_span_elem; lia.
    + done.
    + intros i. destruct (i <? 64 * (begin / 64)) eqn:E; [|done]. unfold new_bit.
      by replace (begin <=? i) with false by lia.
    + exists b'. split; [done|]. split; [done|]. intros i. rewrite Hbits.
      destruct (i <? _) eqn:E; [done|]. unfold new_bit.
      replace (i <? end_) with false by lia. by rewrite andb_false_r.
  - unfold word_span. replace (begin <? end_) with false by lia. exists b0.
    split; [done|]. split; [done|]. intros i. unfold new_bit.
    by replace ((begin <=? i) && (i <? end_)) with false by zbool.
Qed.
End update.

Lemma store_word_ext b idx v v' :
  (forall j, 0 <= j < 64 -> Z.testbit v j = Z.testbit v' j) ->
  store_word b idx v = store_word b idx v'.
Proof.
  intros H. unfold store_word, store. change (8 * 8) with 64.
  assert (Z.land v (Z.ones 64) = Z.land v' (Z.ones 64)) as ->; [|done].
  apply Z.bits_inj'. intros j Hj. rewrite !Z.land_spec, Z.testbit_ones by lia.
  destruct ((0 <=? j) && (j <? 64)) eqn:E; [|by rewrite !andb_false_r].
  by rewrite H by zbool.
Qed.

(** The store of a word succeeds where its load does. *)
Lemma load_store_word b idx v w :
  load_word b idx = Err w -> store_word b idx v = Err BadAccess /\ w = BadAccess.
Proof.
  unfold load_word, store_word, load, store. by destruct (in_buffer _ _ _); [|intros [= <-]].
Qed.

Lemma load_word_err b idx e : load_word b idx = Err e -> e = BadAccess.
Proof. unfold load_word, load. by destruct (in_buffer _ _ _); [|intros [= <-]]. Qed.

Lemma masked_bit begin end_ idx j :
  0 <= begin -> idx ∈ word_span begin end_ -> 0 <= j < 64 ->
  Z.testbit (range_mask begin end_ idx) j
  = (begin <=? 64 * idx + j) && (64 * idx + j <? end_).
Proof.
  intros Hb Hin Hj. apply word_span_elem in Hin; [|done]. rewrite range_mask_bits by lia.
  by replace ((0 <=? j) && (j <? 64)) with true by zbool.
Qed.

Lemma word_same b b' idx j :
  0 <= idx -> 0 <= j < 64 ->
  (forall j, 0 <= j < 64 -> bit b (64 * idx + j) = bit b' (64 * idx + j)) ->
  Z.testbit (word b idx) j = bit b' (64 * idx + j).
Proof. intros Hi Hj H. rewrite word_bit by done. by apply H. Qed.

Lemma testbit_all_64 j : 0 <= j < 64 -> Z.testbit UINT64_MAX j = true.
Proof.
  intros Hj. change UINT64_MAX with (Z.ones 64). rewrite Z.testbit_ones by lia. zbool.
Qed.

Lemma fillBits_bits bits begin end_ value :
  0 <= begin -> end_ <= INT32_MAX - 64 -> has_words bits end_ ->
  exists bits', fillBits bits begin end_ value = Ok bits' /\ buf_bytes bits' = buf_bytes bits
    /\ forall i, bit bits' i = if (begin <=? i) && (i <? end_) then value else bit bits i.
Proof.
  intros Hb He Hw. unfold fillBits. rewrite forEachWord_span; [|done|].
  - apply (update_range begin end_ (fun _ => value) bits Hb).
    intros b idx Hbytes Hin Hsame. pose proof (proj1 (word_span_elem _ _ _ Hb) Hin).
    assert (has_words b end_) as Hwb by (unfold has_words in *; by rewrite Hbytes).
    assert (8 * idx + 8 <= buf_bytes b) by (eapply has_words_lt; [done|lia|lia]).
    rewrite load_word_ok by lia. cbn [rbind]. unfold new_bit. destruct value.
    + rewrite store_word_ok by lia. eexists. split; [done|]. intros j Hj.
      rewrite Z.lor_spec, Z.land_spec, (masked_bit begin end_) by done.
      rewrite (word_same b bits) by (done || lia).
      rewrite testbit_all_64 by done. cbn [andb].
      destruct ((begin <=? _) && _); [apply orb_true_r|apply orb_false_r].
    + rewrite store_word_ok by lia. eexists. split; [done|]. intros j Hj.
      rewrite Z.land_spec, not64_bits, (masked_bit begin end_) by done.
      rewrite (word_same b bits) by (done || lia).
      destruct ((begin <=? _) && _); [apply andb_false_r|apply andb_true_r].
  - intros b idx _. destruct (load_word b idx) as [w|e] eqn:Ew; cbn [rbind].
    + apply load_word_range in Ew. destruct value; apply store_word_ext; intros j Hj.
      * by rewrite Z.lor_spec, Z.land_spec, testbit_all_64, orb_true_r by done.
      * by rewrite Z.land_spec, not64_bits, Z.bits_0, (testbit_all_64 j), andb_false_r by done.
    + destruct (load_store_word b idx (if value then UINT64_MAX else 0) e Ew) as [-> ->]. done.
Qed.

Section combine_bits.
Variables (combine : Z -> Z -> Z) (op : bool -> bool -> bool).
Hypothesis Hop : forall l r j, 0 <= j < 64 ->
  Z.testbit (combine l r) j = op (Z.testbit l j) (Z.testbit r j).

Lemma operand_same target b o idx :
  (forall j, 0 <= j < 64 -> bit b (64 * idx + j) = bit target (64 * idx + j)) ->
  0 <= idx -> forall j, 0 <= j < 64 ->
  Z.testbit (word (operand_buffer b o) idx) j = bit (operand_buffer target o) (64 * idx + j).
Proof.
  intros Hs Hi j Hj. destruct o; simpl; [by apply word_same|by apply word_bit].
Qed.

Lemma combineRange_bits target left right begin end_ :
  0 <= begin -> end_ <= INT32_MAX - 64 -> has_words target end_ ->
  has_words (operand_buffer target left) end_ -> has_words (operand_buffer target right) end_ ->
  exists target', combineRange combine target left right begin end_ = Ok target'
    /\ buf_bytes target' = buf_bytes target
    /\ forall i, bit target' i
       = if (begin <=? i) && (i <? end_)
         then op (bit (operand_buffer target left) i) (bit (operand_buffer target right) i)
         else bit target i.
Proof.
  intros Hb He Hw Hl Hr. unfold combineRange. rewrite forEachWord_span; [|done|].
  - apply (update_range begin end_ (fun i => op (bit (operand_buffer target left) i)
      (bit (operand_buffer target right) i)) target Hb).
    intros b idx Hbytes Hin Hsame. pose proof (proj1 (word_span_elem _ _ _ Hb) Hin).
    assert (forall o, has_words (operand_buffer target o) end_ ->
              load_word (operand_buffer b o) idx = Ok (word (operand_buffer b o) idx)) as Hload.
    { intros o Ho. apply (span_load _ begin end_); [done| |done].
      destruct o; [|done]. unfold has_words in *. simpl in *. by rewrite Hbytes. }
    rewrite (Hload Target Hw : load_word b idx = _), (Hload left Hl), (Hload right Hr).
    cbn [rbind]. rewrite store_word_ok.
    + eexists. split; [done|]. intros j Hj.
      rewrite Z.lor_spec, !Z.land_spec, not64_bits, Hop, (masked_bit begin end_) by done.
      rewrite (operand_same target b Target), (operand_same target b left),
        (operand_same target b right) by (done || lia).
      unfold new_bit. simpl operand_buffer at 1.
      destruct ((begin <=? _) && _); simpl; [by rewrite andb_false_r|].
      by rewrite andb_true_r, orb_false_r.
    + lia.
    + rewrite Hbytes. eapply has_words_lt; [done|lia|lia].
  - intros b idx _. destruct (load_word b idx) as [w|e] eqn:Ew; cbn [rbind].
    + apply rbind_ext. intros l _. apply rbind_ext. intros r _. apply store_word_ext.
      intros j Hj. rewrite Z.lor_spec, !Z.land_spec, not64_bits, (testbit_all_64 j) by done.
      by rewrite andb_false_r.
    + destruct (load_word (operand_buffer b left) idx) as [l|e'] eqn:El; cbn [rbind].
      * destruct (load_word (operand_buffer b right) idx) as [r|e''] eqn:Er; cbn [rbind].
        -- by destruct (load_store_word b idx (combine l r) e Ew) as [-> ->].
        -- apply load_word_err in Ew, Er. by subst.
      * apply load_word_err in Ew, El. by subst.
Qed.
End combine_bits.

(** The operators bit by bit. *)
Lemma and_bits l r j : 0 <= j < 64 -> Z.testbit (Z.land l r) j = Z.testbit l j && Z.testbit r j.
Proof. intros _. apply Z.land_spec. Qed.

Lemma and_not_bits l r j :
  0 <= j < 64 -> Z.testbit (Z.land l (not64 r)) j = Z.testbit l j && negb (Z.testbit r j).
Proof. intros Hj. by rewrite Z.land_spec, not64_bits. Qed.

Lemma or_bits l r j : 0 <= j < 64 -> Z.testbit (Z.lor l r) j = Z.testbit l j || Z.testbit r j.
Proof. intros _. apply Z.lor_spec. Qed.

Lemma or_not_bits l r j :
  0 <= j < 64 -> Z.testbit (Z.lor l (not64 r)) j = Z.testbit l j || negb (Z.testbit r j).
Proof. intros Hj. by rewrite Z.lor_spec, not64_bits. Qed.

(** * Comparing ranges *)

Lemma test_pure_span begin end_ partial full (q : Z -> bool) :
  0 <= begin -> end_ <= INT32_MAX - 64 ->
  (forall idx, 0 <= idx -> full idx = partial idx UINT64_MAX) ->
  (forall idx, idx ∈ word_span begin end_ -> partial idx (range_mask begin end_ idx) = Ok (q idx)) ->
  test_pure begin end_ partial full = Ok (forallb q (word_span begin end_)).
Proof.
  intros Hb He Hfull Hq. unfold test_pure. rewrite testWords_span; [|done|].
  - rewrite (test_res_pure _ q); [done|]. intros [] idx Hin. by rewrite Hq.
  - intros _ idx Hi. by rewrite Hfull.
Qed.

Lemma forallb_span (q : Z -> bool) (P : Z -> Prop) begin end_ :
  0 <= begin ->
  (forall idx, idx ∈ word_span begin end_ ->
     q idx = true <-> forall j, 0 <= j < 64 -> begin <= 64 * idx + j < end_ -> P (64 * idx + j)) ->
  forallb q (word_span begin end_) = true <-> forall i, begin <= i < end_ -> P i.
Proof.
  intros Hb Hq. rewrite forallb_forall. split.
  - intros H i Hi. pose proof (Z.div_mod i 64). pose proof (Z.mod_pos_bound i 64).
    assert (i / 64 ∈ word_span begin end_) as Hin by (apply word_span_elem; lia).
    specialize (H (i / 64) ltac:(by apply list_elem_of_In)).
    replace i with (64 * (i / 64) + i mod 64) by lia. apply (Hq _ Hin); [done|lia|lia].
  - intros H idx Hin%list_elem_of_In. apply (Hq _ Hin). intros j _ Hj. by apply H.
Qed.

(** Words agree where their bits do. *)
Lemma masked_eqb x y idx begin end_ :
  0 <= begin -> idx ∈ word_span begin end_ ->
  (Z.land x (range_mask begin end_ idx) =? Z.land y (range_mask begin end_ idx)) = true
  <-> forall j, 0 <= j < 64 -> begin <= 64 * idx + j < end_ -> Z.testbit x j = Z.testbit y j.
Proof.
  intros Hb Hin. pose proof (proj1 (word_span_elem _ _ _ Hb) Hin). rewrite Z.eqb_eq. split.
  - intros Heq j Hj Hr. assert (Z.testbit (Z.land x (range_mask begin end_ idx)) j
      = Z.testbit (Z.land y (range_mask begin end_ idx)) j) as Hb' by (by rewrite Heq).
    rewrite !Z.land_spec, (masked_bit begin end_) in Hb' by done.
    replace ((begin <=? _) && _) with true in Hb' by zbool. by rewrite !andb_true_r in Hb'.
  - intros Hbits. apply Z.bits_inj'. intros j Hj. rewrite !masked_bits by lia.
    destruct ((0 <=? j) && (j <? 64) && (begin <=? 64 * idx + j) && (64 * idx + j <? end_)) eqn:E;
      [|by rewrite !andb_false_r]. by rewrite Hbits by zbool.
Qed.

Lemma isSubset_bits sub super begin end_ :
  0 <= begin -> end_ <= INT32_MAX - 64 -> has_words sub end_ -> has_words super end_ ->
  exists r, isSubset sub super begin end_ = Ok r
    /\ (r = true <-> forall i, begin <= i < end_ -> bit sub i = true -> bit super i = true).
Proof.
  intros Hb He Hw Hw'. unfold isSubset. eexists. split.
  - apply (test_pure_span begin end_ _ _ (fun idx =>
      Z.land (Z.land (word super idx) (word sub idx)) (range_mask begin end_ idx)
      =? Z.land (word sub idx) (range_mask begin end_ idx))); [done|done| |].
    + intros idx _. destruct (load_word sub idx) as [w|] eqn:Ew; [|done]. cbn [rbind].
      apply load_word_range in Ew. by rewrite land_all.
    + intros idx Hin. rewrite !(span_load _ begin end_) by done. cbn [rbind].
      by rewrite Z.land_assoc.
  - apply forallb_span; [done|]. intros idx Hin. rewrite masked_eqb by done.
    pose proof (proj1 (word_span_elem _ _ _ Hb) Hin). split; intros H' j Hj Hr.
    + specialize (H' j Hj Hr). rewrite Z.land_spec, !word_bit in H' by lia.
      intros Hs. rewrite Hs, andb_true_r in H'. done.
    + specialize (H' j Hj Hr). rewrite Z.land_spec, !word_bit by lia.
      destruct (bit sub _); [by rewrite H'|apply andb_false_r].
Qed.

Lemma hasIntersection_bits left right begin end_ :
  0 <= begin -> end_ <= INT32_MAX - 64 -> has_words left end_ -> has_words right end_ ->
  exists r, hasIntersection left right begin end_ = Ok r
    /\ (r = true <-> exists i, begin <= i < end_ /\ bit left i = true /\ bit right i = true).
Proof.
  intros Hb He Hw Hw'. unfold hasIntersection. destruct (begin >=? end_) eqn:E.
  { exists false. split; [done|]. split; [done|]. intros (i & Hi & _). lia. }
  erewrite (test_pure_span begin end_ _ _ (fun idx =>
      Z.land (Z.land (word right idx) (word left idx)) (range_mask begin end_ idx)
      =? Z.land 0 (range_mask begin end_ idx))); [|done|done| |].
  - cbn [rbind]. eexists. split; [done|]. rewrite negb_true_iff, <- not_true_iff_false.
    rewrite (forallb_span _ (fun i => ~ (bit left i = true /\ bit right i = true))); [|done|].
    + split; [|naive_solver]. intros Hn.
      destruct (decide (Exists (fun i => bit left i = true /\ bit right i = true)
                  (seqZ begin (end_ - begin)))) as [Hex|Hno].
      * apply Exists_exists in Hex as (i & Hi & ?). apply elem_of_seqZ in Hi.
        exists i. split; [lia|done].
      * destruct Hn. intros i Hi Hlr. apply Hno, Exists_exists. exists i.
        split; [apply elem_of_seqZ; lia|done].
    + intros idx Hin. pose proof (proj1 (word_span_elem _ _ _ Hb) Hin).
      rewrite masked_eqb by done. split; intros H' j Hj Hr; specialize (H' j Hj Hr).
      * rewrite Z.land_spec, Z.bits_0, !word_bit in H' by lia. intros [H1 H2].
        by rewrite H1, H2 in H'.
      * rewrite Z.land_spec, Z.bits_0, !word_bit by lia.
        destruct (bit left _), (bit right _); try done. by destruct H'.
  - intros idx _. destruct (load_word left idx) as [w|] eqn:Ew; [|done]. cbn [rbind].
    apply load_word_range in Ew. by rewrite land_all.
  - intros idx Hin. rewrite !(span_load _ begin end_) by done. cbn [rbind].
    by rewrite Z.land_assoc, Z.land_0_l.
Qed.

(** * Properties *)

(** C23. Filling a range, and combining it with AND, AND NOT, OR and OR NOT from
    two other buffers or in place, set each bit of the range as named, and
    leave the other bits and the length of the buffer as they were. *)
Theorem range_writes target left right begin end_ value :
  0 <= begin -> end_ <= INT32_MAX - 64 ->
  has_words target end_ -> has_words left end_ -> has_words right end_ ->
  let writes (run : result buffer) (f : Z -> bool) :=
    exists target', run = Ok target' /\ buf_bytes target' = buf_bytes target
      /\ forall i, bit target' i = if (begin <=? i) && (i <? end_) then f i else bit target i in
  writes (fillBits target begin end_ value) (fun _ => value)
  /\ writes (andBits target left right begin end_) (fun i => bit left i && bit right i)
  /\ writes (andBits2 target right begin end_) (fun i => bit target i && bit right i)
  /\ writes (andWithNegatedBits target left right begin end_) (fun i => bit left i && negb (bit right i))
  /\ writes (andWithNegatedBits2 target right begin end_) (fun i => bit target i && negb (bit right i))
  /\ writes (orBits target left right begin end_) (fun i => bit left i || bit right i)
  /\ writes (orBits2 target right begin end_) (fun i => bit target i || bit right i)
  /\ writes (orWithNegatedBits target left right begin end_) (fun i => bit left i || negb (bit right i))
  /\ writes (orWithNegatedBits2 target right begin end_) (fun i => bit target i || negb (bit right i)).
Proof.
  intros Hb He Ht Hl Hr. cbv zeta. split; [by apply fillBits_bits|].
  split_and!.
  - by apply (combineRange_bits _ andb and_bits target (Other left) (Other right)).
  - by apply (combineRange_bits _ andb and_bits target Target (Other right)).
  - by apply (combineRange_bits _ (fun l r => l && negb r) and_not_bits target (Other left) (Other right)).
  - by apply (combineRange_bits _ (fun l r => l && negb r) and_not_bits target Target (Other right)).
  - by apply (combineRange_bits _ orb or_bits target (Other left) (Other right)).
  - by apply (combineRange_bits _ orb or_bits target Target (Other right)).
  - by apply (combineRange_bits _ (fun l r => l || negb r) or_not_bits target (Other left) (Other right)).
  - by apply (combineRange_bits _ (fun l r => l || negb r) or_not_bits target Target (Other right)).
Qed.

Lemma range_writes_witness :
  exists target', andWithNegatedBits2 (buffer_of [UINT64_MAX; 7]) (buffer_of [12; 1]) 2 66 = Ok target'
    /\ buf_bytes target' = 16
    /\ forall i, bit target' i = if (2 <=? i) && (i <? 66)
                                 then bit (buffer_of [UINT64_MAX; 7]) i && negb (bit (buffer_of [12; 1]) i)
                                 else bit (buffer_of [UINT64_MAX; 7]) i.
Proof.
  destruct (range_writes (buffer_of [UINT64_MAX; 7]) (buffer_of [0; 0]) (buffer_of [12; 1]) 2 66 true)
    as (_ & _ & _ & _ & H & _); [lia|lia|vm_compute; discriminate..|]. exact H.
Defined.

(** C24. The functions that visit or count the bits of a range, word by word and
    one bit at a time, do on any callable what a loop over the positions of
    the range does that skips those with the other value, or null. *)
Theorem bit_visits {T} bits nulls begin end_ isSet
    (func : T -> Z -> result T) (test : T -> Z -> result (T * bool)) st :
  0 <= begin -> end_ <= INT32_MAX - 64 -> has_words bits end_ -> has_nulls nulls end_ ->
  let rows p := List.filter p (seqZ begin (end_ - begin)) in
  forEachBit bits begin end_ isSet func nulls st
    = fold_res func st (rows (fun i => Bool.eqb (bit bits i) isSet && valid nulls i))
  /\ testBits bits begin end_ isSet test st
     = test_res test st (rows (fun i => Bool.eqb (bit bits i) isSet))
  /\ countBits bits begin end_ = Ok (Z.of_nat (length (rows (bit bits)))).
Proof.
  intros Hb He Hw Hn. cbv zeta. split_and!.
  - by apply forEachBit_fold.
  - by apply testBits_fold.
  - by apply countBits_count.
Qed.

Lemma bit_visits_witness :
  forEachBit (buffer_of [13; 5]) 1 100 true (fun l i => Ok (i :: l)) None [] = Ok [66; 64; 3; 2]
  /\ countBits (buffer_of [13; 5]) 1 100 = Ok 4.
Proof.
  destruct (bit_visits (buffer_of [13; 5]) None 1 100 true (fun l i => Ok (i :: l))
    (fun l i => Ok (i :: l, true)) []) as (H1 & _ & H3);
    [lia|lia|vm_compute; discriminate|done|].
  rewrite H1, H3. split; vm_compute; reflexivity.
Defined.

(** [isSubset] and [hasIntersection] compare the bits of the range, and stop
    without reading outside the buffers. *)
Theorem range_comparisons left right begin end_ :
  0 <= begin -> end_ <= INT32_MAX - 64 -> has_words left end_ -> has_words right end_ ->
  (exists r, isSubset left right begin end_ = Ok r
     /\ (r = true <-> forall i, begin <= i < end_ -> bit left i = true -> bit right i = true))
  /\ (exists r, hasIntersection left right begin end_ = Ok r
     /\ (r = true <-> exists i, begin <= i < end_ /\ bit left i = true /\ bit right i = true)).
Proof.
  intros Hb He Hl Hr. split; [by apply isSubset_bits|by apply hasIntersection_bits].
Qed.

Lemma range_comparisons_witness :
  exists r, isSubset (buffer_of [5; 1]) (buffer_of [13; 5]) 1 100 = Ok r
    /\ (r = true <-> forall i, 1 <= i < 100 -> bit (buffer_of [5; 1]) i = true ->
          bit (buffer_of [13; 5]) i = true).
Proof.
  destruct (range_comparisons (buffer_of [5; 1]) (buffer_of [13; 5]) 1 100) as (H & _);
    [lia|lia|vm_compute; discriminate..|]. exact H.
Defined.
