(* ===== verification/BitBatches.v ===== *)
(** Batches of bits (bolt/common/base/BitUtil.h, [forBatches]): the groups of
    [kWidth] bits of a range that have a bit set, each with the mask of its
    bits. *)

From S2P Require Import Prelude BitUtil BitWords.

Section batches.
Context {T : Type}.

(** [forBatches<kWidth>]: the groups of a word that have a bit.  Each round
    takes one group, so [64 / kWidth] rounds are enough. *)
Fixpoint each_batch (func : T -> Z -> Z -> result T) (kWidth index : Z) (fuel : nat)
    (active first : Z) (st : T) : result T :=
  match fuel with
  | O => Err OutOfFuel
  | S fuel =>
      if active =? 0 then Ok st
      else
        let skip := ctz active / kWidth * kWidth in
        let active := Z.shiftr active skip in
        let first := first + skip in
        let selected := Z.land active (if kWidth =? 64 then UINT64_MAX else Z.ones kWidth) in
        if negb (selected =? 0) then
          let! st := func st (index * 64 + first) selected in
          each_batch func kWidth index fuel
            (if kWidth =? 64 then 0 else Z.shiftr active kWidth) (first + kWidth) st
        else each_batch func kWidth index fuel active first st
  end.

Definition forBatches (kWidth : Z) (bits : buffer) (begin end_ : Z)
    (func : T -> Z -> Z -> result T) (st : T) : result T :=
  forEachWordSingle begin end_
    (fun st index mask =>
       let! word := load_word bits index in
       each_batch func kWidth index kWordFuel (Z.land word mask) 0 st)
    st.
End batches.

(** * Groups of a word *)

(** Group [g] of the word [w]. *)
Definition group (kWidth w g : Z) : Z := Z.land (Z.shiftr w (kWidth * g)) (Z.ones kWidth).

Lemma group_bits kWidth w g j :
  0 < kWidth -> 0 <= g ->
  Z.testbit (group kWidth w g) j = (0 <=? j) && (j <? kWidth) && Z.testbit w (kWidth * g + j).
Proof.
  intros Hk Hg. unfold group. destruct (decide (0 <= j)).
  - rewrite Z.land_spec, Z.shiftr_spec, Z.testbit_ones by lia. rewrite (Z.add_comm j). apply andb_comm.
  - rewrite Z.testbit_neg_r by lia. by replace (0 <=? j) with false by zbool.
Qed.

Section each.
Context {T : Type} (func : T -> Z -> Z -> result T) (kWidth count : Z).
Hypothesis Hwidth : 0 < kWidth.
Hypothesis Hcount : kWidth * count = 64.

(** The call for a group at position [64 * index + kWidth * g]. *)
Definition call_group (index w : Z) (st : T) (g : Z) : result T :=
  func st (index * 64 + kWidth * g) (group kWidth w g).

Lemma each_batch_groups index fuel w g st :
  0 <= w < 2 ^ 64 -> 0 <= g <= count -> (Z.to_nat (count - g) < fuel)%nat ->
  each_batch func kWidth index fuel (Z.shiftr w (kWidth * g)) (kWidth * g) st
  = fold_res (call_group index w) st
      (List.filter (fun g => negb (group kWidth w g =? 0)) (seqZ g (count - g))).
Proof.
  intros Hw. revert g st. induction fuel as [|fuel IH]; intros g st Hg Hf; [lia|].
  cbn [each_batch]. set (active := Z.shiftr w (kWidth * g)) in *.
  assert (forall i, 0 <= i -> Z.testbit active i = Z.testbit w (kWidth * g + i)) as Ha.
  { intros i Hi. subst active. rewrite Z.shiftr_spec by done. f_equal. lia. }
  destruct (active =? 0) eqn:E0.
  { rewrite filter_none; [done|]. intros x [Hx _]%elem_of_seqZ.
    apply negb_false_iff, Z.eqb_eq, Z.bits_inj'. intros j Hj. rewrite group_bits, Z.bits_0 by lia.
    replace (kWidth * x + j) with (kWidth * g + (kWidth * (x - g) + j)) by lia.
    rewrite <- Ha by nia. replace active with 0 by lia. by rewrite Z.bits_0, andb_false_r. }
  assert (0 < active) by (assert (0 <= active) by (subst active; apply Z.shiftr_nonneg; lia); lia).
  destruct (ctz_spec active) as (Hc0 & Hc & Hbelow); [done|]. set (c := ctz active) in *.
  pose proof (Z.div_mod c kWidth). pose proof (Z.mod_pos_bound c kWidth).
  assert (0 <= c / kWidth) by (apply Z.div_pos; lia). set (q := c / kWidth) in *.
  rewrite Ha in Hc by done.
  assert (kWidth * g + c < 64).
  { destruct (decide (kWidth * g + c < 64)); [done|]. by rewrite (testbit_above 64) in Hc by lia. }
  assert (g + q < count) by nia.
  replace (Z.shiftr active (q * kWidth)) with (Z.shiftr w (kWidth * (g + q)))
    by (subst active; rewrite Z.shiftr_shiftr by nia; f_equal; lia).
  replace (Z.land _ (if kWidth =? 64 then UINT64_MAX else Z.ones kWidth)) with (group kWidth w (g + q))
    by (unfold group; f_equal; destruct (kWidth =? 64) eqn:E; [by replace kWidth with 64 by lia|done]).
  assert (group kWidth w (g + q) <> 0) as Hne.
  { intros Hz. assert (Z.testbit (group kWidth w (g + q)) (c mod kWidth) = false) as Hb
      by (rewrite Hz; apply Z.bits_0).
    rewrite group_bits in Hb by lia.
    replace (kWidth * (g + q) + c mod kWidth) with (kWidth * g + c) in Hb by lia. rewrite Hc in Hb. zbool. }
  replace (group kWidth w (g + q) =? 0) with false by lia. cbn [negb].
  replace (seqZ g (count - g)) with (seqZ g q ++ (g + q) :: seqZ (g + q + 1) (count - (g + q + 1))).
  2:{ replace (count - g) with (q + (count - (g + q))) by lia. rewrite seqZ_app by lia. f_equal.
      rewrite (seqZ_cons (g + q)) by lia. f_equal. f_equal; lia. }
  rewrite List.filter_app, filter_none.
  - cbn [app List.filter]. replace (group kWidth w (g + q) =? 0) with false by lia.
    cbn [negb fold_res]. unfold call_group at 1. replace (kWidth * g + q * kWidth) with (kWidth * (g + q)) by lia.
    apply rbind_ext. intros st' _. rewrite <- IH by lia.
    f_equal; [|lia]. destruct (kWidth =? 64) eqn:E.
    + symmetry. apply Z.bits_inj'. intros i Hi. rewrite Z.shiftr_spec, Z.bits_0 by done.
      apply (testbit_above 64); nia.
    + rewrite Z.shiftr_shiftr by lia. f_equal. lia.
  - intros x [Hx Hx']%elem_of_seqZ. apply negb_false_iff, Z.eqb_eq, Z.bits_inj'. intros j Hj.
    rewrite group_bits, Z.bits_0 by lia. destruct (j <? kWidth) eqn:Ej; [|by rewrite andb_false_r].
    replace (kWidth * x + j) with (kWidth * g + (kWidth * (x - g) + j)) by lia.
    rewrite <- Ha by nia. rewrite Hbelow by nia. apply andb_false_r.
Qed.
End each.

(** * Groups of a range *)

(** The bits of the range, and the mask of its group [g]. *)
Definition in_range (bits : buffer) (begin end_ : Z) : Z :=
  Z.land (buf_value bits) (Z.shiftl (Z.ones (Z.max 0 (end_ - begin))) begin).

Definition batch (kWidth : Z) (bits : buffer) (begin end_ g : Z) : Z :=
  group kWidth (in_range bits begin end_) g.

Lemma in_range_bits bits begin end_ i :
  0 <= begin -> 0 <= i ->
  Z.testbit (in_range bits begin end_) i = (begin <=? i) && (i <? end_) && bit bits i.
Proof.
  intros Hb Hi. unfold in_range. rewrite Z.land_spec, Z.shiftl_spec, andb_comm by done. fold (bit bits i).
  f_equal. destruct (decide (begin <= i)).
  - rewrite Z.testbit_ones by lia. apply eq_true_iff_eq. zbool.
  - rewrite Z.testbit_neg_r by lia. by replace (begin <=? i) with false by zbool.
Qed.

Section range.
Context {T : Type} (func : T -> Z -> Z -> result T) (kWidth count : Z).
Hypothesis Hwidth : 0 < kWidth.
Hypothesis Hcount : kWidth * count = 64.
Variables (bits : buffer) (begin end_ : Z).
Hypothesis Hbegin : 0 <= begin.
Hypothesis Hend : end_ <= INT32_MAX - 64.
Hypothesis Hbits : has_words bits end_.

Abbreviation set_groups := (List.filter (fun g => negb (batch kWidth bits begin end_ g =? 0))).
Definition call_batch (st : T) (g : Z) : result T := func st (kWidth * g) (batch kWidth bits begin end_ g).

(** The groups of a word of the span are those of the range. *)
Lemma word_group idx g :
  idx ∈ word_span begin end_ -> 0 <= g < count ->
  group kWidth (Z.land (word bits idx) (range_mask begin end_ idx)) g
  = batch kWidth bits begin end_ (count * idx + g).
Proof.
  intros Hin Hg. pose proof (proj1 (word_span_elem begin end_ idx Hbegin) Hin) as (? & ? & ? & ?).
  apply Z.bits_inj'. intros j Hj. unfold batch. rewrite !group_bits by nia.
  destruct (j <? kWidth) eqn:E; [|by rewrite !andb_false_r]. f_equal.
  replace (kWidth * (count * idx + g) + j) with (64 * idx + (kWidth * g + j)) by nia.
  assert (0 <= kWidth * g + j < 64) by nia.
  rewrite masked_bits, in_range_bits, word_bit by (done || lia).
  replace ((0 <=? kWidth * g + j) && (kWidth * g + j <? 64)) with true by zbool. cbn [andb].
  apply andb_comm.
Qed.

Lemma flat_groups a n :
  0 <= n ->
  flat_map (fun idx => map (Z.add (count * idx))
    (List.filter (fun g => negb (batch kWidth bits begin end_ (count * idx + g) =? 0)) (seqZ 0 count))) (seqZ a n)
  = set_groups (seqZ (count * a) (count * n)).
Proof.
  intros Hn. rewrite <- (Z2Nat.id n) by done. generalize (Z.to_nat n) as m. clear n Hn.
  intros m. revert a. assert (0 <= count) by nia. induction m as [|m IH]; intros a.
  - by rewrite (seqZ_nil a), (seqZ_nil (count * a)) by lia.
  - rewrite (seqZ_cons a) by lia. replace (Z.pred (Z.of_nat (S m))) with (Z.of_nat m) by lia.
    cbn [flat_map]. rewrite IH.
    replace (count * Z.of_nat (S m)) with (count + count * Z.of_nat m) by lia.
    rewrite (seqZ_app (count * a) count) by lia. rewrite List.filter_app.
    replace (count * Z.succ a) with (count * a + count) by lia. f_equal.
    pose proof (fmap_add_seqZ (count * a) 0 count) as Hs. rewrite Z.add_0_r in Hs. rewrite <- Hs.
    generalize (seqZ 0 count). intros l. induction l as [|x l IHl]; [done|]. cbn [fmap list_fmap map List.filter].
    destruct (batch _ _ _ _ _ =? 0); cbn [negb map]; by rewrite IHl.
Qed.

(** Groups outside the range have no bits. *)
Lemma batch_outside g :
  0 <= g -> kWidth * g + kWidth <= begin \/ end_ <= kWidth * g \/ end_ <= begin ->
  batch kWidth bits begin end_ g = 0.
Proof.
  intros Hg Hout. apply Z.bits_inj'. intros j Hj. unfold batch. rewrite group_bits, Z.bits_0 by done.
  destruct (j <? kWidth) eqn:E; [|by rewrite andb_false_r]. rewrite in_range_bits by nia.
  replace ((begin <=? kWidth * g + j) && (kWidth * g + j <? end_)) with false by zbool.
  apply andb_false_r.
Qed.

Lemma span_groups :
  flat_map (fun idx => map (Z.add (count * idx))
    (List.filter (fun g => negb (batch kWidth bits begin end_ (count * idx + g) =? 0)) (seqZ 0 count)))
    (word_span begin end_)
  = set_groups (seqZ (begin / kWidth) ((end_ + kWidth - 1) / kWidth - begin / kWidth)).
Proof.
  pose proof (Z.div_mod begin kWidth). pose proof (Z.mod_pos_bound begin kWidth).
  pose proof (Z.div_mod (end_ + kWidth - 1) kWidth). pose proof (Z.mod_pos_bound (end_ + kWidth - 1) kWidth).
  set (u := begin / kWidth) in *. set (v := (end_ + kWidth - 1) / kWidth) in *.
  assert (0 <= u) by (apply Z.div_pos; lia).
  unfold word_span. destruct (begin <? end_) eqn:E.
  2:{ symmetry. cbn [flat_map]. apply filter_none. intros g [Hg Hg']%elem_of_seqZ.
      rewrite batch_outside; [done|lia|lia]. }
  pose proof (Z.div_mod begin 64). pose proof (Z.mod_pos_bound begin 64).
  pose proof (Z.div_mod (end_ - 1) 64). pose proof (Z.mod_pos_bound (end_ - 1) 64).
  set (f := begin / 64) in *. set (l := (end_ - 1) / 64) in *. rewrite flat_groups by lia.
  assert (forall z, kWidth * (count * z) = 64 * z) as Hz by (intros z; by rewrite Z.mul_assoc, Hcount).
  assert (count * f <= u) by (apply Z.div_le_lower_bound; [lia|]; rewrite Hz; lia).
  assert (u <= v) by (apply Z.div_le_mono; lia).
  assert (v < count * (l + 1) + 1).
  { apply Z.div_lt_upper_bound; [lia|]. rewrite Z.mul_add_distr_l, Hz. lia. }
  assert (0 <= f) by (apply Z.div_pos; lia).
  replace (count * (l - f + 1)) with ((u - count * f) + ((v - u) + (count * (l + 1) - v))) by lia.
  rewrite (seqZ_app (count * f) (u - count * f)), seqZ_app, !List.filter_app by lia.
  rewrite filter_none, (filter_none _ (seqZ (count * f + _ + _) _)), app_nil_r.
  - cbn [app]. by replace (count * f + (u - count * f)) with u by lia.
  - intros g [Hg Hg']%elem_of_seqZ. rewrite batch_outside; [done|nia|nia].
  - intros g [Hg Hg']%elem_of_seqZ. rewrite batch_outside; [done|nia|nia].
Qed.

Lemma forBatches_fold st :
  forBatches kWidth bits begin end_ func st
  = fold_res call_batch st
      (set_groups (seqZ (begin / kWidth) ((end_ + kWidth - 1) / kWidth - begin / kWidth))).
Proof.
  unfold forBatches. rewrite forEachWordSingle_span by done.
  rewrite <- span_groups, <- fold_res_flat_map. apply fold_res_ext. intros acc idx Hin.
  rewrite (span_load _ begin end_) by done. cbn [rbind].
  assert (0 < count) by nia. assert (count <= 64) by nia.
  pose proof (each_batch_groups func kWidth count Hwidth Hcount idx kWordFuel
    (Z.land (word bits idx) (range_mask begin end_ idx)) 0 acc) as Hrun.
  rewrite Z.mul_0_r, Z.shiftr_0_r, Z.sub_0_r in Hrun.
  rewrite Hrun; [|apply land_range_l; [lia|apply word_range]|lia|unfold kWordFuel; lia].
  rewrite fold_res_map.
  rewrite (filter_ext _ (fun g => negb (batch kWidth bits begin end_ (count * idx + g) =? 0)))
    by (intros g [? ?]%elem_of_seqZ; by rewrite word_group by (done || lia)).
  apply fold_res_ext. intros acc' g Hg%list_elem_of_In%List.filter_In.
  destruct Hg as [Hg%list_elem_of_In%elem_of_seqZ _]. unfold call_group, call_batch.
  rewrite word_group by (done || lia).
  by rewrite Z.mul_add_distr_l, Z.mul_assoc, Hcount, (Z.mul_comm 64).
Qed.
End range.
