(* ===== verification/BitSearch.v ===== *)
(** The searches of bolt/common/base/BitUtil.h: [isAllSet], [findFirstBit] and
    [findLastBit], with the AVX2 loops over four words. *)

From S2P Require Import Prelude BitUtil BitWords.

(** * Four words at a time *)

(** [_mm256_loadu_si256] of four words. *)
Definition load_lanes (bits : buffer) (wordIndex : Z) : result (list Z) :=
  map_res (fun lane => load_word bits (wordIndex + lane)) [0; 1; 2; 3].

(** [_mm256_movemask_pd] of the lanes that satisfy a comparison. *)
Definition movemask (f : Z -> bool) (lanes : list Z) : Z :=
  fold_right (fun word mask => 2 * mask + (if f word then 1 else 0)) 0 lanes.

(** [(~movemask) & 0xf]: the lanes that do not satisfy it. *)
Definition rest_lanes (f : Z -> bool) (lanes : list Z) : Z :=
  Z.land (Z.lnot (movemask f lanes)) 15.

(** [~uint64_t{0} << n] *)
Definition bits_from (n : Z) : result Z := shl64 UINT64_MAX n.

(** Rounds of a loop over the words below [words]. *)
Definition search_fuel (words : Z) : nat := S (Z.to_nat words).

(** * [isAllSet] *)

Section all_set.
Variables (bits : buffer) (expected : Z).

Fixpoint all_set_lanes (fuel : nat) (wordIndex fullWordEnd : Z) : result (Z * bool) :=
  match fuel with
  | O => Err OutOfFuel
  | S fuel =>
      if wordIndex + 4 <=? fullWordEnd then
        let! words := load_lanes bits wordIndex in
        if negb (movemask (fun word => word =? expected) words =? 15) then Ok (wordIndex, false)
        else all_set_lanes fuel (wordIndex + 4) fullWordEnd
      else Ok (wordIndex, true)
  end.

Fixpoint all_set_words (fuel : nat) (wordIndex fullWordEnd : Z) : result (Z * bool) :=
  match fuel with
  | O => Err OutOfFuel
  | S fuel =>
      if wordIndex <? fullWordEnd then
        let! word := load_word bits wordIndex in
        if negb (word =? expected) then Ok (wordIndex, false)
        else all_set_words fuel (wordIndex + 1) fullWordEnd
      else Ok (wordIndex, true)
  end.

Definition all_set_tail (wordIndex end_ : Z) : result bool :=
  let fullWordEnd := Z.shiftr end_ 6 in
  let! r := all_set_lanes (search_fuel fullWordEnd) wordIndex fullWordEnd in
  if negb (snd r) then Ok false
  else
    let! r := all_set_words (search_fuel fullWordEnd) (fst r) fullWordEnd in
    if negb (snd r) then Ok false
    else if negb (Z.land end_ 63 =? 0) then
      let! mask := lowMask (Z.land end_ 63) in
      let! word := load_word bits (fst r) in
      Ok (Z.land word mask =? Z.land expected mask)
    else Ok true.
End all_set.

Definition isAllSet (bits : buffer) (begin end_ : Z) (value : bool) : result bool :=
  if begin >=? end_ then Ok true
  else
    let expected := if value then UINT64_MAX else 0 in
    let wordIndex := Z.shiftr begin 6 in
    let beginOffset := Z.land begin 63 in
    if negb (beginOffset =? 0) then
      let! mask := bits_from beginOffset in
      let! wordEnd := ck32 (Z.shiftl wordIndex 6 + 64) in
      let isLastWord := wordEnd >? end_ in
      let! mask :=
        if isLastWord then
          let! low := lowMask (end_ - Z.shiftl wordIndex 6) in
          Ok (Z.land mask low)
        else Ok mask in
      let! word := load_word bits wordIndex in
      if negb (Z.land word mask =? Z.land expected mask) then Ok false
      else if isLastWord then Ok true
      else all_set_tail bits expected (wordIndex + 1) end_
    else all_set_tail bits expected wordIndex end_.

(** * [findFirstBit] *)

Section find_first.
Variable bits : buffer.

(** [(wordIndex << 6) + __builtin_ctzll(word)] *)
Definition first_in (wordIndex word : Z) : Z := Z.shiftl wordIndex 6 + ctz word.

(** The loops return a position that was found, or where they stopped. *)
Fixpoint first_lanes (fuel : nat) (wordIndex fullWordEnd : Z) : result (Z + Z) :=
  match fuel with
  | O => Err OutOfFuel
  | S fuel =>
      if wordIndex + 4 <=? fullWordEnd then
        let! words := load_lanes bits wordIndex in
        let nonZeroLanes := rest_lanes (fun word => word =? 0) words in
        if negb (nonZeroLanes =? 0) then
          let lane := ctz nonZeroLanes in
          let! word := load_word bits (wordIndex + lane) in
          Ok (inl (first_in (wordIndex + lane) word))
        else first_lanes fuel (wordIndex + 4) fullWordEnd
      else Ok (inr wordIndex)
  end.

Fixpoint first_words (fuel : nat) (wordIndex fullWordEnd : Z) : result (Z + Z) :=
  match fuel with
  | O => Err OutOfFuel
  | S fuel =>
      if wordIndex <? fullWordEnd then
        let! word := load_word bits wordIndex in
        if negb (word =? 0) then Ok (inl (first_in wordIndex word))
        else first_words fuel (wordIndex + 1) fullWordEnd
      else Ok (inr wordIndex)
  end.

Definition first_tail (wordIndex end_ : Z) : result Z :=
  let fullWordEnd := Z.shiftr end_ 6 in
  let! r := first_lanes (search_fuel fullWordEnd) wordIndex fullWordEnd in
  match r with
  | inl found => Ok found
  | inr wordIndex =>
      let! r := first_words (search_fuel fullWordEnd) wordIndex fullWordEnd in
      match r with
      | inl found => Ok found
      | inr wordIndex =>
          if negb (Z.land end_ 63 =? 0) then
            let! low := lowMask (Z.land end_ 63) in
            let! word := load_word bits wordIndex in
            let word := Z.land word low in
            if negb (word =? 0) then Ok (first_in wordIndex word) else Ok (-1)
          else Ok (-1)
      end
  end.

Definition findFirstBit (begin end_ : Z) : result Z :=
  if begin >=? end_ then Ok (-1)
  else
    let wordIndex := Z.shiftr begin 6 in
    let beginOffset := Z.land begin 63 in
    if negb (beginOffset =? 0) then
      let! word := load_word bits wordIndex in
      let! mask := bits_from beginOffset in
      let word := Z.land word mask in
      let! wordEnd := ck32 (Z.shiftl wordIndex 6 + 64) in
      let isLastWord := wordEnd >? end_ in
      let! word :=
        if isLastWord then
          let! low := lowMask (end_ - Z.shiftl wordIndex 6) in
          Ok (Z.land word low)
        else Ok word in
      if negb (word =? 0) then Ok (first_in wordIndex word)
      else if isLastWord then Ok (-1)
      else first_tail (wordIndex + 1) end_
    else first_tail wordIndex end_.
End find_first.

(** * [findLastBit] *)

Section find_last.
Variables (bits : buffer) (value : bool).

(** [(wordIndex << 6) + 63 - __builtin_clzll(word)] *)
Definition last_in (wordIndex word : Z) : Z :=
  Z.shiftl wordIndex 6 + 63 - countLeadingZeros word.

Fixpoint last_lanes (fuel : nat) (wordIndex fullWordBegin : Z) : result (Z + Z) :=
  match fuel with
  | O => Err OutOfFuel
  | S fuel =>
      if wordIndex >=? fullWordBegin + 4 then
        let wordIndex := wordIndex - 4 in
        let! words := load_lanes bits wordIndex in
        let words := map (fun word => Z.lxor word (if value then 0 else UINT64_MAX)) words in
        let nonZeroLanes := rest_lanes (fun word => word =? 0) words in
        if negb (nonZeroLanes =? 0) then
          let lane := Z.log2 nonZeroLanes (* 31 - __builtin_clz *) in
          let! word := load_word bits (wordIndex + lane) in
          Ok (inl (last_in (wordIndex + lane) (select_word value word)))
        else last_lanes fuel wordIndex fullWordBegin
      else Ok (inr wordIndex)
  end.

Fixpoint last_words (fuel : nat) (wordIndex fullWordBegin : Z) : result (option Z) :=
  match fuel with
  | O => Err OutOfFuel
  | S fuel =>
      if wordIndex >? fullWordBegin then
        let wordIndex := wordIndex - 1 in
        let! word := load_word bits wordIndex in
        let word := select_word value word in
        if negb (word =? 0) then Ok (Some (last_in wordIndex word))
        else last_words fuel wordIndex fullWordBegin
      else Ok None
  end.

Definition last_tail (wordIndex begin : Z) : result Z :=
  let beginWord := Z.shiftr begin 6 in
  let beginOffset := Z.land begin 63 in
  let! rounded := ck32 (begin + 63) in
  let fullWordBegin := Z.shiftr rounded 6 in
  let! r := last_lanes (search_fuel wordIndex) wordIndex fullWordBegin in
  match r with
  | inl found => Ok found
  | inr wordIndex =>
      let! r := last_words (search_fuel wordIndex) wordIndex fullWordBegin in
      match r with
      | Some found => Ok found
      | None =>
          if negb (beginOffset =? 0) then
            let! word := load_word bits beginWord in
            let! mask := bits_from beginOffset in
            let word := Z.land (select_word value word) mask in
            if negb (word =? 0) then Ok (last_in beginWord word) else Ok (-1)
          else Ok (-1)
      end
  end.

Definition findLastBit (begin end_ : Z) : result Z :=
  if begin >=? end_ then Ok (-1)
  else
    let wordIndex := Z.shiftr end_ 6 in
    let endOffset := Z.land end_ 63 in
    let beginWord := Z.shiftr begin 6 in
    let beginOffset := Z.land begin 63 in
    if negb (endOffset =? 0) then
      let! mask := lowMask endOffset in
      let! mask :=
        if wordIndex =? beginWord then
          let! high := bits_from beginOffset in
          Ok (Z.land mask high)
        else Ok mask in
      let! word := load_word bits wordIndex in
      let word := Z.land (select_word value word) mask in
      if negb (word =? 0) then Ok (last_in wordIndex word)
      else if wordIndex =? beginWord then Ok (-1)
      else last_tail wordIndex begin
    else last_tail wordIndex begin.
End find_last.

Definition findLastUnsetBit (bits : buffer) (begin end_ : Z) : result Z :=
  findLastBit bits false begin end_.

(** * Masks and lanes *)

Lemma shiftl_6 z : Z.shiftl z 6 = 64 * z.
Proof. rewrite Z.shiftl_mul_pow2 by lia. lia. Qed.

Lemma bits_from_ok n : 0 <= n < 64 -> bits_from n = Ok (range_mask n 64 0).
Proof.
  intros Hn. unfold bits_from, shl64. replace ((0 <=? n) && (n <? 64)) with true by zbool.
  f_equal. change UINT64_MAX with (Z.ones 64). symmetry. apply Z.bits_inj'. intros j Hj.
  rewrite range_mask_bits by lia. autorewrite with bits.
  apply eq_true_iff_eq. rewrite ?andb_true_iff, ?Z.leb_le, ?Z.ltb_lt. lia.
Qed.

Lemma lowMask_range n : 0 < n < 64 -> lowMask n = Ok (range_mask 0 n 0).
Proof.
  intros Hn. rewrite lowMask_ok by lia. f_equal. symmetry. apply Z.bits_inj'. intros j Hj.
  rewrite range_mask_bits by lia. autorewrite with bits.
  apply eq_true_iff_eq. rewrite ?andb_true_iff, ?Z.leb_le, ?Z.ltb_lt. lia.
Qed.

Lemma range_mask_shift begin end_ idx k :
  range_mask (begin + 64 * k) (end_ + 64 * k) (idx + k) = range_mask begin end_ idx.
Proof. unfold range_mask. f_equal; [f_equal|]; lia. Qed.

(** The mask of the bits of a word from [begin] on, and below [end_]. *)
Lemma mask_from begin w :
  64 * w <= begin < 64 * w + 64 ->
  bits_from (begin - 64 * w) = Ok (range_mask begin (64 * w + 64) w).
Proof.
  intros Hb. rewrite bits_from_ok by lia. f_equal.
  rewrite <- (range_mask_shift _ _ 0 w). f_equal; lia.
Qed.

Lemma mask_below end_ w :
  64 * w < end_ < 64 * w + 64 ->
  lowMask (end_ - 64 * w) = Ok (range_mask (64 * w) end_ w).
Proof.
  intros Hb. rewrite lowMask_range by lia. f_equal.
  rewrite <- (range_mask_shift _ _ 0 w). f_equal; lia.
Qed.

Lemma mask_both begin end_ w :
  64 * w <= begin -> begin < end_ -> end_ < 64 * w + 64 ->
  Z.land (range_mask begin (64 * w + 64) w) (range_mask (64 * w) end_ w)
  = range_mask begin end_ w.
Proof.
  intros. apply Z.bits_inj'. intros j Hj. rewrite Z.land_spec, !range_mask_bits by lia.
  apply eq_true_iff_eq. rewrite !andb_true_iff, !Z.leb_le, !Z.ltb_lt. lia.
Qed.

Lemma mask_whole w : range_mask (64 * w) (64 * w + 64) w = UINT64_MAX.
Proof.
  pose proof (range_mask_shift 0 64 0 w) as H.
  replace (0 + 64 * w) with (64 * w) in H by lia. by rewrite (Z.add_comm 64), Z.add_0_l in H.
Qed.

Lemma load_lanes_ok b w :
  0 <= w -> 8 * w + 32 <= buf_bytes b ->
  load_lanes b w = Ok [word b w; word b (w + 1); word b (w + 2); word b (w + 3)].
Proof.
  intros Hw Hb. unfold load_lanes. cbn [map_res].
  rewrite !load_word_ok by lia. cbn [rbind]. by replace (w + 0) with w by lia.
Qed.

Lemma movemask_all (f : Z -> bool) a b c d :
  (movemask f [a; b; c; d] =? 15) = f a && f b && f c && f d.
Proof. unfold movemask. simpl. by destruct (f a), (f b), (f c), (f d). Qed.

(** The lowest and the highest lane that do not satisfy a comparison. *)
Lemma rest_lanes_none f a b c d :
  (rest_lanes f [a; b; c; d] =? 0) = f a && f b && f c && f d.
Proof. unfold rest_lanes, movemask. simpl. by destruct (f a), (f b), (f c), (f d). Qed.

Lemma rest_lanes_first f a b c d :
  (rest_lanes f [a; b; c; d] =? 0) = false ->
  exists n x, ctz (rest_lanes f [a; b; c; d]) = Z.of_nat n /\ [a; b; c; d] !! n = Some x
    /\ f x = false /\ forall m y, (m < n)%nat -> [a; b; c; d] !! m = Some y -> f y = true.
Proof.
  unfold rest_lanes, movemask. simpl. intros H.
  destruct (f a) eqn:Ea; [destruct (f b) eqn:Eb; [destruct (f c) eqn:Ec;
    [destruct (f d) eqn:Ed; [done|]|]|]|].
  - exists 3%nat, d. split_and!; [done|done|done|].
    intros [|[|[|m]]] y Hm; simpl; first [lia|intros [= <-]; done|intros [=]].
  - exists 2%nat, c. split_and!; [by destruct (f d)|done|done|].
    intros [|[|m]] y Hm; simpl; first [lia|intros [= <-]; done|intros [=]].
  - exists 1%nat, b. split_and!; [by destruct (f c), (f d)|done|done|].
    intros [|m] y Hm; simpl; first [lia|intros [= <-]; done|intros [=]].
  - exists 0%nat, a. split_and!; [by destruct (f b), (f c), (f d)|done|done|lia].
Qed.

Lemma rest_lanes_last f a b c d :
  (rest_lanes f [a; b; c; d] =? 0) = false ->
  exists n x, Z.log2 (rest_lanes f [a; b; c; d]) = Z.of_nat n /\ [a; b; c; d] !! n = Some x
    /\ f x = false /\ forall m y, (n < m)%nat -> [a; b; c; d] !! m = Some y -> f y = true.
Proof.
  unfold rest_lanes, movemask. simpl. intros H.
  destruct (f d) eqn:Ed; [destruct (f c) eqn:Ec; [destruct (f b) eqn:Eb;
    [destruct (f a) eqn:Ea; [done|]|]|]|].
  - exists 0%nat, a. split_and!; [done|done|done|].
    intros [|[|[|[|m]]]] y Hm; simpl; first [lia|intros [= <-]; done|intros [=]].
  - exists 1%nat, b. split_and!; [by destruct (f a)|done|done|].
    intros [|[|[|[|m]]]] y Hm; simpl; first [lia|intros [= <-]; done|intros [=]].
  - exists 2%nat, c. split_and!; [by destruct (f a), (f b)|done|done|].
    intros [|[|[|[|m]]]] y Hm; simpl; first [lia|intros [= <-]; done|intros [=]].
  - exists 3%nat, d. split_and!; [by destruct (f a), (f b), (f c)|done|done|].
    intros [|[|[|[|m]]]] y Hm; simpl; first [lia|intros [= <-]; done|intros [=]].
Qed.

(** * The bits of a word in a range *)

Section in_word.
Variables (b : buffer) (value : bool).

Definition has_value (i : Z) : bool := Bool.eqb (bit b i) value.

Definition none (lo hi : Z) : Prop := forall i, lo <= i < hi -> has_value i = false.

Definition part_of (lo hi idx : Z) : Z :=
  Z.land (select_word value (word b idx)) (range_mask lo hi idx).

Lemma part_of_bits lo hi idx j :
  0 <= lo -> idx ∈ word_span lo hi ->
  Z.testbit (part_of lo hi idx) j
  = (0 <=? j) && (j <? 64) && (lo <=? 64 * idx + j) && (64 * idx + j <? hi)
    && has_value (64 * idx + j).
Proof.
  intros Hlo Hin. pose proof (proj1 (word_span_elem _ _ _ Hlo) Hin). unfold part_of.
  rewrite masked_bits by lia. rewrite andb_comm.
  destruct ((0 <=? j) && (j <? 64)) eqn:E; [|done].
  rewrite select_word_bits, word_bit by zbool. done.
Qed.

Lemma part_of_range lo hi idx : 0 <= part_of lo hi idx < 2 ^ 64.
Proof. apply land_range_l; [lia|]. apply select_word_range, word_range. Qed.

Lemma part_of_bit lo hi idx i :
  0 <= lo -> idx ∈ word_span lo hi -> lo <= i < hi -> 64 * idx <= i < 64 * idx + 64 ->
  has_value i = Z.testbit (part_of lo hi idx) (i - 64 * idx).
Proof.
  intros Hlo Hin Hi Hw. rewrite part_of_bits by done.
  replace (64 * idx + (i - 64 * idx)) with i by lia.
  by replace ((0 <=? i - 64 * idx) && (i - 64 * idx <? 64) && (lo <=? i) && (i <? hi))
    with true by zbool.
Qed.

Lemma part_zero lo hi idx :
  0 <= lo -> idx ∈ word_span lo hi -> part_of lo hi idx = 0 ->
  none (Z.max lo (64 * idx)) (Z.min hi (64 * idx + 64)).
Proof.
  intros Hlo Hin H0 i Hi. rewrite (part_of_bit lo hi idx) by (done || lia).
  by rewrite H0, Z.bits_0.
Qed.

Lemma part_first lo hi idx :
  0 <= lo -> idx ∈ word_span lo hi -> part_of lo hi idx <> 0 ->
  let r := first_in idx (part_of lo hi idx) in
  Z.max lo (64 * idx) <= r < Z.min hi (64 * idx + 64) /\ has_value r = true
  /\ none (Z.max lo (64 * idx)) r.
Proof.
  intros Hlo Hin H0. cbv zeta. unfold first_in. rewrite shiftl_6.
  pose proof (part_of_range lo hi idx).
  destruct (ctz_spec (part_of lo hi idx) ltac:(lia)) as (Hc & Hbit & Hbelow).
  pose proof Hbit as Hb. rewrite part_of_bits in Hb by done.
  rewrite !andb_true_iff, !Z.leb_le, !Z.ltb_lt in Hb. split; [lia|]. split; [apply Hb|].
  intros i Hi. rewrite (part_of_bit lo hi idx) by (done || lia). apply Hbelow. lia.
Qed.

Lemma part_last lo hi idx :
  0 <= lo -> idx ∈ word_span lo hi -> part_of lo hi idx <> 0 ->
  let r := last_in idx (part_of lo hi idx) in
  Z.max lo (64 * idx) <= r < Z.min hi (64 * idx + 64) /\ has_value r = true
  /\ none (r + 1) (Z.min hi (64 * idx + 64)).
Proof.
  intros Hlo Hin H0. cbv zeta. unfold last_in, countLeadingZeros. rewrite shiftl_6.
  pose proof (part_of_range lo hi idx).
  replace (part_of lo hi idx =? 0) with false by zbool.
  set (w := part_of lo hi idx) in *.
  replace (64 * idx + 63 - (63 - Z.log2 w)) with (64 * idx + Z.log2 w) by lia.
  pose proof (Z.bit_log2 w ltac:(lia)) as Hbit. pose proof (Z.log2_nonneg w).
  pose proof Hbit as Hb. unfold w in Hb at 1. rewrite part_of_bits in Hb by done.
  rewrite !andb_true_iff, !Z.leb_le, !Z.ltb_lt in Hb. split; [lia|]. split; [apply Hb|].
  intros i Hi. rewrite (part_of_bit lo hi idx) by (done || lia). fold w.
  apply Z.bits_above_log2; lia.
Qed.

(** A whole word. *)
Lemma part_whole idx : part_of (64 * idx) (64 * idx + 64) idx = select_word value (word b idx).
Proof.
  unfold part_of. rewrite mask_whole. apply land_all, select_word_range, word_range.
Qed.

Lemma whole_span idx : 0 <= idx -> idx ∈ word_span (64 * idx) (64 * idx + 64).
Proof. intros. apply word_span_elem; lia. Qed.

Lemma none_app lo mid hi : none lo mid -> none mid hi -> none lo hi.
Proof. intros H1 H2 i Hi. destruct (decide (i < mid)); [apply H1|apply H2]; lia. Qed.

Lemma none_empty lo hi : hi <= lo -> none lo hi.
Proof. intros H i Hi. lia. Qed.

Lemma none_sub lo hi lo' hi' : none lo hi -> lo <= lo' -> hi' <= hi -> none lo' hi'.
Proof. intros H ? ? i Hi. apply H. lia. Qed.

(** Results of the searches. *)
Definition is_first (lo hi r : Z) : Prop :=
  (r = -1 /\ none lo hi) \/ (lo <= r < hi /\ has_value r = true /\ none lo r).

Definition is_last (lo hi r : Z) : Prop :=
  (r = -1 /\ none lo hi) \/ (lo <= r < hi /\ has_value r = true /\ none (r + 1) hi).

(** What a search finds behind bits without the value. *)
Lemma is_first_skip lo mid hi r : lo <= mid -> none lo mid -> is_first mid hi r -> is_first lo hi r.
Proof.
  intros Hle Hn [[-> H]|(Hr & Hv & H)].
  - left. split; [done|]. by eapply none_app.
  - right. split; [lia|]. split; [done|]. by eapply none_app.
Qed.

Lemma is_last_skip lo mid hi r : mid <= hi -> none mid hi -> is_last lo mid r -> is_last lo hi r.
Proof.
  intros Hle Hn [[-> H]|(Hr & Hv & H)].
  - left. split; [done|]. by eapply none_app.
  - right. split; [lia|]. split; [done|]. by eapply none_app.
Qed.
End in_word.

(** * Searching forwards *)

Section whole_words.
Variables (b : buffer) (value : bool).
Let sel idx := select_word value (word b idx).

Lemma zero_word idx : 0 <= idx -> sel idx = 0 -> none b value (64 * idx) (64 * idx + 64).
Proof.
  intros Hi H0. pose proof (part_zero b value (64 * idx) (64 * idx + 64) idx ltac:(lia)
    (whole_span idx Hi)) as H. rewrite part_whole in H. specialize (H H0).
  rewrite Z.max_id, Z.min_id in H. done.
Qed.

Lemma first_word idx :
  0 <= idx -> sel idx <> 0 ->
  let r := first_in idx (sel idx) in
  64 * idx <= r < 64 * idx + 64 /\ has_value b value r = true /\ none b value (64 * idx) r.
Proof.
  intros Hi H0. pose proof (part_first b value (64 * idx) (64 * idx + 64) idx ltac:(lia)
    (whole_span idx Hi)) as H. rewrite part_whole in H. specialize (H H0).
  by rewrite Z.max_id, Z.min_id in H.
Qed.

Lemma last_word idx :
  0 <= idx -> sel idx <> 0 ->
  let r := last_in idx (sel idx) in
  64 * idx <= r < 64 * idx + 64 /\ has_value b value r = true
  /\ none b value (r + 1) (64 * idx + 64).
Proof.
  intros Hi H0. pose proof (part_last b value (64 * idx) (64 * idx + 64) idx ltac:(lia)
    (whole_span idx Hi)) as H. rewrite part_whole in H. specialize (H H0).
  by rewrite Z.max_id, Z.min_id in H.
Qed.
End whole_words.

Lemma words_none b value w w2 :
  0 <= w -> (forall idx, w <= idx < w2 -> select_word value (word b idx) = 0) ->
  none b value (64 * w) (64 * w2).
Proof.
  intros Hw H i Hi. pose proof (Z.div_mod i 64). pose proof (Z.mod_pos_bound i 64).
  apply (zero_word b value (i / 64)); [lia|apply H; lia|lia].
Qed.

Lemma lanes_lookup b w n x :
  [word b w; word b (w + 1); word b (w + 2); word b (w + 3)] !! n = Some x ->
  (n < 4)%nat /\ x = word b (w + Z.of_nat n).
Proof.
  destruct n as [|[|[|[|n]]]]; simpl; intros [= <-]; (split; [lia|]); f_equal; lia.
Qed.

Lemma lanes_lookup_at b w idx :
  w <= idx < w + 4 ->
  [word b w; word b (w + 1); word b (w + 2); word b (w + 3)] !! Z.to_nat (idx - w)
  = Some (word b idx).
Proof.
  intros H. assert (idx = w \/ idx = w + 1 \/ idx = w + 2 \/ idx = w + 3) as
    [->|[->|[->| ->]]] by lia; [replace (w - w) with 0 by lia|replace (w + 1 - w) with 1 by lia
    |replace (w + 2 - w) with 2 by lia|replace (w + 3 - w) with 3 by lia]; done.
Qed.

Section forwards.
Variable b : buffer.

(** After a loop over the words from [w] below [fe]: a position, or the words
    passed so far. *)
Definition first_post (w fe : Z) (r : Z + Z) : Prop :=
  match r with
  | inl p => 64 * w <= p < 64 * fe /\ has_value b true p = true /\ none b true (64 * w) p
  | inr w' => w <= w' <= Z.max w fe /\ none b true (64 * w) (64 * w')
  end.

Lemma first_post_skip w w2 fe r :
  w <= w2 <= fe -> none b true (64 * w) (64 * w2) -> first_post w2 fe r -> first_post w fe r.
Proof.
  intros Hw Hn. destruct r as [p|w']; simpl.
  - intros (Hp & Hv & Hn'). split; [lia|]. split; [done|]. by eapply none_app.
  - intros (Hw' & Hn'). split; [lia|]. by eapply none_app.
Qed.

Lemma first_lanes_ok fuel w fe :
  0 <= w -> 8 * fe <= buf_bytes b -> (Z.to_nat (fe - w) < fuel)%nat ->
  exists r, first_lanes b fuel w fe = Ok r /\ first_post w fe r.
Proof.
  revert w. induction fuel as [|fuel IH]; intros w Hw Hb Hf; [lia|]. cbn [first_lanes].
  destruct (w + 4 <=? fe) eqn:E.
  - rewrite load_lanes_ok by lia. cbn [rbind].
    destruct (rest_lanes _ _ =? 0) eqn:Er; cbn [negb].
    + rewrite rest_lanes_none in Er. destruct (IH (w + 4)) as (r & -> & Hr); [lia|done|lia|].
      exists r. split; [done|]. eapply first_post_skip; [|apply words_none; [done|]|exact Hr]; [lia|].
      intros idx Hidx. assert (idx = w \/ idx = w + 1 \/ idx = w + 2 \/ idx = w + 3)
        as [->|[->|[->| ->]]] by lia; simpl; zbool.
    + apply rest_lanes_first in Er as (n & x & -> & Hx & Hnz & Hz).
      apply lanes_lookup in Hx as [Hn ->].
      rewrite load_word_ok by lia. cbn [rbind]. eexists. split; [done|]. simpl.
      destruct (first_word b true (w + Z.of_nat n)) as (Hp & Hv & Hbelow); [lia|simpl; zbool|].
      simpl in *. split; [lia|]. split; [done|]. eapply none_app; [|exact Hbelow].
      apply words_none; [done|]. intros idx Hidx. simpl.
      specialize (Hz (Z.to_nat (idx - w)) (word b idx) ltac:(lia)). apply Z.eqb_eq, Hz.
      apply lanes_lookup_at; lia.
  - exists (inr w). split; [done|]. simpl. split; [lia|]. apply none_empty. lia.
Qed.

Lemma first_words_ok fuel w fe :
  0 <= w -> 8 * fe <= buf_bytes b -> (Z.to_nat (fe - w) < fuel)%nat ->
  exists r, first_words b fuel w fe = Ok r /\ first_post w fe r
    /\ forall w', r = inr w' -> fe <= w'.
Proof.
  revert w. induction fuel as [|fuel IH]; intros w Hw Hb Hf; [lia|]. cbn [first_words].
  destruct (w <? fe) eqn:E.
  - rewrite load_word_ok by lia. cbn [rbind]. destruct (word b w =? 0) eqn:E0; cbn [negb].
    + destruct (IH (w + 1)) as (r & -> & Hr & Hend); [lia|done|lia|]. exists r.
      split; [done|]. split; [|done]. eapply first_post_skip; [|apply words_none; [done|]|exact Hr];
        [lia|]. intros idx Hidx. replace idx with w by lia. simpl. zbool.
    + destruct (first_word b true w) as (Hp & Hv & Hbelow); [lia|simpl; zbool|].
      eexists. split; [done|]. split; [|done]. simpl in *. split; [lia|]. done.
  - exists (inr w). split; [done|]. split; [|intros w' [= <-]; lia]. simpl. split; [lia|].
    apply none_empty. lia.
Qed.
(** The last, partial word. *)
Lemma first_rest w e :
  0 <= w -> 64 * w <= e < 64 * w + 64 -> has_words b e ->
  exists r,
    (if negb (Z.land e 63 =? 0) then
       let! low := lowMask (Z.land e 63) in
       let! word := load_word b w in
       let word := Z.land word low in
       if negb (word =? 0) then Ok (first_in w word) else Ok (-1)
     else Ok (-1)) = Ok r /\ is_first b true (64 * w) e r.
Proof.
  intros Hw He Hb. rewrite land_63.
  assert (e mod 64 = e - 64 * w) as -> by (pose proof (Z.div_mod e 64); rewrite (div_64 e w) in *; lia).
  destruct (e - 64 * w =? 0) eqn:E; cbn [negb].
  { exists (-1). split; [done|]. left. split; [done|]. apply none_empty. lia. }
  rewrite mask_below, load_word_ok by (lia || (eapply has_words_lt; [done|lia|lia])).
  cbn [rbind]. change (Z.land (word b w) (range_mask (64 * w) e w)) with (part_of b true (64 * w) e w).
  assert (w ∈ word_span (64 * w) e) as Hin by (apply word_span_elem; lia).
  destruct (part_of b true (64 * w) e w =? 0) eqn:E0; cbn [negb]; eexists; (split; [done|]).
  - left. split; [done|]. pose proof (part_zero b true (64 * w) e w ltac:(lia) Hin) as H.
    eapply none_sub; [apply H; zbool|lia|lia].
  - right. pose proof (part_first b true (64 * w) e w ltac:(lia) Hin ltac:(zbool)) as (H1 & H2 & H3).
    split; [lia|]. split; [done|]. eapply none_sub; [exact H3|lia|lia].
Qed.

Lemma has_words_full e : 0 <= e -> has_words b e -> 8 * (e / 64) <= buf_bytes b.
Proof.
  intros He H. unfold has_words in H.
  assert (e / 64 <= (e + 63) / 64) by (apply Z.div_le_mono; lia). lia.
Qed.

Lemma first_tail_ok w e :
  0 <= w -> 64 * w <= e -> has_words b e ->
  exists r, first_tail b w e = Ok r /\ is_first b true (64 * w) e r.
Proof.
  intros Hw He Hb. unfold first_tail. rewrite shiftr_6.
  pose proof (has_words_full e ltac:(lia) Hb) as Hfull.
  pose proof (Z.div_mod e 64). pose proof (Z.mod_pos_bound e 64).
  assert (w <= e / 64) by (apply Z.div_le_lower_bound; lia). set (fe := e / 64) in *.
  destruct (first_lanes_ok (search_fuel fe) w fe) as (r & -> & Hr);
    [done|done|unfold search_fuel; lia|]. cbn [rbind].
  destruct r as [p|w']; simpl in Hr.
  { exists p. split; [done|]. right. split; [lia|exact (proj2 Hr)]. }
  destruct Hr as [Hw' Hn].
  destruct (first_words_ok (search_fuel fe) w' fe) as (r & -> & Hr & Hend);
    [lia|done|unfold search_fuel; lia|]. cbn [rbind].
  destruct r as [p|w2]; simpl in Hr.
  { exists p. split; [done|]. eapply is_first_skip; [|exact Hn|]; [lia|]. right.
    split; [lia|exact (proj2 Hr)]. }
  specialize (Hend w2 eq_refl). assert (w2 = fe) as -> by lia.
  destruct (first_rest fe e) as (r & Hrun & Hrest); [lia|lia|done|]. cbv zeta in Hrun.
  rewrite Hrun. exists r. split; [done|].
  eapply is_first_skip; [|exact Hn|]; [lia|]. eapply is_first_skip; [|apply Hr|done]. lia.
Qed.

(** [findFirstBit] returns the first set bit of the range, or -1. *)
Lemma findFirstBit_ok begin e :
  0 <= begin -> e <= INT32_MAX - 64 -> has_words b e ->
  exists r, findFirstBit b begin e = Ok r /\ is_first b true begin e r.
Proof.
  intros Hbegin He Hb. unfold findFirstBit. destruct (begin >=? e) eqn:E.
  { exists (-1). split; [done|]. left. split; [done|]. apply none_empty. lia. }
  rewrite shiftr_6, land_63. pose proof (Z.div_mod begin 64). pose proof (Z.mod_pos_bound begin 64).
  set (w := begin / 64) in *. replace (begin mod 64) with (begin - 64 * w) by lia.
  destruct (begin - 64 * w =? 0) eqn:E0; cbn [negb].
  { destruct (first_tail_ok w e) as (r & -> & Hr); [lia|lia|done|]. exists r. split; [done|].
    by replace begin with (64 * w) by lia. }
  rewrite load_word_ok by (lia || (eapply has_words_lt; [done|lia|lia])). cbn [rbind].
  rewrite mask_from by lia. cbn [rbind]. rewrite shiftl_6, ck32_in by lia. cbn [rbind].
  set (hi := Z.min e (64 * w + 64)). assert (w ∈ word_span begin hi) as Hin
    by (apply word_span_elem; lia).
  assert ((if 64 * w + 64 >? e
           then let! low := lowMask (e - 64 * w) in
                Ok (Z.land (Z.land (word b w) (range_mask begin (64 * w + 64) w)) low)
           else Ok (Z.land (word b w) (range_mask begin (64 * w + 64) w)))
          = Ok (part_of b true begin hi w)) as ->.
  { destruct (64 * w + 64 >? e) eqn:El.
    - rewrite mask_below by lia. cbn [rbind]. f_equal. unfold hi, part_of. simpl select_word.
      rewrite <- Z.land_assoc, mask_both by lia. by replace (Z.min _ _) with e by lia.
    - f_equal. unfold hi, part_of. by replace (Z.min _ _) with (64 * w + 64) by lia. }
  cbn [rbind]. destruct (part_of b true begin hi w =? 0) eqn:Ez; cbn [negb].
  - pose proof (part_zero b true begin hi w Hbegin Hin ltac:(zbool)) as Hnone.
    destruct (64 * w + 64 >? e) eqn:El.
    + exists (-1). split; [done|]. left. split; [done|]. eapply none_sub; [done|lia|lia].
    + destruct (first_tail_ok (w + 1) e) as (r & -> & Hr); [lia|lia|done|]. exists r.
      split; [done|]. eapply is_first_skip; [| |exact Hr]; [lia|].
      eapply none_sub; [exact Hnone|lia|lia].
  - pose proof (part_first b true begin hi w Hbegin Hin ltac:(zbool)) as (H1 & H2 & H3).
    eexists. split; [done|]. right. split; [lia|]. split; [done|].
    eapply none_sub; [exact H3|lia|lia].
Qed.
End forwards.

(** * Searching backwards *)

Section backwards.
Variables (b : buffer) (value : bool).
Let sel idx := select_word value (word b idx).

Definition last_post (we fb : Z) (r : Z + Z) : Prop :=
  match r with
  | inl p => 64 * fb <= p < 64 * we /\ has_value b value p = true
             /\ none b value (p + 1) (64 * we)
  | inr w' => Z.min we fb <= w' <= we /\ none b value (64 * w') (64 * we)
  end.

Lemma last_post_skip we w2 fb r :
  fb <= w2 <= we -> none b value (64 * w2) (64 * we) -> last_post w2 fb r -> last_post we fb r.
Proof.
  intros Hw Hn. destruct r as [p|w']; simpl.
  - intros (Hp & Hv & Hn'). split; [lia|]. split; [done|]. by eapply none_app.
  - intros (Hw' & Hn'). split; [lia|]. by eapply none_app.
Qed.

Lemma select_lanes w :
  map (fun word => Z.lxor word (if value then 0 else UINT64_MAX))
    [word b w; word b (w + 1); word b (w + 2); word b (w + 3)]
  = [sel w; sel (w + 1); sel (w + 2); sel (w + 3)].
Proof. unfold sel. destruct value; simpl; [by rewrite !Z.lxor_0_r|done]. Qed.

Lemma sel_lookup w n x :
  [sel w; sel (w + 1); sel (w + 2); sel (w + 3)] !! n = Some x ->
  (n < 4)%nat /\ x = sel (w + Z.of_nat n).
Proof.
  destruct n as [|[|[|[|n]]]]; simpl; intros [= <-]; (split; [lia|]); f_equal; lia.
Qed.

Lemma sel_lookup_at w idx :
  w <= idx < w + 4 ->
  [sel w; sel (w + 1); sel (w + 2); sel (w + 3)] !! Z.to_nat (idx - w) = Some (sel idx).
Proof.
  intros H. assert (idx = w \/ idx = w + 1 \/ idx = w + 2 \/ idx = w + 3) as
    [->|[->|[->| ->]]] by lia; [replace (w - w) with 0 by lia|replace (w + 1 - w) with 1 by lia
    |replace (w + 2 - w) with 2 by lia|replace (w + 3 - w) with 3 by lia]; done.
Qed.

Lemma last_lanes_ok fuel we fb :
  0 <= fb -> 0 <= we -> 8 * we <= buf_bytes b -> (Z.to_nat we < fuel)%nat ->
  exists r, last_lanes b value fuel we fb = Ok r /\ last_post we fb r.
Proof.
  revert we. induction fuel as [|fuel IH]; intros we Hfb Hwe Hb Hf; [lia|]. cbn [last_lanes].
  destruct (we >=? fb + 4) eqn:E.
  - rewrite load_lanes_ok by lia. cbn [rbind]. rewrite select_lanes.
    remember (we - 4) as w eqn:Hw. destruct (rest_lanes _ _ =? 0) eqn:Er; cbn [negb].
    + rewrite rest_lanes_none in Er. destruct (IH w) as (r & -> & Hr); [lia..|].
      exists r. split; [done|]. apply (last_post_skip we w); [lia|apply words_none; [lia|]|exact Hr].
      intros idx Hidx. fold (sel idx).
      assert (idx = w \/ idx = w + 1 \/ idx = w + 2 \/ idx = w + 3)
        as [->|[->|[->| ->]]] by lia; zbool.
    + apply rest_lanes_last in Er as (n & x & -> & Hx & Hnz & Hz).
      apply sel_lookup in Hx as [Hn ->].
      rewrite load_word_ok by lia. cbn [rbind]. eexists. split; [done|]. simpl.
      fold (sel (w + Z.of_nat n)).
      destruct (last_word b value (w + Z.of_nat n)) as (Hp & Hv & Habove); [lia|unfold sel in *; zbool|].
      fold (sel (w + Z.of_nat n)) in Hp, Hv, Habove.
      split; [lia|]. split; [done|]. eapply none_app; [exact Habove|].
      replace (64 * (w + Z.of_nat n) + 64) with (64 * (w + Z.of_nat n + 1)) by lia.
      apply words_none; [lia|]. intros idx Hidx. fold (sel idx).
      specialize (Hz (Z.to_nat (idx - w)) (sel idx) ltac:(lia)). apply Z.eqb_eq, Hz.
      apply sel_lookup_at; lia.
  - exists (inr we). split; [done|]. simpl. split; [lia|]. apply none_empty. lia.
Qed.

Lemma last_words_ok fuel we fb :
  0 <= fb -> 0 <= we -> 8 * we <= buf_bytes b -> (Z.to_nat we < fuel)%nat ->
  exists r, last_words b value fuel we fb = Ok r
    /\ match r with
       | Some p => last_post we fb (inl p)
       | None => none b value (64 * fb) (64 * we)
       end.
Proof.
  revert we. induction fuel as [|fuel IH]; intros we Hfb Hwe Hb Hf; [lia|]. cbn [last_words].
  destruct (we >? fb) eqn:E.
  - rewrite load_word_ok by lia. cbn [rbind]. fold (sel (we - 1)).
    destruct (sel (we - 1) =? 0) eqn:E0; cbn [negb].
    + assert (none b value (64 * (we - 1)) (64 * we)) as Hz.
      { apply words_none; [lia|]. intros idx Hidx. replace idx with (we - 1) by lia.
        fold (sel (we - 1)). lia. }
      destruct (IH (we - 1)) as (r & -> & Hr); [lia..|]. exists r.
      split; [done|]. destruct r as [p|].
      * by eapply last_post_skip; [|exact Hz|exact Hr]; lia.
      * by eapply none_app.
    + destruct (last_word b value (we - 1)) as (Hp & Hv & Habove); [lia|unfold sel in *; zbool|].
      eexists. split; [done|]. simpl. unfold sel. split; [lia|]. split; [done|].
      eapply none_sub; [exact Habove|lia|lia].
  - exists None. split; [done|]. apply none_empty. lia.
Qed.

Lemma last_tail_ok we begin :
  0 <= begin <= INT32_MAX - 63 -> begin <= 64 * we -> 8 * we <= buf_bytes b ->
  exists r, last_tail b value we begin = Ok r /\ is_last b value begin (64 * we) r.
Proof.
  intros Hbegin Hwe Hb. unfold last_tail. rewrite ck32_in by lia. cbn [rbind].
  rewrite !shiftr_6, land_63.
  pose proof (Z.div_mod begin 64). pose proof (Z.mod_pos_bound begin 64).
  pose proof (Z.div_mod (begin + 63) 64). pose proof (Z.mod_pos_bound (begin + 63) 64).
  set (w := begin / 64) in *. set (fb := (begin + 63) / 64) in *.
  assert (fb <= we) by lia. replace (begin mod 64) with (begin - 64 * w) by lia.
  destruct (last_lanes_ok (search_fuel we) we fb) as (r & -> & Hr);
    [lia|lia|done|unfold search_fuel; lia|]. cbn [rbind].
  destruct r as [p|w']; simpl in Hr.
  { exists p. split; [done|]. right. split; [lia|exact (proj2 Hr)]. }
  destruct Hr as [Hw' Hn].
  destruct (last_words_ok (search_fuel w') w' fb) as (r & -> & Hr);
    [lia|lia|lia|unfold search_fuel; lia|]. cbn [rbind].
  destruct r as [p|]; simpl in Hr.
  { exists p. split; [done|]. eapply is_last_skip; [|exact Hn|]; [lia|]. right.
    split; [lia|exact (proj2 Hr)]. }
  assert (none b value (64 * fb) (64 * we)) as Hall by (by eapply none_app).
  destruct (begin - 64 * w =? 0) eqn:E0; cbn [negb].
  { exists (-1). split; [done|]. left. split; [done|]. eapply none_sub; [done|lia|lia]. }
  rewrite load_word_ok by lia. cbn [rbind]. rewrite mask_from by lia. cbn [rbind].
  fold (part_of b value begin (64 * w + 64) w).
  assert (w ∈ word_span begin (64 * w + 64)) as Hin by (apply word_span_elem; lia).
  destruct (part_of b value begin (64 * w + 64) w =? 0) eqn:Ez; cbn [negb]; eexists; (split; [done|]).
  - pose proof (part_zero b value begin (64 * w + 64) w ltac:(lia) Hin ltac:(zbool)) as Hz.
    left. split; [done|]. eapply (none_app _ _ _ (64 * fb)); [|done].
    eapply none_sub; [exact Hz|lia|lia].
  - pose proof (part_last b value begin (64 * w + 64) w ltac:(lia) Hin ltac:(zbool)) as (Hpos & Hval & Habove).
    right. split; [lia|]. split; [done|]. eapply (none_app _ _ _ (64 * fb)); [|done].
    eapply none_sub; [exact Habove|lia|lia].
Qed.

(** [findLastBit] returns the last bit of the range with the value, or -1. *)
Lemma findLastBit_ok begin e :
  0 <= begin -> e <= INT32_MAX - 64 -> has_words b e ->
  exists r, findLastBit b value begin e = Ok r /\ is_last b value begin e r.
Proof.
  intros Hbegin He Hb. unfold findLastBit. destruct (begin >=? e) eqn:E.
  { exists (-1). split; [done|]. left. split; [done|]. apply none_empty. lia. }
  rewrite !shiftr_6, !land_63. pose proof (Z.div_mod begin 64). pose proof (Z.mod_pos_bound begin 64).
  pose proof (Z.div_mod e 64). pose proof (Z.mod_pos_bound e 64).
  pose proof (has_words_full b e ltac:(lia) Hb) as Hfull.
  set (w := begin / 64) in *. set (we := e / 64) in *.
  replace (begin mod 64) with (begin - 64 * w) by lia. replace (e mod 64) with (e - 64 * we) by lia.
  assert (w <= we) by lia. destruct (e - 64 * we =? 0) eqn:E0; cbn [negb].
  { destruct (last_tail_ok we begin) as (r & -> & Hr); [lia|lia|done|]. exists r. split; [done|].
    by replace e with (64 * we) by lia. }
  set (lo := Z.max begin (64 * we)). assert (we ∈ word_span lo e) as Hin
    by (apply word_span_elem; lia).
  rewrite mask_below by lia. cbn [rbind].
  assert ((if we =? w
           then let! high := bits_from (begin - 64 * w) in
                Ok (Z.land (range_mask (64 * we) e we) high)
           else Ok (range_mask (64 * we) e we)) = Ok (range_mask lo e we)) as ->.
  { destruct (we =? w) eqn:Ew.
    - assert (we = w) as -> by lia. rewrite mask_from by lia. cbn [rbind]. f_equal.
      rewrite Z.land_comm, mask_both by lia. f_equal. lia.
    - f_equal. f_equal. lia. }
  cbn [rbind]. rewrite load_word_ok by (lia || (eapply has_words_lt; [done|lia|lia])).
  cbn [rbind]. fold (part_of b value lo e we).
  destruct (part_of b value lo e we =? 0) eqn:Ez; cbn [negb].
  - pose proof (part_zero b value lo e we ltac:(lia) Hin ltac:(zbool)) as Hz.
    destruct (we =? w) eqn:Ew.
    + eexists. split; [done|]. left. split; [done|]. eapply none_sub; [exact Hz|lia|lia].
    + destruct (last_tail_ok we begin) as (r & -> & Hr); [lia|lia|done|]. exists r.
      split; [done|]. eapply is_last_skip; [| |exact Hr]; [lia|].
      eapply none_sub; [exact Hz|lia|lia].
  - pose proof (part_last b value lo e we ltac:(lia) Hin ltac:(zbool)) as (Hpos & Hval & Habove).
    eexists. split; [done|]. right. split; [lia|]. split; [done|].
    eapply none_sub; [exact Habove|lia|lia].
Qed.
End backwards.

(** * Testing a whole range *)

Section all_set_bits.
Variables (b : buffer) (value : bool).
Let expected := if value then UINT64_MAX else 0.
Abbreviation other := (negb value).

Lemma expected_masked w mask :
  (Z.land w mask =? Z.land expected mask) = (Z.land (select_word other w) mask =? 0).
Proof.
  unfold expected. destruct value; simpl; [|by rewrite Z.land_0_l].
  apply eq_true_iff_eq. rewrite !Z.eqb_eq. unfold not64.
  assert (Z.land (Z.lxor w UINT64_MAX) mask = Z.lxor (Z.land w mask) (Z.land UINT64_MAX mask)) as ->.
  { apply Z.bits_inj'. intros j Hj. rewrite Z.land_spec, !Z.lxor_spec, !Z.land_spec.
    by destruct (Z.testbit w j), (Z.testbit UINT64_MAX j), (Z.testbit mask j). }
  by rewrite Z.lxor_eq_0_iff.
Qed.

Lemma expected_whole w :
  (w =? expected) = (select_word other w =? 0).
Proof.
  unfold expected. destruct value; simpl; [|done].
  apply eq_true_iff_eq. rewrite !Z.eqb_eq. unfold not64. by rewrite Z.lxor_eq_0_iff.
Qed.

Lemma not_none p lo hi : lo <= p < hi -> has_value b other p = true -> ~ none b other lo hi.
Proof. intros Hp Hv Hn. rewrite (Hn p Hp) in Hv. done. Qed.

Lemma nonzero_word idx lo hi :
  0 <= idx -> lo <= 64 * idx -> 64 * idx + 64 <= hi ->
  select_word other (word b idx) <> 0 -> ~ none b other lo hi.
Proof.
  intros Hi Hlo Hhi Hnz. destruct (first_word b other idx Hi Hnz) as (Hp & Hv & _).
  eapply not_none; [|exact Hv]. lia.
Qed.

Definition all_post (w fe : Z) (r : Z * bool) : Prop :=
  if snd r then w <= fst r <= Z.max w fe /\ none b other (64 * w) (64 * fst r)
  else ~ none b other (64 * w) (64 * fe).

Lemma all_post_skip w w2 fe r :
  w <= w2 <= fe -> none b other (64 * w) (64 * w2) -> all_post w2 fe r -> all_post w fe r.
Proof.
  intros Hw Hn. unfold all_post. destruct (snd r).
  - intros (Hw' & Hn'). split; [lia|]. by eapply none_app.
  - intros Hno Hall. apply Hno. eapply none_sub; [exact Hall|lia|lia].
Qed.

Lemma all_set_lanes_ok fuel w fe :
  0 <= w -> 8 * fe <= buf_bytes b -> (Z.to_nat (fe - w) < fuel)%nat ->
  exists r, all_set_lanes b expected fuel w fe = Ok r /\ all_post w fe r.
Proof.
  revert w. induction fuel as [|fuel IH]; intros w Hw Hb Hf; [lia|]. cbn [all_set_lanes].
  destruct (w + 4 <=? fe) eqn:E.
  - rewrite load_lanes_ok by lia. cbn [rbind]. rewrite movemask_all, !expected_whole.
    destruct (_ && _) eqn:Eall; cbn [negb].
    + destruct (IH (w + 4)) as (r & -> & Hr); [lia|done|lia|]. exists r. split; [done|].
      apply (all_post_skip w (w + 4)); [lia|apply words_none; [lia|]|exact Hr].
      intros idx Hidx. assert (idx = w \/ idx = w + 1 \/ idx = w + 2 \/ idx = w + 3)
        as [->|[->|[->| ->]]] by lia; zbool.
    + eexists. split; [done|]. simpl. rewrite !andb_false_iff, !Z.eqb_neq in Eall.
      destruct Eall as [[[?|?]|?]|?]; (eapply nonzero_word; [| | |eassumption]; lia).
  - exists (w, true). split; [done|]. split; [simpl; lia|]. apply none_empty. simpl. lia.
Qed.

Lemma all_set_words_ok fuel w fe :
  0 <= w -> 8 * fe <= buf_bytes b -> (Z.to_nat (fe - w) < fuel)%nat ->
  exists r, all_set_words b expected fuel w fe = Ok r /\ all_post w fe r
    /\ (snd r = true -> fe <= fst r).
Proof.
  revert w. induction fuel as [|fuel IH]; intros w Hw Hb Hf; [lia|]. cbn [all_set_words].
  destruct (w <? fe) eqn:E.
  - rewrite load_word_ok by lia. cbn [rbind]. rewrite expected_whole.
    destruct (_ =? 0) eqn:E0; cbn [negb].
    + destruct (IH (w + 1)) as (r & -> & Hr & Hend); [lia|done|lia|]. exists r.
      split; [done|]. split; [|done].
      apply (all_post_skip w (w + 1)); [lia|apply words_none; [lia|]|exact Hr].
      intros idx Hidx. replace idx with w by lia. zbool.
    + eexists. split; [done|]. split; [|done]. simpl.
      apply (nonzero_word w); [lia|lia|lia|zbool].
  - exists (w, true). split; [done|]. split; [|simpl; lia]. split; [simpl; lia|].
    apply none_empty. simpl. lia.
Qed.

Lemma part_test lo hi idx :
  0 <= lo -> idx ∈ word_span lo hi -> 64 * idx <= lo -> hi <= 64 * idx + 64 ->
  (part_of b other lo hi idx =? 0) = true <-> none b other lo hi.
Proof.
  intros Hlo Hin H1 H2. rewrite Z.eqb_eq. split.
  - intros H0. pose proof (part_zero b other lo hi idx Hlo Hin H0) as H.
    eapply none_sub; [exact H|lia|lia].
  - intros Hn. destruct (decide (part_of b other lo hi idx = 0)) as [|Hnz]; [done|].
    destruct (part_first b other lo hi idx Hlo Hin Hnz) as (Hp & Hv & _).
    rewrite (Hn (first_in idx (part_of b other lo hi idx))) in Hv by lia. done.
Qed.

Lemma all_set_tail_ok w e :
  0 <= w -> 64 * w <= e -> has_words b e ->
  exists r, all_set_tail b expected w e = Ok r /\ (r = true <-> none b other (64 * w) e).
Proof.
  intros Hw He Hb. unfold all_set_tail. rewrite shiftr_6, land_63.
  pose proof (has_words_full b e ltac:(lia) Hb) as Hfull.
  pose proof (Z.div_mod e 64). pose proof (Z.mod_pos_bound e 64).
  assert (w <= e / 64) by (apply Z.div_le_lower_bound; lia). set (fe := e / 64) in *.
  replace (e mod 64) with (e - 64 * fe) by lia.
  destruct (all_set_lanes_ok (search_fuel fe) w fe) as ([w1 ok1] & -> & Hr1);
    [done|done|unfold search_fuel; lia|]. cbn [rbind fst snd].
  destruct ok1; cbn [negb].
  2: { exists false. split; [done|]. split; [done|]. intros Hn. destruct Hr1.
       eapply none_sub; [exact Hn|lia|lia]. }
  destruct Hr1 as [Hw1 Hn1]. simpl in Hw1, Hn1.
  destruct (all_set_words_ok (search_fuel fe) w1 fe) as ([w2 ok2] & -> & Hr2 & Hend);
    [lia|done|unfold search_fuel; lia|]. cbn [rbind fst snd].
  destruct ok2; cbn [negb].
  2: { exists false. split; [done|]. split; [done|]. intros Hn. destruct Hr2.
       eapply none_sub; [exact Hn|simpl; lia|lia]. }
  destruct Hr2 as [Hw2 Hn2]. simpl in Hw2, Hn2, Hend. specialize (Hend eq_refl).
  assert (w2 = fe) as -> by lia. assert (none b other (64 * w) (64 * fe)) as Hn
    by (by eapply none_app).
  destruct (e - 64 * fe =? 0) eqn:E0; cbn [negb].
  { exists true. split; [done|]. split; [|done]. intros _. eapply none_sub; [exact Hn|lia|lia]. }
  rewrite mask_below by lia. cbn [rbind].
  rewrite load_word_ok by (lia || (eapply has_words_lt; [done|lia|lia])). cbn [rbind].
  rewrite expected_masked. fold (part_of b other (64 * fe) e fe). eexists. split; [done|].
  rewrite part_test; [|lia|apply word_span_elem; lia|lia|lia]. split.
  - intros Hl. by eapply none_app.
  - intros Hl. eapply none_sub; [exact Hl|lia|lia].
Qed.

(** [isAllSet] tests every bit of the range. *)
Lemma isAllSet_ok begin e :
  0 <= begin -> e <= INT32_MAX - 64 -> has_words b e ->
  exists r, isAllSet b begin e value = Ok r /\ (r = true <-> none b other begin e).
Proof.
  intros Hbegin He Hb. unfold isAllSet. fold expected. destruct (begin >=? e) eqn:E.
  { exists true. split; [done|]. split; [|done]. intros _. apply none_empty. lia. }
  rewrite shiftr_6, land_63. pose proof (Z.div_mod begin 64). pose proof (Z.mod_pos_bound begin 64).
  set (w := begin / 64) in *. replace (begin mod 64) with (begin - 64 * w) by lia.
  destruct (begin - 64 * w =? 0) eqn:E0; cbn [negb].
  { destruct (all_set_tail_ok w e) as (r & -> & Hr); [lia|lia|done|]. exists r. split; [done|].
    by replace begin with (64 * w) by lia. }
  rewrite mask_from by lia. cbn [rbind]. rewrite shiftl_6, ck32_in by lia. cbn [rbind].
  set (hi := Z.min e (64 * w + 64)). assert (w ∈ word_span begin hi) as Hin
    by (apply word_span_elem; lia).
  assert ((if 64 * w + 64 >? e
           then let! low := lowMask (e - 64 * w) in
                Ok (Z.land (range_mask begin (64 * w + 64) w) low)
           else Ok (range_mask begin (64 * w + 64) w)) = Ok (range_mask begin hi w)) as ->.
  { destruct (64 * w + 64 >? e) eqn:El.
    - rewrite mask_below by lia. cbn [rbind]. f_equal. rewrite mask_both by lia. f_equal. lia.
    - f_equal. f_equal. lia. }
  cbn [rbind]. rewrite load_word_ok by (lia || (eapply has_words_lt; [done|lia|lia])).
  cbn [rbind]. rewrite expected_masked. fold (part_of b other begin hi w).
  destruct (part_of b other begin hi w =? 0) eqn:Ez; cbn [negb].
  - apply part_test in Ez; [|lia|done|lia|lia]. destruct (64 * w + 64 >? e) eqn:El.
    + exists true. split; [done|]. split; [|done]. intros _. eapply none_sub; [exact Ez|lia|lia].
    + destruct (all_set_tail_ok (w + 1) e) as (r & -> & Hr); [lia|lia|done|]. exists r.
      split; [done|]. rewrite Hr. split; intros Hn.
      * eapply (none_app _ _ _ (64 * (w + 1))); [eapply none_sub; [exact Ez|lia|lia]|done].
      * eapply none_sub; [exact Hn|lia|lia].
  - exists false. split; [done|]. split; [done|]. intros Hn.
    assert ((part_of b other begin hi w =? 0) = true) as Ht; [|by rewrite Ht in Ez].
    apply part_test; [lia|done|lia|lia|]. eapply none_sub; [exact Hn|lia|lia].
Qed.
End all_set_bits.

(** * Properties *)

(** C25. The searches end without reading outside the buffer: [isAllSet] tells
    whether every bit of the range has the value, [findFirstBit] returns the
    first set bit, [findLastBit] the last bit with the value, and -1 when
    there is none. *)
Theorem bit_searches b begin e value :
  0 <= begin -> e <= INT32_MAX - 64 -> has_words b e ->
  (exists r, isAllSet b begin e value = Ok r
     /\ (r = true <-> forall i, begin <= i < e -> bit b i = value))
  /\ (exists r, findFirstBit b begin e = Ok r
       /\ ((r = -1 /\ forall i, begin <= i < e -> bit b i = false)
           \/ (begin <= r < e /\ bit b r = true /\ forall i, begin <= i < r -> bit b i = false)))
  /\ (exists r, findLastBit b value begin e = Ok r
       /\ ((r = -1 /\ forall i, begin <= i < e -> bit b i = negb value)
           \/ (begin <= r < e /\ bit b r = value /\ forall i, r < i < e -> bit b i = negb value))).
Proof.
  intros Hb He Hw. split_and!.
  - destruct (isAllSet_ok b value begin e Hb He Hw) as (r & Hrun & Hr). exists r.
    split; [done|]. rewrite Hr. unfold none, has_value. split; intros H i Hi; specialize (H i Hi).
    + by destruct (bit b i), value.
    + rewrite H. by destruct value.
  - destruct (findFirstBit_ok b begin e Hb He Hw) as (r & Hrun & Hr). exists r. split; [done|].
    unfold is_first, none, has_value in Hr.
    destruct Hr as [[-> H]|(Hpos & Hv & H)]; [left|right].
    + split; [done|]. intros i Hi. specialize (H i Hi). by destruct (bit b i).
    + split; [done|]. split; [by destruct (bit b r)|].
      intros i Hi. specialize (H i Hi). by destruct (bit b i).
  - destruct (findLastBit_ok b value begin e Hb He Hw) as (r & Hrun & Hr). exists r.
    split; [done|]. unfold is_last, none, has_value in Hr.
    destruct Hr as [[-> H]|(Hpos & Hv & H)]; [left|right].
    + split; [done|]. intros i Hi. specialize (H i Hi). by destruct (bit b i), value.
    + split; [done|]. split; [by destruct (bit b r), value|].
      intros i Hi. specialize (H i ltac:(lia)). by destruct (bit b i), value.
Qed.

Lemma bit_searches_witness :
  findFirstBit (buffer_of [0; 0; 0; 0; 4]) 3 300 = Ok 258
  /\ exists r, findLastBit (buffer_of [8; 0; 0; 0; 0]) true 3 300 = Ok r
     /\ ((r = -1 /\ forall i, 3 <= i < 300 -> bit (buffer_of [8; 0; 0; 0; 0]) i = false)
         \/ (3 <= r < 300 /\ bit (buffer_of [8; 0; 0; 0; 0]) r = true
             /\ forall i, r < i < 300 -> bit (buffer_of [8; 0; 0; 0; 0]) i = false)).
Proof.
  split; [vm_compute; reflexivity|].
  destruct (bit_searches (buffer_of [8; 0; 0; 0; 0]) 3 300 true) as (_ & _ & H);
    [lia|lia|vm_compute; discriminate|]. exact H.
Defined.
