(* ===== verification/BitCopy.v ===== *)
(** Moving bits (bolt/common/base/BitUtil.h and BitUtil.cpp): negation, reversal of
    the bits of bytes, copies between bit offsets, forwards and backwards over
    overlapping ranges, and the scatter of consecutive bits to the positions of
    a mask, by single bits and by words. *)

From S2P Require Import Prelude BitUtil BitWords.

(** * Bytes *)

(** [negate(char* bits, int32_t size)] *)
Definition negate (bits : buffer) (size : Z) : result buffer :=
  let fuel := S (Z.to_nat size) in
  let! r := for_res (fun i => let! next := ck32 (i + 64) in Ok (next <=? size)) 64
    (fun bits i =>
       let! word := load 8 bits (i / 8) in
       store 8 bits (i / 8) (Z.lnot word)) fuel 0 bits in
  let! r := for_res (fun i => let! next := ck32 (i + 8) in Ok (next <=? size)) 8
    (fun bits i =>
       let! byte := load 1 bits (i / 8) in
       store 1 bits (i / 8) (Z.lnot byte)) fuel (fst r) (snd r) in
  let! r := for_res (fun i => Ok (i <? size)) 1
    (fun bits i =>
       let! set := isBitSet 1 bits i in
       setBitTo bits i (negb set)) fuel (fst r) (snd r) in
  Ok (snd r).

(** One byte of [reverseBits]. *)
Definition reverse_byte (byte : Z) : Z :=
  Z.lor (Z.lor (Z.lor (Z.lor (Z.lor (Z.lor (Z.lor
    (Z.shiftl (Z.land byte 1) 7) (Z.shiftl (Z.land byte 2) 5))
    (Z.shiftl (Z.land byte 4) 3)) (Z.shiftl (Z.land byte 8) 1))
    (Z.shiftr (Z.land byte 16) 1)) (Z.shiftr (Z.land byte 32) 3))
    (Z.shiftr (Z.land byte 64) 5)) (Z.shiftr (Z.land byte 128) 7).

Definition reverseBits (bytes : buffer) (numBytes : Z) : result buffer :=
  let! r := for_res (fun i => Ok (i <? numBytes)) 1
    (fun bytes i =>
       let! byte := load 1 bytes i in
       store 1 bytes i (reverse_byte byte)) (S (Z.to_nat numBytes)) 0 bytes in
  Ok (snd r).

(** * Copies *)

(** [detail::loadBits<T>] and [detail::storeBits<T>] for a type of [n] bytes. *)
Definition loadBits (n : Z) (source : buffer) (bitOffset numBits : Z) : result Z :=
  let kBitSize := 8 * n in
  let address := bitOffset / 8 in
  let! word := load n source address in
  let bit := Z.land bitOffset 7 in
  if bit =? 0 then Ok word
  else if numBits + bit <=? kBitSize then Ok (Z.shiftr word bit)
  else
    let! lastByte := load 1 source (address + n) in
    let lastBits := Z.shiftl lastByte (kBitSize - bit) in
    Ok (wrap_unsigned kBitSize (Z.lor (Z.shiftr word bit) lastBits)).

Definition storeBits (n : Z) (target : buffer) (offset word numBits : Z) : result buffer :=
  let kBitSize := 8 * n in
  let address := offset / 8 in
  let bitOffset := Z.land offset 7 in
  let mask := wrap_unsigned 64 (Z.shiftl (if numBits =? 64 then UINT64_MAX
                                          else Z.shiftl 1 numBits - 1) bitOffset) in
  let! old := load n target address in
  let! target := store n target address
    (Z.lor (Z.land old (not64 mask)) (Z.land mask (wrap_unsigned 64 (Z.shiftl word bitOffset)))) in
  if numBits + bitOffset >? kBitSize then
    let lastByteBits := bitOffset + numBits - kBitSize in
    let lastByteMask := Z.shiftl 1 lastByteBits - 1 in
    let! last := load 1 target (address + n) in
    store 1 target (address + n)
      (Z.lor (Z.land last (Z.lnot lastByteMask))
             (Z.land lastByteMask (Z.shiftr word (kBitSize - bitOffset))))
  else Ok target.

(** One step of a copy between two buffers. *)
Definition copy_step (n : Z) (source : buffer) (sourceOffset : Z) (target : buffer)
    (targetOffset numBits : Z) : result buffer :=
  let! word := loadBits n source sourceOffset numBits in
  storeBits n target targetOffset word numBits.

Definition copyBits (source : buffer) (sourceOffset : Z) (target : buffer)
    (targetOffset numBits : Z) : result buffer :=
  let fuel := S (Z.to_nat numBits) in
  let! r := for_res (fun i => Ok (i + 64 <=? numBits)) 64
    (fun target i => copy_step 8 source (i + sourceOffset) target (targetOffset + i) 64)
    fuel 0 target in
  let '(i, target) := r in
  let! r :=
    if i + 32 <=? numBits then
      let! target := copy_step 4 source (sourceOffset + i) target (targetOffset + i) 32 in
      Ok (i + 32, target)
    else Ok (i, target) in
  let '(i, target) := r in
  let! r :=
    if i + 16 <=? numBits then
      let! target := copy_step 2 source (sourceOffset + i) target (targetOffset + i) 16 in
      Ok (i + 16, target)
    else Ok (i, target) in
  let '(i, target) := r in
  let! r := for_res (fun i => Ok (i <? numBits)) 8
    (fun target i =>
       let copyBits := Z.min (numBits - i) 8 in
       copy_step 1 source (sourceOffset + i) target (targetOffset + i) copyBits)
    fuel i target in
  Ok (snd r).

(** [copyBitsBackwardImpl<T>]: source and target are the same memory.  Returns
    what remains. *)
Fixpoint copyBitsBackwardImpl (n : Z) (fuel : nat) (bits : buffer)
    (sourceOffset targetOffset remaining : Z) : result (Z * buffer) :=
  match fuel with
  | O => Err OutOfFuel
  | S fuel =>
      let kBits := 8 * n in
      if remaining >=? kBits then
        let! bits := copy_step n bits (sourceOffset + remaining - kBits) bits
                       (targetOffset + remaining - kBits) kBits in
        copyBitsBackwardImpl n fuel bits sourceOffset targetOffset (remaining - kBits)
      else Ok (remaining, bits)
  end.

Definition copyBitsBackward (bits : buffer) (sourceOffset targetOffset numBits : Z)
  : result buffer :=
  let fuel := S (Z.to_nat numBits) in
  let! r := copyBitsBackwardImpl 8 fuel bits sourceOffset targetOffset numBits in
  let! r := copyBitsBackwardImpl 4 fuel (snd r) sourceOffset targetOffset (fst r) in
  let! r := copyBitsBackwardImpl 2 fuel (snd r) sourceOffset targetOffset (fst r) in
  let! r := copyBitsBackwardImpl 1 fuel (snd r) sourceOffset targetOffset (fst r) in
  if fst r >? 0 then copy_step 1 (snd r) sourceOffset (snd r) targetOffset (fst r)
  else Ok (snd r).

(** * Scatter *)

(** The source is the target itself or other memory ([operand] of BitWords.v). *)
Section scatter.
Variables (source : operand) (targetMask : buffer).

(** [for (to = numTarget - 1; to >= 0; to--)]: [k] rounds are left. *)
Fixpoint scatter_simple (k : nat) (from : Z) (target : buffer) : result buffer :=
  match k with
  | O => Ok target
  | S k =>
      let to := Z.of_nat k in
      let! maskIsSet := isBitSet 8 targetMask to in
      let! value := if maskIsSet : bool then isBitSet 1 (operand_buffer target source) from
                    else Ok false in
      let! target := setBitTo target to value in
      scatter_simple k (from - (if maskIsSet then 1 else 0)) target
  end.

Definition scatterBitsSimple (numSource numTarget : Z) (target : buffer) : result buffer :=
  scatter_simple (Z.to_nat numTarget) (numSource - 1) target.

(** Returns the bits and the new [lastBit]. *)
Definition getBitField (data : buffer) (numBits lastBit : Z) : result (Z * Z) :=
  let highByte := Z.quot lastBit 8 in
  let lowByte := Z.quot (lastBit - numBits) 8 in
  let lowBit := Z.land (lastBit - numBits) 7 in
  let! word := load 8 data lowByte in
  let bits := Z.shiftr word lowBit in
  let! bits :=
    if numBits + lowBit >? 64 then
      let fromNextByte := numBits + lowBit - 64 in
      let! byte := load 1 data highByte in
      let! mask := lowMask fromNextByte in
      let lastBits := Z.land byte mask in
      let! high := shl64 lastBits (64 - lowBit) in
      Ok (Z.lor bits high)
    else Ok bits in
  Ok (bits, lastBit - numBits).

(** [_pdep_u64]: the low bits of [bits] at the positions of [mask]. *)
Definition pdep (bits mask : Z) : Z :=
  fold_right Z.lor 0
    (map (fun j => if Z.testbit mask j && Z.testbit bits (popcount (Z.land mask (Z.ones j)))
                   then Z.shiftl 1 j else 0) (seqZ 0 64)).

(** One round of [scatterBits] with BMI2: it writes up to 64 bits, and returns the
    new [numSource]. *)
Definition scatter_round (numSource numBitsToWrite lowByte : Z) (target : buffer)
  : result (Z * buffer) :=
  if numBitsToWrite =? 64 then
    let! mask := load 8 targetMask lowByte in
    let consume := popcount mask in
    let! field := getBitField (operand_buffer target source) consume numSource in
    let! target := store 8 target lowByte (pdep (fst field) mask) in
    Ok (snd field, target)
  else
    let! writeMask := lowMask numBitsToWrite in
    let! word := load 8 targetMask lowByte in
    let mask := Z.land word writeMask in
    let consume := popcount mask in
    let! field := getBitField (operand_buffer target source) consume numSource in
    let newBits := pdep (fst field) mask in
    let! old := load 8 target lowByte in
    let! target := store 8 target lowByte
      (Z.lor (Z.land old (not64 writeMask)) (Z.land newBits writeMask)) in
    Ok (snd field, target).

Fixpoint scatter_words (fuel : nat) (numSource highByte highBit lowByte : Z) (target : buffer)
  : result (Z * buffer) :=
  match fuel with
  | O => Err OutOfFuel
  | S fuel =>
      let numBitsToWrite := (highByte - lowByte) * 8 + highBit in
      let! r := scatter_round numSource numBitsToWrite lowByte target in
      if lowByte =? 0 then Ok r
      else scatter_words fuel (fst r) lowByte 0 (Z.max (lowByte - 8) 0) (snd r)
  end.

Definition scatterBits (hasBmi2 : bool) (numSource numTarget : Z) (target : buffer)
  : result buffer :=
  if negb hasBmi2 then scatterBitsSimple numSource numTarget target
  else
    let highByte := Z.quot numTarget 8 in
    let highBit := Z.land numTarget 7 in
    let lowByte := Z.max 0 (highByte - 7) in
    let! r := scatter_words (S (Z.to_nat (highByte + 1))) numSource highByte highBit lowByte target in
    Ok (snd r).
End scatter.

(** * Loading and storing at a bit offset *)

Lemma land_7 z : Z.land z 7 = z mod 8.
Proof. apply (land_low 3). lia. Qed.

(** The bytes of a type, and a bit field that it can hold, inside the buffer. *)
Record access (n : Z) (b : buffer) (off numBits : Z) : Prop := {
  ac_size : 0 < n <= 8;
  ac_offset : 0 <= off;
  ac_bits : 0 < numBits <= 8 * n;
  ac_end : off + numBits <= 8 * buf_bytes b;
  ac_word : off / 8 + n <= buf_bytes b
}.

Lemma access_full n b off : 0 < n <= 8 -> 0 <= off -> off + 8 * n <= 8 * buf_bytes b -> access n b off (8 * n).
Proof.
  intros Hn Ho Hb. split; try lia. pose proof (Z.div_mod off 8). pose proof (Z.mod_pos_bound off 8).
  lia.
Qed.

Lemma access_byte b off k : 0 <= off -> 0 < k <= 8 -> off + k <= 8 * buf_bytes b -> access 1 b off k.
Proof.
  intros Ho Hk Hb. split; try lia. pose proof (Z.div_mod off 8). pose proof (Z.mod_pos_bound off 8).
  lia.
Qed.

Lemma loadBits_bits n b off numBits :
  access n b off numBits ->
  exists w, loadBits n b off numBits = Ok w
    /\ forall j, 0 <= j < numBits -> Z.testbit w j = bit b (off + j).
Proof.
  intros []. unfold loadBits. pose proof (Z.div_mod off 8). pose proof (Z.mod_pos_bound off 8).
  assert (0 <= off / 8) by (apply Z.div_pos; lia). rewrite load_ok by lia. cbn [rbind].
  rewrite land_7. set (a := off / 8) in *. set (r := off mod 8) in *.
  destruct (r =? 0) eqn:Er.
  { eexists. split; [done|]. intros j Hj. rewrite field_bits by lia.
    replace ((0 <=? j) && (j <? 8 * n)) with true by zbool. cbn [andb]. f_equal. lia. }
  destruct (numBits + r <=? 8 * n) eqn:E.
  { eexists. split; [done|]. intros j Hj. rewrite Z.shiftr_spec, field_bits by lia.
    replace ((0 <=? j + r) && (j + r <? 8 * n)) with true by zbool. cbn [andb]. f_equal. lia. }
  rewrite load_ok by lia. cbn [rbind]. eexists. split; [done|]. intros j Hj.
  rewrite wrap_unsigned_bits, Z.lor_spec, Z.shiftr_spec, Z.shiftl_spec, !field_bits by lia.
  replace (j <? 8 * n) with true by zbool. cbn [andb]. destruct (j + r <? 8 * n) eqn:Ej.
  - replace (0 <=? j + r) with true by zbool.
    replace (0 <=? j - (8 * n - r)) with false by zbool. cbn [andb].
    rewrite orb_false_r. f_equal. lia.
  - rewrite andb_false_r. cbn [andb orb].
    replace ((0 <=? j - (8 * n - r)) && (j - (8 * n - r) <? 8 * 1)) with true by zbool.
    cbn [andb]. f_equal. lia.
Qed.

Lemma store_mask numBits r j :
  0 < numBits <= 64 -> 0 <= r < 8 -> 0 <= j < 64 ->
  Z.testbit (wrap_unsigned 64 (Z.shiftl (if numBits =? 64 then UINT64_MAX
                                         else Z.shiftl 1 numBits - 1) r)) j
  = (r <=? j) && (j <? r + numBits).
Proof.
  intros Hn Hr Hj.
  replace (if numBits =? 64 then UINT64_MAX else Z.shiftl 1 numBits - 1) with (Z.ones numBits).
  - rewrite wrap_unsigned_bits, Z.shiftl_spec, Z.testbit_ones by lia.
    apply eq_true_iff_eq. rewrite !andb_true_iff, !Z.leb_le, !Z.ltb_lt. lia.
  - destruct (numBits =? 64) eqn:E; [by replace numBits with 64 by lia|done].
Qed.

Lemma storeBits_bits n b off w numBits :
  access n b off numBits ->
  exists b', storeBits n b off w numBits = Ok b' /\ buf_bytes b' = buf_bytes b
    /\ forall i, bit b' i = if (off <=? i) && (i <? off + numBits) then Z.testbit w (i - off)
                            else bit b i.
Proof.
  intros []. unfold storeBits. pose proof (Z.div_mod off 8). pose proof (Z.mod_pos_bound off 8).
  assert (0 <= off / 8) by (apply Z.div_pos; lia). rewrite land_7.
  set (a := off / 8) in *. set (r := off mod 8) in *.
  rewrite load_ok by lia. cbn [rbind]. rewrite store_ok by lia. cbn [rbind].
  match goal with |- context [set_field b _ _ ?v] => set (v1 := v); set (b1 := set_field b (8 * a) (8 * n) v1) end.
  assert (forall i, bit b1 i = if (off <=? i) && (i <? off + numBits) && (i <? 8 * (a + n))
                               then Z.testbit w (i - off) else bit b i) as Hb1.
  { intros i. unfold b1. rewrite set_field_bits by lia.
    destruct ((8 * a <=? i) && (i <? 8 * a + 8 * n)) eqn:E.
    - unfold v1. rewrite Z.lor_spec, !Z.land_spec, not64_bits, store_mask, field_bits by zbool.
      rewrite wrap_unsigned_bits, Z.shiftl_spec by zbool.
      replace ((0 <=? i - 8 * a) && (i - 8 * a <? 8 * n)) with true by zbool.
      replace (i - 8 * a <? 64) with true by zbool. cbn [andb].
      replace (8 * a + (i - 8 * a)) with i by lia. replace (i - 8 * a - r) with (i - off) by lia.
      replace (i <? 8 * (a + n)) with true by zbool. rewrite andb_true_r.
      replace ((r <=? i - 8 * a) && (i - 8 * a <? r + numBits))
        with ((off <=? i) && (i <? off + numBits)) by (apply eq_true_iff_eq; zbool).
      by destruct ((off <=? i) && (i <? off + numBits)), (bit b i), (Z.testbit w (i - off)).
    - by replace ((off <=? i) && (i <? off + numBits) && (i <? 8 * (a + n))) with false by zbool. }
  destruct (numBits + r >? 8 * n) eqn:E.
  - assert (buf_bytes b1 = buf_bytes b) as Hbytes by done.
    rewrite load_ok by lia. cbn [rbind]. rewrite store_ok by lia. eexists. split; [done|]. split; [done|].
    intros i. rewrite set_field_bits by lia.
    destruct ((8 * (a + n) <=? i) && (i <? 8 * (a + n) + 8 * 1)) eqn:Ei.
    + assert (Z.shiftl 1 (r + numBits - 8 * n) - 1 = Z.ones (r + numBits - 8 * n)) as -> by done.
      rewrite Z.lor_spec, !Z.land_spec, Z.lnot_spec, Z.testbit_ones, Z.shiftr_spec, field_bits by zbool.
      rewrite Hb1. replace (8 * (a + n) + (i - 8 * (a + n))) with i by lia.
      replace (i <? 8 * (a + n)) with false by zbool. rewrite andb_false_r.
      replace ((0 <=? i - 8 * (a + n)) && (i - 8 * (a + n) <? 8 * 1)) with true by zbool.
      replace (i - 8 * (a + n) + (8 * n - r)) with (i - off) by lia.
      replace ((0 <=? i - 8 * (a + n)) && (i - 8 * (a + n) <? r + numBits - 8 * n))
        with ((off <=? i) && (i <? off + numBits)) by (apply eq_true_iff_eq; zbool).
      by destruct ((off <=? i) && (i <? off + numBits)), (bit b i), (Z.testbit w (i - off)).
    + rewrite Hb1. destruct (i <? 8 * (a + n)) eqn:Ei'; [by rewrite andb_true_r|].
      rewrite andb_false_r. by replace ((off <=? i) && (i <? off + numBits)) with false by zbool.
  - eexists. split; [done|]. split; [done|]. intros i. rewrite Hb1.
    destruct ((off <=? i) && (i <? off + numBits)) eqn:Ei; [|done].
    by replace (i <? 8 * (a + n)) with true by zbool.
Qed.

(** * Copies *)

Lemma copy_step_bits n source so target to k :
  access n source so k -> access n target to k ->
  exists t, copy_step n source so target to k = Ok t /\ buf_bytes t = buf_bytes target
    /\ forall i, bit t i = if (to <=? i) && (i <? to + k) then bit source (so + (i - to))
                           else bit target i.
Proof.
  intros Hs Ht. unfold copy_step. destruct (loadBits_bits _ _ _ _ Hs) as (w & -> & Hw).
  cbn [rbind]. destruct (storeBits_bits _ _ _ w _ Ht) as (t & -> & Hbytes & Hbit).
  exists t. split; [done|]. split; [done|]. intros i. rewrite Hbit.
  destruct (_ && _) eqn:E; [|done]. apply Hw. zbool.
Qed.

(** The first [k] bits are copied. *)
Definition copied (source : buffer) (so : Z) (target : buffer) (to k : Z) (t : buffer) : Prop :=
  buf_bytes t = buf_bytes target
  /\ forall i, bit t i = if (to <=? i) && (i <? to + k) then bit source (so + (i - to))
                         else bit target i.

Section forward.
Variables (source : buffer) (so : Z) (target : buffer) (to N : Z).
Hypothesis Hso : 0 <= so /\ so + N <= 8 * buf_bytes source.
Hypothesis Hto : 0 <= to /\ to + N <= 8 * buf_bytes target.

Lemma copied_step n i k t :
  copied source so target to i t -> 0 <= i -> 0 < k -> i + k <= N ->
  (k = 8 * n /\ 0 < n <= 8 \/ n = 1 /\ k <= 8) ->
  exists t', copy_step n source (so + i) t (to + i) k = Ok t' /\ copied source so target to (i + k) t'.
Proof.
  intros [Hb Hbit] Hi Hk HN Hn.
  destruct (copy_step_bits n source (so + i) t (to + i) k) as (t' & -> & Hb' & Hbit').
  - destruct Hn as [[-> ?]|[-> ?]]; [apply access_full|apply access_byte]; lia.
  - destruct Hn as [[-> ?]|[-> ?]]; [apply access_full|apply access_byte]; lia.
  - exists t'. split; [done|]. split; [lia|]. intros p. rewrite Hbit', Hbit.
    destruct ((to + i <=? p) && (p <? to + i + k)) eqn:E1.
    + replace ((to <=? p) && (p <? to + (i + k))) with true by zbool. f_equal. lia.
    + by replace ((to <=? p) && (p <? to + (i + k))) with ((to <=? p) && (p <? to + i))
        by (apply eq_true_iff_eq; zbool).
Qed.

Lemma copyBits_ok : 0 <= N ->
  exists t, copyBits source so target to N = Ok t /\ copied source so target to N t.
Proof.
  intros HN. unfold copyBits.
  destruct (for_res_inv (fun i => Ok (i + 64 <=? N)) 64
    (fun target i => copy_step 8 source (i + so) target (to + i) 64)
    (fun i t => 0 <= i <= N /\ copied source so target to i t) N (S (Z.to_nat N)) 0 target)
    as (i1 & t1 & -> & [Hi1 Hc1] & Hend1).
  - lia.
  - lia.
  - split; [lia|]. split; [done|]. intros i.
    by replace ((to <=? i) && (i <? to + 0)) with false by zbool.
  - intros i t [Hi Hc]. eexists. split; [done|]. intros Hlt%Z.leb_le. split; [lia|].
    destruct (copied_step 8 i 64 t Hc) as (t' & Hrun & Hc'); [lia..|].
    rewrite (Z.add_comm i so). exists t'. split; [done|]. split; [lia|done].
  - cbn [rbind]. injection Hend1 as Hend1%Z.leb_gt.
    assert (exists i2 t2, (if i1 + 32 <=? N then
        let! target := copy_step 4 source (so + i1) t1 (to + i1) 32 in Ok (i1 + 32, target)
      else Ok (i1, t1)) = Ok (i2, t2) /\ i1 <= i2 <= N /\ copied source so target to i2 t2)
      as (i2 & t2 & -> & Hi2 & Hc2).
    { destruct (i1 + 32 <=? N) eqn:E; [|exists i1, t1; split; [done|]; split; [lia|done]].
      destruct (copied_step 4 i1 32 t1 Hc1) as (t2 & -> & Hc2); [lia..|].
      exists (i1 + 32), t2. split; [done|]. split; [lia|done]. }
    cbn [rbind].
    assert (exists i3 t3, (if i2 + 16 <=? N then
        let! target := copy_step 2 source (so + i2) t2 (to + i2) 16 in Ok (i2 + 16, target)
      else Ok (i2, t2)) = Ok (i3, t3) /\ i2 <= i3 <= N /\ copied source so target to i3 t3)
      as (i3 & t3 & -> & Hi3 & Hc3).
    { destruct (i2 + 16 <=? N) eqn:E; [|exists i2, t2; split; [done|]; split; [lia|done]].
      destruct (copied_step 2 i2 16 t2 Hc2) as (t3 & -> & Hc3); [lia..|].
      exists (i2 + 16), t3. split; [done|]. split; [lia|done]. }
    cbn [rbind].
    destruct (for_res_inv (fun i => Ok (i <? N)) 8
      (fun target i => copy_step 1 source (so + i) target (to + i) (Z.min (N - i) 8))
      (fun i t => 0 <= i /\ copied source so target to (Z.min i N) t) N (S (Z.to_nat N)) i3 t3)
      as (i4 & t4 & -> & [Hi4 Hc4] & Hend4).
    + lia.
    + lia.
    + split; [lia|]. by replace (Z.min i3 N) with i3 by lia.
    + intros i t [Hi Hc]. eexists. split; [done|]. intros Hlt%Z.ltb_lt. split; [lia|].
      replace (Z.min i N) with i in Hc by lia.
      destruct (copied_step 1 i (Z.min (N - i) 8) t Hc) as (t' & Hrun & Hc'); [lia..|].
      exists t'. split; [done|]. split; [lia|].
      by replace (Z.min (i + 8) N) with (i + Z.min (N - i) 8) by lia.
    + cbn [rbind snd]. injection Hend4 as Hend4%Z.ltb_ge. exists t4. split; [done|].
      by replace (Z.min i4 N) with N in Hc4 by lia.
Qed.
End forward.

(** Backwards in one buffer: the bits from [rem] on are moved. *)
Definition moved (b : buffer) (so to rem N : Z) (t : buffer) : Prop :=
  buf_bytes t = buf_bytes b
  /\ forall i, bit t i = if (to + rem <=? i) && (i <? to + N) then bit b (so + (i - to))
                         else bit b i.

Section backward.
Variables (b : buffer) (so to N : Z).
Hypothesis Hso : 0 <= so <= to.
Hypothesis Hto : to + N <= 8 * buf_bytes b.

Lemma moved_step n rem k t :
  moved b so to rem N t -> k <= rem <= N -> 0 < k ->
  (k = 8 * n /\ 0 < n <= 8 \/ n = 1 /\ k <= 8) ->
  exists t', copy_step n t (so + rem - k) t (to + rem - k) k = Ok t'
    /\ moved b so to (rem - k) N t'.
Proof.
  intros [Hb Hbit] Hrem Hk Hn.
  destruct (copy_step_bits n t (so + rem - k) t (to + rem - k) k) as (t' & -> & Hb' & Hbit').
  - destruct Hn as [[-> ?]|[-> ?]]; [apply access_full|apply access_byte]; lia.
  - destruct Hn as [[-> ?]|[-> ?]]; [apply access_full|apply access_byte]; lia.
  - exists t'. split; [done|]. split; [lia|]. intros p. rewrite Hbit'.
    destruct ((to + rem - k <=? p) && (p <? to + rem - k + k)) eqn:E1.
    + replace ((to + (rem - k) <=? p) && (p <? to + N)) with true by zbool.
      rewrite Hbit. replace (so + rem - k + (p - (to + rem - k))) with (so + (p - to)) by lia.
      by replace ((to + rem <=? so + (p - to)) && (so + (p - to) <? to + N)) with false by zbool.
    + rewrite Hbit. by replace ((to + (rem - k) <=? p) && (p <? to + N))
        with ((to + rem <=? p) && (p <? to + N)) by (apply eq_true_iff_eq; zbool).
Qed.

Lemma backward_impl n fuel rem t :
  0 < n <= 8 -> moved b so to rem N t -> 0 <= rem <= N -> (Z.to_nat rem < fuel)%nat ->
  exists rem' t', copyBitsBackwardImpl n fuel t so to rem = Ok (rem', t')
    /\ moved b so to rem' N t' /\ 0 <= rem' <= rem /\ rem' < 8 * n.
Proof.
  intros Hn. revert rem t. induction fuel as [|fuel IH]; intros rem t Hm Hrem Hf; [lia|].
  cbn [copyBitsBackwardImpl]. destruct (rem >=? 8 * n) eqn:E.
  - destruct (moved_step n rem (8 * n) t Hm) as (t' & -> & Hm'); [lia..|]. cbn [rbind].
    destruct (IH (rem - 8 * n) t' Hm') as (rem' & t2 & -> & Hm2 & Hr2 & Hlt); [lia..|].
    exists rem', t2. split; [done|]. split; [done|]. lia.
  - exists rem, t. split; [done|]. split; [done|]. lia.
Qed.

Lemma copyBitsBackward_ok : 0 <= N ->
  exists t, copyBitsBackward b so to N = Ok t /\ moved b so to 0 N t.
Proof.
  intros HN. unfold copyBitsBackward.
  assert (moved b so to N N b) as H0.
  { split; [done|]. intros i. by replace ((to + N <=? i) && (i <? to + N)) with false by zbool. }
  destruct (backward_impl 8 (S (Z.to_nat N)) N b) as (r1 & t1 & -> & H1 & Hr1 & _); [lia|done|lia|lia|].
  cbn [rbind fst snd].
  destruct (backward_impl 4 (S (Z.to_nat N)) r1 t1) as (r2 & t2 & -> & H2 & Hr2 & _); [lia|done|lia|lia|].
  cbn [rbind fst snd].
  destruct (backward_impl 2 (S (Z.to_nat N)) r2 t2) as (r3 & t3 & -> & H3 & Hr3 & _); [lia|done|lia|lia|].
  cbn [rbind fst snd].
  destruct (backward_impl 1 (S (Z.to_nat N)) r3 t3) as (r4 & t4 & -> & H4 & Hr4 & Hlt); [lia|done|lia|lia|].
  cbn [rbind fst snd]. destruct (r4 >? 0) eqn:E.
  - destruct (moved_step 1 r4 r4 t4 H4) as (t5 & Hrun & H5); [lia..|].
    replace (so + r4 - r4) with so in Hrun by lia. replace (to + r4 - r4) with to in Hrun by lia.
    exists t5. split; [done|]. by replace (r4 - r4) with 0 in H5 by lia.
  - exists t4. split; [done|]. by replace 0 with r4 by lia.
Qed.
End backward.

(** * Negation and reversal *)

(** The first [k] bits are negated. *)
Definition negated (b : buffer) (k : Z) (t : buffer) : Prop :=
  buf_bytes t = buf_bytes b
  /\ forall i, bit t i = if (0 <=? i) && (i <? k) then negb (bit b i) else bit b i.

Lemma negated_bytes b n k t :
  0 < n -> 0 <= k -> k mod 8 = 0 -> k + 8 * n <= 8 * buf_bytes b -> negated b k t ->
  exists t', (let! word := load n t (k / 8) in store n t (k / 8) (Z.lnot word)) = Ok t'
    /\ negated b (k + 8 * n) t'.
Proof.
  intros Hn Hk Hmod Hb [Hbytes Hbit]. pose proof (Z.div_mod k 8). set (a := k / 8) in *.
  rewrite load_ok by lia. cbn [rbind]. rewrite store_ok by lia. eexists. split; [done|].
  split; [done|]. intros i. rewrite set_field_bits by lia.
  destruct ((8 * a <=? i) && (i <? 8 * a + 8 * n)) eqn:E.
  - rewrite Z.lnot_spec, field_bits by zbool.
    replace ((0 <=? i - 8 * a) && (i - 8 * a <? 8 * n)) with true by zbool. cbn [andb].
    replace (8 * a + (i - 8 * a)) with i by lia. rewrite Hbit.
    replace ((0 <=? i) && (i <? k)) with false by zbool.
    by replace ((0 <=? i) && (i <? k + 8 * n)) with true by zbool.
  - rewrite Hbit. by replace ((0 <=? i) && (i <? k + 8 * n)) with ((0 <=? i) && (i <? k))
      by (apply eq_true_iff_eq; zbool).
Qed.

Lemma negated_bit b k t :
  0 <= k < 8 * buf_bytes b -> k <= INT32_MAX -> negated b k t ->
  exists t', (let! set := isBitSet 1 t k in setBitTo t k (negb set)) = Ok t' /\ negated b (k + 1) t'.
Proof.
  intros Hk Hmax [Hbytes Hbit]. pose proof (Z.div_mod k 8). pose proof (Z.mod_pos_bound k 8).
  rewrite isBitSet_byte by lia. cbn [rbind].
  destruct (setBitTo_ok t k (negb (bit t k))) as (t' & -> & Hb' & Hbit'); [lia|lia|].
  exists t'. split; [done|]. split; [lia|]. intros i. rewrite Hbit'.
  destruct (i =? k) eqn:E.
  - replace i with k by lia. rewrite Hbit. replace ((0 <=? k) && (k <? k)) with false by zbool.
    by replace ((0 <=? k) && (k <? k + 1)) with true by zbool.
  - rewrite Hbit. by replace ((0 <=? i) && (i <? k + 1)) with ((0 <=? i) && (i <? k))
      by (apply eq_true_iff_eq; zbool).
Qed.

(** A loop of [negate] over elements of [n] bytes. *)
Lemma negate_loop b n size i t fuel :
  0 < n <= 8 -> 0 <= i <= size -> i mod 8 = 0 -> size <= INT32_MAX - 64 -> size <= 8 * buf_bytes b ->
  (Z.to_nat size < fuel)%nat -> negated b i t ->
  exists i' t', for_res (fun i => let! next := ck32 (i + 8 * n) in Ok (next <=? size)) (8 * n)
      (fun bits i => let! word := load n bits (i / 8) in store n bits (i / 8) (Z.lnot word)) fuel i t
    = Ok (i', t') /\ i <= i' <= size /\ i' mod 8 = 0 /\ negated b i' t'.
Proof.
  intros Hn Hi Hmod Hsize Hb Hf Hneg.
  destruct (for_res_inv (fun i => let! next := ck32 (i + 8 * n) in Ok (next <=? size)) (8 * n)
    (fun bits i => let! word := load n bits (i / 8) in store n bits (i / 8) (Z.lnot word))
    (fun k t => i <= k <= size /\ k mod 8 = 0 /\ negated b k t) size fuel i t)
    as (i' & t' & -> & HI & _); [lia|lia|split; [lia|done]| |by exists i', t'].
  intros k t1 (Hk & Hkm & Hneg1). rewrite ck32_in by lia. cbn [rbind]. eexists. split; [done|].
  intros Hle%Z.leb_le. split; [lia|].
  destruct (negated_bytes b n k t1) as (t2 & Hrun & Hneg2); [lia|lia|done|lia|done|].
  exists t2. split; [done|]. split; [lia|]. split; [|done].
  by rewrite (Z.mul_comm 8 n), Z_mod_plus_full.
Qed.

Lemma negate_ok b size :
  0 <= size <= INT32_MAX - 64 -> size <= 8 * buf_bytes b ->
  exists t, negate b size = Ok t /\ negated b size t.
Proof.
  intros Hs Hb. unfold negate.
  destruct (negate_loop b 8 size 0 b (S (Z.to_nat size))) as (i1 & t1 & Hrun1 & Hi1 & Hm1 & H1);
    [lia|lia|done|lia|lia|lia| |].
  { split; [done|]. intros i. by replace ((0 <=? i) && (i <? 0)) with false by zbool. }
  change (8 * 8) with 64 in Hrun1. rewrite Hrun1. cbn [rbind fst snd].
  destruct (negate_loop b 1 size i1 t1 (S (Z.to_nat size))) as (i2 & t2 & Hrun2 & Hi2 & Hm2 & H2);
    [lia|lia|done|lia|lia|lia|done|].
  change (8 * 1) with 8 in Hrun2. rewrite Hrun2. cbn [rbind fst snd].
  destruct (for_res_inv (fun i => Ok (i <? size)) 1
    (fun bits i => let! set := isBitSet 1 bits i in setBitTo bits i (negb set))
    (fun k t => 0 <= k <= size /\ negated b k t) size (S (Z.to_nat size)) i2 t2)
    as (i3 & t3 & -> & [Hi3 H3] & Hend); [lia|lia|split; [lia|done]| |].
  - intros k t [Hk Hneg]. eexists. split; [done|]. intros Hlt%Z.ltb_lt. split; [lia|].
    destruct (negated_bit b k t) as (t' & Hrun & Hneg'); [lia|lia|done|].
    exists t'. split; [done|]. split; [lia|done].
  - cbn [rbind snd]. injection Hend as Hend%Z.ltb_ge. exists t3. split; [done|].
    by replace size with i3 by lia.
Qed.

Lemma reverse_byte_bits x j :
  0 <= x < 256 -> 0 <= j < 8 -> Z.testbit (reverse_byte x) j = Z.testbit x (7 - j).
Proof.
  intros Hx Hj.
  assert (forallb (fun x => forallb (fun j =>
    Bool.eqb (Z.testbit (reverse_byte x) j) (Z.testbit x (7 - j))) (seqZ 0 8)) (seqZ 0 256) = true)
    as Hall by (vm_compute; reflexivity).
  rewrite forallb_forall in Hall. specialize (Hall x).
  rewrite <- list_elem_of_In, elem_of_seqZ in Hall. specialize (Hall ltac:(lia)).
  rewrite forallb_forall in Hall. specialize (Hall j).
  rewrite <- list_elem_of_In, elem_of_seqZ in Hall. apply eqb_prop, Hall. lia.
Qed.

(** The bits of the first [k] bytes are reversed within their byte. *)
Definition reversed (b : buffer) (k : Z) (t : buffer) : Prop :=
  buf_bytes t = buf_bytes b
  /\ forall i, bit t i = if (0 <=? i) && (i <? 8 * k) then bit b (8 * (i / 8) + (7 - i mod 8))
                         else bit b i.

Lemma reverseBits_ok b n :
  0 <= n <= buf_bytes b -> exists t, reverseBits b n = Ok t /\ reversed b n t.
Proof.
  intros Hn. unfold reverseBits.
  destruct (for_res_inv (fun i => Ok (i <? n)) 1
    (fun bytes i => let! byte := load 1 bytes i in store 1 bytes i (reverse_byte byte))
    (fun k t => 0 <= k <= n /\ reversed b k t) n (S (Z.to_nat n)) 0 b)
    as (i' & t & -> & [Hi Hrev] & Hend).
  - lia.
  - lia.
  - split; [lia|]. split; [done|]. intros i.
    by replace ((0 <=? i) && (i <? 8 * 0)) with false by zbool.
  - intros k t [Hk [Hbytes Hbit]]. eexists. split; [done|]. intros Hlt%Z.ltb_lt. split; [lia|].
    rewrite load_ok by lia. cbn [rbind]. rewrite store_ok by lia. eexists. split; [done|].
    split; [lia|]. split; [done|]. intros i. rewrite set_field_bits by lia.
    destruct ((8 * k <=? i) && (i <? 8 * k + 8 * 1)) eqn:E.
    + replace ((0 <=? i) && (i <? 8 * (k + 1))) with true by zbool.
      assert (i / 8 = k) as -> by (symmetry; apply (Z.div_unique i 8 k (i - 8 * k)); zbool).
      assert (i mod 8 = i - 8 * k) as -> by (symmetry; apply (Z.mod_unique i 8 k); zbool).
      pose proof (field_range t (8 * k) (8 * 1)).
      rewrite reverse_byte_bits, field_bits by (lia || zbool).
      replace ((0 <=? 7 - (i - 8 * k)) && (7 - (i - 8 * k) <? 8 * 1)) with true by zbool.
      cbn [andb]. rewrite Hbit.
      by replace ((0 <=? 8 * k + (7 - (i - 8 * k))) && (8 * k + (7 - (i - 8 * k)) <? 8 * k))
        with false by zbool.
    + rewrite Hbit. by replace ((0 <=? i) && (i <? 8 * (k + 1))) with ((0 <=? i) && (i <? 8 * k))
        by (apply eq_true_iff_eq; zbool).
  - cbn [rbind snd]. injection Hend as Hend%Z.ltb_ge. exists t. split; [done|].
    by replace n with i' by lia.
Qed.

(** * Scatter *)

(** The one bits of [b] below position [k]. *)
Definition rank (b : buffer) (k : Z) : Z := Z.of_nat (length (List.filter (bit b) (seqZ 0 k))).

Lemma filter_shift (P : Z -> bool) a n :
  length (List.filter P (seqZ a n)) = length (List.filter (fun j => P (a + j)) (seqZ 0 n)).
Proof.
  replace (seqZ a n) with (map (Z.add a) (seqZ 0 n)).
  - induction (seqZ 0 n) as [|x l IH]; [done|]. cbn [map List.filter].
    destruct (P (a + x)); cbn [length]; by rewrite ?IH.
  - etrans; [apply (fmap_add_seqZ a 0 n)|f_equal; lia].
Qed.

Lemma rank_add b k n :
  0 <= k -> 0 <= n ->
  rank b (k + n) = rank b k + Z.of_nat (length (List.filter (fun j => bit b (k + j)) (seqZ 0 n))).
Proof.
  intros Hk Hn. unfold rank. rewrite seqZ_app, List.filter_app, length_app by done.
  rewrite (filter_shift _ (0 + k)). rewrite Z.add_0_l. lia.
Qed.

Lemma rank_succ b k : 0 <= k -> rank b (k + 1) = rank b k + (if bit b k then 1 else 0).
Proof.
  intros Hk. rewrite rank_add by lia. change (seqZ 0 1) with [0]. cbn [List.filter].
  rewrite Z.add_0_r. by destruct (bit b k).
Qed.

Lemma rank_le b k n : 0 <= k -> 0 <= n -> rank b k <= rank b (k + n) <= rank b k + n.
Proof.
  intros Hk Hn. rewrite rank_add by done.
  pose proof (filter_length_seqZ (fun j => bit b (k + j)) 0 n). lia.
Qed.

Lemma rank_bound b k : 0 <= k -> 0 <= rank b k <= k.
Proof. intros Hk. pose proof (rank_le b 0 k) as H. rewrite Z.add_0_l in H. change (rank b 0) with 0 in H. lia. Qed.

Lemma popcount_prefix w n (P : Z -> bool) :
  0 <= n <= 64 -> (forall j, 0 <= j < 64 -> Z.testbit w j = (j <? n) && P j) ->
  popcount w = Z.of_nat (length (List.filter P (seqZ 0 n))).
Proof.
  intros Hn Hw. unfold popcount. rewrite bits_of_filter.
  replace (seqZ 0 64) with (seqZ 0 n ++ seqZ (0 + n) (64 - n)).
  - rewrite List.filter_app, (filter_none _ (seqZ (0 + n) _)), app_nil_r.
    + do 2 f_equal. apply filter_ext. intros j Hj%elem_of_seqZ. rewrite Hw by lia.
      by replace (j <? n) with true by zbool.
    + intros j Hj%elem_of_seqZ. rewrite Hw by lia. by replace (j <? n) with false by zbool.
  - rewrite <- seqZ_app by lia. f_equal. lia.
Qed.

Lemma lor_all_bits {A} (g : A -> Z) l j :
  Z.testbit (fold_right Z.lor 0 (map g l)) j = existsb (fun k => Z.testbit (g k) j) l.
Proof.
  induction l as [|x l IH]; cbn [map fold_right existsb]; [apply Z.bits_0|].
  by rewrite Z.lor_spec, IH.
Qed.

Lemma pdep_bits bits mask j :
  0 <= j < 64 ->
  Z.testbit (pdep bits mask) j
  = Z.testbit mask j && Z.testbit bits (popcount (Z.land mask (Z.ones j))).
Proof.
  intros Hj. unfold pdep. rewrite lor_all_bits. apply eq_true_iff_eq. rewrite existsb_exists. split.
  - intros (k & Hk & Ht). rewrite <- list_elem_of_In, elem_of_seqZ in Hk.
    destruct (_ && _) eqn:E; [|by rewrite Z.bits_0 in Ht].
    rewrite testbit_one in Ht by lia. by replace j with k by zbool.
  - intros E. exists j. rewrite <- list_elem_of_In, elem_of_seqZ. split; [lia|].
    rewrite E, testbit_one by lia. zbool.
Qed.

Lemma getBitField_ok b n last :
  0 <= n <= 64 -> n <= last -> last <= 8 * buf_bytes b -> (last - n) / 8 + 8 <= buf_bytes b ->
  exists w, getBitField b n last = Ok (w, last - n)
    /\ forall j, 0 <= j < n -> Z.testbit w j = bit b (last - n + j).
Proof.
  intros Hn Hl Hb Ha. unfold getBitField. rewrite !Z.quot_div_nonneg, land_7 by lia.
  set (p := last - n) in *. pose proof (Z.div_mod p 8). pose proof (Z.mod_pos_bound p 8).
  assert (0 <= p / 8) by (apply Z.div_pos; lia). set (a := p / 8) in *. set (r := p mod 8) in *.
  rewrite load_ok by lia. cbn [rbind]. destruct (n + r >? 64) eqn:E.
  - assert (last / 8 = a + 8) as Hh by (symmetry; apply (Z.div_unique last 8 (a + 8) (n + r - 64)); zbool).
    rewrite Hh, load_ok, lowMask_ok by zbool. cbn [rbind]. unfold shl64.
    replace ((0 <=? 64 - r) && (64 - r <? 64)) with true by zbool. cbn [rbind].
    eexists. split; [done|]. intros j Hj.
    rewrite Z.lor_spec, Z.shiftr_spec, wrap_unsigned_bits, Z.shiftl_spec, Z.land_spec, !field_bits by lia.
    replace (j <? 64) with true by zbool. cbn [andb]. destruct (j + r <? 8 * 8) eqn:Ej.
    + replace (0 <=? j + r) with true by zbool. replace (0 <=? j - (64 - r)) with false by zbool.
      cbn [andb]. rewrite orb_false_r. f_equal. lia.
    + rewrite andb_false_r. cbn [andb orb]. rewrite Z.testbit_ones by zbool.
      replace ((0 <=? j - (64 - r)) && (j - (64 - r) <? 8 * 1)) with true by zbool.
      replace ((0 <=? j - (64 - r)) && (j - (64 - r) <? n + r - 64)) with true by zbool.
      rewrite andb_true_r. cbn [andb]. f_equal. lia.
  - cbn [rbind]. eexists. split; [done|]. intros j Hj. rewrite Z.shiftr_spec, field_bits by lia.
    replace ((0 <=? j + r) && (j + r <? 8 * 8)) with true by zbool. cbn [andb]. f_equal. lia.
Qed.

Section scattered.
Variables (source : operand) (mask target : buffer) (N : Z).

(** The bits to move, as they are before the call. *)
Abbreviation data := (operand_buffer target source).

(** The positions from [k] on have their final value, those below their old one. *)
Definition scattered (k : Z) (t : buffer) : Prop :=
  buf_bytes t = buf_bytes target
  /\ forall i, bit t i = if (k <=? i) && (i <? N) then bit mask i && bit data (rank mask i)
                         else bit target i.

Lemma scattered_start : scattered N target.
Proof. split; [done|]. intros i. by replace ((N <=? i) && (i <? N)) with false by zbool. Qed.

(** Below [k] the source still has its bits. *)
Lemma scattered_data k t i :
  scattered k t -> i < k -> bit (operand_buffer t source) i = bit data i.
Proof.
  intros [_ Hbit] Hi. destruct source; cbn [operand_buffer]; [|done]. rewrite Hbit.
  by replace ((k <=? i) && (i <? N)) with false by zbool.
Qed.

Lemma scattered_data_bytes k t :
  scattered k t -> buf_bytes (operand_buffer t source) = buf_bytes data.
Proof. intros [Hb _]. by destruct source. Qed.

(** Writing a range below [k]. *)
Lemma scattered_write lo k t t' :
  0 <= lo <= k -> k <= N -> scattered k t -> buf_bytes t' = buf_bytes t ->
  (forall i, bit t' i = if (lo <=? i) && (i <? k) then bit mask i && bit data (rank mask i)
                        else bit t i) ->
  scattered lo t'.
Proof.
  intros Hlo Hk [Hb Hbit] Hb' Hbit'. split; [lia|]. intros i. rewrite Hbit', Hbit.
  destruct ((lo <=? i) && (i <? k)) eqn:E.
  - by replace ((lo <=? i) && (i <? N)) with true by zbool.
  - by replace ((lo <=? i) && (i <? N)) with ((k <=? i) && (i <? N)) by (apply eq_true_iff_eq; zbool).
Qed.

Lemma scatter_simple_ok k t :
  Z.of_nat k <= N -> N <= INT32_MAX -> has_words mask N -> N <= 8 * buf_bytes target ->
  rank mask N <= 8 * buf_bytes data -> scattered (Z.of_nat k) t ->
  exists t', scatter_simple source mask k (rank mask (Z.of_nat k) - 1) t = Ok t' /\ scattered 0 t'.
Proof.
  revert t. induction k as [|k IH]; intros t Hk HN Hm Ht Hd Hs; [by exists t|].
  cbn [scatter_simple]. set (to := Z.of_nat k) in *.
  replace (Z.of_nat (S k)) with (to + 1) in * by lia.
  rewrite isBitSet_word by (lia || (apply (has_words_mono _ N); [done|lia])). cbn [rbind].
  pose proof (rank_succ mask to ltac:(lia)) as Hr. pose proof (rank_bound mask to ltac:(lia)).
  pose proof (rank_le mask (to + 1) (N - (to + 1))) as Hle.
  replace (to + 1 + (N - (to + 1))) with N in Hle by lia.
  assert ((if bit mask to then isBitSet 1 (operand_buffer t source) (rank mask (to + 1) - 1) else Ok false)
    = Ok (bit mask to && bit data (rank mask to))) as ->.
  { destruct (bit mask to) eqn:Em; [|done]. rewrite ?Em in Hr. rewrite isBitSet_byte; cycle 1.
    - lia.
    - rewrite (scattered_data_bytes (to + 1)) by done. apply Z.div_lt_upper_bound; lia.
    - rewrite (scattered_data (to + 1)) by (done || lia). cbn [andb]. do 2 f_equal. lia. }
  cbn [rbind]. destruct (setBitTo_ok t to (bit mask to && bit data (rank mask to)))
    as (t' & -> & Hb' & Hbit'); [lia|destruct Hs as [-> _]; apply Z.div_lt_upper_bound; lia|].
  cbn [rbind]. replace (rank mask (to + 1) - 1 - (if bit mask to then 1 else 0))
    with (rank mask to - 1) by lia.
  apply IH; [lia|done|done|done|done|]. apply (scattered_write to (to + 1) t); [lia|lia|done|done|].
  intros i. rewrite Hbit'. destruct (i =? to) eqn:E.
  - replace ((to <=? i) && (i <? to + 1)) with true by zbool. by replace i with to by lia.
  - by replace ((to <=? i) && (i <? to + 1)) with false by zbool.
Qed.

(** The memory that the rounds of the word loop touch. *)
Record scatter_memory : Prop := {
  sm_size : 0 <= N <= INT32_MAX;
  sm_mask : 8 <= buf_bytes mask /\ N / 8 + 1 <= buf_bytes mask;
  sm_target : 8 <= buf_bytes target /\ N / 8 + 1 <= buf_bytes target;
  sm_data : rank mask N / 8 + 8 <= buf_bytes data
}.

(** The bits of a word of the mask below position [lo + n], and what [pdep] makes
    of the bits of the source from [rank lo] on. *)
Section deposit.
Variables (lo n w m : Z).
Hypothesis Hlo : 0 <= lo.
Hypothesis Hn : 0 <= n <= 64.
Hypothesis Hm : forall j, 0 <= j < 64 -> Z.testbit m j = (j <? n) && bit mask (lo + j).

Lemma popcount_mask : popcount m = rank mask (lo + n) - rank mask lo.
Proof.
  rewrite (popcount_prefix m n (fun j => bit mask (lo + j))) by done.
  rewrite rank_add by lia. lia.
Qed.

Lemma popcount_below j :
  0 <= j < n -> popcount (Z.land m (Z.ones j)) = rank mask (lo + j) - rank mask lo.
Proof.
  intros Hj. rewrite (popcount_prefix _ j (fun j => bit mask (lo + j))).
  - rewrite rank_add by lia. lia.
  - lia.
  - intros i Hi. rewrite Z.land_spec, Z.testbit_ones, Hm by lia.
    replace (0 <=? i) with true by zbool. cbn [andb]. destruct (i <? j) eqn:E.
    + replace (i <? n) with true by zbool. by rewrite andb_true_r.
    + apply andb_false_r.
Qed.

Lemma pdep_mask j :
  (forall j, 0 <= j < rank mask (lo + n) - rank mask lo -> Z.testbit w j = bit data (rank mask lo + j)) ->
  0 <= j < 64 ->
  Z.testbit (pdep w m) j = (j <? n) && (bit mask (lo + j) && bit data (rank mask (lo + j))).
Proof.
  intros Hw Hj. rewrite pdep_bits, Hm by done. destruct (j <? n) eqn:E; [|done]. cbn [andb].
  destruct (bit mask (lo + j)) eqn:Eb; [|done]. cbn [andb]. rewrite popcount_below by lia.
  pose proof (rank_succ mask (lo + j) ltac:(lia)) as Hs. rewrite Eb in Hs.
  pose proof (rank_le mask lo j ltac:(lia) ltac:(lia)).
  pose proof (rank_le mask (lo + j + 1) (n - j - 1) ltac:(lia) ltac:(lia)) as Hle.
  replace (lo + j + 1 + (n - j - 1)) with (lo + n) in Hle by lia.
  rewrite Hw by lia. f_equal. lia.
Qed.
End deposit.

(** The fetch of a round. *)
Lemma scatter_fetch k lo t :
  scatter_memory -> 0 <= lo <= k -> k <= lo + 64 -> k <= N -> scattered k t ->
  exists w, getBitField (operand_buffer t source) (rank mask k - rank mask lo) (rank mask k)
      = Ok (w, rank mask lo)
    /\ forall j, 0 <= j < rank mask k - rank mask lo -> Z.testbit w j = bit data (rank mask lo + j).
Proof.
  intros [] Hlo Hk HN Hs.
  pose proof (rank_le mask lo (k - lo) ltac:(lia) ltac:(lia)) as Hr.
  pose proof (rank_le mask k (N - k) ltac:(lia) ltac:(lia)) as HrN.
  replace (lo + (k - lo)) with k in Hr by lia. replace (k + (N - k)) with N in HrN by lia.
  pose proof (rank_bound mask lo ltac:(lia)). pose proof (rank_bound mask k ltac:(lia)).
  pose proof (Z.div_mod (rank mask N) 8). pose proof (Z.mod_pos_bound (rank mask N) 8).
  assert (rank mask lo / 8 <= rank mask N / 8) by (apply Z.div_le_mono; lia).
  destruct (getBitField_ok (operand_buffer t source) (rank mask k - rank mask lo) (rank mask k))
    as (w & Hrun & Hw); rewrite ?(scattered_data_bytes k) by done.
  - lia.
  - lia.
  - lia.
  - replace (rank mask k - (rank mask k - rank mask lo)) with (rank mask lo) by lia. lia.
  - replace (rank mask k - (rank mask k - rank mask lo)) with (rank mask lo) in * by lia.
    exists w. split; [done|]. intros j Hj. rewrite Hw by done. apply scattered_data with k; [done|lia].
Qed.

(** A round makes the positions from [8 * lowByte] on final. *)
Lemma scatter_round_ok k lowByte t :
  scatter_memory -> 0 <= 8 * lowByte <= k -> k <= 8 * lowByte + 64 -> k <= N ->
  lowByte + 8 <= buf_bytes mask -> lowByte + 8 <= buf_bytes target -> scattered k t ->
  exists t', scatter_round source mask (rank mask k) (k - 8 * lowByte) lowByte t
      = Ok (rank mask (8 * lowByte), t') /\ scattered (8 * lowByte) t'.
Proof.
  intros HM Hlo Hk HN Hmb Htb Hs. pose proof Hs as [Hb _]. set (lo := 8 * lowByte) in *.
  destruct (scatter_fetch k lo t) as (w & Hrun & Hw); [done..|].
  set (n := k - lo). replace k with (lo + n) in * by lia. unfold scatter_round.
  destruct (n =? 64) eqn:E.
  - assert (forall j, 0 <= j < 64 ->
      Z.testbit (field mask lo (8 * 8)) j = (j <? n) && bit mask (lo + j)) as Hm.
    { intros j Hj. rewrite field_bits by lia.
      replace ((0 <=? j) && (j <? 8 * 8)) with true by zbool. by replace (j <? n) with true by zbool. }
    rewrite load_ok by lia. cbn [rbind]. fold lo.
    rewrite (popcount_mask lo n), Hrun by (done || lia). cbn [rbind fst snd].
    rewrite store_ok by lia. cbn [rbind]. eexists. split; [done|].
    apply (scattered_write lo (lo + n) t); [lia|lia|done|done|]. intros i.
    fold lo. rewrite set_field_bits by lia. replace (lo + 8 * 8) with (lo + n) by lia.
    destruct (_ && _) eqn:Ei; [|done]. rewrite (pdep_mask lo n) by (done || zbool).
    replace (i - lo <? n) with true by zbool. by replace (lo + (i - lo)) with i by lia.
  - assert (forall j, 0 <= j < 64 ->
      Z.testbit (Z.land (field mask lo (8 * 8)) (Z.ones n)) j = (j <? n) && bit mask (lo + j)) as Hm.
    { intros j Hj. rewrite Z.land_spec, Z.testbit_ones, field_bits by lia.
      replace ((0 <=? j) && (j <? 8 * 8)) with true by zbool. replace (0 <=? j) with true by zbool.
      apply andb_comm. }
    rewrite lowMask_ok, load_ok by lia. cbn [rbind]. fold lo.
    rewrite (popcount_mask lo n), Hrun by (done || lia). cbn [rbind fst snd].
    rewrite load_ok by lia. cbn [rbind]. rewrite store_ok by lia. cbn [rbind].
    eexists. split; [done|].
    apply (scattered_write lo (lo + n) t); [lia|lia|done|done|]. intros i.
    fold lo. rewrite set_field_bits by lia.
    destruct ((lo <=? i) && (i <? lo + 8 * 8)) eqn:Ei;
      [|by replace ((lo <=? i) && (i <? lo + n)) with false by zbool].
    rewrite Z.lor_spec, !Z.land_spec, not64_bits, Z.testbit_ones, field_bits,
      (pdep_mask lo n) by (done || zbool).
    replace (lo + (i - lo)) with i by lia.
    replace ((0 <=? i - lo) && (i - lo <? 8 * 8)) with true by zbool.
    replace (0 <=? i - lo) with true by zbool. replace (lo <=? i) with true by zbool.
    replace (i <? lo + n) with (i - lo <? n) by (apply eq_true_iff_eq; zbool).
    destruct (i - lo <? n); cbn [andb negb]; by rewrite ?andb_false_r, ?andb_true_r, ?orb_false_r.
Qed.

Lemma scatter_words_ok fuel highByte highBit lowByte t :
  scatter_memory -> 0 <= lowByte -> 0 <= highBit -> 8 * highByte + highBit <= N ->
  8 * lowByte <= 8 * highByte + highBit <= 8 * lowByte + 64 -> lowByte = 0 \/ lowByte + 8 <= N / 8 + 1 ->
  (Z.to_nat lowByte < fuel)%nat -> scattered (8 * highByte + highBit) t ->
  exists t', scatter_words source mask fuel (rank mask (8 * highByte + highBit)) highByte highBit lowByte t
      = Ok (0, t') /\ scattered 0 t'.
Proof.
  revert highByte highBit lowByte t. induction fuel as [|fuel IH];
    intros highByte highBit lowByte t HM Hl Hh HN Hk Hend Hf Hs; [lia|]. cbn [scatter_words].
  pose proof HM as [_ Hm Ht _].
  destruct (scatter_round_ok (8 * highByte + highBit) lowByte t) as (t' & Hrun & Hs'); [done|lia..|done|].
  replace (8 * highByte + highBit - 8 * lowByte) with ((highByte - lowByte) * 8 + highBit) in Hrun by lia.
  rewrite Hrun. cbn [rbind fst snd]. destruct (lowByte =? 0) eqn:E.
  - exists t'. replace lowByte with 0 in * by lia. split; [done|]. done.
  - destruct (IH lowByte 0 (Z.max (lowByte - 8) 0) t') as (t2 & Hrun2 & Hs2);
      rewrite ?Z.add_0_r in *; [done|lia..|done|]. by exists t2.
Qed.
End scattered.

(** Both paths of [scatterBits]. *)
Lemma scatterBits_ok hasBmi2 source mask target N :
  scatter_memory source mask target N -> has_words mask N ->
  exists t, scatterBits source mask hasBmi2 (rank mask N) N target = Ok t
    /\ scattered source mask target N 0 t.
Proof.
  intros HM Hw. pose proof HM as [HN Hm Ht Hd]. pose proof (scattered_start source mask target N) as H0.
  pose proof (Z.div_mod N 8). pose proof (Z.mod_pos_bound N 8). assert (0 <= N / 8) by (apply Z.div_pos; lia).
  unfold scatterBits. destruct hasBmi2; cbn [negb].
  - rewrite Z.quot_div_nonneg, land_7 by lia.
    destruct (scatter_words_ok source mask target N (S (Z.to_nat (N / 8 + 1))) (N / 8) (N mod 8)
      (Z.max 0 (N / 8 - 7)) target) as (t & Hrun & Hs); [done|lia..| |].
    + by replace (8 * (N / 8) + N mod 8) with N by lia.
    + replace (8 * (N / 8) + N mod 8) with N in Hrun by lia. rewrite Hrun. by exists t.
  - unfold scatterBitsSimple.
    pose proof (Z.div_mod (rank mask N) 8). pose proof (Z.mod_pos_bound (rank mask N) 8).
    destruct (scatter_simple_ok source mask target N (Z.to_nat N) target) as (t & Hrun & Hs);
      rewrite ?Z2Nat.id in * by lia; [lia|lia|done|lia|lia|done|]. by exists t.
Qed.

(** * Properties *)

(** Buffers with the same length and the same bits. *)
Lemma buffer_ext b b' :
  buf_bytes b = buf_bytes b' -> (forall i, bit b i = bit b' i) -> b = b'.
Proof.
  destruct b as [n v], b' as [n' v']. unfold bit. cbn [buf_bytes buf_value]. intros -> Hv.
  f_equal. by apply Z.bits_inj.
Qed.

Lemma reverseBits_twice b n :
  0 <= n <= buf_bytes b -> (let! t := reverseBits b n in reverseBits t n) = Ok b.
Proof.
  intros Hb. destruct (reverseBits_ok b n) as (t & -> & Hb1 & H1); [lia|]. cbn [rbind].
  destruct (reverseBits_ok t n) as (t2 & -> & Hb2 & H2); [lia|].
  f_equal. apply buffer_ext; [lia|]. intros i. rewrite H2.
  pose proof (Z.div_mod i 8). pose proof (Z.mod_pos_bound i 8).
  destruct (_ && _) eqn:E; rewrite H1; [|by rewrite E].
  set (i' := 8 * (i / 8) + (7 - i mod 8)).
  assert (i' / 8 = i / 8) as -> by (symmetry; apply (Z.div_unique i' 8 (i / 8) (7 - i mod 8)); lia).
  assert (i' mod 8 = 7 - i mod 8) as -> by (symmetry; apply (Z.mod_unique i' 8 (i / 8)); lia).
  replace ((0 <=? i') && (i' <? 8 * n)) with true by zbool. f_equal. lia.
Qed.

(** C26. [negate] complements the first [k] bits and no others, [reverseBits] mirrors
    each of the first [n] bytes and is its own inverse, [copyBits] moves a range
    between two buffers at any pair of bit offsets, and [copyBitsBackward] does
    so inside one buffer, to an offset that is not smaller, over ranges that
    may overlap: the bits written are those that were there before the call,
    everything outside the target range stays.  The ranges are inside the
    buffers; [k] leaves room for the 32-bit index of [negate], and [n] has the
    32 bits of its type. *)
Theorem bit_copies source target so to N k n :
  0 <= so -> 0 <= to -> 0 <= N -> so + N <= 8 * buf_bytes source -> to + N <= 8 * buf_bytes target ->
  0 <= k <= INT32_MAX - 64 -> k <= 8 * buf_bytes target -> 0 <= n <= INT32_MAX -> n <= buf_bytes target ->
  let writes (run : result buffer) (f : Z -> Z -> Z -> bool) (from len : Z) :=
    exists t, run = Ok t /\ buf_bytes t = buf_bytes target
      /\ forall i, bit t i = if (from <=? i) && (i <? from + len) then f i (i / 8) (i mod 8)
                             else bit target i in
  writes (negate target k) (fun i _ _ => negb (bit target i)) 0 k
  /\ writes (reverseBits target n) (fun _ byte j => bit target (8 * byte + (7 - j))) 0 (8 * n)
  /\ (let! t := reverseBits target n in reverseBits t n) = Ok target
  /\ writes (copyBits source so target to N) (fun i _ _ => bit source (so + (i - to))) to N
  /\ (so <= to -> writes (copyBitsBackward target so to N) (fun i _ _ => bit target (so + (i - to))) to N).
Proof.
  intros Hso Hto HN Hs Ht Hk Hk' Hn Hn'. cbv zeta beta. rewrite !Z.add_0_l. split_and!.
  - destruct (negate_ok target k) as (t & -> & Hb & Hbit); [lia|lia|]. by exists t.
  - destruct (reverseBits_ok target n) as (t & -> & Hb & Hbit); [lia|]. by exists t.
  - apply reverseBits_twice; lia.
  - destruct (copyBits_ok source so target to N) as (t & -> & Hb & Hbit); [lia..|]. by exists t.
  - intros Hle. destruct (copyBitsBackward_ok target so to N) as (t & -> & Hb & Hbit); [lia..|].
    exists t. split; [done|]. split; [done|]. intros i. by rewrite Hbit, Z.add_0_r.
Qed.

(** A copy to an overlapping range above, and one to a smaller offset of another buffer. *)
Lemma bit_copies_witness :
  (exists t, copyBitsBackward (buffer_of [37; 1]) 3 13 64 = Ok t
    /\ buf_bytes t = 16
    /\ forall i, bit t i = if (13 <=? i) && (i <? 77) then bit (buffer_of [37; 1]) (3 + (i - 13))
                           else bit (buffer_of [37; 1]) i)
  /\ (exists t, copyBits (buffer_of [37; 1]) 13 (buffer_of [37; 1]) 3 64 = Ok t
    /\ buf_bytes t = 16
    /\ forall i, bit t i = if (3 <=? i) && (i <? 67) then bit (buffer_of [37; 1]) (13 + (i - 3))
                           else bit (buffer_of [37; 1]) i).
Proof.
  split.
  - destruct (bit_copies (buffer_of [37; 1]) (buffer_of [37; 1]) 3 13 64 77 5) as (_ & _ & _ & _ & H);
      [lia|lia|lia|vm_compute; discriminate|vm_compute; discriminate|lia|vm_compute; discriminate|lia|vm_compute; discriminate|]. exact (H ltac:(lia)).
  - destruct (bit_copies (buffer_of [37; 1]) (buffer_of [37; 1]) 13 3 64 77 5) as (_ & _ & _ & H & _);
      [lia|lia|lia|vm_compute; discriminate|vm_compute; discriminate|lia|vm_compute; discriminate|lia|vm_compute; discriminate|]. exact H.
Defined.

(** C27. [scatterBits] moves the consecutive bits of the source to the positions of
    the one bits of the mask, in order, and clears the other positions: bit
    [i] of the target becomes the source's bit whose index is the number of
    one bits of the mask below [i], also when the source is the target itself.
    The BMI2 path, 64 bits at a time from the top, and the simple loop return
    the same buffer. *)
Theorem scatter_paths source mask target N :
  scatter_memory source mask target N -> has_words mask N ->
  exists t, buf_bytes t = buf_bytes target
    /\ (forall i, bit t i = if (0 <=? i) && (i <? N)
                            then bit mask i && bit (operand_buffer target source) (rank mask i)
                            else bit target i)
    /\ scatterBits source mask true (rank mask N) N target = Ok t
    /\ scatterBits source mask false (rank mask N) N target = Ok t.
Proof.
  intros HM Hw. destruct (scatterBits_ok true source mask target N) as (t & Hrun & Hb & Hbit); [done..|].
  destruct (scatterBits_ok false source mask target N) as (t' & Hrun' & Hb' & Hbit'); [done..|].
  exists t. split; [done|]. split; [done|]. split; [done|]. rewrite Hrun'. f_equal.
  apply buffer_ext; [lia|]. intros i. by rewrite Hbit, Hbit'.
Qed.

(** In place: the bits 1, 0, 1 of the target go to the positions 1, 4 and 70. *)
Lemma scatter_paths_witness :
  scatter_memory Target (buffer_of [18; 64]) (buffer_of [5; 0]) 71
  /\ scatterBits Target (buffer_of [18; 64]) true 3 71 (buffer_of [5; 0]) = Ok (buffer_of [2; 64])
  /\ scatterBits Target (buffer_of [18; 64]) false 3 71 (buffer_of [5; 0]) = Ok (buffer_of [2; 64]).
Proof.
  assert (scatter_memory Target (buffer_of [18; 64]) (buffer_of [5; 0]) 71) as HM.
  { split; vm_compute; repeat split; discriminate. }
  split; [exact HM|].
  destruct (scatter_paths Target (buffer_of [18; 64]) (buffer_of [5; 0]) 71 HM)
    as (t & _ & _ & H1 & H2); [vm_compute; discriminate|].
  assert (t = buffer_of [2; 64]) as Ht.
  { assert (@Ok buffer t = Ok (buffer_of [2; 64])) as [= ->]; [|reflexivity].
    transitivity (scatterBits Target (buffer_of [18; 64]) false (rank (buffer_of [18; 64]) 71) 71
      (buffer_of [5; 0])); [exact (eq_sym H2)|vm_compute; reflexivity]. }
  rewrite Ht in H1, H2. split; [exact H1|exact H2].
Defined.
