(* ===== verification/BitHash.v ===== *)
(** Words (bolt/common/base/BitUtil.h and BitUtil.cpp): the hash of a byte string and
    the functions that combine hashes, and the ones that permute the bits of
    a word: extraction by a mask, rotation, byte reversal; padding and the
    printing of bits. *)

From S2P Require Import Prelude BitUtil BitWords BitCopy.

(** * Hash functions *)

Definition kMul : Z := 0x9ddfea08eb382d69.

(** [*] of uint64_t *)
Definition mul64 (a b : Z) : Z := wrap_unsigned 64 (a * b).

Definition hashMix (upper lower : Z) : Z :=
  let a := mul64 (Z.lxor lower upper) kMul in
  let a := Z.lxor a (Z.shiftr a 47) in
  let b := mul64 (Z.lxor upper a) kMul in
  let b := Z.lxor b (Z.shiftr b 47) in
  let b := mul64 b kMul in
  b.

Definition commutativeHashMix (upper lower : Z) : Z :=
  wrap_unsigned 64 (wrap_unsigned 64 (3860031 + mul64 (wrap_unsigned 64 (upper + lower)) 2779)
    + mul64 (mul64 upper lower) 2).

(** [loadPartialWord(data + begin, size)]: the bytes go to a local word. *)
Definition loadPartialWord (data : buffer) (begin size : Z) : result Z :=
  let result := {| buf_bytes := 8; buf_value := 0 |} in
  let! s :=
    if size >=? 4 then
      let! v := load 4 data begin in
      let! result := store 4 result 0 v in
      Ok (result, begin + 4, 4, size - 4)
    else Ok (result, begin, 0, size) in
  let '(result, begin, resultPtr, toGo) := s in
  let! s :=
    if toGo >=? 2 then
      let! v := load 2 data begin in
      let! result := store 2 result resultPtr v in
      Ok (result, begin + 2, resultPtr + 2, toGo - 2)
    else Ok (result, begin, resultPtr, toGo) in
  let '(result, begin, resultPtr, toGo) := s in
  let! result :=
    if toGo =? 1 then
      let! v := load 1 data begin in
      store 1 result resultPtr v
    else Ok result in
  Ok (buf_value result).

(** [simd::crc32U64] of a 32 bit checksum and a word is an instruction of the machine. *)
Section hash_bytes.
Variable crc32U64 : Z -> Z -> Z.

Definition crc (checksum value : Z) : Z := crc32U64 (wrap_unsigned 32 checksum) value.

(** [while (toGo >= 24)]: [words] is a byte offset here. *)
Fixpoint hash_loop (data : buffer) (fuel : nat) (a0 a1 a2 words toGo : Z)
  : result (Z * Z * Z * Z * Z) :=
  match fuel with
  | O => Err OutOfFuel
  | S fuel =>
      if toGo >=? 24 then
        let! w0 := load 8 data words in
        let! w1 := load 8 data (words + 8) in
        let! w2 := load 8 data (words + 16) in
        hash_loop data fuel (crc a0 w0) (crc a1 w1) (crc a2 w2) (words + 24) (toGo - 24)
      else Ok (a0, a1, a2, words, toGo)
  end.

Definition hash_tail (data : buffer) (a0 a1 a2 words toGo : Z) : result (Z * Z * Z) :=
  if toGo >? 16 then
    let! w0 := load 8 data words in
    let! w1 := load 8 data (words + 8) in
    let! w2 := loadPartialWord data (words + 16) (toGo - 16) in
    Ok (crc a0 w0, crc a1 w1, crc a2 w2)
  else if toGo >? 8 then
    let! w0 := load 8 data words in
    let! w1 := if toGo =? 16 then load 8 data (words + 8)
               else loadPartialWord data (words + 8) (toGo - 8) in
    Ok (crc a0 w0, crc a1 w1, a2)
  else if toGo >? 0 then
    let! w0 := if toGo =? 8 then load 8 data words else loadPartialWord data words toGo in
    Ok (crc a0 w0, a1, a2)
  else Ok (a0, a1, a2).

Definition hashBytes (seed : Z) (data : buffer) (size : Z) : result Z :=
  if size <? 8 then
    let! word := loadPartialWord data 0 size in
    let c := crc seed word in
    let c2 := crc seed (Z.shiftr word 32) in
    Ok (Z.lor c (wrap_unsigned 64 (Z.shiftl c2 32)))
  else
    let a0 := seed in
    let a1 := wrap_unsigned 64 (Z.shiftl seed 32) in
    let a2 := Z.shiftr seed 16 in
    let toGo := wrap_signed 32 size in
    let! s := hash_loop data (S (Z.to_nat size)) a0 a1 a2 0 toGo in
    let '(a0, a1, a2, words, toGo) := s in
    let! s := hash_tail data a0 a1 a2 words toGo in
    let '(a0, a1, a2) := s in
    Ok (Z.lxor (Z.lxor a0 (mul64 a1 kMul)) (mul64 a2 kMul)).
End hash_bytes.

(** * Permutations of bits *)

(** [extractBits<T>] without BMI2, for a type of [w] bits: [n] rounds are left. *)
Fixpoint extract_loop (n : nat) (a mask dst k : Z) : Z :=
  match n with
  | O => dst
  | S n =>
      let '(dst, k) :=
        if negb (Z.land mask 1 =? 0) then (Z.lor dst (Z.shiftl (Z.land a 1) k), k + 1) else (dst, k) in
      extract_loop n (Z.shiftr a 1) (Z.shiftr mask 1) dst k
  end.

Definition extractBits (w : nat) (a mask : Z) : Z := extract_loop w a mask 0 0.

(** Shifts of a word of [w] bits. *)
Definition shl_word (w word n : Z) : result Z :=
  if (0 <=? n) && (n <? w) then Ok (wrap_unsigned w (Z.shiftl word n)) else Err BadShift.

Definition shr_word (w word n : Z) : result Z :=
  if (0 <=? n) && (n <? w) then Ok (Z.shiftr word n) else Err BadShift.

(** [rotateLeft] without BMI2. *)
Definition rotateLeft (a shift : Z) : result Z :=
  let! l := shl_word 32 a shift in
  let! r := shr_word 32 a (32 - shift) in
  Ok (Z.lor l r).

Definition rotateLeft64 (a shift : Z) : result Z :=
  let! l := shl_word 64 a shift in
  let! r := shr_word 64 a (64 - shift) in
  Ok (Z.lor l r).

(** [__builtin_bswap64] *)
Definition bswap64 (word : Z) : Z :=
  fold_right Z.lor 0
    (map (fun i => Z.shiftl (Z.land (Z.shiftr word (8 * i)) 255) (8 * (7 - i))) (seqZ 0 8)).

(** [builtin_bswap128] where the compiler has no builtin; the result as an
    unsigned value. *)
Definition builtin_bswap128 (value : Z) : Z :=
  wrap_signed 128 (Z.lor (wrap_unsigned 128 (Z.shiftl (bswap64 (wrap_unsigned 64 value)) 64))
    (bswap64 (wrap_unsigned 64 (Z.shiftr value 64)))).

(** * Writing *)

(** [memset(pointer + at, 0, n)] *)
Definition memset_zero (pointer : buffer) (at_ n : Z) : result buffer := store n pointer at_ 0.

Definition padToAlignment (pointer : buffer) (size padIndex alignment : Z) : result buffer :=
  let! up := roundUp padIndex alignment in
  let roundEnd := Z.min size up in
  if roundEnd >? padIndex then memset_zero pointer padIndex (roundEnd - padIndex) else Ok pointer.

(** [storeBitsToByte<kSize>] *)
Definition storeBitsToByte (kSize bits : Z) (bytes : buffer) (index : Z) : result buffer :=
  if kSize =? 8 then store 1 bytes (index / 8) bits
  else if index mod 8 =? 0 then store 1 bytes (index / 8) bits
  else
    let! old := load 1 bytes (index / 8) in
    store 1 bytes (index / 8) (Z.lor old (Z.shiftl bits 4)).

(** [toString(bits, offset, size)], as the codes of its characters. *)
Definition bits_toString (bits : buffer) (offset size : Z) : result (list Z) :=
  map_res (fun i =>
    let! at_ := ck32 (offset + i) in
    let! set := isBitSet 1 bits at_ in
    Ok (48 + (if set : bool then 1 else 0))) (seqZ 0 size).

(** * Combining hashes *)

Lemma mul64_range a b : 0 <= mul64 a b < 2 ^ 64.
Proof. unfold mul64, wrap_unsigned. apply Z.mod_pos_bound. lia. Qed.

(** The multiplier is odd: multiplication by it has an inverse. *)
Definition kMul_inverse : Z := 15877131476434367193.

Lemma mul64_inverse x : 0 <= x < 2 ^ 64 -> mul64 (mul64 x kMul) kMul_inverse = x.
Proof.
  intros Hx. unfold mul64, wrap_unsigned. rewrite Z.mul_mod_idemp_l, <- Z.mul_assoc by lia.
  rewrite <- Z.mul_mod_idemp_r by lia. change ((kMul * kMul_inverse) mod 2 ^ 64) with 1.
  rewrite Z.mul_1_r. by apply Z.mod_small.
Qed.

(** [x ^= x >> 47] undoes itself. *)
Lemma xorshift_twice x :
  0 <= x < 2 ^ 64 ->
  let f y := Z.lxor y (Z.shiftr y 47) in 0 <= f x < 2 ^ 64 /\ f (f x) = x.
Proof.
  intros Hx f. subst f. cbv beta.
  assert (0 <= Z.shiftr x 47 < 2 ^ 64) as Hs.
  { rewrite Z.shiftr_div_pow2 by lia. split; [apply Z.div_pos; lia|].
    apply Z.div_lt_upper_bound; lia. }
  split.
  - split; [by apply Z.lxor_nonneg; lia|]. apply below_bits; [lia|apply Z.lxor_nonneg; lia|].
    intros i Hi. by rewrite Z.lxor_spec, !(testbit_above 64) by lia.
  - apply Z.bits_inj'. intros i Hi. autorewrite with bits.
    replace (Z.testbit x (i + 47 + 47)) with false by (symmetry; apply (testbit_above 64); lia).
    rewrite xorb_false_r, xorb_assoc, xorb_nilpotent. apply xorb_false_r.
Qed.

(** For a fixed [upper], different words have different hashes. *)
Lemma hashMix_injective upper x y :
  0 <= upper < 2 ^ 64 -> 0 <= x < 2 ^ 64 -> 0 <= y < 2 ^ 64 ->
  hashMix upper x = hashMix upper y -> x = y.
Proof.
  intros Hu Hx Hy. unfold hashMix. cbv zeta.
  assert (forall a b, 0 <= a < 2 ^ 64 -> 0 <= b < 2 ^ 64 -> 0 <= Z.lxor a b < 2 ^ 64) as Hr.
  { intros a b Ha Hb. split; [apply Z.lxor_nonneg; lia|].
    apply below_bits; [lia|apply Z.lxor_nonneg; lia|].
    intros i Hi. by rewrite Z.lxor_spec, !(testbit_above 64) by lia. }
  assert (forall a b, 0 <= a < 2 ^ 64 -> 0 <= b < 2 ^ 64 -> mul64 a kMul = mul64 b kMul -> a = b) as Hmul.
  { intros a b Ha Hb E. by rewrite <- (mul64_inverse a), E, mul64_inverse. }
  assert (forall a b, 0 <= a < 2 ^ 64 -> 0 <= b < 2 ^ 64 ->
    Z.lxor a (Z.shiftr a 47) = Z.lxor b (Z.shiftr b 47) -> a = b) as Hxs.
  { intros a b Ha Hb E. destruct (xorshift_twice a Ha) as [_ Ea], (xorshift_twice b Hb) as [_ Eb].
    cbv beta zeta in Ea, Eb. by rewrite <- Ea, E, Eb. }
  pose proof (fun a => proj1 (xorshift_twice (mul64 a kMul) (mul64_range a kMul))) as Hm.
  cbv beta zeta in Hm. intros E.
  apply Hmul in E; [|apply Hm..]. apply Hxs in E; [|apply mul64_range..].
  apply Hmul in E; [|apply Hr; [done|apply Hm]..]. apply (f_equal (Z.lxor upper)) in E.
  rewrite <- !Z.lxor_assoc, Z.lxor_nilpotent, !Z.lxor_0_l in E.
  apply Hxs in E; [|apply mul64_range..]. apply Hmul in E; [|by apply Hr..].
  apply (f_equal (fun z => Z.lxor z upper)) in E.
  by rewrite !Z.lxor_assoc, !Z.lxor_nilpotent, !Z.lxor_0_r in E.
Qed.

Lemma commutativeHashMix_eq u l :
  commutativeHashMix u l = (3860031 + (u + l) * 2779 + u * l * 2) mod 2 ^ 64.
Proof.
  unfold commutativeHashMix, mul64, wrap_unsigned.
  rewrite !Z.mul_mod_idemp_l, (Z.add_mod_idemp_r 3860031) by lia.
  by rewrite Z.add_mod_idemp_r, Z.add_mod_idemp_l by lia.
Qed.

Lemma commutativeHashMix_comm u l : commutativeHashMix u l = commutativeHashMix l u.
Proof. rewrite !commutativeHashMix_eq. f_equal. lia. Qed.

Lemma commutativeHashMix_assoc u v w :
  commutativeHashMix (commutativeHashMix u v) w = commutativeHashMix u (commutativeHashMix v w).
Proof.
  rewrite !commutativeHashMix_eq. set (x := 3860031 + (u + v) * 2779 + u * v * 2).
  set (y := 3860031 + (v + w) * 2779 + v * w * 2).
  assert (forall a b k, a = b + k * 2 ^ 64 -> a mod 2 ^ 64 = b mod 2 ^ 64) as Hmod.
  { intros a b k ->. apply Z_mod_plus_full. }
  transitivity ((3860031 + (x + w) * 2779 + x * w * 2) mod 2 ^ 64).
  - apply Hmod with (- (x / 2 ^ 64) * (2779 + w * 2)). rewrite (Z.mod_eq x) by lia. ring.
  - transitivity ((3860031 + (u + y) * 2779 + u * y * 2) mod 2 ^ 64); [f_equal; unfold x, y; ring|].
    symmetry. apply Hmod with (- (y / 2 ^ 64) * (2779 + u * 2)). rewrite (Z.mod_eq y) by lia. ring.
Qed.

(** The reduction of hashes does not depend on their order. *)
Lemma commutativeHashMix_order seed l l' :
  Permutation l l' -> fold_left commutativeHashMix l seed = fold_left commutativeHashMix l' seed.
Proof.
  intros HP. revert seed. induction HP as [|x l l' _ IH|x y l|l l' l'' _ IH1 _ IH2]; intros seed;
    cbn [fold_left].
  - done.
  - apply IH.
  - f_equal. rewrite !commutativeHashMix_assoc. f_equal. apply commutativeHashMix_comm.
  - by rewrite IH1.
Qed.

(** * Hashing bytes *)

(** The first [k] bytes of a word come from [data], the others are zero. *)
Definition loaded (data : buffer) (begin k : Z) (word : buffer) : Prop :=
  buf_bytes word = 8
  /\ forall i, bit word i = (0 <=? i) && (i <? 8 * k) && bit data (8 * begin + i).

Lemma loaded_more n data begin k word :
  0 < n -> 0 <= begin -> 0 <= k -> k + n <= 8 -> begin + k + n <= buf_bytes data ->
  loaded data begin k word ->
  exists word', (let! v := load n data (begin + k) in store n word k v) = Ok word'
    /\ loaded data begin (k + n) word'.
Proof.
  intros Hn Hb Hk Hk8 Hd [Hw Hbit]. rewrite load_ok by lia. cbn [rbind]. rewrite store_ok by lia.
  eexists. split; [done|]. split; [done|]. intros i. rewrite set_field_bits, Hbit by lia.
  destruct ((8 * k <=? i) && (i <? 8 * k + 8 * n)) eqn:E.
  - rewrite field_bits by lia.
    replace ((0 <=? i - 8 * k) && (i - 8 * k <? 8 * n)) with true by zbool.
    replace ((0 <=? i) && (i <? 8 * (k + n))) with true by zbool. cbn [andb]. f_equal. lia.
  - by replace ((0 <=? i) && (i <? 8 * (k + n))) with ((0 <=? i) && (i <? 8 * k))
      by (apply eq_true_iff_eq; zbool).
Qed.

Lemma loaded_value data begin k word :
  0 <= begin -> 0 <= k -> loaded data begin k word -> buf_value word = field data (8 * begin) (8 * k).
Proof.
  intros Hb Hk [_ Hbit]. apply Z.bits_inj. intros i. fold (bit word i). by rewrite Hbit, field_bits by lia.
Qed.

(** A partial word has exactly the given bytes, and no others are read. *)
Lemma loadPartialWord_ok data begin size :
  0 <= begin -> 0 <= size < 8 -> begin + size <= buf_bytes data ->
  loadPartialWord data begin size = Ok (field data (8 * begin) (8 * size)).
Proof.
  intros Hb Hs Hd. unfold loadPartialWord.
  assert (loaded data begin 0 {| buf_bytes := 8; buf_value := 0 |}) as H0.
  { split; [done|]. intros i. unfold bit. cbn [buf_value]. rewrite Z.bits_0.
    by replace ((0 <=? i) && (i <? 8 * 0)) with false by zbool. }
  set (r0 := if size >=? 4 then 4 else 0). set (r1 := if size - r0 >=? 2 then r0 + 2 else r0).
  match goal with |- rbind ?m _ = _ => assert (exists w, m = Ok (w, begin + r0, r0, size - r0)
    /\ loaded data begin r0 w) as (w1 & -> & H1) end.
  { subst r0. destruct (size >=? 4) eqn:E; [|exists {| buf_bytes := 8; buf_value := 0 |};
      by rewrite Z.add_0_r, Z.sub_0_r].
    destruct (loaded_more 4 data begin 0 {| buf_bytes := 8; buf_value := 0 |}) as (w & Hrun & Hw); [lia..|done|].
    rewrite Z.add_0_r in Hrun. exists w. split; [|done].
    destruct (load 4 data begin); [|done]. cbn [rbind] in *. by rewrite Hrun. }
  cbn [rbind]. assert (r0 = 4 /\ 4 <= size \/ r0 = 0 /\ size < 4) as Hr0
    by (subst r0; destruct (size >=? 4) eqn:?; lia).
  clearbody r0.
  match goal with |- rbind ?m _ = _ => assert (exists w, m = Ok (w, begin + r1, r1, size - r1)
    /\ loaded data begin r1 w) as (w2 & -> & H2) end.
  { subst r1. destruct (size - r0 >=? 2) eqn:E; [|by exists w1].
    destruct (loaded_more 2 data begin r0 w1) as (w & Hrun & Hw);
      [lia..|done|].
    exists w. split; [|done]. destruct (load 2 data (begin + r0)); [|done]. cbn [rbind] in *.
    rewrite Hrun. cbn [rbind]. by rewrite Z.add_assoc, Z.sub_add_distr. }
  cbn [rbind]. assert (0 <= r1 /\ (size - r1 = 1 \/ size = r1)) as [Hr1 Hend].
  { subst r1. destruct (_ >=? 2) eqn:?; lia. }
  destruct (size - r1 =? 1) eqn:E.
  - destruct (loaded_more 1 data begin r1 w2) as (w & Hrun & Hw); [lia..|done|].
    rewrite Hrun. cbn [rbind]. rewrite (loaded_value data begin (r1 + 1)) by (done || lia).
    do 3 f_equal. lia.
  - cbn [rbind]. rewrite (loaded_value data begin r1) by (done || lia). do 3 f_equal. lia.
Qed.

(** Two buffers with the same first [size] bytes. *)
Record same_bytes (data data' : buffer) (size : Z) : Prop := {
  sb_left : size <= buf_bytes data;
  sb_right : size <= buf_bytes data';
  sb_bits : forall i, 0 <= i < 8 * size -> bit data i = bit data' i
}.

Lemma field_same data data' size a n :
  same_bytes data data' size -> 0 <= a -> 0 <= n -> a + n <= size ->
  field data (8 * a) (8 * n) = field data' (8 * a) (8 * n).
Proof.
  intros [_ _ Hbits] Ha Hn He. apply Z.bits_inj. intros i. rewrite !field_bits by lia.
  destruct ((0 <=? i) && (i <? 8 * n)) eqn:E; [|done]; cbn [andb]. apply Hbits. zbool.
Qed.

Lemma load_same data data' size n a :
  same_bytes data data' size -> 0 <= a -> 0 <= n -> a + n <= size ->
  exists v, load n data a = Ok v /\ load n data' a = Ok v.
Proof.
  intros HS Ha Hn He. pose proof HS as [? ? _]. rewrite !load_ok by lia.
  rewrite <- (field_same data data' size) by done. by eexists.
Qed.

Lemma loadPartialWord_same data data' size n a :
  same_bytes data data' size -> 0 <= a -> 0 <= n < 8 -> a + n <= size ->
  exists v, loadPartialWord data a n = Ok v /\ loadPartialWord data' a n = Ok v.
Proof.
  intros HS Ha Hn He. pose proof HS as [? ? _]. rewrite !loadPartialWord_ok by lia.
  rewrite <- (field_same data data' size) by (done || lia). by eexists.
Qed.

Section hash_same.
Variable crc32U64 : Z -> Z -> Z.
Variables (data data' : buffer) (size : Z).
Hypothesis HS : same_bytes data data' size.

(** Reads of the same bytes of both buffers, one after another. *)
Ltac same_reads :=
  repeat match goal with
  | |- context [load ?n data ?a] =>
      let v := fresh "v" in
      destruct (load_same data data' size n a HS) as (v & -> & ->); [lia..|]; cbn [rbind]
  | |- context [loadPartialWord data ?a ?n] =>
      let v := fresh "v" in
      destruct (loadPartialWord_same data data' size n a HS) as (v & -> & ->); [lia..|]; cbn [rbind]
  end.

Lemma hash_loop_same fuel a0 a1 a2 words toGo :
  0 <= words -> words + toGo <= size -> (Z.to_nat toGo < fuel)%nat ->
  exists s, hash_loop crc32U64 data fuel a0 a1 a2 words toGo = Ok s
    /\ hash_loop crc32U64 data' fuel a0 a1 a2 words toGo = Ok s
    /\ let '(_, _, _, words', toGo') := s in
       0 <= words' /\ words' + toGo' <= size /\ toGo' < 24.
Proof.
  revert a0 a1 a2 words toGo. induction fuel as [|fuel IH]; intros a0 a1 a2 words toGo Hw He Hf; [lia|].
  cbn [hash_loop]. destruct (toGo >=? 24) eqn:E.
  - same_reads. apply IH; lia.
  - eexists. split; [done|]. split; [done|]. lia.
Qed.

Lemma hash_tail_same a0 a1 a2 words toGo :
  0 <= words -> words + toGo <= size -> toGo < 24 ->
  exists s, hash_tail crc32U64 data a0 a1 a2 words toGo = Ok s
    /\ hash_tail crc32U64 data' a0 a1 a2 words toGo = Ok s.
Proof.
  intros Hw He H24. unfold hash_tail.
  destruct (toGo >? 16) eqn:?; [same_reads; by eexists|].
  destruct (toGo >? 8) eqn:?; [destruct (toGo =? 16) eqn:?; same_reads; by eexists|].
  destruct (toGo >? 0) eqn:?; [destruct (toGo =? 8) eqn:?; same_reads; by eexists|].
  by eexists.
Qed.

Lemma hashBytes_same seed :
  0 <= size ->
  exists h, hashBytes crc32U64 seed data size = Ok h /\ hashBytes crc32U64 seed data' size = Ok h.
Proof.
  intros Hs. unfold hashBytes. destruct (size <? 8) eqn:E; [same_reads; by eexists|].
  assert (wrap_signed 32 size <= size).
  { pose proof (wrap_signed_range 32 size). destruct (decide (size < 2 ^ 31)).
    - by rewrite wrap_signed_id by lia.
    - lia. }
  destruct (hash_loop_same (S (Z.to_nat size)) seed (wrap_unsigned 64 (Z.shiftl seed 32))
    (Z.shiftr seed 16) 0 (wrap_signed 32 size)) as ([[[[b0 b1] b2] words] toGo] & -> & -> & Hend); [lia..|].
  cbn [rbind]. destruct (hash_tail_same b0 b1 b2 words toGo) as ([[c0 c1] c2] & -> & ->); [lia..|].
  by eexists.
Qed.
End hash_same.

(** * Extraction, rotation, byte reversal *)

(** The one bits of [mask] below [j]. *)
Definition ones_below (mask j : Z) : Z := Z.of_nat (length (List.filter (Z.testbit mask) (seqZ 0 j))).

Lemma ones_below_shift mask j :
  0 <= j -> ones_below mask (j + 1) = (if Z.testbit mask 0 then 1 else 0) + ones_below (Z.shiftr mask 1) j.
Proof.
  intros Hj. unfold ones_below. rewrite (Z.add_comm j 1), seqZ_app, List.filter_app, length_app by lia.
  rewrite (filter_shift _ (0 + 1)), Nat2Z.inj_add. f_equal.
  - change (seqZ 0 1) with [0]. cbn [List.filter]. by destruct (Z.testbit mask 0).
  - do 2 f_equal. apply filter_ext. intros i Hi%elem_of_seqZ. rewrite Z.shiftr_spec by lia. f_equal. lia.
Qed.

Lemma popcount_ones_below mask : popcount mask = ones_below mask 64.
Proof. unfold popcount, ones_below. rewrite bits_of_filter. exact eq_refl. Qed.

(** What [n] rounds of the loop add from bit [k] on. *)
Lemma extract_loop_bits n a mask dst k :
  0 <= k -> (forall i, k <= i -> Z.testbit dst i = false) ->
  (forall i, i < k -> Z.testbit (extract_loop n a mask dst k) i = Z.testbit dst i)
  /\ (forall j, 0 <= j < Z.of_nat n -> Z.testbit mask j = true ->
        Z.testbit (extract_loop n a mask dst k) (k + ones_below mask j) = Z.testbit a j)
  /\ (forall i, k + ones_below mask (Z.of_nat n) <= i -> Z.testbit (extract_loop n a mask dst k) i = false).
Proof.
  revert a mask dst k. induction n as [|n IH]; intros a mask dst k Hk Hdst.
  { split; [done|]. split; [lia|]. intros i Hi. apply Hdst. change (ones_below mask (Z.of_nat 0)) with 0 in Hi. lia. }
  cbn [extract_loop].
  replace (negb (Z.land mask 1 =? 0)) with (Z.testbit mask 0) by (by rewrite <- (land_one mask 0)).
  assert (forall i, Z.testbit (Z.lor dst (Z.shiftl (Z.land a 1) k)) i
    = Z.testbit dst i || (i =? k) && Z.testbit a 0) as Hor.
  { intros i. rewrite Z.lor_spec. f_equal. destruct (decide (0 <= i)).
    - rewrite Z.shiftl_spec, Z.land_spec, (testbit_one 0 (i - k) ltac:(lia) : Z.testbit 1 _ = _) by done. destruct (i =? k) eqn:E.
      + replace (i - k) with 0 by lia. apply andb_true_r.
      + replace (i - k =? 0) with false by zbool. apply andb_false_r.
    - rewrite Z.testbit_neg_r by lia. by replace (i =? k) with false by zbool. }
  set (dst' := if Z.testbit mask 0 then Z.lor dst (Z.shiftl (Z.land a 1) k) else dst).
  set (k' := k + if Z.testbit mask 0 then 1 else 0).
  replace (if Z.testbit mask 0 then (Z.lor dst (Z.shiftl (Z.land a 1) k), k + 1) else (dst, k))
    with (dst', k') by (subst dst' k'; destruct (Z.testbit mask 0); f_equal; lia).
  assert (k <= k' <= k + 1) by (subst k'; destruct (Z.testbit mask 0); lia).
  destruct (IH (Z.shiftr a 1) (Z.shiftr mask 1) dst' k') as (Hlow & Hmid & Hhigh); [lia| |].
  { intros i Hi. subst dst' k'. destruct (Z.testbit mask 0); [|apply Hdst; lia].
    rewrite Hor, Hdst by lia. by replace (i =? k) with false by zbool. }
  split_and!.
  - intros i Hi. rewrite Hlow by lia. subst dst'. destruct (Z.testbit mask 0); [|done].
    rewrite Hor. replace (i =? k) with false by zbool. apply orb_false_r.
  - intros j Hj Hm. destruct (decide (j = 0)) as [->|Hj0].
    + assert (k' = k + 1) by (subst k'; by rewrite Hm).
      change (ones_below mask 0) with 0. rewrite Hlow by lia. subst dst'.
      rewrite Hm, Hor, Hdst by lia. by replace (k + 0 =? k) with true by zbool.
    + replace j with ((j - 1) + 1) by lia. rewrite ones_below_shift by lia.
      replace (k + _) with (k' + ones_below (Z.shiftr mask 1) (j - 1)) by lia.
      rewrite Hmid; rewrite ?Z.shiftr_spec by lia; [done|lia|]. by replace (j - 1 + 1) with j by lia.
  - intros i Hi. apply Hhigh. replace (Z.of_nat (S n)) with (Z.of_nat n + 1) in Hi by lia.
    rewrite ones_below_shift in Hi by lia. lia.
Qed.

Lemma pdep_range bits mask : 0 <= pdep bits mask < 2 ^ 64.
Proof.
  unfold pdep. set (g := fun j => if Z.testbit mask j && _ then _ else _).
  assert (forall l, (forall j, j ∈ l -> 0 <= j < 64) -> 0 <= fold_right Z.lor 0 (map g l) < 2 ^ 64) as H.
  { induction l as [|j l IH]; intros Hl; cbn [map fold_right]; [lia|].
    apply lor_range; [lia| |apply IH; intros; apply Hl; set_solver].
    subst g. cbv beta. destruct (_ && _); [|lia]. rewrite Z.shiftl_1_l.
    assert (0 <= j < 64) by (apply Hl; set_solver). split; [lia|]. apply Z.pow_lt_mono_r; lia. }
  apply H. intros j Hj%elem_of_seqZ. lia.
Qed.

(** Depositing what was extracted gives back the bits under the mask, and the
    extracted word has no bits above their number. *)
Lemma pdep_extractBits a mask :
  pdep (extractBits 64 a mask) mask = wrap_unsigned 64 (Z.land a mask)
  /\ forall i, popcount mask <= i -> Z.testbit (extractBits 64 a mask) i = false.
Proof.
  destruct (extract_loop_bits 64 a mask 0 0) as (_ & Hmid & Hhigh); [lia|intros; apply Z.bits_0|].
  fold (extractBits 64 a mask) in Hmid, Hhigh. change (Z.of_nat 64) with 64 in *.
  generalize dependent (extractBits 64 a mask). intros e Hmid Hhigh. split.
  - apply (words_eq 64).
    + apply pdep_range.
    + apply Z.mod_pos_bound. lia.
    + intros j Hj. rewrite pdep_bits, wrap_unsigned_bits, Z.land_spec by lia.
      replace (j <? 64) with true by zbool. cbn [andb].
      destruct (Z.testbit mask j) eqn:Em; [|by rewrite andb_false_r]. rewrite andb_true_r. cbn [andb].
      rewrite (popcount_prefix _ j (Z.testbit mask)); [by rewrite <- (Hmid j)|lia|].
      intros i Hi. rewrite Z.land_spec, Z.testbit_ones by lia.
      replace (0 <=? i) with true by zbool. apply andb_comm.
  - intros i Hi. apply Hhigh. rewrite Z.add_0_l, <- popcount_ones_below. exact Hi.
Qed.

Lemma rotateLeft64_bits a shift :
  0 <= a < 2 ^ 64 -> 0 < shift < 64 ->
  exists r, rotateLeft64 a shift = Ok r /\ 0 <= r < 2 ^ 64
    /\ forall i, 0 <= i < 64 -> Z.testbit r i = Z.testbit a ((i - shift) mod 64).
Proof.
  intros Ha Hs. unfold rotateLeft64, shl_word, shr_word.
  replace ((0 <=? shift) && (shift <? 64)) with true by zbool.
  replace ((0 <=? 64 - shift) && (64 - shift <? 64)) with true by zbool. cbn [rbind].
  eexists. split; [done|]. split.
  - apply lor_range; [lia|apply Z.mod_pos_bound; lia|]. rewrite Z.shiftr_div_pow2 by lia.
    split; [apply Z.div_pos; lia|]. apply Z.div_lt_upper_bound; [lia|].
    assert (0 < 2 ^ (64 - shift)) by lia. nia.
  - intros i Hi. rewrite Z.lor_spec, wrap_unsigned_bits, Z.shiftl_spec, Z.shiftr_spec by lia.
    replace (i <? 64) with true by zbool. cbn [andb]. destruct (i <? shift) eqn:E.
    + rewrite (Z.testbit_neg_r a (i - shift)) by lia. cbn [orb]. f_equal.
      apply (Z.mod_unique _ _ (-1)); lia.
    + rewrite (testbit_above 64 a (i + (64 - shift))) by lia. rewrite orb_false_r.
      by rewrite Z.mod_small by lia.
Qed.

Lemma rotateLeft64_back a shift :
  0 <= a < 2 ^ 64 -> 0 < shift < 64 ->
  (let! r := rotateLeft64 a shift in rotateLeft64 r (64 - shift)) = Ok a.
Proof.
  intros Ha Hs. destruct (rotateLeft64_bits a shift) as (r & -> & Hr & Hbits); [done..|]. cbn [rbind].
  destruct (rotateLeft64_bits r (64 - shift)) as (r' & -> & Hr' & Hbits'); [done|lia|].
  f_equal. apply (words_eq 64); [done..|]. intros i Hi. rewrite Hbits' by done.
  rewrite Hbits by (apply Z.mod_pos_bound; lia). rewrite Zminus_mod_idemp_l.
  f_equal. symmetry. apply (Z.mod_unique _ _ (-1)); lia.
Qed.

(** Rotating by no bits shifts a word by its width, which is undefined. *)
Lemma rotateLeft64_zero a : rotateLeft64 a 0 = Err BadShift /\ rotateLeft a 0 = Err BadShift.
Proof. done. Qed.

(** Bit [j] of byte [b] goes to byte [7 - b]. *)
Lemma bswap64_bits word i :
  0 <= i < 64 -> Z.testbit (bswap64 word) i = Z.testbit word (8 * (7 - i / 8) + i mod 8).
Proof.
  intros Hi. unfold bswap64. rewrite lor_all_bits.
  pose proof (Z.div_mod i 8). pose proof (Z.mod_pos_bound i 8).
  assert (forall k, 0 <= k < 8 ->
    Z.testbit (Z.shiftl (Z.land (Z.shiftr word (8 * k)) 255) (8 * (7 - k))) i
    = (k =? 7 - i / 8) && Z.testbit word (8 * (7 - i / 8) + i mod 8)) as Hbyte.
  { intros k Hk. rewrite Z.shiftl_spec by lia. destruct (decide (0 <= i - 8 * (7 - k))).
    - rewrite Z.land_spec, Z.shiftr_spec by done. change 255 with (Z.ones 8).
      rewrite Z.testbit_ones by lia. destruct (k =? 7 - i / 8) eqn:E.
      + replace ((0 <=? i - 8 * (7 - k)) && (i - 8 * (7 - k) <? 8)) with true by zbool.
        rewrite andb_true_r. cbn [andb]. f_equal. lia.
      + replace ((0 <=? i - 8 * (7 - k)) && (i - 8 * (7 - k) <? 8)) with false by zbool.
        apply andb_false_r.
    - rewrite Z.testbit_neg_r by lia. by replace (k =? 7 - i / 8) with false by zbool. }
  apply eq_true_iff_eq. rewrite existsb_exists. split.
  - intros (k & Hk%list_elem_of_In%elem_of_seqZ & Ht). rewrite Hbyte in Ht by lia. by destruct (_ =? _).
  - intros Ht. exists (7 - i / 8). rewrite <- list_elem_of_In, elem_of_seqZ. split; [lia|].
    rewrite Hbyte, Ht by lia. zbool.
Qed.

Lemma swapped_index i :
  0 <= i < 64 -> let i' := 8 * (7 - i / 8) + i mod 8 in
  0 <= i' < 64 /\ 8 * (7 - i' / 8) + i' mod 8 = i.
Proof.
  intros Hi i'. pose proof (Z.div_mod i 8). pose proof (Z.mod_pos_bound i 8).
  assert (i' / 8 = 7 - i / 8) as -> by (symmetry; apply (Z.div_unique i' 8 (7 - i / 8) (i mod 8)); lia).
  assert (i' mod 8 = i mod 8) as -> by (symmetry; apply (Z.mod_unique i' 8 (7 - i / 8)); lia). lia.
Qed.

Lemma bswap64_range word : 0 <= bswap64 word < 2 ^ 64.
Proof.
  unfold bswap64. set (g := fun i => _).
  assert (forall l, (forall k, k ∈ l -> 0 <= k < 8) -> 0 <= fold_right Z.lor 0 (map g l) < 2 ^ 64) as H.
  { induction l as [|k l IH]; intros Hl; cbn [map fold_right]; [lia|].
    apply lor_range; [lia| |apply IH; intros; apply Hl; set_solver].
    assert (0 <= k < 8) by (apply Hl; set_solver). subst g. cbv beta.
    change 255 with (Z.ones 8). rewrite Z.land_ones, Z.shiftl_mul_pow2 by lia.
    pose proof (Z.mod_pos_bound (Z.shiftr word (8 * k)) (2 ^ 8)).
    assert (2 ^ (8 * (7 - k)) <= 2 ^ 56) by (apply Z.pow_le_mono_r; lia).
    assert (0 < 2 ^ (8 * (7 - k))) by lia. nia. }
  apply H. intros k Hk%elem_of_seqZ. lia.
Qed.

Lemma bswap64_twice word : 0 <= word < 2 ^ 64 -> bswap64 (bswap64 word) = word.
Proof.
  intros Hw. apply (words_eq 64); [apply bswap64_range|done|]. intros i Hi.
  destruct (swapped_index i Hi) as [Hr Hi']. rewrite bswap64_bits by done. rewrite bswap64_bits by done.
  by rewrite Hi'.
Qed.

(** The halves of a 128 bit value. *)
Lemma wrap_signed_halves u :
  wrap_unsigned 64 (wrap_signed 128 u) = wrap_unsigned 64 u
  /\ wrap_unsigned 64 (Z.shiftr (wrap_signed 128 u) 64) = wrap_unsigned 64 (Z.shiftr u 64).
Proof.
  assert (forall i, i < 128 -> Z.testbit (wrap_signed 128 u) i = Z.testbit u i) as H.
  { intros i Hi. pose proof (wrap_unsigned_bits 128 (wrap_signed 128 u) i ltac:(lia)) as H1.
    rewrite wrap_unsigned_signed, wrap_unsigned_bits in H1 by lia.
    by replace (i <? 128) with true in H1 by zbool. }
  split; apply Z.bits_inj'; intros i Hi; rewrite !wrap_unsigned_bits by lia;
    destruct (i <? 64) eqn:E; cbn [andb]; try done; rewrite ?Z.shiftr_spec by lia; apply H; lia.
Qed.

Lemma builtin_bswap128_twice value :
  INT128_MIN <= value <= INT128_MAX -> builtin_bswap128 (builtin_bswap128 value) = value.
Proof.
  intros Hv. set (lo := wrap_unsigned 64 value). set (hi := wrap_unsigned 64 (Z.shiftr value 64)).
  assert (0 <= lo < 2 ^ 64) by (apply Z.mod_pos_bound; lia).
  assert (0 <= hi < 2 ^ 64) by (apply Z.mod_pos_bound; lia).
  assert (forall a b, 0 <= a < 2 ^ 64 -> 0 <= b < 2 ^ 64 ->
    let u := Z.lor (wrap_unsigned 128 (Z.shiftl a 64)) b in
    wrap_unsigned 64 u = b /\ wrap_unsigned 64 (Z.shiftr u 64) = a) as Hcat.
  { intros a b Ha Hb u. split; apply Z.bits_inj'; intros i Hi; subst u;
      rewrite wrap_unsigned_bits by lia; rewrite ?Z.shiftr_spec by lia;
      rewrite Z.lor_spec, wrap_unsigned_bits, Z.shiftl_spec by lia;
      destruct (i <? 64) eqn:E; cbn [andb].
    - by rewrite (Z.testbit_neg_r a), andb_false_r by lia.
    - by rewrite (testbit_above 64 b) by lia.
    - replace (i + 64 <? 128) with true by zbool. rewrite (testbit_above 64 b), orb_false_r by lia.
      cbn [andb]. f_equal. lia.
    - by rewrite (testbit_above 64 a) by lia. }
  unfold builtin_bswap128 at 1. unfold builtin_bswap128. fold lo. fold hi.
  destruct (Hcat (bswap64 lo) (bswap64 hi)) as [H1 H2]; [apply bswap64_range..|].
  set (u := Z.lor _ (bswap64 hi)) in *. destruct (wrap_signed_halves u) as [-> ->].
  cbv zeta in H1, H2. rewrite H1, H2, !bswap64_twice by done.
  destruct (Hcat hi lo) as [H3 H4]; [done..|]. cbv zeta in H3, H4.
  rewrite <- (wrap_signed_id 128 value) by lia. rewrite <- (wrap_signed_unsigned 128 128 value) by lia.
  f_equal. apply Z.bits_inj'. intros i Hi.
  rewrite Z.lor_spec, !wrap_unsigned_bits, Z.shiftl_spec by lia. subst lo hi.
  rewrite !wrap_unsigned_bits by lia. destruct (decide (i < 64)).
  - rewrite (Z.testbit_neg_r _ (i - 64)) by lia. replace (i <? 64) with true by zbool.
    replace (i <? 128) with true by zbool. by rewrite !andb_false_r.
  - rewrite Z.shiftr_spec by lia. replace (i <? 64) with false by zbool.
    replace (i - 64 <? 64) with (i <? 128) by (apply eq_true_iff_eq; zbool).
    replace (i - 64 + 64) with i by lia. rewrite orb_false_r. by destruct (i <? 128).
Qed.

(** * Padding, nibbles, printing *)

(** The bytes from [padIndex] to the next multiple of [alignment], or to [size], are zeroed. *)
Lemma padToAlignment_ok b size padIndex alignment :
  0 < alignment -> 0 <= padIndex -> padIndex + alignment <= INT32_MAX -> size <= buf_bytes b ->
  let up := (padIndex + alignment - 1) / alignment * alignment in
  padIndex <= up < padIndex + alignment
  /\ exists t, padToAlignment b size padIndex alignment = Ok t /\ buf_bytes t = buf_bytes b
    /\ forall i, bit t i = if (8 * padIndex <=? i) && (i <? 8 * Z.min size up) then false else bit b i.
Proof.
  intros Ha Hp Hmax Hs up. split.
  { pose proof (Z.div_mod (padIndex + alignment - 1) alignment).
    pose proof (Z.mod_pos_bound (padIndex + alignment - 1) alignment). subst up. lia. }
  unfold padToAlignment, roundUp, memset_zero. rewrite ck32_in by lia. cbn [rbind].
  rewrite Z.quot_div_nonneg by lia.
  replace ((padIndex + (alignment - 1)) / alignment * alignment) with up
    by (subst up; do 2 f_equal; lia).
  destruct (Z.min size up >? padIndex) eqn:E.
  - rewrite store_ok by lia. eexists. split; [done|]. split; [done|]. intros i.
    rewrite set_field_bits, Z.bits_0 by lia.
    by replace (8 * padIndex + 8 * (Z.min size up - padIndex)) with (8 * Z.min size up) by lia.
  - exists b. split; [done|]. split; [done|]. intros i.
    by replace ((8 * padIndex <=? i) && (i <? 8 * Z.min size up)) with false by zbool.
Qed.

(** Two half bytes stored in order make up a byte. *)
Lemma storeBitsToByte_pair lo hi b k :
  0 <= lo < 16 -> 0 <= hi < 16 -> 0 <= k < buf_bytes b ->
  exists t, (let! t := storeBitsToByte 4 lo b (8 * k) in storeBitsToByte 4 hi t (8 * k + 4)) = Ok t
    /\ buf_bytes t = buf_bytes b /\ field t (8 * k) 8 = lo + 16 * hi
    /\ forall i, ~ 8 * k <= i < 8 * k + 8 -> bit t i = bit b i.
Proof.
  intros Hlo Hhi Hk. unfold storeBitsToByte. cbn [Z.eqb Pos.eqb].
  replace (8 * k mod 8) with 0 by (rewrite Z.mul_comm; symmetry; apply Z_mod_mult).
  replace ((8 * k + 4) mod 8) with 4 by (apply (Z.mod_unique _ _ k); lia).
  replace (8 * k / 8) with k by (apply (Z.div_unique _ _ k 0); lia).
  replace ((8 * k + 4) / 8) with k by (apply (Z.div_unique _ _ k 4); lia).
  cbn [Z.eqb Pos.eqb]. rewrite store_ok by lia. cbn [rbind]. rewrite load_ok by (cbn; lia). cbn [rbind].
  rewrite store_ok by (cbn; lia). eexists. split; [done|]. split; [done|].
  assert (field (set_field b (8 * k) (8 * 1) lo) (8 * k) (8 * 1) = lo) as ->.
  { apply (words_eq 8); [apply (field_range _ _ 8); lia|lia|]. intros i Hi.
    rewrite field_bits, set_field_bits by lia.
    replace ((0 <=? i) && (i <? 8 * 1)) with true by zbool.
    replace ((8 * k <=? 8 * k + i) && (8 * k + i <? 8 * k + 8 * 1)) with true by zbool.
    cbn [andb]. f_equal. lia. }
  assert (Z.land lo (Z.shiftl hi 4) = 0) as Hapart.
  { apply Z.bits_inj'. intros i Hi. rewrite Z.land_spec, Z.shiftl_spec, Z.bits_0 by lia.
    destruct (decide (i < 4)); [rewrite (Z.testbit_neg_r hi) by lia; apply andb_false_r|].
    by rewrite (testbit_above 4 lo) by lia. }
  assert (Z.lor lo (Z.shiftl hi 4) = lo + 16 * hi) as ->.
  { rewrite <- Z.lxor_lor, <- Z.add_nocarry_lxor, Z.shiftl_mul_pow2; [lia|lia|done|done]. }
  split.
  - apply (words_eq 8); [apply field_range; lia|lia|]. intros i Hi.
    rewrite field_bits, set_field_bits by lia.
    replace ((0 <=? i) && (i <? 8)) with true by zbool.
    replace ((8 * k <=? 8 * k + i) && (8 * k + i <? 8 * k + 8 * 1)) with true by zbool.
    cbn [andb]. f_equal. lia.
  - intros i Hi. rewrite !set_field_bits by lia.
    by replace ((8 * k <=? i) && (i <? 8 * k + 8 * 1)) with false by zbool.
Qed.

Lemma bits_toString_ok bits offset size :
  0 <= offset -> offset + size <= INT32_MAX -> offset + size <= 8 * buf_bytes bits ->
  bits_toString bits offset size
  = Ok (map (fun i => if bit bits (offset + i) then 49 else 48) (seqZ 0 size)).
Proof.
  intros Ho Hmax Hb. apply map_res_pure. intros i Hi%elem_of_seqZ. rewrite ck32_in by lia. cbn [rbind].
  rewrite isBitSet_byte by (lia || (apply Z.div_lt_upper_bound; lia)). cbn [rbind].
  by destruct (bit bits (offset + i)).
Qed.

(** * Properties *)

(** [hashBytes] reads exactly the [size] bytes it is given and returns the same
    hash for every memory with these bytes; [hashMix] with a fixed upper word
    loses nothing: different words give different hashes; reducing hashes with
    [commutativeHashMix] does not depend on their order. *)
Theorem hash_functions crc32U64 seed data data' size upper x y hashes hashes' :
  0 <= size -> same_bytes data data' size ->
  0 <= upper < 2 ^ 64 -> 0 <= x < 2 ^ 64 -> 0 <= y < 2 ^ 64 -> Permutation hashes hashes' ->
  (exists h, hashBytes crc32U64 seed data size = Ok h /\ hashBytes crc32U64 seed data' size = Ok h)
  /\ (hashMix upper x = hashMix upper y -> x = y)
  /\ fold_left commutativeHashMix hashes seed = fold_left commutativeHashMix hashes' seed.
Proof.
  intros Hs HS Hu Hx Hy HP. split_and!.
  - by apply hashBytes_same.
  - by apply hashMix_injective.
  - by apply commutativeHashMix_order.
Qed.

(** With the sum as the checksum, 31 bytes of two words that differ in the last byte. *)
Lemma hash_functions_witness :
  (exists h, hashBytes Z.add 1 (buffer_of [1; 2; 3; 4]) 31 = Ok h
     /\ hashBytes Z.add 1 (buffer_of [1; 2; 3; 2 ^ 63 + 4]) 31 = Ok h)
  /\ (hashMix 7 8 = hashMix 7 9 -> 8 = 9)
  /\ fold_left commutativeHashMix [5; 6] 1 = fold_left commutativeHashMix [6; 5] 1.
Proof.
  apply (hash_functions Z.add 1 (buffer_of [1; 2; 3; 4]) (buffer_of [1; 2; 3; 2 ^ 63 + 4]) 31 7 8 9
    [5; 6] [6; 5]); [lia| |lia|lia|lia|apply perm_swap].
  split; [vm_compute; discriminate..|]. intros i Hi.
  assert (forallb (fun i => Bool.eqb (bit (buffer_of [1; 2; 3; 4]) i)
    (bit (buffer_of [1; 2; 3; 2 ^ 63 + 4]) i)) (seqZ 0 (8 * 31)) = true) as Hall by (vm_compute; reflexivity).
  rewrite forallb_forall in Hall. apply eqb_prop, Hall, list_elem_of_In, elem_of_seqZ. lia.
Defined.

(** Depositing the bits that [extractBits] has taken out of a word gives back
    the bits under the mask, and the extracted word has no others; rotating a
    word by [shift] and by the rest of its width gives it back; reversing the
    bytes of a 128 bit integer twice gives it back. *)
Theorem word_permutations a mask shift value :
  0 <= a < 2 ^ 64 -> 0 < shift < 64 -> INT128_MIN <= value <= INT128_MAX ->
  pdep (extractBits 64 a mask) mask = wrap_unsigned 64 (Z.land a mask)
  /\ (forall i, popcount mask <= i -> Z.testbit (extractBits 64 a mask) i = false)
  /\ (let! r := rotateLeft64 a shift in rotateLeft64 r (64 - shift)) = Ok a
  /\ builtin_bswap128 (builtin_bswap128 value) = value.
Proof.
  intros Ha Hs Hv. destruct (pdep_extractBits a mask) as [H1 H2]. split_and!; [done..| |].
  - by apply rotateLeft64_back.
  - by apply builtin_bswap128_twice.
Qed.

Lemma word_permutations_witness :
  pdep (extractBits 64 0xabcd 0xf0f0) 0xf0f0 = 0xa0c0
  /\ (let! r := rotateLeft64 0xabcd 9 in rotateLeft64 r 55) = Ok 0xabcd
  /\ builtin_bswap128 (builtin_bswap128 (-5)) = -5.
Proof.
  destruct (word_permutations 0xabcd 0xf0f0 9 (-5)) as (H1 & _ & H2 & H3); [lia|lia|lia|].
  split; [rewrite H1; vm_compute; reflexivity|]. split; [exact H2|exact H3].
Defined.
