(* ===== verification/SelectivityVector.v ===== *)
(** The selection of rows that operators pass along
    (bolt/vector/SelectivityVector.h and SelectivityVector.cpp): a bitmap with
    cached bounds and a cached answer to whether every row is selected, and an
    iterator over the selected rows. *)

From S2P Require Import Prelude BitUtil BitWords BitSearch.

(** * The vector *)

Record SelectivityVector : Type := mkSelectivityVector {
  bits_ : buffer;
  size_ : Z;
  begin_ : Z;
  end_ : Z;
  allSelected_ : option bool
}.

Definition with_bits (s : SelectivityVector) (b : buffer) : SelectivityVector :=
  mkSelectivityVector b (size_ s) (begin_ s) (end_ s) (allSelected_ s).

Definition with_cache (s : SelectivityVector) (c : option bool) : SelectivityVector :=
  mkSelectivityVector (bits_ s) (size_ s) (begin_ s) (end_ s) c.

(** [std::vector<uint64_t>(n, value ? ~0 : 0)] *)
Definition filled_words (n : Z) (value : bool) : buffer :=
  mkBuffer (8 * n) (if value then Z.ones (64 * n) else 0).

(** [bits_.resize(n, value ? -1 : 0)] *)
Definition resize_words (b : buffer) (n : Z) (value : bool) : buffer :=
  let old := 8 * buf_bytes b in
  mkBuffer (8 * n)
    (Z.lor (Z.land (buf_value b) (Z.ones (Z.min old (64 * n))))
           (if value then Z.shiftl (Z.ones (Z.max 0 (64 * n - old))) old else 0)).

Definition make_SelectivityVector (length : Z) (allSelected : bool) : result SelectivityVector :=
  let! numWords := nwords length in
  Ok (mkSelectivityVector (filled_words numWords allSelected) length 0
        (if allSelected then length else 0) (Some allSelected)).

Definition sv_empty (size : Z) : result SelectivityVector := make_SelectivityVector size false.

Definition updateBounds (s : SelectivityVector) : result SelectivityVector :=
  let! first := findFirstBit (bits_ s) 0 (size_ s) in
  if first =? -1 then Ok (mkSelectivityVector (bits_ s) (size_ s) 0 0 (Some false))
  else
    let! last := findLastBit (bits_ s) true first (size_ s) in
    Ok (mkSelectivityVector (bits_ s) (size_ s) first (last + 1) None).

(** [fillBits(&bits_.back(), start, 64, value)]: a pointer to the last word. *)
Definition fill_back (b : buffer) (start : Z) (value : bool) : result buffer :=
  let back := buf_bytes b / 8 - 1 in
  let! word := load_word b back in
  let! filled := fillBits (mkBuffer 8 word) start 64 value in
  store_word b back (buf_value filled).

Definition resize (s : SelectivityVector) (size : Z) (value : bool) : result SelectivityVector :=
  let! numWords := nwords size in
  let! bits :=
    if (size >? size_ s) && negb (buf_bytes (bits_ s) =? 0) then
      let start := Z.rem (size_ s) 64 in
      if negb (start =? 0) then fill_back (bits_ s) start value else Ok (bits_ s)
    else Ok (bits_ s) in
  updateBounds (mkSelectivityVector (resize_words bits numWords value) size (begin_ s) (end_ s)
                  (allSelected_ s)).

Definition resizeFill (s : SelectivityVector) (size : Z) (value : bool) : result SelectivityVector :=
  let! numWords := nwords size in
  Ok (mkSelectivityVector (filled_words numWords value) size 0 (if value then size else 0)
        (Some value)).

(** BOLT_DCHECK is compiled out of release builds. *)
Definition setValid (s : SelectivityVector) (idx : Z) (valid : bool) : result SelectivityVector :=
  let! bits := setBitTo (bits_ s) idx valid in
  Ok (with_cache (with_bits s bits) None).

Definition setValidRange (s : SelectivityVector) (begin end_ : Z) (valid : bool)
  : result SelectivityVector :=
  if begin =? end_ then Ok s
  else
    let! bits := fillBits (bits_ s) begin end_ valid in
    Ok (with_cache (with_bits s bits) None).

Definition isValid (s : SelectivityVector) (idx : Z) : result bool := isBitSet 8 (bits_ s) idx.

Definition hasSelections (s : SelectivityVector) : bool := begin_ s <? end_ s.

Definition clearAll (s : SelectivityVector) : result SelectivityVector :=
  let! bits := fillBits (bits_ s) 0 (size_ s) false in
  Ok (mkSelectivityVector bits (size_ s) 0 0 (Some false)).

Definition setAll (s : SelectivityVector) : result SelectivityVector :=
  let! bits := fillBits (bits_ s) 0 (size_ s) true in
  Ok (mkSelectivityVector bits (size_ s) 0 (size_ s) (Some true)).

(** [memcpy] of [n] bytes to the start of [b]. *)
Definition memcpy_to (b source : buffer) (n : Z) : result buffer :=
  if in_buffer source 0 n && in_buffer b 0 n
  then Ok (mkBuffer (buf_bytes b)
             (Z.lor (Z.ldiff (buf_value b) (Z.ones (8 * n)))
                    (Z.land (buf_value source) (Z.ones (8 * n)))))
  else Err BadAccess.

Definition setFromBits (s : SelectivityVector) (bits : buffer) (size : Z)
  : result SelectivityVector :=
  let! numWords := nwords size in
  let grown :=
    if numWords >? buf_bytes (bits_ s) / 8 then resize_words (bits_ s) numWords false
    else bits_ s in
  let! copied := memcpy_to grown bits (numWords * 8) in
  updateBounds (mkSelectivityVector copied size 0 size (allSelected_ s)).

Definition intersect (s other : SelectivityVector) : result SelectivityVector :=
  let! bits := andBits2 (bits_ s) (bits_ other) (begin_ s) (Z.min (end_ s) (size_ other)) in
  updateBounds (with_bits s bits).

Definition deselect (s other : SelectivityVector) : result SelectivityVector :=
  let! bits := andWithNegatedBits2 (bits_ s) (bits_ other) (begin_ s)
                 (Z.min (end_ s) (size_ other)) in
  updateBounds (with_bits s bits).

Definition deselect_bits (s : SelectivityVector) (bits : buffer) (begin e : Z)
  : result SelectivityVector :=
  let! bits := andWithNegatedBits2 (bits_ s) bits (Z.max (begin_ s) begin) (Z.min (end_ s) e) in
  updateBounds (with_bits s bits).

Definition deselectNulls (s : SelectivityVector) (bits : buffer) (begin e : Z)
  : result SelectivityVector :=
  let! bits := andBits2 (bits_ s) bits (Z.max (begin_ s) begin) (Z.min (end_ s) e) in
  updateBounds (with_bits s bits).

Definition deselectNonNulls (s : SelectivityVector) (bits : buffer) (begin e : Z)
  : result SelectivityVector :=
  let! bits := andWithNegatedBits2 (bits_ s) bits (Z.max (begin_ s) begin) (Z.min (end_ s) e) in
  updateBounds (with_bits s bits).

(** The null masks change, not the vector. *)
Definition clearNulls (s : SelectivityVector) (rawNulls : option buffer)
  : result (option buffer) :=
  match rawNulls with
  | None => Ok None
  | Some nulls =>
      let! nulls := orBits2 nulls (bits_ s) (begin_ s) (end_ s) in
      Ok (Some nulls)
  end.

Definition setNulls (s : SelectivityVector) (nulls : option buffer) : result buffer :=
  match nulls with
  | None => Err CheckFailed
  | Some nulls => andWithNegatedBits2 nulls (bits_ s) (begin_ s) (end_ s)
  end.

Definition select (s other : SelectivityVector) : result SelectivityVector :=
  let! s := if size_ s <? size_ other then resize s (size_ other) false else Ok s in
  let! bits := orBits2 (bits_ s) (bits_ other) 0 (Z.min (size_ s) (size_ other)) in
  updateBounds (with_bits s bits).

Definition sv_isSubset (s other : SelectivityVector) : result bool :=
  if (begin_ s >=? begin_ other) && (end_ s <=? end_ other)
  then isSubset (bits_ s) (bits_ other) (begin_ s) (end_ s)
  else Ok false.

(** Const member functions that update the cached [allSelected_]. *)
Definition isAllSelected (s : SelectivityVector) : result (SelectivityVector * bool) :=
  match allSelected_ s with
  | Some b => Ok (s, b)
  | None =>
      let! all :=
        if (begin_ s =? 0) && (end_ s =? size_ s) then isAllSet (bits_ s) 0 (size_ s) true
        else Ok false in
      Ok (with_cache s (Some all), all)
  end.

Definition countSelected (s : SelectivityVector) : result (SelectivityVector * Z) :=
  match allSelected_ s with
  | Some true => Ok (s, size_ s)
  | _ =>
      let! count := countBits (bits_ s) (begin_ s) (end_ s) in
      Ok (with_cache s (Some (count =? size_ s)), count)
  end.

(** [operator==] *)
Definition sv_eq (s other : SelectivityVector) : result bool :=
  if (begin_ s =? begin_ other) && (end_ s =? end_ other) then
    test_pure (begin_ s) (end_ s)
      (fun index mask =>
         let! word := load_word (bits_ s) index in
         let! word' := load_word (bits_ other) index in
         Ok (Z.land word mask =? Z.land word' mask))
      (fun index =>
         let! word := load_word (bits_ s) index in
         let! word' := load_word (bits_ other) index in
         Ok (word =? word'))
  else Ok false.

Section apply.
Context {T : Type}.

(** [for (row = begin_; row < end; ++row)]: one round per row. *)
Definition rows_fuel (s : SelectivityVector) : nat := S (Z.to_nat (end_ s - begin_ s)).

Definition applyToSelected (s : SelectivityVector) (func : T -> Z -> result T)
    (nulls : option buffer) (st : T) : result (SelectivityVector * T) :=
  let! r := match nulls with None => isAllSelected s | Some _ => Ok (s, false) end in
  let s := fst r in
  if snd r : bool then
    let! r := for_res (fun row => Ok (row <? end_ s)) 1 func (rows_fuel s) (begin_ s) st in
    Ok (s, snd r)
  else
    let! st := forEachSetBit (bits_ s) (begin_ s) (end_ s) func nulls st in
    Ok (s, st).

Fixpoint test_rows (func : T -> Z -> result (T * bool)) (fuel : nat) (row e : Z) (st : T)
  : result (T * bool) :=
  match fuel with
  | O => Err OutOfFuel
  | S fuel =>
      if row <? e then
        let! r := func st row in
        if snd r : bool then test_rows func fuel (row + 1) e (fst r) else Ok (fst r, false)
      else Ok (st, true)
  end.

Definition testSelected (s : SelectivityVector) (func : T -> Z -> result (T * bool)) (st : T)
  : result (SelectivityVector * (T * bool)) :=
  let! r := isAllSelected s in
  let s := fst r in
  let! r := if snd r : bool then test_rows func (rows_fuel s) (begin_ s) (end_ s) st
            else testSetBits (bits_ s) (begin_ s) (end_ s) func st in
  Ok (s, r).
End apply.

(** [bits::isBitNull] *)
Definition isBitNull (bits : buffer) (index : Z) : result bool :=
  let! set := isBitSet 8 bits index in
  Ok (negb set).

(** [indices[row]] *)
Definition index_at (indices : list Z) (row : Z) : result Z :=
  match indices !! Z.to_nat row with
  | Some i => if row <? 0 then Err BadAccess else Ok i
  | None => Err BadAccess
  end.

Definition translateToInnerRows (outerRows : SelectivityVector) (indices : list Z)
    (nulls : option buffer) (innerRows : SelectivityVector)
  : result (SelectivityVector * SelectivityVector) :=
  let! r := applyToSelected outerRows
    (fun innerRows row =>
       let! isNull := match nulls with None => Ok false | Some n => isBitNull n row end in
       if negb isNull then
         let! index := index_at indices row in
         setValid innerRows index true
       else Ok innerRows)
    None innerRows in
  let! innerRows := updateBounds (snd r) in
  Ok (fst r, innerRows).

(** * The iterator *)

Record SelectivityIterator : Type := mkSelectivityIterator {
  it_bits : option buffer;
  it_current : Z;
  it_index : Z;
  it_end : Z
}.

Definition make_SelectivityIterator (rows : SelectivityVector) : result SelectivityIterator :=
  let begin := begin_ rows in
  if begin =? end_ rows then Ok (mkSelectivityIterator None 0 0 (end_ rows))
  else
    let! word := load_word (bits_ rows) (Z.quot begin 64) in
    let! low := lowMask (Z.land begin 63) in
    let current := Z.land word (not64 low) in
    let! current :=
      if Z.quot (end_ rows) 64 =? Z.quot begin 64 then
        let! low := lowMask (Z.land (end_ rows) 63) in
        Ok (Z.land current low)
      else Ok current in
    Ok (mkSelectivityIterator (Some (bits_ rows)) current (Z.quot begin 64) (end_ rows)).

(** The loop of [next]: the following words until one has a bit. *)
Fixpoint advance (it : SelectivityIterator) (fuel : nat) : result (SelectivityIterator * bool) :=
  match fuel with
  | O => Err OutOfFuel
  | S fuel =>
      if it_current it =? 0 then
        let! start := ck32 ((it_index it + 1) * 64) in
        if start >=? it_end it then Ok (it, false)
        else
          let index := it_index it + 1 in
          let! bits := match it_bits it with Some b => Ok b | None => Err BadAccess end in
          let! word := load_word bits index in
          let! wordEnd := ck32 ((index + 1) * 64) in
          let! current :=
            if wordEnd >? it_end it then
              let! low := lowMask (Z.land (it_end it) 63) in
              Ok (Z.land word low)
            else Ok word in
          advance (mkSelectivityIterator (it_bits it) current index (it_end it)) fuel
      else Ok (it, true)
  end.

(** [next] returns the row, or [None] for false. *)
Definition next (it : SelectivityIterator) : result (SelectivityIterator * option Z) :=
  let! r := advance it (S (Z.to_nat (it_end it / 64 + 1 - it_index it))) in
  let it := fst r in
  if snd r : bool then
    let row := it_index it * 64 + ctz (it_current it) in
    Ok (mkSelectivityIterator (it_bits it) (Z.land (it_current it) (it_current it - 1))
          (it_index it) (it_end it), Some row)
  else Ok (it, None).

(** [while (it.next(row)) ...], as the list of rows. *)
Fixpoint iterate (it : SelectivityIterator) (fuel : nat) : result (list Z) :=
  match fuel with
  | O => Err OutOfFuel
  | S fuel =>
      let! r := next it in
      match snd r with
      | Some row => let! rows := iterate (fst r) fuel in Ok (row :: rows)
      | None => Ok []
      end
  end.

(** * What a vector stands for *)

(** The vector has [n] rows, and the bitmap holds the selected ones. *)
Record holds (s : SelectivityVector) (n : Z) (P : Z -> bool) : Prop := {
  h_size : size_ s = n;
  h_range : 0 <= n <= INT32_MAX - 64;
  h_words : buf_bytes (bits_ s) = 8 * ((n + 63) / 64);
  h_bits : forall i, 0 <= i < n -> bit (bits_ s) i = P i
}.

(** The bounds enclose the selected rows. *)
Definition bounds (b e n : Z) (P : Z -> bool) : Prop :=
  (b = 0 /\ e = 0 /\ forall i, 0 <= i < n -> P i = false)
  \/ (0 <= b < e /\ e <= n /\ P b = true /\ P (e - 1) = true
      /\ forall i, 0 <= i < n -> P i = true -> b <= i < e).

Definition every (n : Z) (P : Z -> bool) : Prop := forall i, 0 <= i < n -> P i = true.

(** The vector with its bounds and its cache up to date. *)
Record selects (s : SelectivityVector) (n : Z) (P : Z -> bool) : Prop := {
  s_holds : holds s n P;
  s_bounds : bounds (begin_ s) (end_ s) n P;
  s_cache : forall c, allSelected_ s = Some c -> 0 < n -> c = true <-> every n P
}.

Lemma holds_words s n P : holds s n P -> has_words (bits_ s) n.
Proof. intros []. unfold has_words. lia. Qed.

Lemma bounds_range b e n P : bounds b e n P -> 0 <= n -> 0 <= b <= e /\ e <= n.
Proof. intros [(-> & -> & _)|(? & ? & _)]; lia. Qed.

Lemma bounds_outside b e n P i :
  bounds b e n P -> 0 <= i < n -> (b <=? i) && (i <? e) = false -> P i = false.
Proof.
  intros Hb Hi Ho. destruct (P i) eqn:E; [|done].
  destruct Hb as [(_ & _ & H)|(_ & _ & _ & _ & H)].
  - by rewrite H in E.
  - specialize (H i Hi E). zbool.
Qed.

Lemma nwords_ok n : 0 <= n <= INT32_MAX - 63 -> nwords n = Ok ((n + 63) / 64).
Proof.
  intros Hn. unfold nwords. rewrite roundUp_64 by lia. cbn [rbind]. by rewrite quot_64.
Qed.

(** ** Bounds *)

Lemma updateBounds_ok s n P :
  holds s n P -> exists s', updateBounds s = Ok s' /\ selects s' n P /\ bits_ s' = bits_ s.
Proof.
  intros Hh. pose proof (holds_words _ _ _ Hh) as Hw. destruct Hh as [Hs Hr Hb Hbits].
  unfold updateBounds. rewrite Hs.
  destruct (findFirstBit_ok (bits_ s) 0 n) as (first & -> & Hf); [lia|lia|done|]. cbn [rbind].
  destruct Hf as [[-> Hn]|(Hpos & Hv & Hn)].
  - cbn [Z.eqb]. eexists. split; [done|]. split; [|done].
    assert (forall i, 0 <= i < n -> P i = false) as Hnone.
    { intros i Hi. rewrite <- Hbits by done. specialize (Hn i Hi). unfold has_value in Hn.
      by destruct (bit (bits_ s) i). }
    split; simpl; [by split| |].
    + left. done.
    + intros c [= <-] Hpos. split; [done|]. intros Hall. by rewrite <- (Hnone 0), Hall by lia.
  - replace (first =? -1) with false by lia.
    destruct (findLastBit_ok (bits_ s) true first n) as (last & -> & Hl); [lia|lia|done|].
    cbn [rbind]. eexists. split; [done|]. split; [|done]. split; simpl; [by split| |done].
    assert (forall i, 0 <= i < n -> has_value (bits_ s) true i = P i) as Hval.
    { intros i Hi. unfold has_value. rewrite Hbits by done. by destruct (P i). }
    destruct Hl as [[-> Hl]|(Hlp & Hlv & Hl)].
    { rewrite (Hl first) in Hv by lia. done. }
    right. replace (last + 1 - 1) with last by lia.
    rewrite <- (Hval first), <- (Hval last) by lia. split_and!; [lia|lia|lia|done|done|].
    intros i Hi HP. rewrite <- Hval in HP by done. split.
    + destruct (decide (i < first)); [|lia]. by rewrite (Hn i) in HP by lia.
    + destruct (decide (last < i)); [|lia]. by rewrite (Hl i) in HP by lia.
Qed.

(** A new bitmap of the same length. *)
Lemma with_bits_holds s n P b Q :
  holds s n P -> buf_bytes b = buf_bytes (bits_ s) ->
  (forall i, 0 <= i < n -> bit b i = Q i) -> holds (with_bits s b) n Q.
Proof. intros [] Hb HQ. split; simpl; [done|done|by rewrite Hb|done]. Qed.

Section in_place.
Variables (combine : Z -> Z -> Z) (op : bool -> bool -> bool).
Hypothesis Hop : forall l r j, 0 <= j < 64 ->
  Z.testbit (combine l r) j = op (Z.testbit l j) (Z.testbit r j).
Hypothesis Hfalse : forall x, op false x = false.

(** Combining the rows from [lo] below [hi] with other bits, where the rows
    outside the bounds are not selected. *)
Lemma combine_rows s n P right lo hi :
  selects s n P -> has_words right (Z.min (end_ s) hi) ->
  exists s',
    (let! bits := combineRange combine (bits_ s) Target (Other right) (Z.max (begin_ s) lo)
                    (Z.min (end_ s) hi) in
     updateBounds (with_bits s bits)) = Ok s'
    /\ selects s' n (fun i => if (lo <=? i) && (i <? hi) then op (P i) (bit right i) else P i).
Proof.
  intros [Hh Hb _] Hw. pose proof (holds_words _ _ _ Hh) as Hws. pose proof Hh as [Hs Hr _ Hbits].
  destruct (bounds_range _ _ _ _ Hb ltac:(lia)) as [Hb0 Hb1].
  destruct (combineRange_bits combine op Hop (bits_ s) Target (Other right)
    (Z.max (begin_ s) lo) (Z.min (end_ s) hi)) as (b & -> & Hbytes & Hbit);
    [lia|lia|eapply has_words_mono; [done|lia]|eapply has_words_mono; [done|lia]|done|].
  cbn [rbind]. destruct (updateBounds_ok (with_bits s b) n
    (fun i => if (lo <=? i) && (i <? hi) then op (P i) (bit right i) else P i)) as (s' & -> & Hs' & _).
  - apply (with_bits_holds s n P); [done|done|]. intros i Hi. rewrite Hbit. cbn [operand_buffer].
    rewrite Hbits by done. destruct ((begin_ s <=? i) && (i <? end_ s)) eqn:E.
    + by replace ((Z.max (begin_ s) lo <=? i) && (i <? Z.min (end_ s) hi))
        with ((lo <=? i) && (i <? hi)) by (apply eq_true_iff_eq; zbool).
    + rewrite (bounds_outside _ _ _ _ _ Hb Hi E), Hfalse.
      by repeat case_match.
  - exists s'. done.
Qed.
End in_place.

(** ** Lengths *)

Lemma filled_words_bit n value i :
  0 <= n -> 0 <= i < 64 * n -> bit (filled_words n value) i = value.
Proof.
  intros Hn Hi. unfold bit, filled_words. simpl. destruct value; [|apply Z.bits_0].
  rewrite Z.testbit_ones by lia. zbool.
Qed.

Lemma resize_words_bit b n value i :
  0 <= buf_bytes b -> 0 <= i < 64 * n ->
  bit (resize_words b n value) i = if i <? 8 * buf_bytes b then bit b i else value.
Proof.
  intros Hb Hi. unfold bit, resize_words. cbn [buf_value].
  rewrite Z.lor_spec, Z.land_spec, Z.testbit_ones by lia.
  destruct (i <? 8 * buf_bytes b) eqn:E.
  - replace ((0 <=? i) && (i <? Z.min (8 * buf_bytes b) (64 * n))) with true by zbool.
    rewrite andb_true_r. destruct value; [|by rewrite Z.bits_0, orb_false_r].
    rewrite Z.shiftl_spec, Z.testbit_ones by lia.
    replace (0 <=? i - 8 * buf_bytes b) with false by zbool. apply orb_false_r.
  - replace ((0 <=? i) && (i <? Z.min (8 * buf_bytes b) (64 * n))) with false by zbool.
    rewrite andb_false_r. destruct value; [|by rewrite Z.bits_0].
    rewrite Z.shiftl_spec, Z.testbit_ones by lia. simpl. zbool.
Qed.

Lemma words_bound n : 0 <= n -> n <= 64 * ((n + 63) / 64) < n + 64.
Proof.
  intros Hn. pose proof (Z.div_mod (n + 63) 64). pose proof (Z.mod_pos_bound (n + 63) 64). lia.
Qed.

(** All rows selected, or none. *)
Lemma uniform_selects b n value c :
  0 <= n <= INT32_MAX - 64 -> buf_bytes b = 8 * ((n + 63) / 64) ->
  (forall i, 0 <= i < n -> bit b i = value) -> c = value ->
  selects (mkSelectivityVector b n 0 (if value then n else 0) (Some c)) n (fun _ => value).
Proof.
  intros Hn Hb Hbits ->. split; simpl.
  - by split.
  - destruct value; [|by left]. destruct (decide (n = 0)) as [->|].
    + left. split_and!; [done|done|lia].
    + right. split_and!; [lia|lia|lia|done|done|lia].
  - intros c [= <-] Hpos. unfold every. split; [done|]. intros Hall. by apply (Hall 0); lia.
Qed.

Lemma make_ok n value :
  0 <= n <= INT32_MAX - 64 ->
  exists s, make_SelectivityVector n value = Ok s /\ selects s n (fun _ => value).
Proof.
  intros Hn. unfold make_SelectivityVector. rewrite nwords_ok by lia. cbn [rbind].
  eexists. split; [done|]. apply uniform_selects; [done|done| |done].
  intros i Hi. pose proof (words_bound n). apply filled_words_bit; lia.
Qed.

Lemma resizeFill_ok s n value :
  0 <= n <= INT32_MAX - 64 ->
  exists s', resizeFill s n value = Ok s' /\ selects s' n (fun _ => value).
Proof. apply make_ok. Qed.

Lemma fill_all s n P value :
  holds s n P ->
  exists b, fillBits (bits_ s) 0 (size_ s) value = Ok b
    /\ selects (mkSelectivityVector b (size_ s) 0 (if value then size_ s else 0) (Some value)) n
         (fun _ => value).
Proof.
  intros Hh. pose proof (holds_words _ _ _ Hh) as Hw. destruct Hh as [-> Hr Hb Hbits].
  destruct (fillBits_bits (bits_ s) 0 n value) as (b & -> & Hbytes & Hbit); [lia|lia|done|].
  exists b. split; [done|]. apply uniform_selects; [done|by rewrite Hbytes| |done].
  intros i Hi. rewrite Hbit. by replace ((0 <=? i) && (i <? n)) with true by zbool.
Qed.

(** The bits behind the last row, in its word. *)
Lemma fill_back_ok b n value :
  0 < n -> n mod 64 <> 0 -> buf_bytes b = 8 * ((n + 63) / 64) ->
  exists b', fill_back b (Z.rem n 64) value = Ok b' /\ buf_bytes b' = buf_bytes b
    /\ forall i, 0 <= i < 8 * buf_bytes b -> bit b' i = if i <? n then bit b i else value.
Proof.
  intros Hn Hmod Hb. unfold fill_back. rewrite Z.rem_mod_nonneg by lia.
  pose proof (Z.div_mod n 64). pose proof (Z.mod_pos_bound n 64).
  assert ((n + 63) / 64 = n / 64 + 1) as Hw by (apply div_64; lia).
  set (k := n / 64) in *. assert (0 <= k) by lia.
  replace (buf_bytes b / 8 - 1) with k
    by (rewrite Hb, Hw, Z.mul_comm, Z.div_mul by lia; lia).
  rewrite load_word_ok by lia. cbn [rbind].
  destruct (fillBits_bits (mkBuffer 8 (word b k)) (n mod 64) 64 value) as (f & -> & _ & Hf);
    [lia|lia|done|]. cbn [rbind].
  rewrite store_word_ok by lia. eexists. split; [done|]. split; [done|].
  intros i Hi. rewrite set_word_bits by lia.
  destruct ((64 * k <=? i) && (i <? 64 * k + 64)) eqn:E.
  - fold (bit f (i - 64 * k)). rewrite Hf. unfold bit at 1. cbn [buf_value].
    rewrite word_bit by zbool. replace (64 * k + (i - 64 * k)) with i by lia.
    destruct (i <? n) eqn:Ei.
    + by replace ((n mod 64 <=? i - 64 * k) && (i - 64 * k <? 64)) with false by zbool.
    + by replace ((n mod 64 <=? i - 64 * k) && (i - 64 * k <? 64)) with true by zbool.
  - by replace (i <? n) with true by zbool.
Qed.

Lemma resize_ok s n P size value :
  holds s n P -> 0 <= size <= INT32_MAX - 64 ->
  exists s', resize s size value = Ok s'
    /\ selects s' size (fun i => if i <? n then P i else value).
Proof.
  intros [Hs Hr Hb Hbits] Hsize. unfold resize. rewrite nwords_ok, Hs by lia. cbn [rbind].
  pose proof (words_bound n ltac:(lia)). pose proof (words_bound size ltac:(lia)).
  assert (exists b, (if (size >? n) && negb (buf_bytes (bits_ s) =? 0)
      then let start := Z.rem n 64 in
           if negb (start =? 0) then fill_back (bits_ s) start value else Ok (bits_ s)
      else Ok (bits_ s)) = Ok b /\ buf_bytes b = buf_bytes (bits_ s)
    /\ forall i, 0 <= i < size -> i < 8 * buf_bytes b ->
         bit b i = if i <? n then P i else value) as (b & Hrun & Hbytes & Hbit).
  { destruct ((size >? n) && negb (buf_bytes (bits_ s) =? 0)) eqn:E.
    - cbv zeta. rewrite Z.rem_mod_nonneg by lia. destruct (n mod 64 =? 0) eqn:E0; cbn [negb].
      + exists (bits_ s). split; [done|]. split; [done|]. intros i Hi Hib.
        pose proof (Z.div_mod n 64). assert (n = 64 * (n / 64)) by lia.
        assert ((n + 63) / 64 = n / 64) by (apply div_64; lia).
        replace (i <? n) with true by lia. apply Hbits. lia.
      + destruct (fill_back_ok (bits_ s) n value) as (b & Hrun & Hbytes & Hbit);
          [pose proof (Z.mod_0_l 64); zbool|zbool|done|].
        rewrite Z.rem_mod_nonneg in Hrun by lia.
        exists b. split; [done|]. split; [done|]. intros i Hi Hib. rewrite Hbit by lia.
        destruct (i <? n) eqn:Ei; [|done]. apply Hbits. lia.
    - exists (bits_ s). split; [done|]. split; [done|]. intros i Hi Hib.
      replace (i <? n) with true by zbool. apply Hbits. zbool. }
  cbv zeta in Hrun. rewrite Hrun. cbn [rbind].
  destruct (updateBounds_ok (mkSelectivityVector (resize_words b ((size + 63) / 64) value) size
    (begin_ s) (end_ s) (allSelected_ s)) size (fun i => if i <? n then P i else value))
    as (s' & -> & Hs' & _); [|by exists s'].
  split; simpl; [done|done|done|]. intros i Hi. rewrite resize_words_bit by lia.
  destruct (i <? 8 * buf_bytes b) eqn:Ei; [apply Hbit; lia|].
  by replace (i <? n) with false by lia.
Qed.

(** ** Rows *)

Lemma selects_ext s n P Q :
  selects s n P -> (forall i, 0 <= i < n -> P i = Q i) -> selects s n Q.
Proof.
  intros [[] Hb Hc] HPQ. split.
  - split; try done. intros i Hi. by rewrite <- HPQ, h_bits0.
  - destruct Hb as [(? & ? & H)|(? & ? & H1 & H2 & H)].
    + left. split_and!; [done|done|]. intros i Hi. rewrite <- HPQ by done. auto.
    + right. rewrite <- !HPQ by lia. split_and!; [lia|lia|lia|done|done|].
      intros i Hi. rewrite <- HPQ by done. by apply H.
  - intros c Hcc Hpos. rewrite (Hc c Hcc Hpos). unfold every.
    split; intros Hall i Hi; specialize (Hall i Hi); [by rewrite <- HPQ|by rewrite HPQ].
Qed.

Lemma setFromBits_ok s n P bits size :
  holds s n P -> 0 <= size <= INT32_MAX - 64 -> (n + 63) / 64 <= (size + 63) / 64 ->
  has_words bits size ->
  exists s', setFromBits s bits size = Ok s' /\ selects s' size (bit bits).
Proof.
  intros [Hs Hr Hb Hbits] Hsize Hgrow Hw. unfold setFromBits. rewrite nwords_ok by lia. cbn [rbind].
  pose proof (words_bound size ltac:(lia)). pose proof (words_bound n ltac:(lia)).
  set (W := (size + 63) / 64) in *.
  assert (exists g, (if W >? buf_bytes (bits_ s) / 8 then resize_words (bits_ s) W false
    else bits_ s) = g /\ buf_bytes g = 8 * W) as (g & -> & Hg).
  { eexists. split; [done|]. rewrite Hb, (Z.mul_comm 8), Z.div_mul by lia.
    destruct (W >? (n + 63) / 64) eqn:E; [done|]. rewrite Hb. lia. }
  unfold memcpy_to, in_buffer. unfold has_words in Hw. fold W in Hw.
  replace ((0 <=? 0) && (0 + W * 8 <=? buf_bytes bits) && ((0 <=? 0) && (0 + W * 8 <=? buf_bytes g)))
    with true by zbool. cbn [rbind].
  destruct (updateBounds_ok (mkSelectivityVector (mkBuffer (buf_bytes g)
     (Z.lor (Z.ldiff (buf_value g) (Z.ones (8 * (W * 8))))
            (Z.land (buf_value bits) (Z.ones (8 * (W * 8)))))) size 0 size (allSelected_ s))
     size (bit bits)) as (s' & -> & Hs' & _); [|by exists s'].
  split; simpl; [done|done|done|]. intros i Hi. unfold bit. cbn [buf_value].
  rewrite Z.lor_spec, Z.ldiff_spec, Z.land_spec, Z.testbit_ones by lia.
  replace ((0 <=? i) && (i <? 8 * (W * 8))) with true by zbool.
  by rewrite andb_true_r, andb_false_r.
Qed.

Lemma setValid_holds s n P idx v :
  holds s n P -> 0 <= idx < n ->
  exists s', setValid s idx v = Ok s' /\ holds s' n (fun i => if i =? idx then v else P i).
Proof.
  intros [Hs Hr Hb Hbits] Hi. unfold setValid. pose proof (words_bound n ltac:(lia)).
  destruct (setBitTo_ok (bits_ s) idx v) as (b & -> & Hbytes & Hbit);
    [lia|apply Z.div_lt_upper_bound; lia|]. cbn [rbind]. eexists. split; [done|].
  split; simpl; [done|done|by rewrite Hbytes|]. intros i Hi'. rewrite Hbit.
  destruct (i =? idx); [done|]. by apply Hbits.
Qed.

Lemma setValidRange_holds s n P b e v :
  holds s n P -> 0 <= b <= e -> e <= n ->
  exists s', setValidRange s b e v = Ok s'
    /\ holds s' n (fun i => if (b <=? i) && (i <? e) then v else P i).
Proof.
  intros Hh Hbe He. pose proof (holds_words _ _ _ Hh) as Hw. pose proof Hh as [Hs Hr Hb Hbits].
  unfold setValidRange. destruct (b =? e) eqn:E.
  - exists s. split; [done|]. split; [done|done|done|]. intros i Hi. rewrite Hbits by done.
    by replace ((b <=? i) && (i <? e)) with false by zbool.
  - destruct (fillBits_bits (bits_ s) b e v) as (b' & -> & Hbytes & Hbit);
      [lia|lia|eapply has_words_mono; [done|lia]|]. cbn [rbind]. eexists. split; [done|].
    split; simpl; [done|done|by rewrite Hbytes|]. intros i Hi. rewrite Hbit.
    destruct (_ && _); [done|]. by apply Hbits.
Qed.

Lemma select_ok s n P other m Q :
  selects s n P -> holds other m Q ->
  exists s', select s other = Ok s'
    /\ selects s' (Z.max n m) (fun i => (if i <? n then P i else false) || (if i <? m then Q i else false)).
Proof.
  intros Hsel Ho. pose proof (s_holds _ _ _ Hsel) as Hh. pose proof (holds_words _ _ _ Ho) as Hwo.
  pose proof Ho as [Hom Hor _ Hobits]. pose proof Hh as [Hs Hr _ Hbits].
  unfold select. rewrite Hs, Hom.
  assert (exists s1, (if n <? m then resize s m false else Ok s) = Ok s1
    /\ holds s1 (Z.max n m) (fun i => if i <? n then P i else false)) as (s1 & -> & Hh1).
  { destruct (n <? m) eqn:E.
    - destruct (resize_ok s n P m false Hh ltac:(lia)) as (s1 & -> & Hs1). exists s1.
      split; [done|]. replace (Z.max n m) with m by lia. apply Hs1.
    - exists s. split; [done|]. replace (Z.max n m) with n by lia. destruct Hh. split; try done.
      intros i Hi. replace (i <? n) with true by lia. auto. }
  cbn [rbind]. pose proof (holds_words _ _ _ Hh1) as Hw1. pose proof Hh1 as [Hs1 Hr1 _ Hbits1].
  rewrite Hs1. unfold orBits2, orRange.
  destruct (combineRange_bits (fun l r => Z.lor l r) orb or_bits (bits_ s1) Target (Other (bits_ other)) 0
    (Z.min (Z.max n m) m)) as (b & -> & Hbytes & Hbit);
    [lia|lia|eapply has_words_mono; [done|lia]..|]. cbn [rbind].
  edestruct (updateBounds_ok (with_bits s1 b)) as (s' & -> & Hs' & _); [|by exists s'].
  apply (with_bits_holds s1 (Z.max n m) _ b _ Hh1 Hbytes). intros i Hi. rewrite Hbit.
  cbn [operand_buffer]. rewrite Hbits1 by done. destruct (i <? m) eqn:E.
  - replace ((0 <=? i) && (i <? Z.min (Z.max n m) m)) with true by zbool.
    by rewrite Hobits by lia.
  - replace ((0 <=? i) && (i <? Z.min (Z.max n m) m)) with false by zbool. by rewrite orb_false_r.
Qed.

(** * Calls *)

Inductive rows_call : Type :=
  | Resize (size : Z) (value : bool)
  | ResizeFill (size : Z) (value : bool)
  | SetValid (idx : Z) (valid : bool)
  | SetValidRange (begin e : Z) (valid : bool)
  | ClearAll
  | SetAll
  | SetFromBits (bits : buffer) (size : Z)
  | Intersect (other : SelectivityVector)
  | Deselect (other : SelectivityVector)
  | DeselectBits (bits : buffer) (begin e : Z)
  | DeselectNulls (bits : buffer) (begin e : Z)
  | DeselectNonNulls (bits : buffer) (begin e : Z)
  | Select (other : SelectivityVector).

(** [setValid] and [setValidRange] are followed by [updateBounds], as their
    comments ask for. *)
Definition rows_run (s : SelectivityVector) (c : rows_call) : result SelectivityVector :=
  match c with
  | Resize size value => resize s size value
  | ResizeFill size value => resizeFill s size value
  | SetValid idx v => let! s := setValid s idx v in updateBounds s
  | SetValidRange b e v => let! s := setValidRange s b e v in updateBounds s
  | ClearAll => clearAll s
  | SetAll => setAll s
  | SetFromBits bits size => setFromBits s bits size
  | Intersect other => intersect s other
  | Deselect other => deselect s other
  | DeselectBits bits b e => deselect_bits s bits b e
  | DeselectNulls bits b e => deselectNulls s bits b e
  | DeselectNonNulls bits b e => deselectNonNulls s bits b e
  | Select other => select s other
  end.

(** The calls on a number of rows and the selected ones. *)
Definition rows_spec (n : Z) (P : Z -> bool) (c : rows_call) : Z * (Z -> bool) :=
  let within b e i := (b <=? i) && (i <? e) in
  match c with
  | Resize size value => (size, fun i => if i <? n then P i else value)
  | ResizeFill size value => (size, fun _ => value)
  | SetValid idx v => (n, fun i => if i =? idx then v else P i)
  | SetValidRange b e v => (n, fun i => if within b e i then v else P i)
  | ClearAll => (n, fun _ => false)
  | SetAll => (n, fun _ => true)
  | SetFromBits bits size => (size, bit bits)
  | Intersect other => (n, fun i => P i && ((i <? size_ other) && bit (bits_ other) i))
  | Deselect other => (n, fun i => P i && negb ((i <? size_ other) && bit (bits_ other) i))
  | DeselectBits bits b e | DeselectNonNulls bits b e =>
      (n, fun i => P i && negb (within b e i && bit bits i))
  | DeselectNulls bits b e => (n, fun i => P i && (negb (within b e i) || bit bits i))
  | Select other =>
      (Z.max n (size_ other),
       fun i => (if i <? n then P i else false) || (if i <? size_ other then bit (bits_ other) i else false))
  end.

Definition well_formed (s : SelectivityVector) : Prop := selects s (size_ s) (bit (bits_ s)).

(** Rows in range, buffers long enough, sizes that the index type can round
    up, bits set from a buffer only when the bitmap does not keep words
    behind them, and an intersection with a vector that has all the selected
    rows. *)
Definition rows_permitted (n : Z) (P : Z -> bool) (c : rows_call) : Prop :=
  match c with
  | Resize size _ | ResizeFill size _ => 0 <= size <= INT32_MAX - 64
  | SetValid idx _ => 0 <= idx < n
  | SetValidRange b e _ => 0 <= b <= e /\ e <= n
  | ClearAll | SetAll => True
  | SetFromBits bits size =>
      0 <= size <= INT32_MAX - 64 /\ (n + 63) / 64 <= (size + 63) / 64 /\ has_words bits size
  | Intersect other => well_formed other /\ forall i, size_ other <= i < n -> P i = false
  | Deselect other | Select other => well_formed other
  | DeselectBits bits _ e | DeselectNulls bits _ e | DeselectNonNulls bits _ e =>
      has_words bits (Z.min n e)
  end.

Lemma and_rows s n P right lo hi :
  selects s n P -> has_words right (Z.min n hi) ->
  exists s', (let! bits := andBits2 (bits_ s) right (Z.max (begin_ s) lo) (Z.min (end_ s) hi) in
              updateBounds (with_bits s bits)) = Ok s'
    /\ selects s' n (fun i => P i && (negb ((lo <=? i) && (i <? hi)) || bit right i)).
Proof.
  intros Hsel Hw. pose proof (h_range _ _ _ (s_holds _ _ _ Hsel)) as Hr.
  destruct (bounds_range _ _ _ _ (s_bounds _ _ _ Hsel) ltac:(lia)) as [Hb0 Hb1].
  destruct (combine_rows (fun l r => Z.land l r) andb and_bits (fun _ => eq_refl) s n P right lo hi)
    as (s' & Hrun & Hs'); [done|eapply has_words_mono; [done|lia]|].
  exists s'. split; [exact Hrun|]. eapply selects_ext; [done|]. intros i Hi. cbv beta.
  by destruct (_ && _), (P i).
Qed.

Lemma and_not_rows s n P right lo hi :
  selects s n P -> has_words right (Z.min n hi) ->
  exists s', (let! bits := andWithNegatedBits2 (bits_ s) right (Z.max (begin_ s) lo)
                             (Z.min (end_ s) hi) in
              updateBounds (with_bits s bits)) = Ok s'
    /\ selects s' n (fun i => P i && negb ((lo <=? i) && (i <? hi) && bit right i)).
Proof.
  intros Hsel Hw. pose proof (h_range _ _ _ (s_holds _ _ _ Hsel)) as Hr.
  destruct (bounds_range _ _ _ _ (s_bounds _ _ _ Hsel) ltac:(lia)) as [Hb0 Hb1].
  destruct (combine_rows (fun l r => Z.land l (not64 r)) (fun l r => l && negb r) and_not_bits
    (fun _ => eq_refl) s n P right lo hi)
    as (s' & Hrun & Hs'); [done|eapply has_words_mono; [done|lia]|].
  exists s'. split; [exact Hrun|]. eapply selects_ext; [done|]. intros i Hi. cbv beta.
  by destruct ((lo <=? i) && (i <? hi)), (P i).
Qed.

(** Whatever the size of the other vector, the rows that it does not have are kept. *)
Lemma intersect_ok s n P other :
  selects s n P -> well_formed other ->
  exists s', intersect s other = Ok s'
    /\ selects s' n (fun i => P i && (negb (i <? size_ other) || bit (bits_ other) i)).
Proof.
  intros Hsel Hother. pose proof (h_range _ _ _ (s_holds _ _ _ Hsel)) as Hr.
  destruct (bounds_range _ _ _ _ (s_bounds _ _ _ Hsel) ltac:(lia)) as [Hb0 Hb1].
  destruct (and_rows s n P (bits_ other) 0 (size_ other) Hsel) as (s' & Hrun & Hs').
  { eapply has_words_mono; [by eapply holds_words, s_holds|lia]. }
  rewrite Z.max_l in Hrun by lia. exists s'. split; [exact Hrun|].
  eapply selects_ext; [done|]. intros i Hi. cbv beta. by replace (0 <=? i) with true by lia.
Qed.

Lemma rows_run_ok s n P c :
  selects s n P -> rows_permitted n P c ->
  exists s', rows_run s c = Ok s'
    /\ selects s' (fst (rows_spec n P c)) (snd (rows_spec n P c)).
Proof.
  intros Hsel Hp. pose proof (s_holds _ _ _ Hsel) as Hh. pose proof (h_range _ _ _ Hh) as Hr.
  destruct (bounds_range _ _ _ _ (s_bounds _ _ _ Hsel) ltac:(lia)) as [Hb0 Hb1].
  destruct c; cbn [rows_run rows_spec fst snd rows_permitted] in *.
  - by apply resize_ok.
  - by apply resizeFill_ok.
  - destruct (setValid_holds s n P idx valid Hh Hp) as (s1 & -> & H1). cbn [rbind].
    destruct (updateBounds_ok _ _ _ H1) as (s2 & -> & H2 & _). by exists s2.
  - destruct (setValidRange_holds s n P begin e valid Hh) as (s1 & -> & H1); [lia|lia|].
    cbn [rbind]. destruct (updateBounds_ok _ _ _ H1) as (s2 & -> & H2 & _). by exists s2.
  - unfold clearAll. destruct (fill_all s n P false Hh) as (b & -> & Hs). by eexists.
  - unfold setAll. destruct (fill_all s n P true Hh) as (b & -> & Hs). by eexists.
  - destruct Hp as (? & ? & ?). by eapply setFromBits_ok.
  - destruct Hp as [Hother Hbeyond]. destruct (intersect_ok s n P other Hsel Hother) as (s' & Hrun & Hs').
    exists s'. split; [exact Hrun|]. eapply selects_ext; [done|]. intros i Hi. cbv beta.
    destruct (i <? size_ other) eqn:E; [done|]. by rewrite Hbeyond by lia.
  - destruct (and_not_rows s n P (bits_ other) 0 (size_ other) Hsel) as (s' & Hrun & Hs').
    { eapply has_words_mono; [by eapply holds_words, s_holds|lia]. }
    rewrite Z.max_l in Hrun by lia. exists s'. split; [exact Hrun|].
    eapply selects_ext; [done|]. intros i Hi. cbv beta. by replace (0 <=? i) with true by lia.
  - by apply and_not_rows.
  - by apply and_rows.
  - by apply and_not_rows.
  - by apply select_ok, s_holds.
Qed.

(** * Queries *)

(** Row [i] is selected. *)
Definition chosen (n : Z) (P : Z -> bool) (i : Z) : Prop := 0 <= i < n /\ P i = true.

Lemma bounds_chosen b e n P i : bounds b e n P -> chosen n P i -> b <= i < e.
Proof.
  intros Hb [Hi HP]. destruct (decide (b <= i < e)); [done|].
  rewrite (bounds_outside b e n P i) in HP; [done|done|done|zbool].
Qed.

Lemma bounds_nonempty b e n P :
  bounds b e n P -> b < e -> chosen n P b /\ chosen n P (e - 1).
Proof.
  intros [(-> & -> & _)|(? & ? & ? & ? & _)] Hlt; [lia|]. unfold chosen. split_and!; done || lia.
Qed.

Lemma hasSelections_ok s n P :
  selects s n P -> hasSelections s = true <-> exists i, chosen n P i.
Proof.
  intros [_ Hb _]. unfold hasSelections. rewrite Z.ltb_lt. split.
  - intros Hlt. eexists. by eapply bounds_nonempty.
  - intros [i Hi]. pose proof (bounds_chosen _ _ _ _ _ Hb Hi). lia.
Qed.

Lemma isValid_ok s n P i : holds s n P -> 0 <= i < n -> isValid s i = Ok (P i).
Proof.
  intros Hh Hi. pose proof (holds_words _ _ _ Hh) as Hw. destruct Hh as [Hs Hr Hb Hbits].
  unfold isValid. rewrite isBitSet_word; [by rewrite Hbits|lia|]. eapply has_words_mono; [done|lia].
Qed.

Lemma with_cache_selects s n P c :
  selects s n P -> (0 < n -> c = true <-> every n P) -> selects (with_cache s (Some c)) n P.
Proof.
  intros [[] Hb _] Hc. split; [by split|done|]. intros c' [= <-]. done.
Qed.

Lemma every_bounds b e n P : bounds b e n P -> every n P -> 0 < n -> b = 0 /\ e = n.
Proof.
  intros Hb Hev Hn. destruct (bounds_range _ _ _ _ Hb ltac:(lia)).
  assert (chosen n P 0) as Hfirst by (split; [lia|apply Hev; lia]).
  assert (chosen n P (n - 1)) as Hlast by (split; [lia|apply Hev; lia]).
  apply (bounds_chosen _ _ _ _ _ Hb) in Hfirst, Hlast. lia.
Qed.

Lemma isAllSelected_ok s n P :
  selects s n P ->
  exists s' r, isAllSelected s = Ok (s', r) /\ selects s' n P /\ (0 < n -> r = true <-> every n P).
Proof.
  intros Hsel. pose proof Hsel as [Hh Hb Hc]. pose proof (holds_words _ _ _ Hh) as Hw.
  pose proof Hh as [Hs Hr _ Hbits]. unfold isAllSelected.
  destruct (allSelected_ s) as [c|] eqn:Ec.
  { exists s, c. split; [done|]. split; [done|]. by apply Hc. }
  assert (exists r, (if (begin_ s =? 0) && (end_ s =? size_ s)
                     then isAllSet (bits_ s) 0 (size_ s) true else Ok false) = Ok r
            /\ (0 < n -> r = true <-> every n P)) as (r & -> & Hall).
  { rewrite Hs. destruct ((begin_ s =? 0) && (end_ s =? n)) eqn:E.
    - destruct (isAllSet_ok (bits_ s) true 0 n) as (r & -> & Hall); [lia|lia|done|]. exists r.
      split; [done|]. intros _. rewrite Hall. unfold every, none, has_value.
      split; intros H i Hi; specialize (H i Hi); rewrite Hbits in * by done; by destruct (P i).
    - exists false. split; [done|]. intros Hpos. split; [done|]. intros Hev.
      destruct (every_bounds _ _ _ _ Hb Hev Hpos). zbool. }
  cbn [rbind]. eexists _, r. split; [done|]. split; [|done]. by apply with_cache_selects.
Qed.

(** The selected rows lie within the bounds. *)
Lemma rows_within b e n P (v : Z -> bool) :
  bounds b e n P -> 0 <= n ->
  List.filter (fun i => P i && v i) (seqZ 0 n) = List.filter (fun i => P i && v i) (seqZ b (e - b)).
Proof.
  intros Hb Hn. destruct (bounds_range _ _ _ _ Hb Hn) as [H0 H1].
  replace n with (b + ((e - b) + (n - e))) at 1 by lia.
  rewrite (seqZ_app 0 b), seqZ_app, !List.filter_app by lia.
  replace (0 + b) with b by lia. replace (b + (e - b)) with e by lia.
  rewrite (filter_none _ (seqZ 0 b)), (filter_none _ (seqZ e _)); [by rewrite app_nil_r|..];
    intros i [? ?]%elem_of_seqZ;
    by rewrite (bounds_outside b e n P i) by (done || zbool).
Qed.

Lemma rows_within_all b e n P :
  bounds b e n P -> 0 <= n -> List.filter P (seqZ 0 n) = List.filter P (seqZ b (e - b)).
Proof.
  intros Hb Hn. pose proof (rows_within b e n P (fun _ => true) Hb Hn) as H.
  rewrite (filter_ext P (fun i => P i && true)) by (intros; by rewrite andb_true_r).
  rewrite H. apply filter_ext. intros. by rewrite andb_true_r.
Qed.

Lemma count_all n P :
  0 <= n -> Z.of_nat (length (List.filter P (seqZ 0 n))) = n <-> every n P.
Proof.
  intros Hn. split.
  - intros Hlen i Hi. assert (forallb P (seqZ 0 n) = true) as Hall
      by (apply filter_length_forallb; rewrite length_seqZ; lia).
    rewrite forallb_forall in Hall. apply Hall, list_elem_of_In, elem_of_seqZ. lia.
  - intros Hall. rewrite filter_all; [rewrite length_seqZ; lia|].
    intros i [? ?]%elem_of_seqZ. apply Hall. lia.
Qed.

Lemma countSelected_ok s n P :
  selects s n P ->
  exists s', countSelected s = Ok (s', Z.of_nat (length (List.filter P (seqZ 0 n))))
    /\ selects s' n P.
Proof.
  intros Hsel. pose proof Hsel as [Hh Hb Hc]. pose proof (holds_words _ _ _ Hh) as Hw.
  pose proof Hh as [Hs Hr _ Hbits]. destruct (bounds_range _ _ _ _ Hb ltac:(lia)) as [H0 H1].
  assert (exists s', (let! count := countBits (bits_ s) (begin_ s) (end_ s) in
                      Ok (with_cache s (Some (count =? size_ s)), count))
      = Ok (s', Z.of_nat (length (List.filter P (seqZ 0 n)))) /\ selects s' n P) as Hcount.
  { rewrite countBits_count by (lia || (eapply has_words_mono; [done|lia])). cbn [rbind].
    rewrite (filter_ext _ P) by (intros i [? ?]%elem_of_seqZ; apply Hbits; lia).
    rewrite <- (rows_within_all _ _ n) by (done || lia). rewrite Hs. eexists. split; [done|].
    apply with_cache_selects; [done|]. intros Hpos. rewrite Z.eqb_eq.
    apply count_all. lia. }
  unfold countSelected. destruct (allSelected_ s) as [[]|] eqn:Ec; [|exact Hcount..].
  exists s. split; [|done]. do 2 f_equal. rewrite Hs.
  destruct (decide (n = 0)) as [->|]; [done|]. symmetry. apply count_all; [lia|].
  by apply (Hc true eq_refl); [lia|].
Qed.

Lemma bounds_unique b e n P b' e' m Q :
  bounds b e n P -> bounds b' e' m Q -> 0 <= n -> 0 <= m ->
  (forall i, chosen n P i <-> chosen m Q i) -> b = b' /\ e = e'.
Proof.
  intros Hb Hb' Hn Hm Heq. pose proof (bounds_range _ _ _ _ Hb Hn).
  pose proof (bounds_range _ _ _ _ Hb' Hm).
  destruct (decide (b < e)) as [Hlt|Hge].
  - destruct (bounds_nonempty _ _ _ _ Hb Hlt) as [Hf Hl].
    pose proof (bounds_chosen _ _ _ _ _ Hb' (proj1 (Heq _) Hf)).
    pose proof (bounds_chosen _ _ _ _ _ Hb' (proj1 (Heq _) Hl)).
    destruct (bounds_nonempty _ _ _ _ Hb' ltac:(lia)) as [Hf' Hl'].
    pose proof (bounds_chosen _ _ _ _ _ Hb (proj2 (Heq _) Hf')).
    pose proof (bounds_chosen _ _ _ _ _ Hb (proj2 (Heq _) Hl')). lia.
  - destruct (decide (b' < e')) as [Hlt'|Hge'].
    + destruct (bounds_nonempty _ _ _ _ Hb' Hlt') as [Hf' _].
      pose proof (bounds_chosen _ _ _ _ _ Hb (proj2 (Heq _) Hf')). lia.
    + destruct Hb as [(-> & -> & _)|(? & _)]; [|lia].
      destruct Hb' as [(-> & -> & _)|(? & _)]; lia.
Qed.

(** [operator==] compares the selected rows, whatever the sizes. *)
Lemma sv_eq_ok s n P t m Q :
  selects s n P -> selects t m Q ->
  exists r, sv_eq s t = Ok r /\ (r = true <-> forall i, chosen n P i <-> chosen m Q i).
Proof.
  intros [Hh Hb _] [Hh' Hb' _]. pose proof (holds_words _ _ _ Hh) as Hw.
  pose proof (holds_words _ _ _ Hh') as Hw'. destruct Hh as [Hs Hr _ Hbits], Hh' as [Hs' Hr' _ Hbits'].
  pose proof (bounds_range _ _ _ _ Hb ltac:(lia)). pose proof (bounds_range _ _ _ _ Hb' ltac:(lia)).
  unfold sv_eq. destruct ((begin_ s =? begin_ t) && (end_ s =? end_ t)) eqn:E.
  - assert (begin_ t = begin_ s /\ end_ t = end_ s) as [Eb Ee] by zbool.
    rewrite Eb, Ee in *. set (b := begin_ s) in *. set (e := end_ s) in *.
    eexists. split.
    + apply (test_pure_span b e _ _ (fun idx =>
        Z.land (word (bits_ s) idx) (range_mask b e idx)
        =? Z.land (word (bits_ t) idx) (range_mask b e idx))); [lia|lia| |].
      * intros idx _. destruct (load_word (bits_ s) idx) as [w|] eqn:Ew; [|done]. cbn [rbind].
        destruct (load_word (bits_ t) idx) as [w'|] eqn:Ew'; [|done]. cbn [rbind].
        apply load_word_range in Ew, Ew'. by rewrite !land_all.
      * intros idx Hin. by rewrite !(span_load _ b e) by (lia || done || (eapply has_words_mono; [done|lia])).
    + rewrite (forallb_span _ (fun i => bit (bits_ s) i = bit (bits_ t) i)); [|lia|].
      * split.
        -- intros Heq i. split; intros Hc.
           ++ pose proof (bounds_chosen _ _ _ _ _ Hb Hc) as Hi. specialize (Heq i Hi).
              rewrite Hbits, Hbits' in Heq by lia. destruct Hc as [_ Hc]. split; [lia|].
              by rewrite <- Heq.
           ++ pose proof (bounds_chosen _ _ _ _ _ Hb' Hc) as Hi. specialize (Heq i Hi).
              rewrite Hbits, Hbits' in Heq by lia. destruct Hc as [_ Hc]. split; [lia|].
              by rewrite Heq.
        -- intros Heq i Hi. rewrite Hbits, Hbits' by lia.
           destruct (P i) eqn:EP, (Q i) eqn:EQ; try done.
           ++ destruct (proj1 (Heq i)) as [_ ?]; [split; [lia|done]|congruence].
           ++ destruct (proj2 (Heq i)) as [_ ?]; [split; [lia|done]|congruence].
      * intros idx Hin. rewrite masked_eqb by (lia || done).
        pose proof (proj1 (word_span_elem b e idx ltac:(lia)) Hin).
        split; intros Heq j Hj Hin'; specialize (Heq j Hj Hin');
          by rewrite !word_bit in * by lia.
  - exists false. split; [done|]. split; [done|]. intros Heq.
    pose proof (bounds_unique _ _ _ _ _ _ _ _ Hb Hb' ltac:(lia) ltac:(lia) Heq). zbool.
Qed.

(** [isSubset] compares the selected rows, unless no row is selected. *)
Lemma sv_isSubset_ok s n P t m Q :
  selects s n P -> selects t m Q ->
  exists r, sv_isSubset s t = Ok r
    /\ ((exists i, chosen n P i) -> r = true <-> forall i, chosen n P i -> chosen m Q i).
Proof.
  intros [Hh Hb _] [Hh' Hb' _]. pose proof (holds_words _ _ _ Hh) as Hw.
  pose proof (holds_words _ _ _ Hh') as Hw'. destruct Hh as [Hs Hr _ Hbits], Hh' as [Hs' Hr' _ Hbits'].
  pose proof (bounds_range _ _ _ _ Hb ltac:(lia)). pose proof (bounds_range _ _ _ _ Hb' ltac:(lia)).
  unfold sv_isSubset. destruct ((begin_ s >=? begin_ t) && (end_ s <=? end_ t)) eqn:E.
  - assert (begin_ t <= begin_ s /\ end_ s <= end_ t) as [Eb Ee] by zbool.
    destruct (isSubset_bits (bits_ s) (bits_ t) (begin_ s) (end_ s)) as (r & -> & Hsub);
      [lia|lia|eapply has_words_mono; [done|lia]..|]. exists r. split; [done|]. intros _.
    rewrite Hsub. split.
    + intros Hall i Hc. pose proof (bounds_chosen _ _ _ _ _ Hb Hc) as Hi. specialize (Hall i Hi).
      rewrite Hbits, Hbits' in Hall by lia. destruct Hc as [_ Hc]. split; [lia|auto].
    + intros Hall i Hi. rewrite Hbits, Hbits' by lia. intros HP.
      by destruct (Hall i ltac:(split; [lia|done])).
  - exists false. split; [done|]. intros [i Hi]. split; [done|]. intros Hall.
    pose proof (bounds_chosen _ _ _ _ _ Hb Hi).
    destruct (bounds_nonempty _ _ _ _ Hb ltac:(lia)) as [Hf Hl].
    pose proof (bounds_chosen _ _ _ _ _ Hb' (Hall _ Hf)).
    pose proof (bounds_chosen _ _ _ _ _ Hb' (Hall _ Hl)). zbool.
Qed.

(** * Visiting the selected rows *)

Lemma for_rows {T} (func : T -> Z -> result T) b e st :
  b <= e ->
  (let! r := for_res (fun row => Ok (row <? e)) 1 func (S (Z.to_nat (e - b))) b st in Ok (snd r))
  = fold_res func st (seqZ b (e - b)).
Proof.
  intros Hb. rewrite (for_res_seq _ _ _ _ (Z.to_nat (e - b))).
  - rewrite rbind_assoc. cbn [rbind snd]. rewrite rbind_Ok_r, fold_res_map, Z2Nat.id by lia.
    pose proof (fmap_add_seqZ b 0 (e - b)) as Hs. rewrite Z.add_0_r in Hs. rewrite <- Hs.
    change (Z.add b <$> seqZ 0 (e - b)) with (map (Z.add b) (seqZ 0 (e - b))).
    rewrite fold_res_map. apply fold_res_ext. intros acc k _. f_equal. lia.
  - lia.
  - intros k Hk. f_equal. apply Z.ltb_lt. lia.
  - f_equal. apply Z.ltb_ge. lia.
Qed.

Lemma test_rows_ok {T} (func : T -> Z -> result (T * bool)) fuel b e st :
  (Z.to_nat (e - b) < fuel)%nat ->
  test_rows func fuel b e st = test_res func st (seqZ b (e - b)).
Proof.
  revert b st. induction fuel as [|fuel IH]; intros b st Hf; [lia|]. cbn [test_rows].
  destruct (b <? e) eqn:E.
  - rewrite seqZ_cons by lia. cbn [test_res]. apply rbind_ext. intros [st' []] _; cbn [fst snd];
      [|done]. replace (Z.pred (e - b)) with (e - (b + 1)) by lia. apply IH. lia.
  - by rewrite seqZ_nil by lia.
Qed.

Section visit_rows.
Variables (s : SelectivityVector) (n : Z) (P : Z -> bool).
Hypothesis Hsel : selects s n P.

(** When the cache says that all rows are selected, they are the rows between
    the bounds. *)
Lemma all_rows s' r :
  isAllSelected s = Ok (s', r) -> r = true ->
  selects s' n P /\ List.filter P (seqZ 0 n) = seqZ (begin_ s') (end_ s' - begin_ s').
Proof.
  intros Hrun ->. destruct (isAllSelected_ok s n P Hsel) as (s2 & r2 & Hrun2 & Hsel2 & Hr2).
  rewrite Hrun in Hrun2. injection Hrun2 as <- <-. split; [done|].
  pose proof (h_range _ _ _ (s_holds _ _ _ Hsel2)) as Hr. pose proof (s_bounds _ _ _ Hsel2) as Hb.
  destruct (decide (n = 0)) as [Hz|].
  - pose proof (bounds_range _ _ _ _ Hb ltac:(lia)). by rewrite !seqZ_nil by lia.
  - pose proof (proj1 (Hr2 ltac:(lia)) eq_refl) as Hev.
    destruct (every_bounds _ _ _ _ Hb Hev ltac:(lia)) as [-> ->].
    rewrite Z.sub_0_r. apply filter_all. intros i [? ?]%elem_of_seqZ. apply Hev. lia.
Qed.

Lemma applyToSelected_ok {T} (func : T -> Z -> result T) nulls st :
  has_nulls nulls n ->
  exists s', selects s' n P
    /\ applyToSelected s func nulls st
       = (let! st := fold_res func st (List.filter (fun i => P i && valid nulls i) (seqZ 0 n)) in
          Ok (s', st)).
Proof.
  intros Hn. unfold applyToSelected.
  assert (exists s' r, (match nulls with None => isAllSelected s | Some _ => Ok (s, false) end) = Ok (s', r)
    /\ selects s' n P
    /\ (r = true -> nulls = None /\ List.filter P (seqZ 0 n) = seqZ (begin_ s') (end_ s' - begin_ s')))
    as (s' & r & -> & Hsel' & Hall).
  { destruct nulls.
    - by exists s, false.
    - destruct (isAllSelected_ok s n P Hsel) as (s' & r & Hrun & Hs' & _). exists s', r.
      split; [done|]. split; [done|]. intros Hr. split; [done|]. by eapply all_rows. }
  exists s'. split; [done|]. cbn [rbind fst snd].
  pose proof Hsel' as [Hh Hb _]. pose proof (holds_words _ _ _ Hh) as Hw.
  pose proof Hh as [_ Hr _ Hbits]. destruct (bounds_range _ _ _ _ Hb ltac:(lia)) as [H0 H1].
  destruct r.
  - destruct (Hall eq_refl) as [-> Hrows]. pose proof (for_rows func (begin_ s') (end_ s') st ltac:(lia)) as Hloop.
    rewrite (filter_ext _ P) by (intros; apply andb_true_r). rewrite Hrows, <- Hloop.
    unfold rows_fuel. by rewrite rbind_assoc.
  - unfold forEachSetBit. rewrite forEachBit_fold; [|lia|lia|eapply has_words_mono; [done|lia]|].
    + rewrite (rows_within _ _ n P (valid nulls) Hb) by lia.
      erewrite filter_ext; [done|]. intros i [? ?]%elem_of_seqZ. rewrite Hbits by lia.
      by destruct (P i).
    + destruct nulls; [|done]. simpl in *. eapply has_words_mono; [done|lia].
Qed.

Lemma testSelected_ok {T} (func : T -> Z -> result (T * bool)) st :
  exists s', selects s' n P
    /\ testSelected s func st
       = (let! r := test_res func st (List.filter P (seqZ 0 n)) in Ok (s', r)).
Proof.
  unfold testSelected. destruct (isAllSelected_ok s n P Hsel) as (s' & r & Hrun & Hsel' & _).
  rewrite Hrun. exists s'. split; [done|]. cbn [rbind fst snd].
  pose proof Hsel' as [Hh Hb _]. pose proof (holds_words _ _ _ Hh) as Hw.
  pose proof Hh as [_ Hr _ Hbits]. destruct (bounds_range _ _ _ _ Hb ltac:(lia)) as [H0 H1].
  destruct r.
  - destruct (all_rows s' true Hrun eq_refl) as [_ ->]. unfold rows_fuel.
    by rewrite test_rows_ok by lia.
  - unfold testSetBits. rewrite testBits_fold; [|lia|lia|eapply has_words_mono; [done|lia]].
    rewrite (rows_within_all _ _ n P Hb) by lia.
    erewrite (filter_ext (fun i => Bool.eqb _ _) P); [done|].
    intros i [? ?]%elem_of_seqZ. rewrite Hbits by lia. by destruct (P i).
Qed.
End visit_rows.

(** The bits of a word, then those of the words behind it. *)
Lemma word_split (P : Z -> bool) lo e w :
  0 <= w -> 64 * w <= lo < 64 * w + 64 -> lo <= e ->
  List.filter P (seqZ lo (e - lo))
  = map (Z.add (64 * w)) (List.filter (fun j => (lo <=? 64 * w + j) && (64 * w + j <? e) && P (64 * w + j))
      (seqZ 0 64))
    ++ List.filter P (seqZ (64 * (w + 1)) (e - 64 * (w + 1))).
Proof.
  intros Hw Hlo He.
  rewrite (block_bits (fun i => (lo <=? i) && (i <? e) && P i)).
  remember (Z.min e (64 * w + 64)) as mid eqn:Hmid.
  replace (seqZ (64 * w) 64) with (seqZ (64 * w) ((lo - 64 * w) + ((mid - lo) + (64 * w + 64 - mid))))
    by (f_equal; lia).
  rewrite (seqZ_app (64 * w) (lo - 64 * w)), seqZ_app, !List.filter_app by lia.
  replace (64 * w + (lo - 64 * w)) with lo by lia. replace (lo + (mid - lo)) with mid by lia.
  rewrite (filter_none _ (seqZ (64 * w) _)), (filter_none _ (seqZ mid _)), app_nil_r.
  - rewrite (filter_ext _ P (seqZ lo (mid - lo))).
    + cbn [app]. rewrite <- List.filter_app. f_equal.
      destruct (decide (e <= 64 * w + 64)).
      * rewrite (seqZ_nil (64 * (w + 1))) by lia. rewrite app_nil_r. f_equal. lia.
      * replace mid with (64 * w + 64) by lia.
        replace (e - lo) with ((64 * w + 64 - lo) + (e - 64 * (w + 1))) by lia.
        rewrite seqZ_app by lia. f_equal. f_equal. lia.
    + intros i [? ?]%elem_of_seqZ. by replace ((lo <=? i) && (i <? e)) with true by zbool.
  - intros i [? ?]%elem_of_seqZ. by replace ((lo <=? i) && (i <? e)) with false by zbool.
  - intros i [? ?]%elem_of_seqZ. by replace ((lo <=? i) && (i <? e)) with false by zbool.
Qed.

(** * The iterator *)

#[local] Opaque bits_of.

Definition it_bit (it : SelectivityIterator) (i : Z) : bool :=
  match it_bits it with Some b => bit b i | None => false end.

(** The rows that an iterator has still to return. *)
Record remaining (it : SelectivityIterator) (rows : list Z) : Prop := {
  rm_index : 0 <= it_index it /\ 64 * it_index it <= it_end it;
  rm_end : it_end it <= INT32_MAX - 64;
  rm_current : 0 <= it_current it < 2 ^ 64;
  rm_words : match it_bits it with
             | Some b => has_words b (it_end it)
             | None => it_end it <= 64 * (it_index it + 1)
             end;
  rm_rows : rows = map (Z.add (64 * it_index it)) (bits_of (it_current it))
                   ++ List.filter (it_bit it)
                        (seqZ (64 * (it_index it + 1)) (it_end it - 64 * (it_index it + 1)))
}.

Lemma bits_of_masked b lo e w :
  0 <= lo -> w ∈ word_span lo e ->
  bits_of (Z.land (word b w) (range_mask lo e w))
  = List.filter (fun j => (lo <=? 64 * w + j) && (64 * w + j <? e) && bit b (64 * w + j)) (seqZ 0 64).
Proof.
  intros Hlo Hin. pose proof (proj1 (word_span_elem lo e w Hlo) Hin). rewrite bits_of_filter.
  apply filter_ext. intros j [? ?]%elem_of_seqZ. rewrite masked_bits, word_bit by lia.
  replace ((0 <=? j) && (j <? 64)) with true by zbool. cbn [andb]. apply andb_comm.
Qed.

Ltac it_simpl := cbn [it_bits it_current it_index it_end].

Lemma advance_ok it rows fuel :
  remaining it rows -> (Z.to_nat (it_end it / 64 + 1 - it_index it) < fuel)%nat ->
  exists it' more, advance it fuel = Ok (it', more) /\ remaining it' rows
    /\ (if more : bool then it_current it' <> 0 else rows = []).
Proof.
  revert it. induction fuel as [|fuel IH]; intros it Hrm Hf; [lia|]. cbn [advance].
  pose proof Hrm as [Hi He Hc Hw Hrows]. destruct (it_current it =? 0) eqn:E0.
  2: { exists it, true. split; [done|]. split; [done|]. lia. }
  rewrite ck32_in by lia. cbn [rbind]. replace ((it_index it + 1) * 64) with (64 * (it_index it + 1)) by lia.
  replace (it_current it) with 0 in Hrows by lia. rewrite bits_of_zero in Hrows.
  destruct (64 * (it_index it + 1) >=? it_end it) eqn:Ee.
  { exists it, false. split; [done|]. split; [done|]. rewrite Hrows, seqZ_nil by lia. done. }
  unfold it_bit in Hrows. destruct (it_bits it) as [b|] eqn:Eb; [|lia]. cbn [rbind].
  rewrite load_word_ok by (lia || (eapply has_words_lt; [done|lia|lia])). cbn [rbind].
  rewrite ck32_in by lia. cbn [rbind]. set (w := it_index it + 1) in *. set (e := it_end it) in *.
  assert (w ∈ word_span (64 * w) e) as Hin by (apply word_span_elem; lia).
  pose proof (Z.div_mod e 64). pose proof (Z.mod_pos_bound e 64).
  assert ((if (w + 1) * 64 >? e
           then let! low := lowMask (Z.land e 63) in Ok (Z.land (word b w) low)
           else Ok (word b w)) = Ok (Z.land (word b w) (range_mask (64 * w) e w))) as ->.
  { destruct ((w + 1) * 64 >? e) eqn:El.
    - assert (e / 64 = w) as Hwe by (apply div_64; lia).
      rewrite land_63. replace (e mod 64) with (e - 64 * w) by lia. by rewrite mask_below by lia.
    - replace (range_mask (64 * w) e w) with UINT64_MAX; [by rewrite land_all by apply word_range|].
      rewrite <- (mask_whole w). apply Z.bits_inj'. intros j Hj. rewrite !range_mask_bits by lia.
      apply eq_true_iff_eq. rewrite !andb_true_iff, !Z.leb_le, !Z.ltb_lt. lia. }
  cbn [rbind]. apply (IH (mkSelectivityIterator (Some b) _ w e)).
  - split; it_simpl.
    + lia.
    + lia.
    + apply land_range_l; [lia|apply word_range].
    + done.
    + rewrite Hrows, bits_of_masked by (lia || done). unfold it_bit. it_simpl.
      apply (word_split (bit b) (64 * w) e w); lia.
  - simpl. assert (w <= e / 64) by (apply Z.div_le_lower_bound; lia). lia.
Qed.

Lemma next_ok it rows :
  remaining it rows ->
  exists it', match rows with
              | [] => next it = Ok (it', None)
              | row :: rows => next it = Ok (it', Some row) /\ remaining it' rows
              end.
Proof.
  intros Hrm. unfold next.
  destruct (advance_ok it rows (S (Z.to_nat (it_end it / 64 + 1 - it_index it))) Hrm)
    as (it' & more & -> & Hrm' & Hmore); [lia|]. cbn [rbind fst snd]. destruct more.
  - destruct Hrm' as [Hi He Hc Hw Hrows].
    rewrite bits_of_step in Hrows by lia. rewrite Hrows. eexists. split.
    + cbn [map app]. by replace (it_index it' * 64) with (64 * it_index it') by lia.
    + split; it_simpl; [done|done|apply land_range_l; lia|done|done].
  - subst rows. by eexists.
Qed.

Lemma iterate_ok it rows fuel :
  remaining it rows -> (length rows < fuel)%nat -> iterate it fuel = Ok rows.
Proof.
  revert it rows. induction fuel as [|fuel IH]; intros it rows Hrm Hf; [lia|]. cbn [iterate].
  destruct (next_ok it rows Hrm) as [it' Hnext]. destruct rows as [|row rows].
  - by rewrite Hnext.
  - destruct Hnext as [-> Hrm']. cbn [rbind fst snd]. rewrite (IH _ rows); [done|done|simpl in Hf; lia].
Qed.

Lemma make_iterator_ok s n P :
  selects s n P ->
  exists it, make_SelectivityIterator s = Ok it /\ remaining it (List.filter P (seqZ 0 n)).
Proof.
  intros [Hh Hb _]. pose proof (holds_words _ _ _ Hh) as Hw. pose proof Hh as [Hs Hr _ Hbits].
  destruct (bounds_range _ _ _ _ Hb ltac:(lia)) as [H0 H1].
  rewrite (rows_within_all _ _ n P Hb) by lia.
  unfold make_SelectivityIterator. destruct (begin_ s =? end_ s) eqn:E.
  { eexists. split; [done|]. destruct Hb as [(Hb & He & _)|(? & _)]; [|lia].
    split; it_simpl; [lia|lia|lia|lia|]. rewrite bits_of_zero, !seqZ_nil by lia. done. }
  rewrite !Z.quot_div_nonneg, !land_63 by lia.
  pose proof (Z.div_mod (begin_ s) 64). pose proof (Z.mod_pos_bound (begin_ s) 64).
  pose proof (Z.div_mod (end_ s) 64). pose proof (Z.mod_pos_bound (end_ s) 64).
  set (b := begin_ s) in *. set (e := end_ s) in *. set (w := b / 64) in *.
  rewrite load_word_ok by (lia || (eapply has_words_lt; [done|lia|lia])). cbn [rbind].
  rewrite lowMask_ok by lia. cbn [rbind].
  assert (Z.land (word (bits_ s) w) (not64 (Z.ones (b mod 64)))
          = Z.land (word (bits_ s) w) (range_mask b (64 * w + 64) w)) as ->.
  { apply (words_eq 64); [apply land_range_l; [lia|apply word_range]..|]. intros j Hj.
    rewrite !Z.land_spec, not64_bits, range_mask_bits, Z.testbit_ones by lia. f_equal.
    apply eq_true_iff_eq. rewrite negb_true_iff, !andb_true_iff, andb_false_iff. zbool. }
  assert (w ∈ word_span b e) as Hin by (apply word_span_elem; lia).
  assert ((if e / 64 =? w
           then let! low := lowMask (e mod 64) in
                Ok (Z.land (Z.land (word (bits_ s) w) (range_mask b (64 * w + 64) w)) low)
           else Ok (Z.land (word (bits_ s) w) (range_mask b (64 * w + 64) w)))
          = Ok (Z.land (word (bits_ s) w) (range_mask b e w))) as ->.
  { destruct (e / 64 =? w) eqn:Ew.
    - assert (e mod 64 = e - 64 * w) as -> by lia. rewrite mask_below by lia. cbn [rbind].
      by rewrite <- Z.land_assoc, mask_both by lia.
    - f_equal. f_equal. apply Z.bits_inj'. intros j Hj. rewrite !range_mask_bits by lia.
      apply eq_true_iff_eq. rewrite !andb_true_iff, !Z.leb_le, !Z.ltb_lt. lia. }
  cbn [rbind]. eexists. split; [done|]. split; it_simpl.
  - lia.
  - lia.
  - apply land_range_l; [lia|apply word_range].
  - eapply has_words_mono; [done|lia].
  - rewrite bits_of_masked by (lia || done). unfold it_bit. it_simpl.
    transitivity (List.filter (bit (bits_ s)) (seqZ b (e - b))).
    + apply filter_ext. intros i [? ?]%elem_of_seqZ. symmetry. apply Hbits. lia.
    + apply (word_split (bit (bits_ s)) b e w); lia.
Qed.

(** * Null masks and inner rows *)

Lemma clearNulls_ok s n P nulls :
  selects s n P -> has_words nulls n ->
  exists nulls', clearNulls s (Some nulls) = Ok (Some nulls')
    /\ forall i, 0 <= i < n -> bit nulls' i = bit nulls i || P i.
Proof.
  intros [Hh Hb _] Hn. pose proof (holds_words _ _ _ Hh) as Hw. pose proof Hh as [_ Hr _ Hbits].
  destruct (bounds_range _ _ _ _ Hb ltac:(lia)) as [H0 H1]. unfold clearNulls, orBits2, orRange.
  destruct (combineRange_bits (fun l r => Z.lor l r) orb or_bits nulls Target (Other (bits_ s))
    (begin_ s) (end_ s)) as (b & -> & _ & Hbit);
    [lia|lia|eapply has_words_mono; [done|lia]..|]. cbn [rbind]. exists b. split; [done|].
  intros i Hi. rewrite Hbit. cbn [operand_buffer]. rewrite Hbits by done.
  destruct (_ && _) eqn:E; [done|]. by rewrite (bounds_outside _ _ _ _ _ Hb Hi E), orb_false_r.
Qed.

Lemma setNulls_ok s n P nulls :
  selects s n P -> has_words nulls n ->
  exists nulls', setNulls s (Some nulls) = Ok nulls'
    /\ forall i, 0 <= i < n -> bit nulls' i = bit nulls i && negb (P i).
Proof.
  intros [Hh Hb _] Hn. pose proof (holds_words _ _ _ Hh) as Hw. pose proof Hh as [_ Hr _ Hbits].
  destruct (bounds_range _ _ _ _ Hb ltac:(lia)) as [H0 H1].
  unfold setNulls, andWithNegatedBits2, andRange.
  destruct (combineRange_bits (fun l r => Z.land l (not64 r)) (fun l r => l && negb r) and_not_bits
    nulls Target (Other (bits_ s)) (begin_ s) (end_ s)) as (b & -> & _ & Hbit);
    [lia|lia|eapply has_words_mono; [done|lia]..|]. exists b. split; [done|].
  intros i Hi. rewrite Hbit. cbn [operand_buffer]. rewrite Hbits by done.
  destruct (_ && _) eqn:E; [done|]. by rewrite (bounds_outside _ _ _ _ _ Hb Hi E), andb_true_r.
Qed.

Section translate.
Variables (indices : list Z) (nulls : option buffer) (n m : Z).
Hypothesis Hn : n <= INT32_MAX.
Hypothesis Hnulls : has_nulls nulls n.

Definition mapped (row i : Z) : bool :=
  valid nulls row && bool_decide (indices !! Z.to_nat row = Some i).

Lemma translate_fold rows inner Q :
  holds inner m Q ->
  (forall row, row ∈ rows -> 0 <= row < n
     /\ (valid nulls row = true -> exists i, indices !! Z.to_nat row = Some i /\ 0 <= i < m)) ->
  exists inner',
    fold_res (fun innerRows row =>
       let! isNull := match nulls with None => Ok false | Some n => isBitNull n row end in
       if negb isNull then
         let! index := index_at indices row in
         setValid innerRows index true
       else Ok innerRows) inner rows = Ok inner'
    /\ holds inner' m (fun i => Q i || existsb (fun row => mapped row i) rows).
Proof.
  revert inner Q. induction rows as [|row rows IH]; intros inner Q Hh Hrows; cbn [fold_res existsb].
  { exists inner. split; [done|]. destruct Hh. split; try done. intros i Hi.
    by rewrite orb_false_r, h_bits0. }
  destruct (Hrows row ltac:(set_solver)) as [Hrow Hidx].
  assert ((match nulls with None => Ok false | Some n => isBitNull n row end)
          = Ok (negb (valid nulls row))) as ->.
  { destruct nulls as [b|]; [|done]. unfold isBitNull. simpl in Hnulls.
    rewrite isBitSet_word; [done|lia|eapply has_words_mono; [done|lia]]. }
  cbn [rbind]. rewrite negb_involutive.
  assert (exists inner1, (if valid nulls row
       then let! index := index_at indices row in setValid inner index true
       else Ok inner) = Ok inner1
     /\ holds inner1 m (fun i => Q i || mapped row i)) as (inner1 & -> & Hh1).
  { unfold mapped. destruct (valid nulls row) eqn:Ev.
    - destruct (Hidx eq_refl) as (idx & Hl & Hr). unfold index_at. rewrite Hl.
      replace (row <? 0) with false by lia. cbn [rbind].
      destruct (setValid_holds inner m Q idx true Hh Hr) as (inner1 & -> & Hh1).
      exists inner1. split; [done|]. destruct Hh1. split; try done. intros i Hi.
      rewrite h_bits0 by done. cbn [andb]. destruct (i =? idx) eqn:E.
      + replace i with idx by lia. by rewrite bool_decide_eq_true_2, orb_true_r.
      + rewrite bool_decide_eq_false_2, orb_false_r; [done|]. intros [= ?]. lia.
    - exists inner. split; [done|]. destruct Hh. split; try done. intros i Hi.
      by rewrite orb_false_r, h_bits0. }
  cbn [rbind]. destruct (IH inner1 _ Hh1) as (inner' & -> & Hh'); [set_solver|].
  exists inner'. split; [done|]. destruct Hh'. split; try done. intros i Hi.
  by rewrite h_bits0, orb_assoc.
Qed.
End translate.

(** A row of the inner vector becomes selected when a selected outer row that is
    not null maps to it. *)
Lemma translateToInnerRows_ok outer n P indices nulls inner m Q :
  selects outer n P -> holds inner m Q -> has_nulls nulls n ->
  (forall row, chosen n P row -> valid nulls row = true ->
     exists i, indices !! Z.to_nat row = Some i /\ 0 <= i < m) ->
  exists outer' inner', translateToInnerRows outer indices nulls inner = Ok (outer', inner')
    /\ selects outer' n P
    /\ selects inner' m (fun i => Q i || existsb (fun row => mapped indices nulls row i)
                                          (List.filter P (seqZ 0 n))).
Proof.
  intros Ho Hi Hn Hidx. unfold translateToInnerRows.
  pose proof (h_range _ _ _ (s_holds _ _ _ Ho)) as Hr.
  match goal with |- context [applyToSelected outer ?f None inner] =>
    destruct (applyToSelected_ok outer n P Ho f None inner I) as (outer' & Ho' & ->) end.
  rewrite (filter_ext _ P) by (intros; apply andb_true_r).
  destruct (translate_fold indices nulls n m ltac:(lia) Hn (List.filter P (seqZ 0 n)) inner Q Hi)
    as (inner' & -> & Hinner).
  { intros row Hrow. apply list_elem_of_In, filter_In in Hrow as [Hrow HP].
    apply list_elem_of_In, elem_of_seqZ in Hrow. split; [lia|].
    intros Hv. apply Hidx; [split; [lia|done]|done]. }
  cbn [rbind fst snd].
  destruct (updateBounds_ok _ _ _ Hinner) as (inner2 & -> & Hinner2 & _). cbn [rbind].
  by exists outer', inner2.
Qed.

(** * Properties *)

Fixpoint rows_specs (n : Z) (P : Z -> bool) (calls : list rows_call) : Z * (Z -> bool) :=
  match calls with
  | [] => (n, P)
  | c :: calls => let r := rows_spec n P c in rows_specs (fst r) (snd r) calls
  end.

Fixpoint all_permitted (n : Z) (P : Z -> bool) (calls : list rows_call) : Prop :=
  match calls with
  | [] => True
  | c :: calls =>
      rows_permitted n P c /\ let r := rows_spec n P c in all_permitted (fst r) (snd r) calls
  end.

Lemma rows_runs_ok calls s n P :
  selects s n P -> all_permitted n P calls ->
  exists s', fold_res rows_run s calls = Ok s'
    /\ selects s' (fst (rows_specs n P calls)) (snd (rows_specs n P calls)).
Proof.
  revert s n P. induction calls as [|c calls IH]; intros s n P Hs Hp; cbn [fold_res rows_specs].
  - by exists s.
  - destruct Hp as [Hp Hps]. destruct (rows_run_ok s n P c Hs Hp) as (s1 & -> & Hs1).
    cbn [rbind]. cbv zeta. by apply IH.
Qed.

(** C21. A vector, after any sequence of permitted changes, stands for the rows
    that the same changes give on a plain predicate: the bitmap, the cached
    bounds and the cached flag are up to date, and no change fails.  [intersect]
    is the intersection of the sets of rows, [deselect] their difference and
    [select] their union; [intersect] is permitted only with a vector that is
    large enough to have all the rows selected here, since the code keeps the
    rows at and above the size of the other. *)
Theorem selectivity_refinement n value calls :
  0 <= n <= INT32_MAX - 64 -> all_permitted n (fun _ => value) calls ->
  exists s, (let! s := make_SelectivityVector n value in fold_res rows_run s calls) = Ok s
    /\ selects s (fst (rows_specs n (fun _ => value) calls)) (snd (rows_specs n (fun _ => value) calls)).
Proof.
  intros Hn Hp. destruct (make_ok n value Hn) as (s & -> & Hs). cbn [rbind].
  by apply rows_runs_ok.
Qed.

Lemma selectivity_refinement_witness :
  exists t s, make_SelectivityVector 80 true = Ok t
    /\ (let! s := make_SelectivityVector 100 true in
        fold_res rows_run s [SetValid 3 false; SetValidRange 70 100 false; Intersect t; Resize 130 false]) = Ok s
    /\ selects s 130 (fun i => if i <? 100 then (if (70 <=? i) && (i <? 100) then false else if i =? 3 then false else true)
                                                && ((i <? size_ t) && bit (bits_ t) i) else false).
Proof.
  destruct (make_ok 80 true ltac:(lia)) as (t & Ht & Hsel). pose proof (h_size _ _ _ (s_holds _ _ _ Hsel)) as Hsize. exists t.
  destruct (selectivity_refinement 100 true [SetValid 3 false; SetValidRange 70 100 false; Intersect t; Resize 130 false]) as (s & Hrun & Hs);
    [lia| |by exists s].
  simpl. split_and!; try done; try lia.
  - unfold well_formed. rewrite Hsize. apply (selects_ext _ _ _ _ Hsel). intros k Hk. by rewrite (h_bits _ _ _ (s_holds _ _ _ Hsel)).
  - intros k Hk. by replace ((70 <=? k) && (k <? 100)) with true by zbool.
Defined.

(** The queries answer for the rows a vector stands for: whether a row, any
    row or every row is selected, how many are, and whether two vectors select
    the same rows or one a subset of the other's.  The cache they update stays
    true. *)
Theorem selectivity_queries s n P t m Q :
  selects s n P -> selects t m Q ->
  (forall i, 0 <= i < n -> isValid s i = Ok (P i))
  /\ (hasSelections s = true <-> exists i, chosen n P i)
  /\ (exists s' r, isAllSelected s = Ok (s', r) /\ selects s' n P /\ (0 < n -> r = true <-> every n P))
  /\ (exists s', countSelected s = Ok (s', Z.of_nat (length (List.filter P (seqZ 0 n))))
        /\ selects s' n P)
  /\ (exists r, sv_eq s t = Ok r /\ (r = true <-> forall i, chosen n P i <-> chosen m Q i))
  /\ (exists r, sv_isSubset s t = Ok r
        /\ ((exists i, chosen n P i) -> r = true <-> forall i, chosen n P i -> chosen m Q i)).
Proof.
  intros Hs Ht. split_and!.
  - intros i Hi. apply (isValid_ok s n P); [by apply s_holds|done].
  - by apply hasSelections_ok.
  - by apply isAllSelected_ok.
  - by apply countSelected_ok.
  - by apply sv_eq_ok.
  - by apply sv_isSubset_ok.
Qed.

Lemma selectivity_queries_witness :
  exists s t, make_SelectivityVector 100 true = Ok s /\ make_SelectivityVector 70 true = Ok t
    /\ countSelected s = Ok (s, 100) /\ sv_eq s t = Ok false.
Proof.
  destruct (make_ok 100 true ltac:(lia)) as (s & Hs & Hsel).
  destruct (make_ok 70 true ltac:(lia)) as (t & Ht & Htsel).
  exists s, t. destruct (selectivity_queries s 100 (fun _ => true) t 70 (fun _ => true) Hsel Htsel)
    as (_ & _ & _ & (s' & Hc & _) & (r & Hr & Hiff) & _).
  split; [done|]. split; [done|]. injection Hs as <-. split; [done|].
  rewrite Hr. destruct r; [|done]. destruct (proj1 (proj1 Hiff eq_refl 80)) as [? _].
  - split; [lia|done].
  - lia.
Defined.

(** C22. Applying or testing a function on the selected rows, also those that are
    not null, and running the iterator to its end, all visit exactly the
    selected rows in ascending order; [translateToInnerRows] selects the inner
    rows that they map to. *)
Theorem selectivity_visits {T} s n P (func : T -> Z -> result T)
    (test : T -> Z -> result (T * bool)) nulls st indices inner m Q :
  selects s n P -> has_nulls nulls n -> selects inner m Q ->
  (forall row, chosen n P row -> valid nulls row = true ->
     exists i, indices !! Z.to_nat row = Some i /\ 0 <= i < m) ->
  let rows := List.filter P (seqZ 0 n) in
  (exists s', selects s' n P /\ applyToSelected s func nulls st
     = (let! st := fold_res func st (List.filter (fun i => P i && valid nulls i) (seqZ 0 n)) in Ok (s', st)))
  /\ (exists s', selects s' n P
        /\ testSelected s test st = (let! r := test_res test st rows in Ok (s', r)))
  /\ (exists it, make_SelectivityIterator s = Ok it /\ iterate it (S (length rows)) = Ok rows)
  /\ (exists s' inner', translateToInnerRows s indices nulls inner = Ok (s', inner')
        /\ selects s' n P
        /\ selects inner' m (fun i => Q i || existsb (fun row => mapped indices nulls row i) rows)).
Proof.
  intros Hs Hn Hi Hidx. cbv zeta. split_and!.
  - by apply applyToSelected_ok.
  - by apply testSelected_ok.
  - destruct (make_iterator_ok s n P Hs) as (it & Hrun & Hrm). exists it. split; [done|].
    apply iterate_ok; [done|lia].
  - apply translateToInnerRows_ok; [done|by apply s_holds|done|done].
Qed.

Lemma selectivity_visits_witness :
  exists s it, make_SelectivityVector 3 true = Ok s /\ make_SelectivityIterator s = Ok it
    /\ iterate it 4 = Ok [0; 1; 2].
Proof.
  destruct (make_ok 3 true ltac:(lia)) as (s & Hs & Hsel).
  destruct (selectivity_visits s 3 (fun _ => true) (fun st i => Ok (i :: st))
    (fun st i => Ok (i :: st, true)) None [] [1; 0; 2] s 3 (fun _ => true) Hsel I Hsel)
    as (_ & _ & (it & Hit & Hrows) & _).
  - intros row [Hrow _] _. assert (row = 0 \/ row = 1 \/ row = 2) as [->|[->| ->]] by lia; simpl.
    + exists 1. split; [done|lia].
    + exists 0. split; [done|lia].
    + exists 2. split; [done|lia].
  - exists s, it. split; [done|]. split; [done|]. exact Hrows.
Defined.

(** ** Where the code differs *)

(** [isSubset] denies that a vector without selected rows is a subset of one whose
    first row is not selected. *)
Lemma empty_not_subset :
  (let! s := make_SelectivityVector 10 false in
   let! t := make_SelectivityVector 10 true in
   let! t := rows_run t (SetValid 0 false) in
   sv_isSubset s t) = Ok false.
Proof. vm_compute. reflexivity. Qed.

(** [intersect] keeps the rows at and above the size of the other vector. *)
Lemma intersect_keeps_tail :
  (let! s := make_SelectivityVector 10 true in
   let! t := make_SelectivityVector 5 false in
   let! s := intersect s t in
   isValid s 7) = Ok true.
Proof. vm_compute. reflexivity. Qed.

(** After [setFromBits] with fewer rows the bitmap keeps its words, and [resize]
    fills the last of them instead of the one with the last row: the new rows
    are selected although they are asked not to be. *)
Lemma resize_after_setFromBits :
  (let! s := make_SelectivityVector 128 true in
   let! s := setFromBits s (buffer_of [UINT64_MAX]) 10 in
   let! s := resize s 20 false in
   isValid s 15) = Ok true.
Proof. vm_compute. reflexivity. Qed.
