(* ===== verification/OrderedMap.v ===== *)
(** Ordered maps of C++: the neighbours of a key in a finite map over the
    integers, as [std::map] gives them through [lower_bound], [std::prev] and
    [std::next], and sums over the values of a map. *)

From S2P Require Import Prelude.

(** [std::map]: the entry with the key that is best among those that satisfy
    [p]. *)
Section ordered_map.
Context {A : Type}.

Definition best_entry (better : Z -> Z -> bool) (p : Z -> bool) (m : gmap Z A)
    : option (Z * A) :=
  map_fold
    (fun k v acc =>
       if p k then
         match acc with
         | Some (k', _) => if better k k' then Some (k, v) else acc
         | None => Some (k, v)
         end
       else acc)
    None m.

(** The iterators [lower_bound(k)], [std::next] and [std::prev] of the entry
    at [k]; [None] is [end()] (or no previous entry). *)
Definition map_lower_bound (m : gmap Z A) (k : Z) : option (Z * A) :=
  best_entry Z.ltb (fun k' => k <=? k') m.
Definition map_next (m : gmap Z A) (k : Z) : option (Z * A) :=
  best_entry Z.ltb (fun k' => k <? k') m.
Definition map_prev (m : gmap Z A) (k : Z) : option (Z * A) :=
  best_entry Z.gtb (fun k' => k' <? k) m.

Lemma best_entry_spec better p (m : gmap Z A) :
  (forall a b c, better a b = true -> better c b = false -> better c a = false) ->
  (forall a, better a a = false) ->
  (forall a b, better a b = true -> better b a = false) ->
  match best_entry better p m with
  | Some (k, v) =>
      m !! k = Some v /\ p k = true
      /\ forall k' v', m !! k' = Some v' -> p k' = true -> better k' k = false
  | None => forall k v, m !! k = Some v -> p k = false
  end.
Proof.
  intros Htrans Hirr Hasym. unfold best_entry.
  apply (map_fold_weak_ind (fun acc m => match acc with
    | Some (k, v) => m !! k = Some v /\ p k = true
        /\ forall k' v', m !! k' = Some v' -> p k' = true -> better k' k = false
    | None => forall k v, m !! k = Some v -> p k = false end)).
  - intros k v Hk. by rewrite lookup_empty in Hk.
  - intros k v m' acc Hk IH. destruct (p k) eqn:Hp.
    + destruct acc as [[k' v']|].
      * destruct IH as (Hk' & Hp' & Hbest). destruct (better k k') eqn:Hb.
        -- split; [by rewrite lookup_insert_eq|]. split; [done|].
           intros k2 v2. destruct (decide (k2 = k)) as [->|]; [by intros|].
           rewrite lookup_insert_ne by done. intros Hk2 Hp2.
           eapply Htrans; [exact Hb|]. by eapply Hbest.
        -- split; [rewrite lookup_insert_ne; congruence|]. split; [done|].
           intros k2 v2. destruct (decide (k2 = k)) as [->|]; [by intros|].
           rewrite lookup_insert_ne by done. apply Hbest.
      * split; [by rewrite lookup_insert_eq|]. split; [done|].
        intros k2 v2. destruct (decide (k2 = k)) as [->|]; [by intros|].
        rewrite lookup_insert_ne by done. intros Hk2 Hp2.
        by rewrite (IH _ _ Hk2) in Hp2.
    + destruct acc as [[k' v']|].
      * destruct IH as (Hk' & Hp' & Hbest).
        split; [rewrite lookup_insert_ne; congruence|]. split; [done|].
        intros k2 v2. destruct (decide (k2 = k)) as [->|]; [congruence|].
        rewrite lookup_insert_ne by done. apply Hbest.
      * intros k2 v2. destruct (decide (k2 = k)) as [->|]; [done|].
        rewrite lookup_insert_ne by done. apply IH.
Qed.

Lemma map_lower_bound_spec (m : gmap Z A) k :
  match map_lower_bound m k with
  | Some (k', v) => m !! k' = Some v /\ k <= k'
      /\ forall k2 v2, m !! k2 = Some v2 -> k <= k2 -> k' <= k2
  | None => forall k' v, m !! k' = Some v -> k' < k
  end.
Proof.
  pose proof (best_entry_spec Z.ltb (fun k' => k <=? k') m ltac:(intros; zbool)
    ltac:(intros; zbool) ltac:(intros; zbool)) as H.
  unfold map_lower_bound. destruct (best_entry _ _ _) as [[k' v]|].
  - destruct H as (H1 & H2 & H3). split; [done|]. split; [lia|].
    intros k2 v2 Hk2 Hle. specialize (H3 k2 v2 Hk2 ltac:(zbool)). zbool.
  - intros k' v Hk'. specialize (H k' v Hk'). zbool.
Qed.

Lemma map_next_spec (m : gmap Z A) k :
  match map_next m k with
  | Some (k', v) => m !! k' = Some v /\ k < k'
      /\ forall k2 v2, m !! k2 = Some v2 -> k < k2 -> k' <= k2
  | None => forall k' v, m !! k' = Some v -> k' <= k
  end.
Proof.
  pose proof (best_entry_spec Z.ltb (fun k' => k <? k') m ltac:(intros; zbool)
    ltac:(intros; zbool) ltac:(intros; zbool)) as H.
  unfold map_next. destruct (best_entry _ _ _) as [[k' v]|].
  - destruct H as (H1 & H2 & H3). split; [done|]. split; [lia|].
    intros k2 v2 Hk2 Hle. specialize (H3 k2 v2 Hk2 ltac:(zbool)). zbool.
  - intros k' v Hk'. specialize (H k' v Hk'). zbool.
Qed.

Lemma map_prev_spec (m : gmap Z A) k :
  match map_prev m k with
  | Some (k', v) => m !! k' = Some v /\ k' < k
      /\ forall k2 v2, m !! k2 = Some v2 -> k2 < k -> k2 <= k'
  | None => forall k' v, m !! k' = Some v -> k <= k'
  end.
Proof.
  pose proof (best_entry_spec Z.gtb (fun k' => k' <? k) m ltac:(intros; zbool)
    ltac:(intros; zbool) ltac:(intros; zbool)) as H.
  unfold map_prev. destruct (best_entry _ _ _) as [[k' v]|].
  - destruct H as (H1 & H2 & H3). split; [done|]. split; [lia|].
    intros k2 v2 Hk2 Hle. specialize (H3 k2 v2 Hk2 ltac:(zbool)). zbool.
  - intros k' v Hk'. specialize (H k' v Hk'). zbool.
Qed.
End ordered_map.

(** * Sums *)

Definition map_sum (m : gmap Z Z) : Z := map_fold (fun _ n acc => n + acc) 0 m.

Lemma map_sum_empty : map_sum ∅ = 0.
Proof. done. Qed.

Lemma map_sum_insert m k n : m !! k = None -> map_sum (<[k := n]> m) = n + map_sum m.
Proof.
  intros Hk. unfold map_sum. rewrite map_fold_insert_L; [done| |done].
  intros. lia.
Qed.

Lemma map_sum_delete m k n : m !! k = Some n -> map_sum (delete k m) = map_sum m - n.
Proof.
  intros Hk. rewrite <- (insert_delete_id m k n Hk) at 2.
  rewrite map_sum_insert by apply lookup_delete_eq. lia.
Qed.

Lemma map_sum_nonneg m : (forall k n, m !! k = Some n -> 0 <= n) -> 0 <= map_sum m.
Proof.
  induction m as [|k n m Hk IH] using map_ind; intros Hn; [done|].
  rewrite map_sum_insert by done.
  pose proof (Hn k n ltac:(apply lookup_insert_eq)).
  assert (0 <= map_sum m); [|lia]. apply IH. intros k' n' Hk'.
  apply (Hn k'). rewrite lookup_insert_ne; congruence.
Qed.

Lemma map_sum_lookup m k n :
  m !! k = Some n -> (forall k n, m !! k = Some n -> 0 <= n) -> n <= map_sum m.
Proof.
  intros Hk Hn. pose proof (map_sum_delete m k n Hk).
  assert (0 <= map_sum (delete k m)); [|lia].
  apply map_sum_nonneg. intros k' n' Hk'. apply (Hn k').
  by apply lookup_delete_Some in Hk' as [_ ?].
Qed.
