(* ===== verification/MmapArena.v ===== *)
(** The arena allocator of bolt/common/memory/MmapArena.h and MmapArena.cpp:
    a range of addresses kept as a map of free blocks and a table of their
    addresses by size.  The theorems show that it refines a plain allocator
    whose state is the set of live blocks: blocks are disjoint and inside the
    arena, an allocation fails only when no gap is large enough, and a free
    of a live block never fails. *)

From S2P Require Import Prelude BitUtil OrderedMap.

(** * The arena *)

(** The members.  [freeBytes_] is atomic; the arena is used under the lock of
    its owner, so that one call runs at a time. *)
Record MmapArena : Type := mkMmapArena {
  byteSize_ : Z;
  address_ : Z;
  freeBytes_ : Z;
  freeList_ : gmap Z Z;
  freeLookup_ : gmap Z (gset Z)
}.

Definition kMinGrainSizeBytes : Z := 1024 * 1024.

(** The null pointer. *)
Abbreviation nullptr := 0.

Definition roundBytes (bytes : Z) : Z := nextPowerOfTwo bytes.

Definition with_free (s : MmapArena) (freeList : gmap Z Z)
    (freeLookup : gmap Z (gset Z)) : MmapArena :=
  mkMmapArena (byteSize_ s) (address_ s) (freeBytes_ s) freeList freeLookup.

Definition with_freeBytes (s : MmapArena) (freeBytes : Z) : MmapArena :=
  mkMmapArena (byteSize_ s) (address_ s) freeBytes (freeList_ s) (freeLookup_ s).

(** [freeLookup_[bytes].emplace(addr)] *)
Definition lookup_emplace (bytes addr : Z) (lookup : gmap Z (gset Z)) : gmap Z (gset Z) :=
  <[bytes := {[addr]} ∪ default ∅ (lookup !! bytes)]> lookup.

(** [freeLookup_[bytes].erase(addr)], and the entry when it is empty. *)
Definition lookup_erase (bytes addr : Z) (lookup : gmap Z (gset Z)) : gmap Z (gset Z) :=
  let addresses := default ∅ (lookup !! bytes) ∖ {[addr]} in
  if decide (addresses = ∅) then delete bytes lookup
  else <[bytes := addresses]> lookup.

Definition removeFromLookup (s : MmapArena) (addr bytes : Z) : MmapArena :=
  with_free s (freeList_ s) (lookup_erase bytes addr (freeLookup_ s)).

(** The iterator it returns is the one of [addr]. *)
Definition addFreeBlock (s : MmapArena) (addr bytes : Z) : result MmapArena :=
  match freeList_ s !! addr with
  | Some _ => Err CheckFailed
  | None =>
      Ok (with_free s (<[addr := bytes]> (freeList_ s))
            (lookup_emplace bytes addr (freeLookup_ s)))
  end.

Definition removeFreeBlock (s : MmapArena) (addr bytes : Z) : MmapArena :=
  let s := with_free s (delete addr (freeList_ s)) (freeLookup_ s) in
  removeFromLookup s addr bytes.

(** The constructor; [ptr] is what [mmap] returns, [None] when it fails. *)
Definition make_MmapArena (ptr : option Z) (capacityBytes : Z) : result MmapArena :=
  check! Z.rem capacityBytes kMinGrainSizeBytes =? 0 in
  match ptr with
  | None => Err CheckFailed
  | Some ptr =>
      let! s := addFreeBlock (mkMmapArena capacityBytes ptr 0 ∅ ∅) ptr capacityBytes in
      Ok (with_freeBytes s capacityBytes)
  end.

Definition arena_empty (s : MmapArena) : bool := freeBytes_ s =? byteSize_ s.

Section arena.
(** The element [begin()] of an [std::unordered_set]: some element. *)
Variable first_of : gset Z -> Z.

(** The arena after the call and the address returned. *)
Definition allocate (s : MmapArena) (bytes : Z) : result (MmapArena * Z) :=
  if bytes =? 0 then Ok (s, nullptr)
  else
    let bytes := roundBytes bytes in
    match map_lower_bound (freeLookup_ s) bytes with
    | None => Ok (s, nullptr)
    | Some (curFreeBytes, addresses) =>
        let s := with_freeBytes s (wrap_unsigned 64 (freeBytes_ s - bytes)) in
        let address := first_of addresses in
        if curFreeBytes =? bytes then
          Ok (removeFreeBlock s address curFreeBytes, address)
        else
          let! s :=
            addFreeBlock s (wrap_unsigned 64 (address + bytes))
              (wrap_unsigned 64 (curFreeBytes - bytes)) in
          Ok (removeFreeBlock s address curFreeBytes, address)
    end.
End arena.

(** [freeList_[addr] = size; freeLookup_[size].emplace(addr)] *)
Definition set_free_size (s : MmapArena) (addr size : Z) : MmapArena :=
  with_free s (<[addr := size]> (freeList_ s)) (lookup_emplace size addr (freeLookup_ s)).

(** The end of [free]: the neighbours that touch the new block are merged
    with it. *)
Definition merge_neighbours (s : MmapArena) (curAddr bytes : Z)
    (prev next : option (Z * Z)) : MmapArena :=
  match prev with
  | Some (prevAddr, prevBytes) =>
      let s := removeFreeBlock s curAddr bytes in
      let s := removeFromLookup s prevAddr prevBytes in
      let newFreeSize := wrap_unsigned 64 (curAddr - prevAddr + bytes) in
      let '(s, newFreeSize) :=
        match next with
        | Some (nextAddr, nextBytes) =>
            (removeFreeBlock s nextAddr nextBytes,
             wrap_unsigned 64 (nextAddr - prevAddr + nextBytes))
        | None => (s, newFreeSize)
        end in
      set_free_size s prevAddr newFreeSize
  | None =>
      match next with
      | Some (nextAddr, nextBytes) =>
          let s := removeFreeBlock s nextAddr nextBytes in
          let s := removeFromLookup s curAddr bytes in
          set_free_size s curAddr (wrap_unsigned 64 (nextAddr - curAddr + nextBytes))
      | None => s
      end
  end.

Definition free (s : MmapArena) (address bytes : Z) : result MmapArena :=
  if (address =? nullptr) || (bytes =? 0) then Ok s
  else
    let bytes := roundBytes bytes in
    let s := with_freeBytes s (wrap_unsigned 64 (freeBytes_ s + bytes)) in
    let curAddr := address in
    let! s := addFreeBlock s curAddr bytes in
    let! mergePrev :=
      match map_prev (freeList_ s) curAddr with
      | Some (prevAddr, prevBytes) =>
          let prevEndAddr := wrap_unsigned 64 (prevAddr + prevBytes) in
          check! prevEndAddr <=? curAddr in
          Ok (if prevEndAddr =? curAddr then Some (prevAddr, prevBytes) else None)
      | None => Ok None
      end in
    let! mergeNext :=
      match map_next (freeList_ s) curAddr with
      | Some (nextAddr, nextBytes) =>
          let curEndAddr := wrap_unsigned 64 (curAddr + bytes) in
          check! curEndAddr <=? nextAddr in
          Ok (if curEndAddr =? nextAddr then Some (nextAddr, nextBytes) else None)
      | None => Ok None
      end in
    Ok (merge_neighbours s curAddr bytes mergePrev mergeNext).

(** ** The consistency check *)

(** The errors of one entry of the free list. *)
Definition block_errors (s : MmapArena) (addr size : Z) : Z :=
  let blockEndAddress := wrap_unsigned 64 (addr + size) in
  (if decide (addr ∈ default ∅ (freeLookup_ s !! size)) then 0 else 1)
  + (if blockEndAddress >? wrap_unsigned 64 (address_ s + byteSize_ s) then 1 else 0)
  + match map_next (freeList_ s) addr with
    | Some (next, _) => if blockEndAddress >? next then 1 else 0
    | None => 0
    end.

Definition checkConsistency (s : MmapArena) : bool :=
  let numErrors := map_fold (fun addr size n => n + block_errors s addr size) 0 (freeList_ s) in
  let freeListTotalBytes := map_sum (freeList_ s) in
  let numErrors :=
    map_fold (fun _ (addresses : gset Z) n => n + (if decide (addresses = ∅) then 1 else 0))
      numErrors (freeLookup_ s) in
  let freeLookupTotalBytes :=
    map_fold (fun size (addresses : gset Z) n => n + size * Z.of_nat (base.size addresses))
      0 (freeLookup_ s) in
  let numErrors :=
    numErrors
    + (if negb (freeListTotalBytes =? freeLookupTotalBytes)
          || negb (freeListTotalBytes =? freeBytes_ s) then 1 else 0) in
  numErrors =? 0.

(** * The table by size *)

(** The table holds the addresses of the free list by size, and no empty
    set. *)
Definition lookup_ok (lookup : gmap Z (gset Z)) (blocks : gmap Z Z) : Prop :=
  (forall n a, a ∈ default ∅ (lookup !! n) <-> blocks !! a = Some n)
  /\ (forall n addresses, lookup !! n = Some addresses -> addresses ≠ ∅).

Lemma lookup_default_insert (lookup : gmap Z (gset Z)) n n' X :
  default ∅ (<[n := X]> lookup !! n') = if decide (n' = n) then X else default ∅ (lookup !! n').
Proof.
  destruct (decide (n' = n)) as [->|]; [by rewrite lookup_insert_eq|].
  by rewrite lookup_insert_ne by done.
Qed.

Lemma lookup_erase_default lookup n n' a :
  default ∅ (lookup_erase n a lookup !! n')
  = if decide (n' = n) then default ∅ (lookup !! n) ∖ {[a]} else default ∅ (lookup !! n').
Proof.
  unfold lookup_erase. destruct (decide (_ ∖ _ = ∅)) as [He|He].
  - destruct (decide (n' = n)) as [->|]; [by rewrite lookup_delete_eq, He|].
    by rewrite lookup_delete_ne by done.
  - apply lookup_default_insert.
Qed.

Lemma lookup_ok_emplace lookup blocks a n :
  blocks !! a = None -> lookup_ok lookup blocks ->
  lookup_ok (lookup_emplace n a lookup) (<[a := n]> blocks).
Proof.
  intros Ha [Hl Hne]. split.
  - intros n' a'. unfold lookup_emplace. rewrite lookup_default_insert.
    specialize (Hl n' a'). destruct (decide (a' = a)) as [->|].
    + rewrite lookup_insert_eq. case_decide; subst; [|rewrite Hl]; [set_solver|].
      rewrite Ha. naive_solver.
    + rewrite lookup_insert_ne by done. case_decide; subst; [|done].
      rewrite <- Hl. set_solver.
  - intros n' X. unfold lookup_emplace. destruct (decide (n' = n)) as [->|].
    + rewrite lookup_insert_eq. intros [= <-]. set_solver.
    + rewrite lookup_insert_ne by done. apply Hne.
Qed.

Lemma lookup_ok_erase lookup blocks a n :
  blocks !! a = Some n -> lookup_ok lookup blocks ->
  lookup_ok (lookup_erase n a lookup) (delete a blocks).
Proof.
  intros Ha [Hl Hne]. split.
  - intros n' a'. rewrite lookup_erase_default. specialize (Hl n' a').
    destruct (decide (a' = a)) as [->|].
    + rewrite lookup_delete_eq. case_decide; subst; [set_solver|]. rewrite Hl, Ha. naive_solver.
    + rewrite lookup_delete_ne by done. case_decide; subst; [|done]. rewrite <- Hl. set_solver.
  - intros n' X. unfold lookup_erase. case_decide as He.
    + intros HX%lookup_delete_Some. naive_solver.
    + intros [[<- <-]|[_ HX]]%lookup_insert_Some; [done|]. by eapply Hne.
Qed.

(** The smallest size that is large enough. *)
Lemma lookup_lower_bound lookup blocks bytes :
  lookup_ok lookup blocks ->
  match map_lower_bound lookup bytes with
  | Some (n, addresses) =>
      bytes <= n /\ addresses ≠ ∅ /\ forall a, a ∈ addresses -> blocks !! a = Some n
  | None => forall a n, blocks !! a = Some n -> n < bytes
  end.
Proof.
  intros [Hl Hne]. pose proof (map_lower_bound_spec lookup bytes) as Hb.
  destruct (map_lower_bound lookup bytes) as [[n X]|].
  - destruct Hb as (HX & Hle & _). split; [done|]. split; [by eapply Hne|].
    intros a Ha. apply Hl. by rewrite HX.
  - intros a n Ha. apply Hl in Ha. destruct (lookup !! n) as [X|] eqn:E; [by eapply Hb|].
    simpl in Ha. set_solver.
Qed.

(** * Tilings *)

(** The free and the live blocks partition the addresses of the arena. *)
Definition block (free live : gmap Z Z) (a n : Z) : Prop :=
  free !! a = Some n \/ live !! a = Some n.

Record tiles (base size : Z) (free live : gmap Z Z) : Prop := {
  tile_pos a n : block free live a n -> 0 < n;
  tile_cover p :
    base <= p < base + size <-> exists a n, block free live a n /\ a <= p < a + n;
  tile_disjoint a n b m :
    block free live a n -> block free live b m -> a <> b -> a + n <= b \/ b + m <= a;
  tile_apart a n : free !! a = Some n -> live !! a = None
}.

(** Free blocks that touch have been merged. *)
Definition coalesced (free : gmap Z Z) : Prop :=
  forall a n, free !! a = Some n -> free !! (a + n) = None.

Lemma tile_within base size free live a n :
  tiles base size free live -> block free live a n -> base <= a /\ a + n <= base + size.
Proof.
  intros [Hpos Hcov _ _] Hb. pose proof (Hpos _ _ Hb).
  pose proof (proj2 (Hcov a) ltac:(exists a, n; split; [done|lia])).
  pose proof (proj2 (Hcov (a + n - 1)) ltac:(exists a, n; split; [done|lia])). lia.
Qed.

Lemma tiles_swap base size free live :
  tiles base size free live -> tiles base size live free.
Proof.
  intros [Hpos Hcov Hdis Hap].
  assert (forall a n, block live free a n <-> block free live a n) as Hb
    by (unfold block; naive_solver).
  split.
  - intros a n. rewrite Hb. apply Hpos.
  - intros p. rewrite Hcov. by setoid_rewrite Hb.
  - intros a n b m. rewrite !Hb. apply Hdis.
  - intros a n Ha. destruct (free !! a) eqn:E; [|done]. by rewrite (Hap _ _ E) in Ha.
Qed.

(** A free block becomes live. *)
Lemma tiles_take base size free live a n :
  tiles base size free live -> free !! a = Some n ->
  tiles base size (delete a free) (<[a := n]> live).
Proof.
  intros [Hpos Hcov Hdis Hap] Ha.
  assert (forall b m, block (delete a free) (<[a := n]> live) b m <-> block free live b m) as Hb.
  { intros b m. unfold block. destruct (decide (b = a)) as [->|].
    - rewrite lookup_delete_eq, lookup_insert_eq, Ha, (Hap _ _ Ha). naive_solver.
    - by rewrite lookup_delete_ne, lookup_insert_ne by done. }
  split.
  - intros b m. rewrite Hb. apply Hpos.
  - intros p. rewrite Hcov. by setoid_rewrite Hb.
  - intros b m b' m'. rewrite !Hb. apply Hdis.
  - intros b m [Hne Hb']%lookup_delete_Some. rewrite lookup_insert_ne by done. by eapply Hap.
Qed.

Lemma tiles_give base size free live a n :
  tiles base size free live -> live !! a = Some n ->
  tiles base size (<[a := n]> free) (delete a live).
Proof. intros H Ha. apply tiles_swap, tiles_take; [by apply tiles_swap|done]. Qed.

(** A free block is split in two. *)
Lemma tiles_split base size free live a n k :
  tiles base size free live -> free !! a = Some n -> 0 < k < n ->
  tiles base size (<[a := k]> (<[a + k := n - k]> free)) live.
Proof.
  intros Ht Ha Hk. destruct Ht as [Hpos Hcov Hdis Hap].
  assert (block free live a n) as Hba by (by left).
  assert (forall b m, block free live b m -> b <> a + k) as Hfresh.
  { intros b m Hb ->. destruct (Hdis _ _ _ _ Hb Hba ltac:(lia)); [|lia].
    pose proof (Hpos _ _ Hb). lia. }
  assert (forall b m, block (<[a := k]> (<[a + k := n - k]> free)) live b m <->
    (b = a /\ m = k) \/ (b = a + k /\ m = n - k) \/ (b <> a /\ block free live b m)) as Hb.
  { intros b m. pose proof (Hap _ _ Ha). unfold block in *.
    rewrite !lookup_insert_Some. split.
    - intros [[[<- <-]|[Hne [[<- <-]|[Hne' Hb]]]]|Hb]; eauto 6.
      right. right. split; [|by right]. intros ->. congruence.
    - intros [[-> ->]|[[-> ->]|[Hne [Hb|Hb]]]]; [eauto|left; right; split; [lia|eauto]| |eauto].
      pose proof (Hfresh b m (or_introl Hb)). left. right. split; [done|]. right. split; congruence. }
  split.
  - intros b m. rewrite Hb. intros [[-> ->]|[[-> ->]|[_ ?]]]; [lia|lia|by eapply Hpos].
  - intros p. rewrite Hcov. setoid_rewrite Hb. split.
    + intros (b & m & Hbm & Hp). destruct (decide (b = a)) as [->|].
      * assert (m = n) as -> by (pose proof (Hap _ _ Ha); unfold block in *; naive_solver).
        destruct (decide (p < a + k)); [exists a, k|exists (a + k), (n - k)]; split; eauto; lia.
      * exists b, m. eauto 6.
    + intros (b & m & [[-> ->]|[[-> ->]|[Hne Hbm]]] & Hp).
      * exists a, n. split; [done|lia].
      * exists a, n. split; [done|lia].
      * exists b, m. eauto.
  - intros b m b' m'. rewrite !Hb.
    intros [[-> ->]|[[-> ->]|[Hne Hbm]]] [[-> ->]|[[-> ->]|[Hne' Hbm']]] Hbb; try lia.
    + destruct (Hdis _ _ _ _ Hba Hbm' ltac:(done)); lia.
    + destruct (Hdis _ _ _ _ Hba Hbm' ltac:(done)); [lia|]. right. lia.
    + destruct (Hdis _ _ _ _ Hba Hbm ltac:(done)); lia.
    + destruct (Hdis _ _ _ _ Hba Hbm ltac:(done)); lia.
    + by eapply Hdis.
  - intros b m. rewrite !lookup_insert_Some. intros [[<- _]|[_ [[<- _]|[_ Hbm]]]].
    + by eapply Hap.
    + destruct (live !! (a + k)) eqn:E; [|done]. exfalso. eapply Hfresh; [by right|done].
    + by eapply Hap.
Qed.

(** Two free blocks that touch become one. *)
Lemma tiles_join base size free live a n m :
  tiles base size free live -> free !! a = Some n -> free !! (a + n) = Some m ->
  tiles base size (<[a := n + m]> (delete (a + n) free)) live.
Proof.
  intros [Hpos Hcov Hdis Hap] Ha Hn.
  assert (block free live a n) as Hba by (by left).
  assert (block free live (a + n) m) as Hbn by (by left).
  pose proof (Hpos _ _ Hba) as Hn0. pose proof (Hpos _ _ Hbn) as Hm0.
  pose proof (Hap _ _ Ha) as Hla. pose proof (Hap _ _ Hn) as Hln.
  assert (forall b k, block (<[a := n + m]> (delete (a + n) free)) live b k <->
    (b = a /\ k = n + m) \/ (b <> a /\ b <> a + n /\ block free live b k)) as Hb.
  { intros b k. unfold block in *. rewrite lookup_insert_Some, lookup_delete_Some. split.
    - intros [[[<- <-]|(Hne & Hne' & Hb)]|Hb]; [eauto|eauto 8|].
      right. split; [congruence|]. split; [congruence|eauto].
    - intros [[-> ->]|(Hne & Hne' & [Hb|Hb])]; [eauto|left; right; split_and!; congruence|eauto]. }
  split.
  - intros b k. rewrite Hb. intros [[-> ->]|(_ & _ & ?)]; [lia|by eapply Hpos].
  - intros p. rewrite Hcov. setoid_rewrite Hb. split.
    + intros (b & k & Hbk & Hp). destruct (decide (b = a)) as [->|].
      * assert (k = n) as -> by (unfold block in *; naive_solver).
        exists a, (n + m). split; [eauto|lia].
      * destruct (decide (b = a + n)) as [->|]; [|by exists b, k; eauto 6].
        assert (k = m) as -> by (unfold block in *; naive_solver).
        exists a, (n + m). split; [eauto|lia].
    + intros (b & k & [[-> ->]|(_ & _ & Hbk)] & Hp); [|by exists b, k].
      destruct (decide (p < a + n)); [exists a, n|exists (a + n), m]; split; (done || lia).
  - intros b k b' k'. rewrite !Hb.
    intros [[-> ->]|(Hne & Hne' & Hbk)] [[-> ->]|(Hne2 & Hne2' & Hbk')] Hbb; try lia.
    + pose proof (Hdis _ _ _ _ Hba Hbk' ltac:(done)). pose proof (Hdis _ _ _ _ Hbn Hbk' ltac:(done)).
      pose proof (Hpos _ _ Hbk'). lia.
    + pose proof (Hdis _ _ _ _ Hba Hbk ltac:(done)). pose proof (Hdis _ _ _ _ Hbn Hbk ltac:(done)).
      pose proof (Hpos _ _ Hbk). lia.
    + by eapply Hdis.
  - intros b k. rewrite lookup_insert_Some, lookup_delete_Some.
    intros [[<- _]|(_ & _ & Hbk)]; [done|by eapply Hap].
Qed.

(** * The abstract allocator *)

(** Addresses that are inside the arena and in no live block. *)
Definition gap (base size : Z) (live : gmap Z Z) (a n : Z) : Prop :=
  base <= a /\ a + n <= base + size
  /\ forall b m, live !! b = Some m -> a + n <= b \/ b + m <= a.

Inductive call : Type :=
  | Allocate (bytes : Z)
  | Free (address bytes : Z).

(** The calls of a plain allocator: the live blocks before, the address
    returned and the live blocks after. *)
Inductive spec_step (base size : Z) (live : gmap Z Z) : call -> Z -> gmap Z Z -> Prop :=
  | spec_allocate_nothing : spec_step base size live (Allocate 0) nullptr live
  | spec_allocate bytes a :
      0 < bytes -> gap base size live a (roundBytes bytes) ->
      spec_step base size live (Allocate bytes) a (<[a := roundBytes bytes]> live)
  | spec_allocate_full bytes :
      0 < bytes -> (forall a, ~ gap base size live a (roundBytes bytes)) ->
      spec_step base size live (Allocate bytes) nullptr live
  | spec_free_nothing address bytes :
      address = nullptr \/ bytes = 0 ->
      spec_step base size live (Free address bytes) nullptr live
  | spec_free address bytes :
      address <> nullptr -> 0 < bytes -> live !! address = Some (roundBytes bytes) ->
      spec_step base size live (Free address bytes) nullptr (delete address live).

(** What a client may call: sizes that have a power of two above them, and
    frees of live blocks. *)
Definition permitted (live : gmap Z Z) (c : call) : Prop :=
  match c with
  | Allocate bytes => 0 <= bytes <= 2 ^ 63
  | Free address bytes =>
      address = nullptr \/ bytes = 0
      \/ 0 < bytes <= 2 ^ 63 /\ live !! address = Some (roundBytes bytes)
  end.

Definition arena_call (first_of : gset Z -> Z) (s : MmapArena) (c : call)
    : result (MmapArena * Z) :=
  match c with
  | Allocate bytes => allocate first_of s bytes
  | Free address bytes => let! s := free s address bytes in Ok (s, nullptr)
  end.

(** ** The relation of the arena to the live blocks *)

(** What holds also while [free] merges blocks. *)
Record accounts (s : MmapArena) (live : gmap Z Z) : Prop := {
  r_base : 0 < address_ s /\ address_ s + byteSize_ s < 2 ^ 64;
  r_tiles : tiles (address_ s) (byteSize_ s) (freeList_ s) live;
  r_lookup : lookup_ok (freeLookup_ s) (freeList_ s);
  r_free : freeBytes_ s = map_sum (freeList_ s);
  r_total : map_sum (freeList_ s) + map_sum live = byteSize_ s
}.

Record refines (s : MmapArena) (live : gmap Z Z) : Prop := {
  r_accounts :> accounts s live;
  r_coalesced : coalesced (freeList_ s)
}.

Lemma roundBytes_bounds bytes :
  0 < bytes <= 2 ^ 63 -> bytes <= roundBytes bytes <= 2 ^ 63 /\ roundBytes bytes < 2 * bytes.
Proof.
  intros H. unfold roundBytes. destruct (nextPowerOfTwo_spec bytes H) as (k & Hk & -> & Hb).
  assert (2 ^ k <= 2 ^ 63) by (apply Z.pow_le_mono_r; lia). lia.
Qed.

(** A gap lies in one free block, because free blocks that touch are merged. *)
Lemma gap_in_block base size free live a n :
  tiles base size free live -> coalesced free -> gap base size live a n -> 0 < n ->
  exists c k, free !! c = Some k /\ c <= a /\ a + n <= c + k.
Proof.
  intros [Hpos Hcov Hdis Hap] Hco (Hlo & Hhi & Hgap) Hn.
  assert (forall p, a <= p < a + n -> exists c k, free !! c = Some k /\ c <= p < c + k) as Hfree.
  { intros p Hp. destruct (proj1 (Hcov p) ltac:(lia)) as (c & k & [Hc|Hc] & Hpc); [eauto|].
    destruct (Hgap _ _ Hc); lia. }
  destruct (Hfree a ltac:(lia)) as (c & k & Hc & Hac). exists c, k. split; [done|].
  split; [lia|]. apply Z.nlt_ge. intros Hlt.
  destruct (Hfree (c + k) ltac:(lia)) as (d & j & Hd & Hdc).
  assert (d <> c) as Hne by (intros ->; simplify_eq; lia).
  assert (d = c + k) as -> by (destruct (Hdis c k d j (or_introl Hc) (or_introl Hd)); lia).
  by rewrite (Hco _ _ Hc) in Hd.
Qed.

Lemma free_block_bounds s live a n :
  accounts s live -> freeList_ s !! a = Some n ->
  0 < n /\ 0 < a /\ a + n < 2 ^ 64 /\ n <= freeBytes_ s < 2 ^ 64.
Proof.
  intros [Hbase Ht _ Hfree Htot] Ha.
  assert (block (freeList_ s) live a n) as Hb by (by left).
  pose proof (tile_pos _ _ _ _ Ht _ _ Hb). pose proof (tile_within _ _ _ _ _ _ Ht Hb).
  pose proof (map_sum_lookup _ _ _ Ha ltac:(intros k m Hk;
    pose proof (tile_pos _ _ _ _ Ht k m (or_introl Hk)); lia)).
  pose proof (map_sum_nonneg live ltac:(intros k m Hk;
    pose proof (tile_pos _ _ _ _ Ht k m (or_intror Hk)); lia)). lia.
Qed.

Lemma block_gap base size free live a n k :
  tiles base size free live -> free !! a = Some n -> 0 < k <= n -> gap base size live a k.
Proof.
  intros Ht Ha Hk. assert (block free live a n) as Hb by (by left).
  pose proof (tile_within _ _ _ _ _ _ Ht Hb). split; [lia|]. split; [lia|].
  intros b m Hm. destruct (decide (a = b)) as [->|Hne].
  - by rewrite (tile_apart _ _ _ _ Ht _ _ Ha) in Hm.
  - destruct (tile_disjoint _ _ _ _ Ht a n b m Hb (or_intror Hm) Hne); lia.
Qed.

(** Taking a whole free block. *)
Lemma take_block s live a n :
  refines s live -> freeList_ s !! a = Some n ->
  refines (removeFreeBlock (with_freeBytes s (wrap_unsigned 64 (freeBytes_ s - n))) a n)
    (<[a := n]> live).
Proof.
  intros Hr Ha. pose proof (free_block_bounds _ _ _ _ Hr Ha) as Hb.
  destruct Hr as [[Hbase Ht Hl Hfree Htot] Hco].
  rewrite wrap_unsigned_id by lia.
  split; [split|]; simpl.
  - done.
  - by apply tiles_take.
  - by apply lookup_ok_erase.
  - rewrite (map_sum_delete _ _ n) by done. lia.
  - rewrite (map_sum_delete _ _ n) by done.
    rewrite map_sum_insert by (by eapply tile_apart). lia.
  - intros b m [_ Hbm]%lookup_delete_Some. apply lookup_delete_None. right. by eapply Hco.
Qed.

(** Splitting a free block gives an arena that refines the same live blocks,
    but for the two parts that touch. *)
Lemma take_part s live a n k :
  refines s live -> freeList_ s !! a = Some n -> 0 < k < n ->
  exists s',
    addFreeBlock (with_freeBytes s (wrap_unsigned 64 (freeBytes_ s - k)))
      (wrap_unsigned 64 (a + k)) (wrap_unsigned 64 (n - k)) = Ok s'
    /\ refines (removeFreeBlock s' a n) (<[a := k]> live).
Proof.
  intros Hr Ha Hk. pose proof (free_block_bounds _ _ _ _ Hr Ha) as Hb.
  destruct Hr as [[Hbase Ht Hl Hfree Htot] Hco]. rewrite !wrap_unsigned_id by lia.
  pose proof (tiles_split _ _ _ _ _ _ k Ht Ha Hk) as Hs.
  assert (freeList_ s !! (a + k) = None) as Hnone.
  { destruct (freeList_ s !! (a + k)) as [m|] eqn:E; [|done].
    pose proof (tile_pos _ _ _ _ Ht (a + k) m (or_introl E)).
    destruct (tile_disjoint _ _ _ _ Ht a n (a + k) m); try (by left); lia. }
  unfold addFreeBlock. simpl. rewrite Hnone. eexists. split; [done|].
  assert (delete a (<[a + k := n - k]> (freeList_ s))
          = delete a (<[a := k]> (<[a + k := n - k]> (freeList_ s)))) as HF
    by (by rewrite delete_insert_eq).
  split; [split|]; simpl.
  - done.
  - rewrite HF. apply tiles_take; [done|]. by rewrite lookup_insert_eq.
  - apply lookup_ok_erase; [by rewrite lookup_insert_ne by lia|]. by apply lookup_ok_emplace.
  - rewrite (map_sum_delete _ _ n) by (by rewrite lookup_insert_ne by lia).
    rewrite map_sum_insert by done. lia.
  - rewrite (map_sum_delete _ _ n) by (by rewrite lookup_insert_ne by lia).
    rewrite (map_sum_insert (freeList_ s)) by done.
    rewrite (map_sum_insert live) by exact (tile_apart _ _ _ _ Ht _ _ Ha). lia.
  - intros b m [Hne [[<- <-]|[Hne' Hbm]]%lookup_insert_Some]%lookup_delete_Some;
      apply lookup_delete_None; right; rewrite lookup_insert_ne.
    + replace (a + k + (n - k)) with (a + n) by lia. by eapply Hco.
    + lia.
    + by eapply Hco.
    + pose proof (tile_pos _ _ _ _ Ht b m (or_introl Hbm)).
      destruct (tile_disjoint _ _ _ _ Ht a n b m); try (by left); lia.
Qed.

Section refinement.
Context (first_of : gset Z -> Z).
(** [begin()] of a set that is not empty points to an element of it. *)
Hypothesis first_of_elem : forall X, X ≠ ∅ -> first_of X ∈ X.

Lemma allocate_refines s live bytes :
  refines s live -> 0 <= bytes <= 2 ^ 63 ->
  exists s' a live', allocate first_of s bytes = Ok (s', a)
    /\ spec_step (address_ s) (byteSize_ s) live (Allocate bytes) a live'
    /\ refines s' live' /\ address_ s' = address_ s /\ byteSize_ s' = byteSize_ s.
Proof.
  intros Hr Hb. unfold allocate. destruct (bytes =? 0) eqn:E0.
  { apply Z.eqb_eq in E0 as ->. exists s, nullptr, live. by split_and!; [|constructor|..]. }
  pose proof (roundBytes_bounds bytes ltac:(lia)) as Hround.
  pose proof (lookup_lower_bound _ _ (roundBytes bytes) (r_lookup _ _ Hr)) as Hlb.
  destruct (map_lower_bound _ _) as [[n X]|].
  - destruct Hlb as (Hle & HX & Hin).
    specialize (Hin _ (first_of_elem X HX)). set (a := first_of X) in *. clearbody a.
    pose proof (block_gap _ _ _ _ a n (roundBytes bytes) (r_tiles _ _ Hr) Hin ltac:(lia)).
    destruct (n =? roundBytes bytes) eqn:E.
    + apply Z.eqb_eq in E. exists (removeFreeBlock
        (with_freeBytes s (wrap_unsigned 64 (freeBytes_ s - n))) a n), a, (<[a := n]> live).
      rewrite <- E in *. split_and!; try done; [|by apply take_block].
      rewrite E. constructor; [lia|by rewrite <- E].
    + destruct (take_part s live a n (roundBytes bytes) Hr Hin ltac:(lia)) as (s' & Hs' & Hr').
      cbv zeta. rewrite Hs'. cbn [rbind]. eexists _, a, _. split; [done|].
      split; [constructor; [lia|done]|]. split; [exact Hr'|].
      unfold addFreeBlock in Hs'. simpl in Hs'. case_match; [done|]. by simplify_eq.
  - exists s, nullptr, live. split; [done|]. split; [|by split_and!].
    apply spec_allocate_full; [lia|]. intros a Hg.
    destruct (gap_in_block _ _ _ _ _ _ (r_tiles _ _ Hr) (r_coalesced _ _ Hr) Hg ltac:(lia))
      as (c & k & Hc & Hca & Hk). specialize (Hlb _ _ Hc). lia.
Qed.

(** ** Freeing *)

Lemma join_sum F a n m :
  F !! a = Some n -> F !! (a + n) = Some m -> 0 < n ->
  map_sum (<[a := n + m]> (delete (a + n) F)) = map_sum F.
Proof.
  intros Ha Hn Hpos.
  rewrite <- (insert_delete_eq (delete (a + n) F)).
  rewrite map_sum_insert by apply lookup_delete_eq.
  rewrite (map_sum_delete _ a n) by (by rewrite lookup_delete_ne by lia).
  rewrite (map_sum_delete _ _ m) by done. lia.
Qed.

(** The block that is freed is entered, before it is merged. *)
Lemma give_block s live a n :
  refines s live -> live !! a = Some n ->
  exists s', addFreeBlock (with_freeBytes s (wrap_unsigned 64 (freeBytes_ s + n))) a n = Ok s'
    /\ accounts s' (delete a live) /\ freeList_ s' = <[a := n]> (freeList_ s)
    /\ freeList_ s !! a = None
    /\ address_ s' = address_ s /\ byteSize_ s' = byteSize_ s.
Proof.
  intros [[Hbase Ht Hl Hfree Htot] Hco] Ha.
  assert (freeList_ s !! a = None) as Hnone.
  { destruct (freeList_ s !! a) eqn:E; [|done]. by rewrite (tile_apart _ _ _ _ Ht _ _ E) in Ha. }
  pose proof (map_sum_lookup _ _ _ Ha ltac:(intros k m Hk;
    pose proof (tile_pos _ _ _ _ Ht k m (or_intror Hk)); lia)).
  pose proof (map_sum_nonneg (freeList_ s) ltac:(intros k m Hk;
    pose proof (tile_pos _ _ _ _ Ht k m (or_introl Hk)); lia)).
  pose proof (tile_pos _ _ _ _ Ht a n (or_intror Ha)).
  rewrite wrap_unsigned_id by lia.
  unfold addFreeBlock. simpl. rewrite Hnone. eexists. split; [done|]. split_and!; try done.
  split; simpl.
  - done.
  - by apply tiles_give.
  - by apply lookup_ok_emplace.
  - rewrite map_sum_insert by done. lia.
  - rewrite map_sum_insert, (map_sum_delete live _ n) by done. lia.
Qed.

(** Merging with one neighbour. *)
Lemma join_accounts s live a n m size :
  accounts s live -> freeList_ s !! a = Some n -> freeList_ s !! (a + n) = Some m ->
  size = n + m ->
  accounts (set_free_size (removeFromLookup (removeFreeBlock s (a + n) m) a n) a size) live.
Proof.
  intros Hacc Ha Hn ->. pose proof (free_block_bounds _ _ _ _ Hacc Ha) as Hb.
  destruct Hacc as [Hbase Ht Hl Hfree Htot].
  split; simpl.
  - done.
  - by apply tiles_join.
  - rewrite <- (insert_delete_eq (delete (a + n) _)). apply lookup_ok_emplace; [apply lookup_delete_eq|].
    apply lookup_ok_erase; [by rewrite lookup_delete_ne by lia|]. by apply lookup_ok_erase.
  - rewrite join_sum by (done || lia). done.
  - rewrite join_sum by (done || lia). done.
Qed.

(** Merging with both. *)
Lemma join_both_accounts s live p k n m size :
  accounts s live -> freeList_ s !! p = Some k -> freeList_ s !! (p + k) = Some n ->
  freeList_ s !! (p + k + n) = Some m -> size = k + n + m ->
  accounts
    (set_free_size
       (removeFreeBlock (removeFromLookup (removeFreeBlock s (p + k) n) p k) (p + k + n) m)
       p size) live.
Proof.
  intros Hacc Hp Hk Hn ->.
  pose proof (free_block_bounds _ _ _ _ Hacc Hp). pose proof (free_block_bounds _ _ _ _ Hacc Hk).
  destruct Hacc as [Hbase Ht Hl Hfree Htot].
  pose proof (tiles_join _ _ _ _ _ _ _ Ht Hk Hn) as Ht1.
  set (F1 := <[p + k := n + m]> (delete (p + k + n) (freeList_ s))) in *.
  assert (F1 !! p = Some k) as HF1p
    by (unfold F1; by rewrite lookup_insert_ne, lookup_delete_ne by lia).
  assert (F1 !! (p + k) = Some (n + m)) as HF1k by (unfold F1; by rewrite lookup_insert_eq).
  assert (<[p := k + n + m]> (delete (p + k + n) (delete (p + k) (freeList_ s)))
          = <[p := k + (n + m)]> (delete (p + k) F1)) as HF.
  { unfold F1. rewrite delete_insert_eq, delete_delete. by rewrite Z.add_assoc. }
  split; simpl.
  - done.
  - rewrite HF. by apply tiles_join.
  - rewrite <- (insert_delete_eq (delete (p + k + n) _)).
    apply lookup_ok_emplace; [apply lookup_delete_eq|]. rewrite delete_delete.
    apply lookup_ok_erase; [by rewrite !lookup_delete_ne by lia|].
    apply lookup_ok_erase; [by rewrite lookup_delete_ne by lia|].
    by apply lookup_ok_erase.
  - rewrite HF, join_sum by (done || lia). unfold F1. rewrite join_sum by (done || lia). done.
  - rewrite HF, join_sum by (done || lia). unfold F1. rewrite join_sum by (done || lia). done.
Qed.

(** ** The neighbours of the block that is freed *)

Section neighbours.
Context (base size : Z) (F live : gmap Z Z) (c b : Z).
Hypothesis Hnone : F !! c = None.
Hypothesis Ht : tiles base size (<[c := b]> F) live.
Hypothesis Hbase : 0 < base /\ base + size < 2 ^ 64.
Hypothesis Hco : coalesced F.

Lemma neighbour_block x m : F !! x = Some m -> block (<[c := b]> F) live x m.
Proof. intros Hx. left. rewrite lookup_insert_ne; congruence. Qed.

Lemma neighbour_pos x m : F !! x = Some m -> 0 < m /\ 0 < x /\ x + m < 2 ^ 64.
Proof.
  intros Hx%neighbour_block. pose proof (tile_pos _ _ _ _ Ht _ _ Hx).
  pose proof (tile_within _ _ _ _ _ _ Ht Hx). lia.
Qed.

Lemma current_block : 0 < b /\ 0 < c /\ c + b < 2 ^ 64.
Proof.
  assert (block (<[c := b]> F) live c b) as Hb by (left; by rewrite lookup_insert_eq).
  pose proof (tile_pos _ _ _ _ Ht _ _ Hb). pose proof (tile_within _ _ _ _ _ _ Ht Hb). lia.
Qed.

Lemma neighbour_apart x m : F !! x = Some m -> x + m <= c \/ c + b <= x.
Proof.
  intros Hx. destruct (tile_disjoint _ _ _ _ Ht x m c b (neighbour_block _ _ Hx));
    [left; by rewrite lookup_insert_eq|congruence|by left|by right].
Qed.

(** The check of the previous block passes, and what is merged is the block
    that ends where the new one starts. *)
Lemma prev_merged :
  exists mergePrev,
    match map_prev (<[c := b]> F) c with
    | Some (prevAddr, prevBytes) =>
        let prevEndAddr := wrap_unsigned 64 (prevAddr + prevBytes) in
        check! prevEndAddr <=? c in
        Ok (if prevEndAddr =? c then Some (prevAddr, prevBytes) else None)
    | None => Ok None
    end = Ok mergePrev
    /\ match mergePrev with
       | Some (p, k) => F !! p = Some k /\ p + k = c
       | None => forall x m, F !! x = Some m -> x + m <> c
       end.
Proof.
  pose proof (map_prev_spec (<[c := b]> F) c) as Hp. pose proof current_block as Hcur.
  destruct (map_prev _ c) as [[p k]|].
  - destruct Hp as (Hp & Hpc & Hmax). rewrite lookup_insert_ne in Hp by lia.
    pose proof (neighbour_pos _ _ Hp) as Hpos. pose proof (neighbour_apart _ _ Hp).
    cbv zeta. rewrite wrap_unsigned_id by lia. replace (p + k <=? c) with true by lia.
    cbn [check rbind]. eexists. split; [done|].
    destruct (p + k =? c) eqn:E; [split; [done|lia]|].
    intros x m Hx Hxm. pose proof (neighbour_pos _ _ Hx).
    specialize (Hmax x m ltac:(rewrite lookup_insert_ne; [done|lia]) ltac:(lia)).
    assert (x <> p) by (intros ->; simplify_eq; lia).
    destruct (tile_disjoint _ _ _ _ Ht x m p k (neighbour_block _ _ Hx) (neighbour_block _ _ Hp));
      lia.
  - eexists. split; [done|]. intros x m Hx Hxm. pose proof (neighbour_pos _ _ Hx).
    assert (x < c) as Hlt by lia. assert (<[c := b]> F !! x = Some m) as Hx'
      by (rewrite lookup_insert_ne; [done|lia]). specialize (Hp _ _ Hx'). lia.
Qed.

Lemma next_merged :
  exists mergeNext,
    match map_next (<[c := b]> F) c with
    | Some (nextAddr, nextBytes) =>
        let curEndAddr := wrap_unsigned 64 (c + b) in
        check! curEndAddr <=? nextAddr in
        Ok (if curEndAddr =? nextAddr then Some (nextAddr, nextBytes) else None)
    | None => Ok None
    end = Ok mergeNext
    /\ match mergeNext with
       | Some (q, k) => F !! q = Some k /\ q = c + b
       | None => F !! (c + b) = None
       end.
Proof.
  pose proof (map_next_spec (<[c := b]> F) c) as Hp. pose proof current_block as Hcur.
  destruct (map_next _ c) as [[q k]|].
  - destruct Hp as (Hq & Hqc & Hmin). rewrite lookup_insert_ne in Hq by lia.
    pose proof (neighbour_pos _ _ Hq) as Hpos. pose proof (neighbour_apart _ _ Hq).
    cbv zeta. rewrite wrap_unsigned_id by lia. replace (c + b <=? q) with true by lia.
    cbn [check rbind]. eexists. split; [done|].
    destruct (c + b =? q) eqn:E; [split; [done|lia]|].
    destruct (F !! (c + b)) as [m|] eqn:Hx; [|done].
    specialize (Hmin (c + b) m ltac:(rewrite lookup_insert_ne; [done|lia]) ltac:(lia)). lia.
  - eexists. split; [done|]. destruct (F !! (c + b)) as [m|] eqn:Hx; [|done].
    assert (<[c := b]> F !! (c + b) = Some m) as Hx' by (rewrite lookup_insert_ne; [done|lia]).
    specialize (Hp _ _ Hx'). lia.
Qed.
End neighbours.

(** After merging no free blocks touch. *)
Lemma merge_coalesced s live c b F mergePrev mergeNext :
  accounts s live -> freeList_ s = <[c := b]> F -> F !! c = None -> coalesced F ->
  match mergePrev with
  | Some (p, k) => F !! p = Some k /\ p + k = c
  | None => forall x m, F !! x = Some m -> x + m <> c
  end ->
  match mergeNext with
  | Some (q, k) => F !! q = Some k /\ q = c + b
  | None => F !! (c + b) = None
  end ->
  refines (merge_neighbours s c b mergePrev mergeNext) live.
Proof.
  intros Hacc HF Hnone Hco Hp Hn. pose proof (r_base _ _ Hacc) as Hbase.
  pose proof (r_tiles _ _ Hacc) as Ht. rewrite HF in Ht.
  pose proof (current_block _ _ _ _ _ _ Ht Hbase) as Hcur.
  pose proof (neighbour_pos _ _ _ _ _ _ Hnone Ht Hbase) as Hpos.
  assert (freeList_ s !! c = Some b) as Hc by (rewrite HF; by rewrite lookup_insert_eq).
  assert (forall x m, F !! x = Some m -> freeList_ s !! x = Some m) as Hsub
    by (intros x m Hx; rewrite HF, lookup_insert_ne; congruence).
  unfold merge_neighbours. destruct mergePrev as [[p k]|].
  - destruct Hp as [Hp <-]. pose proof (Hpos _ _ Hp).
    destruct mergeNext as [[q m]|].
    + destruct Hn as [Hq ->]. pose proof (Hpos _ _ Hq). split.
      * apply join_both_accounts; auto. rewrite wrap_unsigned_id; lia.
      * simpl. rewrite HF, delete_insert_id by done. rewrite wrap_unsigned_id by lia.
        intros x j [[<- <-]|[Hne [Hne' Hx]%lookup_delete_Some]]%lookup_insert_Some.
        -- rewrite lookup_insert_ne by lia. apply lookup_delete_None. right.
           replace (p + (p + k + b - p + m)) with (p + k + b + m) by lia. by eapply Hco.
        -- specialize (Hco _ _ Hx). rewrite lookup_insert_ne by congruence.
           apply lookup_delete_None. by right.
    + split.
      * apply join_accounts; auto. rewrite wrap_unsigned_id; lia.
      * simpl. rewrite HF, delete_insert_id by done. rewrite wrap_unsigned_id by lia.
        intros x j [[<- <-]|[Hne Hx]]%lookup_insert_Some.
        -- rewrite lookup_insert_ne by lia. by replace (p + (p + k - p + b)) with (p + k + b) by lia.
        -- specialize (Hco _ _ Hx). by rewrite lookup_insert_ne by congruence.
  - destruct mergeNext as [[q m]|].
    + destruct Hn as [Hq ->]. pose proof (Hpos _ _ Hq). split.
      * apply join_accounts; auto. rewrite wrap_unsigned_id; lia.
      * simpl. rewrite HF. rewrite wrap_unsigned_id by lia.
        intros x j [[<- <-]|[Hne Hx]]%lookup_insert_Some.
        -- rewrite lookup_insert_ne by lia. apply lookup_delete_None. right.
           replace (c + (c + b - c + m)) with (c + b + m) by lia.
           rewrite lookup_insert_ne by lia. by eapply Hco.
        -- apply lookup_delete_Some in Hx as [Hne' Hx]. rewrite lookup_insert_ne in Hx by done.
           specialize (Hp _ _ Hx). rewrite lookup_insert_ne by done. apply lookup_delete_None.
           right. rewrite lookup_insert_ne by done. by eapply Hco.
    + split; [done|]. rewrite HF. intros x j [[<- <-]|[Hne Hx]]%lookup_insert_Some.
      * by rewrite lookup_insert_ne by lia.
      * rewrite lookup_insert_ne; [by eapply Hco|]. intros E. by apply (Hp _ _ Hx).
Qed.

Lemma free_refines s live a bytes :
  refines s live -> 0 < bytes <= 2 ^ 63 -> live !! a = Some (roundBytes bytes) ->
  exists s', free s a bytes = Ok s' /\ refines s' (delete a live)
    /\ address_ s' = address_ s /\ byteSize_ s' = byteSize_ s.
Proof.
  intros Hr Hb Ha. unfold free.
  destruct (give_block s live a (roundBytes bytes) Hr Ha)
    as (s1 & Hs1 & Hacc & HF & Hnone & Haddr & Hsize).
  pose proof (r_tiles _ _ Hacc) as Ht. rewrite HF in Ht.
  pose proof (r_base _ _ Hacc) as Hbase.
  pose proof (current_block _ _ _ _ _ _ Ht Hbase) as Hcur.
  replace ((a =? nullptr) || (bytes =? 0)) with false by zbool.
  cbv zeta. rewrite Hs1. cbn [rbind]. rewrite HF.
  destruct (prev_merged _ _ _ _ _ _ Hnone Ht Hbase) as (mergePrev & Ep & Hp).
  destruct (next_merged _ _ _ _ _ _ Hnone Ht Hbase) as (mergeNext & En & Hn).
  cbv zeta in Ep, En. rewrite Ep. cbn [rbind]. rewrite En. cbn [rbind]. eexists. split; [done|].
  split; [eapply merge_coalesced; eauto; apply Hr|].
  unfold merge_neighbours. destruct mergePrev as [[]|], mergeNext as [[]|]; done.
Qed.
End refinement.

(** * The consistency check *)

Lemma fold_add_const {A} (f : Z -> A -> Z) (m : gmap Z A) acc :
  (forall k v, m !! k = Some v -> f k v = 0) ->
  map_fold (fun k v n => n + f k v) acc m = acc.
Proof.
  intros Hf. revert Hf.
  apply (map_fold_weak_ind (fun r m => (forall k v, m !! k = Some v -> f k v = 0) -> r = acc));
    [done|].
  intros k v m' r Hk IH Hf. rewrite IH; [rewrite (Hf k v) by apply lookup_insert_eq; lia|].
  intros k' v' Hk'. apply Hf. rewrite lookup_insert_ne; congruence.
Qed.

Definition table_bytes (lookup : gmap Z (gset Z)) : Z :=
  map_fold (fun size (addresses : gset Z) n => n + size * Z.of_nat (base.size addresses))
    0 lookup.

Lemma table_bytes_insert lookup n X :
  lookup !! n = None ->
  table_bytes (<[n := X]> lookup) = table_bytes lookup + n * Z.of_nat (base.size X).
Proof. intros Hn. unfold table_bytes. rewrite map_fold_insert_L; [done| |done]. intros. lia. Qed.

Lemma table_bytes_erase lookup n a :
  a ∈ default ∅ (lookup !! n) ->
  table_bytes lookup = n + table_bytes (lookup_erase n a lookup).
Proof.
  intros Ha. destruct (lookup !! n) as [X|] eqn:HX; simpl in Ha; [|set_solver].
  rewrite <- (insert_delete_id lookup n X HX) at 1.
  rewrite table_bytes_insert by apply lookup_delete_eq.
  assert (base.size X = S (base.size (X ∖ {[a]}))) as Hsize.
  { rewrite (union_difference_singleton_L a X Ha) at 1.
    by rewrite size_union, size_singleton by set_solver. }
  unfold lookup_erase. rewrite HX. simpl. case_decide as He.
  - rewrite Hsize, He, size_empty. lia.
  - rewrite <- (insert_delete_eq lookup).
    rewrite table_bytes_insert by apply lookup_delete_eq. lia.
Qed.

Lemma table_bytes_sum lookup blocks :
  lookup_ok lookup blocks -> table_bytes lookup = map_sum blocks.
Proof.
  revert lookup. induction blocks as [|a n blocks Ha IH] using map_ind; intros lookup Hok.
  - assert (lookup = ∅) as ->; [|done]. apply map_empty. intros n.
    destruct (lookup !! n) as [X|] eqn:HX; [|done]. exfalso. destruct Hok as [Hl Hne].
    apply (Hne _ _ HX). apply leibniz_equiv, equiv_empty. intros a Ha.
    specialize (Hl n a). rewrite HX in Hl. simpl in Hl. apply Hl in Ha.
    by rewrite lookup_empty in Ha.
  - rewrite map_sum_insert by done.
    assert (a ∈ default ∅ (lookup !! n)) as Hin by (apply Hok; by rewrite lookup_insert_eq).
    rewrite (table_bytes_erase lookup n a Hin), (IH (lookup_erase n a lookup)); [done|].
    rewrite <- (delete_insert_id blocks a n Ha).
    apply lookup_ok_erase; [by rewrite lookup_insert_eq|done].
Qed.

Lemma block_errors_none s live a n :
  refines s live -> freeList_ s !! a = Some n -> block_errors s a n = 0.
Proof.
  intros Hr Ha. pose proof (free_block_bounds _ _ _ _ Hr Ha) as Hb.
  destruct Hr as [[Hbase Ht Hl Hfree Htot] Hco]. unfold block_errors.
  rewrite decide_True by (by apply Hl).
  assert (block (freeList_ s) live a n) as Hba by (by left).
  pose proof (tile_within _ _ _ _ _ _ Ht Hba).
  rewrite !wrap_unsigned_id by lia. replace (_ >? _) with false by lia.
  pose proof (map_next_spec (freeList_ s) a) as Hn. destruct (map_next _ a) as [[q m]|]; [|done].
  destruct Hn as (Hq & Hlt & _).
  pose proof (tile_pos _ _ _ _ Ht q m (or_introl Hq)).
  destruct (tile_disjoint _ _ _ _ Ht a n q m Hba (or_introl Hq)); [lia| |lia].
  by replace (a + n >? q) with false by lia.
Qed.

Lemma refines_consistent s live : refines s live -> checkConsistency s = true.
Proof.
  intros Hr. unfold checkConsistency.
  rewrite (fold_add_const (block_errors s)) by (intros; by eapply block_errors_none).
  rewrite (fold_add_const (fun _ (addresses : gset Z) => if decide (addresses = ∅) then 1 else 0)).
  2: { intros n X HX. rewrite decide_False; [done|]. by eapply (r_lookup _ _ Hr). }
  change (map_fold _ 0 (freeLookup_ s)) with (table_bytes (freeLookup_ s)).
  rewrite (table_bytes_sum _ _ (r_lookup _ _ Hr)), (r_free _ _ Hr).
  by rewrite Z.eqb_refl.
Qed.

(** * Sessions *)

Lemma fresh_arena ptr capacity :
  0 < ptr -> 0 < capacity -> ptr + capacity < 2 ^ 64 ->
  Z.rem capacity kMinGrainSizeBytes = 0 ->
  exists s, make_MmapArena (Some ptr) capacity = Ok s /\ refines s ∅
    /\ address_ s = ptr /\ byteSize_ s = capacity.
Proof.
  intros Hp Hc Hend Hrem. unfold make_MmapArena. rewrite Hrem. cbn [check rbind Z.eqb].
  unfold addFreeBlock. simpl freeList_. rewrite lookup_empty. cbn [rbind].
  eexists. split; [done|]. split; [|done].
  assert (map_sum (<[ptr := capacity]> ∅) = capacity) as Hsum
    by (rewrite map_sum_insert by apply lookup_empty; rewrite map_sum_empty; lia).
  split; [split|]; simpl.
  - lia.
  - assert (forall a n, block (<[ptr := capacity]> ∅) ∅ a n <-> a = ptr /\ n = capacity) as Hb.
    { intros a n. unfold block. rewrite lookup_insert_Some, !lookup_empty. naive_solver. }
    split.
    + intros a n. rewrite Hb. lia.
    + intros p. setoid_rewrite Hb. split; [|naive_solver lia].
      intros. exists ptr, capacity. split; [done|lia].
    + intros a n b m. rewrite !Hb. lia.
    + intros a n _. apply lookup_empty.
  - apply lookup_ok_emplace; [apply lookup_empty|]. split.
    + intros n a. rewrite !lookup_empty. simpl. set_solver.
    + intros n X. by rewrite lookup_empty.
  - done.
  - rewrite map_sum_empty, Hsum. lia.
  - intros a n [[<- <-]|[_ Ha]]%lookup_insert_Some; [|by rewrite lookup_empty in Ha].
    rewrite lookup_insert_ne by lia. apply lookup_empty.
Qed.

(** The live blocks are determined by the calls and what they return. *)
Lemma spec_step_deterministic base size live c r live1 live2 :
  0 < base -> spec_step base size live c r live1 -> spec_step base size live c r live2 ->
  live1 = live2.
Proof.
  intros Hb H1 H2. inversion H1; subst; inversion H2; subst; try done; try lia.
  all: by match goal with H : gap _ _ _ nullptr _ |- _ => destruct H as [? _]; lia end.
Qed.

(** One call of the arena is one call of the plain allocator. *)
Lemma call_refines first_of s live c :
  (forall X, X ≠ ∅ -> first_of X ∈ X) -> refines s live -> permitted live c ->
  exists s' r live', arena_call first_of s c = Ok (s', r)
    /\ spec_step (address_ s) (byteSize_ s) live c r live' /\ refines s' live'
    /\ address_ s' = address_ s /\ byteSize_ s' = byteSize_ s.
Proof.
  intros Hf Hr Hp. destruct c as [bytes|a bytes]; simpl in *.
  - destruct (allocate_refines first_of Hf s live bytes Hr Hp)
      as (s' & r & live' & -> & ? & ? & ? & ?). by exists s', r, live'.
  - destruct (decide (a = nullptr \/ bytes = 0)) as [Hn|Hn].
    + exists s, nullptr, live. unfold free. replace (_ || _) with true by zbool.
      split; [done|]. split; [by constructor|done].
    + destruct Hp as [?|[?|[Hb Ha]]]; [naive_solver..|].
      destruct (free_refines s live a bytes Hr Hb Ha) as (s' & -> & Hr' & ? & ?).
      exists s', nullptr, (delete a live). split; [done|].
      split; [constructor; [naive_solver|lia|done]|done].
Qed.

(** The states an arena can be in when its clients free only what is live. *)
Inductive session (first_of : gset Z -> Z) : MmapArena -> gmap Z Z -> Prop :=
  | session_start ptr capacity s :
      0 < ptr -> 0 < capacity -> ptr + capacity < 2 ^ 64 ->
      make_MmapArena (Some ptr) capacity = Ok s ->
      session first_of s ∅
  | session_call s live c s' r live' :
      session first_of s live -> permitted live c ->
      arena_call first_of s c = Ok (s', r) ->
      spec_step (address_ s) (byteSize_ s) live c r live' ->
      session first_of s' live'.

Lemma session_refines first_of s live :
  (forall X, X ≠ ∅ -> first_of X ∈ X) -> session first_of s live -> refines s live.
Proof.
  intros Hf. induction 1 as [ptr capacity s Hp Hc Hend Hs|s live c s' r live' _ IH Hperm Hcall Hstep].
  - destruct (Z.eqb_spec (Z.rem capacity kMinGrainSizeBytes) 0) as [Hrem|Hrem].
    + destruct (fresh_arena ptr capacity Hp Hc Hend Hrem) as (s' & Hs' & Hr & _). congruence.
    + unfold make_MmapArena in Hs. apply Z.eqb_neq in Hrem. by rewrite Hrem in Hs.
  - destruct (call_refines first_of s live c Hf IH Hperm)
      as (s1 & r1 & live1 & Hcall1 & Hstep1 & Hr1 & _).
    rewrite Hcall in Hcall1. injection Hcall1 as <- <-.
    assert (live' = live1) as ->; [|done].
    eapply spec_step_deterministic; [apply IH|exact Hstep|exact Hstep1].
Qed.

(** * Frees that are rejected *)

Lemma overlap_rejected s live a bytes c k :
  refines s live -> a <> nullptr -> 0 < bytes <= 2 ^ 63 -> 0 <= a ->
  a + roundBytes bytes < 2 ^ 64 ->
  freeList_ s !! c = Some k -> c < a + roundBytes bytes -> a < c + k ->
  free s a bytes = Err CheckFailed.
Proof.
  intros Hr Hnull Hb Ha0 Hend Hc Hlo Hhi. pose proof (roundBytes_bounds bytes Hb) as Hround.
  set (n := roundBytes bytes) in *. unfold free. fold n. clearbody n.
  replace ((a =? nullptr) || (bytes =? 0)) with false by zbool.
  cbv zeta. unfold addFreeBlock. simpl freeList_.
  destruct (freeList_ s !! a) as [j|] eqn:Hnone; [done|]. cbn [rbind]. simpl freeList_.
  pose proof (r_tiles _ _ Hr) as Ht.
  assert (forall x m, freeList_ s !! x = Some m -> 0 < m /\ 0 < x /\ x + m < 2 ^ 64) as Hpos
    by (intros x m Hx; pose proof (free_block_bounds _ _ _ _ Hr Hx); lia).
  assert (c <> a) as Hne by congruence.
  assert (<[a := n]> (freeList_ s) !! c = Some k) as Hc' by (by rewrite lookup_insert_ne by done).
  pose proof (map_prev_spec (<[a := n]> (freeList_ s)) a) as Hp.
  destruct (map_prev _ a) as [[p pk]|].
  - destruct Hp as (Hp & Hlt & Hmax). rewrite lookup_insert_ne in Hp by lia.
    pose proof (Hpos _ _ Hp). rewrite wrap_unsigned_id by lia.
    destruct (p + pk <=? a) eqn:E; [|done]. cbn [check rbind].
    assert (a < c) as Hac.
    { apply Z.nle_gt. intros Hca. specialize (Hmax _ _ Hc' ltac:(lia)).
      assert (c <> p) by (intros ->; simplify_eq; lia).
      destruct (tile_disjoint _ _ _ _ Ht c k p pk (or_introl Hc) (or_introl Hp)); lia. }
    pose proof (map_next_spec (<[a := n]> (freeList_ s)) a) as Hn.
    destruct (map_next _ a) as [[q qk]|]; [|specialize (Hn _ _ Hc'); lia].
    destruct Hn as (_ & _ & Hmin). specialize (Hmin _ _ Hc' ltac:(lia)).
    rewrite wrap_unsigned_id by lia. by replace (a + n <=? q) with false by lia.
  - cbn [rbind]. specialize (Hp _ _ Hc') as Hca.
    pose proof (map_next_spec (<[a := n]> (freeList_ s)) a) as Hn.
    destruct (map_next _ a) as [[q qk]|]; [|specialize (Hn _ _ Hc'); lia].
    destruct Hn as (_ & _ & Hmin). specialize (Hmin _ _ Hc' ltac:(lia)).
    rewrite wrap_unsigned_id by lia. by replace (a + n <=? q) with false by lia.
Qed.

(** * Properties *)

(** The first element in the order of [elements] is one choice of [begin()]. *)
Definition first_element (X : gset Z) : Z := default 0 (head (elements X)).

Lemma first_element_elem X : X ≠ ∅ -> first_element X ∈ X.
Proof.
  intros HX. unfold first_element. destruct (elements X) as [|x l] eqn:E.
  - by apply elements_empty_inv, leibniz_equiv in E.
  - apply elem_of_elements. rewrite E. simpl. set_solver.
Qed.

(** C3. Every call that clients may make of an arena returns, and does what a
    plain allocator does that keeps only the live blocks: an allocation gives
    a block inside the arena and apart from the live ones, it fails only when
    no gap of the rounded size is left, and a free of a live block succeeds. *)
Theorem arena_refinement first_of s live c :
  (forall X, X ≠ ∅ -> first_of X ∈ X) -> session first_of s live -> permitted live c ->
  exists s' r live', arena_call first_of s c = Ok (s', r)
    /\ spec_step (address_ s) (byteSize_ s) live c r live' /\ session first_of s' live'.
Proof.
  intros Hf Hs Hp. pose proof (session_refines first_of s live Hf Hs) as Hr.
  destruct (call_refines first_of s live c Hf Hr Hp) as (s' & r & live' & Hc & Hstep & _).
  exists s', r, live'. split; [done|]. split; [done|]. by econstructor.
Qed.

Lemma arena_refinement_witness :
  exists s, make_MmapArena (Some 4096) 1048576 = Ok s
    /\ exists s' r live', arena_call first_element s (Allocate 1000) = Ok (s', r)
       /\ spec_step (address_ s) (byteSize_ s) ∅ (Allocate 1000) r live'
       /\ session first_element s' live'.
Proof.
  eexists. split; [reflexivity|].
  eapply arena_refinement; [exact first_element_elem| |simpl; lia].
  eapply (session_start _ 4096 1048576); [lia|lia|lia|reflexivity].
Defined.

(** C4. In every state an arena can reach, the free and the live blocks
    partition its addresses, no two free blocks touch, the free bytes are the
    bytes that are not live, and the consistency check of the class passes. *)
Theorem arena_invariant first_of s live :
  (forall X, X ≠ ∅ -> first_of X ∈ X) -> session first_of s live ->
  tiles (address_ s) (byteSize_ s) (freeList_ s) live /\ coalesced (freeList_ s)
  /\ freeBytes_ s + map_sum live = byteSize_ s /\ checkConsistency s = true.
Proof.
  intros Hf Hs. pose proof (session_refines first_of s live Hf Hs) as Hr.
  split; [apply Hr|]. split; [apply Hr|]. split; [rewrite (r_free _ _ Hr); apply Hr|].
  by eapply refines_consistent.
Qed.

Lemma arena_invariant_witness :
  exists s, make_MmapArena (Some 4096) 1048576 = Ok s
    /\ tiles (address_ s) (byteSize_ s) (freeList_ s) ∅ /\ coalesced (freeList_ s)
    /\ freeBytes_ s + map_sum ∅ = byteSize_ s /\ checkConsistency s = true.
Proof.
  eexists. split; [reflexivity|].
  eapply (arena_invariant first_element); [exact first_element_elem|].
  eapply (session_start _ 4096 1048576); [lia|lia|lia|reflexivity].
Defined.

(** C40. A free of a range that overlaps a free block, such as a second free
    of a block, is rejected. *)
Theorem arena_rejects_double_free first_of s live a bytes c k :
  (forall X, X ≠ ∅ -> first_of X ∈ X) -> session first_of s live ->
  0 < a -> 0 < bytes <= 2 ^ 63 -> a + roundBytes bytes < 2 ^ 64 ->
  freeList_ s !! c = Some k -> c < a + roundBytes bytes -> a < c + k ->
  free s a bytes = Err CheckFailed.
Proof.
  intros Hf Hs Ha Hb Hend Hc Hlo Hhi.
  eapply overlap_rejected; try done; [by eapply session_refines|lia|lia].
Qed.

Lemma arena_rejects_double_free_witness :
  exists s, make_MmapArena (Some 4096) 1048576 = Ok s /\ free s 8192 100 = Err CheckFailed.
Proof.
  eexists. split; [reflexivity|].
  eapply (arena_rejects_double_free first_element _ _ 8192 100 4096 1048576);
    [exact first_element_elem
    |eapply (session_start _ 4096 1048576); [lia|lia|lia|reflexivity]
    |lia|lia|vm_compute; reflexivity|reflexivity|vm_compute; reflexivity|lia].
Defined.

(** ** Sizes that are not rounded *)

(** Above 2^63 the rounded size wraps to zero, and the allocation fails a check
    instead of returning null. *)
Lemma huge_allocation_fails :
  exists s, make_MmapArena (Some 4096) 1048576 = Ok s
    /\ allocate first_element s (2 ^ 63 + 1) = Err CheckFailed.
Proof. eexists. split; reflexivity. Qed.
