(* ===== verification/ManagedMmapArenas.v ===== *)
(** The set of arenas of bolt/common/memory/MmapArena.h and MmapArena.cpp,
    class ManagedMmapArenas: it makes a new arena when the current one cannot
    serve an allocation, and frees a block in the arena it belongs to.  The
    theorem is proved from what MmapArena.v shows of one arena. *)

From S2P Require Import Prelude BitUtil OrderedMap MmapArena.

(** * Managed arenas *)

(** The arenas by address; [currentArena_] shares one of them. *)
Record ManagedMmapArenas : Type := mkManagedMmapArenas {
  singleArenaCapacity_ : Z;
  arenas_ : gmap Z MmapArena;
  currentArena_ : Z
}.

Definition make_ManagedMmapArenas (ptr : option Z) (singleArenaCapacity : Z)
    : result ManagedMmapArenas :=
  let! arena := make_MmapArena ptr singleArenaCapacity in
  Ok (mkManagedMmapArenas singleArenaCapacity {[address_ arena := arena]} (address_ arena)).

(** [ptr] is what [mmap] returns if a new arena is made; it is no address of
    an arena that is mapped. *)
Definition managed_allocate (first_of : gset Z -> Z) (m : ManagedMmapArenas)
    (ptr : option Z) (bytes : Z) : result (ManagedMmapArenas * Z) :=
  match arenas_ m !! currentArena_ m with
  | None => Err BadAccess
  | Some arena =>
      let! r := allocate first_of arena bytes in
      let '(arena, address) := r in
      let arenas := <[currentArena_ m := arena]> (arenas_ m) in
      if negb (address =? nullptr) then
        Ok (mkManagedMmapArenas (singleArenaCapacity_ m) arenas (currentArena_ m), address)
      else
        let! newArena := make_MmapArena ptr (singleArenaCapacity_ m) in
        let! r := allocate first_of newArena bytes in
        let '(newArena, address) := r in
        Ok (mkManagedMmapArenas (singleArenaCapacity_ m)
              (<[address_ newArena := newArena]> arenas) (address_ newArena), address)
  end.

(** The arena that an address belongs to. *)
Definition find_arena (m : ManagedMmapArenas) (address bytes : Z) : result (Z * MmapArena) :=
  match map_lower_bound (arenas_ m) address with
  | Some (k, arena) =>
      if k =? address then Ok (k, arena)
      else
        match map_prev (arenas_ m) address with
        | None => Err CheckFailed
        | Some (k, arena) =>
            check! wrap_unsigned 64 (k + singleArenaCapacity_ m)
                   >=? wrap_unsigned 64 (address + bytes) in
            Ok (k, arena)
        end
  | None =>
      match map_prev (arenas_ m) address with
      | None => Err CheckFailed
      | Some (k, arena) =>
          check! wrap_unsigned 64 (k + singleArenaCapacity_ m)
                 >=? wrap_unsigned 64 (address + bytes) in
          Ok (k, arena)
      end
  end.

Definition managed_free (m : ManagedMmapArenas) (address bytes : Z)
    : result ManagedMmapArenas :=
  check! negb (bool_decide (arenas_ m = ∅)) in
  let! iter := find_arena m address bytes in
  let '(k, arena) := iter in
  let! arena := free arena address bytes in
  let arenas := <[k := arena]> (arenas_ m) in
  Ok (mkManagedMmapArenas (singleArenaCapacity_ m)
        (if arena_empty arena && negb (k =? currentArena_ m) then delete k arenas else arenas)
        (currentArena_ m)).

(** The live blocks of the arena at [k]. *)
Definition part (k capacity : Z) (live : gmap Z Z) : gmap Z Z :=
  filter (fun '(a, _) => k <= a < k + capacity) live.

Record managed (m : ManagedMmapArenas) (live : gmap Z Z) : Prop := {
  g_capacity :
    0 < singleArenaCapacity_ m /\ Z.rem (singleArenaCapacity_ m) kMinGrainSizeBytes = 0;
  g_current : is_Some (arenas_ m !! currentArena_ m);
  g_arena k s : arenas_ m !! k = Some s ->
    address_ s = k /\ byteSize_ s = singleArenaCapacity_ m
    /\ refines s (part k (singleArenaCapacity_ m) live);
  g_apart k s k' s' : arenas_ m !! k = Some s -> arenas_ m !! k' = Some s' -> k <> k' ->
    k + singleArenaCapacity_ m <= k' \/ k' + singleArenaCapacity_ m <= k;
  g_owned a n : live !! a = Some n ->
    exists k s, arenas_ m !! k = Some s /\ k <= a < k + singleArenaCapacity_ m
}.

Lemma part_lookup k capacity live a n :
  part k capacity live !! a = Some n <-> live !! a = Some n /\ k <= a < k + capacity.
Proof. unfold part. by rewrite map_lookup_filter_Some. Qed.

Lemma part_insert_in k capacity live a n :
  k <= a < k + capacity -> part k capacity (<[a := n]> live) = <[a := n]> (part k capacity live).
Proof. intros Ha. unfold part. by rewrite map_filter_insert_True. Qed.

Lemma part_insert_out k capacity live a n :
  live !! a = None -> ~ (k <= a < k + capacity) ->
  part k capacity (<[a := n]> live) = part k capacity live.
Proof.
  intros Hl Ha. unfold part. rewrite map_filter_insert_not; [done|]. intros. by simpl.
Qed.

Lemma part_delete k capacity live a :
  part k capacity (delete a live) = delete a (part k capacity live).
Proof. unfold part. by rewrite map_filter_delete. Qed.

(** A block of an arena lies inside it. *)
Lemma part_within m live k s a n :
  managed m live -> arenas_ m !! k = Some s -> live !! a = Some n ->
  k <= a < k + singleArenaCapacity_ m ->
  0 < n /\ 0 < k /\ a + n <= k + singleArenaCapacity_ m < 2 ^ 64.
Proof.
  intros Hm Hk Ha Hin. destruct (g_arena _ _ Hm _ _ Hk) as (Hadr & Hsize & Hr).
  assert (part k (singleArenaCapacity_ m) live !! a = Some n) as Hp by (by apply part_lookup).
  pose proof (r_tiles _ _ Hr) as Ht. pose proof (r_base _ _ Hr) as Hb. rewrite Hadr, Hsize in *.
  pose proof (tile_pos _ _ _ _ Ht _ _ (or_intror Hp)).
  pose proof (tile_within _ _ _ _ _ _ Ht (or_intror Hp)). lia.
Qed.

Definition with_arena (m : ManagedMmapArenas) (k : Z) (s : MmapArena) : ManagedMmapArenas :=
  mkManagedMmapArenas (singleArenaCapacity_ m) (<[k := s]> (arenas_ m)) (currentArena_ m).

(** One arena and its live blocks change. *)
Lemma managed_update m live k s s' live' :
  managed m live -> arenas_ m !! k = Some s ->
  address_ s' = k -> byteSize_ s' = singleArenaCapacity_ m ->
  refines s' (part k (singleArenaCapacity_ m) live') ->
  (forall k', k' <> k -> is_Some (arenas_ m !! k') ->
     part k' (singleArenaCapacity_ m) live' = part k' (singleArenaCapacity_ m) live) ->
  (forall a n, live' !! a = Some n ->
     k <= a < k + singleArenaCapacity_ m \/ live !! a = Some n) ->
  managed (with_arena m k s') live'.
Proof.
  intros [Hcap Hcur Har Hap Hown] Hk Hadr Hsize Hr Hother Hlive. split; simpl.
  - done.
  - destruct (decide (currentArena_ m = k)) as [->|]; [by rewrite lookup_insert_eq|].
    by rewrite lookup_insert_ne.
  - intros k' s2 [[<- <-]|[Hne Hk']]%lookup_insert_Some; [done|].
    destruct (Har _ _ Hk') as (? & ? & ?). by rewrite Hother by eauto.
  - assert (forall k1 s1, <[k := s']> (arenas_ m) !! k1 = Some s1 ->
      exists s0, arenas_ m !! k1 = Some s0) as Hold.
    { intros k1 s1 [[<- _]|[_ ?]]%lookup_insert_Some; eauto. }
    intros k1 s1 k2 s2 [? H1]%Hold [? H2]%Hold. by eapply Hap.
  - intros a n Ha. destruct (Hlive a n Ha) as [Hin|Ha'].
    + exists k, s'. by rewrite lookup_insert_eq.
    + destruct (Hown a n Ha') as (k' & s2 & Hk' & Hin).
      destruct (decide (k' = k)) as [->|]; [by exists k, s'; rewrite lookup_insert_eq|].
      exists k', s2. by rewrite lookup_insert_ne by done.
Qed.

(** A block that is allocated in the arena at [k]. *)
Lemma managed_insert m live k s s' a n :
  managed m live -> arenas_ m !! k = Some s ->
  address_ s' = k -> byteSize_ s' = singleArenaCapacity_ m ->
  gap k (singleArenaCapacity_ m) (part k (singleArenaCapacity_ m) live) a n -> 0 < n ->
  refines s' (<[a := n]> (part k (singleArenaCapacity_ m) live)) ->
  managed (with_arena m k s') (<[a := n]> live)
  /\ forall b j, live !! b = Some j -> a + n <= b \/ b + j <= a.
Proof.
  intros Hm Hk Hadr Hsize (Hlo & Hhi & Hgap) Hn Hr.
  assert (forall b j, live !! b = Some j -> a + n <= b \/ b + j <= a) as Hdis.
  { intros b j Hb. destruct (g_owned _ _ Hm _ _ Hb) as (k' & s2 & Hk' & Hin).
    destruct (decide (k' = k)) as [->|Hne]; [apply Hgap, part_lookup; done|].
    pose proof (part_within _ _ _ _ _ _ Hm Hk' Hb Hin).
    destruct (g_apart _ _ Hm _ _ _ _ Hk' Hk Hne); lia. }
  assert (live !! a = None) as Hnone.
  { destruct (live !! a) as [j|] eqn:E; [|done].
    destruct (g_owned _ _ Hm _ _ E) as (k' & s2 & Hk' & Hin).
    pose proof (part_within _ _ _ _ _ _ Hm Hk' E Hin). destruct (Hdis _ _ E); lia. }
  split; [|done]. eapply managed_update; try done.
  - rewrite part_insert_in by lia. done.
  - intros k' Hne [s2 Hk']. apply part_insert_out; [done|].
    destruct (g_apart _ _ Hm _ _ _ _ Hk' Hk Hne); lia.
  - intros b j [[<- <-]|[_ Hb]]%lookup_insert_Some; [left; lia|by right].
Qed.

(** A new arena without blocks. *)
Lemma managed_new_arena m live k s :
  managed m live -> address_ s = k -> byteSize_ s = singleArenaCapacity_ m -> refines s ∅ ->
  (forall k' s', arenas_ m !! k' = Some s' ->
     k + singleArenaCapacity_ m <= k' \/ k' + singleArenaCapacity_ m <= k) ->
  managed (mkManagedMmapArenas (singleArenaCapacity_ m) (<[k := s]> (arenas_ m)) k) live
  /\ part k (singleArenaCapacity_ m) live = ∅.
Proof.
  intros Hm Hadr Hsize Hr Hfresh. pose proof (g_capacity _ _ Hm) as [Hcap Hrem].
  assert (arenas_ m !! k = None) as Hnone.
  { destruct (arenas_ m !! k) eqn:E; [|done]. destruct (Hfresh _ _ E); lia. }
  assert (part k (singleArenaCapacity_ m) live = ∅) as Hpart.
  { apply map_empty. intros a. destruct (part _ _ live !! a) as [n|] eqn:E; [|done].
    apply part_lookup in E as [Ha Hin]. destruct (g_owned _ _ Hm _ _ Ha) as (k' & s2 & Hk' & Hin').
    destruct (Hfresh _ _ Hk'); lia. }
  split; [|done]. split; simpl.
  - done.
  - by rewrite lookup_insert_eq.
  - intros k' s2 [[<- <-]|[Hne Hk']]%lookup_insert_Some; [by rewrite Hpart|by apply Hm].
  - intros k1 s1 k2 s2 [[<- <-]|[Hne1 H1]]%lookup_insert_Some
      [[<- <-]|[Hne2 H2]]%lookup_insert_Some Hne; [done| | |by eapply (g_apart _ _ Hm)].
    + by apply (Hfresh _ _ H2).
    + destruct (Hfresh _ _ H1); lia.
  - intros a n Ha. destruct (g_owned _ _ Hm _ _ Ha) as (k' & s2 & Hk' & Hin).
    exists k', s2. split; [|done]. rewrite lookup_insert_ne by congruence. done.
Qed.

(** ** Allocation *)

Section allocation.
Context (first_of : gset Z -> Z).
Hypothesis first_of_elem : forall X, X ≠ ∅ -> first_of X ∈ X.

(** What an allocation does to one arena of the set. *)
Lemma allocate_in m live k s bytes :
  managed m live -> arenas_ m !! k = Some s -> 0 < bytes <= 2 ^ 63 ->
  exists s' r, allocate first_of s bytes = Ok (s', r) /\ address_ s' = k
    /\ ((r = nullptr /\ managed (with_arena m k s') live
         /\ forall a, ~ gap k (singleArenaCapacity_ m) (part k (singleArenaCapacity_ m) live) a
                          (roundBytes bytes))
        \/ (r <> nullptr /\ managed (with_arena m k s') (<[r := roundBytes bytes]> live)
            /\ forall b j, live !! b = Some j -> r + roundBytes bytes <= b \/ b + j <= r)).
Proof.
  intros Hm Hk Hb. destruct (g_arena _ _ Hm _ _ Hk) as (Hadr & Hsize & Hr).
  pose proof (roundBytes_bounds bytes Hb) as Hround. pose proof (r_base _ _ Hr) as Hbase.
  destruct (allocate_refines first_of first_of_elem s _ bytes Hr ltac:(lia))
    as (s' & r & part' & Hal & Hstep & Hr' & Hadr' & Hsize').
  rewrite Hadr, Hsize in *. exists s', r. split; [done|]. split; [done|].
  inversion Hstep as [|? a ? Hgap|? ? Hfull| |]; subst; [lia| |].
  - right. destruct (managed_insert m live _ s s' r (roundBytes bytes) Hm Hk) as [? ?];
      [done|done|done|lia|done|]. split; [|done]. destruct Hgap. lia.
  - left. split; [done|]. split; [|done]. eapply managed_update; eauto.
Qed.

Lemma managed_allocate_blocks m live ptr bytes :
  managed m live -> 0 < bytes <= 2 ^ 63 ->
  0 < ptr -> ptr + singleArenaCapacity_ m < 2 ^ 64 ->
  (forall k s, arenas_ m !! k = Some s ->
     ptr + singleArenaCapacity_ m <= k \/ k + singleArenaCapacity_ m <= ptr) ->
  exists m' r, managed_allocate first_of m (Some ptr) bytes = Ok (m', r)
    /\ ((r = nullptr /\ managed m' live /\ singleArenaCapacity_ m < roundBytes bytes)
        \/ (r <> nullptr /\ managed m' (<[r := roundBytes bytes]> live)
            /\ forall b j, live !! b = Some j -> r + roundBytes bytes <= b \/ b + j <= r)).
Proof.
  intros Hm Hb Hptr Hend Hfresh. pose proof (g_current _ _ Hm) as [s Hcur].
  pose proof (g_capacity _ _ Hm) as [Hcap Hrem].
  destruct (allocate_in m live _ s bytes Hm Hcur Hb) as (s' & r & Hal & Hadr & Hcase).
  unfold managed_allocate. rewrite Hcur, Hal. cbn [rbind].
  destruct Hcase as [(-> & Hm' & _)|(Hne & Hm' & Hdis)].
  2: { replace (r =? nullptr) with false by lia. eexists _, r. split; [done|]. right. done. }
  cbn [Z.eqb negb].
  destruct (fresh_arena ptr (singleArenaCapacity_ m) Hptr Hcap Hend Hrem)
    as (new & -> & Hnew & Hnadr & Hnsize). cbn [rbind].
  destruct (managed_new_arena (with_arena m (currentArena_ m) s') live ptr new Hm' Hnadr Hnsize Hnew)
    as [Hm2 Hpart].
  { simpl. intros k s2 [[<- <-]|[_ Hk]]%lookup_insert_Some; [by eapply Hfresh|by eapply Hfresh]. }
  destruct (allocate_in _ live ptr new bytes Hm2 (lookup_insert_eq _ _ _) Hb)
    as (new' & r & Hal' & Hadr' & Hcase'). unfold with_arena in Hcase'. simpl in *.
  rewrite Hal'. cbn [rbind]. rewrite Hadr'. rewrite insert_insert_eq in Hcase'.
  eexists _, r. split; [done|].
  destruct Hcase' as [(-> & Hm3 & Hgap)|(Hne & Hm3 & Hdis)]; [left|by right].
  split; [done|]. split; [done|]. apply Z.nle_gt. intros Hle. apply (Hgap ptr).
  rewrite Hpart. split; [lia|]. split; [lia|]. intros b j. by rewrite lookup_empty.
Qed.
End allocation.

(** ** Freeing *)

Lemma find_arena_owner m live a n bytes :
  managed m live -> live !! a = Some n -> 0 < bytes <= n ->
  exists k s, find_arena m a bytes = Ok (k, s) /\ arenas_ m !! k = Some s
    /\ k <= a < k + singleArenaCapacity_ m.
Proof.
  intros Hm Ha Hb. destruct (g_owned _ _ Hm _ _ Ha) as (k & s & Hk & Hin).
  pose proof (part_within _ _ _ _ _ _ Hm Hk Ha Hin) as Hw.
  assert (k <> a -> match map_prev (arenas_ m) a with
    | None => Err CheckFailed
    | Some (k, arena) =>
        check! wrap_unsigned 64 (k + singleArenaCapacity_ m) >=? wrap_unsigned 64 (a + bytes) in
        Ok (k, arena)
    end = Ok (k, s)) as Hprev.
  { intros Hne. pose proof (map_prev_spec (arenas_ m) a) as Hp.
    destruct (map_prev _ a) as [[k' s']|]; [|specialize (Hp _ _ Hk); lia].
    destruct Hp as (Hk' & Hlt & Hmax). specialize (Hmax _ _ Hk ltac:(lia)).
    assert (k' = k) as ->.
    { destruct (decide (k' = k)) as [|Hkk]; [done|].
      destruct (g_apart _ _ Hm _ _ _ _ Hk' Hk Hkk); lia. }
    rewrite !wrap_unsigned_id by lia. replace (_ >=? _) with true by lia. cbn [check rbind].
    congruence. }
  exists k, s. split; [|done]. unfold find_arena.
  pose proof (map_lower_bound_spec (arenas_ m) a) as Hlb.
  destruct (map_lower_bound _ a) as [[k' s']|].
  - destruct Hlb as (Hk' & Hle & Hmin). destruct (k' =? a) eqn:E.
    + apply Z.eqb_eq in E as ->. assert (a = k) as <-; [|congruence].
      destruct (decide (a = k)) as [|Hne]; [done|].
      destruct (g_apart _ _ Hm _ _ _ _ Hk' Hk Hne); lia.
    + apply Hprev. intros ->. specialize (Hmin _ _ Hk ltac:(lia)). lia.
  - apply Hprev. intros ->. specialize (Hlb _ _ Hk). lia.
Qed.

(** An empty arena that is not the current one is dropped. *)
Lemma managed_drop m live k s :
  managed m live -> arenas_ m !! k = Some s -> arena_empty s = true -> k <> currentArena_ m ->
  managed (mkManagedMmapArenas (singleArenaCapacity_ m) (delete k (arenas_ m))
             (currentArena_ m)) live.
Proof.
  intros Hm Hk He Hne. destruct (g_arena _ _ Hm _ _ Hk) as (Hadr & Hsize & Hr). split; simpl.
  - apply Hm.
  - rewrite lookup_delete_ne by done. apply Hm.
  - intros k' s' [_ Hk']%lookup_delete_Some. by apply Hm.
  - intros k1 s1 k2 s2 [_ H1]%lookup_delete_Some [_ H2]%lookup_delete_Some. by eapply (g_apart _ _ Hm).
  - intros a n Ha. destruct (g_owned _ _ Hm _ _ Ha) as (k' & s2 & Hk' & Hin).
    exists k', s2. split; [|done]. apply lookup_delete_Some. split; [|done]. intros <-.
    assert (part k (singleArenaCapacity_ m) live !! a = Some n) as Hp by (by apply part_lookup).
    unfold arena_empty in He. apply Z.eqb_eq in He.
    pose proof (r_free _ _ Hr). pose proof (r_total _ _ Hr). pose proof (r_tiles _ _ Hr) as Ht.
    pose proof (tile_pos _ _ _ _ Ht _ _ (or_intror Hp)).
    pose proof (map_sum_lookup _ _ _ Hp ltac:(intros b j Hb;
      pose proof (tile_pos _ _ _ _ Ht b j (or_intror Hb)); lia)). lia.
Qed.

Lemma managed_free_blocks m live a bytes :
  managed m live -> 0 < bytes <= 2 ^ 63 -> live !! a = Some (roundBytes bytes) ->
  exists m', managed_free m a bytes = Ok m' /\ managed m' (delete a live).
Proof.
  intros Hm Hb Ha. pose proof (roundBytes_bounds bytes Hb) as Hround.
  destruct (find_arena_owner m live a _ bytes Hm Ha ltac:(lia)) as (k & s & Hf & Hk & Hin).
  destruct (g_arena _ _ Hm _ _ Hk) as (Hadr & Hsize & Hr).
  destruct (free_refines s _ a bytes Hr Hb) as (s' & Hfree & Hr' & Hadr' & Hsize');
    [by apply part_lookup|].
  unfold managed_free. rewrite bool_decide_false by (intros E; rewrite E, lookup_empty in Hk; done).
  cbn [negb check rbind]. rewrite Hf. cbn [rbind]. rewrite Hfree. cbn [rbind].
  eexists. split; [done|].
  assert (managed (with_arena m k s') (delete a live)) as Hm'.
  { eapply managed_update; eauto; [congruence|congruence|by rewrite part_delete| |].
    - intros k' Hne [s2 Hk']. rewrite part_delete. apply delete_id.
      destruct (part k' _ live !! a) as [j|] eqn:E; [|done]. apply part_lookup in E as [_ Hin'].
      destruct (g_apart _ _ Hm _ _ _ _ Hk' Hk Hne); lia.
    - intros b j [_ ?]%lookup_delete_Some. by right. }
  destruct (arena_empty s' && negb (k =? currentArena_ m)) eqn:E; [|exact Hm'].
  apply andb_prop in E as [He Hne]. eapply (managed_drop (with_arena m k s')); simpl; eauto.
  - by rewrite lookup_insert_eq.
  - zbool.
Qed.

(** * Properties *)

(** C39. Over a set of arenas that grows, blocks that are allocated are apart
    from all live blocks, an allocation fails only when its size, rounded up to
    the size of a block, is larger than an arena, and a free of a live block
    finds its arena and succeeds.  [mmap] is given to return memory that
    overlaps no arena. *)
Theorem managed_arenas first_of m live ptr bytes :
  (forall X, X ≠ ∅ -> first_of X ∈ X) -> managed m live -> 0 < bytes <= 2 ^ 63 ->
  0 < ptr -> ptr + singleArenaCapacity_ m < 2 ^ 64 ->
  (forall k s, arenas_ m !! k = Some s ->
     ptr + singleArenaCapacity_ m <= k \/ k + singleArenaCapacity_ m <= ptr) ->
  (exists m' r, managed_allocate first_of m (Some ptr) bytes = Ok (m', r)
    /\ ((r = nullptr /\ managed m' live /\ singleArenaCapacity_ m < roundBytes bytes)
        \/ (r <> nullptr /\ managed m' (<[r := roundBytes bytes]> live)
            /\ forall b j, live !! b = Some j -> r + roundBytes bytes <= b \/ b + j <= r)))
  /\ (forall a, live !! a = Some (roundBytes bytes) ->
        exists m', managed_free m a bytes = Ok m' /\ managed m' (delete a live)).
Proof.
  intros Hf Hm Hb Hptr Hend Hfresh. split.
  - by apply managed_allocate_blocks.
  - intros a Ha. by apply managed_free_blocks.
Qed.

Lemma make_managed ptr capacity :
  0 < ptr -> 0 < capacity -> ptr + capacity < 2 ^ 64 ->
  Z.rem capacity kMinGrainSizeBytes = 0 ->
  exists m, make_ManagedMmapArenas (Some ptr) capacity = Ok m /\ managed m ∅
    /\ arenas_ m !! ptr <> None /\ singleArenaCapacity_ m = capacity
    /\ forall k s, arenas_ m !! k = Some s -> k = ptr.
Proof.
  intros Hp Hc Hend Hrem. unfold make_ManagedMmapArenas.
  destruct (fresh_arena ptr capacity Hp Hc Hend Hrem) as (s & -> & Hr & Hadr & Hsize).
  cbn [rbind]. eexists. split; [done|]. rewrite Hadr.
  split; [|simpl; split; [by rewrite lookup_singleton_eq|split; [done|]]].
  - split; simpl.
    + done.
    + by rewrite lookup_singleton_eq.
    + intros k s' [<- <-]%lookup_singleton_Some. split; [done|]. split; [done|].
      assert (part ptr capacity ∅ = ∅) as ->; [|done]. unfold part. apply map_filter_empty.
    + intros k s1 k' s2 [<- <-]%lookup_singleton_Some [<- <-]%lookup_singleton_Some. done.
    + intros a n. by rewrite lookup_empty.
  - by intros k s' [<- _]%lookup_singleton_Some.
Qed.

(** A block is allocated in the first arena, and freed. *)
Lemma managed_arenas_witness :
  exists m m1 r m2, make_ManagedMmapArenas (Some 4096) 1048576 = Ok m
    /\ managed_allocate first_element m (Some 4194304) 1000 = Ok (m1, r) /\ r <> nullptr
    /\ managed m1 {[r := roundBytes 1000]}
    /\ managed_free m1 r 1000 = Ok m2 /\ managed m2 (delete r {[r := roundBytes 1000]}).
Proof.
  destruct (make_managed 4096 1048576) as (m & Hm & Hmanaged & _ & Hcap & Hk); [lia|lia|lia|done|].
  destruct (managed_arenas first_element m ∅ 4194304 1000) as [(m1 & r & Hrun & Hcase) _];
    [exact first_element_elem|exact Hmanaged|lia|lia|rewrite Hcap; lia|intros k s Hks; rewrite (Hk _ _ Hks), Hcap; lia|].
  destruct Hcase as [(_ & _ & Hlarge)|(Hr & Hm1 & _)]; [rewrite Hcap in Hlarge; vm_compute in Hlarge; discriminate|].
  assert (map_Forall (fun k _ => 4194304 + 1048576 <= k \/ k + 1048576 <= 4194304) (arenas_ m1) /\ singleArenaCapacity_ m1 = 1048576) as [Hall Hcap1].
  { vm_compute in Hm. injection Hm as <-. vm_compute in Hrun. injection Hrun as <- <-. split; [|reflexivity]. apply (bool_decide_unpack _). by vm_compute. }
  destruct (managed_arenas first_element m1 {[r := roundBytes 1000]} 4194304 1000) as [_ Hfree];
    [exact first_element_elem|exact Hm1|lia|lia|rewrite Hcap1; lia|intros k s Hks; rewrite Hcap1; exact (Hall k s Hks)|].
  destruct (Hfree r) as (m2 & Hrun2 & Hm2); [by rewrite lookup_singleton_eq|].
  exists m, m1, r, m2. split_and!; done.
Defined.

(** An allocation of no bytes makes a new arena, which replaces the current
    one. *)
Lemma empty_allocation_grows :
  exists m m', make_ManagedMmapArenas (Some 4096) 1048576 = Ok m
    /\ managed_allocate first_element m (Some 4194304) 0 = Ok (m', nullptr)
    /\ base.size (arenas_ m') = 2%nat /\ currentArena_ m' = 4194304.
Proof. do 2 eexists. split_and!; reflexivity. Qed.
