(* ===== verification/TreeOfLosers.v ===== *)
(** Merging of ordered streams (bolt/exec/TreeOfLosers.h): the tree of losers, with
    and without the detection of equal values, and the sorted array of
    streams. *)

From S2P Require Import Prelude BitUtil.

(** * The interface of a stream *)

(** [MergeStream]: its first value is compared by [compare]. *)
Class MergeStream (A : Type) := {
  hasData : A -> bool;
  isNextEqual : A -> bool;
  compare : A -> A -> Z
}.

(** [operator<] *)
Definition stream_lt `{MergeStream A} (a b : A) : bool := compare a b <? 0.

(** The comparison orders the streams that have data. *)
Class MergeOrder (A : Type) `{MergeStream A} : Prop := {
  compare_flip a b : hasData a = true -> hasData b = true -> compare a b < 0 <-> 0 < compare b a;
  compare_trans a b c : hasData a = true -> hasData b = true -> hasData c = true ->
    compare a b <= 0 -> compare b c <= 0 -> compare a c <= 0
}.

(** * The tree *)

(** [TIndex], by default uint16_t *)
Definition to_index (z : Z) : Z := wrap_unsigned 16 z.
Definition kEmpty : Z := 65535.

Definition parent (node : Z) : Z := to_index (Z.quot (to_index node - 1) 2).
Definition leftChild (node : Z) : Z := to_index (node * 2 + 1).
Definition rightChild (node : Z) : Z := to_index (node * 2 + 2).

Section tree.
Context {A : Type} `{MergeStream A}.

Record TreeOfLosers : Type := mkTree {
  streams_ : list A;
  values_ : list Z;
  equals_ : list bool;
  lastIndex_ : Z;
  firstStream_ : Z
}.

(** [while (numStreams > levelSize)] *)
Fixpoint level_loop (fuel : nat) (numStreams size levelSize : Z) : result (Z * Z) :=
  match fuel with
  | O => Err OutOfFuel
  | S fuel =>
      if numStreams >? levelSize then
        let! size := ck32 (size + levelSize) in
        let! levelSize := ck32 (levelSize * 2) in
        level_loop fuel numStreams size levelSize
      else Ok (size, levelSize)
  end.

Definition make_TreeOfLosers (streams : list A) : result TreeOfLosers :=
  check! Z.of_nat (length streams) <? kEmpty in
  check! Z.of_nat (length streams) >=? 1 in
  let numStreams := wrap_signed 32 (Z.of_nat (length streams)) in
  let! levels := level_loop 32 numStreams 0 1 in
  let '(size, levelSize) := levels in
  let firstStream :=
    if numStreams =? nextPowerOfTwo numStreams then size
    else
      let secondLastSize := Z.quot levelSize 2 in
      let overflow := numStreams - secondLastSize in
      (size - secondLastSize) + overflow in
  Ok (mkTree streams (replicate (Z.to_nat firstStream) kEmpty) (replicate (Z.to_nat firstStream) false)
        kEmpty firstStream).

Section operations.
Variables (streams : list A) (firstStream : Z).

(** ** Without equality *)

Fixpoint first (fuel : nat) (node : Z) (values : list Z) : result (Z * list Z) :=
  match fuel with
  | O => Err OutOfFuel
  | S fuel =>
      if node >=? firstStream then
        let! stream := at_index streams (node - firstStream) in
        Ok (if hasData stream then to_index (node - firstStream) else kEmpty, values)
      else
        let! left_ := first fuel (leftChild node) values in
        let '(left_, values) := left_ in
        let! right_ := first fuel (rightChild node) values in
        let '(right_, values) := right_ in
        if left_ =? kEmpty then Ok (right_, values)
        else if right_ =? kEmpty then Ok (left_, values)
        else
          let! l := at_index streams left_ in
          let! r := at_index streams right_ in
          if stream_lt l r then
            let! values := set_index values node right_ in
            Ok (left_, values)
          else
            let! values := set_index values node left_ in
            Ok (right_, values)
  end.

(** [while (values_[node] == kEmpty)]: the first node with a value, or none up to
    the root. *)
Fixpoint skip_empty (fuel : nat) (values : list Z) (node : Z) : result (option Z) :=
  match fuel with
  | O => Err OutOfFuel
  | S fuel =>
      let! v := at_index values node in
      if v =? kEmpty then
        if node =? 0 then Ok None else skip_empty fuel values (parent node)
      else Ok (Some node)
  end.

(** One node of [for (;;)]. *)
Definition play (node value : Z) (values : list Z) : result (Z * list Z) :=
  let! v := at_index values node in
  if v =? kEmpty then Ok (value, values)
  else if value =? kEmpty then
    let! values := set_index values node kEmpty in
    Ok (v, values)
  else
    let! held := at_index streams v in
    let! new := at_index streams value in
    if stream_lt held new then
      let! values := set_index values node value in
      Ok (v, values)
    else Ok (value, values).

Fixpoint climb (fuel : nat) (node value : Z) (values : list Z) : result (Z * list Z) :=
  match fuel with
  | O => Err OutOfFuel
  | S fuel =>
      let! r := play node value values in
      let '(value, values) := r in
      if node =? 0 then Ok (value, values) else climb fuel (parent node) value values
  end.

Definition propagate (fuel : nat) (node value : Z) (values : list Z) : result (Z * list Z) :=
  let! start := skip_empty fuel values node in
  match start with
  | None => Ok (value, values)
  | Some node => climb fuel node value values
  end.

(** ** With equality *)

Fixpoint firstWithEquals (fuel : nat) (node : Z) (values : list Z) (equals : list bool)
  : result (Z * bool * list Z * list bool) :=
  match fuel with
  | O => Err OutOfFuel
  | S fuel =>
      if node >=? firstStream then
        let! stream := at_index streams (node - firstStream) in
        Ok (if hasData stream then (to_index (node - firstStream), isNextEqual stream, values, equals)
            else (kEmpty, false, values, equals))
      else
        let! left_ := firstWithEquals fuel (leftChild node) values equals in
        let '(left_, leftFlag, values, equals) := left_ in
        let! right_ := firstWithEquals fuel (rightChild node) values equals in
        let '(right_, rightFlag, values, equals) := right_ in
        if left_ =? kEmpty then Ok (right_, rightFlag, values, equals)
        else if right_ =? kEmpty then Ok (left_, leftFlag, values, equals)
        else
          let! l := at_index streams left_ in
          let! r := at_index streams right_ in
          let comparison := compare l r in
          if comparison =? 0 then
            let! values := set_index values node right_ in
            let! equals := set_index equals node rightFlag in
            Ok (left_, true, values, equals)
          else if comparison <? 0 then
            let! values := set_index values node right_ in
            let! equals := set_index equals node rightFlag in
            Ok (left_, leftFlag, values, equals)
          else
            let! values := set_index values node left_ in
            let! equals := set_index equals node leftFlag in
            Ok (right_, rightFlag, values, equals)
  end.

(** One node of [for (;;)]. *)
Definition playWithEquals (node value : Z) (flag : bool) (values : list Z) (equals : list bool)
  : result (Z * bool * list Z * list bool) :=
  let! v := at_index values node in
  if v =? kEmpty then Ok (value, flag, values, equals)
  else if value =? kEmpty then
    let! e := at_index equals node in
    let! values := set_index values node kEmpty in
    let! equals := set_index equals node false in
    Ok (v, e, values, equals)
  else
    let! held := at_index streams v in
    let! new := at_index streams value in
    let comparison := compare held new in
    if comparison =? 0 then Ok (value, true, values, equals)
    else if comparison <? 0 then
      let! e := at_index equals node in
      let! values := set_index values node value in
      let! equals := set_index equals node flag in
      Ok (v, e, values, equals)
    else Ok (value, flag, values, equals).

Fixpoint climbWithEquals (fuel : nat) (node value : Z) (flag : bool) (values : list Z)
    (equals : list bool) : result (Z * bool * list Z * list bool) :=
  match fuel with
  | O => Err OutOfFuel
  | S fuel =>
      let! r := playWithEquals node value flag values equals in
      let '(value, flag, values, equals) := r in
      if node =? 0 then Ok (value, flag, values, equals)
      else climbWithEquals fuel (parent node) value flag values equals
  end.

Definition propagateWithEquals (fuel : nat) (node valueIndex : Z) (values : list Z)
    (equals : list bool) : result (Z * bool * list Z * list bool) :=
  let! flag :=
    if valueIndex =? kEmpty then Ok false
    else let! stream := at_index streams valueIndex in Ok (isNextEqual stream) in
  let! start := skip_empty fuel values node in
  match start with
  | None => Ok (valueIndex, flag, values, equals)
  | Some node => climbWithEquals fuel node valueIndex flag values equals
  end.
End operations.

(** The nodes of the tree bound the recursion and the climb. *)
Definition tree_fuel (t : TreeOfLosers) : nat := S (2 * length (streams_ t)).

(** The value that [next] plays for the stream returned last. *)
Definition last_value (t : TreeOfLosers) : result Z :=
  let! stream := at_index (streams_ t) (lastIndex_ t) in
  Ok (if hasData stream then lastIndex_ t else kEmpty).

(** [next]: the index of the stream for a pointer to it. *)
Definition next (t : TreeOfLosers) : result (TreeOfLosers * option Z) :=
  let set last values := mkTree (streams_ t) values (equals_ t) last (firstStream_ t) in
  let return_last r :=
    let '(last, values) := r in
    (set last values, if last =? kEmpty then None else Some last) in
  if lastIndex_ t =? kEmpty then
    match values_ t with
    | [] =>
        let! stream := at_index (streams_ t) 0 in
        Ok (t, if hasData stream then Some 0 else None)
    | _ =>
        let! r := first (streams_ t) (firstStream_ t) (tree_fuel t) 0 (values_ t) in
        Ok (return_last r)
    end
  else
    let! value := last_value t in
    let! r := propagate (streams_ t) (tree_fuel t)
                (parent (firstStream_ t + lastIndex_ t)) value (values_ t) in
    Ok (return_last r).

Definition nextWithEquals (t : TreeOfLosers) : result (TreeOfLosers * option (Z * bool)) :=
  let return_last r :=
    let '(last, flag, values, equals) := r in
    (mkTree (streams_ t) values equals last (firstStream_ t),
     if last =? kEmpty then None else Some (last, flag)) in
  if lastIndex_ t =? kEmpty then
    match values_ t with
    | [] =>
        let! stream := at_index (streams_ t) 0 in
        Ok (t, if hasData stream then Some (0, isNextEqual stream) else None)
    | _ =>
        let! r := firstWithEquals (streams_ t) (firstStream_ t) (tree_fuel t) 0
                    (values_ t) (equals_ t) in
        Ok (return_last r)
    end
  else
    let! value := last_value t in
    let! r := propagateWithEquals (streams_ t) (tree_fuel t)
                (parent (firstStream_ t + lastIndex_ t)) value (values_ t) (equals_ t) in
    Ok (return_last r).

(** The caller pops off the first value of a stream. *)
Definition set_stream (t : TreeOfLosers) (i : Z) (s : A) : TreeOfLosers :=
  mkTree (<[Z.to_nat i := s]> (streams_ t)) (values_ t) (equals_ t) (lastIndex_ t) (firstStream_ t).
End tree.
Arguments TreeOfLosers A : clear implicits.
Arguments mkTree {A}.

(** * The shape of the tree *)

(** Inner nodes by their number, leaves by the index of their stream. *)
Inductive shape : Type :=
  | Leaf (i : Z)
  | Node (n : Z) (l r : shape).

Fixpoint leaves (T : shape) : list Z :=
  match T with
  | Leaf i => [i]
  | Node _ l r => leaves l ++ leaves r
  end.

Fixpoint inner (T : shape) : list Z :=
  match T with
  | Leaf _ => []
  | Node n l r => n :: inner l ++ inner r
  end.

Section shapes.
(** [f] inner nodes and [f + 1] streams: the numbers of the leaves follow. *)
Variable f : Z.

Definition root_id (T : shape) : Z := match T with Leaf i => f + i | Node n _ _ => n end.

Fixpoint wf_shape (T : shape) : Prop :=
  match T with
  | Leaf i => 0 <= i <= f
  | Node n l r => 0 <= n < f /\ root_id l = 2 * n + 1 /\ root_id r = 2 * n + 2 /\ wf_shape l /\ wf_shape r
  end.

Lemma shape_exists n : 0 <= f -> 0 <= n <= 2 * f -> exists T, wf_shape T /\ root_id T = n.
Proof.
  intros Hf. remember (Z.to_nat (2 * f - n)) as k eqn:Hk. revert n Hk.
  induction k as [k IH] using lt_wf_ind. intros n Hk Hn. destruct (decide (n < f)) as [Hlt|Hge].
  - destruct (IH (Z.to_nat (2 * f - (2 * n + 1))) ltac:(lia) (2 * n + 1) eq_refl ltac:(lia)) as (l & Hl & El).
    destruct (IH (Z.to_nat (2 * f - (2 * n + 2))) ltac:(lia) (2 * n + 2) eq_refl ltac:(lia)) as (r & Hr & Er).
    exists (Node n l r). cbn. split_and!; done || lia.
  - exists (Leaf (n - f)). cbn. split; lia.
Qed.

(** [m] is [n] or below it: halving [m + 1] a number of times gives [n + 1]. *)
Definition descends (n m : Z) : Prop := exists d, 0 <= d /\ (m + 1) / 2 ^ d = n + 1.

Lemma descends_child n m c :
  0 <= n -> c = 2 * n + 1 \/ c = 2 * n + 2 -> descends c m -> descends n m.
Proof.
  intros Hn Hc (d & Hd & Hm). exists (d + 1). split; [lia|].
  rewrite Z.pow_add_r, <- Z.div_div, Hm by lia. change (2 ^ 1) with 2.
  symmetry. destruct Hc as [-> | ->];
    [apply (Z.div_unique _ _ _ 0)|apply (Z.div_unique _ _ _ 1)]; lia.
Qed.

Lemma descends_ge n m : 0 <= n -> descends n m -> n <= m.
Proof.
  intros Hn (d & Hd & Hm). assert (0 < 2 ^ d) by lia.
  pose proof (Z.mul_div_le (m + 1) (2 ^ d)). nia.
Qed.

Lemma siblings_apart n m : 0 <= n -> descends (2 * n + 1) m -> descends (2 * n + 2) m -> False.
Proof.
  intros Hn (d1 & Hd1 & H1) (d2 & Hd2 & H2).
  destruct (Z.lt_trichotomy d1 d2) as [Hlt|[->|Hlt]]; [| |].
  - replace d2 with (d1 + (d2 - d1)) in H2 by lia. rewrite Z.pow_add_r, <- Z.div_div, H1 in H2 by lia.
    assert (0 < 2 ^ (d2 - d1)) by lia. pose proof (Z.div_le_upper_bound (2 * n + 1 + 1) (2 ^ (d2 - d1)) (2 * n + 1 + 1)).
    nia.
  - lia.
  - replace d1 with (d2 + (d1 - d2)) in H1 by lia. rewrite Z.pow_add_r, <- Z.div_div, H2 in H1 by lia.
    assert (2 <= 2 ^ (d1 - d2)) by (apply (Z.pow_le_mono_r 2 1); lia).
    assert ((2 * n + 2 + 1) / 2 ^ (d1 - d2) <= (2 * n + 2 + 1) / 2) by (apply Z.div_le_compat_l; lia).
    assert ((2 * n + 2 + 1) / 2 = n + 1) by (symmetry; apply (Z.div_unique _ _ _ 1); lia). lia.
Qed.

Lemma shape_descends T :
  wf_shape T -> (forall n, n ∈ inner T -> descends (root_id T) n /\ 0 <= n < f)
  /\ (forall i, i ∈ leaves T -> descends (root_id T) (f + i) /\ 0 <= i <= f).
Proof.
  induction T as [i|n l IHl r IHr]; cbn [wf_shape inner leaves root_id].
  - intros Hi. split; [set_solver|]. intros j ->%list_elem_of_singleton. split; [|done].
    exists 0. change (2 ^ 0) with 1. rewrite Z.div_1_r. lia.
  - intros (Hn & El & Er & Hl & Hr). destruct (IHl Hl) as [Il Ll], (IHr Hr) as [Ir Lr].
    rewrite El in *. rewrite Er in *. split.
    + intros m [->|[Hm|Hm]%elem_of_app]%elem_of_cons.
      * split; [|done]. exists 0. change (2 ^ 0) with 1. rewrite Z.div_1_r. lia.
      * destruct (Il m Hm). split; [|done]. apply (descends_child n m (2 * n + 1)); [lia|lia|done].
      * destruct (Ir m Hm). split; [|done]. apply (descends_child n m (2 * n + 2)); [lia|lia|done].
    + intros i [Hi|Hi]%elem_of_app.
      * destruct (Ll i Hi). split; [|done]. apply (descends_child n _ (2 * n + 1)); [lia|lia|done].
      * destruct (Lr i Hi). split; [|done]. apply (descends_child n _ (2 * n + 2)); [lia|lia|done].
Qed.

(** The two sides of a node share nothing, nor the node. *)
Lemma node_apart n l r :
  wf_shape (Node n l r) ->
  (forall i, i ∈ leaves l -> i ∈ leaves r -> False) /\ (forall m, m ∈ inner l -> m ∈ inner r -> False)
  /\ n ∉ inner l /\ n ∉ inner r.
Proof.
  intros (Hn & El & Er & Hl & Hr).
  destruct (shape_descends l Hl) as [Il Ll], (shape_descends r Hr) as [Ir Lr].
  rewrite El in *. rewrite Er in *. split_and!.
  - intros i H1 H2. by apply (siblings_apart n (f + i)); [lia|apply Ll|apply Lr].
  - intros m H1 H2. by apply (siblings_apart n m); [lia|apply Il|apply Ir].
  - intros [Hd _]%Il. apply descends_ge in Hd; lia.
  - intros [Hd _]%Ir. apply descends_ge in Hd; lia.
Qed.

(** Every leaf below a node is in its shape. *)
Lemma shape_complete T i :
  wf_shape T -> 0 <= i <= f -> descends (root_id T) (f + i) -> i ∈ leaves T.
Proof.
  intros HT Hi. induction T as [j|n l IHl r IHr]; cbn [wf_shape leaves root_id] in *; intros (d & Hd & Hm).
  - destruct (decide (d = 0)) as [->|Hd0].
    + change (2 ^ 0) with 1 in Hm. rewrite Z.div_1_r in Hm. replace i with j by lia. set_solver.
    + assert (2 <= 2 ^ d) by (apply (Z.pow_le_mono_r 2 1); lia).
      assert ((f + i + 1) / 2 ^ d <= (f + i + 1) / 2) by (apply Z.div_le_compat_l; lia).
      pose proof (Z.mul_div_le (f + i + 1) 2). lia.
  - destruct HT as (Hn & El & Er & Hl & Hr). rewrite El in IHl. rewrite Er in IHr. apply elem_of_app.
    destruct (decide (d = 0)) as [->|Hd0].
    { change (2 ^ 0) with 1 in Hm. rewrite Z.div_1_r in Hm. lia. }
    replace d with ((d - 1) + 1) in Hm by lia. rewrite Z.pow_add_r, <- Z.div_div in Hm by lia.
    change (2 ^ 1) with 2 in Hm. pose proof (Z.div_mod ((f + i + 1) / 2 ^ (d - 1)) 2).
    pose proof (Z.mod_pos_bound ((f + i + 1) / 2 ^ (d - 1)) 2).
    destruct (decide (((f + i + 1) / 2 ^ (d - 1)) mod 2 = 0)).
    + left. apply IHl; [done|]. exists (d - 1). lia.
    + right. apply IHr; [done|]. exists (d - 1). lia.
Qed.

Lemma root_complete T i : wf_shape T -> root_id T = 0 -> 0 <= i <= f -> i ∈ leaves T.
Proof.
  intros HT H0 Hi. apply shape_complete; [done|done|]. rewrite H0. exists (Z.log2 (f + i + 1)).
  split; [apply Z.log2_nonneg|]. pose proof (Z.log2_spec (f + i + 1) ltac:(lia)).
  symmetry. apply (Z.div_unique _ _ _ (f + i + 1 - 2 ^ Z.log2 (f + i + 1))); [|lia].
  rewrite Z.pow_succ_r in * by apply Z.log2_nonneg. lia.
Qed.
End shapes.

(** * Construction *)

Lemma level_loop_ok fuel n j :
  0 <= j -> 0 < n <= 2 ^ 16 -> (j = 0 \/ 2 ^ (j - 1) < n) -> (Z.to_nat (17 - j) < fuel)%nat ->
  exists k, level_loop fuel n (2 ^ j - 1) (2 ^ j) = Ok (2 ^ k - 1, 2 ^ k)
    /\ 0 <= k /\ n <= 2 ^ k /\ (k = 0 \/ 2 ^ (k - 1) < n).
Proof.
  revert j. induction fuel as [|fuel IH]; intros j Hj Hn Hlow Hf; [lia|].
  cbn [level_loop]. destruct (n >? 2 ^ j) eqn:E; [|exists j; split_and!; done || lia].
  assert (j < 16) by (apply (Z.pow_lt_mono_r_iff 2); lia).
  assert (2 ^ (j + 1) = 2 * 2 ^ j) as Hp by (rewrite Z.pow_add_r; lia).
  assert (2 ^ j <= 2 ^ 16) by (apply Z.pow_le_mono_r; lia).
  rewrite !ck32_in by lia. cbn [rbind].
  replace (2 ^ j - 1 + 2 ^ j) with (2 ^ (j + 1) - 1) by lia.
  replace (2 ^ j * 2) with (2 ^ (j + 1)) by lia.
  apply IH; [lia|done| |lia]. right. replace (j + 1 - 1) with j by lia. lia.
Qed.

Section construction.
Context {A : Type} `{MergeStream A}.

(** A tree over [n] streams has [n - 1] inner nodes, all empty. *)
Lemma make_TreeOfLosers_ok (streams : list A) :
  1 <= Z.of_nat (length streams) < 65535 ->
  make_TreeOfLosers streams
  = Ok (mkTree streams (replicate (length streams - 1) kEmpty) (replicate (length streams - 1) false)
          kEmpty (Z.of_nat (length streams) - 1)).
Proof.
  intros Hn. unfold make_TreeOfLosers, kEmpty. set (n := Z.of_nat (length streams)).
  replace (n <? 65535) with true by lia. replace (n >=? 1) with true by lia. cbn [check rbind].
  rewrite wrap_signed_id by lia.
  destruct (level_loop_ok 32 n 0) as (k & Hrun & Hk & Hle & Hlow); [lia|lia|lia|lia|].
  change (2 ^ 0 - 1) with 0 in Hrun. change (2 ^ 0) with 1 in Hrun. rewrite Hrun. cbn [rbind].
  destruct (nextPowerOfTwo_spec n) as (k' & Hk' & Hp & Hle' & Hlt'); [lia|].
  assert (k' = k) as ->.
  { destruct (Z.lt_trichotomy k' k) as [Hlt|[?|Hlt]]; [exfalso|done|exfalso].
    - assert (2 ^ k' <= 2 ^ (k - 1)) by (apply Z.pow_le_mono_r; lia). lia.
    - assert (2 ^ (k + 1) <= 2 ^ k') by (apply Z.pow_le_mono_r; lia).
      rewrite Z.pow_add_r in * by lia. lia. }
  rewrite Hp. replace (if n =? 2 ^ k then _ else _) with (n - 1).
  - by replace (Z.to_nat (n - 1)) with (length streams - 1)%nat by lia.
  - destruct (n =? 2 ^ k) eqn:E; [lia|]. destruct Hlow as [->|Hlow]; [simpl in *; lia|].
    assert (1 <= k) by (destruct (decide (k = 0)) as [->|]; [simpl in *; lia|lia]).
    assert (2 ^ k = 2 * 2 ^ (k - 1)) as Hd by (rewrite <- Z.pow_succ_r by lia; f_equal; lia).
    rewrite Z.quot_div_nonneg by lia. replace (2 ^ k / 2) with (2 ^ (k - 1)) by
      (rewrite Hd; symmetry; rewrite Z.mul_comm; apply Z.div_mul; lia). lia.
Qed.
End construction.

(** * A played tree *)

Section played.
Context {A : Type} `{MergeOrder A}.

Lemma not_lt_le a b :
  hasData a = true -> hasData b = true -> stream_lt a b = false -> compare b a <= 0.
Proof. intros Ha Hb Hlt%Z.ltb_ge. pose proof (compare_flip a b Ha Hb). lia. Qed.

Lemma lt_le a b : hasData a = true -> hasData b = true -> stream_lt a b = true -> compare a b <= 0.
Proof. intros _ _ Hlt%Z.ltb_lt. lia. Qed.

Lemma compare_self a : hasData a = true -> compare a a = 0.
Proof. intros Ha. pose proof (compare_flip a a Ha Ha). lia. Qed.

(** Stream [i] has data. *)
Definition live (streams : list A) (i : Z) (s : A) : Prop :=
  0 <= i < kEmpty /\ streams !! Z.to_nat i = Some s /\ hasData s = true.

(** [c] may go up from a node where it met [v]. *)
Definition beats (streams : list A) (c v : Z) : Prop :=
  exists sc sv, live streams c sc /\ live streams v sv /\ compare sc sv <= 0.

(** The match of the champions [cl] and [cr] of two subtrees: [c] goes up and
    [v] stays at the node. *)
Definition match_ok (streams : list A) (cl cr c v : Z) : Prop :=
  (cl = kEmpty /\ c = cr /\ v = kEmpty)
  \/ (cl <> kEmpty /\ cr = kEmpty /\ c = cl /\ v = kEmpty)
  \/ (cl <> kEmpty /\ cr <> kEmpty /\ (c = cl /\ v = cr \/ c = cr /\ v = cl) /\ beats streams c v).

(** The values of the inner nodes of [T] are the losers of its matches, and [c]
    is the champion. *)
Fixpoint good (streams : list A) (values : list Z) (T : shape) (c : Z) : Prop :=
  match T with
  | Leaf i => exists s, streams !! Z.to_nat i = Some s /\ c = if hasData s then i else kEmpty
  | Node n l r =>
      exists cl cr v, good streams values l cl /\ good streams values r cr
        /\ values !! Z.to_nat n = Some v /\ match_ok streams cl cr c v
  end.

Lemma live_inj streams i s s' : live streams i s -> live streams i s' -> s = s'.
Proof. intros (_ & H1 & _) (_ & H2 & _). congruence. Qed.

(** The champion is the least of the streams with data. *)
Lemma good_champion f streams values T c :
  f < kEmpty -> wf_shape f T -> good streams values T c ->
  (c = kEmpty /\ (forall i s, i ∈ leaves T -> live streams i s -> False))
  \/ (c ∈ leaves T /\ exists sc, live streams c sc
        /\ forall i s, i ∈ leaves T -> live streams i s -> compare sc s <= 0).
Proof.
  intros Hf. revert c. induction T as [i|n l IHl r IHr]; cbn [wf_shape leaves good]; intros c HT.
  - intros (s & Hs & ->). destruct (hasData s) eqn:Hd.
    + right. split; [set_solver|]. exists s. assert (live streams i s) as Hlive by (split_and!; done || lia).
      split; [done|]. intros j s' ->%list_elem_of_singleton Hs'.
      rewrite (live_inj streams i s' s Hs' Hlive), compare_self by done. lia.
    + left. split; [done|]. intros j s' ->%list_elem_of_singleton (_ & Hs' & Hd'). congruence.
  - destruct HT as (_ & _ & _ & Hl & Hr). intros (cl & cr & v & Gl & Gr & _ & Hm).
    destruct (IHl cl Hl Gl) as [[-> El]|[Ml (sl & Ll & Hminl)]],
      (IHr cr Hr Gr) as [[-> Er]|[Mr (sr & Lr & Hminr)]].
    + left. destruct Hm as [(_ & -> & _)|[(? & _)|(? & _)]]; [|done|done]. split; [done|].
      intros i s [Hi|Hi]%elem_of_app Hs; eauto.
    + right. destruct Hm as [(_ & -> & _)|[(? & _)|(? & _)]]; [|done|done].
      split; [set_solver|]. exists sr. split; [done|].
      intros i s [Hi|Hi]%elem_of_app Hs; [exfalso; eauto|eauto].
    + right. assert (c = cl) as -> by (unfold match_ok in Hm; naive_solver).
      split; [set_solver|]. exists sl. split; [done|].
      intros i s [Hi|Hi]%elem_of_app Hs; [eauto|exfalso; eauto].
    + right. pose proof Ll as ((_ & ?) & _ & Dl). pose proof Lr as ((_ & ?) & _ & Dr).
      destruct Hm as [(? & _)|[(_ & ? & _)|(_ & _ & Hcv & (sc & sv & Lc & Lv & Hle))]]; [lia|lia|].
      destruct Hcv as [[-> ->]|[-> ->]].
      * rewrite (live_inj _ _ _ _ Lc Ll), (live_inj _ _ _ _ Lv Lr) in Hle.
        split; [set_solver|]. exists sl. split; [done|]. intros i s [Hi|Hi]%elem_of_app Hs; [eauto|].
        apply (compare_trans sl sr s); [done|done|apply Hs|done|eauto].
      * rewrite (live_inj _ _ _ _ Lc Lr), (live_inj _ _ _ _ Lv Ll) in Hle.
        split; [set_solver|]. exists sr. split; [done|]. intros i s [Hi|Hi]%elem_of_app Hs; [|eauto].
        apply (compare_trans sr sl s); [done|done|apply Hs|done|eauto].
Qed.

Lemma match_ok_ext streams streams' cl cr c v :
  (forall i s, (i = cl \/ i = cr) -> live streams i s -> streams' !! Z.to_nat i = Some s) ->
  match_ok streams cl cr c v -> match_ok streams' cl cr c v.
Proof.
  intros Hs [H1|[H1|(Hl & Hr & Hcv & (sc & sv & Lc & Lv & Hle))]];
    [by left|by right; left|right; right].
  split_and!; [done..|]. exists sc, sv. split; [|split; [|done]].
  - destruct Lc as (? & ? & ?) eqn:E. split_and!; [lia|lia| |done]. apply (Hs c); [|done]. naive_solver.
  - destruct Lv as (? & ? & ?) eqn:E. split_and!; [lia|lia| |done]. apply (Hs v); [|done]. naive_solver.
Qed.

(** The tree depends on its own nodes and streams only. *)
Lemma good_ext f streams streams' values values' T c :
  f < kEmpty -> wf_shape f T ->
  (forall n, n ∈ inner T -> values' !! Z.to_nat n = values !! Z.to_nat n) ->
  (forall i, i ∈ leaves T -> streams' !! Z.to_nat i = streams !! Z.to_nat i) ->
  good streams values T c -> good streams' values' T c.
Proof.
  intros Hf HT. revert c. induction T as [i|n l IHl r IHr]; cbn [wf_shape inner leaves good] in *;
    intros c Hv Hs.
  - intros (s & Hi & ->). exists s. rewrite Hs by set_solver. done.
  - intros (cl & cr & v & Gl & Gr & Hn & Hm). destruct HT as (Hn' & _ & _ & Hl & Hr).
    exists cl, cr, v. split_and!.
    + apply IHl; [done|set_solver..|done].
    + apply IHr; [done|set_solver..|done].
    + rewrite Hv by set_solver. done.
    + apply (match_ok_ext streams); [|done]. intros i s Hi (Hr' & Hst & Hd).
      rewrite Hs; [done|]. apply elem_of_app.
      destruct Hi as [-> | ->].
      * destruct (good_champion f _ _ _ _ Hf Hl Gl) as [[-> _]|[? _]]; [lia|by left].
      * destruct (good_champion f _ _ _ _ Hf Hr Gr) as [[-> _]|[? _]]; [lia|by right].
Qed.
End played.

(** * Playing the matches *)

Lemma to_index_id z : 0 <= z < 65536 -> to_index z = z.
Proof. intros Hz. unfold to_index. by rewrite wrap_unsigned_id by lia. Qed.

Lemma children_ok n :
  0 <= 2 * n + 2 < 65536 -> 0 <= n -> leftChild n = 2 * n + 1 /\ rightChild n = 2 * n + 2.
Proof. intros Hn H0. unfold leftChild, rightChild. rewrite !to_index_id by lia. lia. Qed.

Lemma parent_ok n m : 0 <= n -> m = 2 * n + 1 \/ m = 2 * n + 2 -> m < 65536 -> parent m = n.
Proof.
  intros Hn Hm Hlt. unfold parent. rewrite (to_index_id m) by lia. rewrite Z.quot_div_nonneg by lia.
  destruct Hm as [-> | ->].
  - replace (2 * n + 1 - 1) with (n * 2) by lia. rewrite Z.div_mul by lia. apply to_index_id. lia.
  - replace ((2 * n + 2 - 1) / 2) with n by (apply (Z.div_unique _ _ _ 1); lia). apply to_index_id. lia.
Qed.

(** A value at one place of a vector. *)
Lemma set_value {B} (values : list B) n x m :
  0 <= n < Z.of_nat (length values) -> 0 <= m ->
  <[Z.to_nat n := x]> values !! Z.to_nat m = if m =? n then Some x else values !! Z.to_nat m.
Proof.
  intros Hn Hm. destruct (m =? n) eqn:E.
  - replace m with n by lia. apply list_lookup_insert_eq. lia.
  - apply list_lookup_insert_ne. lia.
Qed.

(** [values'] differs from [values] only at the inner nodes of [T]. *)
Definition only_inner {B} (T : shape) (values values' : list B) : Prop :=
  length values' = length values
  /\ forall m, 0 <= m -> m ∉ inner T -> values' !! Z.to_nat m = values !! Z.to_nat m.

Lemma only_inner_trans {B} n l r (values values1 values2 : list B) :
  only_inner l values values1 -> only_inner r values1 values2 -> only_inner (Node n l r) values values2.
Proof.
  intros [L1 H1] [L2 H2]. split; [lia|]. cbn [inner]. intros m Hm Hin.
  rewrite H2, H1 by set_solver. done.
Qed.

Lemma only_inner_set {B} n l r (values values1 : list B) x :
  0 <= n < Z.of_nat (length values) ->
  only_inner (Node n l r) values values1 -> only_inner (Node n l r) values (<[Z.to_nat n := x]> values1).
Proof.
  intros Hn [L1 H1]. split; [by rewrite length_insert|]. intros m Hm Hin.
  rewrite set_value by lia. destruct (m =? n) eqn:E; [|by apply H1].
  exfalso. apply Hin. cbn [inner]. replace m with n by lia. set_solver.
Qed.

Section matches.
Context {A : Type} `{MergeOrder A}.
Variables (streams : list A) (f : Z).
Hypothesis Hcount : Z.of_nat (length streams) = f + 1.
Hypothesis Hf : 1 <= f <= 32767.

(** A subtree keeps its champion while the rest of the tree changes. *)
Lemma good_kept values values' T c :
  wf_shape f T -> (forall n, n ∈ inner T -> values' !! Z.to_nat n = values !! Z.to_nat n) ->
  good streams values T c -> good streams values' T c.
Proof. intros HT Hv. apply (good_ext f); [unfold kEmpty; lia|done|done|done]. Qed.

Lemma good_live values T c :
  wf_shape f T -> good streams values T c -> c <> kEmpty -> exists s, live streams c s /\ c ∈ leaves T.
Proof.
  intros HT HG Hc. destruct (good_champion f _ _ _ _ ltac:(unfold kEmpty; lia) HT HG) as [[? _]|(Hl & s & Hs & _)];
    [done|by exists s].
Qed.

(** The match at a node whose subtrees are played. *)
Lemma good_node values n l r cl cr c v :
  wf_shape f (Node n l r) -> good streams values l cl -> good streams values r cr ->
  Z.of_nat (length values) = f -> match_ok streams cl cr c v ->
  good streams (<[Z.to_nat n := v]> values) (Node n l r) c.
Proof.
  intros HT Gl Gr Hlen Hm. pose proof HT as (Hn & _ & _ & Hl & Hr).
  destruct (node_apart f n l r HT) as (_ & _ & Nl & Nr).
  destruct (shape_descends f l Hl) as [Il _], (shape_descends f r Hr) as [Ir _].
  cbn [good]. exists cl, cr, v. split_and!.
  - apply (good_kept values); [done| |done]. intros m Hin. destruct (Il m Hin).
    rewrite set_value by lia. replace (m =? n) with false; [done|]. symmetry. apply Z.eqb_neq. naive_solver.
  - apply (good_kept values); [done| |done]. intros m Hin. destruct (Ir m Hin).
    rewrite set_value by lia. replace (m =? n) with false; [done|]. symmetry. apply Z.eqb_neq. naive_solver.
  - rewrite set_value by lia. by rewrite Z.eqb_refl.
  - done.
Qed.

(** Storing the value that is there already. *)
Lemma good_node_same values n l r cl cr c v :
  wf_shape f (Node n l r) -> good streams values l cl -> good streams values r cr ->
  values !! Z.to_nat n = Some v -> match_ok streams cl cr c v -> good streams values (Node n l r) c.
Proof. intros _ Gl Gr Hv Hm. cbn [good]. by exists cl, cr, v. Qed.

(** The two ways that a match of two streams can end. *)
Lemma match_live cl cr sl sr :
  live streams cl sl -> live streams cr sr ->
  match_ok streams cl cr (if stream_lt sl sr then cl else cr) (if stream_lt sl sr then cr else cl)
  /\ match_ok streams cl cr (if stream_lt sr sl then cr else cl) (if stream_lt sr sl then cl else cr).
Proof.
  intros Ll Lr. pose proof Ll as (? & _ & Dl). pose proof Lr as (? & _ & Dr). split.
  - right; right. split_and!; [lia|lia|destruct (stream_lt sl sr); auto|].
    destruct (stream_lt sl sr) eqn:E.
    + exists sl, sr. split_and!; [done..|]. by apply lt_le.
    + exists sr, sl. split_and!; [done..|]. by apply not_lt_le.
  - right; right. split_and!; [lia|lia|destruct (stream_lt sr sl); auto|].
    destruct (stream_lt sr sl) eqn:E.
    + exists sr, sl. split_and!; [done..|]. by apply lt_le.
    + exists sl, sr. split_and!; [done..|]. by apply not_lt_le.
Qed.

Lemma live_at c s : live streams c s -> at_index streams c = Ok s.
Proof. intros (Hc & Hs & _). apply at_index_ok; [lia|done]. Qed.

(** The first game fills an empty tree. *)
Lemma first_ok fuel T values :
  wf_shape f T -> Z.of_nat (length values) = f ->
  (forall n, n ∈ inner T -> values !! Z.to_nat n = Some kEmpty) ->
  (Z.to_nat (2 * f - root_id f T) < fuel)%nat ->
  exists c values', first streams f fuel (root_id f T) values = Ok (c, values')
    /\ good streams values' T c /\ only_inner T values values'.
Proof.
  revert T values. induction fuel as [|fuel IH]; intros T values HT Hlen Hempty Hfuel; [lia|].
  cbn [first]. destruct T as [i|n l r]; cbn [root_id wf_shape] in *.
  - replace (f + i >=? f) with true by lia. replace (f + i - f) with i by lia.
    destruct (lookup_lt_is_Some_2 streams (Z.to_nat i)) as [s Hs]; [lia|].
    rewrite (at_index_ok _ i s) by (done || lia). cbn [rbind]. rewrite to_index_id by lia.
    exists (if hasData s then i else kEmpty), values. split; [done|]. split; [by exists s|done].
  - pose proof HT as (Hn & El & Er & Hl & Hr). pose proof (node_apart f n l r HT) as (_ & Hap & Nl & Nr).
    replace (n >=? f) with false by lia.
    destruct (children_ok n ltac:(lia) ltac:(lia)) as [-> ->]. rewrite <- El, <- Er.
    destruct (IH l values) as (cl & v1 & -> & Gl & O1);
      [done|done|intros; apply Hempty; cbn [inner]; set_solver|lia|]. cbn [rbind].
    destruct (IH r v1) as (cr & v2 & -> & Gr & O2); [done|destruct O1; lia| |lia|].
    { intros m Hm. destruct (shape_descends f r Hr) as [Ir _]. destruct (Ir m Hm).
      destruct O1 as [_ ->]; [apply Hempty; cbn [inner]; set_solver|lia|naive_solver]. }
    cbn [rbind]. assert (good streams v2 l cl) as Gl2.
    { apply (good_kept v1); [done| |done]. intros m Hm. destruct (shape_descends f l Hl) as [Il _].
      destruct (Il m Hm). apply O2; [lia|naive_solver]. }
    pose proof (only_inner_trans n l r _ _ _ O1 O2) as O12. pose proof O12 as [Hlen2 _].
    assert (v2 !! Z.to_nat n = Some kEmpty) as Hv.
    { destruct O2 as [_ ->]; [|lia|done]. destruct O1 as [_ ->]; [|lia|done]. apply Hempty. cbn; set_solver. }
    destruct (cl =? kEmpty) eqn:E1.
    { exists cr, v2. split; [done|]. split; [|done].
      eapply good_node_same; [done|done|done|done|]. left. split; [lia|done]. }
    destruct (cr =? kEmpty) eqn:E2.
    { exists cl, v2. split; [done|]. split; [|done].
      eapply good_node_same; [done|done|done|done|]. right; left. split_and!; lia. }
    destruct (good_live _ _ _ Hl Gl2 ltac:(lia)) as (sl & Ll & _).
    destruct (good_live _ _ _ Hr Gr ltac:(lia)) as (sr & Lr & _).
    rewrite (live_at cl sl Ll), (live_at cr sr Lr). cbn [rbind].
    destruct (match_live cl cr sl sr Ll Lr) as [Hm _].
    destruct (stream_lt sl sr); rewrite set_index_ok by lia; cbn [rbind]; eexists _, _; split; try done;
      (split; [eapply good_node; [done|done|done|lia|done]|apply only_inner_set; [lia|done]]).
Qed.

(** ** Replaying the matches of one stream *)

Lemma match_ok_sym cl cr c v : match_ok streams cl cr c v -> match_ok streams cr cl c v.
Proof. clear Hcount Hf. unfold match_ok. destruct (decide (cl = kEmpty)), (decide (cr = kEmpty)); naive_solver. Qed.

Definition empty_or_live (c : Z) : Prop := c = kEmpty \/ exists s, live streams c s.

Lemma play_match n value v values :
  0 <= n < Z.of_nat (length values) -> values !! Z.to_nat n = Some v ->
  empty_or_live value -> empty_or_live v ->
  exists c x, play streams n value values = Ok (c, <[Z.to_nat n := x]> values)
    /\ match_ok streams value v c x.
Proof.
  intros Hn Hv Hvalue Hheld. unfold play. rewrite (at_index_ok _ _ v) by (done || lia). cbn [rbind].
  destruct (v =? kEmpty) eqn:E1.
  { exists value, kEmpty. rewrite list_insert_id by (rewrite Hv; f_equal; lia). split; [done|].
    unfold match_ok. destruct (decide (value = kEmpty)); [left|right; left]; split_and!; done || lia. }
  destruct (value =? kEmpty) eqn:E2.
  { rewrite set_index_ok by lia. exists v, kEmpty. split; [done|]. left. split; [lia|done]. }
  destruct Hvalue as [?|[sn Ln]]; [lia|]. destruct Hheld as [?|[sh Lh]]; [lia|].
  rewrite (live_at _ _ Lh), (live_at _ _ Ln). cbn [rbind].
  destruct (match_live value v sn sh Ln Lh) as [_ Hm]. destruct (stream_lt sh sn).
  - rewrite set_index_ok by lia. by exists v, value.
  - exists value, v. by rewrite list_insert_id by done.
Qed.

Lemma climb_mono fuel fuel' node value values r :
  (fuel <= fuel')%nat -> climb streams fuel node value values = Ok r ->
  climb streams fuel' node value values = Ok r.
Proof.
  revert fuel' node value values. induction fuel as [|fuel IH]; intros fuel' node value values Hle; [done|].
  destruct fuel' as [|fuel']; [lia|]. cbn [climb].
  destruct (play streams node value values) as [[value' values']|]; [|done]. cbn [rbind].
  destruct (node =? 0); [done|]. apply IH. lia.
Qed.

(** Skipping the empty nodes first makes no difference. *)
Lemma propagate_climb fuel node value values r :
  climb streams fuel node value values = Ok r -> propagate streams fuel node value values = Ok r.
Proof.
  unfold propagate. revert node. induction fuel as [|fuel IH]; intros node Hrun; [done|].
  cbn [skip_empty]. cbn [climb] in Hrun. pose proof Hrun as Hrun0. unfold play in Hrun.
  destruct (at_index values node) as [v|]; [|done]. cbn [rbind] in *.
  destruct (v =? kEmpty) eqn:E; [|done]. cbn [rbind] in Hrun.
  destruct (node =? 0); [done|]. specialize (IH (parent node) Hrun).
  destruct (skip_empty fuel values (parent node)) as [[node'|]|]; [|done|done].
  cbn [rbind] in *. by apply (climb_mono fuel); [lia|].
Qed.
End matches.

Section replay.
Context {A : Type} `{MergeOrder A}.
Variables (old streams : list A) (f i : Z).
Hypothesis Hcount : Z.of_nat (length streams) = f + 1.
Hypothesis Hf : 1 <= f <= 32767.
Hypothesis Hi : 0 <= i <= f.
Hypothesis Hsame : forall j, 0 <= j -> j <> i -> streams !! Z.to_nat j = old !! Z.to_nat j.

(** The stream returned last won all its matches, so the other sides of its path
    hold their champions at the nodes of the path. *)
Lemma good_sibling values n l r :
  wf_shape f (Node n l r) -> good old values (Node n l r) i ->
  (i ∈ leaves l -> exists cr, good old values l i /\ good old values r cr /\ values !! Z.to_nat n = Some cr)
  /\ (i ∈ leaves r -> exists cl, good old values r i /\ good old values l cl /\ values !! Z.to_nat n = Some cl).
Proof.
  intros HT (cl & cr & v & Gl & Gr & Hv & Hm). pose proof HT as (_ & _ & _ & Hl & Hr).
  destruct (node_apart f n l r HT) as (Hap & _ & _ & _).
  assert (f < kEmpty) as Hk by (unfold kEmpty; lia).
  assert (i <> kEmpty) by lia.
  destruct (good_champion f _ _ _ _ Hk Hl Gl) as [[-> _]|[Ml _]],
    (good_champion f _ _ _ _ Hk Hr Gr) as [[-> _]|[Mr _]];
    unfold match_ok in Hm; split; intros Hin; naive_solver.
Qed.

Lemma subtree_kept values T c :
  wf_shape f T -> i ∉ leaves T -> good old values T c -> good streams values T c.
Proof.
  intros HT Hin. destruct (shape_descends f T HT) as [_ HL].
  apply (good_ext f); [unfold kEmpty; lia|done|done|].
  intros j Hj. destruct (HL j Hj). apply Hsame; [lia|]. intros ->. done.
Qed.

Lemma good_empty_or_live values T c :
  wf_shape f T -> good streams values T c -> empty_or_live streams c.
Proof.
  intros HT HG. destruct (decide (c = kEmpty)); [by left|right].
  destruct (good_live streams f Hf _ _ _ HT HG ltac:(done)) as (s & Hs & _). by exists s.
Qed.

(** Climbing from the leaf of the changed stream to the root of [T] makes [T] a
    played tree again, and goes on above it. *)
Definition replayed (values : list Z) (value : Z) (T : shape) : Prop :=
  exists c values' depth, good streams values' T c /\ only_inner T values values'
    /\ (depth <= length (inner T))%nat
    /\ forall fuel, climb streams (depth + fuel) (parent (f + i)) value values
        = if root_id f T =? 0 then Ok (c, values') else climb streams fuel (parent (root_id f T)) c values'.

(** One match further up: [P] is the side of the changed stream, [Q] the other. *)
Lemma replay_up n l r P Q cs values value :
  wf_shape f (Node n l r) -> (P = l /\ Q = r \/ P = r /\ Q = l) -> Z.of_nat (length values) = f ->
  i ∉ leaves Q -> good old values Q cs -> values !! Z.to_nat n = Some cs ->
  replayed values value P -> replayed values value (Node n l r).
Proof.
  intros HT Hside Hlen HiQ GQ Hv (v & v1 & depth & GP & [Lv1 Hv1] & Hdepth & Hrun).
  pose proof HT as (Hn & El & Er & Hl & Hr). destruct (node_apart f n l r HT) as (_ & Hapi & Nl & Nr).
  assert (wf_shape f P /\ wf_shape f Q /\ n ∉ inner P /\ (root_id f P = 2 * n + 1 \/ root_id f P = 2 * n + 2)
    /\ (forall m, m ∈ inner P -> m ∈ inner Q -> False)) as (HP & HQ & HnP & Eroot & Hd) by naive_solver.
  destruct (shape_descends f Q HQ) as [IQ _].
  assert (good streams v1 Q cs) as GQ1.
  { apply (good_kept streams f Hf values); [done| |by apply subtree_kept].
    intros m Hm. destruct (IQ m Hm). apply Hv1; [lia|naive_solver]. }
  destruct (play_match streams n v cs v1) as (c & x & Hplay & Hm);
    [lia|by rewrite (Hv1 n ltac:(lia) HnP)|by apply (good_empty_or_live v1 P)|by apply (good_empty_or_live v1 Q)|].
  exists c, (<[Z.to_nat n := x]> v1), (S depth). split_and!.
  - destruct Hside as [[-> ->]|[-> ->]].
    + apply (good_node streams f Hcount Hf _ _ _ _ v cs); [done|done|done|lia|done].
    + apply (good_node streams f Hcount Hf _ _ _ _ cs v); [done|done|done|lia|]. by apply match_ok_sym.
  - apply only_inner_set; [lia|]. split; [done|]. cbn [inner]. intros m Hm0 Hm1. apply Hv1; [done|].
    destruct Hside as [[-> ->]|[-> ->]]; set_solver.
  - cbn [inner length]. rewrite length_app. destruct Hside as [[-> ->]|[-> ->]]; lia.
  - intros fuel. replace (S depth + fuel)%nat with (depth + S fuel)%nat by lia. rewrite Hrun.
    replace (root_id f P =? 0) with false by lia.
    rewrite (parent_ok n (root_id f P)) by lia. cbn [climb root_id]. by rewrite Hplay.
Qed.

Lemma climb_ok T values s :
  wf_shape f T -> Z.of_nat (length values) = f -> i ∈ leaves T -> good old values T i ->
  streams !! Z.to_nat i = Some s -> replayed values (if hasData s then i else kEmpty) T.
Proof.
  intros HT Hlen Hin HG Hs. induction T as [j|n l IHl r IHr].
  { cbn [leaves] in Hin. apply list_elem_of_singleton in Hin as <-.
    exists (if hasData s then i else kEmpty), values, 0%nat. split; [by exists s|]. split; [done|].
    split; [done|]. intros fuel. cbn [root_id]. by replace (f + i =? 0) with false by lia. }
  pose proof HT as (Hn & El & Er & Hl & Hr). destruct (node_apart f n l r HT) as (Hap & _ & _ & _).
  destruct (good_sibling values n l r HT HG) as [Sl Sr]. cbn [leaves] in Hin.
  apply elem_of_app in Hin as [Hin|Hin].
  - destruct (Sl Hin) as (cs & Gl & Gr & Hv).
    apply (replay_up n l r l r cs); [done|by left|done|by intros Hin'; apply (Hap i)|done|done|by apply IHl].
  - destruct (Sr Hin) as (cs & Gr & Gl & Hv).
    apply (replay_up n l r r l cs); [done|by right|done|by intros Hin'; apply (Hap i)|done|done|by apply IHr].
Qed.
End replay.

(** * The tree between calls *)

Section calls.
Context {A : Type} `{MergeOrder A}.

(** The sizes of a tree over [n] streams. *)
Record sized (t : TreeOfLosers A) : Prop := {
  sz_streams : 1 <= Z.of_nat (length (streams_ t)) <= 32768;
  sz_first : firstStream_ t = Z.of_nat (length (streams_ t)) - 1;
  sz_values : Z.of_nat (length (values_ t)) = firstStream_ t;
  sz_equals : Z.of_nat (length (equals_ t)) = firstStream_ t
}.

(** Nothing was returned yet, or all streams were at end. *)
Definition blank (t : TreeOfLosers A) : Prop :=
  lastIndex_ t = kEmpty /\ forall n, 0 <= n < firstStream_ t -> values_ t !! Z.to_nat n = Some kEmpty.

(** The stream returned last was the champion, before the caller changed it. *)
Definition pending (t : TreeOfLosers A) : Prop :=
  exists old T, wf_shape (firstStream_ t) T /\ root_id (firstStream_ t) T = 0
    /\ 0 <= lastIndex_ t <= firstStream_ t
    /\ (forall j, 0 <= j -> j <> lastIndex_ t -> streams_ t !! Z.to_nat j = old !! Z.to_nat j)
    /\ good old (values_ t) T (lastIndex_ t).

Definition between_calls (t : TreeOfLosers A) : Prop :=
  sized t /\ (blank t \/ 1 <= firstStream_ t /\ pending t).

(** [r] is a stream with a least first value; none is left without one. *)
Definition least (streams : list A) (r : option Z) : Prop :=
  match r with
  | None => forall i s, live streams i s -> False
  | Some i => exists s, live streams i s /\ forall j s', live streams j s' -> compare s s' <= 0
  end.

Lemma live_range (t : TreeOfLosers A) i s :
  sized t -> live (streams_ t) i s -> 0 <= i <= firstStream_ t.
Proof.
  intros HZ (Hi & Hs & _). destruct HZ. apply lookup_lt_Some in Hs. lia.
Qed.

(** A played tree has the answer at its top. *)
Lemma good_least (t : TreeOfLosers A) values T c :
  sized t -> wf_shape (firstStream_ t) T -> root_id (firstStream_ t) T = 0 ->
  good (streams_ t) values T c ->
  least (streams_ t) (if c =? kEmpty then None else Some c).
Proof.
  intros HZ HT Hroot HG. pose proof HZ as [Hn Hf _ _].
  assert (firstStream_ t < kEmpty) as Hk by (unfold kEmpty; lia).
  assert (forall i s, live (streams_ t) i s -> i ∈ leaves T) as Hin.
  { intros i s Hs. apply (root_complete (firstStream_ t)); [done|done|by apply (live_range t i s)]. }
  destruct (good_champion _ _ _ _ _ Hk HT HG) as [[-> Hnone]|(_ & sc & Lc & Hmin)].
  - cbn. eauto.
  - replace (c =? kEmpty) with false by (destruct Lc as (? & _); lia). exists sc. eauto.
Qed.

(** The inner nodes of a tree without champion are empty. *)
Lemma good_empty streams values f T :
  f < kEmpty -> wf_shape f T -> good streams values T kEmpty ->
  forall n, n ∈ inner T -> values !! Z.to_nat n = Some kEmpty.
Proof.
  intros Hf HT. induction T as [i|n l IHl r IHr]; cbn [inner good]; [set_solver|].
  destruct HT as (_ & _ & _ & Hl & Hr). intros (cl & cr & v & Gl & Gr & Hv & Hm).
  assert (cl = kEmpty /\ cr = kEmpty /\ v = kEmpty) as (-> & -> & ->).
  { unfold match_ok, beats, live in Hm. destruct Hm as [?|[?|(? & ? & ? & (? & ? & (? & _) & _))]]; [naive_solver..|lia]. }
  intros m [->|[Hm'|Hm']%elem_of_app]%elem_of_cons; [done|by apply IHl|by apply IHr].
Qed.

Lemma inner_complete f T n :
  wf_shape f T -> 0 <= n < f -> descends (root_id f T) n -> n ∈ inner T.
Proof.
  intros HT Hn. induction T as [j|m l IHl r IHr]; cbn [wf_shape inner root_id] in *; intros Hd.
  - apply descends_ge in Hd; lia.
  - destruct HT as (Hm & El & Er & Hl & Hr). rewrite El in IHl. rewrite Er in IHr. destruct Hd as (d & Hd & E).
    apply elem_of_cons. destruct (decide (d = 0)) as [->|Hd0].
    { left. change (2 ^ 0) with 1 in E. rewrite Z.div_1_r in E. lia. }
    right. apply elem_of_app.
    replace d with ((d - 1) + 1) in E by lia. rewrite Z.pow_add_r, <- Z.div_div in E by lia.
    change (2 ^ 1) with 2 in E. pose proof (Z.div_mod ((n + 1) / 2 ^ (d - 1)) 2).
    pose proof (Z.mod_pos_bound ((n + 1) / 2 ^ (d - 1)) 2).
    destruct (decide (((n + 1) / 2 ^ (d - 1)) mod 2 = 0)).
    + left. apply IHl; [done|]. exists (d - 1). lia.
    + right. apply IHr; [done|]. exists (d - 1). lia.
Qed.

Lemma root_descends n : 0 <= n -> descends 0 n.
Proof.
  intros Hn. exists (Z.log2 (n + 1)). split; [apply Z.log2_nonneg|].
  pose proof (Z.log2_spec (n + 1) ltac:(lia)). rewrite Z.pow_succ_r in * by apply Z.log2_nonneg.
  symmetry. apply (Z.div_unique _ _ _ (n + 1 - 2 ^ Z.log2 (n + 1))); lia.
Qed.

(** The tree after a call. *)
Lemma called (t : TreeOfLosers A) values equals T c :
  sized t -> 1 <= firstStream_ t -> Z.of_nat (length values) = firstStream_ t ->
  Z.of_nat (length equals) = firstStream_ t ->
  wf_shape (firstStream_ t) T -> root_id (firstStream_ t) T = 0 -> good (streams_ t) values T c ->
  let t' := mkTree (streams_ t) values equals c (firstStream_ t) in
  sized t' /\ (if c =? kEmpty then blank t' else forall s, pending (set_stream t' c s)).
Proof.
  intros HZ Hf1 Hlen Hlen' HT Hroot HG t'. destruct HZ as [Hn Hf _ _].
  assert (firstStream_ t < kEmpty) as Hk by (unfold kEmpty; lia).
  split; [by split|]. destruct (c =? kEmpty) eqn:E.
  - apply Z.eqb_eq in E. subst c. split; [done|]. cbn. intros n Hn'.
    apply (good_empty (streams_ t) values (firstStream_ t) T); [done..|].
    apply (inner_complete (firstStream_ t)); [done|done|]. rewrite Hroot. apply root_descends. lia.
  - intros s. exists (streams_ t), T. subst t'. unfold set_stream.
    cbn [lastIndex_ firstStream_ streams_ values_]. split_and!; [done|done| | | |done].
    + destruct (good_champion _ _ _ _ _ Hk HT HG) as [[? _]|(_ & sc & ((? & _) & _) & _)]; lia.
    + destruct (good_champion _ _ _ _ _ Hk HT HG) as [[? _]|(Hin & _)]; [lia|].
      destruct (shape_descends _ T HT) as [_ HL]. destruct (HL c Hin). lia.
    + intros j Hj Hne. apply list_lookup_insert_ne.
      destruct (good_champion _ _ _ _ _ Hk HT HG) as [[? _]|(_ & sc & ((? & _) & _) & _)]; lia.
Qed.

Definition after_call (t t' : TreeOfLosers A) (r : option Z) : Prop :=
  streams_ t' = streams_ t /\ least (streams_ t) r
  /\ match r with
     | None => between_calls t'
     | Some i => forall s, between_calls (set_stream t' i s)
     end.

Lemma sized_set_stream (t : TreeOfLosers A) i s : sized t -> sized (set_stream t i s).
Proof. intros []. split; cbn; rewrite ?length_insert; done. Qed.

Lemma after_played (t : TreeOfLosers A) values equals T c :
  sized t -> 1 <= firstStream_ t -> Z.of_nat (length values) = firstStream_ t ->
  Z.of_nat (length equals) = firstStream_ t ->
  wf_shape (firstStream_ t) T -> root_id (firstStream_ t) T = 0 -> good (streams_ t) values T c ->
  after_call t (mkTree (streams_ t) values equals c (firstStream_ t)) (if c =? kEmpty then None else Some c).
Proof.
  intros HZ Hf1 Hlen Hlen' HT Hroot HG. destruct (called t values equals T c) as [HZ' Hc]; [done..|].
  split; [done|]. split; [by apply (good_least t values T)|].
  destruct (c =? kEmpty); [by split; [|left]|]. intros s. split; [by apply sized_set_stream|].
  right. split; [done|]. apply Hc.
Qed.

(** With one stream there is no tree. *)
Lemma single_stream (t : TreeOfLosers A) :
  sized t -> blank t -> values_ t = [] ->
  exists s, at_index (streams_ t) 0 = Ok s /\ after_call t t (if hasData s then Some 0 else None).
Proof.
  intros HZ HB Hv. pose proof HZ as [Hn Hf Hlen _]. rewrite Hv in Hlen. cbn in Hlen.
  destruct (streams_ t) as [|s [|s' l]] eqn:Es; [cbn in *; lia| |cbn in *; lia].
  exists s. split; [done|]. split; [done|]. rewrite Es.
  assert (forall i s', live [s] i s' -> i = 0 /\ s' = s) as Hone.
  { intros i s' (Hi & Hl & _). destruct (Z.to_nat i) eqn:E; [|done]. injection Hl as ->. split; [lia|done]. }
  destruct (hasData s) eqn:Hd.
  - split.
    + exists s. split; [by repeat split|]. intros j s' Hs'. destruct (Hone j s' Hs') as [_ ->].
      rewrite compare_self by done. lia.
    + intros s'. split; [by apply sized_set_stream|]. left. exact HB.
  - split; [|by split; [|left]]. intros i s' Hs'. destruct (Hone i s' Hs') as [_ ->].
    destruct Hs' as (_ & _ & ?). congruence.
Qed.

Lemma pending_play (t : TreeOfLosers A) :
  sized t -> pending t ->
  exists s, at_index (streams_ t) (lastIndex_ t) = Ok s /\ streams_ t !! Z.to_nat (lastIndex_ t) = Some s
    /\ (lastIndex_ t =? kEmpty) = false.
Proof.
  intros [Hn Hf _ _] (old & T & _ & _ & Hi & _).
  destruct (lookup_lt_is_Some_2 (streams_ t) (Z.to_nat (lastIndex_ t))) as [s Hs]; [lia|].
  exists s. split; [by apply at_index_ok; [lia|]|]. split; [done|]. apply Z.eqb_neq. unfold kEmpty. lia.
Qed.

Lemma inner_length f T : wf_shape f T -> NoDup (inner T) /\ forall n, n ∈ inner T -> 0 <= n < f.
Proof.
  intros HT. split; [|intros n Hn; by apply (shape_descends f T HT)].
  induction T as [i|n l IHl r IHr]; cbn [inner]; [constructor|].
  destruct (node_apart f n l r HT) as (_ & Hap & Nl & Nr). destruct HT as (_ & _ & _ & Hl & Hr).
  constructor; [set_solver|]. apply NoDup_app. split_and!; [by apply IHl|by intros x ? ?; apply (Hap x)|by apply IHr].
Qed.

Lemma depth_fuel f T : wf_shape f T -> (length (inner T) <= Z.to_nat f)%nat.
Proof.
  intros HT. destruct (inner_length f T HT) as [Hnd Hr].
  assert (length (inner T) <= length (seqZ 0 f))%nat as Hle.
  { apply NoDup_incl_length; [by apply NoDup_ListNoDup|]. intros n Hn%list_elem_of_In.
    apply list_elem_of_In, elem_of_seqZ. destruct (Hr n Hn). lia. }
  by rewrite length_seqZ in Hle.
Qed.

(** A call of [next] returns a stream with the least first value; then the caller
    may change this stream in any way. *)
Lemma tree_next_ok (t : TreeOfLosers A) :
  between_calls t -> exists t' r, next t = Ok (t', r) /\ after_call t t' r.
Proof.
  intros [HZ HS]. pose proof HZ as [Hn Hf Hlen Hlen']. unfold next.
  destruct HS as [HB|[Hf1 HP]].
  - pose proof HB as [-> Hv]. rewrite Z.eqb_refl. destruct (values_ t) as [|v0 vs] eqn:Ev.
    { destruct (single_stream t HZ HB Ev) as (s & -> & Hs). cbn [rbind]. eexists _, _. split; [done|exact Hs]. }
    rewrite <- Ev. assert (1 <= firstStream_ t) as Hf1 by (rewrite <- Hlen; cbn; lia).
    destruct (shape_exists (firstStream_ t) 0) as (T & HT & Hroot); [lia|lia|].
    destruct (first_ok (streams_ t) (firstStream_ t) ltac:(lia) ltac:(lia) (tree_fuel t) T (values_ t))
      as (c & values' & Hrun & HG & [Hl _]); [done|by rewrite Ev| | |].
    { intros n Hin. rewrite Ev. apply Hv. by apply (shape_descends _ T HT). }
    { unfold tree_fuel. lia. }
    rewrite Hroot in Hrun. rewrite Hrun. cbn [rbind]. eexists _, _. split; [done|].
    apply (after_played t values' (equals_ t) T c); [done|done|rewrite Ev in Hl; lia|done..].
  - destruct (pending_play t HZ HP) as (s & Hat & Hs & ->). unfold last_value. rewrite Hat. cbn [rbind].
    destruct HP as (old & T & HT & Hroot & Hi & Hsame & HG).
    destruct (climb_ok old (streams_ t) (firstStream_ t) (lastIndex_ t) ltac:(lia) ltac:(lia) Hi Hsame T (values_ t) s)
      as (c & values' & depth & HG' & [Hl _] & Hdepth & Hrun); [done|done| |done|done|].
    { by apply (root_complete (firstStream_ t)). }
    pose proof (depth_fuel _ T HT).
    assert (exists rest, tree_fuel t = depth + rest)%nat as [rest Hrest].
    { exists (tree_fuel t - depth)%nat. unfold tree_fuel. lia. }
    specialize (Hrun rest). rewrite Hroot, Z.eqb_refl in Hrun. cbn in Hrun. rewrite <- Hrest in Hrun.
    rewrite (propagate_climb _ _ _ _ _ _ Hrun). cbn [rbind]. eexists _, _. split; [done|].
    apply (after_played t values' (equals_ t) T c); [done|done|lia|done..].
Qed.

(** A new tree is ready for the first call. *)
Lemma make_between (streams : list A) :
  1 <= Z.of_nat (length streams) <= 32768 ->
  exists t, make_TreeOfLosers streams = Ok t /\ between_calls t /\ streams_ t = streams.
Proof.
  intros Hn. rewrite make_TreeOfLosers_ok by lia. eexists. split; [done|]. split; [|done].
  split; [split; cbn; rewrite ?length_replicate; lia|]. left. split; [done|]. cbn. intros n Hn'.
  apply lookup_replicate_2. lia.
Qed.
End calls.
