(* ===== verification/TreeOfLosersEquals.v ===== *)
(** The tree of losers with the detection of equal values (bolt/exec/TreeOfLosers.h,
    [nextWithEquals]): the flag that comes with the least stream says whether
    another stream starts with an equal value. *)

From S2P Require Import Prelude BitUtil TreeOfLosers.

(** * A played tree with flags *)

Section flagged.
Context {A : Type} `{MergeOrder A}.

(** [c] goes up with the flag [fc], the loser [v] stays with its flag [e]. *)
Definition flag_match (streams : list A) (cl : Z) (fl : bool) (cr : Z) (fr : bool)
    (c : Z) (fc : bool) (v : Z) (e : bool) : Prop :=
  (cl = kEmpty /\ c = cr /\ fc = fr /\ v = kEmpty)
  \/ (cl <> kEmpty /\ cr = kEmpty /\ c = cl /\ fc = fl /\ v = kEmpty)
  \/ (cl <> kEmpty /\ cr <> kEmpty
      /\ exists sc sv f0, live streams c sc /\ live streams v sv /\ compare sc sv <= 0
           /\ (c = cl /\ f0 = fl /\ v = cr /\ e = fr \/ c = cr /\ f0 = fr /\ v = cl /\ e = fl)
           /\ fc = f0 || (compare sc sv =? 0)).

Fixpoint flagged (streams : list A) (values : list Z) (equals : list bool) (T : shape) (c : Z) (fc : bool)
  : Prop :=
  match T with
  | Leaf i => exists s, streams !! Z.to_nat i = Some s
      /\ c = (if hasData s then i else kEmpty) /\ fc = (if hasData s then isNextEqual s else false)
  | Node n l r =>
      exists cl fl cr fr v e, flagged streams values equals l cl fl /\ flagged streams values equals r cr fr
        /\ values !! Z.to_nat n = Some v /\ equals !! Z.to_nat n = Some e
        /\ flag_match streams cl fl cr fr c fc v e
  end.

Lemma flag_match_ok streams cl fl cr fr c fc v e :
  flag_match streams cl fl cr fr c fc v e -> match_ok streams cl cr c v.
Proof.
  intros [?|[?|(? & ? & sc & sv & f0 & Lc & Lv & Hle & Hcv & _)]]; [left; naive_solver|right; left; naive_solver|].
  right; right. split_and!; [done|done|naive_solver|]. by exists sc, sv.
Qed.

Lemma flagged_good streams values equals T c fc :
  flagged streams values equals T c fc -> good streams values T c.
Proof.
  revert c fc. induction T as [i|n l IHl r IHr]; cbn [flagged good]; intros c fc.
  - intros (s & Hs & -> & _). by exists s.
  - intros (cl & fl & cr & fr & v & e & Gl & Gr & Hv & _ & Hm).
    exists cl, cr, v. split_and!; eauto using flag_match_ok.
Qed.

(** Comparing with streams that are equal, or not before an equal one. *)
Lemma compare_equal_trans a b c :
  hasData a = true -> hasData b = true -> hasData c = true ->
  compare a b = 0 -> compare b c = 0 -> compare a c = 0.
Proof.
  intros Ha Hb Hc H1 H2. pose proof (compare_flip a b Ha Hb). pose proof (compare_flip b c Hb Hc).
  pose proof (compare_flip b a Hb Ha). pose proof (compare_flip c b Hc Hb).
  pose proof (compare_trans a b c Ha Hb Hc). pose proof (compare_trans c b a Hc Hb Ha).
  pose proof (compare_flip a c Ha Hc). pose proof (compare_flip c a Hc Ha). lia.
Qed.

Lemma compare_equal_sym a b : hasData a = true -> hasData b = true -> compare a b = 0 -> compare b a = 0.
Proof. intros Ha Hb Hab. pose proof (compare_flip a b Ha Hb). pose proof (compare_flip b a Hb Ha). lia. Qed.

(** If [a] is before or equal to [b], and [b] to [c], and [a] equals [c], it equals [b]. *)
Lemma compare_between a b c :
  hasData a = true -> hasData b = true -> hasData c = true ->
  compare a b <= 0 -> compare b c <= 0 -> compare a c = 0 -> compare a b = 0.
Proof.
  intros Ha Hb Hc H1 H2 H3. pose proof (compare_equal_sym a c Ha Hc H3).
  pose proof (compare_trans b c a Hb Hc Ha). pose proof (compare_flip a b Ha Hb). lia.
Qed.

(** Another stream of [T] starts with the same value. *)
Definition twin (streams : list A) (T : shape) (c : Z) (sc : A) : Prop :=
  exists j s, j ∈ leaves T /\ j <> c /\ live streams j s /\ compare sc s = 0.

(** The flag of the winner [c] of a side against a later winner [v] of the other side. *)
Lemma twin_node streams f n l r P Q c v sc sv (f0 : bool) :
  f < kEmpty -> wf_shape f (Node n l r) -> (P = l /\ Q = r \/ P = r /\ Q = l) ->
  c ∈ leaves P -> v ∈ leaves Q -> live streams c sc -> live streams v sv -> compare sc sv <= 0 ->
  (forall i s, i ∈ leaves Q -> live streams i s -> compare sv s <= 0) ->
  (f0 = true <-> isNextEqual sc = true \/ twin streams P c sc) ->
  f0 || (compare sc sv =? 0) = true <-> isNextEqual sc = true \/ twin streams (Node n l r) c sc.
Proof.
  intros Hf HT Hside Hc Hv Lc Lv Hle Hmin IH. destruct (node_apart f n l r HT) as (Hap & _ & _ & _).
  assert (forall j, j ∈ leaves (Node n l r) <-> j ∈ leaves P \/ j ∈ leaves Q) as Hleaves.
  { intros j. cbn [leaves]. rewrite elem_of_app. naive_solver. }
  rewrite orb_true_iff, IH, Z.eqb_eq. split.
  - intros [[Hs|(j & s & Hj & Hne & Lj & E)]|E]; [by left|right; exists j, s|right; exists v, sv].
    + split_and!; [apply Hleaves; by left|done|done|done].
    + split_and!; [apply Hleaves; by right| |done|done]. intros ->. naive_solver.
  - intros [Hs|(j & s & Hj & Hne & Lj & E)]; [by left; left|]. apply Hleaves in Hj as [Hj|Hj].
    + left; right. by exists j, s.
    + right. apply (compare_between sc sv s); [apply Lc|apply Lv|apply Lj|done|by apply (Hmin j)|done].
Qed.

(** The flag is right: it says whether there is an equal value. *)
Lemma flagged_twin f streams values equals T c fc sc :
  f < kEmpty -> wf_shape f T -> flagged streams values equals T c fc -> live streams c sc ->
  fc = true <-> isNextEqual sc = true \/ twin streams T c sc.
Proof.
  intros Hf. revert c fc sc. induction T as [i|n l IHl r IHr]; cbn [flagged]; intros c fc sc HT.
  - intros (s & Hs & -> & ->) (Hr & Hsc & Hd). destruct (hasData s) eqn:E.
    + assert (sc = s) as -> by congruence. split; [by left|]. intros [?|(j & s' & Hj & Hne & _)]; [done|].
      apply list_elem_of_singleton in Hj. done.
    + unfold kEmpty in Hr. lia.
  - intros (cl & fl & cr & fr & v & e & Gl & Gr & _ & _ & Hm) Lc. pose proof HT as (_ & _ & _ & Hl & Hr).
    assert (forall j, j ∈ leaves (Node n l r) <-> j ∈ leaves l \/ j ∈ leaves r) as Hleaves
      by (intros j; cbn [leaves]; by rewrite elem_of_app).
    pose proof (good_champion f streams values l cl Hf Hl (flagged_good _ _ _ _ _ _ Gl)) as Cl.
    pose proof (good_champion f streams values r cr Hf Hr (flagged_good _ _ _ _ _ _ Gr)) as Cr.
    destruct Hm as [(-> & -> & -> & _)|[(Hne & -> & -> & -> & _)|(Hnl & Hnr & sc' & sv & f0 & Lc' & Lv & Hle & Hcv & ->)]].
    + rewrite (IHr cr fr sc Hr Gr Lc). destruct Cl as [[_ Hno]|[? _]];
        [|apply (shape_descends f l Hl) in H1 as [_ ?]; lia].
      split; (intros [?|(j & s & Hj & ?)]; [by left|right; exists j, s]); rewrite Hleaves in *; naive_solver.
    + rewrite (IHl cl fl sc Hl Gl Lc). destruct Cr as [[_ Hno]|[? _]];
        [|apply (shape_descends f r Hr) in H1 as [_ ?]; lia].
      split; (intros [?|(j & s & Hj & ?)]; [by left|right; exists j, s]); rewrite Hleaves in *; naive_solver.
    + rewrite (live_inj _ _ _ _ Lc' Lc) in *. destruct Cl as [[? _]|(Ml & sl & Ll & Minl)]; [done|].
      destruct Cr as [[? _]|(Mr & sr & Lr & Minr)]; [done|].
      destruct Hcv as [(-> & -> & -> & _)|(-> & -> & -> & _)].
      * apply (twin_node streams f n l r l r cl cr); try done; [by left| |by apply IHl].
        by rewrite (live_inj _ _ _ _ Lv Lr).
      * apply (twin_node streams f n l r r l cr cl); try done; [by right| |by apply IHr].
        by rewrite (live_inj _ _ _ _ Lv Ll).
Qed.
End flagged.

(** * Playing with flags *)

Section play_flags.
Context {A : Type} `{MergeOrder A}.

(** The tree depends on its own nodes and streams only. *)
Lemma flagged_ext f streams streams' values values' equals equals' T c fc :
  f < kEmpty -> wf_shape f T ->
  (forall n, n ∈ inner T -> values' !! Z.to_nat n = values !! Z.to_nat n) ->
  (forall n, n ∈ inner T -> equals' !! Z.to_nat n = equals !! Z.to_nat n) ->
  (forall i, i ∈ leaves T -> streams' !! Z.to_nat i = streams !! Z.to_nat i) ->
  flagged streams values equals T c fc -> flagged streams' values' equals' T c fc.
Proof.
  intros Hf HT. revert c fc. induction T as [i|n l IHl r IHr]; cbn [wf_shape inner leaves flagged] in *;
    intros c fc Hv He Hs.
  - intros (s & Hi & -> & ->). exists s. rewrite Hs by set_solver. done.
  - intros (cl & fl & cr & fr & v & e & Gl & Gr & Hn & Hne & Hm). destruct HT as (Hn' & _ & _ & Hl & Hr).
    exists cl, fl, cr, fr, v, e. split_and!.
    + apply IHl; [done|set_solver..|done].
    + apply IHr; [done|set_solver..|done].
    + rewrite Hv by set_solver. done.
    + rewrite He by set_solver. done.
    + destruct Hm as [?|[?|(? & ? & sc & sv & f0 & Lc & Lv & Hle & Hcv & ->)]];
        [by left|by right; left|]. right; right. split_and!; [done|done|]. exists sc, sv, f0.
      assert (forall i s, (i = cl \/ i = cr) -> live streams i s -> streams' !! Z.to_nat i = Some s) as Hext.
      { intros i s Hi (Hr' & Hst & Hd). rewrite Hs; [done|]. apply elem_of_app. destruct Hi as [-> | ->].
        - destruct (good_champion f _ _ _ _ Hf Hl (flagged_good _ _ _ _ _ _ Gl)) as [[-> _]|[? _]]; [lia|by left].
        - destruct (good_champion f _ _ _ _ Hf Hr (flagged_good _ _ _ _ _ _ Gr)) as [[-> _]|[? _]]; [lia|by right]. }
      assert (streams' !! Z.to_nat c = Some sc) by (apply Hext; [naive_solver|done]).
      assert (streams' !! Z.to_nat v = Some sv) by (apply Hext; [naive_solver|done]).
      destruct Lc as (? & _ & ?), Lv as (? & _ & ?). by repeat (split; [done|]).
Qed.

Variables (streams : list A) (f : Z).
Hypothesis Hcount : Z.of_nat (length streams) = f + 1.
Hypothesis Hf : 1 <= f <= 32767.

(** The arrays have a place for each inner node. *)
Definition fits (values : list Z) (equals : list bool) : Prop :=
  Z.of_nat (length values) = f /\ Z.of_nat (length equals) = f.

Lemma flagged_kept values values' equals equals' T c fc :
  wf_shape f T -> (forall n, n ∈ inner T -> values' !! Z.to_nat n = values !! Z.to_nat n) ->
  (forall n, n ∈ inner T -> equals' !! Z.to_nat n = equals !! Z.to_nat n) ->
  flagged streams values equals T c fc -> flagged streams values' equals' T c fc.
Proof. intros HT Hv He. apply (flagged_ext f); [unfold kEmpty; lia|done..]. Qed.

Lemma flagged_live values equals T c fc :
  wf_shape f T -> flagged streams values equals T c fc -> c <> kEmpty -> exists s, live streams c s.
Proof.
  intros HT HG Hc. destruct (good_champion f streams values T c ltac:(unfold kEmpty; lia) HT
    (flagged_good _ _ _ _ _ _ HG)) as [[? _]|(_ & s & Hs & _)]; [done|by exists s].
Qed.

Lemma flagged_node values equals n l r cl fl cr fr c fc v e :
  wf_shape f (Node n l r) -> fits values equals ->
  flagged streams values equals l cl fl -> flagged streams values equals r cr fr ->
  flag_match streams cl fl cr fr c fc v e ->
  flagged streams (<[Z.to_nat n := v]> values) (<[Z.to_nat n := e]> equals) (Node n l r) c fc.
Proof.
  intros HT [Lv Le] Gl Gr Hm. pose proof HT as (Hn & _ & _ & Hl & Hr).
  destruct (node_apart f n l r HT) as (_ & _ & Nl & Nr).
  destruct (shape_descends f l Hl) as [Il _], (shape_descends f r Hr) as [Ir _].
  assert (forall {B} (vs : list B) x m, Z.of_nat (length vs) = f -> m ∈ inner l \/ m ∈ inner r ->
    <[Z.to_nat n := x]> vs !! Z.to_nat m = vs !! Z.to_nat m) as Hother.
  { intros B vs x m Hlen Hm'. assert (0 <= m) by (destruct Hm' as [Hm'|Hm']; [apply Il in Hm'|apply Ir in Hm']; lia).
    rewrite set_value by lia. replace (m =? n) with false; [done|]. symmetry. apply Z.eqb_neq. naive_solver. }
  cbn [flagged]. exists cl, fl, cr, fr, v, e. split_and!.
  - apply (flagged_kept values _ equals); [done|intros; apply Hother; auto..|done].
  - apply (flagged_kept values _ equals); [done|intros; apply Hother; auto..|done].
  - rewrite set_value by lia. by rewrite Z.eqb_refl.
  - rewrite set_value by lia. by rewrite Z.eqb_refl.
  - done.
Qed.

Lemma flagged_node_same values equals n l r cl fl cr fr c fc v e :
  flagged streams values equals l cl fl -> flagged streams values equals r cr fr ->
  values !! Z.to_nat n = Some v -> equals !! Z.to_nat n = Some e ->
  flag_match streams cl fl cr fr c fc v e -> flagged streams values equals (Node n l r) c fc.
Proof. intros Gl Gr Hv He Hm. cbn [flagged]. by exists cl, fl, cr, fr, v, e. Qed.

Lemma at_lookup {B} (vs : list B) n :
  0 <= n < Z.of_nat (length vs) -> exists x, at_index vs n = Ok x /\ vs !! Z.to_nat n = Some x.
Proof.
  intros Hn. destruct (lookup_lt_is_Some_2 vs (Z.to_nat n)) as [x Hx]; [lia|]. exists x.
  split; [|done]. apply at_index_ok; [lia|done].
Qed.

(** The match of [cl] and [cr] by [compare]: three ways to end. *)
Lemma flag_match_live cl fl cr fr sl sr :
  live streams cl sl -> live streams cr sr ->
  let comparison := compare sl sr in
  (comparison = 0 -> flag_match streams cl fl cr fr cl true cr fr)
  /\ (comparison < 0 -> flag_match streams cl fl cr fr cl fl cr fr)
  /\ (0 < comparison -> flag_match streams cl fl cr fr cr fr cl fl).
Proof.
  intros Ll Lr. pose proof Ll as (? & _ & Dl). pose proof Lr as (? & _ & Dr). cbv zeta.
  pose proof (compare_flip sl sr Dl Dr). pose proof (compare_flip sr sl Dr Dl).
  split_and!; intros Hc; right; right; (split; [lia|]; split; [lia|]).
  - exists sl, sr, fl. split_and!; [done|done|lia|by left|].
    replace (compare sl sr =? 0) with true by lia. by rewrite orb_true_r.
  - exists sl, sr, fl. split_and!; [done|done|lia|by left|].
    replace (compare sl sr =? 0) with false by lia. by rewrite orb_false_r.
  - exists sr, sl, fr. split_and!; [done|done|lia|by right|].
    replace (compare sr sl =? 0) with false by lia. by rewrite orb_false_r.
Qed.

(** A side without data has no flag. *)
Lemma flagged_empty values equals T fc :
  wf_shape f T -> flagged streams values equals T kEmpty fc -> fc = false.
Proof.
  clear Hcount. revert fc. induction T as [i|n l IHl r IHr]; cbn [wf_shape flagged]; intros fc HT.
  - intros (s & _ & Hc & ->). destruct (hasData s); [unfold kEmpty in Hc; lia|done].
  - destruct HT as (_ & _ & _ & Hl & Hr). intros (cl & fl & cr & fr & v & e & Gl & Gr & _ & _ & Hm).
    destruct Hm as [(-> & <- & -> & _)|[(? & -> & <- & _)|(_ & _ & sc & sv & f0 & ((_ & ?) & _) & _)]];
      [by apply IHr|done|lia].
Qed.

Lemma flag_match_sym cl (fl : bool) cr (fr : bool) c fc v e :
  (cl = kEmpty -> fl = false) -> (cr = kEmpty -> fr = false) ->
  flag_match streams cl fl cr fr c fc v e -> flag_match streams cr fr cl fl c fc v e.
Proof.
  clear Hcount Hf. intros Hl Hr.
  intros [(-> & -> & -> & ->)|[(? & -> & -> & -> & ->)|(? & ? & sc & sv & f0 & Lc & Lv & Hle & Hcv & ->)]].
  - destruct (decide (cr = kEmpty)) as [->|]; [left|right; left; done]. by rewrite Hl, Hr.
  - by left.
  - right; right. split_and!; [done|done|]. exists sc, sv, f0. naive_solver.
Qed.

Lemma firstWithEquals_ok fuel T values equals :
  wf_shape f T -> fits values equals ->
  (forall n, n ∈ inner T -> values !! Z.to_nat n = Some kEmpty) ->
  (Z.to_nat (2 * f - root_id f T) < fuel)%nat ->
  exists c fc values' equals',
    firstWithEquals streams f fuel (root_id f T) values equals = Ok (c, fc, values', equals')
    /\ flagged streams values' equals' T c fc /\ only_inner T values values' /\ only_inner T equals equals'.
Proof.
  revert T values equals. induction fuel as [|fuel IH]; intros T values equals HT Hfit Hempty Hfuel; [lia|].
  cbn [firstWithEquals]. destruct T as [i|n l r]; cbn [root_id wf_shape] in *.
  - replace (f + i >=? f) with true by lia. replace (f + i - f) with i by lia.
    destruct (at_lookup streams i) as (s & -> & Hs); [lia|]. cbn [rbind]. rewrite to_index_id by lia.
    exists (if hasData s then i else kEmpty), (if hasData s then isNextEqual s else false), values, equals.
    split; [by destruct (hasData s)|]. split; [by exists s|done].
  - pose proof HT as (Hn & El & Er & Hl & Hr). pose proof (node_apart f n l r HT) as (_ & Hap & Nl & Nr).
    replace (n >=? f) with false by lia.
    destruct (children_ok n ltac:(lia) ltac:(lia)) as [-> ->]. rewrite <- El, <- Er.
    destruct (IH l values equals) as (cl & fl & v1 & e1 & -> & Gl & O1 & P1);
      [done|done|intros; apply Hempty; cbn [inner]; set_solver|lia|]. cbn [rbind].
    destruct (shape_descends f l Hl) as [Il _], (shape_descends f r Hr) as [Ir _].
    destruct (IH r v1 e1) as (cr & fr & v2 & e2 & -> & Gr & O2 & P2);
      [done|destruct O1, P1, Hfit; split; lia| |lia|].
    { intros m Hm. destruct (Ir m Hm).
      destruct O1 as [_ ->]; [apply Hempty; cbn [inner]; set_solver|lia|naive_solver]. }
    cbn [rbind]. assert (flagged streams v2 e2 l cl fl) as Gl2.
    { apply (flagged_kept v1 _ e1); [done| | |done]; intros m Hm; destruct (Il m Hm);
        [apply O2|apply P2]; (lia || naive_solver). }
    pose proof (only_inner_trans n l r _ _ _ O1 O2) as O12. pose proof (only_inner_trans n l r _ _ _ P1 P2) as P12.
    assert (fits v2 e2) as Hfit2 by (destruct O12, P12, Hfit; split; lia).
    assert (v2 !! Z.to_nat n = Some kEmpty) as Hv.
    { destruct O2 as [_ ->]; [|lia|done]. destruct O1 as [_ ->]; [|lia|done]. apply Hempty. cbn; set_solver. }
    destruct Hfit as [Lval Leq], Hfit2 as [Lv2 Le2] eqn:Efit.
    destruct (at_lookup e2 n) as (e & _ & He); [lia|].
    destruct (cl =? kEmpty) eqn:E1.
    { exists cr, fr, v2, e2. split; [done|]. split; [|done].
      eapply flagged_node_same; [done..|]. left. split_and!; [lia|done..]. }
    destruct (cr =? kEmpty) eqn:E2.
    { exists cl, fl, v2, e2. split; [done|]. split; [|done].
      eapply flagged_node_same; [done..|]. right; left. split_and!; [lia|lia|done..]. }
    destruct (flagged_live _ _ _ _ _ Hl Gl2 ltac:(lia)) as (sl & Ll).
    destruct (flagged_live _ _ _ _ _ Hr Gr ltac:(lia)) as (sr & Lr).
    rewrite (live_at streams cl sl Ll), (live_at streams cr sr Lr). cbn [rbind].
    destruct (flag_match_live cl fl cr fr sl sr Ll Lr) as (M0 & M1 & M2).
    assert (forall c fc v x, flag_match streams cl fl cr fr c fc v x ->
      flagged streams (<[Z.to_nat n := v]> v2) (<[Z.to_nat n := x]> e2) (Node n l r) c fc
      /\ only_inner (Node n l r) values (<[Z.to_nat n := v]> v2)
      /\ only_inner (Node n l r) equals (<[Z.to_nat n := x]> e2)) as Hend.
    { intros c fc v x Hm. split; [by eapply flagged_node|]. split; apply only_inner_set; (lia || done). }
    destruct (compare sl sr =? 0) eqn:C0; [|destruct (compare sl sr <? 0) eqn:C1];
      rewrite !set_index_ok by lia; cbn [rbind]; eexists _, _, _, _; (split; [done|]); apply Hend.
    + apply M0. lia.
    + apply M1. lia.
    + apply M2. lia.
Qed.

(** ** Replaying *)

(** The match at node [n] of the value that comes up with the champion of the other
    side, which the node holds. *)
Lemma playWithEquals_match n value (flag : bool) v (e : bool) values equals :
  0 <= n < f -> fits values equals -> values !! Z.to_nat n = Some v ->
  (v <> kEmpty -> equals !! Z.to_nat n = Some e) -> (v = kEmpty -> e = false) ->
  empty_or_live streams value -> empty_or_live streams v -> (value = kEmpty -> flag = false) ->
  exists c fc x y, playWithEquals streams n value flag values equals
      = Ok (c, fc, <[Z.to_nat n := x]> values, <[Z.to_nat n := y]> equals)
    /\ flag_match streams value flag v e c fc x y.
Proof.
  intros Hn [Lval Leq] Hv He Hempty Hvalue Hheld Hflag. unfold playWithEquals.
  rewrite (at_index_ok _ _ v) by (done || lia). cbn [rbind].
  destruct (v =? kEmpty) eqn:E1.
  { destruct (at_lookup equals n) as (e' & _ & He'); [lia|].
    exists value, flag, v, e'. rewrite !list_insert_id by done. split; [done|].
    destruct (decide (value = kEmpty)) as [->|]; [left|right; left; split_and!; done || lia].
    split_and!; [done|lia|by rewrite Hflag, Hempty by lia|lia]. }
  specialize (He ltac:(lia)). destruct (value =? kEmpty) eqn:E2.
  { rewrite (at_index_ok _ _ e) by (done || lia). cbn [rbind]. rewrite !set_index_ok by lia.
    exists v, e, kEmpty, false. split; [done|]. left. split_and!; [lia|done..]. }
  destruct Hvalue as [?|[sn Ln]]; [lia|]. destruct Hheld as [?|[sh Lh]]; [lia|].
  rewrite (live_at streams _ _ Lh), (live_at streams _ _ Ln). cbn [rbind].
  destruct (flag_match_live value flag v e sn sh Ln Lh) as (M0 & M1 & M2).
  pose proof (compare_flip sh sn ltac:(apply Lh) ltac:(apply Ln)).
  pose proof (compare_flip sn sh ltac:(apply Ln) ltac:(apply Lh)).
  destruct (compare sh sn =? 0) eqn:C0; [|destruct (compare sh sn <? 0) eqn:C1].
  - exists value, true, v, e. rewrite !list_insert_id by done. split; [done|]. apply M0. lia.
  - rewrite (at_index_ok _ _ e) by (done || lia). cbn [rbind]. rewrite !set_index_ok by lia.
    exists v, e, value, flag. split; [done|]. apply M2. lia.
  - exists value, flag, v, e. rewrite !list_insert_id by done. split; [done|]. apply M1. lia.
Qed.

Lemma climbWithEquals_mono fuel fuel' node value flag values equals r :
  (fuel <= fuel')%nat -> climbWithEquals streams fuel node value flag values equals = Ok r ->
  climbWithEquals streams fuel' node value flag values equals = Ok r.
Proof.
  revert fuel' node value flag values equals.
  induction fuel as [|fuel IH]; intros fuel' node value flag values equals Hle; [done|].
  destruct fuel' as [|fuel']; [lia|]. cbn [climbWithEquals].
  destruct (playWithEquals streams node value flag values equals) as [[[[value' flag'] values'] equals']|];
    [|done]. cbn [rbind]. destruct (node =? 0); [done|]. apply IH. lia.
Qed.

Lemma skip_climbWithEquals fuel node value flag values equals r :
  climbWithEquals streams fuel node value flag values equals = Ok r ->
  (let! start := skip_empty fuel values node in
   match start with
   | None => Ok (value, flag, values, equals)
   | Some node => climbWithEquals streams fuel node value flag values equals
   end) = Ok r.
Proof.
  revert node. induction fuel as [|fuel IH]; intros node Hrun; [done|].
  cbn [skip_empty]. cbn [climbWithEquals] in Hrun. pose proof Hrun as Hrun0. unfold playWithEquals in Hrun.
  destruct (at_index values node) as [v|]; [|done]. cbn [rbind] in *.
  destruct (v =? kEmpty) eqn:E; [|done]. cbn [rbind] in Hrun.
  destruct (node =? 0); [done|]. specialize (IH (parent node) Hrun).
  destruct (skip_empty fuel values (parent node)) as [[node'|]|]; [|done|done].
  cbn [rbind] in *. by apply (climbWithEquals_mono fuel); [lia|].
Qed.
End play_flags.

Section replay_flags.
Context {A : Type} `{MergeOrder A}.
Variables (old streams : list A) (f i : Z).
Hypothesis Hcount : Z.of_nat (length streams) = f + 1.
Hypothesis Hf : 1 <= f <= 32767.
Hypothesis Hi : 0 <= i <= f.
Hypothesis Hsame : forall j, 0 <= j -> j <> i -> streams !! Z.to_nat j = old !! Z.to_nat j.

(** The other side of the path of the champion, with the flag its node holds. *)
Definition held (values : list Z) (equals : list bool) (n : Z) (Q : shape) : Prop :=
  exists cs fs, flagged old values equals Q cs fs /\ values !! Z.to_nat n = Some cs
    /\ (cs <> kEmpty -> equals !! Z.to_nat n = Some fs).

Lemma flagged_sibling values equals n l r fi :
  wf_shape f (Node n l r) -> flagged old values equals (Node n l r) i fi ->
  (i ∈ leaves l -> (exists fi', flagged old values equals l i fi') /\ held values equals n r)
  /\ (i ∈ leaves r -> (exists fi', flagged old values equals r i fi') /\ held values equals n l).
Proof.
  intros HT (cl & fl & cr & fr & v & e & Gl & Gr & Hv & He & Hm). pose proof HT as (_ & _ & _ & Hl & Hr).
  destruct (node_apart f n l r HT) as (Hap & _ & _ & _).
  assert (f < kEmpty) as Hk by (unfold kEmpty; lia). assert (i <> kEmpty) as Hne by lia.
  pose proof (good_champion f _ _ _ _ Hk Hl (flagged_good _ _ _ _ _ _ Gl)) as Cl.
  pose proof (good_champion f _ _ _ _ Hk Hr (flagged_good _ _ _ _ _ _ Gr)) as Cr.
  destruct Hm as [(-> & <- & _ & ->)|[(Hcl & -> & <- & _ & ->)|(Hcl & Hcr & sc & sv & f0 & _ & _ & _ & Hcv & _)]].
  - destruct Cr as [[? _]|[Mr _]]; [done|]. split; intros Hin; [by destruct (Hap i)|].
    split; [by exists fr|]. exists kEmpty, fl. split_and!; done.
  - destruct Cl as [[? _]|[Ml _]]; [done|]. split; intros Hin; [|by destruct (Hap i)].
    split; [by exists fl|]. exists kEmpty, fr. split_and!; done.
  - destruct Cl as [[? _]|[Ml _]]; [done|]. destruct Cr as [[? _]|[Mr _]]; [done|].
    destruct Hcv as [(<- & _ & -> & ->)|(<- & _ & -> & ->)]; split; intros Hin;
      try (by destruct (Hap i)); (split; [by eexists|]).
    + by exists cr, fr.
    + by exists cl, fl.
Qed.

Definition replayedWithEquals (values : list Z) (equals : list bool) (value : Z) (flag : bool) (T : shape) : Prop :=
  exists c fc values' equals' depth, flagged streams values' equals' T c fc
    /\ only_inner T values values' /\ only_inner T equals equals' /\ (depth <= length (inner T))%nat
    /\ forall fuel, climbWithEquals streams (depth + fuel) (parent (f + i)) value flag values equals
        = if root_id f T =? 0 then Ok (c, fc, values', equals')
          else climbWithEquals streams fuel (parent (root_id f T)) c fc values' equals'.

Lemma flagged_empty_or_live values equals T c fc :
  wf_shape f T -> flagged streams values equals T c fc -> empty_or_live streams c.
Proof.
  intros HT HG. destruct (decide (c = kEmpty)); [by left|right].
  by apply (flagged_live streams f Hf values equals T c fc).
Qed.

Lemma replay_up_flags n l r P Q values equals value flag :
  wf_shape f (Node n l r) -> (P = l /\ Q = r \/ P = r /\ Q = l) -> fits f values equals ->
  i ∉ leaves Q -> held values equals n Q ->
  replayedWithEquals values equals value flag P -> replayedWithEquals values equals value flag (Node n l r).
Proof.
  intros HT Hside [Lval Leq] HiQ (cs & fs & GQ & Hv & He)
    (v & fv & v1 & e1 & depth & GP & [Lv1 Hv1] & [Le1 He1] & Hdepth & Hrun).
  pose proof HT as (Hn & El & Er & Hl & Hr). destruct (node_apart f n l r HT) as (_ & Hapi & Nl & Nr).
  assert (wf_shape f P /\ wf_shape f Q /\ n ∉ inner P /\ (root_id f P = 2 * n + 1 \/ root_id f P = 2 * n + 2)
    /\ (forall m, m ∈ inner P -> m ∈ inner Q -> False)) as (HP & HQ & HnP & Eroot & Hd) by naive_solver.
  destruct (shape_descends f Q HQ) as [IQ LQ].
  assert (flagged streams v1 e1 Q cs fs) as GQ1.
  { apply (flagged_ext f old _ values _ equals); [unfold kEmpty; lia|done| | | |done].
    - intros m Hm. destruct (IQ m Hm). apply Hv1; [lia|naive_solver].
    - intros m Hm. destruct (IQ m Hm). apply He1; [lia|naive_solver].
    - intros j Hj. destruct (LQ j Hj). apply Hsame; [lia|]. by intros ->. }
  assert (v = kEmpty -> fv = false) as Ev by (intros ->; by apply (flagged_empty streams f Hf v1 e1 P)).
  assert (cs = kEmpty -> fs = false) as Es by (intros ->; by apply (flagged_empty streams f Hf v1 e1 Q)).
  destruct (playWithEquals_match streams f n v fv cs fs v1 e1) as (c & fc & x & y & Hplay & Hm);
    [lia|split; lia|by rewrite (Hv1 n ltac:(lia) HnP)|rewrite (He1 n ltac:(lia) HnP); done|done
    |by apply (flagged_empty_or_live v1 e1 P v fv)|by apply (flagged_empty_or_live v1 e1 Q cs fs)|done|].
  exists c, fc, (<[Z.to_nat n := x]> v1), (<[Z.to_nat n := y]> e1), (S depth). split_and!.
  - destruct Hside as [[-> ->]|[-> ->]].
    + apply (flagged_node streams f Hcount Hf _ _ _ _ _ v fv cs fs); [done|split; lia|done..].
    + apply (flagged_node streams f Hcount Hf _ _ _ _ _ cs fs v fv); [done|split; lia|done|done|].
      by apply flag_match_sym.
  - apply only_inner_set; [lia|]. split; [done|]. cbn [inner]. intros m Hm0 Hm1. apply Hv1; [done|].
    destruct Hside as [[-> ->]|[-> ->]]; set_solver.
  - apply only_inner_set; [lia|]. split; [done|]. cbn [inner]. intros m Hm0 Hm1. apply He1; [done|].
    destruct Hside as [[-> ->]|[-> ->]]; set_solver.
  - cbn [inner length]. rewrite length_app. destruct Hside as [[-> ->]|[-> ->]]; lia.
  - intros fuel. replace (S depth + fuel)%nat with (depth + S fuel)%nat by lia. rewrite Hrun.
    replace (root_id f P =? 0) with false by lia.
    rewrite (parent_ok n (root_id f P)) by lia. cbn [climbWithEquals root_id]. by rewrite Hplay.
Qed.

Lemma climbWithEquals_ok T values equals s fi :
  wf_shape f T -> fits f values equals -> i ∈ leaves T -> flagged old values equals T i fi ->
  streams !! Z.to_nat i = Some s ->
  replayedWithEquals values equals (if hasData s then i else kEmpty)
    (if hasData s then isNextEqual s else false) T.
Proof.
  intros HT Hfit Hin HG Hs. revert fi HG. induction T as [j|n l IHl r IHr]; intros fi HG.
  { cbn [leaves] in Hin. apply list_elem_of_singleton in Hin as <-.
    exists (if hasData s then i else kEmpty), (if hasData s then isNextEqual s else false), values, equals, 0%nat.
    split; [by exists s|]. do 3 (split; [done|]). intros fuel. cbn [root_id].
    by replace (f + i =? 0) with false by lia. }
  pose proof HT as (Hn & El & Er & Hl & Hr). destruct (node_apart f n l r HT) as (Hap & _ & _ & _).
  destruct (flagged_sibling values equals n l r fi HT HG) as [Sl Sr]. cbn [leaves] in Hin.
  apply elem_of_app in Hin as [Hin|Hin].
  - destruct (Sl Hin) as [[fi' Gl] Hh].
    apply (replay_up_flags n l r l r); [done|by left|done|by intros Hin'; apply (Hap i)|done|by eapply IHl].
  - destruct (Sr Hin) as [[fi' Gr] Hh].
    apply (replay_up_flags n l r r l); [done|by right|done|by intros Hin'; apply (Hap i)|done|by eapply IHr].
Qed.
End replay_flags.

(** * Calls *)

Section calls_flags.
Context {A : Type} `{MergeOrder A}.

Definition pendingWithEquals (t : TreeOfLosers A) : Prop :=
  exists old T fi, wf_shape (firstStream_ t) T /\ root_id (firstStream_ t) T = 0
    /\ 0 <= lastIndex_ t <= firstStream_ t
    /\ (forall j, 0 <= j -> j <> lastIndex_ t -> streams_ t !! Z.to_nat j = old !! Z.to_nat j)
    /\ flagged old (values_ t) (equals_ t) T (lastIndex_ t) fi.

Definition between_callsWithEquals (t : TreeOfLosers A) : Prop :=
  sized t /\ (blank t \/ 1 <= firstStream_ t /\ pendingWithEquals t).

(** The flag says whether another stream starts with an equal value. *)
Definition equal_flag (streams : list A) (i : Z) (flag : bool) : Prop :=
  forall s, live streams i s ->
    flag = true <-> isNextEqual s = true \/ exists j s', j <> i /\ live streams j s' /\ compare s s' = 0.

Definition after_callWithEquals (t t' : TreeOfLosers A) (r : option (Z * bool)) : Prop :=
  streams_ t' = streams_ t /\ least (streams_ t) (fst <$> r)
  /\ match r with
     | None => between_callsWithEquals t'
     | Some (i, flag) => equal_flag (streams_ t) i flag /\ forall s, between_callsWithEquals (set_stream t' i s)
     end.

Lemma after_flagged (t : TreeOfLosers A) values equals T c fc :
  sized t -> 1 <= firstStream_ t -> fits (firstStream_ t) values equals ->
  wf_shape (firstStream_ t) T -> root_id (firstStream_ t) T = 0 -> flagged (streams_ t) values equals T c fc ->
  after_callWithEquals t (mkTree (streams_ t) values equals c (firstStream_ t))
    (if c =? kEmpty then None else Some (c, fc)).
Proof.
  intros HZ Hf1 [Lv Le] HT Hroot HG. pose proof (flagged_good _ _ _ _ _ _ HG) as HG'.
  destruct (called t values equals T c) as [HZ' Hc]; [done..|].
  split; [done|]. pose proof (good_least t values T c HZ HT Hroot HG') as Hleast.
  destruct (c =? kEmpty) eqn:E; (split; [done|]); [by split; [|left]|].
  pose proof HZ as [Hn Hf _ _]. assert (firstStream_ t < kEmpty) as Hk by (unfold kEmpty; lia). split.
  - intros s Ls. rewrite (flagged_twin (firstStream_ t) _ _ _ _ _ _ s Hk HT HG Ls).
    apply or_iff_compat_l. unfold twin. split; intros (j & s' & Hj); exists j, s'; [naive_solver|].
    destruct Hj as (Hne & Lj & Ej). split; [|done].
    apply (root_complete (firstStream_ t)); [done|done|by apply (live_range t j s')].
  - intros s. split; [by apply sized_set_stream|]. right. split; [done|].
    destruct (Hc s) as (old & T' & _ & _ & Hr & _).
    exists (streams_ t), T, fc. unfold set_stream in *. cbn [lastIndex_ firstStream_ streams_ values_ equals_] in *.
    split; [done|]. split; [done|]. split; [done|]. split; [|done].
    intros j Hj Hne. apply list_lookup_insert_ne. lia.
Qed.

(** One stream. *)
Lemma nextWithEquals_single (t : TreeOfLosers A) :
  sized t -> blank t -> values_ t = [] ->
  exists t' r, nextWithEquals t = Ok (t', r) /\ after_callWithEquals t t' r.
Proof.
  intros HZ HB Ev. pose proof HZ as [_ _ Hlen _]. pose proof HB as [El _]. unfold nextWithEquals.
  rewrite El, Z.eqb_refl, Ev. destruct (single_stream t HZ HB Ev) as (s & Hat & Es & Hl & Hb).
  rewrite Hat. cbn [rbind]. eexists _, _. split; [done|]. split; [done|].
  destruct (hasData s) eqn:Ed; (split; [done|]); [|by split; [|left]]. split.
  - intros s' Hs'. assert (s' = s) as -> by (pose proof (live_at (streams_ t) 0 s' Hs'); congruence).
    split; [by left|]. intros [?|(j & s' & Hne & Lj & _)]; [done|].
    pose proof (live_range t j s' HZ Lj). rewrite Ev in Hlen. cbn in Hlen. lia.
  - intros s'. destruct (Hb s') as [HZ' _]. split; [done|]. by left.
Qed.

(** The first call on a tree. *)
Lemma nextWithEquals_first (t : TreeOfLosers A) v0 vs :
  sized t -> blank t -> values_ t = v0 :: vs ->
  exists t' r, nextWithEquals t = Ok (t', r) /\ after_callWithEquals t t' r.
Proof.
  intros HZ [El Hv] Ev. pose proof HZ as [Hn Hf Hlen Hlen']. unfold nextWithEquals.
  rewrite El, Z.eqb_refl, Ev, <- Ev. assert (1 <= firstStream_ t) as Hf1 by (rewrite <- Hlen, Ev; cbn; lia).
  destruct (shape_exists (firstStream_ t) 0) as (T & HT & Hroot); [lia|lia|].
  destruct (firstWithEquals_ok (streams_ t) (firstStream_ t) ltac:(lia) ltac:(lia) (tree_fuel t) T
    (values_ t) (equals_ t)) as (c & fc & values' & equals' & Hrun & HG & [Hl _] & [Hl' _]);
    [done|done|intros n Hin; apply Hv; by apply (shape_descends _ T HT)|unfold tree_fuel; lia|].
  rewrite Hroot in Hrun. rewrite Hrun. cbn [rbind]. eexists _, _. split; [done|].
  apply (after_flagged t values' equals' T c fc); [done|done|split; lia|done..].
Qed.

(** The later calls. *)
Lemma nextWithEquals_replay (t : TreeOfLosers A) :
  sized t -> 1 <= firstStream_ t -> pendingWithEquals t ->
  exists t' r, nextWithEquals t = Ok (t', r) /\ after_callWithEquals t t' r.
Proof.
  intros HZ Hf1 (old & T & fi & HT & Hroot & Hi & Hsame & HG). pose proof HZ as [Hn Hf Hlen Hlen'].
  assert (pending t) as HP.
  { exists old, T. split_and!; [done|done|lia|lia|done|by eapply flagged_good]. }
  destruct (pending_play t HZ HP) as (s & Hat & Hs & Ene). unfold nextWithEquals, last_value.
  rewrite Ene, Hat. cbn [rbind].
  destruct (climbWithEquals_ok old (streams_ t) (firstStream_ t) (lastIndex_ t) ltac:(lia) ltac:(lia) Hi Hsame
    T (values_ t) (equals_ t) s fi)
    as (c & fc & values' & equals' & depth & HG' & [Hl _] & [Hl' _] & Hdepth & Hrun);
    [done|done|by apply (root_complete (firstStream_ t))|done|done|].
  pose proof (depth_fuel _ T HT). specialize (Hrun (tree_fuel t - depth)%nat).
  replace (depth + (tree_fuel t - depth))%nat with (tree_fuel t) in Hrun by (unfold tree_fuel; lia).
  rewrite Hroot, Z.eqb_refl in Hrun. apply skip_climbWithEquals in Hrun. unfold propagateWithEquals.
  assert ((if (if hasData s then lastIndex_ t else kEmpty) =? kEmpty then Ok false
    else let! stream := at_index (streams_ t) (if hasData s then lastIndex_ t else kEmpty) in Ok (isNextEqual stream))
    = Ok (if hasData s then isNextEqual s else false)) as ->.
  { destruct (hasData s); [rewrite Ene, Hat; done|done]. }
  cbn [rbind]. rewrite Hrun. cbn [rbind]. eexists _, _. split; [done|].
  apply (after_flagged t values' equals' T c fc); [done|done|split; lia|done..].
Qed.

(** A call of [nextWithEquals] returns a stream with the least first value and
    whether another stream starts with an equal one. *)
Lemma nextWithEquals_ok (t : TreeOfLosers A) :
  between_callsWithEquals t -> exists t' r, nextWithEquals t = Ok (t', r) /\ after_callWithEquals t t' r.
Proof.
  intros [HZ [HB|[Hf1 HP]]]; [|by apply nextWithEquals_replay].
  destruct (values_ t) as [|v0 vs] eqn:Ev; [by apply nextWithEquals_single|by eapply nextWithEquals_first].
Qed.
End calls_flags.
