(* ===== verification/MergeStreams.v ===== *)
(** Merging (bolt/exec/TreeOfLosers.h): the sorted array of streams, the sessions of
    a client with the tree and the array, and the merge of sorted streams. *)

From S2P Require Import Prelude BitUtil TreeOfLosers TreeOfLosersEquals.

(** * The array of streams *)

(** [std::lower_bound]: the number of leading elements that are before the value. *)
Fixpoint lower_bound {B} (before : B -> result bool) (l : list B) : result nat :=
  match l with
  | [] => Ok 0%nat
  | x :: l =>
      let! b := before x in
      if b : bool then let! n := lower_bound before l in Ok (S n) else Ok 0%nat
  end.

Section array.
Context {A : Type} `{MergeStream A}.

(** [boost::sort::pdqsort] of the indices of streams by a comparison. *)
Variable pdqsort : (Z -> Z -> bool) -> list Z -> list Z.

(** The streams themselves are a store; the array holds pointers to them. *)
Record MergeArray : Type := mkArray {
  array_store : list A;
  isFirst_ : bool;
  array_streams : list Z
}.

(** [*left < *right] for pointers. *)
Definition pointer_lt (store : list A) (left_ right_ : Z) : bool :=
  match store !! Z.to_nat left_, store !! Z.to_nat right_ with
  | Some l, Some r => stream_lt l r
  | _, _ => false
  end.

Definition make_MergeArray (store : list A) : MergeArray :=
  let with_data := List.filter (fun i =>
    match store !! Z.to_nat i with Some s => hasData s | None => false end) (seqZ 0 (Z.of_nat (length store))) in
  mkArray store true (pdqsort (pointer_lt store) with_data).

Definition array_next (a : MergeArray) : result (MergeArray * option Z) :=
  let store := array_store a in
  if isFirst_ a then
    Ok (mkArray store false (array_streams a), head (array_streams a))
  else
    match array_streams a with
    | [] => Err BadAccess
    | first :: rest =>
        let! stream := at_index store first in
        if negb (hasData stream) then Ok (mkArray store false rest, head rest)
        else
          let! shift := lower_bound (fun i => let! s := at_index store i in Ok (stream_lt s stream)) rest in
          let streams := if (0 <? Z.of_nat shift) then take shift rest ++ first :: drop shift rest
                         else first :: rest in
          Ok (mkArray store false streams, head streams)
    end.

(** The caller pops off the first value of a stream. *)
Definition array_set_stream (a : MergeArray) (i : Z) (s : A) : MergeArray :=
  mkArray (<[Z.to_nat i := s]> (array_store a)) (isFirst_ a) (array_streams a).
End array.
Arguments MergeArray A : clear implicits.
Arguments mkArray {A}.

(** * Sessions *)

Section sessions.
Context {A : Type} `{MergeStream A}.

(** A client calls [next], changes the stream it gets, and calls again: what the
    streams were at each call, and the answer. *)
Fixpoint tree_session (t : TreeOfLosers A) (changes : list A) : result (list (list A * option Z)) :=
  match changes with
  | [] => Ok []
  | s :: changes =>
      let! r := next t in
      let '(t', answer) := r in
      let t'' := match answer with Some i => set_stream t' i s | None => t' end in
      let! log := tree_session t'' changes in
      Ok ((streams_ t, answer) :: log)
  end.

Fixpoint equals_session (t : TreeOfLosers A) (changes : list A)
  : result (list (list A * option (Z * bool))) :=
  match changes with
  | [] => Ok []
  | s :: changes =>
      let! r := nextWithEquals t in
      let '(t', answer) := r in
      let t'' := match answer with Some (i, _) => set_stream t' i s | None => t' end in
      let! log := equals_session t'' changes in
      Ok ((streams_ t, answer) :: log)
  end.
End sessions.

Section session_lemmas.
Context {A : Type} `{MergeOrder A}.

Lemma tree_session_ok (t : TreeOfLosers A) changes :
  between_calls t ->
  exists log, tree_session t changes = Ok log /\ length log = length changes
    /\ Forall (fun call => least (fst call) (snd call)) log.
Proof.
  revert t. induction changes as [|s changes IH]; intros t Ht; cbn [tree_session].
  { eexists. split; [done|]. by split. }
  destruct (tree_next_ok t Ht) as (t' & r & -> & Hs & Hleast & Hr). cbn [rbind].
  destruct (IH (match r with Some i => set_stream t' i s | None => t' end)) as (log & -> & Hlen & Hlog).
  { by destruct r. }
  eexists. split; [done|]. cbn. split; [lia|]. by constructor.
Qed.

Lemma equals_session_ok (t : TreeOfLosers A) changes :
  between_callsWithEquals t ->
  exists log, equals_session t changes = Ok log /\ length log = length changes
    /\ Forall (fun call => least (fst call) (fst <$> snd call)
         /\ forall i flag, snd call = Some (i, flag) -> equal_flag (fst call) i flag) log.
Proof.
  revert t. induction changes as [|s changes IH]; intros t Ht; cbn [equals_session].
  { eexists. split; [done|]. by split. }
  destruct (nextWithEquals_ok t Ht) as (t' & r & -> & Hs & Hleast & Hr). cbn [rbind].
  destruct (IH (match r with Some (i, _) => set_stream t' i s | None => t' end)) as (log & -> & Hlen & Hlog).
  { destruct r as [[i flag]|]; [apply Hr|done]. }
  eexists. split; [done|]. cbn. split; [lia|]. constructor; [|done]. split; [done|].
  cbn. intros i flag ->. apply Hr.
Qed.
End session_lemmas.

(** * What the sort and the array do *)

(** [before] is a strict weak order on the elements of [l]. *)
Record weak_order {B} (before : B -> B -> bool) (l : list B) : Prop := {
  wo_asym x y : x ∈ l -> y ∈ l -> before x y = true -> before y x = false;
  wo_trans x y z : x ∈ l -> y ∈ l -> z ∈ l -> before x y = false -> before y z = false -> before x z = false
}.

(** The documented behaviour of pdqsort. *)
Class SortLaws (pdqsort : (Z -> Z -> bool) -> list Z -> list Z) : Prop := {
  sort_permutation before l : weak_order before l -> Permutation (pdqsort before l) l;
  sort_sorted before l : weak_order before l ->
    StronglySorted (fun x y => before y x = false) (pdqsort before l)
}.

Section array_lemmas.
Context {A : Type} `{MergeOrder A}.

(** Stream [i] has data and does not come after stream [j]. *)
Definition in_order (store : list A) (i j : Z) : Prop :=
  exists s s', live store i s /\ live store j s' /\ compare s s' <= 0.

(** The array between calls: all streams with data are in it, those after the
    first are in order. *)
Definition array_ready (a : MergeArray A) : Prop :=
  Z.of_nat (length (array_store a)) < kEmpty /\ NoDup (array_streams a)
  /\ (forall i s, live (array_store a) i s -> i ∈ array_streams a)
  /\ if isFirst_ a then
       StronglySorted (in_order (array_store a)) (array_streams a)
       /\ Forall (fun i => exists s, live (array_store a) i s) (array_streams a)
     else exists first rest, array_streams a = first :: rest
       /\ 0 <= first < Z.of_nat (length (array_store a))
       /\ StronglySorted (in_order (array_store a)) rest
       /\ Forall (fun i => exists s, live (array_store a) i s) rest.

Lemma lower_bound_ok store stream rest :
  hasData stream = true -> StronglySorted (in_order store) rest ->
  Forall (fun i => exists s, live store i s) rest ->
  exists n, lower_bound (fun i => let! s := at_index store i in Ok (stream_lt s stream)) rest = Ok n
    /\ Forall (fun i => exists s, live store i s /\ compare s stream <= 0) (take n rest)
    /\ Forall (fun i => exists s, live store i s /\ compare stream s <= 0) (drop n rest).
Proof.
  intros Hd Hsort Hlive. induction Hlive as [|i rest [s Ls] Hlive IH]; cbn [lower_bound].
  { exists 0%nat. by repeat split. }
  apply StronglySorted_inv in Hsort as [Hsort Hall]. destruct (IH Hsort) as (n & Hrun & Htake & Hdrop).
  rewrite (live_at store i s Ls). cbn [rbind]. destruct (stream_lt s stream) eqn:E.
  - rewrite Hrun. cbn [rbind]. exists (S n). cbn [take drop]. split_and!; [done| |done].
    constructor; [|done]. exists s. split; [done|]. apply lt_le; [apply Ls|done|done].
  - exists 0%nat. split_and!; [done|constructor|]. cbn [drop].
    assert (compare stream s <= 0) as Hs by (apply not_lt_le; [apply Ls|done|done]).
    constructor; [by exists s|]. apply (Forall_impl _ _ _ Hall). intros j (s1 & s2 & L1 & L2 & Hle).
    rewrite (live_inj _ _ _ _ L1 Ls) in Hle. exists s2. split; [done|].
    apply (compare_trans stream s s2); [done|apply Ls|apply L2|done|done].
Qed.

Lemma sorted_insert store rest first stream n :
  live store first stream -> StronglySorted (in_order store) rest ->
  Forall (fun i => exists s, live store i s /\ compare s stream <= 0) (take n rest) ->
  Forall (fun i => exists s, live store i s /\ compare stream s <= 0) (drop n rest) ->
  StronglySorted (in_order store) (take n rest ++ first :: drop n rest).
Proof.
  intros Lf. revert n. induction rest as [|i rest IH]; intros n Hsort Htake Hdrop.
  { rewrite take_nil, drop_nil. by repeat constructor. }
  destruct n as [|n]; cbn [take drop app] in *.
  - constructor; [done|]. apply (Forall_impl _ _ _ Hdrop). intros j (s & Ls & Hle). by exists stream, s.
  - apply StronglySorted_inv in Hsort as [Hsort Hall]. inversion Htake as [|? ? (s & Ls & Hle) Htake']; subst.
    constructor; [by apply IH|]. apply Forall_app. split; [by apply Forall_take|].
    constructor; [by exists s, stream|]. by apply Forall_drop.
Qed.

(** The head of an ordered array that holds all streams with data. *)
Lemma sorted_least store l :
  (forall i s, live store i s -> i ∈ l) -> StronglySorted (in_order store) l ->
  Forall (fun i => exists s, live store i s) l -> least store (head l).
Proof.
  intros Hin Hsort Hlive. destruct l as [|i l]; cbn.
  - intros i s Hs. apply (Hin i s) in Hs. set_solver.
  - inversion Hlive as [|? ? [s Ls] _]; subst. exists s. split; [done|]. intros j s' Ls'.
    pose proof (Hin j s' Ls') as [->|Hj]%elem_of_cons.
    + rewrite (live_inj _ _ _ _ Ls' Ls), compare_self; [lia|apply Ls].
    + apply StronglySorted_inv in Hsort as [_ Hall]. rewrite Forall_forall in Hall.
      destruct (Hall j Hj) as (s1 & s2 & L1 & L2 & Hle).
      by rewrite (live_inj _ _ _ _ L1 Ls), (live_inj _ _ _ _ L2 Ls') in Hle.
Qed.

Lemma live_set store i j s' s :
  i <> j -> 0 <= i -> live store j s -> live (<[Z.to_nat i := s']> store) j s.
Proof.
  intros Hne Hi (Hj & Hs & Hd). split; [done|]. split; [|done].
  rewrite list_lookup_insert_ne by lia. done.
Qed.

Lemma live_unset store i j s' s :
  i <> j -> 0 <= i -> live (<[Z.to_nat i := s']> store) j s -> live store j s.
Proof.
  intros Hne Hi (Hj & Hs & Hd). split; [done|]. split; [|done].
  rewrite list_lookup_insert_ne in Hs by lia. done.
Qed.

(** Once its head is returned and changed, an ordered array is ready again. *)
Lemma ready_again store i rest s' :
  Z.of_nat (length store) < kEmpty -> (forall j s, live store j s -> j ∈ i :: rest) ->
  StronglySorted (in_order store) (i :: rest) -> NoDup (i :: rest) ->
  Forall (fun j => exists s, live store j s) (i :: rest) ->
  array_ready (array_set_stream (mkArray store false (i :: rest)) i s').
Proof.
  intros Hlen Hin Hsort Hnd Hlive. pose proof (NoDup_cons_1_1 _ _ Hnd) as Hnot. inversion Hlive as [|? ? [s Ls] Hrest]; subst.
  pose proof Ls as (Hi & Hs & _). apply lookup_lt_Some in Hs.
  apply StronglySorted_inv in Hsort as [Hsort _].
  split; [cbn; by rewrite length_insert|]. split; [done|]. split.
  - cbn. intros j s2 Ls2. destruct (decide (j = i)) as [->|Hne]; [set_solver|].
    apply (Hin j s2). apply (live_unset store i j s'); [by intros ->|lia|done].
  - cbn. exists i, rest. split_and!; [done|lia|rewrite length_insert; lia| |].
    + clear Hlive Hin Hnd. induction Hsort as [|x l Hl IH Hx]; [constructor|]. inversion Hrest; subst.
      constructor; [apply IH; [set_solver|done]|].
      rewrite Forall_forall in Hx |- *. intros y Hy. destruct (Hx y Hy) as (s1 & s2 & L1 & L2 & Hle).
      exists s1, s2. split_and!; [apply live_set; [set_solver|lia|done]..|done].
    + rewrite Forall_forall in Hrest |- *. intros y Hy. destruct (Hrest y Hy) as [s2 L2]. exists s2.
      apply live_set; [set_solver|lia|done].
Qed.

Definition array_after_call (a a' : MergeArray A) (r : option Z) : Prop :=
  array_store a' = array_store a /\ least (array_store a) r
  /\ match r with None => True | Some i => forall s, array_ready (array_set_stream a' i s) end.

Lemma array_after store l :
  Z.of_nat (length store) < kEmpty -> NoDup l -> (forall i s, live store i s -> i ∈ l) ->
  StronglySorted (in_order store) l -> Forall (fun i => exists s, live store i s) l ->
  least store (head l)
  /\ match head l with None => True
     | Some i => forall s, array_ready (array_set_stream (mkArray store false l) i s) end.
Proof.
  intros Hlen Hnd Hin Hsort Hlive. split; [by apply sorted_least|].
  destruct l as [|i rest]; cbn [head]; [done|]. intros s. by apply ready_again.
Qed.

(** A call of [next] on the array returns a stream with the least first value. *)
Lemma array_next_ok a :
  array_ready a -> exists a' r, array_next a = Ok (a', r) /\ array_after_call a a' r.
Proof.
  intros (Hlen & Hnd & Hin & HR). unfold array_next. destruct (isFirst_ a).
  { destruct HR as [Hsort Hlive]. eexists _, _. split; [done|]. split; [done|]. by apply array_after. }
  destruct HR as (first & rest & El & Hf & Hsort & Hlive). rewrite El in *.
  destruct (lookup_lt_is_Some_2 (array_store a) (Z.to_nat first)) as [stream Hs]; [lia|].
  rewrite (at_index_ok _ _ stream) by (done || lia). cbn [rbind].
  apply NoDup_cons in Hnd as [Hnot Hnd].
  destruct (hasData stream) eqn:Hd; cbn [negb].
  - assert (live (array_store a) first stream) as Lf by (split_and!; done || lia).
    destruct (lower_bound_ok (array_store a) stream rest) as (n & -> & Htake & Hdrop); [done..|]. cbn [rbind].
    replace (if 0 <? Z.of_nat n then _ else _) with (take n rest ++ first :: drop n rest)
      by (by destruct n).
    assert (Permutation (take n rest ++ first :: drop n rest) (first :: rest)) as HP.
    { rewrite <- Permutation_middle, take_drop. done. }
    eexists _, _. split; [done|]. split; [done|]. apply array_after; [done| | | |].
    + rewrite HP. by constructor.
    + intros i s Ls. rewrite HP. by apply (Hin i s).
    + by apply (sorted_insert _ _ _ stream).
    + rewrite HP. constructor; [by exists stream|done].
  - eexists _, _. split; [done|]. split; [done|]. apply array_after; [done|done| |done|done].
    intros i s Ls. pose proof (Hin i s Ls) as [->|Hi]%elem_of_cons; [|done].
    destruct Ls as (_ & Hs' & Hd'). congruence.
Qed.

Lemma make_array_ready pdqsort `{SortLaws pdqsort} (store : list A) :
  Z.of_nat (length store) < kEmpty -> array_ready (make_MergeArray pdqsort store).
Proof.
  intros Hlen. unfold make_MergeArray. set (l := List.filter _ _).
  assert (forall i, i ∈ l <-> exists s, live store i s) as Hl.
  { intros i. subst l. rewrite list_elem_of_In, filter_In, <- list_elem_of_In, elem_of_seqZ. split.
    - intros [Hi Hd]. destruct (store !! Z.to_nat i) as [s|] eqn:Es; [|done]. exists s.
      split_and!; done || lia.
    - intros (s & Hi & Hs & Hd). rewrite Hs. split; [|done]. apply lookup_lt_Some in Hs. lia. }
  assert (weak_order (pointer_lt store) l) as Hwo.
  { split.
    - intros x y (sx & _ & Hx & Dx)%Hl (sy & _ & Hy & Dy)%Hl. unfold pointer_lt. rewrite Hx, Hy.
      unfold stream_lt. intros Hlt%Z.ltb_lt. pose proof (compare_flip sx sy Dx Dy). apply Z.ltb_ge. lia.
    - intros x y z (sx & _ & Hx & Dx)%Hl (sy & _ & Hy & Dy)%Hl (sz & _ & Hz & Dz)%Hl. unfold pointer_lt.
      rewrite Hx, Hy, Hz. intros Hxy Hyz. apply not_lt_le in Hxy, Hyz; [|done..].
      pose proof (compare_trans sz sy sx Dz Dy Dx Hyz Hxy). pose proof (compare_flip sx sz Dx Dz).
      apply Z.ltb_ge. lia. }
  pose proof (sort_permutation (pointer_lt store) l Hwo) as HP. split; [done|]. cbn. split; [|split; [|split]].
  - rewrite HP. subst l. apply NoDup_ListNoDup, List.NoDup_filter, NoDup_ListNoDup, NoDup_seqZ.
  - intros i s Ls. rewrite HP. apply Hl. by exists s.
  - assert (Forall (fun i => exists s, live store i s) (pdqsort (pointer_lt store) l)) as Hlive.
    { rewrite HP. apply Forall_forall. intros i Hi. by apply Hl. }
    pose proof (sort_sorted (pointer_lt store) l Hwo) as Hsort. clear HP.
    induction Hsort as [|x l' Hl' IH Hx]; [constructor|]. inversion Hlive as [|? ? [s Ls] Hlive']; subst.
    constructor; [by apply IH|]. rewrite Forall_forall in Hx, Hlive' |- *. intros y Hy.
    destruct (Hlive' y Hy) as [s' Ls']. exists s, s'. split_and!; [done..|]. specialize (Hx y Hy).
    unfold pointer_lt in Hx. destruct Ls as (_ & Es & Ds), Ls' as (_ & Es' & Ds'). rewrite Es, Es' in Hx.
    by apply not_lt_le.
  - rewrite HP. apply Forall_forall. intros i Hi. by apply Hl.
Qed.
End array_lemmas.

(** * Merging sorted streams *)

(** What a client sees of the tree and of the array. *)
Class Merger (M A : Type) := {
  merger_streams : M -> list A;
  merger_next : M -> result (M * option Z);
  merger_set : M -> Z -> A -> M
}.

Class MergerLaws (M A : Type) `{MergeStream A} `{Merger M A} (ready : M -> Prop) : Prop := {
  merger_call m : ready m -> exists m' r, merger_next m = Ok (m', r)
    /\ merger_streams m' = merger_streams m /\ least (merger_streams m) r
    /\ match r with None => True | Some i => forall s, ready (merger_set m' i s) end;
  merger_set_streams m i s : merger_streams (merger_set m i s) = <[Z.to_nat i := s]> (merger_streams m)
}.

#[export] Instance tree_merger {A} `{MergeStream A} : Merger (TreeOfLosers A) A :=
  {| merger_streams := streams_; merger_next := next; merger_set := set_stream |}.

#[export] Instance array_merger {A} `{MergeStream A} : Merger (MergeArray A) A :=
  {| merger_streams := array_store; merger_next := array_next; merger_set := array_set_stream |}.

#[export] Instance tree_merger_laws {A} `{MergeOrder A} : MergerLaws (TreeOfLosers A) A between_calls.
Proof.
  split; [|done]. intros t Ht. destruct (tree_next_ok t Ht) as (t' & r & Hrun & Hs & Hl & Hr).
  exists t', r. split; [done|]. split; [done|]. split; [done|]. by destruct r.
Qed.

#[export] Instance array_merger_laws {A} `{MergeOrder A} : MergerLaws (MergeArray A) A array_ready.
Proof.
  split; [|done]. intros a Ha. destruct (array_next_ok a Ha) as (a' & r & Hrun & Hs & Hl & Hr).
  by exists a', r.
Qed.

Section keys.
Context {K : Type} (key_compare : K -> K -> Z).

(** A stream that is a list of keys. *)
#[local] Instance key_stream : MergeStream (list K) := {|
  hasData l := match l with [] => false | _ => true end;
  isNextEqual _ := false;
  compare l l' := match l, l' with k :: _, k' :: _ => key_compare k k' | _, _ => 0 end
|}.

(** The client takes the first value of the stream it gets, until there is none. *)
Fixpoint drain {M} `{Merger M (list K)} (fuel : nat) (m : M) : result (list K) :=
  match fuel with
  | O => Err OutOfFuel
  | S fuel =>
      let! r := merger_next m in
      let '(m', answer) := r in
      match answer with
      | None => Ok []
      | Some i =>
          let! stream := at_index (merger_streams m') i in
          match stream with
          | [] => Err BadAccess
          | k :: stream =>
              let! rest := drain fuel (merger_set m' i stream) in
              Ok (k :: rest)
          end
      end
  end.

Definition key_le (k k' : K) : Prop := key_compare k k' <= 0.

Class KeyOrder : Prop := {
  key_flip a b : key_compare a b < 0 <-> 0 < key_compare b a;
  key_trans a b c : key_compare a b <= 0 -> key_compare b c <= 0 -> key_compare a c <= 0
}.

#[local] Instance key_order `{KeyOrder} : MergeOrder (list K).
Proof.
  split.
  - intros [|a l] [|b l']; cbn; try done. intros _ _. apply key_flip.
  - intros [|a l] [|b l'] [|c l'']; cbn; try done. intros _ _ _. apply key_trans.
Qed.

Lemma concat_pop (streams : list (list K)) i k s :
  streams !! i = Some (k :: s) -> Permutation (concat streams) (k :: concat (<[i := s]> streams)).
Proof.
  revert i. induction streams as [|x streams IH]; intros i Hi; [done|].
  destruct i as [|i]; cbn in *; [by injection Hi as ->|].
  rewrite (IH i Hi). apply Permutation_sym, Permutation_middle.
Qed.

(** The least first value is the least of all values of sorted streams. *)
Lemma least_of_all `{KeyOrder} streams i k s :
  Forall (StronglySorted key_le) streams -> least streams (Some i) -> 0 <= i ->
  Z.of_nat (length streams) < kEmpty ->
  streams !! Z.to_nat i = Some (k :: s) -> Forall (key_le k) (concat streams).
Proof.
  intros Hsorted (s0 & (_ & Hs0 & _) & Hmin) Hi Hlen Hs. rewrite Hs in Hs0. injection Hs0 as <-.
  apply Forall_forall. intros x (l & Hl & Hx)%list_elem_of_In%in_concat. apply list_elem_of_In in Hl, Hx.
  apply list_elem_of_lookup in Hl as [j Hj]. destruct l as [|k' l]; [set_solver|].
  assert (key_le k k') as Hk.
  { apply (Hmin (Z.of_nat j) (k' :: l)). split; [apply lookup_lt_Some in Hj; lia|].
    by rewrite Nat2Z.id. }
  rewrite Forall_forall in Hsorted. pose proof (Hsorted (k' :: l) (list_elem_of_lookup_2 _ _ _ Hj)) as Hl.
  apply StronglySorted_inv in Hl as [_ Hl]. rewrite Forall_forall in Hl.
  apply elem_of_cons in Hx as [->|Hx]; [done|]. apply (key_trans k k' x); [done|]. by apply Hl.
Qed.

Lemma drain_ok `{KeyOrder} {M} `{!Merger M (list K)} (ready : M -> Prop)
    {Hlaws : @MergerLaws M (list K) key_stream _ ready} fuel (m : M) :
  ready m -> Forall (StronglySorted key_le) (merger_streams m) ->
  Z.of_nat (length (merger_streams m)) < kEmpty ->
  (length (concat (merger_streams m)) < fuel)%nat ->
  exists out, drain fuel m = Ok out /\ Permutation out (concat (merger_streams m)) /\ StronglySorted key_le out.
Proof.
  revert m. induction fuel as [|fuel IH]; intros m Hm Hsorted Hlen Hfuel; [lia|]. cbn [drain].
  destruct (merger_call m Hm) as (m' & r & -> & Hs & Hleast & Hr). cbn [rbind]. destruct r as [i|].
  - pose proof Hleast as (s & (Hi & Hat & Hd) & _). destruct s as [|k s]; [done|].
    rewrite Hs, (at_index_ok (merger_streams m) i (k :: s) ltac:(lia) Hat). cbn [rbind].
    pose proof (concat_pop _ _ _ _ Hat) as HP. pose proof (Permutation_length HP) as HPl. cbn in HPl.
    destruct (IH (merger_set m' i s)) as (out & -> & Hout & Hso); rewrite ?merger_set_streams, ?Hs.
    + apply Hr.
    + apply Forall_insert; [done|]. rewrite Forall_forall in Hsorted.
      pose proof (Hsorted _ (list_elem_of_lookup_2 _ _ _ Hat)) as Hks.
      by apply StronglySorted_inv in Hks as [? _].
    + by rewrite length_insert.
    + lia.
    + rewrite merger_set_streams, Hs in Hout. cbn [rbind]. exists (k :: out). split; [done|]. split.
      * by rewrite HP, Hout.
      * constructor; [done|]. pose proof (least_of_all _ i k s Hsorted Hleast ltac:(lia) Hlen Hat) as Hall.
        rewrite HP in Hall. inversion Hall as [|? ? _ Hall']; subst. by rewrite Hout.
  - exists []. split; [done|]. split; [|constructor].
    assert (concat (merger_streams m) = []) as ->; [|done].
    destruct (concat (merger_streams m)) as [|x l] eqn:E; [done|].
    assert (x ∈ concat (merger_streams m)) as (l' & Hl' & Hx)%list_elem_of_In%in_concat by (rewrite E; set_solver).
    apply list_elem_of_In in Hl', Hx. apply list_elem_of_lookup in Hl' as [j Hj].
    destruct l' as [|k l']; [set_solver|]. exfalso. apply (Hleast (Z.of_nat j) (k :: l')).
    split; [apply lookup_lt_Some in Hj; lia|]. by rewrite Nat2Z.id.
Qed.
End keys.

(** * Limits *)

(** With 32769 streams the nodes need 17 bits: the right child of node 32767 wraps to
    the root, and the first game does not end. *)
Lemma first_never_ends {A} `{MergeStream A} (streams : list A) fuel k values :
  Z.of_nat (length streams) = 32769 -> 0 <= k <= 15 ->
  first streams 32768 fuel (2 ^ k - 1) values = Err OutOfFuel.
Proof.
  intros Hlen. revert k values. induction fuel as [|fuel IH]; intros k values Hk; [done|]. cbn [first].
  assert (2 ^ k <= 2 ^ 15) by (apply Z.pow_le_mono_r; lia). assert (1 <= 2 ^ k) by lia.
  replace (2 ^ k - 1 >=? 32768) with false by lia. destruct (decide (k = 15)) as [->|Hne].
  - change (leftChild (2 ^ 15 - 1)) with 65535. change (rightChild (2 ^ 15 - 1)) with (2 ^ 0 - 1).
    destruct fuel as [|fuel']; [done|].
    destruct (lookup_lt_is_Some_2 streams (Z.to_nat (65535 - 32768))) as [s Hs]; [lia|].
    replace (first streams 32768 (S fuel') 65535 values)
      with (Ok (if hasData s then to_index (65535 - 32768) else kEmpty, values)).
    + cbn [rbind]. by rewrite (IH 0) by lia.
    + cbn [first]. change (65535 >=? 32768) with true. cbv iota.
      by rewrite (at_index_ok _ _ s) by (done || lia).
  - replace (leftChild (2 ^ k - 1)) with (2 ^ (k + 1) - 1); [by rewrite IH by lia|].
    assert (2 ^ (k + 1) <= 2 ^ 15) by (apply Z.pow_le_mono_r; lia).
    unfold leftChild. rewrite to_index_id by lia. rewrite Z.pow_add_r by lia. lia.
Qed.

(** The array cannot be asked again once it was at end. *)
Lemma array_next_after_end {A} `{MergeStream A} (store : list A) :
  array_next (mkArray store false []) = Err BadAccess.
Proof. done. Qed.

(** * Properties *)

(** C28. Over any number of streams up to 32768, and whatever the client does to the
    stream it was given before it calls again, [next] and [nextWithEquals]
    return at every call a stream with the least first value, or nothing when
    no stream has data; the flag of the latter says whether another stream
    starts with an equal value. *)
Theorem tree_of_losers_calls {A} `{MergeOrder A} (streams changes : list A) :
  1 <= Z.of_nat (length streams) <= 32768 ->
  exists t log equals_log, make_TreeOfLosers streams = Ok t
    /\ tree_session t changes = Ok log /\ length log = length changes
    /\ Forall (fun call => least (fst call) (snd call)) log
    /\ equals_session t changes = Ok equals_log /\ length equals_log = length changes
    /\ Forall (fun call => least (fst call) (fst <$> snd call)
         /\ forall i flag, snd call = Some (i, flag) -> equal_flag (fst call) i flag) equals_log.
Proof.
  intros Hn. destruct (make_between streams Hn) as (t & Ht & HB & _). exists t.
  destruct (tree_session_ok t changes HB) as (log & Hlog). exists log.
  destruct (equals_session_ok t changes) as (elog & Helog); [|exists elog; naive_solver].
  destruct HB as [HZ [HB|[_ HP]]]; [by split; [|left]|].
  exfalso. rewrite make_TreeOfLosers_ok in Ht by lia. injection Ht as <-.
  destruct HP as (old & T & _ & _ & Hr & _). cbn in Hr. unfold kEmpty in Hr. lia.
Qed.

(** C29. Draining sorted streams through the tree of losers, and through the sorted
    array, ends after as many calls as there are values and one more, and
    gives all values of all streams in order, for 1 to 32768 streams: an index
    of a stream has 16 bits, and with more streams the tree of losers never
    finds its first value ([first_never_ends]). *)
Theorem merges_sort {K} (key_compare : K -> K -> Z) `{!KeyOrder key_compare}
    pdqsort `{SortLaws pdqsort} (streams : list (list K)) :
  1 <= Z.of_nat (length streams) <= 32768 -> Forall (StronglySorted (key_le key_compare)) streams ->
  let fuel := S (length (concat streams)) in
  let merged (run : result (list K)) :=
    exists out, run = Ok out /\ Permutation out (concat streams)
      /\ StronglySorted (key_le key_compare) out in
  merged (let! t := @make_TreeOfLosers _ streams in @drain K _ (@tree_merger _ (key_stream key_compare)) fuel t)
  /\ merged (@drain K _ (@array_merger _ (key_stream key_compare)) fuel
               (@make_MergeArray _ (key_stream key_compare) pdqsort streams)).
Proof.
  intros Hn Hsorted. cbv zeta. split.
  - destruct (@make_between _ (key_stream key_compare) streams Hn) as (t & -> & HB & Es).
    cbn [rbind]. rewrite <- Es.
    apply (@drain_ok K key_compare _ _ (@tree_merger _ (key_stream key_compare)) between_calls
      (@tree_merger_laws _ (key_stream key_compare) (key_order key_compare)) _ t HB);
      cbn [merger_streams tree_merger]; rewrite ?Es; [done|unfold kEmpty; lia|lia].
  - assert (Z.of_nat (length streams) < kEmpty) as Hk by (unfold kEmpty; lia).
    pose proof (@make_array_ready _ (key_stream key_compare) (key_order key_compare) pdqsort _ streams Hk) as HR.
    apply (@drain_ok K key_compare _ _ (@array_merger _ (key_stream key_compare)) array_ready
      (@array_merger_laws _ (key_stream key_compare) (key_order key_compare)) _ _ HR);
      [exact Hsorted|exact Hk|cbn; lia].
Qed.

(** A sort for the parameter: insertion. *)
Fixpoint insert_sorted (before : Z -> Z -> bool) (x : Z) (l : list Z) : list Z :=
  match l with
  | [] => [x]
  | y :: l => if before y x then y :: insert_sorted before x l else x :: y :: l
  end.

Definition insertion_sort (before : Z -> Z -> bool) (l : list Z) : list Z :=
  fold_right (insert_sorted before) [] l.

Lemma insert_sorted_permutation before x l : Permutation (insert_sorted before x l) (x :: l).
Proof.
  induction l as [|y l IH]; cbn; [done|]. destruct (before y x); [|done].
  rewrite IH. apply perm_swap.
Qed.

Lemma insertion_sort_permutation before l : Permutation (insertion_sort before l) l.
Proof. induction l as [|x l IH]; cbn; [done|]. by rewrite insert_sorted_permutation, IH. Qed.

Lemma insert_sorted_sorted before x l :
  weak_order before (x :: l) -> StronglySorted (fun x y => before y x = false) l ->
  StronglySorted (fun x y => before y x = false) (insert_sorted before x l).
Proof.
  intros Hwo Hl. induction Hl as [|y l Hl IH Hy]; cbn; [by repeat constructor|].
  destruct (before y x) eqn:E.
  - constructor.
    + apply IH. destruct Hwo as [Ha Ht]. split; [intros; apply Ha; set_solver|intros a b c ???; apply Ht; set_solver].
    + rewrite insert_sorted_permutation. constructor; [|done]. apply (wo_asym _ _ Hwo y x); set_solver.
  - constructor; [by constructor|]. constructor; [done|]. rewrite Forall_forall in Hy |- *. intros z Hz.
    apply (wo_trans _ _ Hwo z y x); [set_solver..|by apply Hy|done].
Qed.

#[export] Instance insertion_sort_laws : SortLaws insertion_sort.
Proof.
  split; [intros before l _; apply insertion_sort_permutation|]. intros before l Hwo.
  induction l as [|x l IH]; cbn; [constructor|]. apply insert_sorted_sorted.
  - destruct Hwo as [Ha Ht]. pose proof (insertion_sort_permutation before l) as HP.
    assert (forall y, y ∈ x :: insertion_sort before l -> y ∈ x :: l) as Hin by (intros y; by rewrite HP).
    split; [intros; apply Ha; auto|intros a b c ???; apply Ht; auto].
  - apply IH. destruct Hwo as [Ha Ht]. split; [intros; apply Ha; set_solver|intros a b c ???; apply Ht; set_solver].
Qed.

#[export] Instance integer_keys : KeyOrder Z.sub.
Proof. split; intros; lia. Qed.

(** Streams of integers, the client pops two values and then replaces a stream by an
    empty one. *)
Lemma tree_of_losers_calls_witness :
  exists t log equals_log, make_TreeOfLosers [[3; 8]; [1; 3]; []] = Ok t
    /\ @tree_session _ (key_stream Z.sub) t [[3]; []; [9]] = Ok log
    /\ @equals_session _ (key_stream Z.sub) t [[3]; []; [9]] = Ok equals_log
    /\ Forall (fun call => @least _ (key_stream Z.sub) (fst call) (snd call)) log
    /\ map snd equals_log = [Some (1, false); Some (1, true); Some (0, false)].
Proof.
  destruct (@tree_of_losers_calls _ (key_stream Z.sub) (key_order Z.sub) [[3; 8]; [1; 3]; []] [[3]; []; [9]])
    as (t & log & elog & Ht & Hlog & _ & Hleast & Helog & _); [cbn; lia|].
  exists t, log, elog. do 4 (split; [assumption|]).
  injection Ht as <-. vm_compute in Helog. injection Helog as <-. reflexivity.
Defined.

Lemma merges_sort_witness :
  exists out, (let! t := make_TreeOfLosers [[1; 5]; [2; 3]; [4]] in
               @drain Z _ (@tree_merger _ (key_stream Z.sub)) 6 t) = Ok out
    /\ Permutation out [1; 5; 2; 3; 4] /\ StronglySorted (key_le Z.sub) out.
Proof.
  destruct (merges_sort Z.sub insertion_sort [[1; 5]; [2; 3]; [4]]) as [H _];
    [cbn; lia|repeat constructor; unfold key_le; lia|]. exact H.
Defined.
