(* ===== verification/Base64.v ===== *)
(** Base64 (bolt/common/encode/Base64.h and Base64.cpp): the encodings with the standard
    and the URL alphabet, their decoders and the sizes that callers allocate. *)

From S2P Require Import Prelude.

(** * Alphabets *)

Definition kBase64Pad : Z := 61.

Definition kBase64Charset : list Z := seqZ 65 26 ++ seqZ 97 26 ++ seqZ 48 10 ++ [43; 47].
Definition kBase64UrlCharset : list Z := seqZ 65 26 ++ seqZ 97 26 ++ seqZ 48 10 ++ [45; 95].

Definition kBase64ReverseIndexTable : list Z := [
    255; 255; 255; 255; 255; 255; 255; 255; 255; 255; 255; 255; 255; 255; 255; 255;
    255; 255; 255; 255; 255; 255; 255; 255; 255; 255; 255; 255; 255; 255; 255; 255;
    255; 255; 255; 255; 255; 255; 255; 255; 255; 255; 255; 62; 255; 255; 255; 63;
    52; 53; 54; 55; 56; 57; 58; 59; 60; 61; 255; 255; 255; 255; 255; 255;
    255; 0; 1; 2; 3; 4; 5; 6; 7; 8; 9; 10; 11; 12; 13; 14;
    15; 16; 17; 18; 19; 20; 21; 22; 23; 24; 25; 255; 255; 255; 255; 255;
    255; 26; 27; 28; 29; 30; 31; 32; 33; 34; 35; 36; 37; 38; 39; 40;
    41; 42; 43; 44; 45; 46; 47; 48; 49; 50; 51; 255; 255; 255; 255; 255;
    255; 255; 255; 255; 255; 255; 255; 255; 255; 255; 255; 255; 255; 255; 255; 255;
    255; 255; 255; 255; 255; 255; 255; 255; 255; 255; 255; 255; 255; 255; 255; 255;
    255; 255; 255; 255; 255; 255; 255; 255; 255; 255; 255; 255; 255; 255; 255; 255;
    255; 255; 255; 255; 255; 255; 255; 255; 255; 255; 255; 255; 255; 255; 255; 255;
    255; 255; 255; 255; 255; 255; 255; 255; 255; 255; 255; 255; 255; 255; 255; 255;
    255; 255; 255; 255; 255; 255; 255; 255; 255; 255; 255; 255; 255; 255; 255; 255;
    255; 255; 255; 255; 255; 255; 255; 255; 255; 255; 255; 255; 255; 255; 255; 255;
    255; 255; 255; 255; 255; 255; 255; 255; 255; 255; 255; 255; 255; 255; 255; 255].

Definition kBase64UrlReverseIndexTable : list Z := [
    255; 255; 255; 255; 255; 255; 255; 255; 255; 255; 255; 255; 255; 255; 255; 255;
    255; 255; 255; 255; 255; 255; 255; 255; 255; 255; 255; 255; 255; 255; 255; 255;
    255; 255; 255; 255; 255; 255; 255; 255; 255; 255; 255; 62; 255; 62; 255; 63;
    52; 53; 54; 55; 56; 57; 58; 59; 60; 61; 255; 255; 255; 255; 255; 255;
    255; 0; 1; 2; 3; 4; 5; 6; 7; 8; 9; 10; 11; 12; 13; 14;
    15; 16; 17; 18; 19; 20; 21; 22; 23; 24; 25; 255; 255; 255; 255; 63;
    255; 26; 27; 28; 29; 30; 31; 32; 33; 34; 35; 36; 37; 38; 39; 40;
    41; 42; 43; 44; 45; 46; 47; 48; 49; 50; 51; 255; 255; 255; 255; 255;
    255; 255; 255; 255; 255; 255; 255; 255; 255; 255; 255; 255; 255; 255; 255; 255;
    255; 255; 255; 255; 255; 255; 255; 255; 255; 255; 255; 255; 255; 255; 255; 255;
    255; 255; 255; 255; 255; 255; 255; 255; 255; 255; 255; 255; 255; 255; 255; 255;
    255; 255; 255; 255; 255; 255; 255; 255; 255; 255; 255; 255; 255; 255; 255; 255;
    255; 255; 255; 255; 255; 255; 255; 255; 255; 255; 255; 255; 255; 255; 255; 255;
    255; 255; 255; 255; 255; 255; 255; 255; 255; 255; 255; 255; 255; 255; 255; 255;
    255; 255; 255; 255; 255; 255; 255; 255; 255; 255; 255; 255; 255; 255; 255; 255;
    255; 255; 255; 255; 255; 255; 255; 255; 255; 255; 255; 255; 255; 255; 255; 255].

(** [charset[i]] for an index below 64. *)
Definition char_at (charset : list Z) (i : Z) : Z := nth (Z.to_nat i) charset 0.

(** The checks of the tables at compile time. *)
Fixpoint checkForwardIndex (idx : nat) (charset table : list Z) : bool :=
  (nth (Z.to_nat (char_at charset (Z.of_nat idx))) table 0 =? Z.of_nat idx)
  && match idx with O => true | S idx => checkForwardIndex idx charset table end.

Definition constCharsetContains (charset : list Z) (c : Z) : bool := existsb (Z.eqb c) charset.

Fixpoint checkReverseIndex (idx : nat) (charset table : list Z) : bool :=
  (if nth idx table 0 =? 255 then negb (constCharsetContains charset (Z.of_nat idx))
   else char_at charset (nth idx table 0) =? Z.of_nat idx)
  && match idx with O => true | S idx => checkReverseIndex idx charset table end.

(** * Encoding *)

Definition calculateEncodedSize (size : Z) (withPadding : bool) : Z :=
  if size =? 0 then 0
  else
    let encodedSize := wrap_unsigned 64 (wrap_unsigned 64 (size + 2) / 3 * 4) in
    if negb withPadding then wrap_unsigned 64 (encodedSize - (3 - size mod 3) mod 3) else encodedSize.

(** The characters that [encodeImpl] writes, in order. *)
Fixpoint encodeImpl (data : list Z) (charset : list Z) (include_pad : bool) : list Z :=
  match data with
  | b0 :: b1 :: b2 :: data =>
      let curr := Z.lor (Z.lor (Z.shiftl b0 16) (Z.shiftl b1 8)) b2 in
      char_at charset (Z.land (Z.shiftr curr 18) 63) ::
      char_at charset (Z.land (Z.shiftr curr 12) 63) ::
      char_at charset (Z.land (Z.shiftr curr 6) 63) ::
      char_at charset (Z.land curr 63) :: encodeImpl data charset include_pad
  | [b0; b1] =>
      let curr := Z.shiftl b0 16 in
      let c0 := char_at charset (Z.land (Z.shiftr curr 18) 63) in
      let curr := Z.lor curr (Z.shiftl b1 8) in
      [c0; char_at charset (Z.land (Z.shiftr curr 12) 63); char_at charset (Z.land (Z.shiftr curr 6) 63)]
      ++ (if include_pad then [kBase64Pad] else [])
  | [b0] =>
      let curr := Z.shiftl b0 16 in
      [char_at charset (Z.land (Z.shiftr curr 18) 63); char_at charset (Z.land (Z.shiftr curr 12) 63)]
      ++ (if include_pad then [kBase64Pad; kBase64Pad] else [])
  | [] => []
  end.

(** Writing characters from the start of a buffer, or from [offset] on. *)
Definition write_from (buffer : list Z) (offset : nat) (chars : list Z) : result (list Z) :=
  if (Z.of_nat offset + Z.of_nat (length chars) <=? Z.of_nat (length buffer))
  then Ok (take offset buffer ++ chars ++ drop (offset + length chars) buffer) else Err BadAccess.

(** [out.resize(n)] of a std::string *)
Definition resize_string (out : list Z) (n : Z) : list Z :=
  take (Z.to_nat n) out ++ replicate (Z.to_nat n - length out) 0.

Definition encodeImpl_string (data charset : list Z) (include_pad : bool) : result (list Z) :=
  let outlen := calculateEncodedSize (Z.of_nat (length data)) include_pad in
  write_from (resize_string [] outlen) 0 (encodeImpl data charset include_pad).

Definition encode (text : list Z) : result (list Z) := encodeImpl_string text kBase64Charset true.
Definition encodeUrl (text : list Z) : result (list Z) := encodeImpl_string text kBase64UrlCharset false.

(** [encode(data, len, output)] and [encodeUrl(data, len, output)] *)
Definition encode_to (data output : list Z) : result (list Z) :=
  write_from output 0 (encodeImpl data kBase64Charset true).
Definition encodeUrl_to (data output : list Z) : result (list Z) :=
  write_from output 0 (encodeImpl data kBase64UrlCharset true).

Definition encodeAppend (text out : list Z) : result (list Z) :=
  let outlen := calculateEncodedSize (Z.of_nat (length text)) true in
  let initialLen := Z.of_nat (length out) in
  write_from (resize_string out (initialLen + outlen)) (length out) (encodeImpl text kBase64Charset true).

(** * Decoding *)

(** A function that writes to a buffer: what it leaves there, and what it returns or throws. *)
Definition writing (A : Type) : Type := list Z -> list Z * result A.

Definition wreturn {A} (r : result A) : writing A := fun dst => (dst, r).

Definition wbind {A B} (m : writing A) (k : A -> writing B) : writing B := fun dst =>
  match m dst with
  | (dst, Ok a) => k a dst
  | (dst, Err e) => (dst, Err e)
  end.

Notation "'let#' x := m 'in' k" := (wbind m (fun x => k)) (at level 10, x name, m at level 100, k at level 200).

(** [dst[pos] = c] *)
Definition put_byte (pos c : Z) : writing unit := fun dst =>
  match set_index dst pos c with
  | Ok dst => (dst, Ok tt)
  | Err e => (dst, Err e)
  end.

(** Throws a Base64Exception for other characters. *)
Definition Base64ReverseLookup (p : Z) (reverse_lookup : list Z) : result Z :=
  let! curr := at_index reverse_lookup p in
  if curr >=? 0x40 then Err UserFail else Ok curr.

Definition countPadding (src : list Z) (len : Z) : result Z :=
  let! last := at_index src (len - 1) in
  if negb (last =? kBase64Pad) then Ok 0
  else
    let! before := at_index src (len - 2) in
    if negb (before =? kBase64Pad) then Ok 1 else Ok 2.

(** Returns the decoded size and the new [size]. *)
Definition calculateDecodedSize (data : list Z) (size : Z) (withPadding : bool) : result (Z * Z) :=
  if size =? 0 then Ok (0, size)
  else
    let needed := size / 4 * 3 in
    if withPadding then
      if negb (size mod 4 =? 0) then Err UserFail
      else
        let! padding := countPadding data size in
        Ok (needed - padding, size - padding)
    else
      let extra := size mod 4 in
      if negb (extra =? 0) then
        if extra =? 1 then Err UserFail else Ok (needed + extra - 1, size)
      else
        let! padding := countPadding data size in
        Ok (needed - padding, size - padding).

Section decode.
Variable reverse_lookup : list Z.

(** The groups of four characters and the last 2 to 4, with [dst] the place of the next byte. *)
Fixpoint decode_groups (src : list Z) (dst : Z) : writing unit :=
  match src with
  | c0 :: c1 :: c2 :: c3 :: ((_ :: _) as rest) =>
      let# s0 := wreturn (Base64ReverseLookup c0 reverse_lookup) in
      let# s1 := wreturn (Base64ReverseLookup c1 reverse_lookup) in
      let# s2 := wreturn (Base64ReverseLookup c2 reverse_lookup) in
      let# s3 := wreturn (Base64ReverseLookup c3 reverse_lookup) in
      let last := Z.lor (Z.lor (Z.lor (Z.shiftl s0 18) (Z.shiftl s1 12)) (Z.shiftl s2 6)) s3 in
      let# _ := put_byte dst (Z.land (Z.shiftr last 16) 255) in
      let# _ := put_byte (dst + 1) (Z.land (Z.shiftr last 8) 255) in
      let# _ := put_byte (dst + 2) (Z.land last 255) in
      decode_groups rest (dst + 3)
  | c0 :: c1 :: rest =>
      let# s0 := wreturn (Base64ReverseLookup c0 reverse_lookup) in
      let# s1 := wreturn (Base64ReverseLookup c1 reverse_lookup) in
      let last := Z.lor (Z.shiftl s0 18) (Z.shiftl s1 12) in
      let# _ := put_byte dst (Z.land (Z.shiftr last 16) 255) in
      match rest with
      | [] => wreturn (Ok tt)
      | c2 :: rest =>
          let# s2 := wreturn (Base64ReverseLookup c2 reverse_lookup) in
          let last := Z.lor last (Z.shiftl s2 6) in
          let# _ := put_byte (dst + 1) (Z.land (Z.shiftr last 8) 255) in
          match rest with
          | [] => wreturn (Ok tt)
          | c3 :: _ =>
              let# s3 := wreturn (Base64ReverseLookup c3 reverse_lookup) in
              let last := Z.lor last s3 in
              put_byte (dst + 2) (Z.land last 255)
          end
      end
  | _ => wreturn (Err BadAccess)
  end.

(** What is left in [dst], and [needed]. *)
Definition decodeImpl (src : list Z) (src_len : Z) (dst : list Z) (dst_len : Z) (include_pad : bool)
  : list Z * result Z :=
  (if src_len =? 0 then wreturn (Ok 0)
   else
     let# sizes := wreturn (calculateDecodedSize src src_len include_pad) in
     let '(needed, src_len) := sizes in
     if dst_len <? needed then wreturn (Err UserFail)
     else
       let# _ := decode_groups (take (Z.to_nat src_len) src) 0 in
       wreturn (Ok needed)) dst.
End decode.

(** [decode(StringPiece)]: the length of the payload is an int32_t, and [resize] throws for
    a negative size converted to size_t. *)
Definition decode (encoded : list Z) : result (list Z) :=
  let size := wrap_signed 32 (Z.of_nat (length encoded)) in
  let out_len := Z.quot size 4 * 3 in
  if out_len <? 0 then Err UserFail else
  let output := resize_string [] out_len in
  let '(output, r) := decodeImpl kBase64ReverseIndexTable encoded (wrap_unsigned 64 size) output out_len true in
  let! out_len := r in
  Ok (resize_string output out_len).

Definition decodeUrl (encoded : list Z) : result (list Z) :=
  let size := wrap_signed 32 (Z.of_nat (length encoded)) in
  let! rounded := ck32 (size + 3) in
  let out_len := Z.quot rounded 4 * 3 in
  if out_len <? 0 then Err UserFail else
  let output := resize_string [] out_len in
  let '(output, r) := decodeImpl kBase64UrlReverseIndexTable encoded (wrap_unsigned 64 size) output out_len false in
  let! out_len := r in
  Ok (resize_string output out_len).

(** [decode(data, size, output)] and [decodeUrl(src, src_len, dst, dst_len, hasPad)] *)
Definition decode_to (data : list Z) (output : list Z) : list Z * result unit :=
  let size := Z.of_nat (length data) in
  let '(output, r) := decodeImpl kBase64ReverseIndexTable data size output (size / 4 * 3) true in
  (output, let! _ := r in Ok tt).

Definition decodeUrl_to (src dst : list Z) (hasPad : bool) : list Z * result unit :=
  let '(dst, r) := decodeImpl kBase64UrlReverseIndexTable src (Z.of_nat (length src)) dst
                     (Z.of_nat (length dst)) hasPad in
  (dst, let! _ := r in Ok tt).

(** [isPadded] and [numPadding] of Base64.h *)
Definition isPadded (input : list Z) : bool :=
  match last input with Some c => c =? kBase64Pad | None => false end.

(** [while (inputSize > 0 && input[inputSize - 1] == kBase64Pad)], from the end on. *)
Fixpoint count_pads (reversed : list Z) : Z :=
  match reversed with
  | c :: reversed => if c =? kBase64Pad then 1 + count_pads reversed else 0
  | [] => 0
  end.

Definition numPadding (input : list Z) : Z := count_pads (rev input).

(** * The bytes that are written *)

Section decoded.
Variable reverse_lookup : list Z.

(** The bytes that the characters decode to, without a buffer. *)
Fixpoint decode_chars (src : list Z) : result (list Z) :=
  match src with
  | c0 :: c1 :: c2 :: c3 :: ((_ :: _) as rest) =>
      let! s0 := Base64ReverseLookup c0 reverse_lookup in
      let! s1 := Base64ReverseLookup c1 reverse_lookup in
      let! s2 := Base64ReverseLookup c2 reverse_lookup in
      let! s3 := Base64ReverseLookup c3 reverse_lookup in
      let last := Z.lor (Z.lor (Z.lor (Z.shiftl s0 18) (Z.shiftl s1 12)) (Z.shiftl s2 6)) s3 in
      let! out := decode_chars rest in
      Ok (Z.land (Z.shiftr last 16) 255 :: Z.land (Z.shiftr last 8) 255 :: Z.land last 255 :: out)
  | c0 :: c1 :: rest =>
      let! s0 := Base64ReverseLookup c0 reverse_lookup in
      let! s1 := Base64ReverseLookup c1 reverse_lookup in
      let last := Z.lor (Z.shiftl s0 18) (Z.shiftl s1 12) in
      let b0 := Z.land (Z.shiftr last 16) 255 in
      match rest with
      | [] => Ok [b0]
      | c2 :: rest =>
          let! s2 := Base64ReverseLookup c2 reverse_lookup in
          let last := Z.lor last (Z.shiftl s2 6) in
          let b1 := Z.land (Z.shiftr last 8) 255 in
          match rest with
          | [] => Ok [b0; b1]
          | c3 :: _ =>
              let! s3 := Base64ReverseLookup c3 reverse_lookup in
              let last := Z.lor last s3 in
              Ok [b0; b1; Z.land last 255]
          end
      end
  | _ => Err BadAccess
  end.
End decoded.

(** A group that is not the last one. *)
Lemma decode_group table c0 c1 c2 c3 rest :
  rest <> [] ->
  decode_chars table (c0 :: c1 :: c2 :: c3 :: rest)
  = (let! s0 := Base64ReverseLookup c0 table in
     let! s1 := Base64ReverseLookup c1 table in
     let! s2 := Base64ReverseLookup c2 table in
     let! s3 := Base64ReverseLookup c3 table in
     let last := Z.lor (Z.lor (Z.lor (Z.shiftl s0 18) (Z.shiftl s1 12)) (Z.shiftl s2 6)) s3 in
     let! out := decode_chars table rest in
     Ok (Z.land (Z.shiftr last 16) 255 :: Z.land (Z.shiftr last 8) 255 :: Z.land last 255 :: out)).
Proof. by destruct rest. Qed.

(** From [pos] on, [m] writes the bytes of [r] and returns, or throws the error of [r]; either way it writes to
    the [n] places from there on only. *)
Definition writes_at {A} (m : writing A) (pos n : Z) (r : result (list Z * A)) : Prop :=
  forall before hole after, Z.of_nat (length before) = pos -> Z.of_nat (length hole) = n ->
  match r with
  | Ok (out, a) => (length out <= length hole)%nat
      /\ m (before ++ hole ++ after) = (before ++ (out ++ drop (length out) hole) ++ after, Ok a)
  | Err e => exists hole', length hole' = length hole /\ m (before ++ hole ++ after) = (before ++ hole' ++ after, Err e)
  end.

Lemma writes_at_return {A} pos n (r : result A) : writes_at (wreturn r) pos n (let! a := r in Ok ([], a)).
Proof.
  intros before hole after Hb Hh. destruct r as [a|e]; cbn [rbind]; [split; [cbn; lia|]; by rewrite drop_0|by exists hole].
Qed.

(** A step that may throw before anything is written. *)
Lemma writes_at_lookup {A B} (l : result A) (k : A -> writing B) pos n r :
  (forall a, writes_at (k a) pos n (r a)) -> writes_at (let# a := wreturn l in k a) pos n (let! a := l in r a).
Proof.
  intros Hk before hole after Hb Hh. unfold wbind, wreturn. destruct l as [a|e]; cbn [rbind]; [by apply Hk|by exists hole].
Qed.

Lemma set_index_middle (before : list Z) x after c :
  set_index (before ++ x :: after) (Z.of_nat (length before)) c = Ok (before ++ c :: after).
Proof.
  rewrite set_index_ok by (rewrite length_app; cbn [length]; lia). rewrite Nat2Z.id. f_equal.
  rewrite insert_app_r_alt by lia. by rewrite Nat.sub_diag.
Qed.

Lemma writes_at_put {A} c (m : writing A) pos n r :
  0 <= n -> writes_at m (pos + 1) n r -> writes_at (let# _ := put_byte pos c in m) pos (n + 1) (let! o := r in Ok (c :: fst o, snd o)).
Proof.
  intros Hn Hm before [|x hole] after Hb Hh; [cbn in Hh; lia|]. cbn [length] in Hh. unfold wbind, put_byte. cbn [app].
  rewrite <- Hb, set_index_middle. specialize (Hm (before ++ [c]) hole after). rewrite length_app, <- app_assoc in Hm. cbn [length app] in Hm.
  specialize (Hm ltac:(lia) ltac:(lia)). destruct r as [[out a]|e]; cbn [rbind fst snd].
  - destruct Hm as [Hle ->]. split; [cbn; lia|]. by rewrite <- app_assoc.
  - destruct Hm as (hole' & Hl & ->). exists (c :: hole'). split; [cbn; lia|]. by rewrite <- app_assoc.
Qed.

Lemma writes_at_last c pos n : 1 <= n -> writes_at (put_byte pos c) pos n (Ok ([c], tt)).
Proof.
  intros Hn before [|x hole] after Hb Hh; cbn [length] in Hh; [lia|]. unfold put_byte. cbn [app]. rewrite <- Hb, set_index_middle.
  split; [cbn; lia|done].
Qed.

Lemma writes_at_bind {A B} (m : writing A) (k : A -> writing B) pos n r r' :
  writes_at m pos n r ->
  (forall out a, r = Ok (out, a) -> writes_at (k a) (pos + Z.of_nat (length out)) (n - Z.of_nat (length out)) (r' a)) ->
  writes_at (let# a := m in k a) pos n (let! o := r in let! o' := r' (snd o) in Ok (fst o ++ fst o', snd o')).
Proof.
  intros Hm Hk before hole after Hb Hh. specialize (Hm before hole after Hb Hh). unfold wbind. destruct r as [[out a]|e]; cbn [rbind fst snd].
  2: { destruct Hm as (hole' & Hl & ->). by exists hole'. }
  destruct Hm as [Hle ->]. specialize (Hk out a eq_refl (before ++ out) (drop (length out) hole) after).
  rewrite length_app, length_drop, <- app_assoc in Hk. rewrite <- app_assoc. specialize (Hk ltac:(lia) ltac:(lia)). destruct (r' a) as [[out' b]|e]; cbn [rbind fst snd].
  - destruct Hk as [Hle' ->]. rewrite length_app, <- !app_assoc, drop_drop. split; [lia|done].
  - destruct Hk as (hole' & Hl & ->). exists (out ++ hole'). rewrite length_app, <- !app_assoc. split; [lia|done].
Qed.

Lemma writes_at_eq {A} (m : writing A) pos n r r' : r = r' -> writes_at m pos n r -> writes_at m pos n r'.
Proof. by intros ->. Qed.

(** The bytes that [n] characters without padding decode to. *)
Definition decoded_size (n : Z) : Z := n / 4 * 3 + (if n mod 4 =? 0 then 0 else n mod 4 - 1).

Lemma decoded_size_step n : decoded_size (n + 4) = decoded_size n + 3.
Proof.
  unfold decoded_size. replace ((n + 4) mod 4) with (n mod 4) by euclidean.
  replace ((n + 4) / 4) with (n / 4 + 1) by euclidean. lia.
Qed.

Lemma decoded_size_nonneg n : 0 <= n -> 0 <= decoded_size n.
Proof. intros Hn. unfold decoded_size. pose proof (Z.mod_pos_bound n 4). destruct (n mod 4 =? 0) eqn:E; euclidean. Qed.

Lemma decode_groups_writes table src pos :
  writes_at (decode_groups table src pos) pos (decoded_size (Z.of_nat (length src))) (let! out := decode_chars table src in Ok (out, tt)).
Proof.
  revert pos. induction src as [src IH] using (induction_ltof1 _ (@length Z)). unfold ltof in IH. intros pos.
  destruct src as [|c0 [|c1 rest]]; [apply (writes_at_return _ _ (Err BadAccess))..|].
  destruct rest as [|c2 rest]; [|destruct rest as [|c3 rest]; [|destruct rest as [|c4 rest]]];
    [cbn [decode_groups decode_chars]..|].
  - change (decoded_size _) with (0 + 1). eapply writes_at_eq; [|do 2 (apply writes_at_lookup; intros ?); apply writes_at_put; [lia|apply writes_at_return]].
    by destruct (Base64ReverseLookup c0 table), (Base64ReverseLookup c1 table).
  - change (decoded_size _) with (0 + 1 + 1).
    eapply writes_at_eq; [|do 2 (apply writes_at_lookup; intros ?); apply writes_at_put; [lia|]; apply writes_at_lookup; intros ?; apply writes_at_put; [lia|apply writes_at_return]].
    by destruct (Base64ReverseLookup c0 table), (Base64ReverseLookup c1 table), (Base64ReverseLookup c2 table).
  - change (decoded_size _) with (0 + 1 + 1 + 1).
    eapply writes_at_eq; [|do 2 (apply writes_at_lookup; intros ?); apply writes_at_put; [lia|]; apply writes_at_lookup; intros ?; apply writes_at_put; [lia|];
      apply writes_at_lookup; intros ?; replace (pos + 1 + 1) with (pos + 2) by lia; by apply writes_at_last].
    by destruct (Base64ReverseLookup c0 table), (Base64ReverseLookup c1 table), (Base64ReverseLookup c2 table), (Base64ReverseLookup c3 table).
  - set (l := c4 :: rest) in *. rewrite decode_group by done. replace (Z.of_nat (length (c0 :: c1 :: c2 :: c3 :: l))) with (Z.of_nat (length l) + 4) by (cbn [length]; lia).
    rewrite decoded_size_step. replace (decoded_size (Z.of_nat (length l)) + 3) with (decoded_size (Z.of_nat (length l)) + 1 + 1 + 1) by lia.
    pose proof (decoded_size_nonneg (Z.of_nat (length l)) ltac:(lia)) as Hpos.
    eapply writes_at_eq; [|do 4 (apply writes_at_lookup; intros ?); do 2 (apply writes_at_put; [lia|]);
      replace (pos + 1 + 1) with (pos + 2) by lia; apply writes_at_put; [lia|]; replace (pos + 2 + 1) with (pos + 3) by lia; apply IH; cbn [length]; lia].
    destruct (Base64ReverseLookup c0 table), (Base64ReverseLookup c1 table), (Base64ReverseLookup c2 table), (Base64ReverseLookup c3 table);
      cbn [rbind]; try done. by destruct (decode_chars table l).
Qed.

Lemma decode_chars_size table src out : decode_chars table src = Ok out -> Z.of_nat (length out) = decoded_size (Z.of_nat (length src)).
Proof.
  revert out. induction src as [src IH] using (induction_ltof1 _ (@length Z)). unfold ltof in IH. intros out.
  destruct src as [|c0 [|c1 rest]]; [done|done|].
  destruct rest as [|c2 rest]; [|destruct rest as [|c3 rest]; [|destruct rest as [|c4 rest]; [|set (l := c4 :: rest) in *; rewrite decode_group by done]]];
    [cbn [decode_chars]..|];
    repeat (match goal with |- context [Base64ReverseLookup ?c table] => destruct (Base64ReverseLookup c table) end; cbn [rbind]; [|done]);
    [by intros [= <-]..|].
  destruct (decode_chars table l) as [o|] eqn:E; [|done]. intros [= <-]. apply IH in E; [|cbn [length]; lia].
  replace (Z.of_nat (length (c0 :: c1 :: c2 :: c3 :: l))) with (Z.of_nat (length l) + 4) by (cbn [length]; lia). rewrite decoded_size_step. cbn [length]. lia.
Qed.

(** A buffer with room. *)
Lemma writes_at_buffer {A} (m : writing A) n r dst :
  writes_at m 0 n r -> 0 <= n <= Z.of_nat (length dst) ->
  match r with
  | Ok (out, a) => (length out <= length dst)%nat /\ m dst = (out ++ drop (length out) dst, Ok a)
  | Err e => exists dst', m dst = (dst', Err e) /\ length dst' = length dst /\ drop (Z.to_nat n) dst' = drop (Z.to_nat n) dst
  end.
Proof.
  intros Hm Hn. specialize (Hm [] (take (Z.to_nat n) dst) (drop (Z.to_nat n) dst) eq_refl). rewrite length_take in Hm.
  specialize (Hm ltac:(lia)). cbn [app] in Hm. rewrite take_drop in Hm. destruct r as [[out a]|e].
  - destruct Hm as [Hle ->]. split; [lia|]. rewrite <- app_assoc. do 2 f_equal. rewrite <- (take_drop (Z.to_nat n) dst) at 3.
    rewrite drop_app_le; [done|]. rewrite length_take. lia.
  - destruct Hm as (hole' & Hl & ->). eexists. split; [done|]. rewrite length_app, length_drop, drop_app_length' by lia. split; [lia|done].
Qed.

(** * Bytes and sextets *)

Lemma shiftr_div z k : 0 <= k -> Z.shiftr z k = z / 2 ^ k.
Proof. apply Z.shiftr_div_pow2. Qed.

(** Three bytes and four sextets in 24 bits. *)
Lemma pack_bytes b0 b1 b2 :
  0 <= b1 < 256 -> 0 <= b2 < 256 ->
  Z.lor (Z.lor (Z.shiftl b0 16) (Z.shiftl b1 8)) b2 = b0 * 65536 + b1 * 256 + b2.
Proof.
  intros H1 H2. rewrite <- Z.lor_assoc, (lor_shiftl b1 8 b2) by lia.
  rewrite lor_shiftl by lia. change (2 ^ 16) with 65536. change (2 ^ 8) with 256. lia.
Qed.

Lemma pack_sextets s0 s1 s2 s3 :
  0 <= s1 < 64 -> 0 <= s2 < 64 -> 0 <= s3 < 64 ->
  Z.lor (Z.lor (Z.lor (Z.shiftl s0 18) (Z.shiftl s1 12)) (Z.shiftl s2 6)) s3
  = s0 * 262144 + s1 * 4096 + s2 * 64 + s3.
Proof.
  intros H1 H2 H3. rewrite <- !Z.lor_assoc, (lor_shiftl s2 6 s3) by lia.
  rewrite (lor_shiftl s1 12) by lia. rewrite lor_shiftl by lia.
  change (2 ^ 18) with 262144. change (2 ^ 12) with 4096. change (2 ^ 6) with 64. lia.
Qed.

Lemma pack_sextets3 s0 s1 s2 :
  0 <= s1 < 64 -> 0 <= s2 < 64 ->
  Z.lor (Z.lor (Z.shiftl s0 18) (Z.shiftl s1 12)) (Z.shiftl s2 6) = s0 * 262144 + s1 * 4096 + s2 * 64.
Proof.
  intros H1 H2. pose proof (pack_sextets s0 s1 s2 0 H1 H2 ltac:(lia)) as Hp. rewrite Z.lor_0_r in Hp. lia.
Qed.

Lemma pack_sextets2 s0 s1 :
  0 <= s1 < 64 -> Z.lor (Z.shiftl s0 18) (Z.shiftl s1 12) = s0 * 262144 + s1 * 4096.
Proof.
  intros H1. pose proof (pack_sextets3 s0 s1 0 H1 ltac:(lia)) as Hp.
  rewrite Z.shiftl_0_l, Z.lor_0_r in Hp. lia.
Qed.

Lemma pack_two b0 b1 : 0 <= b1 < 256 -> Z.lor (Z.shiftl b0 16) (Z.shiftl b1 8) = b0 * 65536 + b1 * 256.
Proof.
  intros H1. pose proof (pack_bytes b0 b1 0 H1 ltac:(lia)) as Hp. rewrite Z.lor_0_r in Hp. lia.
Qed.

Lemma pack_one b0 : Z.shiftl b0 16 = b0 * 65536.
Proof. rewrite Z.shiftl_mul_pow2 by lia. done. Qed.

(** * A charset and a table that belong together *)

Record tables (charset table : list Z) : Prop := {
  tb_lookup s : 0 <= s < 64 -> Base64ReverseLookup (char_at charset s) table = Ok s;
  tb_pad s : 0 <= s < 64 -> char_at charset s <> kBase64Pad
}.

Lemma tables_check charset table :
  forallb (fun s => match Base64ReverseLookup (char_at charset s) table with
                    | Ok s' => (s' =? s) && negb (char_at charset s =? kBase64Pad)
                    | Err _ => false end) (seqZ 0 64) = true -> tables charset table.
Proof.
  intros Hall. assert (forall s, 0 <= s < 64 -> Base64ReverseLookup (char_at charset s) table = Ok s
    /\ char_at charset s <> kBase64Pad) as H; [|split; apply H].
  intros s Hs. rewrite forallb_forall in Hall. specialize (Hall s).
  rewrite <- list_elem_of_In, elem_of_seqZ in Hall. specialize (Hall ltac:(lia)).
  destruct (Base64ReverseLookup _ _) as [s'|]; [|done]. split; [f_equal|]; zbool.
Qed.

Lemma standard_tables : tables kBase64Charset kBase64ReverseIndexTable.
Proof. apply tables_check. vm_compute. reflexivity. Qed.

Lemma url_tables : tables kBase64UrlCharset kBase64UrlReverseIndexTable.
Proof. apply tables_check. vm_compute. reflexivity. Qed.

(** The URL decoder reads the standard alphabet too. *)
Lemma mixed_tables : tables kBase64Charset kBase64UrlReverseIndexTable.
Proof. apply tables_check. vm_compute. reflexivity. Qed.

(** The static assertions of the source. *)
Lemma static_assertions :
  checkForwardIndex 63 kBase64Charset kBase64ReverseIndexTable = true
  /\ checkForwardIndex 63 kBase64UrlCharset kBase64UrlReverseIndexTable = true
  /\ checkReverseIndex 255 kBase64Charset kBase64ReverseIndexTable = true.
Proof. split_and!; vm_compute; reflexivity. Qed.

(** Lists by groups of three. *)
Lemma triple_ind (P : list Z -> Prop) :
  P [] -> (forall a, P [a]) -> (forall a b, P [a; b]) ->
  (forall a b c l, P l -> P (a :: b :: c :: l)) -> forall l, P l.
Proof.
  intros H0 H1 H2 H3 l. induction l as [l IH] using (induction_ltof1 _ (@length Z)). unfold ltof in IH.
  destruct l as [|a [|b [|c l]]]; [done|done|done|]. apply H3, IH. cbn. lia.
Qed.

Section roundtrip.
Variables charset table : list Z.
Hypothesis Htables : tables charset table.

Ltac sextets :=
  repeat match goal with
  | |- context [Base64ReverseLookup (char_at charset ?s) table] =>
      rewrite (tb_lookup _ _ Htables s) by (apply Z.mod_pos_bound; lia); cbn [rbind]
  end.

(** The sextets of a group of bytes give its bytes back. *)
Lemma group_bytes b0 b1 b2 :
  0 <= b0 < 256 -> 0 <= b1 < 256 -> 0 <= b2 < 256 ->
  let v := b0 * 65536 + b1 * 256 + b2 in
  (v / 2 ^ 18 mod 64) * 262144 + (v / 2 ^ 12 mod 64) * 4096 + (v / 2 ^ 6 mod 64) * 64 + v mod 64 = v
  /\ v / 2 ^ 16 mod 256 = b0 /\ v / 2 ^ 8 mod 256 = b1 /\ v mod 256 = b2.
Proof.
  intros H0 H1 H2 v. change (2 ^ 18) with 262144. change (2 ^ 12) with 4096. change (2 ^ 6) with 64.
  change (2 ^ 16) with 65536. change (2 ^ 8) with 256. subst v. split_and!; euclidean.
Qed.

Lemma encode_nonempty a data pad : encodeImpl (a :: data) charset pad <> [].
Proof. by destruct data as [|b [|c data]]. Qed.

Lemma sextet_range v : 0 <= v mod 64 < 64.
Proof. apply Z.mod_pos_bound. lia. Qed.

Lemma decode_encode data :
  bytes_ok data -> data <> [] -> decode_chars table (encodeImpl data charset false) = Ok data.
Proof.
  intros Hb. induction data as [|b0|b0 b1|b0 b1 b2 data IH] using triple_ind; intros Hne; [done| | |].
  - inversion Hb; subst. cbn [encodeImpl app]. cbv zeta. rewrite pack_one, !land_63, !shiftr_div by lia.
    cbn [decode_chars]. sextets. rewrite pack_sextets2, land_255, shiftr_div by (lia || apply sextet_range).
    destruct (group_bytes b0 0 0) as (Hv & H0 & _); [lia..|]. do 2 f_equal.
    change (2 ^ 18) with 262144. change (2 ^ 12) with 4096. change (2 ^ 16) with 65536. euclidean.
  - inversion Hb as [|? ? H0 Hb1]; subst. inversion Hb1 as [|? ? H1 _]; subst.
    cbn [encodeImpl app]. cbv zeta. rewrite pack_two, pack_one, !land_63, !shiftr_div by lia.
    cbn [decode_chars]. sextets.
    rewrite pack_sextets3, pack_sextets2, !land_255, !shiftr_div by (lia || apply sextet_range).
    change (2 ^ 18) with 262144. change (2 ^ 12) with 4096. change (2 ^ 6) with 64.
    change (2 ^ 16) with 65536. change (2 ^ 8) with 256.
    f_equal. f_equal; [|f_equal]; euclidean.
  - inversion Hb as [|? ? H0 Hb1]; subst. inversion Hb1 as [|? ? H1 Hb2]; subst.
    inversion Hb2 as [|? ? H2 Hb3]; subst.
    cbn [encodeImpl]. cbv zeta. rewrite pack_bytes, !land_63, !shiftr_div by lia.
    destruct (group_bytes b0 b1 b2 H0 H1 H2) as (Hv & E0 & E1 & E2).
    destruct data as [|a data].
    + cbn [encodeImpl decode_chars]. sextets.
      rewrite pack_sextets, pack_sextets3, pack_sextets2, !land_255, !shiftr_div by (lia || apply sextet_range).
      rewrite Hv, E2. change (2 ^ 18) with 262144. change (2 ^ 12) with 4096. change (2 ^ 6) with 64.
      change (2 ^ 16) with 65536. change (2 ^ 8) with 256. f_equal. f_equal; [|f_equal]; euclidean.
    + rewrite decode_group by apply encode_nonempty. sextets.
      rewrite (IH Hb3) by done. cbn [rbind].
      rewrite pack_sextets, !land_255, !shiftr_div by (lia || apply sextet_range). by rewrite Hv, E0, E1, E2.
Qed.

(** ** Lengths and padding *)

(** The padding after [n] bytes. *)
Definition pads (n : Z) : list Z := replicate (Z.to_nat ((3 - n mod 3) mod 3)) kBase64Pad.

Lemma pads_step n : pads (n + 3) = pads n.
Proof. unfold pads. do 4 f_equal. euclidean. Qed.

Lemma encode_padded data :
  encodeImpl data charset true = encodeImpl data charset false ++ pads (Z.of_nat (length data)).
Proof.
  induction data as [|b0|b0 b1|b0 b1 b2 data IH] using triple_ind; [done|done|done|].
  cbn [encodeImpl]. cbv zeta. rewrite IH.
  replace (Z.of_nat (length (b0 :: b1 :: b2 :: data))) with (Z.of_nat (length data) + 3) by (cbn; lia).
  by rewrite pads_step.
Qed.

Lemma encode_length data :
  Z.of_nat (length (encodeImpl data charset false))
  = (Z.of_nat (length data) + 2) / 3 * 4 - (3 - Z.of_nat (length data) mod 3) mod 3.
Proof.
  induction data as [|b0|b0 b1|b0 b1 b2 data IH] using triple_ind; [done|done|done|].
  cbn [encodeImpl length]. rewrite !Nat2Z.inj_succ, IH. euclidean.
Qed.

Lemma pads_length n : Z.of_nat (length (pads n)) = (3 - n mod 3) mod 3.
Proof. unfold pads. rewrite length_replicate. pose proof (Z.mod_pos_bound (3 - n mod 3) 3). lia. Qed.

Lemma encode_padded_length data :
  Z.of_nat (length (encodeImpl data charset true)) = (Z.of_nat (length data) + 2) / 3 * 4.
Proof. rewrite encode_padded, length_app, Nat2Z.inj_add, encode_length, pads_length. lia. Qed.

Lemma calculateEncodedSize_ok data pad :
  Z.of_nat (length data) < 2 ^ 60 ->
  calculateEncodedSize (Z.of_nat (length data)) pad = Z.of_nat (length (encodeImpl data charset pad)).
Proof.
  intros Hn. unfold calculateEncodedSize. destruct (Z.of_nat (length data) =? 0) eqn:E.
  { by destruct data. }
  apply Z.eqb_neq in E. pose proof (Nat2Z.is_nonneg (length data)) as Hpos.
  assert (0 <= (Z.of_nat (length data) + 2) / 3 * 4 < 2 ^ 62) as Hq.
  { change (2 ^ 62) with (4 * 2 ^ 60). euclidean. }
  rewrite (wrap_unsigned_id 64 (_ + 2)), (wrap_unsigned_id 64 (_ / _ * 4)) by lia.
  destruct pad; cbn [negb].
  - by rewrite encode_padded_length.
  - rewrite encode_length. apply wrap_unsigned_id. euclidean.
Qed.

Lemma encode_no_pad data : Forall (fun c => c <> kBase64Pad) (encodeImpl data charset false).
Proof.
  induction data as [|b0|b0 b1|b0 b1 b2 data IH] using triple_ind; cbn [encodeImpl app]; cbv zeta;
    rewrite ?land_63; repeat (apply Forall_cons; split);
    try (apply (tb_pad _ _ Htables); apply sextet_range); done.
Qed.

Lemma countPadding_ok chars p :
  (2 <= length chars)%nat -> Forall (fun c => c <> kBase64Pad) chars -> (p <= 2)%nat ->
  countPadding (chars ++ replicate p kBase64Pad) (Z.of_nat (length (chars ++ replicate p kBase64Pad)))
  = Ok (Z.of_nat p).
Proof.
  intros Hlen Hno Hp. unfold countPadding. rewrite length_app, length_replicate.
  assert (forall k, (k < length chars)%nat -> exists c, chars !! k = Some c /\ c <> kBase64Pad) as Hat.
  { intros k Hk. destruct (lookup_lt_is_Some_2 chars k Hk) as [c Hc]. exists c. split; [done|].
    rewrite Forall_forall in Hno. apply Hno. by apply (list_elem_of_lookup_2 _ k). }
  destruct (Hat (length chars - 1)%nat ltac:(lia)) as (c & Hc & Hne).
  assert (forall k x, 0 <= k -> (chars ++ replicate p kBase64Pad) !! Z.to_nat k = Some x ->
    at_index (chars ++ replicate p kBase64Pad) k = Ok x) as Hidx by (intros; by apply at_index_ok).
  destruct p as [|[|[|p]]]; [| | |lia].
  - rewrite (Hidx _ c); [|lia|].
    + cbn [rbind]. by replace (c =? kBase64Pad) with false by lia.
    + rewrite lookup_app_l by lia. rewrite <- Hc. f_equal. lia.
  - rewrite (Hidx _ kBase64Pad); [|lia|].
    + cbn [rbind]. rewrite Z.eqb_refl. cbn [negb]. rewrite (Hidx _ c); [|lia|].
      * cbn [rbind]. by replace (c =? kBase64Pad) with false by lia.
      * rewrite lookup_app_l by lia. rewrite <- Hc. f_equal. lia.
    + rewrite lookup_app_r by lia. by replace (Z.to_nat _ - length chars)%nat with 0%nat by lia.
  - rewrite (Hidx _ kBase64Pad); [|lia|].
    + cbn [rbind]. rewrite Z.eqb_refl. cbn [negb]. rewrite (Hidx _ kBase64Pad); [|lia|].
      * cbn [rbind]. by rewrite Z.eqb_refl.
      * rewrite lookup_app_r by lia. by replace (Z.to_nat _ - length chars)%nat with 0%nat by lia.
    + rewrite lookup_app_r by lia. by replace (Z.to_nat _ - length chars)%nat with 1%nat by lia.
Qed.

Lemma encode_at_least data : data <> [] -> (2 <= length (encodeImpl data charset false))%nat.
Proof. destruct data as [|a [|b [|c data]]]; cbn; lia || done. Qed.

Lemma encode_pads data pad :
  exists p, encodeImpl data charset pad = encodeImpl data charset false ++ replicate p kBase64Pad
  /\ Z.of_nat p = if pad then (3 - Z.of_nat (length data) mod 3) mod 3 else 0.
Proof.
  destruct pad.
  - exists (Z.to_nat ((3 - Z.of_nat (length data) mod 3) mod 3)). split; [apply encode_padded|].
    pose proof (Z.mod_pos_bound (3 - Z.of_nat (length data) mod 3) 3). lia.
  - exists 0%nat. by rewrite app_nil_r.
Qed.

Lemma calculateDecodedSize_ok data pad include_pad :
  data <> [] -> (include_pad = true -> pad = true) ->
  calculateDecodedSize (encodeImpl data charset pad) (Z.of_nat (length (encodeImpl data charset pad)))
    include_pad
  = Ok (Z.of_nat (length data), Z.of_nat (length (encodeImpl data charset false))).
Proof.
  intros Hne Hpad. destruct (encode_pads data pad) as (p & Henc & Hp). rewrite Henc.
  pose proof (encode_at_least data Hne) as Hlen. pose proof (encode_length data) as Hsize.
  assert (0 < Z.of_nat (length data)) as Hn by (destruct data; [done|cbn; lia]).
  assert (0 <= (3 - Z.of_nat (length data) mod 3) mod 3 < 3) as Hmod by (apply Z.mod_pos_bound; lia).
  assert ((p <= 2)%nat) as Hp2 by (destruct pad; lia).
  pose proof (countPadding_ok _ p Hlen (encode_no_pad data) Hp2) as Hcount.
  set (e := encodeImpl data charset false ++ replicate p kBase64Pad) in *.
  assert (Z.of_nat (length e) = Z.of_nat (length (encodeImpl data charset false)) + Z.of_nat p) as He.
  { unfold e. rewrite length_app, length_replicate. lia. }
  unfold calculateDecodedSize. replace (Z.of_nat (length e) =? 0) with false by lia.
  destruct include_pad.
  - rewrite (Hpad eq_refl) in *. replace (Z.of_nat (length e) mod 4 =? 0) with true by euclidean.
    cbn [negb]. rewrite Hcount. cbn [rbind]. do 2 f_equal; euclidean.
  - destruct (Z.of_nat (length e) mod 4 =? 0) eqn:Ez; cbn [negb].
    + apply Z.eqb_eq in Ez. rewrite Hcount. cbn [rbind]. clear Hcount. do 2 f_equal; destruct pad; euclidean.
    + apply Z.eqb_neq in Ez. replace (Z.of_nat (length e) mod 4 =? 1) with false by (destruct pad; euclidean).
      do 2 f_equal; destruct pad; euclidean.
Qed.

Lemma write_from_start buffer chars :
  (length chars <= length buffer)%nat -> write_from buffer 0 chars = Ok (chars ++ drop (length chars) buffer).
Proof. intros Hle. unfold write_from. rewrite (proj2 (Z.leb_le _ _)) by lia. done. Qed.

Lemma decodeImpl_encoded data pad include_pad dst dst_len :
  bytes_ok data -> data <> [] -> (include_pad = true -> pad = true) ->
  Z.of_nat (length data) <= dst_len -> (length data <= length dst)%nat ->
  decodeImpl table (encodeImpl data charset pad) (Z.of_nat (length (encodeImpl data charset pad)))
    dst dst_len include_pad
  = (data ++ drop (length data) dst, Ok (Z.of_nat (length data))).
Proof.
  intros Hb Hne Hpad Hlen Hdst. unfold decodeImpl. rewrite (calculateDecodedSize_ok _ _ _ Hne Hpad).
  destruct (encode_pads data pad) as (p & Henc & _). rewrite Henc.
  pose proof (encode_at_least data Hne) as Hsome.
  rewrite (proj2 (Z.eqb_neq _ _)) by (rewrite length_app; lia).
  unfold wbind at 1, wreturn at 1. rewrite (proj2 (Z.ltb_ge _ _)) by lia. rewrite Nat2Z.id, take_app_length.
  pose proof (decode_encode _ Hb Hne) as Hdec. pose proof (decode_chars_size table _ _ Hdec) as Hsize.
  pose proof (writes_at_buffer _ _ _ dst (decode_groups_writes table (encodeImpl data charset false) 0)) as Hw. rewrite Hdec in Hw. cbn [rbind] in Hw.
  destruct Hw as [_ Hw]; [lia|]. unfold wbind. by rewrite Hw.
Qed.
End roundtrip.

Lemma resize_exact l r n : Z.of_nat (length l) = n -> resize_string (l ++ r) n = l.
Proof.
  intros <-. unfold resize_string. rewrite Nat2Z.id, take_app_length.
  replace (_ - _)%nat with 0%nat by (rewrite length_app; lia). apply app_nil_r.
Qed.

Lemma resize_empty n : length (resize_string [] n) = Z.to_nat n.
Proof. unfold resize_string. by rewrite take_nil, length_app, length_replicate, Nat.sub_0_r. Qed.

Lemma encodeImpl_string_ok data charset pad :
  Z.of_nat (length data) < 2 ^ 60 ->
  encodeImpl_string data charset pad = Ok (encodeImpl data charset pad).
Proof.
  intros Hlen. unfold encodeImpl_string. rewrite (calculateEncodedSize_ok charset) by done.
  rewrite write_from_start; [|rewrite resize_empty; lia]. f_equal.
  rewrite drop_ge by (rewrite resize_empty; lia). apply app_nil_r.
Qed.

Lemma write_from_end out chars n :
  n = Z.of_nat (length out) + Z.of_nat (length chars) ->
  write_from (resize_string out n) (length out) chars = Ok (out ++ chars).
Proof.
  intros ->. unfold resize_string.
  replace (Z.to_nat _) with (length out + length chars)%nat by lia.
  rewrite take_ge by lia. unfold write_from. rewrite length_app, length_replicate.
  rewrite (proj2 (Z.leb_le _ _)) by lia. f_equal. rewrite take_app_length.
  rewrite drop_ge by (rewrite length_app, length_replicate; lia). by rewrite app_nil_r.
Qed.

(** The largest input whose encoding has a length that is an int32_t. *)
Definition max_encodable : Z := 3 * (2 ^ 29 - 1).

Lemma encoded_int32 charset data pad :
  Z.of_nat (length data) <= max_encodable ->
  0 <= Z.of_nat (length (encodeImpl data charset pad)) <= 2 ^ 31 - 4.
Proof.
  unfold max_encodable. intros Hle. rewrite <- (calculateEncodedSize_ok charset) by lia.
  unfold calculateEncodedSize. destruct (_ =? 0); [lia|].
  pose proof (Nat2Z.is_nonneg (length data)) as Hn.
  assert (0 <= (Z.of_nat (length data) + 2) / 3 * 4 <= 2 ^ 31 - 4) as Hb.
  { euclidean. }
  rewrite (wrap_unsigned_id 64 (_ + 2)), (wrap_unsigned_id 64 (_ / _ * 4)) by lia.
  destruct pad; cbn [negb]; [lia|]. rewrite wrap_unsigned_id; euclidean.
Qed.

Lemma decode_ok data charset :
  tables charset kBase64ReverseIndexTable -> bytes_ok data -> Z.of_nat (length data) <= max_encodable ->
  decode (encodeImpl data charset true) = Ok data.
Proof.
  intros Ht Hb Hlen. pose proof (encoded_int32 charset data true Hlen) as Hint.
  destruct (decide (data = [])) as [->|Hne]; [done|].
  pose proof (calculateDecodedSize_ok _ _ Ht data true true Hne ltac:(done)) as Hsize.
  unfold decode. rewrite wrap_signed_id, wrap_unsigned_id by lia. cbv zeta.
  rewrite Z.quot_div_nonneg by lia.
  assert (Z.of_nat (length data) <= Z.of_nat (length (encodeImpl data charset true)) / 4 * 3) as Hfit.
  { rewrite encode_padded_length. clear. euclidean. }
  rewrite (proj2 (Z.ltb_ge _ _)) by lia.
  rewrite (decodeImpl_encoded _ _ Ht) by (done || (rewrite resize_empty; lia) || lia).
  cbn [rbind]. by rewrite resize_exact.
Qed.

Lemma decodeUrl_ok data charset pad :
  tables charset kBase64UrlReverseIndexTable -> bytes_ok data -> Z.of_nat (length data) <= max_encodable ->
  decodeUrl (encodeImpl data charset pad) = Ok data.
Proof.
  intros Ht Hb Hlen. pose proof (encoded_int32 charset data pad Hlen) as Hint.
  destruct (decide (data = [])) as [->|Hne]; [done|].
  unfold decodeUrl. rewrite wrap_signed_id, wrap_unsigned_id by lia. cbv zeta.
  rewrite ck32_in by lia. cbn [rbind]. rewrite Z.quot_div_nonneg by lia.
  assert (Z.of_nat (length data) <= (Z.of_nat (length (encodeImpl data charset pad)) + 3) / 4 * 3) as Hfit.
  { destruct (encode_pads charset data pad) as (p & -> & _).
    rewrite length_app, Nat2Z.inj_add, encode_length. clear. euclidean. }
  rewrite (proj2 (Z.ltb_ge _ _)) by lia.
  rewrite (decodeImpl_encoded _ _ Ht) by (done || (rewrite resize_empty; lia) || lia).
  cbn [rbind]. by rewrite resize_exact.
Qed.

(** C30. For every sequence of bytes whose encoding has a length that is an int32_t:
    [encode], [encodeUrl] and [encodeAppend] write exactly the number of characters that
    [calculateEncodedSize] announces, never past the string they resized; [decode] gives the
    bytes of [encode] back, and [decodeUrl] those of both encodings, padded or not. *)
Theorem base64_roundtrip data out :
  bytes_ok data -> Z.of_nat (length data) <= max_encodable ->
  exists e u,
    encode data = Ok e /\ encodeUrl data = Ok u /\ encodeAppend data out = Ok (out ++ e)
    /\ Z.of_nat (length e) = calculateEncodedSize (Z.of_nat (length data)) true
    /\ Z.of_nat (length u) = calculateEncodedSize (Z.of_nat (length data)) false
    /\ decode e = Ok data /\ decodeUrl u = Ok data /\ decodeUrl e = Ok data.
Proof.
  intros Hb Hlen. assert (Z.of_nat (length data) < 2 ^ 60) as Hlt by (unfold max_encodable in Hlen; lia).
  eexists _, _. unfold encode, encodeUrl, encodeAppend. rewrite !encodeImpl_string_ok by done.
  rewrite (calculateEncodedSize_ok kBase64Charset data true) by done.
  rewrite (calculateEncodedSize_ok kBase64UrlCharset data false) by done.
  split_and!; [done|done|by apply write_from_end|done|done| | |].
  - by apply decode_ok; [apply standard_tables|..].
  - by apply decodeUrl_ok; [apply url_tables|..].
  - by apply decodeUrl_ok; [apply mixed_tables|..].
Qed.

Lemma base64_roundtrip_witness :
  exists e u,
    encode [251; 239; 190; 7] = Ok e /\ encodeUrl [251; 239; 190; 7] = Ok u
    /\ encodeAppend [251; 239; 190; 7] [120] = Ok (120 :: e)
    /\ Z.of_nat (length e) = 8 /\ Z.of_nat (length u) = 6
    /\ decode e = Ok [251; 239; 190; 7] /\ decodeUrl u = Ok [251; 239; 190; 7]
    /\ decodeUrl e = Ok [251; 239; 190; 7].
Proof.
  apply (base64_roundtrip [251; 239; 190; 7] [120]); [|by vm_compute].
  repeat (constructor; [lia|]). constructor.
Defined.

(** * Any input *)

(** A result that has a property, or an exception of the decoder. *)
Definition returns_or_fails {A} (r : result A) (P : A -> Prop) : Prop :=
  match r with Ok a => P a | Err e => e = UserFail end.

Lemma returns_bind {A B} (m : result A) (k : A -> result B) P Q :
  returns_or_fails m P -> (forall a, P a -> returns_or_fails (k a) Q) -> returns_or_fails (rbind m k) Q.
Proof. destruct m as [a|e]; cbn; auto. Qed.

(** [output'] is [output] with at most the first [n] characters written. *)
Definition written_within (n : Z) (output output' : list Z) : Prop :=
  length output' = length output /\ drop (Z.to_nat n) output' = drop (Z.to_nat n) output.

Section any_input.
Variable table : list Z.
Hypothesis Htable : length table = 256%nat.

Lemma lookup_returns c : 0 <= c < 256 -> returns_or_fails (Base64ReverseLookup c table) (fun _ => True).
Proof.
  intros Hc. unfold Base64ReverseLookup.
  destruct (lookup_lt_is_Some_2 table (Z.to_nat c)) as [v Hv]; [lia|].
  rewrite (at_index_ok table c v) by (done || lia). cbn [rbind]. by destruct (v >=? 64).
Qed.

Lemma decode_chars_returns src :
  bytes_ok src -> 2 <= Z.of_nat (length src) -> Z.of_nat (length src) mod 4 <> 1 ->
  returns_or_fails (decode_chars table src) (fun out => Z.of_nat (length out) = decoded_size (Z.of_nat (length src))).
Proof.
  induction src as [src IH] using (induction_ltof1 _ (@length Z)). unfold ltof in IH. intros Hb Hlen Hmod.
  destruct src as [|c0 [|c1 rest]]; [cbn in Hlen; lia|cbn in Hlen; lia|].
  apply Forall_cons in Hb as [H0 [H1 Hb]%Forall_cons].
  destruct rest as [|c2 rest].
  { cbn [decode_chars]. do 2 (eapply returns_bind; [by apply lookup_returns|intros ? _]). done. }
  apply Forall_cons in Hb as [H2 Hb]. destruct rest as [|c3 rest].
  { cbn [decode_chars]. do 3 (eapply returns_bind; [by apply lookup_returns|intros ? _]). done. }
  apply Forall_cons in Hb as [H3 Hb]. destruct rest as [|c4 rest].
  { cbn [decode_chars]. do 4 (eapply returns_bind; [by apply lookup_returns|intros ? _]). done. }
  rewrite decode_group by done.
  do 4 (eapply returns_bind; [by apply lookup_returns|intros ? _]). cbv zeta.
  eapply returns_bind; [apply IH|].
  - cbn [length]. lia.
  - done.
  - cbn [length] in *. euclidean.
  - cbn [length] in *. euclidean.
  - intros out Hout. cbn [returns_or_fails length] in *. rewrite !Nat2Z.inj_succ, Hout.
    pose proof (decoded_size_step (Z.of_nat (S (length rest)))) as Hstep.
    rewrite Nat2Z.inj_succ in Hstep. replace (Z.succ (Z.of_nat (length rest)) + 4) with
      (Z.succ (Z.succ (Z.succ (Z.succ (Z.succ (Z.of_nat (length rest))))))) in Hstep by lia.
    rewrite Nat2Z.inj_succ. lia.
Qed.

Lemma countPadding_range src :
  2 <= Z.of_nat (length src) -> exists p, countPadding src (Z.of_nat (length src)) = Ok p /\ 0 <= p <= 2.
Proof.
  intros Hlen. unfold countPadding.
  destruct (lookup_lt_is_Some_2 src (Z.to_nat (Z.of_nat (length src) - 1))) as [x Hx]; [lia|].
  destruct (lookup_lt_is_Some_2 src (Z.to_nat (Z.of_nat (length src) - 2))) as [y Hy]; [lia|].
  rewrite (at_index_ok _ _ x), (at_index_ok _ _ y) by (done || lia). cbn [rbind].
  destruct (negb _); [by exists 0|]. destruct (negb _); [by exists 1|by exists 2].
Qed.

(** The sizes of an input that is not empty. *)
Lemma calculateDecodedSize_returns src include_pad :
  src <> [] ->
  returns_or_fails (calculateDecodedSize src (Z.of_nat (length src)) include_pad) (fun '(needed, size) =>
    2 <= size <= Z.of_nat (length src) /\ size mod 4 <> 1 /\ needed = decoded_size size
    /\ needed <= (if include_pad then Z.of_nat (length src) else Z.of_nat (length src) + 3) / 4 * 3).
Proof.
  intros Hne. assert (0 < Z.of_nat (length src)) as Hpos by (destruct src; [done|cbn [length]; lia]).
  unfold calculateDecodedSize, decoded_size. rewrite (proj2 (Z.eqb_neq _ _)) by lia.
  set (n := Z.of_nat (length src)) in *. assert (0 <= n mod 4 < 4) as Hr by (apply Z.mod_pos_bound; lia).
  assert (n mod 4 = 0 -> returns_or_fails
    (let! padding := countPadding src n in Ok (n / 4 * 3 - padding, n - padding)) (fun '(needed, size) =>
    2 <= size <= n /\ size mod 4 <> 1
    /\ needed = size / 4 * 3 + (if size mod 4 =? 0 then 0 else size mod 4 - 1)
    /\ needed <= (if include_pad then n else n + 3) / 4 * 3)) as Hpadded.
  { intros Hn. assert (4 <= n) as H4 by euclidean.
    destruct (countPadding_range src ltac:(lia)) as (p & Hp & Hrange). fold n in Hp. rewrite Hp. cbn.
    assert (p = 0 \/ p = 1 \/ p = 2) as [->|[->| ->]] by lia.
    - replace ((n - 0) mod 4) with 0 by euclidean.
      cbn [Z.eqb]. destruct include_pad; euclidean.
    - replace ((n - 1) mod 4) with 3 by euclidean.
      cbn [Z.eqb]. destruct include_pad; euclidean.
    - replace ((n - 2) mod 4) with 2 by euclidean.
      cbn [Z.eqb]. destruct include_pad; euclidean. }
  destruct (n mod 4 =? 0) eqn:E0; cbn [negb].
  - apply Z.eqb_eq in E0. destruct include_pad; by apply Hpadded.
  - clear Hpadded. destruct include_pad; [done|]. destruct (n mod 4 =? 1) eqn:E1; [done|].
    apply Z.eqb_neq in E0, E1. cbn [returns_or_fails]. rewrite (proj2 (Z.eqb_neq _ _) E0).
    euclidean.
Qed.

(** The decoder stays in a buffer of the size it needs, whatever the input, also before it throws. *)
Lemma decodeImpl_returns src dst dst_len include_pad :
  bytes_ok src -> 0 <= dst_len ->
  (forall needed size, calculateDecodedSize src (Z.of_nat (length src)) include_pad = Ok (needed, size) ->
     needed <= dst_len -> needed <= Z.of_nat (length dst)) ->
  exists dst' r, decodeImpl table src (Z.of_nat (length src)) dst dst_len include_pad = (dst', r)
    /\ match calculateDecodedSize src (Z.of_nat (length src)) include_pad with
       | Ok (needed, _) => written_within needed dst dst' /\ returns_or_fails r (fun n => n = needed /\ 0 <= n <= Z.of_nat (length dst))
       | Err _ => dst' = dst /\ r = Err UserFail
       end.
Proof.
  intros Hb Hdst Hfit. unfold decodeImpl. destruct (decide (src = [])) as [->|Hne].
  { exists dst, (Ok 0). split; [done|]. cbn. split; [done|lia]. }
  rewrite (proj2 (Z.eqb_neq _ _)) by (destruct src; [done|cbn [length]; lia]).
  pose proof (calculateDecodedSize_returns src include_pad Hne) as Hsize. unfold wbind at 1, wreturn at 1.
  destruct (calculateDecodedSize _ _ _) as [[needed size]|e] eqn:Ecalc; [|cbn in Hsize; subst e; by eexists _, _].
  destruct Hsize as (Hrange & Hmod & Hneeded & _). destruct (dst_len <? needed) eqn:El; [by eexists _, _|].
  specialize (Hfit _ _ eq_refl ltac:(lia)). set (chars := take (Z.to_nat size) src).
  assert (Z.of_nat (length chars) = size) as Hlen by (unfold chars; rewrite length_take; lia).
  pose proof (decoded_size_nonneg size ltac:(lia)) as Hpos.
  pose proof (decode_chars_returns chars ltac:(by apply Forall_take) ltac:(lia) ltac:(by rewrite Hlen)) as Hdec.
  pose proof (writes_at_buffer _ _ _ dst (decode_groups_writes table chars 0)) as Hw. rewrite Hlen in Hw, Hdec. specialize (Hw ltac:(lia)).
  unfold wbind. destruct (decode_chars table chars) as [out|e]; cbn [rbind returns_or_fails] in Hw, Hdec.
  - destruct Hw as [Hle ->]. eexists _, _. split; [done|]. split; [|cbn; lia].
    replace needed with (Z.of_nat (length out)) by lia. split; [rewrite length_app, length_drop; lia|]. by rewrite Nat2Z.id, drop_app_length.
  - destruct Hw as (dst' & -> & Hl & Hdrop). eexists _, _. split; [done|]. rewrite <- Hneeded in Hdrop. done.
Qed.
End any_input.

Lemma table_sizes : length kBase64ReverseIndexTable = 256%nat /\ length kBase64UrlReverseIndexTable = 256%nat.
Proof. by vm_compute. Qed.

Lemma resize_length out n : length (resize_string out n) = Z.to_nat n.
Proof. unfold resize_string. rewrite length_app, length_take, length_replicate. lia. Qed.

(** The string that the decoders return. *)
Lemma decoded_string input pad output dst r :
  match calculateDecodedSize input (Z.of_nat (length input)) pad with
  | Ok (needed, _) => written_within needed dst output /\ returns_or_fails r (fun n => n = needed /\ 0 <= n <= Z.of_nat (length dst))
  | Err _ => output = dst /\ r = Err UserFail
  end ->
  returns_or_fails (let! out_len := r in Ok (resize_string output out_len)) (fun out => exists size,
    calculateDecodedSize input (Z.of_nat (length input)) pad = Ok (Z.of_nat (length out), size)).
Proof.
  destruct (calculateDecodedSize _ _ _) as [[needed size]|]; [|by intros [_ ->]]. intros [_ Hr].
  destruct r as [n|]; cbn [returns_or_fails rbind] in *; [|done]. destruct Hr as [-> Hn]. exists size. by rewrite resize_length, Z2Nat.id by lia.
Qed.

Lemma decode_returns input :
  bytes_ok input -> Z.of_nat (length input) < 2 ^ 31 ->
  returns_or_fails (decode input) (fun out => exists size,
    calculateDecodedSize input (Z.of_nat (length input)) true = Ok (Z.of_nat (length out), size)).
Proof.
  intros Hb Hlen. unfold decode. rewrite wrap_signed_id, wrap_unsigned_id by lia. cbv zeta.
  rewrite Z.quot_div_nonneg by lia. set (out_len := _ / 4 * 3).
  assert (0 <= out_len) as Hout by (unfold out_len; euclidean).
  rewrite (proj2 (Z.ltb_ge _ _) Hout).
  edestruct (decodeImpl_returns _ (proj1 table_sizes) input (resize_string [] out_len) out_len true) as (output & r & -> & Hr);
    [done|done|intros; rewrite resize_empty; lia|].
  by eapply decoded_string.
Qed.

Lemma decodeUrl_returns input :
  bytes_ok input -> Z.of_nat (length input) < 2 ^ 31 - 3 ->
  returns_or_fails (decodeUrl input) (fun out => exists size,
    calculateDecodedSize input (Z.of_nat (length input)) false = Ok (Z.of_nat (length out), size)).
Proof.
  intros Hb Hlen. unfold decodeUrl. rewrite wrap_signed_id, wrap_unsigned_id by lia. cbv zeta.
  rewrite ck32_in by lia. cbn [rbind]. rewrite Z.quot_div_nonneg by lia. set (out_len := _ / 4 * 3).
  assert (0 <= out_len) as Hout by (unfold out_len; euclidean).
  rewrite (proj2 (Z.ltb_ge _ _) Hout).
  edestruct (decodeImpl_returns _ (proj2 table_sizes) input (resize_string [] out_len) out_len false) as (output & r & -> & Hr);
    [done|done|intros; rewrite resize_empty; lia|].
  by eapply decoded_string.
Qed.

(** The decoders into a buffer of the caller. *)
Lemma decode_to_returns input output needed size :
  bytes_ok input -> calculateDecodedSize input (Z.of_nat (length input)) true = Ok (needed, size) -> needed <= Z.of_nat (length output) ->
  written_within needed output (fst (decode_to input output)) /\ returns_or_fails (snd (decode_to input output)) (fun _ => True).
Proof.
  intros Hb Hsize Hfit. unfold decode_to. cbv zeta.
  edestruct (decodeImpl_returns _ (proj1 table_sizes) input output (Z.of_nat (length input) / 4 * 3) true) as (output' & r & -> & Hr);
    [done|euclidean|intros ? ? Hs _; congruence|].
  rewrite Hsize in Hr. destruct Hr as [Hw Hr]. split; [done|]. by destruct r.
Qed.

Lemma decodeUrl_to_returns input output hasPad :
  bytes_ok input ->
  length (fst (decodeUrl_to input output hasPad)) = length output /\ returns_or_fails (snd (decodeUrl_to input output hasPad)) (fun _ => True).
Proof.
  intros Hb. unfold decodeUrl_to.
  edestruct (decodeImpl_returns _ (proj2 table_sizes) input output (Z.of_nat (length output)) hasPad) as (output' & r & -> & Hr);
    [done|lia|done|].
  destruct (calculateDecodedSize _ _ _) as [[needed ?]|]; [|by destruct Hr as [-> ->]].
  destruct Hr as [Hw Hr]. split; [apply Hw|]. by destruct r.
Qed.
