(* ===== verification/Base64Mime.v ===== *)
(** MIME Base64 (bolt/common/encode/Base64.cpp, [encodeMime] and [decodeMime]): lines of 76
    characters, a decoder that skips what is not in the alphabet, and the sizes. *)

From S2P Require Import Prelude Base64.

(** * Definitions *)

Definition kNewline : list Z := [13; 10].
Definition kMaxLineLength : Z := 76.

(** [kBase64ReverseIndexTable[c]] *)
Definition reverse_index (c : Z) : Z := nth (Z.to_nat c) kBase64ReverseIndexTable 255.

(** [while (idx < inputSize)] of [decodeMime]: the rest of the input, the accumulator, the next
    shift and the place of the next byte. *)
Fixpoint mime_loop (input : list Z) (accumulator bitsNeeded outPtr : Z) : writing (list Z * Z * Z * Z) :=
  match input with
  | [] => wreturn (Ok ([], accumulator, bitsNeeded, outPtr))
  | c :: input =>
      let val := reverse_index c in
      if c =? kBase64Pad then
        if bitsNeeded =? 18 then wreturn (Err UserFail)
        else if bitsNeeded =? 6 then
          match input with
          | [] => wreturn (Err UserFail)
          | c' :: input => if negb (c' =? kBase64Pad) then wreturn (Err UserFail)
                           else wreturn (Ok (input, accumulator, bitsNeeded, outPtr))
          end
        else wreturn (Ok (input, accumulator, bitsNeeded, outPtr))
      else if (val <? 0) || (val >=? 0x40) then mime_loop input accumulator bitsNeeded outPtr
      else
        let accumulator := Z.lor accumulator (wrap_unsigned 32 (Z.shiftl val bitsNeeded)) in
        let bitsNeeded := bitsNeeded - 6 in
        if bitsNeeded <? 0 then
          let# _ := put_byte outPtr (Z.land (Z.shiftr accumulator 16) 255) in
          let# _ := put_byte (outPtr + 1) (Z.land (Z.shiftr accumulator 8) 255) in
          let# _ := put_byte (outPtr + 2) (Z.land accumulator 255) in
          mime_loop input 0 18 (outPtr + 3)
        else mime_loop input accumulator bitsNeeded outPtr
  end.

(** The remaining bits. *)
Definition mime_tail (accumulator bitsNeeded outPtr : Z) : writing unit :=
  if bitsNeeded =? 0 then
    let# _ := put_byte outPtr (Z.land (Z.shiftr accumulator 16) 255) in
    put_byte (outPtr + 1) (Z.land (Z.shiftr accumulator 8) 255)
  else if bitsNeeded =? 6 then put_byte outPtr (Z.land (Z.shiftr accumulator 16) 255)
  else if bitsNeeded =? 12 then wreturn (Err UserFail)
  else wreturn (Ok tt).

(** [decodeMime(input, inputSize, output)] *)
Definition decodeMime (input output : list Z) : list Z * result unit :=
  match input with
  | [] => (output, Ok tt)
  | _ =>
      (let# r := mime_loop input 0 18 0 in
       let '(rest, accumulator, bitsNeeded, outPtr) := r in
       let# _ := mime_tail accumulator bitsNeeded outPtr in
       if existsb (fun c => (reverse_index c >=? 0) && (reverse_index c <? 0x40)) rest
       then wreturn (Err UserFail) else wreturn (Ok tt)) output
  end.

(** The loop of [calculateMimeDecodedSize] from position [i] on. *)
Fixpoint count_mime (inputSize : Z) (input : list Z) (i decodedSize : Z) : Z :=
  match input with
  | [] => decodedSize
  | c :: input =>
      if c =? kBase64Pad then decodedSize - (inputSize - i)
      else if reverse_index c >=? 0x40 then count_mime inputSize input (i + 1) (decodedSize - 1)
      else count_mime inputSize input (i + 1) decodedSize
  end.

Definition calculateMimeDecodedSize (input : list Z) : result Z :=
  let inputSize := Z.of_nat (length input) in
  match input with
  | [] => Ok 0
  | [c] => if reverse_index c >=? 0x40 then Ok 0 else Err UserFail
  | _ =>
      let decodedSize := count_mime inputSize input 0 inputSize in
      let paddings := if negb (Z.land decodedSize 3 =? 0) then 4 - Z.land decodedSize 3 else 0 in
      Ok (3 * ((decodedSize + 3) / 4) - paddings)
  end.

(** The groups of three bytes of one line. *)
Fixpoint mime_triples (data : list Z) : list Z :=
  match data with
  | b0 :: b1 :: b2 :: data =>
      let trio := Z.lor (Z.lor (Z.shiftl b0 16) (Z.shiftl b1 8)) b2 in
      char_at kBase64Charset (Z.land (Z.shiftr trio 18) 0x3F) ::
      char_at kBase64Charset (Z.land (Z.shiftr trio 12) 0x3F) ::
      char_at kBase64Charset (Z.land (Z.shiftr trio 6) 0x3F) ::
      char_at kBase64Charset (Z.land trio 0x3F) :: mime_triples data
  | _ => []
  end.

Definition bytesPerLine : Z := kMaxLineLength / 4 * 3.

(** [while (remaining >= 3)]: the characters written and the bytes that are left. *)
Fixpoint mime_lines (fuel : nat) (data : list Z) : result (list Z * list Z) :=
  match fuel with
  | O => Err OutOfFuel
  | S fuel =>
      let remaining := Z.of_nat (length data) in
      if remaining >=? 3 then
        let chunk := Z.min bytesPerLine (remaining / 3 * 3) in
        let chars := mime_triples (take (Z.to_nat chunk) data) in
        let data := drop (Z.to_nat chunk) data in
        let remaining := remaining - chunk in
        let newline := if (chunk =? bytesPerLine) && (remaining >? 0) then kNewline else [] in
        let! r := mime_lines fuel data in
        Ok (chars ++ newline ++ fst r, snd r)
      else Ok ([], data)
  end.

(** The characters that [encodeMime] writes, in order. *)
Definition encodeMime (input : list Z) : result (list Z) :=
  match input with
  | [] => Ok []
  | _ =>
      let! r := mime_lines (S (length input)) input in
      let '(chars, rest) := r in
      match rest with
      | [] => Ok chars
      | [b0] =>
          Ok (chars ++ [char_at kBase64Charset (Z.shiftr b0 2);
                        char_at kBase64Charset (Z.shiftl (Z.land b0 3) 4); kBase64Pad; kBase64Pad])
      | b0 :: b1 :: _ =>
          Ok (chars ++ [char_at kBase64Charset (Z.shiftr b0 2);
                        char_at kBase64Charset (Z.lor (Z.shiftl (Z.land b0 3) 4) (Z.shiftr b1 4));
                        char_at kBase64Charset (Z.shiftl (Z.land b1 0x0F) 2); kBase64Pad])
      end
  end.

Definition encodeMime_to (input output : list Z) : result (list Z) :=
  let! chars := encodeMime input in
  write_from output 0 chars.

Definition calculateMimeEncodedSize (inputSize : Z) : Z :=
  if inputSize =? 0 then 0
  else
    let encodedSize := calculateEncodedSize inputSize true in
    wrap_unsigned 64
      (encodedSize + wrap_unsigned 64 (encodedSize - 1) / kMaxLineLength * Z.of_nat (length kNewline)).

(** * The decoder without a buffer *)

(** The same loop without a buffer: the rest of the input, the accumulator, the next shift
    and the bytes written. *)
Fixpoint mime_parse (input : list Z) (accumulator bitsNeeded : Z)
  : result (list Z * Z * Z * list Z) :=
  match input with
  | [] => Ok ([], accumulator, bitsNeeded, [])
  | c :: input =>
      let val := reverse_index c in
      if c =? kBase64Pad then
        if bitsNeeded =? 18 then Err UserFail
        else if bitsNeeded =? 6 then
          match input with
          | [] => Err UserFail
          | c' :: input => if negb (c' =? kBase64Pad) then Err UserFail
                           else Ok (input, accumulator, bitsNeeded, [])
          end
        else Ok (input, accumulator, bitsNeeded, [])
      else if (val <? 0) || (val >=? 0x40) then mime_parse input accumulator bitsNeeded
      else
        let accumulator := Z.lor accumulator (wrap_unsigned 32 (Z.shiftl val bitsNeeded)) in
        let bitsNeeded := bitsNeeded - 6 in
        if bitsNeeded <? 0 then
          let! r := mime_parse input 0 18 in
          let '(rest, accumulator', bitsNeeded', out) := r in
          Ok (rest, accumulator', bitsNeeded',
              Z.land (Z.shiftr accumulator 16) 255 :: Z.land (Z.shiftr accumulator 8) 255
              :: Z.land accumulator 255 :: out)
        else mime_parse input accumulator bitsNeeded
  end.

(** The bytes that [decodeMime] writes, in order. *)
Definition mime_bytes (input : list Z) : result (list Z) :=
  match input with
  | [] => Ok []
  | _ =>
      let! r := mime_parse input 0 18 in
      let '(rest, accumulator, bitsNeeded, out) := r in
      let! tail :=
        if bitsNeeded =? 0 then
          Ok [Z.land (Z.shiftr accumulator 16) 255; Z.land (Z.shiftr accumulator 8) 255]
        else if bitsNeeded =? 6 then Ok [Z.land (Z.shiftr accumulator 16) 255]
        else if bitsNeeded =? 12 then Err UserFail
        else Ok [] in
      if existsb (fun c => (reverse_index c >=? 0) && (reverse_index c <? 0x40)) rest then Err UserFail
      else Ok (out ++ tail)
  end.

(** * The decoder on encoded groups *)

Lemma reverse_index_char s : 0 <= s < 64 -> reverse_index (char_at kBase64Charset s) = s.
Proof.
  intros Hs. pose proof (tb_lookup _ _ standard_tables s Hs) as H. unfold Base64ReverseLookup, at_index in H.
  unfold reverse_index. destruct (_ <? 0); [done|].
  destruct (kBase64ReverseIndexTable !! _) as [v|] eqn:E; [|done]. cbn [rbind] in H.
  destruct (v >=? 64); [done|]. injection H as ->. by rewrite nth_lookup, E.
Qed.

(** A character of the alphabet that does not end a group, and one that does. *)
Lemma mime_parse_shift s input accumulator bits :
  0 <= s < 64 -> 6 <= bits <= 18 ->
  mime_parse (char_at kBase64Charset s :: input) accumulator bits
  = mime_parse input (Z.lor accumulator (Z.shiftl s bits)) (bits - 6).
Proof.
  intros Hs Hbits. cbn [mime_parse]. rewrite (reverse_index_char s Hs).
  rewrite (proj2 (Z.eqb_neq _ _) (tb_pad _ _ standard_tables s Hs)).
  replace ((s <? 0) || (s >=? 64)) with false by lia. cbv zeta.
  replace (bits - 6 <? 0) with false by lia. do 2 f_equal. apply wrap_unsigned_id.
  rewrite Z.shiftl_mul_pow2 by lia.
  assert (2 ^ bits <= 2 ^ 18) as Hle by (apply Z.pow_le_mono_r; lia).
  assert (0 < 2 ^ bits) as Hpos by (apply Z.pow_pos_nonneg; lia). nia.
Qed.

Lemma mime_parse_flush s input accumulator bits :
  0 <= s < 64 -> bits = 0 ->
  mime_parse (char_at kBase64Charset s :: input) accumulator bits
  = let accumulator := Z.lor accumulator s in
    let! r := mime_parse input 0 18 in
    let '(rest, accumulator', bits', out) := r in
    Ok (rest, accumulator', bits',
        Z.land (Z.shiftr accumulator 16) 255 :: Z.land (Z.shiftr accumulator 8) 255
        :: Z.land accumulator 255 :: out).
Proof.
  intros Hs ->. cbn [mime_parse]. rewrite (reverse_index_char s Hs).
  rewrite (proj2 (Z.eqb_neq _ _) (tb_pad _ _ standard_tables s Hs)).
  replace ((s <? 0) || (s >=? 64)) with false by lia.
  rewrite Z.shiftl_0_r, wrap_unsigned_id by lia. reflexivity.
Qed.

(** Line breaks are skipped. *)
Lemma mime_parse_newline input accumulator bits :
  mime_parse (kNewline ++ input) accumulator bits = mime_parse input accumulator bits.
Proof. reflexivity. Qed.

(** The result of the loop with bytes in front. *)
Definition prepend (bytes : list Z) (r : result (list Z * Z * Z * list Z))
  : result (list Z * Z * Z * list Z) :=
  let! r := r in
  let '(rest, accumulator, bits, out) := r in
  Ok (rest, accumulator, bits, bytes ++ out).

Lemma prepend_app b1 b2 r : prepend b1 (prepend b2 r) = prepend (b1 ++ b2) r.
Proof. destruct r as [[[[? ?] ?] ?]|]; [|done]. cbn. by rewrite app_assoc. Qed.

Lemma mime_parse_group b0 b1 b2 input :
  0 <= b0 < 256 -> 0 <= b1 < 256 -> 0 <= b2 < 256 ->
  mime_parse (mime_triples [b0; b1; b2] ++ input) 0 18 = prepend [b0; b1; b2] (mime_parse input 0 18).
Proof.
  intros H0 H1 H2. cbn [mime_triples app]. cbv zeta. rewrite pack_bytes, !land_63, !shiftr_div by lia.
  destruct (group_bytes b0 b1 b2 H0 H1 H2) as (Hv & E0 & E1 & E2).
  do 3 rewrite mime_parse_shift by (apply sextet_range || lia).
  rewrite mime_parse_flush by (apply sextet_range || lia). cbv zeta.
  rewrite Z.lor_0_l, pack_sextets, !land_255, !shiftr_div, Hv, E0, E1, E2
    by (lia || apply sextet_range).
  reflexivity.
Qed.

Lemma mime_parse_triples data input :
  bytes_ok data -> Z.of_nat (length data) mod 3 = 0 ->
  mime_parse (mime_triples data ++ input) 0 18 = prepend data (mime_parse input 0 18)
  /\ Z.of_nat (length (mime_triples data)) = Z.of_nat (length data) / 3 * 4.
Proof.
  induction data as [|b0|b0 b1|b0 b1 b2 data IH] using triple_ind; intros Hb Hmod; [|done|done|].
  { split; [|done]. cbn. by destruct (mime_parse input 0 18) as [[[[? ?] ?] ?]|]. }
  inversion Hb as [|? ? H0 Hb1]; subst. inversion Hb1 as [|? ? H1 Hb2]; subst.
  inversion Hb2 as [|? ? H2 Hb3]; subst.
  cbn [length] in *. rewrite !Nat2Z.inj_succ in *.
  destruct IH as [IH Hlen]; [done|euclidean|]. split.
  - change (mime_triples (b0 :: b1 :: b2 :: data)) with (mime_triples [b0; b1; b2] ++ mime_triples data).
    by rewrite <- app_assoc, mime_parse_group, IH, prepend_app.
  - cbn [mime_triples length]. rewrite !Nat2Z.inj_succ, Hlen. euclidean.
Qed.

(** * The lines of the encoder *)

(** Line breaks among [n] bytes. *)
Definition breaks (n : Z) : Z := Z.quot (n - 1) 57.

(** [chars] are the lines of [prefix], with [rest] left over. *)
Record lines_ok (data prefix chars rest : list Z) : Prop := {
  ln_data : data = prefix ++ rest;
  ln_rest : (length rest < 3)%nat;
  ln_whole : Z.of_nat (length prefix) mod 3 = 0;
  ln_chars : Z.of_nat (length chars)
             = Z.of_nat (length prefix) / 3 * 4 + 2 * breaks (Z.of_nat (length data));
  ln_decode tail : mime_parse (chars ++ tail) 0 18 = prepend prefix (mime_parse tail 0 18)
}.

Lemma lines_end data : (length data < 3)%nat -> lines_ok data [] [] data.
Proof.
  intros Hlen. split; [done|done|done| |].
  - unfold breaks. cbn [length]. euclidean.
  - intros tail. cbn. by destruct (mime_parse tail 0 18) as [[[[? ?] ?] ?]|].
Qed.

(** One line in front of others. *)
Lemma lines_step data chunk prefix chars rest :
  bytes_ok data -> 3 <= Z.of_nat (length data) ->
  chunk = Z.min bytesPerLine (Z.of_nat (length data) / 3 * 3) ->
  lines_ok (drop (Z.to_nat chunk) data) prefix chars rest ->
  lines_ok data (take (Z.to_nat chunk) data ++ prefix)
    (mime_triples (take (Z.to_nat chunk) data)
     ++ (if (chunk =? bytesPerLine) && (Z.of_nat (length data) - chunk >? 0) then kNewline else [])
     ++ chars) rest.
Proof.
  intros Hb Hn Hchunk [Hdata Hrest Hwhole Hchars Hdecode].
  change bytesPerLine with 57 in *.
  assert (3 <= chunk <= Z.of_nat (length data) /\ chunk mod 3 = 0) as [Hc Hc3].
  { subst chunk. euclidean. }
  assert (Z.of_nat (length (take (Z.to_nat chunk) data)) = chunk) as Htake by (rewrite length_take; lia).
  assert (bytes_ok (take (Z.to_nat chunk) data)) as Hbt by (by apply Forall_take).
  set (newline := if _ && _ then _ else _).
  assert (Z.of_nat (length newline) + 2 * breaks (Z.of_nat (length data) - chunk)
          = 2 * breaks (Z.of_nat (length data))) as Hbreaks.
  { unfold newline, breaks. destruct ((chunk =? 57) && _) eqn:E.
    - apply andb_true_iff in E as [E1 E2]. change (Z.of_nat (length kNewline)) with 2.
      apply Z.eqb_eq in E1. euclidean.
    - apply andb_false_iff in E. cbn [length]. euclidean. }
  split.
  - by rewrite <- app_assoc, <- Hdata, take_drop.
  - done.
  - rewrite length_app, Nat2Z.inj_add, Htake. euclidean.
  - destruct (mime_parse_triples _ [] Hbt ltac:(by rewrite Htake)) as [_ Hlen].
    rewrite !length_app, !Nat2Z.inj_add, Hlen, Htake, Hchars, length_drop.
    rewrite Nat2Z.inj_sub, Z2Nat.id by lia. euclidean.
  - intros tail. rewrite <- !app_assoc.
    rewrite (proj1 (mime_parse_triples _ _ Hbt ltac:(by rewrite Htake))).
    transitivity (prepend (take (Z.to_nat chunk) data) (mime_parse (chars ++ tail) 0 18)).
    { f_equal. unfold newline. by destruct (_ && _). }
    by rewrite Hdecode, prepend_app.
Qed.

Lemma mime_lines_ok fuel data :
  bytes_ok data -> (length data < fuel)%nat ->
  exists prefix chars rest, mime_lines fuel data = Ok (chars, rest) /\ lines_ok data prefix chars rest.
Proof.
  revert data. induction fuel as [|fuel IH]; intros data Hb Hfuel; [lia|]. cbn [mime_lines]. cbv zeta.
  destruct (_ >=? 3) eqn:E.
  - set (chunk := Z.min _ _).
    destruct (IH (drop (Z.to_nat chunk) data)) as (prefix & chars & rest & -> & Hok).
    + by apply Forall_drop.
    + rewrite length_drop. assert (3 <= chunk); [|lia].
      unfold chunk. change bytesPerLine with 57. euclidean.
    + eexists _, _, _. split; [reflexivity|]. cbn [fst snd]. apply lines_step; [done|lia|done|done].
  - exists [], [], data. split; [done|]. apply lines_end. lia.
Qed.

(** * The encoder as line breaks in the plain encoding *)

(** Lines of 76 characters with a line break between them. *)
Fixpoint break_lines (fuel : nat) (chars : list Z) : list Z :=
  match fuel with
  | O => []
  | S fuel =>
      if (length chars <=? 76)%nat then chars
      else take 76 chars ++ kNewline ++ break_lines fuel (drop 76 chars)
  end.

Lemma encode_app prefix rest pad :
  Z.of_nat (length prefix) mod 3 = 0 ->
  encodeImpl (prefix ++ rest) kBase64Charset pad
  = mime_triples prefix ++ encodeImpl rest kBase64Charset pad.
Proof.
  induction prefix as [|b0|b0 b1|b0 b1 b2 prefix IH] using triple_ind; intros Hmod; [done|done|done|].
  cbn [app encodeImpl mime_triples]. cbv zeta. rewrite IH; [done|].
  cbn [length] in Hmod. rewrite !Nat2Z.inj_succ in Hmod. euclidean.
Qed.

Lemma break_lines_short fuel chars : Z.of_nat (length chars) <= 76 -> break_lines (S fuel) chars = chars.
Proof. intros Hle. cbn [break_lines]. by rewrite (proj2 (Nat.leb_le _ _)) by lia. Qed.

Lemma break_lines_long fuel line chars :
  length line = 76%nat -> chars <> [] ->
  break_lines (S fuel) (line ++ chars) = line ++ kNewline ++ break_lines fuel chars.
Proof.
  intros Hline Hne. cbn [break_lines]. rewrite (proj2 (Nat.leb_gt _ _)).
  - rewrite take_app_length', drop_app_length' by done. done.
  - rewrite length_app, Hline. destruct chars; [done|cbn [length]; lia].
Qed.

Lemma mime_lines_encode fuel data chars rest :
  (length data < fuel)%nat -> bytes_ok data -> mime_lines fuel data = Ok (chars, rest) ->
  chars ++ encodeImpl rest kBase64Charset true
  = break_lines fuel (encodeImpl data kBase64Charset true).
Proof.
  revert data chars. induction fuel as [|fuel IH]; intros data chars Hfuel Hb; [lia|].
  pose proof (encode_padded_length kBase64Charset data) as Hsize.
  cbn [mime_lines]. cbv zeta. destruct (_ >=? 3) eqn:E.
  2: { intros [= <- <-]. rewrite break_lines_short; [done|]. euclidean. }
  set (chunk := Z.min _ _). set (line := take (Z.to_nat chunk) data). set (tail := drop (Z.to_nat chunk) data).
  assert (3 <= chunk <= Z.of_nat (length data) /\ chunk mod 3 = 0 /\ chunk <= 57
    /\ (57 <= Z.of_nat (length data) -> chunk = 57)) as (Hc & Hc3 & Hc57 & Hfull).
  { subst chunk. change bytesPerLine with 57. euclidean. }
  assert (Z.of_nat (length line) = chunk) as Hline by (unfold line; rewrite length_take; lia).
  assert (length tail = (length data - Z.to_nat chunk)%nat) as Htail by apply length_drop.
  destruct (mime_parse_triples line []) as [_ Htriples]; [by apply Forall_take|by rewrite Hline|].
  destruct (mime_lines fuel tail) as [[cs r]|] eqn:Er; cbn [rbind]; [|done]. intros [= <- <-].
  cbn [fst snd]. specialize (IH tail cs ltac:(lia) ltac:(by apply Forall_drop) Er).
  assert (encodeImpl data kBase64Charset true = mime_triples line ++ encodeImpl tail kBase64Charset true) as Henc.
  { rewrite <- encode_app by (by rewrite Hline). unfold line, tail. by rewrite take_drop. }
  rewrite <- !app_assoc, IH. rewrite Henc in *. change bytesPerLine with 57.
  destruct (decide (58 <= Z.of_nat (length data))).
  - rewrite (proj2 (andb_true_iff _ _)) by lia. rewrite break_lines_long; [done| |].
    + apply Nat2Z.inj. rewrite Htriples, Hline, Hfull by lia. done.
    + destruct tail; [cbn in Htail; lia|]. apply encode_nonempty.
  - rewrite (proj2 (andb_false_iff _ _)) by lia. cbn [app].
    rewrite length_app, Nat2Z.inj_add in Hsize.
    assert ((Z.of_nat (length data) + 2) / 3 * 4 <= 76) as Hshort by euclidean.
    destruct fuel; [lia|]. rewrite !break_lines_short by (rewrite ?length_app; lia). done.
Qed.

(** The last one or two bytes are written as [encodeImpl] writes them. *)
Lemma mime_last_one b0 :
  0 <= b0 < 256 ->
  [char_at kBase64Charset (Z.shiftr b0 2); char_at kBase64Charset (Z.shiftl (Z.land b0 3) 4);
   kBase64Pad; kBase64Pad] = encodeImpl [b0] kBase64Charset true.
Proof.
  intros H0. cbn [encodeImpl app]. cbv zeta. rewrite land_3, pack_one, !land_63, !shiftr_div by lia.
  rewrite Z.shiftl_mul_pow2 by lia. change (2 ^ 18) with 262144. change (2 ^ 12) with 4096.
  change (2 ^ 2) with 4. change (2 ^ 4) with 16.
  f_equal; [f_equal|f_equal; f_equal]; euclidean.
Qed.

Lemma mime_last_two b0 b1 :
  0 <= b0 < 256 -> 0 <= b1 < 256 ->
  [char_at kBase64Charset (Z.shiftr b0 2);
   char_at kBase64Charset (Z.lor (Z.shiftl (Z.land b0 3) 4) (Z.shiftr b1 4));
   char_at kBase64Charset (Z.shiftl (Z.land b1 15) 2); kBase64Pad] = encodeImpl [b0; b1] kBase64Charset true.
Proof.
  intros H0 H1. cbn [encodeImpl app]. cbv zeta.
  rewrite land_3, land_15, pack_two, pack_one, !land_63, !shiftr_div by lia.
  rewrite (lor_shiftl _ 4) by (change (2 ^ 4) with 16; euclidean).
  rewrite Z.shiftl_mul_pow2 by lia. change (2 ^ 18) with 262144. change (2 ^ 12) with 4096.
  change (2 ^ 6) with 64. change (2 ^ 2) with 4. change (2 ^ 4) with 16.
  f_equal; [f_equal|f_equal; [f_equal|f_equal; f_equal]]; euclidean.
Qed.

Lemma encodeMime_lines data :
  bytes_ok data ->
  exists prefix chars rest, lines_ok data prefix chars rest
  /\ encodeMime data = Ok (chars ++ encodeImpl rest kBase64Charset true)
  /\ encodeMime data = Ok (break_lines (S (length data)) (encodeImpl data kBase64Charset true)).
Proof.
  intros Hb. destruct (mime_lines_ok (S (length data)) data Hb ltac:(lia)) as (prefix & chars & rest & Hl & Hok).
  assert (encodeMime data = Ok (chars ++ encodeImpl rest kBase64Charset true)) as He.
  { unfold encodeMime. destruct data as [|a data].
    - cbn in Hl. by injection Hl as <- <-.
    - rewrite Hl. cbn [rbind]. pose proof (ln_rest _ _ _ _ Hok) as Hrest.
      assert (bytes_ok rest) as Hbr.
      { rewrite (ln_data _ _ _ _ Hok) in Hb. by apply Forall_app in Hb as [_ Hb]. }
      destruct rest as [|b0 [|b1 [|b2 rest]]]; [by rewrite app_nil_r| | |cbn in Hrest; lia];
        apply Forall_cons in Hbr as [H0 Hbr].
      + by rewrite (mime_last_one b0 H0).
      + apply Forall_cons in Hbr as [H1 _]. by rewrite (mime_last_two b0 b1 H0 H1). }
  exists prefix, chars, rest. split_and!; [done|done|]. rewrite He. f_equal.
  apply mime_lines_encode; [lia|done|done].
Qed.

(** The decoder after the whole groups. *)
Lemma mime_parse_last rest :
  bytes_ok rest -> (length rest < 3)%nat ->
  exists accumulator bits,
    mime_parse (encodeImpl rest kBase64Charset true) 0 18 = Ok ([], accumulator, bits, [])
    /\ (if bits =? 0 then
          Ok [Z.land (Z.shiftr accumulator 16) 255; Z.land (Z.shiftr accumulator 8) 255]
        else if bits =? 6 then Ok [Z.land (Z.shiftr accumulator 16) 255]
        else if bits =? 12 then Err UserFail
        else Ok []) = Ok rest.
Proof.
  intros Hb Hlen. destruct rest as [|b0 [|b1 [|b2 rest]]]; [| | |cbn in Hlen; lia].
  - by exists 0, 18.
  - apply Forall_cons in Hb as [H0 _]. cbn [encodeImpl app]. cbv zeta.
    rewrite pack_one, !land_63, !shiftr_div by lia.
    do 2 rewrite mime_parse_shift by (apply sextet_range || lia). rewrite Z.lor_0_l.
    rewrite pack_sextets2 by apply sextet_range. eexists _, 6. split; [reflexivity|].
    change (6 =? 0) with false. change (6 =? 6) with true. cbv iota.
    rewrite land_255, shiftr_div by lia. change (2 ^ 18) with 262144. change (2 ^ 12) with 4096.
    change (2 ^ 16) with 65536. do 2 f_equal. euclidean.
  - apply Forall_cons in Hb as [H0 [H1 _]%Forall_cons]. cbn [encodeImpl app]. cbv zeta.
    rewrite pack_two, pack_one, !land_63, !shiftr_div by lia.
    do 3 rewrite mime_parse_shift by (apply sextet_range || lia). rewrite Z.lor_0_l.
    rewrite pack_sextets3 by apply sextet_range. eexists _, 0. split; [reflexivity|].
    change (0 =? 0) with true. cbv iota.
    rewrite !land_255, !shiftr_div by lia. change (2 ^ 18) with 262144. change (2 ^ 12) with 4096.
    change (2 ^ 16) with 65536. change (2 ^ 8) with 256. change (2 ^ 6) with 64.
    f_equal. f_equal; [|f_equal]; euclidean.
Qed.

Lemma mime_bytes_lines data prefix chars rest :
  bytes_ok data -> lines_ok data prefix chars rest ->
  mime_bytes (chars ++ encodeImpl rest kBase64Charset true) = Ok data.
Proof.
  intros Hb [Hdata Hrest _ _ Hdecode].
  assert (bytes_ok rest) as Hbr by (rewrite Hdata in Hb; by apply Forall_app in Hb as [_ Hb]).
  destruct (mime_parse_last rest Hbr Hrest) as (accumulator & bits & Hloop & Htail).
  specialize (Hdecode (encodeImpl rest kBase64Charset true)). rewrite Hloop in Hdecode. cbn in Hdecode.
  unfold mime_bytes. destruct (chars ++ encodeImpl rest kBase64Charset true).
  - cbn in Hdecode. injection Hdecode as <- <- Hp. cbn in Htail. injection Htail as <-.
    rewrite app_nil_r in *. by rewrite Hdata, <- Hp.
  - rewrite Hdecode. cbn [rbind]. rewrite Htail. cbn [rbind existsb]. by rewrite app_nil_r, Hdata.
Qed.

Lemma calculateMimeEncodedSize_ok data prefix chars rest :
  Z.of_nat (length data) < 2 ^ 60 -> lines_ok data prefix chars rest ->
  Z.of_nat (length (chars ++ encodeImpl rest kBase64Charset true))
  = calculateMimeEncodedSize (Z.of_nat (length data)).
Proof.
  intros Hn [Hdata Hrest Hwhole Hchars _]. unfold calculateMimeEncodedSize.
  rewrite (calculateEncodedSize_ok kBase64Charset), encode_padded_length by done.
  rewrite length_app, Nat2Z.inj_add, Hchars, encode_padded_length. unfold breaks.
  assert (length data = (length prefix + length rest)%nat) as Hlen by (by rewrite Hdata, length_app).
  destruct (Z.of_nat (length data) =? 0) eqn:E.
  - apply Z.eqb_eq in E. replace (length prefix) with 0%nat by lia. replace (length rest) with 0%nat by lia.
    by rewrite E.
  - apply Z.eqb_neq in E. change (Z.of_nat (length kNewline)) with 2. change kMaxLineLength with 76.
    pose proof (Nat2Z.is_nonneg (length data)) as Hpos.
    assert (4 <= (Z.of_nat (length data) + 2) / 3 * 4 < 2 ^ 62) as Hq.
    { change (2 ^ 62) with (4 * 2 ^ 60). euclidean. }
    rewrite (wrap_unsigned_id 64 (_ - 1)) by lia.
    rewrite wrap_unsigned_id by euclidean.
    euclidean.
Qed.

(** * The decoded size *)

(** Characters of the alphabet before the first padding character. *)
Fixpoint sextets_before_pad (input : list Z) : Z :=
  match input with
  | [] => 0
  | c :: input =>
      if c =? kBase64Pad then 0
      else (if reverse_index c >=? 64 then 0 else 1) + sextets_before_pad input
  end.

Lemma sextets_range input : 0 <= sextets_before_pad input <= Z.of_nat (length input).
Proof.
  induction input as [|c input IH]; cbn [sextets_before_pad length]; [lia|].
  destruct (c =? kBase64Pad); [lia|]. destruct (_ >=? 64); lia.
Qed.

Lemma count_mime_ok input i d n :
  n = i + Z.of_nat (length input) -> count_mime n input i d = d - Z.of_nat (length input) + sextets_before_pad input.
Proof.
  revert i d. induction input as [|c input IH]; intros i d Hn; cbn [count_mime sextets_before_pad length] in *; [lia|].
  destruct (c =? kBase64Pad); [lia|]. destruct (_ >=? 64); rewrite IH by lia; lia.
Qed.

Lemma reverse_index_nonneg c : 0 <= reverse_index c.
Proof.
  unfold reverse_index. destruct (nth_in_or_default (Z.to_nat c) kBase64ReverseIndexTable 255) as [Hin|Hd]; [|lia].
  assert (Forall (fun v => 0 <= v) kBase64ReverseIndexTable) as Hall.
  { apply (bool_decide_unpack _). by vm_compute. }
  rewrite List.Forall_forall in Hall. by apply Hall.
Qed.

Lemma mime_parse_size input accumulator bits :
  bits ∈ [18; 12; 6; 0] ->
  match mime_parse input accumulator bits with
  | Ok (_, _, bits', out) =>
      bits' ∈ [18; 12; 6; 0] /\ Z.of_nat (length out) mod 3 = 0
      /\ (18 - bits) / 6 + sextets_before_pad input = Z.of_nat (length out) / 3 * 4 + (18 - bits') / 6
  | Err e => e = UserFail
  end.
Proof.
  revert accumulator bits. induction input as [|c input IH]; intros accumulator bits Hbits.
  { split; [done|]. split; [done|]. cbn [sextets_before_pad]. apply Z.add_0_r. }
  cbn [mime_parse sextets_before_pad]. destruct (c =? kBase64Pad).
  { destruct (bits =? 18); [done|]. destruct (bits =? 6).
    - destruct input as [|c' input]; [done|]. destruct (negb _); [done|].
      split; [done|]. split; [done|]. apply Z.add_0_r.
    - split; [done|]. split; [done|]. apply Z.add_0_r. }
  pose proof (reverse_index_nonneg c) as Hpos. replace (reverse_index c <? 0) with false by lia. cbn [orb].
  destruct (reverse_index c >=? 64) eqn:Ec; [by apply IH|].
  set (acc := Z.lor _ _). cbv zeta. destruct (bits - 6 <? 0) eqn:Eb.
  - assert (bits = 0) as -> by (set_unfold in Hbits; lia).
    specialize (IH 0 18 ltac:(set_solver)). destruct (mime_parse input 0 18) as [[[[r a] b'] out]|]; [|done].
    destruct IH as (Hb' & Hmod & Hcount). cbn [rbind length]. rewrite !Nat2Z.inj_succ.
    split; [done|]. split; euclidean.
  - specialize (IH acc (bits - 6)). assert (bits - 6 ∈ [18; 12; 6; 0]) as Hb6.
    { set_unfold in Hbits. destruct Hbits as [->|[->|[->|[->|[]]]]]; [set_solver..|done]. }
    specialize (IH Hb6). destruct (mime_parse input acc (bits - 6)) as [[[[r a] b'] out]|]; [|done].
    destruct IH as (Hb' & Hmod & Hcount). split; [done|]. split; [done|].
    euclidean.
Qed.

(** The size that [calculateMimeDecodedSize] computes from the number of characters. *)
Lemma calculateMimeDecodedSize_eq input :
  let v := sextets_before_pad input in
  (v mod 4 <> 1) ->
  calculateMimeDecodedSize input
  = Ok (v / 4 * 3 + (if v mod 4 =? 0 then 0 else v mod 4 - 1)).
Proof.
  intros v Hv. pose proof (sextets_range input) as Hrange. unfold calculateMimeDecodedSize.
  destruct input as [|c [|c' input]]; [done| |].
  - subst v. cbn [sextets_before_pad] in *. destruct (c =? kBase64Pad) eqn:Ep.
    { apply Z.eqb_eq in Ep. by subst c. }
    destruct (reverse_index c >=? 64); [done|]. by destruct Hv.
  - set (l := c :: c' :: input) in *. rewrite count_mime_ok by lia. fold v. rewrite land_3.
    replace (Z.of_nat (length l) - Z.of_nat (length l) + v) with v by lia. f_equal.
    destruct (v mod 4 =? 0) eqn:E; cbn [negb];
      [apply Z.eqb_eq in E|apply Z.eqb_neq in E]; euclidean.
Qed.

Lemma mime_bytes_size input :
  match mime_bytes input with
  | Ok out => calculateMimeDecodedSize input = Ok (Z.of_nat (length out))
  | Err e => e = UserFail
  end.
Proof.
  pose proof (mime_parse_size input 0 18 ltac:(set_solver)) as Hloop. unfold mime_bytes.
  destruct input as [|c input]; [done|]. set (l := c :: input) in *.
  destruct (mime_parse l 0 18) as [[[[rest acc] bits] out]|e]; [|done]. cbn [rbind].
  destruct Hloop as (Hbits & Hmod & Hcount). change ((18 - 18) / 6) with 0 in Hcount.
  set (tail := if bits =? 0 then _ else _).
  assert (bits = 12 /\ tail = Err UserFail
          \/ exists t k, tail = Ok t /\ (18 - bits) / 6 = k
             /\ Z.of_nat (length t) = (if k =? 0 then 0 else k - 1) /\ (k = 0 \/ 2 <= k < 4)) as [[_ ->]|(t & k & -> & Hk & Hlen & Hrange)];
    [|done|].
  { unfold tail. set_unfold in Hbits. destruct Hbits as [->|[->|[->|[->|[]]]]];
      [right; eexists _, 0|by left|right; eexists _, 2|right; eexists _, 3];
      (split_and!; [reflexivity..|lia]). }
  cbn [rbind]. destruct (existsb _ _); [done|]. rewrite Z.add_0_l, Hk in Hcount.
  rewrite calculateMimeDecodedSize_eq, Hcount.
  - f_equal. rewrite length_app, Nat2Z.inj_add, Hlen. clear Hcount Hk Hlen Hbits l.
    replace ((Z.of_nat (length out) / 3 * 4 + k) mod 4) with k; euclidean.
  - rewrite Hcount. clear Hcount Hk Hlen Hbits l. euclidean.
Qed.

(** * The decoder into a buffer *)

(** The size that is announced, for any number of characters. *)
Lemma announced_size input size :
  calculateMimeDecodedSize input = Ok size -> size = decoded_size (sextets_before_pad input).
Proof.
  intros Hsize. unfold decoded_size. set (v := sextets_before_pad input). destruct (decide (v mod 4 = 1)) as [Hv|Hv].
  - unfold calculateMimeDecodedSize in Hsize. pose proof (sextets_range input) as Hrange. fold v in Hrange. destruct input as [|c [|c' input]].
    + done.
    + subst v. cbn [sextets_before_pad] in *. destruct (c =? kBase64Pad); [done|]. by destruct (reverse_index c >=? 64).
    + set (l := c :: c' :: input) in *. rewrite count_mime_ok in Hsize by lia. fold v in Hsize. rewrite land_3 in Hsize.
      replace (Z.of_nat (length l) - Z.of_nat (length l) + v) with v in Hsize by lia. rewrite Hv in Hsize |- *. cbn [Z.eqb negb] in *. injection Hsize as <-. euclidean.
  - rewrite calculateMimeDecodedSize_eq in Hsize by done. by injection Hsize as <-.
Qed.

(** The loop, with room for the groups before the padding. *)
Lemma mime_loop_writes input accumulator bits pos n :
  bits ∈ [18; 12; 6; 0] -> ((18 - bits) / 6 + sextets_before_pad input) / 4 * 3 <= n ->
  writes_at (mime_loop input accumulator bits pos) pos n
    (let! r := mime_parse input accumulator bits in
     let '(rest, accumulator', bits', out) := r in Ok (out, (rest, accumulator', bits', pos + Z.of_nat (length out)))).
Proof.
  revert accumulator bits pos n. induction input as [|c input IH]; intros accumulator bits pos n Hbits Hn.
  { eapply writes_at_eq; [|apply writes_at_return]. cbn. by rewrite Z.add_0_r. }
  cbn [mime_loop mime_parse sextets_before_pad] in *. destruct (c =? kBase64Pad).
  { destruct (bits =? 18); [apply (writes_at_return _ _ (Err UserFail))|]. destruct (bits =? 6).
    - destruct input as [|c' input]; [apply (writes_at_return _ _ (Err UserFail))|]. destruct (negb _); [apply (writes_at_return _ _ (Err UserFail))|].
      eapply writes_at_eq; [|apply writes_at_return]. cbn. by rewrite Z.add_0_r.
    - eapply writes_at_eq; [|apply writes_at_return]. cbn. by rewrite Z.add_0_r. }
  pose proof (reverse_index_nonneg c) as Hpos. replace (reverse_index c <? 0) with false by lia. cbn [orb].
  destruct (reverse_index c >=? 64) eqn:Ec; [by apply IH|]. set (acc := Z.lor _ _). cbv zeta.
  pose proof (sextets_range input) as Hrange. destruct (bits - 6 <? 0) eqn:Eb.
  - assert (bits = 0) as -> by (set_unfold in Hbits; lia). assert ((0 + sextets_before_pad input) / 4 * 3 <= n - 3) as Hn'.
    { clear - Hn Hrange. change ((18 - 0) / 6) with 3 in Hn. euclidean. }
    assert (0 <= n - 3) as Hn0 by (clear - Hn' Hrange; euclidean).
    specialize (IH 0 18 (pos + 3) (n - 3) ltac:(set_solver) Hn'). replace n with (n - 3 + 1 + 1 + 1) by lia.
    eapply writes_at_eq; [|apply writes_at_put; [lia|]; apply writes_at_put; [lia|]; replace (pos + 1 + 1) with (pos + 2) by lia; apply writes_at_put; [lia|];
      replace (pos + 2 + 1) with (pos + 3) by lia; exact IH].
    destruct (mime_parse input 0 18) as [[[[r a] b] out]|]; [|done]. cbn [rbind fst snd length].
    by replace (pos + Z.of_nat (S (S (S (length out))))) with (pos + 3 + Z.of_nat (length out)) by lia.
  - apply IH.
    + set_unfold in Hbits. destruct Hbits as [->|[->|[->|[->|[]]]]]; [set_solver..|done].
    + clear - Hn Hbits. set_unfold in Hbits. euclidean.
Qed.

Definition tail_bytes (accumulator bits : Z) : result (list Z) :=
  if bits =? 0 then Ok [Z.land (Z.shiftr accumulator 16) 255; Z.land (Z.shiftr accumulator 8) 255]
  else if bits =? 6 then Ok [Z.land (Z.shiftr accumulator 16) 255]
  else if bits =? 12 then Err UserFail
  else Ok [].

Lemma mime_tail_writes accumulator bits pos n :
  (if bits =? 0 then 2 else if bits =? 6 then 1 else 0) <= n ->
  writes_at (mime_tail accumulator bits pos) pos n (let! t := tail_bytes accumulator bits in Ok (t, tt)).
Proof.
  intros Hn. unfold mime_tail, tail_bytes. destruct (bits =? 0).
  { replace n with (n - 1 + 1) by lia. apply (writes_at_put _ _ _ _ (Ok ([_], tt))); [lia|]. apply writes_at_last. lia. }
  destruct (bits =? 6); [by apply writes_at_last|]. destruct (bits =? 12); [apply (writes_at_return _ _ (Err UserFail))|apply (writes_at_return _ _ (Ok tt))].
Qed.

(** The room that is left after the groups. *)
Lemma tail_room (len v : Z) bits :
  bits ∈ [18; 12; 6; 0] -> len mod 3 = 0 -> v = len / 3 * 4 + (18 - bits) / 6 ->
  (if bits =? 0 then 2 else if bits =? 6 then 1 else 0) = decoded_size v - len.
Proof.
  intros Hbits Hmod ->. unfold decoded_size. set_unfold in Hbits. assert (len = 3 * (len / 3)) as Hlen by euclidean. set (q := len / 3) in *.
  destruct Hbits as [->|[->|[->|[->|[]]]]].
  - replace ((q * 4 + (18 - 18) / 6) mod 4) with 0 by euclidean. replace ((q * 4 + (18 - 18) / 6) / 4) with q by euclidean. cbn [Z.eqb Pos.eqb]. lia.
  - replace ((q * 4 + (18 - 12) / 6) mod 4) with 1 by euclidean. replace ((q * 4 + (18 - 12) / 6) / 4) with q by euclidean. cbn [Z.eqb Pos.eqb]. lia.
  - replace ((q * 4 + (18 - 6) / 6) mod 4) with 2 by euclidean. replace ((q * 4 + (18 - 6) / 6) / 4) with q by euclidean. cbn [Z.eqb Pos.eqb]. lia.
  - replace ((q * 4 + (18 - 0) / 6) mod 4) with 3 by euclidean. replace ((q * 4 + (18 - 0) / 6) / 4) with q by euclidean. cbn [Z.eqb Pos.eqb]. lia.
Qed.

(** The check of what follows. *)
Definition trailing (rest : list Z) : bool := existsb (fun c => (reverse_index c >=? 0) && (reverse_index c <? 0x40)) rest.

Lemma mime_end_writes rest accumulator bits pos n :
  (if bits =? 0 then 2 else if bits =? 6 then 1 else 0) <= n ->
  writes_at (let# _ := mime_tail accumulator bits pos in if trailing rest then wreturn (Err UserFail) else wreturn (Ok tt)) pos n
    (let! t := tail_bytes accumulator bits in if trailing rest then Err UserFail else Ok (t, tt)).
Proof.
  intros Hn. eapply writes_at_eq; [|eapply (writes_at_bind _ _ _ _ _ (fun _ => if trailing rest then Err UserFail else Ok ([], tt))); [by apply mime_tail_writes|]].
  - destruct (tail_bytes accumulator bits) as [t|]; [|done]. cbn [rbind fst snd]. destruct (trailing rest); [done|]. cbn. by rewrite app_nil_r.
  - intros out a _. destruct (trailing rest); [apply (writes_at_return _ _ (Err UserFail))|]. destruct a. apply (writes_at_return _ _ (Ok tt)).
Qed.

Lemma decodeMime_writes input output size :
  calculateMimeDecodedSize input = Ok size -> size <= Z.of_nat (length output) ->
  match mime_bytes input with
  | Ok out => decodeMime input output = (out ++ drop (length out) output, Ok tt)
  | Err e => exists output', decodeMime input output = (output', Err e) /\ written_within size output output'
  end.
Proof.
  intros Hsize Hfit. apply announced_size in Hsize. pose proof (sextets_range input) as Hrange.
  pose proof (decoded_size_nonneg (sextets_before_pad input) ltac:(lia)) as Hpos. destruct input as [|c input]; [done|]. set (l := c :: input) in *.
  pose proof (mime_parse_size l 0 18 ltac:(set_solver)) as Hcount. change ((18 - 18) / 6) with 0 in Hcount.
  assert (writes_at (decodeMime l) 0 size (let! out := mime_bytes l in Ok (out, tt))) as Hw.
  { eapply writes_at_eq; [|eapply (writes_at_bind (mime_loop l 0 18 0) _ 0 size _ (fun r => let '(rest, accumulator, bits, _) := r in
      let! t := tail_bytes accumulator bits in if trailing rest then Err UserFail else Ok (t, tt))); [apply mime_loop_writes|]].
    - unfold mime_bytes. destruct (mime_parse l 0 18) as [[[[rest a] b] out]|]; [|done]. cbn [rbind fst snd]. fold (tail_bytes a b). fold (trailing rest).
      destruct (tail_bytes a b); [|done]. cbn [rbind]. by destruct (trailing rest).
    - set_solver.
    - rewrite Hsize. unfold decoded_size. change ((18 - 18) / 6) with 0. rewrite Z.add_0_l. pose proof (Z.mod_pos_bound (sextets_before_pad l) 4).
      destruct (_ =? 0) eqn:E; lia.
    - intros out [[[rest accumulator] bits] outPtr] Hparse. destruct (mime_parse l 0 18) as [[[[r0 a0] b0] out0]|]; [|done].
      cbn [rbind] in Hparse. injection Hparse as <- <- <- <- <-. destruct Hcount as (Hbits & Hmod & Hc). apply mime_end_writes. rewrite Hsize.
      rewrite (tail_room (Z.of_nat (length out0)) (sextets_before_pad l) b0); [lia|done|done|lia]. }
  pose proof (writes_at_buffer _ _ _ output Hw ltac:(lia)) as Hb. destruct (mime_bytes l) as [out|e]; cbn [rbind] in Hb; [apply Hb|].
  destruct Hb as (output' & Hrun & Hl & Hd). by exists output'.
Qed.

(** C31. The MIME encoding of bytes is their padded Base64 encoding with a line break after
    every 76 characters that more characters follow. It has the size that
    [calculateMimeEncodedSize] announces, so it fits a buffer of that size, and [decodeMime]
    writes the bytes to any buffer with room for them, of which [calculateMimeDecodedSize]
    announces the number. *)
Theorem mime_roundtrip data output target :
  bytes_ok data -> Z.of_nat (length data) < 2 ^ 60 ->
  calculateMimeEncodedSize (Z.of_nat (length data)) <= Z.of_nat (length output) -> (length data <= length target)%nat ->
  exists e,
    encodeMime data = Ok e
    /\ e = break_lines (S (length data)) (encodeImpl data kBase64Charset true)
    /\ Z.of_nat (length e) = calculateMimeEncodedSize (Z.of_nat (length data))
    /\ encodeMime_to data output = Ok (e ++ drop (length e) output)
    /\ decodeMime e target = (data ++ drop (length data) target, Ok tt)
    /\ calculateMimeDecodedSize e = Ok (Z.of_nat (length data)).
Proof.
  intros Hb Hn Hout Htarget. destruct (encodeMime_lines data Hb) as (prefix & chars & rest & Hok & He & Hlines).
  pose proof (mime_bytes_lines _ _ _ _ Hb Hok) as Hdec.
  pose proof (calculateMimeEncodedSize_ok _ _ _ _ Hn Hok) as Hsize.
  pose proof (mime_bytes_size (chars ++ encodeImpl rest kBase64Charset true)) as Hdsize. rewrite Hdec in Hdsize.
  exists (chars ++ encodeImpl rest kBase64Charset true). split_and!; [done|congruence|done| | |done].
  - unfold encodeMime_to. rewrite He. cbn [rbind]. apply write_from_start. lia.
  - pose proof (decodeMime_writes _ target _ Hdsize ltac:(lia)) as Hw. by rewrite Hdec in Hw.
Qed.

Lemma mime_roundtrip_witness :
  let data := replicate 57 65 ++ [1; 2; 3; 4] in
  exists e,
    encodeMime data = Ok e
    /\ e = break_lines 62 (encodeImpl data kBase64Charset true)
    /\ Z.of_nat (length e) = calculateMimeEncodedSize 61
    /\ encodeMime_to data (replicate 100 0) = Ok (e ++ drop (length e) (replicate 100 0))
    /\ decodeMime e (replicate 70 9) = (data ++ drop 61 (replicate 70 9), Ok tt) /\ calculateMimeDecodedSize e = Ok 61.
Proof.
  apply (mime_roundtrip (replicate 57 65 ++ [1; 2; 3; 4]) (replicate 100 0) (replicate 70 9)).
  - apply (bool_decide_unpack _). by vm_compute.
  - by vm_compute.
  - by vm_compute.
  - cbn. lia.
Defined.

(** [r] stays in the first [n] characters of [output], and returns or throws. *)
Definition stays_within {A} (n : Z) (output : list Z) (r : list Z * result A) : Prop :=
  written_within n output (fst r) /\ returns_or_fails (snd r) (fun _ => True).

Lemma decodeMime_returns input output size :
  calculateMimeDecodedSize input = Ok size -> size <= Z.of_nat (length output) -> stays_within size output (decodeMime input output).
Proof.
  intros Hsize Hfit. pose proof (mime_bytes_size input) as Hdec. pose proof (decodeMime_writes input output size Hsize Hfit) as Hw.
  destruct (mime_bytes input) as [out|e].
  - rewrite Hw. rewrite Hsize in Hdec. injection Hdec as ->. split; [|done]. cbn [fst]. split; [rewrite length_app, length_drop; lia|].
    by rewrite Nat2Z.id, drop_app_length.
  - destruct Hw as (output' & -> & Hw). by split.
Qed.

(** C32. No decoder reads or writes out of bounds, whatever bytes it is given: [decode] and
    [decodeUrl] return as many bytes as [calculateDecodedSize] announces, or throw; a buffer
    of the size that [calculateDecodedSize] or [calculateMimeDecodedSize] announces is enough
    for [decode] and [decodeMime] into a buffer, which leave what is behind it alone, also when
    they throw after they have written some bytes; [decodeUrl] into a buffer of the size that it
    is told stays in it, whatever the size. *)
Theorem decoders_in_bounds input output needed size hasPad :
  bytes_ok input -> Z.of_nat (length input) < 2 ^ 31 - 3 ->
  returns_or_fails (decode input) (fun out => exists size,
    calculateDecodedSize input (Z.of_nat (length input)) true = Ok (Z.of_nat (length out), size))
  /\ returns_or_fails (decodeUrl input) (fun out => exists size,
    calculateDecodedSize input (Z.of_nat (length input)) false = Ok (Z.of_nat (length out), size))
  /\ (calculateDecodedSize input (Z.of_nat (length input)) true = Ok (needed, size) ->
      needed <= Z.of_nat (length output) -> stays_within needed output (decode_to input output))
  /\ (calculateMimeDecodedSize input = Ok needed -> needed <= Z.of_nat (length output) ->
      stays_within needed output (decodeMime input output))
  /\ stays_within (Z.of_nat (length output)) output (decodeUrl_to input output hasPad).
Proof.
  intros Hb Hlen. split_and!.
  - apply decode_returns; [done|lia].
  - by apply decodeUrl_returns.
  - by apply decode_to_returns.
  - apply decodeMime_returns.
  - destruct (decodeUrl_to_returns input output hasPad Hb) as [Hl Hr]. split; [|done]. split; [done|]. by rewrite !drop_ge by lia.
Qed.

(** The last group of the input is invalid: four bytes are written, and then an exception is thrown. *)
Lemma decoders_in_bounds_witness :
  let input := [81; 81; 81; 81; 81; 81; 36; 61] in
  bytes_ok input
  /\ stays_within 5 [7; 7; 7; 7; 7; 8] (decode_to input [7; 7; 7; 7; 7; 8])
  /\ decode_to input [7; 7; 7; 7; 7; 8] = ([65; 4; 16; 65; 7; 8], Err UserFail)
  /\ stays_within 4 [7; 7; 7; 7; 7; 8] (decodeMime input [7; 7; 7; 7; 7; 8]).
Proof.
  intros input. assert (bytes_ok input) as Hb by (apply (bool_decide_unpack _); by vm_compute).
  split; [done|].
  destruct (decoders_in_bounds input [7; 7; 7; 7; 7; 8] 5 7 true Hb ltac:(by vm_compute)) as (_ & _ & Hto & _).
  destruct (decoders_in_bounds input [7; 7; 7; 7; 7; 8] 4 7 true Hb ltac:(by vm_compute)) as (_ & _ & _ & Hmime & _).
  split_and!; [by apply Hto|by vm_compute|by apply Hmime].
Defined.
