(* ===== verification/HugeInt.v ===== *)
(** 128-bit integers (bolt/type/HugeInt.h and HugeInt.cpp): halves, parsing and
    printing. *)

From S2P Require Import Prelude Text.

(** * Halves *)

Definition build (hi lo : Z) : Z :=
  wrap_signed 128 (Z.lor (wrap_unsigned 128 (Z.shiftl hi 64)) lo).

Definition lower (value : Z) : Z := wrap_unsigned 64 value.
Definition upper (value : Z) : Z := wrap_unsigned 64 (Z.shiftr value 64).

(** * Parsing *)

Definition isdigit (c : Z) : bool := (48 <=? c) && (c <=? 57).

(** The loop of [fromString]; std::invalid_argument is thrown for other characters. *)
Fixpoint from_digits (str : list Z) (value : Z) : result Z :=
  match str with
  | [] => Ok value
  | c :: str =>
      if (c <? 48) || (c >? 57) then Err UserFail
      else
        let! value := ck128 (value * 10) in
        let! value := ck128 (value + (c - 48)) in
        from_digits str value
  end.

Definition fromString (str : list Z) : result Z :=
  match str with
  | 45 :: rest =>
      let! value := from_digits rest 0 in
      ck128 (- value)
  | _ => from_digits str 0
  end.

(** [for (; idx < str.length() && str.at(idx) == ' '; ++idx)] *)
Fixpoint skip_blanks (str : list Z) : list Z :=
  match str with
  | 32 :: str => skip_blanks str
  | _ => str
  end.

(** The loop over the digits of [parse]. *)
Fixpoint parse_digits (str : list Z) (negative : bool) (value : Z) : result Z :=
  match str with
  | [] => if negative then ck128 (- value) else Ok value
  | c :: str =>
      check! isdigit c in
      let cur := c - 48 in
      if value >? Z.quot INT128_MAX 10 then Err CheckFailed
      else
        let num := cur - Z.rem INT128_MAX 10 in
        let continue :=
          let! value := ck128 (value * 10) in
          let! value := ck128 (value + cur) in
          parse_digits str negative value in
        if value =? Z.quot INT128_MAX 10 then
          if negative then
            if num >? 1 then Err CheckFailed
            else if num =? 1 then Ok INT128_MIN
            else continue
          else
            if num >? 0 then Err CheckFailed
            else if num =? 0 then Ok INT128_MAX
            else continue
        else continue
  end.

Definition parse (str : list Z) : result Z :=
  check! negb (bool_decide (str = [])) in
  match skip_blanks str with
  | 43 :: rest => parse_digits rest false 0
  | 45 :: rest => parse_digits rest true 0
  | rest => parse_digits rest false 0
  end.

(** * Printing *)

(** [while (x != 0)] *)
Fixpoint to_string_loop (fuel : nat) (x : Z) (ans : list Z) : result (list Z) :=
  match fuel with
  | O => Err OutOfFuel
  | S fuel =>
      if x =? 0 then Ok ans
      else to_string_loop fuel (Z.quot x 10) (ans ++ [48 + Z.abs (wrap_signed 32 (Z.rem x 10))])
  end.

Definition to_string (x : Z) : result (list Z) :=
  if x =? 0 then Ok [48]
  else
    let! ans := to_string_loop kDigitFuel x [] in
    Ok (rev (if x <? 0 then ans ++ [45] else ans)).

(** * Properties *)

Definition int128 (z : Z) : Prop := INT128_MIN <= z <= INT128_MAX.

Lemma build_halves value : int128 value -> build (upper value) (lower value) = value.
Proof.
  unfold int128, build, upper, lower. intros Hv.
  assert (0 <= wrap_unsigned 64 value < 2 ^ 64) as Hl by (apply Z.mod_pos_bound; lia).
  assert (0 <= wrap_unsigned 64 (Z.shiftr value 64) < 2 ^ 64) as Hu by (apply Z.mod_pos_bound; lia).
  rewrite (wrap_unsigned_id 128) by (rewrite Z.shiftl_mul_pow2 by lia; lia).
  rewrite lor_shiftl by lia. rewrite Z.shiftr_div_pow2 by lia.
  unfold wrap_unsigned. change (2 ^ 64) with 18446744073709551616.
  replace (_ * _ + _) with (wrap_unsigned 128 value).
  - rewrite wrap_signed_unsigned by lia. apply wrap_signed_id; lia.
  - unfold wrap_unsigned. change (2 ^ 128) with (18446744073709551616 * 18446744073709551616). euclidean.
Qed.

(** ** Printing *)

Lemma low_digits_fuel fuel fuel' n :
  n < 10 ^ Z.of_nat fuel -> (fuel <= fuel')%nat -> low_digits fuel' n = low_digits fuel n.
Proof.
  revert fuel' n. induction fuel as [|fuel IH]; intros fuel' n Hn Hle.
  { cbn [low_digits]. apply low_digits_0. change (10 ^ Z.of_nat 0) with 1 in Hn. lia. }
  destruct fuel' as [|fuel']; [lia|]. destruct (decide (n <= 0)); [by rewrite !low_digits_0|].
  rewrite !low_digits_step by lia. f_equal. apply IH; [|lia]. apply div10_lt. lia.
Qed.

Lemma to_string_loop_ok fuel x ans :
  Z.abs x < 10 ^ Z.of_nat fuel ->
  to_string_loop (S fuel) x ans = Ok (ans ++ low_digits fuel (Z.abs x)).
Proof.
  revert x ans. induction fuel as [|fuel IH]; intros x ans Hx.
  { change (10 ^ Z.of_nat 0) with 1 in Hx. replace x with 0 by lia. cbn. by rewrite app_nil_r. }
  cbn [to_string_loop]. destruct (x =? 0) eqn:E.
  { apply Z.eqb_eq in E. subst x. by rewrite app_nil_r. }
  change (if Z.quot x 10 =? 0 then _ else _) with
    (to_string_loop (S fuel) (Z.quot x 10) (ans ++ [48 + Z.abs (wrap_signed 32 (Z.rem x 10))])).
  apply Z.eqb_neq in E. rewrite low_digits_step by lia.
  assert (Z.abs (Z.quot x 10) = Z.abs x / 10 /\ Z.abs (Z.rem x 10) = Z.abs x mod 10 /\ Z.abs (Z.rem x 10) < 10)
    as (Hq & Hr & Hlt) by (split_and!; euclidean).
  rewrite wrap_signed_id by lia. rewrite Hr, IH.
  - by rewrite Hq, <- app_assoc.
  - rewrite Hq. apply div10_lt. lia.
Qed.

Lemma decimal_low_digits x fuel :
  Z.abs x < 10 ^ Z.of_nat fuel -> (fuel <= kDigitFuel)%nat -> x <> 0 ->
  decimal x = (if x <? 0 then [45] else []) ++ rev (low_digits fuel (Z.abs x)).
Proof.
  intros Hx Hfuel Hne. unfold decimal. rewrite (proj2 (Z.eqb_neq _ _) Hne).
  destruct (x <? 0) eqn:E.
  - rewrite (low_digits_fuel fuel) by lia. by rewrite Z.abs_neq by lia.
  - rewrite (low_digits_fuel fuel) by lia. by rewrite Z.abs_eq by lia.
Qed.

Lemma to_string_ok x : int128 x -> to_string x = Ok (decimal x).
Proof.
  intros Hx. unfold to_string. destruct (x =? 0) eqn:E.
  { apply Z.eqb_eq in E. by subst x. }
  apply Z.eqb_neq in E. assert (exists fuel, kDigitFuel = S fuel /\ Z.abs x < 10 ^ Z.of_nat fuel) as (fuel & Hf & Hb).
  { exists 39%nat. split; [done|]. unfold int128 in Hx. change (10 ^ Z.of_nat 39) with (10 ^ 39). lia. }
  rewrite (decimal_low_digits x fuel) by (done || lia). rewrite Hf, (to_string_loop_ok fuel x []) by done.
  cbn [app rbind]. destruct (x <? 0); [by rewrite rev_unit|done].
Qed.

(** ** Parsing *)

Lemma digits_value_cons acc c ds : digits_value acc (c :: ds) = digits_value (acc * 10 + (c - 48)) ds.
Proof. reflexivity. Qed.

Lemma from_digits_ok ds value :
  all_digits ds -> 0 <= value -> digits_value value ds <= INT128_MAX ->
  from_digits ds value = Ok (digits_value value ds).
Proof.
  intros Hds. revert value. induction Hds as [|c ds Hc Hds IH]; intros value Hv Hmax; [done|].
  rewrite digits_value_cons in *. cbn [from_digits]. replace ((c <? 48) || (c >? 57)) with false by lia.
  pose proof (digits_value_ge (value * 10 + (c - 48)) ds Hds ltac:(lia)) as Hge.
  rewrite !ck128_in by lia. cbn [rbind]. rewrite ck128_in by lia. cbn [rbind]. apply IH; lia.
Qed.

Lemma parse_digits_ok ds (negative : bool) value :
  all_digits ds -> 0 <= value <= INT128_MAX ->
  digits_value value ds <= (if negative then - INT128_MIN else INT128_MAX) ->
  parse_digits ds negative value = Ok (if negative then - digits_value value ds else digits_value value ds).
Proof.
  intros Hds. revert value. induction Hds as [|c ds Hc Hds IH]; intros value Hv Hmax.
  { cbn. destruct negative; [|done]. apply ck128_in. lia. }
  rewrite digits_value_cons in *. cbn [parse_digits].
  replace (isdigit c) with true by (unfold isdigit; lia). cbn [negb].
  pose proof (digits_value_ge (value * 10 + (c - 48)) ds Hds ltac:(lia)) as Hge.
  change (Z.quot INT128_MAX 10) with 17014118346046923173168730371588410572.
  change (Z.rem INT128_MAX 10) with 7.
  assert (10 * (value * 10 + (c - 48)) <= digits_value (value * 10 + (c - 48)) ds \/ ds = []) as Hlast.
  { destruct ds as [|d ds]; [by right|left]. rewrite digits_value_cons.
    inversion Hds; subst. etrans; [|apply digits_value_ge; [done|lia]]. lia. }
  assert (value * 10 + (c - 48) <= INT128_MAX -> (
    let! v := ck128 (value * 10) in let! v := ck128 (v + (c - 48)) in parse_digits ds negative v)
    = Ok (if negative then - digits_value (value * 10 + (c - 48)) ds
          else digits_value (value * 10 + (c - 48)) ds)) as Hgo.
  { intros Hle. rewrite ck128_in by lia. cbn [rbind]. rewrite ck128_in by lia. cbn [rbind].
    apply IH; [lia|done]. }
  destruct (value >? _) eqn:E1; [destruct negative; lia|].
  destruct (value =? _) eqn:E2; [|apply Hgo; lia].
  destruct negative.
  - destruct (_ >? 1) eqn:E3; [lia|]. destruct (_ =? 1) eqn:E4; [|apply Hgo; lia].
    destruct Hlast as [?| ->]; [lia|]. cbn. f_equal. lia.
  - destruct (_ >? 0) eqn:E3; [lia|]. destruct (_ =? 0) eqn:E4; [|apply Hgo; lia].
    destruct Hlast as [?| ->]; [lia|]. cbn. f_equal. lia.
Qed.

Lemma digit_cases c :
  48 <= c <= 57 ->
  c = 48 \/ c = 49 \/ c = 50 \/ c = 51 \/ c = 52 \/ c = 53 \/ c = 54 \/ c = 55 \/ c = 56 \/ c = 57.
Proof. lia. Qed.

Lemma parse_plain ds : all_digits ds -> ds <> [] -> parse ds = parse_digits ds false 0.
Proof.
  intros Hds Hne. destruct ds as [|c ds]; [done|]. inversion Hds as [|? ? Hc _]; subst.
  unfold parse. rewrite bool_decide_false by done. cbn [negb].
  destruct (digit_cases c Hc) as [->|[->|[->|[->|[->|[->|[->|[->|[->| ->]]]]]]]]]; reflexivity.
Qed.

Lemma fromString_plain ds : all_digits ds -> fromString ds = from_digits ds 0.
Proof.
  intros Hds. destruct ds as [|c ds]; [done|]. inversion Hds as [|? ? Hc _]; subst. unfold fromString.
  destruct (digit_cases c Hc) as [->|[->|[->|[->|[->|[->|[->|[->|[->| ->]]]]]]]]]; reflexivity.
Qed.

(** The text of a number is its sign and its digits. *)
Lemma decimal_signed x :
  int128 x -> exists ds, decimal x = (if x <? 0 then 45 :: ds else ds)
    /\ all_digits ds /\ ds <> [] /\ digits_value 0 ds = Z.abs x.
Proof.
  unfold int128. intros Hx. exists (decimal (Z.abs x)). split_and!.
  - destruct (decide (x = 0)) as [->|]; [done|]. unfold decimal. rewrite (proj2 (Z.eqb_neq _ _)) by done.
    rewrite (proj2 (Z.eqb_neq (Z.abs x) _)) by lia. replace (Z.abs x <? 0) with false by lia.
    destruct (x <? 0) eqn:E; [by rewrite Z.abs_neq by lia|by rewrite Z.abs_eq by lia].
  - apply decimal_all_digits. lia.
  - apply decimal_nonempty. lia.
  - apply digits_value_decimal. change (10 ^ 40) with 10000000000000000000000000000000000000000. lia.
Qed.

(** The string of a limit ends the parsing: what follows is not looked at. *)
Lemma parse_ignores_rest rest :
  parse (decimal INT128_MAX ++ rest) = Ok INT128_MAX /\ parse (decimal INT128_MIN ++ rest) = Ok INT128_MIN.
Proof. split; reflexivity. Qed.

(** The string of the least number overflows in [fromString]. *)
Lemma fromString_minimum : fromString (decimal INT128_MIN) = Err SignedOverflow.
Proof. reflexivity. Qed.

(** Printing a 128-bit integer with [to_string] and reading the text with [parse] gives the
    integer back, for all of them; so does [fromString], but for the least one. The halves
    of an integer build it again. *)
Theorem hugeint_text x :
  int128 x ->
  exists text, to_string x = Ok text /\ parse text = Ok x
    /\ (x <> INT128_MIN -> fromString text = Ok x) /\ build (upper x) (lower x) = x.
Proof.
  intros Hx. exists (decimal x). split; [by apply to_string_ok|].
  destruct (decimal_signed x Hx) as (ds & -> & Hds & Hne & Hv). unfold int128 in Hx.
  split; [|split; [|by apply build_halves]].
  - destruct (x <? 0) eqn:E.
    + unfold parse. rewrite bool_decide_false by done. cbn [negb skip_blanks check rbind].
      rewrite parse_digits_ok by (done || (cbv iota; lia)). f_equal. lia.
    + rewrite parse_plain, parse_digits_ok by (done || (cbv iota; lia)). f_equal. lia.
  - intros Hmin. destruct (x <? 0) eqn:E.
    + cbn [fromString]. rewrite from_digits_ok by (done || lia). cbn [rbind]. rewrite ck128_in by lia. f_equal. lia.
    + rewrite fromString_plain, from_digits_ok by (done || lia). f_equal. lia.
Qed.

Lemma hugeint_text_witness :
  exists text, to_string INT128_MIN = Ok text /\ parse text = Ok INT128_MIN
    /\ build (upper INT128_MIN) (lower INT128_MIN) = INT128_MIN.
Proof.
  destruct (hugeint_text INT128_MIN) as (text & H1 & H2 & _ & H3).
  - split; by vm_compute.
  - exists text. exact (conj H1 (conj H2 H3)).
Defined.
