(* ===== verification/DecimalBase.v ===== *)
(** The integer types of decimals, the powers of ten and the ranges of the types
    (bolt/type/DecimalUtil.h and bolt/type/Type.h). *)

From S2P Require Import Prelude.

(** * Machine types *)

(** The integer types that the templates are used with. *)
Inductive int_type : Type := Int64 | Int128 | UInt128.

#[export] Instance int_type_eq_dec : EqDecision int_type.
Proof. solve_decision. Defined.

Definition type_min (t : int_type) : Z :=
  match t with Int64 => INT64_MIN | Int128 => INT128_MIN | UInt128 => 0 end.
Definition type_max (t : int_type) : Z :=
  match t with Int64 => INT64_MAX | Int128 => INT128_MAX | UInt128 => 2 ^ 128 - 1 end.

(** The result of an arithmetic operation in a type: signed types overflow. *)
Definition arith (t : int_type) (z : Z) : result Z :=
  match t with
  | Int64 => ck64 z
  | Int128 => ck128 z
  | UInt128 => Ok (wrap_unsigned 128 z)
  end.

(** A conversion to a type. *)
Definition convert (t : int_type) (z : Z) : Z :=
  match t with
  | Int64 => wrap_signed 64 z
  | Int128 => wrap_signed 128 z
  | UInt128 => wrap_unsigned 128 z
  end.

(** The type in which a binary operator works. *)
Definition common (a b : int_type) : int_type :=
  match a, b with
  | UInt128, _ | _, UInt128 => UInt128
  | Int128, _ | _, Int128 => Int128
  | Int64, Int64 => Int64
  end.

Definition quotient_in (t : int_type) (a b : Z) : result Z :=
  if convert t b =? 0 then Err DivisionByZero else arith t (Z.quot (convert t a) (convert t b)).
Definition remainder_in (t : int_type) (a b : Z) : result Z :=
  if convert t b =? 0 then Err DivisionByZero else arith t (Z.rem (convert t a) (convert t b)).

(** A Status: OK with the output, or a user error. *)
Inductive status (A : Type) : Type :=
  | OK (a : A)
  | UserError.
Arguments OK {A} a.
Arguments UserError {A}.

(** * Powers of ten *)

Definition kPowersOfTen : list Z := [
  1; 10; 100; 1000; 10000; 100000; 1000000; 10000000; 100000000; 1000000000; 10000000000;
  100000000000; 1000000000000; 10000000000000; 100000000000000; 1000000000000000;
  10000000000000000; 100000000000000000; 1000000000000000000;
  1000000000000000000 * 10; 1000000000000000000 * 100; 1000000000000000000 * 1000;
  1000000000000000000 * 10000; 1000000000000000000 * 100000; 1000000000000000000 * 1000000;
  1000000000000000000 * 10000000; 1000000000000000000 * 100000000;
  1000000000000000000 * 1000000000; 1000000000000000000 * 10000000000;
  1000000000000000000 * 100000000000; 1000000000000000000 * 1000000000000;
  1000000000000000000 * 10000000000000; 1000000000000000000 * 100000000000000;
  1000000000000000000 * 1000000000000000; 1000000000000000000 * 10000000000000000;
  1000000000000000000 * 100000000000000000; 1000000000000000000 * 1000000000000000000;
  1000000000000000000 * 1000000000000000000 * 10; 1000000000000000000 * 1000000000000000000 * 100].

Abbreviation kLongMaxPrecision := 38.
Abbreviation kShortMaxPrecision := 18.

(** The scale is a uint8_t. *)
Definition getPowersOfTen (scale : Z) : result Z :=
  let scale := wrap_unsigned 8 scale in
  check! (scale >=? 0) && (scale <=? kLongMaxPrecision) in
  at_index kPowersOfTen scale.

Definition kLongDecimalMax : Z := nth 38 kPowersOfTen 0 - 1.
Definition kLongDecimalMin : Z := - nth 38 kPowersOfTen 0 + 1.

Definition valueInRange (value : Z) : result unit :=
  check ((value >=? kLongDecimalMin) && (value <=? kLongDecimalMax)).

Definition valueInPrecisionRange (value precision : Z) : result bool :=
  let! p := at_index kPowersOfTen precision in
  Ok ((value <? p) && (value >? - p)).

(** [__builtin_mul_overflow] into an int128_t: the product and whether it overflowed. *)
Definition mul_overflow128 (a b : Z) : Z * bool := (wrap_signed 128 (a * b), negb (in_int128 (a * b))).

(** * The type DECIMAL(precision, scale) *)

(** The parameters are of uint8_t; the constructor of the type checks them. *)
Definition DECIMAL (precision scale : Z) : result (Z * Z) :=
  let precision := wrap_unsigned 8 precision in
  let scale := wrap_unsigned 8 scale in
  let '(kMinPrecision, kMaxPrecision) := if precision <=? kShortMaxPrecision then (1, 18) else (19, 38) in
  check! scale <=? precision in
  check! precision <=? kMaxPrecision in
  check! precision >=? kMinPrecision in
  Ok (precision, scale).

Lemma DECIMAL_ok p s : 1 <= p <= 38 -> 0 <= s <= p -> DECIMAL p s = Ok (p, s).
Proof.
  intros Hp Hs. unfold DECIMAL. rewrite !wrap_unsigned_id by lia.
  destruct (p <=? 18) eqn:E; zdecide; cbn [check rbind]; done.
Qed.

(** * Lemmas *)

Lemma pow10_at k : 0 <= k <= 38 -> at_index kPowersOfTen k = Ok (10 ^ k).
Proof.
  intros Hk. apply at_index_ok; [lia|].
  assert (forallb (fun n => bool_decide (kPowersOfTen !! n = Some (10 ^ Z.of_nat n))) (seq 0 39) = true) as Hall
    by (vm_compute; reflexivity).
  rewrite forallb_forall in Hall. specialize (Hall (Z.to_nat k)). rewrite in_seq in Hall.
  specialize (Hall ltac:(lia)). apply bool_decide_eq_true in Hall. by rewrite Z2Nat.id in Hall by lia.
Qed.

Lemma pow10_range k : 0 <= k <= 38 -> 1 <= 10 ^ k <= 10 ^ 38.
Proof. intros Hk. split; [pose proof (Z.pow_pos_nonneg 10 k); lia|apply Z.pow_le_mono_r; lia]. Qed.

Lemma getPowersOfTen_ok k : 0 <= k <= 38 -> getPowersOfTen k = Ok (10 ^ k).
Proof.
  intros Hk. unfold getPowersOfTen. rewrite wrap_unsigned_id by lia.
  replace ((k >=? 0) && (k <=? kLongMaxPrecision)) with true by lia. cbn [check rbind]. by apply pow10_at.
Qed.

Definition fits_output (TOutput : int_type) (precision : Z) : Prop :=
  0 <= precision <= match TOutput with Int64 => 18 | _ => 38 end /\ TOutput <> UInt128.

Lemma convert_output TOutput precision v :
  fits_output TOutput precision -> - 10 ^ precision < v < 10 ^ precision -> convert TOutput v = v.
Proof.
  intros [Hp Ht] Hv.
  assert (10 ^ precision <= 10 ^ match TOutput with Int64 => 18 | _ => 38 end) as Hle
    by (apply Z.pow_le_mono_r; [lia|destruct TOutput; lia]).
  destruct TOutput; [| |done]; cbn [convert]; apply wrap_signed_id;
    try (change (10 ^ 18) with 1000000000000000000 in Hle);
    try (change (10 ^ 38) with 100000000000000000000000000000000000000 in Hle); lia.
Qed.

Lemma in_precision v p :
  0 <= p <= 38 -> valueInPrecisionRange v p = Ok (bool_decide (- 10 ^ p < v < 10 ^ p)).
Proof.
  intros Hp. unfold valueInPrecisionRange. rewrite pow10_at by done. cbn [rbind]. f_equal.
  symmetry. destruct ((v <? 10 ^ p) && (v >? - 10 ^ p)) eqn:E.
  - apply bool_decide_eq_true. lia.
  - apply bool_decide_eq_false. lia.
Qed.

(** ** Arithmetic in a type *)

Definition in_type (t : int_type) (z : Z) : Prop := type_min t <= z <= type_max t.

Lemma arith_in t z : in_type t z -> arith t z = Ok z.
Proof.
  unfold in_type. destruct t; cbn; intros Hz.
  - by apply ck64_in.
  - by apply ck128_in.
  - f_equal. apply wrap_unsigned_id. lia.
Qed.

Lemma convert_in t z : in_type t z -> convert t z = z.
Proof.
  unfold in_type. destruct t; cbn; intros Hz.
  - apply wrap_signed_id; lia.
  - apply wrap_signed_id; lia.
  - apply wrap_unsigned_id. lia.
Qed.

Lemma quotient_pos t a b : in_type t a -> in_type t b -> 0 <= a -> 0 < b -> quotient_in t a b = Ok (a / b).
Proof.
  intros Ha Hb Hpa Hpb. unfold quotient_in. rewrite !convert_in by done. replace (b =? 0) with false by lia.
  rewrite Z.quot_div_nonneg by lia. apply arith_in. unfold in_type in *.
  assert (0 <= a / b <= a) by (split; [apply Z.div_pos; lia|apply Z.div_le_upper_bound; nia]).
  destruct t; cbn in *; lia.
Qed.

Lemma remainder_pos t a b : in_type t a -> in_type t b -> 0 <= a -> 0 < b -> remainder_in t a b = Ok (a mod b).
Proof.
  intros Ha Hb Hpa Hpb. unfold remainder_in. rewrite !convert_in by done. replace (b =? 0) with false by lia.
  rewrite Z.rem_mod_nonneg by lia. apply arith_in. unfold in_type in *.
  pose proof (Z.mod_pos_bound a b Hpb). destruct t; cbn in *; lia.
Qed.
