(* ===== verification/DecimalPrint.v ===== *)
(** Printing of decimals (bolt/type/DecimalUtil.h and DecimalUtil.cpp): the plain format and the
    format of Spark, written into memory of [stringSize] bytes. *)

From S2P Require Import Prelude Text HugeInt DecimalBase.

(** * Printing *)

Definition stringSize (precision scale : Z) : Z :=
  let strSize := precision + 1 in
  let strSize :=
    if scale >? 0 then
      let strSize := strSize + 1 in
      if scale >? 7 then strSize + 4 else strSize
    else strSize in
  if precision =? scale then strSize + 1 else strSize.

(** [std::to_chars] up to the end of the memory. *)
Definition to_chars_until (maxVarcharSize n : Z) (m : memory) : result memory :=
  to_chars (maxVarcharSize - snd m) n m.

(** A minus sign for a negative number, and its magnitude. *)
Definition put_sign (t : int_type) (unscaledValue : Z) (m : memory) : result (Z * memory) :=
  if unscaledValue <? 0 then
    let! m := put [ch_minus] m in
    let! v := arith t (- unscaledValue) in
    Ok (v, m)
  else Ok (unscaledValue, m).

(** The memory with the text and the position after it. *)
Definition convertToPlainString (t : int_type) (unscaledValue scale maxVarcharSize : Z) (buf : list Z)
  : result memory :=
  let m := (buf, 0) in
  if unscaledValue =? 0 then
    let! m := put [ch_0] m in
    if scale >? 0 then
      let! m := put [ch_dot] m in
      put_zeros scale m
    else Ok m
  else
    let! r := put_sign t unscaledValue m in
    let '(unscaledValue, m) := r in
    let! p := at_index kPowersOfTen scale in
    let! whole := quotient_in t unscaledValue (convert t p) in
    let! m := to_chars_until maxVarcharSize whole m in
    if scale >? 0 then
      let! m := put [ch_dot] m in
      let! rest := remainder_in t unscaledValue (convert t p) in
      let fraction := wrap_unsigned 128 rest in
      let! digits := countDigits fraction in
      let! m := put_zeros (Z.max (scale - digits) 0) m in
      to_chars_until maxVarcharSize fraction m
    else Ok m.

(** [std::to_string] of the two types. *)
Definition to_string_of (t : int_type) (v : Z) : result (list Z) :=
  match t with Int64 => Ok (decimal v) | _ => to_string v end.

Definition convertToSparkString (t : int_type) (unscaledValue scale maxVarcharSize : Z) (buf : list Z)
  : result memory :=
  let m := (buf, 0) in
  if scale =? 0 then to_chars_until maxVarcharSize unscaledValue m
  else
    let! r := put_sign t unscaledValue m in
    let '(unscaledValue, m) := r in
    let! coeff := to_string_of t unscaledValue in
    let coeffLen := Z.of_nat (length coeff) in
    let adjusted := - scale + (coeffLen - 1) in
    if adjusted >=? -6 then
      let pad := scale - coeffLen in
      if pad >=? 0 then
        let! m := put [ch_0] m in
        let! m := put [ch_dot] m in
        let! m := put_zeros pad m in
        put coeff m
      else
        let! m := put (take (Z.to_nat (- pad)) coeff) m in
        let! m := put [ch_dot] m in
        put (take (Z.to_nat scale) (drop (Z.to_nat (- pad)) coeff)) m
    else
      let! c := at_index coeff 0 in
      let! m := put [c] m in
      let! m :=
        if coeffLen >? 1 then
          let! m := put [ch_dot] m in
          put (drop 1 coeff) m
        else Ok m in
      let! m := put [69] m in
      to_chars_until maxVarcharSize adjusted m.

Inductive DecimalStringFormat : Type := kPlain | kSpark.

Definition convertToString (format : DecimalStringFormat) (t : int_type)
    (unscaledValue scale maxVarcharSize : Z) (buf : list Z) : result memory :=
  match format with
  | kSpark => convertToSparkString t unscaledValue scale maxVarcharSize buf
  | kPlain => convertToPlainString t unscaledValue scale maxVarcharSize buf
  end.

(** [toString] of a value of a decimal type; the format is the one of the build. *)
Definition toString (format : DecimalStringFormat) (value : Z) (type : Z * Z) : result (list Z) :=
  let '(precision, scale) := type in
  let maxStrSize := stringSize precision scale in
  let! m := convertToString format Int128 value scale maxStrSize (repeat 0 (Z.to_nat maxStrSize)) in
  Ok (take (Z.to_nat (snd m)) (fst m)).

(** * The text *)

Definition sign_text (v : Z) : list Z := if v <? 0 then [ch_minus] else [].

Definition plain_text (v scale : Z) : list Z :=
  sign_text v ++ decimal (Z.abs v / 10 ^ scale)
  ++ (if scale >? 0 then ch_dot :: padded (Z.to_nat scale) (Z.abs v mod 10 ^ scale) else []).

(** As java.math.BigDecimal prints it. *)
Definition spark_text (v scale : Z) : list Z :=
  if scale =? 0 then decimal v
  else
    let coeff := decimal (Z.abs v) in
    let len := Z.of_nat (length coeff) in
    let adjusted := - scale + (len - 1) in
    sign_text v
    ++ (if adjusted >=? -6 then
          if scale - len >=? 0 then [ch_0; ch_dot] ++ repeat ch_0 (Z.to_nat (scale - len)) ++ coeff
          else take (Z.to_nat (len - scale)) coeff ++ [ch_dot] ++ drop (Z.to_nat (len - scale)) coeff
        else take 1 coeff ++ (if len >? 1 then ch_dot :: drop 1 coeff else []) ++ [69] ++ decimal adjusted).

Definition text_of (format : DecimalStringFormat) (v scale : Z) : list Z :=
  match format with kPlain => plain_text v scale | kSpark => spark_text v scale end.

(** ** Digits *)

Lemma decimal_digits_length n k :
  0 <= n < 10 ^ Z.of_nat k -> (1 <= k <= 40)%nat -> (1 <= length (decimal n) <= k)%nat.
Proof.
  intros Hn Hk. destruct (decide (n = 0)) as [->|]; [cbn; lia|]. rewrite decimal_pos, length_rev by lia.
  destruct (low_digits_bounds kDigitFuel n) as (j & -> & Hj).
  { split; [lia|]. eapply Z.lt_le_trans; [apply Hn|]. apply Z.pow_le_mono_r; [lia|]. unfold kDigitFuel. lia. }
  split; [lia|]. destruct (decide (S j <= k)%nat) as [|Hlt]; [done|].
  assert (10 ^ Z.of_nat k <= 10 ^ Z.of_nat j) by (apply Z.pow_le_mono_r; lia). lia.
Qed.

Lemma padded_decimal k n :
  (1 <= k <= 40)%nat -> 0 <= n < 10 ^ Z.of_nat k ->
  padded k n = repeat ch_0 (k - length (decimal n)) ++ decimal n.
Proof.
  intros Hk Hn. destruct (decide (n = 0)) as [->|].
  - rewrite padded_0. unfold decimal. cbn [length Z.eqb]. change [ch_0] with (repeat ch_0 1).
    rewrite zeros_app. f_equal. cbn. lia.
  - rewrite decimal_pos, length_rev by lia. destruct (padded_low_digits k kDigitFuel n) as [-> _]; [lia|unfold kDigitFuel; lia|done].
Qed.

Lemma to_chars_until_writes cap s n :
  Z.of_nat (length (s ++ decimal n)) <= cap -> writes cap (to_chars_until cap n) s (decimal n).
Proof.
  intros Hc m Hm. pose proof Hm as (rest & -> & _). unfold to_chars_until, to_chars. cbn [snd].
  replace (_ <=? _) with true by (rewrite length_app in Hc; lia). cbn [check rbind]. by apply put_writes.
Qed.

Lemma put_sign_ok cap t v m :
  t <> UInt128 -> Z.abs v <= type_max t -> 1 <= cap -> written cap [] m ->
  exists m', put_sign t v m = Ok (Z.abs v, m') /\ written cap (sign_text v) m'.
Proof.
  intros Ht Hv Hc Hm. unfold put_sign, sign_text. destruct (v <? 0) eqn:E.
  - destruct (put_writes cap [] [ch_minus] Hc m Hm) as (m' & -> & Hm'). cbn [rbind].
    rewrite arith_in by (unfold in_type; destruct t; cbn in *; lia || done). cbn [rbind].
    exists m'. split; [|done]. by rewrite Z.abs_neq by lia.
  - exists m. by rewrite Z.abs_eq by lia.
Qed.

(** The parameters of a decimal type and a value of it. *)
Record decimal_value (t : int_type) (v precision scale : Z) : Prop := {
  dec_type : t <> UInt128;
  dec_precision : 1 <= precision <= match t with Int64 => 18 | _ => 38 end;
  dec_scale : 0 <= scale <= precision;
  dec_value : Z.abs v < 10 ^ precision
}.

Lemma decimal_value_range t v p s : decimal_value t v p s -> Z.abs v <= type_max t /\ 0 <= p <= 38.
Proof.
  intros [Ht Hp Hs Hv].
  assert (10 ^ p <= 10 ^ match t with Int64 => 18 | _ => 38 end) as Hle by (apply Z.pow_le_mono_r; [lia|destruct t; lia]).
  destruct t; [| |done]; cbn;
    try (change (10 ^ 18) with 1000000000000000000 in Hle);
    try (change (10 ^ 38) with 100000000000000000000000000000000000000 in Hle); lia.
Qed.

Lemma pow10_nat n : 0 <= n -> 10 ^ n = 10 ^ Z.of_nat (Z.to_nat n).
Proof. intros. by rewrite Z2Nat.id. Qed.

Lemma whole_part t v p s :
  decimal_value t v p s ->
  0 <= Z.abs v / 10 ^ s < 10 ^ Z.max 1 (p - s) /\ 0 <= Z.abs v mod 10 ^ s < 10 ^ s /\ 0 < 10 ^ s.
Proof.
  intros [_ Hp Hs Hv]. assert (0 < 10 ^ s) as Hpos by (apply Z.pow_pos_nonneg; lia).
  split_and!; [apply Z.div_pos; lia| |apply Z.mod_pos_bound; lia|apply Z.mod_pos_bound; lia|done].
  apply Z.div_lt_upper_bound; [done|]. rewrite <- Z.pow_add_r by lia.
  eapply Z.lt_le_trans; [exact Hv|]. apply Z.pow_le_mono_r; lia.
Qed.

Lemma sign_text_length v : Z.of_nat (length (sign_text v)) <= 1.
Proof. unfold sign_text. destruct (v <? 0); cbn; lia. Qed.

Ltac string_size :=
  unfold stringSize in *; cbv zeta in *;
  repeat match goal with
  | |- context [?a >? ?b] => destruct (a >? b) eqn:?
  | |- context [?a =? ?b] => destruct (a =? b) eqn:?
  end; lia.

Lemma whole_length t v p s :
  decimal_value t v p s -> 1 <= Z.of_nat (length (decimal (Z.abs v / 10 ^ s))) <= Z.max 1 (p - s).
Proof.
  intros Hd. pose proof (decimal_value_range _ _ _ _ Hd) as [_ Hp]. destruct (whole_part _ _ _ _ Hd) as (Hw & _ & _).
  pose proof (dec_scale _ _ _ _ Hd) as Hs. rewrite (pow10_nat (Z.max 1 (p - s))) in Hw by lia.
  pose proof (decimal_digits_length _ _ Hw ltac:(lia)). lia.
Qed.

Lemma plain_text_length t v p s :
  decimal_value t v p s -> Z.of_nat (length (plain_text v s)) <= stringSize p s.
Proof.
  intros Hd. pose proof (whole_length _ _ _ _ Hd) as Hw. pose proof (sign_text_length v) as Hsign.
  destruct Hd as [_ Hp Hs _]. unfold plain_text. rewrite !length_app, !Nat2Z.inj_add.
  destruct (s >? 0) eqn:E.
  - cbn [length]. rewrite padded_length. string_size.
  - cbn [length]. string_size.
Qed.

Lemma scale_in_type t v p s : decimal_value t v p s -> in_type t (10 ^ s) /\ in_type t (Z.abs v).
Proof.
  intros Hd. pose proof (decimal_value_range _ _ _ _ Hd) as [Hv _]. destruct Hd as [Ht Hp Hs _].
  assert (1 <= 10 ^ s <= 10 ^ match t with Int64 => 18 | _ => 38 end) as Hr.
  { split; [pose proof (Z.pow_pos_nonneg 10 s); lia|apply Z.pow_le_mono_r; destruct t; lia]. }
  unfold in_type. destruct t; [| |done]; cbn in *;
    try (change (10 ^ 18) with 1000000000000000000 in Hr);
    try (change (10 ^ 38) with 100000000000000000000000000000000000000 in Hr); lia.
Qed.

(** What has been written stays short enough when more is to come. *)
Lemma prefix_fits (a b : list Z) cap : Z.of_nat (length (a ++ b)) <= cap -> Z.of_nat (length a) <= cap.
Proof. rewrite length_app. lia. Qed.

Lemma put_fraction_ok cap front s f m :
  1 <= s <= 38 -> 0 <= f < 10 ^ s -> Z.of_nat (length front) + 1 + s <= cap -> written cap front m ->
  exists m',
    (let! m := put [ch_dot] m in
     let! digits := countDigits f in
     let! m := put_zeros (Z.max (s - digits) 0) m in
     to_chars_until cap f m) = Ok m'
    /\ written cap (front ++ ch_dot :: padded (Z.to_nat s) f) m'.
Proof.
  intros Hs Hf Hcap Hm. pose proof (pow10_range s ltac:(lia)) as Hr.
  change (10 ^ 38) with 100000000000000000000000000000000000000 in Hr.
  rewrite padded_decimal by (rewrite ?Z2Nat.id; lia).
  pose proof (decimal_digits_length f (Z.to_nat s) ltac:(rewrite Z2Nat.id; lia) ltac:(lia)) as Hlen.
  set (digits := decimal f) in *.
  destruct (put_writes cap front [ch_dot] ltac:(rewrite length_app; cbn; lia) m Hm) as (m1 & -> & H1). cbn [rbind].
  rewrite countDigits_spec by lia. cbn [rbind]. fold digits.
  replace (Z.max (s - Z.of_nat (length digits)) 0) with (s - Z.of_nat (length digits)) by lia.
  destruct (put_zeros_writes cap (front ++ [ch_dot]) (s - Z.of_nat (length digits)) ltac:(lia)
    ltac:(rewrite length_app; cbn; lia) m1 H1) as (m2 & -> & H2). cbn [rbind].
  set (zeros := repeat ch_0 (Z.to_nat (s - Z.of_nat (length digits)))) in *.
  destruct (to_chars_until_writes cap ((front ++ [ch_dot]) ++ zeros) f) with (m := m2) as (m3 & -> & H3).
  - fold digits. unfold zeros. rewrite !length_app, repeat_length. cbn [length]. lia.
  - done.
  - exists m3. split; [done|]. rewrite <- !app_assoc in H3. cbn [app] in H3.
    replace (Z.to_nat s - length digits)%nat with (Z.to_nat (s - Z.of_nat (length digits))) by lia. exact H3.
Qed.

Lemma convertToPlainString_ok t v p s buf :
  decimal_value t v p s -> Z.of_nat (length buf) = stringSize p s ->
  exists m, convertToPlainString t v s (stringSize p s) buf = Ok m /\ written (stringSize p s) (plain_text v s) m.
Proof.
  intros Hd Hbuf. pose proof (plain_text_length _ _ _ _ Hd) as Hfit. set (cap := stringSize p s) in *.
  pose proof (decimal_value_range _ _ _ _ Hd) as [Hv Hp]. pose proof (whole_part _ _ _ _ Hd) as (Hw & Hf & Hpos).
  pose proof (dec_scale _ _ _ _ Hd) as Hs. pose proof (dec_type _ _ _ _ Hd) as Ht.
  assert (written cap [] (buf, 0)) as Hm0 by (exists buf; split; [done|exact Hbuf]).
  unfold convertToPlainString, plain_text in *. destruct (v =? 0) eqn:E0.
  { apply Z.eqb_eq in E0. subst v. change (Z.abs 0) with 0 in *. rewrite Z.div_0_l, Z.mod_0_l in * by lia.
    change (sign_text 0) with (@nil Z) in *. change (decimal 0) with [ch_0] in *. cbn [app] in *.
    destruct (put_writes cap [] [ch_0] ltac:(cbn in *; lia) _ Hm0) as (m1 & -> & H1). cbn [rbind].
    destruct (s >? 0) eqn:Es; [|by exists m1]. rewrite padded_0 in *.
    cbn [length] in Hfit. rewrite repeat_length in Hfit.
    destruct (put_writes cap [ch_0] [ch_dot] ltac:(cbn; lia) m1 H1) as (m2 & -> & H2). cbn [rbind].
    destruct (put_zeros_writes cap [ch_0; ch_dot] s ltac:(lia) ltac:(cbn; lia) m2 H2) as (m3 & -> & H3).
    by exists m3. }
  pose proof (whole_length _ _ _ _ Hd) as Hwl. pose proof (sign_text_length v) as Hsl.
  destruct (put_sign_ok cap t v (buf, 0) Ht Hv) as (m1 & -> & H1); [rewrite !length_app in Hfit; lia|done|].
  cbn [rbind]. rewrite pow10_at by lia. cbn [rbind].
  destruct (scale_in_type _ _ _ _ Hd) as [Hps Hin]. rewrite (convert_in t (10 ^ s)) by done.
  rewrite quotient_pos by (done || lia). cbn [rbind]. rewrite !app_assoc in Hfit.
  destruct (to_chars_until_writes cap (sign_text v) (Z.abs v / 10 ^ s) (prefix_fits _ _ _ Hfit) m1 H1)
    as (m2 & -> & H2). cbn [rbind].
  rewrite app_assoc. destruct (s >? 0) eqn:Es; [|rewrite app_nil_r; by exists m2].
  set (front := sign_text v ++ decimal (Z.abs v / 10 ^ s)) in *.
  assert (Z.abs v mod 10 ^ s < 2 ^ 128) as Hlt.
  { pose proof (pow10_range s ltac:(lia)) as Hr. change (10 ^ 38) with 100000000000000000000000000000000000000 in Hr. lia. }
  rewrite remainder_pos by (done || lia). cbn [rbind]. rewrite wrap_unsigned_id by lia.
  apply put_fraction_ok; [lia|lia| |done].
  rewrite length_app in Hfit. cbn [length] in Hfit. rewrite padded_length in Hfit. lia.
Qed.

Ltac writes_seq :=
  repeat first
    [ apply writes_bind
    | apply ok_writes
    | apply put_writes
    | apply put_zeros_writes
    | apply to_chars_until_writes ];
  rewrite ?length_app, ?repeat_length, ?length_take, ?length_drop in *; cbn [length] in *; try lia.

Lemma to_string_of_ok t v : t <> UInt128 -> Z.abs v <= type_max t -> 0 <= v -> to_string_of t v = Ok (decimal v).
Proof.
  intros Ht Hv H0. destruct t; cbn in *; [done| |done]. apply to_string_ok. unfold int128. lia.
Qed.

Lemma exponent_length s len : 1 <= s <= 38 -> 1 <= len -> - s + (len - 1) < -6 ->
  Z.of_nat (length (decimal (- s + (len - 1)))) <= 3.
Proof.
  intros Hs Hl Ha. unfold decimal. rewrite (proj2 (Z.eqb_neq _ _)) by lia.
  rewrite (proj2 (Z.ltb_lt _ _)) by lia. cbn [length]. rewrite length_rev.
  destruct (low_digits_bounds kDigitFuel (- (- s + (len - 1)))) as (j & Hj & Hb).
  { split; [lia|]. unfold kDigitFuel. change (10 ^ Z.of_nat 40) with 10000000000000000000000000000000000000000. lia. }
  rewrite Hj. destruct j as [|[|j]]; [lia|lia|]. exfalso.
  assert (10 ^ 2 <= 10 ^ Z.of_nat (S (S j))) as Hp by (apply Z.pow_le_mono_r; lia).
  change (10 ^ 2) with 100 in Hp. lia.
Qed.

Lemma coefficient_length t v p s :
  decimal_value t v p s -> 1 <= Z.of_nat (length (decimal (Z.abs v))) <= p.
Proof.
  intros Hd. pose proof (decimal_value_range _ _ _ _ Hd) as [_ Hp]. destruct Hd as [_ Hp1 _ Hv].
  rewrite (pow10_nat p) in Hv by lia. pose proof (decimal_digits_length (Z.abs v) (Z.to_nat p) ltac:(lia) ltac:(lia)). lia.
Qed.

(** A signed number in decimal. *)
Lemma decimal_sign v : decimal v = sign_text v ++ decimal (Z.abs v).
Proof.
  unfold decimal, sign_text. destruct (v =? 0) eqn:E; [by apply Z.eqb_eq in E as ->|].
  apply Z.eqb_neq in E. rewrite (proj2 (Z.eqb_neq (Z.abs v) 0)) by lia.
  replace (Z.abs v <? 0) with false by lia. destruct (v <? 0) eqn:?.
  - by rewrite Z.abs_neq by lia.
  - by rewrite Z.abs_eq by lia.
Qed.

Lemma convertToSparkString_ok t v p s buf :
  decimal_value t v p s -> Z.of_nat (length buf) = stringSize p s ->
  exists m, convertToSparkString t v s (stringSize p s) buf = Ok m /\ written (stringSize p s) (spark_text v s) m.
Proof.
  intros Hd Hbuf. pose proof (decimal_value_range _ _ _ _ Hd) as [Hv Hp]. pose proof (coefficient_length _ _ _ _ Hd) as Hc.
  pose proof Hd as [Ht Hp1 Hs _]. pose proof (sign_text_length v) as Hsl.
  assert (written (stringSize p s) [] (buf, 0)) as Hm0 by (exists buf; split; [done|exact Hbuf]).
  assert (p + 1 <= stringSize p s /\ (0 < s -> s + 3 <= stringSize p s /\ p + 2 <= stringSize p s)) as [Hcap Hcap'] by string_size.
  set (cap := stringSize p s) in *.
  unfold convertToSparkString, spark_text. destruct (s =? 0) eqn:Es.
  { apply (to_chars_until_writes cap [] v); [|done]. cbn [app]. rewrite decimal_sign, length_app. lia. }
  apply Z.eqb_neq in Es. specialize (Hcap' ltac:(lia)).
  destruct (put_sign_ok cap t v (buf, 0) Ht Hv ltac:(lia) Hm0) as (m1 & -> & H1). cbn [rbind].
  rewrite to_string_of_ok by (done || lia). cbn [rbind]. cbv zeta.
  remember (decimal (Z.abs v)) as coeff eqn:Hcoeff. clear Hcoeff.
  set (len := Z.of_nat (length coeff)) in *.
  assert (Z.to_nat len = length coeff) as Hlen by (unfold len; lia).
  destruct (- s + (len - 1) >=? -6) eqn:Ea.
  - destruct (s - len >=? 0) eqn:Epad.
    + revert m1 H1. change ([ch_0; ch_dot] ++ ?l) with ([ch_0] ++ [ch_dot] ++ l). writes_seq.
    + replace (- (s - len)) with (len - s) by lia.
      rewrite (take_ge (drop _ coeff)) by (rewrite length_drop; lia).
      revert m1 H1. writes_seq.
  - pose proof (exponent_length s len ltac:(lia) ltac:(lia) ltac:(lia)) as Hexp.
    destruct coeff as [|c tl]; [cbn in *; lia|]. change (at_index (c :: tl) 0) with (@Ok Z c).
    change (take 1 (c :: tl)) with [c]. change (drop 1 (c :: tl)) with tl. cbn [rbind].
    cbn [length] in Hlen. revert m1 H1. destruct (len >? 1) eqn:E1.
    + change (ch_dot :: tl) with ([ch_dot] ++ tl). writes_seq.
    + writes_seq.
Qed.

(** A short decimal is a long one. *)
Lemma decimal_value_long t v p s : decimal_value t v p s -> decimal_value Int128 v p s.
Proof. intros [Ht Hp Hs Hv]. split; [done| |done|done]. destruct t; lia. Qed.

Lemma convertToString_ok format t v p s buf :
  decimal_value t v p s -> Z.of_nat (length buf) = stringSize p s ->
  exists m, convertToString format t v s (stringSize p s) buf = Ok m /\ written (stringSize p s) (text_of format v s) m.
Proof. destruct format; [apply convertToPlainString_ok|apply convertToSparkString_ok]. Qed.

Lemma toString_ok format v p s : decimal_value Int128 v p s -> toString format v (p, s) = Ok (text_of format v s).
Proof.
  intros Hd. unfold toString.
  assert (0 <= stringSize p s) as Hsize by (pose proof (dec_precision _ _ _ _ Hd); string_size).
  destruct (convertToString_ok format Int128 v p s (repeat 0 (Z.to_nat (stringSize p s))) Hd) as (m & -> & (rest & -> & _)).
  - rewrite repeat_length. lia.
  - cbn [rbind fst snd]. by rewrite Nat2Z.id, take_app_length.
Qed.
