(* ===== verification/Decimal.v ===== *)
(** Arithmetic on decimals (bolt/type/DecimalUtil.h and DecimalUtil.cpp): rescaling,
    division with rounding, sums with counted overflows, averages, and the minimal
    byte representation. *)

From S2P Require Import Prelude StringView BitUtil HugeInt DecimalBase DecimalPrint.

(** * Rescaling *)

(** [rescaleWithRoundUp<TInput, TOutput>]; the text of the error contains the input as text. *)
Definition rescaleWithRoundUp (format : DecimalStringFormat) (TOutput : int_type)
    (inputValue fromPrecision fromScale toPrecision toScale : Z) : result (status Z) :=
  let scaleDifference := toScale - fromScale in
  let! r :=
    if scaleDifference >=? 0 then
      let! p := at_index kPowersOfTen scaleDifference in
      Ok (mul_overflow128 inputValue p)
    else
      let! scalingFactor := at_index kPowersOfTen (- scaleDifference) in
      let rescaledValue := Z.quot inputValue scalingFactor in
      let remainder := Z.rem inputValue scalingFactor in
      let! rescaledValue :=
        if (inputValue >=? 0) && (remainder >=? Z.quot scalingFactor 2) then ck128 (rescaledValue + 1)
        else if remainder <=? Z.quot (- scalingFactor) 2 then ck128 (rescaledValue - 1)
        else Ok rescaledValue in
      Ok (rescaledValue, false) in
  let '(rescaledValue, isOverflow) := r in
  let! inRange := valueInPrecisionRange rescaledValue toPrecision in
  if negb inRange || isOverflow then
    let! type := DECIMAL fromPrecision fromScale in
    let! _ := toString format inputValue type in
    Ok UserError
  else Ok (OK (convert TOutput rescaledValue)).

Definition rescaleInt (TOutput : int_type) (inputValue toPrecision toScale : Z) : result (option Z) :=
  let! p := at_index kPowersOfTen toScale in
  let '(rescaledValue, isOverflow) := mul_overflow128 inputValue p in
  let! inRange := valueInPrecisionRange rescaledValue toPrecision in
  if negb inRange || isOverflow then Ok None else Ok (Some (convert TOutput rescaledValue)).

(** * Division *)

(** [checkedMultiply<T>] of bolt/common/base/CheckedArithmetic.h *)
Definition checkedMultiply (t : int_type) (a b : Z) : result Z :=
  if (type_min t <=? a * b) && (a * b <=? type_max t) then Ok (a * b) else Err ArithmeticError.

(** boost::multiprecision::int256_t: sign and magnitude of 256 bits, unchecked. *)
Definition int256 (z : Z) : Z := Z.sgn z * (Z.abs z mod 2 ^ 256).

(** The branch of [divideWithRoundUp] that uses int256_t. *)
Definition divideLarge (R : int_type) (a b : Z) (noRoundUp : bool) (aRescale resultSign : Z)
  : result (Z * Z) :=
  let! p38 := getPowersOfTen kLongMaxPrecision in
  let aLarge := Nat.iter (Z.to_nat (aRescale / kLongMaxPrecision)) (fun x => int256 (x * p38)) a in
  let! p := getPowersOfTen (aRescale mod kLongMaxPrecision) in
  let aLarge := int256 (aLarge * p) in
  let resultLarge := Z.quot aLarge b in
  let remainderLarge := Z.rem aLarge b in
  let resultLarge :=
    if negb noRoundUp && (int256 (remainderLarge * 2) >=? b) then int256 (resultLarge + 1) else resultLarge in
  let result := int256 (resultLarge * resultSign) in
  let remainder := int256 (remainderLarge * resultSign) in
  check! (result <=? type_max R) && (result >=? type_min R) in
  check! (remainder <=? type_max R) && (remainder >=? type_min R) in
  Ok (convert R result, convert R remainder).

(** [divideWithRoundUp<R, A, B>]: the result and the remainder that is returned. *)
Definition divideWithRoundUp (R B : int_type) (a b : Z) (noRoundUp : bool) (aRescale : Z)
  : result (Z * Z) :=
  check! negb (b =? 0) in
  let! dividend := if a <? 0 then arith R (convert R a * -1) else Ok (convert R a) in
  let! divisor := if b <? 0 then arith B (b * -1) else Ok b in
  let resultSign := (if a <? 0 then -1 else 1) * (if b <? 0 then -1 else 1) in
  let! fits :=
    if aRescale <=? kLongMaxPrecision then
      let! p := at_index kPowersOfTen aRescale in
      let t := common Int128 R in
      let! product := arith t (convert t p * convert t dividend) in
      let! q := quotient_in t product dividend in
      Ok (q =? convert t p)
    else Ok false in
  if fits : bool then
    let! p := at_index kPowersOfTen aRescale in
    let! dividend := checkedMultiply R dividend (convert R p) in
    let t := common R B in
    let! q := quotient_in t dividend divisor in
    let! remainder := remainder_in t dividend divisor in
    let quotient := convert R q in
    let remainder := convert R remainder in
    let! up :=
      if noRoundUp then Ok false
      else
        let! twice := arith B (convert B remainder * 2) in
        Ok (twice >=? divisor) in
    let! quotient := if up : bool then arith R (quotient + 1) else Ok quotient in
    let! r := arith R (quotient * resultSign) in
    let! remainder := arith R (remainder * resultSign) in
    Ok (r, remainder)
  else divideLarge R a b noRoundUp aRescale resultSign.

(** * Sums *)

Definition kOverflowMultiplier : Z := 2 ^ 127.

(** Returns the overflow and the sum. *)
Definition addUnsignedValues (lhs rhs : Z) (isResultNegative : bool) : result (Z * Z) :=
  let unsignedSum := wrap_unsigned 128 (wrap_unsigned 128 lhs + wrap_unsigned 128 rhs) in
  let sum := wrap_signed 128 (Z.land unsignedSum (wrap_unsigned 128 (Z.lnot kOverflowMultiplier))) in
  let! sum := if isResultNegative then ck128 (- sum) else Ok sum in
  Ok (Z.shiftr unsignedSum 127, sum).

Definition addWithOverflow (lhs rhs : Z) : result (Z * Z) :=
  let isLhsNegative := lhs <? 0 in
  let isRhsNegative := rhs <? 0 in
  if Bool.eqb isLhsNegative isRhsNegative then
    if isLhsNegative then
      let! l := ck128 (- lhs) in
      let! r := ck128 (- rhs) in
      let! s := addUnsignedValues l r true in
      Ok (- fst s, snd s)
    else addUnsignedValues lhs rhs false
  else
    let! sum := ck128 (lhs + rhs) in
    Ok (0, sum).

Definition adjustSumForOverflow (sum overflow : Z) : option Z :=
  if ((overflow =? 1) && (sum <? 0)) || ((overflow =? -1) && (sum >? 0)) then
    Some (wrap_signed 128 (wrap_unsigned 128 (kOverflowMultiplier * overflow + sum)))
  else if negb (overflow =? 0) then None
  else Some sum.

Definition computeAverage (sum count overflow : Z) : result Z :=
  if overflow =? 0 then
    let! r := divideWithRoundUp Int128 Int64 sum count false 0 in
    Ok (fst r)
  else
    let! mul := divideWithRoundUp UInt128 Int64 kOverflowMultiplier count true 0 in
    let '(quotMul, remMul) := mul in
    let remMul := wrap_unsigned 128 (remMul * overflow) in
    let quotMul := wrap_unsigned 128 (quotMul * overflow) in
    let! s := divideWithRoundUp Int128 Int64 sum count true 0 in
    let '(quotSum, remSum) := s in
    let! total := divideWithRoundUp Int128 Int64 (wrap_signed 128 (remMul + remSum)) count true 0 in
    Ok (wrap_signed 128 (quotMul + quotSum + fst total)).

(** * Bytes *)

Definition getByteArrayLength (value : Z) : Z :=
  let value := if value <? 0 then Z.lnot value else value in
  let hi := upper value in
  let lo := lower value in
  let nbits :=
    if negb (hi =? 0) then 128 - countLeadingZeros hi
    else if negb (lo =? 0) then 64 - countLeadingZeros lo
    else 0 in
  1 + nbits / 8.

(** folly::Endian::big of an int64_t, as the bytes in memory. *)
Definition big_endian_bytes (value : Z) : list Z := rev (le_split 8 (wrap_unsigned 64 value)).

(** [memcpy(out, from + offset, n)]: the bytes copied. *)
Definition memcpy_from (from : list Z) (offset n : Z) : result (list Z) :=
  if (0 <=? offset) && (0 <=? n) && (offset + n <=? Z.of_nat (length from))
  then Ok (take (Z.to_nat n) (drop (Z.to_nat offset) from)) else Err BadAccess.

(** The bytes written to [out]. *)
Definition toByteArray (value : Z) : result (list Z) :=
  let length := getByteArrayLength value in
  let lowBig := big_endian_bytes value in
  if length <=? 8 then memcpy_from lowBig (8 - length) length
  else
    let highBig := big_endian_bytes (Z.shiftr value 64) in
    let! high := memcpy_from highBig (16 - length) (length - 8) in
    let! low := memcpy_from lowBig 0 8 in
    Ok (high ++ low).

(** * Trailing zeros *)

(** [while (std::abs(input) >= 10L && scale > 0)], with [std::abs] of the least value undefined. *)
Fixpoint stripTrailingZeros (fuel : nat) (t : int_type) (input scale : Z) : result (Z * Z) :=
  match fuel with
  | O => Err OutOfFuel
  | S fuel =>
      let! magnitude := if input <? 0 then arith t (- input) else Ok input in
      if (magnitude >=? 10) && (scale >? 0) then
        if Z.odd input then Ok (input, scale)
        else if negb (Z.rem input 10 =? 0) then Ok (input, scale)
        else stripTrailingZeros fuel t (Z.quot input 10) (scale - 1)
      else Ok (input, scale)
  end.

(** * Rounding *)

(** The quotient rounded to the nearest integer, halves away from zero. *)
Definition round_div (a b : Z) : Z := Z.sgn a * Z.sgn b * ((2 * Z.abs a + Z.abs b) / (2 * Z.abs b)).

Lemma round_up a b :
  0 <= a -> 0 < b -> (2 * a + b) / (2 * b) = a / b + (if 2 * (a mod b) >=? b then 1 else 0).
Proof.
  intros Ha Hb. pose proof (Z.div_mod a b ltac:(lia)) as E. pose proof (Z.mod_pos_bound a b Hb) as Hr.
  destruct (2 * (a mod b) >=? b) eqn:Ec; symmetry.
  - apply (Z.div_unique_pos _ _ _ (2 * (a mod b) - b)); lia.
  - apply (Z.div_unique_pos _ _ _ (2 * (a mod b) + b)); lia.
Qed.

(** The value at another scale. *)
Definition rescaled (value fromScale toScale : Z) : Z :=
  if toScale >=? fromScale then value * 10 ^ (toScale - fromScale)
  else round_div value (10 ^ (fromScale - toScale)).

Lemma pow10_even k : 1 <= k -> 10 ^ k = 2 * (10 ^ k / 2) /\ 0 < 10 ^ k / 2.
Proof.
  intros Hk. replace k with (1 + (k - 1)) by lia. rewrite Z.pow_add_r by lia. change (10 ^ 1) with 10.
  pose proof (Z.pow_pos_nonneg 10 (k - 1)). euclidean.
Qed.

Lemma rescale_down value k :
  int128 value -> 1 <= k <= 38 ->
  (if (value >=? 0) && (Z.rem value (10 ^ k) >=? Z.quot (10 ^ k) 2) then ck128 (Z.quot value (10 ^ k) + 1)
   else if Z.rem value (10 ^ k) <=? Z.quot (- 10 ^ k) 2 then ck128 (Z.quot value (10 ^ k) - 1)
   else Ok (Z.quot value (10 ^ k))) = Ok (round_div value (10 ^ k)) /\ int128 (round_div value (10 ^ k)).
Proof.
  unfold int128. intros Hv Hk. destruct (pow10_even k ltac:(lia)) as [Heven Hh].
  set (b := 10 ^ k) in *. set (h := b / 2) in *.
  assert (10 <= b) as Hb by (change 10 with (10 ^ 1); apply Z.pow_le_mono_r; lia).
  rewrite Z.quot_opp_l, Z.quot_div_nonneg by lia. fold h.
  unfold round_div. rewrite (Z.sgn_pos b), (Z.abs_eq b), Z.mul_1_r by lia. rewrite round_up by lia.
  pose proof (Z.div_mod (Z.abs value) b ltac:(lia)) as E. pose proof (Z.mod_pos_bound (Z.abs value) b ltac:(lia)) as Hr.
  assert (0 <= Z.abs value / b /\ Z.abs value / b * 10 <= Z.abs value) as [Hq0 Hq].
  { split; [apply Z.div_pos; lia|]. nia. }
  destruct (decide (0 <= value)) as [Hpos|Hneg].
  - rewrite Z.abs_eq in * by lia. rewrite Z.rem_mod_nonneg, Z.quot_div_nonneg by lia.
    replace (value >=? 0) with true by lia. cbn [andb].
    replace (value mod b <=? - h) with false by lia.
    replace (2 * (value mod b) >=? b) with (value mod b >=? h) by lia.
    destruct (decide (value = 0)) as [->|]; [rewrite Z.mod_0_l, Z.div_0_l by lia; by replace (0 >=? h) with false by lia|].
    rewrite Z.sgn_pos by lia. destruct (value mod b >=? h); [rewrite ck128_in by lia|]; (split; [f_equal; lia|lia]).
  - rewrite Z.abs_neq in * by lia. replace (value >=? 0) with false by lia. cbn [andb].
    rewrite Z.sgn_neg by lia.
    assert (Z.rem value b = - ((- value) mod b) /\ Z.quot value b = - ((- value) / b)) as [-> ->].
    { split.
      - rewrite <- (Z.opp_involutive value) at 1. rewrite Z.rem_opp_l, Z.rem_mod_nonneg by lia. done.
      - rewrite <- (Z.opp_involutive value) at 1. rewrite Z.quot_opp_l, Z.quot_div_nonneg by lia. done. }
    replace (2 * (- value mod b) >=? b) with (- (- value mod b) <=? - h) by lia.
    destruct (_ <=? - h); [rewrite ck128_in by lia|]; (split; [f_equal; lia|lia]).
Qed.

(** The last step of the functions that rescale. *)
Lemma rescale_finish {A} TOutput v wrapped overflow precision (err : result A) (ok : Z -> A) :
  fits_output TOutput precision ->
  (overflow = false -> wrapped = v) -> (overflow = true -> ~ int128 v) ->
  (let! inRange := valueInPrecisionRange wrapped precision in
   if negb inRange || overflow then err else Ok (ok (convert TOutput wrapped)))
  = if decide (- 10 ^ precision < v < 10 ^ precision) then Ok (ok v) else err.
Proof.
  intros Hfit Hsame Hover. pose proof Hfit as [Hp Ht].
  assert (0 <= precision <= 38) as Hp38 by (destruct TOutput; lia).
  pose proof (pow10_range precision Hp38) as Hr.
  rewrite in_precision by done. cbn [rbind]. destruct overflow.
  - rewrite orb_true_r. rewrite decide_False; [done|]. intros Hin. apply Hover; [done|].
    unfold int128. change (10 ^ 38) with 100000000000000000000000000000000000000 in Hr. lia.
  - rewrite (Hsame eq_refl), orb_false_r. destruct (decide _) as [Hin|Hout].
    + rewrite bool_decide_true by done. cbn [negb]. by rewrite (convert_output _ precision).
    + by rewrite bool_decide_false by done.
Qed.

Lemma mul_overflow_finish {A} TOutput v k precision (err : result A) (ok : Z -> A) :
  fits_output TOutput precision ->
  (let '(wrapped, overflow) := mul_overflow128 v k in
   let! inRange := valueInPrecisionRange wrapped precision in
   if negb inRange || overflow then err else Ok (ok (convert TOutput wrapped)))
  = if decide (- 10 ^ precision < v * k < 10 ^ precision) then Ok (ok (v * k)) else err.
Proof.
  intros Hfit. unfold mul_overflow128. apply rescale_finish; [done| |].
  - intros Ho. apply negb_false_iff, in_int128_spec in Ho. apply wrap_signed_id; lia.
  - intros Ho Hin. apply negb_true_iff in Ho. apply in_int128_spec in Hin. congruence.
Qed.

(** A value with its type can be printed. *)
Lemma error_text format {A} value p s (r : A) :
  decimal_value Int128 value p s ->
  (let! type := DECIMAL p s in let! _ := toString format value type in Ok r) = Ok r.
Proof.
  intros Hd. pose proof (dec_precision _ _ _ _ Hd). pose proof (dec_scale _ _ _ _ Hd).
  rewrite DECIMAL_ok by lia. cbn [rbind]. by rewrite (toString_ok _ _ _ _ Hd).
Qed.

(** The value at the new scale if it has at most [precision] digits. *)
Definition in_precision_or_error (precision r : Z) : status Z :=
  if decide (- 10 ^ precision < r < 10 ^ precision) then OK r else UserError.

Lemma rescaleWithRoundUp_ok format TOutput value fromPrecision fromScale toPrecision toScale :
  int128 value -> - 38 <= toScale - fromScale <= 38 -> fits_output TOutput toPrecision ->
  (~ - 10 ^ toPrecision < rescaled value fromScale toScale < 10 ^ toPrecision ->
   decimal_value Int128 value fromPrecision fromScale) ->
  rescaleWithRoundUp format TOutput value fromPrecision fromScale toPrecision toScale
  = Ok (in_precision_or_error toPrecision (rescaled value fromScale toScale)).
Proof.
  intros Hv Hd Hfit Htext.
  assert (rescaleWithRoundUp format TOutput value fromPrecision fromScale toPrecision toScale
    = if decide (- 10 ^ toPrecision < rescaled value fromScale toScale < 10 ^ toPrecision)
      then Ok (OK (rescaled value fromScale toScale))
      else let! type := DECIMAL fromPrecision fromScale in
           let! _ := toString format value type in Ok UserError) as ->.
  - unfold rescaleWithRoundUp, rescaled. cbv zeta. destruct (toScale - fromScale >=? 0) eqn:E.
    + replace (toScale >=? fromScale) with true by lia. rewrite pow10_at by lia. cbn [rbind].
      by apply mul_overflow_finish.
    + replace (toScale >=? fromScale) with false by lia.
      replace (- (toScale - fromScale)) with (fromScale - toScale) by lia.
      rewrite pow10_at by lia. cbn [rbind].
      destruct (rescale_down value (fromScale - toScale) Hv ltac:(lia)) as [-> _]. cbn [rbind].
      by apply rescale_finish.
  - unfold in_precision_or_error. destruct (decide _) as [|Hout]; [done|]. by apply error_text, Htext.
Qed.

(** C37. Casting between decimals: for every value of a type DECIMAL(fromPrecision, fromScale),
    [rescaleWithRoundUp] gives the value at the new scale, rounded to the nearest with halves away
    from zero, exactly when it has at most [toPrecision] digits, and an error otherwise, whose text it
    can build; [rescaleInt] does the same for integers.  No step overflows. *)
Theorem decimal_rescale format TInput TOutput value fromPrecision fromScale toPrecision toScale :
  decimal_value TInput value fromPrecision fromScale -> 0 <= toScale <= 38 -> fits_output TOutput toPrecision ->
  rescaleWithRoundUp format TOutput value fromPrecision fromScale toPrecision toScale
  = Ok (in_precision_or_error toPrecision (rescaled value fromScale toScale))
  /\ rescaleInt TOutput value toPrecision toScale
     = Ok (let r := value * 10 ^ toScale in
           if decide (- 10 ^ toPrecision < r < 10 ^ toPrecision) then Some r else None).
Proof.
  intros Hd%decimal_value_long Ht Hfit. pose proof (decimal_value_range _ _ _ _ Hd) as [Hv Hp]. cbn in Hv.
  pose proof (dec_scale _ _ _ _ Hd). split.
  - apply rescaleWithRoundUp_ok; [unfold int128; lia|lia|done|done].
  - unfold rescaleInt. rewrite pow10_at by lia. cbn [rbind].
    rewrite (mul_overflow_finish TOutput value (10 ^ toScale) toPrecision (Ok None) Some Hfit).
    cbv zeta. by destruct (decide _).
Qed.

Lemma decimal_rescale_witness :
  rescaleWithRoundUp kSpark Int64 (-12345) 5 3 4 2 = Ok (OK (-1235))
  /\ rescaleInt Int64 (-12345) 4 2 = Ok None.
Proof.
  assert (fits_output Int64 4) as Hfit by (split; [lia|done]).
  destruct (decimal_rescale kSpark Int64 Int64 (-12345) 5 3 4 2) as [-> ->].
  - split; [discriminate|lia|lia|reflexivity].
  - lia.
  - exact Hfit.
  - exact (conj eq_refl eq_refl).
Defined.

(** * Division *)

(** The dividend and the divisor of a division that stays in 128 bits. *)
Record divisible (R B : int_type) (a b k : Z) : Prop := {
  dv_result : R <> Int64;
  dv_unsigned : R = UInt128 -> 0 <= a /\ 0 < b;
  dv_divisor_type : B <> UInt128;
  dv_dividend : a <> 0;
  dv_divisor : b <> 0 /\ Z.abs b <= type_max B;
  dv_scale : 0 <= k <= 38;
  dv_product : Z.abs a * 10 ^ k <= type_max R
}.

Lemma divide_magnitude R a :
  (R = UInt128 -> 0 <= a) -> R <> Int64 -> Z.abs a <= type_max R ->
  (if a <? 0 then arith R (convert R a * -1) else Ok (convert R a)) = Ok (Z.abs a).
Proof.
  intros Hu Hr Hle. assert (in_type R a /\ in_type R (Z.abs a)) as [H1 H2].
  { unfold in_type. destruct R; cbn in *; [done|lia|specialize (Hu eq_refl); lia]. }
  rewrite convert_in by done. destruct (a <? 0) eqn:E.
  - replace (a * -1) with (Z.abs a) by lia. by apply arith_in.
  - by rewrite Z.abs_eq by lia.
Qed.

Lemma divide_divisor B b :
  B <> UInt128 -> Z.abs b <= type_max B ->
  (if b <? 0 then arith B (b * -1) else Ok b) = Ok (Z.abs b).
Proof.
  intros Hb Hle. destruct (b <? 0) eqn:E; [|by rewrite Z.abs_eq by lia].
  replace (b * -1) with (Z.abs b) by lia. apply arith_in. unfold in_type. destruct B; cbn in *; lia || done.
Qed.

(** The test whether the scaled dividend fits. *)
Lemma divide_fits R B a b k :
  divisible R B a b k ->
  (if k <=? kLongMaxPrecision then
     let! p := at_index kPowersOfTen k in
     let t := common Int128 R in
     let! product := arith t (convert t p * convert t (Z.abs a)) in
     let! q := quotient_in t product (Z.abs a) in
     Ok (q =? convert t p)
   else Ok false) = Ok true.
Proof.
  intros [Hr _ _ Ha _ Hk Hp]. replace (k <=? 38) with true by lia. rewrite pow10_at by done. cbn [rbind].
  pose proof (pow10_range k Hk) as Hpow. change (10 ^ 38) with 100000000000000000000000000000000000000 in Hpow.
  assert (common Int128 R = R) as Hc by (destruct R; done). cbv zeta. rewrite Hc.
  assert (0 < Z.abs a <= Z.abs a * 10 ^ k) as Habs by nia.
  assert (in_type R (10 ^ k) /\ in_type R (Z.abs a) /\ in_type R (10 ^ k * Z.abs a)) as (H1 & H2 & H3).
  { unfold in_type. destruct R; cbn in *; [done| |]; lia. }
  rewrite (convert_in _ (10 ^ k)), (convert_in _ (Z.abs a)) by done. rewrite arith_in by done. cbn [rbind].
  rewrite quotient_pos by (done || lia). cbn [rbind]. rewrite Z.div_mul by lia. by rewrite Z.eqb_refl.
Qed.

Lemma sign_product a b :
  a <> 0 -> b <> 0 -> (if a <? 0 then -1 else 1) * (if b <? 0 then -1 else 1) = Z.sgn a * Z.sgn b.
Proof. intros Ha Hb. destruct (a <? 0) eqn:?, (b <? 0) eqn:?; lia. Qed.

Lemma signed_in R B a b k z :
  divisible R B a b k -> 0 <= z <= type_max R -> arith R (z * (Z.sgn a * Z.sgn b)) = Ok (Z.sgn a * Z.sgn b * z).
Proof.
  intros [Hr Hu _ Ha [Hb _] _ _] Hz. rewrite (Z.mul_comm z). apply arith_in. unfold in_type.
  assert (Z.sgn a * Z.sgn b = 1 \/ Z.sgn a * Z.sgn b = -1 /\ R <> UInt128) as [->|[-> HR]].
  { destruct (decide (R = UInt128)) as [HR|HR].
    - specialize (Hu HR). left. rewrite !Z.sgn_pos by lia. done.
    - assert (Z.sgn a = 1 \/ Z.sgn a = -1) as [-> | ->] by lia;
        assert (Z.sgn b = 1 \/ Z.sgn b = -1) as [-> | ->] by lia; cbn; tauto. }
  - destruct R; cbn in *; lia.
  - destruct R; cbn in *; lia || done.
Qed.

(** The quotient that is rounded, and the test whether to round it up. *)
Lemma divide_round B n b noRoundUp :
  B <> UInt128 -> 0 <= n -> 0 < b <= type_max B -> (noRoundUp = true \/ 2 * (b - 1) <= type_max B) ->
  (if noRoundUp then Ok false
   else
     let! twice := arith B (convert B (n mod b) * 2) in
     Ok (twice >=? b)) = Ok (negb noRoundUp && (2 * (n mod b) >=? b)).
Proof.
  intros Hb Hn Hbm Hround. destruct noRoundUp; [done|]. destruct Hround as [|Hround]; [done|].
  pose proof (Z.mod_pos_bound n b ltac:(lia)) as Hm.
  rewrite convert_in by (unfold in_type; destruct B; cbn in *; lia || done).
  rewrite arith_in by (unfold in_type; destruct B; cbn in *; lia || done). cbn [rbind negb andb].
  by rewrite Z.mul_comm.
Qed.

Lemma divideWithRoundUp_ok R B a b noRoundUp k :
  divisible R B a b k -> (noRoundUp = true \/ 2 * (Z.abs b - 1) <= type_max B) ->
  let n := Z.abs a * 10 ^ k in
  divideWithRoundUp R B a b noRoundUp k
  = Ok (Z.sgn a * Z.sgn b * (if noRoundUp then n / Z.abs b else (2 * n + Z.abs b) / (2 * Z.abs b)),
        Z.sgn a * Z.sgn b * (n mod Z.abs b)).
Proof.
  intros Hd Hround n. pose proof Hd as [Hr Hu Hbt Ha [Hb Hbm] Hk Hp]. fold n in Hp.
  pose proof (pow10_range k Hk) as Hpow. change (10 ^ 38) with 100000000000000000000000000000000000000 in Hpow.
  assert (0 < Z.abs a <= n) as Hn by (unfold n; nia).
  assert (type_max B <= type_max R) as Hmax by (destruct R, B; cbn in *; lia || done).
  assert (forall z, 0 <= z <= type_max R -> in_type R z) as Hin by (intros z Hz; unfold in_type; destruct R; cbn in *; lia).
  assert (0 <= n / Z.abs b /\ n / Z.abs b * Z.abs b + n mod Z.abs b = n /\ 0 <= n mod Z.abs b < Z.abs b) as (Hq & Hqr & Hm).
  { pose proof (Z.div_mod n (Z.abs b) ltac:(lia)). pose proof (Z.mod_pos_bound n (Z.abs b) ltac:(lia)).
    split; [apply Z.div_pos; lia|lia]. }
  unfold divideWithRoundUp. replace (b =? 0) with false by lia. cbn [negb check rbind].
  rewrite divide_magnitude by (tauto || lia). cbn [rbind]. rewrite divide_divisor by done. cbn [rbind]. cbv zeta.
  pose proof (divide_fits R B a b k Hd) as Hfits. cbv zeta in Hfits. rewrite Hfits.
  cbn [rbind]. rewrite pow10_at by done. cbn [rbind].
  rewrite (convert_in R (10 ^ k)) by (apply Hin; unfold n in *; nia).
  unfold checkedMultiply. fold n. replace ((type_min R <=? n) && (n <=? type_max R)) with true
    by (destruct R; cbn in *; lia || done). cbn [rbind].
  replace (common R B) with R by (destruct R, B; done).
  rewrite quotient_pos, remainder_pos by (apply Hin || idtac; lia). cbn [rbind].
  rewrite !(convert_in R) by (apply Hin; nia).
  rewrite (divide_round B n (Z.abs b)) by (done || lia). cbn [rbind].
  rewrite sign_product, round_up by lia.
  set (up := 2 * (n mod Z.abs b) >=? Z.abs b). 
  assert (0 <= n / Z.abs b + (if up then 1 else 0) <= type_max R) as Hup.
  { unfold up. destruct (_ >=? _) eqn:Eup; nia. }
  assert ((if negb noRoundUp && up then arith R (n / Z.abs b + 1) else Ok (n / Z.abs b))
    = Ok (if noRoundUp then n / Z.abs b else n / Z.abs b + (if up then 1 else 0))) as ->.
  { destruct noRoundUp, up; cbn [negb andb]; [done|done| |by rewrite Z.add_0_r].
    apply arith_in, Hin. lia. }
  cbn [rbind]. rewrite !(signed_in R B a b k) by (done || (destruct noRoundUp; nia)). done.
Qed.

(** ** Where the division fails *)

(** The test whether the product fits divides by the dividend. *)
Lemma divide_zero R B b k :
  R <> Int64 -> 0 < b -> 0 <= k <= 38 -> divideWithRoundUp R B 0 b false k = Err DivisionByZero.
Proof.
  intros Hr Hb Hk. unfold divideWithRoundUp. replace (b =? 0) with false by lia. cbn [negb check rbind].
  replace (b <? 0) with false by lia. replace (k <=? 38) with true by lia. change (0 <? 0) with false. cbn [rbind].
  rewrite pow10_at by done. cbn [rbind]. destruct R; [done| |]; cbn [common convert].
  - change (wrap_signed 128 (wrap_signed 128 0)) with 0. by rewrite Z.mul_0_r.
  - change (wrap_unsigned 128 (wrap_unsigned 128 0)) with 0. by rewrite Z.mul_0_r.
Qed.

(** The product that the test should find too large overflows: int256_t is not reached. *)
Lemma divide_overflow B a b k :
  0 < a <= INT128_MAX -> 0 < b -> 0 <= k <= 38 -> INT128_MAX < a * 10 ^ k ->
  divideWithRoundUp Int128 B a b false k = Err SignedOverflow.
Proof.
  intros Ha Hb Hk Hp. unfold divideWithRoundUp. replace (b =? 0) with false by lia. cbn [negb check rbind].
  replace (a <? 0) with false by lia. replace (b <? 0) with false by lia. replace (k <=? 38) with true by lia.
  cbn [rbind]. rewrite pow10_at by done. cbn [rbind common convert arith].
  pose proof (pow10_range k Hk) as Hpow. change (10 ^ 38) with 100000000000000000000000000000000000000 in Hpow.
  rewrite (wrap_signed_id 128 a), (wrap_signed_id 128 a), (wrap_signed_id 128 (10 ^ k)) by lia. unfold ck128.
  rewrite (not_true_is_false (in_int128 (10 ^ k * a))); [done|].
  rewrite in_int128_spec. lia.
Qed.

(** With more than 38 digits the sign of a negative quotient is lost: -1 * 10^39 / 10^38 = 10. *)
Lemma divide_large_sign : divideWithRoundUp Int128 Int128 (-1) (10 ^ 38) false 39 = Ok (10, 0).
Proof. by vm_compute. Qed.

(** Twice the remainder overflows for divisors past half of the range. *)
Lemma divide_twice_overflow : divideWithRoundUp Int128 Int64 (2 ^ 62) (2 ^ 63 - 1) false 0 = Err SignedOverflow.
Proof. by vm_compute. Qed.

(** * Sums and averages *)

Lemma wrap_signed_add w u v : wrap_signed w (wrap_unsigned w u + v) = wrap_signed w (u + v).
Proof.
  unfold wrap_signed, wrap_unsigned. f_equal. rewrite <- !Z.add_assoc. apply Zplus_mod_idemp_l.
Qed.

(** The exact sum that a partial sum and its overflows stand for. *)
Definition exact_sum (sum overflow : Z) : Z := sum + overflow * 2 ^ 127.

Lemma addUnsignedValues_ok l r (negative : bool) :
  0 <= l <= INT128_MAX -> 0 <= r <= INT128_MAX ->
  exists o s, addUnsignedValues l r negative = Ok (o, s) /\ 0 <= o <= 1
    /\ Z.abs s <= INT128_MAX /\ exact_sum s (if negative then - o else o) = (if negative then - (l + r) else l + r).
Proof.
  intros Hl Hr. unfold addUnsignedValues. rewrite (wrap_unsigned_id 128 l), (wrap_unsigned_id 128 r) by lia.
  rewrite wrap_unsigned_id by lia.
  change (wrap_unsigned 128 (Z.lnot kOverflowMultiplier)) with (2 ^ 127 - 1). rewrite land_mod by lia.
  rewrite Z.shiftr_div_pow2 by lia. set (o := (l + r) / 2 ^ 127). set (s := (l + r) mod 2 ^ 127).
  assert (l + r = 2 ^ 127 * o + s /\ 0 <= s < 2 ^ 127) as [E Hs].
  { split; [apply Z.div_mod; lia|apply Z.mod_pos_bound; lia]. }
  assert (0 <= o <= 1) as Ho by nia. rewrite wrap_signed_id by lia. unfold exact_sum.
  destruct negative.
  - rewrite ck128_in by lia. cbn [rbind]. eexists _, _. split; [reflexivity|]. lia.
  - cbn [rbind]. eexists _, _. split; [reflexivity|]. lia.
Qed.

Lemma addWithOverflow_ok l r :
  Z.abs l <= INT128_MAX -> Z.abs r <= INT128_MAX ->
  exists o s, addWithOverflow l r = Ok (o, s) /\ -1 <= o <= 1 /\ Z.abs s <= INT128_MAX /\ exact_sum s o = l + r.
Proof.
  intros Hl Hr. unfold addWithOverflow. destruct (l <? 0) eqn:El, (r <? 0) eqn:Er; cbn [Bool.eqb].
  - rewrite !ck128_in by lia. cbn [rbind].
    destruct (addUnsignedValues_ok (- l) (- r) true) as (o & s & -> & Ho & Hs & E); [lia|lia|].
    cbn [rbind fst snd]. eexists _, _. split; [reflexivity|]. lia.
  - rewrite ck128_in by lia. cbn [rbind]. eexists _, _. split; [reflexivity|]. unfold exact_sum. lia.
  - rewrite ck128_in by lia. cbn [rbind]. eexists _, _. split; [reflexivity|]. unfold exact_sum. lia.
  - destruct (addUnsignedValues_ok l r false) as (o & s & -> & Ho & Hs & E); [lia|lia|].
    eexists _, _. split; [reflexivity|]. lia.
Qed.

(** [adjustSumForOverflow] finds the sum exactly when it is a 128-bit number other than the least. *)
Lemma adjustSumForOverflow_ok s o :
  Z.abs s <= INT128_MAX ->
  adjustSumForOverflow s o
  = if decide (Z.abs (exact_sum s o) <= INT128_MAX) then Some (exact_sum s o) else None.
Proof.
  intros Hs. unfold adjustSumForOverflow, exact_sum, kOverflowMultiplier.
  destruct (((o =? 1) && (s <? 0)) || ((o =? -1) && (s >? 0))) eqn:E.
  - assert (o = 1 /\ s < 0 \/ o = -1 /\ 0 < s) as Hcases by lia. rewrite decide_True by lia. f_equal.
    rewrite wrap_signed_unsigned by lia. rewrite wrap_signed_id by lia. lia.
  - destruct (o =? 0) eqn:E0; cbn [negb].
    + apply Z.eqb_eq in E0. subst o. rewrite decide_True by lia. f_equal. lia.
    + rewrite decide_False; [done|]. lia.
Qed.

(** Adding up values as the aggregates do: the partial sum and the sum of the overflows. *)
Fixpoint add_all (values : list Z) (sum overflow : Z) : result (Z * Z) :=
  match values with
  | [] => Ok (sum, overflow)
  | v :: values =>
      let! r := addWithOverflow sum v in
      add_all values (snd r) (overflow + fst r)
  end.

Definition total (values : list Z) : Z := fold_right Z.add 0 values.

Lemma total_bound values bound :
  Forall (fun v => Z.abs v <= bound) values -> Z.abs (total values) <= Z.of_nat (length values) * bound.
Proof.
  induction 1 as [|v values Hv _ IH]; [done|]. cbn [total fold_right length]. fold (total values). lia.
Qed.

Lemma add_all_ok values sum overflow :
  Forall (fun v => Z.abs v <= INT128_MAX) values -> Z.abs sum <= INT128_MAX ->
  exists s o, add_all values sum overflow = Ok (s, o) /\ Z.abs s <= INT128_MAX
    /\ exact_sum s o = exact_sum sum overflow + total values
    /\ Z.abs (o - overflow) <= Z.of_nat (length values).
Proof.
  intros Hv. revert sum overflow. induction Hv as [|v values Hv _ IH]; intros sum overflow Hs.
  { exists sum, overflow. cbn. split_and!; [done|done|lia|lia]. }
  cbn [add_all]. destruct (addWithOverflow_ok sum v Hs Hv) as (o & s & -> & Ho & Hs' & E). cbn [rbind fst snd].
  destruct (IH s (overflow + o) Hs') as (s' & o' & Hrun & Hs'' & E' & Hcount).
  exists s', o'. split; [done|]. split; [done|]. cbn [total fold_right length]. fold (total values).
  unfold exact_sum in *. lia.
Qed.

(** The truncated division by a positive number. *)
Lemma divide_truncated R B a b :
  divisible R B a b 0 -> 0 < b ->
  exists q r, divideWithRoundUp R B a b true 0 = Ok (q, r) /\ a = q * b + r
    /\ Z.abs r < b /\ Z.abs q <= Z.abs a /\ r = Z.rem a b.
Proof.
  intros Hd Hb. pose proof Hd as [_ _ _ Ha _ _ _]. rewrite divideWithRoundUp_ok by (done || by left).
  change (10 ^ 0) with 1. rewrite Z.mul_1_r, (Z.sgn_pos b), (Z.abs_eq b), Z.mul_1_r by lia.
  eexists _, _. split; [reflexivity|].
  assert (Z.sgn a * (Z.abs a / b) = Z.quot a b /\ Z.sgn a * (Z.abs a mod b) = Z.rem a b) as [-> ->].
  { rewrite (Z.quot_div a b), (Z.rem_mod a b), (Z.sgn_pos b), (Z.abs_eq b) by lia. lia. }
  pose proof (Z.quot_rem' a b) as E. pose proof (Z.rem_bound_abs a b ltac:(lia)) as Hr.
  split_and!; [lia|lia| |done]. rewrite <- (Z.abs_eq b) in E by lia. rewrite <- Z.quot_abs by lia.
  rewrite Z.quot_div_nonneg by lia. apply Z.div_le_upper_bound; [lia|nia].
Qed.

Lemma divisible_128 a b : a <> 0 -> Z.abs a <= INT128_MAX -> 0 < b <= INT64_MAX -> divisible Int128 Int64 a b 0.
Proof. intros. split; cbn; try done; lia. Qed.

(** The parts of an average put together. *)
Lemma average_error sum o count P qm rm qs rs qt rt :
  P = qm * count + rm -> sum = qs * count + rs -> rm * o + rs = qt * count + rt ->
  sum + o * P - (qm * o + (qs + qt)) * count = rt.
Proof. intros -> -> E. lia. Qed.

Lemma average_range avg count t bound :
  0 < count -> Z.abs (t - avg * count) < count -> Z.abs t <= count * bound -> Z.abs avg <= bound.
Proof.
  intros Hc Hd Ht. assert (Z.abs avg * count < (bound + 1) * count) as H.
  { rewrite <- (Z.abs_eq count) at 1 by lia. rewrite <- Z.abs_mul. lia. }
  apply Z.mul_lt_mono_pos_r in H; lia.
Qed.

Lemma scaled_remainder r o count : Z.abs r < count -> Z.abs o <= count -> count <= INT64_MAX -> Z.abs (r * o) <= 2 ^ 126.
Proof.
  intros Hr Ho Hc. change (2 ^ 126) with (2 ^ 63 * 2 ^ 63). rewrite Z.abs_mul.
  apply Z.mul_le_mono_nonneg; lia.
Qed.

(** The average of the exact sum: rounded when nothing overflowed, and less than one away otherwise. *)
Lemma computeAverage_ok sum count overflow :
  sum <> 0 -> Z.abs sum <= INT128_MAX -> 0 < count <= INT64_MAX -> Z.abs overflow <= count ->
  Z.abs (exact_sum sum overflow) <= count * 10 ^ 38 ->
  (overflow = 0 -> 2 * (count - 1) <= INT64_MAX -> computeAverage sum count overflow = Ok (round_div sum count))
  /\ (overflow <> 0 -> overflow * (2 ^ 127 mod count) + Z.rem sum count <> 0 ->
      exists avg, computeAverage sum count overflow = Ok avg
        /\ Z.abs (exact_sum sum overflow - avg * count) < count).
Proof.
  intros Hs0 Hs Hc Ho Hexact. unfold computeAverage. split.
  - intros -> Hround. cbn [Z.eqb]. rewrite divideWithRoundUp_ok by (by apply divisible_128 || (right; cbn; lia)).
    cbn [rbind fst]. change (10 ^ 0) with 1. rewrite Z.mul_1_r. reflexivity.
  - intros Ho0 Hx. replace (overflow =? 0) with false by lia.
    assert (divisible UInt128 Int64 kOverflowMultiplier count 0) as Hmul
      by (unfold kOverflowMultiplier; split; cbn; try done; lia).
    destruct (divide_truncated _ _ _ _ Hmul ltac:(lia)) as (qm & rm & -> & Em & Hrm & _ & Erm). cbn [rbind].
    destruct (divide_truncated _ _ _ _ (divisible_128 sum count Hs0 Hs Hc) ltac:(lia))
      as (qs & rs & -> & Es & Hrs & _ & Ers). cbn [rbind].
    unfold kOverflowMultiplier in *. rewrite Z.rem_mod_nonneg in Erm by lia.
    pose proof (scaled_remainder rm overflow count Hrm Ho ltac:(lia)) as Hro.
    rewrite wrap_signed_add, wrap_signed_id by lia.
    assert (rm * overflow + rs <> 0) as Hx' by (rewrite Erm, Ers, (Z.mul_comm _ overflow); exact Hx).
    destruct (divide_truncated _ _ _ _ (divisible_128 (rm * overflow + rs) count Hx' ltac:(lia) Hc) ltac:(lia))
      as (qt & rt & -> & Et & Hrt & _ & _). cbn [rbind fst].
    rewrite <- Z.add_assoc, wrap_signed_add.
    pose proof (average_error sum overflow count (2 ^ 127) qm rm qs rs qt rt Em Es Et) as Hdiff.
    fold (exact_sum sum overflow) in Hdiff. rewrite <- Hdiff in Hrt.
    exists (qm * overflow + (qs + qt)). split; [|done]. f_equal.
    pose proof (average_range _ _ _ _ (proj1 Hc) Hrt Hexact) as Hrange.
    change (10 ^ 38) with 100000000000000000000000000000000000000 in Hrange.
    revert Hrange. generalize (qm * overflow + (qs + qt)). clear. intros avg Hrange. apply wrap_signed_id; lia.
Qed.

(** C38. Adding up decimals with [addWithOverflow] never overflows: the sum and [2 ^ 127] for
    each overflow counted together are the exact sum, with a sum of less than [2 ^ 127] either
    way and no more overflows than values. [adjustSumForOverflow] gives the exact sum when it is
    less than [2 ^ 127] either way, and nothing otherwise, so nothing for [- 2 ^ 127], which
    an int128_t has. [computeAverage] gives the exact average rounded to the nearest when there was
    no overflow, and an average less than one away otherwise. (A partial sum or a
    remainder of zero is excluded: the division by zero of [divide_zero].) *)
Theorem decimal_sums values :
  let n := Z.of_nat (length values) in
  Forall (fun v => Z.abs v < 10 ^ 38) values -> 0 < n <= 2 ^ 62 ->
  exists s o, add_all values 0 0 = Ok (s, o)
    /\ s + o * 2 ^ 127 = total values /\ Z.abs s <= INT128_MAX /\ Z.abs o <= n
    /\ adjustSumForOverflow s o
       = (if decide (Z.abs (total values) <= INT128_MAX) then Some (total values) else None)
    /\ (s <> 0 -> (o <> 0 -> o * (2 ^ 127 mod n) + Z.rem s n <> 0) ->
        exists avg, computeAverage s n o = Ok avg
          /\ if decide (o = 0) then avg = round_div (total values) n
             else Z.abs (total values - avg * n) < n).
Proof.
  intros n Hv Hn. assert (Z.abs (total values) <= n * 10 ^ 38) as Htotal.
  { apply total_bound. by eapply Forall_impl; [exact Hv|]; intros v H; apply Z.lt_le_incl. }
  destruct (add_all_ok values 0 0) as (s & o & Hrun & Hs & E & Ho).
  { eapply Forall_impl; [exact Hv|]. cbn. intros v H. change (10 ^ 38) with 100000000000000000000000000000000000000 in H. lia. }
  { done. }
  change (exact_sum 0 0) with 0 in E. rewrite Z.add_0_l in E. rewrite Z.sub_0_r in Ho. fold n in Ho.
  exists s, o. split_and!; [done|done|done|done|by rewrite adjustSumForOverflow_ok, E|]. intros Hs0 Hx.
  rewrite <- E in Htotal. destruct (computeAverage_ok s n o Hs0 Hs ltac:(lia) Ho Htotal) as [Hzero Hover].
  destruct (decide (o = 0)) as [->|Ho0].
  - exists (round_div s n). split; [apply Hzero; [done|lia]|]. rewrite <- E. unfold exact_sum. by rewrite Z.mul_0_l, Z.add_0_r.
  - destruct (Hover Ho0 (Hx Ho0)) as (avg & Ha & Hd). exists avg. split; [done|]. by rewrite <- E.
Qed.

Lemma decimal_sums_witness :
  exists s o, add_all [10 ^ 38 - 1; 10 ^ 38 - 1; 7] 0 0 = Ok (s, o) /\ s + o * 2 ^ 127 = 2 * 10 ^ 38 + 5 /\ adjustSumForOverflow s o = None.
Proof.
  destruct (decimal_sums [10 ^ 38 - 1; 10 ^ 38 - 1; 7]) as (s & o & Hrun & Hsum & _ & _ & Hadj & _).
  - apply (bool_decide_unpack _). by vm_compute.
  - split; by vm_compute.
  - exists s, o. split; [exact Hrun|]. split; [exact Hsum|]. rewrite Hadj. by vm_compute.
Defined.

(** The sum [- 2 ^ 127] is taken for an overflow. *)
Lemma smallest_sum_rejected : adjustSumForOverflow 0 (-1) = None /\ INT128_MIN = 0 + -1 * 2 ^ 127.
Proof. by vm_compute. Qed.

(** * Bytes *)

Lemma le_split_length n x : length (le_split n x) = n.
Proof. revert x. induction n; intros x; cbn; auto. Qed.

Lemma le_split_take k n x : (k <= n)%nat -> take k (le_split n x) = le_split k x.
Proof.
  revert n x. induction k as [|k IH]; intros n x Hle; [done|]. destruct n; [lia|]. cbn. f_equal. apply IH. lia.
Qed.

Lemma pow256_S n : 256 ^ Z.of_nat (S n) = 256 * 256 ^ Z.of_nat n.
Proof. rewrite Nat2Z.inj_succ, Z.pow_succ_r by lia. done. Qed.

Lemma pow256_pos n : 0 < 256 ^ Z.of_nat n.
Proof. apply Z.pow_pos_nonneg; lia. Qed.

Lemma le_split_app a b x : le_split (a + b) x = le_split a x ++ le_split b (x / 256 ^ Z.of_nat a).
Proof.
  revert x. induction a as [|a IH]; intros x; cbn [Nat.add le_split app].
  - by rewrite Z.div_1_r.
  - rewrite IH. do 3 f_equal. rewrite pow256_S, Z.div_div by (pose proof (pow256_pos a); lia). done.
Qed.

Lemma le_combine_split n x : le_combine (le_split n x) = x mod 256 ^ Z.of_nat n.
Proof.
  revert x. induction n as [|n IH]; intros x; cbn [le_split le_combine]; [by rewrite Z.mod_1_r|].
  rewrite IH, pow256_S, Z.rem_mul_r by (pose proof (pow256_pos n); lia). done.
Qed.

Lemma le_split_mod n m x : (n <= m)%nat -> le_split n (x mod 256 ^ Z.of_nat m) = le_split n x.
Proof.
  revert m x. induction n as [|n IH]; intros m x Hle; [done|]. destruct m as [|m]; [lia|].
  cbn [le_split]. rewrite pow256_S, Z.rem_mul_r by (pose proof (pow256_pos m); lia). f_equal.
  - rewrite (Z.mul_comm 256), Z.mod_add, Z.mod_mod by lia. done.
  - rewrite (Z.mul_comm 256), Z.div_add, Z.div_small, Z.add_0_l by (lia || apply Z.mod_pos_bound; lia).
    apply IH. lia.
Qed.

(** Bits of the magnitude: of a negative number, of its complement. *)
Definition magnitude (value : Z) : Z := if value <? 0 then Z.lnot value else value.
Definition magnitude_bits (value : Z) : Z := if magnitude value =? 0 then 0 else Z.log2 (magnitude value) + 1.

Lemma magnitude_range value : int128 value -> 0 <= magnitude value < 2 ^ 127.
Proof. unfold int128, magnitude. intros Hv. destruct (value <? 0) eqn:E; [rewrite Z.lnot_eq_pred_opp|]; lia. Qed.

Lemma getByteArrayLength_bits value :
  int128 value -> getByteArrayLength value = 1 + magnitude_bits value / 8.
Proof.
  intros Hv. pose proof (magnitude_range value Hv) as Hm. unfold getByteArrayLength, magnitude_bits.
  fold (magnitude value). cbv zeta. set (m := magnitude value) in *. do 2 f_equal.
  unfold upper, lower. rewrite Z.shiftr_div_pow2 by lia.
  assert (0 <= m / 2 ^ 64 < 2 ^ 63) as Hhi.
  { split; [apply Z.div_pos; lia|apply Z.div_lt_upper_bound; lia]. }
  rewrite (wrap_unsigned_id 64 (m / 2 ^ 64)) by lia. unfold countLeadingZeros.
  destruct (m / 2 ^ 64 =? 0) eqn:Eh; cbn [negb].
  - apply Z.eqb_eq in Eh. apply Z.div_small_iff in Eh; [|lia].
    rewrite wrap_unsigned_id by lia. destruct (m =? 0) eqn:E0; cbn [negb]; [done|]. lia.
  - replace (m =? 0) with false.
    2: { symmetry. apply Z.eqb_neq. intros ->. by rewrite Z.div_0_l in Eh. }
    apply Z.eqb_neq in Eh. assert (2 ^ 64 <= m) as Hm64.
    { destruct (decide (2 ^ 64 <= m)) as [|Hlt]; [done|]. rewrite Z.div_small in Eh by lia. done. }
    assert (64 <= Z.log2 m) as Hlog by (apply Z.log2_le_pow2; lia).
    rewrite <- Z.shiftr_div_pow2, Z.log2_shiftr by lia. lia.
Qed.

Lemma magnitude_bits_range value :
  int128 value -> 0 <= magnitude_bits value <= 127 /\ magnitude value < 2 ^ magnitude_bits value
    /\ (0 < magnitude_bits value -> 2 ^ (magnitude_bits value - 1) <= magnitude value).
Proof.
  intros Hv. pose proof (magnitude_range value Hv) as Hm. unfold magnitude_bits.
  destruct (magnitude value =? 0) eqn:E.
  - apply Z.eqb_eq in E. rewrite E. split; [lia|]. split; [done|lia].
  - apply Z.eqb_neq in E. pose proof (Z.log2_spec (magnitude value) ltac:(lia)) as Hlog.
    pose proof (Z.log2_nonneg (magnitude value)).
    assert (Z.log2 (magnitude value) < 127) as Hlt by (apply Z.log2_lt_pow2; lia).
    replace (Z.log2 (magnitude value) + 1) with (Z.succ (Z.log2 (magnitude value))) by lia.
    split; [lia|]. split; [lia|]. intros _.
    replace (Z.succ (Z.log2 (magnitude value)) - 1) with (Z.log2 (magnitude value)) by lia. lia.
Qed.

(** A number is represented in [n] bytes when its magnitude leaves room for the sign. *)
Lemma fits_bytes value n :
  1 <= n -> (wrap_signed (8 * n) value = value <-> magnitude value < 2 ^ (8 * n - 1)).
Proof.
  intros Hn. assert (0 < 2 ^ (8 * n - 1)) as Hp by (apply Z.pow_pos_nonneg; lia). unfold magnitude.
  rewrite Z.lnot_eq_pred_opp. split.
  - intros E. pose proof (wrap_signed_range (8 * n) value ltac:(lia)) as Hr. rewrite E in Hr.
    destruct (value <? 0) eqn:?; lia.
  - intros Hlt. apply wrap_signed_id; [lia|]. destruct (value <? 0) eqn:?; lia.
Qed.

Lemma wrap_signed_mod w z : wrap_signed w (z mod 2 ^ w) = wrap_signed w z.
Proof. unfold wrap_signed. f_equal. apply Zplus_mod_idemp_l. Qed.

Lemma memcpy_from_ok from offset n :
  0 <= offset -> 0 <= n -> offset + n <= Z.of_nat (length from) ->
  memcpy_from from offset n = Ok (take (Z.to_nat n) (drop (Z.to_nat offset) from)).
Proof.
  intros. unfold memcpy_from.
  by replace ((0 <=? offset) && (0 <=? n) && (offset + n <=? Z.of_nat (length from))) with true by lia.
Qed.

Lemma suffix_of_big_endian n k x :
  (k <= n)%nat -> take k (drop (n - k) (rev (le_split n x))) = rev (le_split k x).
Proof.
  intros Hk. replace n with (k + (n - k))%nat at 2 by lia. rewrite le_split_app, rev_app_distr.
  rewrite drop_app_length' by (rewrite length_rev, le_split_length; done).
  apply take_ge. by rewrite length_rev, le_split_length.
Qed.

Lemma toByteArray_ok value :
  int128 value -> toByteArray value = Ok (rev (le_split (Z.to_nat (getByteArrayLength value)) value)).
Proof.
  intros Hv. pose proof (magnitude_bits_range value Hv) as (Hbits & _ & _).
  unfold toByteArray. rewrite getByteArrayLength_bits by done. set (len := 1 + magnitude_bits value / 8).
  assert (1 <= len <= 16) as Hlen by (unfold len; euclidean). cbv zeta. unfold big_endian_bytes.
  assert (forall x, wrap_unsigned 64 x = x mod 256 ^ Z.of_nat 8) as Hwrap by done. rewrite !Hwrap.
  assert (forall x, length (rev (le_split 8 x)) = 8%nat) as Hl by (intros; by rewrite length_rev, le_split_length).
  destruct (len <=? 8) eqn:E.
  - rewrite memcpy_from_ok by (rewrite ?Hl; lia). f_equal.
    replace (Z.to_nat (8 - len)) with (8 - Z.to_nat len)%nat by lia.
    rewrite suffix_of_big_endian, le_split_mod by lia. done.
  - rewrite memcpy_from_ok by (rewrite ?Hl; lia). rewrite memcpy_from_ok by (rewrite ?Hl; lia). cbn [rbind]. f_equal.
    replace (Z.to_nat (16 - len)) with (8 - Z.to_nat (len - 8))%nat by lia.
    rewrite suffix_of_big_endian, !le_split_mod by lia.
    change (drop (Z.to_nat 0) ?l) with l. rewrite take_ge by (rewrite Hl; lia).
    rewrite <- rev_app_distr. f_equal.
    replace (Z.to_nat len) with (8 + Z.to_nat (len - 8))%nat by lia. rewrite le_split_app. f_equal. f_equal.
    by rewrite Z.shiftr_div_pow2.
Qed.

(** [toByteArray] writes the two's complement of a 128-bit integer, most significant
    byte first, in [getByteArrayLength] bytes: read back as a signed number they give the
    value, no shorter sequence would do, and it takes between 1 and 16 bytes. *)
Theorem decimal_bytes value :
  int128 value ->
  exists bytes, toByteArray value = Ok bytes /\ Z.of_nat (length bytes) = getByteArrayLength value
    /\ 1 <= getByteArrayLength value <= 16
    /\ wrap_signed (8 * getByteArrayLength value) (le_combine (rev bytes)) = value
    /\ forall n, 1 <= n < getByteArrayLength value -> wrap_signed (8 * n) value <> value.
Proof.
  intros Hv. eexists. split; [by apply toByteArray_ok|].
  pose proof (magnitude_bits_range value Hv) as (Hbits & Hlt & Hge).
  rewrite getByteArrayLength_bits by done. set (len := 1 + magnitude_bits value / 8).
  assert (1 <= len <= 16 /\ magnitude_bits value <= 8 * len - 1 /\ 8 * (len - 1) <= magnitude_bits value)
    as (Hlen & Hup & Hlow) by (unfold len; euclidean).
  split_and!; [|lia|lia| |].
  - rewrite length_rev, le_split_length. lia.
  - rewrite rev_involutive, le_combine_split. rewrite Z2Nat.id by lia.
    replace (256 ^ len) with (2 ^ (8 * len)) by (rewrite Z.pow_mul_r by lia; done).
    rewrite wrap_signed_mod. apply fits_bytes; [lia|].
    eapply Z.lt_le_trans; [exact Hlt|]. apply Z.pow_le_mono_r; lia.
  - intros n Hn E. apply fits_bytes in E; [|lia].
    assert (2 ^ (8 * n - 1) <= 2 ^ (magnitude_bits value - 1)) as Hp by (apply Z.pow_le_mono_r; lia).
    specialize (Hge ltac:(lia)). lia.
Qed.

Lemma decimal_bytes_witness :
  exists bytes, toByteArray (-129) = Ok bytes /\ Z.of_nat (length bytes) = 2
    /\ wrap_signed 16 (le_combine (rev bytes)) = -129.
Proof.
  destruct (decimal_bytes (-129)) as (bytes & H1 & H2 & _ & H3 & _); [split; by vm_compute|].
  exists bytes. exact (conj H1 (conj H2 H3)).
Defined.

(** ** Trailing zeros *)

Lemma stripTrailingZeros_ok fuel t input scale :
  t <> UInt128 -> Z.abs input <= type_max t -> 0 <= scale < Z.of_nat fuel ->
  exists input' scale', stripTrailingZeros fuel t input scale = Ok (input', scale')
    /\ 0 <= scale' <= scale /\ input = input' * 10 ^ (scale - scale')
    /\ (scale' = 0 \/ Z.abs input' < 10 \/ Z.rem input' 10 <> 0).
Proof.
  intros Ht. revert input scale. induction fuel as [|fuel IH]; intros input scale Hi Hs; [lia|].
  cbn [stripTrailingZeros].
  assert ((if input <? 0 then arith t (- input) else Ok input) = Ok (Z.abs input)) as ->.
  { destruct (input <? 0) eqn:E; [|by rewrite Z.abs_eq by lia]. rewrite Z.abs_neq by lia.
    apply arith_in. unfold in_type. destruct t; cbn in *; lia || done. }
  cbn [rbind].
  assert (forall r, (scale = 0 \/ Z.abs input < 10 \/ Z.rem input 10 <> 0) -> r = Ok (input, scale) ->
    exists input' scale', r = Ok (input', scale') /\ 0 <= scale' <= scale
      /\ input = input' * 10 ^ (scale - scale') /\ (scale' = 0 \/ Z.abs input' < 10 \/ Z.rem input' 10 <> 0)) as Hstop.
  { intros r Hr ->. exists input, scale. split; [done|]. split; [lia|]. split; [|done].
    rewrite Z.sub_diag. change (10 ^ 0) with 1. lia. }
  destruct ((Z.abs input >=? 10) && (scale >? 0)) eqn:E; [|apply Hstop; [lia|done]].
  destruct (Z.odd input) eqn:Eodd.
  { apply Hstop; [|done]. right. right. intros Hrem. rewrite Zodd_mod in Eodd. euclidean. }
  destruct (Z.rem input 10 =? 0) eqn:Erem; cbn [negb]; [|apply Hstop; [lia|done]].
  apply Z.eqb_eq in Erem. destruct (IH (Z.quot input 10) (scale - 1)) as (i' & s' & Hrun & Hs' & Hv & Hend); [euclidean|lia|].
  exists i', s'. split; [done|]. split; [lia|]. split; [|done].
  replace (scale - s') with (1 + (scale - 1 - s')) by lia. rewrite Z.pow_add_r by lia. change (10 ^ 1) with 10.
  rewrite (Z.quot_rem' input 10), Erem, Hv. lia.
Qed.
