(* ===== verification/DecimalText.v ===== *)
(** Parsing of decimals (bolt/type/DecimalUtil.h and DecimalUtil.cpp), and that it reads back what is
    printed. *)

From S2P Require Import Prelude Text HugeInt DecimalBase DecimalPrint Decimal.

(** * Parsing *)

(** folly::tryTo<int128_t> and folly::to<int32_t> (nothing when it throws). *)
Class FollyTo := {
  tryTo_int128 : list Z -> option Z;
  to_int32 : list Z -> option Z
}.

(** The documented behaviour on digits with an optional minus sign. *)
Class FollyToLaws `{FollyTo} : Prop := {
  tryTo_int128_digits ds : all_digits ds -> ds <> [] ->
    tryTo_int128 ds = if digits_value 0 ds <=? INT128_MAX then Some (digits_value 0 ds) else None;
  to_int32_digits (negative : bool) ds : all_digits ds -> ds <> [] ->
    let v := if negative then - digits_value 0 ds else digits_value 0 ds in
    to_int32 (if negative then ch_minus :: ds else ds) = if in_int32 v then Some v else None;
  to_int32_empty : to_int32 [] = None
}.

Record DecimalComponents : Type := mkComponents {
  wholeDigits : list Z;
  fractionalDigits : list Z;
  exponent : option Z;
  dc_sign : Z
}.

Fixpoint extractDigits (s : list Z) : list Z :=
  match s with
  | c :: s => if isdigit c then c :: extractDigits s else []
  | [] => []
  end.

Section parser.
Context `{FollyTo}.

(** The exponent after 'e' or 'E'; folly::to throws for an empty or too large one. *)
Definition parse_exponent (rest : list Z) : result (status Z) :=
  let withSign := match rest with c :: _ => (c =? ch_plus) || (c =? ch_minus) | [] => false end in
  if withSign && (length rest =? 1)%nat then Ok UserError
  else if existsb (fun c => negb (isdigit c)) (drop (if withSign then 1 else 0) rest) then Ok UserError
  else match to_int32 rest with Some e => Ok (OK e) | None => Err UserFail end.

(** After the sign: digits, perhaps a dot and digits, perhaps an exponent. *)
Definition parse_unsigned (sign : Z) (rest : list Z) : result (status DecimalComponents) :=
  let whole := extractDigits rest in
  let rest := drop (length whole) rest in
  match rest with
  | [] => if bool_decide (whole = []) then Ok UserError else Ok (OK (mkComponents whole [] None sign))
  | d :: after =>
      let '(fraction, rest) :=
        if d =? ch_dot then (extractDigits after, drop (length (extractDigits after)) after)
        else ([], rest) in
      if bool_decide (whole = []) && bool_decide (fraction = []) then Ok UserError
      else
        match rest with
        | [] => Ok (OK (mkComponents whole fraction None sign))
        | e :: rest =>
            if (e =? 101) || (e =? 69) then
              let! r := parse_exponent rest in
              match r with
              | OK e => Ok (OK (mkComponents whole fraction (Some e) sign))
              | UserError => Ok UserError
              end
            else Ok UserError
        end
  end.

Definition parseDecimalComponents (s : list Z) : result (status DecimalComponents) :=
  match s with
  | [] => Ok UserError
  | c :: tail =>
      if c =? ch_minus then parse_unsigned (-1) tail
      else if c =? ch_plus then parse_unsigned 1 tail
      else parse_unsigned 1 s
  end.

(** The length of the fraction is converted to a uint8_t by [getPowersOfTen]. *)
Definition parseHugeInt (c : DecimalComponents) : result (status Z) :=
  let whole :=
    match wholeDigits c with
    | [] => Some 0
    | ds => tryTo_int128 ds
    end in
  match whole with
  | None => Ok UserError
  | Some out =>
      match fractionalDigits c with
      | [] => Ok (OK out)
      | ds =>
          let! p := getPowersOfTen (Z.of_nat (length ds)) in
          let '(out, overflow) := mul_overflow128 out p in
          if overflow : bool then Ok UserError
          else match tryTo_int128 ds with
               | None => Ok UserError
               | Some v => Ok (OK (wrap_signed 128 (out + v)))
               end
      end
  end.

(** [digits[i] >= '5'] *)
Definition rounds_up (digits : list Z) (i : Z) : result bool :=
  let! c := at_index digits i in
  Ok (c >=? 53).

(** The fraction that is kept, its scale, and whether to round up. *)
Definition trim_fraction (c : DecimalComponents) (toScale : Z) : result (list Z * Z * bool) :=
  let fraction := fractionalDigits c in
  let fractionSize := Z.of_nat (length fraction) in
  match exponent c with
  | None =>
      if fractionSize >? toScale then
        let! up := rounds_up fraction toScale in
        Ok (take (Z.to_nat toScale) fraction, toScale, up)
      else Ok (fraction, fractionSize, false)
  | Some exponent =>
      let parsedScale := - exponent + fractionSize in
      if parsedScale >? toScale then
        if - exponent >=? toScale then
          let! up := if fractionSize >? 0 then rounds_up fraction 0 else Ok false in
          Ok ([], parsedScale - fractionSize, up)
        else
          let reduceDigits := exponent + toScale in
          let! up := if fractionSize >? reduceDigits then rounds_up fraction reduceDigits else Ok false in
          let kept := take (Z.to_nat (Z.min reduceDigits fractionSize)) fraction in
          Ok (kept, parsedScale - (fractionSize - Z.of_nat (length kept)), up)
      else Ok (fraction, parsedScale, false)
  end.

(** The last part of [toDecimalValue]: the digits at the scale of the text. *)
Definition rescale_parsed (format : DecimalStringFormat) (t : int_type)
    (out sign parsedPrecision parsedScale toPrecision toScale : Z) : result (status Z) :=
  let! p38 := at_index kPowersOfTen kLongMaxPrecision in
  if out >=? p38 then Ok UserError
  else
    let! out := ck128 (out * sign) in
    let! r :=
      if parsedScale <? 0 then
        if - parsedScale + toScale >? kLongMaxPrecision then Ok None
        else
          let! p := getPowersOfTen (- parsedScale + toScale) in
          let '(out, overflow) := mul_overflow128 out p in
          if overflow : bool then Ok None
          else
            let! parsedPrecision := ck32 (parsedPrecision - wrap_signed 32 parsedScale) in
            Ok (Some (out, parsedPrecision, toScale))
      else Ok (Some (out, parsedPrecision, parsedScale)) in
    match r with
    | None => Ok UserError
    | Some (out, parsedPrecision, parsedScale) =>
        if parsedScale - toScale >? kLongMaxPrecision then Ok (OK 0)
        else
          let fromPrecision := Z.min (wrap_unsigned 8 parsedPrecision) kLongMaxPrecision in
          rescaleWithRoundUp format t out fromPrecision parsedScale toPrecision toScale
    end.

(** The number of digits without the zeros at the start, as an int32_t. *)
Definition parsed_precision (c : DecimalComponents) : Z :=
  wrap_signed 32 (Z.of_nat (length (fractionalDigits c)) + Z.of_nat (length (drop_zeros (wholeDigits c)))).

Definition toDecimalValue (format : DecimalStringFormat) (t : int_type) (s : list Z) (toPrecision toScale : Z)
  : result (status Z) :=
  let! parsed := parseDecimalComponents s in
  match parsed with
  | UserError => Ok UserError
  | OK c =>
      let! trimmed := trim_fraction c toScale in
      let '(fraction, parsedScale, roundUp) := trimmed in
      let! value := parseHugeInt (mkComponents (wholeDigits c) fraction (exponent c) (dc_sign c)) in
      match value with
      | UserError => Ok UserError
      | OK out =>
          let up := if roundUp : bool then out + 1 else out in
          if negb (in_int128 up) then Ok UserError
          else rescale_parsed format t up (dc_sign c) (parsed_precision c) parsedScale toPrecision toScale
      end
  end.
End parser.

(** * Parsing *)

Definition stops_digits (post : list Z) : Prop := match post with [] => True | c :: _ => isdigit c = false end.

Lemma isdigit_true c : 48 <= c <= 57 -> isdigit c = true.
Proof. unfold isdigit. lia. Qed.

Lemma extractDigits_app ds post : all_digits ds -> stops_digits post -> extractDigits (ds ++ post) = ds.
Proof.
  intros Hds Hpost. induction Hds as [|c ds Hc _ IH]; cbn [app extractDigits].
  - destruct post as [|c post]; [done|]. cbn in *. by rewrite Hpost.
  - by rewrite isdigit_true, IH.
Qed.

(** The characters of a sign and its value. *)
Definition is_sign (text : list Z) (sign : Z) : Prop :=
  text = [] /\ sign = 1 \/ text = [ch_minus] /\ sign = -1 \/ text = [ch_plus] /\ sign = 1.

(** Digits with or without a dot. *)
Definition digits_text (w : list Z) (dot : bool) (f : list Z) : list Z :=
  w ++ (if dot then ch_dot :: f else []).

Definition exponent_text (ext : list Z) : Prop := ext = [] \/ exists rest, ext = 69 :: rest.

Lemma digits_text_head w (dot : bool) f ext :
  all_digits w -> (w <> [] \/ dot = true) ->
  exists c tail, digits_text w dot f ++ ext = c :: tail /\ (48 <= c <= 57 \/ c = ch_dot).
Proof.
  intros Hw Hne. unfold digits_text. destruct w as [|c w].
  - destruct dot; [|naive_solver]. cbn. eauto.
  - inversion Hw; subst. cbn. eauto 6.
Qed.

Section parse.
Context `{FollyTo}.

(** After the sign. *)
Lemma parse_after_sign sign w (dot : bool) f ext :
  all_digits w -> all_digits f -> (w <> [] \/ f <> []) -> (dot = false -> f = []) -> exponent_text ext ->
  parse_unsigned sign (digits_text w dot f ++ ext)
  = match ext with
    | [] => Ok (OK (mkComponents w f None sign))
    | _ :: rest =>
        let! r := parse_exponent rest in
        match r with
        | OK e => Ok (OK (mkComponents w f (Some e) sign))
        | UserError => Ok UserError
        end
    end.
Proof.
  intros Hw Hf Hne Hdot Hext. unfold parse_unsigned, digits_text. rewrite <- app_assoc. cbv zeta.
  assert (stops_digits ((if dot then ch_dot :: f else []) ++ ext)) as Hstop.
  { destruct dot; [done|]. destruct Hext as [->|[rest ->]]; done. }
  rewrite extractDigits_app, drop_app_length by done. destruct dot; cbn [app].
  - rewrite Z.eqb_refl. assert (stops_digits ext) as Hse by (destruct Hext as [->|[rest ->]]; done).
    rewrite extractDigits_app, drop_app_length by done.
    replace (bool_decide (w = []) && bool_decide (f = [])) with false.
    2: { symmetry. apply andb_false_iff. destruct Hne; [left|right]; by apply bool_decide_eq_false. }
    by destruct Hext as [->|[rest ->]].
  - rewrite (Hdot eq_refl) in *. destruct Hne as [Hne|]; [|done].
    destruct Hext as [->|[rest ->]].
    + by rewrite bool_decide_false by done.
    + change (69 =? ch_dot) with false. cbv iota. by rewrite bool_decide_false by done.
Qed.

Lemma parse_components text sign w (dot : bool) f ext :
  is_sign text sign -> all_digits w -> all_digits f -> (w <> [] \/ f <> []) -> (dot = false -> f = []) ->
  exponent_text ext ->
  parseDecimalComponents (text ++ digits_text w dot f ++ ext)
  = match ext with
    | [] => Ok (OK (mkComponents w f None sign))
    | _ :: rest =>
        let! r := parse_exponent rest in
        match r with
        | OK e => Ok (OK (mkComponents w f (Some e) sign))
        | UserError => Ok UserError
        end
    end.
Proof.
  intros Hsign Hw Hf Hne Hdot Hext.
  rewrite <- (parse_after_sign sign w dot f ext Hw Hf Hne Hdot Hext).
  destruct Hsign as [[-> ->]|[[-> ->]|[-> ->]]]; [|reflexivity|reflexivity].
  destruct (digits_text_head w dot f ext Hw) as (c & tail & E & Hc).
  { destruct Hne as [|Hf0]; [by left|]. right. destruct dot; [done|]. by specialize (Hdot eq_refl). }
  cbn [app]. rewrite E. unfold parseDecimalComponents.
  replace (c =? ch_minus) with false by lia. replace (c =? ch_plus) with false by lia. reflexivity.
Qed.
End parse.

(** ** Values of digits *)

Lemma digits_value_acc acc ds :
  digits_value acc ds = acc * 10 ^ Z.of_nat (length ds) + digits_value 0 ds.
Proof.
  revert acc. induction ds as [|c ds IH]; intros acc; [cbn; lia|].
  rewrite !digits_value_cons, IH, (IH (0 * 10 + _)). cbn [length]. rewrite pow10_S. lia.
Qed.

Lemma digits_value_join a b :
  digits_value 0 (a ++ b) = digits_value 0 a * 10 ^ Z.of_nat (length b) + digits_value 0 b.
Proof. by rewrite digits_value_app, digits_value_acc. Qed.

Lemma digits_value_bound ds : all_digits ds -> 0 <= digits_value 0 ds < 10 ^ Z.of_nat (length ds).
Proof.
  induction 1 as [|c ds Hc Hds IH]; [cbn; lia|]. rewrite digits_value_cons, digits_value_acc.
  cbn [length]. rewrite pow10_S. pose proof (pow10_pos (length ds)). nia.
Qed.

(** Rounding at a digit looks at this digit alone. *)
Lemma first_digit_rounds c ds :
  48 <= c <= 57 -> all_digits ds ->
  (2 * digits_value 0 (c :: ds) >=? 10 ^ Z.of_nat (length (c :: ds))) = (c >=? 53).
Proof.
  intros Hc Hds. rewrite digits_value_cons, digits_value_acc. cbn [length]. rewrite pow10_S.
  pose proof (digits_value_bound ds Hds) as Hb. pose proof (pow10_pos (length ds)) as Hp.
  set (P := 10 ^ Z.of_nat (length ds)) in *. destruct (c >=? 53) eqn:E; nia.
Qed.

(** ** The digits as one number *)

Section values.
Context `{FollyToLaws}.

Lemma tryTo_ok ds :
  all_digits ds ->
  match ds with [] => Some 0 | c :: l => tryTo_int128 (c :: l) end
  = if digits_value 0 ds <=? INT128_MAX then Some (digits_value 0 ds) else None.
Proof. intros Hds. destruct ds as [|c ds]; [done|]. by apply tryTo_int128_digits. Qed.

(** The digits of a number with up to 38 in the fraction: its value, or an error, or a number that is
    too large in magnitude for a decimal. *)
Lemma parseHugeInt_ok w f e sign :
  all_digits w -> all_digits f -> Z.of_nat (length f) <= 38 ->
  let v := digits_value 0 (w ++ f) in
  (v <= INT128_MAX -> parseHugeInt (mkComponents w f e sign) = Ok (OK v))
  /\ (INT128_MAX < v ->
      parseHugeInt (mkComponents w f e sign) = Ok UserError
      \/ parseHugeInt (mkComponents w f e sign) = Ok (OK (v - 2 ^ 128)) /\ v <= 2 * 10 ^ 38).
Proof.
  intros Hw Hf Hlen. cbv zeta. rewrite digits_value_join. unfold parseHugeInt. cbn [wholeDigits fractionalDigits].
  rewrite (tryTo_ok w Hw). pose proof (digits_value_bound w Hw) as HW. pose proof (digits_value_bound f Hf) as HF.
  pose proof (pow10_pos (length f)) as Hpos. pose proof (pow10_range (Z.of_nat (length f)) ltac:(lia)) as Hr.
  set (P := 10 ^ Z.of_nat (length f)) in *. set (W := digits_value 0 w) in *. set (F := digits_value 0 f) in *.
  assert (W <= W * P) as HWP by nia. change (10 ^ 38) with 100000000000000000000000000000000000000 in Hr.
  destruct (W <=? INT128_MAX) eqn:EW; [|split; [lia|by left]].
  destruct f as [|c f'].
  { assert (P = 1) as HP by done. assert (F = 0) as HF0 by done. rewrite HP, HF0, Z.mul_1_r, Z.add_0_r. split; [done|lia]. }
  rewrite getPowersOfTen_ok by lia. cbn [rbind]. fold P. unfold mul_overflow128.
  destruct (in_int128 (W * P)) eqn:EWP; cbn [negb].
  2: { split; [|by left]. intros Hle. apply not_true_iff_false in EWP. exfalso. apply EWP, in_int128_spec. lia. }
  apply in_int128_spec in EWP. rewrite tryTo_int128_digits by done. fold F.
  replace (F <=? INT128_MAX) with true by lia. rewrite (wrap_signed_id 128 (W * P)) by lia. split.
  - intros Hle. by rewrite wrap_signed_id by lia.
  - intros Hgt. right. split.
    + do 2 f_equal. replace (W * P + F) with (2 ^ 128 + (W * P + F - 2 ^ 128)) by lia.
      unfold wrap_signed. rewrite <- Z.add_assoc, Z.add_comm, Z.add_mod, Z.mod_same, Z.add_0_r, Z.mod_mod by lia.
      rewrite Z.mod_small by lia. lia.
    + destruct (decide (Z.of_nat (length (c :: f')) = 38)) as [E38|].
      * assert (P = 100000000000000000000000000000000000000) as HP by (unfold P; by rewrite E38).
        rewrite HP in *. change (10 ^ 38) with 100000000000000000000000000000000000000. lia.
      * assert (P <= 10 ^ 37) as HP by (apply Z.pow_le_mono_r; lia).
        change (10 ^ 37) with 10000000000000000000000000000000000000 in HP.
        change (10 ^ 38) with 100000000000000000000000000000000000000. lia.
Qed.

Lemma too_large p r : 0 <= p <= 38 -> 10 ^ 38 <= Z.abs r -> in_precision_or_error p r = UserError.
Proof.
  intros Hp Hr. unfold in_precision_or_error. rewrite decide_False; [done|].
  assert (10 ^ p <= 10 ^ 38) by (apply Z.pow_le_mono_r; lia). lia.
Qed.

Lemma scaled_abs sign v k : sign = 1 \/ sign = -1 -> 0 <= k -> Z.abs v <= Z.abs (sign * v * 10 ^ k).
Proof.
  intros Hs Hk. assert (1 <= 10 ^ k) as Hpos by (pose proof (Z.pow_pos_nonneg 10 k); lia).
  rewrite !Z.abs_mul, (Z.abs_eq (10 ^ k)) by lia. destruct Hs as [-> | ->]; cbn [Z.abs]; nia.
Qed.

(** The result is in range, or the digits can be printed at their scale. *)
Definition in_range_or_printable (p r digits k out : Z) : Prop :=
  - 10 ^ p < r < 10 ^ p \/ 0 <= digits <= 255 /\ k <= digits /\ out < 10 ^ digits.

(** At a scale that is not finer than the target there is nothing to round. *)
Lemma rescale_parsed_ok format t out sign digits k p s :
  0 <= out <= INT128_MAX -> sign = 1 \/ sign = -1 -> 0 <= k <= s -> s <= 38 -> fits_output t p ->
  in_range_or_printable p (sign * out * 10 ^ (s - k)) digits k out ->
  rescale_parsed format t out sign digits k p s = Ok (in_precision_or_error p (sign * out * 10 ^ (s - k))).
Proof.
  intros Hout Hsign Hk Hs Hfit Hdig. unfold rescale_parsed. rewrite pow10_at by lia. cbn [rbind].
  assert (0 <= p <= 38) as Hp by (destruct Hfit as [Hp _]; destruct t; lia).
  pose proof (scaled_abs sign out (s - k) Hsign ltac:(lia)) as Hscaled.
  destruct (out >=? 10 ^ 38) eqn:E.
  { rewrite too_large; [done|done|lia]. }
  assert (out < 10 ^ 38) as Hlt by lia. change (10 ^ 38) with 100000000000000000000000000000000000000 in E.
  rewrite ck128_in by (destruct Hsign as [-> | ->]; lia). cbn [rbind]. replace (k <? 0) with false by lia. cbn [rbind].
  replace (k - s >? 38) with false by lia. cbv zeta. rewrite (Z.mul_comm out).
  assert (rescaled (sign * out) k s = sign * out * 10 ^ (s - k)) as Hr
    by (unfold rescaled; by replace (s >=? k) with true by lia).
  rewrite rescaleWithRoundUp_ok; [by rewrite Hr|unfold int128; destruct Hsign as [-> | ->]; lia|lia|done|].
  rewrite Hr. intros Hnot. destruct Hdig as [|(Hdig & Hkd & Hod)]; [done|]. rewrite wrap_unsigned_id by lia.
  assert (digits <> 0) as Hd0.
  { intros ->. assert (out = 0) as -> by (change (10 ^ 0) with 1 in Hod; lia). apply Hnot.
    pose proof (Z.pow_pos_nonneg 10 p). lia. }
  split; [done|lia|lia|]. assert (Z.abs (sign * out) = out) as -> by (destruct Hsign as [-> | ->]; lia).
  destruct (Z.min_spec digits 38) as [[_ ->]|[_ ->]]; done.
Qed.

(** Digits that are not in the range where their sum wraps around. *)
Definition no_wrap (ds : list Z) : Prop := digits_value 0 ds < 2 ^ 127 \/ 2 * 10 ^ 38 < digits_value 0 ds.

(** From the digits that are kept to the decimal. *)
Lemma parse_finish format t w g e sign (roundUp : bool) digits k p s :
  all_digits w -> all_digits g -> Z.of_nat (length g) <= 38 -> sign = 1 \/ sign = -1 ->
  no_wrap (w ++ g) -> 0 <= k <= s -> s <= 38 -> fits_output t p ->
  (let out := digits_value 0 (w ++ g) + (if roundUp then 1 else 0) in
   in_range_or_printable p (sign * out * 10 ^ (s - k)) digits k out) ->
  (let! value := parseHugeInt (mkComponents w g e sign) in
   match value with
   | UserError => Ok UserError
   | OK out =>
       let up := if roundUp then out + 1 else out in
       if negb (in_int128 up) then Ok UserError else rescale_parsed format t up sign digits k p s
   end)
  = Ok (in_precision_or_error p
          (sign * (digits_value 0 (w ++ g) + (if roundUp then 1 else 0)) * 10 ^ (s - k))).
Proof.
  intros Hw Hg Hlen Hsign Hwrap Hk Hs Hfit Hdig. cbv zeta in Hdig.
  destruct (parseHugeInt_ok w g e sign Hw Hg Hlen) as [Hsmall Hlarge]. unfold no_wrap in Hwrap.
  assert (all_digits (w ++ g)) as Hwg by (by apply Forall_app).
  pose proof (digits_value_bound (w ++ g) Hwg) as [Hv0 _].
  set (v := digits_value 0 (w ++ g)) in *. set (b := if roundUp then 1 else 0) in *.
  assert (0 <= p <= 38) as Hp by (destruct Hfit as [Hp _]; destruct t; lia).
  assert (0 <= b <= 1) as Hb by (unfold b; destruct roundUp; lia).
  assert (forall out, (if roundUp then out + 1 else out) = out + b) as Hup by (intros; unfold b; destruct roundUp; lia).
  pose proof (scaled_abs sign (v + b) (s - k) Hsign ltac:(lia)) as Hscaled.
  destruct (decide (v <= INT128_MAX)) as [Hle|Hgt].
  - rewrite (Hsmall Hle). cbn [rbind]. cbv zeta. rewrite Hup.
    destruct (in_int128 (v + b)) eqn:Ein; cbn [negb].
    + apply in_int128_spec in Ein. rewrite rescale_parsed_ok; [done|lia|done|lia|done|done|done].
    + rewrite too_large; [done|done|]. apply not_true_iff_false in Ein. rewrite in_int128_spec in Ein.
      change (10 ^ 38) with 100000000000000000000000000000000000000. lia.
  - rewrite too_large by (done || (change (10 ^ 38) with 100000000000000000000000000000000000000; lia)).
    destruct (Hlarge ltac:(lia)) as [-> |[_ Hv]]; [done|lia].
Qed.

(** A rounded or kept fraction has no more digits than the text. *)
Lemma leading_zeros_value w : digits_value 0 w = digits_value 0 (drop_zeros w).
Proof.
  induction w as [|c w IH]; [done|]. cbn [drop_zeros]. destruct (c =? ch_0) eqn:E; [|done].
  apply Z.eqb_eq in E as ->. by rewrite digits_value_cons.
Qed.

Lemma drop_zeros_digits w : all_digits w -> all_digits (drop_zeros w).
Proof. induction 1 as [|c w Hc Hw IH]; [constructor|]. cbn [drop_zeros]. destruct (c =? ch_0); [done|by constructor]. Qed.

Lemma kept_digits_bound w f n (b : Z) :
  all_digits w -> all_digits f -> 0 <= b <= 1 -> (b = 1 -> (n < length f)%nat) ->
  digits_value 0 (w ++ take n f) + b < 10 ^ Z.of_nat (length f + length (drop_zeros w)).
Proof.
  intros Hw Hf Hb Hn. rewrite digits_value_join, leading_zeros_value.
  pose proof (digits_value_bound _ (drop_zeros_digits w Hw)) as HW.
  pose proof (digits_value_bound _ (Forall_take _ n f Hf)) as HF.
  set (W := digits_value 0 (drop_zeros w)) in *. set (F := digits_value 0 (take n f)) in *.
  rewrite Nat2Z.inj_add, Z.pow_add_r by lia. rewrite length_take in *.
  assert (0 < 10 ^ Z.of_nat (n `min` length f)) as Hp0 by apply pow10_pos.
  assert (10 ^ Z.of_nat (n `min` length f) <= 10 ^ Z.of_nat (length f)) as Hp by (apply Z.pow_le_mono_r; lia).
  set (P := 10 ^ Z.of_nat (length (drop_zeros w))) in *. set (Q := 10 ^ Z.of_nat (length f)) in *.
  set (R := 10 ^ Z.of_nat (n `min` length f)) in *.
  assert ((W + 1) * R <= P * Q) by nia. assert (F + b <= R) by lia.
  destruct (decide (b = 1)) as [Hb1|]; [|nia]. assert (R < Q) by (apply Z.pow_lt_mono_r; lia). nia.
Qed.

Lemma round_digits sign v d m :
  sign = 1 \/ sign = -1 -> 0 <= v -> 0 <= d < 10 ^ m -> 0 <= m ->
  round_div (sign * (v * 10 ^ m + d)) (10 ^ m) = sign * (v + (if 2 * d >=? 10 ^ m then 1 else 0)).
Proof.
  intros Hsign Hv Hd Hm. assert (0 < 10 ^ m) as Hpos by (apply Z.pow_pos_nonneg; lia).
  unfold round_div. rewrite (Z.sgn_pos (10 ^ m)), (Z.abs_eq (10 ^ m)), Z.mul_1_r, round_up by lia.
  assert (Z.abs (sign * (v * 10 ^ m + d)) = v * 10 ^ m + d) as -> by (destruct Hsign as [-> | ->]; nia).
  assert ((v * 10 ^ m + d) / 10 ^ m = v) as -> by (rewrite Z.div_add_l, Z.div_small by lia; lia).
  assert ((v * 10 ^ m + d) mod 10 ^ m = d) as -> by (rewrite Z.add_comm, Z.mod_add, Z.mod_small by lia; done).
  destruct (decide (v * 10 ^ m + d = 0)) as [E|Hne].
  - assert (v = 0 /\ d = 0) as [-> ->] by nia. rewrite Z.mul_0_r. cbn [Z.sgn Z.mul].
    replace (2 * 0 >=? 10 ^ m) with false by lia. lia.
  - assert (Z.sgn (sign * (v * 10 ^ m + d)) = sign) as ->; [|done].
    destruct Hsign as [-> | ->]; [rewrite Z.sgn_pos by nia|rewrite Z.sgn_neg by nia]; done.
Qed.

(** The number of digits of the text that count. *)
Definition few_digits (w f : list Z) : Prop := Z.of_nat (length f + length (drop_zeros w)) <= 255.

Lemma parsed_precision_ok w f e sign :
  few_digits w f -> parsed_precision (mkComponents w f e sign) = Z.of_nat (length f + length (drop_zeros w)).
Proof.
  unfold few_digits, parsed_precision. cbn [fractionalDigits wholeDigits]. intros Hl.
  rewrite <- Nat2Z.inj_add. apply wrap_signed_id; lia.
Qed.

(** A number without exponent is its value rounded to the scale. *)
Lemma toDecimalValue_plain format t text sign w (dot : bool) f p s :
  is_sign text sign -> all_digits w -> all_digits f -> (w <> [] \/ f <> []) -> (dot = false -> f = []) ->
  no_wrap (w ++ take (Z.to_nat s) f) -> few_digits w f -> 0 <= s <= 38 -> fits_output t p ->
  toDecimalValue format t (text ++ digits_text w dot f) p s
  = Ok (in_precision_or_error p (rescaled (sign * digits_value 0 (w ++ f)) (Z.of_nat (length f)) s)).
Proof.
  intros Hsign Hw Hf Hne Hdot Hwrap Hfew Hs Hfit. unfold toDecimalValue.
  pose proof (parse_components text sign w dot f [] Hsign Hw Hf Hne Hdot ltac:(by left)) as Hparse.
  rewrite app_nil_r in Hparse. rewrite Hparse. cbn [rbind]. unfold trim_fraction. cbn [fractionalDigits exponent wholeDigits dc_sign].
  rewrite parsed_precision_ok by done. unfold few_digits in Hfew.
  assert (sign = 1 \/ sign = -1) as Hone by (unfold is_sign in Hsign; lia).
  destruct (Z.of_nat (length f) >? s) eqn:E.
  - destruct (lookup_lt_is_Some_2 f (Z.to_nat s)) as [c Hc]; [lia|].
    unfold rounds_up. rewrite (at_index_ok f s c) by (done || lia). cbn [rbind].
    pose proof (take_drop_middle f (Z.to_nat s) c Hc) as Hsplit.
    pose proof (kept_digits_bound w f (Z.to_nat s) (if c >=? 53 then 1 else 0) Hw Hf
      ltac:(destruct (c >=? 53); lia) ltac:(lia)) as Hkept.
    set (g := take (Z.to_nat s) f) in *.
    set (ds := drop (S (Z.to_nat s)) f) in *. rewrite <- Hsplit in Hf. apply Forall_app in Hf as [Hg Hcds].
    apply Forall_cons in Hcds as [Hcd Hds].
    assert (Z.of_nat (length g) = s) as Hgl by (unfold g; rewrite length_take; lia).
    rewrite parse_finish; [|done|done|lia|done|done|lia|lia|done|right; split_and!; [lia|lia|lia|done]].
    f_equal. f_equal. rewrite <- Hsplit, app_assoc, (digits_value_join (w ++ g)).
    rewrite length_app, Nat2Z.inj_add, Hgl. unfold rescaled.
    assert (0 < Z.of_nat (length (c :: ds))) as Hpos by (cbn [length]; lia).
    replace (s >=? s + Z.of_nat (length (c :: ds))) with false by lia.
    replace (s + Z.of_nat (length (c :: ds)) - s) with (Z.of_nat (length (c :: ds))) by lia.
    rewrite round_digits; [|done|apply digits_value_bound, Forall_app; done|apply digits_value_bound; by apply Forall_cons|lia].
    rewrite first_digit_rounds by done. rewrite Z.sub_diag. change (10 ^ 0) with 1. lia.
  - pose proof (kept_digits_bound w f (Z.to_nat s) 0 Hw Hf ltac:(lia) ltac:(lia)) as Hkept.
    rewrite take_ge in Hwrap, Hkept by lia.
    etrans; [apply (parse_finish format t w f None sign false _ (Z.of_nat (length f)) p s);
      [done|done|lia|done|done|lia|lia|done|right; split_and!; [lia|lia|lia|done]]|].
    f_equal. f_equal. unfold rescaled. replace (s >=? Z.of_nat (length f)) with true by lia. lia.
Qed.

(** A number with an exponent that needs no rounding and has few enough digits. *)
Lemma toDecimalValue_exponent format t text sign w (dot : bool) f e ev p s :
  is_sign text sign -> all_digits w -> all_digits f -> (w <> [] \/ f <> []) -> (dot = false -> f = []) ->
  parse_exponent e = Ok (OK ev) -> Z.of_nat (length f) <= 38 ->
  no_wrap (w ++ f) -> 0 <= - ev + Z.of_nat (length f) <= s -> s <= 38 -> fits_output t p ->
  (let r := sign * digits_value 0 (w ++ f) * 10 ^ (s - (- ev + Z.of_nat (length f))) in
   - 10 ^ p < r < 10 ^ p -> toDecimalValue format t (text ++ digits_text w dot f ++ 69 :: e) p s = Ok (OK r)).
Proof.
  intros Hsign Hw Hf Hne Hdot He Hlen Hwrap Hk Hs Hfit r Hr. unfold toDecimalValue.
  rewrite (parse_components text sign w dot f (69 :: e)) by (done || right; by eexists).
  rewrite He. cbn [rbind]. unfold trim_fraction. cbn [fractionalDigits exponent wholeDigits dc_sign].
  replace (- ev + Z.of_nat (length f) >? s) with false by lia.
  assert (sign = 1 \/ sign = -1) as Hone by (unfold is_sign in Hsign; lia).
  etrans; [apply (parse_finish format t w f (Some ev) sign false _ (- ev + Z.of_nat (length f)) p s);
    [done|done|lia|done|done|lia|lia|done|left; by rewrite Z.add_0_r]|].
  rewrite Z.add_0_r. fold r. unfold in_precision_or_error. by rewrite decide_True.
Qed.

Lemma parse_exponent_decimal e : -100 < e < 0 -> parse_exponent (decimal e) = Ok (OK e).
Proof.
  intros He. rewrite decimal_sign. unfold sign_text. replace (e <? 0) with true by lia. cbn [app].
  pose proof (decimal_all_digits (Z.abs e) ltac:(lia)) as Hds.
  pose proof (decimal_nonempty (Z.abs e) ltac:(lia)) as Hne.
  assert (digits_value 0 (decimal (Z.abs e)) = Z.abs e) as Hv.
  { apply digits_value_decimal. change (10 ^ 40) with 10000000000000000000000000000000000000000. lia. }
  pose proof (to_int32_digits true (decimal (Z.abs e)) Hds Hne) as Hlaw. cbn in Hlaw. rewrite Hv in Hlaw.
  unfold parse_exponent. cbn [Z.eqb Pos.eqb orb andb length drop]. rewrite Hlaw.
  assert (existsb (fun c => negb (isdigit c)) (drop 0 (decimal (Z.abs e))) = false) as ->.
  { apply not_true_is_false. intros Hex. apply existsb_exists in Hex as (c & Hin & Hc).
    rewrite drop_0 in Hin. unfold all_digits in Hds. rewrite List.Forall_forall in Hds.
    by rewrite isdigit_true in Hc by (by apply Hds). }
  destruct (decimal (Z.abs e)) as [|c l] eqn:El; [done|]. cbn [length Nat.eqb].
  replace (in_int32 (- Z.abs e)) with true by (unfold in_int32; lia). do 2 f_equal. lia.
Qed.
End values.

(** * Round trip *)

Section roundtrip.
Context `{FollyToLaws} (build : DecimalStringFormat).

Definition sign_of (v : Z) : Z := if v <? 0 then -1 else 1.

Lemma sign_text_sign v : is_sign (sign_text v) (sign_of v).
Proof. unfold is_sign, sign_text, sign_of. destruct (v <? 0); [right; left|left]; done. Qed.

Lemma sign_abs v : sign_of v * Z.abs v = v.
Proof. unfold sign_of. destruct (v <? 0) eqn:?; lia. Qed.

Lemma drop_zeros_length w : (length (drop_zeros w) <= length w)%nat.
Proof. induction w as [|c w IH]; [done|]. cbn [drop_zeros]. destruct (c =? ch_0); cbn [length]; lia. Qed.

(** The result for the text of a decimal. *)
Lemma read_back t v p s : decimal_value t v p s -> in_precision_or_error p (sign_of v * Z.abs v) = OK v.
Proof. intros [_ _ _ Hv]. rewrite sign_abs. unfold in_precision_or_error. rewrite decide_True; [done|lia]. Qed.

Lemma decimal_value_fits t v p s : decimal_value t v p s -> fits_output t p /\ Z.abs v < 2 ^ 127.
Proof.
  intros Hd. pose proof (decimal_value_range _ _ _ _ Hd) as [Hm _]. destruct Hd as [Ht Hp _ _].
  split; [split; [lia|done]|]. destruct t; cbn in *; lia || done.
Qed.

(** Digits with a fraction of exactly the scale. *)
Lemma read_plain t v p s w (dot : bool) f :
  decimal_value t v p s -> all_digits w -> all_digits f -> (w <> [] \/ f <> []) -> (dot = false -> f = []) ->
  Z.of_nat (length f) = s -> Z.of_nat (length w) <= 200 -> digits_value 0 (w ++ f) = Z.abs v ->
  toDecimalValue build t (sign_text v ++ digits_text w dot f) p s = Ok (OK v).
Proof.
  intros Hd Hw Hf Hne Hdot Hlen Hlw Hv. destruct (decimal_value_fits _ _ _ _ Hd) as [Hfit Hmin].
  pose proof (dec_scale _ _ _ _ Hd) as Hs. pose proof (decimal_value_range _ _ _ _ Hd) as [_ Hp].
  rewrite (toDecimalValue_plain build t _ (sign_of v)); [|apply sign_text_sign|done..| | |lia|done].
  - rewrite Hv, Hlen. unfold rescaled. replace (s >=? s) with true by lia. rewrite Z.sub_diag, Z.mul_1_r.
    f_equal. by apply (read_back t v p s).
  - rewrite take_ge by lia. left. rewrite Hv. lia.
  - unfold few_digits. pose proof (drop_zeros_length w). lia.
Qed.

Lemma read_plain_text t v p s :
  decimal_value t v p s -> toDecimalValue build t (plain_text v s) p s = Ok (OK v).
Proof.
  intros Hd. destruct (whole_part _ _ _ _ Hd) as (Hw & Hf & Hpos). pose proof (dec_scale _ _ _ _ Hd) as Hs.
  pose proof (decimal_value_range _ _ _ _ Hd) as [Hm Hp].
  assert (all_digits (decimal (Z.abs v / 10 ^ s))) as Hwd by (apply decimal_all_digits; lia).
  assert (decimal (Z.abs v / 10 ^ s) <> []) as Hne by (apply decimal_nonempty; lia).
  assert (digits_value 0 (decimal (Z.abs v / 10 ^ s)) = Z.abs v / 10 ^ s) as Hwv.
  { apply digits_value_decimal. split; [lia|]. eapply Z.lt_le_trans; [apply Hw|]. apply Z.pow_le_mono_r; lia. }
  pose proof (whole_length _ _ _ _ Hd) as Hwl.
  unfold plain_text. destruct (s >? 0) eqn:E.
  - apply (read_plain t v p s _ true); [done|done|apply padded_all_digits|by left|done|rewrite padded_length; lia|lia|].
    rewrite digits_value_join, Hwv, padded_length, Z2Nat.id, digits_value_padded by (rewrite ?Z2Nat.id; lia).
    pose proof (Z.div_mod (Z.abs v) (10 ^ s) ltac:(lia)). lia.
  - assert (s = 0) as -> by lia. apply (read_plain t v p 0 _ false []); [done|done|constructor|by left|done|done|lia|].
    rewrite app_nil_r, Hwv. apply Z.div_1_r.
Qed.

(** The exponent form: one digit, the others after a dot, and the adjusted exponent. *)
Lemma read_exponent_form t v p s c tl :
  decimal_value t v p s -> decimal (Z.abs v) = c :: tl -> - s + Z.of_nat (length tl) < -6 ->
  toDecimalValue build t
    (sign_text v ++ digits_text [c] (Z.of_nat (length (c :: tl)) >? 1) tl
     ++ 69 :: decimal (- s + Z.of_nat (length tl))) p s
  = Ok (OK v).
Proof.
  intros Hd Hcoeff Ha. destruct (decimal_value_fits _ _ _ _ Hd) as [Hfit Hmin].
  pose proof (dec_scale _ _ _ _ Hd) as Hs. pose proof (decimal_value_range _ _ _ _ Hd) as [Hm Hp].
  pose proof (coefficient_length _ _ _ _ Hd) as Hl. rewrite Hcoeff in Hl. cbn [length] in Hl.
  pose proof (decimal_all_digits (Z.abs v) ltac:(lia)) as Hds. rewrite Hcoeff in Hds.
  apply Forall_cons in Hds as [Hc Htl].
  assert (digits_value 0 ([c] ++ tl) = Z.abs v) as Hv.
  { cbn [app]. rewrite <- Hcoeff. apply digits_value_decimal. split; [lia|].
    pose proof (dec_value _ _ _ _ Hd). eapply Z.lt_le_trans; [done|]. apply Z.pow_le_mono_r; lia. }
  pose proof (toDecimalValue_exponent build t (sign_text v) (sign_of v) [c] (Z.of_nat (length (c :: tl)) >? 1) tl
    (decimal (- s + Z.of_nat (length tl))) (- s + Z.of_nat (length tl)) p s) as Hread. cbv zeta in Hread.
  rewrite Hv in Hread. replace (s - _) with 0 in Hread by lia. rewrite Z.mul_1_r, sign_abs in Hread.
  apply Hread; [apply sign_text_sign|by apply Forall_singleton|done|by left| |apply parse_exponent_decimal; lia|lia|
    left; by rewrite Hv|lia|lia|done|pose proof (dec_value _ _ _ _ Hd); lia].
  rewrite Z.gtb_ltb, Z.ltb_ge. destruct tl; [done|]. cbn [length]. lia.
Qed.

Lemma read_spark_text t v p s :
  decimal_value t v p s -> toDecimalValue build t (spark_text v s) p s = Ok (OK v).
Proof.
  intros Hd. pose proof (dec_scale _ _ _ _ Hd) as Hs. pose proof (decimal_value_range _ _ _ _ Hd) as [Hm Hp].
  pose proof (coefficient_length _ _ _ _ Hd) as Hl.
  pose proof (decimal_all_digits (Z.abs v) ltac:(lia)) as Hds.
  pose proof (decimal_nonempty (Z.abs v) ltac:(lia)) as Hne.
  assert (digits_value 0 (decimal (Z.abs v)) = Z.abs v) as Hv.
  { apply digits_value_decimal. split; [lia|]. pose proof (dec_value _ _ _ _ Hd).
    eapply Z.lt_le_trans; [done|]. apply Z.pow_le_mono_r; lia. }
  unfold spark_text. destruct (s =? 0) eqn:E0.
  { apply Z.eqb_eq in E0 as ->. rewrite decimal_sign.
    replace (decimal (Z.abs v)) with (digits_text (decimal (Z.abs v)) false []) by apply app_nil_r.
    apply read_plain; [done|done|constructor|by left|done|done|lia|by rewrite app_nil_r]. }
  cbv zeta. set (coeff := decimal (Z.abs v)) in *. destruct (_ >=? -6) eqn:Ea; [destruct (_ >=? 0) eqn:Epad|].
  - apply (read_plain t v p s [ch_0] true); [done|by apply Forall_singleton| |by left|done| |cbn; lia|].
    + apply Forall_app. split; [|done]. apply Forall_forall. intros c Hc%list_elem_of_In%repeat_spec. lia.
    + rewrite length_app, repeat_length. lia.
    + rewrite digits_value_app, digits_value_app, digits_value_zeros, <- Hv. reflexivity.
  - change ([ch_dot] ++ ?l) with (ch_dot :: l).
    apply (read_plain t v p s _ true); [done|by apply Forall_take|by apply Forall_drop| |done| |rewrite length_take; lia|by rewrite take_drop].
    + left. intros E%(f_equal length). rewrite length_take in E. cbn in E. lia.
    + rewrite length_drop. lia.
  - destruct coeff as [|c tl] eqn:Ec; [done|]. cbn [take drop].
    replace (Z.of_nat (length (c :: tl)) - 1) with (Z.of_nat (length tl)) in * by (cbn [length]; lia).
    pose proof (read_exponent_form t v p s c tl Hd Ec ltac:(lia)) as Hread. unfold digits_text in Hread.
    rewrite <- !app_assoc in Hread. exact Hread.
Qed.
End roundtrip.

(** * Numbers without an exponent *)

(** A sign, digits, and perhaps a dot and more digits. *)
Definition number_text (s : list Z) (sign : Z) (w f : list Z) : Prop :=
  exists text (dot : bool), s = text ++ digits_text w dot f /\ is_sign text sign /\ all_digits w /\ all_digits f
    /\ (w <> [] \/ f <> []) /\ (dot = false -> f = []).

Lemma isdigit_digit c : isdigit c = true -> 48 <= c <= 57.
Proof. unfold isdigit. lia. Qed.

Lemma extractDigits_split s :
  all_digits (extractDigits s) /\ s = extractDigits s ++ drop (length (extractDigits s)) s
  /\ stops_digits (drop (length (extractDigits s)) s).
Proof.
  induction s as [|c s (IHd & IHs & IHp)]; [by split_and!; [constructor| |]|]. cbn [extractDigits].
  destruct (isdigit c) eqn:E; cbn [length drop app].
  - split_and!; [|by f_equal|done]. constructor; [by apply isdigit_digit|done].
  - by split_and!; [constructor| |].
Qed.

(** The text has no 'e' and no 'E'. *)
Definition no_exponent (s : list Z) : Prop := Forall (fun c => c <> 101 /\ c <> 69) s.

Section numbers.
Context `{FollyTo}.

(** What is after the sign of an accepted text without exponent. *)
Lemma after_sign_sound sign rest r :
  no_exponent rest ->
  parse_unsigned sign rest = r ->
  r = Ok UserError
  \/ exists w f (dot : bool), r = Ok (OK (mkComponents w f None sign)) /\ rest = digits_text w dot f
     /\ all_digits w /\ all_digits f /\ (w <> [] \/ f <> []) /\ (dot = false -> f = []).
Proof.
  intros Hno. unfold parse_unsigned. cbv zeta. destruct (extractDigits_split rest) as (Hw & Hrest & _).
  set (w := extractDigits rest) in *. remember (drop (length w) rest) as post eqn:Epost. clear Epost.
  assert (no_exponent post) as Hpost by (rewrite Hrest in Hno; by apply Forall_app in Hno as [_ ?]).
  destruct post as [|d after].
  { intros <-. destruct (bool_decide_reflect (w = [])) as [|Hne]; [by left|]. right.
    exists w, [], false. split_and!; [done|done|done|constructor|by left|done]. }
  apply Forall_cons in Hpost as [Hd Hafter]. destruct (d =? ch_dot) eqn:Ed.
  - apply Z.eqb_eq in Ed as ->. destruct (extractDigits_split after) as (Hf & Hsplit & _).
    set (f := extractDigits after) in *. remember (drop (length f) after) as post eqn:Epost. clear Epost.
    assert (no_exponent post) as Hp2 by (rewrite Hsplit in Hafter; by apply Forall_app in Hafter as [_ ?]).
    intros <-. destruct (bool_decide (w = []) && bool_decide (f = [])) eqn:Eb; [by left|].
    destruct post as [|e post].
    + right. exists w, f, true. rewrite app_nil_r in Hsplit. split_and!; [done|unfold digits_text; congruence|done|done| |done].
      apply andb_false_iff in Eb as [Eb%bool_decide_eq_false|Eb%bool_decide_eq_false]; [by left|by right].
    + left. apply Forall_cons in Hp2 as [He _]. by replace ((e =? 101) || (e =? 69)) with false by lia.
  - intros <-. left. destruct (_ && _); [done|]. by replace ((d =? 101) || (d =? 69)) with false by lia.
Qed.

Lemma parse_sound s r :
  no_exponent s -> parseDecimalComponents s = r ->
  r = Ok UserError
  \/ exists w f sign, r = Ok (OK (mkComponents w f None sign)) /\ number_text s sign w f.
Proof.
  intros Hno Hr. destruct s as [|c tail]; [by left|]. unfold parseDecimalComponents in Hr.
  pose proof Hno as [Hc Htail]%Forall_cons. destruct (c =? ch_minus) eqn:Em; [|destruct (c =? ch_plus) eqn:Ep].
  - apply Z.eqb_eq in Em as ->. destruct (after_sign_sound _ _ _ Htail Hr) as [|(w & f & dot & ? & -> & ?)]; [by left|].
    right. exists w, f, (-1). split; [done|]. exists [ch_minus], dot. split; [done|]. split; [by right; left|done].
  - apply Z.eqb_eq in Ep as ->. destruct (after_sign_sound _ _ _ Htail Hr) as [|(w & f & dot & ? & -> & ?)]; [by left|].
    right. exists w, f, 1. split; [done|]. exists [ch_plus], dot. split; [done|]. split; [by right; right|done].
  - destruct (after_sign_sound _ _ _ Hno Hr) as [|(w & f & dot & ? & E & ?)]; [by left|].
    right. exists w, f, 1. split; [done|]. exists [], dot. split; [done|]. split; [by left|done].
Qed.
End numbers.

(** * A conversion that satisfies the laws *)

Definition digits_tryTo (ds : list Z) : option Z :=
  if bool_decide (ds = []) then None
  else if forallb isdigit ds && (digits_value 0 ds <=? INT128_MAX) then Some (digits_value 0 ds) else None.

Definition digits_to32 (s : list Z) : option Z :=
  let '(negative, ds) := match s with c :: l => if c =? ch_minus then (true, l) else (false, s) | [] => (false, []) end in
  let v := if negative : bool then - digits_value 0 ds else digits_value 0 ds in
  if bool_decide (ds = []) then None else if forallb isdigit ds && in_int32 v then Some v else None.

#[local] Instance digits_FollyTo : FollyTo := {| tryTo_int128 := digits_tryTo; to_int32 := digits_to32 |}.

Lemma forallb_isdigit ds : all_digits ds -> forallb isdigit ds = true.
Proof. intros Hds. apply forallb_forall. unfold all_digits in Hds. rewrite List.Forall_forall in Hds. eauto using isdigit_true. Qed.

#[local] Instance digits_FollyToLaws : FollyToLaws.
Proof.
  split.
  - intros ds Hds Hne. cbn. unfold digits_tryTo. by rewrite bool_decide_false, forallb_isdigit by done.
  - intros negative ds Hds Hne. cbv zeta. cbn [to_int32 digits_FollyTo]. unfold digits_to32. destruct negative.
    + rewrite Z.eqb_refl, bool_decide_false, forallb_isdigit by done. done.
    + destruct ds as [|c l]; [done|]. pose proof Hds as [Hc _]%Forall_cons.
      replace (c =? ch_minus) with false by lia. by rewrite bool_decide_false, forallb_isdigit by done.
  - done.
Qed.

(** * Theorems *)

(** C35. Text of decimals, in the plain format and in the one of Spark: the text of a value of
    DECIMAL(p, s) fits into the [stringSize] bytes that are reserved for it, no write of the printer is
    outside of them, and the parser of either build reads the value back from the text, to the same type. *)
Theorem decimal_text_roundtrip `{FollyToLaws} format build t v p s buf :
  decimal_value t v p s -> Z.of_nat (length buf) = stringSize p s ->
  exists memory size, convertToString format t v s (stringSize p s) buf = Ok (memory, size)
    /\ 0 < size <= stringSize p s /\ Z.of_nat (length memory) = stringSize p s
    /\ take (Z.to_nat size) memory = text_of format v s
    /\ toDecimalValue build t (take (Z.to_nat size) memory) p s = Ok (OK v).
Proof.
  intros Hd Hbuf. destruct (convertToString_ok format t v p s buf Hd Hbuf) as (m & Hm & (rest & -> & Hl)).
  assert (toDecimalValue build t (text_of format v s) p s = Ok (OK v)) as Hread
    by (destruct format; [by apply read_plain_text|by apply read_spark_text]).
  exists (text_of format v s ++ rest), (Z.of_nat (length (text_of format v s))).
  rewrite Nat2Z.id, take_app_length. split_and!; [done| | |done|done|done].
  - destruct (text_of format v s); [done|cbn [length]; lia].
  - rewrite length_app in Hl. lia.
Qed.

Lemma decimal_text_roundtrip_witness :
  exists memory size,
    convertToString kSpark Int64 (-12345) 10 (stringSize 12 10) (repeat 0 18) = Ok (memory, size)
    /\ 0 < size <= stringSize 12 10 /\ Z.of_nat (length memory) = stringSize 12 10
    /\ take (Z.to_nat size) memory = text_of kSpark (-12345) 10
    /\ toDecimalValue kPlain Int64 (take (Z.to_nat size) memory) 12 10 = Ok (OK (-12345)).
Proof.
  apply (decimal_text_roundtrip kSpark kPlain Int64 (-12345) 12 10 (repeat 0 18)); [|reflexivity].
  split; [discriminate|lia|lia|reflexivity].
Defined.

(** C36. The parser on a text without exponent and every DECIMAL(p, scale): a text that is a sign, digits
    and perhaps a dot and digits gives the number rounded half away from zero to the scale, or the error
    status when that has more than p digits; every other text gives the error status.  The number is to have
    at most 255 digits, and the digits that are kept are not in the range in which their sum wraps around. *)
Theorem decimal_parse `{FollyToLaws} build t text p scale :
  no_exponent text -> 0 <= scale <= 38 -> fits_output t p ->
  (forall sign w f, number_text text sign w f -> few_digits w f -> no_wrap (w ++ take (Z.to_nat scale) f) ->
     toDecimalValue build t text p scale
     = Ok (in_precision_or_error p (rescaled (sign * digits_value 0 (w ++ f)) (Z.of_nat (length f)) scale)))
  /\ ((forall sign w f, ~ number_text text sign w f) -> toDecimalValue build t text p scale = Ok UserError).
Proof.
  intros Hno Hs Hfit. split.
  - intros sign w f (txt & dot & -> & Hsign & Hw & Hf & Hne & Hdot) Hfew Hwrap. by apply toDecimalValue_plain.
  - intros Hnot. destruct (parse_sound text _ Hno eq_refl) as [E|(w & f & sign & _ & Hn)].
    + unfold toDecimalValue. by rewrite E.
    + by apply Hnot in Hn.
Qed.

Lemma number_text_chars s sign w f c : number_text s sign w f -> c ∈ s -> 43 <= c <= 57.
Proof.
  intros (text & dot & -> & Hsign & Hw & Hf & _) Hc. unfold all_digits in *. rewrite Forall_forall in Hw, Hf.
  unfold digits_text in Hc. rewrite !elem_of_app in Hc. destruct Hc as [Hc|[Hc|Hc]].
  - destruct Hsign as [[-> _]|[[-> _]|[-> _]]]; [by apply elem_of_nil in Hc|apply list_elem_of_singleton in Hc as ->; done..].
  - specialize (Hw c Hc). cbn beta in Hw. lia.
  - destruct dot; [|by apply elem_of_nil in Hc]. apply elem_of_cons in Hc as [-> |Hc]; [done|]. specialize (Hf c Hc). cbn beta in Hf. lia.
Qed.

(** "12.345" to DECIMAL(4, 2), and "12x". *)
Lemma decimal_parse_witness :
  toDecimalValue kPlain Int64 [49; 50; 46; 51; 52; 53] 4 2 = Ok (OK 1235)
  /\ toDecimalValue kPlain Int64 [49; 50; 120] 4 2 = Ok UserError.
Proof.
  assert (fits_output Int64 4) as Hfit by (split; [lia|discriminate]).
  split.
  - destruct (decimal_parse kPlain Int64 [49; 50; 46; 51; 52; 53] 4 2) as [Hnumber _].
    + repeat apply Forall_cons_2; try (split; discriminate). apply Forall_nil_2.
    + lia.
    + exact Hfit.
    + rewrite (Hnumber 1 [49; 50] [51; 52; 53]); [reflexivity| |discriminate|by left].
      exists [], true. split_and!; [done|by left| | |by left|done]; repeat apply Forall_cons_2; try lia; apply Forall_nil_2.
  - apply (decimal_parse kPlain Int64 [49; 50; 120] 4 2).
    + repeat apply Forall_cons_2; try (split; discriminate). apply Forall_nil_2.
    + lia.
    + exact Hfit.
    + intros sign w f Hn. pose proof (number_text_chars _ _ _ _ 120 Hn ltac:(set_solver)). lia.
Defined.

(** ** Where the parser differs from the number *)

(** The rounding of the fraction and the one of the digits are both applied: 1.45 becomes 2 at scale 0. *)
Lemma parse_rounds_twice build : toDecimalValue build Int64 [49; 52; 46; 53; 101; 45; 49] 10 0 = Ok (OK 2).
Proof. vm_compute. reflexivity. Qed.

(** A fraction of 256 digits with an exponent: the power of ten is the one of 0 digits. *)
Lemma parse_fraction_wraps build :
  toDecimalValue build Int64 ([49; 46] ++ repeat 48 255 ++ [49; 101; 50; 53; 54]) 10 0 = Ok (OK 2).
Proof. vm_compute. reflexivity. Qed.

(** An exponent without digits throws. *)
Lemma parse_empty_exponent build : toDecimalValue build Int64 [49; 101] 10 0 = Err UserFail.
Proof. vm_compute. reflexivity. Qed.

(** -17014118346046923173168730371588410572.8: the digits wrap to the least value, whose negation overflows. *)
Lemma parse_negates_minimum build :
  toDecimalValue build Int128 ([ch_minus] ++ decimal 17014118346046923173168730371588410572 ++ [46; 56]) 38 1
  = Err SignedOverflow.
Proof. vm_compute. reflexivity. Qed.

(** 1000 with 252 zeros after the dot is too large for DECIMAL(3, 0): the number of its digits is taken
    modulo 256 for the text of the error, and DECIMAL(0, 0) throws. *)
Lemma parse_precision_wraps build :
  toDecimalValue build Int64 ([49; 48; 48; 48; 46] ++ repeat 48 252) 3 0 = Err CheckFailed.
Proof. destruct build; vm_compute; reflexivity. Qed.

(** "1e10" is too large for DECIMAL(5, 3): the number with its three zeros is longer than the text for which
    memory is reserved, and the text of the error is written past its end. *)
Lemma parse_error_overruns build : toDecimalValue build Int64 [49; 101; 49; 48] 5 3 = Err BadAccess.
Proof. destruct build; vm_compute; reflexivity. Qed.
