(* ===== verification/StringIds.v ===== *)
(** Ids of strings and the leases that keep them (bolt/common/caching/StringIdMap.h and
    StringIdMap.cpp), as calls on one map and a store of lease objects. *)

From S2P Require Import Prelude.

(** * The map *)

Definition kNoId : Z := 2 ^ 64 - 1.

Record Entry : Type := mkEntry {
  entry_string : list Z;
  entry_id : Z;
  numInUse : Z
}.

(** The hash maps of folly are only searched, never traversed. *)
Record StringIdMap : Type := mkStringIdMap {
  stringToId_ : gmap (list Z) Z;
  idToString_ : gmap Z Entry;
  lastId_ : Z;
  pinnedSize_ : Z
}.

Definition make_StringIdMap : StringIdMap := mkStringIdMap ∅ ∅ 0 0.

Definition id (m : StringIdMap) (string : list Z) : Z :=
  match stringToId_ m !! string with
  | Some i => i
  | None => kNoId
  end.

Definition string (m : StringIdMap) (id : Z) : list Z :=
  match idToString_ m !! id with
  | Some e => entry_string e
  | None => []
  end.

Definition with_uses (e : Entry) (n : Z) : Entry := mkEntry (entry_string e) (entry_id e) n.

Definition size (s : list Z) : Z := Z.of_nat (length s).

(** The erase of an iterator at the end would be undefined. *)
Definition release (m : StringIdMap) (id : Z) : result StringIdMap :=
  match idToString_ m !! id with
  | None => Ok m
  | Some e =>
      check! 0 <? numInUse e in
      let n := numInUse e - 1 in
      if n =? 0 then
        match stringToId_ m !! entry_string e with
        | None => Err BadAccess
        | Some _ =>
            Ok (mkStringIdMap (delete (entry_string e) (stringToId_ m)) (delete id (idToString_ m)) (lastId_ m)
                  (wrap_unsigned 64 (pinnedSize_ m - size (entry_string e))))
        end
      else Ok (mkStringIdMap (stringToId_ m) (<[id := with_uses e n]> (idToString_ m)) (lastId_ m) (pinnedSize_ m))
  end.

Definition addReference (m : StringIdMap) (id : Z) : result StringIdMap :=
  match idToString_ m !! id with
  | None => Err CheckFailed
  | Some e =>
      Ok (mkStringIdMap (stringToId_ m) (<[id := with_uses e (wrap_unsigned 32 (numInUse e + 1))]> (idToString_ m))
            (lastId_ m) (pinnedSize_ m))
  end.

(** [do { entry.id = ++lastId_; } while (idToString_.find(entry.id) != idToString_.end())] *)
Fixpoint next_id (fuel : nat) (ids : gmap Z Entry) (lastId : Z) : result Z :=
  match fuel with
  | O => Err OutOfFuel
  | S fuel =>
      let lastId := wrap_unsigned 64 (lastId + 1) in
      match ids !! lastId with
      | Some _ => next_id fuel ids lastId
      | None => Ok lastId
      end
  end.

Definition makeId (m : StringIdMap) (string : list Z) : result (StringIdMap * Z) :=
  match stringToId_ m !! string with
  | Some i =>
      match idToString_ m !! i with
      | None => Err CheckFailed
      | Some e =>
          let n := wrap_unsigned 32 (numInUse e + 1) in
          let pinned := if n =? 1 then wrap_unsigned 64 (pinnedSize_ m + size (entry_string e)) else pinnedSize_ m in
          Ok (mkStringIdMap (stringToId_ m) (<[i := with_uses e n]> (idToString_ m)) (lastId_ m) pinned, i)
      end
  | None =>
      let! i := next_id (S (base.size (idToString_ m))) (idToString_ m) (lastId_ m) in
      Ok (mkStringIdMap (<[string := i]> (stringToId_ m)) (<[i := mkEntry string i 1]> (idToString_ m)) i
            (wrap_unsigned 64 (pinnedSize_ m + size string)), i)
  end.

(** * The leases *)

(** [ids_] is null or the map. *)
Record StringIdLease : Type := mkLease {
  ids_ : bool;
  id_ : Z
}.

#[export] Instance StringIdLease_eq_dec : EqDecision StringIdLease.
Proof. solve_decision. Defined.

Definition no_lease : StringIdLease := mkLease false kNoId.

Definition hasValue (l : StringIdLease) : bool := negb (id_ l =? kNoId).

(** The map and the lease objects of the program by their places. *)
Definition store : Type := StringIdMap * gmap Z StringIdLease.

Definition lease_at (s : store) (place : Z) : result StringIdLease :=
  match snd s !! place with
  | Some l => Ok l
  | None => Err BadAccess
  end.

Definition put_lease (s : store) (place : Z) (l : StringIdLease) : store := (fst s, <[place := l]> (snd s)).

Definition lease_of_string (s : store) (this : Z) (string : list Z) : result store :=
  let! r := makeId (fst s) string in
  Ok (put_lease (fst r, snd s) this (mkLease true (snd r))).

Definition lease_of_id (s : store) (this id : Z) : result store :=
  let! m := addReference (fst s) id in
  Ok (put_lease (m, snd s) this (mkLease true id)).

Definition copy_lease (s : store) (this other : Z) : result store :=
  let! l := lease_at s other in
  let! m := if ids_ l && negb (id_ l =? kNoId) then addReference (fst s) (id_ l) else Ok (fst s) in
  Ok (put_lease (m, snd s) this l).

Definition move_lease (s : store) (this other : Z) : result store :=
  let! l := lease_at s other in
  Ok (put_lease (put_lease s this l) other no_lease).

Definition clear (s : store) (this : Z) : result store :=
  let! l := lease_at s this in
  if ids_ l then
    let! m := release (fst s) (id_ l) in
    Ok (put_lease (m, snd s) this no_lease)
  else Ok s.

Definition move_assign (s : store) (this other : Z) : result store :=
  let! s := clear s this in
  let! l := lease_at s other in
  Ok (put_lease (put_lease s this l) other no_lease).

Definition copy_assign (s : store) (this other : Z) : result store :=
  let! s := clear s this in
  let! l := lease_at s other in
  let! m := if ids_ l && negb (id_ l =? kNoId) then addReference (fst s) (id_ l) else Ok (fst s) in
  Ok (put_lease (m, snd s) this l).

Definition destroy_lease (s : store) (this : Z) : result store :=
  let! s := clear s this in
  Ok (fst s, delete this (snd s)).

(** ** The calls of a program *)

Inductive call : Type :=
  | Default (this : Z)
  | OfString (this : Z) (string : list Z)
  | OfId (this other : Z)       (* StringIdLease(ids, other.id()) *)
  | Copy (this other : Z)
  | Move (this other : Z)
  | Assign (this other : Z)
  | MoveAssign (this other : Z)
  | Clear (this : Z)
  | Destroy (this : Z).

Definition step (s : store) (c : call) : result store :=
  match c with
  | Default this => Ok (put_lease s this no_lease)
  | OfString this string => lease_of_string s this string
  | OfId this other => let! l := lease_at s other in lease_of_id s this (id_ l)
  | Copy this other => copy_lease s this other
  | Move this other => move_lease s this other
  | Assign this other => copy_assign s this other
  | MoveAssign this other => move_assign s this other
  | Clear this => clear s this
  | Destroy this => destroy_lease s this
  end.

Fixpoint run (s : store) (calls : list call) : result store :=
  match calls with
  | [] => Ok s
  | c :: calls =>
      let! s := step s c in
      run s calls
  end.

(** * Specification: which lease holds which string *)

Abbreviation leases := (gmap Z (option (list Z))).

(** A call is permitted on objects that exist, and constructs at places that are free; an assignment is
    not to itself. *)
Definition spec_step (a : leases) (c : call) : option leases :=
  match c with
  | Default this => match a !! this with None => Some (<[this := None]> a) | Some _ => None end
  | OfString this string => match a !! this with None => Some (<[this := Some string]> a) | Some _ => None end
  | OfId this other =>
      match a !! this, a !! other with
      | None, Some (Some string) => Some (<[this := Some string]> a)
      | _, _ => None
      end
  | Copy this other =>
      match a !! this, a !! other with
      | None, Some v => Some (<[this := v]> a)
      | _, _ => None
      end
  | Move this other =>
      match a !! this, a !! other with
      | None, Some v => Some (<[other := None]> (<[this := v]> a))
      | _, _ => None
      end
  | Assign this other =>
      match a !! this, a !! other with
      | Some _, Some v => if this =? other then None else Some (<[this := v]> a)
      | _, _ => None
      end
  | MoveAssign this other =>
      match a !! this, a !! other with
      | Some _, Some v => if this =? other then None else Some (<[other := None]> (<[this := v]> a))
      | _, _ => None
      end
  | Clear this => match a !! this with Some _ => Some (<[this := None]> a) | None => None end
  | Destroy this => match a !! this with Some _ => Some (delete this a) | None => None end
  end.

Fixpoint spec_run (a : leases) (calls : list call) : option leases :=
  match calls with
  | [] => Some a
  | c :: calls =>
      match spec_step a c with
      | Some a => spec_run a calls
      | None => None
      end
  end.

(** * Counting *)

(** One if the lease is of the id. *)
Definition counts (l : StringIdLease) (i : Z) : Z := if decide (l = mkLease true i) then 1 else 0.

(** The number of leases of an id. *)
Definition uses (slots : gmap Z StringIdLease) (i : Z) : Z :=
  Z.of_nat (base.size (filter (fun kl => kl.2 = mkLease true i) slots)).

Lemma uses_bounds slots i : 0 <= uses slots i <= Z.of_nat (base.size slots).
Proof.
  unfold uses. split; [lia|]. apply inj_le, map_subseteq_size, map_filter_subseteq.
Qed.

Lemma uses_insert slots k l i : slots !! k = None -> uses (<[k := l]> slots) i = uses slots i + counts l i.
Proof.
  intros Hk. unfold uses, counts. destruct (decide (l = mkLease true i)) as [->|Hne].
  - rewrite map_filter_insert_True by done. rewrite map_size_insert_None; [lia|].
    apply map_lookup_filter_None. by left.
  - rewrite map_filter_insert_not' by (done || intros y; by rewrite Hk). lia.
Qed.

Lemma uses_delete slots k l i : slots !! k = Some l -> uses (delete k slots) i = uses slots i - counts l i.
Proof.
  intros Hk. rewrite <- (insert_delete_id slots k l Hk) at 2.
  rewrite uses_insert by apply lookup_delete_eq. lia.
Qed.

Lemma uses_update slots k l0 l i :
  slots !! k = Some l0 -> uses (<[k := l]> slots) i = uses slots i - counts l0 i + counts l i.
Proof.
  intros Hk. rewrite <- insert_delete_eq, uses_insert by apply lookup_delete_eq. by rewrite (uses_delete _ _ l0).
Qed.

Lemma counts_no_lease i : counts no_lease i = 0.
Proof. done. Qed.

Lemma counts_lease j i : counts (mkLease true j) i = if decide (i = j) then 1 else 0.
Proof. unfold counts. destruct (decide (i = j)) as [->|]; [by rewrite decide_True|]. rewrite decide_False; [done|congruence]. Qed.

(** The lengths of the strings of all entries. *)
Definition total_size (ids : gmap Z Entry) : Z := map_fold (fun _ e acc => size (entry_string e) + acc) 0 ids.

Lemma total_size_insert ids i e : ids !! i = None -> total_size (<[i := e]> ids) = total_size ids + size (entry_string e).
Proof. intros Hi. unfold total_size. rewrite map_fold_insert_L; [lia|intros; lia|done]. Qed.

Lemma total_size_delete ids i e : ids !! i = Some e -> total_size (delete i ids) = total_size ids - size (entry_string e).
Proof.
  intros Hi. rewrite <- (insert_delete_id ids i e Hi) at 2. rewrite total_size_insert by apply lookup_delete_eq. lia.
Qed.

Lemma total_size_update ids i e n : ids !! i = Some e -> total_size (<[i := with_uses e n]> ids) = total_size ids.
Proof.
  intros Hi. rewrite <- insert_delete_eq, total_size_insert, (total_size_delete _ _ e) by (done || apply lookup_delete_eq).
  cbn. lia.
Qed.

(** * The invariant of the map *)

Definition name (m : StringIdMap) (i : Z) : option (list Z) := entry_string <$> idToString_ m !! i.

(** The map, where the id [i] is leased [u i] times and [n] calls have been made. *)
Record map_inv (m : StringIdMap) (u : Z -> Z) (n : Z) : Prop := {
  mi_entry i e : idToString_ m !! i = Some e ->
    entry_id e = i /\ numInUse e = u i /\ 0 < u i /\ stringToId_ m !! entry_string e = Some i /\ 1 <= i <= lastId_ m;
  mi_none i : idToString_ m !! i = None -> u i = 0;
  mi_string t i : stringToId_ m !! t = Some i -> name m i = Some t;
  mi_last : 0 <= lastId_ m <= n;
  mi_pinned : pinnedSize_ m = wrap_unsigned 64 (total_size (idToString_ m))
}.

Lemma map_inv_ext m u u' n n' : map_inv m u n -> (forall i, u i = u' i) -> n <= n' -> map_inv m u' n'.
Proof.
  intros [He Hn Hs Hl Hp] Hu Hle. split; [|intros i; rewrite <- Hu; auto|done|lia|done].
  intros i e. rewrite <- Hu. apply He.
Qed.

(** Leased ids keep their strings. *)
Definition keeps (m m' : StringIdMap) (u' : Z -> Z) : Prop := forall i, 0 < u' i -> name m i <> None -> name m' i = name m i.

Lemma name_insert ids strings i e last pinned j :
  name (mkStringIdMap strings (<[i := e]> ids) last pinned) j
  = if decide (j = i) then Some (entry_string e) else entry_string <$> ids !! j.
Proof. unfold name. cbn. destruct (decide (j = i)) as [->|]; [by rewrite lookup_insert_eq|by rewrite lookup_insert_ne]. Qed.

Definition bump (u : Z -> Z) (i d : Z) : Z -> Z := fun j => u j + (if decide (j = i) then d else 0).

Lemma leased_entry m u n i : map_inv m u n -> 0 < u i -> exists e, idToString_ m !! i = Some e.
Proof. intros Hm Hu. destruct (idToString_ m !! i) eqn:E; [by eexists|]. apply (mi_none _ _ _ Hm) in E. lia. Qed.

(** A change of the count alone. *)
Lemma map_inv_recount m u n i e d :
  map_inv m u n -> idToString_ m !! i = Some e -> 0 < u i + d ->
  map_inv (mkStringIdMap (stringToId_ m) (<[i := with_uses e (u i + d)]> (idToString_ m)) (lastId_ m) (pinnedSize_ m))
    (bump u i d) n
  /\ keeps m (mkStringIdMap (stringToId_ m) (<[i := with_uses e (u i + d)]> (idToString_ m)) (lastId_ m) (pinnedSize_ m))
       (bump u i d).
Proof.
  intros Hm Hi Hpos. pose proof (mi_entry _ _ _ Hm i e Hi) as (Heid & Huse & _ & Hstr & Hrange). split.
  - split; cbn; unfold bump.
    + intros j ej. destruct (decide (j = i)) as [->|Hne].
      * rewrite lookup_insert_eq. intros [= <-]. cbn. by split_and!; try lia.
      * rewrite lookup_insert_ne by done. intros Hj. rewrite Z.add_0_r. by apply (mi_entry _ _ _ Hm).
    + intros j. destruct (decide (j = i)) as [->|Hne]; [by rewrite lookup_insert_eq|].
      rewrite lookup_insert_ne by done. intros Hj%(mi_none _ _ _ Hm). lia.
    + intros t j Hj. apply (mi_string _ _ _ Hm) in Hj. rewrite name_insert. unfold name in Hj.
      destruct (decide (j = i)) as [->|]; [|done]. rewrite Hi in Hj. done.
    + apply (mi_last _ _ _ Hm).
    + rewrite total_size_update by done. apply (mi_pinned _ _ _ Hm).
  - intros j _ _. rewrite name_insert. unfold name. destruct (decide (j = i)) as [->|]; [by rewrite Hi|done].
Qed.

Lemma addReference_ok m u n i :
  map_inv m u n -> 0 < u i -> u i + 1 < 2 ^ 32 ->
  exists m', addReference m i = Ok m' /\ map_inv m' (bump u i 1) n /\ keeps m m' (bump u i 1).
Proof.
  intros Hm Hpos Hlt. destruct (leased_entry _ _ _ _ Hm Hpos) as [e He]. unfold addReference. rewrite He.
  pose proof (mi_entry _ _ _ Hm i e He) as (_ & -> & _). rewrite wrap_unsigned_id by lia.
  eexists. split; [done|]. apply map_inv_recount; [done|done|lia].
Qed.

(** The last lease of an id is given up. *)
Lemma map_inv_erase m u n i e :
  map_inv m u n -> idToString_ m !! i = Some e -> u i = 1 ->
  let m' := mkStringIdMap (delete (entry_string e) (stringToId_ m)) (delete i (idToString_ m)) (lastId_ m)
              (wrap_unsigned 64 (pinnedSize_ m - size (entry_string e))) in
  map_inv m' (bump u i (-1)) n /\ keeps m m' (bump u i (-1)).
Proof.
  intros Hm Hi Hone. cbv zeta. pose proof (mi_entry _ _ _ Hm i e Hi) as (Heid & Huse & _ & Hstr & Hrange). split.
  - split; cbn; unfold bump.
    + intros j ej Hj. apply lookup_delete_Some in Hj as [Hne Hj]. rewrite decide_False, Z.add_0_r by done.
      pose proof (mi_entry _ _ _ Hm j ej Hj) as (? & ? & ? & Hs & ?). split_and!; try done; try lia.
      rewrite lookup_delete_ne; [done|]. intros E. rewrite E in Hstr. congruence.
    + intros j Hj. destruct (decide (j = i)) as [->|Hne]; [lia|].
      rewrite lookup_delete_ne in Hj by done. apply (mi_none _ _ _ Hm) in Hj. lia.
    + intros t j Hj. apply lookup_delete_Some in Hj as [Hne Hj]. apply (mi_string _ _ _ Hm) in Hj. unfold name in *. cbn.
      rewrite lookup_delete_ne; [done|]. intros ->. rewrite Hi in Hj. cbn in Hj. congruence.
    + apply (mi_last _ _ _ Hm).
    + rewrite (total_size_delete _ _ e) by done. rewrite (mi_pinned _ _ _ Hm). unfold wrap_unsigned.
      by rewrite Zminus_mod_idemp_l.
  - intros j Hj _. unfold bump in Hj. unfold name. cbn. rewrite lookup_delete_ne; [done|]. intros ->.
    rewrite decide_True in Hj by done. lia.
Qed.

Lemma release_ok m u n i :
  map_inv m u n -> 0 < u i ->
  exists m', release m i = Ok m' /\ map_inv m' (bump u i (-1)) n /\ keeps m m' (bump u i (-1)).
Proof.
  intros Hm Hpos. destruct (leased_entry _ _ _ _ Hm Hpos) as [e He]. unfold release. rewrite He.
  pose proof (mi_entry _ _ _ Hm i e He) as (_ & Hu & _ & Hs & _). rewrite Hu.
  replace (0 <? u i) with true by lia. cbn [check rbind]. cbv zeta. destruct (u i - 1 =? 0) eqn:E.
  - rewrite Hs. eexists. split; [done|]. apply Z.eqb_eq in E. apply map_inv_erase; [done|done|lia].
  - apply Z.eqb_neq in E. eexists. split; [done|]. apply (map_inv_recount _ _ _ _ _ (-1)); [done|done|lia].
Qed.

(** ** New ids *)

(** All ids are at most [lastId_]: the next number is free. *)
Lemma next_id_fresh m u n fuel :
  map_inv m u n -> n < 2 ^ 64 - 1 -> next_id (S fuel) (idToString_ m) (lastId_ m) = Ok (lastId_ m + 1)
    /\ idToString_ m !! (lastId_ m + 1) = None.
Proof.
  intros Hm Hn. pose proof (mi_last _ _ _ Hm) as Hl. cbn [next_id]. cbv zeta. rewrite wrap_unsigned_id by lia.
  destruct (idToString_ m !! (lastId_ m + 1)) as [e|] eqn:E; [|done].
  pose proof (mi_entry _ _ _ Hm _ _ E). lia.
Qed.

Lemma map_inv_new m u n t :
  map_inv m u n -> n < 2 ^ 64 - 1 -> stringToId_ m !! t = None ->
  let i := lastId_ m + 1 in
  let m' := mkStringIdMap (<[t := i]> (stringToId_ m)) (<[i := mkEntry t i 1]> (idToString_ m)) i
              (wrap_unsigned 64 (pinnedSize_ m + size t)) in
  map_inv m' (bump u i 1) (n + 1) /\ keeps m m' (bump u i 1) /\ name m' i = Some t.
Proof.
  intros Hm Hn Ht i m'. destruct (next_id_fresh m u n 0 Hm Hn) as [_ Hfree]. fold i in Hfree.
  pose proof (mi_last _ _ _ Hm) as Hl. pose proof (mi_none _ _ _ Hm i Hfree) as Hu0. split_and!.
  - split; unfold m'; cbn; unfold bump.
    + intros j ej. destruct (decide (j = i)) as [->|Hne].
      * rewrite lookup_insert_eq. intros [= <-]. cbn. rewrite lookup_insert_eq. split_and!; done || lia.
      * rewrite lookup_insert_ne by done. intros Hj. rewrite Z.add_0_r.
        pose proof (mi_entry _ _ _ Hm j ej Hj) as (? & ? & ? & Hs & ?). split_and!; try done; try lia.
        rewrite lookup_insert_ne; [done|congruence].
    + intros j. destruct (decide (j = i)) as [->|Hne]; [by rewrite lookup_insert_eq|].
      rewrite lookup_insert_ne by done. intros Hj%(mi_none _ _ _ Hm). lia.
    + intros t' j. rewrite name_insert. destruct (decide (t' = t)) as [->|Hne].
      * rewrite lookup_insert_eq. intros [= <-]. by rewrite decide_True.
      * rewrite lookup_insert_ne by done. intros Hj. pose proof (mi_string _ _ _ Hm _ _ Hj) as Hname.
        destruct (decide (j = i)) as [->|]; [|done]. unfold name in Hname. by rewrite Hfree in Hname.
    + lia.
    + rewrite total_size_insert by done. rewrite (mi_pinned _ _ _ Hm). unfold wrap_unsigned. by rewrite Zplus_mod_idemp_l.
  - intros j _ Hj. unfold m'. rewrite name_insert. destruct (decide (j = i)) as [->|]; [|done].
    unfold name in Hj. by rewrite Hfree in Hj.
  - unfold m'. rewrite name_insert. by rewrite decide_True.
Qed.

Lemma makeId_ok m u n t :
  map_inv m u n -> n < 2 ^ 32 - 1 -> (forall i, u i <= n) ->
  exists m' i, makeId m t = Ok (m', i) /\ map_inv m' (bump u i 1) (n + 1) /\ keeps m m' (bump u i 1)
    /\ name m' i = Some t.
Proof.
  intros Hm Hn Hu. unfold makeId. destruct (stringToId_ m !! t) as [i|] eqn:Et.
  - pose proof (mi_string _ _ _ Hm _ _ Et) as Hname. unfold name in Hname.
    destruct (idToString_ m !! i) as [e|] eqn:Ei; [|done]. cbn in Hname.
    pose proof (mi_entry _ _ _ Hm i e Ei) as (_ & -> & Hpos & _). specialize (Hu i).
    rewrite wrap_unsigned_id by lia. replace (u i + 1 =? 1) with false by lia.
    destruct (map_inv_recount m u n i e 1 Hm Ei ltac:(lia)) as [Hinv Hkeeps].
    eexists _, i. split; [done|]. split; [|split; [done|]].
    + by eapply map_inv_ext; [exact Hinv| |lia].
    + rewrite name_insert. by rewrite decide_True.
  - destruct (next_id_fresh m u n (base.size (idToString_ m)) Hm ltac:(lia)) as [-> _]. cbn [rbind].
    destruct (map_inv_new m u n t Hm ltac:(lia) Et) as (? & ? & ?). by eexists _, _.
Qed.

(** * Refinement *)

(** A lease object and the string it holds. *)
Definition lease_rel (m : StringIdMap) (v : option (list Z)) (l : StringIdLease) : Prop :=
  match v with
  | None => l = no_lease
  | Some t => exists i, l = mkLease true i /\ name m i = Some t
  end.

Definition slot_rel (m : StringIdMap) (v : option (option (list Z))) (l : option StringIdLease) : Prop :=
  match v, l with
  | None, None => True
  | Some v, Some l => lease_rel m v l
  | _, _ => False
  end.

(** After [n] calls. *)
Record refines (n : Z) (s : store) (a : leases) : Prop := {
  rf_map : map_inv (fst s) (uses (snd s)) n;
  rf_slots place : slot_rel (fst s) (a !! place) (snd s !! place);
  rf_count : Z.of_nat (base.size (snd s)) <= n
}.

Lemma lease_counted slots place i : slots !! place = Some (mkLease true i) -> 0 < uses slots i.
Proof.
  intros Hp. pose proof (uses_bounds (delete place slots) i) as Hb. rewrite (uses_delete _ _ _ _ Hp), counts_lease in Hb.
  rewrite decide_True in Hb by done. lia.
Qed.

Lemma uses_le n s a i : refines n s a -> uses (snd s) i <= n.
Proof. intros H. pose proof (uses_bounds (snd s) i). pose proof (rf_count _ _ _ H). lia. Qed.

(** The leases that stay keep their strings. *)
Lemma lease_rel_keeps m m' u n slots place v :
  map_inv m u n -> keeps m m' (uses slots) -> slots !! place <> None ->
  slot_rel m v (slots !! place) -> slot_rel m' v (slots !! place).
Proof.
  intros Hm Hk Hp. destruct (slots !! place) as [l|] eqn:E; [|done]. unfold slot_rel. destruct v as [[t|]|]; [|done..].
  intros (i & -> & Hname). exists i. split; [done|]. rewrite Hk; [done|by apply (lease_counted _ place)|by rewrite Hname].
Qed.

(** The state after the map changed to [m'] and the place [this] was written. *)
Lemma refines_put n n' m m' slots a this v l :
  refines n (m, slots) a -> map_inv m' (uses (<[this := l]> slots)) n' -> keeps m m' (uses (<[this := l]> slots)) ->
  lease_rel m' v l -> n <= n' -> (slots !! this = None -> n + 1 <= n') ->
  refines n' (put_lease (m', slots) this l) (<[this := v]> a).
Proof.
  intros [Hm Hs Hc] Hinv Hkeeps Hl Hn Hfree. cbn [fst snd] in *. unfold put_lease. split; cbn [fst snd]; [done| |].
  - intros p. destruct (decide (p = this)) as [->|Hne]; [rewrite !lookup_insert_eq; exact Hl|].
    rewrite (lookup_insert_ne a) by done. specialize (Hs p). destruct (slots !! p) as [l'|] eqn:Ep.
    + rewrite <- Ep, <- (lookup_insert_ne slots this p l) in Hs by done.
      apply (lease_rel_keeps m m' (uses slots) n); [done|done| |done]. by rewrite lookup_insert_ne, Ep.
    + rewrite lookup_insert_ne, Ep by done. by destruct (a !! p).
  - destruct (slots !! this) eqn:E; [rewrite map_size_insert_Some by done; lia|].
    rewrite map_size_insert_None by done. specialize (Hfree eq_refl). lia.
Qed.

Lemma lookup_related n s a place v :
  refines n s a -> a !! place = Some v -> exists l, snd s !! place = Some l /\ lease_rel (fst s) v l.
Proof.
  intros H Ha. pose proof (rf_slots _ _ _ H place) as Hs. rewrite Ha in Hs.
  destruct (snd s !! place) as [l|]; [by exists l|done].
Qed.

Lemma lookup_free n s a place : refines n s a -> a !! place = None -> snd s !! place = None.
Proof. intros H Ha. pose proof (rf_slots _ _ _ H place) as Hs. rewrite Ha in Hs. by destruct (snd s !! place). Qed.

(** A constructor at a free place, where the map counts the new lease. *)
Lemma refines_new n m m' slots a this v l :
  refines n (m, slots) a -> a !! this = None ->
  map_inv m' (fun i => uses slots i + counts l i) (n + 1) -> keeps m m' (fun i => uses slots i + counts l i) ->
  lease_rel m' v l -> refines (n + 1) (put_lease (m', slots) this l) (<[this := v]> a).
Proof.
  intros H Ha Hinv Hkeeps Hl. pose proof (lookup_free _ _ _ _ H Ha) as Hfree. cbn in Hfree.
  apply (refines_put n _ m); [done| | |done|lia|lia].
  - eapply map_inv_ext; [exact Hinv|intros i; by rewrite uses_insert|lia].
  - intros i. rewrite uses_insert by done. apply Hkeeps.
Qed.

Lemma map_inv_unchanged m u n l : l = no_lease -> map_inv m u n -> map_inv m (fun i => u i + counts l i) (n + 1).
Proof. intros -> Hm. eapply map_inv_ext; [exact Hm|intros i; rewrite counts_no_lease; lia|lia]. Qed.

Lemma keeps_refl m u : keeps m m u.
Proof. by intros i. Qed.

(** One more reference, for a copy of a lease. *)
Lemma reference_ok m slots n v l :
  map_inv m (uses slots) n -> n < 2 ^ 32 - 1 -> (forall i, uses slots i <= n) -> lease_rel m v l ->
  (forall i, l = mkLease true i -> 0 < uses slots i) ->
  exists m', (if ids_ l && negb (id_ l =? kNoId) then addReference m (id_ l) else Ok m) = Ok m'
    /\ map_inv m' (fun i => uses slots i + counts l i) (n + 1) /\ keeps m m' (fun i => uses slots i + counts l i)
    /\ lease_rel m' v l.
Proof.
  intros Hm Hn Hu Hl Hcounted. destruct v as [t|]; cbn in Hl.
  - destruct Hl as (i & -> & Hname). specialize (Hcounted i eq_refl). cbn [ids_ id_ andb].
    destruct (leased_entry _ _ _ _ Hm Hcounted) as [e He].
    pose proof (mi_entry _ _ _ Hm i e He) as (_ & _ & _ & _ & Hi). pose proof (mi_last _ _ _ Hm).
    replace (i =? kNoId) with false by (unfold kNoId; lia). cbn [negb].
    destruct (addReference_ok m _ n i Hm Hcounted ltac:(specialize (Hu i); lia)) as (m' & -> & Hinv & Hkeeps).
    assert (forall j, bump (uses slots) i 1 j = uses slots j + counts (mkLease true i) j) as Heq
      by (intros j; unfold bump; by rewrite counts_lease).
    exists m'. split; [done|]. split; [eapply map_inv_ext; [exact Hinv|exact Heq|lia]|]. split.
    + intros j Hj. apply Hkeeps. by rewrite Heq.
    + exists i. split; [done|]. rewrite Hkeeps; [done| |by rewrite Hname]. unfold bump. rewrite decide_True by done. lia.
  - subst l. cbn. exists m. split; [done|]. split; [by apply map_inv_unchanged|]. split; [apply keeps_refl|done].
Qed.

Lemma refines_weaken n n' s a : refines n s a -> n <= n' -> refines n' s a.
Proof. intros [Hm Hs Hc] Hn. split; [by eapply map_inv_ext|done|lia]. Qed.

Lemma clear_ok n s a this v :
  refines n s a -> a !! this = Some v ->
  exists s', clear s this = Ok s' /\ refines n s' (<[this := None]> a) /\ snd s' !! this = Some no_lease.
Proof.
  intros H Ha. destruct (lookup_related _ _ _ _ _ H Ha) as (l & Hl & Hrel). unfold clear, lease_at. rewrite Hl. cbn [rbind].
  destruct v as [t|]; cbn in Hrel.
  - destruct Hrel as (i & -> & Hname). cbn [ids_ id_]. pose proof (lease_counted _ _ _ Hl) as Hpos.
    destruct (release_ok _ _ _ _ (rf_map _ _ _ H) Hpos) as (m' & -> & Hinv & Hkeeps). cbn [rbind].
    assert (forall j, bump (uses (snd s)) i (-1) j = uses (<[this := no_lease]> (snd s)) j) as Heq.
    { intros j. rewrite (uses_update _ _ _ _ _ Hl), counts_no_lease, counts_lease. unfold bump. destruct (decide _); lia. }
    exists (put_lease (m', snd s) this no_lease). split; [done|]. split; [|by apply lookup_insert_eq].
    apply (refines_put n n (fst s)); [by destruct s| | |done|lia|by rewrite Hl].
    + by eapply map_inv_ext; [exact Hinv|exact Heq|].
    + intros j. rewrite <- Heq. apply Hkeeps.
  - subst l. cbn. exists s. by rewrite insert_id.
Qed.

(** The lease of [other] goes to [this], which holds none. *)
Lemma move_ok n m slots a this other v l :
  refines n (m, slots) a -> this <> other -> slots !! other = Some l -> a !! other = Some v ->
  slots !! this = None \/ slots !! this = Some no_lease ->
  refines (n + 1) (put_lease (put_lease (m, slots) this l) other no_lease) (<[other := None]> (<[this := v]> a)).
Proof.
  intros H Hne Hl Hv Hfree. unfold put_lease. cbn [fst snd].
  assert (<[this := l]> slots !! other = Some l) as Hother by (by rewrite lookup_insert_ne).
  assert (forall i, uses (<[other := no_lease]> (<[this := l]> slots)) i = uses slots i) as Huses.
  { intros i. rewrite (uses_update _ _ l) by done. rewrite counts_no_lease. destruct Hfree as [Hfree|Hfree].
    - rewrite uses_insert by done. lia.
    - rewrite (uses_update _ _ no_lease), counts_no_lease by done. lia. }
  split; cbn [fst snd].
  - eapply map_inv_ext; [exact (rf_map _ _ _ H)|done|lia].
  - intros p. destruct (decide (p = other)) as [->|Hp]; [by rewrite !lookup_insert_eq|].
    rewrite !(lookup_insert_ne _ other) by done. destruct (decide (p = this)) as [->|Hp'].
    + rewrite !lookup_insert_eq. pose proof (rf_slots _ _ _ H other) as Hs. cbn in Hs. by rewrite Hv, Hl in Hs.
    + rewrite !lookup_insert_ne by done. apply (rf_slots _ _ _ H p).
  - rewrite map_size_insert_Some by done. pose proof (rf_count _ _ _ H) as Hc. cbn in Hc.
    destruct Hfree as [Hfree|Hfree]; [rewrite map_size_insert_None by done|rewrite map_size_insert_Some by done]; lia.
Qed.

Lemma delete_ok n m slots a this :
  refines n (m, slots) a -> slots !! this = Some no_lease -> refines n (m, delete this slots) (delete this a).
Proof.
  intros H Hl. split; cbn.
  - eapply map_inv_ext; [exact (rf_map _ _ _ H)| |done]. intros i. cbn.
    rewrite (uses_delete _ _ _ _ Hl), counts_no_lease. lia.
  - intros p. destruct (decide (p = this)) as [->|]; [by rewrite !lookup_delete_eq|].
    rewrite !lookup_delete_ne by done. apply (rf_slots _ _ _ H p).
  - rewrite map_size_delete_Some by (by eexists). pose proof (rf_count _ _ _ H) as Hc. cbn in Hc. lia.
Qed.

(** A copy of the lease of [other], at a free place or over an empty lease. *)
Lemma copy_ok n m slots a this other v l :
  refines n (m, slots) a -> n < 2 ^ 32 - 1 -> slots !! other = Some l -> a !! other = Some v ->
  slots !! this = None \/ slots !! this = Some no_lease ->
  exists m', (if ids_ l && negb (id_ l =? kNoId) then addReference m (id_ l) else Ok m) = Ok m'
    /\ refines (n + 1) (put_lease (m', slots) this l) (<[this := v]> a).
Proof.
  intros H Hn Hl Hv Hfree. pose proof (rf_slots _ _ _ H other) as Hrel. cbn in Hrel. rewrite Hv, Hl in Hrel.
  assert (forall i, uses (<[this := l]> slots) i = uses slots i + counts l i) as Huses.
  { intros i. destruct Hfree as [Hfree|Hfree]; [by apply uses_insert|].
    rewrite (uses_update _ _ no_lease), counts_no_lease by done. lia. }
  destruct (reference_ok m slots n v l) as (m' & Hadd & Hinv & Hkeeps & Hrel').
  - exact (rf_map _ _ _ H).
  - done.
  - intros i. exact (uses_le _ _ _ i H).
  - done.
  - intros i ->. by apply (lease_counted _ other).
  - exists m'. split; [done|]. apply (refines_put n _ m); [done| | |done|lia|lia].
    + eapply map_inv_ext; [exact Hinv|intros i; by rewrite Huses|lia].
    + intros i. rewrite Huses. apply Hkeeps.
Qed.

Ltac spec_cases := repeat match goal with
  | H : context [match ?a !! ?k with _ => _ end] |- _ => destruct (a !! k) as [v|] eqn:?; try discriminate
  | H : context [if ?b then _ else _] |- _ => destruct b eqn:?; try discriminate
  end.

(** ** The constructors and the other calls *)

Lemma construct_ok n s a c a' :
  refines n s a -> n < 2 ^ 32 - 1 -> spec_step a c = Some a' ->
  match c with Default _ | OfString _ _ | OfId _ _ | Copy _ _ | Move _ _ => True | _ => False end ->
  exists s', step s c = Ok s' /\ refines (n + 1) s' a'.
Proof.
  intros H Hn Hstep Hc. destruct s as [m slots]. destruct c as [this|this t|this other|this other|this other|this other|this other|this|this]; try done; cbn in Hstep |- *.
  - spec_cases. injection Hstep as <-. eexists. split; [done|].
    apply (refines_new n m); [done|done|by apply map_inv_unchanged, (rf_map _ _ _ H)|apply keeps_refl|done].
  - spec_cases. injection Hstep as <-. unfold lease_of_string. cbn [fst snd].
    destruct (makeId_ok m _ n t (rf_map _ _ _ H) Hn (fun i => uses_le _ _ _ i H)) as (m' & i & -> & Hinv & Hkeeps & Hname).
    cbn [rbind fst snd] in *. eexists. split; [done|].
    assert (forall j, bump (uses slots) i 1 j = uses slots j + counts (mkLease true i) j) as Heq
      by (intros j; unfold bump; by rewrite counts_lease).
    apply (refines_new n m); [done|done| | |by exists i].
    + eapply map_inv_ext; [exact Hinv|exact Heq|lia].
    + intros j Hj. apply Hkeeps. by rewrite Heq.
  - destruct (a !! this) eqn:Ethis; [discriminate|]. destruct (a !! other) as [[t|]|] eqn:Eother; try discriminate.
    injection Hstep as <-. destruct (lookup_related _ _ _ _ _ H Eother) as (l & Hl & i & -> & Hname). cbn in Hl.
    unfold lease_at. cbn [snd]. rewrite Hl. cbn [rbind id_]. unfold lease_of_id. cbn [fst snd].
    destruct (copy_ok n m slots a this other (Some t) (mkLease true i) H Hn Hl Eother) as (m' & Hadd & Href).
    { left. exact (lookup_free _ _ _ _ H Ethis). }
    pose proof (lease_counted _ _ _ Hl) as Hpos. destruct (leased_entry _ _ _ _ (rf_map _ _ _ H) Hpos) as [e He].
    pose proof (mi_entry _ _ _ (rf_map _ _ _ H) i e He) as (_ & _ & _ & _ & Hi). pose proof (mi_last _ _ _ (rf_map _ _ _ H)).
    cbn [ids_ id_ andb] in Hadd. replace (i =? kNoId) with false in Hadd by (unfold kNoId; cbn in *; lia).
    cbn [negb] in Hadd. rewrite Hadd. by eexists.
  - destruct (a !! this) eqn:Ethis; [discriminate|]. destruct (a !! other) as [v|] eqn:Eother; [|discriminate].
    injection Hstep as <-. destruct (lookup_related _ _ _ _ _ H Eother) as (l & Hl & _). cbn in Hl.
    unfold copy_lease, lease_at. cbn [fst snd]. rewrite Hl. cbn [rbind].
    destruct (copy_ok n m slots a this other v l H Hn Hl Eother) as (m' & -> & Href); [|by eexists].
    left. exact (lookup_free _ _ _ _ H Ethis).
  - destruct (a !! this) eqn:Ethis; [discriminate|]. destruct (a !! other) as [v|] eqn:Eother; [|discriminate].
    injection Hstep as <-. destruct (lookup_related _ _ _ _ _ H Eother) as (l & Hl & _). cbn in Hl.
    unfold move_lease, lease_at. cbn [snd]. rewrite Hl. cbn [rbind]. eexists. split; [done|].
    apply move_ok; [done|congruence|done|done|]. left. exact (lookup_free _ _ _ _ H Ethis).
Qed.

Lemma step_ok n s a c a' :
  refines n s a -> n < 2 ^ 32 - 1 -> spec_step a c = Some a' ->
  exists s', step s c = Ok s' /\ refines (n + 1) s' a'.
Proof.
  intros H Hn Hstep.
  destruct c as [| | | | |this other|this other|this|this]; try (by apply (construct_ok n s a)); cbn in Hstep |- *.
  - destruct (a !! this) as [v0|] eqn:Ethis; [|discriminate]. destruct (a !! other) as [v|] eqn:Eother; [|discriminate].
    destruct (this =? other) eqn:E; [discriminate|]. apply Z.eqb_neq in E. injection Hstep as <-.
    unfold copy_assign. destruct (clear_ok _ _ _ _ _ H Ethis) as ([m1 slots1] & -> & H1 & Hthis). cbn [rbind].
    assert (<[this := None]> a !! other = Some v) as Hother by (by rewrite lookup_insert_ne).
    destruct (lookup_related _ _ _ _ _ H1 Hother) as (l & Hl & _). unfold lease_at. rewrite Hl. cbn [rbind fst snd] in *.
    destruct (copy_ok n m1 slots1 _ this other v l H1 Hn Hl Hother) as (m' & -> & Href); [by right|].
    rewrite insert_insert_eq in Href. by eexists.
  - destruct (a !! this) as [v0|] eqn:Ethis; [|discriminate]. destruct (a !! other) as [v|] eqn:Eother; [|discriminate].
    destruct (this =? other) eqn:E; [discriminate|]. apply Z.eqb_neq in E. injection Hstep as <-.
    unfold move_assign. destruct (clear_ok _ _ _ _ _ H Ethis) as ([m1 slots1] & -> & H1 & Hthis). cbn [rbind].
    assert (<[this := None]> a !! other = Some v) as Hother by (by rewrite lookup_insert_ne).
    destruct (lookup_related _ _ _ _ _ H1 Hother) as (l & Hl & _). unfold lease_at. rewrite Hl. cbn [rbind fst snd] in *.
    eexists. split; [done|]. pose proof (move_ok n m1 slots1 _ this other v l H1 E Hl Hother) as Href.
    rewrite insert_insert_eq in Href. apply Href. by right.
  - destruct (a !! this) as [v|] eqn:Ethis; [|discriminate]. injection Hstep as <-.
    destruct (clear_ok _ _ _ _ _ H Ethis) as (s' & -> & H1 & _). exists s'. split; [done|].
    apply (refines_weaken n); [done|lia].
  - destruct (a !! this) as [v|] eqn:Ethis; [|discriminate]. injection Hstep as <-. unfold destroy_lease.
    destruct (clear_ok _ _ _ _ _ H Ethis) as ([m1 slots1] & -> & H1 & Hthis). cbn [rbind fst snd] in *.
    eexists. split; [done|]. apply (refines_weaken n); [|lia].
    rewrite <- (delete_insert_eq a this None). by apply delete_ok.
Qed.

Lemma run_ok calls n s a a' :
  refines n s a -> n + Z.of_nat (length calls) < 2 ^ 32 -> spec_run a calls = Some a' ->
  exists s', run s calls = Ok s' /\ refines (n + Z.of_nat (length calls)) s' a'.
Proof.
  revert n s a. induction calls as [|c calls IH]; intros n s a H Hn Hrun.
  - injection Hrun as <-. exists s. split; [done|]. apply (refines_weaken n); [done|lia].
  - cbn [spec_run] in Hrun. destruct (spec_step a c) as [a1|] eqn:Estep; [|discriminate]. cbn [length] in Hn |- *.
    destruct (step_ok n s a c a1 H ltac:(lia) Estep) as (s1 & Hs1 & H1). cbn [run]. rewrite Hs1. cbn [rbind].
    destruct (IH (n + 1) s1 a1 H1 ltac:(lia) Hrun) as (s' & Hs' & H'). exists s'. split; [done|].
    replace (n + Z.of_nat (S (length calls))) with (n + 1 + Z.of_nat (length calls)) by lia. done.
Qed.

Lemma refines_initial : refines 0 (make_StringIdMap, ∅) ∅.
Proof.
  split; cbn; [split; cbn|..].
  - intros i e. by rewrite lookup_empty.
  - done.
  - intros t i. by rewrite lookup_empty.
  - lia.
  - done.
  - intros p. by rewrite !lookup_empty.
  - done.
Qed.

(** ** What is observed *)

(** The strings that are held, each once. *)
Definition held (a : leases) : gset (list Z) := list_to_set (omap snd (map_to_list a)).

Lemma held_spec a t : t ∈ held a <-> exists p, a !! p = Some (Some t).
Proof.
  unfold held. rewrite elem_of_list_to_set, list_elem_of_omap. split.
  - intros ([p v] & Hin & Hv). cbn in Hv. subst v. exists p. by apply elem_of_map_to_list.
  - intros [p Hp]. exists (p, Some t). split; [by apply elem_of_map_to_list|done].
Qed.

Definition held_size (a : leases) : Z := foldr (fun t acc => size t + acc) 0 (elements (held a)).

Lemma leased_place slots i : 0 < uses slots i -> exists p, slots !! p = Some (mkLease true i).
Proof.
  intros Hu. unfold uses in Hu.
  destruct (map_choose (filter (fun kl => kl.2 = mkLease true i) slots)) as (p & l & Hl).
  - intros E. rewrite E, map_size_empty in Hu. lia.
  - apply map_lookup_filter_Some in Hl as [Hp Hl]. cbn in Hl. subst l. by exists p.
Qed.

(** An entry is the string of some lease. *)
Lemma entry_held n s a i t : refines n s a -> name (fst s) i = Some t -> t ∈ held a.
Proof.
  intros H Hname. apply held_spec. unfold name in Hname. destruct (idToString_ (fst s) !! i) as [e|] eqn:E; [|done].
  pose proof (mi_entry _ _ _ (rf_map _ _ _ H) i e E) as (_ & _ & Hpos & _). destruct (leased_place _ _ Hpos) as [p Hp].
  pose proof (rf_slots _ _ _ H p) as Hs. rewrite Hp in Hs. exists p. destruct (a !! p) as [[t'|]|] eqn:Ea; [|done..].
  destruct Hs as (i' & [= <-] & Hname'). unfold name in Hname'. rewrite E in Hname'. cbn in Hname, Hname'. congruence.
Qed.

Definition strings_of (ids : gmap Z Entry) : list (list Z) := (fun ie => entry_string ie.2) <$> map_to_list ids.

Lemma strings_permutation n s a : refines n s a -> strings_of (idToString_ (fst s)) ≡ₚ elements (held a).
Proof.
  intros H. apply NoDup_Permutation.
  - unfold strings_of. apply NoDup_fmap_2_strong; [|apply NoDup_map_to_list].
    intros [i e] [j f] Hi Hj Heq. cbn in Heq. apply elem_of_map_to_list in Hi, Hj.
    pose proof (mi_entry _ _ _ (rf_map _ _ _ H) i e Hi) as (_ & _ & _ & Hsi & _).
    pose proof (mi_entry _ _ _ (rf_map _ _ _ H) j f Hj) as (_ & _ & _ & Hsj & _). congruence.
  - apply NoDup_elements.
  - intros t. rewrite elem_of_elements. unfold strings_of. rewrite list_elem_of_fmap. split.
    + intros ([i e] & -> & Hi). apply elem_of_map_to_list in Hi. apply (entry_held n s a i); [done|].
      unfold name. by rewrite Hi.
    + intros Ht. apply held_spec in Ht as [p Hp]. destruct (lookup_related _ _ _ _ _ H Hp) as (l & _ & i & _ & Hname).
      unfold name in Hname. destruct (idToString_ (fst s) !! i) as [e|] eqn:E; [|done]. injection Hname as <-.
      exists (i, e). split; [done|]. by apply elem_of_map_to_list.
Qed.

Lemma total_size_strings ids : total_size ids = foldr (fun t acc => size t + acc) 0 (strings_of ids).
Proof. unfold total_size, strings_of. rewrite map_fold_foldr, foldr_fmap. by apply foldr_ext; [intros [? ?] ?|..]. Qed.

Lemma foldr_sizes l k : l ≡ₚ k -> foldr (fun t acc => size t + acc) 0 l = foldr (fun t acc => size t + acc) 0 k.
Proof. induction 1; cbn [fold_right]; lia. Qed.

(** What the program sees of the map and of its leases. *)
Record represents (s : store) (a : leases) : Prop := {
  rp_holds p t : a !! p = Some (Some t) ->
    exists l, snd s !! p = Some l /\ hasValue l = true /\ string (fst s) (id_ l) = t /\ id (fst s) t = id_ l;
  rp_empty p : a !! p = Some None -> exists l, snd s !! p = Some l /\ hasValue l = false;
  rp_unknown t : t ∉ held a -> id (fst s) t = kNoId;
  rp_pinned : pinnedSize_ (fst s) = wrap_unsigned 64 (held_size a)
}.

Lemma refines_represents n s a : refines n s a -> n < 2 ^ 32 -> represents s a.
Proof.
  intros H Hn. pose proof (rf_map _ _ _ H) as Hm. split.
  - intros p t Hp. destruct (lookup_related _ _ _ _ _ H Hp) as (l & Hl & i & -> & Hname).
    exists (mkLease true i). unfold string, id, hasValue. cbn [id_]. unfold name in Hname.
    destruct (idToString_ (fst s) !! i) as [e|] eqn:E; [|done]. injection Hname as <-.
    pose proof (mi_entry _ _ _ Hm i e E) as (_ & _ & _ & -> & Hi). pose proof (mi_last _ _ _ Hm).
    split_and!; [done| |done|done]. apply negb_true_iff, Z.eqb_neq. unfold kNoId. lia.
  - intros p Hp. destruct (lookup_related _ _ _ _ _ H Hp) as (l & Hl & ->). by exists no_lease.
  - intros t Ht. unfold id. destruct (stringToId_ (fst s) !! t) as [i|] eqn:E; [|done].
    apply (mi_string _ _ _ Hm) in E. by apply (entry_held n s a) in E.
  - rewrite (mi_pinned _ _ _ Hm), total_size_strings. f_equal. by apply foldr_sizes, (strings_permutation n).
Qed.

(** The search for a free id ends for every table, after the counter has wrapped around too. *)
Lemma next_id_total ids lastId :
  Z.of_nat (base.size ids) < 2 ^ 64 ->
  exists i, next_id (S (base.size ids)) ids lastId = Ok i /\ ids !! i = None.
Proof.
  intros Hsize.
  assert (forall fuel last, (exists i, next_id fuel ids last = Ok i /\ ids !! i = None)
    \/ forall k, 1 <= k <= Z.of_nat fuel -> is_Some (ids !! wrap_unsigned 64 (last + k))) as Hsearch.
  { induction fuel as [|fuel IH]; intros last; [right; lia|]. cbn [next_id]. cbv zeta.
    destruct (ids !! wrap_unsigned 64 (last + 1)) as [e|] eqn:E; [|left; by eexists].
    destruct (IH (wrap_unsigned 64 (last + 1))) as [|Hall]; [by left|]. right. intros k Hk.
    destruct (decide (k = 1)) as [->|]; [by rewrite E|]. specialize (Hall (k - 1) ltac:(lia)).
    replace (wrap_unsigned 64 (last + k)) with (wrap_unsigned 64 (wrap_unsigned 64 (last + 1) + (k - 1))); [done|].
    unfold wrap_unsigned. rewrite Zplus_mod_idemp_l. f_equal. lia. }
  destruct (Hsearch (S (base.size ids)) lastId) as [|Hall]; [done|]. exfalso.
  set (n := base.size ids) in *. set (keys := (fun k => wrap_unsigned 64 (lastId + k)) <$> seqZ 1 (Z.of_nat (S n))).
  assert (NoDup keys) as Hnd.
  { apply NoDup_fmap_2_strong; [|apply NoDup_seqZ]. intros j k Hj%elem_of_seqZ Hk%elem_of_seqZ.
    unfold wrap_unsigned. intros E. assert ((j - k) mod 2 ^ 64 = 0) as Hd.
    { replace (j - k) with ((lastId + j) - (lastId + k)) by lia. rewrite Zminus_mod, E, Z.sub_diag. done. }
    apply Z.mod_divide in Hd as [q Hq]; [|lia]. assert (q = 0) by nia. lia. }
  assert (list_to_set keys ⊆ dom ids) as Hsub.
  { intros x Hx. apply elem_of_list_to_set, list_elem_of_fmap in Hx as (k & -> & Hk%elem_of_seqZ).
    apply elem_of_dom, Hall. lia. }
  apply subseteq_size in Hsub. rewrite size_list_to_set in Hsub by done. unfold keys in Hsub.
  rewrite length_fmap, length_seqZ, size_dom in Hsub. lia.
Qed.

(** C5. Ids of strings and their leases: in every program of less than 2^32 calls on the lease objects
    (construction from a string or an id, copies, moves, assignments, clear, destruction), where no lease is
    assigned to itself and each call finds the leases it names ([spec_run]), no call fails; a
    lease that holds a string has an id under which the map gives the string and vice versa; a string that no
    lease holds is forgotten; the pinned size is the one of the strings held.  The search for an id ends
    for every table. *)
Theorem string_leases calls a :
  Z.of_nat (length calls) < 2 ^ 32 -> spec_run ∅ calls = Some a ->
  (exists s, run (make_StringIdMap, ∅) calls = Ok s /\ represents s a)
  /\ (forall ids last, Z.of_nat (base.size ids) < 2 ^ 64 ->
      exists i, next_id (S (base.size ids)) ids last = Ok i /\ ids !! i = None).
Proof.
  intros Hn Hrun. split; [|exact next_id_total].
  destruct (run_ok calls 0 (make_StringIdMap, ∅) ∅ a refines_initial ltac:(lia) Hrun) as (s & Hs & H).
  exists s. split; [done|]. apply (refines_represents _ _ _ H). lia.
Qed.

(** Two leases of one string, of which one moves and the other ends. *)
Lemma string_leases_witness :
  (exists s, run (make_StringIdMap, ∅) [OfString 0 [97; 98]; Copy 1 0; Default 2; MoveAssign 2 1; Destroy 0] = Ok s
     /\ represents s (delete 0 (<[1 := None]> (<[2 := Some [97; 98]]> (<[2 := None]> (<[1 := Some [97; 98]]> (<[0 := Some [97; 98]]> ∅)))))))
  /\ (forall ids last, Z.of_nat (base.size ids) < 2 ^ 64 ->
      exists i, next_id (S (base.size ids)) ids last = Ok i /\ ids !! i = None).
Proof.
  apply (string_leases [OfString 0 [97; 98]; Copy 1 0; Default 2; MoveAssign 2 1; Destroy 0]); [reflexivity|].
  vm_compute. reflexivity.
Defined.

(** An assignment of a lease to itself gives the reference up: the string is forgotten. *)
Lemma self_assignment_forgets :
  exists s, run (make_StringIdMap, ∅) [OfString 0 [97]; Assign 0 0] = Ok s
    /\ snd s !! 0 = Some no_lease /\ id (fst s) [97] = kNoId.
Proof. eexists. split; [vm_compute; reflexivity|]. by split; vm_compute. Qed.
