(* ===== verification/Coding.v ===== *)
(** Variable-length integers (bolt/common/encode/Coding.h and UInt128.h): 128-bit numbers as two words,
    base-128 encoding of 64 and 128-bit numbers to and from buffers and byte streams, zig-zag encoding. *)

From S2P Require Import Prelude Text.

(** * UInt128 *)

Record UInt128 : Type := mkUInt128 {
  hi : Z;
  lo : Z
}.

Definition UInt128_of (lo : Z) : UInt128 := mkUInt128 0 lo.

Definition u128_or (a b : UInt128) : UInt128 := mkUInt128 (Z.lor (hi a) (hi b)) (Z.lor (lo a) (lo b)).
Definition u128_and (a b : UInt128) : UInt128 := mkUInt128 (Z.land (hi a) (hi b)) (Z.land (lo a) (lo b)).
Definition u128_not (a : UInt128) : UInt128 :=
  mkUInt128 (wrap_unsigned 64 (Z.lnot (hi a))) (wrap_unsigned 64 (Z.lnot (lo a))).
Definition u128_eq (a b : UInt128) : bool := (hi a =? hi b) && (lo a =? lo b).

(** Shifts of a 64-bit word: undefined for the width of the word or more. *)
Definition shl64 (x n : Z) : result Z :=
  if (0 <=? n) && (n <? 64) then Ok (wrap_unsigned 64 (Z.shiftl x n)) else Err BadShift.
Definition shr64 (x n : Z) : result Z :=
  if (0 <=? n) && (n <? 64) then Ok (Z.shiftr x n) else Err BadShift.

Definition u128_shl (a : UInt128) (n : Z) : result UInt128 :=
  if n >=? 64 then
    let! h := shl64 (lo a) (n - 64) in
    Ok (mkUInt128 h 0)
  else if n >? 0 then
    let! h := shl64 (hi a) n in
    let! carry := shr64 (lo a) (64 - n) in
    let! l := shl64 (lo a) n in
    Ok (mkUInt128 (Z.lor h carry) l)
  else Ok a.

Definition u128_shr (a : UInt128) (n : Z) : result UInt128 :=
  if n >=? 64 then
    let! l := shr64 (hi a) (n - 64) in
    Ok (mkUInt128 0 l)
  else if n >? 0 then
    let! l := shr64 (lo a) n in
    let! carry := shl64 (hi a) (64 - n) in
    let! h := shr64 (hi a) n in
    Ok (mkUInt128 h (Z.lor l carry))
  else Ok a.

(** * Varint *)

Definition kMaxSize64 : Z := 10.
Definition kMaxSize128 : Z := 19.

Definition shift (a b bBits : Z) : result UInt128 :=
  let! s := u128_shl (UInt128_of a) bBits in
  Ok (u128_or s (UInt128_of b)).

Definition unshift (val : UInt128) (bBits : Z) : result (Z * Z) :=
  let! one := shl64 1 bBits in
  let second := Z.land (lo val) (wrap_unsigned 64 (one - 1)) in
  let! val := u128_shr val bBits in
  Ok (lo val, second).

(** ** Sizes *)

Fixpoint size_loop (fuel : nat) (val s : Z) : result Z :=
  match fuel with
  | O => Err OutOfFuel
  | S fuel => if val >=? 128 then size_loop fuel (Z.shiftr val 7) (s + 1) else Ok s
  end.

Definition size (val : Z) : result Z := size_loop 10 val 1.

(** [val.hi() != 0 || val.lo() >= 128] *)
Definition more128 (val : UInt128) : bool := negb (hi val =? 0) || (lo val >=? 128).

Fixpoint size128_loop (fuel : nat) (val : UInt128) (s : Z) : result Z :=
  match fuel with
  | O => Err OutOfFuel
  | S fuel =>
      if more128 val then
        let! val := u128_shr val 7 in
        size128_loop fuel val (s + 1)
      else Ok s
  end.

Definition size128 (val : UInt128) : result Z := size128_loop 19 val 1.

(** ** Encoding *)

(** [0x80 | (static_cast<char>(val) & 0x7f)] as a byte. *)
Definition continued (val : Z) : Z := wrap_unsigned 8 (Z.lor 128 (Z.land (wrap_signed 8 val) 127)).

Fixpoint encode_loop (fuel : nat) (val : Z) (m : memory) : result memory :=
  match fuel with
  | O => Err OutOfFuel
  | S fuel =>
      if val >=? 128 then
        let! m := put [continued val] m in
        encode_loop fuel (Z.shiftr val 7) m
      else put [wrap_unsigned 8 (wrap_signed 8 val)] m
  end.

Definition encode (val : Z) (dest : memory) : result memory := encode_loop 10 val dest.

Fixpoint encode128_loop (fuel : nat) (val : UInt128) (m : memory) : result memory :=
  match fuel with
  | O => Err OutOfFuel
  | S fuel =>
      if more128 val then
        let! m := put [continued (lo val)] m in
        let! val := u128_shr val 7 in
        encode128_loop fuel val m
      else put [wrap_unsigned 8 (wrap_signed 8 (lo val))] m
  end.

Definition encode128 (val : UInt128) (dest : memory) : result memory := encode128_loop 19 val dest.

(** A sink takes all bytes it is given; [sink] is what it has. *)
Definition encodeToByteSink (val : Z) (sink : list Z) : result (list Z) :=
  let! m := encode val (repeat 0 (Z.to_nat kMaxSize64), 0) in
  Ok (sink ++ take (Z.to_nat (snd m)) (fst m)).

Definition encode128ToByteSink (val : UInt128) (sink : list Z) : result (list Z) :=
  let! m := encode128 val (repeat 0 (Z.to_nat kMaxSize128), 0) in
  Ok (sink ++ take (Z.to_nat (snd m)) (fst m)).

(** ** Decoding *)

(** [*p & 0x80] *)
Definition high_bit (b : Z) : bool := negb (Z.land b 128 =? 0).

Definition canDecode (src : list Z) : bool := existsb (fun v => negb (high_bit v)) (take (Z.to_nat kMaxSize64) src).

(** The steps of the fast path, [n] of them from the shift of the current one. *)
Fixpoint decode_fast (n : nat) (src : list Z) (x shift : Z) : result (Z * list Z) :=
  match n with
  | O => Err CheckFailed
  | S n =>
      match src with
      | [] => Err BadAccess
      | b :: src =>
          let! piece := shl64 (Z.land b 127) shift in
          let x := Z.lor x piece in
          if high_bit b then decode_fast n src x (shift + 7) else Ok (x, src)
      end
  end.

Fixpoint decode_slow (src : list Z) (max_size val shift : Z) : result (Z * list Z) :=
  match src with
  | [] => Err BadAccess
  | b :: src =>
      if high_bit b then
        check! max_size >? 1 in
        let! piece := shl64 (Z.land b 127) shift in
        decode_slow src (max_size - 1) (Z.lor val piece) (shift + 7)
      else
        let! piece := shl64 b shift in
        Ok (Z.lor val piece, src)
  end.

(** The value and the bytes after it. *)
Definition decode (src : list Z) (max_size : Z) : result (Z * list Z) :=
  if max_size >=? kMaxSize64 then decode_fast 10 src 0 0 else decode_slow src max_size 0 0.

Fixpoint decode128_loop (src : list Z) (max_size : Z) (val : UInt128) (shift : Z) : result (UInt128 * list Z) :=
  match src with
  | [] => Err BadAccess
  | b :: src =>
      if high_bit b then
        check! max_size >? 1 in
        let! piece := u128_shl (UInt128_of (Z.land b 127)) shift in
        decode128_loop src (max_size - 1) (u128_or val piece) (shift + 7)
      else
        let! piece := u128_shl (UInt128_of b) shift in
        Ok (u128_or val piece, src)
  end.

Definition decode128 (src : list Z) (max_size : Z) : result (UInt128 * list Z) :=
  let max_size := if max_size >? kMaxSize128 then kMaxSize128 else max_size in
  decode128_loop src max_size (UInt128_of 0) 0.

(** From a StringPiece, which is advanced. *)
Definition decode_piece (data : list Z) : result (Z * list Z) := decode data (Z.of_nat (length data)).
Definition decode128_piece (data : list Z) : result (UInt128 * list Z) := decode128 data (Z.of_nat (length data)).

(** ** Byte sources *)

(** strings::ByteSource: the next chunk, or nothing at the end; the last bytes of a chunk can be pushed back. *)
Class ByteSource (Src : Type) := {
  next : Src -> option (list Z * Src);
  backUp : Src -> Z -> Src;
  contents : Src -> list Z
}.

(** The documented behaviour. *)
Class ByteSourceLaws (Src : Type) `{ByteSource Src} : Prop := {
  next_some s chunk s' : next s = Some (chunk, s') -> chunk <> [] /\ contents s = chunk ++ contents s';
  next_none s : next s = None -> contents s = [];
  backUp_contents s chunk s' n : next s = Some (chunk, s') -> 0 <= n <= Z.of_nat (length chunk) ->
    contents (backUp s' n) = drop (length chunk - Z.to_nat n) chunk ++ contents s'
}.

Section source.
Context {Src : Type} `{ByteSource Src}.

(** A byte of the chunk at hand, or of the next one; [remaining] is an int32_t. *)
Definition source_byte (p : list Z) (remaining : Z) (src : Src) : result (Z * list Z * Z * Src) :=
  let! chunk :=
    if remaining =? 0 then
      match next src with
      | Some (chunk, src) => Ok (chunk, wrap_signed 32 (Z.of_nat (length chunk)), src)
      | None => Err CheckFailed
      end
    else Ok (p, remaining, src) in
  let '(p, remaining, src) := chunk in
  let! remaining := ck32 (remaining - 1) in
  match p with
  | b :: p => Ok (b, p, remaining, src)
  | [] => Err BadAccess
  end.

Definition back_up (remaining : Z) (src : Src) : Src := if remaining =? 0 then src else backUp src (wrap_unsigned 64 remaining).

Fixpoint source_loop (fuel : nat) (p : list Z) (remaining : Z) (src : Src) (max_size val shift : Z) : result (Z * Src) :=
  match fuel with
  | O => Err OutOfFuel
  | S fuel =>
      let! r := source_byte p remaining src in
      let '(b, p, remaining, src) := r in
      if high_bit b then
        check! max_size >? 1 in
        let! piece := shl64 (Z.land b 127) shift in
        source_loop fuel p remaining src (max_size - 1) (Z.lor val piece) (shift + 7)
      else
        let! piece := shl64 b shift in
        Ok (Z.lor val piece, back_up remaining src)
  end.

Definition decodeFromByteSource (src : Src) : result (Z * Src) := source_loop 10 [] 0 src kMaxSize64 0 0.

Fixpoint source128_loop (fuel : nat) (p : list Z) (remaining : Z) (src : Src) (max_size : Z) (val : UInt128) (shift : Z)
  : result (UInt128 * Src) :=
  match fuel with
  | O => Err OutOfFuel
  | S fuel =>
      let! r := source_byte p remaining src in
      let '(b, p, remaining, src) := r in
      if high_bit b then
        check! max_size >? 1 in
        let! piece := u128_shl (UInt128_of (Z.land b 127)) shift in
        source128_loop fuel p remaining src (max_size - 1) (u128_or val piece) (shift + 7)
      else
        let! piece := u128_shl (UInt128_of b) shift in
        Ok (u128_or val piece, back_up remaining src)
  end.

Definition decode128FromByteSource (src : Src) : result (UInt128 * Src) :=
  source128_loop 19 [] 0 src kMaxSize128 (UInt128_of 0) 0.

(** The sources that calls of [next] lead to. *)
Inductive reaches : Src -> Src -> Prop :=
| reaches_here s : reaches s s
| reaches_next s chunk s' s'' : next s = Some (chunk, s') -> reaches s' s'' -> reaches s s''.

(** The size of each chunk is an int32_t. *)
Definition small_chunks (src : Src) : Prop :=
  forall s chunk s', reaches src s -> next s = Some (chunk, s') -> Z.of_nat (length chunk) <= INT32_MAX.
End source.

(** * ZigZag *)

Definition zigzag_encode (w val : Z) : Z :=
  wrap_unsigned w (Z.lxor (wrap_unsigned w (Z.shiftl (wrap_unsigned w val) 1)) (wrap_unsigned w (Z.shiftr val (w - 1)))).

Definition ZigZag_encode (val : Z) : Z := zigzag_encode 64 val.
Definition encodeInt128 (val : Z) : Z := zigzag_encode 128 val.

(** For an unsigned type of [w] bits. *)
Definition ZigZag_decode (w val : Z) : Z :=
  wrap_signed w (Z.lxor (Z.shiftr val 1) (wrap_unsigned w (- Z.land val 1))).

(** * Two words as one number *)

Definition u128_ok (a : UInt128) : Prop := 0 <= hi a < 2 ^ 64 /\ 0 <= lo a < 2 ^ 64.
Definition u128 (a : UInt128) : Z := hi a * 2 ^ 64 + lo a.

Lemma u128_bound a : u128_ok a -> 0 <= u128 a < 2 ^ 128.
Proof. intros [Hh Hl]. unfold u128. lia. Qed.

Lemma shl64_ok x n : 0 <= n < 64 -> shl64 x n = Ok (x * 2 ^ n mod 2 ^ 64).
Proof. intros Hn. unfold shl64. replace (_ && _) with true by lia. by rewrite Z.shiftl_mul_pow2 by lia. Qed.

Lemma shr64_ok x n : 0 <= n < 64 -> shr64 x n = Ok (x / 2 ^ n).
Proof. intros Hn. unfold shr64. replace (_ && _) with true by lia. by rewrite Z.shiftr_div_pow2 by lia. Qed.

Lemma pow2_split n k : 0 <= n <= k -> 2 ^ k = 2 ^ n * 2 ^ (k - n).
Proof. intros Hn. rewrite <- Z.pow_add_r by lia. f_equal. lia. Qed.

(** A number below 2^k is not changed by bits from k on. *)
Lemma lor_disjoint a b k : 0 <= k -> 0 <= a < 2 ^ k -> Z.lor a (b * 2 ^ k) = a + b * 2 ^ k.
Proof. intros Hk Ha. rewrite Z.lor_comm, <- Z.shiftl_mul_pow2, lor_shiftl, Z.shiftl_mul_pow2 by lia. lia. Qed.

Lemma u128_shr_ok a n : u128_ok a -> 0 <= n < 64 -> exists b, u128_shr a n = Ok b /\ u128_ok b /\ u128 b = u128 a / 2 ^ n.
Proof.
  intros [Hh Hl] Hn. unfold u128_shr. replace (n >=? 64) with false by lia. destruct (n >? 0) eqn:E.
  - rewrite !shr64_ok, shl64_ok by lia. cbn [rbind]. eexists. split; [done|]. unfold u128_ok, u128. cbn [hi lo].
    pose proof (pow2_split n 64 ltac:(lia)) as Hsplit. set (P := 2 ^ n) in *. set (Q := 2 ^ (64 - n)) in *.
    assert (0 < P) as HP by (apply Z.pow_pos_nonneg; lia). assert (0 < Q) as HQ by (apply Z.pow_pos_nonneg; lia).
    assert (hi a * Q mod 2 ^ 64 = (hi a mod P) * Q) as Hcarry
      by (rewrite Hsplit, Z.mul_mod_distr_r by lia; done).
    assert (0 <= lo a / P < Q) as Hlow by (split; [apply Z.div_pos; lia|apply Z.div_lt_upper_bound; lia]).
    rewrite Hcarry.
    assert (Z.lor (lo a / P) (hi a mod P * Q) = lo a / P + hi a mod P * Q) as -> by (apply lor_disjoint; [lia|done]).
    pose proof (Z.div_mod (hi a) P ltac:(lia)) as Hdm. pose proof (Z.mod_pos_bound (hi a) P HP) as Hmod.
    assert (0 <= hi a / P <= hi a) as Hhi by (split; [apply Z.div_pos; lia|apply Z.div_le_upper_bound; nia]).
    assert ((hi a mod P) * Q <= P * Q - Q) as Hmax by nia. assert (0 <= (hi a mod P) * Q) by nia.
    split; [lia|]. symmetry. replace (hi a * 2 ^ 64 + lo a) with ((hi a * Q) * P + lo a) by nia.
    rewrite Z.div_add_l by lia. nia.
  - assert (n = 0) as -> by lia. exists a. split; [done|]. split; [done|]. by rewrite Z.div_1_r.
Qed.

(** The parts of a product by a power of two, for a shift that stays in the word. *)
Lemma shl_parts x P Q :
  0 < P -> 0 < Q -> x * P mod (P * Q) = (x mod Q) * P /\ 0 <= (x mod Q) * P <= P * Q - P /\ x * P = x / Q * (P * Q) + x mod Q * P.
Proof.
  intros HP HQ. pose proof (Z.div_mod x Q ltac:(lia)) as Hdm. pose proof (Z.mod_pos_bound x Q HQ) as Hmod. split_and!.
  - by rewrite (Z.mul_comm P), Z.mul_mod_distr_r by lia.
  - nia.
  - nia.
  - rewrite Hdm at 1. ring.
Qed.

Lemma u128_shl_ok a n :
  u128_ok a -> 0 <= n < 128 -> exists b, u128_shl a n = Ok b /\ u128_ok b /\ u128 b = u128 a * 2 ^ n mod 2 ^ 128.
Proof.
  intros [Hh Hl] Hn. unfold u128_shl. change (2 ^ 128) with (2 ^ 64 * 2 ^ 64). destruct (n >=? 64) eqn:E.
  - rewrite shl64_ok by lia. cbn [rbind]. eexists. split; [done|]. unfold u128_ok, u128. cbn [hi lo].
    pose proof (Z.mod_pos_bound (lo a * 2 ^ (n - 64)) (2 ^ 64) ltac:(lia)) as Hb. split; [lia|].
    rewrite (pow2_split 64 n), Z.add_0_r by lia. set (R := 2 ^ (n - 64)).
    replace ((hi a * 2 ^ 64 + lo a) * (2 ^ 64 * R)) with (lo a * R * 2 ^ 64 + hi a * R * (2 ^ 64 * 2 ^ 64)) by ring.
    rewrite Z.mod_add, Z.mul_mod_distr_r by lia. done.
  - destruct (n >? 0) eqn:E0.
    + rewrite !shl64_ok, shr64_ok by lia. cbn [rbind]. eexists. split; [done|].
      unfold u128_ok, u128. cbn [hi lo]. pose proof (pow2_split n 64 ltac:(lia)) as Hsplit.
      assert (0 < 2 ^ n) as HP by (apply Z.pow_pos_nonneg; lia). assert (0 < 2 ^ (64 - n)) as HQ by (apply Z.pow_pos_nonneg; lia).
      set (P := 2 ^ n) in *. set (Q := 2 ^ (64 - n)) in *. rewrite Hsplit in *.
      destruct (shl_parts (hi a) P Q HP HQ) as (-> & Hhb & Hhe). destruct (shl_parts (lo a) P Q HP HQ) as (-> & Hlb & Hle).
      assert (0 <= lo a / Q < P) as Hdiv by (split; [apply Z.div_pos; lia|apply Z.div_lt_upper_bound; lia]).
      pose proof (lor_disjoint (lo a / Q) (hi a mod Q) n ltac:(lia)) as Hor. fold P in Hor. rewrite Z.lor_comm, Hor by done. split; [lia|].
      replace ((hi a * (P * Q) + lo a) * P) with (hi a * P * (P * Q) + lo a * P) by ring. rewrite Hhe, Hle.
      replace ((hi a / Q * (P * Q) + hi a mod Q * P) * (P * Q) + (lo a / Q * (P * Q) + lo a mod Q * P))
        with ((lo a / Q + hi a mod Q * P) * (P * Q) + lo a mod Q * P + hi a / Q * (P * Q * (P * Q))) by ring.
      rewrite Z.mod_add by nia. symmetry. apply Z.mod_small. nia.
    + assert (n = 0) as -> by lia. exists a. split; [done|]. split; [done|]. unfold u128. rewrite Z.mul_1_r, Z.mod_small by lia. lia.
Qed.

Lemma u128_shl_word v n :
  0 <= v < 2 ^ 64 -> 0 <= n < 128 -> exists b, u128_shl (UInt128_of v) n = Ok b /\ u128_ok b /\ u128 b = v * 2 ^ n mod 2 ^ 128.
Proof.
  intros Hv Hn. destruct (u128_shl_ok (UInt128_of v) n) as (b & Hb & Hok & Hval); [split; cbn; lia|done|]. exists b. split; [done|]. split; [done|]. exact Hval.
Qed.

(** A shift out of the high word. *)
Lemma u128_shr_high a n : u128_ok a -> 64 <= n < 128 -> exists b, u128_shr a n = Ok b /\ u128_ok b /\ u128 b = u128 a / 2 ^ n.
Proof.
  intros [Hh Hl] Hn. unfold u128_shr. replace (n >=? 64) with true by lia. rewrite shr64_ok by lia. cbn [rbind].
  assert (0 < 2 ^ (n - 64)) as Hp by (apply Z.pow_pos_nonneg; lia).
  eexists. split; [done|]. unfold u128_ok, u128. cbn [hi lo]. split.
  - split; [lia|]. split; [apply Z.div_pos; lia|apply Z.div_lt_upper_bound; nia].
  - rewrite (pow2_split 64 n) by lia. rewrite <- Z.div_div, Z.div_add_l, (Z.div_small (lo a)) by lia. by rewrite Z.add_0_r.
Qed.

Lemma u128_or_ok a b : u128_ok a -> u128_ok b -> u128_ok (u128_or a b) /\ u128 (u128_or a b) = Z.lor (u128 a) (u128 b).
Proof.
  intros [Hha Hla] [Hhb Hlb]. pose proof (lor_range 64 (hi a) (hi b) ltac:(lia) Hha Hhb) as Hh.
  pose proof (lor_range 64 (lo a) (lo b) ltac:(lia) Hla Hlb) as Hl. split; [done|]. unfold u128. cbn [hi lo u128_or].
  rewrite <- !lor_shiftl by lia. apply Z.bits_inj'. intros i Hi. autorewrite with bits.
  destruct (Z.testbit (hi a) (i - 64)), (Z.testbit (hi b) (i - 64)), (Z.testbit (lo a) i), (Z.testbit (lo b) i); done.
Qed.

Lemma u128_and_ok a b : u128_ok a -> u128_ok b -> u128_ok (u128_and a b) /\ u128 (u128_and a b) = Z.land (u128 a) (u128 b).
Proof.
  intros [Hha Hla] [Hhb Hlb]. assert (forall x y, 0 <= x < 2 ^ 64 -> 0 <= y < 2 ^ 64 -> 0 <= Z.land x y < 2 ^ 64) as Hand.
  { intros x y Hx Hy. assert (0 <= Z.land x y) by (apply Z.land_nonneg; lia). split; [done|]. apply below_bits; [lia|done|].
    intros i Hi. by rewrite Z.land_spec, (testbit_above 64 x). }
  split; [by split; apply Hand|]. unfold u128. cbn [hi lo u128_and].
  pose proof (Hand _ _ Hla Hlb). rewrite <- !lor_shiftl by lia. apply Z.bits_inj'. intros i Hi. autorewrite with bits.
  destruct (decide (i < 64)) as [Hlt|Hge].
  - rewrite !(Z.testbit_neg_r _ (i - 64)) by lia. done.
  - rewrite (testbit_above 64 (lo a)), (testbit_above 64 (lo b)) by (done || lia). by rewrite !orb_false_r.
Qed.

Lemma u128_not_ok a : u128_ok a -> u128_ok (u128_not a) /\ u128 (u128_not a) = 2 ^ 128 - 1 - u128 a.
Proof.
  intros [Hh Hl]. assert (forall x, 0 <= x < 2 ^ 64 -> wrap_unsigned 64 (Z.lnot x) = 2 ^ 64 - 1 - x) as Hnot.
  { intros x Hx. unfold wrap_unsigned, Z.lnot. rewrite <- (Z.mod_add _ 1), Z.mod_small by lia. lia. }
  unfold u128_ok, u128, u128_not. cbn [hi lo]. rewrite !Hnot by done. lia.
Qed.

(** * The encoding *)

(** The bytes of a number: groups of seven bits, the lowest first, the high bit set on all but the last. *)
Inductive varint : Z -> list Z -> Prop :=
  | varint_last v : 0 <= v < 128 -> varint v [v]
  | varint_more v b bs : 0 <= b < 128 -> 0 < v -> varint v bs -> varint (v * 128 + b) (128 + b :: bs).

Lemma varint_nonneg v bs : varint v bs -> 0 <= v.
Proof. induction 1; lia. Qed.

Lemma varint_length v bs k : varint v bs -> v < 2 ^ (7 * Z.of_nat k) -> (1 <= k)%nat -> (1 <= length bs <= k)%nat.
Proof.
  intros Hv. revert k. induction Hv as [v Hv|v b bs Hb Hpos Hv IH]; intros k Hlt Hk; cbn [length]; [lia|].
  destruct k as [|k]; [lia|]. replace (7 * Z.of_nat (S k)) with (7 * Z.of_nat k + 7) in Hlt by lia.
  rewrite Z.pow_add_r in Hlt by lia. change (2 ^ 7) with 128 in Hlt.
  assert (v < 2 ^ (7 * Z.of_nat k)) as Hv' by nia. destruct k as [|k]; [cbn in Hv'; lia|].
  specialize (IH (S k) Hv' ltac:(lia)). lia.
Qed.

Lemma continued_ok val : 0 <= val -> continued val = 128 + val mod 128.
Proof.
  intros Hv. unfold continued. change 127 with (2 ^ 7 - 1). rewrite land_mod by lia. change (2 ^ 7) with 128.
  assert (wrap_signed 8 val mod 128 = val mod 128) as ->.
  { unfold wrap_signed. euclidean. }
  change 128 with (Z.shiftl 1 7) at 1. rewrite lor_shiftl by (pose proof (Z.mod_pos_bound val 128); lia).
  pose proof (Z.mod_pos_bound val 128). apply wrap_unsigned_id. lia.
Qed.

Lemma last_byte val : 0 <= val < 128 -> wrap_unsigned 8 (wrap_signed 8 val) = val.
Proof. intros Hv. rewrite wrap_signed_id, wrap_unsigned_id by lia. done. Qed.

Lemma seven_bits b :
  0 <= b < 128 ->
  (high_bit (128 + b) = true /\ Z.land (128 + b) 127 = b) /\ high_bit b = false /\ Z.land b 127 = b.
Proof.
  intros Hb.
  assert (forallb (fun b => high_bit (128 + b) && (Z.land (128 + b) 127 =? b) && negb (high_bit b) && (Z.land b 127 =? b))
            (seqZ 0 128) = true) as Hall by (vm_compute; reflexivity).
  rewrite forallb_forall in Hall. specialize (Hall b). rewrite <- list_elem_of_In, elem_of_seqZ in Hall.
  specialize (Hall ltac:(lia)). rewrite !andb_true_iff, !Z.eqb_eq, negb_true_iff in Hall. naive_solver.
Qed.

Definition high_bit_more b (Hb : 0 <= b < 128) := proj1 (seven_bits b Hb).
Definition high_bit_last b (Hb : 0 <= b < 128) := proj2 (seven_bits b Hb).

(** ** Encoding and sizes *)

(** One round of each loop. *)
Lemma encode_loop_S fuel val m :
  encode_loop (S fuel) val m
  = if val >=? 128 then let! m := put [continued val] m in encode_loop fuel (Z.shiftr val 7) m
    else put [wrap_unsigned 8 (wrap_signed 8 val)] m.
Proof. done. Qed.
Lemma size_loop_S fuel val n :
  size_loop (S fuel) val n = if val >=? 128 then size_loop fuel (Z.shiftr val 7) (n + 1) else Ok n.
Proof. done. Qed.
Lemma encode128_loop_S fuel val m :
  encode128_loop (S fuel) val m
  = if more128 val then let! m := put [continued (lo val)] m in let! val := u128_shr val 7 in encode128_loop fuel val m
    else put [wrap_unsigned 8 (wrap_signed 8 (lo val))] m.
Proof. done. Qed.
Lemma size128_loop_S fuel val n :
  size128_loop (S fuel) val n
  = if more128 val then let! val := u128_shr val 7 in size128_loop fuel val (n + 1) else Ok n.
Proof. done. Qed.

Lemma groups_left val fuel :
  0 <= val < 2 ^ (7 * Z.of_nat (S (S fuel))) -> 0 <= val / 128 < 2 ^ (7 * Z.of_nat (S fuel)).
Proof.
  intros Hv. split; [apply Z.div_pos; lia|]. apply Z.div_lt_upper_bound; [lia|].
  change 128 with (2 ^ 7). rewrite <- Z.pow_add_r by lia.
  replace (7 + 7 * Z.of_nat (S fuel)) with (7 * Z.of_nat (S (S fuel))) by lia. apply Hv.
Qed.

Lemma varint_step val bs : 128 <= val -> varint (val / 128) bs -> varint val (128 + val mod 128 :: bs).
Proof.
  intros Hv Hbs. rewrite (Z.div_mod val 128) at 1 by lia. rewrite (Z.mul_comm 128).
  constructor; [apply Z.mod_pos_bound; lia|euclidean|done].
Qed.

Lemma encode_varint fuel val :
  0 <= val < 2 ^ (7 * Z.of_nat (S fuel)) ->
  exists bs, varint val bs
    /\ overwrites (encode_loop (S fuel) val) bs
    /\ (forall n, size_loop (S fuel) val n = Ok (n + Z.of_nat (length bs) - 1)).
Proof.
  revert val. induction fuel as [|fuel IH]; intros val Hv; (destruct (val >=? 128) eqn:E;
    [|exists [val]; split; [constructor; lia|]; split;
      [intros before hole after Hl; rewrite encode_loop_S, E, last_byte by lia; by apply put_overwrites
      |intros n; rewrite size_loop_S, E; cbn [length]; f_equal; lia]]).
  - change (2 ^ (7 * Z.of_nat 1)) with 128 in Hv. lia.
  - destruct (IH (val / 128) (groups_left val fuel Hv)) as (bs & Hbs & Hw & Hs).
    exists (128 + val mod 128 :: bs). split; [apply varint_step; [lia|done]|]. split.
    + intros before hole after Hl. rewrite encode_loop_S, E, continued_ok, Z.shiftr_div_pow2 by lia.
      by apply (overwrites_bind _ _ [128 + val mod 128] bs (put_overwrites _) Hw).
    + intros n. rewrite size_loop_S, E, Z.shiftr_div_pow2 by lia. change (2 ^ 7) with 128. rewrite Hs. cbn [length]. f_equal. lia.
Qed.

Lemma more128_ok val : u128_ok val -> more128 val = (u128 val >=? 128).
Proof.
  intros [Hh Hl]. unfold more128, u128. destruct (hi val =? 0) eqn:E.
  - apply Z.eqb_eq in E. rewrite E. cbn [negb orb]. lia.
  - apply Z.eqb_neq in E. cbn [negb orb]. lia.
Qed.

Lemma lo_mod val : u128_ok val -> lo val mod 128 = u128 val mod 128.
Proof. intros [Hh Hl]. unfold u128. euclidean. Qed.

Lemma encode128_varint fuel val :
  u128_ok val -> u128 val < 2 ^ (7 * Z.of_nat (S fuel)) ->
  exists bs, varint (u128 val) bs
    /\ overwrites (encode128_loop (S fuel) val) bs
    /\ (forall n, size128_loop (S fuel) val n = Ok (n + Z.of_nat (length bs) - 1)).
Proof.
  revert val. induction fuel as [|fuel IH]; intros val Hok Hv; pose proof (u128_bound val Hok) as Hb;
    pose proof (more128_ok val Hok) as E; (destruct (u128 val >=? 128) eqn:E128;
    [|exists [u128 val]; assert (lo val = u128 val) as Hlo by (destruct Hok; unfold u128 in *; lia);
      split; [constructor; lia|]; split;
      [intros before hole after Hl; rewrite encode128_loop_S, E, Hlo, last_byte by lia; by apply put_overwrites
      |intros n; rewrite size128_loop_S, E; cbn [length]; f_equal; lia]]).
  - change (2 ^ (7 * Z.of_nat 1)) with 128 in Hv. lia.
  - destruct (u128_shr_ok val 7 Hok ltac:(lia)) as (val' & Hshr & Hok' & Hval'). change (2 ^ 7) with 128 in Hval'.
    destruct (IH val' Hok') as (bs & Hbs & Hw & Hs).
    { rewrite Hval'. apply groups_left. lia. }
    rewrite Hval' in Hbs. exists (128 + u128 val mod 128 :: bs). split; [apply varint_step; [lia|done]|]. split.
    + intros before hole after Hl. rewrite encode128_loop_S, E, continued_ok, lo_mod, Hshr by (done || destruct Hok; lia).
      by apply (overwrites_bind _ _ [128 + u128 val mod 128] bs (put_overwrites _) Hw).
    + intros n. rewrite size128_loop_S, E, Hshr. cbn [rbind]. rewrite Hs. cbn [length]. f_equal. lia.
Qed.

(** ** Decoding *)

(** Seven more bits. *)
Lemma piece_ok x b shift :
  0 <= shift <= 63 -> 0 <= x < 2 ^ shift -> 0 <= b < 128 -> b * 2 ^ shift < 2 ^ 64 ->
  shl64 b shift = Ok (b * 2 ^ shift) /\ Z.lor x (b * 2 ^ shift) = x + b * 2 ^ shift /\ 0 <= x + b * 2 ^ shift < 2 ^ (shift + 7).
Proof.
  intros Hs Hx Hb Hlt. assert (0 < 2 ^ shift) as Hpos by (apply Z.pow_pos_nonneg; lia). split_and!.
  - rewrite shl64_ok, Z.mod_small by (lia || nia). done.
  - by apply lor_disjoint; [lia|].
  - nia.
  - rewrite Z.pow_add_r by lia. change (2 ^ 7) with 128. nia.
Qed.

Lemma group_value v b shift : 0 <= shift -> v * 2 ^ (shift + 7) + b * 2 ^ shift = (v * 128 + b) * 2 ^ shift.
Proof. intros Hs. rewrite Z.pow_add_r by lia. change (2 ^ 7) with 128. lia. Qed.

Lemma group_bounds v b shift m :
  0 <= shift -> 0 <= b < 128 -> 0 < v -> (v * 128 + b) * 2 ^ shift < m -> b * 2 ^ shift < m /\ v * 2 ^ (shift + 7) < m.
Proof.
  intros Hs Hb Hv Hm. assert (0 < 2 ^ shift) by (apply Z.pow_pos_nonneg; lia).
  pose proof (group_value v b shift Hs). assert (0 <= v * 2 ^ (shift + 7)) by (apply Z.mul_nonneg_nonneg; [lia|apply Z.pow_nonneg; lia]). nia.
Qed.

Lemma decode_fast_ok v bs n rest x shift :
  varint v bs -> (length bs <= n)%nat -> 0 <= shift -> shift + 7 * Z.of_nat (length bs) <= 70 -> 0 <= x < 2 ^ shift ->
  v * 2 ^ shift < 2 ^ 64 -> decode_fast n (bs ++ rest) x shift = Ok (x + v * 2 ^ shift, rest).
Proof.
  intros Hv. revert n x shift. induction Hv as [v Hv|v b bs Hb Hpos Hv IH]; intros n x shift Hn Hs Hlen Hx Hlt;
    (destruct n as [|n]; [cbn in Hn; lia|]); cbn [decode_fast app length] in *.
  - destruct (high_bit_last v Hv) as [-> ->]. destruct (piece_ok x v shift) as (-> & Hlor & _); [lia|done|done|done|].
    cbn [rbind]. by rewrite Hlor.
  - destruct (high_bit_more b Hb) as [-> ->]. destruct (group_bounds v b shift _ Hs Hb Hpos Hlt) as [Hlb Hlv].
    destruct (piece_ok x b shift) as (-> & Hlor & Hx'); [lia|done|done|done|]. cbn [rbind]. rewrite Hlor.
    rewrite IH by (done || lia). rewrite <- group_value by lia. do 2 f_equal. lia.
Qed.

Lemma decode_slow_ok v bs max rest x shift :
  varint v bs -> Z.of_nat (length bs) <= max -> 0 <= shift -> shift + 7 * Z.of_nat (length bs) <= 70 -> 0 <= x < 2 ^ shift ->
  v * 2 ^ shift < 2 ^ 64 -> decode_slow (bs ++ rest) max x shift = Ok (x + v * 2 ^ shift, rest).
Proof.
  intros Hv. revert max x shift. induction Hv as [v Hv|v b bs Hb Hpos Hv IH]; intros max x shift Hn Hs Hlen Hx Hlt;
    cbn [decode_slow app length] in *.
  - destruct (high_bit_last v Hv) as [-> _]. destruct (piece_ok x v shift) as (-> & Hlor & _); [lia|done|done|done|].
    cbn [rbind]. by rewrite Hlor.
  - destruct (high_bit_more b Hb) as [-> ->]. destruct (group_bounds v b shift _ Hs Hb Hpos Hlt) as [Hlb Hlv].
    assert (1 <= length bs)%nat by (inversion Hv; cbn; lia).
    replace (max >? 1) with true by lia. cbn [check rbind].
    destruct (piece_ok x b shift) as (-> & Hlor & Hx'); [lia|done|done|done|]. cbn [rbind]. rewrite Hlor.
    rewrite IH by (done || lia). rewrite <- group_value by lia. do 2 f_equal. lia.
Qed.

Lemma varint_decode_ok v bs max rest :
  varint v bs -> v < 2 ^ 64 -> Z.of_nat (length bs) <= max -> decode (bs ++ rest) max = Ok (v, rest).
Proof.
  intros Hv Hlt Hmax. pose proof (varint_length v bs 10 Hv) as Hlen. change (2 ^ (7 * Z.of_nat 10)) with (2 ^ 70) in Hlen.
  specialize (Hlen ltac:(lia) ltac:(lia)). unfold decode. destruct (max >=? kMaxSize64).
  - rewrite (decode_fast_ok v bs) by (done || lia). do 2 f_equal. lia.
  - rewrite (decode_slow_ok v bs) by (done || lia). do 2 f_equal. lia.
Qed.

Lemma piece128_ok x b shift :
  u128_ok x -> 0 <= shift < 128 -> u128 x < 2 ^ shift -> 0 <= b < 128 -> b * 2 ^ shift < 2 ^ 128 ->
  exists p, u128_shl (UInt128_of b) shift = Ok p /\ u128_ok (u128_or x p)
    /\ u128 (u128_or x p) = u128 x + b * 2 ^ shift /\ u128 (u128_or x p) < 2 ^ (shift + 7).
Proof.
  intros Hok Hs Hx Hb Hlt. pose proof (u128_bound x Hok) as Hxb. assert (0 < 2 ^ shift) as Hpos by (apply Z.pow_pos_nonneg; lia).
  destruct (u128_shl_word b shift ltac:(lia) Hs) as (p & -> & Hp & Hval). rewrite Z.mod_small in Hval by nia.
  destruct (u128_or_ok x p Hok Hp) as [Hor Hv]. exists p. split; [done|]. split; [done|].
  rewrite Hv, Hval, lor_disjoint by lia. split; [done|]. rewrite Z.pow_add_r by lia. change (2 ^ 7) with 128. nia.
Qed.

Lemma decode128_loop_ok v bs max rest x shift :
  varint v bs -> Z.of_nat (length bs) <= max -> 0 <= shift -> shift + 7 * Z.of_nat (length bs) <= 133 -> u128_ok x ->
  u128 x < 2 ^ shift -> v * 2 ^ shift < 2 ^ 128 ->
  exists r, decode128_loop (bs ++ rest) max x shift = Ok (r, rest) /\ u128_ok r /\ u128 r = u128 x + v * 2 ^ shift.
Proof.
  intros Hv. revert max x shift. induction Hv as [v Hv|v b bs Hb Hpos Hv IH]; intros max x shift Hn Hs Hlen Hok Hx Hlt;
    cbn [decode128_loop app length] in *.
  - destruct (high_bit_last v Hv) as [-> _].
    destruct (piece128_ok x v shift) as (p & -> & Hp & Hval & _); [done|lia|done|done|done|]. cbn [rbind]. by eexists.
  - destruct (high_bit_more b Hb) as [-> ->]. destruct (group_bounds v b shift _ Hs Hb Hpos Hlt) as [Hlb Hlv].
    assert (1 <= length bs)%nat by (inversion Hv; cbn; lia).
    replace (max >? 1) with true by lia. cbn [check rbind].
    destruct (piece128_ok x b shift) as (p & -> & Hp & Hval & Hx'); [done|lia|done|done|done|]. cbn [rbind].
    destruct (IH (max - 1) (u128_or x p) (shift + 7)) as (r & -> & Hr & Hrv); [lia|lia|lia|done|done|done|].
    exists r. split; [done|]. split; [done|]. rewrite Hrv, Hval, <- group_value by lia. lia.
Qed.

Lemma u128_zero : u128_ok (UInt128_of 0) /\ u128 (UInt128_of 0) = 0.
Proof. split; [|done]. split; cbn [hi lo UInt128_of]; lia. Qed.

Lemma u128_inj a b : u128_ok a -> u128_ok b -> u128 a = u128 b -> a = b.
Proof. destruct a, b. intros [? ?] [? ?]. unfold u128. cbn in *. intros E. f_equal; lia. Qed.

Lemma decode128_ok v bs max rest :
  u128_ok v -> varint (u128 v) bs -> Z.of_nat (length bs) <= max -> decode128 (bs ++ rest) max = Ok (v, rest).
Proof.
  intros Hok Hv Hmax. pose proof (u128_bound v Hok) as Hb. pose proof (varint_length (u128 v) bs 19 Hv) as Hlen.
  change (2 ^ (7 * Z.of_nat 19)) with (2 ^ 133) in Hlen. specialize (Hlen ltac:(lia) ltac:(lia)).
  unfold decode128, kMaxSize128. cbv zeta. destruct u128_zero as [Hz0 Hz].
  destruct (decode128_loop_ok (u128 v) bs (if max >? 19 then 19 else max) rest (UInt128_of 0) 0) as (r & -> & Hr & Hrv);
    [done|destruct (max >? 19) eqn:?; lia|lia|lia|done|rewrite Hz; lia|lia|].
  do 2 f_equal. apply u128_inj; [done|done|lia].
Qed.

(** ** Byte sources *)

Section sources.
Context {Src : Type} `{ByteSourceLaws Src}.

(** [p] is the rest of the last chunk of the source, with [remaining] bytes. *)
Definition at_chunk (p : list Z) (remaining : Z) (src : Src) : Prop :=
  remaining = Z.of_nat (length p) /\ remaining <= INT32_MAX /\ small_chunks src
  /\ (p = [] \/ exists s chunk k, next s = Some (chunk, src) /\ p = drop k chunk).

Lemma small_next src chunk src' : small_chunks src -> next src = Some (chunk, src') -> Z.of_nat (length chunk) <= INT32_MAX /\ small_chunks src'.
Proof.
  intros Hs Hn. split; [by apply (Hs src chunk src'); [constructor|]|]. intros s c s' Hr Hc. apply (Hs s c s'); [|done]. by apply (reaches_next src chunk src').
Qed.

Lemma source_byte_ok p remaining src b rest :
  at_chunk p remaining src -> p ++ contents src = b :: rest ->
  exists p' remaining' src', source_byte p remaining src = Ok (b, p', remaining', src') /\ p' ++ contents src' = rest /\ at_chunk p' remaining' src'.
Proof.
  intros (-> & Hle & Hsmall & Hat) Heq. unfold source_byte. destruct p as [|b' p]; cbn [app length] in *.
  - destruct (next src) as [[chunk src']|] eqn:E; [|by rewrite (next_none _ E) in Heq]. destruct (small_next _ _ _ Hsmall E) as [Hlen Hsmall'].
    destruct (next_some _ _ _ E) as [Hne Hc]. destruct chunk as [|b' chunk]; [done|]. change (Z.of_nat 0 =? 0) with true. cbv iota. cbn [rbind length] in *.
    rewrite wrap_signed_id, ck32_in by lia. cbn [rbind]. rewrite Hc in Heq. injection Heq as -> <-. eexists _, _, _. split; [done|]. split; [done|].
    split_and!; [lia|lia|done|]. right. by exists src, (b :: chunk), 1%nat.
  - rewrite (proj2 (Z.eqb_neq _ _)) by lia. cbn [rbind]. rewrite ck32_in by lia. cbn [rbind].
    injection Heq as -> <-. eexists _, _, _. split; [done|]. split; [done|]. split_and!; [lia|lia|done|]. right.
    destruct Hat as [|(s & chunk & k & Hs & Hd)]; [done|]. exists s, chunk, (S k). split; [done|].
    by rewrite <- Nat.add_1_r, <- drop_drop, <- Hd.
Qed.

Lemma back_up_ok p remaining src : at_chunk p remaining src -> contents (back_up remaining src) = p ++ contents src.
Proof.
  intros (-> & Hle & _ & Hat). unfold back_up. destruct p as [|b p]; [done|]. rewrite (proj2 (Z.eqb_neq _ _)) by (cbn [length]; lia).
  rewrite wrap_unsigned_id by lia. destruct Hat as [|(s & chunk & k & Hs & Hd)]; [done|]. rewrite Hd in *.
  rewrite (backUp_contents s chunk) by (done || rewrite length_drop; lia). f_equal.
  rewrite Nat2Z.id, length_drop. destruct (decide (k <= length chunk)%nat) as [|Hk].
  - f_equal. lia.
  - by rewrite drop_ge in Hd by lia.
Qed.

Lemma source_loop_ok v bs fuel p remaining src max rest x shift :
  varint v bs -> (length bs <= fuel)%nat -> Z.of_nat (length bs) <= max -> 0 <= shift -> shift + 7 * Z.of_nat (length bs) <= 70 ->
  0 <= x < 2 ^ shift -> v * 2 ^ shift < 2 ^ 64 -> at_chunk p remaining src -> p ++ contents src = bs ++ rest ->
  exists src', source_loop fuel p remaining src max x shift = Ok (x + v * 2 ^ shift, src') /\ contents src' = rest.
Proof.
  intros Hv. revert fuel p remaining src max x shift.
  induction Hv as [v Hv|v b bs Hb Hpos Hv IH]; intros fuel p remaining src max x shift Hf Hn Hs Hlen Hx Hlt Hat Heq;
    (destruct fuel as [|fuel]; [cbn in Hf; lia|]); cbn [source_loop app length] in *.
  - destruct (source_byte_ok _ _ _ _ _ Hat Heq) as (p' & remaining' & src' & -> & Hp' & Hat'). cbn [rbind].
    destruct (high_bit_last v Hv) as [-> _]. destruct (piece_ok x v shift) as (-> & Hlor & _); [lia|done|done|done|].
    cbn [rbind]. rewrite Hlor. eexists. split; [done|]. by rewrite (back_up_ok p').
  - destruct (source_byte_ok _ _ _ _ _ Hat Heq) as (p' & remaining' & src' & -> & Hp' & Hat'). cbn [rbind].
    destruct (high_bit_more b Hb) as [-> ->]. destruct (group_bounds v b shift _ Hs Hb Hpos Hlt) as [Hlb Hlv].
    assert (1 <= length bs)%nat by (inversion Hv; cbn; lia).
    replace (max >? 1) with true by lia. cbn [check rbind].
    destruct (piece_ok x b shift) as (-> & Hlor & Hx'); [lia|done|done|done|]. cbn [rbind]. rewrite Hlor.
    destruct (IH fuel p' remaining' src' (max - 1) (x + b * 2 ^ shift) (shift + 7)) as (src'' & -> & Hc); [lia|lia|lia|lia|done|done|done|done|].
    exists src''. split; [|done]. rewrite <- group_value by lia. do 2 f_equal. lia.
Qed.

Lemma source128_loop_ok v bs fuel p remaining src max rest x shift :
  varint v bs -> (length bs <= fuel)%nat -> Z.of_nat (length bs) <= max -> 0 <= shift -> shift + 7 * Z.of_nat (length bs) <= 133 ->
  u128_ok x -> u128 x < 2 ^ shift -> v * 2 ^ shift < 2 ^ 128 -> at_chunk p remaining src -> p ++ contents src = bs ++ rest ->
  exists r src', source128_loop fuel p remaining src max x shift = Ok (r, src') /\ contents src' = rest
    /\ u128_ok r /\ u128 r = u128 x + v * 2 ^ shift.
Proof.
  intros Hv. revert fuel p remaining src max x shift.
  induction Hv as [v Hv|v b bs Hb Hpos Hv IH]; intros fuel p remaining src max x shift Hf Hn Hs Hlen Hok Hx Hlt Hat Heq;
    (destruct fuel as [|fuel]; [cbn in Hf; lia|]); cbn [source128_loop app length] in *.
  - destruct (source_byte_ok _ _ _ _ _ Hat Heq) as (p' & remaining' & src' & -> & Hp' & Hat'). cbn [rbind].
    destruct (high_bit_last v Hv) as [-> _].
    destruct (piece128_ok x v shift) as (q & -> & Hq & Hval & _); [done|lia|done|done|done|]. cbn [rbind].
    eexists _, _. split; [done|]. split; [by rewrite (back_up_ok p')|done].
  - destruct (source_byte_ok _ _ _ _ _ Hat Heq) as (p' & remaining' & src' & -> & Hp' & Hat'). cbn [rbind].
    destruct (high_bit_more b Hb) as [-> ->]. destruct (group_bounds v b shift _ Hs Hb Hpos Hlt) as [Hlb Hlv].
    assert (1 <= length bs)%nat by (inversion Hv; cbn; lia).
    replace (max >? 1) with true by lia. cbn [check rbind].
    destruct (piece128_ok x b shift) as (q & -> & Hq & Hval & Hx'); [done|lia|done|done|done|]. cbn [rbind].
    destruct (IH fuel p' remaining' src' (max - 1) (u128_or x q) (shift + 7)) as (r & src'' & -> & Hc & Hr & Hrv);
      [lia|lia|lia|lia|done|done|done|done|done|].
    exists r, src''. split; [done|]. split; [done|]. split; [done|]. rewrite Hrv, Hval, <- group_value by lia. lia.
Qed.

Lemma decode_sources v bs src rest :
  varint v bs -> small_chunks src -> contents src = bs ++ rest ->
  (v < 2 ^ 64 -> exists src', decodeFromByteSource src = Ok (v, src') /\ contents src' = rest)
  /\ (forall w, u128_ok w -> u128 w = v -> exists src', decode128FromByteSource src = Ok (w, src') /\ contents src' = rest).
Proof.
  intros Hv Hsmall Hc. assert (at_chunk [] 0 src) as Hat by (split_and!; [done|done|done|by left]). split.
  - intros Hlt. pose proof (varint_length v bs 10 Hv) as Hlen. change (2 ^ (7 * Z.of_nat 10)) with (2 ^ 70) in Hlen.
    specialize (Hlen ltac:(lia) ltac:(lia)). unfold decodeFromByteSource, kMaxSize64.
    destruct (source_loop_ok v bs 10 [] 0 src 10 rest 0 0 Hv) as (src' & -> & Hr); try (done || lia).
    exists src'. split; [|done]. do 2 f_equal. lia.
  - intros w Hw <-. pose proof (u128_bound w Hw) as Hb. pose proof (varint_length (u128 w) bs 19 Hv) as Hlen.
    change (2 ^ (7 * Z.of_nat 19)) with (2 ^ 133) in Hlen. specialize (Hlen ltac:(lia) ltac:(lia)).
    destruct u128_zero as [Hz0 Hz]. unfold decode128FromByteSource, kMaxSize128.
    destruct (source128_loop_ok (u128 w) bs 19 [] 0 src 19 rest (UInt128_of 0) 0 Hv) as (r & src' & -> & Hr & Hok & Hrv);
      try (done || lia).
    exists src'. split; [|done]. do 2 f_equal. apply u128_inj; [done|done|lia].
Qed.
End sources.

(** ** Arbitrary input *)

Lemma decode_fast_total n src x shift :
  (n <= length src)%nat -> 0 <= shift -> shift + 7 * Z.of_nat n <= 70 ->
  if existsb (fun v => negb (high_bit v)) (take n src) then exists r, decode_fast n src x shift = Ok r
  else decode_fast n src x shift = Err CheckFailed.
Proof.
  revert src x shift. induction n as [|n IH]; intros src x shift Hn Hs Hlen; [done|].
  destruct src as [|b src]; [cbn in Hn; lia|]. cbn [length] in Hn. cbn [decode_fast take existsb].
  rewrite shl64_ok by lia. cbn [rbind]. destruct (high_bit b); cbn [negb orb]; [|by eexists].
  apply IH; lia.
Qed.

Lemma decode_slow_total src x shift :
  src <> [] -> 0 <= shift -> shift + 7 * Z.of_nat (length src) <= 70 ->
  if existsb (fun v => negb (high_bit v)) src then exists r, decode_slow src (Z.of_nat (length src)) x shift = Ok r
  else decode_slow src (Z.of_nat (length src)) x shift = Err CheckFailed.
Proof.
  revert x shift. induction src as [|b src IH]; intros x shift Hne Hs Hlen; [done|]. cbn [length] in *.
  cbn [decode_slow existsb]. destruct (high_bit b); cbn [negb orb].
  - destruct src as [|b' src]; [done|]. cbn [length] in *.
    rewrite (proj2 (Z.gtb_lt (Z.of_nat (S (S (length src)))) 1)) by (clear IH; lia). cbn [check rbind]. rewrite shl64_ok by lia. cbn [rbind].
    replace (Z.of_nat (S (S (length src))) - 1) with (Z.of_nat (S (length src))) by lia. apply IH; [done|lia|lia].
  - rewrite shl64_ok by lia. cbn [rbind]. by eexists.
Qed.

Lemma decode_total data :
  data <> [] ->
  if canDecode data then exists r, decode_piece data = Ok r else decode_piece data = Err CheckFailed.
Proof.
  intros Hne. unfold decode_piece, decode, canDecode, kMaxSize64. change (Z.to_nat 10) with 10%nat.
  destruct (Z.of_nat (length data) >=? 10) eqn:E.
  - apply decode_fast_total; lia.
  - rewrite take_ge by lia. apply decode_slow_total; [done|lia|lia].
Qed.

(** * ZigZag *)

Lemma lxor_ones w x : 0 <= w -> 0 <= x < 2 ^ w -> Z.lxor x (2 ^ w - 1) = 2 ^ w - 1 - x.
Proof.
  intros Hw Hx. assert (2 ^ w - 1 = Z.ones w) as Hones by (rewrite Z.ones_equiv; lia). rewrite Hones.
  rewrite Z.sub_nocarry_ldiff.
  - apply Z.bits_inj'. intros i Hi. rewrite Z.lxor_spec, Z.ldiff_spec, Z.testbit_ones_nonneg by lia.
    destruct (i <? w) eqn:E; [by destruct (Z.testbit x i)|]. by rewrite (testbit_above w x) by lia.
  - apply Z.bits_inj'. intros i Hi. rewrite Z.ldiff_spec, Z.bits_0, Z.testbit_ones_nonneg by lia.
    destruct (i <? w) eqn:E; [by rewrite andb_false_r|]. by rewrite (testbit_above w x) by lia.
Qed.

Lemma pow2_half w : 1 <= w -> 2 ^ w = 2 * 2 ^ (w - 1) /\ 0 < 2 ^ (w - 1).
Proof. intros Hw. split; [rewrite <- Z.pow_succ_r by lia; f_equal; lia|apply Z.pow_pos_nonneg; lia]. Qed.

Lemma zigzag_encode_ok w val :
  1 <= w -> - 2 ^ (w - 1) <= val < 2 ^ (w - 1) ->
  zigzag_encode w val = if val >=? 0 then 2 * val else - 2 * val - 1.
Proof.
  intros Hw Hv. destruct (pow2_half w Hw) as [Hp Hpos]. unfold zigzag_encode.
  rewrite Z.shiftl_mul_pow2, Z.shiftr_div_pow2 by lia. change (2 ^ 1) with 2. destruct (val >=? 0) eqn:E.
  - rewrite (wrap_unsigned_id w val), (wrap_unsigned_id w (val * 2)), (Z.div_small val) by lia.
    unfold wrap_unsigned. rewrite Z.mod_0_l, Z.lxor_0_r, Z.mod_small by lia. lia.
  - assert (val / 2 ^ (w - 1) = -1) as -> by (symmetry; apply (Z.div_unique_pos _ _ _ (val + 2 ^ (w - 1))); lia).
    assert (wrap_unsigned w (-1) = 2 ^ w - 1) as -> by (symmetry; apply (Z.mod_unique_pos _ _ (-1)); lia).
    assert (wrap_unsigned w val = val + 2 ^ w) as -> by (symmetry; apply (Z.mod_unique_pos _ _ (-1)); lia).
    assert (wrap_unsigned w ((val + 2 ^ w) * 2) = 2 ^ w + 2 * val) as -> by (symmetry; apply (Z.mod_unique_pos _ _ 1); lia).
    rewrite lxor_ones, wrap_unsigned_id by lia. lia.
Qed.

Lemma zigzag_decode_ok w val :
  1 <= w -> 0 <= val < 2 ^ w -> ZigZag_decode w val = if Z.even val then val / 2 else - (val / 2) - 1.
Proof.
  intros Hw Hv. destruct (pow2_half w Hw) as [Hp Hpos]. unfold ZigZag_decode.
  rewrite Z.shiftr_div_pow2 by lia. change (2 ^ 1) with 2. change 1 with (2 ^ 1 - 1) at 1. rewrite land_mod by lia. change (2 ^ 1) with 2.
  assert (0 <= val / 2 < 2 ^ (w - 1)) as Hhalf by (split; [apply Z.div_pos; lia|apply Z.div_lt_upper_bound; lia]).
  pose proof (Zmod_even val) as Hmod. destruct (Z.even val); rewrite Hmod.
  - rewrite Z.opp_0. unfold wrap_unsigned. rewrite Z.mod_0_l, Z.lxor_0_r by lia. apply wrap_signed_id; lia.
  - assert (wrap_unsigned w (- (1)) = 2 ^ w - 1) as -> by (symmetry; apply (Z.mod_unique_pos _ _ (-1)); lia).
    rewrite lxor_ones by lia. unfold wrap_signed.
    assert ((2 ^ w - 1 - val / 2 + 2 ^ (w - 1)) mod 2 ^ w = 2 ^ (w - 1) - 1 - val / 2) as ->
      by (symmetry; apply (Z.mod_unique_pos _ _ 1); lia). lia.
Qed.

Lemma zigzag_inverse w :
  1 <= w ->
  (forall val, - 2 ^ (w - 1) <= val < 2 ^ (w - 1) -> ZigZag_decode w (zigzag_encode w val) = val)
  /\ (forall val, 0 <= val < 2 ^ w -> zigzag_encode w (ZigZag_decode w val) = val).
Proof.
  intros Hw. destruct (pow2_half w Hw) as [Hp Hpos]. split; intros val Hv.
  - rewrite (zigzag_encode_ok w val Hw Hv). destruct (val >=? 0) eqn:E.
    + rewrite zigzag_decode_ok by lia. rewrite Z.even_mul. cbn [Z.even orb]. euclidean.
    + rewrite zigzag_decode_ok by lia. replace (Z.even (-2 * val - 1)) with false; [euclidean|].
      rewrite Z.even_sub, Z.even_mul. done.
  - rewrite zigzag_decode_ok by done. pose proof (Zmod_even val) as Hmod. destruct (Z.even val) eqn:E.
    + rewrite zigzag_encode_ok by euclidean. replace (val / 2 >=? 0) with true by euclidean. euclidean.
    + rewrite zigzag_encode_ok by euclidean. replace (- (val / 2) - 1 >=? 0) with false by euclidean. euclidean.
Qed.

(** ** Two numbers in one *)

Lemma shift_unshift a b n :
  0 <= a < 2 ^ 64 -> 0 <= n < 64 -> 0 <= b < 2 ^ n ->
  exists s, shift a b n = Ok s /\ unshift s n = Ok (a, b).
Proof.
  intros Ha Hn Hb. unfold shift, unshift. destruct (u128_shl_word a n Ha ltac:(lia)) as (s & -> & Hs & Hsv). cbn [rbind].
  assert (0 < 2 ^ n <= 2 ^ 63) as Hp by (split; [apply Z.pow_pos_nonneg; lia|apply Z.pow_le_mono_r; lia]).
  rewrite Z.mod_small in Hsv by nia.
  assert (u128_ok (UInt128_of b)) as Hob by (split; cbn [hi lo UInt128_of]; lia).
  destruct (u128_or_ok s (UInt128_of b) Hs Hob) as [Hor Hv]. set (r := u128_or s (UInt128_of b)) in *. exists r. split; [done|].
  assert (u128 (UInt128_of b) = b) as Hub by (unfold u128; cbn; lia).
  rewrite Hsv, Hub, Z.lor_comm, lor_disjoint in Hv by lia.
  rewrite shl64_ok, Z.mul_1_l, Z.mod_small by lia. cbn [rbind]. cbv zeta. rewrite wrap_unsigned_id, land_mod by lia.
  destruct (u128_shr_ok r n Hor ltac:(lia)) as (q & -> & Hq & Hqv). cbn [rbind].
  rewrite Hv, Z.div_add, Z.div_small, Z.add_0_l in Hqv by lia.
  assert (lo q = a) as -> by (destruct Hq; unfold u128 in Hqv; lia).
  assert (lo r mod 2 ^ n = b) as ->; [|done].
  assert (u128 r mod 2 ^ n = b) as Hm by (rewrite Hv, Z.mod_add, Z.mod_small by lia; done).
  unfold u128 in Hm. rewrite (pow2_split n 64), Z.mul_assoc, (Z.mul_comm (hi r)), <- Z.mul_assoc in Hm by lia.
  by rewrite Z.add_comm, (Z.mul_comm (2 ^ n)), Z.mod_add in Hm by lia.
Qed.

(** * A byte source *)

(** Chunks to come and the chunk given last. *)
Definition chunks : Type := list (list Z) * list Z.

Fixpoint next_chunk (cs : list (list Z)) : option (list Z * chunks) :=
  match cs with
  | [] => None
  | [] :: cs => next_chunk cs
  | c :: cs => Some (c, (cs, c))
  end.

#[local] Instance chunks_source : ByteSource chunks := {|
  next s := next_chunk (fst s);
  backUp s n := (drop (length (snd s) - Z.to_nat n) (snd s) :: fst s, []);
  contents s := concat (fst s)
|}.

#[local] Instance chunks_laws : ByteSourceLaws chunks.
Proof.
  split.
  - intros [cs l] chunk s'. cbn. induction cs as [|[|b c] cs IH]; cbn; [done|done|]. by intros [= <- <-].
  - intros [cs l]. cbn. induction cs as [|[|b c] cs IH]; cbn; done.
  - intros [cs l] chunk s' n. cbn. induction cs as [|[|b c] cs IH]; cbn; [done|done|]. by intros [= <- <-].
Qed.

Lemma chunks_small cs l : Forall (fun c => Z.of_nat (length c) <= INT32_MAX) cs -> small_chunks ((cs, l) : chunks).
Proof.
  intros Hall s chunk s' Hr Hn.
  assert (forall cs chunk s', Forall (fun c => Z.of_nat (length c) <= INT32_MAX) cs -> next_chunk cs = Some (chunk, s') ->
            Z.of_nat (length chunk) <= INT32_MAX /\ Forall (fun c => Z.of_nat (length c) <= INT32_MAX) (fst s')) as Hstep.
  { clear. intros cs chunk s'. induction cs as [|[|b c] cs IH]; [done| |]; intros [Hc Hcs]%Forall_cons Hn; [by apply IH|].
    cbn in Hn. by injection Hn as <- <-. }
  assert (Forall (fun c => Z.of_nat (length c) <= INT32_MAX) (fst s)) as Hs; [|by apply (Hstep (fst s) chunk s')].
  remember ((cs, l) : chunks) as src eqn:E. assert (Forall (fun c => Z.of_nat (length c) <= INT32_MAX) (fst src)) as Hsrc by (by rewrite E).
  clear E Hall. induction Hr as [|src c s1 s2 Hc Hr IH]; [done|]. by apply IH, (Hstep (fst src) c s1).
Qed.

(** * Theorems *)

Lemma buffer_written f bs n :
  overwrites f bs -> (length bs <= n)%nat ->
  exists m, f (repeat 0 n, 0) = Ok m /\ take (Z.to_nat (snd m)) (fst m) = bs.
Proof.
  intros Hf Hn. replace n with (length bs + (n - length bs))%nat by lia. rewrite repeat_app.
  specialize (Hf [] (repeat 0 (length bs)) (repeat 0 (n - length bs)) ltac:(apply repeat_length)).
  cbn [app length] in Hf. change (Z.of_nat 0) with 0 in Hf. rewrite Hf. eexists. split; [done|]. cbn [fst snd]. by rewrite Nat2Z.id, take_app_length.
Qed.

Lemma varint_ends v bs : varint v bs -> exists c, In c bs /\ high_bit c = false.
Proof.
  induction 1 as [v Hv|v b bs Hb _ Hv (c & Hc & Hh)].
  - exists v. split; [by left|]. by destruct (high_bit_last v Hv).
  - exists c. split; [by right|done].
Qed.

Lemma varint_canDecode v bs rest : varint v bs -> (length bs <= 10)%nat -> canDecode (bs ++ rest) = true.
Proof.
  intros Hv Hl. destruct (varint_ends v bs Hv) as (c & Hc & Hh). unfold canDecode. apply existsb_exists. exists c.
  rewrite Hh. split; [|done]. change (Z.to_nat kMaxSize64) with 10%nat. rewrite take_app_ge by done. apply in_or_app. by left.
Qed.

(** C33. Variable-length integers: a 64-bit number is written to exactly the announced number of bytes, at most
    10, and nothing else of the memory changes; each of the decoders (with and without the fast path, from a
    piece and from any byte source) reads the number back and stops after its bytes.  The chunks of a byte source
    may be cut anywhere, but each has at most [2 ^ 31 - 1] bytes, since the decoders count them in an int32_t.  The
    same for 128-bit numbers and 19 bytes. *)
Theorem varint_roundtrip {Src : Type} `{ByteSourceLaws Src} (v : Z) (w : UInt128) :
  0 <= v < 2 ^ 64 -> u128_ok w ->
  (exists bs, size v = Ok (Z.of_nat (length bs)) /\ (1 <= length bs <= 10)%nat /\ overwrites (encode v) bs
     /\ (forall sink, encodeToByteSink v sink = Ok (sink ++ bs))
     /\ (forall rest max, Z.of_nat (length bs) <= max -> decode (bs ++ rest) max = Ok (v, rest))
     /\ (forall rest, canDecode (bs ++ rest) = true /\ decode_piece (bs ++ rest) = Ok (v, rest))
     /\ (forall (src : Src) rest, small_chunks src -> contents src = bs ++ rest ->
          exists src', decodeFromByteSource src = Ok (v, src') /\ contents src' = rest))
  /\ (exists bs, size128 w = Ok (Z.of_nat (length bs)) /\ (1 <= length bs <= 19)%nat /\ overwrites (encode128 w) bs
     /\ (forall sink, encode128ToByteSink w sink = Ok (sink ++ bs))
     /\ (forall rest max, Z.of_nat (length bs) <= max -> decode128 (bs ++ rest) max = Ok (w, rest))
     /\ (forall rest, decode128_piece (bs ++ rest) = Ok (w, rest))
     /\ (forall (src : Src) rest, small_chunks src -> contents src = bs ++ rest ->
          exists src', decode128FromByteSource src = Ok (w, src') /\ contents src' = rest)).
Proof.
  intros Hv Hw. split.
  - destruct (encode_varint 9 v) as (bs & Hbs & Hover & Hsize); [change (2 ^ (7 * Z.of_nat 10)) with (2 ^ 70); lia|].
    pose proof (varint_length v bs 10 Hbs ltac:(change (2 ^ (7 * Z.of_nat 10)) with (2 ^ 70); lia) ltac:(lia)) as Hlen.
    exists bs. split_and!; [unfold size; rewrite Hsize; f_equal; lia|lia|lia|exact Hover|..].
    + intros sink. unfold encodeToByteSink, kMaxSize64. change (Z.to_nat 10) with 10%nat.
      destruct (buffer_written (encode v) bs 10 Hover ltac:(lia)) as (m & -> & Hm). cbn [rbind]. by rewrite Hm.
    + intros rest max Hmax. apply varint_decode_ok; [done|lia|done].
    + intros rest. split; [apply (varint_canDecode v); [done|lia]|]. apply varint_decode_ok; [done|lia|]. rewrite length_app. lia.
    + intros src rest Hs Hc. apply (decode_sources v bs src rest Hbs Hs Hc). lia.
  - pose proof (u128_bound w Hw) as Hb.
    destruct (encode128_varint 18 w Hw) as (bs & Hbs & Hover & Hsize); [change (2 ^ (7 * Z.of_nat 19)) with (2 ^ 133); lia|].
    pose proof (varint_length _ bs 19 Hbs ltac:(change (2 ^ (7 * Z.of_nat 19)) with (2 ^ 133); lia) ltac:(lia)) as Hlen.
    exists bs. split_and!; [unfold size128; rewrite Hsize; f_equal; lia|lia|lia|exact Hover|..].
    + intros sink. unfold encode128ToByteSink, kMaxSize128. change (Z.to_nat 19) with 19%nat.
      destruct (buffer_written (encode128 w) bs 19 Hover ltac:(lia)) as (m & -> & Hm). cbn [rbind]. by rewrite Hm.
    + intros rest max Hmax. by apply decode128_ok.
    + intros rest. apply decode128_ok; [done|done|]. rewrite length_app. lia.
    + intros src rest Hs Hc. by apply (decode_sources (u128 w) bs src rest Hbs Hs Hc).
Qed.

(** 300, in a chunk of its own before another one, and 2^64 in two words. *)
Lemma varint_roundtrip_witness :
  (exists (bs : list Z) (src' : chunks), size 300 = Ok (Z.of_nat (length bs))
     /\ decodeFromByteSource ([bs; [7]], []) = Ok (300, src') /\ contents src' = [7])
  /\ (exists bs : list Z, size128 (mkUInt128 1 0) = Ok (Z.of_nat (length bs))).
Proof.
  destruct (varint_roundtrip (Src := chunks) 300 (mkUInt128 1 0)) as [(bs & Hsize & Hlen & _ & _ & _ & _ & Hsrc) (bs' & Hsize' & _)].
  - lia.
  - split; cbn [hi lo]; lia.
  - split; [|exact (ex_intro _ bs' Hsize')]. destruct (Hsrc ([bs; [7]], []) [7]) as (src' & Hrun & Hrest).
    + apply chunks_small. repeat constructor; cbn [length]; lia.
    + reflexivity.
    + exact (ex_intro _ bs (ex_intro _ src' (conj Hsize (conj Hrun Hrest)))).
Defined.

(** A number that is the first byte of a chunk of more than 2^31 bytes: the count of the remaining ones is negative,
    and a number of bytes that no chunk has is pushed back. *)
Lemma large_chunk_backed_up {Src : Type} `{ByteSource Src} src p src' :
  next src = Some (0 :: p, src') -> Z.of_nat (length p) = 2 ^ 31 ->
  decodeFromByteSource src = Ok (0, backUp src' (2 ^ 64 - 2 ^ 31)).
Proof.
  intros Hn Hp. unfold decodeFromByteSource. cbn [source_loop]. unfold source_byte. rewrite Z.eqb_refl, Hn. cbn [rbind length].
  rewrite Nat2Z.inj_succ, Hp. change (wrap_signed 32 (Z.succ (2 ^ 31))) with (1 - 2 ^ 31). change (ck32 (1 - 2 ^ 31 - 1)) with (@Ok Z (- 2 ^ 31)). reflexivity.
Qed.

(** Reading any bytes as a number: decoding a piece that is not empty stays inside of it, and returns
    exactly when [canDecode] says so; else the check for a corrupt number fails. *)
Theorem varint_corrupt data :
  data <> [] ->
  if canDecode data then exists v rest, decode_piece data = Ok (v, rest) else decode_piece data = Err CheckFailed.
Proof.
  intros Hne. pose proof (decode_total data Hne) as H. destruct (canDecode data); [|done].
  destruct H as [[v rest] Hr]. by exists v, rest.
Qed.

Lemma varint_corrupt_witness : decode_piece [255; 128; 200] = Err CheckFailed /\ canDecode [255; 128; 200] = false.
Proof. exact (conj (varint_corrupt [255; 128; 200] ltac:(discriminate)) eq_refl). Defined.

(** Decoding nothing reads past the end. *)
Lemma decode_empty_reads : decode_piece [] = Err BadAccess.
Proof. done. Qed.

(** C34. The type UInt128: two words of 64 bits stay words of 64 bits under every operation, and represent the result of the
    operation on 128-bit unsigned integers: or, and, complement, both shifts by less than 128, and comparison. *)
Theorem uint128_words a b n :
  u128_ok a -> u128_ok b -> 0 <= n < 128 ->
  (u128_ok (u128_or a b) /\ u128 (u128_or a b) = Z.lor (u128 a) (u128 b))
  /\ (u128_ok (u128_and a b) /\ u128 (u128_and a b) = Z.land (u128 a) (u128 b))
  /\ (u128_ok (u128_not a) /\ u128 (u128_not a) = 2 ^ 128 - 1 - u128 a)
  /\ (exists c, u128_shl a n = Ok c /\ u128_ok c /\ u128 c = u128 a * 2 ^ n mod 2 ^ 128)
  /\ (exists c, u128_shr a n = Ok c /\ u128_ok c /\ u128 c = u128 a / 2 ^ n)
  /\ (u128_eq a b = true <-> u128 a = u128 b).
Proof.
  intros Ha Hb Hn. split_and!.
  - by apply u128_or_ok.
  - by apply u128_or_ok.
  - by apply u128_and_ok.
  - by apply u128_and_ok.
  - by apply u128_not_ok.
  - by apply u128_not_ok.
  - by apply u128_shl_ok.
  - destruct (decide (n < 64)); [apply u128_shr_ok; [done|lia]|apply u128_shr_high; [done|lia]].
  - unfold u128_eq, u128. destruct Ha, Hb. rewrite andb_true_iff, !Z.eqb_eq. lia.
Qed.

Lemma uint128_words_witness :
  exists c, u128_shl (mkUInt128 1 (2 ^ 63)) 65 = Ok c /\ u128_ok c /\ u128 c = u128 (mkUInt128 1 (2 ^ 63)) * 2 ^ 65 mod 2 ^ 128.
Proof. apply (uint128_words (mkUInt128 1 (2 ^ 63)) (UInt128_of 7) 65); [split; cbn; lia..|lia]. Defined.

(** Zig-zag encoding maps the signed integers of a width to the unsigned ones, one to one: 2 * x for x >= 0
    and -2 * x - 1 for x < 0, for 64 and 128 bits; [unshift] inverts [shift]. *)
Theorem zigzag_bijection :
  (forall x, INT64_MIN <= x <= INT64_MAX ->
     ZigZag_encode x = (if x >=? 0 then 2 * x else - 2 * x - 1) /\ ZigZag_decode 64 (ZigZag_encode x) = x)
  /\ (forall u, 0 <= u < 2 ^ 64 -> ZigZag_encode (ZigZag_decode 64 u) = u)
  /\ (forall x, INT128_MIN <= x <= INT128_MAX ->
     encodeInt128 x = (if x >=? 0 then 2 * x else - 2 * x - 1) /\ ZigZag_decode 128 (encodeInt128 x) = x)
  /\ (forall u, 0 <= u < 2 ^ 128 -> encodeInt128 (ZigZag_decode 128 u) = u)
  /\ (forall a b n, 0 <= a < 2 ^ 64 -> 0 <= n < 64 -> 0 <= b < 2 ^ n ->
     exists s, shift a b n = Ok s /\ unshift s n = Ok (a, b)).
Proof.
  destruct (zigzag_inverse 64 ltac:(lia)) as [Hde Hed]. destruct (zigzag_inverse 128 ltac:(lia)) as [Hde' Hed'].
  unfold ZigZag_encode, encodeInt128. split_and!.
  - intros x Hx. split; [apply zigzag_encode_ok; lia|apply Hde; lia].
  - intros u Hu. apply Hed. lia.
  - intros x Hx. split; [apply zigzag_encode_ok; lia|apply Hde'; lia].
  - intros u Hu. apply Hed'. lia.
  - exact shift_unshift.
Qed.
