(* ===== verification/BigintIdMap.v ===== *)
(** The hash table that numbers 64-bit integers (bolt/common/base/BigintIdMap.h and BigintIdMap.cpp): entries of
    12 bytes, probed from the hash of the value on, four values at a time. *)

From S2P Require Import Prelude BitUtil.

(** * Memory *)

(** The table as words of 32 bits; an offset is in bytes. *)
Definition load32 (t : list Z) (offset : Z) : result Z :=
  if offset mod 4 =? 0 then at_index t (offset / 4) else Err BadAccess.

Definition load64 (t : list Z) (offset : Z) : result Z :=
  let! low := load32 t offset in
  let! high := load32 t (offset + 4) in
  Ok (wrap_signed 64 (high * 2 ^ 32 + low)).

Definition store32 (t : list Z) (offset x : Z) : result (list Z) :=
  if offset mod 4 =? 0 then set_index t (offset / 4) (wrap_unsigned 32 x) else Err BadAccess.

Definition store64 (t : list Z) (offset x : Z) : result (list Z) :=
  let! t := store32 t offset (x mod 2 ^ 32) in
  store32 t (offset + 4) (x / 2 ^ 32).

(** * The map *)

Definition kNotFound : Z := -1.
Definition kEmptyMarker : Z := 0.
Definition kMaxCapacity : Z := 2 ^ 30.
Definition kEntrySize : Z := 12.
Definition kReadPadding : Z := 4.
Definition kMultLow : Z := 1971049.
Definition kMultHigh : Z := 1470709.
Definition kLow32 : Z := 2 ^ 32 - 1.

(** Batches have four lanes. *)
Definition kLanes : Z := 4.
Definition kAllSet : Z := 15.

Record BigintIdMap : Type := mkBigintIdMap {
  lastId_ : Z;
  emptyId_ : Z;
  emptyBatch_ : Z;  (* the same in all lanes *)
  table_ : list Z;
  capacity_ : Z;
  sizeMask_ : Z;
  byteSize_ : Z;
  limit_ : Z;
  numEntries_ : Z;
  maxEntries_ : Z
}.

(** The pool gives memory that is then cleared. *)
Definition makeTable (m : BigintIdMap) (capacity : Z) : result BigintIdMap :=
  check! capacity <=? kMaxCapacity in
  let byteSize := capacity * kEntrySize + kReadPadding in
  Ok (mkBigintIdMap (lastId_ m) (emptyId_ m) (emptyBatch_ m) (repeat 0 (Z.to_nat (byteSize / 4))) capacity (capacity - 1)
        byteSize (capacity * kEntrySize) (numEntries_ m) (wrap_signed 32 (capacity - Z.quot capacity 4))).

(** The capacity is converted to uint64_t and its power of two back to int32_t. *)
Definition make_BigintIdMap (capacity : Z) : result BigintIdMap :=
  makeTable (mkBigintIdMap 0 0 kNotFound [] 0 0 0 0 0 0)
    (Z.max (2 * (kLanes * 8)) (wrap_signed 32 (nextPowerOfTwo (wrap_unsigned 64 capacity)))).

Definition indexOfEntry (m : BigintIdMap) (value : Z) : Z :=
  let high := wrap_unsigned 32 (wrap_unsigned 64 (kMultHigh * Z.shiftr (wrap_unsigned 64 value) 32)) in
  let low := wrap_unsigned 32 (wrap_unsigned 64 (kMultLow * wrap_unsigned 32 value)) in
  Z.land (Z.lxor high low) (sizeMask_ m).

(** The distance of an entry in words, for a lane: the product of the halves, as lanes of 32 bits. *)
Definition makeIndex (m : BigintIdMap) (value : Z) : Z :=
  let v := wrap_unsigned 64 value in
  let multiplier := Z.lor (Z.shiftl kMultHigh 32) kMultLow in
  let hash := wrap_unsigned 32 (Z.shiftr v 32 * Z.shiftr multiplier 32) * 2 ^ 32
              + wrap_unsigned 32 (wrap_unsigned 32 v * wrap_unsigned 32 multiplier) in
  let index := Z.land (Z.lxor (Z.shiftr hash 32) hash) (sizeMask_ m) in
  index + index + index.

(** The offset of an entry; the product is of type int32_t. *)
Definition valuePtr (i : Z) : result Z := ck32 (kEntrySize * wrap_signed 32 i).
Definition idPtr (valuePtr : Z) : Z := valuePtr + 8.

(** ** Resizing *)

(** The entries from an index on until one is empty. *)
Fixpoint find_empty (fuel : nat) (t : list Z) (sizeMask newIndex : Z) : result Z :=
  match fuel with
  | O => Err OutOfFuel
  | S fuel =>
      let! newPtr := valuePtr newIndex in
      let! v := load64 t newPtr in
      if v =? kEmptyMarker then Ok newPtr else find_empty fuel t sizeMask (Z.land (newIndex + 1) sizeMask)
  end.

(** The loop over the entries of the old table, the remaining [n] from [i] on. *)
Fixpoint rehash (n : nat) (i : Z) (m : BigintIdMap) (oldTable t : list Z) : result (list Z) :=
  match n with
  | O => Ok t
  | S n =>
      let! ptr := valuePtr i in
      let! v := load64 oldTable ptr in
      if v =? kEmptyMarker then rehash n (i + 1) m oldTable t
      else
        let! newPtr := find_empty (Z.to_nat (capacity_ m)) t (sizeMask_ m) (indexOfEntry m v) in
        let! t := store64 t newPtr v in
        let! id := load32 oldTable (idPtr ptr) in
        let! t := store32 t (idPtr newPtr) id in
        rehash n (i + 1) m oldTable t
  end.

Definition with_table (m : BigintIdMap) (t : list Z) : BigintIdMap :=
  mkBigintIdMap (lastId_ m) (emptyId_ m) (emptyBatch_ m) t (capacity_ m) (sizeMask_ m) (byteSize_ m) (limit_ m)
    (numEntries_ m) (maxEntries_ m).

Definition resize (m : BigintIdMap) (newCapacity : Z) : result BigintIdMap :=
  check! newCapacity <=? kMaxCapacity in
  let oldCapacity := capacity_ m in
  let oldTable := table_ m in
  let! m := makeTable m newCapacity in
  let! t := rehash (Z.to_nat oldCapacity) 0 m oldTable (table_ m) in
  Ok (with_table m t).

(** ** Batches *)

Definition lanes_and (a b : list bool) : list bool := zip_with andb a b.
Definition lanes_or (a b : list bool) : list bool := zip_with orb a b.
Definition lanes_not (a : list bool) : list bool := map negb a.
Definition lanes_eq (x y : list Z) : list bool := zip_with Z.eqb x y.

Definition select (mask : list bool) (a b : list Z) : list Z :=
  zip_with (fun (c : bool) p => if c then fst p else snd p) mask (zip a b).

Definition broadcast {A} (x : A) : list A := repeat x (Z.to_nat kLanes).

Definition fromBitMask (mask : Z) : list bool := map (Z.testbit mask) (seqZ 0 kLanes).

(** [maskGather<int64_t, int64_t, 4>]: the loads of the active lanes, at a distance in bytes from the table. *)
Fixpoint maskGather (src : list Z) (mask : list bool) (t : list Z) (base : Z) (indices : list Z) : result (list Z) :=
  match src, mask, indices with
  | s :: src, c :: mask, i :: indices =>
      let! v := if c : bool then load64 t (base + 4 * i) else Ok s in
      let! rest := maskGather src mask t base indices in
      Ok (v :: rest)
  | _, _, _ => Ok []
  end.

(** The loop over the entries from an offset on: the offset of the value or of an empty entry, and which. *)
Fixpoint probe (fuel : nat) (t : list Z) (limit value byteOffset : Z) : result (Z * bool) :=
  match fuel with
  | O => Err OutOfFuel
  | S fuel =>
      let! v := load64 t byteOffset in
      if v =? kEmptyMarker then Ok (byteOffset, true)
      else if v =? value then Ok (byteOffset, false)
      else
        let byteOffset := byteOffset + kEntrySize in
        probe fuel t limit value (if byteOffset >=? limit then 0 else byteOffset)
  end.

(** The id of the value of one lane, which is given one if it has none. *)
Definition make_id (m : BigintIdMap) (value index : Z) : result (BigintIdMap * Z) :=
  let! r := probe (Z.to_nat (capacity_ m)) (table_ m) (limit_ m) value (4 * index) in
  let '(byteOffset, empty) := r in
  if empty : bool then
    let! t := store64 (table_ m) byteOffset value in
    let! lastId := ck32 (lastId_ m + 1) in
    let! t := store32 t (byteOffset + 8) lastId in
    let! numEntries := ck32 (numEntries_ m + 1) in
    Ok (mkBigintIdMap lastId (emptyId_ m) (emptyBatch_ m) t (capacity_ m) (sizeMask_ m) (byteSize_ m) (limit_ m) numEntries
          (maxEntries_ m), wrap_unsigned 32 lastId)
  else
    let! id := load32 (table_ m) (byteOffset + 8) in
    Ok (m, id).

(** The loop over the lanes that are missed, from the lowest on. *)
Fixpoint make_ids (m : BigintIdMap) (misses : list bool) (x indices result : list Z) : Prelude.result (BigintIdMap * list Z) :=
  match misses, x, indices, result with
  | c :: misses, v :: x, i :: indices, r :: result =>
      let! p := if c : bool then make_id m v i else Ok (m, r) in
      let! q := make_ids (fst p) misses x indices result in
      Ok (fst q, snd p :: snd q)
  | _, _, _, _ => Ok (m, [])
  end.

Definition with_empty (m : BigintIdMap) (lastId : Z) : BigintIdMap :=
  mkBigintIdMap lastId lastId lastId (table_ m) (capacity_ m) (sizeMask_ m) (byteSize_ m) (limit_ m) (numEntries_ m)
    (maxEntries_ m).

Definition low32 (x : list Z) : list Z := map (fun v => Z.land v kLow32) x.

(** The lanes after the value that marks empty entries has been handled. *)
Definition makeIds_rest (m : BigintIdMap) (x ready : list Z) (activeLanes : list bool) : result (BigintIdMap * list Z) :=
  let indices := map (makeIndex m) x in
  let! data := maskGather ready activeLanes (table_ m) 0 indices in
  let matchVector := lanes_and (lanes_eq x data) activeLanes in
  let! ready := maskGather ready matchVector (table_ m) 8 indices in
  let matches := lanes_or matchVector (lanes_not activeLanes) in
  if forallb id matches then Ok (m, low32 ready)
  else
    let! r := make_ids m (lanes_not matches) x indices ready in
    let '(m, resultArray) := r in
    let! m := if numEntries_ m >? maxEntries_ m then resize m (capacity_ m * 2) else Ok m in
    Ok (m, low32 resultArray).

Definition makeIds (m : BigintIdMap) (x : list Z) (mask : Z) : result (BigintIdMap * list Z) :=
  if mask =? 0 then Ok (m, broadcast 0)
  else
    let activeLanes := fromBitMask mask in
    let ready := broadcast 0 in
    let emptyMarkerVector := lanes_eq x (broadcast kEmptyMarker) in
    if existsb id emptyMarkerVector then
      let! m :=
        if (emptyId_ m =? 0) && existsb id (lanes_and emptyMarkerVector activeLanes) then
          let! lastId := ck32 (lastId_ m + 1) in
          Ok (with_empty m lastId)
        else Ok m in
      let ready := select (lanes_and emptyMarkerVector activeLanes) (broadcast (emptyBatch_ m)) ready in
      let activeLanes := lanes_and activeLanes (lanes_not emptyMarkerVector) in
      if negb (existsb id activeLanes) then Ok (m, ready)
      else makeIds_rest m x ready activeLanes
    else makeIds_rest m x ready activeLanes.

(** ** Lookup *)

Definition find_id (m : BigintIdMap) (value index : Z) : result Z :=
  let byteOffset := 4 * index in
  let byteOffset := if byteOffset >=? limit_ m then 0 else byteOffset in
  let! r := probe (Z.to_nat (capacity_ m)) (table_ m) (limit_ m) value byteOffset in
  let '(byteOffset, empty) := r in
  if empty : bool then Ok kNotFound else load32 (table_ m) (byteOffset + 8).

Fixpoint find_ids (m : BigintIdMap) (misses : list bool) (x indices result : list Z) : Prelude.result (list Z) :=
  match misses, x, indices, result with
  | c :: misses, v :: x, i :: indices, r :: result =>
      let! p := if c : bool then find_id m v i else Ok r in
      let! q := find_ids m misses x indices result in
      Ok (p :: q)
  | _, _, _, _ => Ok []
  end.

Definition findIds_rest (m : BigintIdMap) (x ready : list Z) (activeLanes : list bool) : result (list Z) :=
  let indices := map (makeIndex m) x in
  let! data := maskGather ready activeLanes (table_ m) 0 indices in
  let missVector := lanes_and (lanes_eq data (broadcast kEmptyMarker)) activeLanes in
  let matchVector := lanes_and (lanes_eq x data) activeLanes in
  let! ready := maskGather ready matchVector (table_ m) 8 indices in
  let ready := select matchVector (low32 ready) ready in
  let ready := select missVector (broadcast kNotFound) ready in
  let matches := lanes_or (lanes_or matchVector (lanes_not activeLanes)) missVector in
  if forallb id matches then Ok ready
  else find_ids m (lanes_not matches) x (map (Z.add 3) indices) ready.

Definition findIds (m : BigintIdMap) (x : list Z) (mask : Z) : result (list Z) :=
  if mask =? 0 then Ok (broadcast 0)
  else
    let activeLanes := fromBitMask mask in
    let ready := broadcast 0 in
    let emptyMarkerVector := lanes_eq x (broadcast kEmptyMarker) in
    if existsb id emptyMarkerVector then
      let ready := select (lanes_and emptyMarkerVector activeLanes) (broadcast (emptyBatch_ m)) ready in
      let activeLanes := lanes_and activeLanes (lanes_not emptyMarkerVector) in
      if negb (existsb id activeLanes) then Ok ready
      else findIds_rest m x ready activeLanes
    else findIds_rest m x ready activeLanes.

(** * The table as entries *)

(** An entry: the value and its id. *)
Abbreviation entry := (Z * Z)%type.

Definition value_ok (v : Z) : Prop := INT64_MIN <= v <= INT64_MAX.
Definition entry_ok (e : entry) : Prop := value_ok (fst e) /\ 0 <= snd e < 2 ^ 32.

Fixpoint layout (es : list entry) : list Z :=
  match es with
  | [] => [0]
  | (v, id) :: es => v mod 2 ^ 32 :: (v / 2 ^ 32) mod 2 ^ 32 :: id :: layout es
  end.

Lemma layout_value es i v id :
  es !! i = Some (v, id) ->
  layout es !! (3 * i)%nat = Some (v mod 2 ^ 32) /\ layout es !! (3 * i + 1)%nat = Some ((v / 2 ^ 32) mod 2 ^ 32)
  /\ layout es !! (3 * i + 2)%nat = Some id.
Proof.
  revert i. induction es as [|[w j] es IH]; intros i Hi; [done|]. destruct i as [|i].
  - by injection Hi as -> ->.
  - cbn [lookup list_lookup] in Hi. destruct (IH i Hi) as (H0 & H1 & H2).
    replace (3 * S i)%nat with (S (S (S (3 * i)))) by lia.
    replace (S (S (S (3 * i))) + 1)%nat with (S (S (S (3 * i + 1)))) by lia.
    replace (S (S (S (3 * i))) + 2)%nat with (S (S (S (3 * i + 2)))) by lia. done.
Qed.

Lemma layout_length es : length (layout es) = (3 * length es + 1)%nat.
Proof. induction es as [|[v id] es IH]; cbn [layout length]; lia. Qed.

Lemma layout_insert es i v id v' id' :
  es !! i = Some (v, id) ->
  layout (<[i := (v', id')]> es)
  = <[(3 * i + 2)%nat := id']> (<[(3 * i + 1)%nat := (v' / 2 ^ 32) mod 2 ^ 32]> (<[(3 * i)%nat := v' mod 2 ^ 32]> (layout es))).
Proof.
  revert i. induction es as [|[w j] es IH]; intros i Hi; [done|]. destruct i as [|i]; [done|].
  cbn [lookup list_lookup] in Hi. specialize (IH i Hi). cbn [insert list_insert] in IH |- *. cbn [layout].
  fold (layout (<[i := (v', id')]> es)).
  replace (3 * S i)%nat with (S (S (S (3 * i)))) by lia.
  replace (S (S (S (3 * i))) + 1)%nat with (S (S (S (3 * i + 1)))) by lia.
  replace (S (S (S (3 * i))) + 2)%nat with (S (S (S (3 * i + 2)))) by lia. cbn [insert list_insert].
  do 3 f_equal. exact IH.
Qed.

Lemma word_offset i k : (0 <= k < 4) -> (12 * Z.of_nat i + 4 * k) mod 4 = 0 /\ (12 * Z.of_nat i + 4 * k) / 4 = 3 * Z.of_nat i + k.
Proof. intros Hk. split; euclidean. Qed.

Lemma load32_at t i k x :
  0 <= k < 4 -> t !! (3 * i + Z.to_nat k)%nat = Some x -> load32 t (12 * Z.of_nat i + 4 * k) = Ok x.
Proof.
  intros Hk Hx. unfold load32. destruct (word_offset i k Hk) as [-> ->]. cbn [Z.eqb].
  apply at_index_ok; [lia|]. by replace (Z.to_nat (3 * Z.of_nat i + k)) with (3 * i + Z.to_nat k)%nat by lia.
Qed.

Lemma halves v : value_ok v -> wrap_signed 64 ((v / 2 ^ 32) mod 2 ^ 32 * 2 ^ 32 + v mod 2 ^ 32) = v.
Proof.
  unfold value_ok. intros Hv. unfold wrap_signed. change (2 ^ (64 - 1)) with (2 ^ 63). euclidean.
Qed.

Lemma load64_value es i v id :
  es !! i = Some (v, id) -> value_ok v -> load64 (layout es) (12 * Z.of_nat i) = Ok v.
Proof.
  intros Hi Hv. destruct (layout_value es i v id Hi) as (H0 & H1 & _). unfold load64.
  replace (12 * Z.of_nat i) with (12 * Z.of_nat i + 4 * 0) at 1 by lia.
  rewrite (load32_at _ i 0 (v mod 2 ^ 32)) by (lia || by rewrite Nat.add_0_r). cbn [rbind].
  replace (12 * Z.of_nat i + 4) with (12 * Z.of_nat i + 4 * 1) by lia.
  rewrite (load32_at _ i 1 ((v / 2 ^ 32) mod 2 ^ 32)) by (lia || done). cbn [rbind]. by rewrite halves.
Qed.

Lemma load32_id es i v id : es !! i = Some (v, id) -> load32 (layout es) (12 * Z.of_nat i + 8) = Ok id.
Proof.
  intros Hi. destruct (layout_value es i v id Hi) as (_ & _ & H2).
  replace (12 * Z.of_nat i + 8) with (12 * Z.of_nat i + 4 * 2) by lia. apply load32_at; [lia|done].
Qed.

(** The id is loaded with the word after it, for the last entry with the padding. *)
Lemma load64_id es i v id :
  es !! i = Some (v, id) -> 0 <= id < 2 ^ 32 ->
  exists x, load64 (layout es) (12 * Z.of_nat i + 8) = Ok x /\ Z.land x kLow32 = id.
Proof.
  intros Hi Hid. pose proof (lookup_lt_Some _ _ _ Hi) as Hlt. unfold load64. rewrite (load32_id es i v id) by done. cbn [rbind].
  destruct (lookup_lt_is_Some_2 (layout es) (3 * i + 3)%nat) as [w Hw]; [rewrite layout_length; lia|].
  replace (12 * Z.of_nat i + 8 + 4) with (12 * Z.of_nat i + 4 * 3) by lia. rewrite (load32_at _ i 3 w) by (lia || done).
  cbn [rbind]. eexists. split; [done|]. unfold kLow32. rewrite land_mod by lia. unfold wrap_signed.
  change (2 ^ (64 - 1)) with (2 ^ 63). euclidean.
Qed.

Lemma store32_at t i k x :
  0 <= k < 4 -> (3 * i + Z.to_nat k < length t)%nat ->
  store32 t (12 * Z.of_nat i + 4 * k) x = Ok (<[(3 * i + Z.to_nat k)%nat := wrap_unsigned 32 x]> t).
Proof.
  intros Hk Hlt. unfold store32. destruct (word_offset i k Hk) as [-> ->]. cbn [Z.eqb].
  rewrite set_index_ok by lia. by replace (Z.to_nat (3 * Z.of_nat i + k)) with (3 * i + Z.to_nat k)%nat by lia.
Qed.

(** An entry is written: the value, and later the id. *)
Lemma store64_value es i v id v' :
  es !! i = Some (v, id) -> store64 (layout es) (12 * Z.of_nat i) v' = Ok (layout (<[i := (v', id)]> es)).
Proof.
  intros Hi. pose proof (lookup_lt_Some _ _ _ Hi) as Hlt. destruct (layout_value es i v id Hi) as (_ & _ & H2). unfold store64.
  replace (12 * Z.of_nat i) with (12 * Z.of_nat i + 4 * 0) at 1 by lia. rewrite store32_at by (lia || rewrite layout_length; lia).
  cbn [rbind]. replace (12 * Z.of_nat i + 4) with (12 * Z.of_nat i + 4 * 1) by lia.
  rewrite store32_at by (lia || rewrite length_insert, layout_length; lia). f_equal.
  rewrite (layout_insert es i v id) by done. unfold wrap_unsigned. rewrite Z.mod_mod, Nat.add_0_r by lia.
  change (Z.to_nat 1) with 1%nat. symmetry. apply list_insert_id. rewrite !list_lookup_insert_ne by lia. done.
Qed.

Lemma store32_id es i v id id' :
  es !! i = Some (v, id) -> store32 (layout es) (12 * Z.of_nat i + 8) id' = Ok (layout (<[i := (v, wrap_unsigned 32 id')]> es)).
Proof.
  intros Hi. pose proof (lookup_lt_Some _ _ _ Hi) as Hlt. destruct (layout_value es i v id Hi) as (H0 & H1 & _).
  replace (12 * Z.of_nat i + 8) with (12 * Z.of_nat i + 4 * 2) by lia.
  rewrite store32_at by (lia || rewrite layout_length; lia). f_equal. rewrite (layout_insert es i v id) by done.
  change (Z.to_nat 2) with 2%nat. f_equal. rewrite (list_insert_id (layout es) (3 * i)) by done. by rewrite list_insert_id.
Qed.

(** * Probing *)

Definition at_slot (es : list entry) (j : nat) : entry := es !!! (j mod length es)%nat.

Lemma at_slot_lookup es j : es <> [] -> es !! (j mod length es)%nat = Some (at_slot es j).
Proof.
  intros Hne. apply list_lookup_lookup_total_lt. apply Nat.mod_upper_bound. by destruct es.
Qed.

Lemma at_slot_shift es i k : at_slot es (i mod length es + k) = at_slot es (i + k).
Proof. unfold at_slot. by rewrite Nat.Div0.add_mod_idemp_l. Qed.

(** The entry after another one. *)
Lemma next_entry n i :
  (i < n)%nat -> (if 12 * Z.of_nat i + 12 >=? 12 * Z.of_nat n then 0 else 12 * Z.of_nat i + 12) = 12 * Z.of_nat ((i + 1) mod n).
Proof.
  intros Hi. destruct (12 * Z.of_nat i + 12 >=? 12 * Z.of_nat n) eqn:E.
  - replace (i + 1)%nat with n by lia. rewrite Nat.Div0.mod_same. done.
  - rewrite Nat.mod_small by lia. lia.
Qed.

Lemma probe_ok es v fuel k i :
  Forall entry_ok es -> (i < length es)%nat -> (k < fuel)%nat ->
  (forall j, (j < k)%nat -> fst (at_slot es (i + j)) <> 0 /\ fst (at_slot es (i + j)) <> v) ->
  fst (at_slot es (i + k)) = 0 \/ fst (at_slot es (i + k)) = v ->
  probe fuel (layout es) (12 * Z.of_nat (length es)) v (12 * Z.of_nat i)
  = Ok (12 * Z.of_nat ((i + k) mod length es), fst (at_slot es (i + k)) =? 0).
Proof.
  intros Hok. revert fuel i. induction k as [|k IH]; intros fuel i Hi Hf Hbefore Hat;
    (destruct fuel as [|fuel]; [lia|]); cbn [probe].
  - rewrite Nat.add_0_r in *. pose proof (at_slot_lookup es i ltac:(by destruct es; [cbn in Hi; lia|])) as Hl.
    rewrite Nat.mod_small in * by done. destruct (at_slot es i) as [w id] eqn:Ew. cbn [fst] in *.
    rewrite (load64_value es i w id) by (done || apply (Forall_lookup_1 _ _ _ _ Hok Hl)). cbn [rbind].
    unfold kEmptyMarker. destruct (w =? 0) eqn:E0; [done|]. destruct Hat as [-> | ->]; [done|]. by rewrite Z.eqb_refl.
  - pose proof (at_slot_lookup es i ltac:(by destruct es; [cbn in Hi; lia|])) as Hl. rewrite Nat.mod_small in Hl by done.
    destruct (Hbefore 0%nat ltac:(lia)) as [Hn0 Hnv]. rewrite Nat.add_0_r in Hn0, Hnv.
    destruct (at_slot es i) as [w id] eqn:Ew. cbn [fst] in *.
    rewrite (load64_value es i w id) by (done || apply (Forall_lookup_1 _ _ _ _ Hok Hl)). cbn [rbind].
    unfold kEmptyMarker, kEntrySize. rewrite (proj2 (Z.eqb_neq w 0)), (proj2 (Z.eqb_neq w v)) by done. cbv zeta.
    rewrite next_entry by done.
    assert (forall j, at_slot es ((i + 1) mod length es + j) = at_slot es (i + S j)) as Hshift.
    { intros j. rewrite at_slot_shift. f_equal. lia. }
    rewrite IH; [|apply Nat.mod_upper_bound; lia|lia| |by rewrite Hshift].
    + rewrite Hshift, Nat.Div0.add_mod_idemp_l. by replace (i + 1 + k)%nat with (i + S k)%nat by lia.
    + intros j Hj. rewrite Hshift. apply Hbefore. lia.
Qed.

(** The first of several places. *)
Lemma first_place (P : nat -> Prop) `{!forall k, Decision (P k)} n :
  (exists k, (k < n)%nat /\ P k) -> exists k, (k < n)%nat /\ P k /\ forall j, (j < k)%nat -> ~ P j.
Proof.
  intros (k & Hk & HP).
  assert ((exists k, (k < n)%nat /\ P k /\ forall j, (j < k)%nat -> ~ P j) \/ forall j, (j < n)%nat -> ~ P j) as [|Hno]; [|done|].
  - clear k Hk HP. induction n as [|n [(k & Hk & Hfirst)|Hno]]; [right; lia|left; exists k; split; [lia|done]|].
    destruct (decide (P n)) as [HP|HP]; [left; exists n; split; [lia|done]|].
    right. intros j Hj. destruct (decide (j = n)) as [-> |]; [done|]. apply Hno. lia.
  - by apply Hno in HP.
Qed.

Definition has_empty (es : list entry) : Prop := exists i id, es !! i = Some (0, id).

(** Every entry is at some distance from a place. *)
Lemma reach_entry (es : list entry) i start : (i < length es)%nat -> exists k, (k < length es)%nat /\ ((start + k) mod length es)%nat = i.
Proof.
  intros Hi. set (n := length es) in *. set (s := (start mod n)%nat). assert (s < n)%nat as Hs by (apply Nat.mod_upper_bound; lia).
  exists ((i + (n - s)) mod n)%nat. split; [apply Nat.mod_upper_bound; lia|].
  rewrite Nat.Div0.add_mod_idemp_r, <- Nat.Div0.add_mod_idemp_l. fold s.
  replace (s + (i + (n - s)))%nat with (i + 1 * n)%nat by lia. rewrite Nat.Div0.mod_add. by apply Nat.mod_small.
Qed.

Lemma find_slot (es : list entry) start v :
  has_empty es ->
  exists k, (k < length es)%nat /\ (fst (at_slot es (start + k)) = 0 \/ fst (at_slot es (start + k)) = v)
    /\ forall j, (j < k)%nat -> fst (at_slot es (start + j)) <> 0 /\ fst (at_slot es (start + j)) <> v.
Proof.
  intros (i & id & Hi). pose proof (lookup_lt_Some _ _ _ Hi) as Hlt.
  destruct (first_place (fun k => fst (at_slot es (start + k)) = 0 \/ fst (at_slot es (start + k)) = v) (length es))
    as (k & Hk & HP & Hmin).
  - destruct (reach_entry es i start Hlt) as (k & Hk & Hmod). exists k. split; [done|]. left. unfold at_slot. rewrite Hmod.
    by rewrite (list_lookup_total_correct _ _ _ Hi).
  - exists k. split; [done|]. split; [done|]. intros j Hj. specialize (Hmin j Hj). naive_solver.
Qed.

Section table.
(** The place of a value. *)
Context (h : Z -> nat).

(** The value is found from its place on, before the first empty entry. *)
Definition stored (es : list entry) (v id : Z) : Prop :=
  exists k, (k < length es)%nat /\ at_slot es (h v + k) = (v, id)
    /\ forall j, (j < k)%nat -> fst (at_slot es (h v + j)) <> 0.

Definition sound (es : list entry) (g : gmap Z Z) : Prop :=
  forall i v id, es !! i = Some (v, id) -> v <> 0 -> g !! v = Some id.

(** The first entry from the place of a value on that is empty or has the value: it has the value if the
    value has an id. *)
Lemma slot_of es g v :
  sound es g -> (forall id, g !! v = Some id -> stored es v id) -> has_empty es -> v <> 0 ->
  exists k, (k < length es)%nat /\ (fst (at_slot es (h v + k)) = 0 \/ fst (at_slot es (h v + k)) = v)
    /\ (forall j, (j < k)%nat -> fst (at_slot es (h v + j)) <> 0 /\ fst (at_slot es (h v + j)) <> v)
    /\ match g !! v with
       | Some id => at_slot es (h v + k) = (v, id)
       | None => fst (at_slot es (h v + k)) = 0
       end.
Proof.
  intros Hsound Hstored Hempty Hv. destruct (find_slot es (h v) v Hempty) as (k & Hk & Hat & Hbefore).
  assert (es <> []) as Hne by (by destruct es; [cbn in Hk; lia|]).
  pose proof (at_slot_lookup es (h v + k) Hne) as Hl. exists k. do 3 (split; [done|]).
  destruct (at_slot es (h v + k)) as [w id'] eqn:E. cbn [fst] in *. destruct (g !! v) as [id|] eqn:Eg.
  - destruct (Hstored id eq_refl) as (k' & Hk' & Hat' & Hpath). destruct (decide (k' < k)%nat) as [Hlt|Hge].
    { destruct (Hbefore k' Hlt) as [_ Hnv]. by rewrite Hat' in Hnv. }
    destruct Hat as [-> | ->].
    + exfalso. destruct (decide (k = k')) as [->|].
      * rewrite Hat' in E. by injection E as ->.
      * apply (Hpath k ltac:(lia)). by rewrite E.
    + apply (Hsound _ _ _ Hl) in Hv. congruence.
  - destruct Hat as [-> | ->]; [done|]. apply (Hsound _ _ _ Hl) in Hv. congruence.
Qed.

(** Probing for a value finds it, or the empty entry where it belongs. *)
Lemma probe_table es g v :
  Forall entry_ok es -> sound es g -> (forall id, g !! v = Some id -> stored es v id) -> has_empty es -> v <> 0 ->
  (h v < length es)%nat ->
  exists i e, es !! i = Some e
    /\ probe (length es) (layout es) (12 * Z.of_nat (length es)) v (12 * Z.of_nat (h v)) = Ok (12 * Z.of_nat i, fst e =? 0)
    /\ match g !! v with
       | Some id => e = (v, id)
       | None => fst e = 0 /\ exists k, (k < length es)%nat /\ i = ((h v + k) mod length es)%nat
                   /\ forall j, (j < k)%nat -> fst (at_slot es (h v + j)) <> 0
       end.
Proof.
  intros Hok Hsound Hstored Hempty Hv Hh. destruct (slot_of es g v Hsound Hstored Hempty Hv) as (k & Hk & Hat & Hbefore & Hcase).
  assert (es <> []) as Hne by (by destruct es; [cbn in Hh; lia|]).
  exists ((h v + k) mod length es)%nat, (at_slot es (h v + k)). split; [by apply at_slot_lookup|]. split.
  { by apply probe_ok. }
  destruct (g !! v) as [id|]; [done|]. split; [done|]. exists k. split; [done|]. split; [done|]. intros j Hj. by apply Hbefore.
Qed.

(** ** Insertion into an empty entry *)

Lemma at_slot_insert es i e j :
  (i < length es)%nat -> at_slot (<[i := e]> es) j = if decide ((j mod length es)%nat = i) then e else at_slot es j.
Proof.
  intros Hi. unfold at_slot. rewrite length_insert. destruct (decide _) as [->|Hne].
  - by apply list_lookup_total_insert_eq.
  - by apply list_lookup_total_insert_ne.
Qed.

Lemma stored_insert es i v id w idw id0 :
  es !! i = Some (0, id0) -> v <> 0 -> w <> 0 -> stored es w idw -> stored (<[i := (v, id)]> es) w idw.
Proof.
  intros Hi Hv Hw (k & Hk & Hat & Hpath). pose proof (lookup_lt_Some _ _ _ Hi) as Hlt.
  assert (es <> []) as Hne by (by destruct es; [cbn in Hlt; lia|]).
  assert (forall j, ((j mod length es)%nat = i) -> at_slot es j = (0, id0)) as Hslot.
  { intros j Hj. pose proof (at_slot_lookup es j Hne) as Hl. rewrite Hj, Hi in Hl. congruence. }
  exists k. rewrite length_insert. split; [done|]. split.
  - rewrite at_slot_insert by done. rewrite decide_False; [done|]. intros E%Hslot. rewrite Hat in E. congruence.
  - intros j Hj. rewrite at_slot_insert by done. destruct (decide _) as [E|]; [done|]. by apply Hpath.
Qed.

Lemma stored_new es i v id k id0 :
  es !! i = Some (0, id0) -> v <> 0 -> (k < length es)%nat -> i = ((h v + k) mod length es)%nat ->
  (forall j, (j < k)%nat -> fst (at_slot es (h v + j)) <> 0) -> stored (<[i := (v, id)]> es) v id.
Proof.
  intros Hi Hv Hk Heq Hpath. pose proof (lookup_lt_Some _ _ _ Hi) as Hlt. exists k. rewrite length_insert. split; [done|]. split.
  - rewrite at_slot_insert by done. by rewrite decide_True.
  - intros j Hj. rewrite at_slot_insert by done. destruct (decide _); [done|]. by apply Hpath.
Qed.

Lemma sound_insert es g i v id :
  sound es g -> g !! v = None \/ g !! v = Some id -> sound (<[i := (v, id)]> es) (<[v := id]> g).
Proof.
  intros Hs Hg j w idw Hj Hw. destruct (decide (j = i)) as [->|Hne].
  - apply list_lookup_insert_Some in Hj as [(_ & [= <- <-] & _)|[? _]]; [|done]. by rewrite lookup_insert_eq.
  - rewrite list_lookup_insert_ne in Hj by done. apply (Hs _ _ _ Hj) in Hw. destruct (decide (w = v)) as [->|].
    + rewrite lookup_insert_eq. destruct Hg; congruence.
    + by rewrite lookup_insert_ne.
Qed.
End table.

(** ** The number of entries in use *)

Definition used (es : list entry) : nat := length (filter (fun e => fst e <> 0) es).

Lemma used_insert es i v id id0 : es !! i = Some (0, id0) -> v <> 0 -> used (<[i := (v, id)]> es) = S (used es).
Proof.
  intros Hi Hv. unfold used. rewrite insert_take_drop by (by eapply lookup_lt_Some).
  rewrite <- (take_drop_middle es i (0, id0) Hi) at 3. rewrite !filter_app, !length_app.
  rewrite (filter_cons_True _ (v, id)) by done. rewrite (filter_cons_False _ (0, id0)) by naive_solver. cbn [length]. lia.
Qed.

Lemma used_has_empty es : (used es < length es)%nat -> has_empty es.
Proof.
  unfold used, has_empty. induction es as [|[v id] es IH]; intros Hu; [cbn in Hu; lia|].
  destruct (decide (v = 0)) as [->|Hv]; [by exists 0%nat, id|].
  rewrite filter_cons_True in Hu by done. cbn [length] in Hu. destruct IH as (i & id' & Hi); [lia|]. by exists (S i), id'.
Qed.

(** * The map as a numbering *)

(** The values that have an id, and a new one. *)
Definition assign (g : gmap Z Z) (v : Z) : gmap Z Z :=
  match g !! v with
  | Some _ => g
  | None => <[v := Z.of_nat (size g) + 1]> g
  end.

Definition place (m : BigintIdMap) (v : Z) : nat := Z.to_nat (indexOfEntry m v).

Record map_rep (m : BigintIdMap) (g : gmap Z Z) (es : list entry) : Prop := {
  mr_table : table_ m = layout es;
  mr_entries : Forall entry_ok es;
  mr_capacity : capacity_ m = Z.of_nat (length es);
  mr_power : exists k, 6 <= k <= 27 /\ capacity_ m = 2 ^ k;
  mr_mask : sizeMask_ m = capacity_ m - 1;
  mr_limit : limit_ m = 12 * capacity_ m;
  mr_max : maxEntries_ m = capacity_ m - capacity_ m / 4;
  mr_sound : sound es g;
  mr_stored v id : g !! v = Some id -> v <> 0 -> stored (place m) es v id;
  mr_used : numEntries_ m = Z.of_nat (used es);
  mr_count : numEntries_ m <= Z.of_nat (size g);
  mr_last : lastId_ m = Z.of_nat (size g);
  mr_zero : match g !! 0 with
            | Some id => emptyId_ m = id /\ emptyBatch_ m = id
            | None => emptyId_ m = 0 /\ emptyBatch_ m = kNotFound
            end;
  mr_ids v id : g !! v = Some id -> 1 <= id <= Z.of_nat (size g)
}.

Lemma capacity_bounds m g es : map_rep m g es -> 64 <= capacity_ m <= 2 ^ 27.
Proof.
  intros H. destruct (mr_power _ _ _ H) as (k & Hk & ->). split.
  - change 64 with (2 ^ 6). apply Z.pow_le_mono_r; lia.
  - apply Z.pow_le_mono_r; lia.
Qed.

Lemma index_bounds m k v :
  0 <= k -> sizeMask_ m = 2 ^ k - 1 -> 0 <= indexOfEntry m v < 2 ^ k.
Proof. intros Hk Hm. unfold indexOfEntry. rewrite Hm, land_mod by done. apply Z.mod_pos_bound, Z.pow_pos_nonneg; lia. Qed.

(** The hashes of a batch are the ones of single values. *)
Lemma makeIndex_ok m k v :
  0 <= k <= 32 -> sizeMask_ m = 2 ^ k - 1 -> makeIndex m v = 3 * indexOfEntry m v.
Proof.
  intros Hk Hm. unfold makeIndex, indexOfEntry. cbv zeta. rewrite Hm.
  change (Z.shiftr (Z.lor (Z.shiftl kMultHigh 32) kMultLow) 32) with kMultHigh.
  change (wrap_unsigned 32 (Z.lor (Z.shiftl kMultHigh 32) kMultLow)) with kMultLow.
  assert (forall z, wrap_unsigned 32 (wrap_unsigned 64 z) = wrap_unsigned 32 z) as Hwrap.
  { intros z. unfold wrap_unsigned. symmetry. apply Znumtheory.Zmod_div_mod; [lia|lia|]. by exists (2 ^ 32). }
  rewrite !Hwrap, (Z.mul_comm kMultHigh), (Z.mul_comm kMultLow).
  set (H := wrap_unsigned 32 (Z.shiftr _ 32 * _)). set (L := wrap_unsigned 32 (_ * kMultLow)).
  assert (0 <= H < 2 ^ 32) as HH by (apply Z.mod_pos_bound; lia). assert (0 <= L < 2 ^ 32) as HL by (apply Z.mod_pos_bound; lia).
  assert (Z.land (Z.lxor (Z.shiftr (H * 2 ^ 32 + L) 32) (H * 2 ^ 32 + L)) (2 ^ k - 1) = Z.land (Z.lxor H L) (2 ^ k - 1)) as ->; [|lia].
  rewrite <- lor_shiftl by lia.
  assert (Z.shiftr (Z.lor (Z.shiftl H 32) L) 32 = H) as ->.
  { rewrite Z.shiftr_lor, Z.shiftr_shiftl_l, Z.sub_diag, Z.shiftl_0_r, (Z.shiftr_div_pow2 L), Z.div_small, Z.lor_0_r by lia. done. }
  replace (2 ^ k - 1) with (Z.ones k) by (rewrite Z.ones_equiv; lia). apply Z.bits_inj'. intros i Hi.
  autorewrite with bits. destruct (i <? k) eqn:E; [|by rewrite !andb_false_r].
  by rewrite (Z.testbit_neg_r H (i - 32)) by lia.
Qed.

Lemma place_lt m g es v : map_rep m g es -> (place m v < length es)%nat /\ Z.of_nat (place m v) = indexOfEntry m v.
Proof.
  intros H. destruct (mr_power _ _ _ H) as (k & Hk & Hc). pose proof (mr_mask _ _ _ H) as Hm. rewrite Hc in Hm.
  pose proof (index_bounds m k v ltac:(lia) Hm) as Hi. pose proof (mr_capacity _ _ _ H). unfold place. lia.
Qed.

Lemma index_place m g es v : map_rep m g es -> makeIndex m v = 3 * Z.of_nat (place m v).
Proof.
  intros H. destruct (mr_power _ _ _ H) as (k & Hk & Hc). pose proof (mr_mask _ _ _ H) as Hm. rewrite Hc in Hm.
  rewrite (makeIndex_ok m k) by (done || lia). by rewrite (proj2 (place_lt _ _ _ v H)).
Qed.

Lemma assign_size g v : Z.of_nat (size g) <= Z.of_nat (size (assign g v)) <= Z.of_nat (size g) + 1.
Proof. unfold assign. destruct (g !! v) eqn:E; [lia|]. rewrite map_size_insert_None by done. lia. Qed.

(** The id of a value, as [make_id] finds or gives it. *)
Lemma make_id_ok m g es v :
  map_rep m g es -> value_ok v -> v <> 0 -> (used es < length es)%nat -> Z.of_nat (size g) < 2 ^ 31 - 1 ->
  exists m' es' id, make_id m v (makeIndex m v) = Ok (m', id) /\ map_rep m' (assign g v) es' /\ assign g v !! v = Some id
    /\ length es' = length es /\ (used es' <= used es + 1)%nat /\ sizeMask_ m' = sizeMask_ m.
Proof.
  intros H Hv Hnz Hu Hsize. destruct (place_lt _ _ _ v H) as [Hp _].
  destruct (probe_table (place m) es g v (mr_entries _ _ _ H) (mr_sound _ _ _ H)) as (i & e & Hi & Hprobe & Hcase); try done.
  { intros id Hid. by apply (mr_stored _ _ _ H). }
  { by apply used_has_empty. }
  pose proof (capacity_bounds _ _ _ H) as Hcap. pose proof (mr_count _ _ _ H) as Hcount. pose proof (mr_used _ _ _ H) as Hused.
  pose proof (mr_last _ _ _ H) as Hlast. pose proof (mr_capacity _ _ _ H) as Hlen.
  unfold make_id. rewrite (index_place _ _ _ _ H), (mr_table _ _ _ H), (mr_limit _ _ _ H), Hlen, Nat2Z.id.
  replace (4 * (3 * Z.of_nat (place m v))) with (12 * Z.of_nat (place m v)) by lia. rewrite Hprobe. cbn [rbind].
  unfold assign. destruct (g !! v) as [id|] eqn:Eg.
  - subst e. cbn [fst]. rewrite (proj2 (Z.eqb_neq v 0)) by done. rewrite (load32_id es i v id) by done. cbn [rbind].
    exists m, es, id. split_and!; try done; lia.
  - destruct Hcase as (He & k & Hk & Hik & Hpath). destruct e as [z id0]. cbn [fst] in He |- *. subst z. cbn [Z.eqb].
    rewrite (store64_value es i 0 id0 v) by done. cbn [rbind]. rewrite ck32_in by lia. cbn [rbind].
    rewrite (store32_id (<[i := (v, id0)]> es) i v id0) by (apply list_lookup_insert_eq; by eapply lookup_lt_Some). cbn [rbind].
    rewrite ck32_in by lia. cbn [rbind]. rewrite wrap_unsigned_id by lia. rewrite list_insert_insert_eq, Hlast.
    set (id := Z.of_nat (size g) + 1). eexists _, (<[i := (v, id)]> es), id. split; [done|].
    rewrite length_insert, lookup_insert_eq. split_and!; [|done|done|rewrite (used_insert _ _ _ _ id0) by done; lia|done].
    split; cbn; rewrite ?length_insert, ?map_size_insert_None by done; rewrite <- ?Hlen; try done; try (by apply H); try lia.
    + apply Forall_insert; [apply H|]. split; cbn; [done|unfold id; lia].
    + apply sound_insert; [apply H|by left].
    + intros w idw Hw Hwnz. destruct (decide (w = v)) as [->|Hne].
      * rewrite lookup_insert_eq in Hw. injection Hw as <-. by apply (stored_new _ _ _ _ _ k id0).
      * rewrite lookup_insert_ne in Hw by done. apply (stored_insert _ _ _ _ _ _ _ id0); try done. by apply (mr_stored _ _ _ H).
    + rewrite (used_insert _ _ _ _ id0) by done. lia.
    + rewrite lookup_insert_ne by done. apply (mr_zero _ _ _ H).
    + intros w idw Hw. destruct (decide (w = v)) as [->|Hne].
      * rewrite lookup_insert_eq in Hw. injection Hw as <-. unfold id. lia.
      * rewrite lookup_insert_ne in Hw by done. pose proof (mr_ids _ _ _ H _ _ Hw). lia.
Qed.

Lemma find_id_ok m g es v :
  map_rep m g es -> value_ok v -> v <> 0 -> (used es < length es)%nat ->
  fst (at_slot es (place m v)) <> 0 -> fst (at_slot es (place m v)) <> v ->
  find_id m v (3 + makeIndex m v) = Ok (match g !! v with Some id => id | None => kNotFound end).
Proof.
  intros H Hv Hnz Hu Hn0 Hnv. destruct (place_lt _ _ _ v H) as [Hp _].
  destruct (slot_of (place m) es g v (mr_sound _ _ _ H)) as (k & Hk & Hat & Hbefore & Hcase); try done.
  { intros id Hid. by apply (mr_stored _ _ _ H). }
  { by apply used_has_empty. }
  assert (es <> []) as Hne by (by destruct es; [cbn in Hp; lia|]).
  destruct k as [|k]; [rewrite Nat.add_0_r in Hat; by destruct Hat|].
  assert (forall j, at_slot es ((place m v + 1) mod length es + j) = at_slot es (place m v + S j)) as Hshift.
  { intros j. rewrite at_slot_shift. f_equal. lia. }
  unfold find_id. cbv zeta. rewrite (index_place _ _ _ _ H), (mr_table _ _ _ H), (mr_limit _ _ _ H), (mr_capacity _ _ _ H), Nat2Z.id.
  replace (4 * (3 + 3 * Z.of_nat (place m v))) with (12 * Z.of_nat (place m v) + 12) by lia. rewrite next_entry by done.
  rewrite (probe_ok es v _ k); [|apply H|by apply Nat.mod_upper_bound; destruct es|lia| |by rewrite Hshift].
  2: { intros j Hj. rewrite Hshift. apply Hbefore. lia. }
  cbn [rbind]. rewrite Hshift. destruct (g !! v) as [id|] eqn:Eg.
  - rewrite Hcase. cbn [fst]. rewrite (proj2 (Z.eqb_neq v 0)) by done.
    pose proof (at_slot_lookup es ((place m v + 1) mod length es + k) Hne) as Hl. rewrite Hshift, Hcase in Hl.
    by apply (load32_id es _ v id).
  - rewrite Hcase. done.
Qed.

(** ** Resizing *)

Lemma used_take_S es i (e : entry) :
  es !! i = Some e -> used (take (S i) es) = (used (take i es) + if decide (fst e <> 0%Z) then 1 else 0)%nat.
Proof.
  intros Hi. unfold used. rewrite (take_S_r _ _ e) by done. rewrite filter_app, length_app. f_equal.
  destruct (decide (fst e <> 0)); [by rewrite filter_cons_True|by rewrite filter_cons_False].
Qed.

Lemma used_le es : (used es <= length es)%nat.
Proof. apply length_filter. Qed.

Lemma valuePtr_ok i : 0 <= i < 2 ^ 27 -> valuePtr i = Ok (12 * i).
Proof. intros Hi. unfold valuePtr, kEntrySize. rewrite wrap_signed_id by lia. apply ck32_in. lia. Qed.

Lemma find_empty_ok es k fuel n i :
  Forall entry_ok es -> Z.of_nat (length es) = 2 ^ k -> 0 <= k <= 27 -> (i < length es)%nat -> (n < fuel)%nat ->
  (forall j, (j < n)%nat -> fst (at_slot es (i + j)) <> 0) -> fst (at_slot es (i + n)) = 0 ->
  find_empty fuel (layout es) (2 ^ k - 1) (Z.of_nat i) = Ok (12 * Z.of_nat ((i + n) mod length es)).
Proof.
  intros Hok Hlen Hk. assert (2 ^ k <= 2 ^ 27) as Hbound by (apply Z.pow_le_mono_r; lia).
  revert fuel i. induction n as [|n IH]; intros fuel i Hi Hf Hbefore Hat;
    (destruct fuel as [|fuel]; [lia|]); cbn [find_empty]; rewrite valuePtr_ok by lia; cbn [rbind];
    pose proof (at_slot_lookup es i ltac:(by destruct es; [cbn in Hi; lia|])) as Hl; rewrite Nat.mod_small in Hl by done.
  - rewrite Nat.add_0_r in *. destruct (at_slot es i) as [w id] eqn:Ew. cbn [fst] in Hat. subst w.
    rewrite (load64_value es i 0 id) by (done || apply (Forall_lookup_1 _ _ _ _ Hok Hl)). cbn [rbind].
    by rewrite Nat.mod_small.
  - pose proof (Hbefore 0%nat ltac:(lia)) as Hn0. rewrite Nat.add_0_r in Hn0. destruct (at_slot es i) as [w id] eqn:Ew. cbn [fst] in Hn0.
    rewrite (load64_value es i w id) by (done || apply (Forall_lookup_1 _ _ _ _ Hok Hl)). cbn [rbind].
    unfold kEmptyMarker. rewrite (proj2 (Z.eqb_neq w 0)) by done.
    assert (Z.land (Z.of_nat i + 1) (2 ^ k - 1) = Z.of_nat ((i + 1) mod length es)) as ->.
    { rewrite land_mod by lia. rewrite <- Hlen, Nat2Z.inj_mod. f_equal. lia. }
    assert (forall j, at_slot es ((i + 1) mod length es + j) = at_slot es (i + S j)) as Hshift.
    { intros j. rewrite at_slot_shift. f_equal. lia. }
    rewrite IH; [|apply Nat.mod_upper_bound; lia|lia| |by rewrite Hshift].
    + rewrite Nat.Div0.add_mod_idemp_l. by replace (i + 1 + n)%nat with (i + S n)%nat by lia.
    + intros j Hj. rewrite Hshift. apply Hbefore. lia.
Qed.

Lemma rehash_ok m es g k n i es' :
  Forall entry_ok es -> sound es g -> (length es < length es')%nat ->
  capacity_ m = Z.of_nat (length es') -> sizeMask_ m = 2 ^ k - 1 -> Z.of_nat (length es') = 2 ^ k -> 0 <= k <= 27 ->
  (i + n = length es)%nat -> Forall entry_ok es' -> sound es' g ->
  (forall j v id, (j < i)%nat -> es !! j = Some (v, id) -> v <> 0 -> stored (place m) es' v id) ->
  used es' = used (take i es) ->
  exists es2, rehash n (Z.of_nat i) m (layout es) (layout es') = Ok (layout es2) /\ length es2 = length es'
    /\ Forall entry_ok es2 /\ sound es2 g /\ used es2 = used es
    /\ forall j v id, es !! j = Some (v, id) -> v <> 0 -> stored (place m) es2 v id.
Proof.
  intros Hok Hsound Hlt Hcap Hmask Hpow Hk. assert (2 ^ k <= 2 ^ 27) as Hbound by (apply Z.pow_le_mono_r; lia).
  revert i es' Hlt Hcap Hpow. induction n as [|n IH]; intros i es' Hlt Hcap Hpow Hin Hok' Hsound' Hstored Hused; cbn [rehash].
  - exists es'. split_and!; try done.
    + rewrite Hused, take_ge by lia. done.
    + intros j v id Hj. apply (Hstored j); [|done]. apply lookup_lt_Some in Hj. lia.
  - destruct (lookup_lt_is_Some_2 es i) as [[v id] Hi]; [lia|]. pose proof (Forall_lookup_1 _ _ _ _ Hok Hi) as [Hv Hid]. cbn in Hv, Hid.
    rewrite valuePtr_ok by lia. cbn [rbind]. rewrite (load64_value es i v id) by done. cbn [rbind].
    pose proof (used_take_S es i (v, id) Hi) as Hsplit. cbn [fst] in Hsplit. replace (Z.of_nat i + 1) with (Z.of_nat (S i)) by lia.
    unfold kEmptyMarker. destruct (v =? 0) eqn:E0.
    + apply Z.eqb_eq in E0. subst v. rewrite decide_False in Hsplit by naive_solver.
      apply IH; try done; try lia. intros j w idw Hj Hw Hwnz. apply (Hstored j); try done.
      destruct (decide (j = i)) as [->|]; [congruence|lia].
    + apply Z.eqb_neq in E0. rewrite decide_True in Hsplit by done.
      assert (used es' < length es')%nat as Hroom.
      { pose proof (used_le (take i es)) as Hle. rewrite length_take in Hle. lia. }
      destruct (find_slot es' (place m v) 0 (used_has_empty _ Hroom)) as (d & Hd & Hat & Hbefore).
      assert (fst (at_slot es' (place m v + d)) = 0) as Hat0 by (destruct Hat; done). clear Hat.
      pose proof (index_bounds m k v ltac:(lia) Hmask) as Hidx. rewrite Hcap, Nat2Z.id, Hmask.
      replace (indexOfEntry m v) with (Z.of_nat (place m v)) by (unfold place; lia).
      rewrite (find_empty_ok es' k _ d); [|done|done|done|unfold place; lia|done|intros j Hj; by apply Hbefore|done]. cbn [rbind].
      assert (es' <> []) as Hne by (by destruct es'; [cbn in Hlt; lia|]).
      pose proof (at_slot_lookup es' (place m v + d) Hne) as Hl. set (p := ((place m v + d) mod length es')%nat) in *.
      destruct (at_slot es' (place m v + d)) as [z id0] eqn:Ez. cbn [fst] in Hat0. subst z.
      rewrite (store64_value es' p 0 id0 v) by done. cbn [rbind]. unfold idPtr. rewrite (load32_id es i v id) by done. cbn [rbind].
      rewrite (store32_id (<[p := (v, id0)]> es') p v id0) by (apply list_lookup_insert_eq; by eapply lookup_lt_Some). cbn [rbind].
      rewrite wrap_unsigned_id, list_insert_insert_eq by done.
      assert (g !! v = Some id) as Hg by (by apply (Hsound _ _ _ Hi)).
      destruct (IH (S i) (<[p := (v, id)]> es')) as (es2 & H2); rewrite ?length_insert; try done; try lia.
      * by apply Forall_insert.
      * rewrite <- (insert_id g v id Hg). apply sound_insert; [done|by right].
      * intros j w idw Hj Hw Hwnz. destruct (decide (j = i)) as [->|].
        -- rewrite Hi in Hw. injection Hw as <- <-. apply (stored_new _ _ _ _ _ d id0); try done. intros j' Hj'. by apply Hbefore.
        -- apply (stored_insert _ _ _ _ _ _ _ id0); try done. apply (Hstored j); [lia|done|done].
      * rewrite (used_insert _ _ _ _ id0) by done. lia.
      * exists es2. by rewrite length_insert in H2.
Qed.

Lemma layout_empty n : repeat 0 (3 * n + 1) = layout (repeat (0, 0) n).
Proof.
  induction n as [|n IH]; [done|]. replace (3 * S n + 1)%nat with (S (S (S (3 * n + 1)))) by lia. cbn [repeat layout]. by rewrite IH.
Qed.

Lemma empty_entries n :
  Forall entry_ok (repeat (0, 0) n) /\ used (repeat (0, 0) n) = 0%nat /\ forall g, sound (repeat (0, 0) n) g.
Proof.
  split_and!.
  - apply Forall_forall. intros e He%list_elem_of_In%repeat_spec. subst e. split; cbn; unfold value_ok; lia.
  - unfold used. induction n as [|n IH]; [done|]. cbn [repeat]. by rewrite filter_cons_False by naive_solver.
  - intros g i v id Hi Hv. apply list_elem_of_lookup_2, list_elem_of_In, repeat_spec in Hi. congruence.
Qed.

Lemma makeTable_ok m k :
  6 <= k <= 27 ->
  exists m', makeTable m (2 ^ k) = Ok m' /\ table_ m' = layout (repeat (0, 0) (Z.to_nat (2 ^ k))) /\ capacity_ m' = 2 ^ k
    /\ sizeMask_ m' = 2 ^ k - 1 /\ limit_ m' = 12 * 2 ^ k /\ maxEntries_ m' = 2 ^ k - 2 ^ k / 4 /\ numEntries_ m' = numEntries_ m
    /\ lastId_ m' = lastId_ m /\ emptyId_ m' = emptyId_ m /\ emptyBatch_ m' = emptyBatch_ m.
Proof.
  intros Hk. assert (2 ^ 6 <= 2 ^ k <= 2 ^ 27) as Hb by (split; apply Z.pow_le_mono_r; lia). unfold makeTable, kMaxCapacity, kEntrySize, kReadPadding.
  replace (2 ^ k <=? 2 ^ 30) with true by lia. cbn [check rbind]. eexists. split; [done|]. cbn.
  split_and!; try done; try lia.
  - rewrite <- layout_empty. f_equal. rewrite (Z.div_add_l (2 ^ k * 3) 4 4) || replace ((2 ^ k * 12 + 4) / 4) with (3 * 2 ^ k + 1) by euclidean. lia.
  - rewrite Z.quot_div_nonneg by lia. apply wrap_signed_id; [lia|]. euclidean.
Qed.

Lemma table_resize_ok m g es :
  map_rep m g es -> capacity_ m * 2 <= 2 ^ 27 ->
  exists m' es', resize m (capacity_ m * 2) = Ok m' /\ map_rep m' g es' /\ capacity_ m' = capacity_ m * 2 /\ used es' = used es.
Proof.
  intros H Hb. destruct (mr_power _ _ _ H) as (k & Hk & Hc). pose proof (mr_capacity _ _ _ H) as Hlen.
  assert (2 ^ k * 2 = 2 ^ (k + 1)) as Hp by (rewrite Z.pow_add_r by lia; done). rewrite Hc, Hp in Hb |- *.
  assert (k + 1 <= 27) as Hk1 by (apply (Z.pow_le_mono_r_iff 2); lia).
  destruct (makeTable_ok m (k + 1) ltac:(lia)) as (m1 & Hm1 & Ht & Hcap & Hmask & Hlimit & Hmax & Hnum & Hlast & Hid & Hbatch).
  unfold resize, kMaxCapacity. assert (2 ^ (k + 1) <= 2 ^ 30) as H30 by (apply Z.pow_le_mono_r; lia).
  replace (2 ^ (k + 1) <=? 2 ^ 30) with true by lia. cbn [check rbind]. rewrite Hm1. cbn [rbind].
  destruct (empty_entries (Z.to_nat (2 ^ (k + 1)))) as (Hok0 & Hused0 & Hsound0).
  assert (length (repeat ((0, 0) : entry) (Z.to_nat (2 ^ (k + 1)))) = Z.to_nat (2 ^ (k + 1))) as Hl0 by apply repeat_length.
  assert (0 < 2 ^ k) as Hpos by (apply Z.pow_pos_nonneg; lia).
  destruct (rehash_ok m1 es g (k + 1) (length es) 0 (repeat (0, 0) (Z.to_nat (2 ^ (k + 1))))) as (es2 & Hr & Hl2 & Hok2 & Hs2 & Hu2 & Hst2);
    rewrite ?Hl0; try done; try lia; try apply H; try apply Hsound0.
  rewrite Hc, Ht, (mr_table _ _ _ H). replace (Z.to_nat (2 ^ k)) with (length es) by lia. change (Z.of_nat 0) with 0 in Hr. rewrite Hr. cbn [rbind].
  eexists _, es2. split; [done|]. split; [|by cbn].
  split; cbn; rewrite ?Hcap, ?Hl2, ?Hl0; try done; try lia; rewrite ?Hnum, ?Hlast, ?Hid, ?Hbatch, ?Hu2; try (by apply H).
  - exists (k + 1). lia.
  - intros v id Hg Hnz. destruct (mr_stored _ _ _ H v id Hg Hnz) as (d & Hd & Hat & _).
    assert (es <> []) as Hne by (by destruct es; [cbn in Hd; lia|]).
    pose proof (at_slot_lookup es (place m v + d) Hne) as Hl. rewrite Hat in Hl. by apply (Hst2 _ _ _ Hl).
Qed.

(** * Batches *)

(** The lanes that are set. *)
Fixpoint picked (mask : list bool) (x : list Z) : list Z :=
  match mask, x with
  | c :: mask, v :: x => if c : bool then v :: picked mask x else picked mask x
  | _, _ => []
  end.

Lemma assign_old g v w id : g !! w = Some id -> assign g v !! w = Some id.
Proof.
  intros Hw. unfold assign. destruct (g !! v) eqn:E; [done|]. rewrite lookup_insert_ne; [done|congruence].
Qed.

Lemma assign_all_old g l w id : g !! w = Some id -> foldl assign g l !! w = Some id.
Proof. revert g. induction l as [|v l IH]; intros g Hw; [done|]. cbn. by apply IH, assign_old. Qed.

Lemma assign_new g v : exists id, assign g v !! v = Some id.
Proof. unfold assign. destruct (g !! v) as [id|] eqn:E; [by exists id|]. rewrite lookup_insert_eq. by eexists. Qed.

Lemma assign_all_size g l : Z.of_nat (size g) <= Z.of_nat (size (foldl assign g l)) <= Z.of_nat (size g) + Z.of_nat (length l).
Proof.
  revert g. induction l as [|v l IH]; intros g; cbn [foldl length]; [lia|].
  pose proof (assign_size g v). specialize (IH (assign g v)). lia.
Qed.

Lemma picked_length mask x : (length (picked mask x) <= length x)%nat.
Proof.
  revert x. induction mask as [|c mask IH]; intros [|v x]; cbn [picked length]; try lia. specialize (IH x). destruct c; cbn [length]; lia.
Qed.

Lemma makeIndex_mask m m' v : sizeMask_ m' = sizeMask_ m -> makeIndex m' v = makeIndex m v.
Proof. intros E. unfold makeIndex. by rewrite E. Qed.

Lemma make_ids_ok m g es misses x result :
  map_rep m g es -> length misses = length x -> length result = length x ->
  (forall v, v ∈ picked misses x -> value_ok v /\ v <> 0) -> (used es + length x <= length es)%nat ->
  Z.of_nat (size g) + Z.of_nat (length x) < 2 ^ 31 ->
  exists m' es' res, make_ids m misses x (map (makeIndex m) x) result = Ok (m', res)
    /\ map_rep m' (foldl assign g (picked misses x)) es' /\ length es' = length es /\ (used es' <= used es + length x)%nat
    /\ length res = length x
    /\ forall j c v r, misses !! j = Some c -> x !! j = Some v -> result !! j = Some r ->
         exists id, res !! j = Some id /\ if c : bool then foldl assign g (picked misses x) !! v = Some id else id = r.
Proof.
  intros H Hl1 Hl2. assert (forall v, makeIndex m v = makeIndex m v) as Hidx by done. revert Hidx.
  generalize (makeIndex m) at 2 3. intros idx Hidx. revert m g es misses result H Hidx Hl1 Hl2.
  induction x as [|v x IH]; intros m g es [|c misses] [|r result] H Hidx Hl1 Hl2 Hvals Hroom Hsize; try done; cbn [length] in *.
  - exists m, es, []. split; [done|]. split; [done|]. split_and!; try done; lia.
  - cbn [make_ids map picked]. destruct c.
    + destruct (Hvals v ltac:(cbn; by left)) as [Hv Hnz].
      destruct (make_id_ok m g es v H Hv Hnz ltac:(lia) ltac:(lia)) as (m1 & es1 & id & Hmake & H1 & Hid & Hlen1 & Hu1 & Hmask1).
      rewrite <- Hidx, Hmake. cbn [rbind fst snd]. pose proof (assign_size g v) as Hs.
      destruct (IH m1 (assign g v) es1 misses result H1) as (m2 & es2 & res & Hrun & H2 & Hlen2 & Hu2 & Hlr & Hres); try lia.
      * intros w. by rewrite (makeIndex_mask m m1).
      * intros w Hw. apply Hvals. cbn. by right.
      * rewrite Hrun. cbn [rbind fst snd foldl]. exists m2, es2, (id :: res). split; [done|]. split; [done|].
        split; [lia|]. split; [lia|]. split; [cbn; lia|]. intros [|j] c w r' Hc Hw Hr; cbn in Hc, Hw, Hr.
        -- injection Hc as <-. injection Hw as <-. exists id. split; [done|]. by apply assign_all_old.
        -- by apply (Hres j).
    + cbn [rbind fst snd].
      destruct (IH m g es misses result H Hidx) as (m2 & es2 & res & Hrun & H2 & Hlen2 & Hu2 & Hlr & Hres); try lia; [done|].
      rewrite Hrun. cbn [rbind fst snd]. exists m2, es2, (r :: res). split; [done|]. split; [done|].
      split; [lia|]. split; [lia|]. split; [cbn; lia|]. intros [|j] c w r' Hc Hw Hr; cbn in Hc, Hw, Hr.
      -- injection Hc as <-. injection Hr as <-. by exists r.
      -- by apply (Hres j).
Qed.

(** ** The lanes of a batch *)

(** A lane: its value, whether it is active, and what is known of its id. *)
Record lane : Type := mkLane { lane_value : Z; lane_active : bool; lane_ready : Z }.

Lemma zip_map {A B C D} (f : B -> C -> D) (p : A -> B) (q : A -> C) l :
  zip_with f (map p l) (map q l) = map (fun a => f (p a) (q a)) l.
Proof. induction l as [|a l IH]; [done|]. cbn. by rewrite IH. Qed.

Lemma broadcast_map {A B} (x : B) (l : list A) : length l = Z.to_nat kLanes -> broadcast x = map (fun _ => x) l.
Proof. intros Hl. unfold broadcast. rewrite <- Hl. clear. induction l as [|a l IH]; [done|]. cbn. by rewrite <- IH. Qed.

Lemma select_map {A} (c : A -> bool) (p q : A -> Z) l :
  select (map c l) (map p l) (map q l) = map (fun a => if c a then p a else q a) l.
Proof. unfold select. rewrite !zip_map. done. Qed.

Lemma gather_map (l : list lane) (r : lane -> Z) (c : lane -> bool) t base (idx : Z -> Z) (f : lane -> Z) :
  (forall a, a ∈ l -> c a = true -> load64 t (base + 4 * idx (lane_value a)) = Ok (f a)) ->
  maskGather (map r l) (map c l) t base (map idx (map lane_value l)) = Ok (map (fun a => if c a then f a else r a) l).
Proof.
  induction l as [|a l IH]; intros Hl; [done|]. cbn [map maskGather].
  assert ((if c a then load64 t (base + 4 * idx (lane_value a)) else Ok (r a)) = Ok (if c a then f a else r a)) as ->.
  { destruct (c a) eqn:E; [|done]. apply Hl; [by left|done]. }
  cbn [rbind]. rewrite IH; [done|]. intros b Hb. apply Hl. by right.
Qed.

Lemma filter_on {A} (c : A -> bool) a l : c a = true -> filter c (a :: l) = a :: filter c l.
Proof. intros E. apply filter_cons_True. rewrite E. exact I. Qed.

Lemma filter_off {A} (c : A -> bool) a l : c a = false -> filter c (a :: l) = filter c l.
Proof. intros E. apply filter_cons_False. rewrite E. exact (fun f => f). Qed.

Lemma picked_map (l : list lane) c : picked (map c l) (map lane_value l) = map lane_value (filter c l).
Proof.
  induction l as [|a l IH]; [done|]. cbn [map picked]. rewrite IH. destruct (c a) eqn:E.
  - by rewrite filter_on.
  - by rewrite filter_off.
Qed.

(** The entry at the place of a value. *)
Definition home (m : BigintIdMap) (es : list entry) (v : Z) : entry := at_slot es (place m v).

Lemma home_entry m g es v :
  map_rep m g es -> es !! place m v = Some (home m es v) /\ entry_ok (home m es v).
Proof.
  intros H. destruct (place_lt _ _ _ v H) as [Hp _].
  pose proof (at_slot_lookup es (place m v) ltac:(by destruct es; [cbn in Hp; lia|])) as Hl. rewrite Nat.mod_small in Hl by done.
  split; [done|]. apply (Forall_lookup_1 _ _ _ _ (mr_entries _ _ _ H) Hl).
Qed.

Lemma home_value m g es v : map_rep m g es -> load64 (table_ m) (0 + 4 * makeIndex m v) = Ok (fst (home m es v)).
Proof.
  intros H. destruct (home_entry m g es v H) as [Hl [Hv _]]. rewrite (index_place _ _ _ _ H), (mr_table _ _ _ H).
  replace (0 + 4 * (3 * Z.of_nat (place m v))) with (12 * Z.of_nat (place m v)) by lia.
  destruct (home m es v) as [w id]. by apply (load64_value es _ w id).
Qed.

Lemma home_id m g es v :
  map_rep m g es -> exists x, load64 (table_ m) (8 + 4 * makeIndex m v) = Ok x /\ Z.land x kLow32 = snd (home m es v).
Proof.
  intros H. destruct (home_entry m g es v H) as [Hl [_ Hid]]. rewrite (index_place _ _ _ _ H), (mr_table _ _ _ H).
  replace (8 + 4 * (3 * Z.of_nat (place m v))) with (12 * Z.of_nat (place m v) + 8) by lia.
  destruct (home m es v) as [w id]. by apply (load64_id es _ w id).
Qed.

Definition loaded_id (m : BigintIdMap) (v : Z) : Z :=
  match load64 (table_ m) (8 + 4 * makeIndex m v) with Ok x => x | Err _ => 0 end.

Lemma home_found m g es v :
  map_rep m g es -> v <> 0 -> fst (home m es v) = v ->
  load64 (table_ m) (8 + 4 * makeIndex m v) = Ok (loaded_id m v) /\ g !! v = Some (Z.land (loaded_id m v) kLow32).
Proof.
  intros H Hnz Hv. destruct (home_id m g es v H) as (x & Hx & Hid). unfold loaded_id. rewrite Hx. split; [done|]. rewrite Hid.
  destruct (home_entry m g es v H) as [Hl _]. destruct (home m es v) as [w id]. cbn in Hv. subst w. by apply (mr_sound _ _ _ H _ _ _ Hl).
Qed.

Lemma home_empty m g es v :
  map_rep m g es -> v <> 0 -> fst (home m es v) = 0 -> g !! v = None.
Proof.
  intros H Hnz Hv. destruct (g !! v) as [id|] eqn:E; [|done]. destruct (mr_stored _ _ _ H v id E Hnz) as ([|k] & Hk & Hat & Hbefore).
  - rewrite Nat.add_0_r in Hat. unfold home in Hv. rewrite Hat in Hv. by cbn in Hv.
  - specialize (Hbefore 0%nat ltac:(lia)). rewrite Nat.add_0_r in Hbefore. done.
Qed.

(** Values that have ids already do not change the numbering. *)
Lemma assign_skip g (l : list lane) c d :
  (forall a, a ∈ l -> c a = true -> d a = true) ->
  (forall a, a ∈ l -> c a = false -> d a = true -> exists id, g !! lane_value a = Some id) ->
  foldl assign g (map lane_value (filter d l)) = foldl assign g (map lane_value (filter c l)).
Proof.
  revert g. induction l as [|a l IH]; intros g Hcd Hold; [done|].
  assert (forall g', (forall v id, g !! v = Some id -> g' !! v = Some id) ->
            foldl assign g' (map lane_value (filter d l)) = foldl assign g' (map lane_value (filter c l))) as IH'.
  { intros g' Hg'. apply IH; intros b Hb; [apply Hcd; by right|]. intros Hc Hd.
    destruct (Hold b) as [id Hid]; [by right|done|done|]. exists id. by apply Hg'. }
  destruct (c a) eqn:Ec.
  - rewrite (filter_on c) by done. rewrite (filter_on d) by (apply Hcd; [by left|done]). cbn [map foldl]. apply IH'. intros v id. apply assign_old.
  - rewrite (filter_off c) by done. destruct (d a) eqn:Ed.
    + rewrite filter_on by done. cbn [map foldl]. destruct (Hold a ltac:(by left) Ec Ed) as [id Hid].
      unfold assign at 2. rewrite Hid. by apply IH'.
    + rewrite filter_off by done. by apply IH'.
Qed.

(** ** [makeIds] *)

Definition id_of (g : gmap Z Z) (v : Z) : Z := match g !! v with Some id => id | None => kNotFound end.

Lemma low32_small x : 0 <= x < 2 ^ 32 -> Z.land x kLow32 = x.
Proof. intros Hx. unfold kLow32. rewrite (land_mod x 32) by lia. by apply Z.mod_small. Qed.

Lemma make_ids_lanes m g es (l : list lane) (miss : lane -> bool) (r : lane -> Z) :
  map_rep m g es -> (forall a, a ∈ l -> miss a = true -> value_ok (lane_value a) /\ lane_value a <> 0) ->
  (used es + length l <= length es)%nat -> Z.of_nat (size g) + Z.of_nat (length l) < 2 ^ 31 ->
  let g' := foldl assign g (map lane_value (filter miss l)) in
  exists m' es', make_ids m (map miss l) (map lane_value l) (map (makeIndex m) (map lane_value l)) (map r l)
      = Ok (m', map (fun a => if miss a then id_of g' (lane_value a) else r a) l)
    /\ map_rep m' g' es' /\ length es' = length es /\ (used es' <= used es + length l)%nat.
Proof.
  intros H Hvals Hroom Hsize g'.
  destruct (make_ids_ok m g es (map miss l) (map lane_value l) (map r l)) as (m' & es' & res & Hrun & Hrep & Hlen & Hu & Hlr & Hres);
    rewrite ?length_map in *; try done; try lia.
  { intros v. rewrite picked_map. intros (a & -> & Ha)%list_elem_of_fmap. apply list_elem_of_filter in Ha as [Hm Ha].
    apply (Hvals a Ha). by apply Is_true_eq_true. }
  rewrite picked_map in Hrep, Hres. exists m', es'. rewrite Hrun. split; [|by split_and!]. do 2 f_equal.
  apply list_eq_same_length with (length l); [by rewrite length_map|done|]. intros j x y Hj Hx Hy.
  destruct (lookup_lt_is_Some_2 l j Hj) as [a Ha].
  assert (forall B (f : lane -> B), map f l !! j = Some (f a)) as Hmap by (intros B f; by apply list_lookup_fmap_Some_2 with (x := a)).
  destruct (Hres j (miss a) (lane_value a) (r a)) as (id & Hid & Hcase); [apply Hmap..|]. rewrite Hmap in Hy. injection Hy as <-.
  rewrite Hx in Hid. injection Hid as ->. destruct (miss a); [|done]. unfold id_of. fold g' in Hcase. by rewrite Hcase.
Qed.

Definition tidy (m : BigintIdMap) : Prop := numEntries_ m <= maxEntries_ m.

(** The most ids the theorems consider: the entries that fit a table of [2 ^ 27]. *)
Definition kMaxIds : Z := 3 * 2 ^ 25.

Lemma grow_ok m g es :
  map_rep m g es -> numEntries_ m <= maxEntries_ m + kLanes -> Z.of_nat (size g) <= kMaxIds ->
  exists m' es', (if numEntries_ m >? maxEntries_ m then resize m (capacity_ m * 2) else Ok m) = Ok m' /\ map_rep m' g es' /\ tidy m'.
Proof.
  intros H Hnum Hsize. unfold kLanes, kMaxIds in *. destruct (numEntries_ m >? maxEntries_ m) eqn:E.
  2: { exists m, es. split_and!; try done. unfold tidy. lia. }
  pose proof (mr_max _ _ _ H) as Hmax. pose proof (mr_count _ _ _ H) as Hcount. pose proof (capacity_bounds _ _ _ H) as Hcap.
  destruct (mr_power _ _ _ H) as (k & Hk & Hc).
  assert (k <> 27) as Hk27 by (intros ->; rewrite Hc in Hmax; change (2 ^ 27 / 4) with (2 ^ 25) in Hmax; lia).
  assert (2 ^ k * 2 <= 2 ^ 27) as Hb by (rewrite Z.mul_comm, <- Z.pow_succ_r by lia; apply Z.pow_le_mono_r; lia).
  destruct (table_resize_ok m g es H) as (m' & es' & Hr & Hrep & Hcap' & Hu); [lia|]. exists m', es'. split_and!; try done.
  unfold tidy. rewrite (mr_max _ _ _ Hrep), (mr_used _ _ _ Hrep), Hu, <- (mr_used _ _ _ H), Hcap'. rewrite Hmax in Hnum. euclidean.
Qed.

Definition lane_ok (a : lane) : Prop :=
  value_ok (lane_value a) /\ 0 <= lane_ready a < 2 ^ 32 /\ (lane_active a = true -> lane_value a <> 0).

Definition hit (m : BigintIdMap) (es : list entry) (a : lane) : bool := (lane_value a =? fst (home m es (lane_value a))) && lane_active a.

Lemma hit_found m g es a :
  map_rep m g es -> (lane_active a = true -> lane_value a <> 0) -> hit m es a = true ->
  load64 (table_ m) (8 + 4 * makeIndex m (lane_value a)) = Ok (loaded_id m (lane_value a))
  /\ g !! lane_value a = Some (Z.land (loaded_id m (lane_value a)) kLow32).
Proof.
  intros H Hnz Hhit. unfold hit in Hhit. apply andb_true_iff in Hhit as [Hv%Z.eqb_eq Ha]. apply (home_found m g es); auto.
Qed.

Lemma gather_hits m g es l :
  map_rep m g es -> Forall (fun a => lane_active a = true -> lane_value a <> 0) l ->
  exists data, maskGather (map lane_ready l) (map lane_active l) (table_ m) 0 (map (makeIndex m) (map lane_value l)) = Ok data
    /\ lanes_and (lanes_eq (map lane_value l) data) (map lane_active l) = map (hit m es) l
    /\ data = map (fun a => if lane_active a then fst (home m es (lane_value a)) else lane_ready a) l
    /\ maskGather (map lane_ready l) (map (hit m es) l) (table_ m) 8 (map (makeIndex m) (map lane_value l))
       = Ok (map (fun a => if hit m es a then loaded_id m (lane_value a) else lane_ready a) l).
Proof.
  intros H Hl. eexists. split_and!; [apply gather_map; intros a _ _; by apply (home_value m g es)| |done|].
  - unfold lanes_and, lanes_eq. rewrite !zip_map. apply map_ext. intros a. unfold hit. destruct (lane_active a); [done|by rewrite !andb_false_r].
  - apply gather_map. intros a Ha Hhit. apply (hit_found m g es a H); [|done]. by apply (proj1 (Forall_forall _ _) Hl).
Qed.

Lemma forallb_map {A} (f : A -> bool) l : forallb id (map f l) = forallb f l.
Proof. induction l as [|a l IH]; [done|]. cbn. by rewrite IH. Qed.

Lemma existsb_map {A} (f : A -> bool) l : existsb id (map f l) = existsb f l.
Proof. induction l as [|a l IH]; [done|]. cbn. by rewrite IH. Qed.

(** The numbering after a batch, and the ids of its lanes. *)
Definition numbered (g : gmap Z Z) (l : list lane) : gmap Z Z := foldl assign g (map lane_value (filter lane_active l)).
Definition lane_id (g : gmap Z Z) (a : lane) : Z := if lane_active a then id_of g (lane_value a) else lane_ready a.

Definition miss (m : BigintIdMap) (es : list entry) (a : lane) : bool := negb (hit m es a || negb (lane_active a)).

Lemma numbered_misses m g es l :
  map_rep m g es -> Forall lane_ok l -> numbered g l = foldl assign g (map lane_value (filter (miss m es) l)).
Proof.
  intros H Hl. apply assign_skip; intros a Ha; unfold miss.
  - by destruct (lane_active a), (hit m es a).
  - intros Hc Hact. rewrite Hact, orb_false_r in Hc. eexists. apply (hit_found m g es a H); [|by apply negb_false_iff].
    apply (proj1 (Forall_forall _ _) Hl a Ha).
Qed.

Lemma numbered_id g l a : a ∈ l -> lane_active a = true -> exists id, numbered g l !! lane_value a = Some id.
Proof.
  intros Ha Hact. unfold numbered. assert (lane_value a ∈ map lane_value (filter lane_active l)) as Hin.
  { apply list_elem_of_fmap. exists a. split; [done|]. apply list_elem_of_filter. rewrite Hact. by split. }
  revert Hin. generalize (map lane_value (filter lane_active l)). intros vs. revert g. induction vs as [|v vs IH]; intros g Hin; [by apply not_elem_of_nil in Hin|].
  cbn [foldl]. apply elem_of_cons in Hin as [->|Hin]; [|by apply IH].
  destruct (assign_new g v) as [id Hid]. exists id. by apply assign_all_old.
Qed.

(** The lanes of a batch, with the high bits of the loaded words cleared. *)
Lemma lane_ids m g es m' es' l :
  map_rep m g es -> Forall lane_ok l -> map_rep m' (numbered g l) es' -> Z.of_nat (size (numbered g l)) < 2 ^ 32 ->
  low32 (map (fun a => if miss m es a then id_of (numbered g l) (lane_value a)
                       else if hit m es a then loaded_id m (lane_value a) else lane_ready a) l)
  = map (lane_id (numbered g l)) l.
Proof.
  intros H Hl H' Hsize. unfold low32. rewrite map_map. apply map_ext_in. intros a Ha%list_elem_of_In.
  pose proof (proj1 (Forall_forall _ _) Hl a Ha) as Hok. unfold miss, lane_id. destruct (lane_active a) eqn:Eact.
  - destruct (numbered_id g l a Ha Eact) as [id Hid]. destruct (hit m es a) eqn:Eh; cbn [orb negb].
    + destruct (hit_found m g es a H (proj2 (proj2 Hok)) Eh) as [_ Hg]. unfold id_of.
      by rewrite (assign_all_old _ _ _ _ Hg : numbered g l !! _ = _).
    + unfold id_of. rewrite Hid. apply low32_small. pose proof (mr_ids _ _ _ H' _ _ Hid). lia.
  - assert (hit m es a = false) as -> by (unfold hit; by rewrite Eact, andb_false_r). cbn [orb negb]. apply low32_small, Hok.
Qed.

Lemma makeIds_rest_ok m g es l :
  map_rep m g es -> tidy m -> length l = Z.to_nat kLanes -> Forall lane_ok l -> Z.of_nat (size (numbered g l)) <= kMaxIds ->
  exists m' es', makeIds_rest m (map lane_value l) (map lane_ready l) (map lane_active l)
      = Ok (m', map (lane_id (numbered g l)) l)
    /\ map_rep m' (numbered g l) es' /\ tidy m'.
Proof.
  intros H Htidy Hlen Hl Hsize. pose proof (numbered_misses m g es l H Hl) as Hnum. unfold kMaxIds in Hsize.
  destruct (gather_hits m g es l H (Forall_impl _ _ _ Hl (fun a Ha => proj2 (proj2 Ha)))) as (data & Hdata & Hmatch & _ & Hids). unfold makeIds_rest. cbv zeta.
  rewrite Hdata. cbn [rbind]. rewrite Hmatch, Hids. cbn [rbind]. unfold lanes_or, lanes_not. rewrite map_map, zip_map, forallb_map, map_map.
  change (map (fun a => negb (hit m es a || negb (lane_active a))) l) with (map (miss m es) l).
  destruct (forallb (fun a => hit m es a || negb (lane_active a)) l) eqn:Eall.
  - assert (forall a, a ∈ l -> miss m es a = false) as Hnone.
    { intros a Ha%list_elem_of_In. unfold miss. by rewrite (proj1 (forallb_forall _ _) Eall a Ha). }
    assert (numbered g l = g) as Hsame.
    { rewrite Hnum. assert (filter (miss m es) l = []) as ->; [|done]. clear -Hnone. induction l as [|a l IH]; [done|].
      rewrite filter_off by (apply Hnone; by left). apply IH. intros b Hb. apply Hnone. by right. }
    pose proof (lane_ids m g es m es l H Hl) as Hlanes. rewrite Hsame in Hlanes, Hsize. exists m, es. rewrite Hsame.
    split_and!; [|done..]. rewrite <- Hlanes by (done || lia). do 3 f_equal. apply map_ext_in. intros a Ha%list_elem_of_In. by rewrite Hnone.
  - pose proof (mr_max _ _ _ H) as Hmax. pose proof (mr_used _ _ _ H) as Hused. pose proof (mr_capacity _ _ _ H) as Hcap.
    pose proof (capacity_bounds _ _ _ H) as Hbounds. unfold tidy in Htidy. unfold kLanes in Hlen.
    assert (Z.of_nat (used es) + 4 <= Z.of_nat (length es)) as Hroom by (rewrite Hmax in Htidy; euclidean).
    pose proof (assign_all_size g (map lane_value (filter lane_active l))) as Hgrow.
    destruct (make_ids_lanes m g es l (miss m es) (fun a => if hit m es a then loaded_id m (lane_value a) else lane_ready a) H)
      as (m1 & es1 & Hrun & H1 & Hlen1 & Hu1); fold (numbered g l) in *; try lia.
    { intros a Ha Hm. destruct (proj1 (Forall_forall _ _) Hl a Ha) as (Hv & _ & Hnz). split; [done|]. apply Hnz.
      unfold miss in Hm. destruct (lane_active a); [done|]. by rewrite orb_true_r in Hm. }
    rewrite <- Hnum in Hrun, H1. rewrite Hrun. cbn [rbind].
    assert (numEntries_ m1 <= maxEntries_ m1 + kLanes) as Hn1.
    { rewrite (mr_used _ _ _ H1), (mr_max _ _ _ H1), (mr_capacity _ _ _ H1), Hlen1, <- Hcap, <- Hmax. unfold kLanes. lia. }
    destruct (grow_ok m1 _ es1 H1 Hn1 Hsize) as (m2 & es2 & -> & H2 & Htidy2). cbn [rbind]. exists m2, es2.
    rewrite (lane_ids m g es m1 es1 l) by (done || lia). done.
Qed.

Lemma no_active g l : existsb lane_active l = false -> numbered g l = g /\ map (lane_id (numbered g l)) l = map lane_ready l.
Proof.
  intros Hn. assert (forall a, a ∈ l -> lane_active a = false) as Hall.
  { intros a Ha%list_elem_of_In. destruct (lane_active a) eqn:E; [|done]. by rewrite (proj2 (existsb_exists _ _)) in Hn by (by exists a). }
  split.
  - unfold numbered. assert (filter lane_active l = []) as ->; [|done]. clear Hn. induction l as [|a l IH]; [done|].
    rewrite filter_off by (apply Hall; by left). apply IH. intros b Hb. apply Hall. by right.
  - apply map_ext_in. intros a Ha%list_elem_of_In. unfold lane_id. by rewrite Hall.
Qed.

Lemma makeIds_lanes_ok m g es l :
  map_rep m g es -> tidy m -> length l = Z.to_nat kLanes -> Forall lane_ok l -> Z.of_nat (size (numbered g l)) <= kMaxIds ->
  exists m' es', (if negb (existsb id (map lane_active l)) then Ok (m, map lane_ready l)
                  else makeIds_rest m (map lane_value l) (map lane_ready l) (map lane_active l))
      = Ok (m', map (lane_id (numbered g l)) l)
    /\ map_rep m' (numbered g l) es' /\ tidy m'.
Proof.
  intros H Htidy Hlen Hl Hsize. rewrite existsb_map. destruct (existsb lane_active l) eqn:E; cbn [negb]; [by apply (makeIds_rest_ok m g es)|].
  destruct (no_active g l E) as [Hn Hr]. exists m, es. by rewrite Hr, Hn.
Qed.

(** The value that marks empty entries has its id apart. *)
Lemma with_empty_ok m g es :
  map_rep m g es -> Z.of_nat (size (assign g 0)) <= kMaxIds ->
  exists m', (if emptyId_ m =? 0 then let! lastId := ck32 (lastId_ m + 1) in Ok (with_empty m lastId) else Ok m) = Ok m'
    /\ map_rep m' (assign g 0) es /\ numEntries_ m' = numEntries_ m /\ maxEntries_ m' = maxEntries_ m
    /\ emptyBatch_ m' = id_of (assign g 0) 0 /\ 0 <= emptyBatch_ m' < 2 ^ 32.
Proof.
  intros H Hsize. pose proof (mr_zero _ _ _ H) as Hz. pose proof (mr_last _ _ _ H) as Hlast. unfold kMaxIds, assign, id_of in *.
  destruct (g !! 0) as [id|] eqn:E; destruct Hz as [Hid Hbatch]; rewrite Hid.
  - pose proof (mr_ids _ _ _ H _ _ E) as Hpos. rewrite (proj2 (Z.eqb_neq id 0)) by lia. exists m. rewrite E. split_and!; try done; lia.
  - rewrite map_size_insert_None in Hsize by done. cbn [Z.eqb]. rewrite ck32_in by lia. cbn [rbind]. eexists. split; [done|].
    rewrite lookup_insert_eq. cbn. split_and!; try done; try lia.
    split; cbn; rewrite ?map_size_insert_None by done; try (by apply H); try lia.
    + intros i v id Hi Hv. rewrite lookup_insert_ne by done. by apply (mr_sound _ _ _ H i).
    + intros v id Hv Hnz. rewrite lookup_insert_ne in Hv by done. by apply (mr_stored _ _ _ H).
    + pose proof (mr_count _ _ _ H). lia.
    + rewrite lookup_insert_eq. lia.
    + intros v id Hv. destruct (decide (v = 0)) as [->|Hne].
      * rewrite lookup_insert_eq in Hv. injection Hv as <-. lia.
      * rewrite lookup_insert_ne in Hv by done. pose proof (mr_ids _ _ _ H _ _ Hv). lia.
Qed.

(** The lanes of a batch without those of the value that marks empty entries. *)
Definition is_zero (a : lane) : bool := lane_value a =? kEmptyMarker.
Definition zero_active (a : lane) : bool := is_zero a && lane_active a.
Definition without_zero (batch : Z) (a : lane) : lane :=
  mkLane (lane_value a) (lane_active a && negb (is_zero a)) (if zero_active a then batch else lane_ready a).

Definition with_zero (g : gmap Z Z) (l : list lane) : gmap Z Z := if existsb zero_active l then assign g 0 else g.

Lemma numbered_without g l batch : numbered (with_zero g l) (map (without_zero batch) l) = numbered (with_zero g l) l.
Proof.
  assert (map lane_value (filter lane_active (map (without_zero batch) l))
          = map lane_value (filter (fun a => lane_active a && negb (is_zero a)) l)) as Hf.
  { clear. induction l as [|a l IH]; [done|]. cbn [map]. destruct (lane_active a && negb (is_zero a)) eqn:E.
    - rewrite !filter_on by done. cbn [map]. by rewrite IH.
    - by rewrite !filter_off. }
  unfold numbered. rewrite Hf. symmetry. apply assign_skip; intros a Ha; [by intros [? _]%andb_true_iff|].
  intros Hc Hact. rewrite Hact in Hc. cbn in Hc. apply negb_false_iff in Hc. unfold is_zero in Hc. apply Z.eqb_eq in Hc. rewrite Hc.
  unfold with_zero. rewrite (proj2 (existsb_exists _ _)); [apply assign_new|]. exists a. split; [by apply list_elem_of_In|].
  unfold zero_active, is_zero. by rewrite Hc, Hact.
Qed.

Lemma lane_id_without g l batch :
  (existsb zero_active l = true -> batch = id_of g 0) -> map (lane_id g) (map (without_zero batch) l) = map (lane_id g) l.
Proof.
  intros Hb. rewrite map_map. apply map_ext_in. intros a Ha. unfold lane_id, without_zero. cbn [lane_value lane_active lane_ready].
  unfold zero_active. destruct (lane_active a) eqn:E; [|by rewrite andb_false_r]. rewrite andb_true_r. cbn [andb].
  destruct (is_zero a) eqn:Ez; [|done]. cbn [negb]. rewrite Hb.
  - unfold is_zero in Ez. apply Z.eqb_eq in Ez. by rewrite Ez.
  - apply existsb_exists. exists a. split; [done|]. unfold zero_active. by rewrite Ez.
Qed.

(** The lanes of a call. *)
Definition call_lanes (x : list Z) (mask : Z) : list lane := zip_with (fun v c => mkLane v c 0) x (fromBitMask mask).

Lemma call_lanes_ok x mask :
  length x = Z.to_nat kLanes -> Forall value_ok x ->
  length (call_lanes x mask) = Z.to_nat kLanes /\ map lane_value (call_lanes x mask) = x
  /\ map lane_active (call_lanes x mask) = fromBitMask mask /\ broadcast 0 = map lane_ready (call_lanes x mask)
  /\ Forall (fun a => value_ok (lane_value a) /\ lane_ready a = 0) (call_lanes x mask).
Proof.
  intros Hx Hok. destruct x as [|a [|b [|c [|d [|]]]]]; try done.
  split_and!; try done. repeat (apply Forall_cons in Hok as [? Hok]). repeat (apply Forall_cons; split; [done|]). by apply Forall_nil.
Qed.

Lemma zero_step m g es l :
  map_rep m g es -> Z.of_nat (size (with_zero g l)) <= kMaxIds ->
  exists m', (if (emptyId_ m =? 0) && existsb zero_active l
              then let! lastId := ck32 (lastId_ m + 1) in Ok (with_empty m lastId) else Ok m) = Ok m'
    /\ map_rep m' (with_zero g l) es /\ numEntries_ m' = numEntries_ m /\ maxEntries_ m' = maxEntries_ m
    /\ (existsb zero_active l = true -> with_zero g l !! 0 = Some (emptyBatch_ m') /\ 0 <= emptyBatch_ m' < 2 ^ 32).
Proof.
  intros H. unfold with_zero. destruct (existsb zero_active l).
  - intros Hsize. rewrite andb_true_r. destruct (with_empty_ok m g es H Hsize) as (m' & Hm' & H' & Hn & Hmax & Hb & Hr).
    exists m'. split_and!; try done. destruct (assign_new g 0) as [id Hid]. unfold id_of in Hb. rewrite Hid in Hb |- *. by rewrite Hb in Hr |- *.
  - intros _. rewrite andb_false_r. by exists m.
Qed.

Lemma zero_free l : existsb is_zero l = false -> forall g, with_zero g l = g /\ forall a, a ∈ l -> lane_value a <> 0.
Proof.
  intros Hn g. assert (forall a, a ∈ l -> is_zero a = false) as Hall.
  { intros a Ha%list_elem_of_In. destruct (is_zero a) eqn:E; [|done]. by rewrite (proj2 (existsb_exists _ _)) in Hn by (by exists a). }
  split.
  - unfold with_zero. destruct (existsb zero_active l) eqn:E; [|done]. apply existsb_exists in E as (a & Ha%list_elem_of_In & Hz).
    unfold zero_active in Hz. by rewrite Hall in Hz.
  - intros a Ha. pose proof (Hall a Ha) as Hz. unfold is_zero in Hz. by apply Z.eqb_neq in Hz.
Qed.

Lemma without_zero_ok l batch :
  (existsb zero_active l = true -> 0 <= batch < 2 ^ 32) -> Forall (fun a => value_ok (lane_value a) /\ lane_ready a = 0) l ->
  Forall lane_ok (map (without_zero batch) l).
Proof.
  intros Hb Hl. apply Forall_fmap, Forall_forall. intros a Ha. destruct (proj1 (Forall_forall _ _) Hl a Ha) as [Hv Hr].
  unfold lane_ok. cbn. split; [done|]. split.
  - destruct (zero_active a) eqn:E; [|lia]. apply Hb, existsb_exists. exists a. split; [by apply list_elem_of_In|done].
  - intros [_ Hz]%andb_true_iff. unfold is_zero, kEmptyMarker in Hz. apply negb_true_iff, Z.eqb_neq in Hz. done.
Qed.

(** What a call does to the numbering. *)
Definition spec_makeIds (g : gmap Z Z) (x : list Z) (mask : Z) : gmap Z Z :=
  let values := picked (fromBitMask mask) x in
  foldl assign (if bool_decide (0 ∈ values) then assign g 0 else g) values.

Definition spec_ids (g : gmap Z Z) (x : list Z) (mask : Z) : list Z :=
  zip_with (fun v (c : bool) => if c then id_of g v else 0) x (fromBitMask mask).

Lemma spec_lanes g x mask :
  length x = Z.to_nat kLanes -> Forall value_ok x ->
  spec_makeIds g x mask = numbered (with_zero g (call_lanes x mask)) (call_lanes x mask)
  /\ forall g', spec_ids g' x mask = map (lane_id g') (call_lanes x mask).
Proof.
  intros Hx Hok. destruct (call_lanes_ok x mask Hx Hok) as (_ & Hv & Ha & _ & _). split.
  - assert (picked (fromBitMask mask) x = map lane_value (filter lane_active (call_lanes x mask))) as Hp by (by rewrite <- picked_map, Hv, Ha).
    unfold spec_makeIds, numbered, with_zero. cbv zeta. rewrite Hp.
    assert (bool_decide (0 ∈ map lane_value (filter lane_active (call_lanes x mask))) = existsb zero_active (call_lanes x mask)) as ->; [|done].
    apply eq_true_iff_eq. rewrite bool_decide_eq_true, existsb_exists. unfold zero_active, is_zero, kEmptyMarker. split.
    + intros (a & Hz & Hin)%list_elem_of_fmap. apply list_elem_of_filter in Hin as [Hact Hin]. exists a. split; [by apply list_elem_of_In|].
      apply Is_true_eq_true in Hact. by rewrite <- Hz, Hact.
    + intros (a & Hin & [Hz%Z.eqb_eq Hact]%andb_true_iff). apply list_elem_of_fmap. exists a. split; [done|]. apply list_elem_of_filter.
      split; [by rewrite Hact|by apply list_elem_of_In].
  - intros g'. destruct x as [|a [|b [|c [|d [|]]]]]; done.
Qed.

Lemma makeIds_ok m g es x mask :
  map_rep m g es -> tidy m -> length x = Z.to_nat kLanes -> Forall value_ok x -> Z.of_nat (size (spec_makeIds g x mask)) <= kMaxIds ->
  exists m' es', makeIds m x mask = Ok (m', spec_ids (spec_makeIds g x mask) x mask)
    /\ map_rep m' (spec_makeIds g x mask) es' /\ tidy m'.
Proof.
  intros H Htidy Hx Hok Hsize. destruct (mask =? 0) eqn:Em.
  { apply Z.eqb_eq in Em as ->. exists m, es. unfold makeIds. cbn [Z.eqb]. by destruct x as [|a [|b [|c [|d [|]]]]]. }
  destruct (call_lanes_ok x mask Hx Hok) as (Hlen & Hv & Ha & Hr & Hl). destruct (spec_lanes g x mask Hx Hok) as [Hspec Hids].
  rewrite Hids, Hspec in *. clear Hids Hspec. unfold makeIds. rewrite Em. cbv zeta. clear Em.
  set (l := call_lanes x mask) in *. clearbody l. rewrite <- Ha, Hr, (broadcast_map kEmptyMarker l) by done. subst x.
  unfold lanes_eq, lanes_and, lanes_not. rewrite !zip_map, !map_map, !zip_map, !existsb_map.
  change (existsb (fun a => lane_value a =? kEmptyMarker) l) with (existsb is_zero l).
  change (existsb (fun a => (lane_value a =? kEmptyMarker) && lane_active a) l) with (existsb zero_active l).
  destruct (existsb is_zero l) eqn:Ez.
  - pose proof (assign_all_size (with_zero g l) (map lane_value (filter lane_active l))) as Hgrow. fold (numbered (with_zero g l) l) in Hgrow.
    destruct (zero_step m g es l H ltac:(lia)) as (m1 & -> & H1 & Hn1 & Hmax1 & Hb1). cbn [rbind].
    rewrite (broadcast_map (emptyBatch_ m1) l), select_map by done. fold (numbered (with_zero g l) l).
    pose proof (makeIds_lanes_ok m1 _ es (map (without_zero (emptyBatch_ m1)) l) H1) as Hrest.
    rewrite length_map, numbered_without, !map_map, existsb_map in Hrest. destruct Hrest as (m2 & es2 & Hrun & H2 & Ht2); try done.
    + unfold tidy. by rewrite Hn1, Hmax1.
    + apply without_zero_ok; [|done]. intros E. by apply Hb1.
    + exists m2, es2. split_and!; [|done..]. etransitivity; [exact Hrun|]. do 2 f_equal. rewrite <- map_map. apply lane_id_without.
      intros E. unfold id_of. by rewrite (assign_all_old _ _ _ _ (proj1 (Hb1 E)) : numbered _ l !! 0 = _).
  - destruct (zero_free l Ez g) as [Hg Hnz]. rewrite Hg in *. apply (makeIds_rest_ok m g es l); try done.
    apply Forall_forall. intros a Hin. destruct (proj1 (Forall_forall _ _) Hl a Hin) as [Hva Hra]. split; [done|]. split; [lia|]. intros _. by apply Hnz.
Qed.

(** ** [findIds] *)

Lemma find_ids_lanes m (l : list lane) (c : lane -> bool) (r f : lane -> Z) :
  (forall a, a ∈ l -> c a = true -> find_id m (lane_value a) (3 + makeIndex m (lane_value a)) = Ok (f a)) ->
  find_ids m (map c l) (map lane_value l) (map (fun a => 3 + makeIndex m (lane_value a)) l) (map r l)
  = Ok (map (fun a => if c a then f a else r a) l).
Proof.
  induction l as [|a l IH]; intros Hl; [done|]. cbn [map find_ids].
  assert ((if c a then find_id m (lane_value a) (3 + makeIndex m (lane_value a)) else Ok (r a)) = Ok (if c a then f a else r a)) as ->.
  { destruct (c a) eqn:E; [|done]. apply Hl; [by left|done]. }
  cbn [rbind]. rewrite IH; [done|]. intros b Hb. apply Hl. by right.
Qed.

(** What the first look at the table finds of a lane. *)
Definition absent (m : BigintIdMap) (es : list entry) (a : lane) : bool := (fst (home m es (lane_value a)) =? kEmptyMarker) && lane_active a.
Definition first_look (m : BigintIdMap) (es : list entry) (a : lane) : Z :=
  if absent m es a then kNotFound else if hit m es a then Z.land (loaded_id m (lane_value a)) kLow32 else lane_ready a.
Definition unsettled (m : BigintIdMap) (es : list entry) (a : lane) : bool := negb (hit m es a || negb (lane_active a) || absent m es a).

Lemma first_look_id m g es a :
  map_rep m g es -> (lane_active a = true -> lane_value a <> 0) -> unsettled m es a = false -> first_look m es a = lane_id g a.
Proof.
  intros H Hnz Hu. unfold first_look, unsettled, lane_id, id_of in *. apply negb_false_iff in Hu.
  destruct (lane_active a) eqn:Ea.
  - destruct (absent m es a) eqn:Eb.
    + unfold absent in Eb. apply andb_true_iff in Eb as [Eb%Z.eqb_eq _]. by rewrite (home_empty m g es _ H (Hnz eq_refl) Eb).
    + rewrite !orb_false_r in Hu. rewrite Hu. by rewrite (proj2 (hit_found m g es a H (fun _ => Hnz eq_refl) Hu)).
  - unfold absent, hit. by rewrite Ea, !andb_false_r.
Qed.

Lemma findIds_rest_ok m g es l :
  map_rep m g es -> tidy m -> length l = Z.to_nat kLanes ->
  Forall (fun a => value_ok (lane_value a) /\ (lane_active a = true -> lane_value a <> 0)) l ->
  findIds_rest m (map lane_value l) (map lane_ready l) (map lane_active l) = Ok (map (lane_id g) l).
Proof.
  intros H Htidy Hlen Hl. destruct (gather_hits m g es l H (Forall_impl _ _ _ Hl (fun a Ha => proj2 Ha))) as (data & Hdata & Hmatch & Heq & Hids).
  unfold findIds_rest. cbv zeta. rewrite Hdata. cbn [rbind]. rewrite Hmatch, Hids. cbn [rbind]. subst data.
  assert (lanes_and (lanes_eq (map (fun a => if lane_active a then fst (home m es (lane_value a)) else lane_ready a) l) (broadcast kEmptyMarker))
            (map lane_active l) = map (absent m es) l) as ->.
  { unfold lanes_and, lanes_eq. rewrite (broadcast_map kEmptyMarker l), !zip_map by done. apply map_ext. intros a. unfold absent.
    destruct (lane_active a); [done|by rewrite !andb_false_r]. }
  unfold low32, lanes_or, lanes_not. rewrite (broadcast_map kNotFound l), !map_map, !zip_map, !select_map, forallb_map, map_map by done.
  assert (map (fun a => if absent m es a then kNotFound else if hit m es a then
            Z.land (if hit m es a then loaded_id m (lane_value a) else lane_ready a) kLow32
            else if hit m es a then loaded_id m (lane_value a) else lane_ready a) l = map (first_look m es) l) as ->.
  { apply map_ext. intros a. unfold first_look. by destruct (hit m es a). }
  assert (forall a, a ∈ l -> unsettled m es a = false -> first_look m es a = lane_id g a) as Hsettled.
  { intros a Ha. apply first_look_id; [done|]. apply (proj1 (Forall_forall _ _) Hl a Ha). }
  destruct (forallb _ l) eqn:E.
  - f_equal. apply map_ext_in. intros a Ha. apply Hsettled; [by apply list_elem_of_In|]. unfold unsettled. by rewrite (proj1 (forallb_forall _ _) E a Ha).
  - change (map (fun a => negb (hit m es a || negb (lane_active a) || absent m es a)) l) with (map (unsettled m es) l).
    rewrite (find_ids_lanes m l (unsettled m es) (first_look m es) (fun a => id_of g (lane_value a))).
    + f_equal. apply map_ext_in. intros a Ha%list_elem_of_In. destruct (unsettled m es a) eqn:Eu; [|by apply Hsettled].
      unfold unsettled, lane_id in *. destruct (lane_active a); [done|]. by rewrite orb_true_r in Eu.
    + intros a Ha Hu. destruct (proj1 (Forall_forall _ _) Hl a Ha) as [Hv Hnz]. unfold unsettled, hit, absent in Hu.
      apply negb_true_iff, orb_false_iff in Hu as [[Hh Hact%negb_false_iff]%orb_false_iff Hab]. rewrite Hact, andb_true_r in Hh, Hab.
      apply Z.eqb_neq in Hh, Hab. apply (find_id_ok m g es); [done|done|by apply Hnz| |done|].
      * pose proof (mr_max _ _ _ H). pose proof (mr_used _ _ _ H). pose proof (mr_capacity _ _ _ H). pose proof (capacity_bounds _ _ _ H).
        unfold tidy in Htidy. euclidean.
      * fold (home m es (lane_value a)). congruence.
Qed.

Lemma findIds_lanes_ok m g es l :
  map_rep m g es -> tidy m -> length l = Z.to_nat kLanes ->
  Forall (fun a => value_ok (lane_value a) /\ (lane_active a = true -> lane_value a <> 0)) l ->
  (if negb (existsb id (map lane_active l)) then Ok (map lane_ready l)
   else findIds_rest m (map lane_value l) (map lane_ready l) (map lane_active l)) = Ok (map (lane_id g) l).
Proof.
  intros H Htidy Hlen Hl. rewrite existsb_map. destruct (existsb lane_active l) eqn:E; cbn [negb]; [by apply (findIds_rest_ok m g es)|].
  destruct (no_active g l E) as [Hn Hr]. by rewrite <- Hr, Hn.
Qed.

Lemma findIds_ok m g es x mask :
  map_rep m g es -> tidy m -> length x = Z.to_nat kLanes -> Forall value_ok x -> findIds m x mask = Ok (spec_ids g x mask).
Proof.
  intros H Htidy Hx Hok. destruct (mask =? 0) eqn:Em.
  { apply Z.eqb_eq in Em as ->. unfold findIds. cbn [Z.eqb]. by destruct x as [|a [|b [|c [|d [|]]]]]. }
  destruct (call_lanes_ok x mask Hx Hok) as (Hlen & Hv & Ha & Hr & Hl). rewrite (proj2 (spec_lanes g x mask Hx Hok)).
  unfold findIds. rewrite Em. cbv zeta. clear Em.
  set (l := call_lanes x mask) in *. clearbody l. rewrite <- Ha, Hr, (broadcast_map kEmptyMarker l) by done. subst x.
  unfold lanes_eq, lanes_and, lanes_not. rewrite !zip_map, !map_map, !zip_map, !existsb_map.
  change (existsb (fun a => lane_value a =? kEmptyMarker) l) with (existsb is_zero l).
  assert (emptyBatch_ m = id_of g 0) as Hbatch.
  { pose proof (mr_zero _ _ _ H) as Hz. unfold id_of. by destruct (g !! 0); destruct Hz as [_ ->]. }
  destruct (existsb is_zero l) eqn:Ez.
  - rewrite (broadcast_map (emptyBatch_ m) l), select_map by done. rewrite <- (lane_id_without g l (emptyBatch_ m)) by done.
    pose proof (findIds_lanes_ok m g es (map (without_zero (emptyBatch_ m)) l) H Htidy) as Hrest.
    rewrite length_map, !(map_map (without_zero (emptyBatch_ m))), existsb_map in Hrest. rewrite map_map. apply Hrest; [done|].
    apply Forall_fmap, Forall_forall. intros a Hin. destruct (proj1 (Forall_forall _ _) Hl a Hin) as [Hva _]. split; [done|]. cbn.
    intros [_ Hz]%andb_true_iff. unfold is_zero, kEmptyMarker in Hz. by apply negb_true_iff, Z.eqb_neq in Hz.
  - destruct (zero_free l Ez g) as [_ Hnz]. apply (findIds_rest_ok m g es); try done. apply Forall_forall. intros a Hin.
    destruct (proj1 (Forall_forall _ _) Hl a Hin) as [Hva _]. split; [done|]. intros _. by apply Hnz.
Qed.

(** ** A new map *)

Lemma nextPowerOfTwo_small capacity : 0 <= capacity <= 2 ^ 27 ->
  exists k, 6 <= k <= 27 /\ Z.max (2 * (kLanes * 8)) (wrap_signed 32 (nextPowerOfTwo (wrap_unsigned 64 capacity))) = 2 ^ k.
Proof.
  intros Hc. rewrite wrap_unsigned_id by lia. destruct (decide (capacity = 0)) as [->|Hnz]; [by exists 6|].
  destruct (nextPowerOfTwo_spec capacity) as (k & Hk & -> & Hle & Hlt); [lia|].
  assert (k < 28) as Hk28 by (apply (Z.pow_lt_mono_r_iff 2); lia). assert (2 ^ k <= 2 ^ 27) as Hb by (apply Z.pow_le_mono_r; lia).
  rewrite wrap_signed_id by lia. unfold kLanes. destruct (decide (6 <= k)) as [H6|H6].
  - exists k. split; [lia|]. assert (2 ^ 6 <= 2 ^ k) by (apply Z.pow_le_mono_r; lia). lia.
  - exists 6. split; [lia|]. assert (2 ^ k <= 2 ^ 6) by (apply Z.pow_le_mono_r; lia). lia.
Qed.

Lemma make_map_ok capacity :
  0 <= capacity <= 2 ^ 27 -> exists m es, make_BigintIdMap capacity = Ok m /\ map_rep m ∅ es /\ tidy m.
Proof.
  intros Hc. unfold make_BigintIdMap. destruct (nextPowerOfTwo_small capacity Hc) as (k & Hk & ->).
  destruct (makeTable_ok (mkBigintIdMap 0 0 kNotFound [] 0 0 0 0 0 0) k Hk) as (m & Hm & Ht & Hcap & Hmask & Hlimit & Hmax & Hnum & Hlast & Hid & Hbatch).
  cbn in Hnum, Hlast, Hid, Hbatch. destruct (empty_entries (Z.to_nat (2 ^ k))) as (Hok & Hused & Hsound).
  assert (0 < 2 ^ k) as Hpos by (apply Z.pow_pos_nonneg; lia).
  exists m, (repeat (0, 0) (Z.to_nat (2 ^ k))). split; [done|]. split.
  - split; rewrite ?repeat_length, ?Hcap, ?Hused, ?map_size_empty, ?lookup_empty; rewrite ?Hnum; try done; try lia. by exists k.
  - unfold tidy. rewrite Hnum, Hmax. euclidean.
Qed.

(** ** Calls *)

Inductive call : Type :=
| MakeIds (x : list Z) (mask : Z)
| FindIds (x : list Z) (mask : Z).

Definition call_ok (c : call) : Prop :=
  match c with
  | MakeIds x mask | FindIds x mask => length x = Z.to_nat kLanes /\ Forall value_ok x /\ 0 <= mask <= kAllSet
  end.

Definition step (m : BigintIdMap) (c : call) : result (BigintIdMap * list Z) :=
  match c with
  | MakeIds x mask => makeIds m x mask
  | FindIds x mask => let! ids := findIds m x mask in Ok (m, ids)
  end.

Fixpoint run (m : BigintIdMap) (cs : list call) : result (BigintIdMap * list (list Z)) :=
  match cs with
  | [] => Ok (m, [])
  | c :: cs =>
      let! p := step m c in
      let! q := run (fst p) cs in
      Ok (fst q, snd p :: snd q)
  end.

Definition spec_step (g : gmap Z Z) (c : call) : gmap Z Z * list Z :=
  match c with
  | MakeIds x mask => (spec_makeIds g x mask, spec_ids (spec_makeIds g x mask) x mask)
  | FindIds x mask => (g, spec_ids g x mask)
  end.

Fixpoint spec_run (g : gmap Z Z) (cs : list call) : gmap Z Z * list (list Z) :=
  match cs with
  | [] => (g, [])
  | c :: cs => let p := spec_step g c in let q := spec_run (fst p) cs in (fst q, snd p :: snd q)
  end.

(** A numbering from one on, without gaps. *)
Definition numbering (g : gmap Z Z) : Prop :=
  (forall v id, g !! v = Some id -> 1 <= id <= Z.of_nat (size g)) /\ (forall v w id, g !! v = Some id -> g !! w = Some id -> v = w).

Lemma numbering_assign g v : numbering g -> numbering (assign g v).
Proof.
  intros [Hr Hinj]. unfold assign. destruct (g !! v) as [idv|] eqn:E; [done|]. split.
  - intros w id Hw. rewrite map_size_insert_None by done. destruct (decide (w = v)) as [->|Hne].
    + rewrite lookup_insert_eq in Hw. injection Hw as <-. lia.
    + rewrite lookup_insert_ne in Hw by done. specialize (Hr _ _ Hw). lia.
  - assert (forall w id, <[v := Z.of_nat (size g) + 1]> g !! w = Some id -> (w = v /\ id = Z.of_nat (size g) + 1) \/ (g !! w = Some id /\ id <= Z.of_nat (size g))) as Hcase.
    { intros w id Hw. destruct (decide (w = v)) as [->|Hne].
      - rewrite lookup_insert_eq in Hw. injection Hw as <-. by left.
      - rewrite lookup_insert_ne in Hw by done. right. specialize (Hr _ _ Hw). split; [done|lia]. }
    intros a b id [[-> ->]|[Ha Hla]]%Hcase [[-> Hid]|[Hb Hlb]]%Hcase; try done; try lia. by apply (Hinj a b id).
Qed.

Lemma numbering_all g l : numbering g -> numbering (foldl assign g l).
Proof. revert g. induction l as [|v l IH]; intros g Hg; [done|]. by apply IH, numbering_assign. Qed.

Lemma spec_step_grows g c :
  (forall v id, g !! v = Some id -> fst (spec_step g c) !! v = Some id) /\ (numbering g -> numbering (fst (spec_step g c))).
Proof.
  destruct c as [x mask|x mask]; cbn; [|done]. unfold spec_makeIds. split.
  - intros v id Hv. apply assign_all_old. case_bool_decide; [by apply assign_old|done].
  - intros Hg. apply numbering_all. case_bool_decide; [by apply numbering_assign|done].
Qed.

Lemma spec_run_grows g cs :
  (forall v id, g !! v = Some id -> fst (spec_run g cs) !! v = Some id) /\ (numbering g -> numbering (fst (spec_run g cs))).
Proof.
  revert g. induction cs as [|c cs IH]; intros g; [done|]. cbn. destruct (spec_step_grows g c) as [H1 H2].
  destruct (IH (fst (spec_step g c))) as [H3 H4]. split; [intros v id Hv; by apply H3, H1|auto].
Qed.

Lemma spec_run_app g cs cs' : fst (spec_run g (cs ++ cs')) = fst (spec_run (fst (spec_run g cs)) cs').
Proof. revert g. induction cs as [|c cs IH]; intros g; [done|]. cbn. by rewrite IH. Qed.

Lemma size_grows (g g' : gmap Z Z) : (forall v id, g !! v = Some id -> g' !! v = Some id) -> (size g <= size g')%nat.
Proof. intros H. apply map_subseteq_size. apply map_subseteq_spec. done. Qed.

Lemma id_run_ok m g es cs :
  map_rep m g es -> tidy m -> Forall call_ok cs -> Z.of_nat (size (fst (spec_run g cs))) <= kMaxIds ->
  exists m' es', run m cs = Ok (m', snd (spec_run g cs)) /\ map_rep m' (fst (spec_run g cs)) es' /\ tidy m'.
Proof.
  intros H Htidy Hcs Hsize. revert m g es H Htidy Hsize. induction Hcs as [|c cs Hc Hcs IH]; intros m g es H Htidy Hsize.
  - by exists m, es.
  - cbn [run spec_run] in *. cbv zeta in *. cbn [fst snd] in *. pose proof (size_grows _ _ (proj1 (spec_run_grows (fst (spec_step g c)) cs))) as Hgrow.
    assert (exists m1 es1, step m c = Ok (m1, snd (spec_step g c)) /\ map_rep m1 (fst (spec_step g c)) es1 /\ tidy m1) as (m1 & es1 & -> & H1 & Ht1).
    { destruct c as [x mask|x mask]; destruct Hc as (Hx & Hok & _); cbn [step spec_step fst snd] in *.
      - apply (makeIds_ok m g es); try done. lia.
      - rewrite (findIds_ok m g es) by done. by exists m, es. }
    cbn [rbind fst snd]. destruct (IH m1 _ es1 H1 Ht1 Hsize) as (m2 & es2 & -> & H2 & Ht2). by exists m2, es2.
Qed.

(** C6. The map numbers 64-bit integers. Every sequence of makeIds and findIds calls on a new map ends, and every batch it
    returns is the one of a finite map from values to ids: makeIds gives a value that has no id the next one (the value 0,
    which marks empty entries, before the other values of its batch) and returns the ids of the active lanes and 0
    for the others; findIds returns the id or kNotFound. Two values never share an id, an id once given does not change, and the ids are
    1 to the number of values. This holds through collisions, wrap-around of the probes and the growth of the table, for
    up to 3 * 2^25 values. *)
Theorem bigint_ids capacity cs :
  0 <= capacity <= 2 ^ 27 -> Forall call_ok cs -> Z.of_nat (size (fst (spec_run ∅ cs))) <= kMaxIds ->
  numbering (fst (spec_run ∅ cs))
  /\ (forall cs' v id, fst (spec_run ∅ cs) !! v = Some id -> fst (spec_run ∅ (cs ++ cs')) !! v = Some id)
  /\ exists m m', make_BigintIdMap capacity = Ok m /\ run m cs = Ok (m', snd (spec_run ∅ cs)).
Proof.
  intros Hc Hcs Hsize. split_and!.
  - apply spec_run_grows. split; [intros v id Hv|intros v w id Hv]; by rewrite lookup_empty in Hv.
  - intros cs' v id Hv. rewrite spec_run_app. by apply spec_run_grows.
  - destruct (make_map_ok capacity Hc) as (m & es & Hm & H & Htidy). destruct (id_run_ok m ∅ es cs H Htidy Hcs Hsize) as (m' & es' & Hrun & _).
    by exists m, m'.
Qed.

(** Four values, two of which fall on the same entry; then a batch with the value 0 on an active and on an inactive lane. *)
Definition example_calls : list call :=
  [MakeIds [64; 128; 64; 7] 15; FindIds [7; 8; 0; 128] 15; MakeIds [9; 0; 7; 0] 7; FindIds [0; 9; 128; 1] 15].

Lemma bigint_ids_witness :
  numbering (fst (spec_run ∅ example_calls))
  /\ (forall cs' v id, fst (spec_run ∅ example_calls) !! v = Some id -> fst (spec_run ∅ (example_calls ++ cs')) !! v = Some id)
  /\ exists m m', make_BigintIdMap 10 = Ok m
      /\ run m example_calls = Ok (m', [[1; 2; 1; 3]; [3; -1; -1; 2]; [5; 4; 3; 0]; [4; 5; 2; -1]]).
Proof.
  assert (snd (spec_run ∅ example_calls) = [[1; 2; 1; 3]; [3; -1; -1; 2]; [5; 4; 3; 0]; [4; 5; 2; -1]]) as <- by (by vm_compute).
  apply (bigint_ids 10 example_calls).
  - lia.
  - unfold example_calls. repeat (apply Forall_cons; split; [|]); try (by apply Forall_nil);
      (split; [done|]; split; [|unfold kAllSet; lia]);
      repeat (apply Forall_cons; split; [unfold value_ok; lia|]); by apply Forall_nil.
  - by vm_compute.
Defined.

(** * The largest tables *)

(** [valuePtr] computes the offset of an entry at the width of [int32_t]: from entry 178956971 on the product overflows, although
    the capacity may be up to [2 ^ 30]. *)
Lemma valuePtr_overflows : valuePtr 178956971 = Err SignedOverflow /\ 178956971 < 2 ^ 28 <= kMaxCapacity.
Proof. done. Qed.
