(* ===== verification/DenseHll.v ===== *)
(** The dense layout of HyperLogLog (bolt/common/hyperloglog/DenseHll.h and DenseHll.cpp, the hash functions of
    HllUtils.h and the byte streams of bolt/common/base/IOUtils.h): 4-bit deltas from a baseline with a list of
    overflows, its operations and its serialized form. *)

From S2P Require Import Prelude Text.

(** * Hashes *)

(** [__builtin_clzl] and [__builtin_clz] of a number that is not zero. *)
Definition builtin_clzl (x : Z) : Z := 63 - Z.log2 x.
Definition builtin_clz (x : Z) : Z := 31 - Z.log2 x.

Definition computeIndex (hash indexBitLength : Z) : Z := wrap_unsigned 32 (Z.shiftr hash (64 - indexBitLength)).

Definition numberOfLeadingZeros (hash indexBitLength : Z) : Z :=
  builtin_clzl (Z.lor (wrap_unsigned 64 (Z.shiftl hash indexBitLength)) (Z.shiftl 1 (indexBitLength - 1))).

(** * Byte streams *)

(** The bytes of a number of [n] bytes, and the number of [n] bytes at an offset. *)
Fixpoint le_bytes (n : nat) (v : Z) : list Z :=
  match n with
  | O => []
  | S n => v mod 256 :: le_bytes n (v / 256)
  end.

Fixpoint load_le (n : nat) (data : list Z) (offset : Z) : result Z :=
  match n with
  | O => Ok 0
  | S n =>
      let! b := at_index data offset in
      let! rest := load_le n data (offset + 1) in
      Ok (b + 256 * rest)
  end.

Definition load_int8 (data : list Z) (offset : Z) : result Z := let! b := load_le 1 data offset in Ok (wrap_signed 8 b).
Definition load_int16 (data : list Z) (offset : Z) : result Z := let! b := load_le 2 data offset in Ok (wrap_signed 16 b).
Definition load_uint16 (data : list Z) (offset : Z) : result Z := load_le 2 data offset.
Definition load_uint32 (data : list Z) (offset : Z) : result Z := load_le 4 data offset.

(** An array behind a pointer: its elements by index. *)
Definition array : Type := Z -> result Z.

Definition vector_data (v : list Z) : array := at_index v.
Definition int8_data (data : list Z) (offset : Z) : array := fun i => load_int8 data (offset + i).
Definition uint16_data (data : list Z) (offset : Z) : array := fun i => load_uint16 data (offset + 2 * i).
Definition uint32_data (data : list Z) (offset : Z) : array := fun i => load_uint32 data (offset + 4 * i).

(** [OutputByteStream::appendOne] for a number of [n] bytes. *)
Definition appendOne (n : nat) (value : Z) (out : memory) : result memory := put (le_bytes n value) out.

(** * DenseHll *)

Definition kPrestoSparseV2 : Z := 2.
Definition kPrestoDenseV2 : Z := 3.
Definition kBitsPerBucket : Z := 4.
Definition kMaxDelta : Z := 15.
Definition kBucketMask : Z := 15.

Definition shiftForBucket (index : Z) : Z := Z.shiftl (Z.land (Z.lnot index) 1) 2.

Fixpoint overflow_from (n : nat) (i index : Z) (overflowBuckets overflowValues : array) : result Z :=
  match n with
  | O => Ok 0
  | S n =>
      let! b := overflowBuckets i in
      if b =? index then overflowValues i else overflow_from n (i + 1) index overflowBuckets overflowValues
  end.

Definition getOverflowImpl (index overflows : Z) (overflowBuckets overflowValues : array) : result Z :=
  overflow_from (Z.to_nat overflows) 0 index overflowBuckets overflowValues.

Record DenseHll : Type := mkDenseHll {
  indexBitLength_ : Z;
  baseline_ : Z;
  baselineCount_ : Z;
  deltas_ : list Z;
  overflows_ : Z;
  overflowBuckets_ : list Z;
  overflowValues_ : list Z
}.

(** The members without an initial value are not read before [initialize]. *)
Definition uninitialized : DenseHll := mkDenseHll 0 0 0 [] 0 [] [].

Definition with_deltas (d : DenseHll) (deltas : list Z) : DenseHll :=
  mkDenseHll (indexBitLength_ d) (baseline_ d) (baselineCount_ d) deltas (overflows_ d) (overflowBuckets_ d) (overflowValues_ d).
Definition with_overflows (d : DenseHll) (n : Z) (buckets values : list Z) : DenseHll :=
  mkDenseHll (indexBitLength_ d) (baseline_ d) (baselineCount_ d) (deltas_ d) n buckets values.
Definition with_baseline (d : DenseHll) (baseline count : Z) : DenseHll :=
  mkDenseHll (indexBitLength_ d) baseline count (deltas_ d) (overflows_ d) (overflowBuckets_ d) (overflowValues_ d).

(** [std::vector::resize]: new elements are zero. *)
Definition vector_resize (v : list Z) (n : Z) : list Z := take (Z.to_nat n) v ++ repeat 0 (Z.to_nat n - length v).

Definition initialize (d : DenseHll) (indexBitLength : Z) : result DenseHll :=
  check! indexBitLength >=? 4 in
  check! indexBitLength <=? 16 in
  let numBuckets := Z.shiftl 1 indexBitLength in
  Ok (mkDenseHll indexBitLength (baseline_ d) numBuckets (vector_resize (deltas_ d) (numBuckets * kBitsPerBucket / 8))
        (overflows_ d) (overflowBuckets_ d) (overflowValues_ d)).

Definition make_DenseHll (indexBitLength : Z) : result DenseHll := initialize uninitialized indexBitLength.

(** ** Deltas and overflows *)

Definition delta_of (deltas : array) (index : Z) : result Z :=
  let! slot := deltas (Z.shiftr index 1) in
  Ok (Z.land (Z.shiftr slot (shiftForBucket index)) kBucketMask).

Definition getDelta (d : DenseHll) (index : Z) : result Z := delta_of (vector_data (deltas_ d)) index.

Definition setDelta (d : DenseHll) (index value : Z) : result DenseHll :=
  let slot := Z.shiftr index 1 in
  let clearMask := wrap_signed 8 (Z.shiftl kBucketMask (shiftForBucket index)) in
  let! old := at_index (deltas_ d) slot in
  let cleared := wrap_signed 8 (Z.land old (Z.lnot clearMask)) in
  let setMask := wrap_signed 8 (Z.shiftl value (shiftForBucket index)) in
  let! deltas := set_index (deltas_ d) slot (wrap_signed 8 (Z.lor cleared setMask)) in
  Ok (with_deltas d deltas).

Definition getOverflow (d : DenseHll) (index : Z) : result Z :=
  getOverflowImpl index (overflows_ d) (vector_data (overflowBuckets_ d)) (vector_data (overflowValues_ d)).

Fixpoint entry_from (n : nat) (i index : Z) (overflowBuckets : list Z) : result Z :=
  match n with
  | O => Ok (-1)
  | S n =>
      let! b := at_index overflowBuckets i in
      if b =? index then Ok i else entry_from n (i + 1) index overflowBuckets
  end.

Definition findOverflowEntry (d : DenseHll) (index : Z) : result Z :=
  entry_from (Z.to_nat (overflows_ d)) 0 index (overflowBuckets_ d).

Definition set_overflow (d : DenseHll) (entry value : Z) : result DenseHll :=
  let! values := set_index (overflowValues_ d) entry value in
  Ok (with_overflows d (overflows_ d) (overflowBuckets_ d) values).

Definition addOverflow (d : DenseHll) (index overflow : Z) : result DenseHll :=
  let buckets := vector_resize (overflowBuckets_ d) (overflows_ d + 1) in
  let values := vector_resize (overflowValues_ d) (overflows_ d + 1) in
  let! buckets := set_index buckets (overflows_ d) (wrap_unsigned 16 index) in
  let! values := set_index values (overflows_ d) overflow in
  Ok (with_overflows d (wrap_signed 16 (overflows_ d + 1)) buckets values).

Definition removeOverflow (d : DenseHll) (overflowEntry : Z) : result DenseHll :=
  let! lastBucket := at_index (overflowBuckets_ d) (overflows_ d - 1) in
  let! buckets := set_index (overflowBuckets_ d) overflowEntry lastBucket in
  let! lastValue := at_index (overflowValues_ d) (overflows_ d - 1) in
  let! values := set_index (overflowValues_ d) overflowEntry lastValue in
  Ok (with_overflows d (wrap_signed 16 (overflows_ d - 1)) buckets values).

Definition updateOverflow (d : DenseHll) (index overflowEntry delta : Z) : result (DenseHll * Z) :=
  if delta >? kMaxDelta then
    let! d :=
      if negb (overflowEntry =? -1) then set_overflow d overflowEntry (wrap_signed 8 (delta - kMaxDelta))
      else addOverflow d index (wrap_signed 8 (delta - kMaxDelta)) in
    Ok (d, kMaxDelta)
  else if negb (overflowEntry =? -1) then
    let! d := removeOverflow d overflowEntry in
    Ok (d, delta)
  else Ok (d, delta).

(** ** The baseline *)

(** The overflow of a bucket goes down by one; an entry that becomes zero is replaced by the last one. *)
Definition decrease_overflow (d : DenseHll) (i : Z) : result DenseHll :=
  let! v := at_index (overflowValues_ d) i in
  let! values := set_index (overflowValues_ d) i (wrap_signed 8 (v - 1)) in
  let d := with_overflows d (overflows_ d) (overflowBuckets_ d) values in
  if wrap_signed 8 (v - 1) =? 0 then
    let lastEntry := overflows_ d - 1 in
    let! d :=
      if i <? lastEntry then
        let! b := at_index (overflowBuckets_ d) lastEntry in
        let! buckets := set_index (overflowBuckets_ d) i b in
        let! v := at_index (overflowValues_ d) lastEntry in
        let! values := set_index (overflowValues_ d) i v in
        let! buckets := set_index buckets lastEntry 0 in
        let! values := set_index values lastEntry 0 in
        Ok (with_overflows d (overflows_ d) buckets values)
      else Ok d in
    Ok (with_overflows d (wrap_signed 16 (overflows_ d - 1)) (overflowBuckets_ d) (overflowValues_ d))
  else Ok d.

Definition adjust_bucket (d : DenseHll) (bucket : Z) : result DenseHll :=
  let! delta := getDelta d bucket in
  let! entry := if delta =? kMaxDelta then findOverflowEntry d bucket else Ok (-1) in
  let! r :=
    if negb (entry =? -1) then
      let! d := decrease_overflow d entry in
      Ok (d, delta)
    else
      let! d := setDelta d bucket (delta - 1) in
      Ok (d, delta - 1) in
  let '(d, delta) := r in
  if delta =? 0 then
    let! count := ck32 (baselineCount_ d + 1) in
    Ok (with_baseline d (baseline_ d) count)
  else Ok d.

Fixpoint adjust_buckets (n : nat) (bucket : Z) (d : DenseHll) : result DenseHll :=
  match n with
  | O => Ok d
  | S n =>
      let! d := adjust_bucket d bucket in
      adjust_buckets n (bucket + 1) d
  end.

Fixpoint adjust_loop (fuel : nat) (d : DenseHll) : result DenseHll :=
  if baselineCount_ d =? 0 then
    match fuel with
    | O => Err OutOfFuel
    | S fuel =>
        let d := with_baseline d (wrap_signed 8 (baseline_ d + 1)) (baselineCount_ d) in
        let! d := adjust_buckets (Z.to_nat (Z.shiftl 1 (indexBitLength_ d))) 0 d in
        adjust_loop fuel d
    end
  else Ok d.

(** The baseline is at most 64 times raised. *)
Definition adjustBaselineIfNeeded (d : DenseHll) : result DenseHll := adjust_loop 64 d.

(** ** Insertion *)

Definition dense_insert (d : DenseHll) (index value : Z) : result DenseHll :=
  let delta := value - baseline_ d in
  let! oldDelta := getDelta d index in
  let! kept :=
    if delta <=? oldDelta then Ok true
    else if oldDelta =? kMaxDelta then (let! o := getOverflow d index in Ok (delta <=? oldDelta + o))
    else Ok false in
  if kept : bool then Ok d
  else
    let! r :=
      if delta >? kMaxDelta then
        let overflow := wrap_signed 8 (delta - kMaxDelta) in
        let! overflowEntry := findOverflowEntry d index in
        let! d :=
          if negb (overflowEntry =? -1) then set_overflow d overflowEntry overflow else addOverflow d index overflow in
        Ok (d, kMaxDelta)
      else Ok (d, delta) in
    let '(d, delta) := r in
    let! d := setDelta d index (wrap_signed 8 delta) in
    if oldDelta =? 0 then
      let! count := ck32 (baselineCount_ d - 1) in
      adjustBaselineIfNeeded (with_baseline d (baseline_ d) count)
    else Ok d.

Definition dense_insertHash (d : DenseHll) (hash : Z) : result DenseHll :=
  let index := computeIndex hash (indexBitLength_ d) in
  let value := numberOfLeadingZeros hash (indexBitLength_ d) + 1 in
  dense_insert d (wrap_signed 32 index) (wrap_signed 8 value).

(** ** Merging *)

(** One bucket: the new nibble, and whether it is at the baseline. *)
Definition merge_bucket (d : DenseHll) (otherBaseline newBaseline bucket slot1 slot2 shift otherOverflows : Z)
    (otherOverflowBuckets otherOverflowValues : array) : result (DenseHll * Z * Z) :=
  let delta1 := Z.land (Z.shiftr slot1 shift) kBucketMask in
  let delta2 := Z.land (Z.shiftr slot2 shift) kBucketMask in
  let value1 := wrap_signed 8 (baseline_ d + delta1) in
  let value2 := wrap_signed 8 (otherBaseline + delta2) in
  let! overflowEntry := if delta1 =? kMaxDelta then findOverflowEntry d bucket else Ok (-1) in
  let overflowEntry := wrap_signed 16 overflowEntry in
  let! value1 :=
    if negb (overflowEntry =? -1) then (let! o := at_index (overflowValues_ d) overflowEntry in Ok (wrap_signed 8 (value1 + o)))
    else Ok value1 in
  let! value2 :=
    if delta2 =? kMaxDelta then
      let! o := getOverflowImpl bucket otherOverflows otherOverflowBuckets otherOverflowValues in
      Ok (wrap_signed 8 (value2 + o))
    else Ok value2 in
  let newValue := Z.max value1 value2 in
  let newDelta := wrap_signed 8 (newValue - newBaseline) in
  let! r := updateOverflow d bucket overflowEntry newDelta in
  Ok (fst r, snd r, if newDelta =? 0 then 1 else 0).

(** The two buckets of a slot. *)
Definition merge_slot (d : DenseHll) (otherBaseline newBaseline i otherOverflows : Z)
    (otherDeltas otherOverflowBuckets otherOverflowValues : array) : result (DenseHll * Z) :=
  let! slot1 := at_index (deltas_ d) i in
  let! slot2 := otherDeltas i in
  let! r := merge_bucket d otherBaseline newBaseline (2 * i) slot1 slot2 4 otherOverflows otherOverflowBuckets otherOverflowValues in
  let '(d, delta, c1) := r in
  let newSlot := Z.lor (Z.shiftl 0 4) delta in
  let! r := merge_bucket d otherBaseline newBaseline (2 * i + 1) slot1 slot2 0 otherOverflows otherOverflowBuckets otherOverflowValues in
  let '(d, delta, c2) := r in
  let newSlot := Z.lor (Z.shiftl newSlot 4) delta in
  let! deltas := set_index (deltas_ d) i (wrap_signed 8 newSlot) in
  Ok (with_deltas d deltas, c1 + c2).

Fixpoint merge_slots (n : nat) (d : DenseHll) (otherBaseline newBaseline i baselineCount otherOverflows : Z)
    (otherDeltas otherOverflowBuckets otherOverflowValues : array) : result (DenseHll * Z) :=
  match n with
  | O => Ok (d, baselineCount)
  | S n =>
      let! r := merge_slot d otherBaseline newBaseline i otherOverflows otherDeltas otherOverflowBuckets otherOverflowValues in
      merge_slots n (fst r) otherBaseline newBaseline (i + 1) (baselineCount + snd r) otherOverflows
        otherDeltas otherOverflowBuckets otherOverflowValues
  end.

Definition merge_arrays (d : DenseHll) (otherBaseline : Z) (otherDeltas : array) (otherOverflows : Z)
    (otherOverflowBuckets otherOverflowValues : array) : result DenseHll :=
  let newBaseline := Z.max (baseline_ d) otherBaseline in
  let! r := merge_slots (length (deltas_ d)) d otherBaseline newBaseline 0 0 otherOverflows
              otherDeltas otherOverflowBuckets otherOverflowValues in
  adjustBaselineIfNeeded (with_baseline (fst r) newBaseline (snd r)).

Definition dense_mergeWith (d other : DenseHll) : result DenseHll :=
  check! indexBitLength_ d =? indexBitLength_ other in
  merge_arrays d (baseline_ other) (vector_data (deltas_ other)) (overflows_ other)
    (vector_data (overflowBuckets_ other)) (vector_data (overflowValues_ other)).

(** ** The serialized form *)

(** Where the parts of a serialized instance are; nothing is read of an array. *)
Record DenseHllView : Type := mkView {
  view_indexBitLength : Z;
  view_baseline : Z;
  view_deltas : array;
  view_overflows : Z;
  view_overflowBuckets : array;
  view_overflowValues : array
}.

Definition getValue (v : DenseHllView) (index : Z) : result Z :=
  let! delta := delta_of (view_deltas v) index in
  let! delta :=
    if delta =? kMaxDelta then
      let! o := getOverflowImpl index (view_overflows v) (view_overflowBuckets v) (view_overflowValues v) in
      Ok (wrap_signed 8 (delta + o))
    else Ok delta in
  Ok (wrap_signed 8 (view_baseline v + delta)).

Definition view_of (d : DenseHll) : DenseHllView :=
  mkView (indexBitLength_ d) (baseline_ d) (vector_data (deltas_ d)) (overflows_ d) (vector_data (overflowBuckets_ d))
    (vector_data (overflowValues_ d)).

(** The arrays after the first three bytes. *)
Definition read_arrays (serialized : list Z) (indexBitLength baseline : Z) : result DenseHllView :=
  let numBuckets := Z.shiftl 1 indexBitLength in
  let deltas := 3 in
  let overflowsAt := deltas + numBuckets / 2 in
  let! overflows := load_int16 serialized overflowsAt in
  let bucketsAt := overflowsAt + 2 in
  let valuesAt := bucketsAt + 2 * overflows in
  Ok (mkView indexBitLength baseline (int8_data serialized deltas) overflows (uint16_data serialized bucketsAt)
        (int8_data serialized valuesAt)).

Definition deserialize (serialized : list Z) : result DenseHllView :=
  let! version := load_int8 serialized 0 in
  check! kPrestoDenseV2 =? version in
  let! indexBitLength := load_int8 serialized 1 in
  let! baseline := load_int8 serialized 2 in
  if (0 <=? indexBitLength) && (indexBitLength <? 31) then read_arrays serialized indexBitLength baseline else Err BadShift.

Fixpoint copy_array (n : nat) (i : Z) (a : array) : result (list Z) :=
  match n with
  | O => Ok []
  | S n =>
      let! x := a i in
      let! rest := copy_array n (i + 1) a in
      Ok (x :: rest)
  end.

Fixpoint count_zero (n : nat) (i : Z) (d : DenseHll) : result Z :=
  match n with
  | O => Ok 0
  | S n =>
      let! delta := getDelta d i in
      let! rest := count_zero n (i + 1) d in
      Ok ((if delta =? 0 then 1 else 0) + rest)
  end.

(** A negative number of overflows is not a size of a vector. *)
Definition DenseHll_of_serialized (serialized : list Z) : result DenseHll :=
  let! hll := deserialize serialized in
  let! d := initialize uninitialized (view_indexBitLength hll) in
  let numBuckets := Z.shiftl 1 (indexBitLength_ d) in
  let! deltas := copy_array (Z.to_nat (numBuckets / 2)) 0 (view_deltas hll) in
  check! view_overflows hll >=? 0 in
  let! buckets := copy_array (Z.to_nat (view_overflows hll)) 0 (view_overflowBuckets hll) in
  let! values := copy_array (Z.to_nat (view_overflows hll)) 0 (view_overflowValues hll) in
  let d := mkDenseHll (indexBitLength_ d) (view_baseline hll) 0 deltas (view_overflows hll) buckets values in
  let! count := count_zero (Z.to_nat numBuckets) 0 d in
  Ok (with_baseline d (baseline_ d) count).

Definition mergeWith_serialized (d : DenseHll) (serialized : list Z) : result DenseHll :=
  let! version := load_int8 serialized 0 in
  check! kPrestoDenseV2 =? version in
  let! indexBitLength := load_int8 serialized 1 in
  check! indexBitLength_ d =? indexBitLength in
  let! baseline := load_int8 serialized 2 in
  let! v := read_arrays serialized (indexBitLength_ d) baseline in
  merge_arrays d baseline (view_deltas v) (view_overflows v) (view_overflowBuckets v) (view_overflowValues v).

Definition serializedSize (d : DenseHll) : Z :=
  1 + 1 + 1 + Z.shiftl 1 (indexBitLength_ d) / 2 + 2 + 2 * overflows_ d + overflows_ d.

Definition estimateInMemorySize (indexBitLength : Z) : Z := 1 + 1 + 4 + Z.shiftl 1 indexBitLength / 2.

(** The position after which the entry [i] of a sorted prefix belongs. *)
Fixpoint insertion_point (n : nat) (j bucket : Z) (buckets : list Z) : result Z :=
  match n with
  | O => Ok j
  | S n =>
      let! b := at_index buckets j in
      if b >? bucket then insertion_point n (j - 1) bucket buckets else Ok j
  end.

(** [memmove] of the elements [from .. i - 1] one to the right, and [x] at [from]. *)
Definition shift_in (v : list Z) (from i x : Z) : list Z :=
  take (Z.to_nat from) v ++ x :: take (Z.to_nat (i - from)) (drop (Z.to_nat from) v) ++ drop (Z.to_nat i + 1) v.

Fixpoint sort_from (n : nat) (i : Z) (buckets values : list Z) : result (list Z * list Z) :=
  match n with
  | O => Ok (buckets, values)
  | S n =>
      let! bucket := at_index buckets i in
      let! j := insertion_point (Z.to_nat i) (i - 1) bucket buckets in
      let! r :=
        if j + 1 <? i then
          let! value := at_index values i in
          Ok (shift_in buckets (j + 1) i bucket, shift_in values (j + 1) i value)
        else Ok (buckets, values) in
      sort_from n (i + 1) (fst r) (snd r)
  end.

Definition sortOverflows (d : DenseHll) : result DenseHll :=
  let! r := sort_from (Z.to_nat (overflows_ d - 1)) 1 (overflowBuckets_ d) (overflowValues_ d) in
  Ok (with_overflows d (overflows_ d) (fst r) (snd r)).

(** What follows the sort. *)
Definition write_state (d : DenseHll) (output : memory) : result memory :=
  let! out := appendOne 1 kPrestoDenseV2 output in
  let! out := appendOne 1 (indexBitLength_ d) out in
  let! out := appendOne 1 (baseline_ d) out in
  let! out := put (map (fun b => b mod 256) (deltas_ d)) out in
  let! out := appendOne 2 (overflows_ d) out in
  if overflows_ d =? 0 then Ok out
  else
    let! buckets := copy_array (Z.to_nat (overflows_ d)) 0 (vector_data (overflowBuckets_ d)) in
    let! out := put (flat_map (le_bytes 2) buckets) out in
    let! values := copy_array (Z.to_nat (overflows_ d)) 0 (vector_data (overflowValues_ d)) in
    put (map (fun b => b mod 256) values) out.

Definition serialize (d : DenseHll) (output : memory) : result (DenseHll * memory) :=
  let! d := sortOverflows d in
  let! out := write_state d output in
  Ok (d, out).

Definition canDeserialize_version (input : list Z) : result bool :=
  let! version := load_int8 input 0 in
  Ok (version =? kPrestoDenseV2).

Fixpoint values_in_range (n : nat) (i : Z) (v : DenseHllView) : result bool :=
  match n with
  | O => Ok true
  | S n =>
      let! value := getValue v i in
      if (value <? 0) || (value >? 63) then Ok false else values_in_range n (i + 1) v
  end.

Definition canDeserialize (input : list Z) (size : Z) : result bool :=
  if size <? 5 then Ok false
  else
    let! version := load_int8 input 0 in
    if negb (kPrestoDenseV2 =? version) then Ok false
    else
      let! indexBitLength := load_int8 input 1 in
      if (indexBitLength <? 4) || (indexBitLength >? 16) then Ok false
      else
        let! baseline := load_int8 input 2 in
        let minSizeNoOverflow := 5 + 2 ^ (indexBitLength - 1) in
        if size <? minSizeNoOverflow then Ok false
        else
          let! hllView := read_arrays input indexBitLength baseline in
          if size <? minSizeNoOverflow + 2 * view_overflows hllView + view_overflows hllView then Ok false
          else values_in_range (Z.to_nat (Z.shiftl 1 indexBitLength)) 0 hllView.

Definition deserializeIndexBitLength (input : list Z) : result Z := load_int8 input 1.

(** * Buckets of four bits *)

Definition int8_ok (x : Z) : Prop := -128 <= x < 128.

(** An array has the elements of a list. *)
Definition is_array (a : array) (l : list Z) : Prop := forall j x, l !! j = Some x -> a (Z.of_nat j) = Ok x.

Lemma vector_is_array v : is_array (vector_data v) v.
Proof. intros j x Hj. unfold vector_data. apply at_index_ok; [lia|]. by rewrite Nat2Z.id. Qed.

Fixpoint nibbles (bs : list Z) : list Z :=
  match bs with
  | [] => []
  | b :: bs => Z.land (Z.shiftr b 4) 15 :: Z.land b 15 :: nibbles bs
  end.

Lemma land_nibble y : Z.land y 15 = y mod 2 ^ 4.
Proof. by apply (land_mod y 4). Qed.

Lemma nibbles_length bs : length (nibbles bs) = (2 * length bs)%nat.
Proof. induction bs as [|b bs IH]; cbn [nibbles length]; lia. Qed.

Lemma nibbles_range bs x : x ∈ nibbles bs -> 0 <= x <= 15.
Proof.
  assert (forall y, 0 <= Z.land y 15 <= 15) as Hr.
  { intros y. rewrite land_nibble. pose proof (Z.mod_pos_bound y (2 ^ 4) ltac:(lia)). lia. }
  induction bs as [|b bs IH]; cbn [nibbles]; intros Hx; [by apply not_elem_of_nil in Hx|].
  apply elem_of_cons in Hx as [->|Hx]; [apply Hr|]. apply elem_of_cons in Hx as [->|Hx]; [apply Hr|by apply IH].
Qed.

Lemma nibbles_even bs i b : bs !! i = Some b -> nibbles bs !! (2 * i)%nat = Some (Z.land (Z.shiftr b 4) 15).
Proof.
  revert i. induction bs as [|a bs IH]; intros [|i] Hi; try done; cbn in Hi; [by injection Hi as ->|].
  replace (2 * S i)%nat with (S (S (2 * i))) by lia. cbn. by apply IH.
Qed.

Lemma nibbles_odd bs i b : bs !! i = Some b -> nibbles bs !! (2 * i + 1)%nat = Some (Z.land b 15).
Proof.
  revert i. induction bs as [|a bs IH]; intros [|i] Hi; try done; cbn in Hi; [by injection Hi as ->|].
  replace (2 * S i + 1)%nat with (S (S (2 * i + 1))) by lia. cbn. by apply IH.
Qed.

Lemma nibbles_insert bs i b :
  nibbles (<[i := b]> bs)
  = if decide (i < length bs)%nat then <[(2 * i)%nat := Z.land (Z.shiftr b 4) 15]> (<[(2 * i + 1)%nat := Z.land b 15]> (nibbles bs))
    else nibbles bs.
Proof.
  revert i. induction bs as [|a bs IH]; intros [|i]; try done.
  replace (2 * S i)%nat with (S (S (2 * i))) by lia. replace (S (S (2 * i)) + 1)%nat with (S (S (2 * i + 1))) by lia.
  change (<[S i := b]> (a :: bs)) with (a :: <[i := b]> bs). cbn [nibbles length]. rewrite IH.
  destruct (decide (i < length bs)%nat), (decide (S i < S (length bs))%nat); try lia; done.
Qed.

(** The slot and the shift of a bucket. *)
Lemma bucket_slot i :
  Z.shiftr (Z.of_nat i) 1 = Z.of_nat (i / 2) /\ shiftForBucket (Z.of_nat i) = (if Nat.even i then 4 else 0)
  /\ i = (2 * (i / 2) + if Nat.even i then 0 else 1)%nat.
Proof.
  assert (i = (2 * (i / 2) + if Nat.even i then 0 else 1)%nat) as Hi.
  { pose proof (Nat.div_mod i 2 ltac:(lia)) as Hdm. destruct (Nat.even i) eqn:E.
    - apply Nat.even_spec in E as [k Hk]. subst i. rewrite Nat.mul_comm, Nat.div_mul by lia. lia.
    - assert (Nat.odd i = true) as Ho by (by rewrite <- Nat.negb_even, E). apply Nat.odd_spec in Ho as [k Hk]. subst i.
      rewrite Nat.add_comm, Nat.mul_comm, Nat.div_add by lia. cbn. lia. }
  split_and!; [| |done].
  - rewrite Z.shiftr_div_pow2 by lia. change (2 ^ 1) with (Z.of_nat 2). by rewrite <- Nat2Z.inj_div.
  - unfold shiftForBucket. rewrite (land_mod (Z.lnot (Z.of_nat i)) 1 ltac:(lia) : Z.land _ 1 = _). change (2 ^ 1) with 2. unfold Z.lnot.
    destruct (Nat.even i) eqn:E.
    + replace (Z.pred (- Z.of_nat i) mod 2) with 1; [done|]. rewrite Hi at 1. rewrite Nat.add_0_r. generalize (i / 2)%nat. intros k. euclidean.
    + replace (Z.pred (- Z.of_nat i) mod 2) with 0; [done|]. rewrite Hi at 1. generalize (i / 2)%nat. intros k. euclidean.
Qed.

Lemma delta_of_nibbles a bs i x : is_array a bs -> nibbles bs !! i = Some x -> delta_of a (Z.of_nat i) = Ok x.
Proof.
  intros Ha Hx. destruct (bucket_slot i) as (Hs & Hshift & Hi). unfold delta_of. rewrite Hs, Hshift.
  assert (i / 2 < length bs)%nat as Hlt.
  { apply lookup_lt_Some in Hx. rewrite nibbles_length in Hx. destruct (Nat.even i); lia. }
  destruct (lookup_lt_is_Some_2 bs (i / 2)%nat Hlt) as [b Hb]. rewrite (Ha _ _ Hb). cbn [rbind]. f_equal.
  rewrite Hi in Hx. destruct (Nat.even i).
  - rewrite Nat.add_0_r in Hx. rewrite (nibbles_even _ _ _ Hb) in Hx. by injection Hx.
  - rewrite (nibbles_odd _ _ _ Hb) in Hx. injection Hx as <-. by rewrite Z.shiftr_0_r.
Qed.

(** A byte with one of its halves replaced. *)
Definition put_nibble (b v shift : Z) : Z :=
  wrap_signed 8 (Z.lor (wrap_signed 8 (Z.land b (Z.lnot (wrap_signed 8 (Z.shiftl kBucketMask shift))))) (wrap_signed 8 (Z.shiftl v shift))).

Definition put_nibble_check (b v : Z) : bool :=
  (Z.land (Z.shiftr (put_nibble b v 4) 4) 15 =? v) && (Z.land (put_nibble b v 4) 15 =? Z.land b 15)
  && (Z.land (Z.shiftr (put_nibble b v 0) 4) 15 =? Z.land (Z.shiftr b 4) 15) && (Z.land (put_nibble b v 0) 15 =? v)
  && forallb (fun x => (-128 <=? x) && (x <? 128)) [put_nibble b v 4; put_nibble b v 0].

(** Both halves of all bytes. *)
Lemma put_nibble_table : forallb (fun b => forallb (put_nibble_check b) (seqZ 0 16)) (seqZ (-128) 256) = true.
Proof. by vm_compute. Qed.

Lemma put_nibble_ok b v :
  int8_ok b -> 0 <= v <= 15 ->
  int8_ok (put_nibble b v 4) /\ int8_ok (put_nibble b v 0)
  /\ Z.land (Z.shiftr (put_nibble b v 4) 4) 15 = v /\ Z.land (put_nibble b v 4) 15 = Z.land b 15
  /\ Z.land (Z.shiftr (put_nibble b v 0) 4) 15 = Z.land (Z.shiftr b 4) 15 /\ Z.land (put_nibble b v 0) 15 = v.
Proof.
  intros Hb Hv. unfold int8_ok in Hb.
  pose proof (proj1 (forallb_forall _ _) put_nibble_table b ltac:(apply list_elem_of_In, elem_of_seqZ; lia)) as Hrow.
  pose proof (proj1 (forallb_forall _ _) Hrow v ltac:(apply list_elem_of_In, elem_of_seqZ; lia)) as Hcell.
  unfold put_nibble_check in Hcell. cbn [forallb] in Hcell. unfold int8_ok.
  repeat (apply andb_true_iff in Hcell as [Hcell ?]). rewrite !andb_true_iff in *. lia.
Qed.

Lemma setDelta_ok d i v :
  Forall int8_ok (deltas_ d) -> (i < length (nibbles (deltas_ d)))%nat -> 0 <= v <= 15 ->
  exists bs, setDelta d (Z.of_nat i) v = Ok (with_deltas d bs) /\ nibbles bs = <[i := v]> (nibbles (deltas_ d))
    /\ Forall int8_ok bs /\ length bs = length (deltas_ d).
Proof.
  intros Hok Hi Hv. destruct (bucket_slot i) as (Hs & Hshift & Heq). rewrite nibbles_length in Hi.
  assert (i / 2 < length (deltas_ d))%nat as Hlt by (destruct (Nat.even i); lia).
  destruct (lookup_lt_is_Some_2 _ _ Hlt) as [b Hb]. pose proof (Forall_lookup_1 _ _ _ _ Hok Hb) as Hbok.
  destruct (put_nibble_ok b v Hbok Hv) as (H4 & H0 & Hh4 & Hl4 & Hh0 & Hl0).
  unfold setDelta. cbv zeta. rewrite Hs, Hshift, (vector_is_array _ _ _ Hb : at_index _ _ = _). cbn [rbind].
  rewrite set_index_ok by lia. cbn [rbind]. rewrite Nat2Z.id.
  eexists. split; [done|]. change (wrap_signed 8 (Z.lor _ _)) with (put_nibble b v (if Nat.even i then 4 else 0)).
  split_and!; [|apply Forall_insert; [done|by destruct (Nat.even i)]|by rewrite length_insert].
  rewrite nibbles_insert, decide_True by done. pose proof (nibbles_even _ _ _ Hb) as He. pose proof (nibbles_odd _ _ _ Hb) as Ho.
  rewrite Heq at 5. destruct (Nat.even i).
  - rewrite Hh4, Hl4, Nat.add_0_r. f_equal. by apply list_insert_id.
  - rewrite Hh0, Hl0. apply list_insert_id. rewrite list_lookup_insert_ne by lia. done.
Qed.

(** * The list of overflows *)

(** The entry of a bucket among [n] of a list, from [i] on. *)
Lemma entry_from_ok n i index bs :
  (i + n <= length bs)%nat ->
  (exists j, (i <= j < i + n)%nat /\ bs !! j = Some index /\ entry_from n (Z.of_nat i) index bs = Ok (Z.of_nat j))
  \/ ((forall j, (i <= j < i + n)%nat -> bs !! j <> Some index) /\ entry_from n (Z.of_nat i) index bs = Ok (-1)).
Proof.
  revert i. induction n as [|n IH]; intros i Hi.
  - right. split; [lia|done].
  - destruct (lookup_lt_is_Some_2 bs i ltac:(lia)) as [b Hb]. cbn [entry_from].
    rewrite (vector_is_array _ _ _ Hb : at_index _ _ = _). cbn [rbind]. destruct (b =? index) eqn:E.
    + apply Z.eqb_eq in E. subst b. left. exists i. split_and!; [lia|lia|done|done].
    + apply Z.eqb_neq in E. replace (Z.of_nat i + 1) with (Z.of_nat (S i)) by lia.
      destruct (IH (S i) ltac:(lia)) as [(j & Hj & Hbj & Hrun)|[Hnone Hrun]].
      * left. exists j. split_and!; [lia|lia|done|done].
      * right. split; [|done]. intros j Hj. destruct (decide (j = i)) as [->|]; [congruence|apply Hnone; lia].
Qed.

Lemma overflow_from_ok n i index ab av bs vs :
  is_array ab bs -> is_array av vs -> (i + n <= length bs)%nat -> length vs = length bs ->
  (exists j v, (i <= j < i + n)%nat /\ bs !! j = Some index /\ vs !! j = Some v /\ overflow_from n (Z.of_nat i) index ab av = Ok v)
  \/ ((forall j, (i <= j < i + n)%nat -> bs !! j <> Some index) /\ overflow_from n (Z.of_nat i) index ab av = Ok 0).
Proof.
  intros Hab Hav. revert i. induction n as [|n IH]; intros i Hi Hl.
  - right. split; [lia|done].
  - destruct (lookup_lt_is_Some_2 bs i ltac:(lia)) as [b Hb]. destruct (lookup_lt_is_Some_2 vs i ltac:(lia)) as [v Hv].
    cbn [overflow_from]. rewrite (Hab _ _ Hb). cbn [rbind]. destruct (b =? index) eqn:E.
    + apply Z.eqb_eq in E. subst b. left. exists i, v. split_and!; [lia|lia|done|done|by apply Hav].
    + apply Z.eqb_neq in E. replace (Z.of_nat i + 1) with (Z.of_nat (S i)) by lia.
      destruct (IH (S i) ltac:(lia) Hl) as [(j & w & Hj & Hbj & Hw & Hrun)|[Hnone Hrun]].
      * left. exists j, w. split_and!; [lia|lia|done|done|done].
      * right. split; [|done]. intros j Hj. destruct (decide (j = i)) as [->|]; [congruence|apply Hnone; lia].
Qed.

(** [n] entries of the lists are a map from buckets to overflows. *)
Record overflow_rep (n : nat) (bs vs : list Z) (om : gmap Z Z) : Prop := {
  or_length : length vs = length bs;
  or_bound : (n <= length bs)%nat;
  or_values j b v : (j < n)%nat -> bs !! j = Some b -> vs !! j = Some v -> om !! b = Some v;
  or_distinct j k b : (j < n)%nat -> (k < n)%nat -> bs !! j = Some b -> bs !! k = Some b -> j = k;
  or_complete b v : om !! b = Some v -> exists j, (j < n)%nat /\ bs !! j = Some b
}.

Lemma overflow_entry n bs vs om b v :
  overflow_rep n bs vs om -> om !! b = Some v -> exists j, (j < n)%nat /\ bs !! j = Some b /\ vs !! j = Some v.
Proof.
  intros H Hb. destruct (or_complete _ _ _ _ H b v Hb) as (j & Hj & Hbj). pose proof (or_length _ _ _ _ H). pose proof (or_bound _ _ _ _ H).
  destruct (lookup_lt_is_Some_2 vs j ltac:(lia)) as [w Hw]. exists j. split_and!; [done|done|].
  pose proof (or_values _ _ _ _ H j b w Hj Hbj Hw). congruence.
Qed.

Lemma overflow_value n bs vs om ab av index :
  overflow_rep n bs vs om -> is_array ab bs -> is_array av vs ->
  getOverflowImpl index (Z.of_nat n) ab av = Ok (default 0 (om !! index)).
Proof.
  intros H Hab Hav. unfold getOverflowImpl. rewrite Nat2Z.id. change 0 with (Z.of_nat 0) at 1.
  destruct (overflow_from_ok n 0 index ab av bs vs Hab Hav) as [(j & v & Hj & Hb & Hv & ->)|[Hnone ->]]; [apply H|apply H| |].
  - by rewrite (or_values _ _ _ _ H j index v ltac:(lia) Hb Hv).
  - destruct (om !! index) as [v|] eqn:E; [|done]. destruct (or_complete _ _ _ _ H _ _ E) as (j & Hj & Hb). by destruct (Hnone j ltac:(lia)).
Qed.

Lemma overflow_find n bs vs om index :
  overflow_rep n bs vs om ->
  (exists j v, (j < n)%nat /\ bs !! j = Some index /\ vs !! j = Some v /\ om !! index = Some v /\ entry_from n 0 index bs = Ok (Z.of_nat j))
  \/ (om !! index = None /\ entry_from n 0 index bs = Ok (-1)).
Proof.
  intros H. change 0 with (Z.of_nat 0). destruct (entry_from_ok n 0 index bs) as [(j & Hj & Hb & ->)|[Hnone ->]]; [apply H| |].
  - left. pose proof (or_length _ _ _ _ H). pose proof (or_bound _ _ _ _ H). destruct (lookup_lt_is_Some_2 vs j ltac:(lia)) as [v Hv].
    exists j, v. split_and!; try done; [lia|]. by apply (or_values _ _ _ _ H j); [lia|..].
  - right. split; [|done]. destruct (om !! index) as [v|] eqn:E; [|done].
    destruct (or_complete _ _ _ _ H _ _ E) as (j & Hj & Hb). by destruct (Hnone j ltac:(lia)).
Qed.

Lemma overflow_set n bs vs om j b v :
  overflow_rep n bs vs om -> (j < n)%nat -> bs !! j = Some b -> overflow_rep n bs (<[j := v]> vs) (<[b := v]> om).
Proof.
  intros H Hj Hb. pose proof (or_length _ _ _ _ H). pose proof (or_bound _ _ _ _ H). split.
  - by rewrite length_insert.
  - done.
  - intros k c w Hk Hc Hw. destruct (decide (k = j)) as [->|Hne].
    + rewrite list_lookup_insert_eq in Hw by lia. injection Hw as <-. rewrite Hb in Hc. injection Hc as <-. apply lookup_insert_eq.
    + rewrite list_lookup_insert_ne in Hw by done. rewrite lookup_insert_ne; [by apply (or_values _ _ _ _ H k)|].
      intros ->. apply Hne. by apply (or_distinct _ _ _ _ H k j c).
  - apply H.
  - intros c w Hc. destruct (decide (c = b)) as [->|Hne]; [by exists j|]. rewrite lookup_insert_ne in Hc by done. by apply (or_complete _ _ _ _ H c w).
Qed.

Lemma vector_resize_shrink v n x : (n <= length v)%nat ->
  <[n := x]> (vector_resize v (Z.of_nat n + 1)) = take n v ++ [x] /\ length (vector_resize v (Z.of_nat n + 1)) = S n.
Proof.
  intros Hn. unfold vector_resize. replace (Z.to_nat (Z.of_nat n + 1)) with (S n) by lia.
  assert (length (take (S n) v ++ repeat 0 (S n - length v)) = S n) as Hl by (rewrite length_app, length_take, repeat_length; lia).
  split; [|done]. apply list_eq. intros j. destruct (decide (j < n)%nat) as [Hj|Hj].
  - rewrite list_lookup_insert_ne, !lookup_app_l by (rewrite ?length_take; lia). rewrite !lookup_take_lt by lia. done.
  - destruct (decide (j = n)) as [->|Hne].
    + rewrite list_lookup_insert_eq by lia. rewrite lookup_app_r by (rewrite length_take; lia). rewrite length_take, Nat.min_l, Nat.sub_diag by lia. done.
    + rewrite list_lookup_insert_ne by done. rewrite !lookup_ge_None_2; [done|rewrite length_app, length_take; cbn; lia|lia].
Qed.

Lemma overflow_add n bs vs om b v :
  overflow_rep n bs vs om -> om !! b = None -> overflow_rep (S n) (take n bs ++ [b]) (take n vs ++ [v]) (<[b := v]> om).
Proof.
  intros H Hnone. pose proof (or_length _ _ _ _ H) as Hl. pose proof (or_bound _ _ _ _ H) as Hn.
  assert (forall (l : list Z) x j, (n <= length l)%nat -> (take n l ++ [x]) !! j = if decide (j < n)%nat then l !! j else if decide (j = n) then Some x else None) as Hlook.
  { intros l x j Hln. destruct (decide (j < n)%nat) as [Hj|Hj].
    - rewrite lookup_app_l by (rewrite length_take; lia). by rewrite lookup_take_lt.
    - rewrite lookup_app_r by (rewrite length_take; lia). rewrite length_take, Nat.min_l by lia.
      destruct (decide (j = n)) as [->|]; [by rewrite Nat.sub_diag|]. apply lookup_ge_None_2. cbn. lia. }
  assert (forall j c, (j < n)%nat -> bs !! j = Some c -> c <> b) as Hne.
  { intros j c Hj Hc ->. destruct (lookup_lt_is_Some_2 vs j ltac:(lia)) as [w Hw]. pose proof (or_values _ _ _ _ H j b w Hj Hc Hw). congruence. }
  split.
  - rewrite !length_app, !length_take. cbn. lia.
  - rewrite length_app, length_take. cbn. lia.
  - intros j c w Hj. rewrite !Hlook by lia. destruct (decide (j < n)%nat) as [Hlt|Hge].
    + intros Hc Hw. rewrite lookup_insert_ne; [by apply (or_values _ _ _ _ H j)|]. pose proof (Hne j c Hlt Hc). congruence.
    + rewrite !decide_True by lia. intros [= <-] [= <-]. apply lookup_insert_eq.
  - intros j k c Hj Hk. rewrite !Hlook by lia. destruct (decide (j < n)%nat), (decide (k < n)%nat).
    + by apply (or_distinct _ _ _ _ H).
    + rewrite decide_True by lia. intros Hc [= <-]. by destruct (Hne j b).
    + rewrite decide_True by lia. intros [= <-] Hc. by destruct (Hne k b).
    + lia.
  - intros c w Hc. destruct (decide (c = b)) as [->|Hcb].
    + exists n. split; [lia|]. rewrite Hlook by lia. by rewrite decide_False, decide_True by lia.
    + rewrite lookup_insert_ne in Hc by done. destruct (or_complete _ _ _ _ H c w Hc) as (j & Hj & Hbj). exists j. split; [lia|].
      rewrite Hlook by lia. by rewrite decide_True.
Qed.

(** The last entry moves to the place of the removed one; what is behind the entries does not matter. *)
Lemma overflow_remove n bs vs bs' vs' om j b :
  overflow_rep (S n) bs vs om -> (j < S n)%nat -> bs !! j = Some b -> length bs' = length bs -> length vs' = length vs ->
  (forall k, (k < n)%nat -> bs' !! k = if decide (k = j) then bs !! n else bs !! k) ->
  (forall k, (k < n)%nat -> vs' !! k = if decide (k = j) then vs !! n else vs !! k) ->
  overflow_rep n bs' vs' (delete b om).
Proof.
  intros H Hj Hb Hlb Hlv Hbs Hvs. pose proof (or_length _ _ _ _ H) as Hl. pose proof (or_bound _ _ _ _ H) as Hn.
  set (src k := if decide (k = j) then n else k).
  assert (forall k, (k < n)%nat -> bs' !! k = bs !! src k /\ vs' !! k = vs !! src k /\ (src k < S n)%nat /\ src k <> j) as Hsrc.
  { intros k Hk. rewrite Hbs, Hvs by done. unfold src. destruct (decide (k = j)); split_and!; try done; lia. }
  split; [lia|lia|..].
  - intros k c w Hk Hc Hw. destruct (Hsrc k Hk) as (Ec & Ew & Hlt & Hne). rewrite Ec in Hc. rewrite Ew in Hw.
    rewrite lookup_delete_ne; [by apply (or_values _ _ _ _ H (src k))|]. intros ->. apply Hne. by apply (or_distinct _ _ _ _ H (src k) j c).
  - intros k k' c Hk Hk' Hc Hc'. destruct (Hsrc k Hk) as (Ec & _ & Hlt & _). destruct (Hsrc k' Hk') as (Ec' & _ & Hlt' & _).
    rewrite Ec in Hc. rewrite Ec' in Hc'. pose proof (or_distinct _ _ _ _ H _ _ _ Hlt Hlt' Hc Hc') as He. unfold src in He.
    destruct (decide (k = j)), (decide (k' = j)); lia.
  - intros c w Hc. destruct (decide (c = b)) as [->|Hcb]; [by rewrite lookup_delete_eq in Hc|]. rewrite lookup_delete_ne in Hc by done.
    destruct (or_complete _ _ _ _ H c w Hc) as (k & Hk & Hbk). assert (k <> j) as Hkj by congruence.
    destruct (decide (k = n)) as [->|Hkn].
    + exists j. split; [lia|]. rewrite Hbs by lia. by rewrite decide_True.
    + exists k. split; [lia|]. rewrite Hbs by lia. by rewrite decide_False.
Qed.

(** ** The overflows of an instance *)

(** Some of [N] buckets, few enough for their number to have the 16 bits of the count of overflows. *)
Definition roomy (N : nat) (B : list Z) : Prop := Forall (fun b => 0 <= b < Z.of_nat N) B /\ Z.of_nat (length B) < 2 ^ 15.

(** The buckets are in [B], their overflows between 1 and 100. *)
Record overflows_ok (B : list Z) (d : DenseHll) (om : gmap Z Z) : Prop := {
  ov_count : 0 <= overflows_ d;
  ov_rep : overflow_rep (Z.to_nat (overflows_ d)) (overflowBuckets_ d) (overflowValues_ d) om;
  ov_range b v : om !! b = Some v -> b ∈ B /\ 1 <= v <= 100
}.

Lemma overflow_buckets B d om :
  overflows_ok B d om ->
  NoDup (take (Z.to_nat (overflows_ d)) (overflowBuckets_ d)) /\ Z.of_nat (length (take (Z.to_nat (overflows_ d)) (overflowBuckets_ d))) = overflows_ d
  /\ forall b, b ∈ take (Z.to_nat (overflows_ d)) (overflowBuckets_ d) -> b ∈ B /\ is_Some (om !! b).
Proof.
  intros H. pose proof (ov_rep _ _ _ H) as Hr. pose proof (or_bound _ _ _ _ Hr) as Hb. pose proof (ov_count _ _ _ H). split_and!.
  - apply NoDup_alt. intros i j x Hi Hj. apply lookup_take_Some in Hi as [Hi Hli]. apply lookup_take_Some in Hj as [Hj Hlj].
    by apply (or_distinct _ _ _ _ Hr i j x).
  - rewrite length_take. lia.
  - intros b [j [Hj Hl]%lookup_take_Some]%list_elem_of_lookup_1. pose proof (or_length _ _ _ _ Hr).
    destruct (lookup_lt_is_Some_2 (overflowValues_ d) j ltac:(lia)) as [v Hv]. pose proof (or_values _ _ _ _ Hr j b v Hl Hj Hv) as Hom.
    split; [apply (ov_range _ _ _ H b v Hom)|by exists v].
Qed.

Lemma overflows_bound B d om : overflows_ok B d om -> overflows_ d <= Z.of_nat (length B).
Proof.
  intros H. destruct (overflow_buckets _ _ _ H) as (Hnd & Hlen & Hsub).
  pose proof (submseteq_length _ _ (NoDup_submseteq _ B Hnd (fun b Hb => proj1 (Hsub b Hb)))). lia.
Qed.

Lemma overflows_room B d om index : overflows_ok B d om -> om !! index = None -> index ∈ B -> overflows_ d + 1 <= Z.of_nat (length B).
Proof.
  intros H Hnone Hi. destruct (overflow_buckets _ _ _ H) as (Hnd & Hlen & Hsub).
  assert (NoDup (index :: take (Z.to_nat (overflows_ d)) (overflowBuckets_ d))) as Hnd'.
  { apply NoDup_cons. split; [|done]. intros Hin. destruct (proj2 (Hsub _ Hin)) as [v Hv]. congruence. }
  assert (index :: take (Z.to_nat (overflows_ d)) (overflowBuckets_ d) ⊆ B) as Hsub' by (intros b [-> |Hb]%elem_of_cons; [done|by apply Hsub]).
  pose proof (submseteq_length _ _ (NoDup_submseteq _ _ Hnd' Hsub')) as Hle. cbn [length] in Hle. lia.
Qed.

(** The instance except for its overflows. *)
Definition same_deltas (d d' : DenseHll) : Prop :=
  indexBitLength_ d' = indexBitLength_ d /\ baseline_ d' = baseline_ d /\ baselineCount_ d' = baselineCount_ d /\ deltas_ d' = deltas_ d.

Lemma set_overflow_ok B d om index v w :
  overflows_ok B d om -> om !! index = Some w -> 1 <= v <= 100 ->
  exists j d', findOverflowEntry d index = Ok (Z.of_nat j) /\ Z.of_nat j < Z.of_nat (length B) /\ at_index (overflowValues_ d) (Z.of_nat j) = Ok w
    /\ set_overflow d (Z.of_nat j) v = Ok d' /\ overflows_ok B d' (<[index := v]> om) /\ same_deltas d d'.
Proof.
  intros H Hw Hv. pose proof (ov_rep _ _ _ H) as Hr. pose proof (ov_count _ _ _ H) as Hc. pose proof (or_length _ _ _ _ Hr). pose proof (or_bound _ _ _ _ Hr).
  pose proof (overflows_bound _ _ _ H) as HN.
  destruct (overflow_find _ _ _ _ index Hr) as [(j & u & Hj & Hb & Hu & Hom & Hfind)|[Hnone _]]; [|congruence].
  rewrite Hw in Hom. injection Hom as <-.
  exists j. unfold findOverflowEntry, set_overflow. rewrite Hfind, set_index_ok, Nat2Z.id by lia. cbn [rbind].
  eexists. split_and!; [done|lia|by apply (vector_is_array (overflowValues_ d))|done| |done].
  split; cbn; [done|by apply overflow_set|]. intros b u Hbu. destruct (decide (b = index)) as [->|Hne].
  - rewrite lookup_insert_eq in Hbu. injection Hbu as <-. split; [|done]. apply (ov_range _ _ _ H index w Hw).
  - rewrite lookup_insert_ne in Hbu by done. by apply (ov_range _ _ _ H).
Qed.

Lemma addOverflow_ok B N d om index v :
  overflows_ok B d om -> om !! index = None -> index ∈ B -> roomy N B -> Z.of_nat N <= 2 ^ 16 -> 1 <= v <= 100 ->
  exists d', findOverflowEntry d index = Ok (-1) /\ addOverflow d index v = Ok d' /\ overflows_ok B d' (<[index := v]> om) /\ same_deltas d d'.
Proof.
  intros H Hnone Hi [HB Hroom] HN Hv. pose proof (proj1 (Forall_forall _ _) HB _ Hi) as Hrange. cbn beta in Hrange. pose proof (ov_rep _ _ _ H) as Hr. pose proof (ov_count _ _ _ H) as Hc. pose proof (or_length _ _ _ _ Hr) as Hl.
  pose proof (or_bound _ _ _ _ Hr) as Hb. pose proof (overflows_room _ _ _ _ H Hnone Hi) as Hcount.
  destruct (overflow_find _ _ _ _ index Hr) as [(j & u & Hj & Hbj & Hu & Hom & Hfind)|[_ Hfind]]; [congruence|].
  unfold findOverflowEntry, addOverflow. rewrite Hfind. set (n := Z.to_nat (overflows_ d)) in *. assert (overflows_ d = Z.of_nat n) as -> by lia.
  destruct (vector_resize_shrink (overflowBuckets_ d) n (wrap_unsigned 16 index) ltac:(lia)) as [Hbs Hbl].
  destruct (vector_resize_shrink (overflowValues_ d) n v ltac:(lia)) as [Hvs Hvl].
  rewrite set_index_ok by lia. cbn [rbind]. rewrite set_index_ok by lia. cbn [rbind]. rewrite Nat2Z.id, Hbs, Hvs.
  rewrite wrap_unsigned_id, wrap_signed_id by lia. eexists. split_and!; [done|done| |done].
  split; cbn; [lia| |].
  - replace (Z.to_nat (Z.of_nat n + 1)) with (S n) by lia. by apply overflow_add.
  - intros b u Hbu. destruct (decide (b = index)) as [->|Hne].
    + rewrite lookup_insert_eq in Hbu. injection Hbu as <-. done.
    + rewrite lookup_insert_ne in Hbu by done. by apply (ov_range _ _ _ H).
Qed.

Lemma overflows_removed B d d' om index :
  overflows_ok B d om -> overflow_rep (Z.to_nat (overflows_ d')) (overflowBuckets_ d') (overflowValues_ d') (delete index om) ->
  0 <= overflows_ d' -> overflows_ok B d' (delete index om).
Proof.
  intros H Hr Hc. split; [done|done|]. intros b v Hb. apply lookup_delete_Some in Hb as [_ Hb]. by apply (ov_range _ _ _ H).
Qed.

Lemma removeOverflow_ok B d om index w :
  overflows_ok B d om -> om !! index = Some w -> Z.of_nat (length B) < 2 ^ 15 ->
  exists j d', findOverflowEntry d index = Ok (Z.of_nat j) /\ Z.of_nat j < Z.of_nat (length B) /\ at_index (overflowValues_ d) (Z.of_nat j) = Ok w
    /\ removeOverflow d (Z.of_nat j) = Ok d' /\ overflows_ok B d' (delete index om) /\ same_deltas d d'.
Proof.
  intros H Hw HN. pose proof (ov_rep _ _ _ H) as Hr. pose proof (ov_count _ _ _ H) as Hc. pose proof (or_length _ _ _ _ Hr) as Hl.
  pose proof (or_bound _ _ _ _ Hr) as Hb. pose proof (overflows_bound _ _ _ H) as Hcount.
  destruct (overflow_find _ _ _ _ index Hr) as [(j & u & Hj & Hbj & Hu & Hom & Hfind)|[Hnone _]]; [|congruence].
  rewrite Hw in Hom. injection Hom as <-.
  assert (exists n, overflows_ d = Z.of_nat (S n)) as [n En] by (exists (Z.to_nat (overflows_ d) - 1)%nat; lia).
  rewrite En, Nat2Z.id in Hr, Hj, Hfind, Hb. destruct (lookup_lt_is_Some_2 (overflowBuckets_ d) n ltac:(lia)) as [lb Hlb].
  destruct (lookup_lt_is_Some_2 (overflowValues_ d) n ltac:(lia)) as [lv Hlv].
  exists j. unfold findOverflowEntry, removeOverflow. rewrite En, Nat2Z.id, Hfind. replace (Z.of_nat (S n) - 1) with (Z.of_nat n) by lia.
  rewrite (vector_is_array _ _ _ Hlb : at_index _ _ = _), (vector_is_array _ _ _ Hlv : at_index _ _ = _). cbn [rbind].
  rewrite !set_index_ok by lia. cbn [rbind]. rewrite Nat2Z.id, wrap_signed_id by lia.
  eexists. split_and!; [done|lia|by apply (vector_is_array (overflowValues_ d))|done| |done].
  apply (overflows_removed B d); [done| |cbn; lia]. cbn [overflows_ overflowBuckets_ overflowValues_ with_overflows]. rewrite Nat2Z.id.
  apply (overflow_remove n (overflowBuckets_ d) (overflowValues_ d) _ _ om j); rewrite ?length_insert; try done; intros k Hk;
    (destruct (decide (k = j)) as [->|Hne]; [rewrite list_lookup_insert_eq by lia; congruence|by rewrite list_lookup_insert_ne]).
Qed.

(** The clean-up of the entry that is no longer used. *)
Lemma lookup_moved (v : list Z) j n x y k :
  (k < n)%nat -> (j < length v)%nat -> (n < length v)%nat -> v !! n = Some x ->
  <[n := y]> (<[j := x]> v) !! k = if decide (k = j) then v !! n else v !! k.
Proof.
  intros Hk Hj Hn Hx. rewrite list_lookup_insert_ne by lia.
  destruct (decide (k = j)) as [->|Hne]; [rewrite list_lookup_insert_eq by lia; congruence|by rewrite list_lookup_insert_ne].
Qed.

Lemma decrease_overflow_ok B d om index w :
  overflows_ok B d om -> om !! index = Some w -> Z.of_nat (length B) < 2 ^ 15 ->
  exists j d', findOverflowEntry d index = Ok (Z.of_nat j)
    /\ decrease_overflow d (Z.of_nat j) = Ok d' /\ overflows_ok B d' (if w =? 1 then delete index om else <[index := w - 1]> om)
    /\ same_deltas d d'.
Proof.
  intros H Hw HN. pose proof (ov_range _ _ _ H _ _ Hw) as [_ Hwr]. destruct (w =? 1) eqn:E1.
  2: { apply Z.eqb_neq in E1. destruct (set_overflow_ok B d om index (w - 1) w H Hw ltac:(lia)) as (j & d' & Hfind & _ & Hat & Hset & Hok & Hsame).
       exists j, d'. split_and!; try done. unfold decrease_overflow. rewrite Hat. cbn [rbind]. rewrite wrap_signed_id by lia.
       unfold set_overflow in Hset. destruct (set_index _ _ _) as [values|]; cbn [rbind] in Hset |- *; [|done].
       by rewrite (proj2 (Z.eqb_neq (w - 1) 0)) by lia. }
  apply Z.eqb_eq in E1. subst w. pose proof (ov_rep _ _ _ H) as Hr. pose proof (ov_count _ _ _ H) as Hc. pose proof (or_length _ _ _ _ Hr) as Hl.
  pose proof (or_bound _ _ _ _ Hr) as Hb. pose proof (overflows_bound _ _ _ H) as Hcount.
  destruct (overflow_find _ _ _ _ index Hr) as [(j & u & Hj & Hbj & Hu & Hom & Hfind)|[Hnone _]]; [|congruence].
  rewrite Hw in Hom. injection Hom as <-.
  assert (exists n, overflows_ d = Z.of_nat (S n)) as [n En] by (exists (Z.to_nat (overflows_ d) - 1)%nat; lia).
  rewrite En, Nat2Z.id in Hr, Hj, Hfind, Hb. destruct (lookup_lt_is_Some_2 (overflowBuckets_ d) n ltac:(lia)) as [lb Hlb].
  destruct (lookup_lt_is_Some_2 (<[j := 0]> (overflowValues_ d)) n ltac:(rewrite length_insert; lia)) as [lv Hlv].
  exists j. unfold findOverflowEntry, decrease_overflow. rewrite En, Nat2Z.id, Hfind, (vector_is_array _ _ _ Hu : at_index _ _ = _). cbn [rbind].
  rewrite set_index_ok by lia. cbn [rbind]. change (wrap_signed 8 (1 - 1)) with 0. cbn [Z.eqb overflows_ overflowBuckets_ overflowValues_ with_overflows].
  rewrite ?En. replace (Z.of_nat (S n) - 1) with (Z.of_nat n) by lia. rewrite Nat2Z.id. destruct (Z.of_nat j <? Z.of_nat n) eqn:Ej.
  - rewrite (vector_is_array _ _ _ Hlb : at_index _ _ = _), (vector_is_array _ _ _ Hlv : at_index _ _ = _). cbn [rbind].
    rewrite !set_index_ok by (rewrite ?length_insert; lia). cbn [rbind]. rewrite !set_index_ok by (rewrite ?length_insert; lia). cbn [rbind].
    cbn [overflows_ overflowBuckets_ overflowValues_ with_overflows]. rewrite ?En, !Nat2Z.id. replace (Z.of_nat (S n) - 1) with (Z.of_nat n) by lia.
    rewrite wrap_signed_id by lia. eexists. split_and!; [done|done| |done]. apply (overflows_removed B d); [done| |cbn; lia].
    cbn [overflows_ overflowBuckets_ overflowValues_ with_overflows]. rewrite Nat2Z.id, list_insert_insert_eq.
    rewrite list_lookup_insert_ne in Hlv by lia.
    apply (overflow_remove n (overflowBuckets_ d) (overflowValues_ d) _ _ om j); rewrite ?length_insert; try done; intros k Hk;
      (apply lookup_moved; [lia|lia|lia|done]).
  - cbn [rbind]. cbn [overflows_ overflowBuckets_ overflowValues_ with_overflows]. rewrite ?En.
    replace (Z.of_nat (S n) - 1) with (Z.of_nat n) by lia. rewrite wrap_signed_id by lia.
    eexists. split_and!; [done|done| |done]. apply (overflows_removed B d); [done| |cbn; lia].
    cbn [overflows_ overflowBuckets_ overflowValues_ with_overflows]. rewrite Nat2Z.id. assert (j = n) as -> by lia.
    apply (overflow_remove n (overflowBuckets_ d) (overflowValues_ d) _ _ om n); rewrite ?length_insert; try done; intros k Hk;
      rewrite decide_False by lia; [done|by rewrite list_lookup_insert_ne by lia].
Qed.

(** * The registers *)

(** What the list of overflows has for a bucket that is [delta] over the baseline. *)
Definition over (delta : Z) : option Z := if kMaxDelta <? delta then Some (delta - kMaxDelta) else None.

Definition put_over (om : gmap Z Z) (i delta : Z) : gmap Z Z :=
  match over delta with Some v => <[i := v]> om | None => delete i om end.

Lemma put_over_eq om i delta : put_over om i delta !! i = over delta.
Proof. unfold put_over. destruct (over delta); [apply lookup_insert_eq|apply lookup_delete_eq]. Qed.

Lemma put_over_ne om i j delta : i <> j -> put_over om i delta !! j = om !! j.
Proof. intros Hne. unfold put_over. destruct (over delta); [by apply lookup_insert_ne|by apply lookup_delete_ne]. Qed.

(** The largest register. *)
Definition kMaxValue : Z := 64.

(** The registers [regs], each relative to a base of its own; the large ones are in buckets of [B]. *)
Record cells (B : list Z) (d : DenseHll) (base : nat -> Z) (regs : list Z) (om : gmap Z Z) : Prop := {
  c_bits : 4 <= indexBitLength_ d <= 16;
  c_length : Z.of_nat (length regs) = 2 ^ indexBitLength_ d;
  c_bytes : Forall int8_ok (deltas_ d);
  c_nibbles : length (nibbles (deltas_ d)) = length regs;
  c_overflows : overflows_ok B d om;
  c_room : roomy (length regs) B;
  c_high i r : regs !! i = Some r -> kMaxDelta < r -> Z.of_nat i ∈ B;
  c_range i r : regs !! i = Some r -> 0 <= base i <= r /\ r <= kMaxValue;
  c_delta i r : regs !! i = Some r -> nibbles (deltas_ d) !! i = Some (Z.min kMaxDelta (r - base i));
  c_over i r : regs !! i = Some r -> om !! Z.of_nat i = over (r - base i)
}.
Arguments c_bits {B} _ _ _ _ _.
Arguments c_length {B} _ _ _ _ _.
Arguments c_bytes {B} _ _ _ _ _.
Arguments c_nibbles {B} _ _ _ _ _.
Arguments c_overflows {B} _ _ _ _ _.
Arguments c_room {B} _ _ _ _ _.
Arguments c_high {B} _ _ _ _ _ _ _ _ _.
Arguments c_range {B} _ _ _ _ _ _ _ _.
Arguments c_delta {B} _ _ _ _ _ _ _ _.
Arguments c_over {B} _ _ _ _ _ _ _ _.

Lemma cells_bound {B} d base regs om : cells B d base regs om -> 16 <= Z.of_nat (length regs) <= 2 ^ 16.
Proof.
  intros H. pose proof (c_bits _ _ _ _ H). rewrite (c_length _ _ _ _ H). split.
  - change 16 with (2 ^ 4). apply Z.pow_le_mono_r; lia.
  - apply Z.pow_le_mono_r; lia.
Qed.

(** One bucket gets a new register and base. *)
Lemma cells_update {B} d d' base base' regs om i r :
  cells B d base regs om -> (i < length regs)%nat -> (forall j, j <> i -> base' j = base j) ->
  0 <= base' i <= r -> r <= kMaxValue -> (kMaxDelta < r -> Z.of_nat i ∈ B) -> indexBitLength_ d' = indexBitLength_ d ->
  Forall int8_ok (deltas_ d') -> nibbles (deltas_ d') = <[i := Z.min kMaxDelta (r - base' i)]> (nibbles (deltas_ d)) ->
  overflows_ok B d' (put_over om (Z.of_nat i) (r - base' i)) ->
  cells B d' base' (<[i := r]> regs) (put_over om (Z.of_nat i) (r - base' i)).
Proof.
  intros H Hi Hbase Hr Hmax Hhigh Hbits Hbytes Hnib Hov. pose proof (c_nibbles _ _ _ _ H) as Hlen.
  split; rewrite ?length_insert, ?Hbits, ?Hnib, ?length_insert; try done; try apply H; intros j x Hj;
    (destruct (decide (j = i)) as [->|Hne]; [rewrite list_lookup_insert_eq in Hj by done; injection Hj as <-|rewrite list_lookup_insert_ne in Hj by done]).
  - done.
  - by apply (c_high _ _ _ _ H).
  - done.
  - rewrite Hbase by done. by apply (c_range _ _ _ _ H).
  - apply list_lookup_insert_eq. lia.
  - rewrite list_lookup_insert_ne, Hbase by done. by apply (c_delta _ _ _ _ H).
  - apply put_over_eq.
  - rewrite put_over_ne, Hbase by (done || lia). by apply (c_over _ _ _ _ H).
Qed.

Lemma getDelta_ok {B} d base regs om i r :
  cells B d base regs om -> regs !! i = Some r -> getDelta d (Z.of_nat i) = Ok (Z.min kMaxDelta (r - base i)).
Proof. intros H Hr. apply (delta_of_nibbles _ (deltas_ d)); [apply vector_is_array|by apply (c_delta _ _ _ _ H)]. Qed.

Lemma getOverflow_ok {B} d base regs om i r :
  cells B d base regs om -> regs !! i = Some r -> getOverflow d (Z.of_nat i) = Ok (Z.max 0 (r - base i - kMaxDelta)).
Proof.
  intros H Hr. pose proof (c_overflows _ _ _ _ H) as Ho. unfold getOverflow. rewrite <- (Z2Nat.id (overflows_ d)) by apply Ho.
  rewrite (overflow_value _ _ _ om _ _ _ (ov_rep _ _ _ Ho)); [|apply vector_is_array..]. rewrite (c_over _ _ _ _ H i r Hr).
  unfold over, kMaxDelta. destruct (15 <? r - base i) eqn:E; cbn; f_equal; lia.
Qed.

(** The overflow list is written only for buckets with the largest delta. *)
Lemma find_none {B} d base regs om i r :
  cells B d base regs om -> regs !! i = Some r -> r - base i <= kMaxDelta -> findOverflowEntry d (Z.of_nat i) = Ok (-1).
Proof.
  intros H Hr Hle. pose proof (c_over _ _ _ _ H i r Hr) as Hom. unfold over in Hom. replace (kMaxDelta <? r - base i) with false in Hom by lia.
  destruct (overflow_find _ _ _ _ (Z.of_nat i) (ov_rep _ _ _ (c_overflows _ _ _ _ H))) as [(j & v & _ & _ & _ & Hv & _)|[_ Hfind]]; [congruence|done].
Qed.

Lemma same_overflows B d d' om :
  overflows_ d' = overflows_ d -> overflowBuckets_ d' = overflowBuckets_ d -> overflowValues_ d' = overflowValues_ d ->
  overflows_ok B d om -> overflows_ok B d' om.
Proof. intros E1 E2 E3 H. split; rewrite ?E1, ?E2, ?E3; apply H. Qed.

Lemma put_over_same {B} d base regs om i r :
  cells B d base regs om -> regs !! i = Some r -> put_over om (Z.of_nat i) (r - base i) = om.
Proof.
  intros H Hr. pose proof (c_over _ _ _ _ H i r Hr) as Hom. apply map_eq. intros j. destruct (decide (j = Z.of_nat i)) as [->|Hne].
  - by rewrite put_over_eq.
  - by rewrite put_over_ne.
Qed.

Lemma put_over_none om i delta : om !! i = None -> delta <= kMaxDelta -> put_over om i delta = om.
Proof. intros Hn Hle. unfold put_over, over. replace (kMaxDelta <? delta) with false by lia. by apply delete_id. Qed.

(** ** The baseline *)

Definition raised (base : nat -> Z) (i : nat) : nat -> Z := fun j => if decide (j = i) then base i + 1 else base j.

Lemma adjust_bucket_ok {B} d base regs om i r :
  cells B d base regs om -> regs !! i = Some r -> base i < r -> 0 <= baselineCount_ d < 2 ^ 20 ->
  exists d' om', adjust_bucket d (Z.of_nat i) = Ok d' /\ cells B d' (raised base i) regs om' /\ baseline_ d' = baseline_ d
    /\ indexBitLength_ d' = indexBitLength_ d /\ baselineCount_ d' = baselineCount_ d + (if r =? base i + 1 then 1 else 0).
Proof.
  intros H Hr Hlt Hcount. pose proof (c_range _ _ _ _ H i r Hr) as Hrange. pose proof (lookup_lt_Some _ _ _ Hr) as Hi. pose proof (cells_bound _ _ _ _ H) as HN.
  assert (raised base i i = base i + 1) as Hraised by (unfold raised; by rewrite decide_True).
  assert (forall j, j <> i -> raised base i j = base j) as Hothers by (intros j Hj; unfold raised; by rewrite decide_False).
  assert (<[i := r]> regs = regs) as Hsame by (by apply list_insert_id).
  unfold adjust_bucket. rewrite (getDelta_ok _ _ _ _ _ _ H Hr). cbn [rbind]. unfold kMaxValue in *.
  destruct (15 <? r - base i) eqn:Eover.
  - assert (om !! Z.of_nat i = Some (r - base i - 15)) as Hom.
    { rewrite (c_over _ _ _ _ H i r Hr). unfold over, kMaxDelta. by rewrite Eover. }
    destruct (decrease_overflow_ok _ d om (Z.of_nat i) _ (c_overflows _ _ _ _ H) Hom (proj2 (c_room _ _ _ _ H))) as (j & d' & Hfind & Hdec & Hov & Hs1 & Hs2 & Hs3 & Hs4).
    rewrite Z.min_l by (unfold kMaxDelta; lia). cbn [Z.eqb]. rewrite Z.eqb_refl, Hfind. cbn [rbind].
    rewrite (proj2 (Z.eqb_neq (Z.of_nat j) (-1))) by lia. cbn [negb]. rewrite Hdec. cbn [rbind].
    replace (kMaxDelta =? 0) with false by done. exists d', (put_over om (Z.of_nat i) (r - raised base i i)).
    replace (r =? base i + 1) with false by lia. split_and!; try done; [|lia]. rewrite <- Hsame.
    apply (cells_update d _ base); rewrite ?Hraised, ?Hs4; unfold kMaxValue; try done; try lia; try (by apply (c_high _ _ _ _ H)); try apply H.
    + symmetry. apply list_insert_id. rewrite (c_delta _ _ _ _ H i r Hr). f_equal. unfold kMaxDelta. lia.
    + unfold put_over, over, kMaxDelta. destruct (r - base i - 15 =? 1) eqn:E1.
      * by replace (15 <? r - (base i + 1)) with false by lia.
      * replace (15 <? r - (base i + 1)) with true by lia. by replace (r - (base i + 1) - 15) with (r - base i - 15 - 1) by lia.
  - assert ((if Z.min kMaxDelta (r - base i) =? kMaxDelta then findOverflowEntry d (Z.of_nat i) else Ok (-1)) = Ok (-1)) as ->.
    { destruct (_ =? kMaxDelta); [|done]. apply (find_none _ _ _ _ _ _ H Hr). unfold kMaxDelta. lia. }
    cbn [rbind]. rewrite Z.eqb_refl. cbn [negb]. unfold kMaxDelta in *. rewrite Z.min_r by lia.
    destruct (setDelta_ok d i (r - base i - 1)) as (bs & Hset & Hnib & Hbytes & Hlen); [apply H|rewrite (c_nibbles _ _ _ _ H); done|lia|].
    rewrite Hset. cbn [rbind].
    assert (forall n, cells B (with_baseline (with_deltas d bs) (baseline_ d) n) (raised base i) regs (put_over om (Z.of_nat i) (r - raised base i i))) as Hcells.
    { intros n. rewrite <- Hsame at 1. apply (cells_update d _ base); rewrite ?Hraised; unfold kMaxValue; try done; try lia.
      - by apply (c_high _ _ _ _ H).
      - cbn [deltas_ with_baseline with_deltas]. rewrite Hnib. f_equal. unfold kMaxDelta. lia.
      - rewrite put_over_none; [|rewrite (c_over _ _ _ _ H i r Hr); unfold over, kMaxDelta; by rewrite Eover|unfold kMaxDelta; lia].
        apply (same_overflows _ d); try done. apply H. }
    destruct (r - base i - 1 =? 0) eqn:E0.
    + rewrite ck32_in by (cbn [baselineCount_ with_deltas]; lia). cbn [rbind]. eexists _, _. split; [done|]. split; [apply Hcells|]. cbn.
      replace (r =? base i + 1) with true by lia. done.
    + eexists _, _. split; [done|]. split; [exact (Hcells (baselineCount_ d))|]. cbn. replace (r =? base i + 1) with false by lia. split_and!; try done; lia.
Qed.

Lemma cells_ext {B} d base base' regs om :
  (forall i, (i < length regs)%nat -> base' i = base i) -> cells B d base regs om -> cells B d base' regs om.
Proof.
  intros He H. split; try apply H; intros i r Hr; rewrite He by (by eapply lookup_lt_Some);
    [by apply (c_range _ _ _ _ H)|by apply (c_delta _ _ _ _ H)|by apply (c_over _ _ _ _ H)].
Qed.

Lemma cells_with_baseline {B} d base regs om b n : cells B d base regs om -> cells B (with_baseline d b n) base regs om.
Proof. intros H. split; try apply H. apply (same_overflows _ d); try done. apply H. Qed.

Definition count_of (b : Z) (regs : list Z) : Z := Z.of_nat (length (filter (fun r => r = b) regs)).

Lemma count_of_bound b regs : 0 <= count_of b regs <= Z.of_nat (length regs).
Proof. unfold count_of. pose proof (length_filter (fun r => r = b) regs). lia. Qed.

Lemma count_of_take_S b regs k r :
  regs !! k = Some r -> count_of b (take (S k) regs) = count_of b (take k regs) + if r =? b then 1 else 0.
Proof.
  intros Hr. unfold count_of. rewrite (take_S_r _ _ r) by done. rewrite filter_app, length_app. destruct (r =? b) eqn:E.
  - rewrite filter_cons_True by lia. cbn. lia.
  - rewrite filter_cons_False by lia. cbn. lia.
Qed.

Lemma count_of_zero b regs : count_of b regs = 0 -> forall i r, regs !! i = Some r -> r <> b.
Proof.
  unfold count_of. intros H i r Hr ->. apply list_elem_of_lookup_2 in Hr.
  assert (b ∈ filter (fun r => r = b) regs) as Hin by (by apply list_elem_of_filter). destruct (filter _ regs); [by apply not_elem_of_nil in Hin|cbn in H; lia].
Qed.

Lemma adjust_buckets_ok {B} b regs n k d om :
  cells B d (fun i => if decide (i < k)%nat then b + 1 else b) regs om -> (k + n = length regs)%nat ->
  (forall i r, regs !! i = Some r -> b < r) -> baselineCount_ d = count_of (b + 1) (take k regs) ->
  exists d' om', adjust_buckets n (Z.of_nat k) d = Ok d' /\ cells B d' (fun _ => b + 1) regs om' /\ baseline_ d' = baseline_ d
    /\ indexBitLength_ d' = indexBitLength_ d /\ baselineCount_ d' = count_of (b + 1) regs.
Proof.
  revert k d om. induction n as [|n IH]; intros k d om H Hk Hlt Hcount; cbn [adjust_buckets].
  - exists d, om. split_and!; try done; [|rewrite Hcount, take_ge by lia; done].
    refine (cells_ext _ _ _ _ _ _ H). intros i Hi. by rewrite decide_True by lia.
  - destruct (lookup_lt_is_Some_2 regs k ltac:(lia)) as [r Hr]. pose proof (cells_bound _ _ _ _ H) as HN.
    pose proof (count_of_bound (b + 1) (take k regs)) as Hcb. rewrite length_take in Hcb.
    destruct (adjust_bucket_ok d _ regs om k r H Hr) as (d1 & om1 & -> & H1 & Hb1 & Hl1 & Hc1).
    { rewrite decide_False by lia. by apply (Hlt k). }
    { rewrite Hcount. lia. }
    rewrite decide_False in Hc1 by lia. cbn [rbind]. replace (Z.of_nat k + 1) with (Z.of_nat (S k)) by lia.
    destruct (IH (S k) d1 om1) as (d2 & om2 & -> & H2 & Hb2 & Hl2 & Hc2); try done; try lia.
    + apply (cells_ext _ (raised (fun i => if decide (i < k)%nat then b + 1 else b) k)); [|done]. intros i Hi. unfold raised.
      destruct (decide (i = k)) as [->|]; [rewrite decide_True, decide_False by lia; done|].
      destruct (decide (i < S k)%nat), (decide (i < k)%nat); try lia; done.
    + rewrite Hc1, Hcount. by rewrite (count_of_take_S _ _ _ r).
    + exists d2, om2. split_and!; try done; congruence.
Qed.

(** The registers are represented, with the baseline as their minimum. *)
Record dense_rep (B : list Z) (d : DenseHll) (regs : list Z) : Prop := {
  dr_cells : exists om, cells B d (fun _ => baseline_ d) regs om;
  dr_count : baselineCount_ d = count_of (baseline_ d) regs;
  dr_minimum : 0 < baselineCount_ d
}.

Lemma adjust_loop_ok {B} regs fuel d om :
  cells B d (fun _ => baseline_ d) regs om -> baselineCount_ d = count_of (baseline_ d) regs -> kMaxValue - baseline_ d <= Z.of_nat fuel ->
  exists d', adjust_loop fuel d = Ok d' /\ dense_rep B d' regs /\ indexBitLength_ d' = indexBitLength_ d.
Proof.
  revert d om. induction fuel as [|fuel IH]; intros d om H Hcount Hfuel; cbn [adjust_loop]; pose proof (cells_bound _ _ _ _ H) as HN;
    pose proof (count_of_bound (baseline_ d) regs) as Hcb; (destruct (baselineCount_ d =? 0) eqn:E0;
    [|exists d; split_and!; try done; split; [by exists om|done|lia]]); apply Z.eqb_eq in E0; rewrite E0 in Hcount; symmetry in Hcount;
    pose proof (count_of_zero _ _ Hcount) as Hne.
  - destruct (lookup_lt_is_Some_2 regs 0%nat ltac:(lia)) as [r Hr]. pose proof (c_range _ _ _ _ H _ _ Hr). pose proof (Hne _ _ Hr). lia.
  - assert (forall i r, regs !! i = Some r -> baseline_ d < r) as Hlt.
    { intros i r Hr. pose proof (c_range _ _ _ _ H _ _ Hr). pose proof (Hne _ _ Hr). lia. }
    destruct (lookup_lt_is_Some_2 regs 0%nat ltac:(lia)) as [r0 Hr0]. pose proof (c_range _ _ _ _ H _ _ Hr0) as Hr0r. pose proof (Hlt _ _ Hr0) as Hr0l.
    unfold kMaxValue in *. rewrite wrap_signed_id by lia.
    cbn [indexBitLength_ with_baseline baselineCount_]. rewrite Z.shiftl_1_l, <- (c_length _ _ _ _ H), Nat2Z.id. change 0 with (Z.of_nat 0) at 1.
    destruct (adjust_buckets_ok (B := B) (baseline_ d) regs (length regs) 0 (with_baseline d (baseline_ d + 1) (baselineCount_ d)) om)
      as (d1 & om1 & Hrun & H1 & Hb1 & Hl1 & Hc1); try done.
    { apply cells_with_baseline. apply (cells_ext _ (fun _ => baseline_ d)); [done|done]. }
    rewrite E0 in Hrun. rewrite E0, Hrun. cbn [rbind]. cbn in Hb1, Hl1. destruct (IH d1 om1) as (d2 & -> & H2 & Hl2).
    + by rewrite Hb1.
    + by rewrite Hb1.
    + unfold kMaxValue. lia.
    + exists d2. split_and!; try done. congruence.
Qed.

Lemma adjustBaseline_ok {B} d regs om :
  cells B d (fun _ => baseline_ d) regs om -> baselineCount_ d = count_of (baseline_ d) regs ->
  exists d', adjustBaselineIfNeeded d = Ok d' /\ dense_rep B d' regs /\ indexBitLength_ d' = indexBitLength_ d.
Proof.
  intros H Hcount. apply (adjust_loop_ok regs 64 d om); try done. pose proof (cells_bound _ _ _ _ H) as HN.
  destruct (lookup_lt_is_Some_2 regs 0%nat ltac:(lia)) as [r Hr]. pose proof (c_range _ _ _ _ H _ _ Hr). unfold kMaxValue. lia.
Qed.

(** ** Insertion *)

Lemma count_of_insert b regs i r v :
  regs !! i = Some r -> count_of b (<[i := v]> regs) = count_of b regs - (if r =? b then 1 else 0) + (if v =? b then 1 else 0).
Proof.
  intros Hr. unfold count_of. rewrite insert_take_drop by (by eapply lookup_lt_Some). rewrite <- (take_drop_middle regs i r Hr) at 3.
  rewrite !filter_app, !length_app. destruct (v =? b) eqn:Ev, (r =? b) eqn:Er;
    rewrite ?(filter_cons_True _ v), ?(filter_cons_True _ r), ?(filter_cons_False _ v), ?(filter_cons_False _ r) by lia; cbn [length]; lia.
Qed.

(** The part of the insertion that writes to the list of overflows. *)
Lemma put_overflow_ok {B} d base regs om i r delta :
  cells B d base regs om -> regs !! i = Some r -> r - base i < delta <= 100 -> (kMaxDelta < delta -> Z.of_nat i ∈ B) ->
  exists d', (if delta >? kMaxDelta then
                let! overflowEntry := findOverflowEntry d (Z.of_nat i) in
                let! d := if negb (overflowEntry =? -1) then set_overflow d overflowEntry (wrap_signed 8 (delta - kMaxDelta))
                          else addOverflow d (Z.of_nat i) (wrap_signed 8 (delta - kMaxDelta)) in
                Ok (d, kMaxDelta)
              else Ok (d, delta)) = Ok (d', Z.min kMaxDelta delta)
    /\ overflows_ok B d' (put_over om (Z.of_nat i) delta) /\ same_deltas d d'.
Proof.
  intros H Hr Hdelta Hhigh. pose proof (c_overflows _ _ _ _ H) as Hov. pose proof (cells_bound _ _ _ _ H) as HN. pose proof (lookup_lt_Some _ _ _ Hr) as Hi.
  pose proof (c_range _ _ _ _ H i r Hr) as Hrange. pose proof (c_over _ _ _ _ H i r Hr) as Hom. unfold put_over, over, kMaxDelta in *.
  destruct (delta >? 15) eqn:E.
  - replace (15 <? delta) with true by lia. rewrite wrap_signed_id, Z.min_l by lia. destruct (15 <? r - base i) eqn:Er.
    + destruct (set_overflow_ok _ d om (Z.of_nat i) (delta - 15) _ Hov Hom ltac:(lia)) as (j & d' & -> & _ & _ & Hset & Hok & Hs).
      cbn [rbind]. rewrite (proj2 (Z.eqb_neq (Z.of_nat j) (-1))) by lia. cbn [negb]. rewrite Hset. cbn [rbind]. by exists d'.
    + destruct (addOverflow_ok _ _ d om (Z.of_nat i) (delta - 15) Hov Hom (Hhigh ltac:(lia)) (c_room _ _ _ _ H) ltac:(lia) ltac:(lia)) as (d' & -> & Hadd & Hok & Hs).
      cbn [rbind]. rewrite Z.eqb_refl. cbn [negb]. rewrite Hadd. cbn [rbind]. by exists d'.
  - replace (15 <? delta) with false by lia. rewrite Z.min_r by lia. exists d. split_and!; try done.
    rewrite delete_id; [done|]. rewrite Hom. by replace (15 <? r - base i) with false by lia.
Qed.

Lemma insert_kept {B} d base regs om i r delta :
  cells B d base regs om -> regs !! i = Some r ->
  (if delta <=? Z.min kMaxDelta (r - base i) then Ok true
   else if Z.min kMaxDelta (r - base i) =? kMaxDelta
        then (let! o := getOverflow d (Z.of_nat i) in Ok (delta <=? Z.min kMaxDelta (r - base i) + o)) else Ok false)
  = Ok (delta <=? r - base i).
Proof.
  intros H Hr. pose proof (c_range _ _ _ _ H i r Hr) as Hrange. rewrite (getOverflow_ok _ _ _ _ _ _ H Hr). cbn [rbind]. unfold kMaxDelta.
  destruct (delta <=? Z.min 15 (r - base i)) eqn:E1; [f_equal; lia|]. destruct (Z.min 15 (r - base i) =? 15) eqn:E2; f_equal; lia.
Qed.

Lemma dense_insert_ok {B} d regs i r v :
  dense_rep B d regs -> regs !! i = Some r -> 0 <= v <= kMaxValue -> (kMaxDelta < v -> Z.of_nat i ∈ B) ->
  exists d', dense_insert d (Z.of_nat i) v = Ok d' /\ dense_rep B d' (<[i := Z.max r v]> regs) /\ indexBitLength_ d' = indexBitLength_ d.
Proof.
  intros [[om H] Hcount Hmin] Hr Hv Hhigh. pose proof (c_range _ _ _ _ H i r Hr) as Hrange. pose proof (lookup_lt_Some _ _ _ Hr) as Hi.
  pose proof (cells_bound _ _ _ _ H) as HN. pose proof (count_of_bound (baseline_ d) regs) as Hcb. unfold kMaxValue in *.
  unfold dense_insert. rewrite (getDelta_ok _ _ _ _ _ _ H Hr). cbn [rbind]. rewrite (insert_kept _ _ _ _ _ _ _ H Hr). cbn [rbind].
  destruct (v - baseline_ d <=? r - baseline_ d) eqn:Ekept.
  { rewrite Z.max_l, list_insert_id by (done || lia). exists d. split_and!; try done. split; [by exists om|done|done]. }
  rewrite Z.max_r by lia.
  destruct (put_overflow_ok d _ regs om i r (v - baseline_ d) H Hr ltac:(lia) ltac:(intros; apply Hhigh; lia)) as (d1 & -> & Hov & Hbits & Hbase & Hcnt & Hdeltas). cbn [rbind].
  destruct (setDelta_ok d1 i (Z.min kMaxDelta (v - baseline_ d))) as (bs & Hset & Hnib & Hbytes & Hlen).
  { rewrite Hdeltas. apply H. }
  { rewrite Hdeltas, (c_nibbles _ _ _ _ H). done. }
  { unfold kMaxDelta. lia. }
  rewrite wrap_signed_id by (unfold kMaxDelta; lia). rewrite Hset. cbn [rbind].
  assert (forall n, cells B (with_baseline (with_deltas d1 bs) (baseline_ d) n) (fun _ => baseline_ d) (<[i := v]> regs)
                      (put_over om (Z.of_nat i) (v - baseline_ d))) as Hcells.
  { intros n. apply (cells_update d _ (fun _ => baseline_ d) (fun _ => baseline_ d)); unfold kMaxValue; try done; try lia.
    - cbn [deltas_ with_baseline with_deltas]. by rewrite Hnib, Hdeltas.
    - by apply (same_overflows _ d1). }
  pose proof (count_of_insert (baseline_ d) regs i r v Hr) as Hci. replace (v =? baseline_ d) with false in Hci by lia.
  destruct (Z.min kMaxDelta (r - baseline_ d) =? 0) eqn:E0; unfold kMaxDelta in E0.
  - replace (r =? baseline_ d) with true in Hci by lia. cbn [baselineCount_ baseline_ with_deltas]. rewrite Hcnt, Hbase, ck32_in by lia. cbn [rbind].
    destruct (adjustBaseline_ok (B := B) (with_baseline (with_deltas d1 bs) (baseline_ d) (baselineCount_ d - 1)) (<[i := v]> regs)
                (put_over om (Z.of_nat i) (v - baseline_ d))) as (d2 & Hadj & H2 & Hl2); [apply Hcells|cbn; lia|].
    exists d2. split_and!; try done. by rewrite Hl2.
  - replace (r =? baseline_ d) with false in Hci by lia. exists (with_deltas d1 bs). split_and!; try done.
    split; cbn [baseline_ baselineCount_ with_deltas]; rewrite ?Hbase, ?Hcnt; [|lia|done].
    eexists. pose proof (Hcells (baselineCount_ d1)) as Hc. rewrite <- Hbase in Hc at 1. exact Hc.
Qed.

(** ** Merging *)

(** The arrays of an instance, in memory or serialized. *)
Record arrays_of (d : DenseHll) (deltas buckets values : array) : Prop := {
  ar_deltas : is_array deltas (deltas_ d);
  ar_buckets : is_array buckets (overflowBuckets_ d);
  ar_values : is_array values (overflowValues_ d)
}.

Lemma vector_arrays d : arrays_of d (vector_data (deltas_ d)) (vector_data (overflowBuckets_ d)) (vector_data (overflowValues_ d)).
Proof. split; apply vector_is_array. Qed.

Lemma updateOverflow_ok B N d om index delta w :
  overflows_ok B d om -> roomy N B -> Z.of_nat N <= 2 ^ 16 -> (kMaxDelta < delta -> index ∈ B) -> om !! index = w -> 0 <= delta <= 100 ->
  exists e d', (match w with Some _ => findOverflowEntry d index | None => Ok (-1) end) = Ok e
    /\ wrap_signed 16 e = e
    /\ (e =? -1) = (match w with Some _ => false | None => true end)
    /\ (match w with Some x => at_index (overflowValues_ d) e = Ok x | None => True end)
    /\ updateOverflow d index e delta = Ok (d', Z.min kMaxDelta delta)
    /\ overflows_ok B d' (put_over om index delta) /\ same_deltas d d'.
Proof.
  intros H Hroom HN Hi Hw Hdelta. pose proof (proj2 Hroom) as HB. unfold updateOverflow, put_over, over, kMaxDelta. destruct w as [w|].
  - destruct (decide (15 < delta)) as [Hd|Hd].
    + destruct (set_overflow_ok B d om index (delta - 15) w H Hw ltac:(lia)) as (j & d' & Hfind & Hj & Hat & Hset & Hok & Hs).
      exists (Z.of_nat j), d'. replace (delta >? 15) with true by lia. replace (15 <? delta) with true by lia.
      assert ((Z.of_nat j =? -1) = false) as E by lia. rewrite E. cbn [negb]. rewrite (wrap_signed_id 8), Hset, Z.min_l by lia.
      split_and!; try done; [apply wrap_signed_id; lia|apply Hs..].
    + destruct (removeOverflow_ok B d om index w H Hw HB) as (j & d' & Hfind & Hj & Hat & Hrem & Hok & Hs).
      exists (Z.of_nat j), d'. replace (delta >? 15) with false by lia. replace (15 <? delta) with false by lia.
      assert ((Z.of_nat j =? -1) = false) as E by lia. rewrite E. cbn [negb]. rewrite Hrem, Z.min_r by lia.
      split_and!; try done; [apply wrap_signed_id; lia|apply Hs..].
  - exists (-1). destruct (decide (15 < delta)) as [Hd|Hd].
    + destruct (addOverflow_ok B N d om index (delta - 15) H Hw (Hi Hd) Hroom HN ltac:(lia)) as (d' & _ & Hadd & Hok & Hs).
      exists d'. replace (delta >? 15) with true by lia. replace (15 <? delta) with true by lia. rewrite Z.eqb_refl. cbn [negb].
      rewrite (wrap_signed_id 8), Hadd, Z.min_l by lia. split_and!; try done; apply Hs.
    + exists d. replace (delta >? 15) with false by lia. replace (15 <? delta) with false by lia. rewrite Z.eqb_refl. cbn [negb].
      rewrite Z.min_r by lia. rewrite delete_id by done. split_and!; done.
Qed.

(** One bucket: [r1] is its register here, relative to [baseline_ d], and [r2] in the other instance. *)
Lemma merge_bucket_ok {B} N d om d2 base2 regs2 om2 od ob ov index b2 nb slot1 slot2 shift r1 r2 :
  overflows_ok B d om -> roomy N B -> Z.of_nat N <= 2 ^ 16 -> (kMaxDelta < Z.max r1 r2 -> Z.of_nat index ∈ B) -> cells B d2 base2 regs2 om2 -> base2 index = b2 -> arrays_of d2 od ob ov ->
  regs2 !! index = Some r2 -> 0 <= baseline_ d <= r1 -> r1 <= kMaxValue -> 0 <= nb <= Z.max r1 r2 ->
  om !! Z.of_nat index = over (r1 - baseline_ d) ->
  Z.land (Z.shiftr slot1 shift) kBucketMask = Z.min kMaxDelta (r1 - baseline_ d) ->
  Z.land (Z.shiftr slot2 shift) kBucketMask = Z.min kMaxDelta (r2 - b2) ->
  exists d', merge_bucket d b2 nb (Z.of_nat index) slot1 slot2 shift (overflows_ d2) ob ov
      = Ok (d', Z.min kMaxDelta (Z.max r1 r2 - nb), if Z.max r1 r2 =? nb then 1 else 0)
    /\ overflows_ok B d' (put_over om (Z.of_nat index) (Z.max r1 r2 - nb)) /\ same_deltas d d'.
Proof.
  intros H Hroom HN Hi H2 Hb2 Har Hr2 Hr1 Hmax Hnb Hom Hs1 Hs2. pose proof (c_range _ _ _ _ H2 _ _ Hr2) as Hrange2. rewrite Hb2 in Hrange2.
  pose proof (c_overflows _ _ _ _ H2) as Hov2. unfold kMaxValue in *.
  assert (getOverflowImpl (Z.of_nat index) (overflows_ d2) ob ov = Ok (Z.max 0 (r2 - b2 - 15))) as Hget.
  { rewrite <- (Z2Nat.id (overflows_ d2)) by apply Hov2. rewrite (overflow_value _ _ _ om2 _ _ _ (ov_rep _ _ _ Hov2)); [|apply Har..].
    rewrite (c_over _ _ _ _ H2 _ _ Hr2), Hb2. unfold over, kMaxDelta. destruct (15 <? r2 - b2) eqn:E; cbn; f_equal; lia. }
  destruct (updateOverflow_ok B N d om (Z.of_nat index) (Z.max r1 r2 - nb) _ H Hroom HN ltac:(intros; apply Hi; lia) Hom ltac:(lia)) as (e & d' & He & Hwrap & Hneg & Hat & Hupd & Hok & Hs).
  unfold merge_bucket. cbv zeta. rewrite Hs1, Hs2, Hget.
  assert ((if Z.min kMaxDelta (r1 - baseline_ d) =? kMaxDelta then findOverflowEntry d (Z.of_nat index) else Ok (-1)) = Ok e) as ->.
  { destruct (Z.min kMaxDelta (r1 - baseline_ d) =? kMaxDelta) eqn:E1; unfold over, kMaxDelta in *.
    - destruct (15 <? r1 - baseline_ d) eqn:E2; [done|]. rewrite <- He. destruct (overflow_find _ _ _ _ (Z.of_nat index) (ov_rep _ _ _ H)) as [(j & v & _ & _ & _ & Hv & _)|[_ Hf]]; [congruence|done].
    - replace (15 <? r1 - baseline_ d) with false in He by lia. by rewrite <- He. }
  cbn [rbind]. rewrite Hwrap, Hneg. unfold kMaxDelta in *. rewrite !(wrap_signed_id 8 (_ + Z.min _ _)) by lia.
  assert ((if negb (match over (r1 - baseline_ d) with Some _ => false | None => true end)
           then let! o := at_index (overflowValues_ d) e in Ok (wrap_signed 8 (baseline_ d + Z.min 15 (r1 - baseline_ d) + o))
           else Ok (baseline_ d + Z.min 15 (r1 - baseline_ d))) = Ok r1) as ->.
  { unfold over, kMaxDelta in *. destruct (15 <? r1 - baseline_ d) eqn:E; cbn [negb]; [rewrite Hat; cbn [rbind]; rewrite wrap_signed_id by lia|]; f_equal; lia. }
  cbn [rbind].
  assert ((if Z.min 15 (r2 - b2) =? 15 then Ok (wrap_signed 8 (b2 + Z.min 15 (r2 - b2) + Z.max 0 (r2 - b2 - 15)))
           else Ok (b2 + Z.min 15 (r2 - b2))) = Ok r2) as ->.
  { destruct (Z.min 15 (r2 - b2) =? 15) eqn:E; [rewrite wrap_signed_id by lia|]; f_equal; lia. }
  cbn [rbind]. rewrite (wrap_signed_id 8) by lia. rewrite Hupd. cbn [rbind fst snd]. exists d'. split; [|done]. do 3 f_equal.
  destruct (Z.max r1 r2 - nb =? 0) eqn:E3, (Z.max r1 r2 =? nb) eqn:E4; lia.
Qed.

(** A slot from its two halves. *)
Definition join_nibbles (a b : Z) : Z := wrap_signed 8 (Z.lor (Z.shiftl (Z.lor (Z.shiftl 0 4) a) 4) b).

Definition join_nibbles_check (a b : Z) : bool :=
  (Z.land (Z.shiftr (join_nibbles a b) 4) 15 =? a) && (Z.land (join_nibbles a b) 15 =? b)
  && (-128 <=? join_nibbles a b) && (join_nibbles a b <? 128).

Lemma join_nibbles_table : forallb (fun a => forallb (join_nibbles_check a) (seqZ 0 16)) (seqZ 0 16) = true.
Proof. by vm_compute. Qed.

Lemma join_nibbles_ok a b :
  0 <= a <= 15 -> 0 <= b <= 15 ->
  int8_ok (join_nibbles a b) /\ Z.land (Z.shiftr (join_nibbles a b) 4) 15 = a /\ Z.land (join_nibbles a b) 15 = b.
Proof.
  intros Ha Hb. pose proof (proj1 (forallb_forall _ _) join_nibbles_table a ltac:(apply list_elem_of_In, elem_of_seqZ; lia)) as Hrow.
  pose proof (proj1 (forallb_forall _ _) Hrow b ltac:(apply list_elem_of_In, elem_of_seqZ; lia)) as Hcell.
  unfold join_nibbles_check in Hcell. unfold int8_ok. rewrite !andb_true_iff in Hcell. lia.
Qed.

(** The registers when the first [k] have been merged. *)
Definition mixed (k : nat) (regs1 regs2 : list Z) : list Z := zip_with Z.max (take k regs1) (take k regs2) ++ drop k regs1.

Lemma mixed_lookup k regs1 regs2 j r1 r2 :
  length regs1 = length regs2 -> regs1 !! j = Some r1 -> regs2 !! j = Some r2 ->
  mixed k regs1 regs2 !! j = Some (if decide (j < k)%nat then Z.max r1 r2 else r1).
Proof.
  intros Hl H1 H2. pose proof (lookup_lt_Some _ _ _ H1) as Hj. unfold mixed.
  assert (length (zip_with Z.max (take k regs1) (take k regs2)) = Nat.min k (length regs1)) as Hz by (rewrite length_zip_with, !length_take; lia).
  destruct (decide (j < k)%nat) as [Hlt|Hge].
  - rewrite lookup_app_l by lia. rewrite lookup_zip_with, !lookup_take_lt, H1 by done. cbn. by rewrite H2.
  - rewrite lookup_app_r, lookup_drop by lia. rewrite Hz. replace (k + (j - Nat.min k (length regs1)))%nat with j by lia. done.
Qed.

Lemma mixed_length k regs1 regs2 : length regs1 = length regs2 -> length (mixed k regs1 regs2) = length regs1.
Proof. intros Hl. unfold mixed. rewrite length_app, length_zip_with, !length_take, length_drop. lia. Qed.

Lemma mixed_step k regs1 regs2 r1 r2 :
  length regs1 = length regs2 -> regs1 !! k = Some r1 -> regs2 !! k = Some r2 ->
  mixed (S k) regs1 regs2 = <[k := Z.max r1 r2]> (mixed k regs1 regs2).
Proof.
  intros Hl H1 H2. pose proof (lookup_lt_Some _ _ _ H1) as Hk. apply list_eq_same_length with (length regs1);
    [rewrite length_insert; by apply mixed_length|by apply mixed_length|]. intros j x y Hj Hx Hy.
  destruct (lookup_lt_is_Some_2 regs1 j Hj) as [s1 Hs1]. destruct (lookup_lt_is_Some_2 regs2 j ltac:(lia)) as [s2 Hs2].
  rewrite (mixed_lookup _ _ _ _ s1 s2) in Hx by done. injection Hx as <-. destruct (decide (j = k)) as [->|Hne].
  - rewrite list_lookup_insert_eq in Hy by (by rewrite mixed_length). injection Hy as <-. rewrite decide_True by lia. congruence.
  - rewrite list_lookup_insert_ne, (mixed_lookup _ _ _ _ s1 s2) in Hy by done. injection Hy as <-.
    destruct (decide (j < S k)%nat), (decide (j < k)%nat); try lia; done.
Qed.

Lemma mixed_all regs1 regs2 : length regs1 = length regs2 -> mixed (length regs1) regs1 regs2 = zip_with Z.max regs1 regs2.
Proof. intros Hl. unfold mixed. rewrite drop_ge, app_nil_r, !take_ge by lia. done. Qed.

Definition merged_base (k : nat) (b nb : Z) : nat -> Z := fun j => if decide (j < k)%nat then nb else b.

(** The two buckets of a slot. *)
Lemma slot_halves {B} d base regs om i r s :
  cells B d base regs om -> regs !! (2 * i)%nat = Some r -> regs !! (2 * i + 1)%nat = Some s ->
  exists slot, deltas_ d !! i = Some slot /\ Z.land (Z.shiftr slot 4) kBucketMask = Z.min kMaxDelta (r - base (2 * i)%nat)
    /\ Z.land (Z.shiftr slot 0) kBucketMask = Z.min kMaxDelta (s - base (2 * i + 1)%nat).
Proof.
  intros H Hr Hs. pose proof (c_nibbles _ _ _ _ H) as Hlen. rewrite nibbles_length in Hlen. pose proof (lookup_lt_Some _ _ _ Hs) as Hi.
  destruct (lookup_lt_is_Some_2 (deltas_ d) i ltac:(lia)) as [slot Hslot]. exists slot.
  pose proof (c_delta _ _ _ _ H _ _ Hr) as Hd. pose proof (c_delta _ _ _ _ H _ _ Hs) as He.
  rewrite (nibbles_even _ _ _ Hslot) in Hd. rewrite (nibbles_odd _ _ _ Hslot) in He. injection Hd as Hd. injection He as He.
  by rewrite Z.shiftr_0_r.
Qed.

Lemma cells_slot {B} d d' base base' regs om i r s :
  cells B d base regs om -> (2 * i + 1 < length regs)%nat -> (forall j, j <> (2 * i)%nat -> j <> (2 * i + 1)%nat -> base' j = base j) ->
  0 <= base' (2 * i)%nat <= r -> r <= kMaxValue -> 0 <= base' (2 * i + 1)%nat <= s -> s <= kMaxValue ->
  (kMaxDelta < r -> Z.of_nat (2 * i) ∈ B) -> (kMaxDelta < s -> Z.of_nat (2 * i + 1) ∈ B) -> indexBitLength_ d' = indexBitLength_ d ->
  deltas_ d' = <[i := join_nibbles (Z.min kMaxDelta (r - base' (2 * i)%nat)) (Z.min kMaxDelta (s - base' (2 * i + 1)%nat))]> (deltas_ d) ->
  overflows_ok B d' (put_over (put_over om (Z.of_nat (2 * i)) (r - base' (2 * i)%nat)) (Z.of_nat (2 * i + 1)) (s - base' (2 * i + 1)%nat)) ->
  cells B d' base' (<[(2 * i + 1)%nat := s]> (<[(2 * i)%nat := r]> regs))
    (put_over (put_over om (Z.of_nat (2 * i)) (r - base' (2 * i)%nat)) (Z.of_nat (2 * i + 1)) (s - base' (2 * i + 1)%nat)).
Proof.
  intros H Hi Hbase Hr Hrm Hs Hsm Hhr Hhs Hbits Hdeltas Hov. pose proof (c_nibbles _ _ _ _ H) as Hlen. pose proof Hlen as Hlen'. rewrite nibbles_length in Hlen'.
  destruct (join_nibbles_ok (Z.min kMaxDelta (r - base' (2 * i)%nat)) (Z.min kMaxDelta (s - base' (2 * i + 1)%nat))) as (Hok & Hhi & Hlo); [unfold kMaxDelta; lia..|].
  assert (nibbles (deltas_ d') = <[(2 * i)%nat := Z.min kMaxDelta (r - base' (2 * i)%nat)]> (<[(2 * i + 1)%nat := Z.min kMaxDelta (s - base' (2 * i + 1)%nat)]> (nibbles (deltas_ d)))) as Hnib.
  { rewrite Hdeltas, nibbles_insert, decide_True, Hhi, Hlo by lia. done. }
  assert (forall j x, <[(2 * i + 1)%nat := s]> (<[(2 * i)%nat := r]> regs) !! j = Some x ->
            (j = (2 * i)%nat /\ x = r) \/ (j = (2 * i + 1)%nat /\ x = s) \/ (j <> (2 * i)%nat /\ j <> (2 * i + 1)%nat /\ regs !! j = Some x)) as Hcase.
  { intros j x Hj. destruct (decide (j = 2 * i + 1)%nat) as [->|Hne]; [rewrite list_lookup_insert_eq in Hj by (rewrite length_insert; lia); injection Hj as <-; tauto|].
    rewrite list_lookup_insert_ne in Hj by done. destruct (decide (j = 2 * i)%nat) as [->|Hne']; [rewrite list_lookup_insert_eq in Hj by lia; injection Hj as <-; tauto|].
    rewrite list_lookup_insert_ne in Hj by done. tauto. }
  split; rewrite ?length_insert, ?Hbits, ?Hnib, ?length_insert; try done; try apply H.
  - rewrite Hdeltas. apply Forall_insert; [apply H|done].
  - intros j x [[-> ->]|[[-> ->]|(Hne & Hne' & Hj)]]%Hcase; [done|done|]. by apply (c_high _ _ _ _ H).
  - intros j x [[-> ->]|[[-> ->]|(Hne & Hne' & Hj)]]%Hcase; [done|done|]. rewrite Hbase by done. by apply (c_range _ _ _ _ H).
  - intros j x [[-> ->]|[[-> ->]|(Hne & Hne' & Hj)]]%Hcase.
    + apply list_lookup_insert_eq. rewrite length_insert. lia.
    + rewrite list_lookup_insert_ne by lia. apply list_lookup_insert_eq. lia.
    + rewrite !list_lookup_insert_ne, Hbase by done. by apply (c_delta _ _ _ _ H).
  - intros j x [[-> ->]|[[-> ->]|(Hne & Hne' & Hj)]]%Hcase.
    + rewrite put_over_ne by lia. apply put_over_eq.
    + apply put_over_eq.
    + rewrite !put_over_ne, Hbase by (done || lia). by apply (c_over _ _ _ _ H).
Qed.

Lemma merge_slot_ok {B} d om d2 regs1 regs2 om2 od ob ov nb i r1 r2 s1 s2 :
  cells B d (merged_base (2 * i) (baseline_ d) nb) (mixed (2 * i) regs1 regs2) om -> cells B d2 (fun _ => baseline_ d2) regs2 om2 ->
  arrays_of d2 od ob ov -> length regs1 = length regs2 ->
  regs1 !! (2 * i)%nat = Some r1 -> regs1 !! (2 * i + 1)%nat = Some s1 -> regs2 !! (2 * i)%nat = Some r2 -> regs2 !! (2 * i + 1)%nat = Some s2 ->
  0 <= nb <= Z.max r1 r2 -> nb <= Z.max s1 s2 ->
  exists d' om', merge_slot d (baseline_ d2) nb (Z.of_nat i) (overflows_ d2) od ob ov
      = Ok (d', (if Z.max r1 r2 =? nb then 1 else 0) + (if Z.max s1 s2 =? nb then 1 else 0))
    /\ cells B d' (merged_base (2 * S i) (baseline_ d) nb) (mixed (2 * S i) regs1 regs2) om'
    /\ baseline_ d' = baseline_ d /\ indexBitLength_ d' = indexBitLength_ d /\ length (deltas_ d') = length (deltas_ d).
Proof.
  intros H H2 Har Hl Hr1 Hs1 Hr2 Hs2 Hnb Hnb'. pose proof (cells_bound _ _ _ _ H) as HN. pose proof (c_overflows _ _ _ _ H) as Hov. pose proof (c_room _ _ _ _ H) as Hroom. rewrite mixed_length in HN, Hroom by done.
  assert (mixed (2 * i) regs1 regs2 !! (2 * i)%nat = Some r1) as Hm1 by (rewrite (mixed_lookup _ _ _ _ r1 r2), decide_False by (done || lia); done).
  assert (mixed (2 * i) regs1 regs2 !! (2 * i + 1)%nat = Some s1) as Hm2 by (rewrite (mixed_lookup _ _ _ _ s1 s2), decide_False by (done || lia); done).
  assert (merged_base (2 * i) (baseline_ d) nb (2 * i) = baseline_ d) as Hbase1 by (unfold merged_base; by rewrite decide_False by lia).
  assert (merged_base (2 * i) (baseline_ d) nb (2 * i + 1) = baseline_ d) as Hbase2 by (unfold merged_base; by rewrite decide_False by lia).
  pose proof (c_range _ _ _ _ H _ _ Hm1) as Hrange1. pose proof (c_range _ _ _ _ H _ _ Hm2) as Hrange2. rewrite Hbase1 in Hrange1. rewrite Hbase2 in Hrange2.
  assert (kMaxDelta < Z.max r1 r2 -> Z.of_nat (2 * i) ∈ B) as Hhr.
  { intros Hlt. destruct (Z.max_spec r1 r2) as [[_ E]|[_ E]]; rewrite E in Hlt; [by apply (c_high _ _ _ _ H2 _ _ Hr2)|by apply (c_high _ _ _ _ H _ _ Hm1)]. }
  assert (kMaxDelta < Z.max s1 s2 -> Z.of_nat (2 * i + 1) ∈ B) as Hhs.
  { intros Hlt. destruct (Z.max_spec s1 s2) as [[_ E]|[_ E]]; rewrite E in Hlt; [by apply (c_high _ _ _ _ H2 _ _ Hs2)|by apply (c_high _ _ _ _ H _ _ Hm2)]. }
  pose proof (c_range _ _ _ _ H2 _ _ Hr2) as Hrr2. pose proof (c_range _ _ _ _ H2 _ _ Hs2) as Hrs2. pose proof (lookup_lt_Some _ _ _ Hs1) as Hi.
  destruct (slot_halves _ _ _ _ i r1 s1 H Hm1 Hm2) as (slot1 & Hslot1 & Hh1 & Hlo1). rewrite Hbase1 in Hh1. rewrite Hbase2 in Hlo1.
  destruct (slot_halves _ _ _ _ i r2 s2 H2 Hr2 Hs2) as (slot2 & Hslot2 & Hh2 & Hlo2). pose proof (lookup_lt_Some _ _ _ Hslot1) as Hsl.
  unfold merge_slot. rewrite (vector_is_array _ _ _ Hslot1 : at_index _ _ = _), (ar_deltas _ _ _ _ Har _ _ Hslot2). cbn [rbind].
  replace (2 * Z.of_nat i + 1) with (Z.of_nat (2 * i + 1)) by lia. replace (2 * Z.of_nat i) with (Z.of_nat (2 * i)) by lia.
  destruct (merge_bucket_ok (B := B) (length regs1) d om d2 (fun _ => baseline_ d2) regs2 om2 od ob ov (2 * i) (baseline_ d2) nb slot1 slot2 4 r1 r2)
    as (d1 & -> & Hov1 & Hbits1 & Hb1 & _ & Hdel1); try done; try lia.
  { by rewrite (c_over _ _ _ _ H _ _ Hm1), Hbase1. }
  cbn [rbind].
  destruct (merge_bucket_ok (B := B) (length regs1) d1 (put_over om (Z.of_nat (2 * i)) (Z.max r1 r2 - nb)) d2 (fun _ => baseline_ d2) regs2 om2 od ob ov (2 * i + 1)
              (baseline_ d2) nb slot1 slot2 0 s1 s2) as (d3 & -> & Hov3 & Hbits3 & Hb3 & _ & Hdel3); rewrite ?Hb1; try done; try lia.
  { rewrite put_over_ne by lia. by rewrite (c_over _ _ _ _ H _ _ Hm2), Hbase2. }
  cbn [rbind]. rewrite Hdel3, Hdel1, set_index_ok, Nat2Z.id by lia. cbn [rbind].
  fold (join_nibbles (Z.min kMaxDelta (Z.max r1 r2 - nb)) (Z.min kMaxDelta (Z.max s1 s2 - nb))).
  set (d' := with_deltas d3 _). exists d', (put_over (put_over om (Z.of_nat (2 * i)) (Z.max r1 r2 - nb)) (Z.of_nat (2 * i + 1)) (Z.max s1 s2 - nb)).
  split; [done|]. rewrite Nat.mul_succ_r. replace (2 * i + 2)%nat with (S (S (2 * i))) by lia.
  assert (merged_base (S (S (2 * i))) (baseline_ d) nb (2 * i) = nb) as Hn1 by (unfold merged_base; by rewrite decide_True by lia).
  assert (merged_base (S (S (2 * i))) (baseline_ d) nb (2 * i + 1) = nb) as Hn2 by (unfold merged_base; by rewrite decide_True by lia).
  rewrite (mixed_step _ _ _ s1 s2), (mixed_step _ _ _ r1 r2) by (done || by replace (S (2 * i)) with (2 * i + 1)%nat by lia).
  split; [|cbn; rewrite length_insert; split_and!; congruence].
  pose proof (cells_slot d d' _ (merged_base (S (S (2 * i))) (baseline_ d) nb) _ om i (Z.max r1 r2) (Z.max s1 s2) H) as Hc.
  rewrite Hn1, Hn2, mixed_length in Hc by done. unfold kMaxValue in *.
  replace (<[S (2 * i) := Z.max s1 s2]> _) with (<[(2 * i + 1)%nat := Z.max s1 s2]> (<[(2 * i)%nat := Z.max r1 r2]> (mixed (2 * i) regs1 regs2))) by (f_equal; lia).
  apply Hc; try done; try lia.
  - intros j Hj Hj'. unfold merged_base. destruct (decide (j < S (S (2 * i)))%nat), (decide (j < 2 * i)%nat); try lia; done.
  - cbn. congruence.
  - by apply (same_overflows _ d3).
Qed.

Lemma count_of_slot nb regs1 regs2 k r1 r2 :
  length regs1 = length regs2 -> regs1 !! k = Some r1 -> regs2 !! k = Some r2 ->
  count_of nb (take (S k) (zip_with Z.max regs1 regs2)) = count_of nb (take k (zip_with Z.max regs1 regs2)) + if Z.max r1 r2 =? nb then 1 else 0.
Proof. intros Hl H1 H2. apply count_of_take_S. rewrite lookup_zip_with, H1. cbn. by rewrite H2. Qed.

Lemma merge_slots_ok {B} d2 regs1 regs2 om2 od ob ov nb b n i d om count :
  cells B d (merged_base (2 * i) b nb) (mixed (2 * i) regs1 regs2) om -> baseline_ d = b ->
  cells B d2 (fun _ => baseline_ d2) regs2 om2 -> arrays_of d2 od ob ov -> length regs1 = length regs2 -> (2 * (i + n) = length regs1)%nat ->
  0 <= nb -> (forall j r1 r2, regs1 !! j = Some r1 -> regs2 !! j = Some r2 -> nb <= Z.max r1 r2) ->
  count = count_of nb (take (2 * i) (zip_with Z.max regs1 regs2)) ->
  exists d' om', merge_slots n d (baseline_ d2) nb (Z.of_nat i) count (overflows_ d2) od ob ov = Ok (d', count_of nb (zip_with Z.max regs1 regs2))
    /\ cells B d' (fun _ => nb) (zip_with Z.max regs1 regs2) om' /\ indexBitLength_ d' = indexBitLength_ d.
Proof.
  intros H Hb H2 Har Hl Hn Hnb Hle Hcount. revert i d om count H Hb Hn Hcount. induction n as [|n IH]; intros i d om count H Hb Hn Hcount; cbn [merge_slots].
  - rewrite Nat.add_0_r in Hn. rewrite Hn, mixed_all in H by done. exists d, om. split_and!; [|apply (cells_ext _ (merged_base (length regs1) b nb)); [|done]|done].
    + rewrite Hcount, take_ge by (rewrite length_zip_with; lia). done.
    + intros j Hj. rewrite length_zip_with in Hj. unfold merged_base. by rewrite decide_True by lia.
  - destruct (lookup_lt_is_Some_2 regs1 (2 * i)%nat ltac:(lia)) as [r1 Hr1]. destruct (lookup_lt_is_Some_2 regs1 (2 * i + 1)%nat ltac:(lia)) as [s1 Hs1].
    destruct (lookup_lt_is_Some_2 regs2 (2 * i)%nat ltac:(lia)) as [r2 Hr2]. destruct (lookup_lt_is_Some_2 regs2 (2 * i + 1)%nat ltac:(lia)) as [s2 Hs2].
    pose proof (Hle _ _ _ Hr1 Hr2) as Hle1. pose proof (Hle _ _ _ Hs1 Hs2) as Hle2. rewrite <- Hb in H.
    destruct (merge_slot_ok d om d2 regs1 regs2 om2 od ob ov nb i r1 r2 s1 s2 H H2 Har) as (d1 & om1 & -> & H1 & Hb1 & Hl1 & _); try done.
    cbn [rbind fst snd]. replace (Z.of_nat i + 1) with (Z.of_nat (S i)) by lia. rewrite Hb in H1, Hb1.
    destruct (IH (S i) d1 om1 _ H1 Hb1 ltac:(lia) eq_refl) as (d3 & om3 & Hrun & H3 & Hl3). exists d3, om3.
    replace (count + _) with (count_of nb (take (2 * S i) (zip_with Z.max regs1 regs2))); [split_and!; [done|done|congruence]|].
    rewrite Nat.mul_succ_r. replace (2 * i + 2)%nat with (S (S (2 * i))) by lia. rewrite (count_of_slot _ _ _ _ s1 s2), (count_of_slot _ _ _ _ r1 r2);
      [lia|done|done|done|done|by replace (S (2 * i)) with (2 * i + 1)%nat by lia|by replace (S (2 * i)) with (2 * i + 1)%nat by lia].
Qed.

Lemma merge_arrays_ok {B} d regs1 d2 regs2 om2 od ob ov :
  dense_rep B d regs1 -> cells B d2 (fun _ => baseline_ d2) regs2 om2 -> arrays_of d2 od ob ov -> length regs1 = length regs2 ->
  exists d', merge_arrays d (baseline_ d2) od (overflows_ d2) ob ov = Ok d' /\ dense_rep B d' (zip_with Z.max regs1 regs2)
    /\ indexBitLength_ d' = indexBitLength_ d.
Proof.
  intros [[om H] Hcount Hmin] H2 Har Hl. unfold merge_arrays. cbv zeta. pose proof (c_nibbles _ _ _ _ H) as Hn. rewrite nibbles_length in Hn.
  assert (0 <= Z.max (baseline_ d) (baseline_ d2)) as Hnb.
  { pose proof (cells_bound _ _ _ _ H). destruct (lookup_lt_is_Some_2 regs1 0%nat ltac:(lia)) as [r Hr]. pose proof (c_range _ _ _ _ H _ _ Hr). lia. }
  change 0 with (Z.of_nat 0) at 1.
  destruct (merge_slots_ok (B := B) d2 regs1 regs2 om2 od ob ov (Z.max (baseline_ d) (baseline_ d2)) (baseline_ d) (length (deltas_ d)) 0 d om 0)
    as (d1 & om1 & -> & H1 & Hl1); try done; try lia.
  { intros j r1 r2 Hr1 Hr2. pose proof (c_range _ _ _ _ H _ _ Hr1). pose proof (c_range _ _ _ _ H2 _ _ Hr2). lia. }
  cbn [rbind fst snd].
  destruct (adjustBaseline_ok (B := B) (with_baseline d1 (Z.max (baseline_ d) (baseline_ d2)) (count_of (Z.max (baseline_ d) (baseline_ d2)) (zip_with Z.max regs1 regs2)))
    (zip_with Z.max regs1 regs2) om1) as (d3 & -> & H3 & Hl3); [by apply cells_with_baseline|done|]. exists d3. split_and!; try done. by rewrite Hl3.
Qed.

Lemma dense_mergeWith_ok {B} d1 regs1 d2 regs2 :
  dense_rep B d1 regs1 -> dense_rep B d2 regs2 -> indexBitLength_ d1 = indexBitLength_ d2 ->
  exists d', dense_mergeWith d1 d2 = Ok d' /\ dense_rep B d' (zip_with Z.max regs1 regs2) /\ indexBitLength_ d' = indexBitLength_ d1.
Proof.
  intros H1 [[om2 H2] Hc2 Hm2] Hbits. unfold dense_mergeWith. rewrite (proj2 (Z.eqb_eq _ _) Hbits). cbn [check rbind].
  apply (merge_arrays_ok d1 regs1 d2 regs2 om2); try done; [apply vector_arrays|].
  destruct H1 as [[om1 H1] _ _]. pose proof (c_length _ _ _ _ H1). pose proof (c_length _ _ _ _ H2). rewrite Hbits in *. lia.
Qed.

(** ** A new instance *)

Lemma nibbles_zeros n : nibbles (repeat 0 n) = repeat 0 (2 * n).
Proof. induction n as [|n IH]; [done|]. replace (2 * S n)%nat with (S (S (2 * n))) by lia. cbn [repeat nibbles]. by rewrite IH. Qed.

Lemma count_of_zeros n : count_of 0 (repeat 0 n) = Z.of_nat n.
Proof. unfold count_of. induction n as [|n IH]; [done|]. cbn [repeat]. rewrite filter_cons_True by done. cbn [length]. lia. Qed.

Lemma make_DenseHll_ok {B} L :
  4 <= L <= 16 -> roomy (Z.to_nat (2 ^ L)) B -> exists d, make_DenseHll L = Ok d /\ dense_rep B d (repeat 0 (Z.to_nat (2 ^ L))) /\ indexBitLength_ d = L.
Proof.
  intros HL Hroom. unfold make_DenseHll, initialize. replace (L >=? 4) with true by lia. replace (L <=? 16) with true by lia. cbn [check rbind].
  rewrite Z.shiftl_1_l. eexists. split; [done|]. split; [|done]. assert (2 ^ L = 2 ^ (L - 1) * 2) as Hp.
  { rewrite Z.mul_comm, <- Z.pow_succ_r by lia. f_equal. lia. }
  assert (0 < 2 ^ (L - 1)) as Hpos by (apply Z.pow_pos_nonneg; lia).
  replace (2 ^ L * kBitsPerBucket / 8) with (2 ^ (L - 1)) by (unfold kBitsPerBucket; rewrite Hp; euclidean).
  assert (forall i r, repeat 0 (Z.to_nat (2 ^ L)) !! i = Some r -> r = 0) as Hz.
  { intros i r Hr. by apply list_elem_of_lookup_2, list_elem_of_In, repeat_spec in Hr. }
  assert (nibbles (repeat 0 (Z.to_nat (2 ^ (L - 1)))) = repeat 0 (Z.to_nat (2 ^ L))) as Hnib.
  { rewrite nibbles_zeros. f_equal. lia. }
  unfold vector_resize. cbn [uninitialized deltas_ length app]. rewrite take_nil, Nat.sub_0_r. cbn [app].
  assert (count_of 0 (repeat 0 (Z.to_nat (2 ^ L))) = 2 ^ L) as Hcount.
  { rewrite count_of_zeros. lia. }
  split; cbn [baseline_ baselineCount_ uninitialized]; [|by rewrite Hcount|lia]. exists ∅.
  split; cbn; rewrite ?Hnib, ?repeat_length; try done; try lia.
  - apply Forall_forall. intros x Hx. apply list_elem_of_In, repeat_spec in Hx. subst x. unfold int8_ok. lia.
  - intros i r Hr. apply Hz in Hr. unfold kMaxDelta. lia.
  - intros i r Hr. apply Hz in Hr. unfold kMaxValue. lia.
  - intros i r Hr. rewrite (Hz i r Hr) in Hr |- *. done.
  - intros i r Hr. by rewrite (Hz i r Hr).
Qed.

Lemma getValue_ok {B} d regs i r : dense_rep B d regs -> regs !! i = Some r -> getValue (view_of d) (Z.of_nat i) = Ok r.
Proof.
  intros [[om H] _ _] Hr. pose proof (c_range _ _ _ _ H i r Hr) as Hrange. pose proof (getDelta_ok _ _ _ _ _ _ H Hr) as Hd.
  pose proof (getOverflow_ok _ _ _ _ _ _ H Hr) as Ho. unfold getDelta in Hd. unfold getOverflow in Ho. unfold getValue, view_of.
  cbn [view_deltas view_overflows view_overflowBuckets view_overflowValues view_baseline]. rewrite Hd, Ho. cbn [rbind]. unfold kMaxDelta, kMaxValue in *.
  destruct (Z.min 15 (r - baseline_ d) =? 15) eqn:E; cbn [rbind]; rewrite ?(wrap_signed_id 8) by (rewrite ?(wrap_signed_id 8) by lia; lia);
    rewrite ?(wrap_signed_id 8) by lia; f_equal; lia.
Qed.

(** * What a hash does *)

(** The zeros before the first one bit of a number of [w] bits. *)
Definition leading_zeros (w t : Z) : Z := if t =? 0 then w else w - 1 - Z.log2 t.

Definition hash_index (L h : Z) : Z := h / 2 ^ (64 - L).
Definition hash_value (L h : Z) : Z := leading_zeros (64 - L) (h mod 2 ^ (64 - L)) + 1.

Lemma log2_shifted t n y : 0 < t -> 0 <= n -> 0 <= y < 2 ^ n -> Z.log2 (t * 2 ^ n + y) = Z.log2 t + n.
Proof.
  intros Ht Hn Hy. pose proof (Z.log2_spec t Ht) as [Hlo Hhi]. pose proof (Z.log2_nonneg t) as Hnn. assert (0 < 2 ^ n) as Hp by (apply Z.pow_pos_nonneg; lia).
  apply Z.log2_unique; [lia|]. rewrite Z.pow_add_r by lia. replace (Z.succ (Z.log2 t + n)) with (Z.succ (Z.log2 t) + n) by lia.
  rewrite Z.pow_add_r by lia. split; [nia|]. assert (t + 1 <= 2 ^ Z.succ (Z.log2 t)) by lia. nia.
Qed.

Lemma leading_zeros_range w t : 0 <= w -> 0 <= t < 2 ^ w -> 0 <= leading_zeros w t <= w.
Proof.
  intros Hw Ht. unfold leading_zeros. destruct (t =? 0) eqn:E; [lia|]. pose proof (Z.log2_nonneg t). assert (Z.log2 t < w) by (apply Z.log2_lt_pow2; lia). lia.
Qed.

Lemma numberOfLeadingZeros_ok h L :
  0 <= h < 2 ^ 64 -> 1 <= L <= 32 -> numberOfLeadingZeros h L = leading_zeros (64 - L) (h mod 2 ^ (64 - L)).
Proof.
  intros Hh HL. unfold numberOfLeadingZeros, builtin_clzl, leading_zeros. rewrite Z.shiftl_1_l. unfold wrap_unsigned. rewrite Z.shiftl_mul_pow2 by lia.
  assert (2 ^ 64 = 2 ^ (64 - L) * 2 ^ L) as Hp by (rewrite <- Z.pow_add_r by lia; f_equal; lia).
  assert (0 < 2 ^ (64 - L)) as Hp1 by (apply Z.pow_pos_nonneg; lia). assert (0 < 2 ^ L) as Hp2 by (apply Z.pow_pos_nonneg; lia).
  rewrite Hp, Z.mul_mod_distr_r by lia. set (t := h mod 2 ^ (64 - L)). pose proof (Z.mod_pos_bound h (2 ^ (64 - L)) Hp1) as Ht. fold t in Ht.
  assert (0 <= 2 ^ (L - 1) < 2 ^ L) as Hy by (split; [apply Z.pow_nonneg; lia|apply Z.pow_lt_mono_r; lia]).
  rewrite <- Z.shiftl_mul_pow2, lor_shiftl by lia. destruct (t =? 0) eqn:E.
  - apply Z.eqb_eq in E. rewrite E, Z.mul_0_l, Z.add_0_l, Z.log2_pow2 by lia. lia.
  - rewrite log2_shifted by lia. lia.
Qed.

Lemma computeIndex_ok h L : 0 <= h < 2 ^ 64 -> 1 <= L <= 32 -> computeIndex h L = hash_index L h /\ 0 <= hash_index L h < 2 ^ L.
Proof.
  intros Hh HL. unfold computeIndex, hash_index. rewrite Z.shiftr_div_pow2 by lia. assert (0 < 2 ^ (64 - L)) as Hp by (apply Z.pow_pos_nonneg; lia).
  assert (0 <= h / 2 ^ (64 - L) < 2 ^ L) as Hr.
  { split; [apply Z.div_pos; lia|]. apply Z.div_lt_upper_bound; [lia|]. rewrite <- Z.pow_add_r by lia. replace (64 - L + L) with 64 by lia. lia. }
  split; [|done]. assert (2 ^ L <= 2 ^ 32) by (apply Z.pow_le_mono_r; lia). apply wrap_unsigned_id; lia.
Qed.

Lemma hash_value_range h L : 1 <= L <= 32 -> 1 <= hash_value L h <= 65 - L.
Proof.
  intros HL. unfold hash_value. pose proof (leading_zeros_range (64 - L) (h mod 2 ^ (64 - L)) ltac:(lia)
    ltac:(apply Z.mod_pos_bound, Z.pow_pos_nonneg; lia)). lia.
Qed.

(** A register holds the largest value of its hashes. *)
Fixpoint register (L : Z) (hashes : list Z) (i : Z) : Z :=
  match hashes with
  | [] => 0
  | h :: hashes => if hash_index L h =? i then Z.max (register L hashes i) (hash_value L h) else register L hashes i
  end.

Definition registers (L : Z) (hashes : list Z) : list Z := map (register L hashes) (seqZ 0 (2 ^ L)).

Lemma registers_lookup L hashes i : (i < Z.to_nat (2 ^ L))%nat -> registers L hashes !! i = Some (register L hashes (Z.of_nat i)).
Proof. intros Hi. unfold registers. apply list_lookup_fmap_Some_2 with (x := Z.of_nat i). rewrite lookup_seqZ_lt by lia. done. Qed.

Lemma registers_length L hashes : 0 <= L -> length (registers L hashes) = Z.to_nat (2 ^ L).
Proof. intros HL. unfold registers. rewrite length_map, length_seqZ. done. Qed.

Lemma register_nonneg L hashes i : 0 <= register L hashes i.
Proof. induction hashes as [|h hashes IH]; cbn; [lia|]. destruct (_ =? i); lia. Qed.

Lemma registers_nil L : registers L [] = repeat 0 (Z.to_nat (2 ^ L)).
Proof.
  unfold registers. cbn [register]. replace (Z.to_nat (2 ^ L)) with (length (seqZ 0 (2 ^ L))) by (rewrite length_seqZ; done).
  induction (seqZ 0 (2 ^ L)) as [|a l IH]; [done|]. cbn. by rewrite IH.
Qed.

Lemma registers_cons L h hashes :
  0 <= L -> 0 <= hash_index L h ->
  registers L (h :: hashes)
  = <[Z.to_nat (hash_index L h) := Z.max (register L hashes (hash_index L h)) (hash_value L h)]> (registers L hashes).
Proof.
  intros HL Hi. apply list_eq_same_length with (Z.to_nat (2 ^ L)); [rewrite length_insert; by apply registers_length|by apply registers_length|].
  intros j x y Hj Hx Hy. rewrite registers_lookup in Hx by done. injection Hx as <-. destruct (decide (j = Z.to_nat (hash_index L h))) as [->|Hne].
  - rewrite list_lookup_insert_eq in Hy by (rewrite registers_length; lia). injection Hy as <-. cbn. by rewrite Z2Nat.id, Z.eqb_refl by lia.
  - rewrite list_lookup_insert_ne, registers_lookup in Hy by done. injection Hy as <-. cbn.
    by rewrite (proj2 (Z.eqb_neq (hash_index L h) (Z.of_nat j))) by lia.
Qed.

Lemma register_app L hs hs' i : register L (hs ++ hs') i = Z.max (register L hs i) (register L hs' i).
Proof.
  induction hs as [|h hs IH]; cbn [register app]; [pose proof (register_nonneg L hs' i); lia|]. rewrite IH. destruct (_ =? i); lia.
Qed.

Lemma registers_app L hs hs' : registers L (hs ++ hs') = zip_with Z.max (registers L hs) (registers L hs').
Proof.
  unfold registers. induction (seqZ 0 (2 ^ L)) as [|i l IH]; [done|]. cbn. by rewrite register_app, IH.
Qed.

Definition hash_ok (h : Z) : Prop := 0 <= h < 2 ^ 64.

(** A hash with a large value is in a bucket of [B]. *)
Definition fits (B : list Z) (L h : Z) : Prop := hash_ok h /\ (kMaxDelta < hash_value L h -> hash_index L h ∈ B).

Lemma dense_insertHash_ok {B} d L hashes h :
  dense_rep B d (registers L hashes) -> indexBitLength_ d = L -> fits B L h ->
  exists d', dense_insertHash d h = Ok d' /\ dense_rep B d' (registers L (h :: hashes)) /\ indexBitLength_ d' = L.
Proof.
  intros H HL [Hh Hhigh]. assert (4 <= L <= 16) as Hbits by (destruct H as [[om Hc] _ _]; rewrite <- HL; apply Hc).
  destruct (computeIndex_ok h L Hh ltac:(lia)) as [Hi Hrange]. pose proof (hash_value_range h L ltac:(lia)) as Hv.
  assert (2 ^ L <= 2 ^ 16) as Hpow by (apply Z.pow_le_mono_r; lia).
  unfold dense_insertHash. cbv zeta. rewrite HL, Hi, numberOfLeadingZeros_ok by (done || lia). fold (hash_value L h).
  rewrite !wrap_signed_id by lia. rewrite registers_cons by lia.
  assert (registers L hashes !! Z.to_nat (hash_index L h) = Some (register L hashes (hash_index L h))) as Hr.
  { rewrite registers_lookup by lia. by rewrite Z2Nat.id by lia. }
  destruct (dense_insert_ok d _ _ _ (hash_value L h) H Hr) as (d' & Hd' & Hrep & Hl'); [unfold kMaxValue; lia|by rewrite Z2Nat.id by lia|].
  rewrite Z2Nat.id in Hd' by lia. exists d'. split_and!; [done|done|congruence].
Qed.
