(* ===== verification/DenseHllSerial.v ===== *)
(** The serialized form of the dense layout of HyperLogLog: it depends on the registers alone, is read back, and is merged
    without being read. *)

From S2P Require Import Prelude Text DenseHll.

(** * The order of the overflows *)

Definition increasing (n : nat) (bs : list Z) : Prop :=
  forall j k a b, (j < k < n)%nat -> bs !! j = Some a -> bs !! k = Some b -> a < b.

Lemma insertion_point_ok m bs bucket :
  (m <= length bs)%nat ->
  exists p, (p <= m)%nat /\ insertion_point m (Z.of_nat m - 1) bucket bs = Ok (Z.of_nat p - 1)
    /\ (forall k a, (p <= k < m)%nat -> bs !! k = Some a -> bucket < a) /\ (forall k a, S k = p -> bs !! k = Some a -> a <= bucket).
Proof.
  induction m as [|m IH]; intros Hm.
  - exists 0%nat. split_and!; try done; lia.
  - destruct (lookup_lt_is_Some_2 bs m ltac:(lia)) as [b Hb]. cbn [insertion_point]. replace (Z.of_nat (S m) - 1) with (Z.of_nat m) by lia.
    rewrite (vector_is_array _ _ _ Hb : at_index _ _ = _). cbn [rbind]. destruct (b >? bucket) eqn:E.
    + destruct (IH ltac:(lia)) as (p & Hp & -> & Hgt & Hle). exists p. split_and!; try done; [lia|].
      intros k a Hk Ha. destruct (decide (k = m)) as [->|]; [rewrite Hb in Ha; injection Ha as <-; lia|apply (Hgt k); [lia|done]].
    + exists (S m). split_and!; [lia|f_equal; lia|lia|]. intros k a [= ->] Ha. rewrite Hb in Ha. injection Ha as <-. lia.
Qed.

(** Where the entries come from when the entry [i] moves to [p]. *)
Definition moved_from (p i k : nat) : nat := if decide (k = p) then i else if decide (p < k <= i)%nat then (k - 1)%nat else k.

Lemma shift_in_lookup v p i x k :
  (p <= i)%nat -> (i < length v)%nat -> v !! i = Some x -> shift_in v (Z.of_nat p) (Z.of_nat i) x !! k = v !! moved_from p i k.
Proof.
  intros Hp Hi Hx. unfold shift_in, moved_from. replace (Z.to_nat (Z.of_nat i - Z.of_nat p)) with (i - p)%nat by lia. rewrite !Nat2Z.id.
  assert (length (take p v) = p) as Hl by (rewrite length_take; lia).
  destruct (decide (k = p)) as [->|Hkp]; [rewrite lookup_app_r, Hl, Nat.sub_diag by lia; done|].
  destruct (decide (k < p)%nat) as [Hlt|Hge].
  - rewrite decide_False by lia. rewrite lookup_app_l, lookup_take_lt by lia. done.
  - rewrite lookup_app_r, Hl by lia. replace (k - p)%nat with (S (k - p - 1)) by lia. cbn [lookup list_lookup].
    assert (length (take (i - p) (drop p v)) = (i - p)%nat) as Hl2 by (rewrite length_take, length_drop; lia).
    destruct (decide (p < k <= i)%nat) as [Hin|Hout].
    + rewrite (lookup_app_l (take (i - p) (drop p v))), lookup_take_lt, lookup_drop by lia. f_equal. lia.
    + rewrite (lookup_app_r (take (i - p) (drop p v))), lookup_drop, Hl2 by lia. f_equal. lia.
Qed.

Lemma shift_in_length v p i x : (p <= i)%nat -> (i < length v)%nat -> length (shift_in v (Z.of_nat p) (Z.of_nat i) x) = length v.
Proof.
  intros Hp Hi. unfold shift_in. replace (Z.to_nat (Z.of_nat i - Z.of_nat p)) with (i - p)%nat by lia. rewrite !Nat2Z.id.
  rewrite length_app. cbn [length]. rewrite length_app, !length_take, !length_drop. lia.
Qed.

Lemma shift_in_same v i x : v !! i = Some x -> shift_in v (Z.of_nat i) (Z.of_nat i) x = v.
Proof.
  intros Hx. pose proof (lookup_lt_Some _ _ _ Hx). apply list_eq. intros k. rewrite shift_in_lookup by (done || lia). f_equal. unfold moved_from.
  destruct (decide (k = i)) as [->|]; [done|]. by rewrite decide_False by lia.
Qed.

Lemma moved_from_bound p i n k : (p <= i < n)%nat -> (k < n)%nat -> (moved_from p i k < n)%nat.
Proof. intros Hp Hk. unfold moved_from. repeat case_decide; lia. Qed.

Lemma moved_from_inj p i j k : (p <= i)%nat -> moved_from p i j = moved_from p i k -> j = k.
Proof. intros Hp. unfold moved_from. repeat case_decide; lia. Qed.

Lemma moved_from_onto p i n k : (p <= i < n)%nat -> (k < n)%nat -> exists j, (j < n)%nat /\ moved_from p i j = k.
Proof.
  intros Hp Hk. destruct (decide (k = i)) as [->|Hki]; [exists p; unfold moved_from; case_decide; [split; lia|lia]|].
  destruct (decide (p <= k < i)%nat); [exists (S k)|exists k]; unfold moved_from; repeat case_decide; split; lia.
Qed.

(** The entries are the same in another order. *)
Lemma overflow_moved n bs vs bs' vs' om p i :
  overflow_rep n bs vs om -> (p <= i < n)%nat -> length bs' = length bs -> length vs' = length vs ->
  (forall k, bs' !! k = bs !! moved_from p i k) -> (forall k, vs' !! k = vs !! moved_from p i k) -> overflow_rep n bs' vs' om.
Proof.
  intros H Hp Hlb Hlv Hbs Hvs. pose proof (or_length _ _ _ _ H). pose proof (or_bound _ _ _ _ H). split; [lia|lia|..].
  - intros j b v Hj Hb Hv. rewrite Hbs in Hb. rewrite Hvs in Hv. apply (or_values _ _ _ _ H (moved_from p i j)); try done. by apply moved_from_bound.
  - intros j k b Hj Hk Hb Hb'. rewrite Hbs in Hb, Hb'. apply (moved_from_inj p i); [lia|].
    apply (or_distinct _ _ _ _ H _ _ b); try done; by apply moved_from_bound.
  - intros b v Hb. destruct (or_complete _ _ _ _ H b v Hb) as (k & Hk & Hbk). destruct (moved_from_onto p i n k Hp Hk) as (j & Hj & Hjk).
    exists j. split; [done|]. by rewrite Hbs, Hjk.
Qed.

Lemma increasing_moved bs bs' p i n bucket :
  increasing i bs -> (p <= i < n)%nat -> bs !! i = Some bucket -> (forall k, bs' !! k = bs !! moved_from p i k) ->
  (forall j k b, (j < n)%nat -> (k < n)%nat -> bs !! j = Some b -> bs !! k = Some b -> j = k) ->
  (forall k a, (p <= k < i)%nat -> bs !! k = Some a -> bucket < a) -> (forall k a, S k = p -> bs !! k = Some a -> a <= bucket) ->
  increasing (S i) bs'.
Proof.
  intros Hinc Hp Hb Hbs Hdist Hgt Hle j k a c Hjk Ha Hc. rewrite Hbs in Ha, Hc. unfold moved_from in Ha, Hc.
  assert (forall m x, (m < p)%nat -> bs !! m = Some x -> x < bucket) as Hlow.
  { intros m x Hm Hx. destruct p as [|q]; [lia|]. destruct (lookup_lt_is_Some_2 bs q) as [y Hy]; [apply lookup_lt_Some in Hb; lia|].
    pose proof (Hle q y eq_refl Hy) as Hyb. assert (y <> bucket) by (intros ->; pose proof (Hdist q i bucket ltac:(lia) ltac:(lia) Hy Hb); lia).
    destruct (decide (m = q)) as [->|]; [rewrite Hx in Hy; injection Hy as <-; lia|]. pose proof (Hinc m q x y ltac:(lia) Hx Hy). lia. }
  repeat case_decide; try lia; subst; try (rewrite Hb in Ha; injection Ha as <-); try (rewrite Hb in Hc; injection Hc as <-);
    first [eapply Hgt; [|exact Hc]; lia|eapply Hlow; [|exact Ha]; lia|eapply Hinc; [|exact Ha|exact Hc]; lia].
Qed.

Lemma sort_from_ok total m i bs vs om :
  overflow_rep total bs vs om -> increasing i bs -> (i + m = total)%nat ->
  exists bs' vs', sort_from m (Z.of_nat i) bs vs = Ok (bs', vs') /\ overflow_rep total bs' vs' om /\ increasing total bs' /\ length bs' = length bs.
Proof.
  revert i bs vs. induction m as [|m IH]; intros i bs vs H Hinc Him; cbn [sort_from].
  - exists bs, vs. rewrite Nat.add_0_r in Him. by subst i.
  - pose proof (or_length _ _ _ _ H) as Hl. pose proof (or_bound _ _ _ _ H) as Hb.
    destruct (lookup_lt_is_Some_2 bs i ltac:(lia)) as [b Hbi]. destruct (lookup_lt_is_Some_2 vs i ltac:(lia)) as [v Hvi].
    destruct (insertion_point_ok i bs b ltac:(lia)) as (p & Hp & Hpoint & Hgt & Hle).
    rewrite (vector_is_array _ _ _ Hbi : at_index _ _ = _). cbn [rbind]. rewrite Nat2Z.id, Hpoint. cbn [rbind].
    assert ((if Z.of_nat p - 1 + 1 <? Z.of_nat i
             then let! value := at_index vs (Z.of_nat i) in Ok (shift_in bs (Z.of_nat p - 1 + 1) (Z.of_nat i) b, shift_in vs (Z.of_nat p - 1 + 1) (Z.of_nat i) value)
             else Ok (bs, vs)) = Ok (shift_in bs (Z.of_nat p) (Z.of_nat i) b, shift_in vs (Z.of_nat p) (Z.of_nat i) v)) as ->.
    { replace (Z.of_nat p - 1 + 1) with (Z.of_nat p) by lia. rewrite (vector_is_array _ _ _ Hvi : at_index _ _ = _). cbn [rbind].
      destruct (Z.of_nat p <? Z.of_nat i) eqn:E; [done|]. assert (p = i) as -> by lia. by rewrite !shift_in_same. }
    cbn [rbind fst snd]. replace (Z.of_nat i + 1) with (Z.of_nat (S i)) by lia.
    assert (forall k, shift_in bs (Z.of_nat p) (Z.of_nat i) b !! k = bs !! moved_from p i k) as Hbs by (intros k; apply shift_in_lookup; [done|lia|done]).
    assert (forall k, shift_in vs (Z.of_nat p) (Z.of_nat i) v !! k = vs !! moved_from p i k) as Hvs by (intros k; apply shift_in_lookup; [done|lia|done]).
    destruct (IH (S i) (shift_in bs (Z.of_nat p) (Z.of_nat i) b) (shift_in vs (Z.of_nat p) (Z.of_nat i) v)) as (bs' & vs' & Hrun & Hr & Hi' & Hlen).
    + apply (overflow_moved _ bs vs _ _ om p i); try done; try lia; apply shift_in_length; lia.
    + apply (increasing_moved bs _ p i total b); try done; [lia|]. apply (or_distinct _ _ _ _ H).
    + lia.
    + exists bs', vs'. split_and!; try done. rewrite Hlen. apply shift_in_length; lia.
Qed.

(** Only the order of the overflows is new. *)
Lemma sortOverflows_ok B d om :
  overflows_ok B d om ->
  exists d', sortOverflows d = Ok d' /\ same_deltas d d' /\ overflows_ d' = overflows_ d /\ overflows_ok B d' om
    /\ increasing (Z.to_nat (overflows_ d)) (overflowBuckets_ d').
Proof.
  intros H. pose proof (ov_rep _ _ _ H) as Hr. pose proof (ov_count _ _ _ H) as Hc. unfold sortOverflows.
  assert (exists bs vs, sort_from (Z.to_nat (overflows_ d - 1)) 1 (overflowBuckets_ d) (overflowValues_ d) = Ok (bs, vs)
            /\ overflow_rep (Z.to_nat (overflows_ d)) bs vs om /\ increasing (Z.to_nat (overflows_ d)) bs) as (bs & vs & -> & Hr' & Hinc).
  { destruct (decide (overflows_ d = 0)) as [E|E].
    - rewrite E. cbn. exists (overflowBuckets_ d), (overflowValues_ d). rewrite E in Hr. split_and!; try done. intros j k a b Hjk. lia.
    - change 1 with (Z.of_nat 1) at 2. destruct (sort_from_ok (Z.to_nat (overflows_ d)) (Z.to_nat (overflows_ d - 1)) 1 _ _ om Hr) as (bs & vs & Hrun & Hr' & Hi & _).
      + intros j k a b Hjk. lia.
      + lia.
      + by exists bs, vs. }
  cbn [rbind fst snd]. eexists. split; [done|]. split_and!; try done. split; [done|done|apply H].
Qed.

Lemma cells_same {B} d d' base regs om :
  cells B d base regs om -> same_deltas d d' -> overflows_ok B d' om -> cells B d' base regs om.
Proof.
  intros H (Hbits & _ & _ & Hdeltas) Hov. split; rewrite ?Hbits, ?Hdeltas; try done; try apply H.
Qed.

Lemma dense_rep_same {B} d d' regs om :
  dense_rep B d regs -> cells B d (fun _ => baseline_ d) regs om -> same_deltas d d' -> overflows_ok B d' om -> dense_rep B d' regs.
Proof.
  intros [_ Hcount Hmin] H Hs Hov. pose proof Hs as (_ & Hb & Hc & _). split; rewrite ?Hb, ?Hc; try done. exists om. by apply (cells_same d).
Qed.

(** * A normal form *)

Lemma dense_baseline {B} d regs : dense_rep B d regs -> (exists i, regs !! i = Some (baseline_ d)) /\ forall i r, regs !! i = Some r -> baseline_ d <= r.
Proof.
  intros [[om H] Hcount Hmin]. split; [|intros i r Hr; apply (c_range _ _ _ _ H _ _ Hr)]. rewrite Hcount in Hmin. unfold count_of in Hmin.
  destruct (filter (fun r => r = baseline_ d) regs) as [|x l] eqn:E; [cbn in Hmin; lia|].
  assert (x ∈ filter (fun r => r = baseline_ d) regs) as Hx by (rewrite E; by left). apply list_elem_of_filter in Hx as [-> Hx].
  by apply list_elem_of_lookup_1 in Hx.
Qed.

Lemma baseline_unique {B B'} d1 d2 regs : dense_rep B d1 regs -> dense_rep B' d2 regs -> baseline_ d1 = baseline_ d2.
Proof.
  intros [[i Hi] Hle1]%dense_baseline [[j Hj] Hle2]%dense_baseline. pose proof (Hle1 _ _ Hj). pose proof (Hle2 _ _ Hi). lia.
Qed.

Lemma nibbles_inj bs bs' : Forall int8_ok bs -> Forall int8_ok bs' -> nibbles bs = nibbles bs' -> bs = bs'.
Proof.
  revert bs'. induction bs as [|b bs IH]; intros [|b' bs'] H H' E; try done. cbn [nibbles] in E. injection E as E1 E2 E3.
  apply Forall_cons in H as [Hb H]. apply Forall_cons in H' as [Hb' H']. f_equal; [|by apply IH]. rewrite !land_15 in E1, E2.
  rewrite !Z.shiftr_div_pow2 in E1 by lia. change (2 ^ 4) with 16 in *. unfold int8_ok in *. euclidean.
Qed.

Lemma increasing_sorted n bs : increasing n bs -> StronglySorted Z.lt (take n bs).
Proof.
  revert bs. induction n as [|n IH]; intros bs Hi; [constructor|]. destruct bs as [|a bs]; cbn [take]; [constructor|]. constructor.
  - apply IH. intros j k x y Hjk Hx Hy. by apply (Hi (S j) (S k)); [lia|..].
  - apply Forall_forall. intros x [k [Hk Hlt]%lookup_take_Some]%list_elem_of_lookup_1. by apply (Hi 0%nat (S k)); [lia|..].
Qed.

(** The buckets of a list of overflows are the keys of its map. *)
Lemma overflow_keys n bs vs om b : overflow_rep n bs vs om -> b ∈ take n bs <-> exists v, om !! b = Some v.
Proof.
  intros H. pose proof (or_length _ _ _ _ H) as Hl. pose proof (or_bound _ _ _ _ H) as Hb. split.
  - intros [k [Hk Hlt]%lookup_take_Some]%list_elem_of_lookup_1. destruct (lookup_lt_is_Some_2 vs k ltac:(lia)) as [v Hv].
    exists v. by apply (or_values _ _ _ _ H k).
  - intros [v Hv]. destruct (or_complete _ _ _ _ H b v Hv) as (j & Hj & Hbj). apply (list_elem_of_lookup_2 _ j). by rewrite lookup_take_lt.
Qed.

(** Two lists of overflows in increasing order for the same registers are the same. *)
Lemma overflow_unique n n' bs vs bs' vs' om :
  overflow_rep n bs vs om -> overflow_rep n' bs' vs' om -> increasing n bs -> increasing n' bs' ->
  n = n' /\ take n bs = take n' bs' /\ take n vs = take n' vs'.
Proof.
  intros H H' Hi Hi'. pose proof (or_length _ _ _ _ H) as Hl. pose proof (or_bound _ _ _ _ H) as Hb. pose proof (or_length _ _ _ _ H') as Hl'. pose proof (or_bound _ _ _ _ H') as Hb'.
  assert (take n bs = take n' bs') as Hbs.
  { apply (sorted_unique Z.lt); [lia|by apply increasing_sorted..|]. intros b. rewrite (overflow_keys _ _ _ _ b H), (overflow_keys _ _ _ _ b H'). done. }
  assert (n = n') as <- by (apply (f_equal length) in Hbs; rewrite !length_take in Hbs; lia). split_and!; try done.
  apply list_eq. intros k. destruct (decide (k < n)%nat) as [Hk|Hk]; [|by rewrite !lookup_ge_None_2 by (rewrite length_take; lia)].
  rewrite !lookup_take_lt by done. apply (f_equal (lookup k)) in Hbs. rewrite !lookup_take_lt in Hbs by done.
  destruct (lookup_lt_is_Some_2 bs k ltac:(lia)) as [b Hbk]. destruct (lookup_lt_is_Some_2 vs k ltac:(lia)) as [v Hv]. destruct (lookup_lt_is_Some_2 vs' k ltac:(lia)) as [v' Hv'].
  rewrite Hbk in Hbs. pose proof (or_values _ _ _ _ H k b v Hk Hbk Hv). pose proof (or_values _ _ _ _ H' k b v' Hk ltac:(done) Hv'). congruence.
Qed.

Lemma outside N B b : roomy N B -> ~ (0 <= b < Z.of_nat N) -> b ∉ B.
Proof. intros [HB _] Hb Hin. rewrite Forall_forall in HB. by apply Hb, HB. Qed.

(** The map of overflows is the one of the registers. *)
Lemma cells_overflows_unique {B B'} d1 d2 base regs om1 om2 : cells B d1 base regs om1 -> cells B' d2 base regs om2 -> om1 = om2.
Proof.
  intros H1 H2. apply map_eq. intros b. destruct (decide (0 <= b < Z.of_nat (length regs))) as [Hb|Hb].
  - destruct (lookup_lt_is_Some_2 regs (Z.to_nat b) ltac:(lia)) as [r Hr].
    pose proof (c_over _ _ _ _ H1 _ _ Hr) as E1. pose proof (c_over _ _ _ _ H2 _ _ Hr) as E2. rewrite Z2Nat.id in E1, E2 by lia. congruence.
  - destruct (om1 !! b) as [v|] eqn:E1; [destruct (ov_range _ _ _ (c_overflows _ _ _ _ H1) _ _ E1) as [Hin _]; by destruct (outside _ _ _ (c_room _ _ _ _ H1) Hb)|].
    destruct (om2 !! b) as [v|] eqn:E2; [destruct (ov_range _ _ _ (c_overflows _ _ _ _ H2) _ _ E2) as [Hin _]; by destruct (outside _ _ _ (c_room _ _ _ _ H2) Hb)|done].
Qed.

(** * The bytes *)

Definition entries_of (d : DenseHll) : nat := Z.to_nat (overflows_ d).

Definition state_bytes (d : DenseHll) : list Z :=
  [kPrestoDenseV2; indexBitLength_ d mod 256; baseline_ d mod 256] ++ map (fun b => b mod 256) (deltas_ d) ++ le_bytes 2 (overflows_ d)
  ++ flat_map (le_bytes 2) (take (entries_of d) (overflowBuckets_ d)) ++ map (fun b => b mod 256) (take (entries_of d) (overflowValues_ d)).

Lemma canonical_bytes {B B'} d1 d2 regs :
  dense_rep B d1 regs -> dense_rep B' d2 regs -> indexBitLength_ d1 = indexBitLength_ d2 ->
  increasing (entries_of d1) (overflowBuckets_ d1) -> increasing (entries_of d2) (overflowBuckets_ d2) -> state_bytes d1 = state_bytes d2.
Proof.
  intros H1 H2 HL Hi1 Hi2. pose proof (baseline_unique d1 d2 regs H1 H2) as Hb. destruct H1 as [[om1 H1] _ _], H2 as [[om2 H2] _ _]. rewrite <- Hb in H2.
  pose proof (cells_overflows_unique _ _ _ _ _ _ H1 H2) as <-.
  destruct (overflow_unique _ _ _ _ _ _ _ (ov_rep _ _ _ (c_overflows _ _ _ _ H1)) (ov_rep _ _ _ (c_overflows _ _ _ _ H2)) Hi1 Hi2) as (Hn & Hbs & Hvs).
  assert (deltas_ d1 = deltas_ d2) as Hd.
  { apply nibbles_inj; [apply H1|apply H2|]. apply list_eq_same_length with (length regs); [apply H2|apply H1|]. intros j x y Hj Hx Hy.
    destruct (lookup_lt_is_Some_2 regs j Hj) as [r Hr]. rewrite (c_delta _ _ _ _ H1 j r Hr) in Hx. rewrite (c_delta _ _ _ _ H2 j r Hr) in Hy. congruence. }
  assert (overflows_ d1 = overflows_ d2) as Ho.
  { pose proof (ov_count _ _ _ (c_overflows _ _ _ _ H1)). pose proof (ov_count _ _ _ (c_overflows _ _ _ _ H2)). lia. }
  unfold state_bytes, entries_of. by rewrite Hbs, Hvs, HL, Hb, Hd, Ho.
Qed.

Lemma copy_array_ok a l n i : is_array a l -> (i + n <= length l)%nat -> copy_array n (Z.of_nat i) a = Ok (take n (drop i l)).
Proof.
  intros Ha. revert i. induction n as [|n IH]; intros i Hi; [done|]. destruct (lookup_lt_is_Some_2 l i ltac:(lia)) as [x Hx].
  cbn [copy_array]. rewrite (Ha _ _ Hx). cbn [rbind]. replace (Z.of_nat i + 1) with (Z.of_nat (S i)) by lia. rewrite IH by lia. cbn [rbind].
  by rewrite (drop_S l x i Hx).
Qed.

Lemma copy_prefix a l n : is_array a l -> (n <= length l)%nat -> copy_array n 0 a = Ok (take n l).
Proof. intros Ha Hn. change 0 with (Z.of_nat 0). rewrite (copy_array_ok a l) by done. done. Qed.

Lemma le_bytes_length n v : length (le_bytes n v) = n.
Proof. revert v. induction n as [|n IH]; intros v; [done|]. cbn. by rewrite IH. Qed.

Lemma write_state_ok B d om : overflows_ok B d om -> overwrites (write_state d) (state_bytes d).
Proof.
  intros H. pose proof (ov_rep _ _ _ H) as Hr. pose proof (ov_count _ _ _ H) as Hc. pose proof (or_length _ _ _ _ Hr) as Hl. pose proof (or_bound _ _ _ _ Hr) as Hb.
  unfold write_state, state_bytes, appendOne, entries_of. cbn [app].
  change (kPrestoDenseV2 :: indexBitLength_ d mod 256 :: baseline_ d mod 256 :: ?l) with ([kPrestoDenseV2] ++ [indexBitLength_ d mod 256] ++ [baseline_ d mod 256] ++ l).
  apply overwrites_bind; [apply (put_overwrites [3])|]. apply overwrites_bind; [apply put_overwrites|]. apply overwrites_bind; [apply put_overwrites|].
  apply overwrites_bind; [apply put_overwrites|]. apply overwrites_bind; [apply put_overwrites|].
  destruct (overflows_ d =? 0) eqn:E.
  - apply Z.eqb_eq in E. rewrite E. change (Z.to_nat 0) with 0%nat. rewrite !take_0. intros before hole after Hh. destruct hole; [|done].
    cbn [flat_map map app]. by rewrite app_nil_r.
  - rewrite (copy_prefix _ (overflowBuckets_ d)), (copy_prefix _ (overflowValues_ d)) by (apply vector_is_array || lia).
    cbn [rbind]. apply overwrites_bind; apply put_overwrites.
Qed.

(** ** Reading *)

Lemma at_index_middle {B} (pre post : list B) x : at_index (pre ++ x :: post) (Z.of_nat (length pre)) = Ok x.
Proof. apply at_index_ok; [lia|]. by rewrite Nat2Z.id, lookup_app_r, Nat.sub_diag by lia. Qed.

Lemma load_le_ok n pre v post : load_le n (pre ++ le_bytes n v ++ post) (Z.of_nat (length pre)) = Ok (v mod 256 ^ Z.of_nat n).
Proof.
  revert pre v. induction n as [|n IH]; intros pre v; [by rewrite Z.mod_1_r|]. cbn [load_le le_bytes app].
  rewrite at_index_middle. cbn [rbind]. specialize (IH (pre ++ [v mod 256]) (v / 256)). rewrite length_app, <- app_assoc in IH. cbn [length app] in IH.
  replace (Z.of_nat (length pre) + 1) with (Z.of_nat (length pre + 1)) by lia. rewrite IH. cbn [rbind]. f_equal.
  replace (256 ^ Z.of_nat (S n)) with (256 * 256 ^ Z.of_nat n) by (rewrite Nat2Z.inj_succ, Z.pow_succ_r by lia; done).
  rewrite Z.rem_mul_r by (lia || apply Z.pow_pos_nonneg; lia). done.
Qed.

Lemma load_byte pre x post : 0 <= x < 256 -> load_le 1 (pre ++ x :: post) (Z.of_nat (length pre)) = Ok x.
Proof. intros Hx. pose proof (load_le_ok 1 pre x post) as H. cbn [le_bytes app] in H. change (256 ^ Z.of_nat 1) with 256 in H. by rewrite Z.mod_small in H. Qed.

Lemma signed_byte x : int8_ok x -> wrap_signed 8 (x mod 256) = x.
Proof. unfold int8_ok, wrap_signed. intros Hx. change (2 ^ (8 - 1)) with 128. change (2 ^ 8) with 256. euclidean. Qed.

Lemma load_int8_ok pre x post : int8_ok x -> load_int8 (pre ++ x mod 256 :: post) (Z.of_nat (length pre)) = Ok x.
Proof.
  intros Hx. unfold load_int8. rewrite load_byte by (apply Z.mod_pos_bound; lia). cbn [rbind]. by rewrite signed_byte.
Qed.

Lemma int8_is_array pre xs post : Forall int8_ok xs -> is_array (int8_data (pre ++ map (fun b => b mod 256) xs ++ post) (Z.of_nat (length pre))) xs.
Proof.
  intros Hok j x Hj. pose proof (Forall_lookup_1 _ _ _ _ Hok Hj) as Hx. unfold int8_data.
  rewrite <- (take_drop_middle xs j x Hj) at 1. rewrite map_app. cbn [map]. rewrite <- app_assoc, app_assoc. cbn [app].
  replace (Z.of_nat (length pre) + Z.of_nat j) with (Z.of_nat (length (pre ++ map (fun b => b mod 256) (take j xs)))); [by apply load_int8_ok|].
  rewrite length_app, length_map, length_take. apply lookup_lt_Some in Hj. lia.
Qed.

Lemma flat_le_length n xs : length (flat_map (le_bytes n) xs) = (n * length xs)%nat.
Proof. induction xs as [|x xs IH]; cbn [flat_map length]; [lia|]. rewrite length_app, le_bytes_length, IH. lia. Qed.

Lemma uint16_is_array pre xs post :
  Forall (fun x => 0 <= x < 2 ^ 16) xs -> is_array (uint16_data (pre ++ flat_map (le_bytes 2) xs ++ post) (Z.of_nat (length pre))) xs.
Proof.
  intros Hok j x Hj. pose proof (Forall_lookup_1 _ _ _ _ Hok Hj) as Hx. cbn beta in Hx. unfold uint16_data, load_uint16.
  rewrite <- (take_drop_middle xs j x Hj) at 1. rewrite flat_map_app. cbn [flat_map]. rewrite <- !app_assoc, app_assoc.
  replace (Z.of_nat (length pre) + 2 * Z.of_nat j) with (Z.of_nat (length (pre ++ flat_map (le_bytes 2) (take j xs)))).
  - rewrite load_le_ok. f_equal. change (256 ^ Z.of_nat 2) with (2 ^ 16). by apply Z.mod_small.
  - rewrite length_app, flat_le_length, length_take. apply lookup_lt_Some in Hj. lia.
Qed.

(** The instance with the entries that are in use only. *)
Definition trimmed (d : DenseHll) : DenseHll :=
  with_overflows d (overflows_ d) (take (entries_of d) (overflowBuckets_ d)) (take (entries_of d) (overflowValues_ d)).

Lemma trimmed_overflows B d om : overflows_ok B d om -> overflows_ok B (trimmed d) om.
Proof.
  intros H. pose proof (ov_rep _ _ _ H) as Hr. pose proof (or_length _ _ _ _ Hr) as Hl. pose proof (or_bound _ _ _ _ Hr) as Hb.
  split; [apply H| |apply H]. cbn [overflows_ overflowBuckets_ overflowValues_ trimmed with_overflows]. unfold entries_of. split.
  - rewrite !length_take. lia.
  - rewrite length_take. lia.
  - intros j b v Hj. rewrite !lookup_take_lt by done. by apply (or_values _ _ _ _ Hr).
  - intros j k b Hj Hk. rewrite !lookup_take_lt by done. by apply (or_distinct _ _ _ _ Hr).
  - intros b v Hb'. destruct (or_complete _ _ _ _ Hr b v Hb') as (j & Hj & Hbj). exists j. by rewrite lookup_take_lt.
Qed.

(** What the serialized form has at its places. *)
Record reads_as (data : list Z) (d : DenseHll) : Prop := {
  ra_version : load_int8 data 0 = Ok kPrestoDenseV2;
  ra_bits : load_int8 data 1 = Ok (indexBitLength_ d);
  ra_baseline : load_int8 data 2 = Ok (baseline_ d);
  ra_view : exists v, read_arrays data (indexBitLength_ d) (baseline_ d) = Ok v /\ view_overflows v = overflows_ d /\ view_indexBitLength v = indexBitLength_ d
    /\ view_baseline v = baseline_ d /\ arrays_of (trimmed d) (view_deltas v) (view_overflowBuckets v) (view_overflowValues v)
}.

Lemma overflow_entries B d om :
  overflows_ok B d om -> Forall (fun b => 0 <= b < 2 ^ 16) B ->
  Forall (fun x => 0 <= x < 2 ^ 16) (take (entries_of d) (overflowBuckets_ d)) /\ Forall int8_ok (take (entries_of d) (overflowValues_ d)).
Proof.
  intros H HB. rewrite Forall_forall in HB. pose proof (ov_rep _ _ _ H) as Hr. pose proof (or_length _ _ _ _ Hr) as Hl. pose proof (or_bound _ _ _ _ Hr) as Hb. unfold entries_of.
  split; apply Forall_forall; intros x [j [Hj Hlt]%lookup_take_Some]%list_elem_of_lookup_1.
  - destruct (lookup_lt_is_Some_2 (overflowValues_ d) j ltac:(lia)) as [v Hv].
    by apply HB, (ov_range _ _ _ H x v (or_values _ _ _ _ Hr j x v Hlt Hj Hv)).
  - destruct (lookup_lt_is_Some_2 (overflowBuckets_ d) j ltac:(lia)) as [b Hb'].
    destruct (ov_range _ _ _ H b x (or_values _ _ _ _ Hr j b x Hlt Hb' Hj)). unfold int8_ok. lia.
Qed.

Lemma state_reads {B} d base regs om rest :
  cells B d base regs om -> int8_ok (baseline_ d) -> reads_as (state_bytes d ++ rest) d.
Proof.
  intros H Hb. pose proof (c_bits _ _ _ _ H) as Hbits. pose proof (cells_bound _ _ _ _ H) as HN. pose proof (c_overflows _ _ _ _ H) as Hov.
  pose proof (overflows_bound _ _ _ Hov) as Hcount. pose proof (ov_count _ _ _ Hov) as Hnn. destruct (c_room _ _ _ _ H) as [Hrange Hroom].
  destruct (overflow_entries _ _ _ Hov) as [Hbk Hvl]; [apply (Forall_impl _ _ _ Hrange); intros b; cbn beta; lia|].
  assert (length (deltas_ d) = Z.to_nat (2 ^ indexBitLength_ d / 2)) as Hlen.
  { pose proof (c_nibbles _ _ _ _ H) as Hn. rewrite nibbles_length in Hn. rewrite <- (c_length _ _ _ _ H). euclidean. }
  assert (0 < 2 ^ indexBitLength_ d) as Hpos by (apply Z.pow_pos_nonneg; lia).
  assert (int8_ok (indexBitLength_ d)) as Hbits8 by (unfold int8_ok; lia).
  split.
  - by apply (load_int8_ok [] 3).
  - by apply (load_int8_ok [kPrestoDenseV2] (indexBitLength_ d)).
  - by apply (load_int8_ok [kPrestoDenseV2; indexBitLength_ d mod 256] (baseline_ d)).
  - unfold read_arrays. cbv zeta. rewrite Z.shiftl_1_l.
    set (head := [kPrestoDenseV2; indexBitLength_ d mod 256; baseline_ d mod 256]). set (ds := map (fun b => b mod 256) (deltas_ d)).
    set (bk := flat_map (le_bytes 2) (take (entries_of d) (overflowBuckets_ d))). set (vl := map (fun b => b mod 256) (take (entries_of d) (overflowValues_ d))).
    assert (state_bytes d ++ rest = (head ++ ds) ++ le_bytes 2 (overflows_ d) ++ (bk ++ vl ++ rest)) as E1 by (unfold state_bytes; fold head ds bk vl; by rewrite <- !app_assoc).
    assert (state_bytes d ++ rest = head ++ ds ++ (le_bytes 2 (overflows_ d) ++ bk ++ vl ++ rest)) as E2 by (by rewrite E1, <- !app_assoc).
    assert (state_bytes d ++ rest = (head ++ ds ++ le_bytes 2 (overflows_ d)) ++ bk ++ (vl ++ rest)) as E3 by (by rewrite E1, <- !app_assoc).
    assert (state_bytes d ++ rest = (head ++ ds ++ le_bytes 2 (overflows_ d) ++ bk) ++ vl ++ rest) as E4 by (by rewrite E1, <- !app_assoc).
    assert (Z.of_nat (length (head ++ ds)) = 3 + 2 ^ indexBitLength_ d / 2) as L1 by (rewrite length_app, Nat2Z.inj_add; unfold ds; rewrite length_map, Hlen, Z2Nat.id by euclidean; done).
    assert (Z.of_nat (length (head ++ ds ++ le_bytes 2 (overflows_ d))) = 3 + 2 ^ indexBitLength_ d / 2 + 2) as L3 by (rewrite app_assoc, length_app, le_bytes_length; lia).
    assert (Z.of_nat (length (head ++ ds ++ le_bytes 2 (overflows_ d) ++ bk)) = 3 + 2 ^ indexBitLength_ d / 2 + 2 + 2 * overflows_ d) as L4.
    { rewrite !app_assoc, length_app, <- app_assoc. unfold bk at 1. rewrite flat_le_length, length_take. unfold entries_of. pose proof (or_bound _ _ _ _ (ov_rep _ _ _ Hov)). lia. }
    assert (load_int16 (state_bytes d ++ rest) (3 + 2 ^ indexBitLength_ d / 2) = Ok (overflows_ d)) as ->.
    { rewrite E1, <- L1. unfold load_int16. rewrite load_le_ok. cbn [rbind]. change (256 ^ Z.of_nat 2) with (2 ^ 16). rewrite Z.mod_small, wrap_signed_id by lia. done. }
    cbn [rbind]. eexists. split; [done|]. cbn [view_overflows view_indexBitLength view_baseline view_deltas view_overflowBuckets view_overflowValues].
    split_and!; try done. split; cbn [deltas_ overflowBuckets_ overflowValues_ trimmed with_overflows].
    + rewrite E2. apply (int8_is_array head). apply H.
    + rewrite E3, <- L3. by apply uint16_is_array.
    + rewrite E4, <- L4. by apply int8_is_array.
Qed.

Lemma trimmed_cells {B} d base regs om : cells B d base regs om -> cells B (trimmed d) base regs om.
Proof. intros H. apply (cells_same d); [done|done|]. apply trimmed_overflows, H. Qed.

Lemma trimmed_rep {B} d regs : dense_rep B d regs -> dense_rep B (trimmed d) regs.
Proof. intros [[om H] Hc Hm]. split; try done. exists om. by apply trimmed_cells. Qed.

Lemma count_zero_ok {B} d b regs om n i :
  cells B d (fun _ => b) regs om -> (i + n = length regs)%nat -> count_zero n (Z.of_nat i) d = Ok (count_of b (drop i regs)).
Proof.
  intros H. revert i. induction n as [|n IH]; intros i Hi; cbn [count_zero].
  - by rewrite drop_ge by lia.
  - destruct (lookup_lt_is_Some_2 regs i ltac:(lia)) as [r Hr]. pose proof (c_range _ _ _ _ H i r Hr) as Hrange. rewrite (getDelta_ok _ _ _ _ _ _ H Hr). cbn [rbind].
    replace (Z.of_nat i + 1) with (Z.of_nat (S i)) by lia. rewrite IH by lia. cbn [rbind]. rewrite (drop_S regs r i Hr). unfold count_of, kMaxDelta.
    destruct (Z.min 15 (r - b) =? 0) eqn:E; [rewrite filter_cons_True by lia|rewrite filter_cons_False by lia]; cbn [length]; f_equal; lia.
Qed.

Lemma dense_length {B} d regs : dense_rep B d regs -> Z.of_nat (length regs) = 2 ^ indexBitLength_ d /\ 4 <= indexBitLength_ d <= 16 /\ int8_ok (baseline_ d).
Proof.
  intros [[om H] Hc Hm]. split_and!; try apply H. pose proof (cells_bound _ _ _ _ H). destruct (lookup_lt_is_Some_2 regs 0%nat ltac:(lia)) as [r Hr].
  pose proof (c_range _ _ _ _ H _ _ Hr). unfold int8_ok, kMaxValue in *. lia.
Qed.

Lemma DenseHll_of_serialized_ok {B} data d regs :
  dense_rep B d regs -> reads_as data d ->
  exists d', DenseHll_of_serialized data = Ok d' /\ dense_rep B d' regs /\ indexBitLength_ d' = indexBitLength_ d.
Proof.
  intros Hd Ha. destruct (dense_length d regs Hd) as (Hlen & Hbits & Hb). pose proof (trimmed_rep d regs Hd) as [[om H] Hcount Hmin].
  destruct (ra_view _ _ Ha) as (v & Hv & Hov & HvL & Hvb & Har). pose proof (c_nibbles _ _ _ _ H) as Hnib. rewrite nibbles_length in Hnib.
  pose proof (c_overflows _ _ _ _ H) as Ho. pose proof (ov_count _ _ _ Ho) as Hoc. pose proof (or_bound _ _ _ _ (ov_rep _ _ _ Ho)) as Hob. pose proof (or_length _ _ _ _ (ov_rep _ _ _ Ho)) as Hol.
  cbn [overflows_ overflowBuckets_ overflowValues_ deltas_ trimmed with_overflows] in *.
  unfold DenseHll_of_serialized, deserialize. rewrite (ra_version _ _ Ha). cbn [rbind]. rewrite Z.eqb_refl. cbn [check rbind].
  rewrite (ra_bits _ _ Ha), (ra_baseline _ _ Ha). cbn [rbind]. replace ((0 <=? indexBitLength_ d) && (indexBitLength_ d <? 31)) with true by lia.
  rewrite Hv. cbn [rbind]. rewrite HvL. unfold initialize. replace (indexBitLength_ d >=? 4) with true by lia. replace (indexBitLength_ d <=? 16) with true by lia.
  cbn [check rbind indexBitLength_]. rewrite Z.shiftl_1_l, <- Hlen, Nat2Z.id.
  replace (Z.to_nat (Z.of_nat (length regs) / 2)) with (length (deltas_ d)) by (rewrite <- Hnib; euclidean).
  rewrite (copy_prefix _ _ _ (ar_deltas _ _ _ _ Har)) by (cbn; lia). cbn [rbind]. rewrite Hov. replace (overflows_ d >=? 0) with true by lia. cbn [check].
  rewrite (copy_prefix _ _ _ (ar_buckets _ _ _ _ Har)) by (cbn; lia). cbn [rbind].
  rewrite (copy_prefix _ _ _ (ar_values _ _ _ _ Har)) by (cbn; lia). cbn [rbind]. cbn [overflowBuckets_ overflowValues_ deltas_ trimmed with_overflows].
  rewrite !take_take, !Nat.min_id, take_ge, Hvb by lia. fold (entries_of d).
  assert (forall n, cells B (with_baseline (trimmed d) (baseline_ d) n) (fun _ => baseline_ d) regs om) as Hcells by (intros n; by apply cells_with_baseline).
  change (mkDenseHll (indexBitLength_ d) (baseline_ d) 0 (deltas_ d) (overflows_ d) (take (entries_of d) (overflowBuckets_ d)) (take (entries_of d) (overflowValues_ d)))
    with (with_baseline (trimmed d) (baseline_ d) 0). change 0 with (Z.of_nat 0) at 1.
  rewrite (count_zero_ok _ (baseline_ d) regs om) by (done || apply Hcells). cbn [rbind]. rewrite drop_0.
  eexists. split; [done|]. split; [|done]. split; [exists om; apply (Hcells (count_of (baseline_ d) regs))|done|]. cbn. cbn in Hcount, Hmin. lia.
Qed.

Lemma mergeWith_serialized_ok {B} d regs1 d2 regs2 data :
  dense_rep B d regs1 -> dense_rep B d2 regs2 -> indexBitLength_ d = indexBitLength_ d2 -> reads_as data d2 ->
  exists d', mergeWith_serialized d data = Ok d' /\ dense_rep B d' (zip_with Z.max regs1 regs2) /\ indexBitLength_ d' = indexBitLength_ d.
Proof.
  intros H1 H2 HL Ha. destruct (ra_view _ _ Ha) as (v & Hv & Hov & _ & Hvb & Har). unfold mergeWith_serialized.
  rewrite (ra_version _ _ Ha). cbn [rbind]. rewrite Z.eqb_refl. cbn [check rbind]. rewrite (ra_bits _ _ Ha). cbn [rbind]. rewrite HL, Z.eqb_refl. cbn [check rbind].
  rewrite (ra_baseline _ _ Ha). cbn [rbind]. rewrite Hv. cbn [rbind]. rewrite Hov. pose proof (trimmed_rep d2 regs2 H2) as [[om H] _ _]. rewrite <- HL.
  apply (merge_arrays_ok d regs1 (trimmed d2) regs2 om); try done.
  destruct (dense_length _ _ H1) as [Hl1 _]. destruct (dense_length _ _ H2) as [Hl2 _]. rewrite HL in Hl1. lia.
Qed.

Lemma view_value {B} v d regs i r :
  dense_rep B d regs -> view_overflows v = overflows_ d -> view_baseline v = baseline_ d ->
  arrays_of d (view_deltas v) (view_overflowBuckets v) (view_overflowValues v) -> regs !! i = Some r -> getValue v (Z.of_nat i) = Ok r.
Proof.
  intros Hd Hov Hb Har Hr. rewrite <- (getValue_ok d regs i r Hd Hr). destruct Hd as [[om H] _ _]. unfold getValue, view_of.
  cbn [view_deltas view_overflows view_overflowBuckets view_overflowValues view_baseline]. rewrite Hov, Hb.
  rewrite (delta_of_nibbles _ (deltas_ d) i _ (ar_deltas _ _ _ _ Har) (c_delta _ _ _ _ H i r Hr)).
  rewrite (delta_of_nibbles _ (deltas_ d) i _ (vector_is_array _) (c_delta _ _ _ _ H i r Hr)). cbn [rbind].
  pose proof (c_overflows _ _ _ _ H) as Ho. rewrite <- (Z2Nat.id (overflows_ d)) by apply Ho.
  rewrite (overflow_value _ _ _ om _ _ _ (ov_rep _ _ _ Ho) (ar_buckets _ _ _ _ Har) (ar_values _ _ _ _ Har)).
  by rewrite (overflow_value _ _ _ om _ _ _ (ov_rep _ _ _ Ho) (vector_is_array _) (vector_is_array _)).
Qed.

Lemma values_in_range_ok v regs n i :
  (forall j r, regs !! j = Some r -> getValue v (Z.of_nat j) = Ok r /\ 0 <= r <= 63) -> (i + n <= length regs)%nat -> values_in_range n (Z.of_nat i) v = Ok true.
Proof.
  intros Hv. revert i. induction n as [|n IH]; intros i Hi; [done|]. cbn [values_in_range]. destruct (lookup_lt_is_Some_2 regs i ltac:(lia)) as [r Hr].
  destruct (Hv i r Hr) as [-> Hrange]. cbn [rbind]. replace ((r <? 0) || (r >? 63)) with false by lia. replace (Z.of_nat i + 1) with (Z.of_nat (S i)) by lia. apply IH. lia.
Qed.

Lemma state_length {B} d base regs om : cells B d base regs om -> Z.of_nat (length (state_bytes d)) = serializedSize d.
Proof.
  intros H. pose proof (c_nibbles _ _ _ _ H) as Hn. rewrite nibbles_length in Hn. pose proof (c_bits _ _ _ _ H) as Hbits.
  pose proof (c_overflows _ _ _ _ H) as Hov. pose proof (ov_count _ _ _ Hov) as Hc. pose proof (or_bound _ _ _ _ (ov_rep _ _ _ Hov)) as Hb. pose proof (or_length _ _ _ _ (ov_rep _ _ _ Hov)) as Hl.
  unfold state_bytes, serializedSize, entries_of. rewrite !length_app, !length_map, flat_le_length, !length_take, le_bytes_length. cbn [length].
  rewrite Z.shiftl_1_l, <- (c_length _ _ _ _ H). euclidean.
Qed.

Lemma canDeserialize_ok {B} d regs rest :
  dense_rep B d regs -> (forall i r, regs !! i = Some r -> r <= 63) ->
  canDeserialize (state_bytes d ++ rest) (serializedSize d) = Ok true /\ canDeserialize_version (state_bytes d ++ rest) = Ok true.
Proof.
  intros Hd Hmax. destruct (dense_length d regs Hd) as (Hlen & Hbits & Hb). pose proof Hd as [[om H] _ _]. pose proof (state_reads d _ _ _ rest H Hb) as Ha.
  destruct (ra_view _ _ Ha) as (v & Hv & Hov & HvL & Hvb & Har). pose proof (ov_count _ _ _ (c_overflows _ _ _ _ H)) as Hc.
  assert (2 ^ indexBitLength_ d = 2 * 2 ^ (indexBitLength_ d - 1)) as Hp by (rewrite <- Z.pow_succ_r by lia; f_equal; lia).
  assert (0 < 2 ^ (indexBitLength_ d - 1)) as Hpos by (apply Z.pow_pos_nonneg; lia).
  assert (serializedSize d = 5 + 2 ^ (indexBitLength_ d - 1) + 3 * overflows_ d) as Hsize by (unfold serializedSize; rewrite Z.shiftl_1_l, Hp; euclidean).
  unfold canDeserialize, canDeserialize_version. rewrite (ra_version _ _ Ha). cbn [rbind]. rewrite Z.eqb_refl. cbn [negb]. split; [|done].
  replace (serializedSize d <? 5) with false by lia. rewrite (ra_bits _ _ Ha). cbn [rbind].
  replace ((indexBitLength_ d <? 4) || (indexBitLength_ d >? 16)) with false by lia. rewrite (ra_baseline _ _ Ha). cbn [rbind]. rewrite Hv.
  replace (serializedSize d <? 5 + 2 ^ (indexBitLength_ d - 1)) with false by lia. cbn [rbind]. rewrite Hov.
  replace (serializedSize d <? 5 + 2 ^ (indexBitLength_ d - 1) + 2 * overflows_ d + overflows_ d) with false by lia.
  rewrite Z.shiftl_1_l, <- Hlen, Nat2Z.id. change 0 with (Z.of_nat 0). apply (values_in_range_ok v regs); [|lia]. intros j r Hr.
  split; [apply (view_value (B := B) v (trimmed d) regs); try done; by apply trimmed_rep|]. pose proof (c_range _ _ _ _ H j r Hr). pose proof (Hmax j r Hr). lia.
Qed.

(** * Programs on instances *)

(** The bytes that [serialize] writes to a buffer of the announced size. *)
Definition serialized (d : DenseHll) : result (list Z) :=
  let! r := serialize d (repeat 0 (Z.to_nat (serializedSize d)), 0) in
  Ok (fst (snd r)).

(** How an instance comes about. *)
Inductive sketch : Type :=
| NewHll
| InsertHash (s : sketch) (hash : Z)
| MergeHll (s other : sketch)
| MergeSerialized (s other : sketch)
| Reload (s : sketch).

Fixpoint eval (L : Z) (s : sketch) : result DenseHll :=
  match s with
  | NewHll => make_DenseHll L
  | InsertHash s hash => let! d := eval L s in dense_insertHash d hash
  | MergeHll s other => let! d := eval L s in let! e := eval L other in dense_mergeWith d e
  | MergeSerialized s other => let! d := eval L s in let! e := eval L other in let! bytes := serialized e in mergeWith_serialized d bytes
  | Reload s => let! d := eval L s in let! bytes := serialized d in DenseHll_of_serialized bytes
  end.

Fixpoint hashes (s : sketch) : list Z :=
  match s with
  | NewHll => []
  | InsertHash s hash => hash :: hashes s
  | MergeHll s other | MergeSerialized s other => hashes s ++ hashes other
  | Reload s => hashes s
  end.

Lemma serialize_ok {B} d regs :
  dense_rep B d regs ->
  exists d' n, serialize d (repeat 0 (Z.to_nat (serializedSize d)), 0) = Ok (d', (state_bytes d', n)) /\ dense_rep B d' regs /\ indexBitLength_ d' = indexBitLength_ d
    /\ Z.of_nat (length (state_bytes d')) = serializedSize d /\ serializedSize d' = serializedSize d
    /\ increasing (entries_of d') (overflowBuckets_ d') /\ forall rest, reads_as (state_bytes d' ++ rest) d'.
Proof.
  intros Hd. destruct (dense_length d regs Hd) as (_ & _ & Hb). pose proof Hd as [[om H] _ _].
  destruct (sortOverflows_ok _ _ _ (c_overflows _ _ _ _ H)) as (d' & Hsort & Hs & Ho & Hov & Hinc). pose proof (dense_rep_same d d' regs om Hd H Hs Hov) as Hd'.
  pose proof (cells_same d d' _ _ _ H Hs Hov) as H'. pose proof Hs as (HL & Hbase & _ & _).
  assert (serializedSize d' = serializedSize d) as Hsize by (unfold serializedSize; by rewrite HL, Ho).
  pose proof (state_length d' _ _ _ H') as Hlen. exists d', (Z.of_nat (length (state_bytes d'))).
  split_and!; try done; [|by rewrite Hlen|unfold entries_of; by rewrite Ho|].
  - unfold serialize. rewrite Hsort. cbn [rbind]. replace (Z.to_nat (serializedSize d)) with (length (state_bytes d')) by lia.
    pose proof (write_state_ok _ d' om Hov [] (repeat 0 (length (state_bytes d'))) [] ltac:(apply repeat_length)) as Hw.
    cbn [app length] in Hw. change (Z.of_nat 0) with 0 in Hw. rewrite !app_nil_r in Hw. rewrite Hw. done.
  - intros rest. apply (state_reads (B := B) d' (fun _ => baseline_ d) regs om); [exact H'|]. by rewrite Hbase.
Qed.

Lemma serialized_ok {B} d regs :
  dense_rep B d regs ->
  exists d', serialized d = Ok (state_bytes d') /\ dense_rep B d' regs /\ indexBitLength_ d' = indexBitLength_ d
    /\ Z.of_nat (length (state_bytes d')) = serializedSize d /\ serializedSize d' = serializedSize d
    /\ increasing (entries_of d') (overflowBuckets_ d') /\ forall rest, reads_as (state_bytes d' ++ rest) d'.
Proof. intros Hd. destruct (serialize_ok d regs Hd) as (d' & n & Hrun & H). exists d'. split; [|done]. unfold serialized. by rewrite Hrun. Qed.

Lemma eval_ok {B} L s :
  4 <= L <= 16 -> roomy (Z.to_nat (2 ^ L)) B -> Forall (fits B L) (hashes s) -> exists d, eval L s = Ok d /\ dense_rep B d (registers L (hashes s)) /\ indexBitLength_ d = L.
Proof.
  intros HL Hroom. induction s as [|s IH h|s IH o IHo|s IH o IHo|s IH]; intros Hok; cbn [eval hashes] in *.
  - rewrite registers_nil. by apply make_DenseHll_ok.
  - apply Forall_cons in Hok as [Hh Hok]. destruct (IH Hok) as (d & -> & Hd & Hdl). cbn [rbind]. by apply dense_insertHash_ok.
  - apply Forall_app in Hok as [Hok1 Hok2]. destruct (IH Hok1) as (d & -> & Hd & Hdl). destruct (IHo Hok2) as (e & -> & He & Hel). cbn [rbind].
    rewrite registers_app. destruct (dense_mergeWith_ok d _ e _ Hd He ltac:(congruence)) as (f & -> & Hf & Hfl). exists f. split_and!; try done. congruence.
  - apply Forall_app in Hok as [Hok1 Hok2]. destruct (IH Hok1) as (d & -> & Hd & Hdl). destruct (IHo Hok2) as (e & -> & He & Hel). cbn [rbind].
    destruct (serialized_ok e _ He) as (e' & -> & He' & Hel' & _ & _ & _ & Hr). cbn [rbind]. rewrite registers_app. specialize (Hr []). rewrite app_nil_r in Hr.
    destruct (mergeWith_serialized_ok d _ e' _ _ Hd He' ltac:(congruence) Hr) as (f & -> & Hf & Hfl). exists f. split_and!; try done. congruence.
  - destruct (IH Hok) as (d & -> & Hd & Hdl). cbn [rbind]. destruct (serialized_ok d _ Hd) as (d' & -> & Hd' & Hdl' & _ & _ & _ & Hr). cbn [rbind].
    specialize (Hr []). rewrite app_nil_r in Hr. destruct (DenseHll_of_serialized_ok _ d' _ Hd' Hr) as (f & -> & Hf & Hfl). exists f. split_and!; try done. congruence.
Qed.

Lemma register_bound L hs i : 1 <= L <= 32 -> register L hs i <= 65 - L.
Proof. intros HL. induction hs as [|h hs IH]; cbn; [lia|]. pose proof (hash_value_range h L HL). destruct (_ =? i); lia. Qed.

(** The number of overflows has room: at most [2 ^ 14] buckets, or fewer than [2 ^ 15] with a register that can overflow. *)
Definition few_large (L : Z) (hs : list Z) : Prop :=
  L <= 14 \/ Z.of_nat (length (filter (fun i => kMaxDelta < register L hs i) (seqZ 0 (2 ^ L)))) < 2 ^ 15.

Lemma few_large_ext L hs hs' : (forall i, 0 <= i < 2 ^ L -> register L hs i = register L hs' i) -> few_large L hs -> few_large L hs'.
Proof.
  intros Heq [HL|Hfew]; [by left|right]. replace (filter _ _) with (filter (fun i => kMaxDelta < register L hs i) (seqZ 0 (2 ^ L))); [done|].
  assert (forall i, i ∈ seqZ 0 (2 ^ L) -> register L hs i = register L hs' i) as Hall by (intros i Hi%elem_of_seqZ; apply Heq; lia).
  clear Heq Hfew. induction (seqZ 0 (2 ^ L)) as [|i l IH]; [done|]. rewrite !filter_cons, (Hall i) by (by left). rewrite IH; [done|]. intros j Hj. apply Hall. by right.
Qed.

Lemma register_ge L hs h : h ∈ hs -> hash_value L h <= register L hs (hash_index L h).
Proof.
  induction 1 as [h hs|h g hs _ IH]; cbn [register]; [rewrite Z.eqb_refl; lia|]. destruct (_ =? _); lia.
Qed.

Lemma register_index L hs i : 0 < register L hs i -> i ∈ map (hash_index L) hs.
Proof.
  induction hs as [|h hs IH]; cbn [register map]; [lia|]. destruct (hash_index L h =? i) eqn:E; [|intros H; right; by apply IH].
  apply Z.eqb_eq in E. intros _. rewrite E. by left.
Qed.

(** Fewer than [2 ^ 15] hashes are few enough. *)
Lemma few_large_short L hs : Z.of_nat (length hs) < 2 ^ 15 -> few_large L hs.
Proof.
  intros Hlen. right. assert (NoDup (filter (fun i => kMaxDelta < register L hs i) (seqZ 0 (2 ^ L)))) as Hnd by apply NoDup_filter, NoDup_seqZ.
  assert (filter (fun i => kMaxDelta < register L hs i) (seqZ 0 (2 ^ L)) ⊆ map (hash_index L) hs) as Hsub.
  { intros i [Hi _]%list_elem_of_filter. apply register_index. unfold kMaxDelta in Hi. lia. }
  pose proof (submseteq_length _ _ (NoDup_submseteq _ _ Hnd Hsub)) as Hle. rewrite length_map in Hle. lia.
Qed.

Lemma few_large_fits L hs :
  4 <= L <= 16 -> few_large L hs -> Forall hash_ok hs -> exists B, roomy (Z.to_nat (2 ^ L)) B /\ Forall (fits B L) hs.
Proof.
  intros HL Hfew Hok. assert (0 < 2 ^ L) as Hpos by (apply Z.pow_pos_nonneg; lia). rewrite Forall_forall in Hok.
  assert (forall h, h ∈ hs -> hash_index L h ∈ seqZ 0 (2 ^ L)) as Hidx.
  { intros h Hh. destruct (computeIndex_ok h L (Hok h Hh) ltac:(lia)) as [_ Hi]. apply elem_of_seqZ. lia. }
  destruct Hfew as [HL14|Hfew].
  - exists (seqZ 0 (2 ^ L)). assert (2 ^ L <= 2 ^ 14) by (apply Z.pow_le_mono_r; lia). split; [split|].
    + apply Forall_forall. intros i Hi%elem_of_seqZ. lia.
    + rewrite length_seqZ. lia.
    + apply Forall_forall. intros h Hh. split; [by apply Hok|]. intros _. by apply Hidx.
  - eexists. split; [split; [|exact Hfew]|].
    + apply Forall_forall. intros i [_ Hi%elem_of_seqZ]%list_elem_of_filter. lia.
    + apply Forall_forall. intros h Hh. split; [by apply Hok|]. intros Hlarge. apply list_elem_of_filter. split; [|by apply Hidx].
      pose proof (register_ge L hs h Hh). lia.
Qed.

(** C9. The dense layout keeps the registers of HyperLogLog: whatever the program of insertions, merges with instances and
    with serialized instances, and reloads, it ends without an error, and every bucket has the largest value of the hashes that fall
    into it, where the value of a hash is one more than the zeros after its bucket. The baseline is the least register, and
    the count of buckets at it is right. This covers the raising of the baseline and the moves in and out of the
    list of overflows, for the [2 ^ 4] to [2 ^ 16] buckets that there can be. With [2 ^ 15] or [2 ^ 16] it is for hashes that give
    fewer than [2 ^ 15] buckets a register above 15, since the count of overflows has 16 bits. *)
Theorem dense_registers L s :
  4 <= L <= 16 -> few_large L (hashes s) -> Forall hash_ok (hashes s) ->
  exists d, eval L s = Ok d
    /\ (forall i, 0 <= i < 2 ^ L -> getValue (view_of d) i = Ok (register L (hashes s) i) /\ baseline_ d <= register L (hashes s) i)
    /\ baselineCount_ d = count_of (baseline_ d) (registers L (hashes s)) /\ 0 < baselineCount_ d.
Proof.
  intros HL Hfew Hok. destruct (few_large_fits L _ HL Hfew Hok) as (B & Hroom & Hfits). destruct (eval_ok L s HL Hroom Hfits) as (d & -> & Hd & Hdl). exists d. split_and!; try done; try apply Hd. intros i Hi.
  assert (registers L (hashes s) !! Z.to_nat i = Some (register L (hashes s) i)) as Hr by (rewrite registers_lookup, Z2Nat.id by lia; done). split.
  - pose proof (getValue_ok d _ _ _ Hd Hr) as Hv. by rewrite Z2Nat.id in Hv by lia.
  - by apply (proj2 (dense_baseline d _ Hd) (Z.to_nat i)).
Qed.

(** Hashes of 0, with all the zeros there can be, and of 2^40 in two buckets; a merge and a reload. *)
Lemma dense_registers_witness :
  exists d, eval 16 (Reload (MergeSerialized (InsertHash (InsertHash NewHll 0) (2 ^ 60 + 2 ^ 40)) (InsertHash NewHll (2 ^ 40)))) = Ok d
    /\ (forall i, 0 <= i < 2 ^ 16 -> getValue (view_of d) i = Ok (register 16 [2 ^ 60 + 2 ^ 40; 0; 2 ^ 40] i) /\ baseline_ d <= register 16 [2 ^ 60 + 2 ^ 40; 0; 2 ^ 40] i)
    /\ baselineCount_ d = count_of (baseline_ d) (registers 16 [2 ^ 60 + 2 ^ 40; 0; 2 ^ 40]) /\ 0 < baselineCount_ d.
Proof.
  apply (dense_registers 16 (Reload (MergeSerialized (InsertHash (InsertHash NewHll 0) (2 ^ 60 + 2 ^ 40)) (InsertHash NewHll (2 ^ 40))))); [lia|by apply few_large_short|].
  repeat (apply Forall_cons; split; [unfold hash_ok; lia|]). by apply Forall_nil.
Defined.

(** C10. The serialized form depends on the registers alone: instances with the same registers, however they came about, are
    serialized to the same bytes, as many as announced; canDeserialize accepts them, and an instance made from them has the same
    registers. This is for [2 ^ 4] to [2 ^ 16] buckets; with [2 ^ 15] or [2 ^ 16], for fewer than [2 ^ 15] registers above 15, since
    the serialized count of overflows has 16 bits. *)
Theorem dense_serialized L s s' :
  4 <= L <= 16 -> few_large L (hashes s) -> Forall hash_ok (hashes s) -> Forall hash_ok (hashes s') ->
  (forall i, 0 <= i < 2 ^ L -> register L (hashes s) i = register L (hashes s') i) ->
  exists d d' e bytes, eval L s = Ok d /\ eval L s' = Ok d' /\ serialized d = Ok bytes /\ serialized d' = Ok bytes
    /\ Z.of_nat (length bytes) = serializedSize d /\ canDeserialize bytes (serializedSize d) = Ok true
    /\ DenseHll_of_serialized bytes = Ok e /\ (forall i, 0 <= i < 2 ^ L -> getValue (view_of e) i = Ok (register L (hashes s) i)).
Proof.
  intros HL Hfew Hok Hok' Heq. destruct (few_large_fits L _ HL Hfew Hok) as (B & Hroom & Hfits).
  destruct (few_large_fits L _ HL (few_large_ext L _ _ Heq Hfew) Hok') as (B' & Hroom' & Hfits').
  destruct (eval_ok L s HL Hroom Hfits) as (d & -> & Hd & Hdl). destruct (eval_ok L s' HL Hroom' Hfits') as (d' & -> & Hd' & Hdl').
  assert (registers L (hashes s') = registers L (hashes s)) as Hregs.
  { unfold registers. apply map_ext_in. intros i Hi%list_elem_of_In%elem_of_seqZ. symmetry. apply Heq. lia. }
  rewrite Hregs in Hd'. destruct (serialized_ok d _ Hd) as (c & Hc & Hcd & Hcl & Hlen & Hsize & Hinc & Hr).
  destruct (serialized_ok d' _ Hd') as (c' & Hc' & Hcd' & Hcl' & _ & _ & Hinc' & _).
  rewrite <- (canonical_bytes c c' _ Hcd Hcd' ltac:(congruence) Hinc Hinc') in Hc'. specialize (Hr []). rewrite app_nil_r in Hr.
  destruct (DenseHll_of_serialized_ok _ c _ Hcd Hr) as (e & He & Hed & Hel). exists d, d', e, (state_bytes c). split_and!; try done.
  - destruct (canDeserialize_ok c _ [] Hcd) as [Hcan _]; [|by rewrite app_nil_r, Hsize in Hcan]. intros i r Hi.
    pose proof (lookup_lt_Some _ _ _ Hi) as Hlt. rewrite registers_length in Hlt by lia. rewrite registers_lookup in Hi by done. injection Hi as <-.
    pose proof (register_bound L (hashes s) (Z.of_nat i) ltac:(lia)). lia.
  - intros i Hi. assert (registers L (hashes s) !! Z.to_nat i = Some (register L (hashes s) i)) as Hri by (rewrite registers_lookup, Z2Nat.id by lia; done).
    pose proof (getValue_ok e _ _ _ Hed Hri) as Hv. by rewrite Z2Nat.id in Hv by lia.
Qed.

(** The same two hashes in either order, and once through a merge. *)
Lemma dense_serialized_witness :
  exists d d' e bytes, eval 4 (InsertHash (InsertHash NewHll 0) (2 ^ 60)) = Ok d /\ eval 4 (MergeHll (InsertHash NewHll (2 ^ 60)) (InsertHash NewHll 0)) = Ok d'
    /\ serialized d = Ok bytes /\ serialized d' = Ok bytes /\ Z.of_nat (length bytes) = serializedSize d /\ canDeserialize bytes (serializedSize d) = Ok true
    /\ DenseHll_of_serialized bytes = Ok e /\ (forall i, 0 <= i < 2 ^ 4 -> getValue (view_of e) i = Ok (register 4 [2 ^ 60; 0] i)).
Proof.
  apply (dense_serialized 4 (InsertHash (InsertHash NewHll 0) (2 ^ 60)) (MergeHll (InsertHash NewHll (2 ^ 60)) (InsertHash NewHll 0))); [lia|by apply few_large_short|..].
  - repeat (apply Forall_cons; split; [unfold hash_ok; lia|]). by apply Forall_nil.
  - repeat (apply Forall_cons; split; [unfold hash_ok; lia|]). by apply Forall_nil.
  - done.
Defined.

(** * Where the code fails *)

(** A negative number of overflows makes the announced size smaller; such bytes are accepted and cannot be read. *)
Lemma negative_overflows_accepted :
  canDeserialize ([3; 4; 0] ++ repeat 0 8 ++ [255; 255]) 13 = Ok true /\ DenseHll_of_serialized ([3; 4; 0] ++ repeat 0 8 ++ [255; 255]) = Err CheckFailed.
Proof. by vm_compute. Qed.

(** The number of overflows has 16 bits, and an instance may have [2 ^ 16] buckets: it becomes negative. *)
Lemma overflows_wrap d index v :
  overflows_ d = 32767 -> length (overflowBuckets_ d) = Z.to_nat 32767 -> length (overflowValues_ d) = Z.to_nat 32767 ->
  exists d', addOverflow d index v = Ok d' /\ overflows_ d' = -32768.
Proof.
  intros Ho Hb Hv. unfold addOverflow. rewrite Ho. change 32767 with (Z.of_nat (Z.to_nat 32767)) at 1 2 3 4.
  destruct (vector_resize_shrink (overflowBuckets_ d) (Z.to_nat 32767) 0 ltac:(lia)) as [_ Hl1].
  destruct (vector_resize_shrink (overflowValues_ d) (Z.to_nat 32767) 0 ltac:(lia)) as [_ Hl2].
  rewrite set_index_ok by lia. cbn [rbind]. rewrite set_index_ok by lia. cbn [rbind]. eexists. split; [done|]. done.
Qed.
