(* ===== verification/SparseHll.v ===== *)
(** The sparse layout of HyperLogLog (bolt/common/hyperloglog/SparseHll.h and SparseHll.cpp): a sorted list of 26-bit
    buckets with their values, its merges, its serialized form and its conversion to the dense layout. *)

From S2P Require Import Prelude Text DenseHll DenseHllSerial.

(** * The code *)

Definition kValueBitLength : Z := 6.
Definition kIndexBitLength : Z := 26.

Definition encode_entry (index value : Z) : Z := Z.lor (wrap_unsigned 32 (Z.shiftl index kValueBitLength)) value.
Definition decodeIndex (entry : Z) : Z := Z.shiftr entry kValueBitLength.
Definition decodeValue (entry : Z) : Z := Z.land entry (Z.shiftl 1 kValueBitLength - 1).

(** The position of an index, or one less than the negated position where it would be. *)
Fixpoint search_loop (fuel : nat) (index : Z) (entries : list Z) (low high : Z) : result Z :=
  if low <=? high then
    match fuel with
    | O => Err OutOfFuel
    | S fuel =>
        let middle := Z.shiftr (low + high) 1 in
        let! e := at_index entries middle in
        let middleIndex := decodeIndex e in
        if index >? middleIndex then search_loop fuel index entries (middle + 1) high
        else if index <? middleIndex then search_loop fuel index entries low (middle - 1)
        else Ok middle
    end
  else Ok (- (low + 1)).

Definition searchIndex (index : Z) (entries : list Z) : result Z :=
  search_loop (S (length entries)) index entries 0 (Z.of_nat (length entries) - 1).

Record SparseHll : Type := mkSparseHll {
  entries_ : list Z;
  softNumEntriesLimit_ : Z
}.

Definition new_SparseHll : SparseHll := mkSparseHll [] 0.

Definition with_entries (s : SparseHll) (entries : list Z) : SparseHll := mkSparseHll entries (softNumEntriesLimit_ s).

Definition setSoftMemoryLimit (s : SparseHll) (softMemoryLimit : Z) : SparseHll := mkSparseHll (entries_ s) (Z.quot softMemoryLimit 4).

Definition overLimit (s : SparseHll) : bool := Z.of_nat (length (entries_ s)) >=? softNumEntriesLimit_ s.

Definition sparse_insertHash (s : SparseHll) (hash : Z) : result (SparseHll * bool) :=
  let index := computeIndex hash kIndexBitLength in
  let value := numberOfLeadingZeros hash kIndexBitLength in
  let entry := encode_entry index value in
  let! position := searchIndex index (entries_ s) in
  let! entries :=
    if position >=? 0 then
      let! old := at_index (entries_ s) position in
      if decodeValue old <? value then set_index (entries_ s) position entry else Ok (entries_ s)
    else
      let insertionPosition := Z.to_nat (- position - 1) in
      Ok (take insertionPosition (entries_ s) ++ entry :: drop insertionPosition (entries_ s)) in
  Ok (with_entries s entries, overLimit (with_entries s entries)).

(** ** Merging *)

(** The loop while both lists have entries. *)
Fixpoint merge_both (fuel : nat) (entries : list Z) (otherSize : Z) (other : array) (leftPos rightPos : Z) (merged : list Z)
    : result (Z * Z * list Z) :=
  if (leftPos <? Z.of_nat (length entries)) && (rightPos <? otherSize) then
    match fuel with
    | O => Err OutOfFuel
    | S fuel =>
        let! l := at_index entries leftPos in
        let! r := other rightPos in
        if decodeIndex l <? decodeIndex r then merge_both fuel entries otherSize other (leftPos + 1) rightPos (merged ++ [l])
        else if decodeIndex l >? decodeIndex r then merge_both fuel entries otherSize other leftPos (rightPos + 1) (merged ++ [r])
        else
          merge_both fuel entries otherSize other (leftPos + 1) (rightPos + 1)
            (merged ++ [encode_entry (decodeIndex l) (Z.max (decodeValue l) (decodeValue r))])
    end
  else Ok (leftPos, rightPos, merged).

(** The two loops over the rest of a list, one after the other, and the copy of the result. *)
Definition merge_entries (s : SparseHll) (otherSize : Z) (other : array) : result SparseHll :=
  check! otherSize >? 0 in
  let size := Z.of_nat (length (entries_ s)) in
  let! r := merge_both (length (entries_ s) + Z.to_nat otherSize) (entries_ s) otherSize other 0 0 [] in
  let '(leftPos, rightPos, merged) := r in
  let! left := copy_array (Z.to_nat (size - leftPos)) leftPos (vector_data (entries_ s)) in
  let! right := copy_array (Z.to_nat (otherSize - rightPos)) rightPos other in
  Ok (with_entries s (merged ++ left ++ right)).

Definition sparse_mergeWith (s other : SparseHll) : result SparseHll :=
  let size := Z.of_nat (length (entries_ other)) in
  if negb (size =? 0) then merge_entries s size (vector_data (entries_ other)) else Ok s.

(** ** The serialized form *)

Definition sparse_serialize (s : SparseHll) (indexBitLength : Z) (output : memory) : result memory :=
  let! out := appendOne 1 kPrestoSparseV2 output in
  let! out := appendOne 1 indexBitLength out in
  let! out := appendOne 2 (wrap_signed 16 (Z.of_nat (length (entries_ s)))) out in
  put (flat_map (le_bytes 4) (entries_ s)) out.

Definition serializeEmpty (indexBitLength : Z) : result (list Z) :=
  let! out := appendOne 1 kPrestoSparseV2 (repeat 0 4, 0) in
  let! out := appendOne 1 indexBitLength out in
  let! out := appendOne 2 0 out in
  Ok (fst out).

Definition sparse_serializedSize (s : SparseHll) : Z := 1 + 1 + 2 + Z.of_nat (length (entries_ s)) * 4.

Definition inMemorySize (s : SparseHll) : Z := 4 * Z.of_nat (length (entries_ s)).

Definition sparse_canDeserialize (input : list Z) : result bool :=
  let! version := load_int8 input 0 in
  Ok (version =? kPrestoSparseV2).

(** The number of entries follows the version and the index bit length, the entries follow it. *)
Definition initializeInputStream (serialized : list Z) : result Z :=
  let! version := load_int8 serialized 0 in
  check! kPrestoSparseV2 =? version in
  let! _ := load_int8 serialized 1 in
  load_int16 serialized 2.

(** A negative size is not a size of a vector. *)
Definition SparseHll_of_serialized (serialized : list Z) : result SparseHll :=
  let! size := initializeInputStream serialized in
  check! size >=? 0 in
  let! entries := copy_array (Z.to_nat size) 0 (uint32_data serialized 4) in
  Ok (mkSparseHll entries 0).

Definition sparse_mergeWith_serialized (s : SparseHll) (serialized : list Z) : result SparseHll :=
  let! size := initializeInputStream serialized in
  if negb (size =? 0) then
    check! size >=? 0 in
    merge_entries s size (uint32_data serialized 4)
  else Ok s.

Fixpoint verify_from (prevIndex : Z) (entries : list Z) : result unit :=
  match entries with
  | [] => Ok tt
  | e :: entries => check! prevIndex <? decodeIndex e in verify_from (decodeIndex e) entries
  end.

Definition verify (s : SparseHll) : result unit :=
  match entries_ s with
  | [] => Ok tt
  | e :: entries => verify_from (decodeIndex e) entries
  end.

(** ** Conversion *)

Definition to_dense_entry (d : DenseHll) (entry : Z) : result DenseHll :=
  let indexBitLength := indexBitLength_ d in
  let index := Z.shiftr entry (32 - indexBitLength) in
  let shiftedValue := wrap_unsigned 32 (Z.shiftl entry indexBitLength) in
  let zeros := if shiftedValue =? 0 then 32 else builtin_clz shiftedValue in
  let bits := kIndexBitLength - indexBitLength in
  let zeros := if zeros >=? bits then bits + decodeValue entry else zeros in
  dense_insert d (wrap_signed 32 index) (wrap_signed 8 (zeros + 1)).

Fixpoint to_dense_entries (d : DenseHll) (entries : list Z) : result DenseHll :=
  match entries with
  | [] => Ok d
  | e :: entries => let! d := to_dense_entry d e in to_dense_entries d entries
  end.

Definition toDense (s : SparseHll) (d : DenseHll) : result DenseHll := to_dense_entries d (entries_ s).

Definition reset (s : SparseHll) : SparseHll := with_entries s [].

(** * Entries as pairs *)

Definition pair_entry (p : Z * Z) : Z := fst p * 64 + snd p.
Definition pair_ok (p : Z * Z) : Prop := 0 <= fst p < 2 ^ 26 /\ 0 <= snd p < 64.

Lemma entry_parts p :
  pair_ok p -> decodeIndex (pair_entry p) = fst p /\ decodeValue (pair_entry p) = snd p /\ encode_entry (fst p) (snd p) = pair_entry p
    /\ 0 <= pair_entry p < 2 ^ 32.
Proof.
  intros [Hi Hv]. unfold decodeIndex, decodeValue, encode_entry, pair_entry, kValueBitLength.
  change (Z.shiftl 1 6 - 1) with (2 ^ 6 - 1). rewrite land_mod, Z.shiftr_div_pow2, Z.shiftl_mul_pow2 by lia.
  change (2 ^ 6) with 64. rewrite wrap_unsigned_id by lia. split_and!; [euclidean|euclidean| |lia|lia].
  change 64 with (2 ^ 6). rewrite <- (Z.shiftl_mul_pow2 (fst p)) at 1 by lia. apply lor_shiftl; lia.
Qed.

(** The value of a bucket in a list of pairs. *)
Fixpoint assoc (ps : list (Z * Z)) (i : Z) : option Z :=
  match ps with
  | [] => None
  | p :: ps => if fst p =? i then Some (snd p) else assoc ps i
  end.

Definition sorted_pairs (ps : list (Z * Z)) : Prop := StronglySorted (fun p q : Z * Z => fst p < fst q) ps.

Lemma assoc_above ps (p : Z * Z) i : Forall (fun q => fst p < fst q) ps -> i <= fst p -> assoc ps i = None.
Proof.
  induction 1 as [|q ps Hq _ IH]; intros Hi; [done|]. cbn. rewrite (proj2 (Z.eqb_neq (fst q) i)) by lia. by apply IH.
Qed.

Lemma assoc_in ps i v : sorted_pairs ps -> assoc ps i = Some v <-> (i, v) ∈ ps.
Proof.
  induction 1 as [|p ps Hs IH Hp]; cbn; [by rewrite elem_of_nil|]. rewrite elem_of_cons. destruct (fst p =? i) eqn:E.
  - apply Z.eqb_eq in E. subst i. split.
    + intros [= <-]. left. by destruct p.
    + intros [Heq|Hin]; [apply (f_equal snd) in Heq; cbn in Heq; by subst v|]. rewrite Forall_forall in Hp. specialize (Hp _ Hin). cbn in Hp. lia.
  - rewrite IH. split; [by right|]. intros [Heq|Hin]; [|done]. subst p. cbn in E. lia.
Qed.

(** The entries of an instance are the sorted list of a map from buckets to values. *)
Record sparse_rep (es : list Z) (m : gmap Z Z) : Prop := {
  sr_pairs : exists ps, es = map pair_entry ps /\ sorted_pairs ps /\ Forall pair_ok ps /\ forall i, m !! i = assoc ps i
}.

(** ** Search *)

Lemma pairs_lookup ps k e : map pair_entry ps !! k = Some e -> exists p, ps !! k = Some p /\ e = pair_entry p.
Proof. intros H. apply list_lookup_fmap_Some_1 in H as (p & -> & Hp). by exists p. Qed.

Lemma sorted_lookup ps j k p q : sorted_pairs ps -> ps !! j = Some p -> ps !! k = Some q -> (j < k)%nat -> fst p < fst q.
Proof.
  intros Hs. revert j k. induction Hs as [|a ps Hs IH Ha]; intros j k Hj Hk Hjk; [done|].
  destruct k as [|k]; [lia|]. cbn in Hk. destruct j as [|j].
  - injection Hj as ->. rewrite Forall_forall in Ha. apply Ha. by apply list_elem_of_lookup_2 in Hk.
  - cbn in Hj. apply (IH j k); try done. lia.
Qed.

Lemma search_loop_ok ps index fuel low high :
  sorted_pairs ps -> Forall pair_ok ps -> 0 <= low <= high + 1 -> high < Z.of_nat (length ps) -> high - low < Z.of_nat fuel ->
  (forall k p, ps !! k = Some p -> Z.of_nat k < low -> fst p < index) -> (forall k p, ps !! k = Some p -> high < Z.of_nat k -> index < fst p) ->
  (exists k v, ps !! k = Some (index, v) /\ search_loop fuel index (map pair_entry ps) low high = Ok (Z.of_nat k))
  \/ (exists k, (k <= length ps)%nat /\ search_loop fuel index (map pair_entry ps) low high = Ok (- (Z.of_nat k + 1))
        /\ (forall j p, ps !! j = Some p -> (j < k)%nat -> fst p < index) /\ (forall j p, ps !! j = Some p -> (k <= j)%nat -> index < fst p)).
Proof.
  intros Hs Hok. revert low high. induction fuel as [|fuel IH]; intros low high Hlow Hhigh Hfuel Hbelow Habove; cbn [search_loop].
  - replace (low <=? high) with false by lia. right. exists (Z.to_nat low). split_and!; [lia|f_equal; lia|..]; intros j p Hj Hjk; [apply (Hbelow j)|apply (Habove j)]; done || lia.
  - destruct (low <=? high) eqn:E.
    2: { right. exists (Z.to_nat low). split_and!; [lia|f_equal; lia|..]; intros j p Hj Hjk; [apply (Hbelow j)|apply (Habove j)]; done || lia. }
    rewrite Z.shiftr_div_pow2 by lia. change (2 ^ 1) with 2. assert (low <= (low + high) / 2 <= high) as Hmid by euclidean.
    set (mid := (low + high) / 2) in *. destruct (lookup_lt_is_Some_2 ps (Z.to_nat mid) ltac:(lia)) as [p Hp].
    pose proof (Forall_lookup_1 _ _ _ _ Hok Hp) as Hpok. destruct (entry_parts p Hpok) as (Hdi & _ & _ & _).
    rewrite (at_index_ok (map pair_entry ps) mid (pair_entry p)) by (lia || by apply list_lookup_fmap_Some_2 with (x := p)). cbn [rbind]. rewrite Hdi.
    assert (forall k q, ps !! k = Some q -> Z.of_nat k < mid -> fst q < fst p) as Hleft by (intros k q Hk Hlt; apply (sorted_lookup ps k (Z.to_nat mid)); done || lia).
    assert (forall k q, ps !! k = Some q -> mid < Z.of_nat k -> fst p < fst q) as Hright by (intros k q Hk Hlt; apply (sorted_lookup ps (Z.to_nat mid) k); done || lia).
    destruct (index >? fst p) eqn:E1; [|destruct (index <? fst p) eqn:E2].
    + apply IH; try lia; [|done]. intros k q Hk Hlt. destruct (decide (Z.of_nat k = mid)) as [Hkm|]; [|pose proof (Hleft k q Hk ltac:(lia)); lia].
      replace (Z.to_nat mid) with k in Hp by lia. rewrite Hk in Hp. injection Hp as ->. lia.
    + apply IH; try lia; [done|]. intros k q Hk Hlt. destruct (decide (Z.of_nat k = mid)) as [Hkm|]; [|pose proof (Hright k q Hk ltac:(lia)); lia].
      replace (Z.to_nat mid) with k in Hp by lia. rewrite Hk in Hp. injection Hp as ->. lia.
    + left. exists (Z.to_nat mid), (snd p). assert (fst p = index) as <- by lia. split; [rewrite Hp; by destruct p|f_equal; lia].
Qed.

Lemma searchIndex_ok ps index :
  sorted_pairs ps -> Forall pair_ok ps ->
  (exists k v, ps !! k = Some (index, v) /\ searchIndex index (map pair_entry ps) = Ok (Z.of_nat k))
  \/ (exists k, (k <= length ps)%nat /\ searchIndex index (map pair_entry ps) = Ok (- (Z.of_nat k + 1))
        /\ (forall j p, ps !! j = Some p -> (j < k)%nat -> fst p < index) /\ (forall j p, ps !! j = Some p -> (k <= j)%nat -> index < fst p)).
Proof.
  intros Hs Hok. unfold searchIndex. rewrite length_map. apply search_loop_ok; try done; try lia; intros k p Hk Hlt; try lia.
  apply lookup_lt_Some in Hk. lia.
Qed.

(** ** Insertion *)

Lemma sorted_intro ps : (forall j k p q, ps !! j = Some p -> ps !! k = Some q -> (j < k)%nat -> fst p < fst q) -> sorted_pairs ps.
Proof.
  induction ps as [|a ps IH]; intros H; [constructor|]. constructor.
  - apply IH. intros j k p q Hj Hk Hjk. apply (H (S j) (S k)); try done. lia.
  - apply Forall_forall. intros q [k Hk]%list_elem_of_lookup_1. apply (H 0%nat (S k)); try done. lia.
Qed.

Lemma assoc_intro ps (m : gmap Z Z) : sorted_pairs ps -> (forall i v, m !! i = Some v <-> (i, v) ∈ ps) -> forall i, m !! i = assoc ps i.
Proof. intros Hs H i. apply option_eq. intros v. by rewrite H, assoc_in. Qed.

Definition sparse_value (h : Z) : Z := leading_zeros 38 (h mod 2 ^ 38).

Definition sparse_add (m : gmap Z Z) (h : Z) : gmap Z Z :=
  <[hash_index 26 h := match m !! hash_index 26 h with Some v => Z.max v (sparse_value h) | None => sparse_value h end]> m.

Lemma insert_at_lookup (l : list (Z * Z)) k x j :
  (k <= length l)%nat -> (take k l ++ x :: drop k l) !! j = if decide (j < k)%nat then l !! j else if decide (j = k) then Some x else l !! (j - 1)%nat.
Proof.
  intros Hk. assert (length (take k l) = k) as Hl by (rewrite length_take; lia). destruct (decide (j < k)%nat) as [Hlt|Hge].
  - rewrite lookup_app_l, lookup_take_lt by lia. done.
  - rewrite lookup_app_r, Hl by lia. destruct (decide (j = k)) as [->|Hne]; [by rewrite Nat.sub_diag|].
    replace (j - k)%nat with (S (j - k - 1)) by lia. change (drop k l !! (j - k - 1)%nat = l !! (j - 1)%nat). rewrite lookup_drop. f_equal. lia.
Qed.

(** A pair replaces the one of its bucket. *)
Lemma replace_pair ps k i v v' (m : gmap Z Z) :
  sorted_pairs ps -> (forall j, m !! j = assoc ps j) -> ps !! k = Some (i, v) ->
  sorted_pairs (<[k := (i, v')]> ps) /\ forall j, <[i := v']> m !! j = assoc (<[k := (i, v')]> ps) j.
Proof.
  intros Hs Hm Hk. pose proof (lookup_lt_Some _ _ _ Hk) as Hlt.
  assert (forall j p, <[k := (i, v')]> ps !! j = Some p -> (j = k /\ p = (i, v')) \/ (j <> k /\ ps !! j = Some p)) as Hcase.
  { intros j p Hj. destruct (decide (j = k)) as [->|Hne]; [rewrite list_lookup_insert_eq in Hj by done; injection Hj as <-; by left|].
    rewrite list_lookup_insert_ne in Hj by done. by right. }
  assert (sorted_pairs (<[k := (i, v')]> ps)) as Hs'.
  { apply sorted_intro. intros j l p q [[-> ->]|[Hj Hp]]%Hcase [[-> ->]|[Hl Hq]]%Hcase Hjl; [lia|..].
    - apply (sorted_lookup ps k l (i, v) q); done.
    - apply (sorted_lookup ps j k p (i, v)); done.
    - by apply (sorted_lookup ps j l p q). }
  split; [done|]. apply assoc_intro; [done|]. intros j w. destruct (decide (j = i)) as [->|Hne].
  - rewrite lookup_insert_eq. split.
    + intros [= <-]. apply (list_elem_of_lookup_2 _ k). by apply list_lookup_insert_eq.
    + intros [l [[-> Heq]|[Hl Hq]]%Hcase]%list_elem_of_lookup_1; [congruence|]. exfalso.
      destruct (decide (l < k)%nat); [pose proof (sorted_lookup ps l k _ _ Hs Hq Hk ltac:(lia)) as Hc|pose proof (sorted_lookup ps k l _ _ Hs Hk Hq ltac:(lia)) as Hc]; cbn in Hc; lia.
  - rewrite lookup_insert_ne, Hm, assoc_in by done. split.
    + intros [l Hl]%list_elem_of_lookup_1. apply (list_elem_of_lookup_2 _ l). rewrite list_lookup_insert_ne; [done|]. intros ->. rewrite Hl in Hk. congruence.
    + intros [l [[-> Heq]|[Hl Hq]]%Hcase]%list_elem_of_lookup_1; [congruence|]. by apply (list_elem_of_lookup_2 _ l).
Qed.

(** A pair of a new bucket goes to its place. *)
Lemma insert_pair ps k i v (m : gmap Z Z) :
  sorted_pairs ps -> (forall j, m !! j = assoc ps j) -> (k <= length ps)%nat ->
  (forall j p, ps !! j = Some p -> (j < k)%nat -> fst p < i) -> (forall j p, ps !! j = Some p -> (k <= j)%nat -> i < fst p) ->
  m !! i = None /\ sorted_pairs (take k ps ++ (i, v) :: drop k ps) /\ forall j, <[i := v]> m !! j = assoc (take k ps ++ (i, v) :: drop k ps) j.
Proof.
  intros Hs Hm Hk Hbelow Habove.
  assert (m !! i = None) as Hnone.
  { destruct (m !! i) as [w|] eqn:E; [|done]. rewrite Hm, assoc_in in E by done. apply list_elem_of_lookup_1 in E as [j Hj].
    destruct (decide (j < k)%nat); [pose proof (Hbelow j _ Hj ltac:(lia)) as Hc|pose proof (Habove j _ Hj ltac:(lia)) as Hc]; cbn in Hc; lia. }
  assert (sorted_pairs (take k ps ++ (i, v) :: drop k ps)) as Hs'.
  { apply sorted_intro. intros j l p q. rewrite !insert_at_lookup by done. intros Hp Hq Hjl. repeat case_decide; try lia;
      try (injection Hp as <-); try (injection Hq as <-); cbn [fst];
      first [by apply (sorted_lookup ps j l)|by apply (Hbelow j)|apply (sorted_lookup ps j (l - 1)); done || lia|apply (Habove (l - 1)%nat); done || lia
            |apply (sorted_lookup ps (j - 1) (l - 1)); done || lia]. }
  split_and!; [done|done|]. apply assoc_intro; [done|]. intros j w. rewrite elem_of_app, elem_of_cons. destruct (decide (j = i)) as [->|Hne].
  - rewrite lookup_insert_eq. split; [intros [= <-]; right; by left|]. intros Hin.
    assert ((i, w) ∉ ps) as Hnin by (rewrite <- assoc_in, <- Hm, Hnone by done; done).
    destruct Hin as [Hin|[Heq|Hin]]; [|congruence|]; exfalso; apply Hnin; rewrite <- (take_drop k ps); apply elem_of_app; [by left|by right].
  - rewrite lookup_insert_ne, Hm, assoc_in by done. rewrite <- (take_drop k ps) at 1. rewrite elem_of_app. split; [intros [?|?]; tauto|]. intros [?|[Heq|?]]; [tauto|congruence|tauto].
Qed.

Lemma sparse_value_range h : 0 <= sparse_value h <= 38.
Proof. apply leading_zeros_range; [lia|]. apply Z.mod_pos_bound. lia. Qed.

Lemma map_insert_at {A B} (f : A -> B) l k x : map f (take k l ++ x :: drop k l) = take k (map f l) ++ f x :: drop k (map f l).
Proof. rewrite map_app. cbn [map]. by rewrite <- firstn_map, <- skipn_map. Qed.

Lemma sparse_insertHash_ok s m h :
  sparse_rep (entries_ s) m -> hash_ok h ->
  exists es, sparse_insertHash s h = Ok (with_entries s es, overLimit (with_entries s es)) /\ sparse_rep es (sparse_add m h)
    /\ (length es <= length (entries_ s) + 1)%nat.
Proof.
  intros [(ps & Hes & Hs & Hok & Hm)] Hh. destruct (computeIndex_ok h 26 Hh ltac:(lia)) as [Hidx Hirange]. pose proof (sparse_value_range h) as Hv.
  unfold sparse_insertHash, kIndexBitLength. cbv zeta. rewrite Hidx, numberOfLeadingZeros_ok by (done || lia). change (64 - 26) with 38. fold (sparse_value h).
  assert (pair_ok (hash_index 26 h, sparse_value h)) as Hpok by (split; cbn; lia). destruct (entry_parts _ Hpok) as (_ & _ & Henc & _). cbn [fst snd] in Henc.
  rewrite Henc, Hes. unfold sparse_add. destruct (searchIndex_ok ps (hash_index 26 h) Hs Hok) as [(k & v & Hk & ->)|(k & Hk & -> & Hbelow & Habove)]; cbn [rbind].
  - replace (Z.of_nat k >=? 0) with true by (symmetry; apply Z.geb_le; lia). pose proof (Forall_lookup_1 _ _ _ _ Hok Hk) as Hkok. destruct (entry_parts _ Hkok) as (_ & Hdv & _ & _).
    assert (map pair_entry ps !! k = Some (pair_entry (hash_index 26 h, v))) as Hke by (by apply list_lookup_fmap_Some_2 with (x := (hash_index 26 h, v))).
    rewrite (vector_is_array _ _ _ Hke : at_index _ _ = _). cbn [rbind]. rewrite Hdv. cbn [snd].
    assert (m !! hash_index 26 h = Some v) as Hmv by (rewrite Hm, assoc_in by done; by apply (list_elem_of_lookup_2 _ k)). rewrite Hmv.
    destruct (v <? sparse_value h) eqn:E.
    + rewrite set_index_ok by (rewrite length_map; apply lookup_lt_Some in Hk; lia). cbn [rbind]. rewrite Nat2Z.id, Z.max_r by lia.
      destruct (replace_pair ps k (hash_index 26 h) v (sparse_value h) m Hs Hm Hk) as [Hs' Hm'].
      eexists. split; [done|]. rewrite length_insert. split; [|lia]. constructor. exists (<[k := (hash_index 26 h, sparse_value h)]> ps).
      split_and!; try done; [|by apply Forall_insert]. symmetry. apply (list_fmap_insert pair_entry).
    + cbn [rbind]. eexists. split; [done|]. split; [|rewrite length_map; lia]. constructor. exists ps. split_and!; try done. intros i. rewrite Z.max_l by lia.
      rewrite insert_id by done. apply Hm.
  - replace (- (Z.of_nat k + 1) >=? 0) with false by (rewrite Z.geb_leb; symmetry; apply Z.leb_gt; lia). cbn [rbind]. replace (Z.to_nat (- - (Z.of_nat k + 1) - 1)) with k by lia.
    destruct (insert_pair ps k (hash_index 26 h) (sparse_value h) m Hs Hm Hk Hbelow Habove) as (Hnone & Hs' & Hm').
    rewrite Hnone. eexists. split; [done|]. split; [|rewrite length_app; cbn [length]; rewrite length_take, length_drop, length_map; lia].
    constructor. exists (take k ps ++ (hash_index 26 h, sparse_value h) :: drop k ps). split_and!; try done; [by rewrite map_insert_at|].
    apply Forall_app. split; [by apply Forall_take|]. apply Forall_cons. split; [done|by apply Forall_drop].
Qed.

(** ** Merging *)

Definition join (a b : option Z) : option Z :=
  match a, b with
  | Some x, Some y => Some (Z.max x y)
  | Some x, None => Some x
  | None, b => b
  end.

(** The merge of two sorted lists. *)
Inductive merged : list (Z * Z) -> list (Z * Z) -> list (Z * Z) -> Prop :=
| merged_nil_l qs : merged [] qs qs
| merged_nil_r ps : merged ps [] ps
| merged_l p q ps qs rs : fst p < fst q -> merged ps (q :: qs) rs -> merged (p :: ps) (q :: qs) (p :: rs)
| merged_r p q ps qs rs : fst q < fst p -> merged (p :: ps) qs rs -> merged (p :: ps) (q :: qs) (q :: rs)
| merged_both p q ps qs rs : fst p = fst q -> merged ps qs rs -> merged (p :: ps) (q :: qs) ((fst p, Z.max (snd p) (snd q)) :: rs).

Lemma merged_forall (P : Z * Z -> Prop) ps qs rs :
  (forall i x y, P (i, x) -> P (i, y) -> P (i, Z.max x y)) -> merged ps qs rs -> Forall P ps -> Forall P qs -> Forall P rs.
Proof.
  intros HP. induction 1 as [| |p q ps qs rs Hlt Hm IH|p q ps qs rs Hlt Hm IH|p q ps qs rs Heq Hm IH]; intros Hp Hq; try done.
  - apply Forall_cons in Hp as [Hp Hps]. constructor; [done|]. by apply IH.
  - apply Forall_cons in Hq as [Hq Hqs]. constructor; [done|]. by apply IH.
  - apply Forall_cons in Hp as [Hp Hps]. apply Forall_cons in Hq as [Hq Hqs]. constructor; [|by apply IH].
    destruct p as [i x], q as [j y]. cbn in Heq |- *. subst j. by apply HP.
Qed.

Lemma merged_above ps qs rs i : merged ps qs rs -> Forall (fun p => i < fst p) ps -> Forall (fun q => i < fst q) qs -> Forall (fun r => i < fst r) rs.
Proof. by apply (merged_forall (fun p => i < fst p)). Qed.

Lemma merged_ok ps qs rs : merged ps qs rs -> Forall pair_ok ps -> Forall pair_ok qs -> Forall pair_ok rs.
Proof. apply merged_forall. intros i x y [Hi Hx] [_ Hy]. split; cbn in *; lia. Qed.

Lemma sorted_weaken ps i j : Forall (fun p : Z * Z => i < fst p) ps -> j <= i -> Forall (fun p => j < fst p) ps.
Proof. intros H Hj. apply (Forall_impl _ _ _ H). intros p Hp. lia. Qed.

Lemma merged_sorted ps qs rs : merged ps qs rs -> sorted_pairs ps -> sorted_pairs qs -> sorted_pairs rs.
Proof.
  induction 1 as [| |p q ps qs rs Hlt Hm IH|p q ps qs rs Hlt Hm IH|p q ps qs rs Heq Hm IH]; intros Hp Hq; try done;
    apply StronglySorted_inv in Hp as [Hps Hp'], Hq as [Hqs Hq']; constructor; try (apply IH; done || by constructor).
  - apply (merged_above _ _ _ _ Hm); [done|]. constructor; [done|]. apply (sorted_weaken _ (fst q)); [done|lia].
  - apply (merged_above _ _ _ _ Hm); [|done]. constructor; [done|]. apply (sorted_weaken _ (fst p)); [done|lia].
  - apply (merged_above _ _ _ _ Hm); cbn [fst]; [done|]. apply (sorted_weaken _ (fst q)); [done|lia].
Qed.

Lemma merged_assoc ps qs rs i : merged ps qs rs -> sorted_pairs ps -> sorted_pairs qs -> assoc rs i = join (assoc ps i) (assoc qs i).
Proof.
  induction 1 as [qs|ps|p q ps qs rs Hlt Hm IH|p q ps qs rs Hlt Hm IH|p q ps qs rs Heq Hm IH]; intros Hp Hq; try done; [by destruct (assoc ps i)|..];
    pose proof (StronglySorted_inv Hp) as [Hps Hp']; pose proof (StronglySorted_inv Hq) as [Hqs Hq'].
  - cbn [assoc] in *. rewrite IH by done. destruct (fst p =? i) eqn:E; [|done]. apply Z.eqb_eq in E.
    rewrite (proj2 (Z.eqb_neq (fst q) i)) by lia. rewrite (assoc_above qs q i) by (done || lia). done.
  - cbn [assoc] in *. rewrite IH by done. destruct (fst q =? i) eqn:E; [|done]. apply Z.eqb_eq in E.
    rewrite (proj2 (Z.eqb_neq (fst p) i)) by lia. rewrite (assoc_above ps p i) by (done || lia). done.
  - cbn [assoc fst snd]. rewrite IH, <- Heq by done. by destruct (fst p =? i).
Qed.

Lemma merged_length ps qs rs : merged ps qs rs -> (length rs <= length ps + length qs)%nat.
Proof. induction 1; cbn [length] in *; lia. Qed.

(** The loop computes the merge up to the end of one of the lists. *)
Lemma merge_both_ok fuel ps qs other l r acc :
  Forall pair_ok ps -> Forall pair_ok qs -> is_array other (map pair_entry qs) -> (l <= length ps)%nat -> (r <= length qs)%nat ->
  (length ps - l + (length qs - r) <= fuel)%nat ->
  exists l' r' rs, (l' <= length ps)%nat /\ (r' <= length qs)%nat /\
    merge_both fuel (map pair_entry ps) (Z.of_nat (length qs)) other (Z.of_nat l) (Z.of_nat r) acc = Ok (Z.of_nat l', Z.of_nat r', acc ++ map pair_entry rs)
    /\ merged (drop l ps) (drop r qs) (rs ++ drop l' ps ++ drop r' qs).
Proof.
  intros Hp Hq Ho. revert l r acc. induction fuel as [|fuel IH]; intros l r acc Hl Hr Hfuel; cbn [merge_both]; rewrite length_map;
    destruct ((Z.of_nat l <? Z.of_nat (length ps)) && (Z.of_nat r <? Z.of_nat (length qs))) eqn:E; try lia.
  1, 3: exists l, r, []; split_and!; [done|done|by rewrite app_nil_r|]; apply andb_false_iff in E;
    (destruct E as [E|E]; [rewrite (drop_ge ps) by lia; constructor|rewrite (drop_ge qs) by lia; rewrite app_nil_r; constructor]).
  apply andb_true_iff in E as [El Er].
  destruct (lookup_lt_is_Some_2 ps l ltac:(lia)) as [p Hlp]. destruct (lookup_lt_is_Some_2 qs r ltac:(lia)) as [q Hrq].
  pose proof (entry_parts p (Forall_lookup_1 _ _ _ _ Hp Hlp)) as (Hpi & Hpv & Hpe & _). pose proof (entry_parts q (Forall_lookup_1 _ _ _ _ Hq Hrq)) as (Hqi & Hqv & Hqe & _).
  rewrite (vector_is_array (map pair_entry ps) l (pair_entry p) (list_lookup_fmap_Some_2 pair_entry _ _ _ Hlp) : at_index _ _ = _).
  rewrite (Ho r (pair_entry q)) by (by apply list_lookup_fmap_Some_2 with (x := q)). cbn [rbind]. rewrite Hpi, Hqi, Hpv, Hqv.
  rewrite (drop_S ps p l Hlp), (drop_S qs q r Hrq). replace (Z.of_nat l + 1) with (Z.of_nat (S l)) by lia. replace (Z.of_nat r + 1) with (Z.of_nat (S r)) by lia.
  destruct (fst p <? fst q) eqn:E1; [|destruct (fst p >? fst q) eqn:E2].
  - destruct (IH (S l) r (acc ++ [pair_entry p])) as (l' & r' & rs & Hl' & Hr' & Hrun & Hm); try lia. exists l', r', (p :: rs). rewrite Hrun, <- app_assoc.
    split_and!; try done. cbn [app]. rewrite (drop_S qs q r Hrq) in Hm. apply merged_l; [lia|done].
  - destruct (IH l (S r) (acc ++ [pair_entry q])) as (l' & r' & rs & Hl' & Hr' & Hrun & Hm); try lia. exists l', r', (q :: rs). rewrite Hrun, <- app_assoc.
    split_and!; try done. cbn [app]. rewrite (drop_S ps p l Hlp) in Hm. apply merged_r; [lia|done].
  - assert (pair_ok (fst p, Z.max (snd p) (snd q))) as Hmax
      by (destruct (Forall_lookup_1 _ _ _ _ Hp Hlp), (Forall_lookup_1 _ _ _ _ Hq Hrq); split; cbn in *; lia).
    destruct (entry_parts _ Hmax) as (_ & _ & Henc & _). cbn [fst snd] in Henc. rewrite Henc.
    destruct (IH (S l) (S r) (acc ++ [pair_entry (fst p, Z.max (snd p) (snd q))])) as (l' & r' & rs & Hl' & Hr' & Hrun & Hm); try lia.
    exists l', r', ((fst p, Z.max (snd p) (snd q)) :: rs). rewrite Hrun, <- app_assoc. split_and!; try done. cbn [app]. apply merged_both; [lia|done].
Qed.

Lemma map_drop {A B} (f : A -> B) n l : map f (drop n l) = drop n (map f l).
Proof. symmetry. apply skipn_map. Qed.

Lemma copy_rest a l i : is_array a l -> (i <= length l)%nat -> copy_array (Z.to_nat (Z.of_nat (length l) - Z.of_nat i)) (Z.of_nat i) a = Ok (drop i l).
Proof.
  intros Ha Hi. rewrite (copy_array_ok a l) by (done || lia). f_equal. apply take_ge. rewrite length_drop. lia.
Qed.

Definition join_maps (m n : gmap Z Z) : gmap Z Z := merge join m n.

Lemma merge_entries_ok s m es n other :
  sparse_rep (entries_ s) m -> sparse_rep es n -> is_array other es -> es <> [] ->
  exists rs, merge_entries s (Z.of_nat (length es)) other = Ok (with_entries s rs) /\ sparse_rep rs (join_maps m n)
    /\ (length rs <= length (entries_ s) + length es)%nat.
Proof.
  intros [(ps & Hes & Hs & Hok & Hm)] [(qs & -> & Hs2 & Hok2 & Hn)] Ho Hne. unfold merge_entries.
  assert (Z.of_nat (length (map pair_entry qs)) >? 0 = true) as -> by (destruct qs; [done|apply Z.gtb_lt; cbn [map length]; lia]). cbn [check rbind]. cbv zeta.
  rewrite Hes, (length_map pair_entry qs), Nat2Z.id.
  destruct (merge_both_ok (length (map pair_entry ps) + length qs) ps qs other 0 0 []) as (l & r & rs & Hl & Hr & Hrun & Hmg); try (done || lia).
  { rewrite length_map. lia. }
  change (Z.of_nat 0) with 0 in Hrun. rewrite Hrun. cbn [rbind app]. rewrite !drop_0 in Hmg.
  rewrite (copy_rest _ (map pair_entry ps)) by (apply vector_is_array || by rewrite length_map). rewrite <- (length_map pair_entry qs).
  rewrite (copy_rest other (map pair_entry qs)) by (done || by rewrite length_map). cbn [rbind].
  exists (map pair_entry (rs ++ drop l ps ++ drop r qs)). split; [by rewrite !map_app, !map_drop|]. split; [|rewrite !length_map; by apply merged_length].
  constructor. eexists. split_and!; [done|by apply (merged_sorted ps qs)|by apply (merged_ok ps qs)|]. intros i. unfold join_maps.
  rewrite lookup_merge, Hm, Hn, (merged_assoc ps qs _ i Hmg) by done. by destruct (assoc ps i), (assoc qs i).
Qed.

(** ** The buckets of a list of hashes *)

Definition sparse_of (hs : list Z) : gmap Z Z := foldr (fun h m => sparse_add m h) ∅ hs.

(** The largest value of the hashes of a bucket. *)
Fixpoint bucket (hs : list Z) (i : Z) : option Z :=
  match hs with
  | [] => None
  | h :: hs => if hash_index 26 h =? i then join (bucket hs i) (Some (sparse_value h)) else bucket hs i
  end.

Lemma sparse_of_lookup hs i : sparse_of hs !! i = bucket hs i.
Proof.
  induction hs as [|h hs IH]; [apply lookup_empty|]. change (sparse_of (h :: hs)) with (sparse_add (sparse_of hs) h). cbn [bucket].
  unfold sparse_add. destruct (hash_index 26 h =? i) eqn:E.
  - apply Z.eqb_eq in E. subst i. rewrite lookup_insert_eq, IH. by destruct (bucket hs _).
  - apply Z.eqb_neq in E. by rewrite lookup_insert_ne.
Qed.

Lemma join_assoc a b c : join (join a b) c = join a (join b c).
Proof. destruct a, b, c; cbn; f_equal; lia. Qed.

Lemma join_comm a b : join a b = join b a.
Proof. destruct a, b; cbn; f_equal; lia. Qed.

Lemma bucket_app hs hs' i : bucket (hs ++ hs') i = join (bucket hs i) (bucket hs' i).
Proof.
  induction hs as [|h hs IH]; cbn; [done|]. rewrite IH. destruct (_ =? i); [|done].
  by rewrite !join_assoc, (join_comm (bucket hs' i)).
Qed.

Lemma sparse_of_app hs hs' : join_maps (sparse_of hs) (sparse_of hs') = sparse_of (hs' ++ hs).
Proof.
  apply map_eq. intros i. unfold join_maps. rewrite lookup_merge, !sparse_of_lookup, bucket_app, join_comm.
  by destruct (bucket hs' i), (bucket hs i).
Qed.

Lemma bucket_none hs i h : bucket hs i = None -> h ∈ hs -> hash_index 26 h <> i.
Proof.
  induction hs as [|k l IH]; [by intros _ ?%elem_of_nil|]. cbn. intros Hb [-> |Hl]%elem_of_cons Hi.
  - rewrite Hi, Z.eqb_refl in Hb. by destruct (bucket l i).
  - destruct (_ =? i); [by destruct (bucket l i)|by apply IH].
Qed.

(** The value of a bucket is one of its hashes, and none is larger. *)
Lemma bucket_some hs i v :
  bucket hs i = Some v <->
  (exists h, h ∈ hs /\ hash_index 26 h = i /\ sparse_value h = v) /\ forall h, h ∈ hs -> hash_index 26 h = i -> sparse_value h <= v.
Proof.
  revert v. induction hs as [|g hs IH]; intros v; cbn [bucket]; [split; [done|]; intros [(h & Hh & _) _]; by apply elem_of_nil in Hh|].
  setoid_rewrite elem_of_cons. destruct (hash_index 26 g =? i) eqn:E.
  - apply Z.eqb_eq in E. destruct (bucket hs i) as [w|] eqn:Ew; cbn [join].
    + destruct (proj1 (IH w) eq_refl) as [(k & Hk & Hki & Hkv) Hmax]. split.
      * intros [= <-]. split; [destruct (decide (sparse_value g <= w)); [exists k|exists g]; (split_and!; [tauto|done|lia])|].
        intros h [-> | Hh] Hi; [lia|]. specialize (Hmax h Hh Hi). lia.
      * intros [(h & Hh & Hi & Hv) Hle]. f_equal. pose proof (Hle g (or_introl eq_refl) E) as H1. pose proof (Hle k (or_intror Hk) Hki) as H2.
        destruct Hh as [-> |Hh]; [lia|]. specialize (Hmax h Hh Hi). lia.
    + pose proof (fun h => bucket_none hs i h Ew) as Hno.
      split; [intros [= <-]; split; [exists g; tauto|]; intros h [-> |Hh] Hi; [lia|by destruct (Hno h Hh)]|].
      intros [(h & [-> |Hh] & Hi & Hv) _]; [by f_equal|by destruct (Hno h Hh)].
  - apply Z.eqb_neq in E. rewrite IH. split; intros [(h & Hh & Hi & Hv) Hle]; (split; [exists h; split_and!; [|done|done]|]).
    + tauto.
    + intros k [-> |Hk] Hki; [done|by apply Hle].
    + by destruct Hh as [-> |Hh].
    + intros k Hk. apply Hle. tauto.
Qed.

Lemma bucket_exists hs h : h ∈ hs -> exists v, bucket hs (hash_index 26 h) = Some v /\ sparse_value h <= v.
Proof.
  intros Hh. destruct (bucket hs (hash_index 26 h)) as [v|] eqn:E; [exists v; split; [done|]; apply bucket_some in E as [_ Hle]; by apply Hle|].
  by destruct (bucket_none _ _ h E Hh).
Qed.

(** The number of buckets in use. *)
Definition distinct (hs : list Z) : nat := length (remove_dups (map (hash_index 26) hs)).

Lemma distinct_mono hs hs' : (forall h, h ∈ hs -> h ∈ hs') -> (distinct hs <= distinct hs')%nat.
Proof.
  intros H. apply NoDup_incl_length; [apply NoDup_ListNoDup, NoDup_remove_dups|]. intros i. rewrite <- !list_elem_of_In, !elem_of_remove_dups.
  intros (h & -> & Hh)%list_elem_of_fmap. apply list_elem_of_fmap_2. by apply H.
Qed.

Lemma sorted_nodup ps : sorted_pairs ps -> NoDup (map fst ps).
Proof.
  induction 1 as [|p ps Hs IH Hp]; [constructor|]. cbn. constructor; [|done]. intros (q & Heq & Hq)%list_elem_of_fmap. rewrite Forall_forall in Hp.
  specialize (Hp q Hq). lia.
Qed.

(** There is an entry for each. *)
Lemma sparse_length es hs : sparse_rep es (sparse_of hs) -> length es = distinct hs.
Proof.
  intros [(ps & -> & Hs & _ & Hm)]. rewrite length_map, <- (length_map fst ps).
  assert (forall i, i ∈ map fst ps <-> i ∈ remove_dups (map (hash_index 26) hs)) as Hin.
  { intros i. rewrite elem_of_remove_dups. split.
    - intros ((j & v) & -> & Hq)%list_elem_of_fmap. apply (assoc_in ps j v Hs) in Hq. rewrite <- Hm, sparse_of_lookup in Hq.
      apply bucket_some in Hq as [(h & Hh & <- & _) _]. cbn [fst]. by apply list_elem_of_fmap_2.
    - intros (h & -> & Hh)%list_elem_of_fmap. destruct (bucket_exists hs h Hh) as (v & Hv & _). rewrite <- sparse_of_lookup, Hm, assoc_in in Hv by done.
      by apply (list_elem_of_fmap_2 fst) in Hv. }
  unfold distinct. apply Nat.le_antisymm; (apply NoDup_incl_length; [apply NoDup_ListNoDup|intros i; rewrite <- !list_elem_of_In; apply Hin]).
  - by apply sorted_nodup.
  - apply NoDup_remove_dups.
Qed.

(** The entries are determined by the buckets. *)
Lemma sparse_unique es es' m : sparse_rep es m -> sparse_rep es' m -> es = es'.
Proof.
  intros [(ps & -> & Hs & _ & Hm)] [(qs & -> & Hs' & _ & Hm')]. f_equal. apply (sorted_unique (fun p q : Z * Z => fst p < fst q)); [lia|done|done|]. intros [i v].
  by rewrite <- !assoc_in, <- Hm, <- Hm' by done.
Qed.

Lemma sparse_of_set hs hs' : (forall h, h ∈ hs <-> h ∈ hs') -> sparse_of hs = sparse_of hs'.
Proof.
  intros H. apply map_eq. intros i. rewrite !sparse_of_lookup. apply option_eq. intros v. rewrite !bucket_some. by setoid_rewrite H.
Qed.

Lemma sparse_empty : sparse_rep [] (sparse_of []).
Proof. constructor. exists []. split_and!; [done|constructor|constructor|done]. Qed.

(** ** The serialized form *)

Definition sparse_bytes (L : Z) (es : list Z) : list Z :=
  [kPrestoSparseV2] ++ [L mod 256] ++ le_bytes 2 (Z.of_nat (length es)) ++ flat_map (le_bytes 4) es.

Lemma sparse_serialize_ok s L : Z.of_nat (length (entries_ s)) < 2 ^ 15 -> overwrites (sparse_serialize s L) (sparse_bytes L (entries_ s)).
Proof.
  intros Hl. unfold sparse_serialize, sparse_bytes, appendOne. rewrite wrap_signed_id by lia.
  apply overwrites_bind; [apply (put_overwrites [2])|]. apply overwrites_bind; [apply put_overwrites|]. apply overwrites_bind; apply put_overwrites.
Qed.

Lemma sparse_bytes_length L es : Z.of_nat (length (sparse_bytes L es)) = 4 + 4 * Z.of_nat (length es).
Proof. unfold sparse_bytes. rewrite !length_app, flat_le_length, le_bytes_length. cbn [length]. lia. Qed.

Lemma uint32_is_array pre xs post :
  Forall (fun x => 0 <= x < 2 ^ 32) xs -> is_array (uint32_data (pre ++ flat_map (le_bytes 4) xs ++ post) (Z.of_nat (length pre))) xs.
Proof.
  intros Hok j x Hj. pose proof (Forall_lookup_1 _ _ _ _ Hok Hj) as Hx. cbn beta in Hx. unfold uint32_data, load_uint32.
  rewrite <- (take_drop_middle xs j x Hj) at 1. rewrite flat_map_app. cbn [flat_map]. rewrite <- !app_assoc, app_assoc.
  replace (Z.of_nat (length pre) + 4 * Z.of_nat j) with (Z.of_nat (length (pre ++ flat_map (le_bytes 4) (take j xs)))).
  - rewrite load_le_ok. f_equal. change (256 ^ Z.of_nat 4) with (2 ^ 32). by apply Z.mod_small.
  - rewrite length_app, flat_le_length, length_take. apply lookup_lt_Some in Hj. lia.
Qed.

Lemma sparse_entries_range es m : sparse_rep es m -> Forall (fun x => 0 <= x < 2 ^ 32) es.
Proof.
  intros [(ps & -> & _ & Hok & _)]. apply Forall_forall. intros x (p & -> & Hp)%list_elem_of_fmap. rewrite Forall_forall in Hok.
  by apply entry_parts, Hok.
Qed.

Lemma sparse_reads L es m rest :
  sparse_rep es m -> Z.of_nat (length es) < 2 ^ 15 -> int8_ok L ->
  load_int8 (sparse_bytes L es ++ rest) 0 = Ok kPrestoSparseV2 /\ load_int8 (sparse_bytes L es ++ rest) 1 = Ok L
  /\ initializeInputStream (sparse_bytes L es ++ rest) = Ok (Z.of_nat (length es)) /\ is_array (uint32_data (sparse_bytes L es ++ rest) 4) es.
Proof.
  intros Hr Hl HL. assert (load_int8 (sparse_bytes L es ++ rest) 0 = Ok kPrestoSparseV2) as H0 by (by apply (load_int8_ok [] 2)).
  assert (load_int8 (sparse_bytes L es ++ rest) 1 = Ok L) as H1 by (by apply (load_int8_ok [kPrestoSparseV2] L)). split_and!; try done.
  - unfold initializeInputStream. rewrite H0. cbn [rbind]. rewrite Z.eqb_refl. cbn [check]. rewrite H1. cbn [rbind]. unfold load_int16.
    pose proof (load_le_ok 2 [kPrestoSparseV2; L mod 256] (Z.of_nat (length es)) (flat_map (le_bytes 4) es ++ rest)) as H2. change (Z.of_nat (length [_; _])) with 2 in H2.
    unfold sparse_bytes. rewrite <- !app_assoc. cbn [app] in *. rewrite H2. cbn [rbind]. change (256 ^ Z.of_nat 2) with (2 ^ 16). by rewrite Z.mod_small, wrap_signed_id by lia.
  - replace (sparse_bytes L es ++ rest) with (([kPrestoSparseV2] ++ [L mod 256] ++ le_bytes 2 (Z.of_nat (length es))) ++ flat_map (le_bytes 4) es ++ rest)
      by (unfold sparse_bytes; by rewrite <- !app_assoc). apply (uint32_is_array ([kPrestoSparseV2] ++ [L mod 256] ++ le_bytes 2 (Z.of_nat (length es)))).
    by apply (sparse_entries_range es m).
Qed.

Lemma SparseHll_of_serialized_ok L es m rest :
  sparse_rep es m -> Z.of_nat (length es) < 2 ^ 15 -> int8_ok L -> SparseHll_of_serialized (sparse_bytes L es ++ rest) = Ok (mkSparseHll es 0).
Proof.
  intros Hr Hl HL. destruct (sparse_reads L es m rest Hr Hl HL) as (_ & _ & Hi & Ha). unfold SparseHll_of_serialized. rewrite Hi. cbn [rbind].
  rewrite (proj2 (Z.geb_le (Z.of_nat (length es)) 0)) by lia. cbn [check]. rewrite Nat2Z.id, (copy_prefix _ es) by done. cbn [rbind]. by rewrite firstn_all.
Qed.

Lemma sparse_mergeWith_serialized_ok s L es hs hs' rest :
  sparse_rep (entries_ s) (sparse_of hs) -> sparse_rep es (sparse_of hs') -> Z.of_nat (length es) < 2 ^ 15 -> int8_ok L ->
  exists rs, sparse_mergeWith_serialized s (sparse_bytes L es ++ rest) = Ok (with_entries s rs) /\ sparse_rep rs (sparse_of (hs' ++ hs)).
Proof.
  intros Hs Hr Hl HL. destruct (sparse_reads L es _ rest Hr Hl HL) as (_ & _ & Hi & Ha). unfold sparse_mergeWith_serialized. rewrite Hi. cbn [rbind].
  rewrite <- sparse_of_app. destruct (decide (es = [])) as [-> |Hne].
  - exists (entries_ s). split; [by destruct s|]. replace (join_maps _ _) with (sparse_of hs); [done|]. apply map_eq. intros i. unfold join_maps.
    rewrite lookup_merge. destruct Hr as [([|] & Heq & _ & _ & Hm)]; [|done]. rewrite Hm. by destruct (sparse_of hs !! i).
  - rewrite (proj2 (Z.eqb_neq (Z.of_nat (length es)) 0)) by (destruct es; [done|cbn [length]; lia]). cbn [negb].
    rewrite (proj2 (Z.geb_le (Z.of_nat (length es)) 0)) by lia. cbn [check].
    destruct (merge_entries_ok s _ es _ (uint32_data (sparse_bytes L es ++ rest) 4) Hs Hr Ha Hne) as (rs & Hrun & Hrep & _). by exists rs.
Qed.

(** ** Conversion *)

(** The bits of the finer bucket that the coarser one leaves out come before the rest of the hash. *)
Lemma hash_split L h :
  4 <= L <= 16 -> hash_ok h ->
  hash_index L h = hash_index 26 h / 2 ^ (26 - L) /\ h mod 2 ^ (64 - L) = hash_index 26 h mod 2 ^ (26 - L) * 2 ^ 38 + h mod 2 ^ 38.
Proof.
  intros HL Hh. unfold hash_index. change (64 - 26) with 38. assert (0 < 2 ^ (26 - L)) as Hp by (apply Z.pow_pos_nonneg; lia).
  assert (2 ^ (64 - L) = 2 ^ 38 * 2 ^ (26 - L)) as Hpow by (rewrite <- Z.pow_add_r by lia; f_equal; lia). rewrite Hpow. split.
  - by rewrite Z.div_div by lia.
  - rewrite Z.rem_mul_r by lia. lia.
Qed.

Lemma hash_value_split L h :
  4 <= L <= 16 -> hash_ok h ->
  hash_value L h = (if hash_index 26 h mod 2 ^ (26 - L) =? 0 then 26 - L + sparse_value h else leading_zeros (26 - L) (hash_index 26 h mod 2 ^ (26 - L))) + 1.
Proof.
  intros HL Hh. destruct (hash_split L h HL Hh) as [_ Hmod]. unfold hash_value, sparse_value. rewrite Hmod.
  set (r := hash_index 26 h mod 2 ^ (26 - L)). pose proof (Z.mod_pos_bound (hash_index 26 h) (2 ^ (26 - L)) ltac:(apply Z.pow_pos_nonneg; lia)) as Hr. fold r in Hr.
  pose proof (Z.mod_pos_bound h (2 ^ 38) ltac:(lia)) as Ht. f_equal. unfold leading_zeros. destruct (r =? 0) eqn:E.
  - apply Z.eqb_eq in E. rewrite E. rewrite Z.mul_0_l, Z.add_0_l. destruct (h mod 2 ^ 38 =? 0); lia.
  - apply Z.eqb_neq in E. rewrite (proj2 (Z.eqb_neq (r * 2 ^ 38 + h mod 2 ^ 38) 0)) by lia. rewrite log2_shifted by lia. lia.
Qed.

Lemma entry_zeros L i v :
  4 <= L <= 16 -> pair_ok (i, v) ->
  Z.shiftr (pair_entry (i, v)) (32 - L) = i / 2 ^ (26 - L)
  /\ (let shifted := wrap_unsigned 32 (Z.shiftl (pair_entry (i, v)) L) in
      let zeros := if shifted =? 0 then 32 else builtin_clz shifted in
      if zeros >=? 26 - L then 26 - L + v else zeros)
     = (if i mod 2 ^ (26 - L) =? 0 then 26 - L + v else leading_zeros (26 - L) (i mod 2 ^ (26 - L))).
Proof.
  intros HL [Hi Hv]. cbn [fst snd] in *. unfold pair_entry. cbn [fst snd]. assert (0 < 2 ^ (26 - L)) as Hp by (apply Z.pow_pos_nonneg; lia).
  assert (0 < 2 ^ L) as HpL by (apply Z.pow_pos_nonneg; lia).
  assert (2 ^ (32 - L) = 64 * 2 ^ (26 - L)) as Hpow by (change 64 with (2 ^ 6); rewrite <- Z.pow_add_r by lia; f_equal; lia). split.
  - rewrite Z.shiftr_div_pow2, Hpow, <- Z.div_div by lia. f_equal. euclidean.
  - unfold wrap_unsigned. rewrite Z.shiftl_mul_pow2 by lia. replace (2 ^ 32) with (2 ^ (32 - L) * 2 ^ L) by (rewrite <- Z.pow_add_r by lia; f_equal; lia).
    rewrite Z.mul_mod_distr_r by lia. rewrite Hpow, Z.rem_mul_r by lia.
    replace ((i * 64 + v) mod 64) with v by euclidean. replace ((i * 64 + v) / 64) with i by euclidean.
    set (r := i mod 2 ^ (26 - L)). pose proof (Z.mod_pos_bound i (2 ^ (26 - L)) Hp) as Hr. fold r in Hr. cbv zeta. unfold builtin_clz, leading_zeros.
    destruct (r =? 0) eqn:E.
    + apply Z.eqb_eq in E. rewrite E. rewrite Z.mul_0_r, Z.add_0_r. destruct (v * 2 ^ L =? 0) eqn:Ev; [rewrite (proj2 (Z.geb_le 32 (26 - L))) by lia; done|].
      apply Z.eqb_neq in Ev. pose proof (log2_shifted v L 0 ltac:(nia) ltac:(lia) ltac:(lia)) as Hlog. rewrite Z.add_0_r in Hlog. rewrite Hlog.
      assert (Z.log2 v < 6) by (apply Z.log2_lt_pow2; nia). rewrite (proj2 (Z.geb_le _ (26 - L))) by lia. done.
    + apply Z.eqb_neq in E. rewrite (proj2 (Z.eqb_neq _ 0)) by nia.
      pose proof (log2_shifted (v + 64 * r) L 0 ltac:(lia) ltac:(lia) ltac:(lia)) as Hlog. rewrite Z.add_0_r in Hlog. rewrite Hlog.
      pose proof (log2_shifted r 6 v ltac:(lia) ltac:(lia) ltac:(lia)) as Hlog6. change (2 ^ 6) with 64 in Hlog6. replace (v + 64 * r) with (r * 64 + v) by lia. rewrite Hlog6.
      pose proof (Z.log2_nonneg r). replace (31 - (Z.log2 r + 6 + L) >=? 26 - L) with false; [lia|]. rewrite Z.geb_leb. symmetry. apply Z.leb_gt. lia.
Qed.

Lemma to_dense_entry_ok {B} d L hs h :
  dense_rep B d (registers L hs) -> indexBitLength_ d = L -> fits B L h ->
  exists d', to_dense_entry d (pair_entry (hash_index 26 h, sparse_value h)) = Ok d' /\ dense_rep B d' (registers L (h :: hs)) /\ indexBitLength_ d' = L.
Proof.
  intros Hd HdL [Hh Hhigh]. destruct (dense_length d _ Hd) as (_ & HL & _). rewrite HdL in HL. pose proof (sparse_value_range h) as Hv.
  destruct (computeIndex_ok h 26 Hh ltac:(lia)) as [_ Hi]. destruct (computeIndex_ok h L Hh ltac:(lia)) as [_ HiL].
  destruct (entry_zeros L (hash_index 26 h) (sparse_value h) HL ltac:(split; cbn; lia)) as [Hidx Hz].
  pose proof (hash_value_split L h HL Hh) as Hval. pose proof (hash_value_range h L ltac:(lia)) as Hvr. destruct (hash_split L h HL Hh) as [Hdiv _].
  assert (2 ^ L <= 2 ^ 16) as Hpow by (apply Z.pow_le_mono_r; lia).
  unfold to_dense_entry, kIndexBitLength. cbv zeta in Hz |- *. rewrite HdL, Hidx, <- Hdiv.
  destruct (entry_parts (hash_index 26 h, sparse_value h) ltac:(split; cbn; lia)) as (_ & Hdv & _ & _). rewrite Hdv. cbn [snd]. rewrite Hz, <- Hval.
  rewrite !wrap_signed_id by lia. rewrite registers_cons by lia.
  assert (registers L hs !! Z.to_nat (hash_index L h) = Some (register L hs (hash_index L h))) as Hr.
  { rewrite registers_lookup by lia. by rewrite Z2Nat.id by lia. }
  destruct (dense_insert_ok d _ _ _ (hash_value L h) Hd Hr) as (d' & Hd' & Hrep & Hl'); [unfold kMaxValue; lia|by rewrite Z2Nat.id by lia|].
  rewrite Z2Nat.id in Hd' by lia. exists d'. split_and!; [done|done|congruence].
Qed.

(** Each entry stands for one of the hashes. *)
Lemma to_dense_entries_ok {B} d L hs hs' :
  dense_rep B d (registers L hs) -> indexBitLength_ d = L -> Forall (fits B L) hs' ->
  exists d', to_dense_entries d (map (fun h => pair_entry (hash_index 26 h, sparse_value h)) hs') = Ok d' /\ dense_rep B d' (registers L (rev hs' ++ hs)) /\ indexBitLength_ d' = L.
Proof.
  revert d hs. induction hs' as [|h hs' IH]; intros d hs Hd HdL Hok; [by exists d|]. apply Forall_cons in Hok as [Hh Hok]. cbn [map to_dense_entries].
  destruct (to_dense_entry_ok d L hs h Hd HdL Hh) as (d1 & -> & Hd1 & HL1). cbn [rbind rev]. rewrite <- app_assoc. by apply IH.
Qed.

Lemma register_le L hs i x : 0 <= x -> (register L hs i <= x <-> forall h, h ∈ hs -> hash_index L h = i -> hash_value L h <= x).
Proof.
  intros Hx. induction hs as [|g hs IH]; cbn [register]; [split; [by intros _ h ?%elem_of_nil|lia]|]. setoid_rewrite elem_of_cons.
  destruct (hash_index L g =? i) eqn:E.
  - apply Z.eqb_eq in E. split.
    + intros Hle h [-> |Hh] Hi; [lia|]. apply IH; [lia|done|done].
    + intros H. pose proof (H g (or_introl eq_refl) E). assert (register L hs i <= x); [|lia]. apply IH. intros h Hh. apply H. by right.
  - apply Z.eqb_neq in E. rewrite IH. split; [intros H h [-> |Hh] Hi; [done|by apply H]|]. intros H h Hh. apply H. by right.
Qed.

Lemma register_covered L hs hs' i :
  (forall h, h ∈ hs -> hash_index L h = i -> exists h', h' ∈ hs' /\ hash_index L h' = i /\ hash_value L h <= hash_value L h') -> register L hs i <= register L hs' i.
Proof.
  intros H. apply register_le; [apply register_nonneg|]. intros h Hh Hi. destruct (H h Hh Hi) as (h' & Hh' & Hi' & Hle).
  pose proof (proj1 (register_le L hs' i (register L hs' i) (register_nonneg _ _ _)) ltac:(lia) h' Hh' Hi'). lia.
Qed.

Lemma registers_ext L hs hs' : (forall i, register L hs i = register L hs' i) -> registers L hs = registers L hs'.
Proof. intros H. unfold registers. apply map_ext. done. Qed.

Lemma registers_set L hs hs' : (forall h, h ∈ hs <-> h ∈ hs') -> registers L hs = registers L hs'.
Proof.
  intros H. apply registers_ext. intros i. apply Z.le_antisymm; apply register_covered; intros h Hh Hi; exists h; (split_and!; [by apply H|done|lia]).
Qed.

(** Hashes with the largest value of each bucket are enough. *)
Lemma registers_chosen L hs chosen :
  4 <= L <= 16 -> Forall hash_ok hs -> (forall h, h ∈ chosen -> h ∈ hs) ->
  (forall h, h ∈ hs -> exists h', h' ∈ chosen /\ hash_index 26 h' = hash_index 26 h /\ sparse_value h <= sparse_value h') ->
  registers L chosen = registers L hs.
Proof.
  intros HL Hok Hsub Hcover. apply registers_ext. intros i. apply Z.le_antisymm; apply register_covered; intros h Hh Hi; [exists h; split_and!; [by apply Hsub|done|lia]|].
  destruct (Hcover h Hh) as (h' & Hh' & Hidx & Hle). rewrite Forall_forall in Hok. pose proof (Hok h Hh) as Hokh. pose proof (Hok h' (Hsub h' Hh')) as Hokh'. exists h'. split_and!; [done|..].
  - rewrite <- Hi, (proj1 (hash_split L h HL Hokh)), (proj1 (hash_split L h' HL Hokh')). by rewrite Hidx.
  - rewrite !hash_value_split, Hidx by done. destruct (_ =? 0); lia.
Qed.

Lemma chosen_hashes ps hs :
  (forall i v, (i, v) ∈ ps -> bucket hs i = Some v) ->
  exists chosen, map pair_entry ps = map (fun h => pair_entry (hash_index 26 h, sparse_value h)) chosen /\ (forall h, h ∈ chosen -> h ∈ hs)
    /\ forall i v, (i, v) ∈ ps -> exists h, h ∈ chosen /\ hash_index 26 h = i /\ sparse_value h = v.
Proof.
  induction ps as [|[i v] ps IH]; intros H.
  - exists []. split_and!; [done|by intros h ?%elem_of_nil|by intros i v ?%elem_of_nil].
  - destruct IH as (chosen & Hmap & Hsub & Hall); [intros j w Hj; apply H; by right|].
    destruct (proj1 (bucket_some hs i v) (H i v (list_elem_of_here _ _))) as [(h & Hh & Hi & Hv) _]. exists (h :: chosen). split_and!.
    + cbn [map]. by rewrite Hmap, Hi, Hv.
    + intros k [-> |Hk]%elem_of_cons; [done|by apply Hsub].
    + intros j w [[= -> ->]|Hj]%elem_of_cons; [exists h; split_and!; [by left|done|done]|]. destruct (Hall j w Hj) as (k & Hk & Hki & Hkv). exists k. split_and!; [by right|done|done].
Qed.

(** The conversion inserts what the hashes would have. *)
Lemma toDense_ok {B} s d L hs0 hs :
  sparse_rep (entries_ s) (sparse_of hs) -> dense_rep B d (registers L hs0) -> indexBitLength_ d = L -> Forall (fits B L) hs ->
  exists d', toDense s d = Ok d' /\ dense_rep B d' (registers L (hs ++ hs0)) /\ indexBitLength_ d' = L.
Proof.
  intros [(ps & Hes & Hs & _ & Hm)] Hd HdL Hok. destruct (dense_length d _ Hd) as (_ & HL & _). rewrite HdL in HL.
  assert (forall i v, (i, v) ∈ ps <-> bucket hs i = Some v) as Hps by (intros i v; by rewrite <- assoc_in, <- Hm, sparse_of_lookup by done).
  destruct (chosen_hashes ps hs) as (chosen & Hmap & Hsub & Hall); [intros i v; apply Hps|]. unfold toDense. rewrite Hes, Hmap.
  destruct (to_dense_entries_ok d L hs0 chosen Hd HdL) as (d' & -> & Hd' & HL'); [rewrite Forall_forall in *; intros h Hh; by apply Hok, Hsub|].
  exists d'. split_and!; try done. replace (registers L (hs ++ hs0)) with (registers L (rev chosen ++ hs0)); [done|].
  rewrite !registers_app. f_equal. apply registers_chosen; try done.
  - apply (Forall_impl _ _ _ Hok). intros h Hh. apply Hh.
  - intros h Hh. apply Hsub. by rewrite list_elem_of_In, <- in_rev, <- list_elem_of_In in Hh.
  - intros h Hh. destruct (bucket_exists hs h Hh) as (v & Hv & Hle). destruct (Hall _ v (proj2 (Hps _ _) Hv)) as (h' & Hh' & Hi' & Hv'). exists h'. split_and!; [|done|lia].
    by rewrite list_elem_of_In, <- in_rev, <- list_elem_of_In.
Qed.

(** * Programs on instances *)

Definition sparse_serialized (s : SparseHll) (L : Z) : result (list Z) :=
  let! out := sparse_serialize s L (repeat 0 (Z.to_nat (sparse_serializedSize s)), 0) in
  Ok (fst out).

Lemma sparse_serialized_ok s L :
  Z.of_nat (length (entries_ s)) < 2 ^ 15 -> sparse_serialized s L = Ok (sparse_bytes L (entries_ s)) /\ Z.of_nat (length (sparse_bytes L (entries_ s))) = sparse_serializedSize s.
Proof.
  intros Hl. pose proof (sparse_bytes_length L (entries_ s)) as Hlen. unfold sparse_serialized, sparse_serializedSize. split; [|lia].
  replace (Z.to_nat _) with (length (sparse_bytes L (entries_ s))) by lia.
  pose proof (sparse_serialize_ok s L Hl [] (repeat 0 (length (sparse_bytes L (entries_ s)))) [] ltac:(apply repeat_length)) as Hw.
  cbn [app length] in Hw. change (Z.of_nat 0) with 0 in Hw. rewrite !app_nil_r in Hw. by rewrite Hw.
Qed.

Fixpoint sparse_eval (L : Z) (s : sketch) : result SparseHll :=
  match s with
  | NewHll => Ok new_SparseHll
  | InsertHash s hash => let! t := sparse_eval L s in let! r := sparse_insertHash t hash in Ok (fst r)
  | MergeHll s other => let! t := sparse_eval L s in let! o := sparse_eval L other in sparse_mergeWith t o
  | MergeSerialized s other =>
      let! t := sparse_eval L s in let! o := sparse_eval L other in let! bytes := sparse_serialized o L in sparse_mergeWith_serialized t bytes
  | Reload s => let! t := sparse_eval L s in let! bytes := sparse_serialized t L in SparseHll_of_serialized bytes
  end.

Lemma sparse_mergeWith_ok s o hs hs' :
  sparse_rep (entries_ s) (sparse_of hs) -> sparse_rep (entries_ o) (sparse_of hs') ->
  exists rs, sparse_mergeWith s o = Ok (with_entries s rs) /\ sparse_rep rs (sparse_of (hs' ++ hs)).
Proof.
  intros Hs Hr. unfold sparse_mergeWith. rewrite <- sparse_of_app. destruct (decide (entries_ o = [])) as [E|Hne].
  - rewrite E in *. exists (entries_ s). split; [by destruct s|]. replace (join_maps _ _) with (sparse_of hs); [done|]. apply map_eq. intros i. unfold join_maps.
    rewrite lookup_merge. destruct Hr as [([|] & Heq & _ & _ & Hm)]; [|done]. rewrite Hm. by destruct (sparse_of hs !! i).
  - rewrite (proj2 (Z.eqb_neq (Z.of_nat (length (entries_ o))) 0)) by (destruct (entries_ o); [done|cbn [length]; lia]). cbn [negb].
    destruct (merge_entries_ok s _ (entries_ o) _ (vector_data (entries_ o)) Hs Hr (vector_is_array _) Hne) as (rs & Hrun & Hrep & _). by exists rs.
Qed.

Lemma sparse_rep_set es hs hs' : sparse_rep es (sparse_of hs) -> (forall h, h ∈ hs <-> h ∈ hs') -> sparse_rep es (sparse_of hs').
Proof. intros H Heq. by rewrite <- (sparse_of_set hs hs' Heq). Qed.

Lemma distinct_app hs hs' : (distinct hs <= distinct (hs ++ hs'))%nat /\ (distinct hs' <= distinct (hs ++ hs'))%nat.
Proof. split; apply distinct_mono; intros h Hh; rewrite elem_of_app; tauto. Qed.

Lemma sparse_eval_ok L s :
  int8_ok L -> Forall hash_ok (hashes s) -> Z.of_nat (distinct (hashes s)) < 2 ^ 15 ->
  exists t, sparse_eval L s = Ok t /\ sparse_rep (entries_ t) (sparse_of (hashes s)).
Proof.
  intros HL. induction s as [|s IH h|s IH o IHo|s IH o IHo|s IH]; intros Hok Hd; cbn [sparse_eval hashes] in *.
  - eexists. split; [done|]. apply sparse_empty.
  - apply Forall_cons in Hok as [Hh Hok]. pose proof (distinct_mono (hashes s) (h :: hashes s) ltac:(by right)).
    destruct (IH Hok ltac:(lia)) as (t & -> & Ht). cbn [rbind]. destruct (sparse_insertHash_ok t _ h Ht Hh) as (es & -> & Hes & _). cbn [rbind fst]. by eexists.
  - apply Forall_app in Hok as [Hok1 Hok2]. pose proof (distinct_app (hashes s) (hashes o)) as [Hd1 Hd2].
    destruct (IH Hok1 ltac:(lia)) as (t & -> & Ht). destruct (IHo Hok2 ltac:(lia)) as (u & -> & Hu). cbn [rbind].
    destruct (sparse_mergeWith_ok t u _ _ Ht Hu) as (rs & -> & Hrs). eexists. split; [done|]. apply (sparse_rep_set _ _ _ Hrs). intros x. rewrite !elem_of_app. tauto.
  - apply Forall_app in Hok as [Hok1 Hok2]. pose proof (distinct_app (hashes s) (hashes o)) as [Hd1 Hd2].
    destruct (IH Hok1 ltac:(lia)) as (t & -> & Ht). destruct (IHo Hok2 ltac:(lia)) as (u & -> & Hu). cbn [rbind]. pose proof (sparse_length _ _ Hu) as Hlu.
    destruct (sparse_serialized_ok u L ltac:(lia)) as [-> _]. cbn [rbind].
    destruct (sparse_mergeWith_serialized_ok t L (entries_ u) _ _ [] Ht Hu ltac:(lia) HL) as (rs & Hrun & Hrs). rewrite app_nil_r in Hrun. rewrite Hrun.
    eexists. split; [done|]. apply (sparse_rep_set _ _ _ Hrs). intros x. rewrite !elem_of_app. tauto.
  - destruct (IH Hok Hd) as (t & -> & Ht). cbn [rbind]. pose proof (sparse_length _ _ Ht) as Hlt. destruct (sparse_serialized_ok t L ltac:(lia)) as [-> _]. cbn [rbind].
    pose proof (SparseHll_of_serialized_ok L (entries_ t) _ [] Ht ltac:(lia) HL) as Hrun. rewrite app_nil_r in Hrun. rewrite Hrun. by eexists.
Qed.

Lemma verify_ok s m : sparse_rep (entries_ s) m -> verify s = Ok tt.
Proof.
  intros [(ps & Hes & Hs & Hok & _)]. unfold verify. rewrite Hes. destruct Hs as [|p ps Hs Hp]; [done|]. apply Forall_cons in Hok as [Hpok Hok]. cbn [map].
  rewrite (proj1 (entry_parts p Hpok)). clear Hes Hpok. revert p Hp. induction Hs as [|q ps Hs IH Hq]; intros p Hp; [done|].
  apply Forall_cons in Hp as [Hpq Hp], Hok as [Hqok Hok]. cbn [map verify_from]. rewrite (proj1 (entry_parts q Hqok)).
  rewrite (proj2 (Z.ltb_lt (fst p) (fst q))) by done. cbn [check]. by apply IH.
Qed.

(** C11. The sparse layout: whatever the program of insertions, merges with instances and with serialized instances, and
    reloads, it ends without an error with entries that pass [verify], one for each of the [2 ^ 26] buckets that a hash falls into,
    with the largest value of its hashes. Their conversion to a dense instance that holds other hashes gives the registers of all
    the hashes, although an entry has 6 bits for the zeros after its 26 bits. The entries are fewer than [2 ^ 15], as their
    serialized count has 16 bits; the dense instance has [2 ^ 4] to [2 ^ 16] buckets, and with more than [2 ^ 14] of them fewer than
    [2 ^ 15] registers above 15. *)
Theorem sparse_buckets L s p :
  4 <= L <= 16 -> few_large L (hashes s ++ hashes p) -> Forall hash_ok (hashes s) -> Forall hash_ok (hashes p) -> Z.of_nat (distinct (hashes s)) < 2 ^ 15 ->
  exists t d d', sparse_eval L s = Ok t /\ verify t = Ok tt /\ length (entries_ t) = distinct (hashes s)
    /\ (forall e, e ∈ entries_ t <-> exists i v, e = encode_entry i v /\ bucket (hashes s) i = Some v)
    /\ eval L p = Ok d /\ toDense t d = Ok d'
    /\ forall i, 0 <= i < 2 ^ L -> getValue (view_of d') i = Ok (Z.max (register L (hashes s) i) (register L (hashes p) i)).
Proof.
  intros HL Hfew Hok Hokp Hd. destruct (few_large_fits L _ HL Hfew ltac:(by apply Forall_app)) as (B & Hroom & [Hfits Hfitsp]%Forall_app).
  destruct (sparse_eval_ok L s ltac:(unfold int8_ok; lia) Hok Hd) as (t & Ht & Hrep). destruct (eval_ok L p HL Hroom Hfitsp) as (d & Hed & Hdr & HdL).
  destruct (toDense_ok t d L _ _ Hrep Hdr HdL Hfits) as (d' & Hd' & Hr' & HL'). exists t, d, d'.
  split_and!; try done; [by apply (verify_ok t (sparse_of (hashes s)))|by apply sparse_length|..].
  - intros e. destruct Hrep as [(ps & -> & Hs & Hpok & Hm)]. rewrite Forall_forall in Hpok. split.
    + intros ([i v] & -> & Hp)%list_elem_of_fmap. exists i, v. destruct (entry_parts _ (Hpok _ Hp)) as (_ & _ & Henc & _). split; [done|].
      by rewrite <- sparse_of_lookup, Hm, assoc_in.
    + intros (i & v & -> & Hb). rewrite <- sparse_of_lookup, Hm, assoc_in in Hb by done. destruct (entry_parts _ (Hpok _ Hb)) as (_ & _ & Henc & _). cbn [fst snd] in Henc.
      rewrite Henc. by apply list_elem_of_fmap_2.
  - intros i Hi. assert (registers L (hashes s ++ hashes p) !! Z.to_nat i = Some (register L (hashes s ++ hashes p) i)) as Hri by (rewrite registers_lookup, Z2Nat.id by lia; done).
    pose proof (getValue_ok d' _ _ _ Hr' Hri) as Hv. rewrite Z2Nat.id in Hv by lia. by rewrite Hv, register_app.
Qed.

(** Two hashes of one dense bucket that the finer buckets tell apart, and one with all the zeros there can be. *)
Lemma sparse_buckets_witness :
  exists t d d', sparse_eval 4 (MergeSerialized (InsertHash NewHll (2 ^ 60 + 2 ^ 40)) (InsertHash (InsertHash NewHll 0) (2 ^ 60))) = Ok t /\ verify t = Ok tt
    /\ length (entries_ t) = distinct [2 ^ 60 + 2 ^ 40; 2 ^ 60; 0]
    /\ (forall e, e ∈ entries_ t <-> exists i v, e = encode_entry i v /\ bucket [2 ^ 60 + 2 ^ 40; 2 ^ 60; 0] i = Some v)
    /\ eval 4 (InsertHash NewHll (2 ^ 62)) = Ok d /\ toDense t d = Ok d'
    /\ forall i, 0 <= i < 2 ^ 4 -> getValue (view_of d') i = Ok (Z.max (register 4 [2 ^ 60 + 2 ^ 40; 2 ^ 60; 0] i) (register 4 [2 ^ 62] i)).
Proof.
  apply (sparse_buckets 4 (MergeSerialized (InsertHash NewHll (2 ^ 60 + 2 ^ 40)) (InsertHash (InsertHash NewHll 0) (2 ^ 60))) (InsertHash NewHll (2 ^ 62))); [lia|by apply few_large_short|..].
  - repeat (apply Forall_cons; split; [unfold hash_ok; lia|]). by apply Forall_nil.
  - repeat (apply Forall_cons; split; [unfold hash_ok; lia|]). by apply Forall_nil.
  - by vm_compute.
Defined.
