(* ===== verification/HllAccumulator.v ===== *)
(** The aggregate functions approx_distinct and approx_set (bolt/functions/prestosql/aggregates/ApproxDistinctAggregate.cpp): the
    accumulator that begins with the sparse layout and changes to the dense one, the handling of groups, and partial aggregations
    whose intermediate results are the serialized accumulators. *)

From S2P Require Import Prelude Text DenseHll DenseHllSerial SparseHll.

(** * The code *)

Record HllAccumulator : Type := mkHllAccumulator {
  isSparse_ : bool;
  acc_indexBitLength : Z;
  sparseHll_ : SparseHll;
  denseHll_ : DenseHll
}.

Definition new_HllAccumulator : HllAccumulator := mkHllAccumulator true (-1) new_SparseHll uninitialized.

Definition setIndexBitLength (a : HllAccumulator) (indexBitLength : Z) : HllAccumulator :=
  mkHllAccumulator (isSparse_ a) indexBitLength (setSoftMemoryLimit (sparseHll_ a) (estimateInMemorySize indexBitLength)) (denseHll_ a).

Definition with_sparse (a : HllAccumulator) (s : SparseHll) : HllAccumulator := mkHllAccumulator (isSparse_ a) (acc_indexBitLength a) s (denseHll_ a).
Definition with_dense (a : HllAccumulator) (d : DenseHll) : HllAccumulator := mkHllAccumulator (isSparse_ a) (acc_indexBitLength a) (sparseHll_ a) d.

Definition accumulator_toDense (a : HllAccumulator) : result HllAccumulator :=
  let! d := initialize (denseHll_ a) (acc_indexBitLength a) in
  let! d := toDense (sparseHll_ a) d in
  Ok (mkHllAccumulator false (acc_indexBitLength a) (reset (sparseHll_ a)) d).

Definition append (a : HllAccumulator) (hash : Z) : result HllAccumulator :=
  if isSparse_ a then
    let! r := sparse_insertHash (sparseHll_ a) hash in
    let a := with_sparse a (fst r) in
    if snd r then accumulator_toDense a else Ok a
  else
    let! d := dense_insertHash (denseHll_ a) hash in
    Ok (with_dense a d).

Definition accumulator_mergeWith (a : HllAccumulator) (serialized : list Z) : result HllAccumulator :=
  let! sparse := sparse_canDeserialize serialized in
  if sparse then
    if isSparse_ a then
      let! s := sparse_mergeWith_serialized (sparseHll_ a) serialized in
      let a := with_sparse a s in
      let! a :=
        if acc_indexBitLength a <? 0 then
          let! indexBitLength := deserializeIndexBitLength serialized in
          Ok (setIndexBitLength a indexBitLength)
        else Ok a in
      if overLimit (sparseHll_ a) then accumulator_toDense a else Ok a
    else
      let! other := SparseHll_of_serialized serialized in
      let! d := toDense other (denseHll_ a) in
      Ok (with_dense a d)
  else
    let! dense := canDeserialize_version serialized in
    if dense then
      let! a :=
        if isSparse_ a then
          let! a :=
            if acc_indexBitLength a <? 0 then
              let! indexBitLength := deserializeIndexBitLength serialized in
              Ok (setIndexBitLength a indexBitLength)
            else Ok a in
          accumulator_toDense a
        else Ok a in
      let! d := mergeWith_serialized (denseHll_ a) serialized in
      Ok (with_dense a d)
    else Err UserFail.

Definition accumulator_serializedSize (a : HllAccumulator) : Z :=
  if isSparse_ a then sparse_serializedSize (sparseHll_ a) else serializedSize (denseHll_ a).

(** Serialization of the dense layout sorts its overflows. *)
Definition accumulator_serialize (a : HllAccumulator) (out : memory) : result (HllAccumulator * memory) :=
  if isSparse_ a then
    let! out := sparse_serialize (sparseHll_ a) (acc_indexBitLength a) out in
    Ok (a, out)
  else
    let! r := serialize (denseHll_ a) out in
    Ok (with_dense a (fst r), snd r).

(** ** Groups *)

Record group : Type := mkGroup { isNull : bool; value : HllAccumulator }.

Definition initializeNewGroups (n : nat) : list group := repeat (mkGroup true new_HllAccumulator) n.

(** The rows that are selected, each with the index of its group and its value. *)
Definition on_groups {A} (update : group -> A -> result group) : list group -> list (Z * A) -> result (list group) :=
  fix go groups rows :=
    match rows with
    | [] => Ok groups
    | (g, x) :: rows =>
        let! old := at_index groups g in
        let! new := update old x in
        let! groups := set_index groups g new in
        go groups rows
    end.

Section Aggregate.
Context {A : Type} (hashOne : A -> Z).

Definition add_raw (indexBitLength : Z) (g : group) (row : option A) : result group :=
  match row with
  | None => Ok g
  | Some v =>
      let! a := append (setIndexBitLength (value g) indexBitLength) (hashOne v) in
      Ok (mkGroup false a)
  end.

Definition addRawInput (indexBitLength : Z) (groups : list group) (rows : list (Z * option A)) : result (list group) :=
  on_groups (add_raw indexBitLength) groups rows.
End Aggregate.

Definition add_intermediate (g : group) (row : option (list Z)) : result group :=
  match row with
  | None => Ok g
  | Some serialized =>
      let! a := accumulator_mergeWith (value g) serialized in
      Ok (mkGroup false a)
  end.

Definition addIntermediateResults (groups : list group) (rows : list (Z * option (list Z))) : result (list group) :=
  on_groups add_intermediate groups rows.

(** The variants for one group apply the same change row by row. *)
Fixpoint on_group {A} (update : group -> A -> result group) (g : group) (rows : list A) : result group :=
  match rows with
  | [] => Ok g
  | x :: rows => let! g := update g x in on_group update g rows
  end.

Definition addSingleGroupRawInput {A} (hashOne : A -> Z) (indexBitLength : Z) (g : group) (rows : list (option A)) : result group :=
  on_group (add_raw hashOne indexBitLength) g rows.

Definition addSingleGroupIntermediateResults (g : group) (rows : list (option (list Z))) : result group := on_group add_intermediate g rows.

(** The accumulator of a group in a string of the announced size. *)
Definition extract_one (g : group) : result (group * option (list Z)) :=
  if isNull g then Ok (g, None)
  else
    let! r := accumulator_serialize (value g) (repeat 0 (Z.to_nat (accumulator_serializedSize (value g))), 0) in
    Ok (mkGroup false (fst r), Some (fst (snd r))).

Fixpoint extractAccumulators (groups : list group) : result (list group * list (option (list Z))) :=
  match groups with
  | [] => Ok ([], [])
  | g :: groups =>
      let! r := extract_one g in
      let! rest := extractAccumulators groups in
      Ok (fst r :: fst rest, snd r :: snd rest)
  end.

Lemma on_group_single {A} (update : group -> A -> result group) g rows :
  on_groups update [g] (map (fun x => (0, x)) rows) = let! g := on_group update g rows in Ok [g].
Proof.
  revert g. induction rows as [|x rows IH]; intros g; [done|]. cbn [map on_groups on_group]. rewrite (at_index_ok [g] 0 g) by (lia || done). cbn [rbind].
  destruct (update g x) as [g'|]; [|done]. cbn [rbind]. rewrite set_index_ok by (cbn [length]; lia). cbn [rbind]. apply IH.
Qed.

(** The variants for one group do what those for many do. *)
Lemma single_group_raw {A} (hashOne : A -> Z) L g rows :
  addRawInput hashOne L [g] (map (fun v => (0, v)) rows) = let! g := addSingleGroupRawInput hashOne L g rows in Ok [g].
Proof. apply on_group_single. Qed.

Lemma single_group_intermediate g rows :
  addIntermediateResults [g] (map (fun r => (0, r)) rows) = let! g := addSingleGroupIntermediateResults g rows in Ok [g].
Proof. apply on_group_single. Qed.

(** * Accumulators *)

Definition limit (L : Z) : Z := Z.quot (estimateInMemorySize L) 4.

Lemma limit_range L : 4 <= L <= 16 -> 0 <= limit L < 2 ^ 15.
Proof.
  intros HL. unfold limit, estimateInMemorySize. rewrite Z.shiftl_1_l. assert (2 ^ L <= 2 ^ 16) by (apply Z.pow_le_mono_r; lia). assert (0 < 2 ^ L) by (apply Z.pow_pos_nonneg; lia).
  rewrite Z.quot_div_nonneg by euclidean. euclidean.
Qed.

(** As many buckets as there can be, and room for the large registers. *)
Definition room (B : list Z) (L : Z) : Prop := 4 <= L <= 16 /\ roomy (Z.to_nat (2 ^ L)) B.

(** The sparse layout, before the limit is looked at. *)
Record sparse_state (L : Z) (a : HllAccumulator) (hs : list Z) : Prop := {
  ss_sparse : isSparse_ a = true;
  ss_bits : acc_indexBitLength a = L;
  ss_limit : softNumEntriesLimit_ (sparseHll_ a) = limit L;
  ss_rep : sparse_rep (entries_ (sparseHll_ a)) (sparse_of hs);
  ss_dense : denseHll_ a = uninitialized
}.

Record dense_state (B : list Z) (L : Z) (a : HllAccumulator) (hs : list Z) : Prop := {
  ds_dense : isSparse_ a = false;
  ds_bits : acc_indexBitLength a = L;
  ds_rep : dense_rep B (denseHll_ a) (registers L hs);
  ds_length : indexBitLength_ (denseHll_ a) = L
}.
Arguments ds_dense {B} _ _ _ _.
Arguments ds_bits {B} _ _ _ _.
Arguments ds_rep {B} _ _ _ _.
Arguments ds_length {B} _ _ _ _.

(** The layout is a matter of the number of buckets that are in use. *)
Definition accumulator_ok (B : list Z) (L : Z) (a : HllAccumulator) (hs : list Z) : Prop :=
  if Z.of_nat (distinct hs) <? limit L then sparse_state L a hs else dense_state B L a hs.

Lemma accumulator_toDense_ok {B} L a hs :
  room B L -> Forall (fits B L) hs -> sparse_state L a hs -> exists a', accumulator_toDense a = Ok a' /\ dense_state B L a' hs.
Proof.
  intros HL Hok [Hsp Hbits Hlim Hrep Hd]. unfold accumulator_toDense. rewrite Hbits, Hd. fold (make_DenseHll L).
  destruct (make_DenseHll_ok L (proj1 HL) (proj2 HL)) as (d & -> & Hdr & HdL). cbn [rbind]. rewrite <- registers_nil in Hdr.
  destruct (toDense_ok (sparseHll_ a) d L [] hs Hrep Hdr HdL Hok) as (d' & -> & Hd' & HL'). cbn [rbind]. rewrite app_nil_r in Hd'. eexists. split; [done|]. by split.
Qed.

Lemma settle_ok {B} L a hs :
  room B L -> Forall (fits B L) hs -> sparse_state L a hs ->
  exists a', (if overLimit (sparseHll_ a) then accumulator_toDense a else Ok a) = Ok a' /\ accumulator_ok B L a' hs.
Proof.
  intros HL Hok Hs. unfold overLimit, accumulator_ok. rewrite (ss_limit _ _ _ Hs), (sparse_length _ _ (ss_rep _ _ _ Hs)), Z.geb_leb.
  destruct (limit L <=? Z.of_nat (distinct hs)) eqn:E.
  - rewrite (proj2 (Z.ltb_ge _ _)) by (by apply Z.leb_le). by apply accumulator_toDense_ok.
  - rewrite (proj2 (Z.ltb_lt _ _)) by (by apply Z.leb_gt). by exists a.
Qed.

(** An accumulator that is new, or has seen the hashes. *)
Inductive accumulates (B : list Z) (L : Z) : HllAccumulator -> list Z -> Prop :=
| accumulates_new : accumulates B L new_HllAccumulator []
| accumulates_some a hs : hs <> [] -> accumulator_ok B L a hs -> accumulates B L a hs.

Lemma dense_monotone L hs hs' : limit L <= Z.of_nat (distinct hs) -> (forall h, h ∈ hs -> h ∈ hs') -> (Z.of_nat (distinct hs') <? limit L) = false.
Proof. intros Hd Hsub. pose proof (distinct_mono hs hs' Hsub). apply Z.ltb_ge. lia. Qed.

Lemma accumulates_cases {B} L a hs :
  room B L -> accumulates B L a hs ->
  (sparse_state L (setIndexBitLength a L) hs /\ (acc_indexBitLength a = L -> softNumEntriesLimit_ (sparseHll_ a) = limit L) /\ (acc_indexBitLength a = -1 \/ acc_indexBitLength a = L))
  \/ (dense_state B L a hs /\ limit L <= Z.of_nat (distinct hs)).
Proof.
  intros [HL _] [|a' hs' Hne Ha].
  - left. split; [|split; [cbn; lia|by left]]. split; try done. apply sparse_empty.
  - unfold accumulator_ok in Ha. destruct (Z.of_nat (distinct hs') <? limit L) eqn:E.
    + left. split; [|split; [intros _; apply Ha|right; apply Ha]]. split; try apply Ha; done.
    + right. split; [done|]. by apply Z.ltb_ge.
Qed.

Lemma append_ok {B} L a hs h :
  room B L -> Forall (fits B L) hs -> fits B L h -> accumulates B L a hs ->
  exists a', append (setIndexBitLength a L) h = Ok a' /\ accumulates B L a' (h :: hs).
Proof.
  intros HL Hok Hh Ha. assert (Forall (fits B L) (h :: hs)) as Hok' by (by constructor). unfold append.
  destruct (accumulates_cases L a hs HL Ha) as [(Hs & _ & _)|[Hd Hlim]].
  - rewrite (ss_sparse _ _ _ Hs). destruct (sparse_insertHash_ok _ _ h (ss_rep _ _ _ Hs) (proj1 Hh)) as (es & -> & Hes & _). cbn [rbind fst snd].
    destruct (settle_ok L (with_sparse (setIndexBitLength a L) (with_entries (sparseHll_ (setIndexBitLength a L)) es)) (h :: hs) HL Hok') as (a' & Hrun & Ha').
    { split; try apply Hs; done. }
    exists a'. split; [exact Hrun|]. by constructor.
  - cbn [setIndexBitLength isSparse_ denseHll_]. rewrite (ds_dense _ _ _ Hd).
    destruct (dense_insertHash_ok _ L hs h (ds_rep _ _ _ Hd) (ds_length _ _ _ Hd) Hh) as (d & -> & Hdr & HdL). cbn [rbind]. eexists. split; [done|]. constructor; [done|].
    unfold accumulator_ok. rewrite (dense_monotone L hs) by (done || by right). by split; try apply Hd.
Qed.

(** ** Intermediate results *)

(** The bytes of an accumulator. *)
Definition stands_for (B : list Z) (L : Z) (bytes : list Z) (hs : list Z) : Prop :=
  if Z.of_nat (distinct hs) <? limit L then exists es, sparse_rep es (sparse_of hs) /\ bytes = sparse_bytes L es
  else exists d, dense_rep B d (registers L hs) /\ indexBitLength_ d = L /\ increasing (entries_of d) (overflowBuckets_ d) /\ bytes = state_bytes d.

(** They depend on nothing but the set of the hashes. *)
Lemma stands_for_unique {B B'} L bytes bytes' hs hs' :
  stands_for B L bytes hs -> stands_for B' L bytes' hs' -> (forall h, h ∈ hs <-> h ∈ hs') -> bytes = bytes'.
Proof.
  intros H1 H2 Heq. unfold stands_for in *. assert (distinct hs = distinct hs') as Hd by (apply Nat.le_antisymm; apply distinct_mono; intros h; apply Heq). rewrite <- Hd in H2.
  destruct (_ <? _).
  - destruct H1 as (es & Hes & ->), H2 as (es' & Hes' & ->). rewrite (sparse_of_set hs hs' Heq) in Hes. by rewrite (sparse_unique _ _ _ Hes Hes').
  - destruct H1 as (d & Hr & HL & Hinc & ->), H2 as (d' & Hr' & HL' & Hinc' & ->). rewrite (registers_set L hs hs' Heq) in Hr.
    apply (canonical_bytes (B := B) (B' := B') d d' (registers L hs')); try done. congruence.
Qed.

Lemma stands_for_dense {B} d L hs :
  dense_rep B d (registers L hs) -> indexBitLength_ d = L ->
  reads_as (state_bytes d) d /\ sparse_canDeserialize (state_bytes d) = Ok false /\ canDeserialize_version (state_bytes d) = Ok true
  /\ deserializeIndexBitLength (state_bytes d) = Ok L.
Proof.
  intros Hd HL. destruct (dense_length d _ Hd) as (_ & _ & Hb). pose proof Hd as [[om H] _ _]. pose proof (state_reads d _ _ _ [] H Hb) as Hr. rewrite app_nil_r in Hr.
  split; [done|]. unfold sparse_canDeserialize, canDeserialize_version, deserializeIndexBitLength. rewrite (ra_version _ _ Hr), (ra_bits _ _ Hr), HL. done.
Qed.

Lemma set_bits_ok {B} L a hs bytes :
  room B L -> sparse_state L (setIndexBitLength a L) hs -> (acc_indexBitLength a = L -> softNumEntriesLimit_ (sparseHll_ a) = limit L) ->
  acc_indexBitLength a = -1 \/ acc_indexBitLength a = L -> deserializeIndexBitLength bytes = Ok L ->
  exists a', (if acc_indexBitLength a <? 0 then let! indexBitLength := deserializeIndexBitLength bytes in Ok (setIndexBitLength a indexBitLength) else Ok a) = Ok a'
    /\ sparse_state L a' hs.
Proof.
  intros [HL _] Hs Hlim Hbits Hread. rewrite Hread. cbn [rbind]. destruct Hbits as [E|E]; rewrite E; [by eexists|].
  rewrite (proj2 (Z.ltb_ge L 0)) by lia. exists a. split; [done|]. destruct Hs as [Hsp _ _ Hrep Hd]. split; try done. by apply Hlim.
Qed.

Lemma merge_sparse_ok {B} L a hs hs' es :
  room B L -> Forall (fits B L) hs -> Forall (fits B L) hs' -> accumulates B L a hs -> sparse_rep es (sparse_of hs') -> hs' <> [] ->
  Z.of_nat (distinct hs') < limit L ->
  exists a', accumulator_mergeWith a (sparse_bytes L es) = Ok a' /\ accumulates B L a' (hs' ++ hs).
Proof.
  intros HL Hok Hok' Ha Hes Hne Hlt. pose proof (sparse_length _ _ Hes) as Hlen. pose proof (limit_range L (proj1 HL)) as Hlr. assert (int8_ok L) as HL8 by (destruct HL; unfold int8_ok; lia).
  assert (Forall (fits B L) (hs' ++ hs)) as Hok2 by (by apply Forall_app). assert (hs' ++ hs <> []) as Hne2 by (by destruct hs').
  destruct (sparse_reads L es _ [] Hes ltac:(lia) HL8) as (Hver & Hbits & _ & _). rewrite app_nil_r in Hver, Hbits.
  unfold accumulator_mergeWith, sparse_canDeserialize. rewrite Hver. cbn [rbind]. rewrite Z.eqb_refl.
  destruct (accumulates_cases L a hs HL Ha) as [(Hs & Hlim & Hcase)|[Hd Hmany]].
  - pose proof (ss_sparse _ _ _ Hs) as Hsp. cbn [setIndexBitLength isSparse_] in Hsp. rewrite Hsp.
    destruct (sparse_mergeWith_serialized_ok (sparseHll_ a) L es hs hs' [] (ss_rep _ _ _ Hs) Hes ltac:(lia) HL8) as (rs & Hrun & Hrs). rewrite app_nil_r in Hrun. rewrite Hrun. cbn [rbind]. cbv zeta.
    destruct (set_bits_ok L (with_sparse a (with_entries (sparseHll_ a) rs)) (hs' ++ hs) (sparse_bytes L es) HL) as (a1 & -> & Hs1); try done.
    { destruct Hs as [_ _ _ _ Hde]. by split. }
    cbn [rbind]. destruct (settle_ok L a1 _ HL Hok2 Hs1) as (a2 & -> & Ha2). exists a2. split; [done|]. by constructor.
  - rewrite (ds_dense _ _ _ Hd). pose proof (SparseHll_of_serialized_ok L es _ [] Hes ltac:(lia) HL8) as Hload. rewrite app_nil_r in Hload. rewrite Hload. cbn [rbind].
    destruct (toDense_ok (mkSparseHll es 0) (denseHll_ a) L hs hs' Hes (ds_rep _ _ _ Hd) (ds_length _ _ _ Hd) Hok') as (d & -> & Hdr & HdL). cbn [rbind].
    eexists. split; [done|]. constructor; [done|]. unfold accumulator_ok. rewrite (dense_monotone L hs) by (done || (intros h Hh; apply elem_of_app; by right)).
    by split; try apply Hd.
Qed.

Lemma merge_dense_ok {B} L a hs hs' d :
  room B L -> Forall (fits B L) hs -> Forall (fits B L) hs' -> accumulates B L a hs -> dense_rep B d (registers L hs') -> indexBitLength_ d = L -> hs' <> [] ->
  limit L <= Z.of_nat (distinct hs') ->
  exists a', accumulator_mergeWith a (state_bytes d) = Ok a' /\ accumulates B L a' (hs' ++ hs).
Proof.
  intros HL Hok Hok' Ha Hd HdL Hne Hmany. destruct (stands_for_dense d L hs' Hd HdL) as (Hreads & Hsp & Hdn & Hbits).
  unfold accumulator_mergeWith. rewrite Hsp. cbn [rbind]. rewrite Hdn. cbn [rbind].
  assert (exists a1, (if isSparse_ a
            then let! a := (if acc_indexBitLength a <? 0 then let! indexBitLength := deserializeIndexBitLength (state_bytes d) in Ok (setIndexBitLength a indexBitLength) else Ok a) in
                 accumulator_toDense a
            else Ok a) = Ok a1 /\ dense_state B L a1 hs) as (a1 & -> & Ha1).
  { destruct (accumulates_cases L a hs HL Ha) as [(Hs & Hlim & Hcase)|[Hda _]].
    - pose proof (ss_sparse _ _ _ Hs) as Hspa. cbn [setIndexBitLength isSparse_] in Hspa. rewrite Hspa.
      destruct (set_bits_ok L a hs (state_bytes d) HL Hs Hlim Hcase Hbits) as (a1 & -> & Hs1). cbn [rbind]. by apply accumulator_toDense_ok.
    - rewrite (ds_dense _ _ _ Hda). by exists a. }
  cbn [rbind]. pose proof (ds_length _ _ _ Ha1) as Hl1.
  destruct (mergeWith_serialized_ok _ _ d _ (state_bytes d) (ds_rep _ _ _ Ha1) Hd ltac:(congruence) Hreads) as (e & -> & Her & HeL). cbn [rbind].
  eexists. split; [done|]. constructor; [by destruct hs'|]. unfold accumulator_ok. rewrite (dense_monotone L hs') by (done || (intros h Hh; apply elem_of_app; by left)).
  split; try apply Ha1; cbn [with_dense denseHll_]; [|congruence]. rewrite <- registers_app in Her.
  by rewrite (registers_set L (hs' ++ hs) (hs ++ hs')) by (intros h; rewrite !elem_of_app; tauto).
Qed.

Lemma accumulator_mergeWith_ok {B} L a hs bytes hs' :
  room B L -> Forall (fits B L) hs -> Forall (fits B L) hs' -> accumulates B L a hs -> stands_for B L bytes hs' -> hs' <> [] ->
  exists a', accumulator_mergeWith a bytes = Ok a' /\ accumulates B L a' (hs' ++ hs).
Proof.
  intros HL Hok Hok' Ha Hb Hne. unfold stands_for in Hb. destruct (Z.of_nat (distinct hs') <? limit L) eqn:E.
  - destruct Hb as (es & Hes & ->). apply merge_sparse_ok; try done. by apply Z.ltb_lt.
  - destruct Hb as (d & Hd & HdL & _ & ->). apply merge_dense_ok; try done. by apply Z.ltb_ge.
Qed.

(** ** Groups *)

Definition group_ok (B : list Z) (L : Z) (g : group) (hs : list Z) : Prop :=
  Forall (fits B L) hs /\ accumulates B L (value g) hs /\ (isNull g = true <-> hs = []).

Lemma extract_one_ok {B} L g hs :
  room B L -> group_ok B L g hs ->
  exists g' r, extract_one g = Ok (g', r) /\ group_ok B L g' hs
    /\ match r with
       | None => hs = []
       | Some bytes => hs <> [] /\ stands_for B L bytes hs /\ Z.of_nat (length bytes) = accumulator_serializedSize (value g)
       end.
Proof.
  intros HL (Hok & Ha & Hnull). unfold extract_one. destruct (isNull g) eqn:En; [exists g, None; split_and!; [done|split_and!; [done|done|by rewrite En]|by apply Hnull]|].
  assert (hs <> []) as Hne by (intros H; by apply Hnull in H). unfold accumulator_serialize, accumulator_serializedSize. destruct Ha as [|a hs Hne' Ha]; [done|].
  unfold accumulator_ok in Ha. destruct (Z.of_nat (distinct hs) <? limit L) eqn:E.
  - rewrite (ss_sparse _ _ _ Ha), (ss_bits _ _ _ Ha). pose proof (sparse_length _ _ (ss_rep _ _ _ Ha)) as Hlen. pose proof (limit_range L (proj1 HL)).
    destruct (sparse_serialized_ok (sparseHll_ a) L ltac:(lia)) as [Hser Hsize]. unfold sparse_serialized in Hser.
    destruct (sparse_serialize (sparseHll_ a) L _) as [out|] eqn:Eout; [|done]. cbn [rbind fst snd] in *. injection Hser as Hser.
    eexists _, _. split; [done|]. split; [split_and!; [done|constructor; [done|]; unfold accumulator_ok; by rewrite E|done]|].
    split_and!; [done| |by rewrite Hser]. unfold stands_for. rewrite E, Hser. exists (entries_ (sparseHll_ a)). split; [apply Ha|done].
  - rewrite (ds_dense _ _ _ Ha). destruct (serialize_ok (denseHll_ a) _ (ds_rep _ _ _ Ha)) as (d & n & -> & Hd & HdL & Hsize & _ & Hinc & _). cbn [rbind fst snd].
    rewrite (ds_length _ _ _ Ha) in HdL. eexists _, _. split; [done|].
    split; [split_and!; [done|constructor; [done|]; unfold accumulator_ok; rewrite E; by split; try apply Ha|done]|].
    split_and!; [done|unfold stands_for; rewrite E; by exists d|done].
Qed.

Lemma extractAccumulators_ok {B} L gs hss :
  room B L -> Forall2 (group_ok B L) gs hss ->
  exists gs' rs, extractAccumulators gs = Ok (gs', rs) /\ Forall2 (group_ok B L) gs' hss
    /\ Forall2 (fun r hs => Forall (fits B L) hs /\ match r with None => hs = [] | Some bytes => hs <> [] /\ stands_for B L bytes hs end) rs hss.
Proof.
  intros HL. induction 1 as [|g hs gs hss Hg Hgs IH]; [by eexists _, _|]. cbn [extractAccumulators].
  destruct (extract_one_ok L g hs HL Hg) as (g' & r & -> & Hg' & Hr). destruct IH as (gs' & rs & -> & Hgs' & Hrs). cbn [rbind fst snd].
  eexists _, _. split_and!; [done|by constructor|]. constructor; [|done]. split; [apply Hg|]. destruct r; [by destruct Hr as (? & ? & _)|done].
Qed.

(** What rows make of the hashes of the groups. *)
Definition on_hashes {C} (sem : list Z -> C -> list Z) (hss : list (list Z)) (rows : list (Z * C)) : list (list Z) :=
  foldl (fun hss row => <[Z.to_nat (fst row) := sem (nth (Z.to_nat (fst row)) hss []) (snd row)]> hss) hss rows.

(** Each row changes its group. *)
Lemma on_groups_ok {A C} {B} L (update : group -> A -> result group) (sem : list Z -> C -> list Z) (R : A -> C -> Prop) gs hss rows specs :
  (forall g hs x y, R x y -> group_ok B L g hs -> exists g', update g x = Ok g' /\ group_ok B L g' (sem hs y)) ->
  Forall2 (group_ok B L) gs hss -> Forall2 (fun r s => fst r = fst s /\ R (snd r) (snd s)) rows specs ->
  Forall (fun row => 0 <= fst row < Z.of_nat (length hss)) rows ->
  exists gs', on_groups update gs rows = Ok gs' /\ Forall2 (group_ok B L) gs' (on_hashes sem hss specs).
Proof.
  intros Hstep Hgs Hrows. revert gs hss Hgs. induction Hrows as [|[i x] [j y] rows specs [Hij HR] Hrows IH]; intros gs hss Hgs Hrange; [by exists gs|].
  apply Forall_cons in Hrange as [Hi Hrange]. cbn [fst snd] in *. subst j.
  pose proof (Forall2_length _ _ _ Hgs) as Hlen. destruct (lookup_lt_is_Some_2 gs (Z.to_nat i) ltac:(lia)) as [g Hg].
  destruct (Forall2_lookup_l _ _ _ _ _ Hgs Hg) as (hs & Hhs & Hok). cbn [on_groups]. rewrite (at_index_ok gs i g) by (lia || done). cbn [rbind].
  destruct (Hstep g hs x y HR Hok) as (g' & -> & Hg'). cbn [rbind]. rewrite set_index_ok by lia. cbn [rbind]. unfold on_hashes. cbn [foldl fst snd].
  rewrite (nth_lookup_Some hss (Z.to_nat i) [] hs Hhs). apply IH; [by apply Forall2_insert|by rewrite length_insert].
Qed.

Lemma add_intermediate_ok {B} L g hs r hs' :
  room B L -> Forall (fits B L) hs' /\ match r with None => hs' = [] | Some bytes => hs' <> [] /\ stands_for B L bytes hs' end -> group_ok B L g hs ->
  exists g', add_intermediate g r = Ok g' /\ group_ok B L g' (hs' ++ hs).
Proof.
  intros HL [Hok' Hr] (Hok & Ha & Hnull). destruct r as [bytes|]; cbn [add_intermediate]; [|subst hs'; by exists g].
  destruct Hr as [Hne Hb]. destruct (accumulator_mergeWith_ok L (value g) hs bytes hs' HL Hok Hok' Ha Hb Hne) as (a & -> & Ha'). cbn [rbind].
  eexists. split; [done|]. split_and!; [by apply Forall_app|done|]. cbn. split; [done|]. by destruct hs'.
Qed.

(** * Partial aggregations *)

Section Plans.
Context {A : Type} (hashOne : A -> Z).

(** Groups get raw input, with the group and the value of each row, or the intermediate results of other groups, with the group and
    the place of the result. *)
Inductive plan : Type :=
| NewGroups (n : nat)
| RawInput (p : plan) (rows : list (Z * option A))
| IntermediateResults (p q : plan) (rows : list (Z * Z)).

Fixpoint fetch (results : list (option (list Z))) (rows : list (Z * Z)) : result (list (Z * option (list Z))) :=
  match rows with
  | [] => Ok []
  | (g, i) :: rows =>
      let! r := at_index results i in
      let! rest := fetch results rows in
      Ok ((g, r) :: rest)
  end.

Fixpoint run_plan (L : Z) (p : plan) : result (list group) :=
  match p with
  | NewGroups n => Ok (initializeNewGroups n)
  | RawInput p rows => let! groups := run_plan L p in addRawInput hashOne L groups rows
  | IntermediateResults p q rows =>
      let! groups := run_plan L p in
      let! others := run_plan L q in
      let! results := extractAccumulators others in
      let! args := fetch (snd results) rows in
      addIntermediateResults groups args
  end.

(** The hashes of the values that belong to each group. *)
Fixpoint plan_hashes (p : plan) : list (list Z) :=
  match p with
  | NewGroups n => repeat [] n
  | RawInput p rows => on_hashes (fun hs v => match v with None => hs | Some v => hashOne v :: hs end) (plan_hashes p) rows
  | IntermediateResults p q rows =>
      on_hashes (fun hs hs' => hs' ++ hs) (plan_hashes p) (map (fun row => (fst row, nth (Z.to_nat (snd row)) (plan_hashes q) [])) rows)
  end.

(** The rows name groups and results that there are. *)
Fixpoint plan_ok (p : plan) : Prop :=
  match p with
  | NewGroups n => True
  | RawInput p rows => plan_ok p /\ Forall (fun row => 0 <= fst row < Z.of_nat (length (plan_hashes p))) rows
  | IntermediateResults p q rows =>
      plan_ok p /\ plan_ok q /\ Forall (fun row => 0 <= fst row < Z.of_nat (length (plan_hashes p)) /\ 0 <= snd row < Z.of_nat (length (plan_hashes q))) rows
  end.

(** The hashes of all the values. *)
Fixpoint plan_values (p : plan) : list Z :=
  match p with
  | NewGroups n => []
  | RawInput p rows => plan_values p ++ omap (fun row => hashOne <$> snd row) rows
  | IntermediateResults p q rows => plan_values p ++ plan_values q
  end.

Lemma add_raw_ok {B} L g hs v :
  room B L -> (forall x, v = Some x -> fits B L (hashOne x)) -> group_ok B L g hs ->
  exists g', add_raw hashOne L g v = Ok g' /\ group_ok B L g' (match v with None => hs | Some v => hashOne v :: hs end).
Proof.
  intros HL Hfits (Hok & Ha & Hnull). destruct v as [v|]; cbn [add_raw]; [|by exists g].
  destruct (append_ok L (value g) hs (hashOne v) HL Hok (Hfits v eq_refl) Ha) as (a & -> & Ha'). cbn [rbind]. eexists. split; [done|]. split_and!; [constructor; [by apply Hfits|done]|done|done].
Qed.

Lemma fetch_ok (P : option (list Z) -> list Z -> Prop) results hss rows :
  Forall2 P results hss -> Forall (fun row : Z * Z => 0 <= snd row < Z.of_nat (length hss)) rows ->
  exists args, fetch results rows = Ok args
    /\ Forall2 (fun r s => fst r = fst s /\ P (snd r) (snd s)) args (map (fun row => (fst row, nth (Z.to_nat (snd row)) hss [])) rows).
Proof.
  intros HP. induction 1 as [|[g i] rows Hi _ IH]; [by exists []|]. destruct IH as (args & Hargs & Hall). cbn [fetch fst snd] in *.
  pose proof (Forall2_length _ _ _ HP) as Hlen. destruct (lookup_lt_is_Some_2 results (Z.to_nat i) ltac:(lia)) as [r Hr].
  destruct (Forall2_lookup_l _ _ _ _ _ HP Hr) as (hs & Hhs & Hok). rewrite (at_index_ok results i r) by (lia || done). rewrite Hargs. cbn [rbind].
  eexists. split; [done|]. cbn [map]. constructor; [|done]. cbn [fst snd]. by rewrite (nth_lookup_Some hss (Z.to_nat i) [] hs Hhs).
Qed.

Lemma run_plan_ok {B} L p : room B L -> Forall (fits B L) (plan_values p) -> plan_ok p -> exists gs, run_plan L p = Ok gs /\ Forall2 (group_ok B L) gs (plan_hashes p).
Proof.
  intros HL. induction p as [n|p IH rows|p IHp q IHq rows]; cbn [plan_ok run_plan plan_hashes plan_values].
  - intros _ _. eexists. split; [done|]. unfold initializeNewGroups. induction n as [|n IH]; constructor; [|done]. split_and!; [constructor|constructor|done].
  - intros [Hfits Hfits']%Forall_app [Hp Hrows]. destruct (IH Hfits Hp) as (gs & -> & Hgs). cbn [rbind].
    apply (on_groups_ok L _ _ (fun x y => x = y /\ forall v, x = Some v -> fits B L (hashOne v))); [|done| |done];
      [intros g hs x y [-> Hx] Hg; by apply add_raw_ok|]. apply Forall2_same_length_lookup_2; [done|].
    intros i x y Hx Hy. rewrite Hx in Hy. injection Hy as <-. split_and!; [done|done|]. intros v Hv. rewrite Forall_forall in Hfits'. apply Hfits'.
    apply list_elem_of_omap. exists x. split; [by apply (list_elem_of_lookup_2 _ i)|]. by rewrite Hv.
  - intros [Hfits Hfits']%Forall_app (Hp & Hq & Hrows). destruct (IHp Hfits Hp) as (gs & -> & Hgs). destruct (IHq Hfits' Hq) as (qs & -> & Hqs). cbn [rbind].
    destruct (extractAccumulators_ok L qs _ HL Hqs) as (qs' & rs & -> & _ & Hrs). cbn [rbind snd].
    destruct (fetch_ok _ rs _ rows Hrs) as (args & -> & Hargs); [apply (Forall_impl _ _ _ Hrows); intros row Hrow; apply Hrow|]. cbn [rbind].
    apply (on_groups_ok L _ _ _ gs _ args _ (fun g hs r hs' HR => add_intermediate_ok L g hs r hs' HL HR) Hgs Hargs).
    apply Forall_forall. intros r [k Hk]%list_elem_of_lookup_1. destruct (Forall2_lookup_l _ _ _ _ _ Hargs Hk) as (s & Hs & Heq & _).
    apply list_lookup_fmap_Some_1 in Hs as (row & -> & Hrow). cbn [fst] in Heq. rewrite Heq. apply (Forall_lookup_1 _ _ _ _ Hrows Hrow).
Qed.

Lemma plan_values_ok p : (forall v, hash_ok (hashOne v)) -> Forall hash_ok (plan_values p).
Proof.
  intros Hh. induction p as [n|p IH rows|p IHp q IHq rows]; cbn [plan_values]; [constructor| |by apply Forall_app].
  apply Forall_app. split; [done|]. apply Forall_forall. intros h (row & _ & Hrow)%list_elem_of_omap. destruct (snd row) as [v|]; [|done].
  cbn in Hrow. injection Hrow as <-. apply Hh.
Qed.
End Plans.
Arguments plan : clear implicits.
Arguments NewGroups {A} n.
Arguments RawInput {A} p rows.
Arguments IntermediateResults {A} p q rows.

(** An accumulator in the dense layout. *)
Definition dense_form (L : Z) (a : HllAccumulator) : result DenseHll :=
  if isSparse_ a then let! d := make_DenseHll L in toDense (sparseHll_ a) d else Ok (denseHll_ a).

Lemma dense_form_ok {B} L a hs :
  room B L -> Forall (fits B L) hs -> accumulator_ok B L a hs ->
  isSparse_ a = (Z.of_nat (distinct hs) <? limit L)
  /\ exists d, dense_form L a = Ok d /\ forall j, 0 <= j < 2 ^ L -> getValue (view_of d) j = Ok (register L hs j).
Proof.
  intros HL Hok Ha. assert (isSparse_ a = (Z.of_nat (distinct hs) <? limit L)) as Hsp by (unfold accumulator_ok in Ha; destruct (_ <? _); apply Ha). split; [done|].
  assert (exists d, dense_form L a = Ok d /\ dense_rep B d (registers L hs)) as (d & Hd & Hr).
  { unfold dense_form. rewrite Hsp. unfold accumulator_ok in Ha. destruct (_ <? _); [|eexists; split; [done|apply Ha]].
    destruct (make_DenseHll_ok L (proj1 HL) (proj2 HL)) as (d & -> & Hdr & HdL). cbn [rbind]. rewrite <- registers_nil in Hdr.
    destruct (toDense_ok (sparseHll_ a) d L [] hs (ss_rep _ _ _ Ha) Hdr HdL Hok) as (d' & Hrun & Hd' & _). rewrite app_nil_r in Hd'. by exists d'. }
  exists d. split; [done|]. intros j Hj. assert (registers L hs !! Z.to_nat j = Some (register L hs j)) as Hrj by (rewrite registers_lookup, Z2Nat.id by lia; done).
  pose proof (getValue_ok d _ _ _ Hr Hrj) as Hv. by rewrite Z2Nat.id in Hv by lia.
Qed.

(** C8. Partial aggregation: however the rows are spread over groups, and however often intermediate results are serialized and
    merged, the aggregation ends without an error, a group is null exactly if it has no values, and its accumulator has the
    registers of all its values. It is in the sparse layout exactly if the values fall into fewer of the [2 ^ 26] buckets
    than the limit, so the layout never depends on the order. There are [2 ^ 4] to [2 ^ 16] buckets; with [2 ^ 15] or [2 ^ 16], all the
    values together give fewer than [2 ^ 15] buckets a register above 15. *)
Theorem aggregation_registers {A} (hashOne : A -> Z) L (p : plan A) :
  4 <= L <= 16 -> (forall v, hash_ok (hashOne v)) -> few_large L (plan_values hashOne p) -> plan_ok hashOne p ->
  exists gs, run_plan hashOne L p = Ok gs /\ length gs = length (plan_hashes hashOne p)
    /\ forall i g hs, gs !! i = Some g -> plan_hashes hashOne p !! i = Some hs ->
         (isNull g = true <-> hs = [])
         /\ (hs <> [] -> isSparse_ (value g) = (Z.of_nat (distinct hs) <? limit L)
              /\ exists d, dense_form L (value g) = Ok d /\ forall j, 0 <= j < 2 ^ L -> getValue (view_of d) j = Ok (register L hs j)).
Proof.
  intros HL Hh Hfew Hp. destruct (few_large_fits L _ HL Hfew (plan_values_ok hashOne p Hh)) as (B & Hroom & Hfits). pose proof (conj HL Hroom : room B L) as HB.
  destruct (run_plan_ok hashOne L p HB Hfits Hp) as (gs & -> & Hgs). exists gs. split_and!; [done|by apply (Forall2_length (group_ok B L))|].
  intros i g hs Hg Hhs. destruct (Forall2_lookup_lr _ _ _ _ _ _ Hgs Hg Hhs) as (Hok & Ha & Hnull). split; [done|]. intros Hne.
  destruct Ha as [|a hs _ Ha]; [done|]. by apply (dense_form_ok L a hs HB).
Qed.

(** Four values in two groups, one of which is merged with the other and becomes dense; the third group is null. *)
Lemma aggregation_registers_witness :
  exists gs, run_plan (fun v => v mod 2 ^ 64) 4
      (IntermediateResults (RawInput (NewGroups 3) [(0, Some 5); (1, None); (0, Some (2 ^ 60))]) (RawInput (NewGroups 2) [(0, Some (2 ^ 61)); (0, Some (2 ^ 62))]) [(0, 0); (1, 0); (2, 1)]) = Ok gs
    /\ length gs = 3%nat
    /\ forall i g hs, gs !! i = Some g -> [[2 ^ 62; 2 ^ 61; 2 ^ 60; 5]; [2 ^ 62; 2 ^ 61]; []] !! i = Some hs ->
         (isNull g = true <-> hs = [])
         /\ (hs <> [] -> isSparse_ (value g) = (Z.of_nat (distinct hs) <? limit 4)
              /\ exists d, dense_form 4 (value g) = Ok d /\ forall j, 0 <= j < 2 ^ 4 -> getValue (view_of d) j = Ok (register 4 hs j)).
Proof.
  apply (aggregation_registers (fun v => v mod 2 ^ 64) 4
    (IntermediateResults (RawInput (NewGroups 3) [(0, Some 5); (1, None); (0, Some (2 ^ 60))]) (RawInput (NewGroups 2) [(0, Some (2 ^ 61)); (0, Some (2 ^ 62))]) [(0, 0); (1, 0); (2, 1)])).
  - lia.
  - intros v. apply Z.mod_pos_bound. lia.
  - left. lia.
  - cbn. repeat first [done | split; cbn; lia | apply conj | apply Forall_cons; split | apply Forall_nil; done].
Defined.

(** C7. The intermediate result of a group depends on the set of its hashes alone: groups of any two aggregations with the
    same set, whatever the order of the rows, their repetitions, their spread over partial aggregations and the order of the merges, are
    extracted as the same bytes, or are both null. There are [2 ^ 4] to [2 ^ 16] buckets; with [2 ^ 15] or [2 ^ 16], all the values of an
    aggregation together give fewer than [2 ^ 15] buckets a register above 15. *)
Theorem aggregation_deterministic {A} (hashOne : A -> Z) L (p q : plan A) i j hs hs' :
  4 <= L <= 16 -> (forall v, hash_ok (hashOne v)) -> few_large L (plan_values hashOne p) -> few_large L (plan_values hashOne q) -> plan_ok hashOne p -> plan_ok hashOne q ->
  plan_hashes hashOne p !! i = Some hs -> plan_hashes hashOne q !! j = Some hs' -> (forall h, h ∈ hs <-> h ∈ hs') ->
  exists gs gs' rs rs' r,
    (let! gs := run_plan hashOne L p in extractAccumulators gs) = Ok (gs, rs) /\ (let! gs := run_plan hashOne L q in extractAccumulators gs) = Ok (gs', rs')
    /\ rs !! i = Some r /\ rs' !! j = Some r.
Proof.
  intros HL Hh Hfew Hfew' Hp Hq Hi Hj Heq. destruct (few_large_fits L _ HL Hfew (plan_values_ok hashOne p Hh)) as (B & Hroom & Hfits).
  destruct (few_large_fits L _ HL Hfew' (plan_values_ok hashOne q Hh)) as (B' & Hroom' & Hfits').
  pose proof (conj HL Hroom : room B L) as HB. pose proof (conj HL Hroom' : room B' L) as HB'.
  destruct (run_plan_ok hashOne L p HB Hfits Hp) as (gs & -> & Hgs). destruct (run_plan_ok hashOne L q HB' Hfits' Hq) as (gs' & -> & Hgs'). cbn [rbind].
  destruct (extractAccumulators_ok L gs _ HB Hgs) as (gs2 & rs & -> & _ & Hrs). destruct (extractAccumulators_ok L gs' _ HB' Hgs') as (gs2' & rs' & -> & _ & Hrs').
  destruct (Forall2_lookup_r _ _ _ _ _ Hrs Hi) as (r & Hr & _ & Hbytes). destruct (Forall2_lookup_r _ _ _ _ _ Hrs' Hj) as (r' & Hr' & _ & Hbytes').
  exists gs2, gs2', rs, rs', r. split_and!; try done. rewrite Hr'. f_equal. destruct r as [b|], r' as [b'|]; try done.
  - destruct Hbytes as [_ Hb], Hbytes' as [_ Hb']. f_equal. symmetry. by apply (stands_for_unique L b b' hs hs' Hb Hb').
  - destruct Hbytes as [Hne _]. subst hs'. destruct hs as [|h hs]; [done|]. by pose proof (proj1 (Heq h) (list_elem_of_here _ _)) as ?%elem_of_nil.
  - destruct Hbytes' as [Hne _]. subst hs. destruct hs' as [|h hs']; [done|]. by pose proof (proj2 (Heq h) (list_elem_of_here _ _)) as ?%elem_of_nil.
Qed.

(** Four values at once, and in two partial aggregations with one of them twice. *)
Lemma aggregation_deterministic_witness :
  exists gs gs' rs rs' r,
    (let! gs := run_plan (fun v => v mod 2 ^ 64) 4 (RawInput (NewGroups 1) [(0, Some 5); (0, Some (2 ^ 60)); (0, Some (2 ^ 61)); (0, Some (2 ^ 62))]) in extractAccumulators gs) = Ok (gs, rs)
    /\ (let! gs := run_plan (fun v => v mod 2 ^ 64) 4
          (IntermediateResults (RawInput (NewGroups 1) [(0, Some (2 ^ 60)); (0, Some 5)]) (RawInput (NewGroups 1) [(0, Some (2 ^ 62)); (0, Some (2 ^ 61)); (0, Some 5)]) [(0, 0)]) in
        extractAccumulators gs) = Ok (gs', rs')
    /\ rs !! 0%nat = Some r /\ rs' !! 0%nat = Some r.
Proof.
  apply (aggregation_deterministic (fun v => v mod 2 ^ 64) 4 (RawInput (NewGroups 1) [(0, Some 5); (0, Some (2 ^ 60)); (0, Some (2 ^ 61)); (0, Some (2 ^ 62))])
    (IntermediateResults (RawInput (NewGroups 1) [(0, Some (2 ^ 60)); (0, Some 5)]) (RawInput (NewGroups 1) [(0, Some (2 ^ 62)); (0, Some (2 ^ 61)); (0, Some 5)]) [(0, 0)])
    0 0 [2 ^ 62; 2 ^ 61; 2 ^ 60; 5] [5; 2 ^ 61; 2 ^ 62; 5; 2 ^ 60]).
  - lia.
  - intros v. apply Z.mod_pos_bound. lia.
  - left. lia.
  - left. lia.
  - cbn. repeat first [done | split; cbn; lia | apply conj | apply Forall_cons; split | apply Forall_nil; done].
  - cbn. repeat first [done | split; cbn; lia | apply conj | apply Forall_cons; split | apply Forall_nil; done].
  - done.
  - done.
  - intros h. rewrite !elem_of_cons, elem_of_nil. tauto.
Defined.
